(* ===== verification/_CoqProject ===== *)
-Q . S2P
Prelude.v
GoBinary.v
GoUtf8.v
GoStrconv.v
GoText.v
GoSort.v
GoFloat.v
CsRecord.v
CsCollection.v
CsIndex.v
CsLog.v
CsReads.v
CsWrite.v
CsDurable.v
CsFilter.v
CsWalk.v
CsRank.v
CsStore.v
CsStoreSpec.v
CsSync.v
CsOpen.v
LtRegistry.v
LtDrain.v
LtGroup.v
RtSegments.v
CvKinds.v
RiPlan.v
CvCompaction.v
DsSupervisor.v
DsControl.v
TkCap.v
AdRetry.v
SiSse.v
GoSha256.v
GoJson.v
CvRecord.v
CvScan.v
CvIndex.v
CvRefresh.v
CvRequest.v
CvList.v
VsRows.v
VsEmbed.v
VsState.v
VsUpsert.v
VsSearch.v
VsLocal.v
MtRedact.v
MtRedactSpec.v
MtRelay.v
AdUsage.v
AdUsageView.v
AdUsageScalar.v
AdUsageJson.v
AdUsageSpec.v
TrMessage.v
TrShape.v
ExFilter.v
ExExport.v
ExRelate.v
ExSpec.v
GoRegexp.v
GoBase64.v
GoJsonText.v
TrInput.v
TrMatch.v
TrTimes.v
ReClean.v
RePage.v
RePageSpec.v
ReStable.v
GoPath.v
AdModel.v
AdCatalog.v
AdModelSpec.v
AdCatalogSpec.v
