(* ===== verification/Prelude.v ===== *)
(** * Clyde: verified models of its conversation store and daemon core

    Clyde is a daemon and a command line that sit between coding agents and model
    providers.  It records conversations, keeps them searchable, relays and rewrites the
    traffic of the agents, and restarts itself without losing connections.  This library
    models the parts of it that carry state or invariants of their own.

    ** The parts and how they interact

    - The index of conversations finds the transcripts of every provider by incremental
      scans ([CvScan]), keeps the records ([CvRecord]) in two files and never drops one that
      a scan no longer finds ([CvIndex]); one refresh runs at a time ([CvRefresh]).  It
      resolves selectors and request ids ([CvRequest]), lists and searches ([CvList]).
    - A conversation is loaded from a transcript and filtered by content kinds and load
      rules ([CvKinds]); its compactions cut it into segments ([CvCompaction]).  Its messages
      ([TrMessage]) are shaped and rendered ([TrShape]); the tool calls it saved are matched with
      those of its source ([TrInput], [TrMatch]) and its texts are dated by it ([TrTimes]); an
      export selects segments and
      messages, filters them by content kinds and renders them ([ExFilter], [ExExport]).
      After a compaction an agent recovers what came before it, cleaned of what earlier
      injections left ([ReClean]), page by page ([RePage]).
    - The vector search turns message documents into rows ([VsRows]), compares them with
      the stored ones ([VsState]), embeds and writes what is missing ([VsEmbed]), records
      a fingerprint of what it wrote ([VsUpsert]) and answers queries ([VsSearch], [VsLocal]).
    - The rows live in the code store: a log of framed records with an index in memory
      ([CsRecord] ... [CsOpen]), searched by the Hamming distance of sign codes.
    - When an agent compacts its context, the proxy keeps the newest part verbatim under a
      token budget ([RiPlan], with the counters of [TkCap]) in a framed form ([RtSegments]);
      a configured keyword forces a response instead ([SiSse]).
    - The catalog of models in the configuration is validated on loading ([AdCatalog]) and
      becomes the registry that resolves the model of a request ([AdModel]).
    - Requests upstream are retried under policies ([AdRetry]).  Of a stream that is relayed
      unchanged the token usage is read on the way, by a parser that keeps a bounded amount
      of it ([AdUsage], proved in [AdUsageSpec]).
    - The proxy stores the exchanges it relays with their credentials removed ([MtRedact],
      proved in [MtRedactSpec]) and bridges websockets ([MtRelay]).
    - Every long-lived session of the daemon is in a registry ([LtRegistry], [LtDrain]); the
      registries are shut down in phases ([LtGroup]); the process itself is replaced by its
      supervisor ([DsSupervisor], [DsControl]).

    ** Files and sources

    All paths are under src/internal.  A definition has the name of the Go function, method
    or type it models.

    - Prelude: bytes, machine integers, [outcome] (a return, an error or a panic), slices
      that panic, and the lemmas shared by all components.
    - GoBinary, GoUtf8, GoStrconv, GoText, GoSort, GoFloat, GoSha256, GoJson, GoBase64,
      GoJsonText, GoRegexp, GoPath: what the program uses of encoding/binary, hash/crc32, unicode/utf8, strings,
      strconv, sort, math, crypto/sha256, encoding/hex, encoding/json, encoding/base64,
      regexp and path.  Where the standard library leaves a result to Unicode
      tables or to the machine, it is an argument or a class.
    - conversation/codestore: CsRecord (record.go), CsCollection, CsIndex, CsLog and CsReads
      (collection.go; CsReads is the replay with reads that fail), CsWrite and CsDurable (collection.go, compact.go), CsFilter
      (filter.go), CsWalk and CsRank (rank.go), CsStore and CsStoreSpec (store.go,
      update.go), CsSync (coherence.go), CsOpen (the concurrency of store.go).
    - conversation/vectorsearch: VsRows (rows.go), VsEmbed (embed.go), VsState (state.go),
      VsUpsert (checkpoint.go, ingest.go), VsSearch (filter.go, client.go), VsLocal
      (backend_local.go).
    - conversation: CvRecord (types.go, lineage.go, origin.go, providerid/provider.go and the
      lookups of index.go), CvScan (scan.go, parser.go), CvIndex (index.go,
      index_records.go, retained.go), CvRefresh (the concurrency of index.go), CvRequest
      (request.go and the resolution of index.go), CvList (list.go, raw_text_search.go),
      CvKinds (contentkind.go, loadrules.go), CvCompaction (compaction.go,
      compaction_segments.go); ExFilter (export_compaction_filter.go,
      export_injected_transcript.go) and ExExport (export.go, export_last_n.go,
      export_sanitize.go, compaction_export.go) with the proofs in ExRelate and ExSpec;
      ReClean and RePage (reorient.go, reorient_render.go) with the proofs in RePageSpec and
      ReStable.
    - transcript: TrMessage (transcript.go, compaction_items.go), TrShape (conversation.go,
      render.go), TrInput and TrMatch (tool_input.go), TrTimes (source_times.go).
    - reorienttag: RtSegments (segments.go, tags.go).  reorientinject: RiPlan (contract.go,
      plan.go, splitter.go, unframed.go).  tokencount: TkCap.  sentinelinject: SiSse.
    - livetrack: LtRegistry (registry.go, parent.go, closer.go), LtDrain (drain.go and the
      interleavings), LtGroup (group.go, group_member.go).
    - daemonsupervisor: DsSupervisor and DsControl (supervisor.go).
    - adapter/model and adapter/resolver: AdModel (models.go, resolve_error.go,
      registry_bridge.go, resolve.go) with the proof in AdModelSpec.  config: AdCatalog
      (model_catalog.go) with the proofs in AdCatalogSpec.
    - adapter/retry and adapter/codex: AdRetry.  adapter: AdUsage (passthrough_sse_usage.go,
      passthrough_sse_types.go), with the proof in AdUsageView (frames and counters),
      AdUsageScalar (numbers and literals), AdUsageJson (strings and containers) and
      AdUsageSpec (lines and events).
    - mitm: MtRedact and MtRedactSpec (capture/redact.go), MtRelay (ws_capture.go).

    ** State, errors and concurrency

    A struct is a [Record]; a method that changes it returns the new state, and a method that
    fails returns an [outcome].  Files are byte sequences.  The outcomes of the calls that
    change files (write, sync, create, truncate, rename) and of locking are arguments where
    a handler makes them, so that each can fail.  Reading is plainer: a file that is loaded is
    absent, unreadable or its bytes, and a file that is open can be read; the one replay whose
    reads can fail one by one is that of the row log ([CsReads]), since what it does then
    decides whether records are lost.  The pipeline of the vector
    search is written in a state and error monad over the class [Backend] (the embedding
    endpoint and the store).  Components that several goroutines or processes enter at once
    are step relations whose steps are the atomic actions of the code: [CsOpen],
    [CvRefresh], [LtDrain], [LtGroup], [DsSupervisor], [MtRelay].  A Go map that the code ranges over is a list in an arbitrary
    order.

    ** What the theorems show

    - Code store: decoding never reads out of bounds and what it returns is well formed; a
      torn log loses only the records after the tear, and a log that can be read is never truncated when a
      complete frame follows, and a read that fails can lose records only at a frame header
      (it does lose them there); the index refines a map from ids to records; a write is its
      batch on that map, with or without a compaction; a handle that has synchronised agrees
      with the files; searching returns exactly the greedy walk over the sorted matches.
    - Vector search: fields are cut without loss and families are disjoint; comparing stored
      and wanted rows is exact; a plan that was carried out is empty the next time; every
      planned row is acknowledged or dropped, and an ingest counts exactly those; the rounds end; a fingerprint is recorded
      only for content that was written; the filter tree means what the request says.
    - Index of conversations: an incremental scan gives what re-reading every transcript gives, also
      when metadata that a provider flags has changed and when a transcript cannot be read; a
      known conversation stays known through refreshes, failures and restarts, except for two
      losses that are stated; a waiting caller gets the outcome of the refresh it waits for
      and can always return; a request id is never answered by a guess, and a miss is
      conclusive only if everything was read; paging ends and shows every match once; a raw
      search returns a page of the first matches, with exact counts.
    - Compaction: the kept part fits its budget and is recovered from its framed form exactly.
    - Export: two conversations that agree on everything that is selected have the same
      export, whatever else they hold; the newest messages are exactly the asked ones; an
      export succeeds only when every injected transcript in it could be filtered.
    - Recovery: what an injection wrote is removed exactly; the snapshot before the latest
      compaction does not change while the conversation goes on; following the cursors
      delivers all of it, once and in order, in pages of bounded size that split no rune; the
      cuts keep the newest lines and bytes.
    - Text caps and event streams: a cap is within its budget; a forced response replaces
      exactly the text blocks.
    - Usage of relayed streams: in whatever chunks the stream arrives, the parser answers what
      a parser of whole documents would read off the last event that ends a response; nesting
      beyond 64 levels and keys beyond 64 bytes do not confuse it.
    - Models: the registry is the declared catalog, entry for entry, and answers by it; what
      passes the validation fails to become a registry only for colliding generated aliases or
      an override of blanks (given valid core settings); in a registry the default model and
      every listed alias resolve; the effort of an answer is the requested, the bound or the default one, and is declared.
    - Transcripts: two tool inputs are the same exactly when they have one JSON value; a saved
      call is placed exactly when all ways to match the calls in order agree; a text is dated
      exactly when all that spells it agrees.
    - Lifecycle: a drain leaves no session, no closer runs twice, the phases of a shutdown
      are ordered, the supervisor leaves no worker behind and can always stop.
    - Captures: what is stored of an exchange has no credential header; a JSON object or array
      is stored with no collected credential left in a value, and a text with none left in it, or not
      at all; when a credential could not be collected nothing is stored.  The bodies that
      escape are stated: field names, a single string, repeated names, a byte order mark.  A relay delivers in order and loses at most the message on its way; its
      captured bodies are prefixes, which can miss a message that was delivered last.
    - Some theorems state a behaviour that the code does not announce: a panic on an
      unencodable string and on a page size that wraps, a blank line too many, a compaction
      that a cursor does not notice, a start that hangs, a byte cap that is lost, keys that coincide,
      blank pieces that are planned again, a log that a failed read cuts, retained records that are overwritten, a snippet
      that a clamp changes, a configuration that is accepted and then refused.

    ** Fuel and bounds

    Loops that are not structural take fuel that is shown to be enough: the length of the
    input for parsers, scanners and splitters (each turn consumes a byte), the remaining
    length for the comparison of families, the longest content plus one for the rounds of
    embedding (a rejected input is halved), the number of records for the replay of a log.
    The theorems about these loops are about the functions with their own fuel, so they are
    total.  Integers keep their width where the code can overflow ([i64], [u64], [u32]).

    ** Parameters

    JSON codecs of structs (of exports the class [ExportCodecs]), the printed form of a time,
    the Unicode tables, the shell parser, the o200k token codec, the
    authoritative token counters, flock, conversions of floats that do not fit an integer,
    the embedding endpoint, the zstd decoder, the random numbers of the jitter, the clock and
    the order in which a map of the configuration is visited.  Each enters as
    an argument or a class; what the code relies on is a named hypothesis with an instance.

    ** Not modelled

    The bodies of the translation between model APIs, the TLS proxy, the gRPC services, the command
    line and the MCP server: wire formats, input and output, with no state that a theorem
    about this code would speak of without a model of the peer.  Provider transcript parsers,
    the decoding of configuration files and the Milvus client depend on formats and services that are not
    part of the sources.  Generated bindings are left out.  The windows around search
    hits, the repairs of stored rows and the tokenizer of the bundled model assemble results
    of components that are modelled, or of data files, and carry no state of their own. *)

From stdpp Require Export base tactics numbers list gmap sets strings sorting.
From Stdlib Require Export ZArith Lia.
From Stdlib Require Export Strings.Byte.

#[global] Set Default Goal Selector "!".

Declare Scope go_scope.
Delimit Scope go_scope with go.

(** ** Bytes and Go strings *)

(** A Go string and a Go byte slice are both sequences of bytes. *)
Abbreviation bytes := (list Byte.byte).

#[export] Instance byte_eq_dec : EqDecision Byte.byte := Byte.byte_eq_dec.

(** The unsigned value of a byte. *)
Definition b2z (b : Byte.byte) : Z := Z.of_N (Byte.to_N b).

(** Go's conversion [byte(x)]: truncation to eight bits. *)
Definition z2b (z : Z) : Byte.byte :=
  match Byte.of_N (Z.to_N (z mod 256)) with
  | Some b => b
  | None => Byte.x00
  end.

(** A Go string literal. *)
Definition lit (s : string) : bytes := String.list_byte_of_string s.
Arguments lit s%_stdpp_scope.

(** ** Machine integers *)

Definition maxInt64 : Z := 2 ^ 63 - 1.
Definition minInt64 : Z := - 2 ^ 63.

(** Wrap-around of the unsigned 64-bit and 32-bit types. *)
Definition u64 (x : Z) : Z := x mod 2 ^ 64.
Definition u32 (x : Z) : Z := x mod 2 ^ 32.

(** Two's complement wrap-around of [int64] (and of [int], 64 bits wide). *)
Definition i64 (x : Z) : Z := (x + 2 ^ 63) mod 2 ^ 64 - 2 ^ 63.

(** ** Outcomes of fallible code

    [Ok v] is a normal return, [Fail e] a return with a non-nil error, and
    [Panic] a run-time panic (an index or a slice bound out of range). *)
Inductive outcome (E A : Type) : Type :=
| Ok (a : A)
| Fail (e : E)
| Panic.
Arguments Ok {E A} a.
Arguments Fail {E A} e.
Arguments Panic {E A}.

#[export] Instance outcome_ret E : MRet (outcome E) := fun A a => Ok a.
#[export] Instance outcome_bind E : MBind (outcome E) := fun A B f m =>
  match m with
  | Ok a => f a
  | Fail e => Fail e
  | Panic => Panic
  end.

(** The Go slice expression [s[a:b]] on offsets known to be in range. *)
Definition slice {A} (s : list A) (a b : Z) : list A :=
  take (Z.to_nat (b - a)) (drop (Z.to_nat a) s).

(** [len(s)] as a Go [int]. *)
Definition zlen {A} (s : list A) : Z := Z.of_nat (length s).

(** ** Automation *)

Create HintDb go discriminated.
Create Rewrite HintDb golen.

(** Split the first [match] or [if] on which the goal is blocked. *)
Ltac split_match :=
  match goal with
  | |- context [match ?x with _ => _ end] =>
      lazymatch x with
      | context [match _ with _ => _ end] => fail
      | _ => destruct x eqn:?
      end
  end.

(** The same on a hypothesis. *)
Ltac split_match_in H :=
  match type of H with
  | context [match ?x with _ => _ end] =>
      lazymatch x with
      | context [match _ with _ => _ end] => fail
      | _ => destruct x eqn:?
      end
  end.

(** Turn boolean comparisons of the code into propositions. *)
Ltac reflect_bools :=
  repeat match goal with
  | H : _ && _ = true |- _ => apply andb_true_iff in H as [? ?]
  | H : _ || _ = false |- _ => apply orb_false_iff in H as [? ?]
  | H : negb _ = true |- _ => apply negb_true_iff in H
  | H : negb _ = false |- _ => apply negb_false_iff in H
  | H : (_ <? _)%Z = true |- _ => apply Z.ltb_lt in H
  | H : (_ <? _)%Z = false |- _ => apply Z.ltb_ge in H
  | H : (_ <=? _)%Z = true |- _ => apply Z.leb_le in H
  | H : (_ <=? _)%Z = false |- _ => apply Z.leb_gt in H
  | H : (_ =? _)%Z = true |- _ => apply Z.eqb_eq in H
  | H : (_ =? _)%Z = false |- _ => apply Z.eqb_neq in H
  | H : (_ <? _)%nat = true |- _ => apply Nat.ltb_lt in H
  | H : (_ <? _)%nat = false |- _ => apply Nat.ltb_ge in H
  | H : (_ <=? _)%nat = true |- _ => apply Nat.leb_le in H
  | H : (_ <=? _)%nat = false |- _ => apply Nat.leb_gt in H
  | H : (_ =? _)%nat = true |- _ => apply Nat.eqb_eq in H
  | H : (_ =? _)%nat = false |- _ => apply Nat.eqb_neq in H
  | H : bool_decide _ = true |- _ => apply bool_decide_eq_true in H
  | H : bool_decide _ = false |- _ => apply bool_decide_eq_false in H
  end.

(** ** Bytes *)

Lemma b2z_range b : (0 <= b2z b < 256)%Z.
Proof.
  unfold b2z. pose proof (Byte.to_N_bounded b). lia.
Qed.

Lemma b2z_z2b z : b2z (z2b z) = (z mod 256)%Z.
Proof.
  unfold b2z, z2b. pose proof (Z.mod_pos_bound z 256 ltac:(lia)) as Hb.
  destruct (Byte.of_N (Z.to_N (z mod 256))) as [b|] eqn:E.
  - apply Byte.to_of_N in E. rewrite E. lia.
  - apply Byte.of_N_None_iff in E. lia.
Qed.

Lemma z2b_b2z b : z2b (b2z b) = b.
Proof.
  unfold z2b. rewrite Z.mod_small by apply b2z_range.
  unfold b2z. rewrite N2Z.id, Byte.of_to_N. done.
Qed.

Lemma b2z_inj a b : b2z a = b2z b -> a = b.
Proof. intros H. rewrite <- (z2b_b2z a), <- (z2b_b2z b). by rewrite H. Qed.

#[export] Instance byte_countable : Countable Byte.byte.
Proof.
  refine (inj_countable' (fun b => Byte.to_N b)
            (fun n => match Byte.of_N n with Some b => b | None => Byte.x00 end) _).
  intros b. by rewrite Byte.of_to_N.
Defined.

(** ** Wrap-around *)

Lemma u64_small x : (0 <= x < 2 ^ 64)%Z -> u64 x = x.
Proof. apply Z.mod_small. Qed.

Lemma u32_small x : (0 <= x < 2 ^ 32)%Z -> u32 x = x.
Proof. apply Z.mod_small. Qed.

Lemma i64_small x : (minInt64 <= x <= maxInt64)%Z -> i64 x = x.
Proof.
  unfold i64, minInt64, maxInt64. intros H. rewrite Z.mod_small; lia.
Qed.

Lemma i64_range x : (minInt64 <= i64 x <= maxInt64)%Z.
Proof.
  unfold i64, minInt64, maxInt64.
  pose proof (Z.mod_pos_bound (x + 2 ^ 63) (2 ^ 64) ltac:(lia)). lia.
Qed.

(** Disjoint bit ranges add up under [lor]. *)
Lemma lor_shiftl_add a b n :
  (0 <= n)%Z -> (0 <= a < 2 ^ n)%Z -> (0 <= b)%Z ->
  Z.lor a (Z.shiftl b n) = (a + b * 2 ^ n)%Z.
Proof.
  intros Hn Ha Hb. rewrite <- Z.shiftl_mul_pow2 by done.
  assert (Z.land a (Z.shiftl b n) = 0%Z) as Hland.
  { apply Z.bits_inj'. intros i Hi. rewrite Z.land_spec, Z.bits_0.
    destruct (Z.ltb_spec i n).
    - rewrite (Z.shiftl_spec_low b) by done. by rewrite andb_false_r.
    - destruct (decide (a = 0%Z)) as [->|]; [by rewrite Z.bits_0|].
      rewrite Z.bits_above_log2; [done| lia |].
      apply Z.log2_lt_pow2; [lia|].
      eapply Z.lt_le_trans; [apply Ha|]. apply Z.pow_le_mono_r; lia. }
  rewrite <- Z.lxor_lor by done. symmetry. by apply Z.add_nocarry_lxor.
Qed.

(** ** Lists and slices *)

Lemma zlen_nonneg {A} (s : list A) : (0 <= zlen s)%Z.
Proof. unfold zlen. lia. Qed.

Lemma zlen_app {A} (s t : list A) : zlen (s ++ t) = (zlen s + zlen t)%Z.
Proof. unfold zlen. rewrite length_app. lia. Qed.

Lemma zlen_cons {A} (x : A) s : zlen (x :: s) = (1 + zlen s)%Z.
Proof. unfold zlen. simpl. lia. Qed.

Lemma zlen_nil {A} : zlen (@nil A) = 0%Z.
Proof. done. Qed.

Lemma to_nat_zlen {A} (s : list A) : Z.to_nat (zlen s) = length s.
Proof. unfold zlen. lia. Qed.

#[export] Hint Rewrite @zlen_app @zlen_cons @zlen_nil : golen.

Lemma slice_length {A} (s : list A) a b :
  (0 <= a <= b)%Z -> (b <= zlen s)%Z -> zlen (slice s a b) = (b - a)%Z.
Proof.
  unfold slice, zlen. intros. rewrite length_take, length_drop. lia.
Qed.

(** A slice that skips a known prefix. *)
Lemma slice_app_skip {A} (p s : list A) a b :
  (zlen p <= a)%Z -> slice (p ++ s) a b = slice s (a - zlen p) (b - zlen p).
Proof.
  unfold slice, zlen. intros H. rewrite drop_app_ge by lia.
  f_equal; [lia|]. f_equal. lia.
Qed.

Lemma slice_app_head {A} (p s : list A) a b :
  a = 0%Z -> b = zlen p -> slice (p ++ s) a b = p.
Proof.
  intros -> ->. unfold slice. rewrite Z.sub_0_r, to_nat_zlen.
  rewrite drop_0. apply take_app_length.
Qed.

Lemma slice_mid {A} (p m s : list A) a b :
  a = zlen p -> b = (zlen p + zlen m)%Z -> slice (p ++ m ++ s) a b = m.
Proof.
  intros -> ->. rewrite slice_app_skip by lia. apply slice_app_head; lia.
Qed.

Lemma slice_slice {A} (s : list A) a b c d :
  (0 <= a)%Z -> (0 <= c <= d)%Z -> (a + d <= b)%Z ->
  slice (slice s a b) c d = slice s (a + c) (a + d).
Proof.
  unfold slice. intros. rewrite skipn_firstn_comm, drop_drop, take_take. f_equal; [lia|f_equal; lia].
Qed.

Lemma slice_lookup {A} (s : list A) a b i :
  (0 <= a)%Z -> (0 <= i < b - a)%Z -> slice s a b !! Z.to_nat i = s !! Z.to_nat (a + i).
Proof.
  unfold slice. intros. rewrite lookup_take_lt by lia. rewrite lookup_drop. f_equal. lia.
Qed.

Lemma slice_full {A} (s : list A) b : (zlen s <= b)%Z -> slice s 0 b = s.
Proof. unfold slice, zlen. intros. rewrite drop_0. apply take_ge. lia. Qed.

Lemma take_zlen_app {A} (s t : list A) : take (Z.to_nat (zlen s)) (s ++ t) = s.
Proof. rewrite to_nat_zlen. apply take_app_length. Qed.

(** ** [strings.Compare] *)

Fixpoint strCompare (a b : bytes) : Z :=
  match a, b with
  | [], [] => 0
  | [], _ :: _ => -1
  | _ :: _, [] => 1
  | x :: a, y :: b =>
      if (b2z x <? b2z y)%Z then -1 else if (b2z y <? b2z x)%Z then 1 else strCompare a b
  end.

Lemma strCompare_refl a : strCompare a a = 0%Z.
Proof. induction a as [|x a IH]; [done|]. cbn. by rewrite Z.ltb_irrefl. Qed.

Lemma strCompare_eq a b : strCompare a b = 0%Z -> a = b.
Proof.
  revert b. induction a as [|x a IH]; intros [|y b]; try done. cbn.
  destruct (Z.ltb_spec (b2z x) (b2z y)); [done|]. destruct (Z.ltb_spec (b2z y) (b2z x)); [done|].
  intros E. rewrite (IH b E). rewrite (b2z_inj x y); [done|lia].
Qed.

Lemma strCompare_opp a b : strCompare b a = (- strCompare a b)%Z.
Proof.
  revert b. induction a as [|x a IH]; intros [|y b]; try done. cbn.
  destruct (Z.ltb_spec (b2z x) (b2z y)), (Z.ltb_spec (b2z y) (b2z x)); try lia. apply IH.
Qed.

Lemma strCompare_le_trans a b c :
  (strCompare a b <= 0 -> strCompare b c <= 0 -> strCompare a c <= 0)%Z.
Proof.
  revert b c. induction a as [|x a IH]; intros [|y b] [|z c]; try done. cbn.
  destruct (Z.ltb_spec (b2z x) (b2z y)), (Z.ltb_spec (b2z y) (b2z x)), (Z.ltb_spec (b2z y) (b2z z)),
    (Z.ltb_spec (b2z z) (b2z y)), (Z.ltb_spec (b2z x) (b2z z)), (Z.ltb_spec (b2z z) (b2z x)); try lia.
  apply IH.
Qed.

Lemma list_elem_of_concat {A} (x : A) ls : x ∈ concat ls <-> exists l, x ∈ l /\ l ∈ ls.
Proof.
  induction ls as [|l ls IH]; cbn; [split; [by intros ?%not_elem_of_nil|by intros (? & _ & ?%not_elem_of_nil)]|].
  rewrite elem_of_app, IH. split.
  - intros [H|(k & Hx & Hk)]; [exists l; split; [done|apply list_elem_of_here]|exists k; split; [done|by apply list_elem_of_further]].
  - intros (k & Hx & [->|Hk]%elem_of_cons); eauto.
Qed.
