(* ===== verification/GoBinary.v ===== *)
(** * GoBinary: the parts of [encoding/binary] and [hash/crc32] the code store uses

    Little-endian fixed-width integers, zig-zag varints (with the overflow rules
    of [binary.Uvarint]) and the IEEE CRC-32, all executable, with their round
    trips and ranges. *)

From S2P Require Import Prelude.

Open Scope Z_scope.

(** ** Fixed-width little-endian integers *)

(** [binary.LittleEndian.AppendUint32] / [AppendUint64] for [n] = 4, 8. *)
Fixpoint leBytes (n : nat) (x : Z) : bytes :=
  match n with
  | O => []
  | S n => z2b x :: leBytes n (Z.shiftr x 8)
  end.

(** [binary.LittleEndian.Uint32] / [Uint64] on the first [n] bytes. *)
Fixpoint leValue (bs : bytes) : Z :=
  match bs with
  | [] => 0
  | b :: bs => Z.lor (b2z b) (Z.shiftl (leValue bs) 8)
  end.

(** ** Varints *)

Definition maxVarintLen64 : nat := 10.

(** [binary.AppendUvarint]: the appended bytes.  Ten iterations are enough for
    any 64-bit value. *)
Fixpoint uvarintBytes (fuel : nat) (x : Z) : bytes :=
  match fuel with
  | O => []
  | S fuel =>
      if 128 <=? x
      then z2b (Z.lor (Z.land x 255) 128) :: uvarintBytes fuel (Z.shiftr x 7)
      else [z2b x]
  end.

(** [binary.AppendVarint]: the appended bytes. *)
Definition varintBytes (x : Z) : bytes :=
  let ux := u64 (Z.shiftl (u64 x) 1) in
  let ux := if x <? 0 then u64 (Z.lnot ux) else ux in
  uvarintBytes maxVarintLen64 ux.

(** The loop of [binary.Uvarint] at index [i] with accumulator [x] and shift [s]. *)
Fixpoint uvarintLoop (buf : bytes) (i : nat) (x s : Z) : Z * Z :=
  match buf with
  | [] => (0, 0)
  | b :: buf =>
      if (i =? maxVarintLen64)%nat then (0, - (Z.of_nat i + 1))
      else if b2z b <? 128 then
        if (i =? maxVarintLen64 - 1)%nat && (1 <? b2z b) then (0, - (Z.of_nat i + 1))
        else (Z.lor x (u64 (Z.shiftl (b2z b) s)), Z.of_nat i + 1)
      else uvarintLoop buf (S i) (Z.lor x (u64 (Z.shiftl (Z.land (b2z b) 127) s))) (s + 7)
  end.

(** [binary.Uvarint]: the value and the number of bytes read. *)
Definition Uvarint (buf : bytes) : Z * Z := uvarintLoop buf 0 0 0.

(** [binary.Varint]. *)
Definition Varint (buf : bytes) : Z * Z :=
  let '(ux, n) := Uvarint buf in
  let x := i64 (Z.shiftr ux 1) in
  ((if Z.land ux 1 =? 0 then x else Z.lnot x), n).

(** ** CRC-32 (IEEE, reflected) *)

Definition crcPoly : Z := 0xEDB88320.

Definition crcBit (c : Z) : Z :=
  if Z.testbit c 0 then Z.lxor (Z.shiftr c 1) crcPoly else Z.shiftr c 1.

Definition crcByte (c : Z) (b : Byte.byte) : Z :=
  Nat.iter 8 crcBit (Z.lxor c (b2z b)).

(** [crc32.ChecksumIEEE]. *)
Definition ChecksumIEEE (bs : bytes) : Z :=
  Z.lxor (foldl crcByte (2 ^ 32 - 1) bs) (2 ^ 32 - 1).

(** ** Sanity: known values *)

Example crc_check_value : ChecksumIEEE (lit "123456789") = 0xCBF43926.
Proof. vm_compute. reflexivity. Qed.

Example varint_examples :
  varintBytes (-1) = [Byte.x01] /\ varintBytes 1 = [Byte.x02] /\
  varintBytes minInt64 = replicate 9 Byte.xff ++ [Byte.x01].
Proof. vm_compute. done. Qed.

(** ** Little-endian lemmas *)

Lemma leBytes_length n x : length (leBytes n x) = n.
Proof. revert x. induction n; intros; simpl; auto. Qed.

Lemma zlen_leBytes n x : zlen (leBytes n x) = Z.of_nat n.
Proof. unfold zlen. by rewrite leBytes_length. Qed.
#[export] Hint Rewrite zlen_leBytes : golen.

Lemma leValue_nonneg bs : 0 <= leValue bs.
Proof.
  induction bs as [|b bs IH]; cbn [leValue]; [lia|].
  pose proof (b2z_range b). rewrite lor_shiftl_add by lia. nia.
Qed.

Lemma leValue_leBytes n x :
  0 <= x < 2 ^ (8 * Z.of_nat n) -> leValue (leBytes n x) = x.
Proof.
  revert x. induction n as [|n IH]; intros x Hx; cbn [leValue leBytes].
  - change (2 ^ (8 * Z.of_nat 0)) with 1 in Hx. lia.
  - rewrite b2z_z2b, Z.shiftr_div_pow2 by lia. change (2 ^ 8) with 256.
    rewrite IH.
    + pose proof (Z.mod_pos_bound x 256 ltac:(lia)).
      rewrite lor_shiftl_add by (try apply Z.div_pos; lia).
      change (2 ^ 8) with 256. pose proof (Z.div_mod x 256). lia.
    + replace (8 * Z.of_nat (S n)) with (8 * Z.of_nat n + 8) in Hx by lia.
      rewrite Z.pow_add_r in Hx by lia. change (2 ^ 8) with 256 in Hx.
      split; [apply Z.div_pos; lia|]. apply Z.div_lt_upper_bound; lia.
Qed.

(** ** Varint lemmas *)

Lemma uvarintBytes_nonempty fuel x : (0 < fuel)%nat -> uvarintBytes fuel x <> [].
Proof. destruct fuel; [lia|]. simpl. by destruct (_ <=? _). Qed.

Lemma varintBytes_nonempty x : varintBytes x <> [].
Proof. apply uvarintBytes_nonempty. unfold maxVarintLen64. lia. Qed.

Lemma varintBytes_zlen_pos x : 0 < zlen (varintBytes x).
Proof.
  pose proof (varintBytes_nonempty x). unfold zlen.
  destruct (varintBytes x); [done|]. simpl. lia.
Qed.

(** The continuation byte: the low seven bits with the high bit set. *)
Lemma uvarint_cont_byte x :
  0 <= x -> b2z (z2b (Z.lor (Z.land x 255) 128)) = x mod 128 + 128.
Proof.
  intros Hx. rewrite b2z_z2b. change 255 with (Z.ones 8).
  rewrite Z.land_ones by lia. change (2 ^ 8) with 256.
  change 128 with (Z.shiftl 1 7) at 1.
  pose proof (Z.mod_pos_bound x 256 ltac:(lia)).
  assert (forall y, 0 <= y < 256 -> Z.lor y (Z.shiftl 1 7) mod 256 = y mod 128 + 128) as Hfin.
  { intros y Hy.
    assert (forallb (fun y => Z.lor y (Z.shiftl 1 7) mod 256 =? y mod 128 + 128)
      (map Z.of_nat (seq 0 256)) = true) as HF by (vm_compute; reflexivity).
    rewrite forallb_forall in HF. apply Z.eqb_eq, HF, in_map_iff.
    exists (Z.to_nat y). split; [lia|]. apply in_seq. lia. }
  rewrite Hfin by lia. f_equal. pose proof (Z.div_mod x 256). pose proof (Z.div_mod x 128).
  pose proof (Z.mod_pos_bound (x mod 256) 128 ltac:(lia)).
  apply (Z.mod_unique _ _ (2 * (x / 256) + (x mod 256) / 128)); [lia|].
  pose proof (Z.div_mod (x mod 256) 128). lia.
Qed.

Lemma uvarintLoop_bytes fuel : forall i x acc rest,
  (i + fuel = 10)%nat -> 0 <= x < 2 ^ (64 - 7 * Z.of_nat i) ->
  0 <= acc < 2 ^ (7 * Z.of_nat i) -> (0 < fuel)%nat ->
  uvarintLoop (uvarintBytes fuel x ++ rest) i acc (7 * Z.of_nat i)
  = (acc + x * 2 ^ (7 * Z.of_nat i), Z.of_nat i + zlen (uvarintBytes fuel x)).
Proof.
  induction fuel as [|fuel IH]; intros i x acc rest Hi Hx Hacc Hf; [lia|].
  assert (2 ^ (64 - 7 * Z.of_nat i) * 2 ^ (7 * Z.of_nat i) = 2 ^ 64) as Hpow.
  { rewrite <- Z.pow_add_r by lia. f_equal. lia. }
  assert (forall b, 0 <= b <= x -> u64 (Z.shiftl b (7 * Z.of_nat i)) = Z.shiftl b (7 * Z.of_nat i)) as Hu.
  { intros b Hb. apply u64_small. rewrite Z.shiftl_mul_pow2 by lia. nia. }
  cbn [uvarintBytes]. destruct (Z.leb_spec 128 x) as [Hge|Hlt].
  - assert (fuel <> O) as Hfz.
    { intros ->. assert (i = 9)%nat as -> by lia.
      change (2 ^ (64 - 7 * Z.of_nat 9)) with 2 in Hx. lia. }
    cbn [app uvarintLoop]. rewrite uvarint_cont_byte by lia.
    pose proof (Z.mod_pos_bound x 128 ltac:(lia)) as Hm.
    destruct (Nat.eqb_spec i maxVarintLen64); [unfold maxVarintLen64 in *; lia|].
    destruct (Z.ltb_spec (x mod 128 + 128) 128); [lia|].
    replace (Z.land (x mod 128 + 128) 127) with (x mod 128).
    2:{ change 127 with (Z.ones 7). rewrite Z.land_ones by lia. change (2 ^ 7) with 128.
        rewrite <- (Z.mul_1_l 128) at 3. rewrite Z.mod_add, Z.mod_mod; lia. }
    pose proof (Z.div_mod x 128 ltac:(lia)) as Hdm.
    rewrite Hu by lia. rewrite lor_shiftl_add by lia.
    rewrite Z.shiftr_div_pow2 by lia. change (2 ^ 7) with 128.
    replace (7 * Z.of_nat i + 7) with (7 * Z.of_nat (S i)) by lia.
    assert (2 ^ (7 * Z.of_nat (S i)) = 128 * 2 ^ (7 * Z.of_nat i)) as Hs.
    { replace (7 * Z.of_nat (S i)) with (7 + 7 * Z.of_nat i) by lia.
      by rewrite Z.pow_add_r by lia. }
    assert (2 ^ (64 - 7 * Z.of_nat i) = 128 * 2 ^ (64 - 7 * Z.of_nat (S i))) as Hs2.
    { replace (64 - 7 * Z.of_nat i) with (7 + (64 - 7 * Z.of_nat (S i))) by lia.
      by rewrite Z.pow_add_r by lia. }
    rewrite IH; [|lia| |nia|lia].
    + rewrite Hs, zlen_cons. f_equal; [nia|lia].
    + split; [apply Z.div_pos; lia|]. apply Z.div_lt_upper_bound; lia.
  - cbn [app uvarintLoop]. rewrite b2z_z2b, Z.mod_small by lia.
    destruct (Nat.eqb_spec i maxVarintLen64); [unfold maxVarintLen64 in *; lia|].
    destruct (Z.ltb_spec x 128); [|lia].
    destruct (Nat.eqb_spec i (maxVarintLen64 - 1)) as [Hi9|]; cbn [andb].
    + unfold maxVarintLen64 in Hi9. assert (i = 9)%nat as -> by lia.
      change (2 ^ (64 - 7 * Z.of_nat 9)) with 2 in Hx.
      destruct (Z.ltb_spec 1 x); [lia|].
      rewrite Hu, lor_shiftl_add by lia. rewrite zlen_cons, zlen_nil. f_equal; lia.
    + rewrite Hu, lor_shiftl_add by lia. rewrite zlen_cons, zlen_nil. f_equal; lia.
Qed.

Lemma Uvarint_uvarintBytes x rest :
  0 <= x < 2 ^ 64 ->
  Uvarint (uvarintBytes maxVarintLen64 x ++ rest)
  = (x, zlen (uvarintBytes maxVarintLen64 x)).
Proof.
  intros Hx. unfold Uvarint.
  pose proof (uvarintLoop_bytes maxVarintLen64 0 x 0 rest) as H.
  cbn [Z.of_nat] in H. rewrite Z.mul_0_r in H. rewrite H; unfold maxVarintLen64; try lia.
  f_equal; lia.
Qed.

(** Every [int64] survives [AppendVarint] followed by [Varint], whatever follows. *)
Lemma Varint_varintBytes x rest :
  minInt64 <= x <= maxInt64 ->
  Varint (varintBytes x ++ rest) = (x, zlen (varintBytes x)).
Proof.
  unfold minInt64, maxInt64. intros Hx. unfold Varint, varintBytes.
  set (ux := if x <? 0 then _ else _).
  assert (ux = if x <? 0 then - 2 * x - 1 else 2 * x) as Hux.
  { unfold ux. rewrite Z.shiftl_mul_pow2 by lia. change (2 ^ 1) with 2.
    destruct (Z.ltb_spec x 0).
    - unfold u64 at 3. rewrite <- (Z.mod_add x 1) by lia. rewrite (Z.mod_small (x + _)) by lia.
      unfold u64 at 2. replace ((x + 1 * 2 ^ 64) * 2) with ((2 ^ 64 + 2 * x) + 1 * 2 ^ 64) by lia.
      rewrite Z.mod_add by lia. rewrite (Z.mod_small (_ + 2 * x)) by lia.
      unfold Z.lnot. unfold u64. rewrite <- (Z.mod_add _ 1) by lia.
      rewrite Z.mod_small; lia.
    - rewrite !u64_small by (try rewrite u64_small; lia). lia. }
  assert (0 <= ux < 2 ^ 64) as Hr by (rewrite Hux; destruct (Z.ltb_spec x 0); lia).
  rewrite Uvarint_uvarintBytes by done. f_equal.
  replace (Z.land ux 1) with (ux mod 2) by (symmetry; apply (Z.land_ones ux 1); lia).
  rewrite Z.shiftr_div_pow2 by lia. change (2 ^ 1) with 2.
  rewrite Hux. destruct (Z.ltb_spec x 0).
  - replace (-2 * x - 1) with (1 + (- x - 1) * 2) by lia.
    rewrite Z.mod_add, Z.div_add by lia. change (1 mod 2) with 1. change (1 / 2) with 0.
    simpl Z.eqb. cbv iota. rewrite i64_small by (unfold minInt64, maxInt64; lia).
    unfold Z.lnot. lia.
  - rewrite Z.mul_comm, Z.mod_mul, Z.div_mul by lia. simpl Z.eqb. cbv iota.
    apply i64_small. unfold minInt64, maxInt64. lia.
Qed.

(** What a successful [Uvarint] reports is a prefix of its input. *)
Lemma uvarintLoop_read buf : forall i x s v n,
  uvarintLoop buf i x s = (v, n) -> n <= Z.of_nat i + zlen buf.
Proof.
  induction buf as [|b buf IH]; intros i x s v n H; cbn [uvarintLoop] in H.
  - simplify_eq. unfold zlen. lia.
  - rewrite zlen_cons. pose proof (zlen_nonneg buf).
    repeat case_match; simplify_eq; try lia. apply IH in H. lia.
Qed.

Lemma Varint_read buf v n : Varint buf = (v, n) -> n <= zlen buf.
Proof.
  unfold Varint, Uvarint. destruct (uvarintLoop buf 0 0 0) as [ux m] eqn:E.
  intros. simplify_eq. apply uvarintLoop_read in E. lia.
Qed.

(** ** CRC range *)

Lemma lxor_bound n a b :
  0 <= n -> 0 <= a < 2 ^ n -> 0 <= b < 2 ^ n -> 0 <= Z.lxor a b < 2 ^ n.
Proof.
  intros Hn Ha Hb. split; [apply Z.lxor_nonneg; lia|].
  destruct (decide (Z.lxor a b = 0)) as [->|]; [lia|].
  assert (0 <= Z.lxor a b) by (apply Z.lxor_nonneg; lia).
  apply Z.log2_lt_pow2; [lia|].
  eapply Z.le_lt_trans; [apply Z.log2_lxor; lia|].
  assert (0 < n) as Hn0.
  { destruct (decide (n = 0)) as [->|]; [|lia]. change (2 ^ 0) with 1 in *.
    assert (a = 0) as -> by lia. assert (b = 0) as -> by lia. done. }
  assert (forall c, 0 <= c < 2 ^ n -> Z.log2 c < n) as Hc.
  { intros c Hc. destruct (decide (c = 0)) as [->|]; [done|]. apply Z.log2_lt_pow2; lia. }
  apply Z.max_lub_lt; auto.
Qed.

Lemma crcBit_range c : 0 <= c < 2 ^ 32 -> 0 <= crcBit c < 2 ^ 32.
Proof.
  intros Hc. unfold crcBit. rewrite Z.shiftr_div_pow2 by lia.
  assert (0 <= c / 2 ^ 1 < 2 ^ 32).
  { split; [apply Z.div_pos; lia|]. apply Z.div_lt_upper_bound; lia. }
  destruct (Z.testbit c 0); [|done]. apply lxor_bound; [lia|done|]. unfold crcPoly. lia.
Qed.

Lemma crcByte_range c b : 0 <= c < 2 ^ 32 -> 0 <= crcByte c b < 2 ^ 32.
Proof.
  intros Hc. unfold crcByte. pose proof (b2z_range b).
  cbn [Nat.iter nat_rect]. do 8 apply crcBit_range. apply lxor_bound; lia.
Qed.

Lemma ChecksumIEEE_range bs : 0 <= ChecksumIEEE bs < 2 ^ 32.
Proof.
  unfold ChecksumIEEE. apply lxor_bound; [lia| |lia].
  assert (forall c, 0 <= c < 2 ^ 32 -> 0 <= foldl crcByte c bs < 2 ^ 32) as H; [|apply H; lia].
  induction bs as [|b bs IH]; intros c Hc; [done|]. cbn [foldl]. by apply IH, crcByte_range.
Qed.
