(* ===== verification/GoUtf8.v ===== *)
(** * GoUtf8: the parts of unicode/utf8, unicode and strings the program uses

    [DecodeRune] follows the first-byte table of the Go library: a malformed or
    truncated sequence yields U+FFFD and consumes one byte.  [range] over a string
    is [runesOf]. *)

From S2P Require Import Prelude.

Open Scope Z_scope.

Definition RuneError : Z := 65533.
Definition RuneSelf : Z := 128.
Definition MaxRune : Z := 1114111.

(** Sequence length and the range of the second byte, by first byte. *)
Definition firstByte (b0 : Z) : option (nat * Z * Z) :=
  if b0 <? 128 then Some (1%nat, 0, 0)
  else if b0 <? 194 then None
  else if b0 <? 224 then Some (2%nat, 128, 191)
  else if b0 =? 224 then Some (3%nat, 160, 191)
  else if b0 =? 237 then Some (3%nat, 128, 159)
  else if b0 <? 240 then Some (3%nat, 128, 191)
  else if b0 =? 240 then Some (4%nat, 144, 191)
  else if b0 <? 244 then Some (4%nat, 128, 191)
  else if b0 =? 244 then Some (4%nat, 128, 143)
  else None.

Definition isCont (b : Z) : bool := (128 <=? b) && (b <=? 191).
Definition inZ (lo hi b : Z) : bool := (lo <=? b) && (b <=? hi).

(** [utf8.DecodeRuneInString]: the rune and its width. *)
Definition DecodeRune (s : bytes) : Z * nat :=
  match s with
  | [] => (RuneError, 0%nat)
  | b0 :: s1 =>
      match firstByte (b2z b0) with
      | None => (RuneError, 1%nat)
      | Some (n, lo, hi) =>
          if (n =? 1)%nat then (b2z b0, 1%nat) else
          match s1 with
          | [] => (RuneError, 1%nat)
          | b1 :: s2 =>
              if negb (inZ lo hi (b2z b1)) then (RuneError, 1%nat) else
              if (n =? 2)%nat then ((b2z b0 - 192) * 64 + (b2z b1 - 128), 2%nat) else
              match s2 with
              | [] => (RuneError, 1%nat)
              | b2 :: s3 =>
                  if negb (isCont (b2z b2)) then (RuneError, 1%nat) else
                  if (n =? 3)%nat then
                    ((b2z b0 - 224) * 4096 + (b2z b1 - 128) * 64 + (b2z b2 - 128), 3%nat)
                  else
                  match s3 with
                  | [] => (RuneError, 1%nat)
                  | b3 :: _ =>
                      if negb (isCont (b2z b3)) then (RuneError, 1%nat) else
                      ((b2z b0 - 240) * 262144 + (b2z b1 - 128) * 4096 + (b2z b2 - 128) * 64 + (b2z b3 - 128), 4%nat)
                  end
              end
          end
      end
  end.

(** The runes of a string, as [range] sees them.  Every rune is at least one byte
    wide, so the length of the string is enough fuel. *)
Fixpoint runesLoop (fuel : nat) (s : bytes) : list Z :=
  match fuel with
  | O => []
  | S fuel =>
      match s with
      | [] => []
      | _ :: _ => let '(r, width) := DecodeRune s in r :: runesLoop fuel (drop width s)
      end
  end.

Definition runesOf (s : bytes) : list Z := runesLoop (length s) s.

(** [utf8.ValidRune] and [utf8.AppendRune]: invalid runes are written as U+FFFD. *)
Definition ValidRune (r : Z) : bool := inZ 0 55295 r || inZ 57344 MaxRune r.

Definition EncodeRune (r : Z) : bytes :=
  let r := if ValidRune r then r else RuneError in
  if r <? 128 then [z2b r]
  else if r <? 2048 then [z2b (192 + r / 64); z2b (128 + r mod 64)]
  else if r <? 65536 then [z2b (224 + r / 4096); z2b (128 + r / 64 mod 64); z2b (128 + r mod 64)]
  else [z2b (240 + r / 262144); z2b (128 + r / 4096 mod 64); z2b (128 + r / 64 mod 64); z2b (128 + r mod 64)].

(** [string(runes)]. *)
Definition stringOfRunes (rs : list Z) : bytes := concat (map EncodeRune rs).

(** [unicode.IsSpace]. *)
Definition IsSpace (r : Z) : bool :=
  inZ 9 13 r || (r =? 32) || (r =? 133) || (r =? 160) || (r =? 5760) || inZ 8192 8202 r
  || (r =? 8232) || (r =? 8233) || (r =? 8239) || (r =? 8287) || (r =? 12288).

(** [strings.TrimLeftFunc]. *)
Fixpoint trimLeftLoop (fuel : nat) (f : Z -> bool) (s : bytes) : bytes :=
  match fuel with
  | O => s
  | S fuel =>
      match s with
      | [] => []
      | _ :: _ => let '(r, width) := DecodeRune s in if f r then trimLeftLoop fuel f (drop width s) else s
      end
  end.

Definition TrimLeftFunc (f : Z -> bool) (s : bytes) : bytes := trimLeftLoop (length s) f s.

(** [utf8.DecodeLastRune]: the longest of the last four suffixes that starts with a
    non-continuation byte and decodes to exactly the end. *)
Definition DecodeLastRune (s : bytes) : Z * nat :=
  match last s with
  | None => (RuneError, 0%nat)
  | Some b =>
      if b2z b <? 128 then (b2z b, 1%nat) else
      let try n :=
        let suffix := drop (length s - n) s in
        let '(r, width) := DecodeRune suffix in
        if (n <=? length s)%nat && (width =? n)%nat then Some (r, n) else None in
      let start n := (n <=? length s)%nat &&
        match s !! (length s - n)%nat with Some b => negb (isCont (b2z b)) | None => false end in
      (* walk back to the first byte that starts a rune, at most four bytes *)
      let pick n := match try n with Some out => out | None => (RuneError, 1%nat) end in
      if start 1%nat then pick 1%nat else if start 2%nat then pick 2%nat
      else if start 3%nat then pick 3%nat else if start 4%nat then pick 4%nat
      else (RuneError, 1%nat)
  end.

Fixpoint trimRightLoop (fuel : nat) (f : Z -> bool) (s : bytes) : bytes :=
  match fuel with
  | O => s
  | S fuel =>
      match s with
      | [] => []
      | _ :: _ =>
          let '(r, width) := DecodeLastRune s in
          if f r then trimRightLoop fuel f (take (length s - width) s) else s
      end
  end.

Definition TrimRightFunc (f : Z -> bool) (s : bytes) : bytes := trimRightLoop (length s) f s.

Definition TrimSpace (s : bytes) : bytes := TrimRightFunc IsSpace (TrimLeftFunc IsSpace s).

(** [strings.HasPrefix]. *)
Fixpoint HasPrefix (s prefix : bytes) : bool :=
  match prefix, s with
  | [], _ => true
  | _ :: _, [] => false
  | p :: prefix, b :: s => bool_decide (p = b) && HasPrefix s prefix
  end.

(** ** Facts *)

Lemma DecodeRune_width b s : (1 <= (DecodeRune (b :: s)).2 <= length (b :: s))%nat.
Proof. unfold DecodeRune. repeat case_match; cbn; lia. Qed.

Lemma HasPrefix_spec s prefix : HasPrefix s prefix = true <-> exists rest, s = prefix ++ rest.
Proof.
  revert s. induction prefix as [|p prefix IH]; intros [|b s]; try (split; [by eauto|done]).
  - split; [done|by intros [rest ?]].
  - change (HasPrefix (b :: s) (p :: prefix)) with (bool_decide (p = b) && HasPrefix s prefix).
    rewrite andb_true_iff, bool_decide_eq_true, IH. split.
    + intros [-> [rest ->]]. by exists rest.
    + intros [rest [= -> ->]]. split; [done|by exists rest].
Qed.
