(* ===== verification/GoStrconv.v ===== *)
(** * GoStrconv: the parts of strconv and strings the transcript tags use

    [Quote], [QuotedPrefix] and [Unquote] follow the Go library: the three quote forms,
    every escape, and the checks for raw newlines and malformed UTF-8.  Which runes of 128
    and above are printable is Unicode data; [Quote] takes it as an argument. *)

From S2P Require Import Prelude GoUtf8.

Open Scope Z_scope.

(** ** strings *)

(** [strings.Index]: the first offset at which [sub] occurs. *)
Fixpoint Index (s sub : bytes) : option nat :=
  if HasPrefix s sub then Some O else
  match s with
  | [] => None
  | _ :: s => match Index s sub with Some n => Some (S n) | None => None end
  end.

Definition Contains (s sub : bytes) : bool := match Index s sub with Some _ => true | None => false end.

(** [strings.HasSuffix], [CutPrefix] and [TrimSuffix]. *)
Definition HasSuffix (s suffix : bytes) : bool :=
  (length suffix <=? length s)%nat && bool_decide (drop (length s - length suffix) s = suffix).

Definition CutPrefix (s prefix : bytes) : option bytes :=
  if HasPrefix s prefix then Some (drop (length prefix) s) else None.

Definition TrimSuffix (s suffix : bytes) : bytes :=
  if HasSuffix s suffix then take (length s - length suffix) s else s.

(** [strings.TrimLeft] and [TrimRight] with a cutset of ASCII characters. *)
Fixpoint TrimLeft (s cutset : bytes) : bytes :=
  match s with
  | [] => []
  | b :: s' => if bool_decide (b ∈ cutset) then TrimLeft s' cutset else s
  end.

Definition TrimRight (s cutset : bytes) : bytes := rev (TrimLeft (rev s) cutset).

(** [strings.Split] with a separator that is not empty; the parts between occurrences. *)
Fixpoint splitLoop (fuel : nat) (s sep : bytes) : list bytes :=
  match fuel with
  | O => [s]
  | S fuel =>
      match Index s sep with
      | None => [s]
      | Some n => take n s :: splitLoop fuel (drop (n + length sep) s) sep
      end
  end.

Definition Split (s sep : bytes) : list bytes := splitLoop (length s) s sep.

(** ** Numbers *)

Definition isDigit (b : Byte.byte) : bool := (48 <=? b2z b) && (b2z b <=? 57).

(** The decimal digits of a number that is not negative, least significant first. *)
Fixpoint digitsRev (fuel : nat) (n : Z) : bytes :=
  match fuel with
  | O => []
  | S fuel => if n <? 10 then [z2b (48 + n)] else z2b (48 + n mod 10) :: digitsRev fuel (n / 10)
  end.

(** [strconv.Itoa]; twenty digits are enough for an [int]. *)
Definition Itoa (n : Z) : bytes :=
  if n <? 0 then lit "-" ++ rev (digitsRev 20 (- n)) else rev (digitsRev 20 n).

Fixpoint digitsValue (acc : Z) (s : bytes) : option Z :=
  match s with
  | [] => Some acc
  | b :: s => if isDigit b then digitsValue (acc * 10 + (b2z b - 48)) s else None
  end.

(** [strconv.Atoi]: an optional sign, digits only, and the value an [int]. *)
Definition Atoi (s : bytes) : option Z :=
  let '(negative, digits) :=
    match s with
    | b :: s' => if bool_decide (b = Byte.x2d) then (true, s')
                 else if bool_decide (b = Byte.x2b) then (false, s') else (false, s)
    | [] => (false, [])
    end in
  match digits with
  | [] => None
  | _ :: _ =>
      match digitsValue 0 digits with
      | None => None
      | Some v => let v := if negative then - v else v in
          if (minInt64 <=? v) && (v <=? maxInt64) then Some v else None
      end
  end.

(** ** Quoting *)

Definition hexDigit (n : Z) : Byte.byte := if n <? 10 then z2b (48 + n) else z2b (87 + n).

(** [n] hexadecimal digits of [r]. *)
Fixpoint hexDigits (n : nat) (r : Z) : bytes :=
  match n with
  | O => []
  | S n => hexDigit (Z.land (Z.shiftr r (4 * Z.of_nat n)) 15) :: hexDigits n r
  end.

(** [strconv.IsPrint] on ASCII, and the given table above. *)
Definition IsPrint (isPrint : Z -> bool) (r : Z) : bool :=
  if r <? 128 then (32 <=? r) && (r <=? 126) else isPrint r.

Definition backslash : Byte.byte := Byte.x5c.
Definition dquote : Byte.byte := Byte.x22.

Definition appendEscapedRune (isPrint : Z -> bool) (r : Z) : bytes :=
  if (r =? b2z dquote) || (r =? b2z backslash) then [backslash; z2b r] else
  if IsPrint isPrint r then EncodeRune r else
  if r =? 7 then lit "\a" else if r =? 8 then lit "\b" else if r =? 12 then lit "\f" else
  if r =? 10 then lit "\n" else if r =? 13 then lit "\r" else if r =? 9 then lit "\t" else
  if r =? 11 then lit "\v" else
  if (r <? 32) || (r =? 127) then lit "\x" ++ hexDigits 2 r else
  if negb (ValidRune r) then lit "\u" ++ hexDigits 4 RuneError else
  if r <? 65536 then lit "\u" ++ hexDigits 4 r else lit "\U" ++ hexDigits 8 r.

Fixpoint quoteLoop (isPrint : Z -> bool) (fuel : nat) (s : bytes) : bytes :=
  match fuel with
  | O => []
  | S fuel =>
      match s with
      | [] => []
      | b :: _ =>
          let '(r, width) := DecodeRune s in
          if (width =? 1)%nat && (r =? RuneError)
          then lit "\x" ++ hexDigits 2 (b2z b) ++ quoteLoop isPrint fuel (drop 1 s)
          else appendEscapedRune isPrint r ++ quoteLoop isPrint fuel (drop width s)
      end
  end.

Definition Quote (isPrint : Z -> bool) (s : bytes) : bytes :=
  [dquote] ++ quoteLoop isPrint (length s) s ++ [dquote].

(** ** Unquoting *)

Definition unhex (b : Byte.byte) : option Z :=
  let c := b2z b in
  if (48 <=? c) && (c <=? 57) then Some (c - 48) else
  if (97 <=? c) && (c <=? 102) then Some (c - 87) else
  if (65 <=? c) && (c <=? 70) then Some (c - 55) else None.

Fixpoint hexValue (n : nat) (v : Z) (s : bytes) : option (Z * bytes) :=
  match n with
  | O => Some (v, s)
  | S n =>
      match s with
      | [] => None
      | b :: s => match unhex b with Some x => hexValue n (Z.lor (Z.shiftl v 4) x) s | None => None end
      end
  end.

Fixpoint octValue (n : nat) (v : Z) (s : bytes) : option (Z * bytes) :=
  match n with
  | O => Some (v, s)
  | S n =>
      match s with
      | [] => None
      | b :: s => let x := b2z b - 48 in
          if (x <? 0) || (7 <? x) then None else octValue n (Z.lor (Z.shiftl v 3) x) s
      end
  end.

(** [strconv.UnquoteChar]: the rune, whether it needs more than one byte, and the rest. *)
Definition UnquoteChar (s : bytes) (quote : Byte.byte) : option (Z * bool * bytes) :=
  match s with
  | [] => None
  | c :: s1 =>
      if bool_decide (c = quote) && (bool_decide (quote = Byte.x27) || bool_decide (quote = dquote)) then None else
      if RuneSelf <=? b2z c then let '(r, size) := DecodeRune s in Some (r, true, drop size s) else
      if negb (bool_decide (c = backslash)) then Some (b2z c, false, s1) else
      match s1 with
      | [] => None
      | c :: s =>
          let simple v := Some (v, false, s) in
          match c with
          | Byte.x61 => simple 7 | Byte.x62 => simple 8 | Byte.x66 => simple 12 | Byte.x6e => simple 10
          | Byte.x72 => simple 13 | Byte.x74 => simple 9 | Byte.x76 => simple 11
          | Byte.x78 => match hexValue 2 0 s with Some (v, s) => Some (v, false, s) | None => None end
          | Byte.x75 => match hexValue 4 0 s with
                        | Some (v, s) => if ValidRune v then Some (v, true, s) else None | None => None end
          | Byte.x55 => match hexValue 8 0 s with
                        | Some (v, s) => if ValidRune v then Some (v, true, s) else None | None => None end
          | Byte.x30 | Byte.x31 | Byte.x32 | Byte.x33 | Byte.x34 | Byte.x35 | Byte.x36 | Byte.x37 =>
              match octValue 2 (b2z c - 48) s with
              | Some (v, s) => if 255 <? v then None else Some (v, false, s) | None => None end
          | Byte.x5c => simple 92
          | Byte.x27 | Byte.x22 => if bool_decide (c = quote) then simple (b2z c) else None
          | _ => None
          end
      end
  end.

(** [utf8.ValidString]. *)
Fixpoint validLoop (fuel : nat) (s : bytes) : bool :=
  match fuel with
  | O => true
  | S fuel =>
      match s with
      | [] => true
      | _ :: _ => let '(r, width) := DecodeRune s in
          if (width =? 1)%nat && (r =? RuneError) then false else validLoop fuel (drop width s)
      end
  end.

Definition ValidString (s : bytes) : bool := validLoop (length s) s.

(** The loop of [unquote] over a quoted string with escapes: the bytes so far and the
    rest, which starts with the closing quote when there is one.  A single-quoted literal
    is one character. *)
Fixpoint unquoteLoop (fuel : nat) (quote : Byte.byte) (input buf : bytes) : option (bytes * bytes) :=
  match fuel with
  | O => Some (buf, input)
  | S fuel =>
      match input with
      | [] => Some (buf, input)
      | b :: _ =>
          if bool_decide (b = quote) then Some (buf, input) else
          match UnquoteChar input quote with
          | None => None
          | Some (r, multibyte, rem) =>
              if bool_decide (b = Byte.x0a) then None else
              let buf := buf ++ (if (r <? RuneSelf) || negb multibyte then [z2b r] else EncodeRune r) in
              if bool_decide (quote = Byte.x27) then Some (buf, rem) else unquoteLoop fuel quote rem buf
          end
      end
  end.

(** The quoted literal at the start of [input]: its length and its value. *)
Definition unquote (input : bytes) : option (nat * bytes) :=
  match input with
  | [] | [_] => None
  | quote :: rest =>
      match Index rest [quote] with
      | None => None
      | Some n =>
          let inner := take n rest in
          if bool_decide (quote = Byte.x60) then
            Some (n + 2, filter (fun b => b <> Byte.x0d) inner)%nat
          else if bool_decide (quote = dquote) || bool_decide (quote = Byte.x27) then
            let plain := negb (bool_decide (backslash ∈ inner)) && negb (bool_decide (Byte.x0a ∈ inner)) in
            let valid := if bool_decide (quote = dquote) then ValidString inner
              else let '(r, size) := DecodeRune inner in
                (size =? n)%nat && (negb (r =? RuneError) || negb (size =? 1)%nat) in
            if plain && valid then Some (n + 2, inner)%nat else
            match unquoteLoop (length rest) quote rest [] with
            | Some (buf, q :: tail) => if bool_decide (q = quote) then Some (length input - length tail, buf)%nat else None
            | _ => None
            end
          else None
      end
  end.

(** [strconv.QuotedPrefix]: the literal with its quotes. *)
Definition QuotedPrefix (s : bytes) : option bytes :=
  match unquote s with Some (n, _) => Some (take n s) | None => None end.

(** [strconv.Unquote]: the value of a string that is one literal. *)
Definition Unquote (s : bytes) : option bytes :=
  match unquote s with
  | Some (n, value) => if (n =? length s)%nat then Some value else None
  | None => None
  end.

(** ** Facts *)

(** Printable ASCII without quotes and backslashes: what needs no escape. *)
Definition plainByte (b : Byte.byte) : Prop :=
  32 <= b2z b <= 126 /\ b <> dquote /\ b <> backslash.

Lemma DecodeRune_ascii b s : b2z b < 128 -> DecodeRune (b :: s) = (b2z b, 1%nat).
Proof. intros H. unfold DecodeRune, firstByte. by rewrite (proj2 (Z.ltb_lt _ _) H). Qed.

Lemma EncodeRune_ascii b : b2z b < 128 -> EncodeRune (b2z b) = [b].
Proof.
  intros H. pose proof (b2z_range b). unfold EncodeRune.
  assert (ValidRune (b2z b) = true) as -> by (unfold ValidRune, inZ; by rewrite (proj2 (Z.leb_le 0 _)), (proj2 (Z.leb_le _ 55295)) by lia).
  cbv zeta. rewrite (proj2 (Z.ltb_lt _ _) H). by rewrite z2b_b2z.
Qed.

Lemma plain_not_error b : plainByte b -> (b2z b =? RuneError) = false.
Proof. intros [H _]. apply Z.eqb_neq. unfold RuneError. lia. Qed.

Lemma quoteLoop_plain isPrint s : Forall plainByte s -> quoteLoop isPrint (length s) s = s.
Proof.
  induction s as [|b s IH]; intros Hs; [done|]. apply Forall_cons in Hs as [Hb Hs].
  cbn [length quoteLoop]. destruct Hb as (Hr & Hq & Hk). rewrite DecodeRune_ascii by lia.
  rewrite (plain_not_error b) by done. rewrite andb_false_r. cbn [drop]. rewrite ?drop_0. rewrite IH by done.
  unfold appendEscapedRune, IsPrint.
  rewrite (proj2 (Z.eqb_neq (b2z b) (b2z dquote))) by (intros E; by apply Hq, b2z_inj).
  rewrite (proj2 (Z.eqb_neq (b2z b) (b2z backslash))) by (intros E; by apply Hk, b2z_inj).
  rewrite (proj2 (Z.ltb_lt (b2z b) 128)), (proj2 (Z.leb_le 32 (b2z b))), (proj2 (Z.leb_le (b2z b) 126)) by lia.
  cbn. by rewrite EncodeRune_ascii by lia.
Qed.

Lemma Quote_plain isPrint s : Forall plainByte s -> Quote isPrint s = [dquote] ++ s ++ [dquote].
Proof. intros Hs. unfold Quote. by rewrite quoteLoop_plain. Qed.

Lemma Index_byte s q rest : q ∉ s -> Index (s ++ q :: rest) [q] = Some (length s).
Proof.
  assert (forall t, HasPrefix t [] = true) as Hnil by (by intros []).
  induction s as [|b s IH]; intros Hn; cbn [app Index HasPrefix length].
  - by rewrite bool_decide_eq_true_2, Hnil.
  - apply not_elem_of_cons in Hn as [Hb Hn]. rewrite bool_decide_eq_false_2 by done. cbn. by rewrite IH.
Qed.

Lemma ValidString_plain s : Forall plainByte s -> ValidString s = true.
Proof.
  unfold ValidString. induction s as [|b s IH]; intros Hs; [done|]. apply Forall_cons in Hs as [Hb Hs].
  cbn [length validLoop]. rewrite DecodeRune_ascii by (destruct Hb; lia). rewrite (plain_not_error b) by done.
  rewrite andb_false_r. cbn [drop]. rewrite ?drop_0. by apply IH.
Qed.

Lemma plain_notin s b : Forall plainByte s -> ~ plainByte b -> b ∉ s.
Proof. intros Hs Hb Hin. rewrite Forall_forall in Hs. by apply Hb, Hs. Qed.

(** A quoted plain string is read back, whatever follows it. *)
Lemma unquote_plain s rest :
  Forall plainByte s -> unquote ([dquote] ++ s ++ [dquote] ++ rest) = Some (length s + 2, s)%nat.
Proof.
  intros Hs. unfold unquote. cbn [app].
  assert (dquote ∉ s) as Hq by (apply plain_notin; [done|by intros (_ & ? & _)]).
  destruct (s ++ dquote :: rest) as [|b t] eqn:E; [by destruct s|]. rewrite <- E.
  rewrite Index_byte by done. rewrite take_app_length.
  rewrite (bool_decide_eq_false_2 (dquote = Byte.x60)), (bool_decide_eq_true_2 (dquote = dquote)) by done.
  rewrite (bool_decide_eq_false_2 (backslash ∈ s)) by (apply plain_notin; [done|]; by intros (_ & _ & ?)).
  rewrite (bool_decide_eq_false_2 (Byte.x0a ∈ s)) by (apply plain_notin; [done|]; intros [[H _] _]; by vm_compute in H).
  by rewrite ValidString_plain.
Qed.

Lemma QuotedPrefix_Quote isPrint s rest :
  Forall plainByte s -> QuotedPrefix (Quote isPrint s ++ rest) = Some (Quote isPrint s).
Proof.
  intros Hs. rewrite Quote_plain by done. unfold QuotedPrefix. rewrite <- !app_assoc, unquote_plain by done. f_equal.
  rewrite (app_assoc s), (app_assoc [dquote]). apply take_app_length'. rewrite !length_app. cbn. lia.
Qed.

Lemma Unquote_Quote isPrint s : Forall plainByte s -> Unquote (Quote isPrint s) = Some s.
Proof.
  intros Hs. rewrite Quote_plain by done. unfold Unquote. pose proof (unquote_plain s [] Hs) as H. rewrite app_nil_r in H.
  rewrite H, !length_app. cbn [length]. by rewrite (proj2 (Nat.eqb_eq _ _)) by lia.
Qed.

(** *** Numbers *)

Lemma digit_plain d : 0 <= d < 10 -> isDigit (z2b (48 + d)) = true /\ b2z (z2b (48 + d)) = 48 + d.
Proof.
  intros H. unfold isDigit. rewrite !b2z_z2b, Z.mod_small by lia.
  by rewrite (proj2 (Z.leb_le 48 _)), (proj2 (Z.leb_le _ 57)) by lia.
Qed.

Lemma digitsValue_app acc s t :
  digitsValue acc (s ++ t) = match digitsValue acc s with Some v => digitsValue v t | None => None end.
Proof. revert acc. induction s as [|b s IH]; intros acc; [done|]. cbn. destruct (isDigit b); [apply IH|done]. Qed.

Lemma digitsRev_spec fuel n :
  0 <= n < 10 ^ Z.of_nat fuel -> (0 < fuel)%nat ->
  digitsValue 0 (rev (digitsRev fuel n)) = Some n /\ Forall (fun b => isDigit b = true) (digitsRev fuel n) /\
  digitsRev fuel n <> [].
Proof.
  revert n. induction fuel as [|fuel IH]; intros n Hn Hf; [lia|]. cbn [digitsRev].
  destruct (Z.ltb_spec n 10) as [Hs|Hs].
  - destruct (digit_plain n) as [Hd Hv]; [lia|]. cbn. rewrite Hd, Hv. split_and!; [f_equal; lia| |done].
    constructor; [done|constructor].
  - assert (0 <= n / 10 < 10 ^ Z.of_nat fuel) as Hn'.
    { rewrite Nat2Z.inj_succ, Z.pow_succ_r in Hn by lia. split; [apply Z.div_pos; lia|apply Z.div_lt_upper_bound; lia]. }
    destruct fuel as [|fuel]; [rewrite Z.pow_0_r in Hn'; assert (n / 10 >= 1) by (apply Z.le_ge, Z.div_le_lower_bound; lia); lia|].
    destruct (IH _ Hn') as (Hv & Hall & _); [lia|]. destruct (digit_plain (n mod 10)) as [Hd Hb]; [apply Z.mod_pos_bound; lia|].
    split_and!; [|by constructor|done]. cbn [rev]. rewrite digitsValue_app, Hv. cbn. rewrite Hd, Hb. f_equal.
    pose proof (Z.div_mod n 10 ltac:(lia)). lia.
Qed.

Lemma digit_byte b : isDigit b = true -> plainByte b /\ b <> Byte.x2d /\ b <> Byte.x2b.
Proof.
  unfold isDigit. intros H. reflect_bools.
  assert (forall c, b2z c < 48 \/ 57 < b2z c -> b <> c) as Hne by (intros c Hc ->; lia).
  unfold plainByte. split; [split; [lia|]|]; (split; apply Hne; vm_compute; tauto).
Qed.

Lemma Itoa_digits n : 0 <= n <= maxInt64 ->
  Forall (fun b => isDigit b = true) (Itoa n) /\ Itoa n <> [] /\ digitsValue 0 (Itoa n) = Some n.
Proof.
  intros Hn. unfold Itoa. rewrite (proj2 (Z.ltb_ge n 0)) by lia.
  destruct (digitsRev_spec 20 n) as (Hv & Hall & Hne); [unfold maxInt64 in Hn; cbn; lia|lia|].
  split_and!; [|intros E; by apply (f_equal (@rev _)) in E; rewrite rev_involutive in E|done].
  apply Forall_forall. intros b Hb. rewrite Forall_forall in Hall. apply Hall. by apply list_elem_of_In, in_rev, list_elem_of_In.
Qed.

Lemma Itoa_plain n : 0 <= n <= maxInt64 -> Forall plainByte (Itoa n).
Proof.
  intros Hn. destruct (Itoa_digits n Hn) as [Hd _]. eapply Forall_impl; [exact Hd|]. intros b Hb. by apply digit_byte.
Qed.

Lemma Atoi_Itoa n : 0 <= n <= maxInt64 -> Atoi (Itoa n) = Some n.
Proof.
  intros Hn. destruct (Itoa_digits n Hn) as (Hd & Hne & Hv). unfold Atoi.
  destruct (Itoa n) as [|b s] eqn:E; [done|]. apply Forall_cons in Hd as [Hb _]. destruct (digit_byte b Hb) as (_ & H1 & H2).
  rewrite !bool_decide_eq_false_2 by done. rewrite Hv.
  by rewrite (proj2 (Z.leb_le minInt64 n)), (proj2 (Z.leb_le n maxInt64)) by (unfold minInt64 in *; lia).
Qed.

Lemma TrimLeft_digit b s : isDigit b = true -> TrimLeft (b :: s) (lit "+-") = b :: s.
Proof.
  intros (_ & H1 & H2)%digit_byte. cbn. rewrite bool_decide_eq_false_2; [done|].
  intros [->|[->|Hn%elem_of_nil]%elem_of_cons]%elem_of_cons; done.
Qed.

(** *** Searching *)

Lemma Index_Some s sub n :
  Index s sub = Some n <-> HasPrefix (drop n s) sub = true /\ (n <= length s)%nat /\
    forall k, (k < n)%nat -> HasPrefix (drop k s) sub = false.
Proof.
  revert n. induction s as [|b s IH]; intros n.
  - cbn [Index]. destruct (HasPrefix [] sub) eqn:E; split.
    + intros [= <-]. split_and!; [done|done|lia].
    + intros (_ & Hn & _). cbn in Hn. f_equal. lia.
    + done.
    + intros (H & _). rewrite drop_nil in H. congruence.
  - cbn [Index]. destruct (HasPrefix (b :: s) sub) eqn:E.
    + split; [intros [= <-]; split_and!; [done|lia|lia]|]. intros (_ & _ & Hk). destruct n as [|n]; [done|].
      specialize (Hk 0%nat ltac:(lia)). rewrite drop_0 in Hk. congruence.
    + destruct n as [|n].
      * split; [by destruct (Index s sub)|]. intros (H & _). rewrite drop_0 in H. congruence.
      * specialize (IH n). cbn [drop length]. split.
        -- destruct (Index s sub) as [m|]; [|done]. intros [= ->]. destruct (proj1 IH eq_refl) as (H1 & H2 & H3).
           split_and!; [done|lia|]. intros [|k] Hk; [done|]. cbn. apply H3. lia.
        -- intros (H1 & H2 & H3). rewrite (proj2 IH); [done|]. split_and!; [done|lia|]. intros k Hk. apply (H3 (S k)). lia.
Qed.
