(* ===== verification/GoText.v ===== *)
(** * GoText: splitting, joining and trimming text

    [strings.Join] and the facts about [strings.Split], [strings.Index] and
    [strings.TrimSpace] that the readers and writers of text protocols rely on. *)

From S2P Require Import Prelude GoUtf8 GoStrconv.

Open Scope Z_scope.

(** [strings.Join]. *)
Fixpoint Join (parts : list bytes) (sep : bytes) : bytes :=
  match parts with
  | [] => []
  | [part] => part
  | part :: parts => part ++ sep ++ Join parts sep
  end.

(** The ASCII part of [strings.ToLower]. *)
Definition lowerByte (b : Byte.byte) : Byte.byte :=
  if (65 <=? b2z b) && (b2z b <=? 90) then z2b (b2z b + 32) else b.

(** [strings.ToLower]; [toLowerRune] is [unicode.ToLower]. *)
Definition ToLower (toLowerRune : Z -> Z) (s : bytes) : bytes :=
  if forallb (fun b => b2z b <? RuneSelf) s then map lowerByte s
  else stringOfRunes (map toLowerRune (runesOf s)).

(** [strings.Cut]. *)
Definition Cut (s sep : bytes) : option (bytes * bytes) :=
  match Index s sep with
  | Some n => Some (take n s, drop (n + length sep) s)
  | None => None
  end.

(** [strings.ReplaceAll] of a text that is not empty; every occurrence takes a byte. *)
Fixpoint replaceAllLoop (fuel : nat) (s old new : bytes) : bytes :=
  match fuel with
  | O => s
  | S fuel =>
      match Index s old with
      | Some n => take n s ++ new ++ replaceAllLoop fuel (drop (n + length old) s) old new
      | None => s
      end
  end.

Definition ReplaceAll (s old new : bytes) : bytes := replaceAllLoop (length s) s old new.

Lemma Join_cons part parts sep : parts <> [] -> Join (part :: parts) sep = part ++ sep ++ Join parts sep.
Proof. by destruct parts. Qed.

(** ** Searching and splitting *)

Lemma Index_absent b s rest : b ∉ s -> Index s (b :: rest) = None.
Proof.
  induction s as [|x s IH]; intros Hn; [done|]. apply not_elem_of_cons in Hn as [Hx Hn]. cbn [Index HasPrefix].
  rewrite bool_decide_eq_false_2 by done. cbn. by rewrite IH.
Qed.

Lemma Index_here sub rest : Index (sub ++ rest) sub = Some 0%nat.
Proof.
  assert (HasPrefix (sub ++ rest) sub = true) as H by (apply HasPrefix_spec; by exists rest).
  destruct (sub ++ rest); cbn [Index]; by rewrite H.
Qed.

(** A prefix without the first byte of the pattern does not hold it. *)
Lemma Index_skip s b sub rest : b ∉ s -> Index (s ++ rest) (b :: sub) = Nat.add (length s) <$> Index rest (b :: sub).
Proof.
  induction s as [|x s IH]; intros Hn; cbn [app length].
  - by destruct (Index rest (b :: sub)).
  - apply not_elem_of_cons in Hn as [Hx Hn]. cbn [Index HasPrefix]. rewrite bool_decide_eq_false_2 by done. cbn [andb].
    rewrite IH by done. by destruct (Index rest (b :: sub)).
Qed.

Lemma Contains_spec s sub : Contains s sub = true <-> exists a b, s = a ++ sub ++ b.
Proof.
  unfold Contains. split.
  - destruct (Index s sub) as [n|] eqn:E; [|done]. intros _. apply Index_Some in E as [E _].
    apply HasPrefix_spec in E as [b E]. exists (take n s), b. by rewrite <- E, take_drop.
  - intros (a & b & ->). destruct (Index (a ++ sub ++ b) sub) eqn:E; [done|]. exfalso. revert E. induction a as [|x a IH]; cbn [app].
    + by rewrite Index_here.
    + cbn [Index]. destruct (HasPrefix _ _); [done|]. by destruct (Index (a ++ sub ++ b) sub).
Qed.

(** Behind a text without the tag [b :: w], when nothing that follows starts inside of it. *)
Definition clearOf (w X : bytes) : Prop := match X with [] => True | c :: _ => c ∉ w end.

Lemma Index_clear s b w X : Contains s (b :: w) = false -> clearOf w X -> Index (s ++ X) (b :: w) = Nat.add (length s) <$> Index X (b :: w).
Proof.
  intros Hs HX. induction s as [|c s IH]; [change ([] ++ X) with X; by destruct (Index X (b :: w))|]. change ((c :: s) ++ X) with (c :: (s ++ X)).
  assert (Contains s (b :: w) = false) as Hs'.
  { revert Hs. unfold Contains. cbn [Index]. destruct (HasPrefix (c :: s) (b :: w)); [done|]. by destruct (Index s (b :: w)). }
  change (Index (c :: s ++ X) (b :: w)) with (if HasPrefix (c :: s ++ X) (b :: w) then Some 0%nat else match Index (s ++ X) (b :: w) with Some n => Some (S n) | None => None end).
  rewrite (IH Hs'). destruct (HasPrefix (c :: s ++ X) (b :: w)) eqn:E; [|by destruct (Index X (b :: w))]. exfalso.
  apply HasPrefix_spec in E as [rest E]. change (c :: s ++ X) with ((c :: s) ++ X) in E. apply app_eq_inv in E as [(k & E1 & E2)|(k & E1 & E2)].
  - assert (Contains (c :: s) (b :: w) = true); [|congruence]. apply Contains_spec. exists [], k. done.
  - destruct k as [|d k].
    + assert (Contains (c :: s) (b :: w) = true); [|congruence]. apply Contains_spec. exists [], []. by rewrite E1, !app_nil_r.
    + rewrite E2 in HX. cbn in HX, E1. injection E1 as -> ->. apply HX. set_solver.
Qed.

Lemma Contains_clear s b w X : Contains s (b :: w) = false -> clearOf w X -> Contains (s ++ X) (b :: w) = Contains X (b :: w).
Proof. intros H HX. unfold Contains. rewrite (Index_clear _ _ _ _ H HX). by destruct (Index X (b :: w)). Qed.

Lemma splitLoop_fuel s sep f g :
  sep <> [] -> (length s <= f)%nat -> (length s <= g)%nat -> splitLoop f s sep = splitLoop g s sep.
Proof.
  intros Hne. assert (0 < length sep)%nat as Hpos by (destruct sep; [done|cbn; lia]).
  assert (Index [] sep = None) as Hnil by (by destruct sep).
  revert s g. induction f as [|f IH]; intros s g Hf Hg.
  { destruct s; [|cbn in Hf; lia]. destruct g; [done|]. cbn [splitLoop]. by rewrite Hnil. }
  destruct g as [|g]; [destruct s; [|cbn in Hg; lia]; cbn [splitLoop]; by rewrite Hnil|]. cbn [splitLoop].
  destruct (Index s sep) as [n|] eqn:E; [|done]. f_equal. destruct s as [|b s]; [congruence|].
  apply IH; rewrite length_drop; cbn [length] in *; lia.
Qed.

Lemma Split_Some s sep n :
  sep <> [] -> Index s sep = Some n -> Split s sep = take n s :: Split (drop (n + length sep) s) sep.
Proof.
  intros Hne E. unfold Split. destruct s as [|b s]; [by destruct sep|]. cbn [length splitLoop]. rewrite E. f_equal.
  apply splitLoop_fuel; [done| |done]. rewrite length_drop. destruct sep; [done|]. cbn. lia.
Qed.

Lemma Split_None s sep : Index s sep = None -> Split s sep = [s].
Proof. intros E. unfold Split. destruct (length s); [done|]. cbn [splitLoop]. by rewrite E. Qed.

(** The first part of a text that starts with [part] and the separator. *)
Lemma Split_part part sep rest :
  sep <> [] -> Index (part ++ sep ++ rest) sep = Some (length part) -> Split (part ++ sep ++ rest) sep = part :: Split rest sep.
Proof.
  intros Hne E. rewrite (Split_Some _ _ _ Hne E), take_app_length, app_assoc. f_equal. f_equal.
  rewrite <- length_app. apply drop_app_length.
Qed.

Lemma Split_Join parts b : parts <> [] -> Forall (fun part => b ∉ part) parts -> Split (Join parts [b]) [b] = parts.
Proof.
  induction parts as [|part parts IH]; intros Hne Hb; [done|]. apply Forall_cons in Hb as [Hp Hb].
  destruct parts as [|part' parts]; [by apply Split_None, Index_absent|]. rewrite Join_cons by done.
  rewrite Split_part; [|done|by apply Index_byte]. f_equal. by apply IH.
Qed.

Lemma Split_absent s b : Forall (fun part => b ∉ part) (Split s [b]) /\ Join (Split s [b]) [b] = s /\ Split s [b] <> [].
Proof.
  remember (length s) as n eqn:En. revert s En. induction (lt_wf n) as [n _ IH]. intros s ->.
  destruct (Index s [b]) as [i|] eqn:E.
  - rewrite (Split_Some s [b] i ltac:(done) E). change (length [b]) with 1%nat. apply Index_Some in E as (Hp & Hi & Hno).
    apply HasPrefix_spec in Hp as [rest Hr]. assert (i < length s)%nat as Hlt.
    { apply (f_equal length) in Hr. rewrite length_drop, length_app in Hr. cbn in Hr. lia. }
    destruct (IH (length (drop (i + 1) s))) with (s := drop (i + 1) s) as (H1 & H2 & H3); [rewrite length_drop; lia|done|].
    split_and!; [|rewrite Join_cons, H2 by done|done].
    + constructor; [|done]. intros (k & Hk)%list_elem_of_lookup. pose proof (lookup_lt_Some _ _ _ Hk) as Hkl.
      rewrite length_take in Hkl. rewrite lookup_take_lt in Hk by lia. specialize (Hno k ltac:(lia)).
      rewrite (drop_S _ _ _ Hk) in Hno. cbn in Hno. rewrite bool_decide_eq_true_2 in Hno by done. by destruct (drop (S k) s).
    + rewrite <- (take_drop i s) at 3. f_equal. rewrite Hr. rewrite <- drop_drop, Hr. done.
  - rewrite (Split_None _ _ E). split_and!; [|done|done]. constructor; [|done]. intros (k & Hk)%list_elem_of_lookup.
    clear IH. revert k Hk. induction s as [|x s IH]; intros k Hk; [done|]. cbn in E.
    destruct (bool_decide (b = x)) eqn:Ex; cbn in E; [by destruct s|]. destruct (Index s [b]) eqn:Ei; [done|].
    apply bool_decide_eq_false in Ex. destruct k as [|k]; [by simplify_eq/=|]. by apply (IH eq_refl k).
Qed.

(** [strings.LastIndexByte]. *)
Fixpoint LastIndexByte (s : bytes) (b : Byte.byte) : option nat :=
  match s with
  | [] => None
  | x :: s =>
      match LastIndexByte s b with
      | Some n => Some (S n)
      | None => if decide (x = b) then Some 0%nat else None
      end
  end.

Lemma LastIndexByte_Some s b n :
  LastIndexByte s b = Some n -> s !! n = Some b /\ (n < length s)%nat /\ b ∉ drop (S n) s.
Proof.
  revert n. induction s as [|x s IH]; intros n H; [done|]. cbn in H. destruct (LastIndexByte s b) as [m|] eqn:E.
  - simplify_eq. destruct (IH m eq_refl) as (H1 & H2 & H3). cbn. split_and!; [done|lia|done].
  - case_decide; simplify_eq. cbn. split_and!; [done|lia|]. rewrite drop_0. clear IH. induction s as [|y s IH]; [by apply not_elem_of_nil|].
    cbn in E. destruct (LastIndexByte s b); [done|]. case_decide; [done|]. apply not_elem_of_cons. split; [done|]. by apply IH.
Qed.

Lemma LastIndexByte_absent s b : b ∉ s -> LastIndexByte s b = None.
Proof. induction s as [|c s IH]; intros H; [done|]. apply not_elem_of_cons in H as [Hc H]. cbn. rewrite IH by done. by rewrite decide_False. Qed.

Lemma LastIndexByte_last s t b : b ∉ t -> LastIndexByte (s ++ b :: t) b = Some (length s).
Proof. intros H. induction s as [|c s IH]; cbn [app LastIndexByte length]; [by rewrite LastIndexByte_absent, decide_True|by rewrite IH]. Qed.

(** ** Trimming *)

(** A rune that decodes does not depend on what follows. *)
Lemma DecodeRune_app x a b r w :
  DecodeRune (x :: a) = (r, w) -> (w =? 1)%nat && (r =? RuneError) = false -> DecodeRune ((x :: a) ++ b) = (r, w).
Proof.
  intros E Hok. unfold DecodeRune in *. cbn [app].
  destruct (firstByte (b2z x)) as [[[n lo] hi]|]; [|done]. destruct (n =? 1)%nat; [done|].
  destruct a as [|b1 a]; [simplify_eq; done|]. cbn [app]. destruct (negb _); [simplify_eq; done|].
  destruct (n =? 2)%nat; [done|]. destruct a as [|b2 a]; [simplify_eq; done|]. cbn [app]. destruct (negb _); [simplify_eq; done|].
  destruct (n =? 3)%nat; [done|]. by destruct a as [|b3 a]; [simplify_eq|].
Qed.

Lemma DecodeRune_take s r w p :
  DecodeRune s = (r, w) -> (w =? 1)%nat && (r =? RuneError) = false -> (w <= p)%nat -> DecodeRune (take p s) = (r, w).
Proof.
  intros H Hok Hp. destruct s as [|b0 s1]; [by rewrite take_nil|].
  destruct p as [|p]; [pose proof (DecodeRune_width b0 s1); rewrite H in *; cbn in *; lia|].
  unfold DecodeRune in *. cbn [take].
  destruct (firstByte (b2z b0)) as [[[n lo] hi]|] eqn:Ef; [|done].
  destruct (n =? 1)%nat eqn:En; [done|]. destruct s1 as [|b1 s2]; [simplify_eq; done|].
  destruct (inZ lo hi (b2z b1)) eqn:E1; cbn [negb] in H; [|simplify_eq; done].
  destruct (n =? 2)%nat; [simplify_eq; destruct p; [lia|]; cbn [take]; by rewrite E1|]. destruct s2 as [|b2 s3]; [simplify_eq; done|].
  destruct (isCont (b2z b2)) eqn:E2; cbn [negb] in H; [|simplify_eq; done].
  destruct (n =? 3)%nat; [simplify_eq; destruct p as [|[|p]]; try lia; cbn [take]; by rewrite E1, E2|].
  destruct s3 as [|b3 s4]; [simplify_eq; done|]. destruct (isCont (b2z b3)) eqn:E3; cbn [negb] in H; [|simplify_eq; done].
  simplify_eq. destruct p as [|[|[|p]]]; try lia. cbn [take]. by rewrite E1, E2, E3.
Qed.

Lemma firstByte_cont b n lo hi x :
  firstByte (b2z b) = Some (n, lo, hi) -> (n =? 1)%nat = false -> inZ lo hi (b2z x) = true -> isCont (b2z x) = true.
Proof.
  intros H Hn Hx. unfold firstByte in H. unfold inZ, isCont in *. repeat case_match; simplify_eq; try done; reflect_bools; lia.
Qed.

(** The bytes of a rune after its first. *)
Lemma DecodeRune_cont s r w i x :
  DecodeRune s = (r, w) -> (w =? 1)%nat && (r =? RuneError) = false -> (0 < i < w)%nat -> s !! i = Some x -> isCont (b2z x) = true.
Proof.
  intros H Hok Hi Hx. destruct s as [|b0 s1]; [done|]. unfold DecodeRune in H.
  destruct (firstByte (b2z b0)) as [[[n lo] hi]|] eqn:Ef; [|simplify_eq; lia].
  destruct (n =? 1)%nat eqn:En; [simplify_eq; lia|]. destruct s1 as [|b1 s2]; [simplify_eq; lia|].
  destruct (inZ lo hi (b2z b1)) eqn:E1; cbn [negb] in H; [|simplify_eq; lia].
  pose proof (firstByte_cont _ _ _ _ _ Ef En E1) as R1.
  destruct (n =? 2)%nat; [simplify_eq; replace i with 1%nat in Hx by lia; by injection Hx as <-|]. destruct s2 as [|b2 s3]; [simplify_eq; lia|].
  destruct (isCont (b2z b2)) eqn:E2; cbn [negb] in H; [|simplify_eq; lia].
  destruct (n =? 3)%nat; [simplify_eq; destruct i as [|[|[|i]]]; try lia; by injection Hx as <-|]. destruct s3 as [|b3 s4]; [simplify_eq; lia|].
  destruct (isCont (b2z b3)) eqn:E3; cbn [negb] in H; [|simplify_eq; lia].
  simplify_eq. destruct i as [|[|[|[|i]]]]; try lia; by injection Hx as <-.
Qed.

Definition trimmedLeft (s : bytes) : Prop := s = [] \/ IsSpace (DecodeRune s).1 = false.
Definition trimmedRight (s : bytes) : Prop := s = [] \/ IsSpace (DecodeLastRune s).1 = false.

Lemma trimLeftLoop_spec fuel s : (length s <= fuel)%nat -> trimmedLeft (trimLeftLoop fuel IsSpace s).
Proof.
  revert s. induction fuel as [|fuel IH]; intros s Hf; [left; by destruct s; [|cbn in Hf; lia]|].
  destruct s as [|b s]; [by left|]. cbn [trimLeftLoop]. destruct (DecodeRune (b :: s)) as [r w] eqn:E.
  pose proof (DecodeRune_width b s) as Hw. rewrite E in Hw. cbn [snd] in Hw.
  destruct (IsSpace r) eqn:Es; [|right; by rewrite E]. apply IH. rewrite length_drop. cbn [length] in *. lia.
Qed.

Lemma DecodeLastRune_width b s : (1 <= (DecodeLastRune (b :: s)).2)%nat.
Proof.
  unfold DecodeLastRune. destruct (last (b :: s)) eqn:E; [|by apply last_None in E]. cbv zeta. repeat case_match; simplify_eq; cbn; lia.
Qed.

Lemma trimRightLoop_spec fuel s :
  (length s <= fuel)%nat -> trimmedRight (trimRightLoop fuel IsSpace s) /\ exists k, trimRightLoop fuel IsSpace s = take k s.
Proof.
  revert s. induction fuel as [|fuel IH]; intros s Hf.
  { destruct s; [|cbn in Hf; lia]. split; [by left|]. by exists 0%nat. }
  destruct s as [|b s]; [split; [by left|]; by exists 0%nat|]. cbn [trimRightLoop].
  destruct (DecodeLastRune (b :: s)) as [r w] eqn:E. pose proof (DecodeLastRune_width b s) as Hw. rewrite E in Hw. cbn [snd] in Hw.
  destruct (IsSpace r) eqn:Es.
  - destruct (IH (take (length (b :: s) - w) (b :: s))) as [H1 [k Hk]]; [rewrite length_take; cbn [length] in *; lia|].
    split; [done|]. exists (k `min` (length (b :: s) - w))%nat. by rewrite Hk, take_take.
  - split; [right; by rewrite E|]. exists (length (b :: s)). by rewrite take_ge.
Qed.

(** The first rune of a prefix is that of the whole, if it is a space. *)
Lemma trimmedLeft_take s k : trimmedLeft s -> trimmedLeft (take k s).
Proof.
  intros [->|H]; [left; by rewrite take_nil|]. destruct (take k s) as [|b t] eqn:E; [by left|]. right.
  destruct (IsSpace (DecodeRune (b :: t)).1) eqn:Es; [|done]. destruct (DecodeRune (b :: t)) as [r w] eqn:Ed. cbn [fst] in Es.
  rewrite <- (take_drop k s), E in H. rewrite (DecodeRune_app b t (drop k s) r w Ed) in H; [cbn [fst] in H; congruence|].
  destruct (Z.eqb_spec r RuneError) as [->|]; [done|]. by rewrite andb_false_r.
Qed.

Lemma TrimSpace_trimmed s : trimmedLeft (TrimSpace s) /\ trimmedRight (TrimSpace s).
Proof.
  unfold TrimSpace, TrimRightFunc. pose proof (trimLeftLoop_spec (length s) s ltac:(lia)) as Hl. fold (TrimLeftFunc IsSpace s) in Hl.
  destruct (trimRightLoop_spec (length (TrimLeftFunc IsSpace s)) (TrimLeftFunc IsSpace s) ltac:(lia)) as [Hr [k Hk]].
  split; [|done]. rewrite Hk. by apply trimmedLeft_take.
Qed.

Lemma trimmed_TrimSpace s : trimmedLeft s -> trimmedRight s -> TrimSpace s = s.
Proof.
  intros Hl Hr. destruct s as [|b s]; [done|]. unfold TrimSpace, TrimLeftFunc. cbn [length trimLeftLoop].
  destruct Hl as [?|Hl]; [done|]. destruct (DecodeRune (b :: s)) as [r w]. cbn [fst] in Hl. rewrite Hl.
  unfold TrimRightFunc. cbn [length trimRightLoop]. destruct Hr as [?|Hr]; [done|].
  destruct (DecodeLastRune (b :: s)) as [r' w']. cbn [fst] in Hr. by rewrite Hr.
Qed.

Lemma space_decodes r w : IsSpace r = true -> (w =? 1)%nat && (r =? RuneError) = false.
Proof. intros H. destruct (Z.eqb_spec r RuneError) as [->|]; [done|by rewrite andb_false_r]. Qed.

(** An ASCII byte after a text does not change whether the text begins with a space. *)
Lemma trimmedLeft_ascii s b rest : trimmedLeft s -> s <> [] -> b2z b < 128 -> trimmedLeft (s ++ b :: rest).
Proof.
  intros [?|H] Hs Hb; [done|]. right. destruct (DecodeRune (s ++ b :: rest)) as [r w] eqn:Ed. cbn [fst]. destruct (IsSpace r) eqn:E; [|done].
  pose proof (space_decodes r w E) as Hok. destruct (decide (w <= length s)%nat) as [Hw|Hw].
  - pose proof (DecodeRune_take _ _ _ (length s) Ed Hok Hw) as Et. rewrite take_app_length in Et. rewrite Et in H. cbn [fst] in H. congruence.
  - exfalso. assert (isCont (b2z b) = true) as Hc.
    { apply (DecodeRune_cont _ _ _ (length s) b Ed Hok); [destruct s; [done|cbn [length] in *; lia]|by rewrite list_lookup_middle]. }
    unfold isCont in Hc. reflect_bools. lia.
Qed.

(** A space at the end that is the whole text is the first rune too. *)
Lemma DecodeLastRune_whole s r w : DecodeLastRune s = (r, w) -> IsSpace r = true -> (length s <= w)%nat -> s = [] \/ (DecodeRune s).1 = r.
Proof.
  unfold DecodeLastRune. destruct (last s) as [b|] eqn:El; [|by intros; left; apply last_None]. intros H Hr Hw. right.
  destruct (b2z b <? 128) eqn:Eb.
  { injection H as <- <-. apply last_Some in El as [s' ->]. rewrite length_app in Hw. cbn [length] in Hw. destruct s'; [|cbn in Hw; lia].
    cbn [app]. rewrite DecodeRune_ascii by lia. done. }
  assert (forall n, (match (let '(r, width) := DecodeRune (drop (length s - n) s) in if (n <=? length s)%nat && (width =? n)%nat then Some (r, n) else None) with Some out => out | None => (RuneError, 1%nat) end) = (r, w) -> (DecodeRune s).1 = r) as Hpick.
  { clear H. intros n. destruct (DecodeRune (drop (length s - n) s)) as [r' w'] eqn:E. destruct ((n <=? length s)%nat && (w' =? n)%nat) eqn:En.
    - intros [= -> ->]. apply andb_true_iff in En as [Hn _]. apply Nat.leb_le in Hn. replace (length s - w)%nat with 0%nat in E by lia. rewrite drop_0 in E. by rewrite E.
    - intros H. assert (r = RuneError) as -> by congruence. by vm_compute in Hr. }
  repeat (case_match; [by eapply Hpick|]). assert (r = RuneError) as -> by congruence. by vm_compute in Hr.
Qed.

Lemma trimRightLoop_nonempty fuel s : trimmedLeft s -> s <> [] -> trimRightLoop fuel IsSpace s <> [].
Proof.
  revert s. induction fuel as [|fuel IH]; intros s Hl Hs; [done|]. destruct s as [|b s]; [done|]. cbn [trimRightLoop].
  destruct (DecodeLastRune (b :: s)) as [r w] eqn:E. destruct (IsSpace r) eqn:Es; [|done].
  apply IH; [by apply trimmedLeft_take|]. intros Ht. destruct Hl as [?|Hl]; [done|].
  apply (f_equal length) in Ht. rewrite length_take in Ht. destruct (DecodeLastRune_whole _ _ _ E Es) as [?|Hd]; [cbn [length] in *; lia|done|].
  rewrite Hd in Hl. congruence.
Qed.

(** A text that begins with no space is not trimmed away. *)
Lemma TrimSpace_nonempty s : trimmedLeft s -> s <> [] -> TrimSpace s <> [].
Proof.
  intros Hl Hs. unfold TrimSpace, TrimLeftFunc. destruct s as [|b s]; [done|]. cbn [length trimLeftLoop].
  destruct (DecodeRune (b :: s)) as [r w] eqn:E. pose proof Hl as Hl'. destruct Hl' as [?|Hr]; [done|]. rewrite E in Hr. cbn [fst] in Hr. rewrite Hr.
  by apply trimRightLoop_nonempty.
Qed.

(** Trimming twice is trimming once. *)
Lemma TrimSpace_idem s : TrimSpace (TrimSpace s) = TrimSpace s.
Proof. destruct (TrimSpace_trimmed s) as [Hl Hr]. by apply trimmed_TrimSpace. Qed.

Lemma TrimSpace_blank s : TrimSpace (Byte.x20 :: s) = TrimSpace s.
Proof. done. Qed.

Lemma trimLeftLoop_drop fuel f s : exists k, trimLeftLoop fuel f s = drop k s.
Proof.
  revert s. induction fuel as [|fuel IH]; intros s; [by exists 0%nat|]. destruct s as [|b s]; [by exists 0%nat|].
  cbn [trimLeftLoop]. destruct (DecodeRune (b :: s)) as [r w]. destruct (f r); [|by exists 0%nat].
  destruct (IH (drop w (b :: s))) as [k Hk]. exists (w + k)%nat. by rewrite Hk, drop_drop.
Qed.

Lemma TrimSpace_subset s b : b ∈ TrimSpace s -> b ∈ s.
Proof.
  unfold TrimSpace, TrimRightFunc. destruct (trimRightLoop_spec (length (TrimLeftFunc IsSpace s)) (TrimLeftFunc IsSpace s) ltac:(lia)) as [_ [k ->]].
  unfold TrimLeftFunc. destruct (trimLeftLoop_drop (length s) IsSpace s) as [j ->].
  intros (i & Hi)%list_elem_of_lookup. apply lookup_take_Some in Hi as [Hi _]. rewrite lookup_drop in Hi.
  by eapply list_elem_of_lookup_2.
Qed.

Lemma TrimSpace_length s : (length (TrimSpace s) <= length s)%nat.
Proof.
  unfold TrimSpace, TrimRightFunc. destruct (trimRightLoop_spec (length (TrimLeftFunc IsSpace s)) (TrimLeftFunc IsSpace s) ltac:(lia)) as [_ [k ->]].
  unfold TrimLeftFunc. destruct (trimLeftLoop_drop (length s) IsSpace s) as [j ->]. rewrite length_take, length_drop. lia.
Qed.

(** ASCII white space and other ASCII bytes. *)
Definition asciiSpace (b : Byte.byte) : Prop := b2z b < RuneSelf /\ IsSpace (b2z b) = true.
Definition asciiDark (b : Byte.byte) : Prop := b2z b < RuneSelf /\ IsSpace (b2z b) = false.

Lemma DecodeLastRune_ascii s b : b2z b < RuneSelf -> DecodeLastRune (s ++ [b]) = (b2z b, 1%nat).
Proof. intros H. unfold DecodeLastRune. rewrite last_snoc. unfold RuneSelf in H. destruct (Z.ltb_spec (b2z b) 128); [done|lia]. Qed.

Lemma trimLeftLoop_space fuel b s : asciiSpace b -> trimLeftLoop (S fuel) IsSpace (b :: s) = trimLeftLoop fuel IsSpace s.
Proof. intros [H1 H2]. cbn [trimLeftLoop]. rewrite DecodeRune_ascii by done. by rewrite H2. Qed.

Lemma trimRightLoop_space fuel b s : asciiSpace b -> trimRightLoop (S fuel) IsSpace (s ++ [b]) = trimRightLoop fuel IsSpace s.
Proof.
  intros [H1 H2]. cbn [trimRightLoop]. destruct (s ++ [b]) as [|c t] eqn:E; [by destruct s|]. rewrite <- E.
  rewrite DecodeLastRune_ascii by done. rewrite H2, length_app, Nat.add_sub. by rewrite take_app_length.
Qed.

Lemma trimLeft_spaces fuel sp s : Forall asciiSpace sp -> trimLeftLoop (length sp + fuel) IsSpace (sp ++ s) = trimLeftLoop fuel IsSpace s.
Proof. induction 1 as [|b sp Hb _ IH]; [done|]. cbn [length app Nat.add]. by rewrite trimLeftLoop_space. Qed.

Lemma trimRight_spaces fuel sp s : Forall asciiSpace sp -> trimRightLoop (length sp + fuel) IsSpace (s ++ sp) = trimRightLoop fuel IsSpace s.
Proof.
  intros H. revert fuel s H. induction sp as [|b sp IH] using rev_ind; intros fuel s H.
  - by rewrite app_nil_r.
  - apply Forall_app in H as [H Hb]. apply Forall_cons in Hb as [Hb _]. rewrite length_app, app_assoc. cbn [length].
    replace (length sp + 1 + fuel)%nat with (S (length sp + fuel)) by lia. rewrite (trimRightLoop_space _ b) by exact Hb. apply IH, H.
Qed.

(** A text between dark bytes, with white space around it, is what trimming leaves. *)
Lemma TrimSpace_around sp sp' s : Forall asciiSpace sp -> Forall asciiSpace sp' ->
  (forall b t, s = b :: t -> asciiDark b) -> (forall t b, s = t ++ [b] -> asciiDark b) -> TrimSpace (sp ++ s ++ sp') = s.
Proof.
  intros Hsp Hsp' Hf Hl. unfold TrimSpace, TrimLeftFunc, TrimRightFunc. rewrite length_app, trimLeft_spaces by done.
  destruct s as [|b s].
  { pose proof (trimLeft_spaces 0 sp' [] Hsp') as E. rewrite app_nil_r, Nat.add_0_r in E. cbn [app]. by rewrite E. }
  destruct (Hf b s eq_refl) as [Hb1 Hb2]. assert (trimLeftLoop (length ((b :: s) ++ sp')) IsSpace ((b :: s) ++ sp') = (b :: s) ++ sp') as ->.
  { cbn [app length trimLeftLoop]. rewrite DecodeRune_ascii by done. by rewrite Hb2. }
  rewrite length_app, Nat.add_comm, trimRight_spaces by done. destruct (exists_last (l := b :: s)) as (t & c & E); [done|].
  destruct (Hl t c E) as [Hc1 Hc2]. cbn [length trimRightLoop]. rewrite E, DecodeLastRune_ascii by done. by rewrite Hc2.
Qed.
