(* ===== verification/GoSort.v ===== *)
(** * GoSort: [sort.SliceStable]

    A stable sort by a strict weak order is unique, so it is modelled by the simplest one.
    The lemmas: it permutes, it sorts, it keeps the order of elements that are not
    distinguished, and it leaves a sorted list alone.  And the entries of a map in the order of
    its keys. *)

From S2P Require Import Prelude.

Section stable.
Context {A : Type} (less : A -> A -> bool).

(** [x] goes before the first element that is not less than it. *)
Fixpoint insertStable (x : A) (l : list A) : list A :=
  match l with
  | [] => [x]
  | y :: l' => if less y x then y :: insertStable x l' else x :: l
  end.

Definition SliceStable (l : list A) : list A := foldr insertStable [] l.

(** [a] may stand before [b]. *)
Definition inOrder (a b : A) : Prop := less b a = false.

Lemma insertStable_perm x l : insertStable x l ≡ₚ x :: l.
Proof.
  induction l as [|y l IH]; [done|]. cbn [insertStable]. destruct (less y x); [|done].
  rewrite IH. apply Permutation_swap.
Qed.

Lemma SliceStable_perm l : SliceStable l ≡ₚ l.
Proof. induction l as [|x l IH]; [done|]. cbn. by rewrite insertStable_perm, IH. Qed.

Lemma elem_of_SliceStable l x : x ∈ SliceStable l <-> x ∈ l.
Proof. by rewrite SliceStable_perm. Qed.

Lemma SliceStable_length l : length (SliceStable l) = length l.
Proof. by rewrite SliceStable_perm. Qed.

(** What [sort] asks of the comparison. *)
Class StrictWeak : Prop := {
  less_asym a b : less a b = true -> less b a = false;
  less_cotrans a b c : less a b = true -> less a c = true \/ less c b = true;
}.

Context `{!StrictWeak}.

Lemma inOrder_trans a b c : inOrder a b -> inOrder b c -> inOrder a c.
Proof.
  unfold inOrder. intros H1 H2. destruct (less c a) eqn:E; [|done].
  destruct (less_cotrans c a b E); congruence.
Qed.

Lemma insertStable_sorted x l : StronglySorted inOrder l -> StronglySorted inOrder (insertStable x l).
Proof.
  induction 1 as [|y l Hs IH Hf]; cbn [insertStable].
  { repeat constructor. }
  destruct (less y x) eqn:E.
  - constructor; [done|]. rewrite insertStable_perm. constructor; [|done]. by apply less_asym.
  - constructor; [by constructor|]. constructor; [done|].
    eapply Forall_impl; [exact Hf|]. intros z Hz. by eapply inOrder_trans.
Qed.

Lemma SliceStable_sorted l : StronglySorted inOrder (SliceStable l).
Proof. induction l as [|x l IH]; [constructor|]. by apply insertStable_sorted. Qed.

(** Elements that the order does not tell apart keep their relative order. *)
Lemma SliceStable_stable (P : A -> Prop) `{!forall x, Decision (P x)} l :
  (forall a b, P a -> P b -> less a b = false) -> filter P (SliceStable l) = filter P l.
Proof.
  intros HP. induction l as [|x l IH]; [done|]. cbn [SliceStable foldr]. fold (SliceStable l).
  assert (forall l, filter P (insertStable x l) = filter P (x :: l)) as Hins; [|by rewrite Hins, !filter_cons, IH].
  intros k. induction k as [|y k IHk]; [done|]. cbn [insertStable]. destruct (less y x) eqn:E; [|done].
  rewrite !(filter_cons _ y), IHk, !filter_cons. repeat case_decide; try done.
  by rewrite (HP y x) in E.
Qed.

Lemma SliceStable_id l : StronglySorted inOrder l -> SliceStable l = l.
Proof.
  induction 1 as [|x l Hs IH Hf]; [done|]. cbn [SliceStable foldr]. fold (SliceStable l). rewrite IH.
  destruct Hf as [|y l Hy Hf]; [done|]. cbn [insertStable]. unfold inOrder in Hy. by rewrite Hy.
Qed.
End stable.
Arguments StrictWeak {A} less.

(** Go's [<] on strings. *)
Definition strLess (a b : bytes) : bool := (strCompare a b <? 0)%Z.

#[export] Instance strLess_weak : StrictWeak strLess.
Proof.
  split; unfold strLess; intros.
  - rewrite strCompare_opp. apply Z.ltb_lt in H. apply Z.ltb_ge. lia.
  - apply Z.ltb_lt in H. destruct (Z.ltb_spec (strCompare a c) 0); [by left|right]. apply Z.ltb_lt.
    destruct (Z.lt_ge_cases (strCompare c b) 0) as [|Hcb]; [done|].
    pose proof (strCompare_opp a c). pose proof (strCompare_opp c b).
    pose proof (strCompare_le_trans b c a). pose proof (strCompare_opp a b). lia.
Qed.

Lemma strLess_total a b : strLess a b = false -> strLess b a = false -> a = b.
Proof.
  unfold strLess. intros H1 H2. apply strCompare_eq. pose proof (strCompare_opp a b).
  apply Z.ltb_ge in H1, H2. lia.
Qed.

(** ** The entries of a map by key *)

(** [slices.Sort] of the keys of a map, with the values the keys have in it. *)
Definition sortedFields {A} (m : gmap bytes A) : list (bytes * A) := SliceStable (fun a b => strLess a.1 b.1) (map_to_list m).

Lemma insertStable_map {A B} (f : A -> B) (less : A -> A -> bool) (less' : B -> B -> bool) x l :
  (forall a b, less' (f a) (f b) = less a b) -> insertStable less' (f x) (map f l) = map f (insertStable less x l).
Proof. intros H. induction l as [|y l IH]; [done|]. cbn [map insertStable]. rewrite H, IH. by destruct (less y x). Qed.

Lemma sortedFields_fmap {A B} (f : A -> B) (m : gmap bytes A) : sortedFields (f <$> m) = map (prod_map id f) (sortedFields m).
Proof.
  unfold sortedFields. rewrite map_to_list_fmap. induction (map_to_list m) as [|[k v] l IH]; [done|].
  cbn [fmap list_fmap SliceStable foldr]. change (foldr ?g [] ?l) with (SliceStable (fun a b : bytes * B => strLess a.1 b.1) l) at 1.
  rewrite IH. by apply (insertStable_map (prod_map id f)).
Qed.

Lemma sortedFields_perm {A} (m : gmap bytes A) : sortedFields m ≡ₚ map_to_list m.
Proof. apply SliceStable_perm. Qed.

Lemma elem_of_sortedFields {A} (m : gmap bytes A) k v : (k, v) ∈ sortedFields m <-> m !! k = Some v.
Proof. by rewrite sortedFields_perm, elem_of_map_to_list. Qed.

Lemma foldl_insert_lookup {A} (l : list (bytes * A)) (m : gmap bytes A) k :
  NoDup l.*1 -> foldl (fun m f => <[f.1 := f.2]> m) m l !! k = (list_to_map l : gmap bytes A) !! k ∪ m !! k.
Proof.
  revert m. induction l as [|[k' v] l IH]; intros m Hn; [cbn [foldl list_to_map foldr]; by rewrite lookup_empty, (left_id_L None (∪))|]. cbn [foldl fst snd].
  apply NoDup_cons in Hn as [Hk Hn]. rewrite IH by done. cbn [list_to_map foldr]. destruct (decide (k = k')) as [->|Hne].
  - rewrite !lookup_insert, !decide_True by done. cbn [fst snd]. rewrite not_elem_of_list_to_map_1 by done. by destruct (m !! k').
  - by rewrite !lookup_insert_ne by (cbn; congruence).
Qed.

(** The members of sorted fields, read again, are the map. *)
Lemma foldl_sortedFields {A} (m : gmap bytes A) : foldl (fun m f => <[f.1 := f.2]> m) ∅ (sortedFields m) = m.
Proof.
  apply map_eq. intros k. assert (NoDup (sortedFields m).*1) as Hn by (rewrite sortedFields_perm; apply NoDup_fst_map_to_list).
  rewrite foldl_insert_lookup, lookup_empty, (right_id_L None (∪)) by done.
  rewrite <- (list_to_map_to_list m) at 2. f_equal. apply list_to_map_proper; [done|]. apply sortedFields_perm.
Qed.
