(* ===== verification/GoFloat.v ===== *)
(** * GoFloat: the float64 operations the program uses

    [float64] values are the IEEE 754 specification floats of the standard library with
    53 bits of precision; every operation rounds to nearest even, as Go's do.  The
    conversion to an integer truncates toward zero; Go leaves the result of a conversion
    that does not fit to the implementation, which is the class [FloatConversion]. *)

From Stdlib Require Import SpecFloat.
From S2P Require Import Prelude.

Open Scope Z_scope.

Abbreviation float64 := spec_float.

(** [float64(n)]. *)
Definition f64 (n : Z) : float64 := binary_normalize 53 1024 n 0 false.
Definition f64mul := SFmul 53 1024.
Definition f64div := SFdiv 53 1024.
Definition f64add := SFadd 53 1024.
Definition f64sub := SFsub 53 1024.

(** Go's [<=], [<] and [==] on [float64]. *)
Definition f64le (x y : float64) : bool := SFleb x y.
Definition f64lt (x y : float64) : bool := SFltb x y.
Definition f64eq (x y : float64) : bool := SFeqb x y.

(** The integral part of a finite value. *)
Definition f64trunc (x : float64) : option Z :=
  match x with
  | S754_zero _ => Some 0
  | S754_finite s m e =>
      let v := if 0 <=? e then Z.pos m * 2 ^ e else Z.pos m / 2 ^ (- e) in Some (if s then - v else v)
  | _ => None
  end.

(** [int(x)] of a value that fits. *)
Definition f64int (x : float64) : Z := default 0 (f64trunc x).

(** [int(x)] of any value: [int64] always, the integral part when that fits, and
    otherwise what the architecture gives. *)
Class FloatConversion := {
  toInt64 : float64 -> Z;
  toInt64_range x : minInt64 <= toInt64 x <= maxInt64;
  toInt64_fits x z : f64trunc x = Some z -> minInt64 <= z <= maxInt64 -> toInt64 x = z;
}.

Definition fitting (x : float64) : option Z :=
  match f64trunc x with
  | Some z => if (minInt64 <=? z) && (z <=? maxInt64) then Some z else None
  | None => None
  end.

Lemma fitting_range x z : fitting x = Some z -> minInt64 <= z <= maxInt64.
Proof. unfold fitting. intros H. repeat case_match; simplify_eq. reflect_bools. lia. Qed.

Lemma fitting_fits x z : f64trunc x = Some z -> minInt64 <= z <= maxInt64 -> fitting x = Some z.
Proof. intros H [H1 H2]. unfold fitting. rewrite H. by rewrite (proj2 (Z.leb_le _ _) H1), (proj2 (Z.leb_le _ _) H2). Qed.

(** amd64: the integer indefinite value. *)
Definition amd64Conversion : FloatConversion.
Proof.
  refine {| toInt64 x := default minInt64 (fitting x) |}.
  - intros x. destruct (fitting x) eqn:E; cbn; [by eapply fitting_range|]. unfold minInt64, maxInt64. lia.
  - intros x z H Hz. by rewrite (fitting_fits x z).
Defined.

(** arm64: saturation, and zero for NaN. *)
Definition saturated (x : float64) : Z :=
  match x with
  | S754_nan => 0
  | S754_infinity s | S754_zero s | S754_finite s _ _ => if s then minInt64 else maxInt64
  end.

Definition arm64Conversion : FloatConversion.
Proof.
  refine {| toInt64 x := default (saturated x) (fitting x) |}.
  - intros x. destruct (fitting x) eqn:E; [by eapply fitting_range|]. change (default (saturated x) None) with (saturated x).
    unfold saturated, minInt64, maxInt64. repeat case_match; subst; lia.
  - intros x z H Hz. by rewrite (fitting_fits x z).
Defined.

(** [math.Ceil]: the next integral value above. *)
Definition f64ceil (x : float64) : float64 :=
  match x with
  | S754_finite s m e =>
      if 0 <=? e then x
      else if s then binary_normalize 53 1024 (- (Z.pos m / 2 ^ (- e))) 0 true
      else f64 (- ((- Z.pos m) / 2 ^ (- e)))
  | _ => x
  end.

Example f64_third : f64int (f64div (f64mul (f64 10) (f64 20)) (f64 6)) = 33.
Proof. vm_compute. reflexivity. Qed.
Example f64_ceil_third : f64int (f64ceil (f64div (f64 10) (f64 3))) = 4.
Proof. vm_compute. reflexivity. Qed.
