(* ===== verification/CsRecord.v ===== *)
(** * CsRecord: row records and their frames (codestore/record.go)

    A row record is serialised to a payload ([encodeRecord]), the payload is
    framed with its length and checksums ([appendFrame]), and replay decodes it
    again ([decodeRecord]).  The decoder is the Go [decoder] struct: remaining
    bytes and a sticky error.  Slicing past the end of the remaining bytes is a
    run-time panic and is kept as such. *)

From S2P Require Import Prelude GoBinary.

Open Scope Z_scope.

(** ** Data *)

(** The scalar types the record code distinguishes; any other type name is
    [ScalarTypeOther]. *)
Inductive ScalarType :=
| ScalarTypeString
| ScalarTypeBool
| ScalarTypeInt64
| ScalarTypeOther (name : bytes).

(** A scalar value with the fields the record code reads and writes. *)
Record ScalarValue := MkScalar {
  sv_Type : ScalarType;
  sv_Null : bool;
  sv_String : bytes;
  sv_Bool : bool;
  sv_Int64 : Z;
}.

Record ScalarColumn := MkColumn {
  col_Name : bytes;
  col_Type : ScalarType;
}.

#[export] Instance ScalarType_eq_dec : EqDecision ScalarType.
Proof. solve_decision. Defined.

#[export] Instance ScalarType_countable : Countable ScalarType.
Proof.
  refine (inj_countable'
    (fun t => match t with
     | ScalarTypeString => inl 0%nat | ScalarTypeBool => inl 1%nat
     | ScalarTypeInt64 => inl 2%nat | ScalarTypeOther n => inr n end)
    (fun t => match t with
     | inl 0%nat => ScalarTypeString | inl 1%nat => ScalarTypeBool
     | inl _ => ScalarTypeInt64 | inr n => ScalarTypeOther n end) _).
  by intros [].
Defined.

#[export] Instance ScalarValue_eq_dec : EqDecision ScalarValue.
Proof. solve_decision. Defined.

#[export] Instance ScalarValue_countable : Countable ScalarValue.
Proof.
  refine (inj_countable'
    (fun v => (sv_Type v, sv_Null v, sv_String v, sv_Bool v, sv_Int64 v))
    (fun '(t, n, s, b, i) => MkScalar t n s b i) _).
  by intros [].
Defined.

(** A 256-bit sign code: four 64-bit words. *)
Definition Code : Type := list Z.
Definition codeWords : nat := 4.

Definition recordUpsert : Z := 1.
Definition recordDelete : Z := 2.
Definition cellNull : Z := 0.
Definition cellValue : Z := 1.

Record storedCell := MkCell {
  cell_column : nat;
  cell_value : ScalarValue;
}.

Record rowRecord := MkRecord {
  rec_kind : Z;
  rec_id : bytes;
  rec_code : Code;
  rec_relativePath : bytes;
  rec_splitPart : Z;
  rec_splitRecorded : bool;
  rec_dataOffset : Z;
  rec_dataLength : Z;
  rec_cells : list storedCell;
}.

Definition emptyRecord (kind : Z) (id : bytes) : rowRecord :=
  MkRecord kind id (replicate codeWords 0) [] 0 false 0 0 [].

(** Errors of the record code. *)
Inductive recError :=
| errMalformedRecord
| errFrameLimit
| errUnsupportedType.

(** ** Encoding *)

Definition appendString (buffer value : bytes) : bytes :=
  (buffer ++ varintBytes (zlen value)) ++ value.

Definition frameFormatPayloadCRC : Z := 0.
Definition frameFormatLengthCRC : Z := 1.

Definition frameHeaderSize (format : Z) : Z :=
  if format =? frameFormatLengthCRC then 12 else 8.

Definition appendFrame (buffer payload : bytes) (format : Z) : outcome recError bytes :=
  let length := zlen payload in
  if 2 ^ 32 - 1 <? length then Fail errFrameLimit else
  let lengthBytes := leBytes 4 length in
  let buffer := buffer ++ lengthBytes in
  let buffer := if format =? frameFormatLengthCRC
                then buffer ++ leBytes 4 (ChecksumIEEE lengthBytes) else buffer in
  let buffer := buffer ++ leBytes 4 (ChecksumIEEE payload) in
  Ok (buffer ++ payload).

Definition boolByte (b : bool) : Byte.byte := if b then Byte.x01 else Byte.x00.

(** One cell of [encodeRecord]'s loop. *)
Definition encodeCell (columns : list ScalarColumn) (payload : bytes) (cell : storedCell)
  : outcome recError bytes :=
  let payload := payload ++ varintBytes (Z.of_nat (cell_column cell)) in
  let value := cell_value cell in
  if sv_Null value then Ok (payload ++ [z2b cellNull]) else
  let payload := payload ++ [z2b cellValue] in
  match columns !! cell_column cell with
  | None => Panic
  | Some column =>
      match col_Type column with
      | ScalarTypeString => Ok (appendString payload (sv_String value))
      | ScalarTypeBool => Ok (payload ++ [boolByte (sv_Bool value)])
      | ScalarTypeInt64 => Ok (payload ++ varintBytes (sv_Int64 value))
      | ScalarTypeOther _ => Fail errUnsupportedType
      end
  end.

Fixpoint encodeCells (columns : list ScalarColumn) (payload : bytes) (cells : list storedCell)
  : outcome recError bytes :=
  match cells with
  | [] => Ok payload
  | cell :: cells =>
      payload ← encodeCell columns payload cell;
      encodeCells columns payload cells
  end.

Definition encodeRecord (record : rowRecord) (columns : list ScalarColumn) : outcome recError bytes :=
  let payload := [z2b (rec_kind record)] in
  let payload := appendString payload (rec_id record) in
  if rec_kind record =? recordDelete then Ok payload else
  let payload := foldl (fun payload word => payload ++ leBytes 8 word) payload (rec_code record) in
  let payload := appendString payload (rec_relativePath record) in
  let payload := payload ++ varintBytes (rec_splitPart record) in
  let payload := payload ++ [boolByte (rec_splitRecorded record)] in
  let payload := payload ++ varintBytes (rec_dataOffset record) in
  let payload := payload ++ varintBytes (rec_dataLength record) in
  let payload := payload ++ varintBytes (zlen (rec_cells record)) in
  encodeCells columns payload (rec_cells record).

(** ** Decoding *)

Record decoder := MkDecoder {
  dec_data : bytes;
  dec_err : bool;
}.

(** A reader method of the decoder: it may panic, and it updates the decoder. *)
Definition reader (A : Type) : Type := decoder -> outcome recError (A * decoder).

#[export] Instance reader_ret : MRet reader := fun A a d => Ok (a, d).
#[export] Instance reader_bind : MBind reader := fun A B f m d =>
  match m d with
  | Ok (a, d) => f a d
  | Fail e => Fail e
  | Panic => Panic
  end.

Definition setMalformed {A} (zero : A) : reader A :=
  fun d => Ok (zero, MkDecoder (dec_data d) true).

Definition byteValue : reader Z := fun d =>
  match dec_err d, dec_data d with
  | false, b :: rest => Ok (b2z b, MkDecoder rest false)
  | _, _ => setMalformed 0 d
  end.

Definition varint : reader Z := fun d =>
  if dec_err d then Ok (0, d) else
  let '(value, read) := Varint (dec_data d) in
  if read <=? 0 then setMalformed 0 d
  else Ok (value, MkDecoder (drop (Z.to_nat read) (dec_data d)) false).

Definition count (limit : Z) : reader Z :=
  value ← varint;
  if (value <? 0) || (limit <? value) then setMalformed 0 else mret value.

Definition int32Value : reader Z :=
  value ← varint;
  if (value <? - 2 ^ 31) || (2 ^ 31 - 1 <? value) then setMalformed 0 else mret value.

(** [length] is bounded by the bytes that remain before its varint is read;
    the slice below is taken from the bytes that remain after it. *)
Definition stringValue : reader bytes := fun d =>
  match count (zlen (dec_data d)) d with
  | Ok (length, d) =>
      if dec_err d then Ok ([], d)
      else if zlen (dec_data d) <? length then Panic
      else Ok (take (Z.to_nat length) (dec_data d),
               MkDecoder (drop (Z.to_nat length) (dec_data d)) false)
  | Fail e => Fail e
  | Panic => Panic
  end.

(** The loop that reads the code words of an upsert record. *)
Fixpoint codeOfBytes (words : nat) (data : bytes) : Code :=
  match words with
  | O => []
  | S words => leValue (take 8 data) :: codeOfBytes words (drop 8 data)
  end.

(** The value part of one cell, for its column type. *)
Definition cellPayload (columnType : ScalarType) : reader ScalarValue :=
  match columnType with
  | ScalarTypeString => s ← stringValue; mret (MkScalar columnType false s false 0)
  | ScalarTypeBool => b ← byteValue; mret (MkScalar columnType false [] (b =? 1) 0)
  | ScalarTypeInt64 => i ← varint; mret (MkScalar columnType false [] false i)
  | ScalarTypeOther _ => fun _ => Fail errMalformedRecord
  end.

Definition failIfErr : reader unit := fun d =>
  if dec_err d then Fail errMalformedRecord else Ok (tt, d).

(** One iteration of the cell loop of [decodeRecord]. *)
Definition decodeCell (columns : list ScalarColumn) : reader storedCell :=
  column ← count (zlen columns - 1);
  _ ← failIfErr;
  match columns !! Z.to_nat column with
  | None => fun _ => Panic
  | Some c =>
      flag ← byteValue;
      value ← (if flag =? cellValue then cellPayload (col_Type c)
               else mret (MkScalar (col_Type c) true [] false 0));
      mret (MkCell (Z.to_nat column) value)
  end.

Fixpoint decodeCells (columns : list ScalarColumn) (n : nat) : reader (list storedCell) :=
  match n with
  | O => mret []
  | S n =>
      cell ← decodeCell columns;
      cells ← decodeCells columns n;
      mret (cell :: cells)
  end.

(** The fields of an upsert record after its kind and id. *)
Definition decodeUpsert (columns : list ScalarColumn) (id : bytes) : reader rowRecord :=
  fun d =>
  if zlen (dec_data d) <? Z.of_nat codeWords * 8 then Fail errMalformedRecord else
  let code := codeOfBytes codeWords (dec_data d) in
  let d := MkDecoder (drop (codeWords * 8) (dec_data d)) (dec_err d) in
  (relativePath ← stringValue;
   splitPart ← int32Value;
   splitRecorded ← byteValue;
   dataOffset ← count maxInt64;
   dataLength ← count maxInt64;
   cellCount ← count (zlen columns);
   _ ← failIfErr;
   cells ← decodeCells columns (Z.to_nat cellCount);
   _ ← failIfErr;
   mret (MkRecord recordUpsert id code relativePath splitPart (splitRecorded =? 1)
           dataOffset dataLength cells)) d.

(** The reads of [decodeRecord], in order. *)
Definition recordReader (columns : list ScalarColumn) : reader rowRecord :=
  kind ← byteValue;
  id ← stringValue;
  if kind =? recordDelete then (_ ← failIfErr; mret (emptyRecord recordDelete id))
  else if negb (kind =? recordUpsert) then fun _ => Fail errMalformedRecord
  else decodeUpsert columns id.

Definition decodeRecord (payload : bytes) (columns : list ScalarColumn) : outcome recError rowRecord :=
  '(record, _) ← recordReader columns (MkDecoder payload false);
  Ok record.

Definition encodeBlob (content metadata : bytes) : bytes :=
  appendString (appendString [] content) metadata.

Definition decodeBlob (blob : bytes) : outcome recError (bytes * bytes) :=
  '(result, _) ←
    (content ← stringValue;
     metadata ← stringValue;
     _ ← failIfErr;
     mret (content, metadata)) (MkDecoder blob false);
  Ok result.

(** ** Well-formed records *)

Definition int64Range (x : Z) : Prop := minInt64 <= x <= maxInt64.

(** A cell value in the normal form in which [Upsert] stores it: the declared
    type, and only the field of that type set. *)
Definition canonicalValue (columnType : ScalarType) (v : ScalarValue) : Prop :=
  v = MkScalar columnType true [] false 0 \/
  match columnType with
  | ScalarTypeString => zlen (sv_String v) <= maxInt64 /\ v = MkScalar columnType false (sv_String v) false 0
  | ScalarTypeBool => v = MkScalar columnType false [] (sv_Bool v) 0
  | ScalarTypeInt64 => int64Range (sv_Int64 v) /\ v = MkScalar columnType false [] false (sv_Int64 v)
  | ScalarTypeOther _ => False
  end.

Definition canonicalCell (columns : list ScalarColumn) (cell : storedCell) : Prop :=
  exists column, columns !! cell_column cell = Some column /\
    canonicalValue (col_Type column) (cell_value cell).

Record recordWf (columns : list ScalarColumn) (r : rowRecord) : Prop := {
  wf_id : zlen (rec_id r) <= maxInt64;
  wf_columns : zlen columns <= maxInt64;
  wf_kind : r = emptyRecord recordDelete (rec_id r) \/
    (rec_kind r = recordUpsert /\
     length (rec_code r) = codeWords /\
     Forall (fun w => 0 <= w < 2 ^ 64) (rec_code r) /\
     zlen (rec_relativePath r) <= maxInt64 /\
     - 2 ^ 31 <= rec_splitPart r <= 2 ^ 31 - 1 /\
     0 <= rec_dataOffset r <= maxInt64 /\
     0 <= rec_dataLength r <= maxInt64 /\
     (length (rec_cells r) <= length columns)%nat /\
     Forall (canonicalCell columns) (rec_cells r));
}.

(** ** Reader lemmas *)

(** [m] reads exactly the bytes [enc] and returns [v], whatever follows them. *)
Definition reads {A} (m : reader A) (enc : bytes) (v : A) : Prop :=
  forall rest, m (MkDecoder (enc ++ rest) false) = Ok (v, MkDecoder rest false).

Lemma reads_ret {A} (v : A) : reads (mret v) [] v.
Proof. done. Qed.

Lemma reads_bind {A B} (m : reader A) (f : A -> reader B) e1 e2 a b :
  reads m e1 a -> reads (f a) e2 b -> reads (m ≫= f) (e1 ++ e2) b.
Proof.
  intros Hm Hf rest. unfold mbind, reader_bind. rewrite <- app_assoc, Hm. apply Hf.
Qed.

(** A step that reads nothing. *)
Lemma reads_bind_nil {A B} (m : reader A) (f : A -> reader B) enc a b :
  reads m [] a -> reads (f a) enc b -> reads (m ≫= f) enc b.
Proof. intros. by apply (reads_bind m f [] enc a b). Qed.

(** A last step that reads nothing. *)
Lemma reads_bind_last {A B} (m : reader A) (f : A -> reader B) enc a b :
  reads m enc a -> reads (f a) [] b -> reads (m ≫= f) enc b.
Proof. intros. rewrite <- (app_nil_r enc). by eapply reads_bind. Qed.

Lemma reads_byteValue b : reads byteValue [b] (b2z b).
Proof. done. Qed.

Lemma reads_failIfErr : reads failIfErr [] tt.
Proof. done. Qed.

Lemma reads_varint x : int64Range x -> reads varint (varintBytes x) x.
Proof.
  intros Hx rest. unfold varint. cbn [dec_err dec_data].
  rewrite Varint_varintBytes by done.
  pose proof (varintBytes_zlen_pos x). destruct (Z.leb_spec (zlen (varintBytes x)) 0); [lia|].
  by rewrite to_nat_zlen, drop_app_length.
Qed.

Lemma reads_count limit x : 0 <= x <= limit -> x <= maxInt64 -> reads (count limit) (varintBytes x) x.
Proof.
  intros Hx Hm. unfold count. eapply reads_bind_last.
  - apply reads_varint. unfold int64Range, minInt64. lia.
  - destruct (Z.ltb_spec x 0), (Z.ltb_spec limit x); try lia. apply reads_ret.
Qed.

Lemma reads_int32Value x : - 2 ^ 31 <= x <= 2 ^ 31 - 1 -> reads int32Value (varintBytes x) x.
Proof.
  intros Hx. unfold int32Value. eapply reads_bind_last.
  - apply reads_varint. unfold int64Range, minInt64, maxInt64. lia.
  - destruct (Z.ltb_spec x (- 2 ^ 31)), (Z.ltb_spec (2 ^ 31 - 1) x); try lia. apply reads_ret.
Qed.

Lemma reads_stringValue s : zlen s <= maxInt64 -> reads stringValue (varintBytes (zlen s) ++ s) s.
Proof.
  intros Hs rest. unfold stringValue. cbn [dec_data]. rewrite <- app_assoc.
  pose proof (zlen_nonneg s). pose proof (zlen_nonneg rest).
  pose proof (zlen_nonneg (varintBytes (zlen s))).
  rewrite (reads_count _ (zlen s)); [|autorewrite with golen; lia|done].
  cbn [dec_err dec_data]. destruct (Z.ltb_spec (zlen (s ++ rest)) (zlen s)).
  { autorewrite with golen in *. lia. }
  by rewrite to_nat_zlen, take_app_length, drop_app_length.
Qed.

#[export] Hint Resolve reads_ret reads_byteValue reads_failIfErr reads_varint reads_count
  reads_int32Value reads_stringValue : go.

(** ** Round trip of cells *)

Lemma b2z_cellNull : b2z (z2b cellNull) = 0.
Proof. done. Qed.

Lemma b2z_cellValue : b2z (z2b cellValue) = 1.
Proof. done. Qed.

Lemma boolByte_value b : (b2z (boolByte b) =? 1) = b.
Proof. by destruct b. Qed.

Lemma reads_cellPayload t v :
  canonicalValue t v -> sv_Null v = false ->
  exists enc, reads (cellPayload t) enc v /\
    forall payload, (match t with
      | ScalarTypeString => Ok (appendString payload (sv_String v))
      | ScalarTypeBool => Ok (payload ++ [boolByte (sv_Bool v)])
      | ScalarTypeInt64 => Ok (payload ++ varintBytes (sv_Int64 v))
      | ScalarTypeOther _ => @Fail recError bytes errUnsupportedType
      end) = Ok (payload ++ enc).
Proof.
  intros [->|Hc] Hn; [done|]. destruct t as [| | |name]; cbn [cellPayload].
  - destruct Hc as [Hs ->]. eexists. split.
    + eapply reads_bind_last; [by apply reads_stringValue|apply reads_ret].
    + intros. unfold appendString. by rewrite <- app_assoc.
  - rewrite Hc. eexists. split.
    + eapply reads_bind_last; [apply reads_byteValue|]. rewrite boolByte_value. apply reads_ret.
    + done.
  - destruct Hc as [Hi ->]. eexists. split.
    + eapply reads_bind_last; [by apply reads_varint|apply reads_ret].
    + done.
  - done.
Qed.

Lemma encodeCell_reads columns cell :
  zlen columns <= maxInt64 -> canonicalCell columns cell ->
  exists enc, (forall payload, encodeCell columns payload cell = Ok (payload ++ enc)) /\
    reads (decodeCell columns) enc cell.
Proof.
  intros Hcols (column & Hlk & Hcan). destruct cell as [idx v]. cbn [cell_column cell_value] in *.
  assert (Z.of_nat idx <= zlen columns - 1) as Hidx.
  { apply lookup_lt_Some in Hlk. unfold zlen. lia. }
  assert (forall tail,
    reads (flag ← byteValue;
           value ← (if flag =? cellValue then cellPayload (col_Type column)
                    else mret (MkScalar (col_Type column) true [] false 0));
           mret (MkCell idx value)) tail (MkCell idx v) ->
    reads (decodeCell columns) (varintBytes (Z.of_nat idx) ++ tail) (MkCell idx v)) as Hhead.
  { intros tail Htail. unfold decodeCell. eapply reads_bind.
    - apply reads_count; lia.
    - eapply reads_bind_nil; [apply reads_failIfErr|]. rewrite Nat2Z.id, Hlk. done. }
  unfold encodeCell. cbn [cell_column cell_value]. destruct (sv_Null v) eqn:Hn.
  - exists (varintBytes (Z.of_nat idx) ++ [z2b cellNull]). split; [intros; by rewrite <- app_assoc|].
    apply Hhead. eapply reads_bind_last; [apply reads_byteValue|]. rewrite b2z_cellNull.
    destruct Hcan as [->|Hc].
    + apply reads_bind_nil with (a := MkScalar (col_Type column) true [] false 0); apply reads_ret.
    + exfalso. destruct (col_Type column);
        [destruct Hc as [_ Hc]| |destruct Hc as [_ Hc]|done]; rewrite Hc in Hn; done.
  - destruct (reads_cellPayload _ _ Hcan Hn) as (enc & Hr & He).
    exists (varintBytes (Z.of_nat idx) ++ [z2b cellValue] ++ enc). split.
    + intros. rewrite Hlk, He, !app_assoc. done.
    + apply Hhead. eapply reads_bind; [apply reads_byteValue|]. rewrite b2z_cellValue.
      eapply reads_bind_last; [exact Hr|apply reads_ret].
Qed.

Lemma encodeCells_reads columns cells :
  zlen columns <= maxInt64 -> Forall (canonicalCell columns) cells ->
  exists enc, (forall payload, encodeCells columns payload cells = Ok (payload ++ enc)) /\
    reads (decodeCells columns (length cells)) enc cells.
Proof.
  intros Hcols. induction 1 as [|cell cells Hc _ (enc & He & Hr)].
  - exists []. split; [intros; by rewrite app_nil_r|]. apply reads_ret.
  - destruct (encodeCell_reads columns cell Hcols Hc) as (enc1 & He1 & Hr1).
    exists (enc1 ++ enc). split.
    + intros. cbn [encodeCells]. rewrite He1. cbn. by rewrite He, app_assoc.
    + cbn [decodeCells length]. eapply reads_bind; [exact Hr1|].
      eapply reads_bind_last; [exact Hr|apply reads_ret].
Qed.

(** ** Round trip of records *)

Lemma foldl_leBytes words payload :
  foldl (fun payload word => payload ++ leBytes 8 word) payload words
  = payload ++ concat (map (leBytes 8) words).
Proof.
  revert payload. induction words as [|w words IH]; intros; cbn.
  - by rewrite app_nil_r.
  - by rewrite IH, <- app_assoc.
Qed.

Lemma codeBytes_length (words : list Z) :
  length (concat (map (leBytes 8) words)) = (length words * 8)%nat.
Proof.
  induction words as [|w words IH]; [done|]. cbn [map concat length]. rewrite length_app, leBytes_length, IH. lia.
Qed.

Lemma codeOfBytes_words words rest :
  Forall (fun w => 0 <= w < 2 ^ 64) words ->
  codeOfBytes (length words) (concat (map (leBytes 8) words) ++ rest) = words.
Proof.
  induction 1 as [|w words Hw _ IH]; [done|]. cbn [length codeOfBytes map concat].
  rewrite <- app_assoc, take_app_length', drop_app_length' by (by rewrite leBytes_length).
  by rewrite IH, leValue_leBytes.
Qed.

Lemma reads_decodeUpsert columns id code e r :
  length code = codeWords -> Forall (fun w => 0 <= w < 2 ^ 64) code ->
  reads (relativePath ← stringValue;
   splitPart ← int32Value;
   splitRecorded ← byteValue;
   dataOffset ← count maxInt64;
   dataLength ← count maxInt64;
   cellCount ← count (zlen columns);
   _ ← failIfErr;
   cells ← decodeCells columns (Z.to_nat cellCount);
   _ ← failIfErr;
   mret (MkRecord recordUpsert id code relativePath splitPart (splitRecorded =? 1)
           dataOffset dataLength cells)) e r ->
  reads (decodeUpsert columns id) (concat (map (leBytes 8) code) ++ e) r.
Proof.
  intros Hl Hw Hr rest. unfold decodeUpsert. cbn [dec_data dec_err]. rewrite <- app_assoc.
  pose proof (codeBytes_length code) as Hlen. rewrite Hl in Hlen.
  destruct (Z.ltb_spec (zlen (concat (map (leBytes 8) code) ++ e ++ rest)) (Z.of_nat codeWords * 8)).
  { rewrite zlen_app in *. pose proof (zlen_nonneg (e ++ rest)). unfold zlen in *. lia. }
  pose proof (codeOfBytes_words code (e ++ rest) Hw) as Hcode. rewrite Hl in Hcode.
  rewrite Hcode, drop_app_length' by done. apply Hr.
Qed.

(** The encoding of a well-formed record, independent of what follows it. *)
Lemma encodeRecord_reads columns r :
  recordWf columns r ->
  exists enc, encodeRecord r columns = Ok enc /\ enc <> [] /\ reads (recordReader columns) enc r.
Proof.
  intros [Hid Hcols Hk]. unfold encodeRecord. destruct Hk as [Hk|Hk].
  - rewrite Hk. cbn [rec_kind rec_id emptyRecord]. eexists. split; [done|].
    unfold appendString. rewrite <- app_assoc. split; [done|].
    eapply reads_bind; [apply reads_byteValue|].
    eapply reads_bind_last; [by apply reads_stringValue|]. cbn [Z.eqb].
    eapply reads_bind_nil; [apply reads_failIfErr|apply reads_ret].
  - destruct Hk as (Hkind & Hcl & Hcw & Hp & Hs & Ho & Hl & Hn & Hcells).
    destruct (encodeCells_reads columns (rec_cells r) Hcols Hcells) as (ecells & He & Hrc).
    rewrite Hkind. change (recordUpsert =? recordDelete) with false. cbv iota zeta.
    rewrite He. eexists. split; [done|].
    rewrite foldl_leBytes. unfold appendString. rewrite <- !app_assoc. split; [done|].
    eapply reads_bind; [apply reads_byteValue|].
    rewrite app_assoc. eapply reads_bind; [by apply reads_stringValue|].
    cbn [Z.eqb negb]. apply reads_decodeUpsert; [done|done|].
    rewrite app_assoc. eapply reads_bind; [by apply reads_stringValue|].
    eapply reads_bind; [by apply reads_int32Value|].
    eapply reads_bind; [apply reads_byteValue|].
    eapply reads_bind; [apply reads_count; lia|].
    eapply reads_bind; [apply reads_count; lia|].
    assert (zlen (rec_cells r) <= zlen columns) by (unfold zlen; lia).
    eapply reads_bind; [apply reads_count; pose proof (zlen_nonneg (rec_cells r)); lia|].
    eapply reads_bind_nil; [apply reads_failIfErr|].
    eapply reads_bind_last; [rewrite to_nat_zlen; exact Hrc|].
    eapply reads_bind_nil; [apply reads_failIfErr|].
    rewrite boolByte_value, <- Hkind. destruct r; apply reads_ret.
Qed.

Lemma reads_decodeRecord columns enc r :
  reads (recordReader columns) enc r -> decodeRecord enc columns = Ok r.
Proof.
  intros Hr. unfold decodeRecord. specialize (Hr []). rewrite app_nil_r in Hr. by rewrite Hr.
Qed.

(** Every well-formed row record (a delete tombstone, or an upsert with cells
    in the store's normal form) is encoded without error, and decoding the
    payload gives back exactly that record. *)
Theorem decodeRecord_encodeRecord columns r :
  recordWf columns r ->
  exists payload, encodeRecord r columns = Ok payload /\ decodeRecord payload columns = Ok r.
Proof.
  intros Hwf. destruct (encodeRecord_reads columns r Hwf) as (enc & He & _ & Hr).
  exists enc. split; [done|]. by apply reads_decodeRecord.
Qed.

Definition sampleColumns : list ScalarColumn :=
  [MkColumn (lit "item") ScalarTypeString; MkColumn (lit "ts") ScalarTypeInt64;
   MkColumn (lit "flag") ScalarTypeBool].

Definition sampleRecord : rowRecord :=
  MkRecord recordUpsert (lit "row-1") [1; 2; 3; 2 ^ 64 - 1] (lit "a/b") (-7) true 100 42
    [MkCell 0 (MkScalar ScalarTypeString false (lit "conv") false 0);
     MkCell 1 (MkScalar ScalarTypeInt64 false [] false (-5));
     MkCell 2 (MkScalar ScalarTypeBool true [] false 0)].

Lemma sampleRecord_wf : recordWf sampleColumns sampleRecord.
Proof.
  split; [done|done|right].
  split_and!; try done; try (cbn; unfold maxInt64; lia); try (repeat constructor; lia).
  repeat constructor; eexists; (split; [reflexivity|]); unfold canonicalValue; cbn;
    first [by left | by right | right; split; [|reflexivity]; done].
Qed.

Lemma decodeRecord_encodeRecord_witness :
  exists payload, encodeRecord sampleRecord sampleColumns = Ok payload /\
    decodeRecord payload sampleColumns = Ok sampleRecord.
Proof. apply (decodeRecord_encodeRecord sampleColumns sampleRecord), sampleRecord_wf. Defined.

(** The data blob of a row: content and metadata survive [encodeBlob] and
    [decodeBlob] for all byte strings whose length is an [int64]. *)
Lemma blob_roundtrip content metadata :
  zlen content <= maxInt64 -> zlen metadata <= maxInt64 ->
  decodeBlob (encodeBlob content metadata) = Ok (content, metadata).
Proof.
  intros Hc Hm. unfold decodeBlob, encodeBlob, appendString. cbn [app].
  match goal with |- context [(?m ≫= ?f) (MkDecoder _ _)] =>
    assert (reads (m ≫= f) ((varintBytes (zlen content) ++ content) ++
      (varintBytes (zlen metadata) ++ metadata)) (content, metadata)) as Hr end.
  { eapply reads_bind; [by apply reads_stringValue|].
    eapply reads_bind_last; [by apply reads_stringValue|].
    eapply reads_bind_nil; [apply reads_failIfErr|apply reads_ret]. }
  specialize (Hr []). rewrite app_nil_r, app_assoc in Hr. by rewrite Hr.
Qed.

(** ** Malformed input

    The decoder checks a string length against the bytes that remain before the
    length's own varint is consumed, so a length that exceeds the remaining
    bytes by at most the size of that varint is not rejected: the slice
    expression panics. *)

(** When a string read panics.  It panics exactly on a length that fits into the bytes
    that remain before its varint is read and not into those that remain after it; every
    other malformed length is reported through the decoder's error. *)
Theorem stringValue_panics data :
  stringValue (MkDecoder data false) = Panic <->
  exists length read, Varint data = (length, read) /\ 0 < read /\
    zlen data - read < length /\ length <= zlen data.
Proof.
  unfold stringValue, count, varint, mbind, reader_bind, setMalformed, mret, reader_ret. cbn [dec_data dec_err].
  destruct (Varint data) as [length read] eqn:E. pose proof (Varint_read _ _ _ E) as Hread.
  assert (0 < read -> zlen (drop (Z.to_nat read) data) = zlen data - read) as Hz
    by (unfold zlen in *; rewrite length_drop; lia).
  destruct (Z.leb_spec read 0) as [|Hpos]; cbn.
  { split; [by destruct (zlen data <? 0)|]. intros (l & r & [= <- <-] & ? & _). lia. }
  specialize (Hz Hpos). destruct (Z.ltb_spec length 0), (Z.ltb_spec (zlen data) length); cbn.
  1-3: split; [done|]; intros (l & r & [= <- <-] & ? & ? & ?); lia.
  rewrite Hz. destruct (Z.ltb_spec (zlen data - read) length).
  - split; [|done]. intros _. by exists length, read.
  - split; [done|]. intros (l & r & [= <- <-] & ? & ? & ?). lia.
Qed.

(** A one-byte blob whose length prefix announces one byte of content is not
    rejected with an error: decoding it panics. *)
Lemma decodeBlob_short_panics : decodeBlob [Byte.x02] = Panic.
Proof. vm_compute. reflexivity. Qed.

(** The same on the row log: a two-byte payload (an upsert kind and a length). *)
Lemma decodeRecord_short_panics columns : decodeRecord [Byte.x01; Byte.x02] columns = Panic.
Proof. vm_compute. reflexivity. Qed.

(** ** What a successful decode guarantees *)

(** Running [m] on a decoder with an [int64] amount of data keeps that bound and
    returns a value that satisfies [P]. *)
Definition ensures {A} (m : reader A) (P : A -> Prop) : Prop :=
  forall d v d', zlen (dec_data d) <= maxInt64 -> m d = Ok (v, d') ->
    zlen (dec_data d') <= maxInt64 /\ P v.

Lemma ensures_ret {A} (v : A) (P : A -> Prop) : P v -> ensures (mret v) P.
Proof. intros Hv d w d' Hd H. unfold mret, reader_ret in H. by simplify_eq. Qed.

Lemma ensures_bind {A B} (m : reader A) (f : A -> reader B) P Q :
  ensures m P -> (forall a, P a -> ensures (f a) Q) -> ensures (m ≫= f) Q.
Proof.
  intros Hm Hf d v d' Hd H. unfold mbind, reader_bind in H.
  destruct (m d) as [[a d1]| |] eqn:E; try done.
  destruct (Hm _ _ _ Hd E) as [Hd1 Ha]. by apply (Hf a Ha d1 v d').
Qed.

Lemma ensures_fail {A} e (P : A -> Prop) : ensures (fun _ => Fail e) P.
Proof. done. Qed.

Lemma ensures_setMalformed {A} (z : A) (P : A -> Prop) : P z -> ensures (setMalformed z) P.
Proof. intros Hz d v d' Hd H. unfold setMalformed in H. simplify_eq. done. Qed.

Lemma zlen_drop_le {A} n (s : list A) : zlen (drop n s) <= zlen s.
Proof. unfold zlen. rewrite length_drop. lia. Qed.

Lemma zlen_take_le {A} n (s : list A) : zlen (take n s) <= zlen s.
Proof. unfold zlen. rewrite length_take. lia. Qed.

Lemma Varint_range buf v n : Varint buf = (v, n) -> int64Range v.
Proof.
  unfold Varint. destruct (Uvarint buf) as [ux m]. intros H. simplify_eq.
  pose proof (i64_range (Z.shiftr ux 1)). unfold int64Range, Z.lnot, minInt64, maxInt64 in *.
  destruct (_ =? _); lia.
Qed.

Lemma ensures_byteValue : ensures byteValue (fun _ => True).
Proof.
  intros [data err] v d' Hd H. unfold byteValue, setMalformed in H. cbn in *.
  destruct err, data as [|b data]; simplify_eq; cbn [dec_data] in *; try done.
  rewrite zlen_cons in Hd. split; [lia|done].
Qed.

Lemma ensures_varint : ensures varint int64Range.
Proof.
  intros [data err] v d' Hd H. unfold varint, setMalformed in H. cbn [dec_err dec_data] in *.
  assert (int64Range 0) by (unfold int64Range, minInt64, maxInt64; lia).
  destruct err; [by simplify_eq|].
  destruct (Varint data) as [x n] eqn:E. destruct (n <=? 0); simplify_eq; [done|].
  cbn [dec_data]. split; [|by eapply Varint_range].
  etransitivity; [apply zlen_drop_le|done].
Qed.

Lemma ensures_count limit : ensures (count limit) (fun v => v = 0 \/ (0 <= v <= limit /\ v <= maxInt64)).
Proof.
  eapply ensures_bind; [apply ensures_varint|]. intros v Hv.
  destruct ((v <? 0) || (limit <? v)) eqn:E; [apply ensures_setMalformed; by left|].
  reflect_bools. unfold int64Range in Hv. apply ensures_ret. right. lia.
Qed.

Lemma ensures_int32Value : ensures int32Value (fun v => - 2 ^ 31 <= v <= 2 ^ 31 - 1).
Proof.
  eapply ensures_bind; [apply ensures_varint|]. intros v Hv.
  destruct ((v <? - 2 ^ 31) || (2 ^ 31 - 1 <? v)) eqn:E; [apply ensures_setMalformed; lia|].
  reflect_bools. apply ensures_ret. lia.
Qed.

Lemma ensures_stringValue : ensures stringValue (fun s => zlen s <= maxInt64).
Proof.
  intros d v d' Hd H. unfold stringValue in H.
  destruct (count _ d) as [[len d1]| |] eqn:E; try done.
  destruct (ensures_count _ _ _ _ Hd E) as [Hd1 _].
  destruct (dec_err d1); [simplify_eq; split; [done|unfold zlen, maxInt64; cbn; lia]|].
  destruct (_ <? _); simplify_eq. cbn [dec_data].
  split; (etransitivity; [|exact Hd1]); [apply zlen_drop_le|apply zlen_take_le].
Qed.

(** [failIfErr] only lets a decoder without error through. *)
Lemma ensures_failIfErr : ensures failIfErr (fun _ => True).
Proof. intros [data []] v d' Hd H; cbn in H; by simplify_eq. Qed.

Lemma ensures_cellPayload t : ensures (cellPayload t) (canonicalValue t).
Proof.
  destruct t; cbn [cellPayload]; [| | |apply ensures_fail].
  - eapply ensures_bind; [apply ensures_stringValue|]. intros s Hs. apply ensures_ret. by right.
  - eapply ensures_bind; [apply ensures_byteValue|]. intros b _. apply ensures_ret. by right.
  - eapply ensures_bind; [apply ensures_varint|]. intros i Hi. apply ensures_ret. by right.
Qed.

Lemma ensures_decodeCell columns : ensures (decodeCell columns) (canonicalCell columns).
Proof.
  eapply ensures_bind; [apply ensures_count|]. intros column _.
  eapply ensures_bind; [apply ensures_failIfErr|]. intros _ _.
  destruct (columns !! Z.to_nat column) as [c|] eqn:Hc; [|done].
  eapply ensures_bind; [apply ensures_byteValue|]. intros flag _.
  eapply (ensures_bind _ _ (canonicalValue (col_Type c))).
  - destruct (_ =? _); [apply ensures_cellPayload|]. apply ensures_ret. by left.
  - intros v Hv. apply ensures_ret. by exists c.
Qed.

Lemma ensures_decodeCells columns n :
  ensures (decodeCells columns n) (fun cells => length cells = n /\ Forall (canonicalCell columns) cells).
Proof.
  induction n as [|n IH]; cbn [decodeCells]; [by apply ensures_ret|].
  eapply ensures_bind; [apply ensures_decodeCell|]. intros cell Hcell.
  eapply ensures_bind; [apply IH|]. intros cells [Hl Hcells].
  apply ensures_ret. split; [cbn; lia|by constructor].
Qed.

Lemma leValue_bound bs : leValue bs < 2 ^ (8 * zlen bs).
Proof.
  induction bs as [|b bs IH]; cbn [leValue]; [done|]. pose proof (b2z_range b).
  pose proof (leValue_nonneg bs). pose proof (zlen_nonneg bs).
  rewrite lor_shiftl_add, zlen_cons by lia.
  replace (8 * (1 + zlen bs)) with (8 + 8 * zlen bs) by lia. rewrite Z.pow_add_r by lia. nia.
Qed.

Lemma codeOfBytes_range n data :
  length (codeOfBytes n data) = n /\ Forall (fun w => 0 <= w < 2 ^ 64) (codeOfBytes n data).
Proof.
  revert data. induction n as [|n IH]; intros; cbn [codeOfBytes length]; [done|].
  destruct (IH (drop 8 data)) as [Hl Hf]. split; [lia|]. constructor; [|done].
  split; [apply leValue_nonneg|]. eapply Z.lt_le_trans; [apply leValue_bound|].
  apply Z.pow_le_mono_r; [lia|]. unfold zlen. rewrite length_take. lia.
Qed.

Lemma ensures_decodeUpsert columns id :
  zlen columns <= maxInt64 -> zlen id <= maxInt64 ->
  ensures (decodeUpsert columns id) (recordWf columns).
Proof.
  intros Hcols Hid d v d' Hd H. unfold decodeUpsert in H. destruct (_ <? _); [done|].
  destruct (codeOfBytes_range codeWords (dec_data d)) as [Hl Hf].
  revert Hl Hf H. generalize (codeOfBytes codeWords (dec_data d)) as code. intros code Hl Hf H.
  match type of H with ?m (MkDecoder ?x ?y) = _ =>
    assert (ensures m (recordWf columns)) as He end.
  { eapply ensures_bind; [apply ensures_stringValue|]. intros path Hpath.
    eapply ensures_bind; [apply ensures_int32Value|]. intros split_ Hsplit.
    eapply ensures_bind; [apply ensures_byteValue|]. intros srec _.
    eapply ensures_bind; [apply ensures_count|]. intros off Hoff.
    eapply ensures_bind; [apply ensures_count|]. intros len Hlen.
    eapply ensures_bind; [apply ensures_count|]. intros n Hn.
    eapply ensures_bind; [apply ensures_failIfErr|]. intros _ _.
    eapply ensures_bind; [apply ensures_decodeCells|]. intros cells [Hcl Hcells].
    eapply ensures_bind; [apply ensures_failIfErr|]. intros _ _.
    apply ensures_ret. split; [done|done|right]. cbn.
    unfold zlen, maxInt64 in *. split_and!; try done; try lia. }
  apply (He _ _ _) in H; [done|]. cbn [dec_data]. etransitivity; [apply zlen_drop_le|done].
Qed.

(** C40. What decodes is well formed: whatever bytes the row log holds,
    a record that [decodeRecord] returns is well formed.  Its kind is one of the
    two record kinds, every cell names a declared column and holds a value of
    that column's type, there are at most as many cells as columns, and every
    number is within its width. *)
Theorem decodeRecord_wf payload columns r :
  zlen payload <= maxInt64 -> zlen columns <= maxInt64 ->
  decodeRecord payload columns = Ok r -> recordWf columns r.
Proof.
  intros Hp Hc H. unfold decodeRecord, mbind, outcome_bind in H.
  destruct (recordReader columns (MkDecoder payload false)) as [[r' d']| |] eqn:E; try done.
  simplify_eq.
  assert (ensures (recordReader columns) (recordWf columns)) as He.
  { eapply ensures_bind; [apply ensures_byteValue|]. intros kind _.
    eapply ensures_bind; [apply ensures_stringValue|]. intros id Hid.
    destruct (kind =? recordDelete).
    - eapply ensures_bind; [apply ensures_failIfErr|]. intros _ _. apply ensures_ret.
      split; [done|done|by left].
    - destruct (negb _); [apply ensures_fail|]. by apply ensures_decodeUpsert. }
  by apply (He (MkDecoder payload false) r d').
Qed.

Lemma decodeRecord_wf_witness :
  recordWf [] (emptyRecord recordDelete (lit "x")).
Proof.
  apply (decodeRecord_wf [Byte.x02; Byte.x02; Byte.x78] []);
    [vm_compute; discriminate|vm_compute; discriminate|vm_compute; reflexivity].
Defined.
