(* ===== verification/CsCollection.v ===== *)
(** * CsCollection: the in-memory index of a collection and its row log
      (codestore/collection.go)

    A collection keeps rows, their sign codes, an id index and one dictionary of
    distinct values per column.  The row log holds framed records; replaying it
    rebuilds the index, truncates a torn tail and refuses a log that is damaged
    in the middle.  [write] appends data bytes, then framed records, then applies
    the records to the index.  File contents are part of the state; whether the
    truncation of the log succeeds is an argument.  The reads of the log succeed here;
    [CsReads] has the replay with an outcome for each of them, and proves that this one is
    the case in which none fails. *)

From S2P Require Import Prelude GoBinary CsRecord.

Open Scope Z_scope.

(** ** State *)

Record collectionHeader := MkHeader {
  h_Scalars : list ScalarColumn;
  h_Dimension : Z;
  h_Model : bytes;
  h_Generation : Z;
  h_FrameFormat : Z;
}.

(** Id 0 stands for an absent value; [dict_ids] inverts [dict_values]. *)
Record dictionary := MkDictionary {
  dict_values : list ScalarValue;
  dict_ids : gmap ScalarValue nat;
}.

Record row := MkRow {
  row_id : bytes;
  row_relativePath : bytes;
  row_splitPart : Z;
  row_splitRecorded : bool;
  row_dataOffset : Z;
  row_dataLength : Z;
  row_cells : list nat;
}.

Record codeCollection := MkCollection {
  cc_header : collectionHeader;
  cc_columnIndex : gmap bytes nat;
  cc_dictionaries : list dictionary;
  cc_rows : list row;
  cc_codes : list Code;
  cc_byID : gmap bytes nat;
  cc_rowsFile : bytes;
  cc_dataFile : bytes;
  cc_dataSize : Z;
  cc_logSize : Z;
  cc_dead : Z;
}.

Inductive csError :=
| csRecord (e : recError)
| csUnexpectedEOF
| csDataFileTooShort
| csTooManyValues
| csIO.

(** Operations on a collection: the state is kept when the operation fails. *)
Definition M (A : Type) : Type := codeCollection -> codeCollection * outcome csError A.

#[export] Instance M_ret : MRet M := fun A a st => (st, Ok a).
#[export] Instance M_bind : MBind M := fun A B f m st =>
  match m st with
  | (st, Ok a) => f a st
  | (st, Fail e) => (st, Fail e)
  | (st, Panic) => (st, Panic)
  end.

Definition failM {A} (e : csError) : M A := fun st => (st, Fail e).
Definition panicM {A} : M A := fun st => (st, Panic).

(** Lift the record code's errors. *)
Definition liftRec {A} (o : outcome recError A) : M A :=
  match o with
  | Ok a => mret a
  | Fail e => failM (csRecord e)
  | Panic => panicM
  end.

Definition setIndex (st : codeCollection) (dictionaries : list dictionary) (rows : list row)
    (codes : list Code) (byID : gmap bytes nat) (dead : Z) : codeCollection :=
  MkCollection (cc_header st) (cc_columnIndex st) dictionaries rows codes byID
    (cc_rowsFile st) (cc_dataFile st) (cc_dataSize st) (cc_logSize st) dead.

Definition setFiles (st : codeCollection) (rowsFile dataFile : bytes) (dataSize logSize : Z)
  : codeCollection :=
  MkCollection (cc_header st) (cc_columnIndex st) (cc_dictionaries st) (cc_rows st) (cc_codes st)
    (cc_byID st) rowsFile dataFile dataSize logSize (cc_dead st).

Definition setDictionaries (st : codeCollection) (dictionaries : list dictionary) : codeCollection :=
  setIndex st dictionaries (cc_rows st) (cc_codes st) (cc_byID st) (cc_dead st).

(** ** Dictionaries and the index *)

Definition newDictionary (emptyScalar : ScalarValue) : dictionary :=
  MkDictionary [emptyScalar] ∅.

Definition intern (values : dictionary) (value : ScalarValue) : outcome csError (nat * dictionary) :=
  match dict_ids values !! value with
  | Some id => Ok (id, values)
  | None =>
      let next := length (dict_values values) in
      if 2 ^ 32 - 1 <? Z.of_nat next then Fail csTooManyValues
      else Ok (next, MkDictionary (dict_values values ++ [value]) (<[value := next]> (dict_ids values)))
  end.

(** The loop of [apply] that interns the cells of a record. *)
Fixpoint internCells (dictionaries : list dictionary) (cells : list nat) (stored : list storedCell)
  : list dictionary * outcome csError (list nat) :=
  match stored with
  | [] => (dictionaries, Ok cells)
  | cell :: stored =>
      match dictionaries !! cell_column cell with
      | None => (dictionaries, Panic)
      | Some dict =>
          match intern dict (cell_value cell) with
          | Fail e => (dictionaries, Fail e)
          | Panic => (dictionaries, Panic)
          | Ok (id, dict) =>
              let dictionaries := <[cell_column cell := dict]> dictionaries in
              match cells !! cell_column cell with
              | None => (dictionaries, Panic)
              | Some _ => internCells dictionaries (<[cell_column cell := id]> cells) stored
              end
          end
      end
  end.

(** Both [rows[position]] and [codes[position]] are in range. *)
Definition inRange (position : nat) (st : codeCollection) : bool :=
  (position <? length (cc_rows st))%nat && (position <? length (cc_codes st))%nat.

(** Swap-remove of a row: the last row takes the place of the removed one. *)
Definition remove (id : bytes) : M unit := fun st =>
  match cc_byID st !! id with
  | None => (st, Ok tt)
  | Some position =>
      let last := (length (cc_rows st) - 1)%nat in
      if negb (inRange position st) then (st, Panic) else
      match cc_rows st !! last, cc_codes st !! last with
      | Some lastRow, Some lastCode =>
          let '(rows, codes, byID) :=
            if (position =? last)%nat then (cc_rows st, cc_codes st, cc_byID st)
            else (<[position := lastRow]> (cc_rows st), <[position := lastCode]> (cc_codes st),
                  <[row_id lastRow := position]> (cc_byID st)) in
          (setIndex st (cc_dictionaries st) (take last rows) (take last codes) (delete id byID)
             (cc_dead st), Ok tt)
      | _, _ => (st, Panic)
      end
  end.

Definition incDead (st : codeCollection) : codeCollection :=
  setIndex st (cc_dictionaries st) (cc_rows st) (cc_codes st) (cc_byID st) (cc_dead st + 1).

Definition rowOf (record : rowRecord) (cells : list nat) : row :=
  MkRow (rec_id record) (rec_relativePath record) (rec_splitPart record) (rec_splitRecorded record)
    (rec_dataOffset record) (rec_dataLength record) cells.

Definition apply (record : rowRecord) : M unit := fun st =>
  if rec_kind record =? recordDelete then
    match remove (rec_id record) st with
    | (st, Ok _) => (incDead st, Ok tt)
    | (st, Fail e) => (st, Fail e)
    | (st, Panic) => (st, Panic)
    end
  else
  let cells := replicate (length (h_Scalars (cc_header st))) 0%nat in
  match internCells (cc_dictionaries st) cells (rec_cells record) with
  | (dictionaries, Fail e) => (setDictionaries st dictionaries, Fail e)
  | (dictionaries, Panic) => (setDictionaries st dictionaries, Panic)
  | (dictionaries, Ok cells) =>
      let next := rowOf record cells in
      match cc_byID st !! rec_id record with
      | Some position =>
          if negb (inRange position st) then (setDictionaries st dictionaries, Panic) else
          (setIndex st dictionaries (<[position := next]> (cc_rows st))
             (<[position := rec_code record]> (cc_codes st)) (cc_byID st) (cc_dead st + 1), Ok tt)
      | None =>
          (setIndex st dictionaries (cc_rows st ++ [next]) (cc_codes st ++ [rec_code record])
             (<[rec_id record := length (cc_rows st)]> (cc_byID st)) (cc_dead st), Ok tt)
      end
  end.

Fixpoint applyAll (records : list rowRecord) : M unit :=
  match records with
  | [] => mret tt
  | record :: records => _ ← apply record; applyAll records
  end.

(** The stored values of a row's cells, in column order; id 0 is absent. *)
Fixpoint cellsOf (dictionaries : list dictionary) (column : nat) (cells : list nat)
  : outcome csError (list storedCell) :=
  match cells with
  | [] => Ok []
  | id :: cells =>
      if (id =? 0)%nat then cellsOf dictionaries (S column) cells else
      match dictionaries !! column with
      | None => Panic
      | Some dict =>
          match dict_values dict !! id with
          | None => Panic
          | Some value =>
              rest ← cellsOf dictionaries (S column) cells;
              Ok (MkCell column value :: rest)
          end
      end
  end.

Definition recordOf (st : codeCollection) (position : nat) : outcome csError rowRecord :=
  match cc_rows st !! position, cc_codes st !! position with
  | Some current, Some code =>
      cells ← cellsOf (cc_dictionaries st) 0 (row_cells current);
      Ok (MkRecord recordUpsert (row_id current) code (row_relativePath current)
            (row_splitPart current) (row_splitRecorded current) (row_dataOffset current)
            (row_dataLength current) cells)
  | _, _ => Panic
  end.

(** ** The row log *)

Definition bufferBytes : Z := 2 ^ 20.
Definition frameFieldBytes : Z := 4.

(** Length, payload checksum, and whether the length is to be trusted. *)
Definition parseFrameHeader (format : Z) (header : bytes) : Z * Z * bool :=
  let lengthBytes := slice header 0 frameFieldBytes in
  let length := leValue lengthBytes in
  let payloadChecksum := leValue (slice header (zlen header - frameFieldBytes) (zlen header)) in
  if negb (format =? frameFormatLengthCRC) then (length, payloadChecksum, true) else
  let lengthChecksum := leValue (slice header frameFieldBytes (2 * frameFieldBytes)) in
  (length, payloadChecksum, ChecksumIEEE lengthBytes =? lengthChecksum).

Definition searchStart (format offset end_ : Z) : Z :=
  if format =? frameFormatLengthCRC then end_ else offset + 1.

(** Index of the last non-zero byte of a chunk. *)
Fixpoint lastNonZero (chunk : bytes) : option nat :=
  match chunk with
  | [] => None
  | b :: chunk =>
      match lastNonZero chunk with
      | Some p => Some (S p)
      | None => if b2z b =? 0 then None else Some 0%nat
      end
  end.

Fixpoint contentEndLoop (fuel : nat) (file : bytes) (offset chunkLength chunkEnd : Z) : Z :=
  match fuel with
  | O => offset
  | S fuel =>
      if chunkEnd <=? offset then offset else
      let chunkStart := Z.max offset (chunkEnd - chunkLength) in
      match lastNonZero (slice file chunkStart chunkEnd) with
      | Some position => chunkStart + Z.of_nat position + 1
      | None => contentEndLoop fuel file offset chunkLength chunkStart
      end
  end.

(** End of the last non-zero byte at or after [offset]. *)
Definition contentEnd (file : bytes) (offset logSize : Z) : Z :=
  contentEndLoop (S (length file)) file offset (Z.min bufferBytes (logSize - offset)) logSize.

Definition payloadMatches (file : bytes) (payloadStart length payloadChecksum : Z) : bool :=
  ChecksumIEEE (slice file payloadStart (payloadStart + length)) =? payloadChecksum.

(** What the scan of one window found. *)
Inductive scanResult := scanFound | scanStop | scanNext.

(** The inner loop of [validFrameBetween]: frame starts within one window. *)
Fixpoint scanWindow (n : nat) (format : Z) (file window : bytes)
    (windowStart frameStart logSize : Z) : scanResult :=
  match n with
  | O => scanNext
  | S n =>
      let payloadStart := frameStart + frameHeaderSize format in
      if logSize <? payloadStart then scanStop else
      let '(length, payloadChecksum, lengthValid) :=
        parseFrameHeader format (slice window (frameStart - windowStart) (payloadStart - windowStart)) in
      if negb lengthValid || (length =? 0) || (logSize <? payloadStart + length)
         || negb (payloadMatches file payloadStart length payloadChecksum)
      then scanWindow n format file window windowStart (frameStart + 1) logSize
      else scanFound
  end.

(** The outer loop: windows of [bufferBytes] frame starts. *)
Fixpoint scanWindows (fuel : nat) (format : Z) (file : bytes)
    (windowStart contentEnd logSize : Z) : bool :=
  match fuel with
  | O => false
  | S fuel =>
      if contentEnd <=? windowStart then false else
      let windowEnd := Z.min (windowStart + bufferBytes + frameHeaderSize format) logSize in
      let window := slice file windowStart windowEnd in
      let lastStart := Z.min (windowStart + bufferBytes) contentEnd in
      match scanWindow (Z.to_nat (lastStart - windowStart)) format file window
              windowStart windowStart logSize with
      | scanFound => true
      | scanStop => false
      | scanNext => scanWindows fuel format file (windowStart + bufferBytes) contentEnd logSize
      end
  end.

Definition validFrameBetween (format : Z) (file : bytes) (searchStart contentEnd logSize : Z) : bool :=
  scanWindows (S (length file)) format file searchStart contentEnd logSize.

(** [rowsFile.Truncate] succeeds or not ([truncateOk]). *)
Definition truncateRows (truncateOk : bool) (offset : Z) : M unit := fun st =>
  if truncateOk
  then (setFiles st (take (Z.to_nat offset) (cc_rowsFile st)) (cc_dataFile st) (cc_dataSize st) offset,
        Ok tt)
  else (st, Fail csIO).

Definition rejectRecord (truncateOk : bool) (offset searchStart logSize : Z) (cause : csError) : M unit :=
  fun st =>
  let file := cc_rowsFile st in
  let format := h_FrameFormat (cc_header st) in
  if validFrameBetween format file searchStart (contentEnd file offset logSize) logSize
  then failM cause st
  else truncateRows truncateOk offset st.

(** What [checkRecord] decides: apply the record, or stop with a result. *)
Inductive checked :=
| recordAccepted (record : rowRecord)
| recordStopped.

Definition checkRecord (truncateOk : bool) (offset end_ logSize : Z) (payload : bytes)
    (payloadChecksum : Z) : M checked := fun st =>
  let format := h_FrameFormat (cc_header st) in
  if (zlen payload =? 0) || negb (ChecksumIEEE payload =? payloadChecksum) then
    (_ ← rejectRecord truncateOk offset (searchStart format offset end_) logSize
           (csRecord errMalformedRecord);
     mret recordStopped) st
  else
    (record ← liftRec (decodeRecord payload (h_Scalars (cc_header st)));
     if (rec_kind record =? recordUpsert) &&
        (cc_dataSize st <? i64 (rec_dataOffset record + rec_dataLength record))
     then failM csDataFileTooShort
     else mret (recordAccepted record)) st.

Definition setLogSize (logSize : Z) : M unit := fun st =>
  (setFiles st (cc_rowsFile st) (cc_dataFile st) (cc_dataSize st) logSize, Ok tt).

(** The loop of [replay] at [offset]; [logSize] is the file size at its start.
    Every iteration consumes a frame header, so the file length is enough fuel. *)
Fixpoint replayLoop (fuel : nat) (truncateOk : bool) (logSize offset : Z) : M unit := fun st =>
  match fuel with
  | O => (st, Ok tt)
  | S fuel =>
      let file := cc_rowsFile st in
      let format := h_FrameFormat (cc_header st) in
      let headerBytes := frameHeaderSize format in
      if logSize <=? offset then (st, Ok tt)
      else if logSize <? offset + headerBytes then truncateRows truncateOk offset st
      else
      let '(length, payloadChecksum, lengthValid) :=
        parseFrameHeader format (slice file offset (offset + headerBytes)) in
      if negb lengthValid
      then rejectRecord truncateOk offset (offset + 1) logSize (csRecord errMalformedRecord) st
      else
      let end_ := offset + headerBytes + length in
      if logSize <? end_
      then rejectRecord truncateOk offset (searchStart format offset end_) logSize csUnexpectedEOF st
      else
      (result ← checkRecord truncateOk offset end_ logSize
                  (slice file (offset + headerBytes) end_) payloadChecksum;
       match result with
       | recordStopped => mret tt
       | recordAccepted record =>
           _ ← apply record;
           _ ← setLogSize end_;
           replayLoop fuel truncateOk logSize end_
       end) st
  end.

Definition replay (truncateOk : bool) : M unit := fun st =>
  replayLoop (S (length (cc_rowsFile st))) truncateOk (zlen (cc_rowsFile st)) (cc_logSize st) st.

(** ** Loading *)

Definition setDeclaration (emptyScalar : ScalarValue) (scalars : list ScalarColumn)
    (st : codeCollection) : codeCollection :=
  let header := cc_header st in
  MkCollection (MkHeader scalars (h_Dimension header) (h_Model header) (h_Generation header)
                  (h_FrameFormat header))
    (list_to_map (reverse (imap (fun position column => (col_Name column, position)) scalars)))
    (cc_dictionaries st ++
     replicate (length scalars - length (cc_dictionaries st)) (newDictionary emptyScalar))
    (cc_rows st) (cc_codes st) (cc_byID st) (cc_rowsFile st) (cc_dataFile st)
    (cc_dataSize st) (cc_logSize st) (cc_dead st).

(** [loadCollection] on the header and the two files of its generation. *)
Definition freshCollection (emptyScalar : ScalarValue) (header : collectionHeader)
    (rowsFile dataFile : bytes) : codeCollection :=
  setDeclaration emptyScalar (h_Scalars header)
    (MkCollection header ∅ [] [] [] ∅ rowsFile dataFile (zlen dataFile) 0 0).

Definition loadCollection (emptyScalar : ScalarValue) (truncateOk : bool) (header : collectionHeader)
    (rowsFile dataFile : bytes) : codeCollection * outcome csError unit :=
  replay truncateOk (freshCollection emptyScalar header rowsFile dataFile).

(** ** The abstract view and the index invariant *)

(** What the collection stores under an id. *)
Definition view (st : codeCollection) (id : bytes) : option rowRecord :=
  match cc_byID st !! id with
  | None => None
  | Some position =>
      match recordOf st position with
      | Ok record => Some record
      | _ => None
      end
  end.

(** The value of a column in a row, through the column's dictionary. *)
Definition cellAt (dictionaries : list dictionary) (cells : list nat) (column : nat)
  : option ScalarValue :=
  match cells !! column with
  | None | Some 0%nat => None
  | Some id => dict ← dictionaries !! column; dict_values dict !! id
  end.

(** The last cell a record holds for a column. *)
Fixpoint lastCell (cells : list storedCell) (column : nat) : option ScalarValue :=
  match cells with
  | [] => None
  | cell :: cells =>
      match lastCell cells column with
      | Some v => Some v
      | None => if (cell_column cell =? column)%nat then Some (cell_value cell) else None
      end
  end.

(** A record with its cells in column order, at most one per column. *)
Definition normCells (columns : nat) (f : nat -> option ScalarValue) : list storedCell :=
  omap (fun column => MkCell column <$> f column) (seq 0 columns).

Definition normRecord (columns : nat) (r : rowRecord) : rowRecord :=
  MkRecord (rec_kind r) (rec_id r) (rec_code r) (rec_relativePath r) (rec_splitPart r)
    (rec_splitRecorded r) (rec_dataOffset r) (rec_dataLength r)
    (normCells columns (lastCell (rec_cells r))).

Record dictInv (d : dictionary) : Prop := {
  di_nonempty : (0 < length (dict_values d))%nat;
  di_ids : forall v i, dict_ids d !! v = Some i -> (0 < i)%nat /\ dict_values d !! i = Some v;
}.

Definition rowInv (dictionaries : list dictionary) (columns : nat) (r : row) : Prop :=
  length (row_cells r) = columns /\
  forall column id, row_cells r !! column = Some id -> id <> 0%nat ->
    exists d, dictionaries !! column = Some d /\ (id < length (dict_values d))%nat.

Record indexInv (st : codeCollection) : Prop := {
  ii_codes : length (cc_codes st) = length (cc_rows st);
  ii_byID : forall id position,
    cc_byID st !! id = Some position <-> row_id <$> cc_rows st !! position = Some id;
  ii_dicts : length (cc_dictionaries st) = length (h_Scalars (cc_header st));
  ii_dictInv : Forall dictInv (cc_dictionaries st);
  ii_rows : Forall (rowInv (cc_dictionaries st) (length (h_Scalars (cc_header st)))) (cc_rows st);
}.

(** [ds'] extends [ds]: every id keeps its value. *)
Definition dictsExtend (ds ds' : list dictionary) : Prop :=
  Forall2 (fun d d' => exists more, dict_values d' = dict_values d ++ more) ds ds'.
