(* ===== verification/CsIndex.v ===== *)
(** * CsIndex: the in-memory index implements a map from ids to records

    The index invariant (the id map and the row array are inverse to each other,
    codes run parallel to rows, every cell id is in its dictionary) is kept by
    [apply], and [apply] refines insertion into and deletion from an abstract
    map from ids to records, whatever the swap-remove and the dictionaries do. *)

From S2P Require Import Prelude GoBinary CsRecord CsCollection.

Open Scope Z_scope.

(** ** Dictionaries *)

Lemma dictsExtend_refl ds : dictsExtend ds ds.
Proof. apply Forall2_same_length_lookup_2; [done|]. intros i d d' H H'. simplify_eq. exists []. by rewrite app_nil_r. Qed.

Lemma dictsExtend_trans ds1 ds2 ds3 :
  dictsExtend ds1 ds2 -> dictsExtend ds2 ds3 -> dictsExtend ds1 ds3.
Proof.
  intros H1. revert ds3. induction H1 as [|d1 d2 ds1 ds2 [m1 E1] _ IH]; intros ds3 H2;
    inversion_clear H2 as [|? d3 ? ? [m2 E2] H]; constructor; [|by apply IH].
  exists (m1 ++ m2). by rewrite E2, E1, app_assoc.
Qed.

Lemma dictsExtend_length ds ds' : dictsExtend ds ds' -> length ds' = length ds.
Proof. intros H. symmetry. by eapply Forall2_length. Qed.

Lemma dictsExtend_lookup ds ds' column d :
  dictsExtend ds ds' -> ds !! column = Some d ->
  exists d' more, ds' !! column = Some d' /\ dict_values d' = dict_values d ++ more.
Proof.
  intros H Hd. destruct (Forall2_lookup_l _ _ _ _ _ H Hd) as (d' & Hd' & more & E). eauto.
Qed.

Lemma dictsExtend_insert ds column d d' more :
  ds !! column = Some d -> dict_values d' = dict_values d ++ more ->
  dictsExtend ds (<[column := d']> ds).
Proof.
  intros Hd E. apply Forall2_same_length_lookup_2; [by rewrite length_insert|].
  intros i x y Hx Hy. destruct (decide (column = i)) as [->|].
  - rewrite list_lookup_insert_eq in Hy by (by eapply lookup_lt_Some). simplify_eq. eauto.
  - rewrite list_lookup_insert_ne in Hy by done. simplify_eq. exists []. by rewrite app_nil_r.
Qed.

(** Reading a valid row gives the same cells before and after an extension. *)
Lemma cellAt_extend ds ds' columns r column :
  dictsExtend ds ds' -> rowInv ds columns r ->
  cellAt ds' (row_cells r) column = cellAt ds (row_cells r) column.
Proof.
  intros He [_ Hr]. unfold cellAt.
  destruct (row_cells r !! column) as [[|id]|] eqn:E; try done.
  destruct (Hr column (S id) E) as (d & Hd & Hlt); [done|].
  destruct (dictsExtend_lookup _ _ _ _ He Hd) as (d' & more & Hd' & Hv).
  rewrite Hd, Hd'. cbn. rewrite Hv. by rewrite lookup_app_l.
Qed.

Lemma rowInv_extend ds ds' columns r :
  dictsExtend ds ds' -> rowInv ds columns r -> rowInv ds' columns r.
Proof.
  intros He [Hl Hr]. split; [done|]. intros column id Hc Hz.
  destruct (Hr column id Hc Hz) as (d & Hd & Hlt).
  destruct (dictsExtend_lookup _ _ _ _ He Hd) as (d' & more & Hd' & Hv).
  exists d'. split; [done|]. rewrite Hv, length_app. lia.
Qed.

Lemma intern_spec d v id d' :
  dictInv d -> intern d v = Ok (id, d') ->
  dictInv d' /\ id <> 0%nat /\ dict_values d' !! id = Some v /\
  exists more, dict_values d' = dict_values d ++ more.
Proof.
  intros [Hne Hids] H. unfold intern in H.
  destruct (dict_ids d !! v) as [i|] eqn:E.
  - simplify_eq. destruct (Hids v id E). split_and!; [done|lia|done|]. exists []. by rewrite app_nil_r.
  - destruct (_ <? _); [done|]. simplify_eq. cbn. split_and!.
    + split; cbn; [rewrite length_app; lia|]. intros w i Hw.
      rewrite lookup_insert in Hw. case_decide; simplify_eq.
      * split; [lia|]. by rewrite lookup_app_r, Nat.sub_diag by lia.
      * destruct (Hids w i Hw) as [? Hlk]. split; [lia|].
        rewrite lookup_app_l; [done|]. by eapply lookup_lt_Some.
    + lia.
    + by rewrite lookup_app_r, Nat.sub_diag by lia.
    + by eexists.
Qed.

(** ** Interning the cells of a record *)

(** The validity of a cell vector under construction. *)
Definition cellsInv (ds : list dictionary) (columns : nat) (cells : list nat) : Prop :=
  rowInv ds columns (MkRow [] [] 0 false 0 0 cells).

Lemma internCells_spec columns stored : forall ds cells ds' res,
  length ds = columns -> Forall dictInv ds -> cellsInv ds columns cells ->
  Forall (fun c => (cell_column c < columns)%nat) stored ->
  internCells ds cells stored = (ds', res) ->
  dictsExtend ds ds' /\ Forall dictInv ds' /\ res <> Panic /\
  forall cells', res = Ok cells' ->
    cellsInv ds' columns cells' /\
    forall column, cellAt ds' cells' column =
      match lastCell stored column with Some v => Some v | None => cellAt ds cells column end.
Proof.
  induction stored as [|c stored IH]; intros ds cells ds' res Hlen Hd Hc Hs H; cbn [internCells] in H.
  - simplify_eq. split_and!; [apply dictsExtend_refl|done|done|]. intros cells' ?. by simplify_eq.
  - apply Forall_cons in Hs as [Hcol Hs].
    destruct (lookup_lt_is_Some_2 ds (cell_column c)) as [d Hlk]; [lia|]. rewrite Hlk in H.
    assert (dictInv d) as Hdi by (rewrite Forall_lookup in Hd; eauto).
    destruct (intern d (cell_value c)) as [[id d1]|e|] eqn:Ei; cycle 1.
    { simplify_eq. split_and!; [apply dictsExtend_refl|done|done|done]. }
    { exfalso. unfold intern in Ei. repeat case_match; done. }
    destruct (intern_spec _ _ _ _ Hdi Ei) as (Hdi1 & Hid & Hv & more & Hmore).
    pose proof (dictsExtend_insert _ _ _ _ _ Hlk Hmore) as Hext.
    assert (length cells = columns) as Hcl by apply Hc.
    destruct (lookup_lt_is_Some_2 cells (cell_column c)) as [old Hold]; [lia|]. rewrite Hold in H.
    assert (<[cell_column c:=d1]> ds !! cell_column c = Some d1) as Hself.
    { apply list_lookup_insert_eq. lia. }
    assert (cellsInv (<[cell_column c:=d1]> ds) columns (<[cell_column c:=id]> cells)) as Hc1.
    { pose proof (rowInv_extend _ _ _ _ Hext Hc) as [Hl1 Hr1]. split; cbn; [by rewrite length_insert|].
      intros column i Hi Hz. destruct (decide (cell_column c = column)) as [<-|].
      - rewrite list_lookup_insert_eq in Hi by lia. simplify_eq. exists d1. split; [done|].
        by eapply lookup_lt_Some.
      - rewrite list_lookup_insert_ne in Hi by done. by apply Hr1. }
    apply IH in H; [|by rewrite length_insert|by apply Forall_insert|done|done].
    destruct H as (He & Hd' & Hp & Hok).
    split_and!; [by eapply dictsExtend_trans|done|done|].
    intros cells' Hres. destruct (Hok cells' Hres) as [Hci Hat]. split; [done|].
    intros column. rewrite Hat. cbn [lastCell]. destruct (lastCell stored column); [done|].
    destruct (Nat.eqb_spec (cell_column c) column) as [<-|].
    + unfold cellAt. rewrite list_lookup_insert_eq by lia. destruct id; [done|].
      rewrite Hself. cbn. done.
    + unfold cellAt at 1. rewrite list_lookup_insert_ne by done.
      rewrite list_lookup_insert_ne by done. done.
Qed.

(** ** Reading rows back *)

Lemma cellsOf_spec ds cells : forall base,
  (forall column id, cells !! column = Some id -> id <> 0%nat ->
    exists d, ds !! (base + column)%nat = Some d /\ (id < length (dict_values d))%nat) ->
  cellsOf ds base cells =
  Ok (omap (fun column => MkCell column <$>
        match cells !! (column - base)%nat with
        | None | Some 0%nat => None
        | Some id => dict ← ds !! column; dict_values dict !! id
        end) (seq base (length cells))).
Proof.
  induction cells as [|id cells IH]; intros base Hv; [done|]. cbn [cellsOf length seq omap list_omap].
  assert (cellsOf ds (S base) cells =
    Ok (omap (fun column => MkCell column <$>
        match (id :: cells) !! (column - base)%nat with
        | None | Some 0%nat => None
        | Some id => dict ← ds !! column; dict_values dict !! id
        end) (seq (S base) (length cells)))) as Hrest.
  { rewrite IH.
    - f_equal. apply list_omap_ext, Forall2_same_length_lookup_2; [done|].
      intros i x y Hx Hy. simplify_eq. apply lookup_seq in Hx as [-> Hi].
      replace (S base + i - base)%nat with (S i) by lia.
      replace (S base + i - S base)%nat with i by lia. done.
    - intros column i Hc Hz. destruct (Hv (S column) i Hc Hz) as (d & Hd & Hl).
      exists d. split; [|done]. by replace (S base + column)%nat with (base + S column)%nat by lia. }
  rewrite Nat.sub_diag. cbn [lookup list_lookup].
  destruct (Nat.eqb_spec id 0) as [->|Hz].
  - cbn. exact Hrest.
  - destruct (Hv 0%nat id eq_refl Hz) as (d & Hd & Hl). rewrite Nat.add_0_r in Hd. rewrite Hd.
    destruct (lookup_lt_is_Some_2 _ _ Hl) as [v Hlk]. rewrite Hlk, Hrest.
    destruct id; [done|]. cbn. rewrite ?Hd. cbn. by rewrite ?Hlk.
Qed.

Lemma cellsOf_norm ds columns r :
  rowInv ds columns r -> cellsOf ds 0 (row_cells r) = Ok (normCells columns (cellAt ds (row_cells r))).
Proof.
  intros [Hl Hr]. rewrite cellsOf_spec by exact Hr. unfold normCells. rewrite Hl. f_equal.
  apply list_omap_ext, Forall2_same_length_lookup_2; [done|].
  intros i x y Hx Hy. simplify_eq. unfold cellAt. by rewrite Nat.sub_0_r.
Qed.

Lemma normCells_ext columns f g :
  (forall column, f column = g column) -> normCells columns f = normCells columns g.
Proof.
  intros H. apply list_omap_ext, Forall2_same_length_lookup_2; [done|].
  intros i x y Hx Hy. simplify_eq. by rewrite H.
Qed.

(** The record a valid row stands for. *)
Definition recordOfRow (ds : list dictionary) (columns : nat) (r : row) (code : Code) : rowRecord :=
  MkRecord recordUpsert (row_id r) code (row_relativePath r) (row_splitPart r) (row_splitRecorded r)
    (row_dataOffset r) (row_dataLength r) (normCells columns (cellAt ds (row_cells r))).

Lemma recordOf_row st position r code :
  indexInv st -> cc_rows st !! position = Some r -> cc_codes st !! position = Some code ->
  recordOf st position =
  Ok (recordOfRow (cc_dictionaries st) (length (h_Scalars (cc_header st))) r code).
Proof.
  intros Hi Hr Hc. unfold recordOf. rewrite Hr, Hc.
  pose proof (ii_rows _ Hi) as Hrows. rewrite Forall_lookup in Hrows.
  rewrite (cellsOf_norm _ _ _ (Hrows _ _ Hr)). done.
Qed.

Lemma codes_lookup st position r :
  indexInv st -> cc_rows st !! position = Some r -> is_Some (cc_codes st !! position).
Proof.
  intros Hi Hr. apply lookup_lt_is_Some. rewrite (ii_codes _ Hi). by eapply lookup_lt_Some.
Qed.

(** The view of an id in terms of the row that the index points to. *)
Lemma view_row st id position r code :
  indexInv st -> cc_rows st !! position = Some r -> row_id r = id ->
  cc_codes st !! position = Some code ->
  view st id = Some (recordOfRow (cc_dictionaries st) (length (h_Scalars (cc_header st))) r code).
Proof.
  intros Hi Hr Hid Hc. unfold view.
  assert (cc_byID st !! id = Some position) as -> by (apply (ii_byID _ Hi); by rewrite Hr, <- Hid).
  by rewrite (recordOf_row _ _ _ _ Hi Hr Hc).
Qed.

Lemma view_none st id : indexInv st -> cc_byID st !! id = None -> view st id = None.
Proof. intros _ H. unfold view. by rewrite H. Qed.

(** Two states whose rows for an id agree have the same view of it. *)
Lemma view_same_row st st' id position position' r code :
  indexInv st -> indexInv st' -> cc_header st' = cc_header st ->
  dictsExtend (cc_dictionaries st) (cc_dictionaries st') ->
  cc_rows st !! position = Some r -> cc_codes st !! position = Some code -> row_id r = id ->
  cc_rows st' !! position' = Some r -> cc_codes st' !! position' = Some code ->
  view st' id = view st id.
Proof.
  intros Hi Hi' Hh He Hr Hc Hid Hr' Hc'.
  rewrite (view_row _ _ _ _ _ Hi Hr Hid Hc), (view_row _ _ _ _ _ Hi' Hr' Hid Hc').
  f_equal. unfold recordOfRow. f_equal. rewrite Hh. apply normCells_ext. intros column.
  eapply cellAt_extend; [done|]. pose proof (ii_rows _ Hi) as Hrows.
  rewrite Forall_lookup in Hrows. by eapply Hrows.
Qed.

(** An id without a row in either state has no view in either. *)
Lemma byID_cases st id :
  indexInv st -> (exists position r code, cc_byID st !! id = Some position /\
    cc_rows st !! position = Some r /\ cc_codes st !! position = Some code /\ row_id r = id)
  \/ cc_byID st !! id = None.
Proof.
  intros Hi. destruct (cc_byID st !! id) as [position|] eqn:E; [left|by right].
  pose proof (proj1 (ii_byID _ Hi id position) E) as H.
  destruct (cc_rows st !! position) as [r|] eqn:Hr; [|done]. cbn in H. simplify_eq.
  destruct (codes_lookup _ _ _ Hi Hr) as [code Hc]. eauto 10.
Qed.

(** Ids are unique among the rows. *)
Lemma row_id_inj st i j r r' :
  indexInv st -> cc_rows st !! i = Some r -> cc_rows st !! j = Some r' -> row_id r = row_id r' -> i = j.
Proof.
  intros Hi Hr Hr' E.
  assert (cc_byID st !! row_id r = Some i) by (apply (ii_byID _ Hi); by rewrite Hr).
  assert (cc_byID st !! row_id r = Some j) by (apply (ii_byID _ Hi); by rewrite Hr', E).
  congruence.
Qed.

(** ** Swap-remove *)

Lemma lookup_take_insert {A} (l : list A) p last x i :
  (p <= last)%nat ->
  take last (<[p := x]> l) !! i =
  if decide (i < last)%nat then (if decide (p = i) then (if decide (p < length l)%nat then Some x else None) else l !! i)
  else None.
Proof.
  intros Hp. case_decide; [|apply lookup_take_ge; lia].
  rewrite lookup_take_lt by done. destruct (decide (p = i)) as [->|].
  - case_decide; [by apply list_lookup_insert_eq|].
    apply lookup_ge_None. rewrite length_insert. lia.
  - by apply list_lookup_insert_ne.
Qed.

(** Facts every branch of [remove] shares. *)
Record removedFrom (id : bytes) (st st' : codeCollection) : Prop := {
  rf_inv : indexInv st';
  rf_header : cc_header st' = cc_header st;
  rf_dicts : cc_dictionaries st' = cc_dictionaries st;
  rf_files : (cc_rowsFile st', cc_dataFile st', cc_dataSize st', cc_logSize st')
           = (cc_rowsFile st, cc_dataFile st, cc_dataSize st, cc_logSize st);
  rf_view : forall j, view st' j = if decide (j = id) then None else view st j;
}.

(** The result of [remove] when the row sits at [p] and the last row at [last]. *)
Definition swapRemoved (id : bytes) (p last : nat) (lastRow : row) (lastCode : Code)
    (st : codeCollection) : codeCollection :=
  setIndex st (cc_dictionaries st) (take last (<[p := lastRow]> (cc_rows st)))
    (take last (<[p := lastCode]> (cc_codes st)))
    (delete id (<[row_id lastRow := p]> (cc_byID st))) (cc_dead st).

Section swap_remove.
Context (st : codeCollection) (id : bytes) (p last : nat) (r lastRow : row) (lastCode : Code).
Context (Hi : indexInv st) (Hr : cc_rows st !! p = Some r) (Hid : row_id r = id).
Context (Hlast : length (cc_rows st) = S last).
Context (Hlr : cc_rows st !! last = Some lastRow) (Hlc : cc_codes st !! last = Some lastCode).

Local Lemma p_le_last : (p <= last)%nat.
Proof using Hlast Hr. apply lookup_lt_Some in Hr. lia. Qed.

Local Lemma swapRemoved_rows i :
  cc_rows (swapRemoved id p last lastRow lastCode st) !! i =
  if decide (i < last)%nat then (if decide (p = i) then Some lastRow else cc_rows st !! i) else None.
Proof using Hlast Hr.
  cbn. rewrite lookup_take_insert by apply p_le_last.
  repeat case_decide; try done. apply lookup_lt_Some in Hr. lia.
Qed.

Local Lemma swapRemoved_codes i :
  cc_codes (swapRemoved id p last lastRow lastCode st) !! i =
  if decide (i < last)%nat then (if decide (p = i) then Some lastCode else cc_codes st !! i) else None.
Proof using Hi Hlast Hr.
  cbn. rewrite lookup_take_insert by apply p_le_last.
  repeat case_decide; try done. apply lookup_lt_Some in Hr. rewrite (ii_codes _ Hi) in *. lia.
Qed.

Local Lemma swapRemoved_byID j i :
  cc_byID (swapRemoved id p last lastRow lastCode st) !! j = Some i <->
  row_id <$> cc_rows (swapRemoved id p last lastRow lastCode st) !! i = Some j.
Proof using All.
  rewrite swapRemoved_rows. cbn. rewrite lookup_delete, lookup_insert. pose proof p_le_last.
  assert (forall k x, cc_rows st !! k = Some x -> row_id x = row_id lastRow -> k = last) as Hul.
  { intros k x Hk E. by apply (row_id_inj st k last x lastRow). }
  assert (forall k x, cc_rows st !! k = Some x -> row_id x = id -> k = p) as Hup.
  { intros k x Hk E. apply (row_id_inj st k p x r); congruence. }
  destruct (decide (id = j)) as [->|Hne].
  - split; [done|]. intros H1. repeat case_decide; simplify_eq/=.
    + assert (i = last) by (apply (Hul i r); congruence). lia.
    + destruct (cc_rows st !! i) as [x|] eqn:E; simplify_eq/=.
      assert (i = p) by (apply (Hup i x); congruence). done.
  - destruct (decide (row_id lastRow = j)) as [<-|Hnl].
    + split.
      * intros [= ->]. destruct (decide (i = last)) as [->|].
        { exfalso. simplify_eq. }
        rewrite decide_True by lia. by rewrite decide_True.
      * intros H1. repeat case_decide; simplify_eq/=; [done|].
        destruct (cc_rows st !! i) as [x|] eqn:E; simplify_eq/=.
        assert (i = last) by (apply (Hul i x); congruence). lia.
    + rewrite (ii_byID _ Hi). split; intros H1.
      * destruct (cc_rows st !! i) as [x|] eqn:E; simplify_eq/=.
        assert (i <> last) by (intros ->; simplify_eq). apply lookup_lt_Some in E as Hlt.
        rewrite decide_True by lia. rewrite decide_False; [done|]. intros ->. simplify_eq.
      * repeat case_decide; simplify_eq/=; done.
Qed.

Lemma swapRemoved_spec : removedFrom id st (swapRemoved id p last lastRow lastCode st).
Proof using All.
  set (st' := swapRemoved id p last lastRow lastCode st).
  assert (indexInv st') as Hi'.
  { destruct Hi as [Hc Hb Hd Hdi Hrows]. constructor; [|apply swapRemoved_byID|done|done|].
    - cbn. rewrite !length_take, !length_insert. lia.
    - cbn. apply Forall_take, Forall_insert; [done|]. rewrite Forall_lookup in Hrows. by eapply Hrows. }
  constructor; [done|done|done|done|]. intros j. case_decide as Hj.
  - subst j. apply view_none; [done|]. unfold st', swapRemoved. cbn. by rewrite lookup_delete_eq.
  - destruct (byID_cases st' j Hi') as [(i & x & c & Hb & Hx & Hc & <-)|Hn].
    + assert (exists i', cc_rows st !! i' = Some x /\ cc_codes st !! i' = Some c) as (i' & Hx' & Hc').
      { unfold st' in Hx, Hc. rewrite swapRemoved_rows in Hx. rewrite swapRemoved_codes in Hc.
        repeat case_decide; simplify_eq; eauto. }
      apply (view_same_row st st' (row_id x) i' i x c); try done. apply dictsExtend_refl.
    + rewrite view_none by done. destruct (byID_cases st j Hi) as [(i & x & c & Hb & Hx & Hc & <-)|Hn'];
        [|by rewrite view_none].
      exfalso. unfold st', swapRemoved in Hn. cbn in Hn.
      rewrite lookup_delete_ne, lookup_insert in Hn by congruence. case_decide; congruence.
Qed.

End swap_remove.

Lemma remove_spec st id :
  indexInv st -> exists st', remove id st = (st', Ok tt) /\ removedFrom id st st' /\ cc_dead st' = cc_dead st.
Proof.
  intros Hi. unfold remove.
  destruct (byID_cases st id Hi) as [(p & r & c & Hb & Hr & Hc & Hid)|Hn]; cycle 1.
  { rewrite Hn. exists st. split; [done|]. split; [|done].
    constructor; try done. intros j. case_decide; [subst; by apply view_none|done]. }
  rewrite Hb. apply lookup_lt_Some in Hr as Hlt. apply lookup_lt_Some in Hc as Hltc.
  unfold inRange. rewrite (proj2 (Nat.ltb_lt _ _) Hlt), (proj2 (Nat.ltb_lt _ _) Hltc). cbn [negb andb].
  destruct (length (cc_rows st)) as [|last] eqn:Hlen; [lia|]. cbn [Nat.sub]. rewrite Nat.sub_0_r.
  destruct (lookup_lt_is_Some_2 (cc_rows st) last) as [lastRow Hlr]; [lia|].
  destruct (codes_lookup _ _ _ Hi Hlr) as [lastCode Hlc]. rewrite Hlr, Hlc.
  pose proof (swapRemoved_spec st id p last r lastRow lastCode Hi Hr Hid Hlen Hlr Hlc) as Hs.
  destruct (Nat.eqb_spec p last) as [->|Hne].
  - eexists. split; [done|]. split; [|done].
    simplify_eq. unfold swapRemoved in Hs.
    rewrite !list_insert_id in Hs by done. rewrite (insert_id (cc_byID st)) in Hs by done. done.
  - eexists. split; [done|]. split; [|done]. exact Hs.
Qed.

(** ** Upserts *)

(** Growing the dictionaries leaves every view alone. *)
Lemma setDictionaries_spec st ds :
  indexInv st -> dictsExtend (cc_dictionaries st) ds -> Forall dictInv ds ->
  indexInv (setDictionaries st ds) /\ forall j, view (setDictionaries st ds) j = view st j.
Proof.
  intros Hi He Hd.
  assert (indexInv (setDictionaries st ds)) as Hi'.
  { destruct Hi as [Hc Hb Hl Hdi Hr]. constructor; cbn; try done.
    - by rewrite (dictsExtend_length _ _ He).
    - eapply Forall_impl; [exact Hr|]. intros x Hx. by eapply rowInv_extend. }
  split; [done|]. intros j.
  destruct (byID_cases st j Hi) as [(p & r & c & Hb & Hr & Hc & Hid)|Hn].
  - by apply (view_same_row st (setDictionaries st ds) j p p r c).
  - by rewrite !view_none.
Qed.

(** The effect of storing [next] with [code] under its id: at the position the id
    already has, or at the end. *)
Definition upserted (st : codeCollection) (next : row) (code : Code) (dead : Z) : codeCollection :=
  match cc_byID st !! row_id next with
  | Some p => setIndex st (cc_dictionaries st) (<[p := next]> (cc_rows st))
                (<[p := code]> (cc_codes st)) (cc_byID st) dead
  | None => setIndex st (cc_dictionaries st) (cc_rows st ++ [next]) (cc_codes st ++ [code])
              (<[row_id next := length (cc_rows st)]> (cc_byID st)) dead
  end.

Lemma upserted_rows st next code dead :
  indexInv st ->
  exists p, (p <= length (cc_rows st))%nat /\
    (forall i, cc_rows (upserted st next code dead) !! i = if decide (i = p) then Some next else cc_rows st !! i) /\
    (forall i, cc_codes (upserted st next code dead) !! i = if decide (i = p) then Some code else cc_codes st !! i) /\
    (forall j i, cc_byID (upserted st next code dead) !! j = Some i <->
       row_id <$> cc_rows (upserted st next code dead) !! i = Some j) /\
    length (cc_codes (upserted st next code dead)) = length (cc_rows (upserted st next code dead)).
Proof.
  intros Hi. unfold upserted.
  destruct (byID_cases st (row_id next) Hi) as [(p & r & c & Hb & Hr & Hc & Hid)|Hn].
  - rewrite Hb. apply lookup_lt_Some in Hr as Hlt. apply lookup_lt_Some in Hc as Hltc.
    assert (forall i, <[p := next]> (cc_rows st) !! i = if decide (i = p) then Some next else cc_rows st !! i) as Hrows.
    { intros i. case_decide; [subst; by apply list_lookup_insert_eq|by apply list_lookup_insert_ne]. }
    exists p. split; [lia|]. split_and!; cbn; [done| | |by rewrite !length_insert, (ii_codes _ Hi)].
    + intros i. case_decide; [subst; by apply list_lookup_insert_eq|by apply list_lookup_insert_ne].
    + intros j i. rewrite Hrows, (ii_byID _ Hi). case_decide; [|done]. subst i. rewrite Hr. cbn. by rewrite Hid.
  - rewrite Hn. exists (length (cc_rows st)). split; [done|].
    assert (forall {A} (l : list A) x i, (l ++ [x]) !! i = if decide (i = length l) then Some x else l !! i) as Happ.
    { intros A l x i. case_decide; [subst; by rewrite lookup_app_r, Nat.sub_diag by lia|].
      destruct (decide (i < length l)%nat); [by rewrite lookup_app_l|].
      rewrite lookup_app_r by lia. rewrite (lookup_ge_None_2 l) by lia.
      destruct (i - length l)%nat eqn:E; [lia|done]. }
    split_and!; cbn; [apply Happ| | |rewrite !length_app, (ii_codes _ Hi); done].
    + intros i. rewrite Happ. by rewrite (ii_codes _ Hi).
    + intros j i. rewrite Happ, lookup_insert.
      assert (forall k, cc_byID st !! k <> Some (length (cc_rows st))) as Hfresh.
      { intros k Hk. apply (ii_byID _ Hi) in Hk. by rewrite lookup_ge_None_2 in Hk by lia. }
      case_decide as E1; case_decide as E2; subst.
      * split; [done|]. by intros.
      * split; intros H; [congruence|]. exfalso.
        assert (cc_byID st !! row_id next = Some i) by (by apply (ii_byID _ Hi)). congruence.
      * split; intros H; [by apply Hfresh in H|]. cbn in H. congruence.
      * apply (ii_byID _ Hi).
Qed.

Lemma upserted_header st next code dead :
  cc_header (upserted st next code dead) = cc_header st /\
  cc_dictionaries (upserted st next code dead) = cc_dictionaries st /\
  (cc_rowsFile (upserted st next code dead), cc_dataFile (upserted st next code dead),
   cc_dataSize (upserted st next code dead), cc_logSize (upserted st next code dead))
  = (cc_rowsFile st, cc_dataFile st, cc_dataSize st, cc_logSize st).
Proof. unfold upserted. by destruct (cc_byID st !! _). Qed.

Lemma upserted_spec st next code dead :
  indexInv st -> rowInv (cc_dictionaries st) (length (h_Scalars (cc_header st))) next ->
  indexInv (upserted st next code dead) /\
  forall j, view (upserted st next code dead) j =
    if decide (j = row_id next)
    then Some (recordOfRow (cc_dictionaries st) (length (h_Scalars (cc_header st))) next code)
    else view st j.
Proof.
  intros Hi Hnext. destruct (upserted_rows st next code dead Hi) as (p & Hp & Hrows & Hcodes & Hby & Hlen).
  destruct (upserted_header st next code dead) as (Hh & Hds & _).
  set (st' := upserted st next code dead) in *.
  assert (indexInv st') as Hi'.
  { constructor; [done|done|..]; rewrite ?Hh, ?Hds; [apply (ii_dicts _ Hi)|apply (ii_dictInv _ Hi)|].
    apply Forall_lookup. intros i x Hx. rewrite Hrows in Hx. case_decide; simplify_eq; [done|].
    pose proof (ii_rows _ Hi) as Hr. rewrite Forall_lookup in Hr. by eapply Hr. }
  split; [done|]. intros j. case_decide as Hj.
  - subst j. rewrite (view_row st' (row_id next) p next code); [by rewrite Hh, Hds|done|..]; try done.
    + by rewrite Hrows, decide_True.
    + by rewrite Hcodes, decide_True.
  - destruct (byID_cases st' j Hi') as [(i & x & c & Hb & Hx & Hc & <-)|Hn].
    + assert (i <> p) by (intros ->; rewrite Hrows, decide_True in Hx by done; by simplify_eq).
      apply (view_same_row st st' (row_id x) i i x c); try done.
      * rewrite Hds. apply dictsExtend_refl.
      * by rewrite Hrows, decide_False in Hx.
      * by rewrite Hcodes, decide_False in Hc.
    + rewrite view_none by done. destruct (byID_cases st j Hi) as [(i & x & c & Hb & Hx & Hc & <-)|Hn'];
        [|by rewrite view_none].
      exfalso. assert (cc_byID st' !! row_id x = Some i); [|congruence].
      apply Hby. rewrite Hrows. rewrite decide_False; [by rewrite Hx|]. intros ->.
      destruct (decide (p < length (cc_rows st))%nat) as [Hlt|];
        [|rewrite lookup_ge_None_2 in Hx by lia; done].
      unfold st', upserted in Hrows. clear - Hrows Hj Hx Hi.
      destruct (cc_byID st !! row_id next) as [q|] eqn:Hq; cbn in Hrows.
      * specialize (Hrows p). rewrite decide_True in Hrows by done.
        destruct (decide (q = p)) as [->|].
        { apply (ii_byID _ Hi) in Hq. rewrite Hx in Hq. cbn in Hq. congruence. }
        rewrite list_lookup_insert_ne in Hrows by done. congruence.
      * specialize (Hrows p). rewrite decide_True in Hrows by done.
        rewrite lookup_app_l in Hrows by (by eapply lookup_lt_Some). congruence.
Qed.

(** ** [apply] *)

(** The abstract operation a record stands for: a deletion or an insertion. *)
Definition applyView (columns : nat) (r : rowRecord) (f : bytes -> option rowRecord)
  : bytes -> option rowRecord :=
  fun j => if decide (j = rec_id r)
           then (if rec_kind r =? recordDelete then None else Some (normRecord columns r))
           else f j.

(** What [apply] leaves alone: the header and the files. *)
Definition sameFiles (st st' : codeCollection) : Prop :=
  cc_header st' = cc_header st /\
  (cc_rowsFile st', cc_dataFile st', cc_dataSize st', cc_logSize st')
  = (cc_rowsFile st, cc_dataFile st, cc_dataSize st, cc_logSize st).

Lemma cellsInv_absent ds columns : cellsInv ds columns (replicate columns 0%nat).
Proof.
  split; cbn; [apply length_replicate|]. intros c id H Hz. apply lookup_replicate in H as [-> _]. done.
Qed.

Lemma cellAt_absent ds columns column : cellAt ds (replicate columns 0%nat) column = None.
Proof.
  unfold cellAt. destruct (replicate columns 0%nat !! column) eqn:E; [|done].
  apply lookup_replicate in E as [-> _]. done.
Qed.

Lemma apply_delete_spec st r :
  indexInv st -> rec_kind r = recordDelete ->
  exists st', apply r st = (st', Ok tt) /\ indexInv st' /\ sameFiles st st' /\
    (forall j, view st' j = applyView (length (h_Scalars (cc_header st))) r (view st) j).
Proof.
  intros Hi Hk. unfold apply. rewrite Hk. change (recordDelete =? recordDelete) with true. cbv iota.
  destruct (remove_spec st (rec_id r) Hi) as (st1 & Hrm & Hrf & _). rewrite Hrm.
  exists (incDead st1). split; [done|]. destruct Hrf as [Hi1 Hh Hds Hf Hv].
  assert (forall j, view (incDead st1) j = view st1 j) as Hvd by done.
  split_and!; [by destruct Hi1|split; [done|exact Hf]|].
  intros j. rewrite Hvd, Hv. unfold applyView. by rewrite Hk.
Qed.

Lemma cells_in_range columns r :
  recordWf columns r -> Forall (fun c => (cell_column c < length columns)%nat) (rec_cells r).
Proof.
  intros [_ _ [->|Hk]]; [constructor|].
  destruct Hk as (_ & _ & _ & _ & _ & _ & _ & _ & Hc). eapply Forall_impl; [exact Hc|].
  intros c (col & Hlk & _). by eapply lookup_lt_Some.
Qed.

Lemma apply_spec st r :
  indexInv st -> recordWf (h_Scalars (cc_header st)) r ->
  exists st' res, apply r st = (st', res) /\ indexInv st' /\ sameFiles st st' /\
    ((res = Ok tt /\ forall j, view st' j = applyView (length (h_Scalars (cc_header st))) r (view st) j)
     \/ (res = Fail csTooManyValues /\ forall j, view st' j = view st j)).
Proof.
  intros Hi Hwf. destruct (decide (rec_kind r = recordDelete)) as [Hk|Hk].
  { destruct (apply_delete_spec st r Hi Hk) as (st' & H & ? & ? & ?). exists st', (Ok tt). eauto 10. }
  assert (rec_kind r = recordUpsert) as Hup.
  { destruct (wf_kind _ _ Hwf) as [E|[E _]]; [|done]. rewrite E in Hk. done. }
  unfold apply. rewrite (proj2 (Z.eqb_neq _ _) Hk).
  set (columns := length (h_Scalars (cc_header st))) in *.
  destruct (internCells _ _ _) as [ds res] eqn:Eint.
  pose proof (internCells_spec columns _ _ _ _ _ (ii_dicts _ Hi) (ii_dictInv _ Hi)
    (cellsInv_absent _ _) (cells_in_range _ _ Hwf) Eint) as (He & Hdi & Hnp & Hok).
  destruct (setDictionaries_spec st ds Hi He Hdi) as [Hi1 Hv1].
  destruct res as [cells|e|]; [|exists (setDictionaries st ds), (Fail e)|done].
  - destruct (Hok cells eq_refl) as [Hci Hat].
    pose proof (upserted_spec (setDictionaries st ds) (rowOf r cells) (rec_code r)) as Hu.
    assert (rowInv ds columns (rowOf r cells)) as Hri by exact Hci.
    destruct (byID_cases st (rec_id r) Hi) as [(p & x & c & Hb & Hx & Hc & Hid)|Hn].
    + rewrite Hb. apply lookup_lt_Some in Hx as Hlt. apply lookup_lt_Some in Hc as Hltc.
      unfold inRange. rewrite (proj2 (Nat.ltb_lt _ _) Hlt), (proj2 (Nat.ltb_lt _ _) Hltc). cbn [negb andb].
      specialize (Hu (cc_dead st + 1) Hi1 Hri). unfold upserted in Hu. cbn in Hu. rewrite Hb in Hu.
      destruct Hu as [Hi2 Hv2]. eexists _, (Ok tt). split; [done|]. split; [done|]. split; [done|]. left.
      split; [done|]. intros j. etransitivity; [apply Hv2|]. unfold applyView. rewrite Hup.
      case_decide; [|apply Hv1]. unfold normRecord, recordOfRow. cbn. rewrite Hup. do 2 f_equal.
      apply normCells_ext. intros col. rewrite Hat, cellAt_absent. by destruct (lastCell _ _).
    + rewrite Hn. specialize (Hu (cc_dead st) Hi1 Hri). unfold upserted in Hu. cbn in Hu. rewrite Hn in Hu.
      destruct Hu as [Hi2 Hv2]. eexists _, (Ok tt). split; [done|]. split; [done|]. split; [done|]. left.
      split; [done|]. intros j. etransitivity; [apply Hv2|]. unfold applyView. rewrite Hup.
      case_decide; [|apply Hv1]. unfold normRecord, recordOfRow. cbn. rewrite Hup. do 2 f_equal.
      apply normCells_ext. intros col. rewrite Hat, cellAt_absent. by destruct (lastCell _ _).
  - split; [done|]. split; [done|]. split; [done|]. right. split; [|done]. f_equal.
    clear - Eint. revert Eint. generalize (replicate columns 0%nat) (cc_dictionaries st) ds.
    induction (rec_cells r) as [|c cs IH]; intros cells ds0 ds1 E; cbn [internCells] in E; [done|].
    repeat case_match; simplify_eq; try (by eapply IH).
    unfold intern in *. repeat case_match; by simplify_eq.
Qed.

(** ** Sequences of records *)

(** The abstract effect of a sequence of records. *)
Definition replayView (columns : nat) (records : list rowRecord) (f : bytes -> option rowRecord)
  : bytes -> option rowRecord :=
  foldl (fun f r => applyView columns r f) f records.

(** No dictionary holds more than [n] values. *)
Definition dictsBound (n : nat) (ds : list dictionary) : Prop :=
  Forall (fun d => (length (dict_values d) <= n)%nat) ds.

Definition cellTotal (records : list rowRecord) : nat :=
  sum_list_with (fun r => length (rec_cells r)) records.

Lemma applyView_ext columns r f g :
  (forall j, f j = g j) -> forall j, applyView columns r f j = applyView columns r g j.
Proof. intros H j. unfold applyView. case_decide; [done|]. apply H. Qed.

Lemma replayView_ext columns records : forall f g,
  (forall j, f j = g j) -> forall j, replayView columns records f j = replayView columns records g j.
Proof.
  induction records as [|r records IH]; intros f g H j; [apply H|].
  cbn. apply IH. intros. by apply applyView_ext.
Qed.

Lemma internCells_bound n stored : forall ds cells ds' res,
  Z.of_nat (n + length stored) < 2 ^ 32 -> dictsBound n ds -> internCells ds cells stored = (ds', res) ->
  dictsBound (n + length stored) ds' /\ forall e, res <> Fail e.
Proof.
  revert n. induction stored as [|c stored IH]; intros n ds cells ds' res Hn Hb H; cbn [internCells] in H.
  { simplify_eq. rewrite Nat.add_0_r. done. }
  assert (forall ds, dictsBound n ds -> dictsBound (n + length (c :: stored)) ds) as Hweak.
  { intros ds0 H0. eapply Forall_impl; [exact H0|]. intros d Hd. cbn in *. lia. }
  destruct (ds !! cell_column c) as [d|] eqn:Hd; [|simplify_eq; split; [by apply Hweak|done]].
  assert (length (dict_values d) <= n)%nat as Hdl.
  { unfold dictsBound in Hb. rewrite Forall_lookup in Hb. by eapply Hb. }
  destruct (intern d (cell_value c)) as [[id d1]|e|] eqn:Ei.
  - assert (length (dict_values d1) <= S n)%nat as Hd1.
    { unfold intern in Ei. repeat case_match; simplify_eq/=; rewrite ?length_app; cbn; lia. }
    assert (dictsBound (S n) (<[cell_column c:=d1]> ds)) as Hb1.
    { apply Forall_insert; [|done]. eapply Forall_impl; [exact Hb|]. intros; cbn in *; lia. }
    destruct (cells !! cell_column c).
    + cbn [length] in *. rewrite <- Nat.add_succ_comm in *. by eapply IH in H.
    + simplify_eq. split; [|done]. eapply Forall_impl; [exact Hb1|]. intros; cbn in *; lia.
  - unfold intern in Ei. repeat case_match; simplify_eq. reflect_bools. cbn [length] in *. lia.
  - simplify_eq. split; [by apply Hweak|done].
Qed.

Lemma apply_bound n r st st' res :
  Z.of_nat (n + length (rec_cells r)) < 2 ^ 32 -> dictsBound n (cc_dictionaries st) ->
  apply r st = (st', res) ->
  dictsBound (n + length (rec_cells r)) (cc_dictionaries st') /\ forall e, res <> Fail e.
Proof.
  intros Hn Hb H. unfold apply in H.
  assert (dictsBound (n + length (rec_cells r)) (cc_dictionaries st)) as Hweak.
  { eapply Forall_impl; [exact Hb|]. intros; cbn in *; lia. }
  destruct (rec_kind r =? recordDelete).
  - unfold remove in H. repeat (case_match; simplify_eq/=; try done).
  - destruct (internCells _ _ _) as [ds ires] eqn:E.
    destruct (internCells_bound _ _ _ _ _ _ Hn Hb E) as [Hb' Hf].
    repeat (case_match; simplify_eq/=; try done). by destruct (Hf e).
Qed.

(** Applying well-formed records to a valid index never panics, and with fewer than
    2^32 cells in all it succeeds, keeps the invariant and has the abstract effect
    of the sequence. *)
Lemma applyAll_spec records : forall st n,
  indexInv st -> Forall (recordWf (h_Scalars (cc_header st))) records ->
  dictsBound n (cc_dictionaries st) -> Z.of_nat (n + cellTotal records) < 2 ^ 32 ->
  exists st', applyAll records st = (st', Ok tt) /\ indexInv st' /\ sameFiles st st' /\
    dictsBound (n + cellTotal records) (cc_dictionaries st') /\
    forall j, view st' j = replayView (length (h_Scalars (cc_header st))) records (view st) j.
Proof.
  induction records as [|r records IH]; intros st n Hi Hwf Hb Hn.
  - exists st. cbn. rewrite Nat.add_0_r. done.
  - apply Forall_cons in Hwf as [Hr Hwf]. cbn [cellTotal sum_list_with foldr] in Hn.
    unfold cellTotal in Hn. cbn in Hn.
    destruct (apply_spec st r Hi Hr) as (st1 & res & Ha & Hi1 & Hf1 & Hcase).
    destruct (apply_bound n r st st1 res) as [Hb1 Hnf]; [lia|done|done|].
    destruct Hcase as [[-> Hv]|[-> _]]; [|by destruct (Hnf csTooManyValues)].
    destruct Hf1 as [Hh1 Hf1].
    destruct (IH st1 (n + length (rec_cells r))%nat Hi1) as (st2 & Ha2 & Hi2 & Hf2 & Hb2 & Hv2);
      [by rewrite Hh1|done|unfold cellTotal; lia|].
    exists st2. cbn [applyAll]. unfold mbind, M_bind. rewrite Ha, Ha2. split; [done|].
    destruct Hf2 as [Hh2 Hf2]. split; [done|]. split; [split; congruence|].
    split; [unfold cellTotal in *; cbn; by rewrite Nat.add_assoc|].
    intros j. rewrite Hv2, Hh1. cbn. by apply replayView_ext.
Qed.

(** ** The empty collection *)

Lemma freshCollection_spec emptyScalar header rowsFile dataFile :
  let st := freshCollection emptyScalar header rowsFile dataFile in
  indexInv st /\ dictsBound 1 (cc_dictionaries st) /\ cc_header st = header /\
  (forall j, view st j = None) /\ cc_logSize st = 0 /\ cc_rowsFile st = rowsFile /\
  cc_dataFile st = dataFile /\ cc_dataSize st = zlen dataFile.
Proof.
  cbn. destruct header as [scalars dim model gen fmt]. cbn.
  replace (length scalars - 0)%nat with (length scalars) by lia.
  assert (Forall dictInv (replicate (length scalars) (newDictionary emptyScalar))) as Hd.
  { apply Forall_replicate. split; cbn; [lia|]. intros v i H. by rewrite lookup_empty in H. }
  split_and!; try done.
  - constructor; cbn; try done; replace (length scalars - 0)%nat with (length scalars) by lia; [|done].
    by rewrite length_replicate.
  - apply Forall_replicate. cbn. lia.
Qed.

(** C4. The index is a faithful map.  Starting from an empty collection, applying
    any sequence of well-formed records (fewer than 2^32 cells in all) never fails
    or panics, keeps the index invariant, and afterwards every id reads back
    exactly the record last written under it, or nothing after a delete or when
    it was never written, through any number of swap-removes, replacements and
    shared dictionary entries. *)
Theorem applyAll_refines_map emptyScalar header rowsFile dataFile records :
  Forall (recordWf (h_Scalars header)) records -> Z.of_nat (1 + cellTotal records) < 2 ^ 32 ->
  exists st', applyAll records (freshCollection emptyScalar header rowsFile dataFile) = (st', Ok tt) /\
    indexInv st' /\
    forall id, view st' id = replayView (length (h_Scalars header)) records (fun _ => None) id.
Proof.
  intros Hwf Hn.
  destruct (freshCollection_spec emptyScalar header rowsFile dataFile) as (Hi & Hb & Hh & Hv & _).
  set (st := freshCollection emptyScalar header rowsFile dataFile) in *.
  destruct (applyAll_spec records st 1 Hi) as (st' & Ha & Hi' & _ & _ & Hv'); [by rewrite Hh|done|done|].
  exists st'. split; [done|]. split; [done|]. intros id. rewrite Hv', Hh. by apply replayView_ext.
Qed.

Lemma applyAll_refines_map_witness :
  exists st', applyAll [sampleRecord; emptyRecord recordDelete (rec_id sampleRecord); sampleRecord]
      (freshCollection (MkScalar ScalarTypeString true [] false 0)
         (MkHeader sampleColumns 256 [] 0 1) [] []) = (st', Ok tt) /\
    indexInv st' /\
    forall id, view st' id = replayView 3 [sampleRecord; emptyRecord recordDelete (rec_id sampleRecord); sampleRecord]
      (fun _ => None) id.
Proof.
  apply (applyAll_refines_map _ (MkHeader sampleColumns 256 [] 0 1) [] []); [|vm_compute; reflexivity].
  apply Forall_cons; split; [apply sampleRecord_wf|].
  apply Forall_cons; split; [split; [vm_compute; discriminate|vm_compute; discriminate|by left]|].
  apply Forall_cons; split; [apply sampleRecord_wf|apply Forall_nil_2].
Defined.
