(* ===== verification/CsLog.v ===== *)
(** * CsLog: replay of the row log, torn tails and damaged logs

    Replaying a log of well-formed frames rebuilds the index that applying the
    records builds; replaying any prefix of such a log recovers a prefix of the
    records and truncates the rest; a log is truncated only when no complete
    valid frame follows the damage, and the windowed scan that decides this is
    equivalent to testing every offset. *)

From S2P Require Import Prelude GoBinary CsRecord CsCollection CsIndex.

Open Scope Z_scope.

(** ** Frames *)

#[local] Opaque ChecksumIEEE leBytes.

(** The bytes [appendFrame] appends: a header and the payload. *)
Definition frameHeader (format : Z) (payload : bytes) : bytes :=
  leBytes 4 (zlen payload)
  ++ (if format =? frameFormatLengthCRC then leBytes 4 (ChecksumIEEE (leBytes 4 (zlen payload))) else [])
  ++ leBytes 4 (ChecksumIEEE payload).

Definition frameBytes (format : Z) (payload : bytes) : bytes := frameHeader format payload ++ payload.

(** The payload of a record, and its frame. *)
Definition recordPayload (columns : list ScalarColumn) (r : rowRecord) : bytes :=
  match encodeRecord r columns with
  | Ok payload => payload
  | _ => []
  end.

Definition recordFrame (columns : list ScalarColumn) (format : Z) (r : rowRecord) : bytes :=
  frameBytes format (recordPayload columns r).

Definition logOf (columns : list ScalarColumn) (format : Z) (records : list rowRecord) : bytes :=
  concat (map (recordFrame columns format) records).

(** A record that a log can hold: well formed, framed within 32 bits, and with its
    data inside a data file of [dataSize] bytes. *)
Record loggable (columns : list ScalarColumn) (dataSize : Z) (r : rowRecord) : Prop := {
  lg_wf : recordWf columns r;
  lg_frame : zlen (recordPayload columns r) <= 2 ^ 32 - 1;
  lg_data : rec_kind r = recordUpsert -> i64 (rec_dataOffset r + rec_dataLength r) <= dataSize;
}.

(** A complete frame with a non-empty payload and matching checksums at [p]. *)
Definition validFrameAt (format : Z) (file : bytes) (p : Z) : bool :=
  let payloadStart := p + frameHeaderSize format in
  (payloadStart <=? zlen file) &&
  let '(length, payloadChecksum, lengthValid) := parseFrameHeader format (slice file p payloadStart) in
  lengthValid && negb (length =? 0) && (payloadStart + length <=? zlen file) &&
  payloadMatches file payloadStart length payloadChecksum.

Lemma appendFrame_frameBytes buffer payload format :
  zlen payload <= 2 ^ 32 - 1 ->
  appendFrame buffer payload format = Ok (buffer ++ frameBytes format payload).
Proof.
  intros H. unfold appendFrame, frameBytes, frameHeader. rewrite (proj2 (Z.ltb_ge _ _) H).
  destruct (format =? frameFormatLengthCRC); by rewrite <- !app_assoc.
Qed.

Lemma frameHeaderSize_cases format :
  (format = frameFormatLengthCRC /\ frameHeaderSize format = 12) \/
  (format <> frameFormatLengthCRC /\ frameHeaderSize format = 8).
Proof. unfold frameHeaderSize. destruct (Z.eqb_spec format frameFormatLengthCRC); auto. Qed.

Lemma frameHeaderSize_pos format : 8 <= frameHeaderSize format <= 12.
Proof. destruct (frameHeaderSize_cases format) as [[_ ->]|[_ ->]]; lia. Qed.

Lemma zlen_frameHeader format payload :
  zlen (frameHeader format payload) = frameHeaderSize format.
Proof.
  unfold frameHeader, frameHeaderSize. destruct (format =? frameFormatLengthCRC);
    autorewrite with golen; lia.
Qed.

Lemma zlen_frameBytes format payload :
  zlen (frameBytes format payload) = frameHeaderSize format + zlen payload.
Proof. unfold frameBytes. by rewrite zlen_app, zlen_frameHeader. Qed.

(** The trailing field of a header. *)
Lemma slice_tail {A} (p m : list A) a b :
  a = zlen p -> b = zlen p + zlen m -> slice (p ++ m) a b = m.
Proof. intros -> ->. rewrite <- (app_nil_r m) at 1. by apply slice_mid. Qed.

(** [parseFrameHeader] reads back what [appendFrame] wrote. *)
Lemma parseFrameHeader_frameHeader format payload :
  zlen payload <= 2 ^ 32 - 1 ->
  parseFrameHeader format (frameHeader format payload) = (zlen payload, ChecksumIEEE payload, true).
Proof.
  intros Hlen. pose proof (zlen_nonneg payload).
  pose proof (ChecksumIEEE_range payload). pose proof (ChecksumIEEE_range (leBytes 4 (zlen payload))).
  assert (forall x, 0 <= x < 2 ^ 32 -> leValue (leBytes 4 x) = x) as Hle
    by (intros; by apply leValue_leBytes).
  unfold parseFrameHeader. rewrite zlen_frameHeader. unfold frameHeader, frameHeaderSize, frameFieldBytes.
  rewrite slice_app_head by (autorewrite with golen; lia).
  destruct (format =? frameFormatLengthCRC); cbn [negb].
  - rewrite (slice_mid (leBytes 4 (zlen payload)) _ _ 4) by (autorewrite with golen; lia).
    rewrite app_assoc, slice_tail by (autorewrite with golen; lia).
    rewrite !Hle by lia. by rewrite Z.eqb_refl.
  - cbn [app]. rewrite slice_tail by (autorewrite with golen; lia). by rewrite !Hle by lia.
Qed.

(** ** One step of the replay loop *)

Lemma encodeRecord_payload columns r :
  recordWf columns r ->
  encodeRecord r columns = Ok (recordPayload columns r) /\
  recordPayload columns r <> [] /\
  decodeRecord (recordPayload columns r) columns = Ok r.
Proof.
  intros Hwf. destruct (encodeRecord_reads columns r Hwf) as (enc & He & Hne & Hr).
  unfold recordPayload. rewrite He. split_and!; [done|done|]. by apply reads_decodeRecord.
Qed.

(** The frame at the replay offset is parsed, checked and decoded to its record. *)
Lemma replayLoop_step fuel truncateOk st r pre rest :
  cc_rowsFile st = pre ++ recordFrame (h_Scalars (cc_header st)) (h_FrameFormat (cc_header st)) r ++ rest ->
  loggable (h_Scalars (cc_header st)) (cc_dataSize st) r ->
  let next := zlen pre + zlen (recordFrame (h_Scalars (cc_header st)) (h_FrameFormat (cc_header st)) r) in
  replayLoop (S fuel) truncateOk (zlen (cc_rowsFile st)) (zlen pre) st =
  (_ ← apply r; _ ← setLogSize next; replayLoop fuel truncateOk (zlen (cc_rowsFile st)) next) st.
Proof.
  intros Hfile [Hwf Hfr Hdata] next. cbn [replayLoop].
  set (columns := h_Scalars (cc_header st)) in *. set (format := h_FrameFormat (cc_header st)) in *.
  destruct (encodeRecord_payload columns r Hwf) as (_ & Hne & Hdec).
  set (payload := recordPayload columns r) in *.
  assert (0 < zlen payload) as Hpos.
  { destruct payload; [done|]. rewrite zlen_cons. pose proof (zlen_nonneg payload). lia. }
  pose proof (frameHeaderSize_pos format). pose proof (zlen_nonneg rest).
  assert (zlen (cc_rowsFile st) = zlen pre + (frameHeaderSize format + zlen payload) + zlen rest) as Hsize.
  { rewrite Hfile. unfold recordFrame. fold payload. rewrite !zlen_app, zlen_frameBytes. lia. }
  unfold next, recordFrame. fold payload. rewrite zlen_frameBytes.
  destruct (Z.leb_spec (zlen (cc_rowsFile st)) (zlen pre)); [lia|].
  destruct (Z.ltb_spec (zlen (cc_rowsFile st)) (zlen pre + frameHeaderSize format)); [lia|].
  rewrite Hfile at 1. unfold recordFrame at 1. fold payload. unfold frameBytes. rewrite <- !app_assoc.
  rewrite slice_mid by (rewrite ?zlen_frameHeader; lia).
  rewrite parseFrameHeader_frameHeader by done. cbn [negb].
  replace (zlen pre + frameHeaderSize format + zlen payload)
    with (zlen pre + (frameHeaderSize format + zlen payload)) by lia.
  destruct (Z.ltb_spec (zlen (cc_rowsFile st)) (zlen pre + (frameHeaderSize format + zlen payload))); [lia|].
  replace (slice (cc_rowsFile st) (zlen pre + frameHeaderSize format) _) with payload.
  2:{ rewrite Hfile. unfold recordFrame. fold payload. unfold frameBytes.
      rewrite <- (app_assoc (frameHeader format payload)), app_assoc. symmetry.
      apply slice_mid; rewrite zlen_app, zlen_frameHeader; lia. }
  unfold checkRecord, mbind, M_bind. fold format columns.
  destruct (Z.eqb_spec (zlen payload) 0); [lia|]. rewrite Z.eqb_refl. cbn [negb orb].
  unfold liftRec. rewrite Hdec. cbn.
  destruct ((rec_kind r =? recordUpsert) && _) eqn:Ec; [|done].
  reflect_bools. exfalso. specialize (Hdata ltac:(done)). lia.
Qed.

(** ** The index does not depend on the files *)

Lemma apply_setFiles r st a b c d :
  apply r (setFiles st a b c d) = (setFiles (apply r st).1 a b c d, (apply r st).2).
Proof.
  unfold apply, remove, inRange. cbn. destruct (rec_kind r =? recordDelete).
  - repeat (case_match; simplify_eq/=; try done).
  - repeat (case_match; simplify_eq/=; try done).
Qed.

Lemma applyAll_setFiles records : forall st a b c d,
  applyAll records (setFiles st a b c d)
  = (setFiles (applyAll records st).1 a b c d, (applyAll records st).2).
Proof.
  induction records as [|r records IH]; intros; cbn [applyAll]; [done|].
  unfold mbind, M_bind. rewrite apply_setFiles. destruct (apply r st) as [st1 [[]|e|]]; cbn; [|done|done].
  apply IH.
Qed.

(** [apply] keeps the files and the header. *)
Lemma apply_sameFiles r st : sameFiles st (apply r st).1.
Proof.
  unfold sameFiles, apply, remove. destruct (rec_kind r =? recordDelete);
    repeat (case_match; simplify_eq/=; try done).
Qed.

Lemma applyAll_sameFiles records : forall st, sameFiles st (applyAll records st).1.
Proof.
  induction records as [|r records IH]; intros; cbn [applyAll]; [done|].
  unfold mbind, M_bind. pose proof (apply_sameFiles r st) as Ha.
  destruct (apply r st) as [st1 [[]|e|]]; cbn in *; [|done|done].
  destruct Ha as [Hh Hf], (IH st1) as [Hh' Hf']. split; congruence.
Qed.

Lemma setFiles_twice st a b c d a' b' c' d' :
  setFiles (setFiles st a b c d) a' b' c' d' = setFiles st a' b' c' d'.
Proof. done. Qed.

Lemma setFiles_self st : setFiles st (cc_rowsFile st) (cc_dataFile st) (cc_dataSize st) (cc_logSize st) = st.
Proof. by destruct st. Qed.

(** ** Replaying complete frames *)

Lemma logOf_cons columns format r records :
  logOf columns format (r :: records) = recordFrame columns format r ++ logOf columns format records.
Proof. done. Qed.

Lemma logOf_app columns format rs rs' :
  logOf columns format (rs ++ rs') = logOf columns format rs ++ logOf columns format rs'.
Proof. unfold logOf. by rewrite map_app, concat_app. Qed.

(** The loop consumes a run of frames and arrives at the bytes after them with the
    records applied. *)
Lemma replayLoop_frames truncateOk records : forall fuel st pre tail st1,
  cc_rowsFile st = pre ++ logOf (h_Scalars (cc_header st)) (h_FrameFormat (cc_header st)) records ++ tail ->
  cc_logSize st = zlen pre ->
  Forall (loggable (h_Scalars (cc_header st)) (cc_dataSize st)) records ->
  applyAll records st = (st1, Ok tt) ->
  let logEnd := zlen pre + zlen (logOf (h_Scalars (cc_header st)) (h_FrameFormat (cc_header st)) records) in
  replayLoop (length records + fuel) truncateOk (zlen (cc_rowsFile st)) (zlen pre) st =
  replayLoop fuel truncateOk (zlen (cc_rowsFile st)) logEnd
    (setFiles st1 (cc_rowsFile st) (cc_dataFile st) (cc_dataSize st) logEnd).
Proof.
  induction records as [|r records IH]; intros fuel st pre tail st1 Hfile Hlog Hall Happ logEnd.
  - injection Happ as <-. assert (logEnd = cc_logSize st) as ->.
    { unfold logEnd. rewrite Hlog. unfold logOf, zlen. cbn. lia. }
    by rewrite setFiles_self, Hlog.
  - apply Forall_cons in Hall as [Hr Hall]. rewrite logOf_cons, <- app_assoc in Hfile.
    cbn [Nat.add length]. rewrite (replayLoop_step _ _ _ _ _ _ Hfile Hr).
    cbn [applyAll] in Happ. unfold mbind, M_bind in *.
    pose proof (apply_sameFiles r st) as [Hh Hf].
    destruct (apply r st) as [st2 [[]|e|]] eqn:E2; cbn in Hh, Hf; [|done|done].
    injection Hf as Hf1 Hf2 Hf3 Hf4.
    unfold setLogSize. set (next := zlen pre + zlen (recordFrame _ _ r)).
    set (st3 := setFiles st2 (cc_rowsFile st2) (cc_dataFile st2) (cc_dataSize st2) next).
    rewrite app_assoc in Hfile.
    assert (cc_header st3 = cc_header st) as Hh3 by done.
    pose proof (IH fuel st3 (pre ++ recordFrame (h_Scalars (cc_header st)) (h_FrameFormat (cc_header st)) r)
      tail (applyAll records st3).1) as IH'.
    rewrite Hh3 in IH'. cbn [cc_rowsFile cc_logSize cc_dataSize cc_dataFile st3 setFiles] in IH'.
    rewrite Hf1, Hf3 in IH'. specialize (IH' Hfile).
    rewrite zlen_app in IH'. specialize (IH' eq_refl Hall).
    assert (applyAll records st3 = (setFiles st1 (cc_rowsFile st2) (cc_dataFile st2) (cc_dataSize st2) next, Ok tt)) as E3.
    { unfold st3. rewrite applyAll_setFiles, Happ. done. }
    rewrite E3 in IH'. specialize (IH' eq_refl). fold next in IH'. rewrite IH'. cbn [fst].
    rewrite setFiles_twice. unfold logEnd. rewrite logOf_cons, zlen_app.
    replace (next + zlen (logOf (h_Scalars (cc_header st)) (h_FrameFormat (cc_header st)) records))
      with (zlen pre + (zlen (recordFrame (h_Scalars (cc_header st)) (h_FrameFormat (cc_header st)) r) +
        zlen (logOf (h_Scalars (cc_header st)) (h_FrameFormat (cc_header st)) records))) by (unfold next; lia).
    by rewrite ?Hf1, ?Hf2, ?Hf3.
Qed.

(** ** The scan for a later valid frame *)

(** All bytes of [file] at or after [e] are zero. *)
Definition zeroFrom (file : bytes) (e : Z) : Prop :=
  forall i b, e <= i -> file !! Z.to_nat i = Some b -> b2z b = 0.

Lemma lastNonZero_spec chunk :
  match lastNonZero chunk with
  | Some p => (p < length chunk)%nat /\ forall i b, (p < i)%nat -> chunk !! i = Some b -> b2z b = 0
  | None => forall i b, chunk !! i = Some b -> b2z b = 0
  end.
Proof.
  induction chunk as [|x chunk IH]; cbn [lastNonZero]; [intros i b H; done|].
  destruct (lastNonZero chunk) as [p|].
  - destruct IH as [Hp IH]. split; [cbn; lia|]. intros [|i] b Hi Hb; [lia|]. apply (IH i b); [lia|done].
  - destruct (Z.eqb_spec (b2z x) 0).
    + intros [|i] b Hb; [cbn in Hb; by simplify_eq|]. by apply (IH i b).
    + split; [cbn; lia|]. intros [|i] b Hi Hb; [lia|]. by apply (IH i b).
Qed.

Lemma contentEndLoop_spec file offset chunkLength : forall fuel chunkEnd,
  0 <= offset -> 0 < chunkLength \/ chunkEnd <= offset -> chunkEnd <= zlen file ->
  offset <= zlen file -> chunkEnd - offset < Z.of_nat fuel -> zeroFrom file (Z.max offset chunkEnd) ->
  let e := contentEndLoop fuel file offset chunkLength chunkEnd in
  offset <= e <= zlen file /\ zeroFrom file e.
Proof.
  induction fuel as [|fuel IH]; intros chunkEnd H0 Hc Hend Hoff Hfuel Hz; cbn [contentEndLoop].
  { split; [lia|]. by replace (Z.max offset chunkEnd) with offset in Hz by lia. }
  destruct (Z.leb_spec chunkEnd offset) as [|Hlt].
  { split; [lia|]. by replace (Z.max offset chunkEnd) with offset in Hz by lia. }
  set (chunkStart := Z.max offset (chunkEnd - chunkLength)).
  assert (offset <= chunkStart < chunkEnd) as Hs by (unfold chunkStart; lia).
  replace (Z.max offset chunkEnd) with chunkEnd in Hz by lia.
  pose proof (lastNonZero_spec (slice file chunkStart chunkEnd)) as Hn.
  assert (forall i b, chunkStart <= i < chunkEnd -> file !! Z.to_nat i = Some b ->
    slice file chunkStart chunkEnd !! Z.to_nat (i - chunkStart) = Some b) as Hin.
  { intros i b Hi Hb. rewrite slice_lookup by lia. by replace (chunkStart + (i - chunkStart)) with i by lia. }
  destruct (lastNonZero (slice file chunkStart chunkEnd)) as [p|].
  - destruct Hn as [Hp Hn].
    assert (Z.of_nat p < chunkEnd - chunkStart) as Hpl.
    { rewrite <- (slice_length file chunkStart chunkEnd) by lia. unfold zlen. lia. }
    split; [lia|]. intros i b Hi Hb. destruct (Z.lt_ge_cases i chunkEnd); [|by apply (Hz i b)].
    apply (Hn (Z.to_nat (i - chunkStart)) b); [lia|]. apply Hin; [lia|done].
  - apply IH; try lia. replace (Z.max offset chunkStart) with chunkStart by lia.
    intros i b Hi Hb. destruct (Z.lt_ge_cases i chunkEnd); [|by apply (Hz i b)].
    apply (Hn (Z.to_nat (i - chunkStart)) b), Hin; [lia|done].
Qed.

Lemma contentEnd_spec file offset :
  0 <= offset <= zlen file ->
  let e := contentEnd file offset (zlen file) in offset <= e <= zlen file /\ zeroFrom file e.
Proof.
  intros Ho. assert (0 < bufferBytes) by (unfold bufferBytes; lia).
  apply contentEndLoop_spec; try (unfold zlen in *; lia).
  - intros i b Hi Hb. apply lookup_lt_Some in Hb. unfold zlen in *. lia.
Qed.

(** In a run of zeros there is no valid frame: its length field would be zero. *)
Lemma leValue_zero bs : (forall i b, bs !! i = Some b -> b2z b = 0) -> leValue bs = 0.
Proof.
  induction bs as [|x bs IH]; intros H; cbn [leValue]; [done|].
  rewrite (H 0%nat x) by done. rewrite IH; [done|]. intros i b Hi. by apply (H (S i) b).
Qed.

Lemma validFrameAt_zero format file e p :
  0 <= e -> zeroFrom file e -> e <= p -> validFrameAt format file p = false.
Proof.
  intros He Hz Hp. unfold validFrameAt. pose proof (frameHeaderSize_pos format).
  destruct (Z.leb_spec (p + frameHeaderSize format) (zlen file)); [|done]. cbn [andb].
  destruct (parseFrameHeader format (slice file p (p + frameHeaderSize format))) as [[len c] v] eqn:E.
  assert (len = 0) as ->; [|by rewrite andb_false_r].
  unfold parseFrameHeader in E.
  assert (leValue (slice (slice file p (p + frameHeaderSize format)) 0 frameFieldBytes) = 0) as Hl.
  { unfold frameFieldBytes. rewrite slice_slice by lia. apply leValue_zero. intros i b Hb.
    apply lookup_lt_Some in Hb as Hlt. rewrite <- (Nat2Z.id i) in Hb.
    assert (Z.of_nat i < 4) by (unfold slice in Hlt; rewrite length_take in Hlt; lia).
    rewrite slice_lookup in Hb by lia. apply (Hz (p + 0 + Z.of_nat i) b); [lia|done]. }
  rewrite Hl in E. destruct (negb (format =? frameFormatLengthCRC)); by simplify_eq.
Qed.

Lemma validFrameAt_beyond format file p :
  zlen file < p + frameHeaderSize format -> validFrameAt format file p = false.
Proof. intros H. unfold validFrameAt. by rewrite (proj2 (Z.leb_gt _ _)). Qed.

(** What one window scan establishes about the offsets it covers. *)
Lemma scanWindow_spec format file windowStart windowEnd n : forall frameStart,
  0 <= windowStart <= frameStart -> windowEnd <= zlen file ->
  (zlen file <= windowEnd \/ frameStart + Z.of_nat n + frameHeaderSize format <= windowEnd + 1) ->
  match scanWindow n format file (slice file windowStart windowEnd) windowStart frameStart (zlen file) with
  | scanFound => exists p, frameStart <= p < frameStart + Z.of_nat n /\ validFrameAt format file p = true
  | scanStop => forall p, frameStart <= p -> validFrameAt format file p = false
  | scanNext => forall p, frameStart <= p < frameStart + Z.of_nat n -> validFrameAt format file p = false
  end.
Proof.
  induction n as [|n IH]; intros frameStart Hs Hwe Hcov; cbn [scanWindow]; [intros; lia|].
  pose proof (frameHeaderSize_pos format).
  destruct (Z.ltb_spec (zlen file) (frameStart + frameHeaderSize format)) as [Hb|Hin].
  { intros p Hp. apply validFrameAt_beyond. lia. }
  rewrite slice_slice by lia.
  replace (windowStart + (frameStart - windowStart)) with frameStart by lia.
  replace (windowStart + (frameStart + frameHeaderSize format - windowStart))
    with (frameStart + frameHeaderSize format) by lia.
  assert (validFrameAt format file frameStart =
    let '(length, payloadChecksum, lengthValid) :=
      parseFrameHeader format (slice file frameStart (frameStart + frameHeaderSize format)) in
    negb (negb lengthValid || (length =? 0) || (zlen file <? frameStart + frameHeaderSize format + length)
         || negb (payloadMatches file (frameStart + frameHeaderSize format) length payloadChecksum))) as Hv.
  { unfold validFrameAt. rewrite (proj2 (Z.leb_le _ _)) by lia. cbn [andb].
    destruct (parseFrameHeader _ _) as [[len c] v].
    rewrite !negb_orb, !negb_involutive. by rewrite <- Z.leb_antisym. }
  destruct (parseFrameHeader _ _) as [[len c] v]. destruct (_ || _ || _ || _); cbn [negb] in Hv.
  - specialize (IH (frameStart + 1)). destruct (scanWindow n _ _ _ _ _ _); [|intros p Hp|intros p Hp].
    + destruct IH as (p & Hp & Hvp); [lia|lia|lia|]. exists p. split; [lia|done].
    + destruct (decide (p = frameStart)) as [->|]; [done|]. apply IH; lia.
    + destruct (decide (p = frameStart)) as [->|]; [done|]. apply IH; lia.
  - exists frameStart. split; [lia|done].
Qed.

Lemma scanWindows_spec format file contentEnd : forall fuel windowStart,
  0 <= windowStart -> contentEnd <= zlen file -> contentEnd - windowStart < Z.of_nat fuel ->
  scanWindows fuel format file windowStart contentEnd (zlen file) = true <->
  exists p, windowStart <= p < contentEnd /\ validFrameAt format file p = true.
Proof.
  induction fuel as [|fuel IH]; intros windowStart H0 He Hf; cbn [scanWindows].
  { split; [done|]. intros (p & Hp & _). lia. }
  destruct (Z.leb_spec contentEnd windowStart) as [|Hlt].
  { split; [done|]. intros (p & Hp & _). lia. }
  pose proof (frameHeaderSize_pos format). assert (0 < bufferBytes) by (unfold bufferBytes; lia).
  set (lastStart := Z.min (windowStart + bufferBytes) contentEnd).
  pose proof (scanWindow_spec format file windowStart
    (Z.min (windowStart + bufferBytes + frameHeaderSize format) (zlen file))
    (Z.to_nat (lastStart - windowStart)) windowStart ltac:(lia) ltac:(lia)) as Hw.
  specialize (Hw ltac:(lia)).
  destruct (scanWindow _ _ _ _ _ _ _).
  - split; [|done]. intros _. destruct Hw as (p & Hp & Hv). exists p. split; [lia|done].
  - split; [done|]. intros (p & Hp & Hv). rewrite Hw in Hv by lia. done.
  - rewrite IH by lia. split; intros (p & Hp & Hv); exists p; (split; [|done]); [lia|].
    destruct (Z.lt_ge_cases p lastStart); [|lia]. rewrite Hw in Hv by lia. done.
Qed.

(** The windowed scan up to the last non-zero byte is equivalent to testing
    every offset of the rest of the log: [rejectRecord] sees a later frame exactly
    when some offset at or after [searchStart] starts a complete frame with a
    non-empty payload and matching checksums. *)
Theorem validFrameBetween_exhaustive format file offset start :
  0 <= offset <= zlen file -> 0 <= start ->
  validFrameBetween format file start (contentEnd file offset (zlen file)) (zlen file) = true <->
  exists p, start <= p < zlen file /\ validFrameAt format file p = true.
Proof.
  intros Ho Hs. destruct (contentEnd_spec file offset Ho) as [He Hz].
  unfold validFrameBetween. rewrite scanWindows_spec by (unfold zlen in *; lia).
  split; intros (p & Hp & Hv); exists p; (split; [|done]); [lia|].
  destruct (Z.lt_ge_cases p (contentEnd file offset (zlen file))); [lia|].
  rewrite (validFrameAt_zero _ _ (contentEnd file offset (zlen file))) in Hv by (done || lia). done.
Qed.

Lemma validFrameBetween_exhaustive_witness :
  let file := [Byte.xff] ++ frameBytes 1 (lit "ab") ++ replicate 5 Byte.x00 in
  validFrameBetween 1 file 1 (contentEnd file 0 (zlen file)) (zlen file) = true.
Proof.
  apply validFrameBetween_exhaustive; [split; vm_compute; discriminate|vm_compute; discriminate|].
  exists 1. split; [split; [vm_compute; discriminate|vm_compute; reflexivity]|vm_compute; reflexivity].
Defined.

(** ** Loading a complete log *)

Lemma recordFrame_zlen columns format r : 8 <= zlen (recordFrame columns format r).
Proof.
  unfold recordFrame. rewrite zlen_frameBytes. pose proof (frameHeaderSize_pos format).
  pose proof (zlen_nonneg (recordPayload columns r)). lia.
Qed.

Lemma logOf_length columns format records : (length records <= length (logOf columns format records))%nat.
Proof.
  induction records as [|r records IH]; [done|]. rewrite logOf_cons, length_app.
  pose proof (recordFrame_zlen columns format r) as H. unfold zlen in H. cbn [length]. lia.
Qed.

Lemma loggable_wf columns dataSize records :
  Forall (loggable columns dataSize) records -> Forall (recordWf columns) records.
Proof. intros H. eapply Forall_impl; [exact H|]. by intros r []. Qed.

(** A state with the index of [st1] and a row log that holds exactly [log]. *)
Definition withLog (st1 : codeCollection) (log dataFile : bytes) : codeCollection :=
  setFiles st1 log dataFile (zlen dataFile) (zlen log).

(** Where the loop stands after the complete frames of a log. *)
Lemma loadCollection_frames emptyScalar truncateOk header dataFile records tail st1 :
  Forall (loggable (h_Scalars header) (zlen dataFile)) records ->
  applyAll records (freshCollection emptyScalar header [] dataFile) = (st1, Ok tt) ->
  let log := logOf (h_Scalars header) (h_FrameFormat header) records in
  exists fuel, loadCollection emptyScalar truncateOk header (log ++ tail) dataFile =
    replayLoop (S fuel) truncateOk (zlen (log ++ tail)) (zlen log)
      (setFiles st1 (log ++ tail) dataFile (zlen dataFile) (zlen log)).
Proof.
  intros Hall Happ log.
  destruct (freshCollection_spec emptyScalar header (log ++ tail) dataFile)
    as (_ & _ & Hh & _ & Hl & Hrf & Hdf & Hds).
  unfold loadCollection, replay.
  set (st := freshCollection emptyScalar header (log ++ tail) dataFile) in *. rewrite Hrf, Hl.
  pose proof (logOf_length (h_Scalars header) (h_FrameFormat header) records) as Hlen. fold log in Hlen.
  exists (length (log ++ tail) - length records)%nat.
  replace (S (length (log ++ tail)))
    with (length records + S (length (log ++ tail) - length records))%nat by (rewrite length_app; lia).
  assert (applyAll records st = (setFiles st1 (log ++ tail) dataFile (zlen dataFile) 0, Ok tt)) as Ha.
  { change st with (setFiles (freshCollection emptyScalar header [] dataFile) (log ++ tail) dataFile (zlen dataFile) 0).
    rewrite applyAll_setFiles, Happ. done. }
  pose proof (replayLoop_frames truncateOk records (S (length (log ++ tail) - length records)) st [] tail) as Hf.
  rewrite Hh, Hrf, Hdf, Hds in Hf. specialize (Hf _ eq_refl Hl Hall Ha). cbv zeta in Hf.
  change (zlen (@nil Byte.byte)) with 0 in Hf. rewrite Z.add_0_l in Hf. rewrite Hf. done.
Qed.

Lemma loadCollection_complete emptyScalar truncateOk header dataFile records st1 :
  Forall (loggable (h_Scalars header) (zlen dataFile)) records ->
  applyAll records (freshCollection emptyScalar header [] dataFile) = (st1, Ok tt) ->
  let log := logOf (h_Scalars header) (h_FrameFormat header) records in
  loadCollection emptyScalar truncateOk header log dataFile = (withLog st1 log dataFile, Ok tt).
Proof.
  intros Hall Happ log.
  destruct (loadCollection_frames emptyScalar truncateOk header dataFile records [] st1 Hall Happ) as [fuel Hl].
  rewrite app_nil_r in Hl. fold log in Hl. rewrite Hl. cbn [replayLoop].
  by rewrite (proj2 (Z.leb_le _ _)).
Qed.

(** ** Torn tails *)

(** Cutting a log at any byte leaves complete frames and a strict prefix of the
    next frame. *)
Lemma take_logOf columns format records : forall k,
  (k <= length (logOf columns format records))%nat ->
  exists n t, (n <= length records)%nat /\
    take k (logOf columns format records) = logOf columns format (take n records) ++ t /\
    (t = [] \/ exists r, records !! n = Some r /\ (0 < length t < length (recordFrame columns format r))%nat
               /\ t = take (length t) (recordFrame columns format r)).
Proof.
  induction records as [|r records IH]; intros k Hk.
  - exists 0%nat, []. split; [done|]. split; [by destruct k|by left].
  - rewrite logOf_cons, length_app in *.
    destruct (decide (length (recordFrame columns format r) <= k)%nat) as [Hge|Hlt].
    + destruct (IH (k - length (recordFrame columns format r))%nat) as (n & t & Hn & Ht & Hc); [lia|].
      exists (S n), t. split; [cbn; lia|]. split; [|exact Hc].
      rewrite take_app_ge by lia. rewrite Ht. cbn [take]. by rewrite logOf_cons, app_assoc.
    + exists 0%nat, (take k (recordFrame columns format r)). split; [cbn; lia|].
      split; [by rewrite take_app_le by lia|].
      rewrite length_take, Nat.min_l by lia.
      destruct k as [|k]; [by left|right]. exists r. split; [done|]. split; [lia|done].
Qed.

Lemma take_app_prefix {A} (p s : list A) n :
  (length p <= n)%nat -> take n (p ++ s) = p ++ take (n - length p) s.
Proof. intros. by rewrite take_app_ge. Qed.

(** Replay at the start of a torn frame of format 1: the tail is cut off. *)
Lemma replayLoop_torn fuel st pre r t :
  h_FrameFormat (cc_header st) = frameFormatLengthCRC ->
  cc_rowsFile st = pre ++ t ->
  zlen (recordPayload (h_Scalars (cc_header st)) r) <= 2 ^ 32 - 1 ->
  let frame := recordFrame (h_Scalars (cc_header st)) frameFormatLengthCRC r in
  (0 < length t < length frame)%nat -> t = take (length t) frame ->
  replayLoop (S fuel) true (zlen (cc_rowsFile st)) (zlen pre) st =
  (setFiles st pre (cc_dataFile st) (cc_dataSize st) (zlen pre), Ok tt).
Proof.
  intros Hfmt Hfile Hfr frame Hlt Ht.
  assert (truncateRows true (zlen pre) st
    = (setFiles st pre (cc_dataFile st) (cc_dataSize st) (zlen pre), Ok tt)) as Htr.
  { unfold truncateRows. by rewrite Hfile, take_zlen_app. }
  cbn [replayLoop]. rewrite Hfmt. change (frameHeaderSize frameFormatLengthCRC) with 12.
  assert (zlen (cc_rowsFile st) = zlen pre + zlen t) as Hsize by (by rewrite Hfile, zlen_app).
  assert (0 < zlen t) by (unfold zlen; lia).
  destruct (Z.leb_spec (zlen (cc_rowsFile st)) (zlen pre)); [lia|].
  destruct (Z.ltb_spec (zlen (cc_rowsFile st)) (zlen pre + 12)) as [|Hhdr]; [done|].
  set (payload := recordPayload (h_Scalars (cc_header st)) r) in *.
  pose proof (zlen_frameHeader frameFormatLengthCRC payload) as Hzh.
  change (frameHeaderSize frameFormatLengthCRC) with 12 in Hzh.
  assert (t = frameHeader frameFormatLengthCRC payload ++ drop 12 t) as Ht2.
  { rewrite Ht at 1. unfold frame, recordFrame. fold payload. unfold frameBytes.
    unfold zlen in *. rewrite take_app_prefix by lia. f_equal.
    rewrite Ht at 2. unfold frame, recordFrame. fold payload. unfold frameBytes.
    rewrite take_app_prefix by lia. rewrite drop_app_length' by lia. done. }
  rewrite Hfile at 1. rewrite Ht2 at 1. rewrite slice_mid by lia.
  rewrite parseFrameHeader_frameHeader by done. cbn [negb].
  assert (zlen t < 12 + zlen payload) as Hend.
  { assert (zlen frame = 12 + zlen payload) by (unfold frame, recordFrame; fold payload; by rewrite zlen_frameBytes).
    unfold zlen in *. lia. }
  destruct (Z.ltb_spec (zlen (cc_rowsFile st)) (zlen pre + 12 + zlen payload)); [|lia].
  unfold rejectRecord. rewrite Hfmt. change (searchStart frameFormatLengthCRC ?a ?b) with b.
  destruct (contentEnd_spec (cc_rowsFile st) (zlen pre)) as [He _].
  { pose proof (zlen_nonneg pre). lia. }
  replace (validFrameBetween _ _ _ _ _) with false; [done|].
  unfold validFrameBetween. cbn [scanWindows]. by rewrite (proj2 (Z.leb_le _ _)) by lia.
Qed.

(** ** Recovery theorems *)

(** The collection that a log of [records] stands for. *)
Definition storesLog (header : collectionHeader) (records : list rowRecord) (st : codeCollection) : Prop :=
  indexInv st /\ cc_header st = header /\
  cc_rowsFile st = logOf (h_Scalars header) (h_FrameFormat header) records /\
  cc_logSize st = zlen (cc_rowsFile st) /\
  forall id, view st id = replayView (length (h_Scalars header)) records (fun _ => None) id.

Lemma applyAll_fresh emptyScalar header dataFile records :
  Forall (loggable (h_Scalars header) (zlen dataFile)) records ->
  Z.of_nat (1 + cellTotal records) < 2 ^ 32 ->
  exists st1, applyAll records (freshCollection emptyScalar header [] dataFile) = (st1, Ok tt) /\
    storesLog header records
      (withLog st1 (logOf (h_Scalars header) (h_FrameFormat header) records) dataFile).
Proof.
  intros Hall Hn.
  destruct (freshCollection_spec emptyScalar header [] dataFile) as (Hi & Hb & Hh & Hv & _).
  destruct (applyAll_spec records (freshCollection emptyScalar header [] dataFile) 1 Hi)
    as (st1 & Ha & Hi1 & [Hh1 _] & _ & Hv1).
  - rewrite Hh. by eapply loggable_wf.
  - done.
  - done.
  - exists st1. split; [done|]. split; [by destruct Hi1|]. split; [by rewrite <- Hh, <- Hh1|].
    split; [done|]. split; [done|]. intros id.
    change (view (withLog st1 _ dataFile) id) with (view st1 id). rewrite Hv1, Hh. by apply replayView_ext.
Qed.

(** Durability.  Loading a collection from the log of any sequence of records
    succeeds in both frame formats, keeps the log, and rebuilds exactly the map
    that the records describe. *)
Theorem loadCollection_log emptyScalar truncateOk header dataFile records :
  Forall (loggable (h_Scalars header) (zlen dataFile)) records ->
  Z.of_nat (1 + cellTotal records) < 2 ^ 32 ->
  exists st, loadCollection emptyScalar truncateOk header
      (logOf (h_Scalars header) (h_FrameFormat header) records) dataFile = (st, Ok tt) /\
    storesLog header records st.
Proof.
  intros Hall Hn. destruct (applyAll_fresh emptyScalar header dataFile records Hall Hn) as (st1 & Ha & Hs).
  eexists. split; [by apply loadCollection_complete|done].
Qed.

Lemma sampleRecord_loggable : loggable sampleColumns 142 sampleRecord.
Proof. split; [apply sampleRecord_wf|vm_compute; discriminate|intros _; vm_compute; discriminate]. Qed.

Lemma loadCollection_log_witness :
  let header := MkHeader sampleColumns 256 [] 0 frameFormatLengthCRC in
  exists st, loadCollection (MkScalar ScalarTypeString true [] false 0) true header
      (logOf sampleColumns frameFormatLengthCRC [sampleRecord; sampleRecord]) (replicate 142 Byte.x00)
      = (st, Ok tt) /\ storesLog header [sampleRecord; sampleRecord] st.
Proof.
  apply (loadCollection_log _ true (MkHeader sampleColumns 256 [] 0 frameFormatLengthCRC)
    (replicate 142 Byte.x00) [sampleRecord; sampleRecord]); [|vm_compute; reflexivity].
  apply Forall_cons; split; [apply sampleRecord_loggable|].
  apply Forall_cons; split; [apply sampleRecord_loggable|apply Forall_nil_2].
Defined.

(** C1. Crash recovery.  However an append was cut short (the log is any prefix, at
    byte granularity, of the framed records of format 1), loading succeeds and
    recovers exactly the records whose frames are complete; the torn frame, if
    any, is removed from the log. *)
Theorem loadCollection_torn emptyScalar header dataFile records k :
  h_FrameFormat header = frameFormatLengthCRC ->
  Forall (loggable (h_Scalars header) (zlen dataFile)) records ->
  Z.of_nat (1 + cellTotal records) < 2 ^ 32 ->
  let log n := logOf (h_Scalars header) (h_FrameFormat header) (take n records) in
  (k <= length (log (length records)))%nat ->
  exists n st, (n <= length records)%nat /\ (length (log n) <= k)%nat /\
    ((n < length records)%nat -> (k < length (log (S n)))%nat) /\
    loadCollection emptyScalar true header (take k (log (length records))) dataFile = (st, Ok tt) /\
    storesLog header (take n records) st.
Proof.
  intros Hfmt Hall Hn log Hk. unfold log in *. rewrite firstn_all in *.
  destruct (take_logOf (h_Scalars header) (h_FrameFormat header) records k Hk) as (n & t & Hnl & Htake & Ht).
  assert (length (logOf (h_Scalars header) (h_FrameFormat header) (take n records)) + length t = k)%nat as Hlen.
  { rewrite <- length_app, <- Htake, length_take. lia. }
  assert (Forall (loggable (h_Scalars header) (zlen dataFile)) (take n records)) as Hall' by (by apply Forall_take).
  assert (cellTotal (take n records) <= cellTotal records)%nat as Hct.
  { rewrite <- (take_drop n records) at 2. unfold cellTotal. rewrite sum_list_with_app. lia. }
  destruct (applyAll_fresh emptyScalar header dataFile (take n records) Hall' ltac:(lia)) as (st1 & Ha & Hs).
  assert (forall r, records !! n = Some r -> length (logOf (h_Scalars header) (h_FrameFormat header) (take (S n) records))
    = (length (logOf (h_Scalars header) (h_FrameFormat header) (take n records))
       + length (recordFrame (h_Scalars header) (h_FrameFormat header) r))%nat) as HS.
  { intros r Hr. rewrite (take_S_r _ _ r) by done. rewrite logOf_app, length_app. unfold logOf. cbn.
    by rewrite app_nil_r. }
  exists n, (withLog st1 (logOf (h_Scalars header) (h_FrameFormat header) (take n records)) dataFile).
  split; [done|]. split; [lia|]. rewrite Htake. destruct Ht as [->|(r & Hr & Hlt & Hpre)].
  - split; [|split; [rewrite app_nil_r; by apply loadCollection_complete|done]].
    intros Hlt. destruct (lookup_lt_is_Some_2 _ _ Hlt) as [r Hr]. rewrite (HS r Hr).
    pose proof (recordFrame_zlen (h_Scalars header) (h_FrameFormat header) r) as Hz.
    unfold zlen in Hz. cbn [length] in *. lia.
  - split; [intros _; rewrite (HS r Hr); lia|]. split; [|done].
    destruct (loadCollection_frames emptyScalar true header dataFile (take n records) t st1 Hall' Ha) as [fuel Hl].
    rewrite Hl. destruct Hs as (_ & Hh & _).
    rewrite Forall_lookup in Hall. destruct (Hall n r Hr) as [_ Hfr _].
    match goal with |- replayLoop _ _ ?l ?o ?st = _ =>
      pose proof (replayLoop_torn fuel st (logOf (h_Scalars header) (h_FrameFormat header) (take n records)) r t) as Htorn
    end.
    cbn [cc_header setFiles] in Htorn. cbn [cc_header withLog setFiles] in Hh. rewrite Hh, Hfmt in Htorn.
    rewrite Hfmt in *. by apply Htorn.
Qed.

Lemma loadCollection_torn_witness :
  let header := MkHeader sampleColumns 256 [] 0 frameFormatLengthCRC in
  let log n := logOf (h_Scalars header) (h_FrameFormat header) (take n [sampleRecord; sampleRecord]) in
  exists n st, (n <= 2)%nat /\ (length (log n) <= 100)%nat /\
    ((n < 2)%nat -> (100 < length (log (S n)))%nat) /\
    loadCollection (MkScalar ScalarTypeString true [] false 0) true header (take 100 (log 2%nat))
      (replicate 142 Byte.x00) = (st, Ok tt) /\
    storesLog header (take n [sampleRecord; sampleRecord]) st.
Proof.
  apply (loadCollection_torn _ (MkHeader sampleColumns 256 [] 0 frameFormatLengthCRC)
    (replicate 142 Byte.x00) [sampleRecord; sampleRecord]); [reflexivity| |vm_compute; reflexivity|].
  - apply Forall_cons; split; [apply sampleRecord_loggable|].
    apply Forall_cons; split; [apply sampleRecord_loggable|apply Forall_nil_2].
  - apply Nat.leb_le. vm_compute. reflexivity.
Defined.

(** ** Damaged logs *)

(** Where a later frame may start when the frame at [offset] is rejected: after it
    when its length is protected by a matching checksum, else at the next byte. *)
Definition resumeAt (format : Z) (file : bytes) (offset : Z) : Z :=
  let '(length, _, lengthValid) :=
    parseFrameHeader format (slice file offset (offset + frameHeaderSize format)) in
  if (format =? frameFormatLengthCRC) && lengthValid
  then offset + frameHeaderSize format + length else offset + 1.

(** Replay left the log alone, or cut it at an offset after which no offset that a
    later frame may start at holds a valid frame. *)
Definition cutSafely (st st' : codeCollection) (res : outcome csError unit) : Prop :=
  cc_rowsFile st' = cc_rowsFile st \/
  (res = Ok tt /\ exists offset, cc_logSize st <= offset <= zlen (cc_rowsFile st) /\
     cc_rowsFile st' = take (Z.to_nat offset) (cc_rowsFile st) /\ cc_logSize st' = offset /\
     forall p, resumeAt (h_FrameFormat (cc_header st)) (cc_rowsFile st) offset <= p ->
       validFrameAt (h_FrameFormat (cc_header st)) (cc_rowsFile st) p = false).

Lemma rejectRecord_cut truncateOk offset start cause st st' res :
  0 <= offset <= zlen (cc_rowsFile st) -> 0 <= start ->
  rejectRecord truncateOk offset start (zlen (cc_rowsFile st)) cause st = (st', res) ->
  cc_rowsFile st' = cc_rowsFile st \/
  (res = Ok tt /\ cc_rowsFile st' = take (Z.to_nat offset) (cc_rowsFile st) /\ cc_logSize st' = offset /\
   forall p, start <= p -> validFrameAt (h_FrameFormat (cc_header st)) (cc_rowsFile st) p = false).
Proof.
  intros Ho Hs H. unfold rejectRecord in H.
  destruct (contentEnd_spec (cc_rowsFile st) offset Ho) as [He Hz].
  destruct (validFrameBetween _ _ _ _ _) eqn:Ev; [unfold failM in H; simplify_eq; by left|].
  unfold truncateRows in H. destruct truncateOk; simplify_eq; [right|by left].
  split_and!; [done|done|done|]. intros p Hp.
  destruct (validFrameAt _ _ p) eqn:Hv; [|done]. exfalso.
  assert (validFrameBetween (h_FrameFormat (cc_header st)) (cc_rowsFile st) start
    (contentEnd (cc_rowsFile st) offset (zlen (cc_rowsFile st))) (zlen (cc_rowsFile st)) = true); [|congruence].
  unfold validFrameBetween. apply scanWindows_spec; [done|lia|unfold zlen in *; lia|].
  exists p. split; [|done]. split; [done|].
  destruct (Z.lt_ge_cases p (contentEnd (cc_rowsFile st) offset (zlen (cc_rowsFile st)))); [done|].
  rewrite (validFrameAt_zero _ _ (contentEnd (cc_rowsFile st) offset (zlen (cc_rowsFile st)))) in Hv by (done || lia).
  done.
Qed.

Lemma parseFrameHeader_nonneg format header len c v :
  parseFrameHeader format header = (len, c, v) -> 0 <= len.
Proof.
  unfold parseFrameHeader. intros H. pose proof (leValue_nonneg (slice header 0 frameFieldBytes)).
  destruct (negb _); by simplify_eq.
Qed.

Lemma replayLoop_cut truncateOk : forall fuel offset st st' res,
  0 <= cc_logSize st <= offset -> offset <= zlen (cc_rowsFile st) ->
  replayLoop fuel truncateOk (zlen (cc_rowsFile st)) offset st = (st', res) ->
  cutSafely st st' res.
Proof.
  induction fuel as [|fuel IH]; intros offset st st' res Hl Ho H; cbn [replayLoop] in H.
  { simplify_eq. by left. }
  pose proof (frameHeaderSize_pos (h_FrameFormat (cc_header st))).
  destruct (Z.leb_spec (zlen (cc_rowsFile st)) offset); [simplify_eq; by left|].
  destruct (Z.ltb_spec (zlen (cc_rowsFile st)) (offset + frameHeaderSize (h_FrameFormat (cc_header st)))).
  { unfold truncateRows in H. destruct truncateOk; simplify_eq; [right|by left].
    split; [done|]. exists offset. split_and!; [lia|lia|done|done|].
    intros p Hp. apply validFrameAt_beyond. revert Hp. unfold resumeAt.
    destruct (parseFrameHeader _ _) as [[len c] v] eqn:E. apply parseFrameHeader_nonneg in E.
    destruct (_ && _); lia. }
  destruct (parseFrameHeader _ _) as [[len c] v] eqn:E.
  pose proof (parseFrameHeader_nonneg _ _ _ _ _ E) as Hlen.
  assert (resumeAt (h_FrameFormat (cc_header st)) (cc_rowsFile st) offset =
    if (h_FrameFormat (cc_header st) =? frameFormatLengthCRC) && v
    then offset + frameHeaderSize (h_FrameFormat (cc_header st)) + len else offset + 1) as Hres
    by (unfold resumeAt; by rewrite E).
  assert (forall start cause st' res, 0 <= start ->
    start <= resumeAt (h_FrameFormat (cc_header st)) (cc_rowsFile st) offset ->
    rejectRecord truncateOk offset start (zlen (cc_rowsFile st)) cause st = (st', res) ->
    cutSafely st st' res) as Hrej.
  { intros start cause st2 res2 Hs0 Hs Hr.
    destruct (rejectRecord_cut truncateOk offset start cause st st2 res2 ltac:(lia) Hs0 Hr) as [?|(-> & Hf & Hls & Hno)]; [by left|right].
    split; [done|]. exists offset. split_and!; [lia|lia|done|done|]. intros p Hp. apply Hno. lia. }
  destruct v; cbn [negb] in H; cycle 1.
  { eapply Hrej; [| |exact H]; [lia|]. rewrite Hres, andb_false_r. lia. }
  rewrite andb_true_r in Hres.
  set (end_ := offset + frameHeaderSize (h_FrameFormat (cc_header st)) + len) in *.
  assert (searchStart (h_FrameFormat (cc_header st)) offset end_
    = resumeAt (h_FrameFormat (cc_header st)) (cc_rowsFile st) offset) as Hss by (by rewrite Hres).
  assert (0 <= searchStart (h_FrameFormat (cc_header st)) offset end_) as Hss0.
  { unfold searchStart, end_. destruct (_ =? _); lia. }
  destruct (Z.ltb_spec (zlen (cc_rowsFile st)) end_).
  { eapply Hrej; [done| |exact H]. lia. }
  unfold checkRecord, mbind, M_bind in H.
  destruct ((zlen _ =? 0) || _).
  { destruct (rejectRecord _ _ _ _ _ _) as [st2 res2] eqn:Er.
    apply Hrej in Er; [|done|by rewrite Hss].
    destruct res2 as [[]|e|]; unfold mret, M_ret in H; by simplify_eq. }
  unfold liftRec in H.
  destruct (decodeRecord _ _) as [r|e|]; cbn in H; [|simplify_eq; by left|simplify_eq; by left].
  destruct (_ && _); cbn in H; [simplify_eq; by left|].
  pose proof (apply_sameFiles r st) as [Hh Hf].
  destruct (apply r st) as [st2 [[]|e|]]; cbn in Hh, Hf; injection Hf as Hf1 Hf2 Hf3 Hf4;
    [|simplify_eq; left; congruence|simplify_eq; left; congruence].
  cbn in H. rewrite <- Hf1 in H.
  match type of H with replayLoop _ _ _ _ ?s = _ => set (st3 := s) in H end.
  apply (IH end_ st3) in H; [|cbn; unfold end_; lia|cbn; rewrite Hf1; done].
  destruct H as [H|(Hr & o & Ho1 & Hcut & Hls & Hno)]; [left; by rewrite <- Hf1|right].
  cbn in Ho1, Hcut, Hno. rewrite Hf1, Hh in *. split; [done|]. exists o.
  split; [unfold end_ in *; lia|done].
Qed.

(** Replay never destroys later data.  For every log content, frame format and
    position, replay either leaves the log unchanged or succeeds after cutting it
    at an offset such that no complete frame with matching checksums starts at any
    offset where one could start after the cut; in particular a log damaged in
    the middle, with valid records after the damage, is refused and left intact. *)
Theorem replay_truncation_safe truncateOk st st' res :
  0 <= cc_logSize st <= zlen (cc_rowsFile st) ->
  replay truncateOk st = (st', res) -> cutSafely st st' res.
Proof. intros Hl H. unfold replay in H. eapply replayLoop_cut; [|apply Hl|exact H]. lia. Qed.

Lemma replay_truncation_safe_witness :
  let st := freshCollection (MkScalar ScalarTypeString true [] false 0)
    (MkHeader sampleColumns 256 [] 0 frameFormatLengthCRC)
    (replicate 3 Byte.xff ++ recordFrame sampleColumns frameFormatLengthCRC sampleRecord) [] in
  cutSafely st (replay true st).1 (replay true st).2 /\ (replay true st).2 <> Ok tt.
Proof.
  split; [|vm_compute; discriminate].
  apply (replay_truncation_safe true); [split; vm_compute; discriminate|].
  apply surjective_pairing.
Defined.
