(* ===== verification/CsReads.v ===== *)
(** * CsReads: replay of the row log when reads fail (conversation/codestore/collection.go)

    [CsCollection.replay] is the replay of a log that can be read.  Here every read of it has
    an outcome: the size, the seek, the header and the payload of a frame, and the two scans
    and the checksums that decide whether a damaged record is cut off.  [replayReads_ok]:
    when all succeed this is [replay].  [replayReads_safe]: whatever fails, the log is left as
    it is, or cut as [replay] may cut it, or cut at the frame whose header could not be read;
    [header_failure_cuts] shows that the last case loses records that are in order. *)

From S2P Require Import Prelude GoBinary CsRecord CsCollection CsIndex CsLog.

Open Scope Z_scope.

(** The reads of a replay.  None is made twice at one offset, so an outcome for every place
    of it says everything that can happen. *)
Inductive fileRead :=
| readHeader      (* [io.ReadFull] of a frame header *)
| readPayload     (* [io.ReadFull] of a payload *)
| readTail        (* [ReadAt] of [contentEnd] *)
| readWindow      (* [ReadAt] of [validFrameBetween] *)
| readChecksum.   (* [io.Copy] of [payloadMatches] *)

Record readOutcomes := MkReads {
  ro_stat : bool;
  ro_seek : bool;
  ro_read : fileRead -> Z -> bool;
}.

Definition readsOk : readOutcomes := MkReads true true (fun _ _ => true).

Section reads.
Context (reads : readOutcomes).
Abbreviation readOk := (ro_read reads).

(** The result of a scan, or [None] when a read failed. *)
Fixpoint contentEndLoopReads (fuel : nat) (file : bytes) (offset chunkLength chunkEnd : Z) : option Z :=
  match fuel with
  | O => Some offset
  | S fuel =>
      if chunkEnd <=? offset then Some offset else
      let chunkStart := Z.max offset (chunkEnd - chunkLength) in
      if negb (readOk readTail chunkStart) then None else
      match lastNonZero (slice file chunkStart chunkEnd) with
      | Some position => Some (chunkStart + Z.of_nat position + 1)
      | None => contentEndLoopReads fuel file offset chunkLength chunkStart
      end
  end.

Definition contentEndReads (file : bytes) (offset logSize : Z) : option Z :=
  contentEndLoopReads (S (length file)) file offset (Z.min bufferBytes (logSize - offset)) logSize.

Fixpoint scanWindowReads (n : nat) (format : Z) (file window : bytes) (windowStart frameStart logSize : Z) : option scanResult :=
  match n with
  | O => Some scanNext
  | S n =>
      let payloadStart := frameStart + frameHeaderSize format in
      if logSize <? payloadStart then Some scanStop else
      let '(length, payloadChecksum, lengthValid) :=
        parseFrameHeader format (slice window (frameStart - windowStart) (payloadStart - windowStart)) in
      if negb lengthValid || (length =? 0) || (logSize <? payloadStart + length)
      then scanWindowReads n format file window windowStart (frameStart + 1) logSize
      else if negb (readOk readChecksum payloadStart) then None
      else if payloadMatches file payloadStart length payloadChecksum then Some scanFound
      else scanWindowReads n format file window windowStart (frameStart + 1) logSize
  end.

Fixpoint scanWindowsReads (fuel : nat) (format : Z) (file : bytes) (windowStart contentEnd logSize : Z) : option bool :=
  match fuel with
  | O => Some false
  | S fuel =>
      if contentEnd <=? windowStart then Some false else
      let windowEnd := Z.min (windowStart + bufferBytes + frameHeaderSize format) logSize in
      if negb (readOk readWindow windowStart) then None else
      let window := slice file windowStart windowEnd in
      let lastStart := Z.min (windowStart + bufferBytes) contentEnd in
      match scanWindowReads (Z.to_nat (lastStart - windowStart)) format file window windowStart windowStart logSize with
      | None => None
      | Some scanFound => Some true
      | Some scanStop => Some false
      | Some scanNext => scanWindowsReads fuel format file (windowStart + bufferBytes) contentEnd logSize
      end
  end.

Definition rejectRecordReads (truncateOk : bool) (offset searchStart logSize : Z) (cause : csError) : M unit := fun st =>
  let file := cc_rowsFile st in
  let format := h_FrameFormat (cc_header st) in
  match contentEndReads file offset logSize with
  | None => failM csIO st
  | Some contentEnd =>
      match scanWindowsReads (S (length file)) format file searchStart contentEnd logSize with
      | None => failM csIO st
      | Some true => failM cause st
      | Some false => truncateRows truncateOk offset st
      end
  end.

Definition checkRecordReads (truncateOk : bool) (offset end_ logSize : Z) (payload : bytes) (payloadChecksum : Z) : M checked := fun st =>
  let format := h_FrameFormat (cc_header st) in
  if (zlen payload =? 0) || negb (ChecksumIEEE payload =? payloadChecksum) then
    (_ ← rejectRecordReads truncateOk offset (searchStart format offset end_) logSize (csRecord errMalformedRecord);
     mret recordStopped) st
  else
    (record ← liftRec (decodeRecord payload (h_Scalars (cc_header st)));
     if (rec_kind record =? recordUpsert) && (cc_dataSize st <? i64 (rec_dataOffset record + rec_dataLength record))
     then failM csDataFileTooShort
     else mret (recordAccepted record)) st.

(** A header that cannot be read is handled as one that is cut off: the log is truncated.  Only the
    end of the file at the frame ends the loop. *)
Fixpoint replayLoopReads (fuel : nat) (truncateOk : bool) (logSize offset : Z) : M unit := fun st =>
  match fuel with
  | O => (st, Ok tt)
  | S fuel =>
      let file := cc_rowsFile st in
      let format := h_FrameFormat (cc_header st) in
      let headerBytes := frameHeaderSize format in
      if negb (readOk readHeader offset) then truncateRows truncateOk offset st
      else if logSize <=? offset then (st, Ok tt)
      else if logSize <? offset + headerBytes then truncateRows truncateOk offset st
      else
      let '(length, payloadChecksum, lengthValid) := parseFrameHeader format (slice file offset (offset + headerBytes)) in
      if negb lengthValid
      then rejectRecordReads truncateOk offset (offset + 1) logSize (csRecord errMalformedRecord) st
      else
      let end_ := offset + headerBytes + length in
      if logSize <? end_
      then rejectRecordReads truncateOk offset (searchStart format offset end_) logSize csUnexpectedEOF st
      else if negb (readOk readPayload offset) then failM csIO st
      else
      (result ← checkRecordReads truncateOk offset end_ logSize (slice file (offset + headerBytes) end_) payloadChecksum;
       match result with
       | recordStopped => mret tt
       | recordAccepted record =>
           _ ← apply record;
           _ ← setLogSize end_;
           replayLoopReads fuel truncateOk logSize end_
       end) st
  end.

Definition replayReads (truncateOk : bool) : M unit := fun st =>
  if negb (ro_stat reads) then failM csIO st else
  if negb (ro_seek reads) then failM csIO st else
  replayLoopReads (S (length (cc_rowsFile st))) truncateOk (zlen (cc_rowsFile st)) (cc_logSize st) st.
End reads.

(** ** Every scan reads what the plain one reads, or fails *)

Section agree.
Context (reads : readOutcomes).

(** All reads that are made succeed. *)
Abbreviation allRead := (forall read offset, ro_read reads read offset = true).

Lemma contentEndLoopReads_spec fuel file offset chunkLength chunkEnd :
  let result := contentEndLoopReads reads fuel file offset chunkLength chunkEnd in
  (result = None \/ result = Some (contentEndLoop fuel file offset chunkLength chunkEnd)) /\ (allRead -> result <> None).
Proof.
  cbn zeta. revert chunkEnd. induction fuel as [|fuel IH]; intros chunkEnd; cbn [contentEndLoopReads contentEndLoop]; [by split; [right|]|].
  destruct (chunkEnd <=? offset); [by split; [right|]|]. cbn zeta.
  destruct (ro_read reads readTail _) eqn:E; cbn [negb]; [|split; [by left|by intros H; rewrite H in E]].
  destruct (lastNonZero _); [by split; [right|]|apply IH].
Qed.

Lemma scanWindowReads_spec n format file window windowStart frameStart logSize :
  let result := scanWindowReads reads n format file window windowStart frameStart logSize in
  (result = None \/ result = Some (scanWindow n format file window windowStart frameStart logSize)) /\ (allRead -> result <> None).
Proof.
  cbn zeta. revert frameStart. induction n as [|n IH]; intros frameStart; cbn [scanWindowReads scanWindow]; [by split; [right|]|]. cbn zeta.
  destruct (_ <? _); [by split; [right|]|]. destruct (parseFrameHeader _ _) as [[len sum] valid].
  destruct (negb valid || _ || _); cbn [orb]; [apply IH|].
  destruct (ro_read reads readChecksum _) eqn:E; cbn [negb]; [|split; [by left|by intros H; rewrite H in E]].
  destruct (payloadMatches _ _ _ _); cbn [negb]; [by split; [right|]|apply IH].
Qed.

Lemma scanWindowsReads_spec fuel format file windowStart contentEnd logSize :
  let result := scanWindowsReads reads fuel format file windowStart contentEnd logSize in
  (result = None \/ result = Some (scanWindows fuel format file windowStart contentEnd logSize)) /\ (allRead -> result <> None).
Proof.
  cbn zeta. revert windowStart. induction fuel as [|fuel IH]; intros windowStart; cbn [scanWindowsReads scanWindows]; [by split; [right|]|].
  destruct (contentEnd <=? windowStart); [by split; [right|]|]. cbn zeta.
  destruct (ro_read reads readWindow _) eqn:E; cbn [negb]; [|split; [by left|by intros H; rewrite H in E]].
  match goal with |- context [scanWindowReads reads ?n ?a ?b ?w ?s ?t ?l] => destruct (scanWindowReads_spec n a b w s t l) as [[->| ->] Hn] end;
    [split; [by left|by intros H; destruct (Hn H)]|].
  destruct (scanWindow _ _ _ _ _ _ _); [by split; [right|]|by split; [right|]|apply IH].
Qed.

Lemma rejectRecordReads_spec truncateOk offset start logSize cause st :
  let result := rejectRecordReads reads truncateOk offset start logSize cause st in
  (result = (st, Fail csIO) \/ result = rejectRecord truncateOk offset start logSize cause st) /\
  (allRead -> result = rejectRecord truncateOk offset start logSize cause st).
Proof.
  cbn zeta. unfold rejectRecordReads, rejectRecord, contentEndReads, contentEnd, validFrameBetween.
  match goal with |- context [contentEndLoopReads reads ?n ?a ?b ?c ?d] => destruct (contentEndLoopReads_spec n a b c d) as [[->| ->] Hn] end;
    [split; [by left|by intros H; destruct (Hn H)]|].
  match goal with |- context [scanWindowsReads reads ?n ?a ?b ?c ?d ?e] => destruct (scanWindowsReads_spec n a b c d e) as [[->| ->] Hm] end;
    [split; [by left|by intros H; destruct (Hm H)]|].
  destruct (scanWindows _ _ _ _ _ _); (split; [by right|done]).
Qed.

Lemma checkRecordReads_spec truncateOk offset end_ logSize payload sum st :
  let result := checkRecordReads reads truncateOk offset end_ logSize payload sum st in
  (result = (st, Fail csIO) \/ result = checkRecord truncateOk offset end_ logSize payload sum st) /\
  (allRead -> result = checkRecord truncateOk offset end_ logSize payload sum st).
Proof.
  cbn zeta. unfold checkRecordReads, checkRecord. destruct (_ || _); [|split; [by right|done]].
  unfold mbind, M_bind.
  match goal with |- context [rejectRecordReads reads ?a ?b ?c ?d ?e st] => destruct (rejectRecordReads_spec a b c d e st) as [[->| ->] Ha] end;
    [|split; [by right|done]].
  split; [by left|]. intros H. by rewrite <- (Ha H).
Qed.

Lemma replayLoopReads_ok fuel truncateOk logSize offset st : allRead ->
  replayLoopReads reads fuel truncateOk logSize offset st = replayLoop fuel truncateOk logSize offset st.
Proof.
  intros Hr. revert offset st. induction fuel as [|fuel IH]; intros offset st; [done|]. cbn [replayLoopReads replayLoop]. rewrite !Hr. cbn [negb].
  destruct (_ <=? _); [done|]. destruct (_ <? _); [done|]. destruct (parseFrameHeader _ _) as [[len sum] valid].
  destruct valid; cbn [negb]; [|by apply rejectRecordReads_spec]. destruct (_ <? _); [by apply rejectRecordReads_spec|].
  unfold mbind, M_bind. match goal with |- context [checkRecordReads reads ?a ?b ?c ?d ?e ?f st] => rewrite (proj2 (checkRecordReads_spec a b c d e f st) Hr) end.
  destruct (checkRecord _ _ _ _ _ _ st) as [st1 [[record|]|e|]]; try done.
  destruct (apply record st1) as [st2 [[]|e|]]; try done. unfold setLogSize. apply IH.
Qed.
End agree.

(** When every read succeeds this is the replay of the other theorems. *)
Theorem replayReads_ok truncateOk st : replayReads readsOk truncateOk st = replay truncateOk st.
Proof. by apply replayLoopReads_ok. Qed.

(** ** Safety *)

(** The log was cut at a frame whose header could not be read. *)
Definition cutAtFailure (reads : readOutcomes) (st st' : codeCollection) (res : outcome csError unit) : Prop :=
  exists offset, ro_read reads readHeader offset = false /\ cc_logSize st <= offset <= zlen (cc_rowsFile st) /\
    res = Ok tt /\ cc_rowsFile st' = take (Z.to_nat offset) (cc_rowsFile st) /\ cc_logSize st' = offset.

(** A step that failed to read keeps the log. *)
Lemma rejectRecordReads_file reads truncateOk offset start cause st st' res :
  0 <= offset <= zlen (cc_rowsFile st) -> 0 <= start ->
  rejectRecordReads reads truncateOk offset start (zlen (cc_rowsFile st)) cause st = (st', res) ->
  cc_rowsFile st' = cc_rowsFile st \/
  (res = Ok tt /\ cc_rowsFile st' = take (Z.to_nat offset) (cc_rowsFile st) /\ cc_logSize st' = offset /\
   forall p, start <= p -> validFrameAt (h_FrameFormat (cc_header st)) (cc_rowsFile st) p = false).
Proof.
  intros Ho Hs H. destruct (rejectRecordReads_spec reads truncateOk offset start (zlen (cc_rowsFile st)) cause st) as [[E|E] _]; rewrite E in H.
  - simplify_eq. by left.
  - by eapply rejectRecord_cut.
Qed.

Definition safeReplay (reads : readOutcomes) (st st' : codeCollection) (res : outcome csError unit) : Prop :=
  cutSafely st st' res \/ cutAtFailure reads st st' res.

(** The records that were applied leave the log as it is. *)
Lemma safeReplay_step reads st st2 st' res : cc_rowsFile st2 = cc_rowsFile st -> cc_header st2 = cc_header st -> cc_logSize st <= cc_logSize st2 ->
  safeReplay reads st2 st' res -> safeReplay reads st st' res.
Proof.
  unfold safeReplay, cutSafely, cutAtFailure. intros -> -> Hl [[H|(Hr & o & Ho & H)]|(o & Hf & Ho & H)].
  - left. by left.
  - left. right. split; [done|]. exists o. split; [lia|done].
  - right. exists o. split_and!; [done|lia|lia|apply H..].
Qed.

Lemma replayLoopReads_safe reads truncateOk : forall fuel offset st st' res,
  0 <= cc_logSize st <= offset -> offset <= zlen (cc_rowsFile st) ->
  replayLoopReads reads fuel truncateOk (zlen (cc_rowsFile st)) offset st = (st', res) -> safeReplay reads st st' res.
Proof.
  induction fuel as [|fuel IH]; intros offset st st' res Hl Ho H; cbn [replayLoopReads] in H.
  { simplify_eq. left. by left. }
  pose proof (frameHeaderSize_pos (h_FrameFormat (cc_header st))) as Hh.
  destruct (ro_read reads readHeader offset) eqn:Eh; cbn [negb] in H.
  2: { unfold truncateRows in H. destruct truncateOk; simplify_eq; [right|left; by left]. exists offset. split_and!; try done; lia. }
  destruct (Z.leb_spec (zlen (cc_rowsFile st)) offset); [simplify_eq; left; by left|].
  destruct (Z.ltb_spec (zlen (cc_rowsFile st)) (offset + frameHeaderSize (h_FrameFormat (cc_header st)))) as [Hshort|Hshort].
  { left. apply (replayLoop_cut truncateOk 1 offset st st' res Hl Ho). cbn [replayLoop].
    rewrite (proj2 (Z.leb_gt _ _)) by lia. by rewrite (proj2 (Z.ltb_lt _ _)) by lia. }
  destruct (parseFrameHeader _ _) as [[len sum] v] eqn:E. pose proof (parseFrameHeader_nonneg _ _ _ _ _ E) as Hlen.
  assert (resumeAt (h_FrameFormat (cc_header st)) (cc_rowsFile st) offset =
    if (h_FrameFormat (cc_header st) =? frameFormatLengthCRC) && v
    then offset + frameHeaderSize (h_FrameFormat (cc_header st)) + len else offset + 1) as Hres by (unfold resumeAt; by rewrite E).
  assert (forall start cause st' res, 0 <= start -> start <= resumeAt (h_FrameFormat (cc_header st)) (cc_rowsFile st) offset ->
    rejectRecordReads reads truncateOk offset start (zlen (cc_rowsFile st)) cause st = (st', res) -> cutSafely st st' res) as Hrej.
  { intros start cause st2 res2 Hs0 Hs Hr.
    destruct (rejectRecordReads_file reads truncateOk offset start cause st st2 res2 ltac:(lia) Hs0 Hr) as [?|(-> & Hf & Hls & Hno)]; [by left|right].
    split; [done|]. exists offset. split_and!; [lia|lia|done|done|]. intros p Hp. apply Hno. lia. }
  destruct v; cbn [negb] in H; [|left; eapply Hrej; [| |exact H]; [lia|]; rewrite Hres, andb_false_r; lia].
  rewrite andb_true_r in Hres. set (end_ := offset + frameHeaderSize (h_FrameFormat (cc_header st)) + len) in *.
  assert (searchStart (h_FrameFormat (cc_header st)) offset end_ = resumeAt (h_FrameFormat (cc_header st)) (cc_rowsFile st) offset) as Hss by (by rewrite Hres).
  assert (0 <= searchStart (h_FrameFormat (cc_header st)) offset end_) as Hss0 by (unfold searchStart, end_; destruct (_ =? _); lia).
  destruct (Z.ltb_spec (zlen (cc_rowsFile st)) end_); [left; eapply Hrej; [done| |exact H]; lia|].
  destruct (negb (ro_read reads readPayload offset)); [unfold failM in H; simplify_eq; left; by left|].
  unfold checkRecordReads, mbind, M_bind in H. destruct ((zlen _ =? 0) || _).
  { destruct (rejectRecordReads _ _ _ _ _ _ _) as [st2 res2] eqn:Er. apply Hrej in Er; [|done|by rewrite Hss].
    left. destruct res2 as [[]|e|]; unfold mret, M_ret in H; by simplify_eq. }
  unfold liftRec in H. destruct (decodeRecord _ _) as [r|e|]; cbn in H; [|simplify_eq; left; by left..].
  destruct (_ && _); cbn in H; [simplify_eq; left; by left|].
  pose proof (apply_sameFiles r st) as [Hhd Hf].
  destruct (apply r st) as [st2 [[]|e|]]; cbn in Hhd, Hf; injection Hf as Hf1 Hf2 Hf3 Hf4; [|simplify_eq; left; left; congruence..].
  cbn in H. rewrite <- Hf1 in H. match type of H with replayLoopReads _ _ _ _ _ ?s = _ => set (st3 := s) in H end.
  apply (IH end_ st3) in H; [|cbn; unfold end_; lia|cbn; rewrite Hf1; done].
  revert H. apply safeReplay_step; cbn; [done|done|unfold end_; lia].
Qed.

(** Whatever reads fail, the replay leaves the log as it is, or cuts it where no complete frame
    follows, or cuts it at the frame whose header could not be read. *)
Theorem replayReads_safe reads truncateOk st st' res :
  0 <= cc_logSize st <= zlen (cc_rowsFile st) -> replayReads reads truncateOk st = (st', res) -> safeReplay reads st st' res.
Proof.
  intros Hl H. unfold replayReads in H. destruct (negb _); [unfold failM in H; simplify_eq; left; by left|]. destruct (negb _); [unfold failM in H; simplify_eq; left; by left|].
  eapply replayLoopReads_safe; [|apply Hl|exact H]. lia.
Qed.

(** ** A failure that loses records *)

Definition twoRecordLog : codeCollection :=
  freshCollection (MkScalar ScalarTypeString true [] false 0) (MkHeader sampleColumns 256 [] 0 frameFormatLengthCRC)
    (recordFrame sampleColumns frameFormatLengthCRC sampleRecord ++ recordFrame sampleColumns frameFormatLengthCRC sampleRecord)
    (replicate 142 Byte.x00).

(** The header at [offset] cannot be read; every other read succeeds. *)
Definition headerFails (offset : Z) : readOutcomes :=
  MkReads true true (fun read o => negb (match read with readHeader => o =? offset | _ => false end)).

(** A read that fails at the second of two good records removes it from the file, and the
    replay reports success; a payload that cannot be read is an error and keeps the log. *)
Theorem header_failure_cuts :
  let first := recordFrame sampleColumns frameFormatLengthCRC sampleRecord in
  let '(st, res) := replayReads (headerFails (zlen first)) true twoRecordLog in
  res = Ok tt /\ cc_rowsFile st = first /\ cc_rowsFile twoRecordLog = first ++ first /\
  (replayReads readsOk true twoRecordLog).2 = Ok tt /\ cc_rowsFile (replayReads readsOk true twoRecordLog).1 = first ++ first.
Proof. vm_compute. split_and!; reflexivity. Qed.
