(* ===== verification/CsWrite.v ===== *)
(** * CsWrite: writing records, compaction and the blobs of rows
      (codestore/collection.go [write], [readBlob]; codestore/compact.go)

    [write] appends data bytes, syncs them, appends the framed records, syncs
    them, and only then changes the index.  Compaction rewrites the live rows and
    their data into the files of the next generation.  The outcomes of the writes,
    syncs, creations, closes and renames are arguments ([writeIO], [compactIO]); a failing
    [Write] may have written some of its bytes.  A read of the data file fails when it is
    short. *)

From S2P Require Import Prelude GoBinary CsRecord CsCollection CsIndex CsLog.

Open Scope Z_scope.

(** ** File operations *)

(** [file.WriteAt(buf, off)]; a gap before [off] reads as zeros. *)
Definition writeAt (file : bytes) (off : Z) (buf : bytes) : bytes :=
  let n := Z.to_nat off in
  take n (file ++ replicate (n - length file) Byte.x00) ++ buf ++ drop (n + length buf) file.

(** [file.ReadAt(make([]byte, length), off)]: [None] when the read is short. *)
Definition readAt (file : bytes) (off length : Z) : option bytes :=
  if (off <? 0) || ((0 <? length) && (zlen file <? off + length)) then None
  else Some (slice file off (off + length)).

(** Outcomes of the file operations of a compaction, in the order of the code. *)
Record compactIO := MkCompactIO {
  ci_createRows : bool;
  ci_createData : bool;
  ci_flush : bool;
  ci_stat : bool;
  ci_replaceHeader : bool;
  ci_identity : bool;
  ci_syncDirectory : bool;
  ci_removePrevious : bool;
}.

(** Outcomes of the file operations of a write.  [Some n] is a failed write of
    which [n] bytes reached the file. *)
Record writeIO := MkWriteIO {
  io_dataWrite : option nat;
  io_dataSync : bool;
  io_seek : bool;
  io_rowsWrite : option nat;
  io_rowsSync : bool;
  io_truncate : bool;
  io_compact : compactIO;
}.

(** ** Compaction *)

Definition setOffset (record : rowRecord) (dataOffset dataLength : Z) : rowRecord :=
  MkRecord (rec_kind record) (rec_id record) (rec_code record) (rec_relativePath record)
    (rec_splitPart record) (rec_splitRecorded record) dataOffset dataLength (rec_cells record).

(** The loop of [writeCompacted]: the row log, the data file and the new offsets. *)
Fixpoint writeCompacted (st : codeCollection) (positions : list nat) (rowsOut dataOut : bytes)
    (offsets : list Z) (dataOffset : Z) : outcome csError (bytes * bytes * list Z * Z) :=
  match positions with
  | [] => Ok (rowsOut, dataOut, offsets, dataOffset)
  | position :: positions =>
      record ← recordOf st position;
      if rec_dataLength record <? 0 then Panic else
      match readAt (cc_dataFile st) (rec_dataOffset record) (rec_dataLength record) with
      | None => Fail csIO
      | Some blob =>
          match encodeRecord (setOffset record dataOffset (rec_dataLength record))
                  (h_Scalars (cc_header st)) with
          | Fail e => Fail (csRecord e)
          | Panic => Panic
          | Ok payload =>
              match appendFrame [] payload frameFormatLengthCRC with
              | Fail e => Fail (csRecord e)
              | Panic => Panic
              | Ok frame =>
                  writeCompacted st positions (rowsOut ++ frame) (dataOut ++ blob)
                    (offsets ++ [dataOffset]) (i64 (dataOffset + rec_dataLength record))
              end
          end
      end
  end.

Definition setRowOffset (r : row) (dataOffset : Z) : row :=
  MkRow (row_id r) (row_relativePath r) (row_splitPart r) (row_splitRecorded r) dataOffset
    (row_dataLength r) (row_cells r).

(** The state after the header has been replaced: the files of the next generation. *)
Definition compacted (st : codeCollection) (rowsOut dataOut : bytes) (offsets : list Z) (dataSize : Z)
  : codeCollection :=
  let header := cc_header st in
  MkCollection (MkHeader (h_Scalars header) (h_Dimension header) (h_Model header)
                  (h_Generation header + 1) frameFormatLengthCRC)
    (cc_columnIndex st) (cc_dictionaries st) (zip_with setRowOffset (cc_rows st) offsets)
    (cc_codes st) (cc_byID st) rowsOut dataOut dataSize (zlen rowsOut) 0.

Definition compact (io : compactIO) : M unit := fun st =>
  if negb (ci_createRows io) || negb (ci_createData io) then (st, Fail csIO) else
  match writeCompacted st (seq 0 (length (cc_rows st))) [] [] [] 0 with
  | Fail e => (st, Fail e)
  | Panic => (st, Panic)
  | Ok (rowsOut, dataOut, offsets, dataSize) =>
      if negb (ci_flush io) || negb (ci_stat io) || negb (ci_replaceHeader io) then (st, Fail csIO)
      else
      (compacted st rowsOut dataOut offsets dataSize,
       if ci_identity io && ci_syncDirectory io && ci_removePrevious io then Ok tt else Fail csIO)
  end.

(** ** Writing *)

(** The first loop of [write]: data offsets for the records that carry a blob. *)
Fixpoint assignOffsets (dataSize : Z) (dataBuffer : bytes) (records : list rowRecord)
    (blobs : list (option bytes)) : outcome csError (list rowRecord * bytes) :=
  match records with
  | [] => Ok ([], dataBuffer)
  | record :: records =>
      if negb (rec_kind record =? recordUpsert) then
        '(rest, dataBuffer) ← assignOffsets dataSize dataBuffer records (tail blobs);
        Ok (record :: rest, dataBuffer)
      else
      match blobs with
      | [] => Panic
      | None :: blobs =>
          '(rest, dataBuffer) ← assignOffsets dataSize dataBuffer records blobs;
          Ok (record :: rest, dataBuffer)
      | Some blob :: blobs =>
          let record := setOffset record (i64 (dataSize + zlen dataBuffer)) (zlen blob) in
          '(rest, dataBuffer) ← assignOffsets dataSize (dataBuffer ++ blob) records blobs;
          Ok (record :: rest, dataBuffer)
      end
  end.

(** The second loop: all frames of the batch. *)
Fixpoint frameAll (columns : list ScalarColumn) (format : Z) (rowBuffer : bytes)
    (records : list rowRecord) : outcome recError bytes :=
  match records with
  | [] => Ok rowBuffer
  | record :: records =>
      payload ← encodeRecord record columns;
      rowBuffer ← appendFrame rowBuffer payload format;
      frameAll columns format rowBuffer records
  end.

(** The data part of [write]. *)
Definition writeData (io : writeIO) (dataBuffer : bytes) : M unit := fun st =>
  if zlen dataBuffer <=? 0 then (st, Ok tt) else
  let written n := setFiles st (cc_rowsFile st) (writeAt (cc_dataFile st) (cc_dataSize st) (take n dataBuffer))
                     (cc_dataSize st) (cc_logSize st) in
  match io_dataWrite io with
  | Some n => (written n, Fail csIO)
  | None =>
      let st' := written (length dataBuffer) in
      if negb (io_dataSync io) then (st', Fail csIO) else
      (setFiles st' (cc_rowsFile st') (cc_dataFile st') (cc_dataSize st' + zlen dataBuffer) (cc_logSize st'),
       Ok tt)
  end.

(** The row-log part of [write]. *)
Definition writeRows (io : writeIO) (rowBuffer : bytes) : M unit := fun st =>
  if negb (io_seek io) then (st, Fail csIO) else
  let logEnd := cc_rowsFile st in
  let appended n := setFiles st (logEnd ++ take n rowBuffer) (cc_dataFile st) (cc_dataSize st) (cc_logSize st) in
  let rolledBack n := if io_truncate io
    then setFiles st logEnd (cc_dataFile st) (cc_dataSize st) (cc_logSize st) else appended n in
  match io_rowsWrite io with
  | Some n => (rolledBack n, Fail csIO)
  | None =>
      if negb (io_rowsSync io) then (rolledBack (length rowBuffer), Fail csIO) else
      (setFiles st (logEnd ++ rowBuffer) (cc_dataFile st) (cc_dataSize st) (zlen logEnd + zlen rowBuffer),
       Ok tt)
  end.

Definition compactMinimumDead : Z := 10000.

(** The compaction trigger at the end of [write]; its error is dropped. *)
Definition maybeCompact (io : compactIO) : M unit := fun st =>
  if (compactMinimumDead <? cc_dead st) && (zlen (cc_rows st) <? cc_dead st) then
    match compact io st with
    | (st', Panic) => (st', Panic)
    | (st', _) => (st', Ok tt)
    end
  else (st, Ok tt).

Definition write (io : writeIO) (records : list rowRecord) (blobs : list (option bytes)) : M unit :=
  fun st =>
  match assignOffsets (cc_dataSize st) [] records blobs with
  | Fail e => (st, Fail e)
  | Panic => (st, Panic)
  | Ok (records, dataBuffer) =>
      (rowBuffer ← liftRec (frameAll (h_Scalars (cc_header st)) (h_FrameFormat (cc_header st)) [] records);
       _ ← writeData io dataBuffer;
       _ ← writeRows io rowBuffer;
       _ ← applyAll records;
       maybeCompact (io_compact io)) st
  end.

(** ** Reading blobs *)

Definition readBlob (st : codeCollection) (position : nat) : outcome csError (bytes * bytes) :=
  match cc_rows st !! position with
  | None => Panic
  | Some current =>
      if row_dataLength current <? 0 then Panic else
      match readAt (cc_dataFile st) (row_dataOffset current) (row_dataLength current) with
      | None => Fail csIO
      | Some blob =>
          match decodeBlob blob with
          | Ok result => Ok result
          | Fail e => Fail (csRecord e)
          | Panic => Panic
          end
      end
  end.

(** The stored bytes of the blob of a record, as the data file holds them. *)
Definition blobOf (st : codeCollection) (r : rowRecord) : option bytes :=
  readAt (cc_dataFile st) (rec_dataOffset r) (rec_dataLength r).
