(* ===== verification/CsDurable.v ===== *)
(** * CsDurable: writes and compactions keep the stored rows

    The abstract content of a collection maps an id to its record (without the
    data offset) and to the bytes of its blob.  A successful [write] has exactly the
    effect of the batch on that map, whether or not it compacts; a failed append
    changes nothing; compaction changes nothing; and loading the files again gives
    the same map. *)

From S2P Require Import Prelude GoBinary CsRecord CsCollection CsIndex CsLog CsWrite.

Open Scope Z_scope.

#[local] Opaque ChecksumIEEE leBytes.

(** ** The stored map *)

(** The part of a record that does not depend on where its data lies. *)
Definition eraseOffset (r : rowRecord) : rowRecord := setOffset r 0 (rec_dataLength r).

Definition blobIn (dataFile : bytes) (r : rowRecord) : option bytes :=
  readAt dataFile (rec_dataOffset r) (rec_dataLength r).

Definition storedIn (dataFile : bytes) (r : rowRecord) : rowRecord * option bytes :=
  (eraseOffset r, blobIn dataFile r).

Definition stored (st : codeCollection) (id : bytes) : option (rowRecord * option bytes) :=
  storedIn (cc_dataFile st) <$> view st id.

(** The data of an upserted record lies within the first [dataSize] bytes. *)
Definition inData (dataSize : Z) (r : rowRecord) : Prop :=
  rec_kind r = recordUpsert -> rec_dataOffset r + rec_dataLength r <= dataSize.

(** A collection whose files hold its state: the log is the frames of [recs], every
    record's data lies in the data file, and the index is what the log says. *)
Record durable (recs : list rowRecord) (st : codeCollection) : Prop := {
  du_stores : storesLog (cc_header st) recs st;
  du_loggable : Forall (loggable (h_Scalars (cc_header st)) (cc_dataSize st)) recs;
  du_range : Forall (inData (cc_dataSize st)) recs;
  du_data : 0 <= cc_dataSize st <= zlen (cc_dataFile st);
}.

(** ** Normal forms of cells *)

Lemma elem_normCells columns f c :
  c ∈ normCells columns f <-> (cell_column c < columns)%nat /\ f (cell_column c) = Some (cell_value c).
Proof.
  unfold normCells. rewrite list_elem_of_omap. setoid_rewrite elem_of_seq. split.
  - intros (i & Hi & H). destruct (f i) eqn:E; [|done]. cbn in H. simplify_eq. cbn. split; [lia|done].
  - intros [Hl Hf]. exists (cell_column c). split; [lia|]. rewrite Hf. by destruct c.
Qed.

Lemma length_normCells columns f : (length (normCells columns f) <= columns)%nat.
Proof.
  assert (forall l, length (omap (fun column => MkCell column <$> f column) l) <= length l)%nat as H.
  { induction l as [|i l IH]; cbn; [lia|]. destruct (f i); cbn; lia. }
  specialize (H (seq 0 columns)). by rewrite length_seq in H.
Qed.

Lemma lastCell_elem cells column v : lastCell cells column = Some v -> MkCell column v ∈ cells.
Proof.
  induction cells as [|c cells IH]; cbn; [done|]. destruct (lastCell cells column) as [w|].
  - intros [= ->]. right. by apply IH.
  - destruct (Nat.eqb_spec (cell_column c) column); [|done]. intros [= <-]. subst. destruct c. left.
Qed.

Lemma lastCell_None cells column : lastCell cells column = None <-> forall c, c ∈ cells -> cell_column c <> column.
Proof.
  induction cells as [|c cells IH]; cbn; [split; [intros _ c H; by apply elem_of_nil in H|done]|].
  setoid_rewrite elem_of_cons. destruct (lastCell cells column) as [w|] eqn:E.
  - split; [done|]. intros H. apply lastCell_elem in E. by destruct (H _ (or_intror E)).
  - destruct (Nat.eqb_spec (cell_column c) column); split; try done; intros H.
    + by destruct (H c (or_introl eq_refl)).
    + intros d [->|Hd]; [done|]. by apply (proj1 IH).
Qed.

Lemma lastCell_normCells columns f column :
  lastCell (normCells columns f) column = if (column <? columns)%nat then f column else None.
Proof.
  destruct (lastCell (normCells columns f) column) as [v|] eqn:E.
  - apply lastCell_elem, elem_normCells in E as [Hl Hf]. cbn in Hl, Hf. by rewrite (proj2 (Nat.ltb_lt _ _) Hl).
  - destruct (Nat.ltb_spec column columns); [|done]. destruct (f column) as [v|] eqn:Hf; [|done].
    rewrite lastCell_None in E. destruct (E (MkCell column v)); [|done]. by apply elem_normCells.
Qed.

Lemma normCells_idem columns f : normCells columns (lastCell (normCells columns f)) = normCells columns f.
Proof.
  apply list_omap_ext, Forall2_same_length_lookup_2; [done|]. intros i x y Hx Hy. simplify_eq.
  apply lookup_seq in Hx as [-> Hi]. rewrite lastCell_normCells. by rewrite (proj2 (Nat.ltb_lt _ _)) by lia.
Qed.

Lemma normRecord_idem columns r : normRecord columns (normRecord columns r) = normRecord columns r.
Proof. unfold normRecord. cbn. by rewrite normCells_idem. Qed.

Lemma normRecord_setOffset columns r o l :
  normRecord columns (setOffset r o l) = setOffset (normRecord columns r) o l.
Proof. done. Qed.

Lemma normCells_nil columns : normCells columns (lastCell []) = [].
Proof. unfold normCells. induction (seq 0 columns); cbn; done. Qed.

Lemma normRecord_wf columns r : recordWf columns r -> recordWf columns (normRecord (length columns) r).
Proof.
  intros [Hid Hcols Hk]. split; [done|done|]. destruct Hk as [Hk|Hk]; [left|right].
  - rewrite Hk. unfold normRecord, emptyRecord. cbn. by rewrite normCells_nil.
  - destruct Hk as (? & ? & ? & ? & ? & ? & ? & ? & Hcells). cbn.
    split_and!; try done || tauto; try lia.
    + apply length_normCells.
    + apply Forall_forall. intros c Hc. apply elem_normCells in Hc as [_ Hc]. apply lastCell_elem in Hc.
      rewrite Forall_forall in Hcells. apply Hcells. by destruct c.
Qed.

Lemma setOffset_wf columns r o l :
  recordWf columns r -> rec_kind r = recordUpsert -> 0 <= o <= maxInt64 -> 0 <= l <= maxInt64 ->
  recordWf columns (setOffset r o l).
Proof.
  intros [Hid Hcols Hk] Hup Ho Hl. split; [done|done|]. right. destruct Hk as [Hk|Hk].
  - rewrite Hk in Hup. done.
  - cbn. tauto.
Qed.

Lemma upsert_ranges columns r :
  recordWf columns r -> rec_kind r = recordUpsert ->
  0 <= rec_dataOffset r <= maxInt64 /\ 0 <= rec_dataLength r <= maxInt64.
Proof. intros [_ _ [Hk|Hk]] Hup; [rewrite Hk in Hup; done|tauto]. Qed.

(** ** What a log says about an id *)

(** Every record in the view of a log is the normal form of an upsert of the log. *)
Lemma replayView_origin columns recs : forall f j r,
  replayView columns recs f j = Some r ->
  f j = Some r \/ exists r0, r0 ∈ recs /\ rec_kind r0 <> recordDelete /\ rec_id r0 = j /\ r = normRecord columns r0.
Proof.
  induction recs as [|r0 recs IH]; intros f j r H; [by left|].
  cbn in H. apply IH in H as [H|(r1 & ? & ? & ? & ?)].
  - unfold applyView in H. case_decide as Hj; [|by left].
    destruct (Z.eqb_spec (rec_kind r0) recordDelete); [done|]. simplify_eq. right. exists r0.
    split_and!; [left|done|done|done].
  - right. exists r1. split_and!; [by right|done|done|done].
Qed.

Lemma replayView_app columns recs recs' f :
  replayView columns (recs ++ recs') f = replayView columns recs' (replayView columns recs f).
Proof. unfold replayView. apply foldl_app. Qed.

Lemma wf_upsert columns r : recordWf columns r -> rec_kind r <> recordDelete -> rec_kind r = recordUpsert.
Proof. intros [_ _ [Hk|Hk]] Hd; [rewrite Hk in Hd; done|tauto]. Qed.

(** In a durable collection every viewed record is well formed, in normal form, and
    its data is inside the data file. *)
Lemma durable_view recs st j r :
  durable recs st -> view st j = Some r ->
  recordWf (h_Scalars (cc_header st)) r /\ rec_kind r = recordUpsert /\ rec_id r = j /\
  rec_dataOffset r + rec_dataLength r <= cc_dataSize st /\
  normRecord (length (h_Scalars (cc_header st))) r = r.
Proof.
  intros [(Hi & _ & _ & _ & Hv) Hl Hr Hd] Hj. rewrite Hv in Hj.
  apply replayView_origin in Hj as [Hj|(r0 & Hin & Hk & <- & ->)]; [done|].
  rewrite Forall_forall in Hl, Hr. specialize (Hl _ Hin). specialize (Hr _ Hin). destruct Hl as [Hwf _ _].
  pose proof (wf_upsert _ _ Hwf Hk). split_and!; [by apply normRecord_wf|done|done|by apply Hr|apply normRecord_idem].
Qed.

(** ** The live records of an index *)

Definition live (st : codeCollection) : list rowRecord :=
  zip_with (recordOfRow (cc_dictionaries st) (length (h_Scalars (cc_header st))))
    (cc_rows st) (cc_codes st).

Lemma live_lookup st i r :
  live st !! i = Some r <-> exists x c, cc_rows st !! i = Some x /\ cc_codes st !! i = Some c /\
    r = recordOfRow (cc_dictionaries st) (length (h_Scalars (cc_header st))) x c.
Proof.
  unfold live. rewrite lookup_zip_with_Some. split; [intros (x & c & ? & ? & ?)|intros (x & c & ? & ? & ?)]; eauto.
Qed.

Lemma live_recordOf st i r : indexInv st -> live st !! i = Some r -> recordOf st i = Ok r.
Proof. intros Hi (x & c & Hx & Hc & ->)%live_lookup. by apply recordOf_row. Qed.

Lemma live_length st : indexInv st -> length (live st) = length (cc_rows st).
Proof. intros Hi. unfold live. rewrite length_zip_with, (ii_codes _ Hi). lia. Qed.

Lemma view_live st j r : indexInv st -> view st j = Some r <-> exists i, live st !! i = Some r /\ rec_id r = j.
Proof.
  intros Hi. split.
  - intros H. destruct (byID_cases st j Hi) as [(i & x & c & Hb & Hx & Hc & Hid)|Hn];
      [|rewrite (view_none _ _ Hi Hn) in H; done].
    rewrite (view_row _ _ _ _ _ Hi Hx Hid Hc) in H. simplify_eq. exists i. rewrite live_lookup. eauto 10.
  - intros (i & (x & c & Hx & Hc & ->)%live_lookup & <-). by eapply view_row.
Qed.

Lemma live_ids st i j r r' :
  indexInv st -> live st !! i = Some r -> live st !! j = Some r' -> rec_id r = rec_id r' -> i = j.
Proof.
  intros Hi (x & c & Hx & Hc & ->)%live_lookup (y & d & Hy & Hd & ->)%live_lookup E.
  by apply (row_id_inj st i j x y).
Qed.

(** A log of normal upserts with distinct ids describes exactly these records. *)
Lemma replayView_distinct columns recs : forall f,
  (forall i j r r', recs !! i = Some r -> recs !! j = Some r' -> rec_id r = rec_id r' -> i = j) ->
  Forall (fun r => rec_kind r = recordUpsert /\ normRecord columns r = r) recs ->
  forall j r, replayView columns recs f j = Some r <->
    (exists i, recs !! i = Some r /\ rec_id r = j) \/
    (f j = Some r /\ forall i r', recs !! i = Some r' -> rec_id r' <> j).
Proof.
  induction recs as [|r0 recs IH]; intros f Hd Hn j r.
  - cbn. split; [intros H; right; by split|]. intros [(i & H & _)|[H _]]; [by rewrite lookup_nil in H|done].
  - apply Forall_cons in Hn as [[Hk Hn0] Hn]. cbn [replayView foldl].
    change (foldl _ _ recs) with (replayView columns recs (applyView columns r0 f)).
    rewrite IH by (try done; intros i k x y Hx Hy E; specialize (Hd (S i) (S k) x y Hx Hy E); lia).
    unfold applyView. rewrite Hk, Hn0. change (recordUpsert =? recordDelete) with false. cbv iota.
    assert (forall i r', recs !! i = Some r' -> rec_id r' <> rec_id r0) as Hne.
    { intros i r' Hr' E. specialize (Hd (S i) 0%nat r' r0 Hr' eq_refl E). lia. }
    split.
    + intros [(i & Hi & <-)|[H Hno]]; [left; by exists (S i)|]. case_decide as Hj.
      * simplify_eq. left. by exists 0%nat.
      * right. split; [done|]. intros [|i] r' Hr'; cbn in Hr'; simplify_eq; [congruence|by eapply Hno].
    + intros [([|i] & Hi & <-)|[H Hno]]; cbn in *.
      * simplify_eq. right. rewrite decide_True by done. split; [done|]. exact Hne.
      * left. by exists i.
      * right. rewrite decide_False; [|intros ->; by apply (Hno 0%nat r0)]. split; [done|].
        intros i r' Hr'. by apply (Hno (S i) r').
Qed.

(** ** Data files *)

Lemma readAt_Some file off len :
  0 <= off -> 0 <= len -> off + len <= zlen file -> readAt file off len = Some (slice file off (off + len)).
Proof.
  intros Ho Hl H. unfold readAt. rewrite (proj2 (Z.ltb_ge off 0)) by done.
  rewrite (proj2 (Z.ltb_ge (zlen file) (off + len))) by done. by rewrite andb_false_r.
Qed.

Lemma readAt_app file more off len :
  0 <= off -> 0 <= len -> off + len <= zlen file -> readAt (file ++ more) off len = readAt file off len.
Proof.
  intros Ho Hl H. pose proof (zlen_nonneg more). rewrite !readAt_Some by (rewrite ?zlen_app; lia). f_equal.
  unfold slice. apply list_eq. intros i. unfold zlen in H.
  destruct (decide (i < Z.to_nat (off + len - off))%nat).
  - rewrite !lookup_take_lt, !lookup_drop by done. apply lookup_app_l. lia.
  - by rewrite !lookup_take_ge by lia.
Qed.

Lemma readAt_tail file blob more :
  readAt (file ++ blob ++ more) (zlen file) (zlen blob) = Some blob.
Proof.
  pose proof (zlen_nonneg file). pose proof (zlen_nonneg blob). pose proof (zlen_nonneg more).
  rewrite readAt_Some by (rewrite ?zlen_app; lia). f_equal. by apply slice_mid.
Qed.

Lemma readAt_length file off len blob : 0 <= len -> readAt file off len = Some blob -> zlen blob = len.
Proof.
  intros Hl. unfold readAt. destruct (_ || _) eqn:E; [done|]. intros [= <-]. reflect_bools.
  apply andb_false_iff in H0 as [H0|H0]; reflect_bools.
  - assert (len = 0) as -> by lia. unfold slice, zlen. rewrite length_take. lia.
  - rewrite slice_length; lia.
Qed.

(** [WriteAt] at an offset inside the file keeps what is before it. *)
Lemma writeAt_split file off buf :
  0 <= off <= zlen file -> exists after, writeAt file off buf = take (Z.to_nat off) file ++ buf ++ after.
Proof.
  unfold writeAt, zlen. intros H. replace (Z.to_nat off - length file)%nat with 0%nat by lia.
  cbn [replicate]. rewrite app_nil_r. by eexists.
Qed.

Lemma readAt_writeAt file off buf o l :
  0 <= off <= zlen file -> 0 <= o -> 0 <= l -> o + l <= off ->
  readAt (writeAt file off buf) o l = readAt file o l.
Proof.
  intros H Ho Hl Hin. destruct (writeAt_split file off buf H) as (after & ->).
  assert (zlen (take (Z.to_nat off) file) = off) as Hlen by (unfold zlen in *; rewrite length_take; lia).
  rewrite readAt_app by lia. rewrite <- (take_drop (Z.to_nat off) file) at 2. rewrite readAt_app by lia. done.
Qed.

(** ** Compaction *)

(** [m] is the record [r] moved to an offset of [dataOut] where its bytes lie again. *)
Definition movedTo (st : codeCollection) (dataOut : bytes) (r m : rowRecord) : Prop :=
  exists o, m = setOffset r o (rec_dataLength r) /\ 0 <= o /\ o + rec_dataLength r <= zlen dataOut /\
    readAt dataOut o (rec_dataLength r) = blobIn (cc_dataFile st) r.

Lemma movedTo_app st dataOut more r m :
  0 <= rec_dataLength r -> movedTo st dataOut r m -> movedTo st (dataOut ++ more) r m.
Proof.
  intros Hl (o & -> & Ho & Hin & Hr). exists o. split_and!; [done|done| |by rewrite readAt_app].
  rewrite zlen_app. pose proof (zlen_nonneg more). lia.
Qed.

Definition dataTotal (rs : list rowRecord) : Z := foldr (fun r n => rec_dataLength r + n) 0 rs.

Lemma dataTotal_nonneg rs : Forall (fun r => 0 <= rec_dataLength r) rs -> 0 <= dataTotal rs.
Proof. unfold dataTotal. induction 1 as [|r rs Hr _ IH]; cbn in *; lia. Qed.

Lemma appendFrame_nil payload format frame :
  appendFrame [] payload format = Ok frame ->
  zlen payload <= 2 ^ 32 - 1 /\ frame = frameBytes format payload.
Proof.
  intros H. destruct (Z.leb_spec (zlen payload) (2 ^ 32 - 1)).
  - rewrite appendFrame_frameBytes in H by done. by simplify_eq.
  - unfold appendFrame in H. rewrite (proj2 (Z.ltb_lt _ _)) in H by lia. done.
Qed.

Lemma writeCompacted_spec st rs : forall positions rowsOut dataOut offsets rowsOut' dataOut' offsets' dataSize,
  Forall2 (fun p r => recordOf st p = Ok r) positions rs ->
  Forall (fun r => 0 <= rec_dataLength r) rs -> zlen dataOut + dataTotal rs <= maxInt64 ->
  writeCompacted st positions rowsOut dataOut offsets (zlen dataOut) = Ok (rowsOut', dataOut', offsets', dataSize) ->
  exists moved more, rowsOut' = rowsOut ++ logOf (h_Scalars (cc_header st)) frameFormatLengthCRC moved /\
    offsets' = offsets ++ map rec_dataOffset moved /\ dataOut' = dataOut ++ more /\
    dataSize = zlen dataOut' /\ zlen dataOut' = zlen dataOut + dataTotal rs /\
    Forall2 (movedTo st dataOut') rs moved /\
    Forall (fun m => zlen (recordPayload (h_Scalars (cc_header st)) m) <= 2 ^ 32 - 1) moved.
Proof.
  induction rs as [|r rs IH]; intros positions rowsOut dataOut offsets rowsOut' dataOut' offsets' dataSize H2 Hl Hm H.
  - inversion H2; subst. cbn in H. simplify_eq. exists [], []. rewrite !app_nil_r. cbn. split_and!; try done. lia.
  - inversion H2 as [|p ? ps ? Hp Hps]; subst. apply Forall_cons in Hl as [Hlr Hl]. cbn [writeCompacted] in H.
    rewrite Hp in H. cbn in H. rewrite (proj2 (Z.ltb_ge _ 0)) in H by done.
    destruct (readAt (cc_dataFile st) (rec_dataOffset r) (rec_dataLength r)) as [blob|] eqn:Eb; [|done].
    set (m := setOffset r (zlen dataOut) (rec_dataLength r)) in *.
    destruct (encodeRecord m (h_Scalars (cc_header st))) as [payload|e|] eqn:Ee; [|done|done].
    destruct (appendFrame [] payload frameFormatLengthCRC) as [frame|e|] eqn:Ef; [|done|done].
    apply appendFrame_nil in Ef as [Hpl ->].
    pose proof (readAt_length _ _ _ _ Hlr Eb) as Hbl. pose proof (dataTotal_nonneg _ Hl).
    pose proof (zlen_nonneg dataOut). cbn [dataTotal foldr] in Hm. fold (dataTotal rs) in Hm.
    rewrite i64_small in H by (unfold minInt64; lia).
    replace (zlen dataOut + rec_dataLength r) with (zlen (dataOut ++ blob)) in H by (rewrite zlen_app, Hbl; lia).
    apply IH in H as (moved & more & -> & -> & -> & Hsz & Hz & Hmv & Hfr);
      [|done|done|rewrite zlen_app; lia].
    assert (recordPayload (h_Scalars (cc_header st)) m = payload) as Hpay by (unfold recordPayload; by rewrite Ee).
    exists (m :: moved), (blob ++ more). split_and!.
    + rewrite logOf_cons. unfold recordFrame. by rewrite Hpay, <- app_assoc.
    + by rewrite <- app_assoc.
    + by rewrite <- app_assoc.
    + done.
    + cbn [dataTotal foldr]. fold (dataTotal rs). rewrite Hz, zlen_app. lia.
    + constructor; [|done]. exists (zlen dataOut). split_and!; [done|done|rewrite !zlen_app; pose proof (zlen_nonneg more); lia|].
      rewrite <- app_assoc, <- Hbl, readAt_tail. unfold blobIn. by rewrite Eb.
    + constructor; [by rewrite Hpay|done].
Qed.

(** Under the invariant the loop never panics. *)
Lemma writeCompacted_no_panic st rs : forall positions rowsOut dataOut offsets dataOffset,
  Forall2 (fun p r => recordOf st p = Ok r) positions rs ->
  Forall (fun r => 0 <= rec_dataLength r) rs ->
  Forall (fun r => forall o, 0 <= o <= maxInt64 -> exists payload,
    encodeRecord (setOffset r o (rec_dataLength r)) (h_Scalars (cc_header st)) = Ok payload) rs ->
  0 <= dataOffset -> dataOffset + dataTotal rs <= maxInt64 ->
  writeCompacted st positions rowsOut dataOut offsets dataOffset <> Panic.
Proof.
  induction rs as [|r rs IH]; intros positions rowsOut dataOut offsets dataOffset H2 Hl He H0 Hm.
  - inversion H2; subst. done.
  - inversion H2 as [|p ? ps ? Hp Hps]; subst. apply Forall_cons in Hl as [Hlr Hl], He as [Her He].
    cbn [writeCompacted]. rewrite Hp. cbn. rewrite (proj2 (Z.ltb_ge _ 0)) by done.
    pose proof (dataTotal_nonneg _ Hl). cbn [dataTotal foldr] in Hm. fold (dataTotal rs) in Hm.
    destruct (readAt _ _ _); [|done]. destruct (Her dataOffset) as (payload & ->); [lia|].
    rewrite i64_small by (unfold minInt64; lia).
    unfold appendFrame. repeat case_match; try done; apply IH; try done; lia.
Qed.

Lemma live_positions st :
  indexInv st -> Forall2 (fun p r => recordOf st p = Ok r) (seq 0 (length (cc_rows st))) (live st).
Proof.
  intros Hi. apply Forall2_same_length_lookup_2; [by rewrite length_seq, live_length|].
  intros i p r Hp Hr. apply lookup_seq in Hp as [-> _]. by apply live_recordOf.
Qed.

Lemma live_compacted st rowsOut dataOut dataSize moved :
  Forall2 (movedTo st dataOut) (live st) moved ->
  live (compacted st rowsOut dataOut (map rec_dataOffset moved) dataSize) = moved.
Proof.
  intros H2. unfold compacted, live in *. cbn. revert moved H2.
  generalize (cc_rows st), (cc_codes st).
  induction l as [|x rows IH]; intros [|c codes] moved H2; cbn in *; inversion H2 as [|? m ? ? Hm H2']; subst; cbn.
  1-3: done.
  destruct Hm as (o & -> & _). cbn. rewrite IH by done. done.
Qed.

Lemma compacted_indexInv st rowsOut dataOut offsets dataSize :
  indexInv st -> length offsets = length (cc_rows st) -> indexInv (compacted st rowsOut dataOut offsets dataSize).
Proof.
  intros [Hc Hb Hd Hdi Hr] Hl. constructor; cbn; try done.
  - rewrite length_zip_with. lia.
  - intros id p. rewrite Hb, lookup_zip_with. destruct (cc_rows st !! p) as [x|] eqn:E; [|done].
    destruct (lookup_lt_is_Some_2 offsets p) as [o Ho]; [apply lookup_lt_Some in E; lia|]. by rewrite Ho.
  - apply Forall_lookup. intros p x Hx. apply lookup_zip_with_Some in Hx as (y & o & -> & Hy & _).
    rewrite Forall_lookup in Hr. by apply (Hr p y).
Qed.

(** What a durable collection knows of its live records. *)
Lemma durable_live recs st i r :
  durable recs st -> live st !! i = Some r ->
  recordWf (h_Scalars (cc_header st)) r /\ rec_kind r = recordUpsert /\
  rec_dataOffset r + rec_dataLength r <= cc_dataSize st /\
  normRecord (length (h_Scalars (cc_header st))) r = r.
Proof.
  intros Hd Hr. destruct (durable_view recs st (rec_id r) r Hd) as (? & ? & _ & ? & ?); [|done].
  apply view_live; [apply (du_stores _ _ Hd)|]. eauto.
Qed.

Lemma durable_live_length recs st : durable recs st -> Forall (fun r => 0 <= rec_dataLength r) (live st).
Proof.
  intros Hd. apply Forall_lookup. intros i r Hr. destruct (durable_live _ _ _ _ Hd Hr) as (Hwf & Hup & _).
  destruct (upsert_ranges _ _ Hwf Hup). cbn. lia.
Qed.

(** The files written by [writeCompacted] hold the compacted state. *)
Lemma compacted_durable recs st rowsOut dataOut offsets dataSize :
  durable recs st -> dataTotal (live st) <= maxInt64 ->
  writeCompacted st (seq 0 (length (cc_rows st))) [] [] [] 0 = Ok (rowsOut, dataOut, offsets, dataSize) ->
  let st' := compacted st rowsOut dataOut offsets dataSize in
  durable (live st') st' /\ forall id, stored st' id = stored st id.
Proof.
  intros Hd Ht Hw st'. pose proof Hd as [(Hi & _) _ _ _]. pose proof (durable_live_length _ _ Hd) as Hlen.
  apply (writeCompacted_spec st (live st)) in Hw as (moved & more & -> & -> & -> & -> & Hz & Hmv & Hfr);
    [|by apply live_positions|done|rewrite zlen_nil; lia].
  cbn [app] in *. rewrite zlen_nil, Z.add_0_l in Hz.
  assert (live st' = moved) as Hlive by (by apply live_compacted). rewrite Hlive.
  assert (indexInv st') as Hi'.
  { apply compacted_indexInv; [done|]. rewrite length_map, <- (Forall2_length _ _ _ Hmv). by apply live_length. }
  set (columns := length (h_Scalars (cc_header st))).
  assert (forall i m, moved !! i = Some m -> exists r, live st !! i = Some r /\ movedTo st more r m) as Hback.
  { intros i m Hm. destruct (Forall2_lookup_r _ _ _ _ _ Hmv Hm) as (r & Hr & Hmr). eauto. }
  assert (forall j, view st' j = replayView columns moved (fun _ => None) j) as Hview.
  { intros j. apply option_eq. intros r. rewrite (view_live _ _ _ Hi'), Hlive, replayView_distinct.
    - split; [by left|]. intros [?|[? _]]; done.
    - rewrite <- Hlive. intros. by eapply live_ids.
    - apply Forall_lookup. intros i m Hm. destruct (Hback i m Hm) as (r0 & Hr & o & -> & _).
      destruct (durable_live _ _ _ _ Hd Hr) as (_ & Hup & _ & Hn). split; [done|].
      cbn beta. rewrite normRecord_setOffset. unfold columns. by rewrite Hn. }
  split.
  - assert (forall i m, moved !! i = Some m -> recordWf (h_Scalars (cc_header st)) m /\ inData (zlen more) m) as Hw.
    { intros i m Hm. destruct (Hback i m Hm) as (r0 & Hr & o & -> & Ho & Hin & _).
      destruct (durable_live _ _ _ _ Hd Hr) as (Hwf & Hup & _ & _).
      destruct (upsert_ranges _ _ Hwf Hup). split; [|intros _; done]. apply setOffset_wf; try done. lia. }
    constructor; cbn; [| | |split; [apply zlen_nonneg|done]].
    + split_and!; try done.
    + apply Forall_lookup. intros i m Hm. destruct (Hw i m Hm) as [Hwf Hin]. split; [done| |].
      * rewrite Forall_lookup in Hfr. by eapply Hfr.
      * intros Hup. destruct (upsert_ranges _ _ Hwf Hup). specialize (Hin Hup).
        rewrite i64_small by (unfold minInt64; lia). done.
    + apply Forall_lookup. intros i m Hm. by apply (Hw i m Hm).
  - intros j. unfold stored. destruct (view st j) as [r|] eqn:Hv.
    + apply (view_live _ _ _ Hi) in Hv as (i & Hr & <-).
      destruct (Forall2_lookup_l _ _ _ _ _ Hmv Hr) as (m & Hm & o & -> & Ho & Hin & Hblob).
      assert (view st' (rec_id r) = Some (setOffset r o (rec_dataLength r))) as ->.
      { apply (view_live _ _ _ Hi'). exists i. rewrite Hlive. done. }
      cbn. unfold storedIn, blobIn in *. cbn. rewrite Hblob. done.
    + destruct (view st' j) as [m|] eqn:Hv'; [|done]. exfalso.
      apply (view_live _ _ _ Hi') in Hv' as (i & Hm & <-). rewrite Hlive in Hm.
      destruct (Hback i m Hm) as (r0 & Hr & o & -> & _). cbn in Hv.
      assert (view st (rec_id r0) = Some r0); [|congruence]. apply (view_live _ _ _ Hi). eauto.
Qed.

Lemma live_encodes recs st :
  durable recs st ->
  Forall (fun r => forall o, 0 <= o <= maxInt64 -> exists payload,
    encodeRecord (setOffset r o (rec_dataLength r)) (h_Scalars (cc_header st)) = Ok payload) (live st).
Proof.
  intros Hd. apply Forall_lookup. intros i r Hr o Ho.
  destruct (durable_live _ _ _ _ Hd Hr) as (Hwf & Hup & _). destruct (upsert_ranges _ _ Hwf Hup) as [_ Hl].
  destruct (encodeRecord_payload _ _ (setOffset_wf _ r o _ Hwf Hup Ho Hl)) as (He & _ & _). eauto.
Qed.

Lemma compact_spec recs st io st' res :
  durable recs st -> dataTotal (live st) <= maxInt64 -> compact io st = (st', res) ->
  res <> Panic /\ (forall id, stored st' id = stored st id) /\
  ((st' = st /\ res = Fail csIO \/ exists e, st' = st /\ res = Fail e) \/
   (durable (live st') st' /\ cc_dead st' = 0 /\
    h_Generation (cc_header st') = h_Generation (cc_header st) + 1 /\
    h_FrameFormat (cc_header st') = frameFormatLengthCRC)).
Proof.
  intros Hd Ht H. unfold compact in H.
  destruct (negb _ || negb _); [simplify_eq; by eauto 10|].
  destruct (writeCompacted _ _ _ _ _ _) as [[[[rowsOut dataOut] offsets] dataSize]|e|] eqn:Hw.
  - destruct (_ || _ || _); [simplify_eq; by eauto 10|].
    destruct (compacted_durable recs st rowsOut dataOut offsets dataSize Hd Ht Hw) as [Hd' Hs].
    simplify_eq. split; [by destruct (_ && _ && _)|]. split; [done|]. right. done.
  - simplify_eq. eauto 10.
  - exfalso. revert Hw. apply (writeCompacted_no_panic st (live st)).
    + apply live_positions, (du_stores _ _ Hd).
    + by eapply durable_live_length.
    + by eapply live_encodes.
    + lia.
    + lia.
Qed.

(** ** Writing a batch *)

(** Where [assignOffsets] puts the blob of a record in the appended data. *)
Inductive placed (base : Z) (buf : bytes) : rowRecord -> option bytes -> rowRecord -> Prop :=
| placed_other r b : rec_kind r <> recordUpsert -> placed base buf r b r
| placed_keep r : rec_kind r = recordUpsert -> placed base buf r None r
| placed_blob r blob o :
    rec_kind r = recordUpsert -> 0 <= o -> o + zlen blob <= zlen buf ->
    readAt buf o (zlen blob) = Some blob ->
    placed base buf r (Some blob) (setOffset r (base + o) (zlen blob)).

Lemma placed_app base buf more r b r' : placed base buf r b r' -> placed base (buf ++ more) r b r'.
Proof.
  intros [? ? ?|? ?|? blob o Hk Ho Hin Hr].
  - by apply placed_other.
  - by apply placed_keep.
  - apply placed_blob; [done|done|rewrite zlen_app; pose proof (zlen_nonneg more); lia|].
    rewrite readAt_app; [done|done|apply zlen_nonneg|done].
Qed.

Definition blobTotal (blobs : list (option bytes)) : Z :=
  foldr (fun b n => match b with Some blob => zlen blob + n | None => n end) 0 blobs.

Lemma blobTotal_nonneg blobs : 0 <= blobTotal blobs.
Proof.
  unfold blobTotal. induction blobs as [|[b|] blobs IH]; cbn in *; [lia| |lia].
  pose proof (zlen_nonneg b). lia.
Qed.

Lemma assignOffsets_spec base records : forall buf blobs,
  length blobs = length records -> 0 <= base -> base + zlen buf + blobTotal blobs <= maxInt64 ->
  exists records' more, assignOffsets base buf records blobs = Ok (records', buf ++ more) /\
    zlen more <= blobTotal blobs /\ Forall3 (placed base (buf ++ more)) records blobs records'.
Proof.
  induction records as [|r records IH]; intros buf blobs Hl Hb Hm; (destruct blobs as [|b blobs]; [|try done]); try done.
  - exists [], []. rewrite app_nil_r. split; [done|]. split; [done|constructor].
  - pose proof (zlen_nonneg buf). pose proof (blobTotal_nonneg blobs). cbn [assignOffsets tail].
    assert (blobTotal blobs <= blobTotal (b :: blobs)) as Hle.
    { cbn. destruct b as [x|]; [pose proof (zlen_nonneg x)|]; unfold blobTotal in *; lia. }
    destruct (Z.eqb_spec (rec_kind r) recordUpsert) as [Hk|Hk]; cbn [negb].
    + destruct b as [blob|].
      * cbn [blobTotal foldr] in Hm. fold (blobTotal blobs) in Hm. pose proof (zlen_nonneg blob).
        destruct (IH (buf ++ blob) blobs) as (records' & more & -> & Hz & H3); [cbn in Hl; lia|done|rewrite zlen_app; lia|].
        rewrite <- app_assoc in *. eexists _, (blob ++ more). split; [cbn; done|]. split.
        { cbn [blobTotal foldr]. fold (blobTotal blobs). rewrite zlen_app. lia. }
        constructor; [|done]. rewrite i64_small by (unfold minInt64; lia).
        apply placed_blob; [done|done|rewrite !zlen_app; pose proof (zlen_nonneg more); lia|apply readAt_tail].
      * destruct (IH buf blobs) as (records' & more & -> & Hz & H3); [cbn in Hl; lia|done|lia|].
        eexists _, more. split; [cbn; done|]. split; [done|]. constructor; [by apply placed_keep|done].
    + destruct (IH buf blobs) as (records' & more & -> & Hz & H3); [cbn in Hl; lia|done|lia|].
      eexists _, more. split; [cbn; done|]. split; [lia|]. constructor; [by apply placed_other|done].
Qed.

(** The frames of a batch. *)
Lemma frameAll_spec columns format records : forall buf out,
  Forall (recordWf columns) records -> frameAll columns format buf records = Ok out ->
  out = buf ++ logOf columns format records /\
  Forall (fun r => zlen (recordPayload columns r) <= 2 ^ 32 - 1) records.
Proof.
  induction records as [|r records IH]; intros buf out Hwf H; cbn in H.
  - simplify_eq. cbn. by rewrite app_nil_r.
  - apply Forall_cons in Hwf as [Hr Hwf]. destruct (encodeRecord_payload _ _ Hr) as (He & _ & _).
    rewrite He in H. cbn in H. set (payload := recordPayload columns r) in *.
    destruct (Z.leb_spec (zlen payload) (2 ^ 32 - 1)) as [Hle|Hgt].
    + rewrite appendFrame_frameBytes in H by done. cbn in H. apply IH in H as [-> Hf]; [|done].
      rewrite logOf_cons, <- app_assoc. split; [done|by constructor].
    + unfold appendFrame in H. rewrite (proj2 (Z.ltb_lt _ _)) in H by lia. done.
Qed.

Lemma frameAll_ok columns format records : forall buf,
  Forall (recordWf columns) records -> Forall (fun r => zlen (recordPayload columns r) <= 2 ^ 32 - 1) records ->
  frameAll columns format buf records = Ok (buf ++ logOf columns format records).
Proof.
  induction records as [|r records IH]; intros buf Hwf Hf; cbn [frameAll].
  - cbn. by rewrite app_nil_r.
  - apply Forall_cons in Hwf as [Hr Hwf], Hf as [Hp Hf]. destruct (encodeRecord_payload _ _ Hr) as (-> & _ & _).
    unfold mbind, outcome_bind. rewrite appendFrame_frameBytes by done. rewrite IH by done.
    by rewrite logOf_cons, <- app_assoc.
Qed.

(** The abstract effect of a batch of records with their blobs: a nil blob keeps the
    data the record points to. *)
Definition storedRecord (columns : nat) (dataFile : bytes) (r : rowRecord) (b : option bytes)
  : rowRecord * option bytes :=
  match b with
  | Some blob => (eraseOffset (setOffset (normRecord columns r) 0 (zlen blob)), Some blob)
  | None => storedIn dataFile (normRecord columns r)
  end.

Fixpoint batchView (columns : nat) (dataFile : bytes) (records : list rowRecord)
    (blobs : list (option bytes)) (f : bytes -> option (rowRecord * option bytes))
  : bytes -> option (rowRecord * option bytes) :=
  match records, blobs with
  | r :: records, b :: blobs =>
      batchView columns dataFile records blobs
        (fun j => if decide (j = rec_id r)
                  then (if rec_kind r =? recordDelete then None else Some (storedRecord columns dataFile r b))
                  else f j)
  | _, _ => f
  end.

(** A record that [write] may be given: a record without a blob must refer to data
    that is already stored. *)
Definition writable (dataSize : Z) (r : rowRecord) (b : option bytes) : Prop :=
  b = None -> inData dataSize r.

Lemma placed_wf columns base buf r b r' :
  0 <= base -> base + zlen buf <= maxInt64 ->
  recordWf columns r -> placed base buf r b r' -> recordWf columns r'.
Proof.
  intros Hb Hm Hwf Hp. destruct Hp as [? ? ?|? ?|? blob o Hk Ho Hin Hr]; [done|done|]. pose proof (zlen_nonneg blob).
  apply setOffset_wf; [done|done|lia|lia].
Qed.

Lemma placed_inData base buf r b r' :
  writable base r b -> placed base buf r b r' -> inData (base + zlen buf) r'.
Proof.
  intros Hw Hp. destruct Hp as [? ? ?|r0 Hk|? blob o Hk Ho Hin Hr]; intros Hk'; [done| |cbn; lia].
  specialize (Hw eq_refl Hk). pose proof (zlen_nonneg buf). lia.
Qed.

(** Reading a placed record from the data file the batch has been written to. *)
Lemma placed_stored columns dataFile base buf r b r' :
  0 <= base <= zlen dataFile -> recordWf columns r -> rec_kind r <> recordDelete ->
  writable base r b -> placed base buf r b r' ->
  storedIn (writeAt dataFile base buf) (normRecord (length columns) r')
  = storedRecord (length columns) dataFile r b.
Proof.
  intros Hb Hwf Hk Hw Hp. pose proof (wf_upsert _ _ Hwf Hk) as Hup.
  destruct (upsert_ranges _ _ Hwf Hup). destruct Hp as [? ? ?|r0 _|r0 blob o _ Ho Hin Hr]; [done| |].
  - unfold storedIn, blobIn. cbn. rewrite readAt_writeAt; [done|lia|lia|lia|]. by apply Hw.
  - cbn. unfold storedIn, eraseOffset, blobIn. cbn. f_equal.
    destruct (writeAt_split dataFile base buf Hb) as (after & ->).
    assert (zlen (take (Z.to_nat base) dataFile) = base) as Hlen.
    { unfold zlen in *. rewrite length_take. lia. }
    pose proof (zlen_nonneg blob). pose proof (zlen_nonneg after). rewrite readAt_Some in Hr by lia.
    rewrite readAt_Some by (rewrite ?zlen_app, ?Hlen; lia). rewrite slice_app_skip by lia. rewrite Hlen.
    replace (base + o - base) with o by lia. replace (base + o + zlen blob - base) with (o + zlen blob) by lia.
    rewrite <- Hr, <- (readAt_Some buf), <- (readAt_Some (buf ++ after)) by (rewrite ?zlen_app; lia).
    by rewrite readAt_app by lia.
Qed.

Lemma batchView_ext columns dataFile records : forall blobs f g,
  (forall j, f j = g j) -> forall j, batchView columns dataFile records blobs f j = batchView columns dataFile records blobs g j.
Proof.
  induction records as [|r records IH]; intros [|b blobs] f g H j; try apply H.
  cbn [batchView]. apply IH. intros k. case_decide; [done|apply H].
Qed.

Lemma replayView_batch columns dataFile base buf records blobs records' :
  0 <= base <= zlen dataFile -> Forall3 (placed base buf) records blobs records' ->
  Forall (recordWf columns) records -> Forall2 (writable base) records blobs ->
  forall g j, storedIn (writeAt dataFile base buf) <$> replayView (length columns) records' g j
  = batchView (length columns) dataFile records blobs (fun j => storedIn (writeAt dataFile base buf) <$> g j) j.
Proof.
  intros Hb H3. induction H3 as [|r b r' records blobs records' Hp H3 IH]; intros Hwf Hw g j; [done|].
  apply Forall_cons in Hwf as [Hr Hwf]. inversion Hw as [|? ? ? ? Hw0 Hw1]; subst. cbn [batchView].
  change (replayView (length columns) (r' :: records') g) with
    (replayView (length columns) records' (applyView (length columns) r' g)).
  rewrite IH by done. apply batchView_ext. intros k. unfold applyView.
  assert (rec_id r' = rec_id r /\ rec_kind r' = rec_kind r) as [-> ->] by (by destruct Hp).
  case_decide; [|done]. destruct (Z.eqb_spec (rec_kind r) recordDelete); [done|]. cbn. f_equal.
  by apply placed_stored.
Qed.

(** A batch of well-formed records that [applyAll] accepts. *)
Lemma applyAll_ok records : forall st st',
  indexInv st -> Forall (recordWf (h_Scalars (cc_header st))) records ->
  applyAll records st = (st', Ok tt) ->
  indexInv st' /\ sameFiles st st' /\ (length (cc_rows st') <= length (cc_rows st) + length records)%nat /\
  forall j, view st' j = replayView (length (h_Scalars (cc_header st))) records (view st) j.
Proof.
  induction records as [|r records IH]; intros st st' Hi Hwf H.
  - injection H as <-. split_and!; try done. lia.
  - apply Forall_cons in Hwf as [Hr Hwf]. cbn [applyAll] in H. unfold mbind, M_bind in H.
    assert (length (cc_rows (apply r st).1) <= S (length (cc_rows st)))%nat as Hlen.
    { unfold apply, remove. repeat (case_match; simplify_eq/=); rewrite ?length_app, ?length_insert, ?length_take; cbn;
        rewrite ?length_insert; lia. }
    destruct (apply_spec st r Hi Hr) as (st1 & res & Ha & Hi1 & [Hh1 Hf1] & Hcase). rewrite Ha in H, Hlen.
    destruct Hcase as [[-> Hv]|[-> _]]; [|done].
    apply IH in H as (Hi2 & [Hh2 Hf2] & Hl2 & Hv2); [|done|by rewrite Hh1].
    split; [done|]. split; [split; congruence|]. cbn in Hlen |- *. split; [lia|].
    intros j. rewrite Hv2, Hh1. by apply replayView_ext.
Qed.

Lemma zlen_writeAt file off buf : 0 <= off <= zlen file -> off + zlen buf <= zlen (writeAt file off buf).
Proof.
  intros H. destruct (writeAt_split file off buf H) as (after & ->). rewrite !zlen_app.
  assert (zlen (take (Z.to_nat off) file) = off) as -> by (unfold zlen in *; rewrite length_take; lia).
  pose proof (zlen_nonneg after). lia.
Qed.

Lemma writeAt_nil file off : 0 <= off <= zlen file -> writeAt file off [] = file.
Proof.
  unfold writeAt, zlen. intros H. replace (Z.to_nat off - length file)%nat with 0%nat by lia.
  cbn [replicate length app]. rewrite app_nil_r, Nat.add_0_r. apply take_drop.
Qed.

Lemma loggable_mono columns n m r : n <= m -> loggable columns n r -> loggable columns m r.
Proof. intros H [? ? Hd]. split; [done|done|]. intros Hk. specialize (Hd Hk). lia. Qed.

Lemma inData_mono n m r : n <= m -> inData n r -> inData m r.
Proof. intros H Hd Hk. specialize (Hd Hk). lia. Qed.

(** Bytes written past the recorded data size disturb nothing. *)
Lemma stored_writeAt recs st buf logSize rowsFile dataSize :
  durable recs st ->
  forall id, stored (setFiles st rowsFile (writeAt (cc_dataFile st) (cc_dataSize st) buf) dataSize logSize) id
  = stored st id.
Proof.
  intros Hd id. pose proof (du_data _ _ Hd). unfold stored. change (view (setFiles st _ _ _ _) id) with (view st id).
  destruct (view st id) as [r|] eqn:Hv; [|done]. cbn. f_equal. unfold storedIn, blobIn. f_equal.
  destruct (durable_view _ _ _ _ Hd Hv) as (Hwf & Hup & _ & Hin & _). destruct (upsert_ranges _ _ Hwf Hup).
  apply readAt_writeAt; lia.
Qed.

Lemma durable_writeAt recs st buf dataSize :
  durable recs st -> cc_dataSize st <= dataSize <= zlen (writeAt (cc_dataFile st) (cc_dataSize st) buf) ->
  durable recs (setFiles st (cc_rowsFile st) (writeAt (cc_dataFile st) (cc_dataSize st) buf) dataSize (cc_logSize st)).
Proof.
  intros [(Hi & Hh & Hr & Hl & Hv) Hlg Hrg Hd] Hs. split; cbn.
  - split_and!; try done. by destruct Hi.
  - eapply Forall_impl; [exact Hlg|]. intros r. apply loggable_mono. lia.
  - eapply Forall_impl; [exact Hrg|]. intros r. apply inData_mono. lia.
  - lia.
Qed.

Lemma writeData_cases recs io buf st st' res :
  durable recs st -> writeData io buf st = (st', res) ->
  (res = Ok tt /\ st' = setFiles st (cc_rowsFile st) (writeAt (cc_dataFile st) (cc_dataSize st) buf)
                        (cc_dataSize st + zlen buf) (cc_logSize st))
  \/ (res = Fail csIO /\ exists n, st' = setFiles st (cc_rowsFile st)
        (writeAt (cc_dataFile st) (cc_dataSize st) (take n buf)) (cc_dataSize st) (cc_logSize st)).
Proof.
  intros Hd H. unfold writeData in H. destruct (Z.leb_spec (zlen buf) 0).
  - left. simplify_eq. split; [done|]. destruct buf; [|rewrite zlen_cons in *; pose proof (zlen_nonneg buf); lia].
    rewrite writeAt_nil by apply (du_data _ _ Hd). rewrite zlen_nil, Z.add_0_r. symmetry. apply setFiles_self.
  - destruct (io_dataWrite io) as [n|]; [simplify_eq; right; eauto|].
    destruct (negb (io_dataSync io)); simplify_eq; [right; eauto|]. left. split; [done|].
    cbn. by rewrite firstn_all.
Qed.

Lemma writeRows_cases io buf st st' res :
  writeRows io buf st = (st', res) ->
  (res = Ok tt /\ st' = setFiles st (cc_rowsFile st ++ buf) (cc_dataFile st) (cc_dataSize st)
                        (zlen (cc_rowsFile st) + zlen buf))
  \/ (res = Fail csIO /\ exists n, st' = setFiles st (cc_rowsFile st ++ take n buf)
        (cc_dataFile st) (cc_dataSize st) (cc_logSize st) /\ (io_truncate io = true -> n = 0%nat)).
Proof.
  intros H. unfold writeRows in H. pose proof (app_nil_r (cc_rowsFile st)) as Hnil.
  destruct (negb (io_seek io)).
  { injection H as <- <-. right. split; [done|]. exists 0%nat. rewrite take_0. by rewrite Hnil, setFiles_self. }
  assert (forall n, (st', res) = (if io_truncate io
      then setFiles st (cc_rowsFile st) (cc_dataFile st) (cc_dataSize st) (cc_logSize st)
      else setFiles st (cc_rowsFile st ++ take n buf) (cc_dataFile st) (cc_dataSize st) (cc_logSize st), Fail csIO) ->
    res = Fail csIO /\ exists n, st' = setFiles st (cc_rowsFile st ++ take n buf)
        (cc_dataFile st) (cc_dataSize st) (cc_logSize st) /\ (io_truncate io = true -> n = 0%nat)) as Hback.
  { intros n [= -> ->]. split; [done|]. destruct (io_truncate io).
    - exists 0%nat. rewrite take_0. by rewrite Hnil.
    - by exists n. }
  destruct (io_rowsWrite io) as [n|].
  - right. eapply Hback. symmetry. apply H.
  - destruct (negb (io_rowsSync io)).
    + right. eapply Hback. symmetry. apply H.
    + simplify_eq. by left.
Qed.

Lemma applyAll_fails records : forall st st' e,
  applyAll records st = (st', Fail e) -> e = csTooManyValues.
Proof.
  assert (forall stored ds cells ds' e, internCells ds cells stored = (ds', Fail e) -> e = csTooManyValues) as Hint.
  { induction stored0 as [|c cs IH]; intros ds cells ds' e H; cbn [internCells] in H; [done|].
    repeat case_match; simplify_eq; [by eapply IH|]. unfold intern in *. repeat case_match; by simplify_eq. }
  induction records as [|r records IH]; intros st st' e H; [done|].
  cbn [applyAll] in H. unfold mbind, M_bind in H.
  destruct (apply r st) as [st1 [[]|e'|]] eqn:Ha; [by eapply IH| |done]. simplify_eq.
  unfold apply, remove in Ha. repeat (case_match; simplify_eq); by eapply Hint.
Qed.

Section writing.
Context (recs : list rowRecord) (st : codeCollection) (records : list rowRecord) (blobs : list (option bytes)).
Context (Hd : durable recs st) (Hwf : Forall (recordWf (h_Scalars (cc_header st))) records).
Context (Hw : Forall2 (writable (cc_dataSize st)) records blobs).
Context (Hsize : (1 + zlen (cc_rows st) + zlen records) * (cc_dataSize st + blobTotal blobs) <= maxInt64).

Local Lemma size_bound : cc_dataSize st + zlen (@nil Byte.byte) + blobTotal blobs <= maxInt64.
Proof using Hd Hsize.
  pose proof (du_data _ _ Hd). pose proof (blobTotal_nonneg blobs). pose proof (zlen_nonneg (cc_rows st)).
  pose proof (zlen_nonneg records). rewrite zlen_nil. nia.
Qed.

(** The state after data and row log have been written, before the index is updated. *)
Definition appended (dataBuffer : bytes) (records' : list rowRecord) : codeCollection :=
  setFiles st (cc_rowsFile st ++ logOf (h_Scalars (cc_header st)) (h_FrameFormat (cc_header st)) records')
    (writeAt (cc_dataFile st) (cc_dataSize st) dataBuffer) (cc_dataSize st + zlen dataBuffer)
    (zlen (cc_rowsFile st) + zlen (logOf (h_Scalars (cc_header st)) (h_FrameFormat (cc_header st)) records')).

(** The offsets of the batch are assigned, and the assigned records are well formed
    and inside the extended data file. *)
Local Lemma assigned : exists records' dataBuffer,
  assignOffsets (cc_dataSize st) [] records blobs = Ok (records', dataBuffer) /\
  zlen dataBuffer <= blobTotal blobs /\
  Forall3 (placed (cc_dataSize st) dataBuffer) records blobs records' /\
  Forall (recordWf (h_Scalars (cc_header st))) records' /\
  Forall (inData (cc_dataSize st + zlen dataBuffer)) records'.
Proof using All.
  pose proof (du_data _ _ Hd). pose proof size_bound as Hb.
  destruct (assignOffsets_spec (cc_dataSize st) records [] blobs) as (records' & buf & He & Hz & H3);
    [symmetry; by eapply Forall2_length|lia|done|].
  exists records', buf. cbn [app] in *. split_and!; try done; rewrite zlen_nil in Hb.
  - assert (cc_dataSize st + zlen buf <= maxInt64) as Hm by lia. revert Hwf. clear - H3 H Hm. induction H3 as [|r b r' ? ? ? Hp ? IH]; intros Hwf; [done|].
    apply Forall_cons in Hwf as [Hr Hwf]. constructor; [|by apply IH]. eapply placed_wf; [| |exact Hr|exact Hp]; lia.
  - revert Hw. clear - H3. induction H3 as [|r b r' ? ? ? Hp ? IH]; intros Hw; [done|].
    inversion Hw; subst. constructor; [by eapply placed_inData|by apply IH].
Qed.

(** An index update that succeeds leaves a durable collection with the effect of the batch. *)
Local Lemma applied_durable records' dataBuffer st2 :
  Forall3 (placed (cc_dataSize st) dataBuffer) records blobs records' ->
  Forall (recordWf (h_Scalars (cc_header st))) records' ->
  Forall (inData (cc_dataSize st + zlen dataBuffer)) records' ->
  Forall (fun r => zlen (recordPayload (h_Scalars (cc_header st)) r) <= 2 ^ 32 - 1) records' ->
  zlen dataBuffer <= blobTotal blobs ->
  applyAll records' (appended dataBuffer records') = (st2, Ok tt) ->
  durable (recs ++ records') st2 /\ dataTotal (live st2) <= maxInt64 /\
  forall id, stored st2 id = batchView (length (h_Scalars (cc_header st))) (cc_dataFile st) records blobs (stored st) id.
Proof using All.
  intros H3 Hwf' Hin Hfr Hz Ha. pose proof (zlen_nonneg dataBuffer) as Hz0. pose proof size_bound as Hb.
  rewrite zlen_nil in Hb. pose proof Hd as [(Hi & Hh & Hr & Hl & Hv) Hlg Hrg Hdt].
  assert (indexInv (appended dataBuffer records')) as Hi1 by (by destruct Hi).
  destruct (applyAll_ok records' _ st2 Hi1 Hwf' Ha) as (Hi2 & [Hh2 Hf2] & Hl2 & Hv2).
  cbn in Hh2, Hf2, Hl2, Hv2. injection Hf2 as Hf2 Hf3 Hf4 Hf5.
  assert (durable (recs ++ records') st2) as Hd2.
  { split; rewrite ?Hh2, ?Hf4, ?Hf3.
    - split; [done|]. split; [done|]. split; [by rewrite Hf2, Hr, logOf_app|]. split; [by rewrite Hf5, Hf2, zlen_app|].
      intros id. rewrite Hv2, replayView_app. apply replayView_ext. apply Hv.
    - apply Forall_app; split.
      + eapply Forall_impl; [exact Hlg|]. intros r. apply loggable_mono. lia.
      + apply Forall_forall. intros r Hr'. rewrite Forall_forall in Hwf', Hin, Hfr.
        split; [by apply Hwf'|by apply Hfr|]. intros Hk. specialize (Hin _ Hr' Hk).
        destruct (upsert_ranges _ _ (Hwf' _ Hr') Hk). rewrite i64_small; [done|unfold minInt64; lia].
    - apply Forall_app; split; [|done]. eapply Forall_impl; [exact Hrg|]. intros r. apply inData_mono. lia.
    - pose proof (zlen_writeAt (cc_dataFile st) (cc_dataSize st) dataBuffer Hdt). lia. }
  split; [done|]. split.
  - assert (dataTotal (live st2) <= zlen (live st2) * cc_dataSize st2) as Ht.
    { pose proof (durable_live (recs ++ records') st2) as Hlive. unfold dataTotal.
      assert (forall i r, live st2 !! i = Some r -> rec_dataLength r <= cc_dataSize st2) as Hle.
      { intros i r Hir. destruct (Hlive i r Hd2 Hir) as (Hwr & Hk & Hrr & _).
        destruct (upsert_ranges _ _ Hwr Hk). lia. }
      clear - Hle. induction (live st2) as [|r rs IH]; cbn; [done|]. rewrite zlen_cons.
      pose proof (Hle 0%nat r eq_refl). specialize (IH (fun i r => Hle (S i) r)). cbn in IH. lia. }
    assert (zlen (live st2) <= zlen (cc_rows st) + zlen records') as Hn.
    { unfold zlen. rewrite (live_length _ Hi2). lia. }
    assert (zlen records' = zlen records) as Hlen.
    { unfold zlen. by rewrite (Forall3_length_lr _ _ _ _ H3). }
    rewrite Hf4 in Ht. pose proof (zlen_nonneg (live st2)). nia.
  - intros id. unfold stored. rewrite Hf3, Hv2. cbn.
    rewrite (replayView_batch _ _ (cc_dataSize st) dataBuffer records blobs); [|done|done|done|done].
    apply batchView_ext. intros j. exact (stored_writeAt recs st dataBuffer 0 [] 0 Hd j).
Qed.

(** Where a write can end. *)
Inductive writeEnd (io : writeIO) (records' : list rowRecord) (dataBuffer : bytes) (st' : codeCollection)
  : outcome csError unit -> Prop :=
| end_encode e : st' = st -> writeEnd io records' dataBuffer st' (Fail (csRecord e))
| end_data n :
    st' = setFiles st (cc_rowsFile st) (writeAt (cc_dataFile st) (cc_dataSize st) (take n dataBuffer))
            (cc_dataSize st) (cc_logSize st) ->
    writeEnd io records' dataBuffer st' (Fail csIO)
| end_rows n rowBuffer :
    st' = setFiles st (cc_rowsFile st ++ take n rowBuffer)
            (writeAt (cc_dataFile st) (cc_dataSize st) dataBuffer) (cc_dataSize st + zlen dataBuffer) (cc_logSize st) ->
    (io_truncate io = true -> n = 0%nat) ->
    writeEnd io records' dataBuffer st' (Fail csIO)
| end_apply : writeEnd io records' dataBuffer st' (Fail csTooManyValues)
| end_applied st2 res :
    Forall (fun r => zlen (recordPayload (h_Scalars (cc_header st)) r) <= 2 ^ 32 - 1) records' ->
    applyAll records' (appended dataBuffer records') = (st2, Ok tt) ->
    maybeCompact (io_compact io) st2 = (st', res) ->
    writeEnd io records' dataBuffer st' res.

Local Lemma applyAll_no_panic rs : forall st0,
  indexInv st0 -> Forall (recordWf (h_Scalars (cc_header st0))) rs -> (applyAll rs st0).2 <> Panic.
Proof.
  induction rs as [|r rs IH]; intros st0 Hi Hrs; [done|]. apply Forall_cons in Hrs as [Hr Hrs].
  cbn [applyAll]. unfold mbind, M_bind.
  destruct (apply_spec st0 r Hi Hr) as (st1 & res & -> & Hi1 & [Hh _] & [[-> _]|[-> _]]); [|done].
  apply IH; [done|by rewrite Hh].
Qed.

Local Lemma write_ends io st' res :
  write io records blobs st = (st', res) ->
  exists records' dataBuffer, assignOffsets (cc_dataSize st) [] records blobs = Ok (records', dataBuffer) /\
    writeEnd io records' dataBuffer st' res.
Proof using All.
  intros H. destruct assigned as (records' & buf & Ha & Hz & H3 & Hwf' & Hin). exists records', buf. split; [done|].
  unfold write in H. rewrite Ha in H. unfold mbind, M_bind, liftRec in H.
  destruct (frameAll _ _ _ _) as [rowBuffer|e|] eqn:Ef; [|cbn in H; simplify_eq; by eapply end_encode|].
  2: { exfalso. revert Ef. clear - Hwf'. generalize (@nil Byte.byte). revert Hwf'.
    induction records' as [|r rs IH]; intros Hrs buf; [done|]. apply Forall_cons in Hrs as [Hr Hrs].
    cbn [frameAll]. destruct (encodeRecord_payload _ _ Hr) as (-> & _). unfold mbind, outcome_bind, appendFrame.
    repeat case_match; try done; by apply IH. }
  apply frameAll_spec in Ef as [-> Hfr]; [|done]. unfold mret, M_ret in H. cbn [app] in H.
  destruct (writeData io buf st) as [st1 res1] eqn:Ed.
  apply (writeData_cases recs) in Ed as [[-> ->]|[-> (n & ->)]]; [|by simplify_eq; eapply end_data|done].
  destruct (writeRows io _ _) as [st2 res2] eqn:Er.
  apply writeRows_cases in Er as [[-> ->]|[-> (n & -> & Hn)]]; cbn [cc_rowsFile cc_dataFile cc_dataSize cc_logSize setFiles] in *;
    [|simplify_eq; by eapply end_rows].
  rewrite setFiles_twice in H. fold (appended buf records') in H.
  destruct (applyAll records' (appended buf records')) as [st3 [[]|e|]] eqn:Eap.
  - by eapply end_applied.
  - apply applyAll_fails in Eap as Hee. simplify_eq. apply end_apply.
  - exfalso. apply (f_equal snd) in Eap. revert Eap. apply applyAll_no_panic; [|done].
    by destruct (du_stores _ _ Hd) as [[] _].
Qed.
End writing.

(** A successful write has the effect of the batch, under any outcome of the compaction
    it may trigger. *)
Lemma write_ok_batch recs st io records blobs st' :
  durable recs st -> Forall (recordWf (h_Scalars (cc_header st))) records ->
  Forall2 (writable (cc_dataSize st)) records blobs ->
  (1 + zlen (cc_rows st) + zlen records) * (cc_dataSize st + blobTotal blobs) <= maxInt64 ->
  write io records blobs st = (st', Ok tt) ->
  exists recs', durable recs' st' /\
    forall id, stored st' id =
      batchView (length (h_Scalars (cc_header st))) (cc_dataFile st) records blobs (stored st) id.
Proof.
  intros Hd Hwf Hw Hs H.
  destruct (write_ends recs st records blobs Hd Hwf Hw Hs io st' (Ok tt) H) as (records' & buf & Ha & Hend).
  destruct (assigned recs st records blobs Hd Hwf Hw Hs) as (? & ? & Ha' & Hz & H3 & Hwf' & Hin).
  rewrite Ha in Ha'. injection Ha' as <- <-. inversion Hend as [| | | |st2 ? Hfr Hap Hc]; subst.
  destruct (applied_durable recs st records blobs Hd Hwf Hw Hs _ _ st2 H3 Hwf' Hin Hfr Hz Hap) as (Hd2 & Ht & Hst).
  unfold maybeCompact in Hc. destruct (_ && _); [|simplify_eq; eauto].
  destruct (compact _ st2) as [st3 res3] eqn:Ec.
  destruct (compact_spec _ _ _ _ _ Hd2 Ht Ec) as (Hnp & Hsame & Hcase).
  assert (st3 = st') as -> by (by destruct res3; simplify_eq).
  assert (forall id, stored st' id = batchView (length (h_Scalars (cc_header st))) (cc_dataFile st) records blobs (stored st) id)
    by (intros id; by rewrite Hsame).
  destruct Hcase as [[[-> _]|(e & -> & _)]|[Hd3 _]]; eauto.
Qed.

(** A failed write is invisible.  When [write] fails before it updates the index
    (encoding, data file or row log, with any number of bytes written), the content
    of the collection is unchanged; when the truncation of the row log succeeds too,
    the files still hold exactly the old state. *)
Theorem write_failure_invisible recs st io records blobs st' e :
  durable recs st -> Forall (recordWf (h_Scalars (cc_header st))) records ->
  Forall2 (writable (cc_dataSize st)) records blobs ->
  (1 + zlen (cc_rows st) + zlen records) * (cc_dataSize st + blobTotal blobs) <= maxInt64 ->
  write io records blobs st = (st', Fail e) -> e <> csTooManyValues ->
  (forall id, view st' id = view st id) /\ (forall id, stored st' id = stored st id) /\
  (io_truncate io = true -> durable recs st').
Proof.
  intros Hd Hwf Hw Hs H He.
  destruct (write_ends recs st records blobs Hd Hwf Hw Hs io st' (Fail e) H) as (records' & buf & _ & Hend).
  pose proof (zlen_writeAt (cc_dataFile st) (cc_dataSize st)) as Hlen.
  pose proof (du_data _ _ Hd). inversion Hend as [? Hst|n Hst|n rowBuffer Hst Hn| |st2 ? _ _ Hc]; subst.
  - done.
  - split; [done|]. split; [by apply (stored_writeAt recs)|]. intros _. apply durable_writeAt; [done|].
    specialize (Hlen (take n buf) ltac:(lia)). pose proof (zlen_nonneg (take n buf)). lia.
  - split; [done|]. split; [by apply (stored_writeAt recs)|]. intros Ht. rewrite (Hn Ht), take_0, app_nil_r.
    apply durable_writeAt; [done|]. specialize (Hlen buf ltac:(lia)). pose proof (zlen_nonneg buf). lia.
  - done.
  - unfold maybeCompact in Hc. repeat case_match; by simplify_eq.
Qed.

(** A fresh collection is durable with an empty log. *)
Lemma freshCollection_durable emptyScalar header dataFile :
  durable [] (freshCollection emptyScalar header [] dataFile).
Proof.
  destruct (freshCollection_spec emptyScalar header [] dataFile) as (Hi & _ & Hh & Hv & Hl & Hr & Hdf & Hds).
  split; [|done|done|rewrite Hds, Hdf; split; [apply zlen_nonneg|done]].
  split_and!; [done|done|by rewrite Hr|by rewrite Hr, Hl|done].
Qed.

Definition goodCompactIO : compactIO := MkCompactIO true true true true true true true true.
Definition goodIO : writeIO := MkWriteIO None true true None true true goodCompactIO.

Definition sampleHeader : collectionHeader := MkHeader sampleColumns 256 [] 0 frameFormatLengthCRC.
Definition sampleFresh : codeCollection :=
  freshCollection (MkScalar ScalarTypeString true [] false 0) sampleHeader [] [].

Lemma surjective_snd {A B} (p : A * B) b : p.2 = b -> p = (p.1, b).
Proof. by intros <-; destruct p. Qed.

Lemma sampleBatch_wf : Forall (recordWf sampleColumns)
  [sampleRecord; emptyRecord recordDelete (lit "gone"); sampleRecord].
Proof.
  apply Forall_cons; split; [apply sampleRecord_wf|].
  apply Forall_cons; split; [split; [vm_compute; discriminate|vm_compute; discriminate|by left]|].
  apply Forall_cons; split; [apply sampleRecord_wf|apply Forall_nil_2].
Qed.

(** File operations that all succeed (compaction may still fail; its error is dropped). *)
Definition ioSucceeds (io : writeIO) : bool :=
  match io_dataWrite io, io_rowsWrite io with
  | None, None => io_dataSync io && io_seek io && io_rowsSync io
  | _, _ => false
  end.

Lemma placed_cells base buf records blobs records' :
  Forall3 (placed base buf) records blobs records' -> cellTotal records' = cellTotal records.
Proof.
  unfold cellTotal. induction 1 as [|r b r' ? ? ? Hp _ IH]; [done|]. cbn. rewrite IH. by destruct Hp.
Qed.

(** For well-formed records whose frames fit 32 bits and whose cells leave the
    dictionaries below 2^32 values, [write] returns without error. *)
Lemma write_succeeds recs st io records blobs n :
  durable recs st -> Forall (recordWf (h_Scalars (cc_header st))) records ->
  Forall2 (writable (cc_dataSize st)) records blobs ->
  (1 + zlen (cc_rows st) + zlen records) * (cc_dataSize st + blobTotal blobs) <= maxInt64 ->
  dictsBound n (cc_dictionaries st) -> Z.of_nat (n + cellTotal records) < 2 ^ 32 ->
  (forall records' dataBuffer, assignOffsets (cc_dataSize st) [] records blobs = Ok (records', dataBuffer) ->
    Forall (fun r => zlen (recordPayload (h_Scalars (cc_header st)) r) <= 2 ^ 32 - 1) records') ->
  ioSucceeds io = true ->
  exists st', write io records blobs st = (st', Ok tt).
Proof.
  intros Hd Hwf Hw Hs Hb Hn Hfr Hio. unfold ioSucceeds in Hio.
  destruct (io_dataWrite io) eqn:E1; [done|]. destruct (io_rowsWrite io) eqn:E2; [done|].
  apply andb_true_iff in Hio as [[Hs1 Hs2]%andb_true_iff Hs3].
  destruct (assigned recs st records blobs Hd Hwf Hw Hs) as (records' & buf & Ha & Hz & H3 & Hwf' & Hin).
  specialize (Hfr _ _ Ha). unfold write. rewrite Ha. unfold mbind, M_bind, liftRec.
  rewrite (frameAll_ok _ _ _ _ Hwf' Hfr). unfold mret, M_ret. cbn [app].
  destruct (writeData io buf st) as [st1 res1] eqn:Ed. assert (res1 = Ok tt) as ->.
  { unfold writeData in Ed. rewrite E1, Hs1 in Ed. cbn [negb] in Ed. by destruct (_ <=? _) in Ed; simplify_eq. }
  apply (writeData_cases recs) in Ed as [[_ ->]|[? _]]; [|done|done].
  unfold writeRows. rewrite E2, Hs2, Hs3. cbn [negb].
  rewrite setFiles_twice. cbn [cc_rowsFile cc_dataFile cc_dataSize setFiles]. fold (appended st buf records').
  assert (indexInv (appended st buf records')) as Hi1 by (by destruct (du_stores _ _ Hd) as [[] _]).
  destruct (applyAll_spec records' (appended st buf records') n Hi1 Hwf' Hb) as (st2 & Hap & _);
    [by rewrite (placed_cells _ _ _ _ _ H3)|]. rewrite Hap.
  destruct (applied_durable recs st records blobs Hd Hwf Hw Hs _ _ st2 H3 Hwf' Hin Hfr Hz Hap) as (Hd2 & Ht & _).
  unfold maybeCompact. destruct (_ && _); [|by eauto].
  destruct (compact (io_compact io) st2) as [st3 res3] eqn:Ec.
  destruct (compact_spec _ _ _ _ _ Hd2 Ht Ec) as (Hnp & _). destruct res3; by eauto.
Qed.

(** C2. Writing a batch refines the map update it stands for.  From a collection whose
    files hold its state, with file operations that succeed and whatever becomes of
    the compaction it may trigger, [write] returns without error and leaves a
    collection whose files again hold its state and whose content is the old content
    with the batch applied in order: each upsert with a blob stores that blob, an
    upsert without one keeps the data it refers to, each delete removes its id, and
    every other row keeps its record and its bytes. *)
Theorem write_refines_batch recs st io records blobs n :
  durable recs st -> Forall (recordWf (h_Scalars (cc_header st))) records ->
  Forall2 (writable (cc_dataSize st)) records blobs ->
  (1 + zlen (cc_rows st) + zlen records) * (cc_dataSize st + blobTotal blobs) <= maxInt64 ->
  dictsBound n (cc_dictionaries st) -> Z.of_nat (n + cellTotal records) < 2 ^ 32 ->
  (forall records' dataBuffer, assignOffsets (cc_dataSize st) [] records blobs = Ok (records', dataBuffer) ->
    Forall (fun r => zlen (recordPayload (h_Scalars (cc_header st)) r) <= 2 ^ 32 - 1) records') ->
  ioSucceeds io = true ->
  exists st' recs', write io records blobs st = (st', Ok tt) /\ durable recs' st' /\
    forall id, stored st' id =
      batchView (length (h_Scalars (cc_header st))) (cc_dataFile st) records blobs (stored st) id.
Proof.
  intros Hd Hwf Hw Hs Hb Hn Hfr Hio.
  destruct (write_succeeds recs st io records blobs n Hd Hwf Hw Hs Hb Hn Hfr Hio) as [st' H].
  destruct (write_ok_batch recs st io records blobs st' Hd Hwf Hw Hs H) as (recs' & ? & ?). eauto.
Qed.

Lemma write_refines_batch_witness :
  exists st' recs', write goodIO [sampleRecord; emptyRecord recordDelete (lit "gone"); sampleRecord]
    [Some (lit "first"); None; Some (lit "second")] sampleFresh = (st', Ok tt) /\
    durable recs' st' /\ forall id, stored st' id =
      batchView 3 [] [sampleRecord; emptyRecord recordDelete (lit "gone"); sampleRecord]
        [Some (lit "first"); None; Some (lit "second")] (stored sampleFresh) id.
Proof.
  apply (write_refines_batch [] sampleFresh goodIO _ _ 1).
  - apply freshCollection_durable.
  - exact sampleBatch_wf.
  - repeat constructor; intros H; try done.
  - vm_compute. discriminate.
  - repeat constructor; cbn; lia.
  - vm_compute. reflexivity.
  - intros records' buf H. vm_compute in H. injection H as <- _.
    repeat constructor; vm_compute; discriminate.
  - reflexivity.
Defined.

Lemma write_failure_invisible_witness :
  let io := MkWriteIO None true true (Some 10%nat) true true goodCompactIO in
  let st' := (write io [sampleRecord] [Some (lit "blob")] sampleFresh).1 in
  (forall id, view st' id = view sampleFresh id) /\ (forall id, stored st' id = stored sampleFresh id) /\
  (true = true -> durable [] st').
Proof.
  intros io st'. apply (write_failure_invisible [] sampleFresh io [sampleRecord] [Some (lit "blob")] st' csIO).
  - apply freshCollection_durable.
  - apply Forall_cons; split; [apply sampleRecord_wf|apply Forall_nil_2].
  - repeat constructor. intros H. discriminate H.
  - vm_compute. discriminate.
  - apply surjective_snd. vm_compute. reflexivity.
  - discriminate.
Defined.

(** Reloading.  Loading the files of a durable collection, in either frame
    format, succeeds and gives the same content: every record and every blob. *)
Theorem reload_stored emptyScalar truncateOk recs st :
  durable recs st -> Z.of_nat (1 + cellTotal recs) < 2 ^ 32 ->
  exists st2, loadCollection emptyScalar truncateOk (cc_header st) (cc_rowsFile st) (cc_dataFile st) = (st2, Ok tt) /\
    durable recs st2 /\ forall id, stored st2 id = stored st id.
Proof.
  intros [(Hi & _ & Hr & Hl & Hv) Hlg Hrg Hd] Hn.
  assert (Forall (loggable (h_Scalars (cc_header st)) (zlen (cc_dataFile st))) recs) as Hlg'.
  { eapply Forall_impl; [exact Hlg|]. intros r. apply loggable_mono. lia. }
  destruct (applyAll_fresh emptyScalar (cc_header st) (cc_dataFile st) recs Hlg' Hn) as (st1 & Ha & Hs).
  rewrite Hr, (loadCollection_complete emptyScalar truncateOk _ _ _ _ Hlg' Ha). eexists. split; [done|].
  set (st2 := withLog _ _ _) in *. pose proof Hs as (Hi2 & Hh2 & _ & _ & Hv2).
  assert (cc_dataSize st2 = zlen (cc_dataFile st) /\ cc_dataFile st2 = cc_dataFile st) as [Hds Hdf] by done.
  split.
  - split; rewrite ?Hh2, ?Hds, ?Hdf; [done|done| |split; [apply zlen_nonneg|done]].
    eapply Forall_impl; [exact Hrg|]. intros r. apply inData_mono. lia.
  - intros id. unfold stored. by rewrite Hdf, Hv2, Hv.
Qed.

(** A data file whose last 42 bytes are the blob of a row. *)
Definition sampleData : bytes :=
  replicate 100 Byte.x00 ++ encodeBlob (lit "twenty bytes of text") (lit "twenty bytes of meta").

(** A collection with one row whose 42 bytes lie at offset 100 of its data file. *)
Definition sampleLoaded : codeCollection :=
  withLog (applyAll [sampleRecord] (freshCollection (MkScalar ScalarTypeString true [] false 0) sampleHeader []
             sampleData)).1
    (logOf (h_Scalars sampleHeader) (h_FrameFormat sampleHeader) [sampleRecord]) sampleData.

Lemma sampleLoaded_durable : durable [sampleRecord] sampleLoaded.
Proof.
  assert (Forall (loggable sampleColumns 142) [sampleRecord]) as Hl
    by (apply Forall_cons; split; [apply sampleRecord_loggable|apply Forall_nil_2]).
  destruct (applyAll_fresh (MkScalar ScalarTypeString true [] false 0) sampleHeader sampleData
    [sampleRecord] Hl eq_refl) as (st1 & Ha & Hs).
  assert (sampleLoaded = withLog st1 (logOf (h_Scalars sampleHeader) (h_FrameFormat sampleHeader) [sampleRecord]) sampleData) as ->.
  { unfold sampleLoaded. by rewrite Ha. }
  pose proof Hs as (_ & Hh & _). split; rewrite ?Hh; [exact Hs|exact Hl| |split; [apply zlen_nonneg|apply Z.le_refl]].
  apply Forall_cons; split; [intros _; vm_compute; discriminate|apply Forall_nil_2].
Qed.

Lemma reload_stored_witness :
  exists st2, loadCollection (MkScalar ScalarTypeString true [] false 0) true sampleHeader
      (cc_rowsFile sampleLoaded) sampleData = (st2, Ok tt) /\
    durable [sampleRecord] st2 /\ forall id, stored st2 id = stored sampleLoaded id.
Proof.
  apply (reload_stored (MkScalar ScalarTypeString true [] false 0) true [sampleRecord] sampleLoaded).
  - apply sampleLoaded_durable.
  - vm_compute. reflexivity.
Defined.

(** ** Compaction as a whole *)

Lemma writeCompacted_ok st bound rs : forall positions rowsOut dataOut offsets dataOffset,
  Forall2 (fun p r => recordOf st p = Ok r) positions rs ->
  Forall (fun r => 0 <= rec_dataOffset r /\ 0 <= rec_dataLength r /\
            rec_dataOffset r + rec_dataLength r <= zlen (cc_dataFile st)) rs ->
  Forall (fun r => recordWf (h_Scalars (cc_header st)) r /\ rec_kind r = recordUpsert) rs ->
  (forall r o, r ∈ rs -> 0 <= o <= bound ->
    zlen (recordPayload (h_Scalars (cc_header st)) (setOffset r o (rec_dataLength r))) <= 2 ^ 32 - 1) ->
  0 <= dataOffset -> dataOffset + dataTotal rs <= bound -> bound <= maxInt64 ->
  exists out, writeCompacted st positions rowsOut dataOut offsets dataOffset = Ok out.
Proof.
  induction rs as [|r rs IH]; intros positions rowsOut dataOut offsets dataOffset H2 Hin Hwf Hfr H0 Hm Hb.
  - inversion H2; subst. by eexists.
  - inversion H2 as [|p ? ps ? Hp Hps]; subst. apply Forall_cons in Hin as [(Ho & Hl & Hr) Hin], Hwf as [[Hw Hk] Hwf].
    cbn [writeCompacted]. rewrite Hp. unfold mbind, outcome_bind. rewrite (proj2 (Z.ltb_ge _ 0)) by done.
    rewrite readAt_Some by done. cbn [dataTotal foldr] in Hm. fold (dataTotal rs) in Hm.
    assert (0 <= dataTotal rs).
    { apply dataTotal_nonneg. eapply Forall_impl; [exact Hin|]. cbn. intros ? (_ & ? & _). done. }
    destruct (upsert_ranges _ _ Hw Hk) as [_ Hlm].
    destruct (encodeRecord_payload _ _ (setOffset_wf _ r dataOffset _ Hw Hk ltac:(lia) Hlm)) as (-> & _ & _).
    rewrite appendFrame_frameBytes by (apply Hfr; [left|lia]).
    rewrite i64_small by (unfold minInt64; lia). apply IH; try done; try lia.
    intros r' o Hr'. apply Hfr. by right.
Qed.

(** C24. Compaction changes nothing a reader can see.  On a durable collection it
    never panics; before the header is replaced every failure leaves the collection
    as it was; after that the new files hold exactly the live records in the
    current frame format, no dead record remains, and every row keeps its record and
    the bytes of its blob, whichever later step fails. *)
Theorem compact_preserves recs st io :
  durable recs st -> dataTotal (live st) <= maxInt64 ->
  (forall r o, r ∈ live st -> 0 <= o <= dataTotal (live st) ->
    zlen (recordPayload (h_Scalars (cc_header st)) (setOffset r o (rec_dataLength r))) <= 2 ^ 32 - 1) ->
  exists st' res, compact io st = (st', res) /\ (forall id, stored st' id = stored st id) /\
    (res = Ok tt <-> ci_createRows io && ci_createData io && ci_flush io && ci_stat io && ci_replaceHeader io
                     && ci_identity io && ci_syncDirectory io && ci_removePrevious io = true) /\
    (if ci_createRows io && ci_createData io && ci_flush io && ci_stat io && ci_replaceHeader io
     then durable (live st') st' /\ length (live st') = length (cc_rows st) /\ cc_dead st' = 0 /\
       h_Generation (cc_header st') = h_Generation (cc_header st) + 1 /\
       h_FrameFormat (cc_header st') = frameFormatLengthCRC
     else st' = st /\ res = Fail csIO).
Proof.
  intros Hd Ht Hfr. pose proof (du_stores _ _ Hd) as (Hi & _).
  destruct (writeCompacted_ok st (dataTotal (live st)) (live st) (seq 0 (length (cc_rows st))) [] [] [] 0) as [[[[rowsOut dataOut] offsets] size] Hw];
    [by apply live_positions| | |done|lia|lia|done|].
  1-2: apply Forall_lookup; intros i r Hr; destruct (durable_live _ _ _ _ Hd Hr) as (Hwf & Hk & Hin & _);
    destruct (upsert_ranges _ _ Hwf Hk); pose proof (du_data _ _ Hd); cbn; try done; split_and!; lia.
  destruct (compacted_durable recs st rowsOut dataOut offsets size Hd Ht Hw) as [Hd' Hs].
  pose proof Hw as Hw2. apply (writeCompacted_spec st (live st)) in Hw2 as (moved & more & _ & -> & -> & -> & _ & Hmv & _);
    [|by apply live_positions|by eapply durable_live_length|rewrite zlen_nil; lia].
  unfold compact. rewrite Hw.
  destruct (ci_createRows io), (ci_createData io), (ci_flush io), (ci_stat io), (ci_replaceHeader io); cbn [negb orb andb];
    try (exists st, (Fail csIO); done).
  eexists _, _. split; [done|]. split; [done|]. split.
  - destruct (ci_identity io), (ci_syncDirectory io), (ci_removePrevious io); done.
  - cbn [app] in *. split; [done|]. split; [|done].
    rewrite (live_compacted st rowsOut more _ moved Hmv), <- (Forall2_length _ _ _ Hmv). by apply live_length.
Qed.

Lemma compact_preserves_witness :
  exists st' res, compact goodCompactIO sampleLoaded = (st', res) /\ (forall id, stored st' id = stored sampleLoaded id) /\
    (res = Ok tt <-> true = true) /\
    (durable (live st') st' /\ length (live st') = 1%nat /\ cc_dead st' = 0 /\
     h_Generation (cc_header st') = 1 /\ h_FrameFormat (cc_header st') = frameFormatLengthCRC).
Proof.
  assert (live sampleLoaded = [sampleRecord]) as Hlive by (vm_compute; reflexivity).
  apply (compact_preserves [sampleRecord] sampleLoaded goodCompactIO sampleLoaded_durable); rewrite Hlive.
  - vm_compute. discriminate.
  - intros r o Hr Ho. apply list_elem_of_singleton in Hr as ->. change (dataTotal [sampleRecord]) with 42 in Ho.
    assert (forallb (fun o => zlen (recordPayload sampleColumns (setOffset sampleRecord (Z.of_nat o) 42)) <=? 2 ^ 32 - 1) (seq 0 43) = true) as Hall
      by (vm_compute; reflexivity).
    rewrite forallb_forall in Hall. specialize (Hall (Z.to_nat o)). rewrite Z2Nat.id in Hall by lia.
    apply Z.leb_le, Hall, in_seq. lia.
Defined.
