(* ===== verification/CsFilter.v ===== *)
(** * CsFilter: compiled row filters (codestore/filter.go)

    A filter is compiled once per request: every leaf tabulates its decision for
    every value id of its column's dictionary, so that evaluating a row is an array
    lookup.  The reference semantics evaluates the filter on the decoded value of
    the row in Kleene's three-valued logic. *)

From S2P Require Import Prelude GoBinary CsRecord CsCollection CsIndex CsLog CsWrite CsDurable.

Open Scope Z_scope.

#[local] Set Warnings "-register-all".

(** ** Data *)

Inductive truth := truthFalse | truthTrue | truthUnknown.

#[export] Instance truth_eq_dec : EqDecision truth.
Proof. solve_decision. Defined.

Inductive FilterKind :=
| FilterAll | FilterAny | FilterNot | FilterEquals | FilterIn | FilterRange
| FilterIsNull | FilterIsPresent | FilterOther (name : bytes).

(** [collection.Filter]; [Lower] and [Upper] are pointers in the source. *)
Inductive Filter := MkFilter {
  f_Kind : FilterKind;
  f_Children : list Filter;
  f_Column : bytes;
  f_Values : list ScalarValue;
  f_Lower : option Z;
  f_Upper : option Z;
}.

Inductive filterError :=
| errNotChildren (n : nat)
| errUndeclared (column : bytes)
| errNotLeaf
| errUnsupported.

Definition predicate : Type := nat -> outcome filterError truth.

(** ** Connectives *)

(** The loop of [allOf]: it returns at the first false child. *)
Fixpoint allLoop (result : truth) (children : list predicate) (position : nat) : outcome filterError truth :=
  match children with
  | [] => Ok result
  | child :: children =>
      t ← child position;
      match t with
      | truthFalse => Ok truthFalse
      | truthUnknown => allLoop truthUnknown children position
      | truthTrue => allLoop result children position
      end
  end.

Definition allOf (children : list predicate) : predicate := allLoop truthTrue children.

(** The loop of [anyOf]: it returns at the first true child. *)
Fixpoint anyLoop (result : truth) (children : list predicate) (position : nat) : outcome filterError truth :=
  match children with
  | [] => Ok result
  | child :: children =>
      t ← child position;
      match t with
      | truthTrue => Ok truthTrue
      | truthUnknown => anyLoop truthUnknown children position
      | truthFalse => anyLoop result children position
      end
  end.

Definition anyOf (children : list predicate) : predicate := anyLoop truthFalse children.

Definition notOf (child : predicate) : predicate := fun position =>
  t ← child position;
  Ok match t with
     | truthTrue => truthFalse
     | truthFalse => truthTrue
     | truthUnknown => truthUnknown
     end.

(** ** Leaves *)

Definition leafDecision (filter : Filter) : outcome filterError (ScalarValue -> bool -> truth) :=
  match f_Kind filter with
  | FilterIsNull => Ok (fun (_ : ScalarValue) (present : bool) => if present then truthFalse else truthTrue)
  | FilterIsPresent => Ok (fun (_ : ScalarValue) (present : bool) => if present then truthTrue else truthFalse)
  | FilterRange => Ok (fun (value : ScalarValue) (present : bool) =>
      if negb present then truthUnknown else
      if match f_Lower filter with Some lower => sv_Int64 value <? lower | None => false end
         || match f_Upper filter with Some upper => upper <=? sv_Int64 value | None => false end
      then truthFalse else truthTrue)
  | FilterAll | FilterAny | FilterNot => Fail errNotLeaf
  | FilterEquals | FilterIn =>
      let wanted : gset ScalarValue := list_to_set (f_Values filter) in
      Ok (fun (value : ScalarValue) (present : bool) =>
        if negb present then truthUnknown else
        if decide (value ∈ wanted) then truthTrue else truthFalse)
  | FilterOther _ => Fail errUnsupported
  end.

(** The decision table of a leaf: entry 0 is for an absent value. *)
Definition decisionTable (emptyScalar : ScalarValue) (decideValue : ScalarValue -> bool -> truth)
    (values : list ScalarValue) : list truth :=
  decideValue emptyScalar false :: ((fun value => decideValue value (negb (sv_Null value))) <$> tail values).

Definition compileLeaf (emptyScalar : ScalarValue) (st : codeCollection) (filter : Filter)
  : outcome filterError predicate :=
  match cc_columnIndex st !! f_Column filter with
  | None => Fail (errUndeclared (f_Column filter))
  | Some column =>
      decideValue ← leafDecision filter;
      match cc_dictionaries st !! column with
      | None => Panic
      | Some dict =>
          (* decisions[0] panics when the dictionary is empty *)
          if (length (dict_values dict) =? 0)%nat then Panic else
          let decisions := decisionTable emptyScalar decideValue (dict_values dict) in
          Ok (fun position =>
            match cc_rows st !! position with
            | None => Panic
            | Some current =>
                match row_cells current !! column with
                | None => Panic
                | Some id => match decisions !! id with Some t => Ok t | None => Panic end
                end
            end)
      end
  end.

(** ** Compilation *)

Section compile.
Context (emptyScalar : ScalarValue) (st : codeCollection).

Fixpoint compileFilter (filter : Filter) : outcome filterError predicate :=
  let compileAll := fix compileAll (children : list Filter) : outcome filterError (list predicate) :=
    match children with
    | [] => Ok []
    | child :: children =>
        p ← compileFilter child;
        ps ← compileAll children;
        Ok (p :: ps)
    end in
  match f_Kind filter with
  | FilterAll => children ← compileAll (f_Children filter); Ok (allOf children)
  | FilterAny => children ← compileAll (f_Children filter); Ok (anyOf children)
  | FilterNot =>
      match f_Children filter with
      | [only] => child ← compileFilter only; Ok (notOf child)
      | children => Fail (errNotChildren (length children))
      end
  | FilterEquals | FilterIn | FilterRange | FilterIsNull | FilterIsPresent =>
      compileLeaf emptyScalar st filter
  | FilterOther _ => Fail errUnsupported
  end.

(** A nil filter selects every row. *)
Definition compileOptional (filter : option Filter) : outcome filterError predicate :=
  match filter with
  | None => Ok (fun _ => Ok truthTrue)
  | Some filter => compileFilter filter
  end.
End compile.

(** ** Reference semantics *)

(** Kleene's connectives over the order false < unknown < true. *)
Definition kAnd (a b : truth) : truth :=
  match a, b with
  | truthFalse, _ | _, truthFalse => truthFalse
  | truthUnknown, _ | _, truthUnknown => truthUnknown
  | truthTrue, truthTrue => truthTrue
  end.

Definition kOr (a b : truth) : truth :=
  match a, b with
  | truthTrue, _ | _, truthTrue => truthTrue
  | truthUnknown, _ | _, truthUnknown => truthUnknown
  | truthFalse, truthFalse => truthFalse
  end.

Definition kNot (a : truth) : truth :=
  match a with truthTrue => truthFalse | truthFalse => truthTrue | truthUnknown => truthUnknown end.

Definition ofBool (b : bool) : truth := if b then truthTrue else truthFalse.

(** The meaning of a leaf on a value; absent and null values are [None]. *)
Definition leafMeaning (filter : Filter) (v : option ScalarValue) : truth :=
  match f_Kind filter, v with
  | FilterIsNull, _ => ofBool (bool_decide (v = None))
  | FilterIsPresent, _ => ofBool (bool_decide (v <> None))
  | FilterRange, Some v =>
      ofBool (from_option (fun lower => lower <=? sv_Int64 v) true (f_Lower filter) &&
              from_option (fun upper => sv_Int64 v <? upper) true (f_Upper filter))
  | FilterEquals, Some v | FilterIn, Some v => ofBool (bool_decide (v ∈ f_Values filter))
  | _, _ => truthUnknown
  end.

(** The meaning of a filter on a row given by the values of its columns. *)
Fixpoint evalFilter (filter : Filter) (value : bytes -> option ScalarValue) : truth :=
  match f_Kind filter with
  | FilterAll => foldr kAnd truthTrue (map (fun child => evalFilter child value) (f_Children filter))
  | FilterAny => foldr kOr truthFalse (map (fun child => evalFilter child value) (f_Children filter))
  | FilterNot => kNot (foldr kAnd truthTrue (map (fun child => evalFilter child value) (f_Children filter)))
  | _ => leafMeaning filter (value (f_Column filter))
  end.

(** The filters the store accepts: leaves over declared columns, one child of a [not]. *)
Fixpoint filterOk (declared : bytes -> bool) (filter : Filter) : bool :=
  match f_Kind filter with
  | FilterAll | FilterAny => forallb (filterOk declared) (f_Children filter)
  | FilterNot => (length (f_Children filter) =? 1)%nat && forallb (filterOk declared) (f_Children filter)
  | FilterOther _ => false
  | _ => declared (f_Column filter)
  end.

(** Induction over filters and their children. *)
Lemma Filter_ind' (P : Filter -> Prop) :
  (forall filter, Forall P (f_Children filter) -> P filter) -> forall filter, P filter.
Proof.
  intros H. fix IH 1. intros [kind children column values lower upper]. apply H. cbn.
  induction children as [|child children IHc]; constructor; [apply IH|exact IHc].
Qed.

(** The column index names declared columns. *)
Definition columnsInv (st : codeCollection) : Prop :=
  forall name column, cc_columnIndex st !! name = Some column ->
    exists declared, h_Scalars (cc_header st) !! column = Some declared /\ col_Name declared = name.

Lemma columnsInv_lt st name column :
  columnsInv st -> cc_columnIndex st !! name = Some column -> (column < length (h_Scalars (cc_header st)))%nat.
Proof. intros Hc H. destruct (Hc _ _ H) as (d & Hd & _). by eapply lookup_lt_Some. Qed.

(** The present value of a named column in a row. *)
Definition rowValue (st : codeCollection) (r : row) (name : bytes) : option ScalarValue :=
  column ← cc_columnIndex st !! name;
  v ← cellAt (cc_dictionaries st) (row_cells r) column;
  if sv_Null v then None else Some v.

(** ** Connectives *)

Lemma allLoop_spec children ts position : forall result,
  result <> truthFalse -> Forall2 (fun p t => p position = Ok t) children ts ->
  allLoop result children position = Ok (kAnd result (foldr kAnd truthTrue ts)).
Proof.
  intros result Hr H. revert result Hr. induction H as [|p t children ts Hp _ IH]; intros result Hr; cbn [allLoop foldr].
  - by destruct result.
  - rewrite Hp. cbn. destruct t; [by destruct result| |]; rewrite IH by done;
      destruct result, (foldr kAnd truthTrue ts); done.
Qed.

Lemma anyLoop_spec children ts position : forall result,
  result <> truthTrue -> Forall2 (fun p t => p position = Ok t) children ts ->
  anyLoop result children position = Ok (kOr result (foldr kOr truthFalse ts)).
Proof.
  intros result Hr H. revert result Hr. induction H as [|p t children ts Hp _ IH]; intros result Hr; cbn [anyLoop foldr].
  - by destruct result.
  - rewrite Hp. cbn. destruct t; [|by destruct result|]; rewrite IH by done;
      destruct result, (foldr kOr truthFalse ts); done.
Qed.

(** ** Leaves *)

Definition isLeaf (kind : FilterKind) : bool :=
  match kind with
  | FilterEquals | FilterIn | FilterRange | FilterIsNull | FilterIsPresent => true
  | _ => false
  end.

Lemma leafDecision_meaning filter :
  isLeaf (f_Kind filter) = true ->
  exists d, leafDecision filter = Ok d /\
    (forall v, d v false = leafMeaning filter None) /\ (forall v, d v true = leafMeaning filter (Some v)).
Proof.
  unfold isLeaf, leafDecision, leafMeaning. destruct (f_Kind filter); try done; intros _;
    (eexists; split; [done|]; split; [done|]); intros v; cbn; try done.
  1-2: destruct (decide (v ∈ f_Values filter)) as [Hv|Hv]; [rewrite bool_decide_true by done|rewrite bool_decide_false by done];
    [rewrite decide_True by (by apply elem_of_list_to_set)|rewrite decide_False by (by rewrite elem_of_list_to_set)]; done.
  destruct (f_Lower filter) as [lower|], (f_Upper filter) as [upper|]; cbn; rewrite ?Z.ltb_antisym;
    repeat match goal with |- context [?a <=? ?b] => destruct (a <=? b) end; done.
Qed.

Lemma compileLeaf_spec emptyScalar st filter :
  indexInv st -> columnsInv st -> isLeaf (f_Kind filter) = true ->
  (cc_columnIndex st !! f_Column filter = None /\
   compileLeaf emptyScalar st filter = Fail (errUndeclared (f_Column filter))) \/
  (is_Some (cc_columnIndex st !! f_Column filter) /\
   exists p, compileLeaf emptyScalar st filter = Ok p /\
     forall position r, cc_rows st !! position = Some r ->
       p position = Ok (leafMeaning filter (rowValue st r (f_Column filter)))).
Proof.
  intros Hi Hc Hleaf. destruct (leafDecision_meaning filter Hleaf) as (d & Hd & Hno & Hyes).
  unfold compileLeaf, rowValue. rewrite Hd. cbn [mbind outcome_bind].
  destruct (cc_columnIndex st !! f_Column filter) as [column|] eqn:Ec; [right|by left]. split; [by eexists|].
  destruct (lookup_lt_is_Some_2 (cc_dictionaries st) column) as [dict Hdict].
  { rewrite (ii_dicts _ Hi). by eapply columnsInv_lt. }
  rewrite Hdict. pose proof (ii_dictInv _ Hi) as Hdi. rewrite Forall_lookup in Hdi.
  destruct (Hdi _ _ Hdict) as [Hne _]. destruct (Nat.eqb_spec (length (dict_values dict)) 0) as [|_]; [lia|].
  eexists. split; [done|]. intros position r Hr. cbv beta zeta. rewrite Hr.
  pose proof (ii_rows _ Hi) as Hrows. rewrite Forall_lookup in Hrows. destruct (Hrows _ _ Hr) as [Hlen Hcells].
  destruct (lookup_lt_is_Some_2 (row_cells r) column) as [id Hid].
  { rewrite Hlen. by eapply columnsInv_lt. }
  rewrite Hid. cbn. unfold cellAt. rewrite Hid. destruct id as [|id]; [cbn; by rewrite Hno|].
  destruct (Hcells column (S id) Hid) as (dict' & Hdict' & Hlt); [done|].
  rewrite Hdict in Hdict'. injection Hdict' as <-. rewrite Hdict.
  change ((Some dict) ≫= ?f) with (f dict). cbv beta.
  destruct (lookup_lt_is_Some_2 (dict_values dict) (S id) Hlt) as [v Hv]. rewrite Hv.
  assert (decisionTable emptyScalar d (dict_values dict) !! S id = Some (d v (negb (sv_Null v)))) as ->.
  { unfold decisionTable. destruct (dict_values dict) as [|v0 values]; [done|]. cbn [tail].
    change ((?x :: ?l) !! S id) with (l !! id) in Hv |- *. by rewrite list_lookup_fmap, Hv. }
  cbn.
  destruct (sv_Null v); cbn; by rewrite ?Hno, ?Hyes.
Qed.

(** ** Filters *)

Section compile_spec.
Context (emptyScalar : ScalarValue) (st : codeCollection) (Hi : indexInv st) (Hc : columnsInv st).

(** What compilation of one filter promises. *)
Definition compiles (filter : Filter) : Prop :=
  if filterOk (fun name => bool_decide (is_Some (cc_columnIndex st !! name))) filter
  then exists p, compileFilter emptyScalar st filter = Ok p /\
    forall position r, cc_rows st !! position = Some r ->
      p position = Ok (evalFilter filter (rowValue st r))
  else exists e, compileFilter emptyScalar st filter = Fail e.

Local Definition compileAll : list Filter -> outcome filterError (list predicate) :=
  fix compileAll (children : list Filter) : outcome filterError (list predicate) :=
    match children with
    | [] => Ok []
    | child :: children =>
        p ← compileFilter emptyScalar st child;
        ps ← compileAll children;
        Ok (p :: ps)
    end.

Lemma compileAll_spec children :
  Forall compiles children ->
  if forallb (filterOk (fun name => bool_decide (is_Some (cc_columnIndex st !! name)))) children
  then exists ps, compileAll children = Ok ps /\
    forall position r, cc_rows st !! position = Some r ->
      Forall2 (fun p t => p position = Ok t) ps (map (fun child => evalFilter child (rowValue st r)) children)
  else exists e, compileAll children = Fail e.
Proof.
  induction 1 as [|child children Hch _ IH]; cbn [forallb].
  - exists []. split; [done|]. intros. constructor.
  - assert (compileAll (child :: children) =
      (p ← compileFilter emptyScalar st child; ps ← compileAll children; Ok (p :: ps))) as -> by done.
    unfold compiles in Hch. unfold mbind, outcome_bind. destruct (filterOk _ child); cbn [andb].
    + destruct Hch as (p & -> & Hpv). destruct (forallb _ children).
      * destruct IH as (ps & -> & Hpsv). eexists. split; [done|].
        intros position r Hr. constructor; [by apply Hpv|by apply Hpsv].
      * destruct IH as (e & ->). by eexists.
    + destruct Hch as (e & ->). by eexists.
Qed.

Lemma compileFilter_node filter :
  compileFilter emptyScalar st filter =
  match f_Kind filter with
  | FilterAll => children ← compileAll (f_Children filter); Ok (allOf children)
  | FilterAny => children ← compileAll (f_Children filter); Ok (anyOf children)
  | FilterNot =>
      match f_Children filter with
      | [only] => child ← compileFilter emptyScalar st only; Ok (notOf child)
      | children => Fail (errNotChildren (length children))
      end
  | FilterOther _ => Fail errUnsupported
  | _ => compileLeaf emptyScalar st filter
  end.
Proof. by destruct filter as [[]]. Qed.

Lemma compileFilter_compiles filter : compiles filter.
Proof using All.
  induction filter as [filter IH] using Filter_ind'. pose proof (compileAll_spec _ IH) as Hall.
  unfold compiles. destruct (isLeaf (f_Kind filter)) eqn:Hleaf.
  - assert (compileFilter emptyScalar st filter = compileLeaf emptyScalar st filter) as ->
      by (destruct filter as [[]]; done).
    assert (forall f, evalFilter filter f = leafMeaning filter (f (f_Column filter))) as Hev
      by (intros; destruct filter as [[]]; done).
    assert (filterOk (fun name => bool_decide (is_Some (cc_columnIndex st !! name))) filter
      = bool_decide (is_Some (cc_columnIndex st !! f_Column filter))) as -> by (destruct filter as [[]]; done).
    destruct (compileLeaf_spec emptyScalar st filter Hi Hc Hleaf) as [[Hn ->]|(Hs & p & -> & Hp)].
    + rewrite Hn. rewrite bool_decide_false by (by intros []). by eexists.
    + rewrite bool_decide_true by done. exists p. split; [done|]. intros. rewrite Hev. by apply Hp.
  - rewrite compileFilter_node. destruct filter as [kind children column values lower upper].
    cbn [f_Kind f_Children] in *. unfold mbind, outcome_bind.
    destruct kind; try done; cbn [filterOk f_Kind f_Children evalFilter]; try (by eexists).
    + destruct (forallb _ _); [|destruct Hall as (e & ->); by eexists].
      destruct Hall as (ps & -> & Hv). eexists. split; [done|].
      intros position r Hr. unfold allOf. rewrite (allLoop_spec _ _ _ truthTrue ltac:(done) (Hv position r Hr)).
      by destruct (foldr kAnd _ _).
    + destruct (forallb _ _); [|destruct Hall as (e & ->); by eexists].
      destruct Hall as (ps & -> & Hv). eexists. split; [done|].
      intros position r Hr. unfold anyOf. rewrite (anyLoop_spec _ _ _ truthFalse ltac:(done) (Hv position r Hr)).
      by destruct (foldr kOr _ _).
    + destruct children as [|child [|? ?]]; cbn [length Nat.eqb andb forallb]; [by eexists| |by eexists].
      apply Forall_cons in IH as [Hch _]. unfold compiles in Hch. rewrite andb_true_r.
      destruct (filterOk _ child); [|destruct Hch as (e & ->); by eexists].
      destruct Hch as (p & -> & Hv). eexists. split; [done|].
      intros position r Hr. unfold notOf. rewrite (Hv position r Hr). cbn. by destruct (evalFilter child _).
Qed.
End compile_spec.

(** Filters mean Kleene's logic.  On a valid collection, compilation never panics;
    it fails exactly on the filters that are malformed (unknown kind, a [not] without
    exactly one child, an undeclared column), and the compiled predicate, which looks
    its answer up in the decision tables and leaves [allOf]/[anyOf] early, gives for
    every row the three-valued meaning of the filter on the row's decoded values. *)
Theorem compileFilter_kleene emptyScalar st filter :
  indexInv st -> columnsInv st ->
  if filterOk (fun name => bool_decide (is_Some (cc_columnIndex st !! name))) filter
  then exists p, compileFilter emptyScalar st filter = Ok p /\
    forall position r, cc_rows st !! position = Some r ->
      p position = Ok (evalFilter filter (rowValue st r))
  else exists e, compileFilter emptyScalar st filter = Fail e.
Proof. intros Hi Hc. exact (compileFilter_compiles emptyScalar st Hi Hc filter). Qed.

(** The column index built by [setDeclaration] names declared columns only. *)
Lemma setDeclaration_columns emptyScalar scalars st : columnsInv (setDeclaration emptyScalar scalars st).
Proof.
  intros name column H. cbn in *. apply elem_of_list_to_map_2 in H. rewrite elem_of_reverse in H.
  apply elem_of_lookup_imap in H as (i & x & E & Hx). simplify_eq. eauto.
Qed.

(** Applying records changes neither the column index nor the header. *)
Lemma applyAll_columns records : forall st, columnsInv st -> columnsInv (applyAll records st).1.
Proof.
  assert (forall r st, cc_columnIndex (apply r st).1 = cc_columnIndex st) as Hci.
  { intros r st. unfold apply, remove. destruct (rec_kind r =? recordDelete);
      repeat (case_match; simplify_eq/=; try done). }
  induction records as [|r records IH]; intros st Hc; [done|]. cbn [applyAll]. unfold mbind, M_bind.
  assert (columnsInv (apply r st).1) as Hc1.
  { unfold columnsInv. rewrite Hci, (proj1 (apply_sameFiles r st)). exact Hc. }
  destruct (apply r st) as [st1 [[]|e|]]; [by apply IH|done|done].
Qed.

Lemma sampleLoaded_columns : columnsInv sampleLoaded.
Proof.
  apply (applyAll_columns [sampleRecord] (freshCollection (MkScalar ScalarTypeString true [] false 0) sampleHeader []
             sampleData)). apply setDeclaration_columns.
Qed.

(** [item = "conv" and not (flag is null)] over the sample columns. *)
Definition sampleFilter : Filter :=
  MkFilter FilterAll
    [MkFilter FilterEquals [] (lit "item") [MkScalar ScalarTypeString false (lit "conv") false 0] None None;
     MkFilter FilterNot [MkFilter FilterIsNull [] (lit "flag") [] None None] [] [] None None]
    [] [] None None.

Lemma compileFilter_kleene_witness :
  exists p, compileFilter (MkScalar ScalarTypeString true [] false 0) sampleLoaded sampleFilter = Ok p /\
    forall position r, cc_rows sampleLoaded !! position = Some r ->
      p position = Ok (evalFilter sampleFilter (rowValue sampleLoaded r)).
Proof.
  pose proof (compileFilter_kleene (MkScalar ScalarTypeString true [] false 0) sampleLoaded sampleFilter
    (proj1 (du_stores _ _ sampleLoaded_durable)) sampleLoaded_columns) as H.
  assert (filterOk (fun name => bool_decide (is_Some (cc_columnIndex sampleLoaded !! name))) sampleFilter = true) as E
    by (vm_compute; reflexivity).
  rewrite E in H. exact H.
Defined.
