(* ===== verification/CsWalk.v ===== *)
(** * CsWalk: the greedy walk over a ranking

    The theory behind [walkRanking] and [selection] of codestore/rank.go, over any
    element type with a group key and an order.  A walk keeps at most [window]
    elements and at most [perGroup] of each group, in ranking order.  Elements a
    walk rejects never influence it, and adding elements never makes it accept an
    element it rejected: so a partial selection may be cut down to its walk, and an
    element behind a full window may be dropped, without changing the final result. *)

From S2P Require Import Prelude.

Open Scope Z_scope.

Section walk.
Context {A : Type} (key : A -> nat) (grouped : bool) (perGroup window : Z).

(** Number of kept elements and number kept per group. *)
Record walkState := MkWalkState { ws_kept : Z; ws_groups : gmap nat Z }.

Definition groupCount (groups : gmap nat Z) (k : nat) : Z := default 0 (groups !! k).
Definition groupInc (groups : gmap nat Z) (k : nat) : gmap nat Z := <[k := groupCount groups k + 1]> groups.

Definition walkStep (s : walkState) (x : A) : option walkState :=
  if (ws_kept s =? window) || (grouped && (perGroup <=? groupCount (ws_groups s) (key x))) then None
  else Some (MkWalkState (ws_kept s + 1) (groupInc (ws_groups s) (key x))).

Fixpoint walkRun (s : walkState) (l : list A) : list A :=
  match l with
  | [] => []
  | x :: l => match walkStep s x with None => walkRun s l | Some s => x :: walkRun s l end
  end.

Definition walkAfter (s : walkState) (l : list A) : walkState :=
  foldl (fun s x => default s (walkStep s x)) s l.

Definition walkInit : walkState := MkWalkState 0 ∅.
Definition walk (l : list A) : list A := walkRun walkInit l.

(** ** Rejected elements do not matter *)

Lemma walkRun_app s l1 l2 : walkRun s (l1 ++ l2) = walkRun s l1 ++ walkRun (walkAfter s l1) l2.
Proof.
  revert s. induction l1 as [|x l1 IH]; intros s; [done|]. cbn.
  destruct (walkStep s x); cbn; by rewrite IH.
Qed.

Lemma walk_reject l1 x l2 :
  walkStep (walkAfter walkInit l1) x = None -> walk (l1 ++ x :: l2) = walk (l1 ++ l2).
Proof. intros H. unfold walk. rewrite !walkRun_app. cbn. by rewrite H. Qed.

(** Either nothing is rejected, or some element is. *)
Lemma walkRun_cases s l :
  walkRun s l = l \/ exists l1 x l2, l = l1 ++ x :: l2 /\ walkStep (walkAfter s l1) x = None.
Proof.
  revert s. induction l as [|x l IH]; intros s; [by left|]. cbn.
  destruct (walkStep s x) as [s'|] eqn:E.
  - destruct (IH s') as [->|(l1 & y & l2 & -> & Hy)]; [by left|right].
    exists (x :: l1), y, l2. split; [done|]. cbn. by rewrite E.
  - right. by exists [], x, l.
Qed.

Lemma walkAfter_app s l1 l2 : walkAfter s (l1 ++ l2) = walkAfter (walkAfter s l1) l2.
Proof. unfold walkAfter. apply foldl_app. Qed.

Lemma walk_sub l x : x ∈ walk l -> x ∈ l.
Proof.
  unfold walk. generalize walkInit. induction l as [|y l IH]; intros s; cbn; [done|].
  rewrite elem_of_cons. destruct (walkStep s y).
  - intros [->|H]%elem_of_cons; [by left|right; by eapply IH].
  - intros H. right. by eapply IH.
Qed.

Lemma walk_idem l : walk (walk l) = walk l.
Proof.
  remember (length l) as n eqn:Hn. revert l Hn. induction n as [n IH] using lt_wf_ind. intros l ->.
  destruct (walkRun_cases walkInit l) as [E|(l1 & x & l2 & -> & Hx)].
  - unfold walk at 2 3. by rewrite E.
  - rewrite (walk_reject _ _ _ Hx). eapply IH; [|done]. rewrite !length_app. cbn. lia.
Qed.

(** ** Adding elements keeps rejections *)

(** The state [s'] of a walk that saw one more element of group [k] than [s]. *)
Definition ahead (k : nat) (s s' : walkState) : Prop :=
  ws_kept s' <= window /\
  (s' = s \/ s' = MkWalkState (ws_kept s + 1) (groupInc (ws_groups s) k) \/ ws_kept s' = window).

Lemma groupCount_inc groups k k' :
  groupCount (groupInc groups k) k' = groupCount groups k' + (if decide (k = k') then 1 else 0).
Proof.
  unfold groupInc. unfold groupCount at 1. rewrite lookup_insert. case_decide; [|cbn; unfold groupCount; lia].
  subst. done.
Qed.

Lemma groupInc_comm groups k k' : groupInc (groupInc groups k) k' = groupInc (groupInc groups k') k.
Proof.
  destruct (decide (k = k')) as [->|Hne]; [done|]. unfold groupInc at 1 3. rewrite !groupCount_inc.
  rewrite !decide_False by done. rewrite !Z.add_0_r. unfold groupInc. by rewrite insert_insert_ne by done.
Qed.

Lemma walkStep_None s x :
  walkStep s x = None <->
  ws_kept s = window \/ (grouped = true /\ perGroup <= groupCount (ws_groups s) (key x)).
Proof.
  unfold walkStep. destruct (Z.eqb_spec (ws_kept s) window), grouped, (Z.leb_spec perGroup (groupCount (ws_groups s) (key x)));
    cbn; split; intros H'; try done; try (by left); try (by right); destruct H' as [H'|[H' ?]]; try done; lia.
Qed.

Lemma ahead_reject k s s' x : ahead k s s' -> walkStep s x = None -> walkStep s' x = None.
Proof.
  rewrite !walkStep_None. intros [Hle [->|[->|Hw]]] H; [done| |by left]. cbn in *.
  destruct H as [Hk|[Hg H]]; [lia|]. right. split; [done|]. rewrite groupCount_inc. case_decide; lia.
Qed.

Lemma ahead_step k s s' x :
  ahead k s s' -> ahead k (default s (walkStep s x)) (default s' (walkStep s' x)).
Proof.
  intros Ha. pose proof Ha as [Hle Hc]. destruct (walkStep s' x) as [t'|] eqn:E'; cbn.
  - destruct (walkStep s x) as [t|] eqn:E; cbn; [|rewrite (ahead_reject _ _ _ _ Ha E) in E'; done].
    unfold walkStep in E, E'. destruct (_ || _) eqn:B in E; [done|]. destruct (_ || _) eqn:B' in E'; [done|].
    simplify_eq. apply orb_false_iff in B as [B _], B' as [B' _]. reflect_bools. split; cbn; [lia|].
    destruct Hc as [->|[->|Hc]]; cbn in *; [by left| |lia]. right. left. f_equal. apply groupInc_comm.
  - destruct Hc as [->|[->|Hc]].
    + rewrite E'. cbn. split; [done|by left].
    + destruct (walkStep s x) as [t|] eqn:E; cbn; [|split; [done|by right; left]].
      apply walkStep_None in E' as [E'|[Hg E']]; [split; [done|by right; right]|]. cbn in E', Hle.
      unfold walkStep in E. destruct (_ || _) eqn:B in E; [done|]. simplify_eq.
      apply orb_false_iff in B as [_ B]. cbn in B. apply Z.leb_gt in B.
      rewrite groupCount_inc in E'. case_decide as Hk; [|lia]. subst. split; [done|]. by left.
    + split; [done|]. by right; right.
Qed.

Lemma ahead_after k l : forall s s', ahead k s s' -> ahead k (walkAfter s l) (walkAfter s' l).
Proof. induction l as [|x l IH]; intros s s' H; [done|]. cbn. by apply IH, ahead_step. Qed.

Lemma walkAfter_le s l : ws_kept s <= window -> ws_kept (walkAfter s l) <= window.
Proof.
  revert s. induction l as [|x l IH]; intros s H; [done|]. cbn. apply IH. unfold walkStep.
  destruct (_ || _) eqn:B; [done|]. apply orb_false_iff in B as [B _]. reflect_bools. cbn. lia.
Qed.

Lemma reject_insert l1 b l2 x :
  0 <= window -> walkStep (walkAfter walkInit (l1 ++ l2)) x = None ->
  walkStep (walkAfter walkInit (l1 ++ b :: l2)) x = None.
Proof.
  intros Hw. apply (ahead_reject (key b)). rewrite !walkAfter_app. cbn. apply ahead_after.
  assert (ws_kept (walkAfter walkInit l1) <= window) as Hle by (by apply walkAfter_le).
  set (s := walkAfter walkInit l1) in *. unfold walkStep. destruct (_ || _) eqn:B; cbn; [by split; [|left]|].
  apply orb_false_iff in B as [B _]. reflect_bools. split; cbn; [lia|by right; left].
Qed.

(** ** A walk that is full *)

Lemma walkAfter_count s l : ws_kept (walkAfter s l) = ws_kept s + zlen (walkRun s l).
Proof.
  revert s. induction l as [|x l IH]; intros s; cbn; [rewrite zlen_nil; lia|].
  destruct (walkStep s x) as [s'|] eqn:E; cbn; [|by rewrite IH]. rewrite IH, zlen_cons.
  unfold walkStep in E. destruct (_ || _); [done|]. simplify_eq. cbn. lia.
Qed.

Lemma reject_full l x : walk l = l -> zlen l = window -> walkStep (walkAfter walkInit l) x = None.
Proof.
  intros Hl Hz. apply walkStep_None. left. rewrite walkAfter_count. unfold walk in Hl. rewrite Hl. cbn. lia.
Qed.
End walk.

(** ** What a walk selects *)

(** The elements with fewer than [perGroup] elements of their group before them. *)
Section eligible.
Context {A : Type} (key : A -> nat) (perGroup : Z).

Definition seenCount (seen : list A) (k : nat) : Z := zlen (filter (fun y => key y = k) seen).

Fixpoint eligible (seen l : list A) : list A :=
  match l with
  | [] => []
  | x :: l => if seenCount seen (key x) <? perGroup then x :: eligible (x :: seen) l else eligible (x :: seen) l
  end.

Lemma seenCount_cons x seen k : seenCount (x :: seen) k = seenCount seen k + (if decide (key x = k) then 1 else 0).
Proof.
  unfold seenCount. rewrite filter_cons. case_decide; [rewrite zlen_cons|]; lia.
Qed.

Lemma walkRun_eligible grouped window l : forall s seen,
  (forall k, grouped = true -> groupCount (ws_groups s) k = Z.min (seenCount seen k) (Z.max perGroup 0)) ->
  0 <= ws_kept s <= window ->
  walkRun key grouped perGroup window s l =
  take (Z.to_nat (window - ws_kept s)) (if grouped then eligible seen l else l).
Proof.
  induction l as [|x l IH]; intros s seen Hg Hw.
  { destruct grouped; cbn [walkRun eligible]; by rewrite take_nil. }
  assert (forall k, 0 <= seenCount seen k) as Hpos by (intros; apply zlen_nonneg).
  cbn [walkRun eligible]. destruct (Z.eqb_spec (ws_kept s) window) as [E|E].
  - replace (Z.to_nat (window - ws_kept s)) with 0%nat by lia. rewrite take_0.
    assert (forall l', walkRun key grouped perGroup window s l' = []) as Hnil.
    { induction l' as [|y l' IHl]; [done|]. cbn. unfold walkStep. by rewrite E, Z.eqb_refl. }
    unfold walkStep. rewrite E, Z.eqb_refl. cbn. apply Hnil.
  - unfold walkStep. rewrite (proj2 (Z.eqb_neq _ _) E). cbn [orb].
    assert (Z.to_nat (window - ws_kept s) = S (Z.to_nat (window - (ws_kept s + 1)))) as Hn by lia.
    destruct grouped; cbn [andb].
    + specialize (Hg) as Hgk. rewrite Hg by done. pose proof (Hpos (key x)).
      destruct (Z.leb_spec perGroup (Z.min (seenCount seen (key x)) (Z.max perGroup 0))) as [Hl|Hl].
      * rewrite (proj2 (Z.ltb_ge _ _)) by lia. apply IH; [|done]. intros k _. rewrite seenCount_cons, Hg by done.
        case_decide; subst; lia.
      * rewrite (proj2 (Z.ltb_lt _ _)) by lia. rewrite Hn. cbn [take firstn]. f_equal.
        apply (IH (MkWalkState (ws_kept s + 1) (groupInc (ws_groups s) (key x)))); [|cbn; lia]. intros k _. cbn.
        rewrite groupCount_inc, seenCount_cons, Hg by done.
        case_decide; subst; lia.
    + rewrite Hn. cbn [firstn]. f_equal.
      apply (IH (MkWalkState (ws_kept s + 1) (groupInc (ws_groups s) (key x))) seen); [done|cbn; lia].
Qed.

Lemma walk_eligible grouped window l :
  0 <= window ->
  walk key grouped perGroup window l = take (Z.to_nat window) (if grouped then eligible [] l else l).
Proof.
  intros Hw. unfold walk. rewrite (walkRun_eligible grouped window l walkInit []); cbn; [by rewrite Z.sub_0_r| |lia].
  intros k _. unfold groupCount, seenCount. rewrite lookup_empty. cbn. unfold zlen. cbn. lia.
Qed.
End eligible.

(** ** Walks over sorted selections *)

Section sorted.
Context {A : Type} (key : A -> nat) (grouped : bool) (perGroup window : Z) (Hwindow : 0 <= window).
Context (le : relation A) `{!RelDecision le, !Transitive le, !Total le}.
Context (P : A -> Prop) (Hanti : forall x y, P x -> P y -> le x y -> le y x -> x = y).

#[local] Abbreviation walk := (walk key grouped perGroup window).

(** The result a list of candidates leads to. *)
Definition ranking (l : list A) : list A := walk (merge_sort le l).

Lemma sort_unique l s : Forall P l -> StronglySorted le s -> s ≡ₚ l -> s = merge_sort le l.
Proof using All.
  intros HP Hs Hp. apply (StronglySorted_unique_strong le); [|done|by apply StronglySorted_merge_sort; apply _|].
  - intros x y Hx Hy Hxy Hyx. rewrite Forall_forall in HP. apply Hanti; [| |done|done].
    + apply HP. by rewrite <- Hp.
    + apply HP. by rewrite <- (merge_sort_Permutation le l).
  - by rewrite Hp, merge_sort_Permutation.
Qed.

Lemma ranking_perm l l' : Forall P l -> l ≡ₚ l' -> ranking l = ranking l'.
Proof using All.
  intros HP Hp. unfold ranking. f_equal. apply sort_unique; [by rewrite <- Hp| |].
  - apply StronglySorted_merge_sort; apply _.
  - by rewrite merge_sort_Permutation.
Qed.

(** Insertion into a sorted list. *)
Lemma sorted_insert s b :
  StronglySorted le s -> exists s1 s2, s = s1 ++ s2 /\ StronglySorted le (s1 ++ b :: s2).
Proof using Transitive0 Total0 RelDecision0.
  induction 1 as [|x s Hs IH Hx]; [exists [], []; by repeat constructor|].
  destruct (decide (le b x)) as [Hb|Hb].
  - exists [], (x :: s). split; [done|]. constructor; [by constructor|]. constructor; [done|].
    eapply Forall_impl; [exact Hx|]. intros y. by apply transitivity.
  - destruct IH as (s1 & s2 & -> & Hi). exists (x :: s1), s2. split; [done|]. cbn. constructor; [done|].
    apply Forall_app in Hx as [H1 H2]. apply Forall_app; split; [done|]. constructor; [|done].
    by destruct (total le b x).
Qed.

(** An element that is rejected in a selection can be dropped from it for good. *)
Lemma absorb x items l1 l2 more :
  Forall P (x :: items ++ more) -> StronglySorted le (l1 ++ x :: l2) -> l1 ++ l2 ≡ₚ items ->
  walkStep key grouped perGroup window (walkAfter key grouped perGroup window walkInit l1) x = None ->
  ranking (x :: items ++ more) = ranking (items ++ more).
Proof using All.
  revert items l1 l2. induction more as [|b more IH]; intros items l1 l2 HP Hs Hp Hx.
  - rewrite app_nil_r in *. unfold ranking. apply Forall_cons in HP as [HPx HP].
    rewrite <- (sort_unique (x :: items) (l1 ++ x :: l2)).
    + rewrite <- (sort_unique items (l1 ++ l2)); [by apply walk_reject|done| |done].
      apply StronglySorted_app in Hs as (H1 & H2 & H3). apply StronglySorted_cons in H3 as [_ H3].
      apply StronglySorted_app; split_and!; [|done|done]. intros y z Hy Hz. apply H1; [done|by right].
    + by constructor.
    + done.
    + by rewrite <- Permutation_middle, Hp.
  - assert (Forall P (x :: (b :: items) ++ more)) as HP'.
    { pose proof HP as HP2. by rewrite <- Permutation_middle in HP2. }
    rewrite (ranking_perm _ (x :: (b :: items) ++ more) HP) by (by rewrite <- Permutation_middle).
    apply Forall_cons in HP as [_ HP].
    rewrite (ranking_perm (items ++ b :: more) ((b :: items) ++ more) HP) by (by rewrite <- Permutation_middle).
    destruct (sorted_insert _ b Hs) as (s1 & s2 & E & Hi). symmetry in E.
    apply app_eq_app in E as (k & [[-> E]|[-> E]]).
    + destruct k as [|y k]; cbn in E.
      * subst s2. rewrite app_nil_r in *. cbn [app] in Hi.
        apply (IH (b :: items) (l1 ++ [b]) l2); [done|by rewrite <- app_assoc|by rewrite <- app_assoc; cbn; rewrite <- Permutation_middle, Hp|].
        apply reject_insert; [done|]. by rewrite app_nil_r.
      * simplify_eq. rewrite <- app_assoc in Hi. cbn in Hi.
        apply (IH (b :: items) l1 (k ++ b :: s2)); [done|done| |done].
        by rewrite <- !Permutation_middle, Hp.
    + rewrite E in Hi. apply (IH (b :: items) (s1 ++ b :: k) l2); [done|by rewrite <- app_assoc in *|..].
      * rewrite <- app_assoc in *. cbn. by rewrite <- Permutation_middle, Hp.
      * by apply reject_insert.
Qed.

(** A selection may be replaced by its walk at any time. *)
Lemma settle_ranking items more :
  Forall P (items ++ more) -> ranking (ranking items ++ more) = ranking (items ++ more).
Proof using All.
  intros HP. apply Forall_app in HP as [HPi HPm]. unfold ranking at 2.
  set (s := merge_sort le items). assert (s ≡ₚ items) as Hps by apply merge_sort_Permutation.
  assert (StronglySorted le s) as Hs by (apply StronglySorted_merge_sort; apply _).
  rewrite (ranking_perm (items ++ more) (s ++ more)); [|by apply Forall_app|by rewrite Hps].
  assert (Forall P s) as HPs by (by rewrite Hps). clearbody s. clear items HPi Hps.
  remember (length s) as n eqn:Hn. revert s Hn Hs HPs. induction n as [n IH] using lt_wf_ind. intros s -> Hs HPs.
  destruct (walkRun_cases key grouped perGroup window walkInit s) as [E|(l1 & x & l2 & -> & Hx)].
  - by unfold walk; rewrite E.
  - rewrite (walk_reject _ _ _ _ _ _ _ Hx).
    assert (Forall P (l1 ++ l2) /\ P x) as [HP' HPx].
    { apply Forall_app in HPs as [? HPs]. apply Forall_cons in HPs as [? ?]. by rewrite Forall_app. }
    rewrite (IH (length (l1 ++ l2))); [|rewrite !length_app; cbn; lia|done| |done].
    + assert (Forall P (x :: (l1 ++ l2) ++ more)) as Hall by (constructor; [done|by apply Forall_app]).
      rewrite <- (absorb x (l1 ++ l2) l1 l2 more); try done.
      apply ranking_perm; [done|]. by rewrite <- (Permutation_middle l1 l2 x).
    + apply StronglySorted_app in Hs as (H1 & H2 & H3). apply StronglySorted_cons in H3 as [_ H3].
      apply StronglySorted_app; split_and!; [|done|done]. intros y z Hy Hz. apply H1; [done|by right].
Qed.

(** Behind a full window nothing is selected any more. *)
Lemma full_ranking items t x more :
  walk items = items -> StronglySorted le items -> zlen items = window -> last items = Some t -> le t x ->
  Forall P (x :: items ++ more) -> ranking (x :: items ++ more) = ranking (items ++ more).
Proof using All.
  intros Hw Hs Hz Ht Hx HP. apply (absorb x items items []); [done| |by rewrite app_nil_r|by apply reject_full].
  apply StronglySorted_app; split_and!; [|done|by repeat constructor].
  intros y z Hy Hz'. apply list_elem_of_singleton in Hz' as ->. apply last_Some in Ht as [items' ->].
  apply elem_of_app in Hy as [Hy|Hy]; [|apply list_elem_of_singleton in Hy as ->; done].
  etransitivity; [|exact Hx]. apply StronglySorted_app in Hs as (H1 & _). apply H1; [done|]. by left.
Qed.

(** The walk of a sorted list is sorted. *)
Lemma walk_sorted s : StronglySorted le s -> StronglySorted le (walk s).
Proof.
  unfold walk. generalize (@walkInit). intros st Hs. revert st. induction Hs as [|x s Hs IH Hx]; intros st; cbn; [constructor|].
  destruct (walkStep _ _ _ _ st x) as [st'|]; [|apply IH]. constructor; [apply IH|].
  apply Forall_forall. intros y Hy. rewrite Forall_forall in Hx. apply Hx.
  clear - Hy. revert st' Hy. induction s as [|z s IH]; intros st' Hy; cbn in *; [done|].
  rewrite elem_of_cons. destruct (walkStep _ _ _ _ st' z); [apply elem_of_cons in Hy as [->|Hy]; [by left|]|]; right; by eapply IH.
Qed.
End sorted.
