(* ===== verification/CsRank.v ===== *)
(** * CsRank: ranking rows by Hamming distance (codestore/rank.go, store.go [Score],
      staticembed/model.go [Code.Distance])

    [rank] splits the rows among workers; each worker offers its matching rows to a
    bounded [selection] that sorts and cuts itself down whenever it reaches its
    capacity, and the partial selections are merged, sorted and walked once more.
    The theorem says that all this machinery, for any number of workers, computes
    the plain definition: sort all matching rows by distance and id, keep the first
    [perGroup] rows of each group, take the first [window] of them. *)

From Stdlib Require Import QArith.
From S2P Require Import Prelude GoBinary CsRecord CsCollection CsIndex CsLog CsWrite CsDurable CsFilter CsWalk.

Open Scope Z_scope.

(** ** Distances and scores *)

(** [bits.OnesCount64]. *)
Definition onesCount64 (x : Z) : Z :=
  foldr (fun i n => (if Z.testbit x (Z.of_nat i) then 1 else 0) + n) 0 (seq 0 64).

Definition Distance (code other : Code) : Z :=
  foldr (fun word n => onesCount64 (Z.lxor (nth word code 0) (nth word other 0)) + n) 0 (seq 0 codeWords).

Definition Dimensions : Z := 256.

(** A [float64] as far as [maxDistanceFor] can tell: comparisons with NaN are false. *)
Inductive float64 := fNaN | fInf (negative : bool) | fNum (q : Q).

Definition fLess (x y : float64) : bool :=
  match x, y with
  | fNaN, _ | _, fNaN => false
  | fInf nx, fInf ny => nx && negb ny
  | fInf nx, fNum _ => nx
  | fNum _, fInf ny => negb ny
  | fNum p, fNum q => match Qcompare p q with Lt => true | _ => false end
  end.

(** [1 - 2*float64(distance)/256]: all intermediate results are exact. *)
Definition Score (distance : Z) : float64 := fNum (1 - 2 * inject_Z distance / inject_Z Dimensions)%Q.

(** The loop of [maxDistanceFor] over the remaining distances. *)
Fixpoint maxDistanceLoop (minScore : float64) (limit : Z) (distances : list nat) : Z :=
  match distances with
  | [] => limit
  | distance :: distances =>
      if fLess (Score (Z.of_nat distance)) minScore then limit
      else maxDistanceLoop minScore (Z.of_nat distance) distances
  end.

Definition maxDistanceFor (minScore : float64) : Z :=
  maxDistanceLoop minScore (-1) (seq 0 (S (Z.to_nat Dimensions))).

(** ** Candidates *)

Definition rankingWorkerRows : Z := 4096.
Definition selectionWindowFactor : Z := 2.
Definition selectionMinimumCapacity : Z := 64.

Record candidate := MkCandidate { cand_position : nat; cand_distance : Z }.

Record rankingWalk := MkWalk {
  walk_window : Z;
  walk_maxDistance : Z;
  walk_grouped : bool;
  walk_groupColumn : nat;
  walk_perGroup : Z;
}.

(** The id of the row at a position; candidates always come from the row array. *)
Definition idAt (st : codeCollection) (position : nat) : bytes :=
  from_option row_id [] (cc_rows st !! position).

Definition compareCandidates (st : codeCollection) (left right : candidate) : Z :=
  if negb (cand_distance left =? cand_distance right) then cand_distance left - cand_distance right
  else strCompare (idAt st (cand_position left)) (idAt st (cand_position right)).

(** The order [slices.SortFunc] sorts by. *)
Definition candLe (st : codeCollection) (left right : candidate) : Prop :=
  compareCandidates st left right <= 0.

#[export] Instance candLe_dec st : RelDecision (candLe st).
Proof. intros l r. unfold candLe. apply _. Defined.

Definition sortCandidates (st : codeCollection) (l : list candidate) : list candidate :=
  merge_sort (candLe st) l.

(** A null value groups with the absent one. *)
Definition groupKey (st : codeCollection) (position column : nat) : outcome unit nat :=
  match cc_rows st !! position with
  | None => Panic
  | Some r =>
      match row_cells r !! column with
      | None => Panic
      | Some 0%nat => Ok 0%nat
      | Some key =>
          match cc_dictionaries st !! column with
          | None => Panic
          | Some dict =>
              match dict_values dict !! key with
              | None => Panic
              | Some v => Ok (if sv_Null v then 0%nat else key)
              end
          end
      end
  end.

(** The loop of [walkRanking]; [kept] grows in place at the front of [sorted], which
    it never overtakes. *)
Fixpoint walkLoop (st : codeCollection) (w : rankingWalk) (perGroup : gmap nat Z) (kept sorted : list candidate)
  : outcome unit (list candidate) :=
  match sorted with
  | [] => Ok kept
  | ranked :: sorted =>
      if zlen kept =? walk_window w then Ok kept else
      if walk_grouped w then
        key ← groupKey st (cand_position ranked) (walk_groupColumn w);
        if walk_perGroup w <=? groupCount perGroup key then walkLoop st w perGroup kept sorted
        else walkLoop st w (groupInc perGroup key) (kept ++ [ranked]) sorted
      else walkLoop st w perGroup (kept ++ [ranked]) sorted
  end.

Definition walkRanking (st : codeCollection) (sorted : list candidate) (w : rankingWalk)
  : outcome unit (list candidate) :=
  walkLoop st w ∅ [] sorted.

(** ** Selections *)

Record selection := MkSelection {
  sel_items : list candidate;
  sel_full : bool;
  sel_threshold : candidate;
}.

Definition newSelection : selection := MkSelection [] false (MkCandidate 0 0).

Definition capacity (w : rankingWalk) : Z :=
  Z.max (walk_window w * selectionWindowFactor) selectionMinimumCapacity.

Definition settle (st : codeCollection) (w : rankingWalk) (s : selection) : outcome unit selection :=
  items ← walkRanking st (sortCandidates st (sel_items s)) w;
  if zlen items =? walk_window w then
    match last items with
    | None => Panic
    | Some threshold => Ok (MkSelection items true threshold)
    end
  else Ok (MkSelection items (sel_full s) (sel_threshold s)).

Definition offer (st : codeCollection) (w : rankingWalk) (s : selection) (next : candidate)
  : outcome unit selection :=
  if sel_full s && (0 <=? compareCandidates st next (sel_threshold s)) then Ok s else
  let s := MkSelection (sel_items s ++ [next]) (sel_full s) (sel_threshold s) in
  if capacity w <=? zlen (sel_items s) then settle st w s else Ok s.

(** ** Ranking *)

(** The loop of one worker over its positions. *)
Fixpoint workerLoop (st : codeCollection) (query : Code) (matches : predicate) (w : rankingWalk)
    (positions : list nat) (best : selection) : outcome unit selection :=
  match positions with
  | [] => settle st w best
  | position :: positions =>
      match matches position with
      | Fail _ | Panic => Panic
      | Ok truthTrue =>
          match cc_codes st !! position with
          | None => Panic
          | Some code =>
              let distance := Distance query code in
              if walk_maxDistance w <? distance then workerLoop st query matches w positions best else
              best ← offer st w best (MkCandidate position distance);
              workerLoop st query matches w positions best
          end
      | Ok _ => workerLoop st query matches w positions best
      end
  end.

(** The rows of worker [worker]: from [worker*chunk] up to [min(start+chunk, len(rows))]. *)
Definition workerPositions (n chunk worker : nat) : list nat :=
  let start := (worker * chunk)%nat in
  let end_ := Nat.min (start + chunk) n in
  seq start (end_ - start).

(** The number of workers: [max(min(GOMAXPROCS, len(rows)/rankingWorkerRows), 1)]. *)
Definition workerCount (procs n : nat) : nat :=
  Nat.max (Nat.min procs (n / Z.to_nat rankingWorkerRows)) 1.

Inductive rankError := errWorkerPanicked.

(** All workers run; a panic in any of them fails the ranking. *)
Fixpoint runWorkers (st : codeCollection) (query : Code) (matches : predicate) (w : rankingWalk)
    (chunk : nat) (workers : list nat) : outcome rankError (list candidate) :=
  match workers with
  | [] => Ok []
  | worker :: workers =>
      match workerLoop st query matches w (workerPositions (length (cc_rows st)) chunk worker) newSelection with
      | Ok best =>
          rest ← runWorkers st query matches w chunk workers;
          Ok (sel_items best ++ rest)
      | _ => Fail errWorkerPanicked
      end
  end.

Definition rank (procs : nat) (st : codeCollection) (query : Code) (matches : predicate) (w : rankingWalk)
  : outcome rankError (list candidate) :=
  let n := length (cc_rows st) in
  let workers := workerCount procs n in
  let chunk := ((n + workers - 1) / workers)%nat in
  merged ← runWorkers st query matches w chunk (seq 0 workers);
  match walkRanking st (sortCandidates st merged) w with
  | Ok ranked => Ok ranked
  | _ => Panic
  end.

(** ** The reference definition *)

(** All rows that match, with their distance, within the maximal distance. *)
Definition candidateAt (st : codeCollection) (query : Code) (matches : predicate) (w : rankingWalk)
    (position : nat) : option candidate :=
  match matches position, cc_codes st !! position with
  | Ok truthTrue, Some code =>
      let distance := Distance query code in
      if distance <=? walk_maxDistance w then Some (MkCandidate position distance) else None
  | _, _ => None
  end.

Definition candidates (st : codeCollection) (query : Code) (matches : predicate) (w : rankingWalk)
    (positions : list nat) : list candidate :=
  omap (candidateAt st query matches w) positions.

Definition keyOf (st : codeCollection) (w : rankingWalk) (c : candidate) : nat :=
  match groupKey st (cand_position c) (walk_groupColumn w) with Ok k => k | _ => 0%nat end.

(** Sort all candidates, keep the first [perGroup] of each group, take [window]. *)
Definition rankReference (st : codeCollection) (query : Code) (matches : predicate) (w : rankingWalk)
  : list candidate :=
  let sorted := sortCandidates st (candidates st query matches w (seq 0 (length (cc_rows st)))) in
  take (Z.to_nat (walk_window w))
    (if walk_grouped w then eligible (keyOf st w) (walk_perGroup w) [] sorted else sorted).

(** ** The candidate order *)

#[export] Instance candLe_total st : Total (candLe st).
Proof.
  intros l r. unfold candLe, compareCandidates. rewrite (Z.eqb_sym (cand_distance r)).
  destruct (Z.eqb_spec (cand_distance l) (cand_distance r)); cbn [negb]; [|lia].
  rewrite (strCompare_opp (idAt st (cand_position l))). lia.
Qed.

#[export] Instance candLe_trans st : Transitive (candLe st).
Proof.
  intros a b c. unfold candLe, compareCandidates.
  destruct (Z.eqb_spec (cand_distance a) (cand_distance b)), (Z.eqb_spec (cand_distance b) (cand_distance c)),
    (Z.eqb_spec (cand_distance a) (cand_distance c)); cbn [negb]; try lia. apply strCompare_le_trans.
Qed.

Section ranking.
Context (st : codeCollection) (Hi : indexInv st) (w : rankingWalk) (Hwindow : 0 < walk_window w).
Context (Hgroup : walk_grouped w = true -> (walk_groupColumn w < length (h_Scalars (cc_header st)))%nat).

Local Lemma Hw0 : 0 <= walk_window w.
Proof using Hwindow. by apply Z.lt_le_incl. Qed.

Definition candValid (c : candidate) : Prop := (cand_position c < length (cc_rows st))%nat.

Lemma candLe_antisym x y : candValid x -> candValid y -> candLe st x y -> candLe st y x -> x = y.
Proof using All.
  unfold candLe, compareCandidates. intros Hx Hy. rewrite (Z.eqb_sym (cand_distance y)).
  destruct (Z.eqb_spec (cand_distance x) (cand_distance y)) as [Ed|]; cbn [negb]; [|lia].
  rewrite (strCompare_opp (idAt st (cand_position x))). intros H1 H2.
  assert (idAt st (cand_position x) = idAt st (cand_position y)) as E by (apply strCompare_eq; lia).
  unfold idAt in E. destruct (lookup_lt_is_Some_2 _ _ Hx) as [rx Hrx]. destruct (lookup_lt_is_Some_2 _ _ Hy) as [ry Hry].
  rewrite Hrx, Hry in E. cbn in E. pose proof (row_id_inj st _ _ _ _ Hi Hrx Hry E) as H. clear - Ed H. destruct x, y; cbn in *. by subst.
Qed.

Lemma groupKey_ok c :
  candValid c -> walk_grouped w = true ->
  groupKey st (cand_position c) (walk_groupColumn w) = Ok (keyOf st w c).
Proof using All.
  intros Hc Hg. unfold keyOf. enough (exists k, groupKey st (cand_position c) (walk_groupColumn w) = Ok k) as [k ->] by done.
  unfold groupKey. destruct (lookup_lt_is_Some_2 _ _ Hc) as [r Hr]. rewrite Hr.
  pose proof (ii_rows _ Hi) as Hrows. rewrite Forall_lookup in Hrows. destruct (Hrows _ _ Hr) as [Hlen Hcells].
  destruct (lookup_lt_is_Some_2 (row_cells r) (walk_groupColumn w)) as [id Hid]; [rewrite Hlen; by apply Hgroup|].
  rewrite Hid. destruct id as [|id]; [by eexists|]. destruct (Hcells _ _ Hid) as (d & Hd & Hlt); [done|].
  rewrite Hd. destruct (lookup_lt_is_Some_2 _ _ Hlt) as [v Hv]. rewrite Hv. by eexists.
Qed.

Lemma walkLoop_spec sorted : forall groups groups' kept,
  Forall candValid sorted -> (walk_grouped w = true -> groups' = groups) ->
  walkLoop st w groups kept sorted =
  Ok (kept ++ walkRun (keyOf st w) (walk_grouped w) (walk_perGroup w) (walk_window w)
                (MkWalkState (zlen kept) groups') sorted).
Proof using All.
  pose proof groupKey_ok as Hok.
  induction sorted as [|c sorted IH]; intros groups groups' kept Hv Hgr; cbn [walkLoop walkRun].
  { by rewrite app_nil_r. }
  apply Forall_cons in Hv as [Hc Hv]. unfold walkStep. cbn [ws_kept ws_groups].
  assert (zlen (kept ++ [c]) = zlen kept + 1) as Hk by (rewrite zlen_app; done).
  destruct (Z.eqb_spec (zlen kept) (walk_window w)) as [E|E]; cbn [orb].
  - assert (forall l g, walkRun (keyOf st w) (walk_grouped w) (walk_perGroup w) (walk_window w) (MkWalkState (zlen kept) g) l = []) as ->.
    { induction l as [|x l IHl]; intros g; [done|]. cbn. unfold walkStep. cbn. rewrite (proj2 (Z.eqb_eq _ _) E). cbn. apply IHl. }
    by rewrite app_nil_r.
  - destruct (walk_grouped w) eqn:Hg; cbn [andb].
    + rewrite (Hok c Hc eq_refl). cbn [mbind outcome_bind]. rewrite (Hgr eq_refl).
      destruct (_ <=? _); [by apply IH|]. rewrite (IH _ (groupInc groups (keyOf st w c))) by done.
      by rewrite Hk, <- app_assoc.
    + rewrite (IH _ (groupInc groups' (keyOf st w c))) by done. by rewrite Hk, <- app_assoc.
Qed.

#[local] Abbreviation rk := (ranking (keyOf st w) (walk_grouped w) (walk_perGroup w) (walk_window w) (candLe st)).

Lemma walkRanking_sorted l : Forall candValid l -> walkRanking st (sortCandidates st l) w = Ok (rk l).
Proof using All.
  intros Hv. unfold walkRanking, sortCandidates. rewrite (walkLoop_spec _ ∅ ∅); [done| |done].
  by rewrite (merge_sort_Permutation (candLe st) l).
Qed.

Lemma rk_valid l : Forall candValid l -> Forall candValid (rk l).
Proof.
  rewrite !Forall_forall. intros Hv x Hx. apply Hv. rewrite <- (merge_sort_Permutation (candLe st) l). by apply walk_sub in Hx.
Qed.

(** ** Selections *)

(** A selection that stands for the candidates [seen]. *)
Record selInv (seen : list candidate) (s : selection) : Prop := {
  si_seen : Forall candValid seen;
  si_items : Forall candValid (sel_items s);
  si_same : forall more, Forall candValid more -> rk (sel_items s ++ more) = rk (seen ++ more);
  si_full : sel_full s = true -> forall x more, candValid x -> Forall candValid more ->
    candLe st (sel_threshold s) x -> rk (x :: sel_items s ++ more) = rk (sel_items s ++ more);
}.

Lemma settle_spec seen s :
  selInv seen s -> exists s', settle st w s = Ok s' /\ selInv seen s' /\ sel_items s' = rk (sel_items s).
Proof using All.
  intros [Hseen Hitems Hsame Hfull]. unfold settle. rewrite walkRanking_sorted by done. cbn [mbind outcome_bind].
  pose proof (rk_valid _ Hitems) as Hrk.
  assert (forall more, Forall candValid more -> rk (rk (sel_items s) ++ more) = rk (sel_items s ++ more)) as Hset.
  { intros more Hm. apply (settle_ranking _ _ _ _ Hw0 _ candValid candLe_antisym). by apply Forall_app. }
  destruct (Z.eqb_spec (zlen (rk (sel_items s))) (walk_window w)) as [E|E].
  - destruct (last (rk (sel_items s))) as [t|] eqn:El.
    2: { apply last_None in El. rewrite El, zlen_nil in E. lia. }
    eexists. split; [done|]. split; [|done]. constructor; cbn [sel_items sel_full sel_threshold]; [done|done| |].
    + intros more Hm. rewrite Hset by done. by apply Hsame.
    + intros _ x more Hx Hm Hle.
      apply (full_ranking _ _ _ _ Hw0 _ candValid candLe_antisym _ t); [apply walk_idem| |done|done|done|].
      * apply walk_sorted. apply StronglySorted_merge_sort; apply _.
      * constructor; [done|]. by apply Forall_app.
  - eexists. split; [done|]. split; [|done]. constructor; cbn [sel_items sel_full sel_threshold]; [done|done| |].
    + intros more Hm. rewrite Hset by done. by apply Hsame.
    + intros Hf x more Hx Hm Hle.
      rewrite (ranking_perm _ _ _ _ Hw0 _ candValid candLe_antisym _ (rk (sel_items s) ++ x :: more)).
      * rewrite Hset by (by constructor). rewrite Hset by done. rewrite <- (Hfull Hf x more Hx Hm Hle).
        apply (ranking_perm _ _ _ _ Hw0 _ candValid candLe_antisym); [|by rewrite <- Permutation_middle].
        apply Forall_app; split; [done|by constructor].
      * constructor; [done|]. by apply Forall_app.
      * by rewrite <- Permutation_middle.
Qed.

Lemma selInv_skip seen s x :
  selInv seen s -> candValid x -> sel_full s = true -> candLe st (sel_threshold s) x -> selInv (seen ++ [x]) s.
Proof using All.
  intros [Hseen Hitems Hsame Hfull] Hx Hf Hle. constructor; [apply Forall_app; by repeat constructor|done| |done].
  intros more Hm. rewrite <- app_assoc. cbn. rewrite <- (Hsame (x :: more)) by (by constructor).
  rewrite <- (Hfull Hf x more Hx Hm Hle). apply (ranking_perm _ _ _ _ Hw0 _ candValid candLe_antisym).
  - constructor; [done|]. by apply Forall_app.
  - by rewrite <- Permutation_middle.
Qed.

Lemma selInv_add seen s x :
  selInv seen s -> candValid x -> selInv (seen ++ [x]) (MkSelection (sel_items s ++ [x]) (sel_full s) (sel_threshold s)).
Proof using All.
  intros [Hseen Hitems Hsame Hfull] Hx. constructor; cbn [sel_items sel_full sel_threshold].
  - apply Forall_app; by repeat constructor.
  - apply Forall_app; by repeat constructor.
  - intros more Hm. rewrite <- !app_assoc. apply Hsame. by constructor.
  - intros Hf y more Hy Hm Hle. rewrite <- app_assoc. apply Hfull; try done. by constructor.
Qed.

Lemma offer_spec seen s x :
  selInv seen s -> candValid x -> exists s', offer st w s x = Ok s' /\ selInv (seen ++ [x]) s'.
Proof using All.
  intros Hs Hx. unfold offer. destruct (sel_full s && _) eqn:E.
  - apply andb_true_iff in E as [Hf E]. reflect_bools. eexists. split; [done|]. apply selInv_skip; try done.
    unfold candLe. assert (forall a b, compareCandidates st b a = - compareCandidates st a b) as Hopp.
    { intros a b. unfold compareCandidates. rewrite (Z.eqb_sym (cand_distance b)).
      destruct (_ =? _); cbn [negb]; [apply strCompare_opp|lia]. }
    rewrite Hopp. lia.
  - cbv zeta. destruct (capacity w <=? _); [|eexists; split; [done|by apply selInv_add]].
    destruct (settle_spec _ _ (selInv_add _ _ _ Hs Hx)) as (s' & ? & ? & _). eauto.
Qed.

(** ** Workers *)

Context (query : Code) (matches : predicate).
Context (Hmatch : forall position, (position < length (cc_rows st))%nat -> exists t, matches position = Ok t).

Lemma candidates_app positions positions' :
  candidates st query matches w (positions ++ positions')
  = candidates st query matches w positions ++ candidates st query matches w positions'.
Proof. apply omap_app. Qed.

Lemma workerLoop_spec positions : forall seen s,
  Forall (fun position => (position < length (cc_rows st))%nat) positions -> selInv seen s ->
  exists s', workerLoop st query matches w positions s = Ok s' /\
    selInv (seen ++ candidates st query matches w positions) s'.
Proof using All.
  induction positions as [|position positions IH]; intros seen s Hp Hs; cbn [workerLoop].
  - cbn. rewrite app_nil_r. destruct (settle_spec _ _ Hs) as (s' & ? & ? & _). eauto.
  - apply Forall_cons in Hp as [Hpos Hp]. destruct (Hmatch position Hpos) as [t Ht]. rewrite Ht.
    change (position :: positions) with ([position] ++ positions). rewrite candidates_app.
    assert (candidates st query matches w [position] =
      match candidateAt st query matches w position with Some c => [c] | None => [] end) as Hone.
    { unfold candidates. cbn. by destruct (candidateAt st query matches w position). }
    unfold candidateAt in Hone. rewrite Ht in Hone.
    destruct t; try (rewrite Hone; cbn [app]; by apply IH).
    destruct (lookup_lt_is_Some_2 (cc_codes st) position) as [code Hcode]; [by rewrite (ii_codes _ Hi)|].
    rewrite Hcode in Hone |- *. rewrite Hone. cbv zeta.
    destruct (Z.ltb_spec (walk_maxDistance w) (Distance query code)) as [Hd|Hd].
    + rewrite (proj2 (Z.leb_gt _ _)) by done. cbn [app]. by apply IH.
    + rewrite (proj2 (Z.leb_le _ _)) by done.
      destruct (offer_spec seen s (MkCandidate position (Distance query code)) Hs Hpos) as (s1 & -> & Hs1).
      cbn [mbind outcome_bind]. destruct (IH _ s1 Hp Hs1) as (s2 & -> & Hs2).
      exists s2. split; [done|]. by rewrite app_assoc.
Qed.

Lemma newSelection_inv : selInv [] newSelection.
Proof. by constructor. Qed.

Lemma workerPositions_valid n chunk worker : Forall (fun position => (position < n)%nat) (workerPositions n chunk worker).
Proof. apply Forall_forall. intros x Hx. apply elem_of_seq in Hx. lia. Qed.

Lemma runWorkers_spec chunk workers :
  exists merged, runWorkers st query matches w chunk workers = Ok merged /\ Forall candValid merged /\
    forall more, Forall candValid more ->
      rk (merged ++ more)
      = rk (candidates st query matches w (concat (map (workerPositions (length (cc_rows st)) chunk) workers)) ++ more).
Proof using All.
  induction workers as [|worker workers (merged & Hm & Hv & Hr)]; cbn [runWorkers map concat].
  - exists []. by split_and!.
  - destruct (workerLoop_spec (workerPositions (length (cc_rows st)) chunk worker) [] newSelection
      (workerPositions_valid _ _ _) newSelection_inv) as (s & -> & [Hseen Hitems Hsame _]).
    rewrite Hm. cbn [mbind outcome_bind]. eexists. split; [done|]. split; [by apply Forall_app|].
    intros more Hmore. rewrite candidates_app. cbn [app] in *. rewrite <- !app_assoc.
    rewrite Hsame by (by apply Forall_app).
    set (mine := candidates st query matches w (workerPositions (length (cc_rows st)) chunk worker)) in *.
    set (others := candidates st query matches w (concat _)) in *.
    assert (Forall candValid others) as Ho.
    { unfold others, candidates. apply Forall_forall. intros c Hc. apply list_elem_of_omap in Hc as (p & Hp & Hc).
      apply list_elem_of_In, in_concat in Hp as (l & Hl & Hp). apply in_map_iff in Hl as (k & <- & _).
      pose proof (workerPositions_valid (length (cc_rows st)) chunk k) as Hvp. rewrite Forall_forall in Hvp.
      apply list_elem_of_In in Hp. specialize (Hvp _ Hp).
      unfold candidateAt in Hc. repeat case_match; simplify_eq. done. }
    rewrite (ranking_perm _ _ _ _ Hw0 _ candValid candLe_antisym (mine ++ merged ++ more) (merged ++ mine ++ more)).
    + rewrite Hr by (by apply Forall_app). apply (ranking_perm _ _ _ _ Hw0 _ candValid candLe_antisym).
      * rewrite !Forall_app. done.
      * rewrite !app_assoc. by rewrite (Permutation_app_comm others mine).
    + rewrite !Forall_app. done.
    + rewrite !app_assoc. by rewrite (Permutation_app_comm merged mine).
Qed.
End ranking.

(** The chunks of the workers are the row positions, each exactly once. *)
Lemma workerPositions_concat n chunk k :
  concat (map (workerPositions n chunk) (seq 0 k)) = seq 0 (Nat.min (k * chunk) n).
Proof.
  induction k as [|k IH]; [done|]. rewrite seq_S, map_app, concat_app, IH. cbn [map concat]. rewrite app_nil_r.
  unfold workerPositions. rewrite Nat.add_0_l.
  destruct (decide (n <= k * chunk)%nat) as [Hn|Hn].
  - replace (Nat.min (k * chunk + chunk) n - k * chunk)%nat with 0%nat by lia. cbn [seq]. rewrite app_nil_r. f_equal. lia.
  - replace (Nat.min (k * chunk) n) with (k * chunk)%nat by lia. rewrite <- seq_app. f_equal. lia.
Qed.

Lemma chunks_cover n workers :
  (0 < workers)%nat -> (n <= workers * ((n + workers - 1) / workers))%nat.
Proof.
  intros Hw. pose proof (Nat.div_mod_eq (n + workers - 1) workers).
  pose proof (Nat.mod_upper_bound (n + workers - 1) workers). lia.
Qed.

(** On a valid collection, with a positive window, a total row predicate and a declared
    group column, [rank] never panics and returns, for any number of processors,
    exactly the reference result.  Chunking, the capacity of the selections, the
    threshold that prunes later rows and the repeated cutting down never change it. *)
Lemma rank_exact procs st query matches w :
  indexInv st -> 0 < walk_window w ->
  (walk_grouped w = true -> (walk_groupColumn w < length (h_Scalars (cc_header st)))%nat) ->
  (forall position, (position < length (cc_rows st))%nat -> exists t, matches position = Ok t) ->
  rank procs st query matches w = Ok (rankReference st query matches w).
Proof.
  intros Hi Hw Hg Hm. unfold rank. set (n := length (cc_rows st)). set (workers := workerCount procs n).
  assert (0 < workers)%nat as Hwk by (unfold workers, workerCount; lia).
  destruct (runWorkers_spec st Hi w Hw Hg query matches Hm ((n + workers - 1) / workers) (seq 0 workers))
    as (merged & -> & Hv & Hr). cbn [mbind outcome_bind].
  rewrite (walkRanking_sorted st Hi w Hw Hg merged Hv).
  specialize (Hr [] ltac:(constructor)). rewrite !app_nil_r in Hr. rewrite Hr. f_equal.
  unfold ranking, rankReference, sortCandidates. rewrite walk_eligible by lia.
  fold n. rewrite workerPositions_concat. pose proof (chunks_cover n workers Hwk).
  by rewrite Nat.min_r by lia.
Qed.

(** The reference only names rows that exist. *)
Lemma eligible_sub {A} (key : A -> nat) perGroup l : forall seen x, x ∈ eligible key perGroup seen l -> x ∈ l.
Proof.
  induction l as [|y l IH]; intros seen x Hx; [done|]. cbn [eligible] in Hx. rewrite elem_of_cons.
  destruct (_ <? _); [apply elem_of_cons in Hx as [->|Hx]; [by left|]|]; right; by eapply IH.
Qed.

Lemma rankReference_valid st query matches w c :
  c ∈ rankReference st query matches w -> (cand_position c < length (cc_rows st))%nat.
Proof.
  unfold rankReference. intros Hc. apply elem_of_take in Hc as (i & Hc & _). apply list_elem_of_lookup_2 in Hc.
  assert (c ∈ sortCandidates st (candidates st query matches w (seq 0 (length (cc_rows st))))) as Hin.
  { destruct (walk_grouped w); [by eapply eligible_sub|done]. }
  unfold sortCandidates in Hin. rewrite (merge_sort_Permutation (candLe st)) in Hin.
  apply list_elem_of_omap in Hin as (p & Hp & Hc'). apply elem_of_seq in Hp.
  unfold candidateAt in Hc'. repeat case_match; simplify_eq; cbn; lia.
Qed.

(** ** The score threshold *)

Lemma Score_mono d d' : d <= d' -> (match Score d', Score d with fNum p, fNum q => p <= q | _, _ => True end)%Q.
Proof.
  intros H. cbn. unfold Qle, Qminus, Qplus, Qmult, Qdiv, Qinv, inject_Z, Qopp. cbn. lia.
Qed.

Lemma fLess_mono p q m : (p <= q)%Q -> fLess (fNum q) m = true -> fLess (fNum p) m = true.
Proof.
  intros Hpq. destruct m as [|neg|r]; unfold fLess; [done|done|].
  destruct (q ?= r)%Q eqn:E; try done. intros _. apply Qlt_alt in E.
  assert (p < r)%Q as Hlt by (by eapply Qle_lt_trans). by rewrite (proj1 (Qlt_alt _ _) Hlt).
Qed.

Lemma maxDistanceLoop_spec minScore n : forall k,
  (forall d, (d < k)%nat -> fLess (Score (Z.of_nat d)) minScore = false) ->
  forall d, (d < k + n)%nat ->
  Z.of_nat d <= maxDistanceLoop minScore (Z.of_nat k - 1) (seq k n) <-> fLess (Score (Z.of_nat d)) minScore = false.
Proof.
  induction n as [|n IH]; intros k Hk d Hd; cbn [seq maxDistanceLoop].
  - split; [intros _; apply Hk; lia|intros _; lia].
  - destruct (fLess (Score (Z.of_nat k)) minScore) eqn:E.
    + split.
      * intros H. apply Hk. lia.
      * intros H. destruct (decide (d < k)%nat) as [|Hge]; [lia|]. exfalso.
        pose proof (Score_mono (Z.of_nat k) (Z.of_nat d) ltac:(lia)) as Hm. cbn in Hm.
        unfold Score in E, H. rewrite (fLess_mono _ _ _ Hm E) in H. done.
    + specialize (IH (S k)). replace (Z.of_nat (S k) - 1) with (Z.of_nat k) in IH by lia. apply IH; [|lia].
      intros d' Hd'. destruct (decide (d' = k)) as [->|]; [done|]. apply Hk. lia.
Qed.

(** The distance limit of a search is the score threshold.  For every distance a
    code can have, a row is within [maxDistanceFor minScore] exactly when its score
    is not below [minScore], also for infinite thresholds and NaN. *)
Theorem maxDistanceFor_score minScore distance :
  0 <= distance <= Dimensions ->
  distance <= maxDistanceFor minScore <-> fLess (Score distance) minScore = false.
Proof.
  intros Hd. unfold Dimensions in Hd. unfold maxDistanceFor.
  pose proof (maxDistanceLoop_spec minScore 257 0 ltac:(lia) (Z.to_nat distance) ltac:(lia)) as H.
  rewrite Z2Nat.id in H by lia. exact H.
Qed.

Lemma maxDistanceFor_score_witness :
  100 <= maxDistanceFor (fNum (1 # 5)) <-> fLess (Score 100) (fNum (1 # 5)) = false.
Proof. apply (maxDistanceFor_score (fNum (1 # 5)) 100). unfold Dimensions. lia. Defined.

(** ** The Hamming distance *)

Lemma onesCount64_range x : 0 <= onesCount64 x <= 64.
Proof.
  unfold onesCount64. assert (forall l, 0 <= foldr (fun i n => (if Z.testbit x (Z.of_nat i) then 1 else 0) + n) 0 l <= zlen l) as H.
  { induction l as [|i l IH]; cbn; [done|]. rewrite zlen_cons. destruct (Z.testbit x (Z.of_nat i)); lia. }
  specialize (H (seq 0 64)). unfold zlen in H. rewrite length_seq in H. lia.
Qed.

Lemma onesCount64_0 x : 0 <= x < 2 ^ 64 -> onesCount64 x = 0 -> x = 0.
Proof.
  intros Hx H. apply Z.bits_inj'. intros i Hi. rewrite Z.bits_0.
  destruct (Z.ltb_spec i 64) as [Hlt|Hge].
  - unfold onesCount64 in H.
    assert (forall l, foldr (fun i n => (if Z.testbit x (Z.of_nat i) then 1 else 0) + n) 0 l = 0 ->
      forall j, j ∈ l -> Z.testbit x (Z.of_nat j) = false) as Hall.
    { induction l as [|k l IH]; cbn; intros Hl j Hj; [by apply elem_of_nil in Hj|].
      assert (0 <= foldr (fun i n => (if Z.testbit x (Z.of_nat i) then 1 else 0) + n) 0 l) as Hpos.
      { clear. induction l as [|i l IH]; cbn; [done|]. destruct (Z.testbit x (Z.of_nat i)); lia. }
      apply elem_of_cons in Hj as [->|Hj].
      - destruct (Z.testbit x (Z.of_nat k)); [lia|done].
      - apply IH; [destruct (Z.testbit x (Z.of_nat k)); lia|done]. }
    specialize (Hall _ H (Z.to_nat i)). rewrite Z2Nat.id in Hall by done. apply Hall. apply elem_of_seq. lia.
  - destruct (decide (x = 0)) as [->|]; [apply Z.bits_0|]. apply Z.bits_above_log2; [lia|].
    assert (Z.log2 x < 64) by (apply Z.log2_lt_pow2; lia). lia.
Qed.

(** Codes are arrays of [codeWords] 64-bit words. *)
Definition codeWf (code : Code) : Prop := length code = codeWords /\ Forall (fun x => 0 <= x < 2 ^ 64) code.

(** [Distance] is the Hamming metric on codes: it is symmetric, lies between 0 and
    256, and is 0 exactly for equal codes. *)
Theorem Distance_metric a b :
  codeWf a -> codeWf b ->
  Distance a b = Distance b a /\ 0 <= Distance a b <= Dimensions /\ (Distance a b = 0 <-> a = b).
Proof.
  intros [Ha Wa] [Hb Wb]. unfold codeWords in *.
  destruct a as [|a0 [|a1 [|a2 [|a3 [|]]]]]; try done. destruct b as [|b0 [|b1 [|b2 [|b3 [|]]]]]; try done.
  unfold Distance. cbn -[onesCount64]. unfold Dimensions.
  rewrite (Z.lxor_comm b0), (Z.lxor_comm b1), (Z.lxor_comm b2), (Z.lxor_comm b3). split; [done|].
  pose proof (onesCount64_range (Z.lxor a0 b0)). pose proof (onesCount64_range (Z.lxor a1 b1)).
  pose proof (onesCount64_range (Z.lxor a2 b2)). pose proof (onesCount64_range (Z.lxor a3 b3)). split; [lia|]. split.
  - assert (forall x y, 0 <= x < 2 ^ 64 -> 0 <= y < 2 ^ 64 -> onesCount64 (Z.lxor x y) = 0 -> x = y) as Hxy.
    { intros x y Hx Hy H'. apply Z.lxor_eq. apply onesCount64_0; [|done]. split; [apply Z.lxor_nonneg; lia|].
      destruct (decide (Z.lxor x y = 0)) as [->|]; [lia|]. 
      assert (0 <= Z.lxor x y) by (apply Z.lxor_nonneg; lia). apply Z.log2_lt_pow2; [lia|].
      pose proof (Z.log2_lxor x y ltac:(lia) ltac:(lia)).
      assert (forall z, 0 <= z < 2 ^ 64 -> Z.log2 z < 64) as Hlog.
      { intros z Hz. destruct (decide (z = 0)) as [->|]; [done|]. apply Z.log2_lt_pow2; lia. }
      pose proof (Hlog x Hx). pose proof (Hlog y Hy). lia. }
    repeat match goal with H : Forall _ (_ :: _) |- _ => apply Forall_cons in H as [? ?] end.
    intros Hz. f_equal; [apply Hxy; lia|]. f_equal; [apply Hxy; lia|]. f_equal; [apply Hxy; lia|]. f_equal. apply Hxy; lia.
  - intros [= -> -> -> ->]. by rewrite !Z.lxor_nilpotent.
Qed.

Lemma Distance_metric_witness :
  Distance [1; 2; 3; 2 ^ 64 - 1] [0; 0; 0; 0] = Distance [0; 0; 0; 0] [1; 2; 3; 2 ^ 64 - 1] /\
  0 <= Distance [1; 2; 3; 2 ^ 64 - 1] [0; 0; 0; 0] <= Dimensions /\
  (Distance [1; 2; 3; 2 ^ 64 - 1] [0; 0; 0; 0] = 0 <-> [1; 2; 3; 2 ^ 64 - 1] = [0; 0; 0; 0]).
Proof.
  apply (Distance_metric [1; 2; 3; 2 ^ 64 - 1] [0; 0; 0; 0]); (split; [reflexivity|]); repeat constructor; lia.
Defined.
