(* ===== verification/CsStore.v ===== *)
(** * CsStore: the operations of the store on a locked collection
      (codestore/store.go, codestore/update.go; collection.go [cell], [cells])

    Each operation is modelled on the collection it has locked.  Go maps that the
    code ranges over are lists of pairs in iteration order, so every order is
    covered.  Row values come from the caller; callbacks are arguments. *)

From S2P Require Import Prelude GoBinary GoUtf8 CsRecord CsCollection CsIndex CsLog CsWrite CsDurable CsFilter CsWalk CsRank.

Open Scope Z_scope.

(** ** Data *)

(** [collection.Row]; vector components are the bits of their [float32]. *)
Record Row := MkUserRow {
  ur_ID : bytes;
  ur_Vector : list Z;
  ur_Scalars : list (bytes * ScalarValue);
  ur_RelativePath : bytes;
  ur_SplitPart : Z;
  ur_SplitPartRecorded : bool;
  ur_Content : bytes;
  ur_Metadata : bytes;
}.

(** [collection.ScalarCell] by the function that built it. *)
Inductive ScalarCell :=
| AbsentCell (name : bytes)
| NullCell (name : bytes)
| ValueCell (name : bytes) (value : ScalarValue).

Record Hit := MkHit {
  hit_ID : bytes;
  hit_Content : bytes;
  hit_Score : float64;
  hit_RelativePath : bytes;
  hit_Metadata : bytes;
  hit_SplitPart : Z;
  hit_SplitPartRecorded : bool;
  hit_Scalars : gmap bytes ScalarCell;
}.

Inductive storeError :=
| stRowID
| stDimensions (id : bytes) (n : Z)
| stUndeclared (column : bytes)
| stFilter (e : filterError)
| stStored (e : csError)
| stRank (e : rankError)
| stUpdate (message : bytes).

Definition liftFilter {A} (o : outcome filterError A) : outcome storeError A :=
  match o with Ok a => Ok a | Fail e => Fail (stFilter e) | Panic => Panic end.
Definition liftStored {A} (o : outcome csError A) : outcome storeError A :=
  match o with Ok a => Ok a | Fail e => Fail (stStored e) | Panic => Panic end.
Definition liftRank {A} (o : outcome rankError A) : outcome storeError A :=
  match o with Ok a => Ok a | Fail e => Fail (stRank e) | Panic => Panic end.

(** ** Vectors (staticembed/model.go) *)

(** [x > 0] on the bits of a [float32]: sign bit clear, not zero, not a NaN. *)
Definition f32Positive (bits : Z) : bool := (0 <? bits) && (bits <=? 2139095040).

(** Set the sign bit of one dimension. *)
Definition setBit (code : Code) (dimension : nat) : Code :=
  let word := (dimension / 64)%nat in
  <[word := Z.lor (nth word code 0) (Z.shiftl 1 (Z.of_nat (dimension mod 64)))]> code.

Definition CodeOf (vector : list Z) : Code :=
  foldl (fun code dimension =>
           if f32Positive (nth dimension vector 0) then setBit code dimension else code)
    (replicate codeWords 0) (seq 0 (Nat.min (length vector) (Z.to_nat Dimensions))).

(** ** Cells *)

Definition cell (st : codeCollection) (position : nat) (column : ScalarColumn) : outcome storeError ScalarCell :=
  match cc_columnIndex st !! col_Name column with
  | None => Ok (AbsentCell (col_Name column))
  | Some index =>
      match cc_rows st !! position with
      | None => Panic
      | Some r =>
          match row_cells r !! index with
          | None => Panic
          | Some 0%nat => Ok (AbsentCell (col_Name column))
          | Some id =>
              match cc_dictionaries st !! index with
              | None => Panic
              | Some dict =>
                  match dict_values dict !! id with
                  | None => Panic
                  | Some value =>
                      Ok (if sv_Null value then NullCell (col_Name column)
                          else ValueCell (col_Name column) value)
                  end
              end
          end
      end
  end.

Fixpoint cells (st : codeCollection) (position : nat) (columns : list ScalarColumn)
    (acc : gmap bytes ScalarCell) : outcome storeError (gmap bytes ScalarCell) :=
  match columns with
  | [] => Ok acc
  | column :: columns =>
      c ← cell st position column;
      cells st position columns (<[col_Name column := c]> acc)
  end.

(** ** Upsert *)

(** A value takes the declared type of its column; a null value carries nothing else. *)
Definition declaredValue (columnType : ScalarType) (value : ScalarValue) : ScalarValue :=
  if sv_Null value then MkScalar columnType true [] false 0
  else MkScalar columnType (sv_Null value) (sv_String value) (sv_Bool value) (sv_Int64 value).

(** The cells of a row, in the iteration order of its scalar map. *)
Fixpoint upsertCells (st : codeCollection) (scalars : list (bytes * ScalarValue))
  : outcome storeError (list storedCell) :=
  match scalars with
  | [] => Ok []
  | (columnName, value) :: scalars =>
      match cc_columnIndex st !! columnName with
      | None => Fail (stUndeclared columnName)
      | Some column =>
          match h_Scalars (cc_header st) !! column with
          | None => Panic
          | Some declared =>
              rest ← upsertCells st scalars;
              Ok (MkCell column (declaredValue (col_Type declared) value) :: rest)
          end
      end
  end.

Definition columnLe (left right : storedCell) : Prop := (cell_column left <= cell_column right)%nat.

#[export] Instance columnLe_dec : RelDecision columnLe.
Proof. intros l r. unfold columnLe. apply _. Defined.

(** [slices.SortFunc(cells, compare by column)]. *)
Definition sortCells (cells : list storedCell) : list storedCell := merge_sort columnLe cells.

Fixpoint upsertRecords (st : codeCollection) (rows : list Row)
  : outcome storeError (list rowRecord * list (option bytes)) :=
  match rows with
  | [] => Ok ([], [])
  | candidate :: rows =>
      if bool_decide (TrimSpace (ur_ID candidate) = []) then Fail stRowID else
      if negb (zlen (ur_Vector candidate) =? Dimensions)
      then Fail (stDimensions (ur_ID candidate) (zlen (ur_Vector candidate))) else
      stored ← upsertCells st (ur_Scalars candidate);
      '(records, blobs) ← upsertRecords st rows;
      Ok (MkRecord recordUpsert (ur_ID candidate) (CodeOf (ur_Vector candidate)) (ur_RelativePath candidate)
            (ur_SplitPart candidate) (ur_SplitPartRecorded candidate) 0 0 (sortCells stored) :: records,
          Some (encodeBlob (ur_Content candidate) (ur_Metadata candidate)) :: blobs)
  end.

(** Run [write] and lift its error. *)
Definition writeStored {A} (io : writeIO) (records : list rowRecord) (blobs : list (option bytes)) (result : A)
    (st : codeCollection) : codeCollection * outcome storeError A :=
  match write io records blobs st with
  | (st', Ok _) => (st', Ok result)
  | (st', Fail e) => (st', Fail (stStored e))
  | (st', Panic) => (st', Panic)
  end.

Definition Upsert (io : writeIO) (rows : list Row) (st : codeCollection)
  : codeCollection * outcome storeError unit :=
  match upsertRecords st rows with
  | Fail e => (st, Fail e)
  | Panic => (st, Panic)
  | Ok (records, blobs) => writeStored io records blobs tt st
  end.

(** ** Delete *)

(** The positions of the rows a predicate selects, in row order. *)
Fixpoint selectPositions (selected : nat -> outcome storeError bool) (positions : list nat)
  : outcome storeError (list nat) :=
  match positions with
  | [] => Ok []
  | position :: positions =>
      b ← selected position;
      rest ← selectPositions selected positions;
      Ok (if (b : bool) then position :: rest else rest)
  end.

Definition deleteWhere (io : writeIO) (selected : nat -> outcome storeError bool) (st : codeCollection)
  : codeCollection * outcome storeError Z :=
  match selectPositions selected (seq 0 (length (cc_rows st))) with
  | Fail e => (st, Fail e)
  | Panic => (st, Panic)
  | Ok positions =>
      let records := map (fun position => emptyRecord recordDelete (idAt st position)) positions in
      if (length records =? 0)%nat then (st, Ok 0) else
      writeStored io records (replicate (length records) None) (zlen records) st
  end.

(** A compiled filter as a selection: only a true result selects a row. *)
Definition selectedBy (matches : predicate) (position : nat) : outcome storeError bool :=
  t ← liftFilter (matches position);
  Ok (bool_decide (t = truthTrue)).

Definition Delete (emptyScalar : ScalarValue) (io : writeIO) (filter : Filter) (st : codeCollection)
  : codeCollection * outcome storeError Z :=
  match compileFilter emptyScalar st filter with
  | Fail e => (st, Fail (stFilter e))
  | Panic => (st, Panic)
  | Ok matches => deleteWhere io (selectedBy matches) st
  end.

(** ** Queries *)

Definition hit (st : codeCollection) (position : nat) (score : float64) (columns : list ScalarColumn)
  : outcome storeError Hit :=
  '(content, metadata) ← liftStored (readBlob st position);
  match cc_rows st !! position with
  | None => Panic
  | Some current =>
      scalars ← cells st position columns ∅;
      Ok (MkHit (row_id current) content score (row_relativePath current) metadata
            (row_splitPart current) (row_splitRecorded current) scalars)
  end.

Definition idLe (st : codeCollection) (left right : nat) : Prop := strCompare (idAt st left) (idAt st right) <= 0.

#[export] Instance idLe_dec st : RelDecision (idLe st).
Proof. intros l r. unfold idLe. apply _. Defined.

Definition selectSorted (st : codeCollection) (selected : nat -> outcome storeError bool)
  : outcome storeError (list nat) :=
  positions ← selectPositions selected (seq 0 (length (cc_rows st)));
  Ok (merge_sort (idLe st) positions).

(** Apply a fallible function to every element. *)
Fixpoint mapOutcome {A B} (f : A -> outcome storeError B) (l : list A) : outcome storeError (list B) :=
  match l with
  | [] => Ok []
  | x :: l => y ← f x; ys ← mapOutcome f l; Ok (y :: ys)
  end.

Definition Query (emptyScalar : ScalarValue) (filter : option Filter) (limit : Z) (columns : list ScalarColumn)
    (st : codeCollection) : outcome storeError (list Hit) :=
  matches ← liftFilter (compileOptional emptyScalar st filter);
  positions ← selectSorted st (selectedBy matches);
  let positions := if (0 <? limit) && (limit <? zlen positions) then take (Z.to_nat limit) positions else positions in
  mapOutcome (fun position => hit st position (fNum (QArith_base.inject_Z 0)) columns) positions.

(** Rows of the wanted items, or below one of the nonempty path prefixes. *)
Definition itemSelector (st : codeCollection) (itemColumn : bytes) (itemIDs prefixes : list bytes)
    (position : nat) : outcome storeError bool :=
  match cc_rows st !! position with
  | None => Panic
  | Some current =>
      byItem ← match cc_columnIndex st !! itemColumn with
               | None => Ok false
               | Some column =>
                   match row_cells current !! column with
                   | None => Panic
                   | Some 0%nat => Ok false
                   | Some id =>
                       match dict ← cc_dictionaries st !! column; dict_values dict !! id with
                       | None => Panic
                       | Some value => Ok (bool_decide (sv_String value ∈ itemIDs) && negb (sv_Null value))
                       end
                   end
               end;
      Ok (byItem || existsb (fun prefix => bool_decide (prefix <> []) && HasPrefix (row_relativePath current) prefix)
                      prefixes)
  end.

Definition DeleteItems (io : writeIO) (itemColumn : bytes) (itemIDs prefixes : list bytes) (st : codeCollection)
  : codeCollection * outcome storeError Z :=
  deleteWhere io (itemSelector st itemColumn itemIDs prefixes) st.

(** [collection.StoredRow]; [contentHash] is the hex SHA-256 of the content. *)
Record StoredRow := MkStoredRow {
  sr_ID : bytes;
  sr_RelativePath : bytes;
  sr_Content : bytes;
  sr_SplitPart : Z;
  sr_SplitPartRecorded : bool;
  sr_EmbeddingModel : bytes;
  sr_ContentHash : bytes;
  sr_Scalars : gmap bytes ScalarCell;
}.

Definition storedRow (contentHash : bytes -> bytes) (columns : list ScalarColumn) (st : codeCollection)
    (position : nat) : outcome storeError StoredRow :=
  '(content, _) ← liftStored (readBlob st position);
  match cc_rows st !! position with
  | None => Panic
  | Some current =>
      scalars ← cells st position columns ∅;
      Ok (MkStoredRow (row_id current) (row_relativePath current) content (row_splitPart current)
            (row_splitRecorded current) (h_Model (cc_header st)) (contentHash content) scalars)
  end.

Definition QueryRows (contentHash : bytes -> bytes) (itemColumn : bytes) (itemIDs prefixes : list bytes)
    (columns : list ScalarColumn) (st : codeCollection) : outcome storeError (list StoredRow) :=
  positions ← selectSorted st (itemSelector st itemColumn itemIDs prefixes);
  mapOutcome (storedRow contentHash columns st) positions.

(** ** Search *)

Record SearchRequest := MkSearch {
  sq_Vector : list Z;
  sq_Filter : option Filter;
  sq_Limit : Z;
  sq_MinScore : float64;
  sq_GroupBy : bytes;
  sq_PerGroupLimit : Z;
  sq_Columns : list ScalarColumn;
}.

Definition defaultSearchLimit : Z := 10.

(** The walk of a search: a group column that is not declared disables grouping. *)
Definition searchWalk (st : codeCollection) (request : SearchRequest) : rankingWalk :=
  let '(groupColumn, grouped) :=
    if negb (bool_decide (sq_GroupBy request = [])) && (0 <? sq_PerGroupLimit request) then
      match cc_columnIndex st !! sq_GroupBy request with
      | Some column => (column, true)
      | None => (0%nat, false)
      end
    else (0%nat, false) in
  let limit := if sq_Limit request <=? 0 then defaultSearchLimit else sq_Limit request in
  MkWalk limit (maxDistanceFor (sq_MinScore request)) grouped groupColumn (sq_PerGroupLimit request).

Definition Search (emptyScalar : ScalarValue) (procs : nat) (request : SearchRequest) (st : codeCollection)
  : outcome storeError (list Hit) :=
  if negb (zlen (sq_Vector request) =? Dimensions) then Fail (stDimensions [] (zlen (sq_Vector request))) else
  matches ← liftFilter (compileOptional emptyScalar st (sq_Filter request));
  ranked ← liftRank (rank procs st (CodeOf (sq_Vector request)) matches (searchWalk st request));
  mapOutcome (fun c => hit st (cand_position c) (Score (cand_distance c)) (sq_Columns request)) ranked.

(** ** UpdateRows (codestore/update.go) *)

(** What the caller's update returns: metadata, scalars in iteration order, apply. *)
Definition RowUpdate : Type :=
  bytes -> bytes -> gmap bytes ScalarCell -> outcome bytes (bytes * list (bytes * ScalarValue) * bool).

Fixpoint updateCells (st : codeCollection) (scalars : list (bytes * ScalarValue)) (stored : list storedCell)
  : outcome storeError (list storedCell) :=
  match scalars with
  | [] => Ok stored
  | (columnName, value) :: scalars =>
      match cc_columnIndex st !! columnName with
      | None => Fail (stUndeclared columnName)
      | Some column =>
          match h_Scalars (cc_header st) !! column with
          | None => Panic
          | Some declared =>
              updateCells st scalars
                (filter (fun c => cell_column c <> column) stored
                 ++ [MkCell column (declaredValue (col_Type declared) value)])
          end
      end
  end.

Definition setCells (record : rowRecord) (stored : list storedCell) : rowRecord :=
  MkRecord (rec_kind record) (rec_id record) (rec_code record) (rec_relativePath record)
    (rec_splitPart record) (rec_splitRecorded record) (rec_dataOffset record) (rec_dataLength record) stored.

Fixpoint updateRecords (update : RowUpdate) (columns : list ScalarColumn) (st : codeCollection) (ids : list bytes)
  : outcome storeError (list rowRecord * list (option bytes)) :=
  match ids with
  | [] => Ok ([], [])
  | id :: ids =>
      match cc_byID st !! id with
      | None => updateRecords update columns st ids
      | Some position =>
          '(content, metadata) ← liftStored (readBlob st position);
          current ← cells st position columns ∅;
          match update id metadata current with
          | Panic => Panic
          | Fail message => Fail (stUpdate message)
          | Ok (nextMetadata, scalars, apply) =>
              if negb apply then updateRecords update columns st ids else
              record ← liftStored (recordOf st position);
              stored ← updateCells st scalars (rec_cells record);
              '(records, blobs) ← updateRecords update columns st ids;
              Ok (setCells record (sortCells stored) :: records, Some (encodeBlob content nextMetadata) :: blobs)
          end
      end
  end.

Definition UpdateRows (io : writeIO) (ids : list bytes) (columns : list ScalarColumn) (update : RowUpdate)
    (st : codeCollection) : codeCollection * outcome storeError Z :=
  match updateRecords update columns st ids with
  | Fail e => (st, Fail e)
  | Panic => (st, Panic)
  | Ok (records, blobs) =>
      if (length records =? 0)%nat then (st, Ok 0) else writeStored io records blobs (zlen records) st
  end.

(** ** BackfillScalars *)

Inductive backfillOutcome := backfillUnchanged | backfillChanged | backfillOrphan.

(** [collection.ScalarBackfill]: its methods and callbacks are arguments; [Filled]
    gives the filled values in iteration order. *)
Record ScalarBackfill (V : Type) := MkBackfill {
  bf_Columns : list ScalarColumn;
  bf_ItemColumn : bytes;
  bf_DryRun : bool;
  bf_Needs : gmap bytes ScalarValue -> bool;
  bf_ItemValues : bytes -> bytes -> option V;
  bf_Filled : gmap bytes ScalarValue -> V -> list (bytes * ScalarValue) * bool;
}.
Arguments bf_Columns {V} _.
Arguments bf_ItemColumn {V} _.
Arguments bf_DryRun {V} _.
Arguments bf_Needs {V} _ _.
Arguments bf_ItemValues {V} _ _ _.
Arguments bf_Filled {V} _ _ _.

(** The current values of the backfilled columns; absent and null read as null. *)
Fixpoint currentValues (st : codeCollection) (position : nat) (columns : list ScalarColumn)
    (acc : gmap bytes ScalarValue) : outcome storeError (gmap bytes ScalarValue) :=
  match columns with
  | [] => Ok acc
  | column :: columns =>
      c ← cell st position column;
      let value := match c with
                   | ValueCell _ value => value
                   | _ => MkScalar (col_Type column) true [] false 0
                   end in
      currentValues st position columns (<[col_Name column := value]> acc)
  end.

(** Replace the cells of a column, or append one when there is none. *)
Definition fillCell (column : nat) (value : ScalarValue) (stored : list storedCell) : list storedCell :=
  if existsb (fun c => (cell_column c =? column)%nat) stored
  then map (fun c => if (cell_column c =? column)%nat then MkCell column value else c) stored
  else stored ++ [MkCell column value].

(** [columnIndex[columnName]] of an unknown name is 0. *)
Definition fillCells (st : codeCollection) (filled : list (bytes * ScalarValue)) (stored : list storedCell)
  : list storedCell :=
  foldl (fun stored '(columnName, value) => fillCell (default 0%nat (cc_columnIndex st !! columnName)) value stored)
    stored filled.

Definition backfillRow {V} (backfill : ScalarBackfill V) (st : codeCollection) (position : nat)
  : outcome storeError (option rowRecord * backfillOutcome) :=
  current ← currentValues st position (bf_Columns backfill) ∅;
  if negb (bf_Needs backfill current) then Ok (None, backfillUnchanged) else
  itemCell ← cell st position (MkColumn (bf_ItemColumn backfill) ScalarTypeString);
  let itemID := match itemCell with ValueCell _ value => sv_String value | _ => [] end in
  match cc_rows st !! position with
  | None => Panic
  | Some r =>
      match bf_ItemValues backfill itemID (row_relativePath r) with
      | None => Ok (None, backfillOrphan)
      | Some values =>
          let '(filled, changed) := bf_Filled backfill current values in
          if negb changed then Ok (None, backfillUnchanged) else
          record ← liftStored (recordOf st position);
          Ok (Some (setCells record (fillCells st filled (rec_cells record))), backfillChanged)
      end
  end.

(** The loop over the rows: changed rows, orphans and the records to write. *)
Fixpoint backfillLoop {V} (backfill : ScalarBackfill V) (st : codeCollection) (positions : list nat)
    (changed orphans : Z) (records : list rowRecord) : outcome storeError (Z * Z * list rowRecord) :=
  match positions with
  | [] => Ok (changed, orphans, records)
  | position :: positions =>
      '(record, result) ← backfillRow backfill st position;
      match result, record with
      | backfillOrphan, _ => backfillLoop backfill st positions changed (orphans + 1) records
      | backfillChanged, Some record =>
          backfillLoop backfill st positions (changed + 1) orphans
            (if bf_DryRun backfill then records else records ++ [record])
      | _, _ => backfillLoop backfill st positions changed orphans records
      end
  end.

Definition BackfillScalars {V} (io : writeIO) (backfill : ScalarBackfill V) (st : codeCollection)
  : codeCollection * outcome storeError (Z * Z) :=
  match list_find (fun column => cc_columnIndex st !! col_Name column = None) (bf_Columns backfill) with
  | Some (_, column) => (st, Fail (stUndeclared (col_Name column)))
  | None =>
      match backfillLoop backfill st (seq 0 (length (cc_rows st))) 0 0 [] with
      | Fail e => (st, Fail e)
      | Panic => (st, Panic)
      | Ok (changed, orphans, records) =>
          if (0 <? length records)%nat
          then writeStored io records (replicate (length records) None) (changed, orphans) st
          else (st, Ok (changed, orphans))
      end
  end.

(** ** EnsureCollection on an existing collection *)

Definition setRowCells (r : row) (rowCells : list nat) : row :=
  MkRow (row_id r) (row_relativePath r) (row_splitPart r) (row_splitRecorded r) (row_dataOffset r)
    (row_dataLength r) rowCells.

Definition setRows (st : codeCollection) (rows : list row) : codeCollection :=
  setIndex st (cc_dictionaries st) rows (cc_codes st) (cc_byID st) (cc_dead st).

(** Add the requested columns that are not declared.  [headerOk] and [identityOk] are
    the outcomes of [writeHeader] and [recordHeaderIdentity]. *)
Definition ensureColumns (emptyScalar : ScalarValue) (headerOk identityOk : bool) (requested : list ScalarColumn)
    (st : codeCollection) : codeCollection * outcome storeError unit :=
  let added := filter (fun column => cc_columnIndex st !! col_Name column = None) requested in
  if (length added =? 0)%nat then (st, Ok tt) else
  let scalars := h_Scalars (cc_header st) ++ added in
  if negb headerOk then (st, Fail (stStored csIO)) else
  let st := setDeclaration emptyScalar scalars st in
  if existsb (fun r => (length scalars <? length (row_cells r))%nat) (cc_rows st) then (st, Panic) else
  let widen r := setRowCells r (row_cells r ++ replicate (length scalars - length (row_cells r)) 0%nat) in
  (setRows st (map widen (cc_rows st)), if identityOk then Ok tt else Fail (stStored csIO)).
