(* ===== verification/CsStoreSpec.v ===== *)
(** * CsStoreSpec: what the store operations guarantee

    The operations hand only well-formed records to [write], so they keep the
    durable invariant; an upserted row reads back as it was given; [Delete] removes
    exactly the rows its filter selects; [Query] returns exactly the matching rows
    in id order; adding columns changes no stored row. *)

From S2P Require Import Prelude GoBinary GoUtf8 CsRecord CsCollection CsIndex CsLog CsWrite CsDurable CsFilter CsWalk CsRank CsStore.

Open Scope Z_scope.

#[local] Opaque ChecksumIEEE leBytes.

(** ** Codes of vectors *)

Lemma setBit_wf code dimension :
  codeWf code -> (dimension < Z.to_nat Dimensions)%nat -> codeWf (setBit code dimension).
Proof.
  intros [Hl Hw] Hd. unfold setBit, Dimensions in *. cbv zeta. split; [unfold Code in *; etransitivity; [apply length_insert|done]|].
  assert (dimension / 64 < 4)%nat as Hdiv by (apply Nat.Div0.div_lt_upper_bound; lia).
  apply Forall_insert; [done|]. set (word := (dimension / 64)%nat) in *.
  assert (0 <= nth word code 0 < 2 ^ 64) as Hn.
  { destruct (lookup_lt_is_Some_2 code word) as [x Hx]; [unfold codeWords in Hl; lia|].
    rewrite (nth_lookup_Some _ _ _ _ Hx). rewrite Forall_lookup in Hw. by eapply Hw. }
  assert (0 <= Z.shiftl 1 (Z.of_nat (dimension mod 64)) < 2 ^ 64) as Hs.
  { rewrite Z.shiftl_1_l. pose proof (Nat.mod_upper_bound dimension 64). split; [lia|]. apply Z.pow_lt_mono_r; lia. }
  split; [apply Z.lor_nonneg; lia|].
  destruct (decide (Z.lor (nth word code 0) (Z.shiftl 1 (Z.of_nat (dimension mod 64))) = 0)) as [->|Hne]; [done|].
  assert (forall z, 0 <= z < 2 ^ 64 -> Z.log2 z < 64) as Hlog.
  { intros z Hz. destruct (decide (z = 0)) as [->|]; [done|]. apply Z.log2_lt_pow2; lia. }
  assert (0 <= Z.lor (nth word code 0) (Z.shiftl 1 (Z.of_nat (dimension mod 64)))) by (apply Z.lor_nonneg; lia).
  apply Z.log2_lt_pow2; [lia|]. rewrite Z.log2_lor by lia. pose proof (Hlog _ Hn). pose proof (Hlog _ Hs). lia.
Qed.

Lemma CodeOf_wf vector : codeWf (CodeOf vector).
Proof.
  unfold CodeOf. assert (codeWf (replicate codeWords 0)) as H0 by (split; [done|repeat constructor; lia]).
  revert H0. generalize (replicate codeWords 0).
  assert (Forall (fun d => d < Z.to_nat Dimensions)%nat (seq 0 (Nat.min (length vector) (Z.to_nat Dimensions)))) as Hs.
  { apply Forall_forall. intros x Hx. apply elem_of_seq in Hx. lia. }
  revert Hs. induction (seq 0 (Nat.min (length vector) (Z.to_nat Dimensions))) as [|d ds IH]; intros Hs code Hc; [done|].
  apply Forall_cons in Hs as [Hd Hs]. cbn [foldl]. apply IH; [done|]. destruct (f32Positive _); [by apply setBit_wf|done].
Qed.

(** ** The rows an upsert may be given *)

(** A scalar that fits its column: null, or only the field of the declared type is set. *)
Definition scalarOk (st : codeCollection) (scalar : bytes * ScalarValue) : Prop :=
  exists column declared, cc_columnIndex st !! scalar.1 = Some column /\
    h_Scalars (cc_header st) !! column = Some declared /\
    canonicalValue (col_Type declared) (declaredValue (col_Type declared) scalar.2).

Record userRowOk (st : codeCollection) (r : Row) : Prop := {
  uo_id : TrimSpace (ur_ID r) <> [] /\ zlen (ur_ID r) <= maxInt64;
  uo_vector : zlen (ur_Vector r) = Dimensions;
  uo_path : zlen (ur_RelativePath r) <= maxInt64;
  uo_split : - 2 ^ 31 <= ur_SplitPart r <= 2 ^ 31 - 1;
  uo_names : NoDup (map fst (ur_Scalars r));
  uo_scalars : Forall (scalarOk st) (ur_Scalars r);
  uo_blob : zlen (ur_Content r) <= maxInt64 /\ zlen (ur_Metadata r) <= maxInt64;
}.

(** The cells a row is stored with, in the order of its scalars. *)
Definition cellOf (st : codeCollection) (scalar : bytes * ScalarValue) : storedCell :=
  let column := default 0%nat (cc_columnIndex st !! scalar.1) in
  MkCell column (declaredValue (from_option col_Type ScalarTypeString (h_Scalars (cc_header st) !! column)) scalar.2).

Definition recordOfUser (st : codeCollection) (r : Row) : rowRecord :=
  MkRecord recordUpsert (ur_ID r) (CodeOf (ur_Vector r)) (ur_RelativePath r) (ur_SplitPart r)
    (ur_SplitPartRecorded r) 0 0 (sortCells (map (cellOf st) (ur_Scalars r))).

Definition blobOfUser (r : Row) : option bytes := Some (encodeBlob (ur_Content r) (ur_Metadata r)).

Lemma upsertCells_ok st scalars :
  Forall (scalarOk st) scalars -> upsertCells st scalars = Ok (map (cellOf st) scalars).
Proof.
  induction 1 as [|[name value] scalars (column & declared & Hc & Hd & _) _ IH]; [done|].
  cbn in Hc, Hd. cbn [upsertCells map]. rewrite Hc, Hd, IH. unfold cellOf. cbn. rewrite Hc. cbn. by rewrite Hd.
Qed.

Lemma upsertRecords_ok st rows :
  Forall (userRowOk st) rows -> upsertRecords st rows = Ok (map (recordOfUser st) rows, map blobOfUser rows).
Proof.
  induction 1 as [|r rows [[Hid _] Hv _ _ _ Hs _] _ IH]; [done|]. cbn [upsertRecords map].
  rewrite bool_decide_false by done. rewrite Hv, Z.eqb_refl. cbn [negb].
  rewrite (upsertCells_ok _ _ Hs), IH. done.
Qed.

Lemma NoDup_bound (l : list nat) n : NoDup l -> Forall (fun x => x < n)%nat l -> (length l <= n)%nat.
Proof.
  intros Hd Hb. rewrite <- (length_seq n 0). apply submseteq_length, NoDup_submseteq; [done|].
  intros x Hx. rewrite Forall_forall in Hb. apply elem_of_seq. specialize (Hb _ Hx). lia.
Qed.

(** Different scalars of a row go to different columns. *)
Lemma userColumns_NoDup st scalars :
  columnsInv st -> NoDup (map fst scalars) -> Forall (scalarOk st) scalars ->
  NoDup (map cell_column (map (cellOf st) scalars)).
Proof.
  intros Hc Hn Hs. induction Hs as [|s scalars (column & declared & Hcol & _) Hs IH]; [constructor|].
  cbn [map] in *. apply NoDup_cons in Hn as [Hnotin Hn]. apply NoDup_cons. split; [|by apply IH].
  intros Hin. apply Hnotin. cbn in Hin. rewrite Hcol in Hin. cbn in Hin.
  apply list_elem_of_fmap in Hin as (c & E & Hc'). apply list_elem_of_fmap in Hc' as (s' & -> & Hs').
  rewrite Forall_forall in Hs. destruct (Hs _ Hs') as (column' & declared' & Hcol' & _).
  cbn in E. rewrite Hcol' in E. cbn in E. subst column'.
  destruct (Hc _ _ Hcol) as (d1 & H1 & N1), (Hc _ _ Hcol') as (d2 & H2 & N2).
  apply list_elem_of_fmap. exists s'. split; [congruence|done].
Qed.

Lemma recordOfUser_wf st r :
  columnsInv st -> zlen (h_Scalars (cc_header st)) <= maxInt64 -> userRowOk st r ->
  recordWf (h_Scalars (cc_header st)) (recordOfUser st r).
Proof.
  intros Hc Hcols [[_ Hid] Hv Hp Hsp Hn Hs _]. split; [done|done|right]. cbn.
  destruct (CodeOf_wf (ur_Vector r)) as [Hl Hw].
  assert (sortCells (map (cellOf st) (ur_Scalars r)) ≡ₚ map (cellOf st) (ur_Scalars r)) as Hperm
    by apply merge_sort_Permutation.
  split_and!; try done; try (unfold maxInt64; lia).
  - rewrite Hperm. pose proof (userColumns_NoDup st _ Hc Hn Hs) as Hnd.
    rewrite <- (length_map cell_column). apply NoDup_bound; [done|].
    apply Forall_map, Forall_map. eapply Forall_impl; [exact Hs|]. intros s (column & declared & Hcol & Hd & _).
    cbn. rewrite Hcol. cbn. by eapply lookup_lt_Some.
  - rewrite Hperm. apply Forall_map. eapply Forall_impl; [exact Hs|]. intros s (column & declared & Hcol & Hd & Hcan).
    exists declared. cbn. rewrite Hcol. cbn. rewrite Hd. done.
Qed.

(** ** Reading a stored row *)

(** The row behind a stored id: its fields, its data and its cells. *)
Lemma stored_position st id rec blob :
  indexInv st -> stored st id = Some (rec, blob) ->
  exists position r, cc_byID st !! id = Some position /\ cc_rows st !! position = Some r /\ row_id r = id /\
    row_relativePath r = rec_relativePath rec /\ row_splitPart r = rec_splitPart rec /\
    row_splitRecorded r = rec_splitRecorded rec /\ cc_codes st !! position = Some (rec_code rec) /\
    row_dataLength r = rec_dataLength rec /\
    readAt (cc_dataFile st) (row_dataOffset r) (row_dataLength r) = blob /\
    rec_cells rec = normCells (length (h_Scalars (cc_header st))) (cellAt (cc_dictionaries st) (row_cells r)).
Proof.
  intros Hi H. unfold stored in H. destruct (view st id) as [v|] eqn:Hv; [|done]. cbn in H. injection H as <- <-.
  destruct (byID_cases st id Hi) as [(position & r & code & Hb & Hr & Hc & Hid)|Hn];
    [|rewrite (view_none _ _ Hi Hn) in Hv; done].
  rewrite (view_row _ _ _ _ _ Hi Hr Hid Hc) in Hv. injection Hv as <-. exists position, r. cbn. by split_and!.
Qed.

(** The cell of a declared column of a valid row. *)
Lemma cell_value_ok st position r column index :
  indexInv st -> columnsInv st -> cc_rows st !! position = Some r ->
  cc_columnIndex st !! col_Name column = Some index ->
  cell st position column =
  Ok (match cellAt (cc_dictionaries st) (row_cells r) index with
      | None => AbsentCell (col_Name column)
      | Some v => if sv_Null v then NullCell (col_Name column) else ValueCell (col_Name column) v
      end).
Proof.
  intros Hi Hc Hr Hidx. unfold cell, cellAt. rewrite Hidx, Hr.
  pose proof (ii_rows _ Hi) as Hrows. rewrite Forall_lookup in Hrows. destruct (Hrows _ _ Hr) as [Hlen Hcells].
  destruct (lookup_lt_is_Some_2 (row_cells r) index) as [cid Hid].
  { rewrite Hlen. by eapply columnsInv_lt. }
  rewrite Hid. destruct cid as [|cid]; [done|]. destruct (Hcells _ _ Hid) as (d & Hd & Hlt); [done|].
  rewrite Hd. cbn [mbind option_bind]. destruct (lookup_lt_is_Some_2 _ _ Hlt) as [v Hv]. rewrite Hv. done.
Qed.

(** What a read of a column of a user's row gives. *)
Definition userCell (st : codeCollection) (r : Row) (column : ScalarColumn) : ScalarCell :=
  match cc_columnIndex st !! col_Name column with
  | None => AbsentCell (col_Name column)
  | Some index =>
      match list_find (fun scalar => scalar.1 = col_Name column) (ur_Scalars r) with
      | None => AbsentCell (col_Name column)
      | Some (_, scalar) =>
          if sv_Null scalar.2 then NullCell (col_Name column)
          else ValueCell (col_Name column) (cell_value (cellOf st scalar))
      end
  end.

(** The last record of a batch for an id decides. *)
Lemma batchView_app columns dataFile records records' : forall blobs blobs' f,
  length blobs = length records ->
  batchView columns dataFile (records ++ records') (blobs ++ blobs') f
  = batchView columns dataFile records' blobs' (batchView columns dataFile records blobs f).
Proof.
  induction records as [|r records IH]; intros [|b blobs] blobs' f Hl; try done.
  cbn [app batchView]. apply IH. cbn in Hl. lia.
Qed.

Lemma batchView_other columns dataFile records : forall blobs f id,
  Forall (fun r => rec_id r <> id) records -> batchView columns dataFile records blobs f id = f id.
Proof.
  induction records as [|r records IH]; intros [|b blobs] f id Hn; try done.
  apply Forall_cons in Hn as [Hr Hn]. cbn [batchView]. rewrite IH by done. by rewrite decide_False.
Qed.

Lemma batchView_last columns dataFile records1 r records2 blobs1 b blobs2 f :
  length blobs1 = length records1 -> rec_kind r <> recordDelete ->
  Forall (fun r' => rec_id r' <> rec_id r) records2 ->
  batchView columns dataFile (records1 ++ r :: records2) (blobs1 ++ b :: blobs2) f (rec_id r)
  = Some (storedRecord columns dataFile r b).
Proof.
  intros Hl Hk Hn. rewrite batchView_app by done. cbn [batchView]. rewrite batchView_other by done.
  rewrite decide_True by done. by rewrite (proj2 (Z.eqb_neq _ _) Hk).
Qed.

(** Looking a column up among the cells of a user's row. *)
Lemma lastCell_perm cells cells' column :
  NoDup (map cell_column cells) -> cells ≡ₚ cells' -> lastCell cells' column = lastCell cells column.
Proof.
  intros Hnd Hp. apply option_eq. intros v.
  assert (forall l, NoDup (map cell_column l) -> lastCell l column = Some v <-> MkCell column v ∈ l) as Hiff.
  { intros l Hl. split; [apply lastCell_elem|]. intros Hin. destruct (lastCell l column) as [u|] eqn:E.
    - apply lastCell_elem in E. f_equal. apply list_elem_of_lookup in E as [i Hi], Hin as [j Hj].
      assert (i = j) as ->.
      { eapply NoDup_lookup; [exact Hl| |]; rewrite list_lookup_fmap; [by rewrite Hi|by rewrite Hj]. }
      congruence.
    - exfalso. rewrite lastCell_None in E. by apply (E _ Hin). }
  rewrite (Hiff cells) by done. rewrite (Hiff cells'); [by rewrite Hp|].
  assert (map cell_column cells ≡ₚ map cell_column cells') as Hm by (by apply fmap_Permutation). by rewrite <- Hm.
Qed.

Lemma lastCell_user st r column index :
  columnsInv st -> userRowOk st r -> cc_columnIndex st !! col_Name column = Some index ->
  lastCell (sortCells (map (cellOf st) (ur_Scalars r))) index =
  match list_find (fun scalar => scalar.1 = col_Name column) (ur_Scalars r) with
  | None => None
  | Some (_, scalar) => Some (cell_value (cellOf st scalar))
  end.
Proof.
  intros Hc [_ _ _ _ Hn Hs _] Hidx. pose proof (userColumns_NoDup st _ Hc Hn Hs) as Hnd.
  rewrite (lastCell_perm (map (cellOf st) (ur_Scalars r))); [|done|symmetry; apply merge_sort_Permutation].
  destruct (list_find _ _) as [[i scalar]|] eqn:E.
  - apply list_find_Some in E as (Hi & Hname & _).
    assert (cellOf st scalar = MkCell index (cell_value (cellOf st scalar))) as Hcell.
    { unfold cellOf. cbn. by rewrite Hname, Hidx. }
    assert (MkCell index (cell_value (cellOf st scalar)) ∈ map (cellOf st) (ur_Scalars r)) as Hin.
    { rewrite <- Hcell. apply list_elem_of_fmap. exists scalar. split; [done|]. by eapply list_elem_of_lookup_2. }
    destruct (lastCell _ index) as [u|] eqn:El; [|rewrite lastCell_None in El; by destruct (El _ Hin)].
    apply lastCell_elem in El. f_equal. apply list_elem_of_lookup in El as [a Ha], Hin as [b Hb].
    assert (a = b) as -> by (eapply NoDup_lookup; [exact Hnd| |]; rewrite list_lookup_fmap; [by rewrite Ha|by rewrite Hb]).
    congruence.
  - apply list_find_None in E. apply lastCell_None. intros c Hin. apply list_elem_of_fmap in Hin as (s & -> & Hin).
    rewrite Forall_forall in E, Hs. destruct (Hs _ Hin) as (column' & declared & Hcol & _). cbn. rewrite Hcol. cbn.
    intros ->. destruct (Hc _ _ Hcol) as (d1 & H1 & N1), (Hc _ _ Hidx) as (d2 & H2 & N2).
    apply (E _ Hin). congruence.
Qed.

(** Writing keeps the columns. *)
Definition sameColumns (st st' : codeCollection) : Prop :=
  cc_columnIndex st' = cc_columnIndex st /\ h_Scalars (cc_header st') = h_Scalars (cc_header st).

Lemma apply_columnIndex r st : cc_columnIndex (apply r st).1 = cc_columnIndex st.
Proof.
  unfold apply, remove. destruct (rec_kind r =? recordDelete); repeat (case_match; simplify_eq/=; try done).
Qed.

Lemma applyAll_sameColumns records : forall st, sameColumns st (applyAll records st).1.
Proof.
  induction records as [|r records IH]; intros st; [done|]. cbn [applyAll]. unfold mbind, M_bind.
  pose proof (apply_columnIndex r st) as Hci. destruct (apply_sameFiles r st) as [Hh _].
  destruct (apply r st) as [st1 [[]|e|]]; cbn in Hci, Hh; [|split; cbn; congruence|split; cbn; congruence].
  destruct (IH st1) as [H1 H2]. split; congruence.
Qed.

Lemma maybeCompact_sameColumns io st : sameColumns st (maybeCompact io st).1.
Proof.
  unfold maybeCompact, compact. repeat (case_match; simplify_eq/=; try done).
Qed.

Lemma write_sameColumns io records blobs st : sameColumns st (write io records blobs st).1.
Proof.
  unfold write. destruct (assignOffsets _ _ _ _) as [[records' buf]|e|]; [|done|done].
  unfold mbind, M_bind, liftRec. destruct (frameAll _ _ _ _) as [rowBuffer|e|]; [|done|done].
  unfold mret, M_ret. assert (forall st0, sameColumns st0 (writeData io buf st0).1) as Hwd.
  { intros st0. unfold writeData. repeat (case_match; simplify_eq/=; try done). }
  assert (forall st0, sameColumns st0 (writeRows io rowBuffer st0).1) as Hwr.
  { intros st0. unfold writeRows. repeat (case_match; simplify_eq/=; try done). }
  specialize (Hwd st). destruct (writeData io buf st) as [st1 [[]|e|]]; cbn in Hwd |- *; [|done|done].
  specialize (Hwr st1). destruct (writeRows io rowBuffer st1) as [st2 [[]|e|]]; cbn in Hwr |- *;
    [|destruct Hwd, Hwr; split; congruence|destruct Hwd, Hwr; split; congruence].
  pose proof (applyAll_sameColumns records' st2) as Ha.
  destruct (applyAll records' st2) as [st3 [[]|e|]]; cbn in Ha |- *;
    [|destruct Hwd, Hwr, Ha; split; congruence|destruct Hwd, Hwr, Ha; split; congruence].
  pose proof (maybeCompact_sameColumns (io_compact io) st3) as Hm.
  destruct Hwd, Hwr, Ha, Hm; split; congruence.
Qed.

Lemma sameColumns_inv st st' : sameColumns st st' -> columnsInv st -> columnsInv st'.
Proof. intros [H1 H2]. unfold columnsInv. by rewrite H1, H2. Qed.

(** The limits under which a batch of records is written: machine integers, frame
    lengths and dictionary ids do not overflow, and the file operations succeed. *)
Record batchFits (io : writeIO) (st : codeCollection) (n : nat) (records : list rowRecord)
    (blobs : list (option bytes)) : Prop := {
  bt_size : (1 + zlen (cc_rows st) + zlen records) * (cc_dataSize st + blobTotal blobs) <= maxInt64;
  bt_dicts : dictsBound n (cc_dictionaries st);
  bt_cells : Z.of_nat (n + cellTotal records) < 2 ^ 32;
  bt_frames : forall records' dataBuffer,
    assignOffsets (cc_dataSize st) [] records blobs = Ok (records', dataBuffer) ->
    Forall (fun r => zlen (recordPayload (h_Scalars (cc_header st)) r) <= 2 ^ 32 - 1) records';
  bt_io : ioSucceeds io = true;
}.

(** [write] on a batch within the limits. *)
Lemma write_fits recs st io records blobs n :
  durable recs st -> Forall (recordWf (h_Scalars (cc_header st))) records ->
  Forall2 (writable (cc_dataSize st)) records blobs -> batchFits io st n records blobs ->
  exists st' recs', write io records blobs st = (st', Ok tt) /\ durable recs' st' /\ sameColumns st st' /\
    forall id, stored st' id =
      batchView (length (h_Scalars (cc_header st))) (cc_dataFile st) records blobs (stored st) id.
Proof.
  intros Hd Hwf Hw [Hs Hb Hn Hfr Hio].
  destruct (write_succeeds recs st io records blobs n Hd Hwf Hw Hs Hb Hn Hfr Hio) as [st' H].
  destruct (write_ok_batch recs st io records blobs st' Hd Hwf Hw Hs H) as (recs' & ? & ?).
  pose proof (write_sameColumns io records blobs st) as Hc. rewrite H in Hc. exists st', recs'. done.
Qed.

Lemma upsert_writable st rows :
  Forall2 (writable (cc_dataSize st)) (map (recordOfUser st) rows) (map blobOfUser rows).
Proof. induction rows; constructor; [|done]. intros H. done. Qed.

Lemma cells_ok st position columns (f : ScalarColumn -> ScalarCell) : forall acc,
  (forall column, column ∈ columns -> cell st position column = Ok (f column)) ->
  cells st position columns acc = Ok (foldl (fun m column => <[col_Name column := f column]> m) acc columns).
Proof.
  induction columns as [|column columns IH]; intros acc H; [done|]. cbn [cells foldl].
  rewrite H by (by left). cbn [mbind outcome_bind]. apply IH. intros c Hc. apply H. by right.
Qed.

(** C25. An upserted row reads back as it was given.  [Upsert] of rows with usable ids,
    256-dimensional vectors and scalars of declared columns succeeds within the
    limits and keeps the collection durable; afterwards a read of the last row given
    for an id returns its content, metadata, path, split fields and, column by
    column, its scalar values (null for a null value, absent for a column that was
    not given), its code is the sign code of its vector, and every id that was not
    upserted keeps its record and its blob. *)
Theorem Upsert_roundtrip recs st io rows n :
  durable recs st -> columnsInv st -> zlen (h_Scalars (cc_header st)) <= maxInt64 ->
  Forall (userRowOk st) rows ->
  batchFits io st n (map (recordOfUser st) rows) (map blobOfUser rows) ->
  exists st' recs', Upsert io rows st = (st', Ok tt) /\ durable recs' st' /\ columnsInv st' /\
    (forall before r after, rows = before ++ r :: after -> Forall (fun r' => ur_ID r' <> ur_ID r) after ->
      exists position, cc_byID st' !! ur_ID r = Some position /\
        cc_codes st' !! position = Some (CodeOf (ur_Vector r)) /\
        forall score columns, hit st' position score columns =
          Ok (MkHit (ur_ID r) (ur_Content r) score (ur_RelativePath r) (ur_Metadata r) (ur_SplitPart r)
                (ur_SplitPartRecorded r)
                (foldl (fun m column => <[col_Name column := userCell st r column]> m) ∅ columns))) /\
    (forall id, Forall (fun r => ur_ID r <> id) rows -> stored st' id = stored st id).
Proof.
  intros Hd Hc Hcols Hrows Hfit.
  assert (Forall (recordWf (h_Scalars (cc_header st))) (map (recordOfUser st) rows)) as Hwf.
  { apply Forall_map. eapply Forall_impl; [exact Hrows|]. intros r. by apply recordOfUser_wf. }
  destruct (write_fits recs st io _ _ n Hd Hwf (upsert_writable st rows) Hfit) as (st' & recs' & Hw & Hd' & Hsc & Hst).
  exists st', recs'. unfold Upsert. rewrite (upsertRecords_ok st rows Hrows). unfold writeStored. rewrite Hw.
  pose proof (sameColumns_inv _ _ Hsc Hc) as Hc'. pose proof (proj1 (du_stores _ _ Hd')) as Hi'.
  split_and!; [done|done|done| |].
  - intros before r after -> Hafter. specialize (Hst (ur_ID r)). rewrite !map_app in Hst. cbn [map] in Hst.
    rewrite (batchView_last _ _ (map (recordOfUser st) before) (recordOfUser st r)) in Hst;
      [|by rewrite !length_map|done|by apply Forall_map].
    apply Forall_app in Hrows as [_ Hrows]. apply Forall_cons in Hrows as [Hr _].
    destruct (stored_position st' (ur_ID r) _ _ Hi' Hst) as (position & x & Hb & Hx & Hid & Hp & Hsp & Hsr & Hcode & Hlen & Hblob & Hcells).
    exists position. cbn in Hp, Hsp, Hsr, Hcode, Hlen, Hcells. split; [done|]. split; [done|]. intros score columns.
    unfold hit, readBlob. rewrite Hx, Hlen. pose proof (zlen_nonneg (encodeBlob (ur_Content r) (ur_Metadata r))) as Hz.
    rewrite (proj2 (Z.ltb_ge _ 0)) by done. rewrite Hlen in Hblob. rewrite Hblob.
    destruct (uo_blob _ _ Hr) as [H1 H2]. rewrite (blob_roundtrip _ _ H1 H2). cbn [liftStored mbind outcome_bind].
    rewrite (cells_ok st' position columns (userCell st r)).
    + cbn. by rewrite Hid, Hp, Hsp, Hsr.
    + intros column _. unfold userCell. destruct Hsc as [Hci Hh].
      destruct (cc_columnIndex st !! col_Name column) as [index|] eqn:Hidx; [|unfold cell; by rewrite Hci, Hidx].
      rewrite (cell_value_ok st' position x column index Hi' Hc' Hx) by (by rewrite Hci).
      pose proof (columnsInv_lt _ _ _ Hc Hidx) as Hlt.
      assert (cellAt (cc_dictionaries st') (row_cells x) index = lastCell (sortCells (map (cellOf st) (ur_Scalars r))) index) as ->.
      { pose proof (f_equal (fun l => lastCell l index) Hcells) as E. cbv beta in E. rewrite !lastCell_normCells, Hh in E.
        rewrite (proj2 (Nat.ltb_lt _ _) Hlt) in E. by rewrite E. }
      rewrite (lastCell_user st r column index Hc Hr Hidx). destruct (list_find _ _) as [[i scalar]|]; [|done].
      f_equal. unfold cellOf, declaredValue. cbn [cell_value]. by destruct (sv_Null scalar.2) eqn:En; cbn; rewrite ?En.
  - intros id Hid. rewrite Hst. apply batchView_other. apply Forall_map. exact Hid.
Qed.

(** ** Selections of rows *)

Lemma selectPositions_ok selected (f : nat -> bool) positions :
  Forall (fun position => selected position = Ok (f position)) positions ->
  selectPositions selected positions = Ok (filter (fun position => f position = true) positions).
Proof.
  induction 1 as [|position positions Hp _ IH]; [done|]. cbn [selectPositions]. rewrite Hp, IH.
  cbn [mbind outcome_bind]. rewrite filter_cons. by destruct (f position).
Qed.

(** Selecting positions is selecting rows. *)
Lemma positions_rows (g : row -> bool) rows : forall pre,
  map (fun p => from_option row_id [] ((pre ++ rows) !! p))
    (filter (fun p => from_option g false ((pre ++ rows) !! p) = true) (seq (length pre) (length rows)))
  = map row_id (filter (fun r => g r = true) rows).
Proof.
  induction rows as [|r rows IH]; intros pre; [done|]. cbn [length seq]. rewrite !filter_cons.
  assert ((pre ++ r :: rows) !! length pre = Some r) as Hr by (by apply list_lookup_middle).
  specialize (IH (pre ++ [r])). rewrite <- app_assoc, length_app, Nat.add_1_r in IH. cbn [app] in IH.
  rewrite Hr. cbn [from_option]. destruct (g r); rewrite ?decide_True, ?decide_False by done; cbn [map]; rewrite IH; [|done].
  by rewrite Hr.
Qed.

(** The rows a filter selects. *)
Definition selects (st : codeCollection) (filter : Filter) (r : row) : bool :=
  bool_decide (evalFilter filter (rowValue st r) = truthTrue).

Definition declaredIn (st : codeCollection) (name : bytes) : bool :=
  bool_decide (is_Some (cc_columnIndex st !! name)).

Lemma selectedBy_ok emptyScalar st filter :
  indexInv st -> columnsInv st -> filterOk (declaredIn st) filter = true ->
  exists matches, compileFilter emptyScalar st filter = Ok matches /\
    (forall position r, cc_rows st !! position = Some r -> matches position = Ok (evalFilter filter (rowValue st r))) /\
    selectPositions (selectedBy matches) (seq 0 (length (cc_rows st)))
    = Ok (base.filter (fun p => from_option (selects st filter) false (cc_rows st !! p) = true)
            (seq 0 (length (cc_rows st)))).
Proof.
  intros Hi Hc Hok. pose proof (compileFilter_compiles emptyScalar st Hi Hc filter) as Hcomp.
  unfold compiles in Hcomp. unfold declaredIn in Hok. rewrite Hok in Hcomp. destruct Hcomp as (matches & Hm & Hp).
  exists matches. split; [done|]. split; [done|]. apply selectPositions_ok. apply Forall_forall. intros position Hpos.
  apply elem_of_seq in Hpos. destruct (lookup_lt_is_Some_2 (cc_rows st) position) as [r Hr]; [lia|].
  unfold selectedBy. rewrite Hr, (Hp _ _ Hr). done.
Qed.

(** ** Delete *)

(** The deletion records for a list of ids. *)
Definition deletions (ids : list bytes) : list rowRecord := map (emptyRecord recordDelete) ids.

Lemma batchView_deletions columns dataFile ids : forall f id,
  batchView columns dataFile (deletions ids) (replicate (length ids) None) f id
  = if decide (id ∈ ids) then None else f id.
Proof.
  induction ids as [|x ids IH]; intros f id; [done|]. cbn [deletions map length replicate batchView].
  fold (deletions ids). rewrite IH. cbn [rec_id rec_kind emptyRecord].
  change (recordDelete =? recordDelete) with true. cbv iota.
  destruct (decide (id ∈ ids)) as [Hin|Hin]; [by rewrite decide_True by (by right)|].
  destruct (decide (id = x)) as [->|Hne]; [by rewrite decide_True by left|].
  rewrite decide_False; [done|]. intros [->|?]%elem_of_cons; done.
Qed.

(** The ids of the rows of a durable collection fit a record. *)
Lemma durable_row_id recs st r :
  durable recs st -> r ∈ cc_rows st ->
  zlen (row_id r) <= maxInt64 /\ zlen (h_Scalars (cc_header st)) <= maxInt64.
Proof.
  intros Hd Hr. apply list_elem_of_lookup in Hr as [i Hr]. pose proof (proj1 (du_stores _ _ Hd)) as Hi.
  destruct (codes_lookup _ _ _ Hi Hr) as [code Hcode].
  destruct (durable_live recs st i (recordOfRow (cc_dictionaries st) (length (h_Scalars (cc_header st))) r code) Hd)
    as ([Hid Hc _] & _); [|done].
  apply live_lookup. eauto.
Qed.

Lemma deletions_wf recs st ids :
  durable recs st -> (forall id, id ∈ ids -> exists r, r ∈ cc_rows st /\ row_id r = id) ->
  Forall (recordWf (h_Scalars (cc_header st))) (deletions ids).
Proof.
  intros Hd Hids. apply Forall_map, Forall_forall. intros id Hid. destruct (Hids _ Hid) as (r & Hr & <-).
  destruct (durable_row_id _ _ _ Hd Hr). split; [done|done|by left].
Qed.

Lemma deletions_writable dataSize ids :
  Forall2 (writable dataSize) (deletions ids) (replicate (length ids) None).
Proof. induction ids; constructor; [|done]. intros _ H. done. Qed.

(** [deleteWhere] removes exactly the selected rows. *)
Lemma deleteWhere_ok recs st io n selected (g : row -> bool) :
  durable recs st ->
  selectPositions selected (seq 0 (length (cc_rows st)))
    = Ok (filter (fun p => from_option g false (cc_rows st !! p) = true) (seq 0 (length (cc_rows st)))) ->
  let ids := map row_id (filter (fun r => g r = true) (cc_rows st)) in
  batchFits io st n (deletions ids) (replicate (length ids) None) ->
  exists st' recs', deleteWhere io selected st = (st', Ok (zlen ids)) /\ durable recs' st' /\ sameColumns st st' /\
    forall id, stored st' id = if decide (id ∈ ids) then None else stored st id.
Proof.
  intros Hd Hsel ids Hfit. unfold deleteWhere. rewrite Hsel.
  pose proof (positions_rows g (cc_rows st) []) as Hpos. cbn [app length] in Hpos.
  set (positions := filter _ _) in *.
  assert (map (fun position => emptyRecord recordDelete (idAt st position)) positions = deletions ids) as ->.
  { unfold ids, deletions. rewrite <- Hpos. rewrite map_map. done. }
  assert (length (deletions ids) = length ids) as Hlen by apply length_map. rewrite Hlen.
  destruct (Nat.eqb_spec (length ids) 0) as [E|E].
  - exists st, recs. apply nil_length_inv in E. rewrite E. by split_and!.
  - assert (Forall (recordWf (h_Scalars (cc_header st))) (deletions ids)) as Hwf.
    { eapply deletions_wf; [done|]. intros id Hid. apply list_elem_of_fmap in Hid as (r & -> & Hr).
      apply list_elem_of_filter in Hr as [_ Hr]. eauto. }
    destruct (write_fits recs st io _ _ n Hd Hwf (deletions_writable _ _) Hfit) as (st' & recs' & Hw & Hd' & Hsc & Hst).
    exists st', recs'. unfold writeStored. rewrite Hw. unfold zlen. rewrite Hlen. split_and!; try done.
    intros id. rewrite Hst. apply batchView_deletions.
Qed.

(** [Delete] removes exactly the rows its filter selects.  On a durable collection
    with a well-formed filter and within the limits it succeeds, returns the number of
    rows on which the filter is true, and afterwards precisely these ids are gone,
    while every other row keeps its record and its blob. *)
Theorem Delete_exact recs st emptyScalar io filter n :
  durable recs st -> columnsInv st -> filterOk (declaredIn st) filter = true ->
  let ids := map row_id (base.filter (fun r => selects st filter r = true) (cc_rows st)) in
  batchFits io st n (deletions ids) (replicate (length ids) None) ->
  exists st' recs', Delete emptyScalar io filter st = (st', Ok (zlen ids)) /\ durable recs' st' /\ columnsInv st' /\
    forall id, stored st' id = if decide (id ∈ ids) then None else stored st id.
Proof.
  intros Hd Hc Hok ids Hfit.
  destruct (selectedBy_ok emptyScalar st filter (proj1 (du_stores _ _ Hd)) Hc Hok) as (matches & Hm & _ & Hsel).
  unfold Delete. rewrite Hm.
  destruct (deleteWhere_ok recs st io n _ _ Hd Hsel Hfit) as (st' & recs' & ? & ? & Hsc & ?).
  exists st', recs'. split_and!; try done. by eapply sameColumns_inv.
Qed.

(** ** Query *)

#[export] Instance idLe_total st : Total (idLe st).
Proof. intros a b. unfold idLe. rewrite (strCompare_opp (idAt st a)). lia. Qed.

#[export] Instance idLe_trans st : Transitive (idLe st).
Proof. intros a b c. unfold idLe. apply strCompare_le_trans. Qed.

(** Every row's blob can be read. *)
Definition blobsOk (st : codeCollection) : Prop :=
  forall position r, cc_rows st !! position = Some r ->
    exists content metadata, readBlob st position = Ok (content, metadata).

Lemma cell_total st position r column :
  indexInv st -> columnsInv st -> cc_rows st !! position = Some r -> exists c, cell st position column = Ok c.
Proof.
  intros Hi Hc Hr. destruct (cc_columnIndex st !! col_Name column) as [index|] eqn:Hidx.
  - rewrite (cell_value_ok st position r column index) by done. by eexists.
  - unfold cell. rewrite Hidx. by eexists.
Qed.

Lemma cells_total st position r columns : forall acc,
  indexInv st -> columnsInv st -> cc_rows st !! position = Some r -> exists m, cells st position columns acc = Ok m.
Proof.
  induction columns as [|column columns IH]; intros acc Hi Hc Hr; [by eexists|]. cbn [cells].
  destruct (cell_total st position r column Hi Hc Hr) as [c ->]. cbn [mbind outcome_bind]. by apply IH.
Qed.

Lemma hit_total st position r score columns :
  indexInv st -> columnsInv st -> blobsOk st -> cc_rows st !! position = Some r ->
  exists h, hit st position score columns = Ok h /\ hit_ID h = row_id r.
Proof.
  intros Hi Hc Hb Hr. unfold hit. destruct (Hb _ _ Hr) as (content & metadata & ->). cbn [liftStored mbind outcome_bind].
  rewrite Hr. destruct (cells_total st position r columns ∅ Hi Hc Hr) as [m ->]. cbn [mbind outcome_bind]. by eexists.
Qed.

Lemma mapOutcome_ok {A B} (f : A -> outcome storeError B) (P : A -> B -> Prop) l :
  (forall x, x ∈ l -> exists y, f x = Ok y /\ P x y) -> exists ys, mapOutcome f l = Ok ys /\ Forall2 P l ys.
Proof.
  induction l as [|x l IH]; intros H; [by exists []|]. cbn [mapOutcome].
  destruct (H x) as (y & -> & Hy); [left|]. destruct IH as (ys & -> & Hys); [intros z Hz; apply H; by right|].
  exists (y :: ys). split; [done|by constructor].
Qed.

(** [take] with the guard of the code. *)
Lemma limit_take {A} (limit : Z) (l : list A) :
  (if (0 <? limit) && (limit <? zlen l) then take (Z.to_nat limit) l else l)
  = if 0 <? limit then take (Z.to_nat limit) l else l.
Proof.
  destruct (Z.ltb_spec 0 limit); [|done]. cbn [andb]. destruct (Z.ltb_spec limit (zlen l)) as [|Hge]; [done|].
  unfold zlen in Hge. by rewrite take_ge by lia.
Qed.

Lemma compileOptional_ok emptyScalar st filter :
  indexInv st -> columnsInv st -> from_option (filterOk (declaredIn st)) true filter = true ->
  exists matches, compileOptional emptyScalar st filter = Ok matches /\
    forall position r, cc_rows st !! position = Some r ->
      matches position = Ok (from_option (fun f => evalFilter f (rowValue st r)) truthTrue filter).
Proof.
  intros Hi Hc Hok. destruct filter as [filter|]; cbn in *.
  - destruct (selectedBy_ok emptyScalar st filter Hi Hc Hok) as (matches & ? & ? & _). eauto.
  - eexists. split; [done|]. done.
Qed.

(** A nil filter selects every row. *)
Definition selectsOpt (st : codeCollection) (filter : option Filter) (r : row) : bool :=
  from_option (fun f => selects st f r) true filter.

Lemma selectPositions_opt st filter matches :
  (forall position r, cc_rows st !! position = Some r ->
    matches position = Ok (from_option (fun f => evalFilter f (rowValue st r)) truthTrue filter)) ->
  selectPositions (selectedBy matches) (seq 0 (length (cc_rows st)))
  = Ok (base.filter (fun p => from_option (selectsOpt st filter) false (cc_rows st !! p) = true)
          (seq 0 (length (cc_rows st)))).
Proof.
  intros Hm. apply selectPositions_ok, Forall_forall. intros position Hpos. apply elem_of_seq in Hpos.
  destruct (lookup_lt_is_Some_2 (cc_rows st) position) as [r Hr]; [lia|].
  unfold selectedBy. rewrite Hr, (Hm _ _ Hr). by destruct filter.
Qed.

(** [Query] returns exactly the matching rows in id order.  On a valid collection
    with readable blobs and a well-formed (or nil) filter it succeeds; the ids of the
    hits are the first [limit] (all, when the limit is not positive) of the matching
    row ids in ascending order, and every hit is what reading that row gives. *)
Theorem Query_exact st emptyScalar filter limit columns :
  indexInv st -> columnsInv st -> blobsOk st -> from_option (filterOk (declaredIn st)) true filter = true ->
  exists hits ids, Query emptyScalar filter limit columns st = Ok hits /\
    ids ≡ₚ map row_id (base.filter (fun r => selectsOpt st filter r = true) (cc_rows st)) /\
    StronglySorted (fun a b => strCompare a b <= 0) ids /\
    map hit_ID hits = (if 0 <? limit then take (Z.to_nat limit) ids else ids) /\
    Forall (fun h => exists position, cc_byID st !! hit_ID h = Some position /\
      hit st position (fNum (QArith_base.inject_Z 0)) columns = Ok h) hits.
Proof.
  intros Hi Hc Hb Hok. destruct (compileOptional_ok emptyScalar st filter Hi Hc Hok) as (matches & Hm & Hmr).
  unfold Query. rewrite Hm. cbn [liftFilter mbind outcome_bind]. unfold selectSorted.
  rewrite (selectPositions_opt st filter matches Hmr). cbn [mbind outcome_bind].
  pose proof (positions_rows (selectsOpt st filter) (cc_rows st) []) as Hpos. cbn [app length] in Hpos.
  set (positions := base.filter _ (seq 0 (length (cc_rows st)))) in *. rewrite limit_take.
  set (sorted := merge_sort (idLe st) positions). set (chosen := if 0 <? limit then _ else _).
  assert (Forall (fun p => p < length (cc_rows st))%nat sorted) as Hv.
  { apply Forall_forall. intros p Hp. unfold sorted in Hp. rewrite (merge_sort_Permutation (idLe st)) in Hp.
    apply list_elem_of_filter in Hp as [_ Hp]. apply elem_of_seq in Hp. lia. }
  assert (Forall (fun p => p < length (cc_rows st))%nat chosen) as Hvc.
  { unfold chosen. destruct (0 <? limit); [by apply Forall_take|done]. }
  destruct (mapOutcome_ok (fun position => hit st position (fNum (QArith_base.inject_Z 0)) columns)
    (fun position h => hit st position (fNum (QArith_base.inject_Z 0)) columns = Ok h /\
       hit_ID h = idAt st position /\ (position < length (cc_rows st))%nat) chosen) as (hits & Hh & H2).
  { intros position Hp. rewrite Forall_forall in Hvc. specialize (Hvc _ Hp).
    destruct (lookup_lt_is_Some_2 _ _ Hvc) as [r Hr].
    destruct (hit_total st position r (fNum (QArith_base.inject_Z 0)) columns Hi Hc Hb Hr) as (h & Hh & Hid).
    exists h. unfold idAt. rewrite Hr. done. }
  exists hits, (map (idAt st) sorted). split; [done|]. split; [|split; [|split]].
  - rewrite <- Hpos. unfold sorted. rewrite (merge_sort_Permutation (idLe st) positions). done.
  - assert (StronglySorted (idLe st) sorted) as Hs by (apply StronglySorted_merge_sort; apply _).
    clear - Hs. induction Hs as [|p ps Hs IH Hp]; cbn; constructor; [done|]. by apply Forall_map.
  - transitivity (map (idAt st) chosen).
    + clear - H2. induction H2 as [|p h ps hs (_ & Hid & _) _ IH]; [done|]. cbn. by rewrite IH, Hid.
    + unfold chosen. destruct (0 <? limit); [|done]. symmetry; apply firstn_map.
  - apply Forall_forall. intros h Hin. apply list_elem_of_lookup in Hin as [i Hh'].
    destruct (Forall2_lookup_r _ _ _ _ _ H2 Hh') as (position & _ & Hhit & Hid & Hlt).
    exists position. split; [|done]. apply (ii_byID _ Hi). unfold idAt in Hid.
    destruct (lookup_lt_is_Some_2 _ _ Hlt) as [r Hr]. rewrite Hr in Hid |- *. cbn in *. by rewrite Hid.
Qed.

(** ** Search *)

Lemma searchWalk_ok st request :
  columnsInv st ->
  0 < walk_window (searchWalk st request) /\
  (walk_grouped (searchWalk st request) = true ->
   (walk_groupColumn (searchWalk st request) < length (h_Scalars (cc_header st)))%nat).
Proof.
  intros Hc. unfold searchWalk, defaultSearchLimit.
  destruct (_ && _); [destruct (cc_columnIndex st !! _) as [column|] eqn:E|]; cbn [walk_window walk_grouped walk_groupColumn];
    (split; [destruct (Z.leb_spec (sq_Limit request) 0); lia|]); try done.
  intros _. by eapply columnsInv_lt.
Qed.

(** C3. [Search] ranks exactly.  On a valid collection with readable blobs, for a
    256-dimensional query and a well-formed (or nil) filter, and for any number of
    processors, it succeeds and returns the rows that the plain definition selects:
    all matching rows whose score reaches the minimum, sorted by Hamming distance and
    then by id, of which the first [PerGroupLimit] of each group are eligible and the
    first [Limit] (10 by default) eligible ones are returned, each read from its row
    with its score.  Chunking over workers, the bounded selections and their pruning
    threshold never change the answer. *)
Theorem Search_exact st emptyScalar procs request :
  indexInv st -> columnsInv st -> blobsOk st -> zlen (sq_Vector request) = Dimensions ->
  from_option (filterOk (declaredIn st)) true (sq_Filter request) = true ->
  exists matches hits, Search emptyScalar procs request st = Ok hits /\
    (forall position r, cc_rows st !! position = Some r ->
      matches position = Ok (from_option (fun f => evalFilter f (rowValue st r)) truthTrue (sq_Filter request))) /\
    Forall2 (fun c h => hit st (cand_position c) (Score (cand_distance c)) (sq_Columns request) = Ok h /\
                        hit_ID h = idAt st (cand_position c))
      (rankReference st (CodeOf (sq_Vector request)) matches (searchWalk st request)) hits.
Proof.
  intros Hi Hc Hb Hv Hok. destruct (compileOptional_ok emptyScalar st (sq_Filter request) Hi Hc Hok) as (matches & Hm & Hmr).
  destruct (searchWalk_ok st request Hc) as [Hw Hg].
  assert (rank procs st (CodeOf (sq_Vector request)) matches (searchWalk st request)
    = Ok (rankReference st (CodeOf (sq_Vector request)) matches (searchWalk st request))) as Hr.
  { apply rank_exact; [done|done|done|]. intros position Hpos. destruct (lookup_lt_is_Some_2 _ _ Hpos) as [r Hr].
    rewrite (Hmr _ _ Hr). by eexists. }
  destruct (mapOutcome_ok (fun c => hit st (cand_position c) (Score (cand_distance c)) (sq_Columns request))
    (fun c h => hit st (cand_position c) (Score (cand_distance c)) (sq_Columns request) = Ok h /\
                hit_ID h = idAt st (cand_position c))
    (rankReference st (CodeOf (sq_Vector request)) matches (searchWalk st request))) as (hits & Hh & H2).
  { intros c Hin. apply rankReference_valid in Hin. destruct (lookup_lt_is_Some_2 _ _ Hin) as [r Hr'].
    destruct (hit_total st (cand_position c) r (Score (cand_distance c)) (sq_Columns request) Hi Hc Hb Hr') as (h & ? & Hid).
    exists h. split; [done|]. unfold idAt. by rewrite Hr'. }
  exists matches, hits. unfold Search. rewrite Hv, Z.eqb_refl. cbn [negb]. rewrite Hm. cbn [liftFilter mbind outcome_bind].
  rewrite Hr. cbn [liftRank mbind outcome_bind]. done.
Qed.

(** ** Adding columns *)

(** A longer declaration with the old columns first. *)
Lemma canonicalCell_app columns more c : canonicalCell columns c -> canonicalCell (columns ++ more) c.
Proof.
  intros (column & Hc & Hv). exists column. split; [|done]. rewrite lookup_app_l; [done|]. by eapply lookup_lt_Some.
Qed.

Lemma encodeCells_app columns more cells : forall payload,
  Forall (canonicalCell columns) cells ->
  encodeCells (columns ++ more) payload cells = encodeCells columns payload cells.
Proof.
  induction cells as [|c cells IH]; intros payload H; [done|]. apply Forall_cons in H as [(column & Hc & Hv) H].
  cbn [encodeCells]. assert (encodeCell (columns ++ more) payload c = encodeCell columns payload c) as ->.
  { unfold encodeCell. rewrite lookup_app_l by (by eapply lookup_lt_Some). done. }
  destruct (encodeCell columns payload c); cbn [mbind outcome_bind]; [by apply IH|done|done].
Qed.

Lemma recordWf_app columns more r :
  zlen (columns ++ more) <= maxInt64 -> recordWf columns r -> recordWf (columns ++ more) r.
Proof.
  intros Hz [Hid _ Hk]. split; [done|done|]. destruct Hk as [Hk|(? & ? & ? & ? & ? & ? & ? & Hl & Hc)]; [by left|right].
  do 7 (split; [done|]). split; [rewrite length_app; lia|]. eapply Forall_impl; [exact Hc|]. apply canonicalCell_app.
Qed.

Lemma recordPayload_app columns more r :
  recordWf columns r -> recordPayload (columns ++ more) r = recordPayload columns r.
Proof.
  intros [_ _ Hk]. unfold recordPayload, encodeRecord. destruct Hk as [Hk|(Hk & _ & _ & _ & _ & _ & _ & _ & Hc)].
  - rewrite Hk. done.
  - rewrite Hk. change (recordUpsert =? recordDelete) with false. cbv iota zeta. by rewrite encodeCells_app.
Qed.

Lemma normCells_app n k f : (forall column, (n <= column)%nat -> f column = None) -> normCells (n + k) f = normCells n f.
Proof.
  intros Hf. unfold normCells. rewrite seq_app, omap_app, Nat.add_0_l. rewrite <- (app_nil_r (omap _ (seq 0 n))) at 2. f_equal.
  induction k as [|k IH]; [done|]. rewrite seq_S, omap_app, IH. cbn. rewrite Hf by lia. done.
Qed.

Lemma normRecord_app columns more r :
  recordWf columns r -> normRecord (length (columns ++ more)) r = normRecord (length columns) r.
Proof.
  intros Hwf. unfold normRecord. f_equal. rewrite length_app. apply normCells_app. intros column Hle.
  apply lastCell_None. intros c Hc E. pose proof (cells_in_range _ _ Hwf) as Hr. rewrite Forall_forall in Hr.
  specialize (Hr _ Hc). lia.
Qed.

Section ensure.
Context (emptyScalar : ScalarValue) (recs : list rowRecord) (st : codeCollection) (more : list ScalarColumn).
Context (Hd : durable recs st) (Hz : zlen (h_Scalars (cc_header st) ++ more) <= maxInt64).

(** The collection after [ensureColumns] added [more]. *)
Definition widened : codeCollection :=
  let scalars := h_Scalars (cc_header st) ++ more in
  setRows (setDeclaration emptyScalar scalars st)
    (map (fun r => setRowCells r (row_cells r ++ replicate (length scalars - length (row_cells r)) 0%nat)) (cc_rows st)).

Lemma widened_indexInv : indexInv widened.
Proof using Hd.
  pose proof (proj1 (du_stores _ _ Hd)) as [Hc Hb Hdl Hdi Hr]. constructor; cbn.
  - by rewrite length_map.
  - intros id position. rewrite Hb. rewrite list_lookup_fmap. by destruct (cc_rows st !! position).
  - rewrite length_app, length_replicate, length_app, Hdl. lia.
  - apply Forall_app; split; [done|]. apply Forall_replicate. split; cbn; [lia|]. intros v i H. by rewrite lookup_empty in H.
  - apply Forall_map. eapply Forall_impl; [exact Hr|]. intros r [Hlen Hcells]. split; cbn.
    + rewrite !length_app, length_replicate. lia.
    + intros column id Hlk Hne. apply lookup_app_Some in Hlk as [Hlk|[_ Hlk]].
      * destruct (Hcells _ _ Hlk Hne) as (d & Hd' & Hlt). exists d. split; [|done].
        rewrite lookup_app_l; [done|]. by eapply lookup_lt_Some.
      * apply lookup_replicate in Hlk as [-> _]. done.
Qed.

Lemma widened_cellAt r column :
  r ∈ cc_rows st ->
  cellAt (cc_dictionaries widened)
    (row_cells r ++ replicate (length (h_Scalars (cc_header st) ++ more) - length (row_cells r)) 0%nat) column
  = cellAt (cc_dictionaries st) (row_cells r) column.
Proof using Hd.
  intros Hr. pose proof (proj1 (du_stores _ _ Hd)) as Hi. pose proof (ii_rows _ Hi) as Hrows.
  rewrite Forall_forall in Hrows. destruct (Hrows _ Hr) as [Hlen Hcells]. unfold cellAt.
  destruct (row_cells r !! column) as [id|] eqn:E.
  - rewrite lookup_app_l by (by eapply lookup_lt_Some). rewrite E. destruct id as [|id]; [done|].
    destruct (Hcells _ _ E) as (d & Hdl & _); [done|]. cbn [cc_dictionaries widened setRows setIndex setDeclaration].
    rewrite lookup_app_l by (by eapply lookup_lt_Some). done.
  - rewrite lookup_app_r by (by apply lookup_ge_None). destruct (replicate _ _ !! _) eqn:E'; [|done].
    apply lookup_replicate in E' as [-> _]. done.
Qed.

Lemma widened_view id : view widened id = view st id.
Proof using Hd.
  pose proof (proj1 (du_stores _ _ Hd)) as Hi. pose proof widened_indexInv as Hi'.
  destruct (byID_cases st id Hi) as [(position & r & code & Hb & Hr & Hc & Hid)|Hn].
  - assert (r ∈ cc_rows st) as Hin by (by eapply list_elem_of_lookup_2).
    rewrite (view_row st id position r code Hi Hr Hid Hc).
    rewrite (view_row widened id position (setRowCells r (row_cells r ++ replicate (length (h_Scalars (cc_header st) ++ more) - length (row_cells r)) 0%nat)) code Hi'); [|cbn; rewrite list_lookup_fmap; by rewrite Hr|done|done].
    f_equal. unfold recordOfRow. cbn [row_id row_relativePath row_splitPart row_splitRecorded row_dataOffset row_dataLength row_cells setRowCells]. f_equal.
    cbn [cc_header widened setRows setIndex setDeclaration h_Scalars].
    etransitivity; [apply normCells_ext; intros column; by apply widened_cellAt|].
    rewrite length_app. apply normCells_app. intros column Hle. unfold cellAt.
    pose proof (ii_rows _ Hi) as Hrows. rewrite Forall_forall in Hrows. destruct (Hrows _ Hin) as [Hlen _].
    by rewrite lookup_ge_None_2 by lia.
  - rewrite (view_none st id Hi Hn). by apply view_none.
Qed.

Lemma replayView_widened rs : forall f g,
  Forall (recordWf (h_Scalars (cc_header st))) rs -> (forall j, f j = g j) ->
  forall j, replayView (length (h_Scalars (cc_header st) ++ more)) rs f j = replayView (length (h_Scalars (cc_header st))) rs g j.
Proof.
  clear. induction rs as [|r rs IH]; intros f g Hwf Hfg j; [apply Hfg|]. apply Forall_cons in Hwf as [Hr Hwf]. cbn.
  apply IH; [done|]. intros k. unfold applyView. rewrite (normRecord_app _ more r Hr). case_decide; [done|apply Hfg].
Qed.

Lemma widened_durable : durable recs widened.
Proof using All.
  pose proof Hd as [(Hi & _ & Hr & Hl & Hv) Hlg Hrg Hdt].
  assert (Forall (recordWf (h_Scalars (cc_header st))) recs) as Hwf by (by eapply loggable_wf).
  assert (Forall (fun r => recordPayload (h_Scalars (cc_header st) ++ more) r = recordPayload (h_Scalars (cc_header st)) r) recs) as Hpay.
  { eapply Forall_impl; [exact Hwf|]. intros r. apply recordPayload_app. }
  split; [|cbn| |]; [|..|done|done].
  - split; [apply widened_indexInv|]. split; [done|]. split; [|split; [done|]].
    + cbn. rewrite Hr. unfold logOf. f_equal. clear - Hpay. induction Hpay as [|r rs Hp _ IH]; [done|].
      cbn [map]. unfold recordFrame at 1 3. by rewrite Hp, IH.
    + intros id. rewrite widened_view, Hv. symmetry. by apply replayView_widened.
  - apply Forall_forall. intros r Hin. rewrite Forall_forall in Hlg, Hpay. destruct (Hlg _ Hin) as [Hw Hf Hdd].
    split; [by apply recordWf_app|by rewrite Hpay|done].
Qed.
End ensure.

Lemma setDeclaration_declares emptyScalar scalars st column :
  column ∈ scalars -> is_Some (cc_columnIndex (setDeclaration emptyScalar scalars st) !! col_Name column).
Proof.
  intros Hin. cbn. apply list_elem_of_lookup in Hin as [i Hi].
  apply not_eq_None_Some. intros Hn. apply not_elem_of_list_to_map in Hn. apply Hn.
  apply list_elem_of_fmap. exists (col_Name column, i). split; [done|]. rewrite elem_of_reverse.
  apply elem_of_lookup_imap. eauto.
Qed.

(** Adding columns loses nothing.  When the header can be written, [EnsureCollection]
    on an existing collection declares every requested column, keeps the old columns
    in front, and changes no stored record and no blob: the row log written under the
    old declaration is still exactly the log of the collection. *)
Theorem ensureColumns_preserves emptyScalar identityOk requested recs st :
  durable recs st -> columnsInv st -> zlen (h_Scalars (cc_header st) ++ requested) <= maxInt64 ->
  exists st' res, ensureColumns emptyScalar true identityOk requested st = (st', res) /\
    (res = Ok tt \/ identityOk = false) /\ durable recs st' /\ columnsInv st' /\
    (exists more, h_Scalars (cc_header st') = h_Scalars (cc_header st) ++ more) /\
    (forall column, column ∈ requested -> is_Some (cc_columnIndex st' !! col_Name column)) /\
    forall id, stored st' id = stored st id.
Proof.
  intros Hd Hc Hz. unfold ensureColumns.
  set (added := base.filter (fun column => cc_columnIndex st !! col_Name column = None) requested).
  assert (length added <= length requested)%nat as Hlen by apply length_filter.
  destruct (Nat.eqb_spec (length added) 0) as [E|E].
  - exists st, (Ok tt). apply nil_length_inv in E. split_and!; try done; [by left|exists []; by rewrite app_nil_r|].
    intros column Hin. destruct (cc_columnIndex st !! col_Name column) eqn:Ec; [by eexists|].
    assert (column ∈ added) as Ha by (by apply list_elem_of_filter). rewrite E in Ha. by apply elem_of_nil in Ha.
  - cbn [negb]. pose proof (proj1 (du_stores _ _ Hd)) as Hi.
    assert (zlen (h_Scalars (cc_header st) ++ added) <= maxInt64) as Hza by (rewrite zlen_app in *; unfold zlen in *; lia).
    destruct (existsb _ _) eqn:Hex.
    { exfalso. apply existsb_exists in Hex as (r & Hr & Hlt). apply list_elem_of_In in Hr. reflect_bools.
      cbn in Hr. pose proof (ii_rows _ Hi) as Hrows. rewrite Forall_forall in Hrows. destruct (Hrows _ Hr) as [Hl _].
      rewrite length_app in Hlt. lia. }
    exists (widened emptyScalar st added), (if identityOk then Ok tt else Fail (stStored csIO)). split; [done|].
    assert (columnsInv (widened emptyScalar st added)) as Hc'
      by apply (setDeclaration_columns emptyScalar (h_Scalars (cc_header st) ++ added) st).
    split; [destruct identityOk; auto|]. split; [by apply widened_durable|]. split; [exact Hc'|].
    split; [by exists added|]. split.
    + intros column Hin.
      destruct (cc_columnIndex st !! col_Name column) as [index|] eqn:Ec.
      * destruct (Hc _ _ Ec) as (declared & Hdl & <-).
        apply (setDeclaration_declares emptyScalar (h_Scalars (cc_header st) ++ added) st).
        apply elem_of_app. left. by eapply list_elem_of_lookup_2.
      * apply (setDeclaration_declares emptyScalar (h_Scalars (cc_header st) ++ added) st).
        apply elem_of_app. right. by apply list_elem_of_filter.
    + intros id. unfold stored. change (cc_dataFile (widened emptyScalar st added)) with (cc_dataFile st).
      f_equal. by apply (widened_view emptyScalar recs st added).
Qed.

(** ** Witnesses *)

Lemma sampleFresh_columns : columnsInv sampleFresh.
Proof. apply setDeclaration_columns. Qed.

Definition sampleRow : Row :=
  MkUserRow (lit "row-9") (replicate 256 1065353216)
    [(lit "flag", MkScalar ScalarTypeBool true [] false 0); (lit "item", MkScalar ScalarTypeString false (lit "conv") false 0)]
    (lit "a/b") 3 true (lit "content") (lit "{}").

Lemma sampleRow_ok : userRowOk sampleFresh sampleRow.
Proof.
  constructor.
  - split; [vm_compute; discriminate|vm_compute; discriminate].
  - reflexivity.
  - vm_compute. discriminate.
  - cbn. lia.
  - apply (bool_decide_unpack _). vm_compute. exact I.
  - apply Forall_cons; split; [|apply Forall_cons; split; [|apply Forall_nil_2]].
    + exists 2%nat, (MkColumn (lit "flag") ScalarTypeBool). split; [vm_compute; reflexivity|]. split; [reflexivity|by left].
    + exists 0%nat, (MkColumn (lit "item") ScalarTypeString). split; [vm_compute; reflexivity|]. split; [reflexivity|].
      right. split; [vm_compute; discriminate|done].
  - split; vm_compute; discriminate.
Qed.

Lemma Upsert_roundtrip_witness :
  exists st' recs', Upsert goodIO [sampleRow] sampleFresh = (st', Ok tt) /\ durable recs' st' /\ columnsInv st' /\
    (forall before r after, [sampleRow] = before ++ r :: after -> Forall (fun r' => ur_ID r' <> ur_ID r) after ->
      exists position, cc_byID st' !! ur_ID r = Some position /\
        cc_codes st' !! position = Some (CodeOf (ur_Vector r)) /\
        forall score columns, hit st' position score columns =
          Ok (MkHit (ur_ID r) (ur_Content r) score (ur_RelativePath r) (ur_Metadata r) (ur_SplitPart r)
                (ur_SplitPartRecorded r)
                (foldl (fun m column => <[col_Name column := userCell sampleFresh r column]> m) ∅ columns))) /\
    (forall id, Forall (fun r => ur_ID r <> id) [sampleRow] -> stored st' id = stored sampleFresh id).
Proof.
  apply (Upsert_roundtrip [] sampleFresh goodIO [sampleRow] 1).
  - apply freshCollection_durable.
  - apply sampleFresh_columns.
  - vm_compute. discriminate.
  - apply Forall_cons; split; [apply sampleRow_ok|apply Forall_nil_2].
  - constructor.
    + vm_compute. discriminate.
    + repeat constructor; cbn; lia.
    + vm_compute. reflexivity.
    + intros records' buf H. vm_compute in H. injection H as <- _. repeat constructor; vm_compute; discriminate.
    + reflexivity.
Defined.

Lemma Delete_exact_witness :
  let ids := map row_id (base.filter (fun r => selects sampleLoaded sampleFilter r = true) (cc_rows sampleLoaded)) in
  exists st' recs', Delete (MkScalar ScalarTypeString true [] false 0) goodIO sampleFilter sampleLoaded
      = (st', Ok (zlen ids)) /\ durable recs' st' /\ columnsInv st' /\
    forall id, stored st' id = if decide (id ∈ ids) then None else stored sampleLoaded id.
Proof.
  apply (Delete_exact [sampleRecord] sampleLoaded (MkScalar ScalarTypeString true [] false 0) goodIO sampleFilter 10).
  - apply sampleLoaded_durable.
  - apply sampleLoaded_columns.
  - vm_compute. reflexivity.
  - constructor.
    + vm_compute. discriminate.
    + apply (bool_decide_unpack _). vm_compute. exact I.
    + vm_compute. reflexivity.
    + intros records' buf H. vm_compute in H. injection H as <- _. repeat constructor; vm_compute; discriminate.
    + reflexivity.
Defined.

Lemma sampleLoaded_blobs : blobsOk sampleLoaded.
Proof.
  intros position r Hr. assert (position = 0%nat) as ->.
  { apply lookup_lt_Some in Hr. vm_compute in Hr. lia. }
  exists (lit "twenty bytes of text"), (lit "twenty bytes of meta"). vm_compute. reflexivity.
Qed.

Lemma Query_exact_witness :
  exists hits ids, Query (MkScalar ScalarTypeString true [] false 0) (Some sampleFilter) 5 sampleColumns sampleLoaded = Ok hits /\
    ids ≡ₚ map row_id (base.filter (fun r => selectsOpt sampleLoaded (Some sampleFilter) r = true) (cc_rows sampleLoaded)) /\
    StronglySorted (fun a b => strCompare a b <= 0) ids /\
    map hit_ID hits = take (Z.to_nat 5) ids /\
    Forall (fun h => exists position, cc_byID sampleLoaded !! hit_ID h = Some position /\
      hit sampleLoaded position (fNum (QArith_base.inject_Z 0)) sampleColumns = Ok h) hits.
Proof.
  apply (Query_exact sampleLoaded (MkScalar ScalarTypeString true [] false 0) (Some sampleFilter) 5 sampleColumns).
  - apply (du_stores _ _ sampleLoaded_durable).
  - apply sampleLoaded_columns.
  - apply sampleLoaded_blobs.
  - vm_compute. reflexivity.
Defined.

Definition sampleSearch : SearchRequest :=
  MkSearch (replicate 256 0) (Some sampleFilter) 3 (fInf true) (lit "item") 2 sampleColumns.

Lemma Search_exact_witness :
  exists matches hits, Search (MkScalar ScalarTypeString true [] false 0) 8 sampleSearch sampleLoaded = Ok hits /\
    (forall position r, cc_rows sampleLoaded !! position = Some r ->
      matches position = Ok (evalFilter sampleFilter (rowValue sampleLoaded r))) /\
    Forall2 (fun c h => hit sampleLoaded (cand_position c) (Score (cand_distance c)) sampleColumns = Ok h /\
                        hit_ID h = idAt sampleLoaded (cand_position c))
      (rankReference sampleLoaded (CodeOf (replicate 256 0)) matches (searchWalk sampleLoaded sampleSearch)) hits.
Proof.
  apply (Search_exact sampleLoaded (MkScalar ScalarTypeString true [] false 0) 8 sampleSearch).
  - apply (du_stores _ _ sampleLoaded_durable).
  - apply sampleLoaded_columns.
  - apply sampleLoaded_blobs.
  - reflexivity.
  - vm_compute. reflexivity.
Defined.

Lemma ensureColumns_preserves_witness :
  let requested := [MkColumn (lit "item") ScalarTypeString; MkColumn (lit "new") ScalarTypeInt64] in
  exists st' res, ensureColumns (MkScalar ScalarTypeString true [] false 0) true true requested sampleLoaded = (st', res) /\
    (res = Ok tt \/ true = false) /\ durable [sampleRecord] st' /\ columnsInv st' /\
    (exists more, h_Scalars (cc_header st') = h_Scalars (cc_header sampleLoaded) ++ more) /\
    (forall column, column ∈ requested -> is_Some (cc_columnIndex st' !! col_Name column)) /\
    forall id, stored st' id = stored sampleLoaded id.
Proof.
  apply (ensureColumns_preserves (MkScalar ScalarTypeString true [] false 0) true
    [MkColumn (lit "item") ScalarTypeString; MkColumn (lit "new") ScalarTypeInt64] [sampleRecord] sampleLoaded).
  - apply sampleLoaded_durable.
  - apply sampleLoaded_columns.
  - vm_compute. discriminate.
Defined.
