(* ===== verification/CsSync.v ===== *)
(** * CsSync: keeping a handle coherent with the files of other stores
      (codestore/coherence.go; collection.go [readHeader], [openFiles],
      [loadCollection], [removeOtherGenerations])

    Several processes share a collection directory.  Each keeps its index in memory
    together with the identity of the header file and of the two log files it has
    open.  Before every operation, under the kernel lock, it compares these with the
    directory: a replaced file forces a reload, a longer row log is replayed from
    where the handle left off. *)

From S2P Require Import Prelude GoBinary CsRecord CsCollection CsIndex CsLog CsWrite CsDurable CsFilter CsStore.

Open Scope Z_scope.

#[local] Opaque ChecksumIEEE leBytes.

(** ** Directories and handles *)

(** A collection directory: the header with its file identity, and for every
    generation the identity and the content of its row log and data file. *)
Record disk := MkDisk {
  dk_header : option (Z * collectionHeader);
  dk_rows : gmap Z (Z * bytes);
  dk_data : gmap Z (Z * bytes);
}.

(** An open collection: [hd_headerInfo] is nil after a failed [Stat]. *)
Record handle := MkHandle {
  hd_st : codeCollection;
  hd_headerInfo : option Z;
  hd_rowsInode : Z;
  hd_dataInode : Z;
  hd_closed : bool;
}.

Inductive syncError := syMissing | syHeader | syFiles | syStored (e : csError) | syClosed | syLock.

Definition setStored (h : handle) (st : codeCollection) : handle :=
  MkHandle st (hd_headerInfo h) (hd_rowsInode h) (hd_dataInode h) (hd_closed h).

Definition generation (h : handle) : Z := h_Generation (cc_header (hd_st h)).

(** ** Loading *)

(** [readHeader]: the frame format must be known.  [leftovers] says whether
    [requireNoStoredGenerations] finds generation files without a header. *)
Definition readHeader (leftovers : bool) (d : disk) : outcome syncError (Z * collectionHeader) :=
  match dk_header d with
  | None => if leftovers then Fail syHeader else Fail syMissing
  | Some (info, header) =>
      if negb (h_FrameFormat header =? frameFormatPayloadCRC) && negb (h_FrameFormat header =? frameFormatLengthCRC)
      then Fail syHeader else Ok (info, header)
  end.

(** Generation files that must not exist without a header: any but the empty files of
    generation 0. *)
Definition requireNoStoredGenerations (d : disk) : bool :=
  let bad (files : gmap Z (Z * bytes)) :=
    existsb (fun '(g, (_, content)) => negb (g =? 0) || (0 <? zlen content)) (map_to_list files) in
  bad (dk_rows d) || bad (dk_data d).

(** Write the content of an open row log back to the directory. *)
Definition storeRows (g inode : Z) (content : bytes) (d : disk) : disk :=
  MkDisk (dk_header d) (<[g := (inode, content)]> (dk_rows d)) (dk_data d).

(** Keep only the files of generation [g]; other generations are removed. *)
Definition removeOtherGenerations (g : Z) (d : disk) : disk :=
  MkDisk (dk_header d) (filter (fun file => file.1 = g) (dk_rows d)) (filter (fun file => file.1 = g) (dk_data d)).

Definition loadDirectory (emptyScalar : ScalarValue) (truncateOk : bool) (d : disk)
  : disk * outcome syncError handle :=
  match readHeader (requireNoStoredGenerations d) d with
  | Fail e => (d, Fail e)
  | Panic => (d, Panic)
  | Ok (info, header) =>
      let g := h_Generation header in
      match dk_rows d !! g, dk_data d !! g with
      | Some (rowsInode, rowsFile), Some (dataInode, dataFile) =>
          match loadCollection emptyScalar truncateOk header rowsFile dataFile with
          | (st, Ok _) =>
              (removeOtherGenerations g (storeRows g rowsInode (cc_rowsFile st) d),
               Ok (MkHandle st (Some info) rowsInode dataInode false))
          | (_, Fail e) => (d, Fail (syStored e))
          | (_, Panic) => (d, Panic)
          end
      | _, _ => (d, Fail syFiles)
      end
  end.

(** ** Comparing a handle with the directory *)

Definition pathReplaced (file : option (Z * bytes)) (inode : Z) : bool :=
  match file with
  | None => true
  | Some (current, _) => negb (current =? inode)
  end.

Definition filesReplaced (info : Z) (h : handle) (d : disk) : outcome syncError bool :=
  match dk_header d with
  | None => Fail syHeader
  | Some (current, _) =>
      if negb (current =? info) then Ok true else
      if pathReplaced (dk_rows d !! generation h) (hd_rowsInode h) then Ok true else
      Ok (pathReplaced (dk_data d !! generation h) (hd_dataInode h))
  end.

(** The current contents of the files a handle has open; they are the directory's
    files once [filesReplaced] has said no. *)
Definition openedFiles (h : handle) (d : disk) : bytes * bytes :=
  (match dk_rows d !! generation h with
   | Some (inode, content) => if inode =? hd_rowsInode h then content else cc_rowsFile (hd_st h)
   | None => cc_rowsFile (hd_st h)
   end,
   match dk_data d !! generation h with
   | Some (inode, content) => if inode =? hd_dataInode h then content else cc_dataFile (hd_st h)
   | None => cc_dataFile (hd_st h)
   end).

Definition diskChanged (h : handle) (d : disk) : outcome syncError bool :=
  match hd_headerInfo h with
  | None => Ok true
  | Some info =>
      replaced ← filesReplaced info h d;
      if (replaced : bool) then Ok true else
      let '(rows, data) := openedFiles h d in
      Ok (negb (zlen rows =? cc_logSize (hd_st h)) || (zlen data <? cc_dataSize (hd_st h)))
  end.

(** [reload]: a failed load leaves the handle as it was. *)
Definition reload (emptyScalar : ScalarValue) (truncateOk : bool) (h : handle) (d : disk)
  : disk * handle * outcome syncError unit :=
  match loadDirectory emptyScalar truncateOk d with
  | (d', Ok fresh) =>
      (d', MkHandle (hd_st fresh) (hd_headerInfo fresh) (hd_rowsInode fresh) (hd_dataInode fresh) (hd_closed h), Ok tt)
  | (d', Fail e) => (d', h, Fail e)
  | (d', Panic) => (d', h, Panic)
  end.

Definition syncWithDisk (emptyScalar : ScalarValue) (truncateOk : bool) (h : handle) (d : disk)
  : disk * handle * outcome syncError unit :=
  match hd_headerInfo h with
  | None => reload emptyScalar truncateOk h d
  | Some info =>
      match filesReplaced info h d with
      | Fail e => (d, h, Fail e)
      | Panic => (d, h, Panic)
      | Ok true => reload emptyScalar truncateOk h d
      | Ok false =>
          let '(rows, data) := openedFiles h d in
          let st := hd_st h in
          if (zlen rows <? cc_logSize st) || (zlen data <? cc_dataSize st)
          then reload emptyScalar truncateOk h d
          else
          let st := setFiles st rows data (zlen data) (cc_logSize st) in
          if zlen rows =? cc_logSize st then (d, setStored h st, Ok tt) else
          let '(st', res) := replay truncateOk st in
          (storeRows (generation h) (hd_rowsInode h) (cc_rowsFile st') d, setStored h st',
           match res with Ok _ => Ok tt | Fail e => Fail (syStored e) | Panic => Panic end)
      end
  end.

(** ** Locking a handle

    [lockOk] is the outcome of taking the kernel lock within the request's context. *)
Definition lockForWrite (emptyScalar : ScalarValue) (lockOk truncateOk : bool) (h : handle) (d : disk)
  : disk * handle * outcome syncError unit :=
  if negb lockOk then (d, h, Fail syLock) else
  if hd_closed h then (d, h, Fail syClosed) else
  syncWithDisk emptyScalar truncateOk h d.

Definition lockForRead (emptyScalar : ScalarValue) (readLockOk writeLockOk truncateOk : bool) (h : handle) (d : disk)
  : disk * handle * outcome syncError unit :=
  if negb readLockOk then (d, h, Fail syLock) else
  if hd_closed h then (d, h, Fail syClosed) else
  match diskChanged h d with
  | Fail e => (d, h, Fail e)
  | Panic => (d, h, Panic)
  | Ok false => (d, h, Ok tt)
  | Ok true => lockForWrite emptyScalar writeLockOk truncateOk h d
  end.

(** ** Coherence *)

(** The directory holds the log of [recs] under the current header. *)
Record diskHolds (recs : list rowRecord) (d : disk) (info : Z) (header : collectionHeader)
    (rowsInode dataInode : Z) (data : bytes) : Prop := {
  dh_header : dk_header d = Some (info, header);
  dh_format : h_FrameFormat header = frameFormatPayloadCRC \/ h_FrameFormat header = frameFormatLengthCRC;
  dh_rows : dk_rows d !! h_Generation header
            = Some (rowsInode, logOf (h_Scalars header) (h_FrameFormat header) recs);
  dh_data : dk_data d !! h_Generation header = Some (dataInode, data);
  dh_loggable : Forall (loggable (h_Scalars header) (zlen data)) recs;
  dh_cells : Z.of_nat (1 + cellTotal recs) < 2 ^ 32;
}.

(** The handle's state is the log it has read, [recs], of the files it has open. *)
Record handleKnows (recs : list rowRecord) (h : handle) (header : collectionHeader) : Prop := {
  hk_header : cc_header (hd_st h) = header;
  hk_index : indexInv (hd_st h);
  hk_log : cc_logSize (hd_st h) = zlen (logOf (h_Scalars header) (h_FrameFormat header) recs);
  hk_view : forall id, view (hd_st h) id = replayView (length (h_Scalars header)) recs (fun _ => None) id;
  hk_dicts : dictsBound (1 + cellTotal recs) (cc_dictionaries (hd_st h));
}.

(** A load of a directory that holds a log succeeds and knows that log. *)
Lemma reload_ok emptyScalar truncateOk recs d info header rowsInode dataInode data h :
  diskHolds recs d info header rowsInode dataInode data ->
  exists d' h', reload emptyScalar truncateOk h d = (d', h', Ok tt) /\
    storesLog header recs (hd_st h') /\ hd_headerInfo h' = Some info /\
    hd_rowsInode h' = rowsInode /\ hd_dataInode h' = dataInode /\ cc_dataFile (hd_st h') = data.
Proof.
  intros [Hh Hf Hr Hd Hl Hc]. unfold reload, loadDirectory, readHeader. rewrite Hh.
  assert (negb (h_FrameFormat header =? frameFormatPayloadCRC) && negb (h_FrameFormat header =? frameFormatLengthCRC) = false) as ->
    by (destruct Hf as [->| ->]; done).
  rewrite Hr, Hd.
  destruct (applyAll_fresh emptyScalar header data recs Hl Hc) as (st1 & Ha & Hs).
  rewrite (loadCollection_complete emptyScalar truncateOk header data recs st1 Hl Ha).
  eexists _, _. split; [done|]. cbn. by split_and!.
Qed.

(** The incremental replay of a log that has grown. *)
Lemma replay_more truncateOk recs more st n :
  indexInv st -> cc_rowsFile st = logOf (h_Scalars (cc_header st)) (h_FrameFormat (cc_header st)) (recs ++ more) ->
  cc_logSize st = zlen (logOf (h_Scalars (cc_header st)) (h_FrameFormat (cc_header st)) recs) ->
  Forall (loggable (h_Scalars (cc_header st)) (cc_dataSize st)) more ->
  dictsBound n (cc_dictionaries st) -> Z.of_nat (n + cellTotal more) < 2 ^ 32 ->
  exists st', replay truncateOk st = (st', Ok tt) /\ indexInv st' /\ cc_header st' = cc_header st /\
    cc_rowsFile st' = cc_rowsFile st /\ cc_logSize st' = zlen (cc_rowsFile st) /\
    cc_dataFile st' = cc_dataFile st /\ cc_dataSize st' = cc_dataSize st /\
    dictsBound (n + cellTotal more) (cc_dictionaries st') /\
    forall j, view st' j = replayView (length (h_Scalars (cc_header st))) more (view st) j.
Proof.
  intros Hi Hrows Hlog Hl Hb Hn.
  set (columns := h_Scalars (cc_header st)) in *. set (format := h_FrameFormat (cc_header st)) in *.
  destruct (applyAll_spec more st n Hi) as (st1 & Ha & Hi1 & [Hh1 Hf1] & Hb1 & Hv1);
    [by eapply loggable_wf|done|done|].
  rewrite logOf_app in Hrows. rewrite <- (app_nil_r (logOf columns format more)) in Hrows.
  pose proof (logOf_length columns format more) as Hlen.
  unfold replay. rewrite Hlog.
  assert (length more <= length (cc_rowsFile st))%nat as Hle by (rewrite Hrows, !length_app; lia).
  replace (S (length (cc_rowsFile st))) with (length more + S (length (cc_rowsFile st) - length more))%nat by lia.
  rewrite (replayLoop_frames truncateOk more _ st (logOf columns format recs) [] st1 Hrows Hlog Hl Ha).
  fold columns format. injection Hf1 as Hf1 Hf2 Hf3 Hf4.
  assert (zlen (logOf columns format recs) + zlen (logOf columns format more) = zlen (cc_rowsFile st)) as Hz.
  { rewrite Hrows, app_nil_r, zlen_app. done. }
  rewrite Hz. cbn [replayLoop]. rewrite (proj2 (Z.leb_le _ _)) by lia.
  eexists. split; [done|]. split_and!; try done. by destruct Hi1.
Qed.

(** C38. Stores that share a directory stay coherent.  Under the kernel lock, a handle
    that knows a prefix [recs] of the log of the files it has open, or a handle whose
    files have been replaced (another store compacted, or its header identity is
    unknown), is brought up to date by [syncWithDisk]: it succeeds, and the handle
    then holds exactly the log of the directory, the same map a fresh load builds. *)
Theorem syncWithDisk_coherent emptyScalar truncateOk h d info header rowsInode dataInode data recs more :
  diskHolds (recs ++ more) d info header rowsInode dataInode data ->
  (handleKnows recs h header /\ hd_rowsInode h = rowsInode /\ hd_dataInode h = dataInode /\ hd_headerInfo h = Some info)
  \/ hd_headerInfo h <> Some info ->
  exists d' h', syncWithDisk emptyScalar truncateOk h d = (d', h', Ok tt) /\
    storesLog header (recs ++ more) (hd_st h') /\ cc_dataFile (hd_st h') = data /\ hd_headerInfo h' = Some info.
Proof.
  intros Hdisk Hcase. pose proof Hdisk as [Hh Hf Hr Hd Hl Hc].
  assert (forall h0, exists d' h', reload emptyScalar truncateOk h0 d = (d', h', Ok tt) /\
    storesLog header (recs ++ more) (hd_st h') /\ cc_dataFile (hd_st h') = data /\ hd_headerInfo h' = Some info) as Hreload.
  { intros h0. destruct (reload_ok emptyScalar truncateOk _ _ _ _ _ _ _ h0 Hdisk) as (d' & h' & ? & ? & ? & _ & _ & ?). eauto 10. }
  unfold syncWithDisk. destruct (hd_headerInfo h) as [info'|] eqn:Hinfo; [|apply Hreload].
  unfold filesReplaced. rewrite Hh. destruct (Z.eqb_spec info info') as [<-|Hne]; cbn [negb]; [|apply Hreload].
  destruct Hcase as [(Hk & Hri & Hdi & _)|Hne]; [|done]. destruct Hk as [Hkh Hki Hkl Hkv Hkd].
  assert (generation h = h_Generation header) as Hg by (unfold generation; by rewrite Hkh).
  unfold openedFiles, pathReplaced. rewrite Hg, Hr, Hd, Hri, Hdi, !Z.eqb_refl. cbn [negb].
  destruct (_ || _); [apply Hreload|]. set (st := setFiles _ _ _ _ _).
  apply Forall_app in Hl as [Hlr Hlm].
  assert (indexInv st) as Hist by (by destruct Hki).
  destruct (Z.eqb_spec (zlen (logOf (h_Scalars header) (h_FrameFormat header) (recs ++ more))) (cc_logSize st)) as [E|E].
  - eexists _, _. split; [done|]. cbn [hd_st setStored hd_headerInfo]. split; [|split; done].
    assert (more = []) as ->.
    { cbn in E. rewrite Hkl, logOf_app, zlen_app in E. pose proof (logOf_length (h_Scalars header) (h_FrameFormat header) more).
      unfold zlen in E. destruct more; [done|]. cbn [length] in *. lia. }
    split; [done|]. split; [done|]. split; [done|].
    split; [cbn [cc_logSize cc_rowsFile st setFiles]; by rewrite app_nil_r, Hkl|]. rewrite app_nil_r. exact Hkv.
  - assert (cc_header st = header) as Hsth by done.
    unfold cellTotal in Hc. rewrite sum_list_with_app in Hc. fold (cellTotal recs) (cellTotal more) in Hc.
    destruct (replay_more truncateOk recs more st (1 + cellTotal recs) Hist) as
      (st' & Hrep & Hi' & Hh' & Hrf & Hlg & Hdf & Hds & _ & Hv'); rewrite ?Hsth; try done.
    rewrite Hrep. eexists _, _. split; [done|]. cbn [hd_st setStored hd_headerInfo].
    split; [|split; [by rewrite Hdf|]].
    + split; [done|]. split; [by rewrite Hh'|]. split; [by rewrite Hrf|]. split; [by rewrite Hlg, Hrf|].
      intros id. rewrite Hv', Hsth, replayView_app. apply replayView_ext. exact Hkv.
    + done.
Qed.

Lemma syncWithDisk_coherent_witness :
  let h := MkHandle sampleFresh (Some 1) 7 8 false in
  let d := MkDisk (Some (1, sampleHeader))
    {[0 := (7, logOf sampleColumns frameFormatLengthCRC ([] ++ [sampleRecord]))]} {[0 := (8, sampleData)]} in
  exists d' h', syncWithDisk (MkScalar ScalarTypeString true [] false 0) true h d = (d', h', Ok tt) /\
    storesLog sampleHeader ([] ++ [sampleRecord]) (hd_st h') /\ cc_dataFile (hd_st h') = sampleData /\
    hd_headerInfo h' = Some 1.
Proof.
  intros h d. apply (syncWithDisk_coherent (MkScalar ScalarTypeString true [] false 0) true h d 1 sampleHeader 7 8
    sampleData [] [sampleRecord]).
  - constructor; [reflexivity|by right|reflexivity|reflexivity| |vm_compute; reflexivity].
    apply Forall_cons; split; [apply sampleRecord_loggable|apply Forall_nil_2].
  - left. split; [|done].
    destruct (freshCollection_spec (MkScalar ScalarTypeString true [] false 0) sampleHeader [] []) as (Hi & Hb & Hh & Hv & Hl & _).
    constructor; [done|done|done|done|done].
Defined.
