(* ===== verification/CsOpen.v ===== *)
(** * CsOpen: opening and closing collections concurrently
      (codestore/store.go [Open], [Close], [cachedCollection], [openedCollection])

    Requests look a collection up in the cache under the store mutex, open it without
    the mutex when it is missing, and take the mutex again to publish the handle.
    [Close] may run between any two of these steps.  Handles are numbered; the state
    records which handles have open files. *)

From S2P Require Import Prelude.

(** ** State *)

Inductive openError := ErrStoreClosed | errOpen.

(** A request in [openedCollection]: about to load, holding a freshly opened handle,
    or returned. *)
Inductive request :=
| rqLoading (name : bytes)
| rqLoaded (name : bytes) (opened : nat)
| rqDone (name : bytes) (result : outcome openError nat).

Record Store := MkStore {
  s_closed : bool;
  s_collections : gmap bytes nat;
  s_open : gset nat;
  s_next : nat;
  s_requests : gmap nat request;
}.

Definition emptyStore : Store := MkStore false ∅ ∅ 0 ∅.

Definition setRequest (i : nat) (r : request) (s : Store) : Store :=
  MkStore (s_closed s) (s_collections s) (s_open s) (s_next s) (<[i := r]> (s_requests s)).

(** ** Steps *)

(** [cachedCollection]: an error when the store is closed, otherwise the cached handle. *)
Definition cachedCollection (name : bytes) (s : Store) : outcome openError (option nat) :=
  if s_closed s then Fail ErrStoreClosed else Ok (s_collections s !! name).

(** The first step of [openedCollection]. *)
Definition beginOpen (i : nat) (name : bytes) (s : Store) : Store :=
  setRequest i
    (match cachedCollection name s with
     | Fail e => rqDone name (Fail e)
     | Panic => rqDone name Panic
     | Ok (Some cached) => rqDone name (Ok cached)
     | Ok None => rqLoading name
     end) s.

(** [openCollection], without the mutex: a new handle with open files, or an error. *)
Definition loadStep (i : nat) (name : bytes) (loadOk : bool) (s : Store) : Store :=
  if loadOk
  then setRequest i (rqLoaded name (s_next s))
         (MkStore (s_closed s) (s_collections s) ({[s_next s]} ∪ s_open s) (S (s_next s)) (s_requests s))
  else setRequest i (rqDone name (Fail errOpen)) s.

(** [closeFiles] of one handle. *)
Definition closeFiles (opened : nat) (s : Store) : Store :=
  MkStore (s_closed s) (s_collections s) (s_open s ∖ {[opened]}) (s_next s) (s_requests s).

(** The last step, under the mutex again. *)
Definition publish (i : nat) (name : bytes) (opened : nat) (s : Store) : Store :=
  if s_closed s then setRequest i (rqDone name (Fail ErrStoreClosed)) (closeFiles opened s) else
  match s_collections s !! name with
  | Some existing => setRequest i (rqDone name (Ok existing)) (closeFiles opened s)
  | None =>
      setRequest i (rqDone name (Ok opened))
        (MkStore (s_closed s) (<[name := opened]> (s_collections s)) (s_open s) (s_next s) (s_requests s))
  end.

(** [Close]: every cached handle is closed and forgotten. *)
Definition Close (s : Store) : Store :=
  MkStore true ∅ (s_open s ∖ list_to_set (map snd (map_to_list (s_collections s)))) (s_next s) (s_requests s).

(** Interleavings of requests and [Close]. *)
Inductive step : Store -> Store -> Prop :=
| step_begin s i name : s_requests s !! i = None -> step s (beginOpen i name s)
| step_load s i name loadOk : s_requests s !! i = Some (rqLoading name) -> step s (loadStep i name loadOk s)
| step_publish s i name opened : s_requests s !! i = Some (rqLoaded name opened) -> step s (publish i name opened s)
| step_close s : step s (Close s).

Inductive reachable : Store -> Prop :=
| reach_start : reachable emptyStore
| reach_step s s' : reachable s -> step s s' -> reachable s'.

(** ** Invariant *)

(** Where an open handle is held: in the cache, or by exactly one request. *)
Record openInv (s : Store) : Prop := {
  oi_closed : s_closed s = true -> s_collections s = ∅;
  oi_fresh : forall h, h ∈ s_open s -> h < s_next s;
  oi_cached : forall name h, s_collections s !! name = Some h -> h ∈ s_open s;
  oi_loaded : forall i name h, s_requests s !! i = Some (rqLoaded name h) ->
    h ∈ s_open s /\ (forall name', s_collections s !! name' <> Some h) /\
    (forall j name', s_requests s !! j = Some (rqLoaded name' h) -> j = i);
  oi_held : forall h, h ∈ s_open s ->
    (exists name, s_collections s !! name = Some h) \/ (exists i name, s_requests s !! i = Some (rqLoaded name h));
  oi_names : forall name name' h, s_collections s !! name = Some h -> s_collections s !! name' = Some h -> name = name';
  oi_done : forall i name h, s_requests s !! i = Some (rqDone name (Ok h)) ->
    s_closed s = true \/ s_collections s !! name = Some h;
}.

Lemma emptyStore_inv : openInv emptyStore.
Proof. constructor; cbn; intros *; rewrite ?lookup_empty; try done; set_solver. Qed.

Lemma beginOpen_inv i name s : s_requests s !! i = None -> openInv s -> openInv (beginOpen i name s).
Proof.
  intros Hi [H1 H2 H3 H4 H5 H6 H7]. unfold beginOpen, cachedCollection.
  constructor; cbn; try done.
  - intros j n h. rewrite lookup_insert. case_decide as E.
    + intros Hj. repeat case_match; simplify_eq.
    + intros Hj. destruct (H4 _ _ _ Hj) as (? & ? & Hu). split_and!; try done. intros k n'.
      rewrite lookup_insert. case_decide; [intros; repeat case_match; simplify_eq|apply Hu].
  - intros h Hh. destruct (H5 h Hh) as [?|(j & n & Hj)]; [by left|right]. exists j, n.
    rewrite lookup_insert_ne; [done|]. intros ->. congruence.
  - intros j n h. rewrite lookup_insert. case_decide as E; [|apply H7].
    intros Hj. destruct (s_closed s) eqn:Hc; [by left|]. right. repeat case_match; by simplify_eq.
Qed.

Lemma loadStep_inv i name loadOk s :
  s_requests s !! i = Some (rqLoading name) -> openInv s -> openInv (loadStep i name loadOk s).
Proof.
  intros Hi [H1 H2 H3 H4 H5 H6 H7]. unfold loadStep. destruct loadOk; constructor; cbn; try done.
  - intros h [->%elem_of_singleton|Hh]%elem_of_union; [lia|]. specialize (H2 _ Hh). lia.
  - intros n h Hh. apply elem_of_union. right. by eapply H3.
  - intros j n h. rewrite lookup_insert. case_decide as E.
    + intros [= <- <-]. split; [apply elem_of_union; left; by apply elem_of_singleton|]. split.
      * intros n' Hn'. apply H3, H2 in Hn'. lia.
      * intros k n'. rewrite lookup_insert. case_decide; [by subst|]. intros Hk. destruct (H4 _ _ _ Hk) as (Ho & _).
        apply H2 in Ho. lia.
    + intros Hj. destruct (H4 _ _ _ Hj) as (Ho & Hn & Hu). split; [by apply elem_of_union; right|]. split; [done|].
      intros k n'. rewrite lookup_insert. case_decide; [|apply Hu]. intros [= _ <-]. apply H2 in Ho. lia.
  - intros h [->%elem_of_singleton|Hh]%elem_of_union.
    + right. exists i, name. by rewrite lookup_insert_eq.
    + destruct (H5 h Hh) as [?|(j & n & Hj)]; [by left|right]. exists j, n.
      rewrite lookup_insert_ne; [done|]. intros ->. congruence.
  - intros j n h. rewrite lookup_insert. case_decide; [done|apply H7].
  - intros j n h. rewrite lookup_insert. case_decide as E; [done|].
    intros Hj. destruct (H4 _ _ _ Hj) as (? & ? & Hu). split_and!; try done. intros k n'.
    rewrite lookup_insert. case_decide; [done|apply Hu].
  - intros h Hh. destruct (H5 h Hh) as [?|(j & n & Hj)]; [by left|right]. exists j, n.
    rewrite lookup_insert_ne; [done|]. intros ->. congruence.
  - intros j n h. rewrite lookup_insert. case_decide; [done|apply H7].
Qed.

(** A request that gives its handle up closes it. *)
Lemma giveUp_inv i name opened result s :
  s_requests s !! i = Some (rqLoaded name opened) -> openInv s ->
  (forall h, result = Ok h -> s_closed s = true \/ s_collections s !! name = Some h) ->
  openInv (setRequest i (rqDone name result) (closeFiles opened s)).
Proof.
  intros Hi [H1 H2 H3 H4 H5 H6 H7] Hres. destruct (H4 _ _ _ Hi) as (Ho & Hnc & Hu).
  constructor; cbn; try done.
  - intros h [Hh _]%elem_of_difference. by apply H2.
  - intros n h Hn. apply elem_of_difference. split; [by eapply H3|]. intros ->%elem_of_singleton. by eapply Hnc.
  - intros j n h. rewrite lookup_insert. case_decide as E; [done|]. intros Hj.
    destruct (H4 _ _ _ Hj) as (Ho' & Hn' & Hu'). split; [|split; [done|]].
    + apply elem_of_difference. split; [done|]. intros ->%elem_of_singleton. apply E. symmetry. by eapply Hu.
    + intros k n'. rewrite lookup_insert. case_decide; [done|apply Hu'].
  - intros h [Hh Hne]%elem_of_difference. destruct (H5 h Hh) as [?|(j & n & Hj)]; [by left|right]. exists j, n.
    rewrite lookup_insert_ne; [done|]. intros ->. rewrite Hi in Hj. simplify_eq. set_solver.
  - intros j n h. rewrite lookup_insert. case_decide as E; [|apply H7]. intros [= <- ->]. by apply Hres.
Qed.

Lemma publish_inv i name opened s :
  s_requests s !! i = Some (rqLoaded name opened) -> openInv s -> openInv (publish i name opened s).
Proof.
  intros Hi Hinv. unfold publish. destruct (s_closed s) eqn:Hc; [by apply giveUp_inv|].
  destruct (s_collections s !! name) as [existing|] eqn:Hn.
  { apply giveUp_inv; try done. intros h [= <-]. by right. }
  destruct Hinv as [H1 H2 H3 H4 H5 H6 H7]. destruct (H4 _ _ _ Hi) as (Ho & Hnc & Hu).
  constructor; cbn; try done.
  - intros n h. rewrite lookup_insert. case_decide; [by intros [= <-]|apply H3].
  - intros j n h. rewrite lookup_insert. case_decide as E; [done|]. intros Hj.
    destruct (H4 _ _ _ Hj) as (Ho' & Hn' & Hu'). split; [done|]. split.
    + intros n'. rewrite lookup_insert. case_decide; [|apply Hn']. intros [= ->]. apply E. symmetry. by eapply Hu.
    + intros k n'. rewrite lookup_insert. case_decide; [done|apply Hu'].
  - intros h Hh. destruct (decide (h = opened)) as [->|Hne].
    + left. exists name. by rewrite lookup_insert_eq.
    + destruct (H5 h Hh) as [(n & Hn')|(j & n & Hj)].
      * left. exists n. rewrite lookup_insert_ne; [done|]. intros ->. congruence.
      * right. exists j, n. rewrite lookup_insert_ne; [done|]. intros ->. rewrite Hi in Hj. by simplify_eq.
  - intros n n' h. rewrite !lookup_insert. repeat case_decide; subst; try done.
    + intros [= <-] Hn'. by destruct (Hnc _ Hn').
    + intros Hn' [= <-]. by destruct (Hnc _ Hn').
    + apply H6.
  - intros j n h. rewrite lookup_insert. case_decide as E.
    + intros [= <- <-]. right. apply lookup_insert_eq.
    + intros Hj. destruct (H7 _ _ _ Hj) as [?|Hn']; [congruence|]. right.
      rewrite lookup_insert_ne; [done|]. intros ->. congruence.
Qed.

Lemma Close_inv s : openInv s -> openInv (Close s).
Proof.
  intros [H1 H2 H3 H4 H5 H6 H7].
  assert (forall h, h ∈ map snd (map_to_list (s_collections s)) <-> exists name, s_collections s !! name = Some h) as Hin.
  { intros h. rewrite list_elem_of_fmap. split.
    - intros ([name h'] & -> & Hm). exists name. by apply elem_of_map_to_list.
    - intros [name Hm]. exists (name, h). split; [done|]. by apply elem_of_map_to_list. }
  constructor; cbn; try done.
  - intros h [Hh _]%elem_of_difference. by apply H2.
  - intros i name h Hi. destruct (H4 _ _ _ Hi) as (Ho & Hn & Hu). split; [|split; [|done]].
    + apply elem_of_difference. split; [done|]. rewrite elem_of_list_to_set, Hin. intros [n Hn']. by eapply Hn.
    + intros n. by rewrite lookup_empty.
  - intros h [Hh Hne]%elem_of_difference. right. rewrite elem_of_list_to_set, Hin in Hne.
    destruct (H5 h Hh) as [?|?]; [by destruct Hne|done].
  - intros i name h _. by left.
Qed.

Lemma reachable_openInv s : reachable s -> openInv s.
Proof.
  induction 1 as [|s s' _ IH Hs]; [apply emptyStore_inv|]. destruct Hs.
  - by apply beginOpen_inv.
  - by apply loadStep_inv.
  - by apply publish_inv.
  - by apply Close_inv.
Qed.

(** C39. No handle leaks and no two handles for one collection.  In every interleaving
    of requests and [Close]: all requests that were given a handle of a collection
    while the store is open hold the same, cached handle, whose files are open; an
    open file always belongs to the cache or to the one request that just opened it;
    and once the store is closed the cache stays empty, so that when no request is
    between opening and publishing, no collection file is open. *)
Theorem Store_open_safe s :
  reachable s ->
  (forall i j name h h', s_closed s = false ->
     s_requests s !! i = Some (rqDone name (Ok h)) -> s_requests s !! j = Some (rqDone name (Ok h')) ->
     h = h' /\ h ∈ s_open s) /\
  (s_closed s = true -> s_collections s = ∅) /\
  (s_closed s = true -> (forall i name h, s_requests s !! i <> Some (rqLoaded name h)) -> s_open s = ∅).
Proof.
  intros Hr. destruct (reachable_openInv s Hr) as [H1 H2 H3 H4 H5 H6 H7]. split_and!.
  - intros i j name h h' Hc Hi Hj. destruct (H7 _ _ _ Hi) as [?|Hh]; [congruence|].
    destruct (H7 _ _ _ Hj) as [?|Hh']; [congruence|]. split; [congruence|by eapply H3].
  - done.
  - intros Hc Hno. apply leibniz_equiv. intros h. split; [|set_solver]. intros Hh.
    destruct (H5 h Hh) as [(name & Hn)|(i & name & Hi)]; [|by destruct (Hno i name h)].
    rewrite (H1 Hc), lookup_empty in Hn. done.
Qed.

Lemma Store_open_safe_witness :
  let s1 := beginOpen 1 (lit "b") (beginOpen 0 (lit "a") emptyStore) in
  let s := Close (publish 0 (lit "a") 0 (loadStep 0 (lit "a") true s1)) in
  (forall i j name h h', s_closed s = false ->
     s_requests s !! i = Some (rqDone name (Ok h)) -> s_requests s !! j = Some (rqDone name (Ok h')) ->
     h = h' /\ h ∈ s_open s) /\
  (s_closed s = true -> s_collections s = ∅) /\
  (s_closed s = true -> (forall i name h, s_requests s !! i <> Some (rqLoaded name h)) -> s_open s = ∅).
Proof.
  intros s1 s. apply (Store_open_safe s).
  eapply reach_step; [|apply step_close]. eapply reach_step; [|eapply step_publish; reflexivity].
  eapply reach_step; [|eapply step_load; reflexivity]. eapply reach_step; [|apply step_begin; reflexivity].
  eapply reach_step; [|apply step_begin; reflexivity]. apply reach_start.
Defined.
