(* ===== verification/LtRegistry.v ===== *)
(** * LtRegistry: the session registry (livetrack/registry.go, drain.go, closer.go, parent.go)

    A registry tracks long-lived sessions until they are released or closed by force.
    This file has the data and the operations as functions on the registry (each run
    without interference), and the theory of the parent index with the breadth-first
    [DescendantsOf].  The interleavings of these operations are the step relation of
    LtDrain. *)

From S2P Require Import Prelude.

Open Scope Z_scope.

(** ** Data *)

Inductive State := StateOpen | StateDraining | StateForcing | StateClosed.

#[export] Instance State_eq_dec : EqDecision State.
Proof. solve_decision. Defined.

Section registry.
(** The metadata a subsystem tracks. *)
Context {M : Type}.

(** A session; times are nanoseconds.  [sess_closer] says whether it has a closer. *)
Record Session := MkSession {
  sess_ID : bytes;
  sess_ParentID : bytes;
  sess_Kind : bytes;
  sess_OpenedAt : Z;
  sess_Meta : M;
  sess_closer : bool;
}.

(** The mutable part of a session, shared by all pointers to it. *)
Record sessionState := MkSessionState {
  ss_released : bool;
  ss_lastActivityNano : Z;
}.

(** [reg_heap] holds the [sessionState] of every session ever created. *)
Record Registry := MkRegistry {
  reg_state : State;
  reg_sessions : gmap bytes Session;
  reg_parents : gmap bytes (list bytes);
  reg_heap : gmap bytes sessionState;
}.

Definition newRegistry : Registry := MkRegistry StateOpen ∅ ∅ ∅.

Definition setState (s : State) (r : Registry) : Registry :=
  MkRegistry s (reg_sessions r) (reg_parents r) (reg_heap r).
Definition setMaps (sessions : gmap bytes Session) (parents : gmap bytes (list bytes)) (r : Registry) : Registry :=
  MkRegistry (reg_state r) sessions parents (reg_heap r).
Definition setHeap (heap : gmap bytes sessionState) (r : Registry) : Registry :=
  MkRegistry (reg_state r) (reg_sessions r) (reg_parents r) heap.

(** ** Activity *)

Definition Touch (now : Z) (s : Session) (r : Registry) : Registry :=
  match reg_heap r !! sess_ID s with
  | None => r
  | Some state => setHeap (<[sess_ID s := MkSessionState (ss_released state) now]> (reg_heap r)) r
  end.

(** Zero for a snapshot, whose state pointer is nil. *)
Definition IdleSince (now : Z) (s : Session) (r : Registry) : Z :=
  match reg_heap r !! sess_ID s with
  | None => 0
  | Some state => now - ss_lastActivityNano state
  end.

(** ** Register *)

(** The insertion under the mutex, after the state check. *)
Definition registerInsert (s : Session) (r : Registry) : Registry :=
  setMaps (<[sess_ID s := s]> (reg_sessions r))
    (if decide (sess_ParentID s = []) then reg_parents r
     else <[sess_ParentID s := default [] (reg_parents r !! sess_ParentID s) ++ [sess_ID s]]> (reg_parents r)) r.

(** [Register] run without interference: the session gets its state, then the second
    check and the insertion happen under the mutex. *)
Definition Register (s : Session) (r : Registry) : Registry * option Session :=
  if decide (reg_state r <> StateOpen) then (r, None) else
  let r := setHeap (<[sess_ID s := MkSessionState false (sess_OpenedAt s)]> (reg_heap r)) r in
  if decide (reg_state r <> StateOpen) then (r, None) else (registerInsert s r, Some s).

(** ** Removal *)

(** Take a session out of both maps; the code repeats this in [Release],
    [ForceCloseMatching] and [snapshotIdleEntries]. *)
Definition removeSession (s : Session) (maps : gmap bytes Session * gmap bytes (list bytes))
  : gmap bytes Session * gmap bytes (list bytes) :=
  let '(sessions, parents) := maps in
  let sessions := delete (sess_ID s) sessions in
  if decide (sess_ParentID s = []) then (sessions, parents) else
  let siblings := default [] (parents !! sess_ParentID s) in
  let filtered := filter (fun child => child <> sess_ID s) siblings in
  (sessions, if decide (filtered = []) then delete (sess_ParentID s) parents
             else <[sess_ParentID s := filtered]> parents).

Definition removeFrom (s : Session) (r : Registry) : Registry :=
  let '(sessions, parents) := removeSession s (reg_sessions r, reg_parents r) in setMaps sessions parents r.

(** The compare-and-swap on the released flag: [None] when it was set already. *)
Definition releaseCAS (s : Session) (r : Registry) : option Registry :=
  match reg_heap r !! sess_ID s with
  | None => None
  | Some state =>
      if ss_released state then None
      else Some (setHeap (<[sess_ID s := MkSessionState true (ss_lastActivityNano state)]> (reg_heap r)) r)
  end.

Definition Release (s : Session) (r : Registry) : Registry :=
  match releaseCAS s r with
  | None => r
  | Some r => removeFrom s r
  end.

(** ** Queries *)

(** What a caller sees of a session: the closer (and the state pointer) are dropped. *)
Definition snapshotSession (s : Session) : Session :=
  MkSession (sess_ID s) (sess_ParentID s) (sess_Kind s) (sess_OpenedAt s) (sess_Meta s) false.

Definition sessionList (r : Registry) : list Session := map snd (map_to_list (reg_sessions r)).

Definition Snapshot (r : Registry) : list Session := map snapshotSession (sessionList r).

Definition Count (r : Registry) : Z := Z.of_nat (size (reg_sessions r)).

Definition ActiveCount (now grace : Z) (r : Registry) : Z :=
  zlen (filter (fun s => grace <= 0 \/ IdleSince now s r <= grace) (sessionList r)).

Definition CountByPredicate (p : Session -> bool) (r : Registry) : Z :=
  zlen (filter (fun s => p (snapshotSession s) = true) (sessionList r)).

Definition ChildrenOf (parentID : bytes) (r : Registry) : list bytes :=
  if decide (parentID = []) then [] else default [] (reg_parents r !! parentID).

(** The inner loop of [DescendantsOf] over the children of one session. *)
Fixpoint visitChildren (children : list bytes) (visited : gset bytes) (out queue : list bytes)
  : gset bytes * list bytes * list bytes :=
  match children with
  | [] => (visited, out, queue)
  | child :: children =>
      if decide (child ∈ visited) then visitChildren children visited out queue
      else visitChildren children ({[child]} ∪ visited) (out ++ [child]) (queue ++ [child])
  end.

(** The breadth-first walk; every iteration takes one session off the queue. *)
Fixpoint descendantsLoop (fuel : nat) (parents : gmap bytes (list bytes)) (queue : list bytes)
    (visited : gset bytes) (out : list bytes) : list bytes :=
  match fuel with
  | O => out
  | S fuel =>
      match queue with
      | [] => out
      | current :: queue =>
          let '(visited, out, queue) := visitChildren (default [] (parents !! current)) visited out queue in
          descendantsLoop fuel parents queue visited out
      end
  end.

(** Every session is queued at most once, so one iteration per child entry and one for
    the start are enough. *)
Definition DescendantsOf (parentID : bytes) (r : Registry) : list bytes :=
  if decide (parentID = []) then [] else
  let entries := length (concat (map snd (map_to_list (reg_parents r)))) in
  descendantsLoop (S (S entries)) (reg_parents r) [parentID] ∅ [].

(** ** Force-close *)

(** Remove every session that matches, under the mutex, and return them. *)
Definition takeMatching (p : Session -> bool) (r : Registry) : Registry * list Session :=
  let matched := filter (fun s => p s = true) (sessionList r) in
  let '(sessions, parents) := foldl (fun maps s => removeSession s maps) (reg_sessions r, reg_parents r) matched in
  (setMaps sessions parents r, matched).

Definition snapshotIdleEntries (now grace : Z) (r : Registry) : Registry * list Session :=
  takeMatching (fun s => bool_decide (grace < IdleSince now s r)) r.

Definition snapshotEntriesForForce (r : Registry) : Registry * list Session :=
  (setMaps ∅ ∅ r, sessionList r).

Definition markReleased (s : Session) (r : Registry) : Registry :=
  match reg_heap r !! sess_ID s with
  | None => r
  | Some state => setHeap (<[sess_ID s := MkSessionState true (ss_lastActivityNano state)]> (reg_heap r)) r
  end.

Definition markEntriesReleased (sessions : list Session) (r : Registry) : Registry :=
  foldl (fun r s => markReleased s r) r sessions.

(** What a closer did within its grace: returned (an error or not), panicked, or did
    not return in time. *)
Inductive closerRun := closerReturned (err : option bytes) | closerPanicked | closerTimedOut.

(** [runCloserBounded]: the error of one close, if any. *)
Definition runCloserBounded (run : Session -> closerRun) (s : Session) : option bytes :=
  if negb (sess_closer s) then None else
  match run s with
  | closerReturned err => err
  | closerPanicked => Some (lit "livetrack: closer panic for session " ++ sess_ID s)
  | closerTimedOut => Some (lit "livetrack: closer exceeded grace for session " ++ sess_ID s)
  end.

(** The closers one after the other; [ctxErr i] is the context error seen before the
    [i]-th, if any. *)
Fixpoint runCloserSequential (run : Session -> closerRun) (ctxErr : nat -> option bytes) (entries : list Session) : list bytes :=
  match entries with
  | [] => []
  | entry :: entries =>
      let errs := runCloserSequential run (fun i => ctxErr (S i)) entries in
      match ctxErr O with
      | Some err => (lit "livetrack: aborted before closing session " ++ sess_ID entry ++ lit ": " ++ err) :: errs
      | None => match runCloserBounded run entry with Some err => err :: errs | None => errs end
      end
  end.

(** How closers run: what each does, whether the fan-out is parallel, and then in which
    order the workers finish the entries. *)
Record closeEnv := MkCloseEnv {
  ce_run : Session -> closerRun;
  ce_parallel : bool;
  ce_order : list Session -> list Session;
}.

(** The workers of the parallel fan-out share one queue, so every entry is run once. *)
Definition runCloserParallel (env : closeEnv) (ctxErr : nat -> option bytes) (entries : list Session) : list bytes :=
  runCloserSequential (ce_run env) ctxErr (ce_order env entries).

Definition closerFanOut (env : closeEnv) (ctxErr : nat -> option bytes) (entries : list Session) : list bytes :=
  if zlen entries =? 0 then [] else
  if negb (ce_parallel env) then runCloserSequential (ce_run env) ctxErr entries
  else runCloserParallel env ctxErr entries.

(** The context of a forced close is stripped of its cancellation. *)
Definition withoutCancel : nat -> option bytes := fun _ => None.

(** The closers run one after the other and their errors are dropped. *)
Definition ForceCloseMatching (p : Session -> bool) (r : Registry) : Registry * Z :=
  let '(r, matched) := takeMatching (fun s => p (snapshotSession s)) r in
  (markEntriesReleased matched r, zlen matched).

(** ** Drain *)

Record DrainResult := MkDrainResult {
  dr_alreadyDraining : bool;
  dr_Final : State;
  dr_Remaining : Z;
  dr_ForceClosed : Z;
  dr_Errors : list bytes;
}.

Definition runIdleGraceFastPath (env : closeEnv) (now grace : Z) (r : Registry)
  : Registry * Z * list bytes :=
  if grace <=? 0 then (r, 0, []) else
  let '(r, entries) := snapshotIdleEntries now grace r in
  if zlen entries =? 0 then (r, 0, []) else
  (markEntriesReleased entries r, zlen entries, closerFanOut env withoutCancel entries).

(** The poll loop: [ticks] is what the other goroutines did to the registry before each
    tick, [last] what they did between the last tick and the end of the context. *)
Fixpoint waitTicks (ticks : list (Registry -> Registry)) (last : Registry -> Registry) (r : Registry) : Registry * Z :=
  match ticks with
  | [] => let r := last r in (r, Count r)
  | tick :: ticks => let r := tick r in if Count r =? 0 then (r, 0) else waitTicks ticks last r
  end.

Definition waitForIdle (ticks : list (Registry -> Registry)) (last : Registry -> Registry) (r : Registry) : Registry * Z :=
  if Count r =? 0 then (r, 0) else waitTicks ticks last r.

Definition drainWith (env : closeEnv) (now grace : Z) (ticks : list (Registry -> Registry)) (last : Registry -> Registry)
    (r : Registry) : Registry * DrainResult :=
  if decide (reg_state r <> StateOpen) then (r, MkDrainResult true (reg_state r) (Count r) 0 []) else
  let r := setState StateDraining r in
  let '(r, idleForceClosed, idleErrs) := runIdleGraceFastPath env now grace r in
  let '(r, remaining) := waitForIdle ticks last r in
  if remaining =? 0 then
    (setState StateClosed r, MkDrainResult false StateClosed 0 idleForceClosed idleErrs)
  else
  let r := setState StateForcing r in
  let '(r, entries) := snapshotEntriesForForce r in
  let errs := closerFanOut env withoutCancel entries in
  let r := setState StateClosed (markEntriesReleased entries r) in
  (r, MkDrainResult false StateClosed (zlen entries) (idleForceClosed + zlen entries) (idleErrs ++ errs)).
End registry.
Arguments Session M : clear implicits.
Arguments Registry M : clear implicits.

(** ** The parent index *)

(** [c] is listed as a child of [p]. *)
Definition childIn (parents : gmap bytes (list bytes)) (p c : bytes) : Prop := c ∈ default [] (parents !! p).

(** The parent index of a session map: exactly the tracked sessions with a parent are
    listed, once each, and no empty list is kept. *)
Record parentsInv {M} (sessions : gmap bytes (Session M)) (parents : gmap bytes (list bytes)) : Prop := {
  pi_lists : forall p children, parents !! p = Some children -> children <> [] /\ NoDup children;
  pi_child : forall p c, childIn parents p c <->
    p <> [] /\ exists s, sessions !! c = Some s /\ sess_ParentID s = p;
}.

Section removal.
Context {M : Type}.
Implicit Types (s : Session M) (r : Registry M) (sessions : gmap bytes (Session M)).

Definition keyed sessions : Prop := forall id s, sessions !! id = Some s -> sess_ID s = id.

Lemma parentsInv_empty : parentsInv (M := M) ∅ ∅.
Proof.
  split; [by intros p children; rewrite lookup_empty|].
  intros p c. unfold childIn. rewrite lookup_empty. split; [by intros ?%elem_of_nil|].
  by intros (_ & s & Hs & _); rewrite lookup_empty in Hs.
Qed.

Lemma parentsInv_no_sessions parents : parentsInv (M := M) ∅ parents -> parents = ∅.
Proof.
  intros [Hl Hc]. apply map_empty. intros p. destruct (parents !! p) as [children|] eqn:E; [|done].
  destruct (Hl _ _ E) as [Hn _]. destruct children as [|c children]; [done|].
  assert (childIn parents p c) as Hi by (unfold childIn; rewrite E; apply list_elem_of_here).
  apply Hc in Hi as (_ & s & Hs & _). by rewrite lookup_empty in Hs.
Qed.

Lemma removeSession_fst s sessions parents :
  (removeSession s (sessions, parents)).1 = delete (sess_ID s) sessions.
Proof. unfold removeSession. by destruct (decide _). Qed.

(** The children of every parent lose exactly the removed session. *)
Lemma removeSession_child s sessions parents p c :
  childIn (removeSession s (sessions, parents)).2 p c <->
  childIn parents p c /\ ~ (p = sess_ParentID s /\ p <> [] /\ c = sess_ID s).
Proof.
  unfold removeSession, childIn. destruct (decide (sess_ParentID s = [])) as [E|E]; cbn.
  { rewrite E. intuition congruence. }
  set (filtered := filter _ _). assert (forall c, c ∈ filtered <-> c <> sess_ID s /\
    c ∈ default [] (parents !! sess_ParentID s)) as Hf by (intros; unfold filtered; by rewrite list_elem_of_filter).
  destruct (decide (p = sess_ParentID s)) as [->|Hp].
  - destruct (decide (filtered = [])) as [En|En]; cbn.
    + rewrite lookup_delete_eq. cbn. rewrite En in Hf. specialize (Hf c). rewrite elem_of_nil in *. intuition congruence.
    + rewrite lookup_insert_eq. cbn. rewrite Hf. intuition congruence.
  - destruct (decide (filtered = [])); cbn; [rewrite lookup_delete_ne by done|rewrite lookup_insert_ne by done];
      intuition congruence.
Qed.

Lemma removeSession_lists s sessions parents p children :
  parentsInv sessions parents -> (removeSession s (sessions, parents)).2 !! p = Some children ->
  children <> [] /\ NoDup children.
Proof.
  intros [Hl _]. unfold removeSession. destruct (decide _) as [|E]; cbn; [apply Hl|].
  set (filtered := filter _ _).
  assert (NoDup filtered) as Hnd.
  { apply NoDup_filter. destruct (parents !! sess_ParentID s) eqn:Ep; cbn; [by eapply Hl|constructor]. }
  destruct (decide (filtered = [])); cbn.
  - destruct (decide (p = sess_ParentID s)) as [->|]; [by rewrite lookup_delete_eq|].
    rewrite lookup_delete_ne by done. apply Hl.
  - destruct (decide (p = sess_ParentID s)) as [->|]; [rewrite lookup_insert_eq; by intros [= <-]|].
    rewrite lookup_insert_ne by done. apply Hl.
Qed.

(** Removing a session keeps the index, also when the session is gone already. *)
Lemma removeSession_inv s sessions parents :
  parentsInv sessions parents ->
  (forall s', sessions !! sess_ID s = Some s' -> s' = s) ->
  parentsInv (removeSession s (sessions, parents)).1 (removeSession s (sessions, parents)).2.
Proof.
  intros Hi Hs. split; [intros p children; by apply removeSession_lists|].
  intros p c. rewrite removeSession_fst, removeSession_child, (pi_child _ _ Hi).
  destruct (decide (c = sess_ID s)) as [->|Hc].
  - rewrite lookup_delete_eq. split; [|by intros (_ & ? & ? & _)].
    intros [(Hp & s' & Hs' & <-) Hn]. destruct Hn. split_and!; [|done|done]. by rewrite (Hs _ Hs').
  - rewrite lookup_delete_ne by congruence. intuition congruence.
Qed.

Lemma registerInsert_inv s r :
  parentsInv (reg_sessions r) (reg_parents r) -> reg_sessions r !! sess_ID s = None ->
  parentsInv (reg_sessions (registerInsert s r)) (reg_parents (registerInsert s r)).
Proof.
  intros Hi Hn.
  assert (forall p, ~ childIn (reg_parents r) p (sess_ID s)) as Hout.
  { intros p Hc. apply (pi_child _ _ Hi) in Hc as (_ & s' & Hs' & _). congruence. }
  split.
  - intros p children. unfold registerInsert. cbn. destruct (decide _); [apply (pi_lists _ _ Hi)|].
    destruct (decide (p = sess_ParentID s)) as [->|].
    + rewrite lookup_insert_eq. intros [= <-]. split; [by destruct (default [] _)|].
      apply NoDup_app. split_and!; [|intros x Hx ->%list_elem_of_singleton; by apply (Hout _ Hx)|apply NoDup_singleton].
      destruct (reg_parents r !! sess_ParentID s) eqn:E; cbn; [by eapply (pi_lists _ _ Hi)|constructor].
    + rewrite lookup_insert_ne by done. apply (pi_lists _ _ Hi).
  - intros p c. cbn. assert (childIn (if decide (sess_ParentID s = []) then reg_parents r
      else <[sess_ParentID s := default [] (reg_parents r !! sess_ParentID s) ++ [sess_ID s]]> (reg_parents r)) p c <->
      childIn (reg_parents r) p c \/ p = sess_ParentID s /\ p <> [] /\ c = sess_ID s) as ->.
    { unfold childIn. destruct (decide _) as [E|E]; [rewrite E; intuition congruence|].
      destruct (decide (p = sess_ParentID s)) as [->|]; [|rewrite lookup_insert_ne by done; intuition congruence].
      rewrite lookup_insert_eq. cbn. rewrite elem_of_app, list_elem_of_singleton. intuition congruence. }
    rewrite (pi_child _ _ Hi). destruct (decide (c = sess_ID s)) as [->|].
    + rewrite lookup_insert_eq, Hn. split.
      * intros [(_ & ? & ? & _)|(-> & Hp & _)]; [done|]. eauto.
      * intros (Hp & s' & [= <-] & <-). by right.
    + rewrite lookup_insert_ne by congruence. intuition congruence.
Qed.

(** Removing a list of sessions. *)
Definition removeAll (gone : list (Session M)) maps := foldl (fun maps s => removeSession s maps) maps gone.

Lemma removeAll_fst gone maps id :
  (removeAll gone maps).1 !! id = if decide (id ∈ map sess_ID gone) then None else maps.1 !! id.
Proof.
  revert maps. induction gone as [|s gone IH]; intros [sessions parents]; cbn [map removeAll foldl].
  { case_decide as H; [by apply elem_of_nil in H|done]. }
  fold (removeAll gone (removeSession s (sessions, parents))). rewrite IH, removeSession_fst. cbn [fst].
  destruct (decide (id ∈ map sess_ID gone)) as [H|H].
  - rewrite decide_True; [done|]. by apply list_elem_of_further.
  - destruct (decide (id = sess_ID s)) as [->|Hne].
    + rewrite decide_True by apply list_elem_of_here. apply lookup_delete_eq.
    + rewrite decide_False by (rewrite elem_of_cons; tauto). by rewrite lookup_delete_ne.
Qed.

Lemma removeAll_inv gone maps :
  parentsInv maps.1 maps.2 -> (forall s s', s ∈ gone -> maps.1 !! sess_ID s = Some s' -> s' = s) ->
  parentsInv (removeAll gone maps).1 (removeAll gone maps).2.
Proof.
  revert maps. induction gone as [|s gone IH]; intros [sessions parents] Hi Hs; [done|].
  cbn [removeAll foldl]. fold (removeAll gone (removeSession s (sessions, parents))). apply IH.
  - apply removeSession_inv; [done|]. intros s'. apply Hs, list_elem_of_here.
  - intros s1 s2 Hin. rewrite removeSession_fst. intros [_ Hl]%lookup_delete_Some.
    eapply Hs; [by apply list_elem_of_further|exact Hl].
Qed.

Lemma elem_sessionList r s :
  keyed (reg_sessions r) -> s ∈ sessionList r <-> reg_sessions r !! sess_ID s = Some s.
Proof.
  intros Hk. unfold sessionList. rewrite list_elem_of_fmap. split.
  - intros ([id s'] & -> & Hin%elem_of_map_to_list). cbn. by rewrite (Hk _ _ Hin).
  - intros Hs. exists (sess_ID s, s). split; [done|]. by apply elem_of_map_to_list.
Qed.

Lemma sessionList_ids r : keyed (reg_sessions r) -> map sess_ID (sessionList r) = map fst (map_to_list (reg_sessions r)).
Proof.
  intros Hk. unfold sessionList. rewrite map_map. apply map_ext_in. intros [id s] Hin%list_elem_of_In.
  cbn. by apply Hk, elem_of_map_to_list.
Qed.
End removal.

(** ** Descendants *)

Lemma visitChildren_spec children visited out queue visited' out' queue' :
  visitChildren children visited out queue = (visited', out', queue') ->
  visited = list_to_set out -> NoDup out ->
  exists fresh, out' = out ++ fresh /\ queue' = queue ++ fresh /\ visited' = list_to_set out' /\ NoDup out' /\
    (forall c, c ∈ children -> c ∈ out') /\ (forall c, c ∈ fresh -> c ∈ children).
Proof.
  revert visited out queue. induction children as [|child children IH]; intros visited out queue; cbn.
  { intros [= <- <- <-] Hv Hn. exists []. rewrite !app_nil_r. split_and!; try done; by intros c ?%elem_of_nil. }
  intros E Hv Hn. destruct (decide (child ∈ visited)) as [Hin|Hin]; subst visited; rewrite elem_of_list_to_set in Hin.
  - destruct (IH _ _ _ E eq_refl Hn) as (fresh & Ho & Hq & Hv' & Hn' & Hc & Hf).
    exists fresh. split_and!; try done.
    + intros c [->|?]%elem_of_cons; [|by apply Hc]. rewrite Ho. apply elem_of_app. by left.
    + intros c ?. by apply list_elem_of_further, Hf.
  - destruct (IH _ _ _ E) as (fresh & Ho & Hq & Hv' & Hn' & Hc & Hf).
    { rewrite list_to_set_app_L. cbn. rewrite union_empty_r_L. apply union_comm_L. }
    { apply NoDup_app. split_and!; [done| |apply NoDup_singleton]. by intros x Hx ->%list_elem_of_singleton. }
    exists (child :: fresh). rewrite <- !app_assoc in *. split_and!; try done.
    + intros c [->|?]%elem_of_cons; [|by apply Hc]. rewrite Ho. apply elem_of_app. right. apply list_elem_of_here.
    + intros c [->|?]%elem_of_cons; [apply list_elem_of_here|]. by apply list_elem_of_further, Hf.
Qed.

(** Everything any parent lists. *)
Definition listed (parents : gmap bytes (list bytes)) : list bytes := concat (map snd (map_to_list parents)).

Lemma childIn_listed parents p c : childIn parents p c -> c ∈ listed parents.
Proof.
  unfold childIn, listed. destruct (parents !! p) as [children|] eqn:E; cbn; [|by intros ?%elem_of_nil].
  intros Hc. apply list_elem_of_In, in_concat. exists children. split; [|by apply list_elem_of_In].
  apply in_map_iff. exists (p, children). split; [done|]. by apply list_elem_of_In, elem_of_map_to_list.
Qed.

Lemma tc_listed parents p c : tc (childIn parents) p c -> c ∈ listed parents.
Proof. induction 1; [by eapply childIn_listed|done]. Qed.

Lemma descendantsLoop_spec parents start fuel processed queue out :
  processed ++ queue = start :: out -> NoDup out ->
  (forall c, c ∈ out -> tc (childIn parents) start c) ->
  (forall p c, p ∈ processed -> childIn parents p c -> c ∈ out) ->
  (length (listed parents) + 2 <= fuel + length processed)%nat ->
  let result := descendantsLoop fuel parents queue (list_to_set out) out in
  NoDup result /\ (forall c, c ∈ result <-> tc (childIn parents) start c).
Proof.
  revert processed queue out. induction fuel as [|fuel IH]; intros processed queue out Hpq Hn Hsound Hclosed Hfuel.
  { exfalso. assert (length out <= length (listed parents))%nat as Hle.
    { apply submseteq_length, NoDup_submseteq; [done|]. intros c Hc%Hsound. by eapply tc_listed. }
    apply (f_equal length) in Hpq. rewrite length_app in Hpq. cbn in *. lia. }
  cbn [descendantsLoop]. destruct queue as [|current queue].
  - rewrite app_nil_r in Hpq. split; [done|]. intros c. split; [apply Hsound|]. rewrite Hpq in Hclosed.
    enough (forall x, x ∈ start :: out -> tc (childIn parents) x c -> c ∈ out) as He by (apply He, list_elem_of_here).
    intros x Hx Htc. revert Hx. induction Htc as [x y Hxy|x y z Hxy _ IHtc]; intros Hx; [by eapply Hclosed|].
    apply IHtc, list_elem_of_further. by eapply Hclosed.
  - destruct (visitChildren _ _ _ _) as [[visited' out'] queue'] eqn:E.
    apply visitChildren_spec in E as (fresh & -> & -> & -> & Hn' & Hc & Hf); [|done|done].
    assert (current ∈ start :: out) as Hcur.
    { rewrite <- Hpq. apply elem_of_app. right. apply list_elem_of_here. }
    apply (IH (processed ++ [current])).
    + rewrite <- app_assoc. cbn. rewrite app_comm_cons, app_assoc, Hpq. done.
    + done.
    + intros c [Hin|Hin]%elem_of_app; [by apply Hsound|]. apply Hf in Hin.
      apply elem_of_cons in Hcur as [->|Hcur]; [by apply tc_once|]. eapply tc_r; [by apply Hsound|done].
    + intros p c [Hp| ->%list_elem_of_singleton]%elem_of_app Hpc; [|by apply Hc].
      apply elem_of_app. left. by eapply Hclosed.
    + rewrite length_app. cbn. lia.
Qed.

(** [DescendantsOf] is the transitive closure of the parent index.  For any index,
    even one with a cycle, the breadth-first walk ends and returns, once each, exactly
    the sessions reachable from the given one by child links. *)
Theorem DescendantsOf_closure {M} parentID (r : Registry M) :
  parentID <> [] ->
  NoDup (DescendantsOf parentID r) /\
  forall c, c ∈ DescendantsOf parentID r <-> tc (childIn (reg_parents r)) parentID c.
Proof.
  intros Hp. unfold DescendantsOf. rewrite decide_False by done.
  apply (descendantsLoop_spec (reg_parents r) parentID _ [] [parentID] []); [done|constructor|by intros c ?%elem_of_nil|by intros p c ?%elem_of_nil|].
  fold (listed (reg_parents r)). cbn. lia.
Qed.

(** A registry with a session, its child, and a grandchild. *)
Definition sampleFamily : Registry unit :=
  let s id parent := MkSession (lit id) (lit parent) (lit "k") 0 tt true in
  foldl (fun r s => (Register s r).1) newRegistry [s "a"%string ""%string; s "b"%string "a"%string; s "c"%string "b"%string].

Lemma DescendantsOf_closure_witness :
  DescendantsOf (lit "a") sampleFamily = [lit "b"; lit "c"] /\
  tc (childIn (reg_parents sampleFamily)) (lit "a") (lit "c").
Proof.
  assert (DescendantsOf (lit "a") sampleFamily = [lit "b"; lit "c"]) as E by (vm_compute; reflexivity).
  split; [exact E|]. apply (DescendantsOf_closure (lit "a") sampleFamily); [discriminate|].
  rewrite E. apply list_elem_of_further, list_elem_of_here.
Defined.
