(* ===== verification/LtDrain.v ===== *)
(** * LtDrain: the registry under concurrent use (livetrack/registry.go, drain.go)

    [Register] checks the lifecycle state and inserts the session while it holds the
    registry mutex; the drain changes the state by a compare-and-swap without that mutex;
    [Release] flips its flag before it takes the mutex; closers run outside it.  The step
    relation has exactly these atomic steps, so it contains every interleaving, such as a
    drain that starts between the check and the insertion of a [Register].

    The theorems: a closed registry is empty and stays so, every session that was ever
    registered ends released, no closer is called twice, and the parent index agrees with
    the session map at every point. *)

From S2P Require Import Prelude LtRegistry.

Open Scope Z_scope.

Section drain.
Context {M : Type}.
Implicit Types (s : Session M) (r : Registry M).

(** The program counter of the [drainWith] call that won the compare-and-swap.  The
    lists are the entries of the running fan-out still to close, and the sessions still
    to mark as released. *)
Inductive drainPC :=
| dNone
| dStarted
| dIdleClosing (todo marks : list (Session M))
| dWaiting
| dEmpty
| dDeadline
| dForcing
| dForceClosing (todo marks : list (Session M))
| dDone.

(** A session matched by a [ForceCloseMatching] call: its closer is still to run, or has
    run and the flag is still to be set. *)
Inductive forceItem := toClose (s : Session M) | toMark (s : Session M).

Definition itemSession (i : forceItem) : Session M := match i with toClose s | toMark s => s end.

(** [sys_holder] is the [Register] call that holds the mutex and has seen [StateOpen];
    [sys_creating] are those that have built their session and not yet taken the mutex;
    [sys_releasing] are the [Release] calls past the flag and before the mutex.
    [sys_closed] lists the ids whose closer was called.  [sys_created] and
    [sys_registered] record history and no step reads them but for fresh ids. *)
Record system := MkSystem {
  sys_reg : Registry M;
  sys_creating : list (Session M);
  sys_holder : option (Session M);
  sys_releasing : list (Session M);
  sys_force : list forceItem;
  sys_drain : drainPC;
  sys_closed : list bytes;
  sys_created : gmap bytes (Session M);
  sys_registered : gset bytes;
}.

Definition startSystem : system := MkSystem newRegistry [] None [] [] dNone [] ∅ ∅.

(** The record of calling a closer, when the session has one. *)
Definition callCloser s (closed : list bytes) : list bytes :=
  if sess_closer s then closed ++ [sess_ID s] else closed.

Inductive step : system -> system -> Prop :=
(* Register: the first state check and the new session with its state *)
| regCreate s r cr h rel fo d cl made reged :
    reg_state r = StateOpen -> made !! sess_ID s = None ->
    step (MkSystem r cr h rel fo d cl made reged)
      (MkSystem (setHeap (<[sess_ID s := MkSessionState false (sess_OpenedAt s)]> (reg_heap r)) r)
         (s :: cr) h rel fo d cl (<[sess_ID s := s]> made) reged)
(* Register: lock, and the second check succeeds *)
| regLock s r cr cr' rel fo d cl made reged :
    cr ≡ₚ s :: cr' -> reg_state r = StateOpen ->
    step (MkSystem r cr None rel fo d cl made reged) (MkSystem r cr' (Some s) rel fo d cl made reged)
(* Register: lock, and the second check fails *)
| regReject s r cr cr' rel fo d cl made reged :
    cr ≡ₚ s :: cr' -> reg_state r <> StateOpen ->
    step (MkSystem r cr None rel fo d cl made reged) (MkSystem r cr' None rel fo d cl made reged)
(* Register: insert and unlock *)
| regInsert s r cr rel fo d cl made reged :
    step (MkSystem r cr (Some s) rel fo d cl made reged)
      (MkSystem (registerInsert s r) cr None rel fo d cl made ({[sess_ID s]} ∪ reged))
(* Release: the flag *)
| relCAS s r r' cr h rel fo d cl made reged :
    made !! sess_ID s = Some s -> sess_ID s ∈ reged -> releaseCAS s r = Some r' ->
    step (MkSystem r cr h rel fo d cl made reged) (MkSystem r' cr h (s :: rel) fo d cl made reged)
(* Release: the maps, under the mutex *)
| relRemove s r cr rel rel' fo d cl made reged :
    rel ≡ₚ s :: rel' ->
    step (MkSystem r cr None rel fo d cl made reged) (MkSystem (removeFrom s r) cr None rel' fo d cl made reged)
(* Session.Touch *)
| touch now s r cr h rel fo d cl made reged :
    step (MkSystem r cr h rel fo d cl made reged) (MkSystem (Touch now s r) cr h rel fo d cl made reged)
(* ForceCloseMatching: match and remove under the mutex *)
| forceTake p r cr rel fo d cl made reged :
    step (MkSystem r cr None rel fo d cl made reged)
      (let '(r', matched) := takeMatching (fun s => p (snapshotSession s)) r in
       MkSystem r' cr None rel (map toClose matched ++ fo) d cl made reged)
(* ForceCloseMatching: one closer, then its flag *)
| forceClose s r cr h rel fo fo' d cl made reged :
    fo ≡ₚ toClose s :: fo' ->
    step (MkSystem r cr h rel fo d cl made reged)
      (MkSystem r cr h rel (toMark s :: fo') d (callCloser s cl) made reged)
| forceMark s r cr h rel fo fo' d cl made reged :
    fo ≡ₚ toMark s :: fo' ->
    step (MkSystem r cr h rel fo d cl made reged) (MkSystem (markReleased s r) cr h rel fo' d cl made reged)
(* drainWith: the compare-and-swap, without the mutex *)
| drainCAS r cr h rel fo cl made reged :
    reg_state r = StateOpen ->
    step (MkSystem r cr h rel fo dNone cl made reged)
      (MkSystem (setState StateDraining r) cr h rel fo dStarted cl made reged)
(* runIdleGraceFastPath, skipped or taken under the mutex *)
| drainNoGrace r cr h rel fo cl made reged :
    step (MkSystem r cr h rel fo dStarted cl made reged) (MkSystem r cr h rel fo dWaiting cl made reged)
| drainIdle now grace r cr rel fo cl made reged :
    0 < grace ->
    step (MkSystem r cr None rel fo dStarted cl made reged)
      (let '(r', entries) := snapshotIdleEntries now grace r in
       MkSystem r' cr None rel fo (dIdleClosing entries entries) cl made reged)
(* closerFanOut: the next entry, in any order when the fan-out is parallel *)
| drainIdleClose s r cr h rel fo todo todo' marks cl made reged :
    todo ≡ₚ s :: todo' ->
    step (MkSystem r cr h rel fo (dIdleClosing todo marks) cl made reged)
      (MkSystem r cr h rel fo (dIdleClosing todo' marks) (callCloser s cl) made reged)
(* markEntriesReleased, one flag at a time, after all closers *)
| drainIdleMark s r cr h rel fo marks cl made reged :
    step (MkSystem r cr h rel fo (dIdleClosing [] (s :: marks)) cl made reged)
      (MkSystem (markReleased s r) cr h rel fo (dIdleClosing [] marks) cl made reged)
| drainIdleDone r cr h rel fo cl made reged :
    step (MkSystem r cr h rel fo (dIdleClosing [] []) cl made reged) (MkSystem r cr h rel fo dWaiting cl made reged)
(* waitForIdle: Count takes the read lock *)
| drainSeesEmpty r cr rel fo cl made reged :
    Count r = 0 ->
    step (MkSystem r cr None rel fo dWaiting cl made reged) (MkSystem r cr None rel fo dEmpty cl made reged)
| drainDeadline r cr rel fo cl made reged :
    Count r <> 0 ->
    step (MkSystem r cr None rel fo dWaiting cl made reged) (MkSystem r cr None rel fo dDeadline cl made reged)
| drainEmptyClosed r cr h rel fo cl made reged :
    step (MkSystem r cr h rel fo dEmpty cl made reged)
      (MkSystem (setState StateClosed r) cr h rel fo dDone cl made reged)
(* the deadline path *)
| drainForcing r cr h rel fo cl made reged :
    step (MkSystem r cr h rel fo dDeadline cl made reged)
      (MkSystem (setState StateForcing r) cr h rel fo dForcing cl made reged)
| drainSnapshot r cr rel fo cl made reged :
    step (MkSystem r cr None rel fo dForcing cl made reged)
      (let '(r', entries) := snapshotEntriesForForce r in
       MkSystem r' cr None rel fo (dForceClosing entries entries) cl made reged)
| drainForceClose s r cr h rel fo todo todo' marks cl made reged :
    todo ≡ₚ s :: todo' ->
    step (MkSystem r cr h rel fo (dForceClosing todo marks) cl made reged)
      (MkSystem r cr h rel fo (dForceClosing todo' marks) (callCloser s cl) made reged)
| drainForceMark s r cr h rel fo marks cl made reged :
    step (MkSystem r cr h rel fo (dForceClosing [] (s :: marks)) cl made reged)
      (MkSystem (markReleased s r) cr h rel fo (dForceClosing [] marks) cl made reged)
| drainForceClosed r cr h rel fo cl made reged :
    step (MkSystem r cr h rel fo (dForceClosing [] []) cl made reged)
      (MkSystem (setState StateClosed r) cr h rel fo dDone cl made reged).

Definition reachable (y : system) : Prop := rtc step startSystem y.

(** ** Taking sessions out of the registry *)

Abbreviation ids := (map (@sess_ID M)).

Definition tracked r : list bytes := map fst (map_to_list (reg_sessions r)).

Lemma elem_tracked r id : id ∈ tracked r <-> is_Some (reg_sessions r !! id).
Proof.
  unfold tracked. rewrite list_elem_of_fmap. split.
  - intros ([i s] & -> & Hin%elem_of_map_to_list). by exists s.
  - intros [s Hs]. exists (id, s). split; [done|]. by apply elem_of_map_to_list.
Qed.

Lemma tracked_NoDup r : NoDup (tracked r).
Proof. apply NoDup_fst_map_to_list. Qed.

Lemma elem_ids (l : list (Session M)) s : s ∈ l -> sess_ID s ∈ ids l.
Proof. intros. apply list_elem_of_fmap. by exists s. Qed.

(** [r'] is [r] without the sessions [gone], which it tracked. *)
Record takes r r' (gone : list (Session M)) : Prop := {
  tk_sessions : forall id, reg_sessions r' !! id = if decide (id ∈ ids gone) then None else reg_sessions r !! id;
  tk_state : reg_state r' = reg_state r;
  tk_heap : reg_heap r' = reg_heap r;
  tk_from : forall s, s ∈ gone -> reg_sessions r !! sess_ID s = Some s;
  tk_nodup : NoDup (ids gone);
  tk_parents : parentsInv (reg_sessions r) (reg_parents r) -> parentsInv (reg_sessions r') (reg_parents r');
}.

Lemma takeMatching_takes p r r' matched :
  keyed (reg_sessions r) -> takeMatching p r = (r', matched) -> takes r r' matched.
Proof.
  intros Hk. unfold takeMatching.
  fold (removeAll (base.filter (fun s => p s = true) (sessionList r)) (reg_sessions r, reg_parents r)).
  set (gone := base.filter _ _). destruct (removeAll _ _) as [sessions parents] eqn:E. intros [= <- <-].
  assert (forall s, s ∈ gone -> reg_sessions r !! sess_ID s = Some s) as Hfrom.
  { intros s [_ Hin]%list_elem_of_filter. by apply elem_sessionList. }
  split; [|done|done|done| |].
  - intros id. cbn. change sessions with ((sessions, parents).1). rewrite <- E. apply removeAll_fst.
  - unfold gone. eapply sublist_NoDup; [|apply fmap_sublist, sublist_filter].
    change (NoDup (ids (sessionList r))). rewrite sessionList_ids by done. apply tracked_NoDup.
  - intros Hi. cbn. change sessions with ((sessions, parents).1). change parents with ((sessions, parents).2) at 2.
    rewrite <- E. apply removeAll_inv; [done|]. cbn. intros s s' Hs%Hfrom. congruence.
Qed.

Lemma snapshotEntriesForForce_takes r r' entries :
  keyed (reg_sessions r) -> snapshotEntriesForForce r = (r', entries) -> takes r r' entries.
Proof.
  intros Hk [= <- <-]. split; [|done|done| | |intros _; apply parentsInv_empty].
  - intros id. cbn. rewrite lookup_empty, sessionList_ids by done. case_decide as Hin; [done|].
    destruct (reg_sessions r !! id) eqn:E; [|done]. destruct Hin. apply elem_tracked. by rewrite E.
  - intros s. by apply elem_sessionList.
  - rewrite sessionList_ids by done. apply tracked_NoDup.
Qed.

Lemma takes_tracked r r' gone : takes r r' gone -> ids gone ++ tracked r' ⊆+ tracked r.
Proof.
  intros Ht. apply NoDup_submseteq.
  - apply NoDup_app. split_and!; [by eapply tk_nodup| |apply tracked_NoDup].
    intros id Hin. rewrite elem_tracked, (tk_sessions _ _ _ Ht), decide_True by done. by intros [].
  - intros id [Hin|Hin]%elem_of_app; apply elem_tracked.
    + apply list_elem_of_fmap in Hin as (s & -> & Hs). apply (tk_from _ _ _ Ht) in Hs. by exists s.
    + apply elem_tracked in Hin. rewrite (tk_sessions _ _ _ Ht) in Hin. case_decide; [by destruct Hin|done].
Qed.

Lemma takes_sub r r' gone id s : takes r r' gone -> reg_sessions r' !! id = Some s -> reg_sessions r !! id = Some s.
Proof. intros Ht. rewrite (tk_sessions _ _ _ Ht). by case_decide. Qed.

Lemma removeFrom_sessions s r : reg_sessions (removeFrom s r) = delete (sess_ID s) (reg_sessions r).
Proof.
  unfold removeFrom. rewrite <- (removeSession_fst s _ (reg_parents r)).
  by destruct (removeSession s (reg_sessions r, reg_parents r)).
Qed.

Lemma removeFrom_inv s r :
  parentsInv (reg_sessions r) (reg_parents r) -> (forall s', reg_sessions r !! sess_ID s = Some s' -> s' = s) ->
  parentsInv (reg_sessions (removeFrom s r)) (reg_parents (removeFrom s r)).
Proof.
  intros Hi Hs. unfold removeFrom. pose proof (removeSession_inv s _ _ Hi Hs) as H.
  by destruct (removeSession s (reg_sessions r, reg_parents r)).
Qed.

Lemma removeFrom_rest s r : reg_state (removeFrom s r) = reg_state r /\ reg_heap (removeFrom s r) = reg_heap r.
Proof. unfold removeFrom. by destruct (removeSession s (reg_sessions r, reg_parents r)). Qed.

Lemma tracked_removeFrom s r : tracked (removeFrom s r) ⊆+ tracked r.
Proof.
  apply NoDup_submseteq; [apply tracked_NoDup|]. intros id. rewrite !elem_tracked, removeFrom_sessions.
  intros [s' [_ Hs']%lookup_delete_Some]. by exists s'.
Qed.

Lemma tracked_insert s r : tracked (registerInsert s r) ⊆+ sess_ID s :: tracked r.
Proof.
  apply NoDup_submseteq; [apply tracked_NoDup|]. intros id. rewrite elem_of_cons, !elem_tracked. cbn.
  destruct (decide (id = sess_ID s)) as [->|]; [by left|]. rewrite lookup_insert_ne by congruence. by right.
Qed.

(** ** Released flags *)

Definition isReleased r id : Prop := exists st, reg_heap r !! id = Some st /\ ss_released st = true.

(** [r'] differs from [r] only in the flags and activity of sessions, and no flag is lost. *)
Record flagged r r' : Prop := {
  fl_sessions : reg_sessions r' = reg_sessions r;
  fl_parents : reg_parents r' = reg_parents r;
  fl_state : reg_state r' = reg_state r;
  fl_heap : forall id, is_Some (reg_heap r' !! id) <-> is_Some (reg_heap r !! id);
  fl_released : forall id, isReleased r id -> isReleased r' id;
}.

(** Overwriting the state of a session that has one. *)
Lemma flagged_insert id st st' r :
  reg_heap r !! id = Some st -> (ss_released st = true -> ss_released st' = true) ->
  flagged r (setHeap (<[id := st']> (reg_heap r)) r).
Proof.
  intros Hst Hle. split; try done; cbn.
  - intros i. destruct (decide (i = id)) as [->|]; [rewrite lookup_insert_eq, Hst|rewrite lookup_insert_ne by done];
      [by split; eexists|done].
  - intros i (si & Hi & Hr). unfold isReleased. cbn. destruct (decide (i = id)) as [->|].
    + rewrite lookup_insert_eq. exists st'. split; [done|]. apply Hle. congruence.
    + rewrite lookup_insert_ne by done. eauto.
Qed.

Lemma Touch_flagged now s r : flagged r (Touch now s r).
Proof. unfold Touch. destruct (_ !! _) eqn:E; [by eapply flagged_insert|by split]. Qed.

Lemma markReleased_flagged s r : flagged r (markReleased s r).
Proof. unfold markReleased. destruct (_ !! _) eqn:E; [by eapply flagged_insert|by split]. Qed.

Lemma markReleased_sets s r : is_Some (reg_heap r !! sess_ID s) -> isReleased (markReleased s r) (sess_ID s).
Proof.
  intros [st E]. unfold markReleased. rewrite E. eexists. cbn. by rewrite lookup_insert_eq.
Qed.

Lemma releaseCAS_flagged s r r' :
  releaseCAS s r = Some r' -> flagged r r' /\ isReleased r' (sess_ID s).
Proof.
  unfold releaseCAS. destruct (_ !! _) as [st|] eqn:E; [|done]. destruct (ss_released st); [done|].
  intros [= <-]. split; [by eapply flagged_insert|]. eexists. cbn. by rewrite lookup_insert_eq.
Qed.

(** ** The invariant *)

Definition drainTodo (d : drainPC) : list (Session M) :=
  match d with dIdleClosing todo _ | dForceClosing todo _ => todo | _ => [] end.
Definition drainMarks (d : drainPC) : list (Session M) :=
  match d with dIdleClosing _ marks | dForceClosing _ marks => marks | _ => [] end.

(** The lifecycle state at each point of the drain. *)
Definition pcState (d : drainPC) : State :=
  match d with
  | dNone => StateOpen
  | dStarted | dIdleClosing _ _ | dWaiting | dEmpty | dDeadline => StateDraining
  | dForcing | dForceClosing _ _ => StateForcing
  | dDone => StateClosed
  end.

(** From here on no session is tracked. *)
Definition drained (d : drainPC) : bool :=
  match d with dEmpty | dForceClosing _ _ | dDone => true | _ => false end.

Definition closing (fo : list forceItem) : list bytes :=
  omap (fun i => match i with toClose s => Some (sess_ID s) | toMark _ => None end) fo.

Definition held (h : option (Session M)) : list (Session M) := match h with Some s => [s] | None => [] end.

(** Where a session can be on its way to its closer. *)
Definition places (y : system) : list bytes :=
  ids (sys_creating y) ++ ids (held (sys_holder y)) ++ tracked (sys_reg y) ++ closing (sys_force y) ++
  ids (drainTodo (sys_drain y)) ++ sys_closed y.

(** Every session some call holds a pointer to. *)
Definition pointed (y : system) s : Prop :=
  s ∈ sys_creating y \/ sys_holder y = Some s \/ reg_sessions (sys_reg y) !! sess_ID s = Some s \/
  s ∈ sys_releasing y \/ s ∈ map itemSession (sys_force y) \/ s ∈ drainTodo (sys_drain y) \/ s ∈ drainMarks (sys_drain y).

(** Sessions taken out for closing and not yet marked. *)
Definition pending (y : system) : list bytes :=
  ids (map itemSession (sys_force y)) ++ ids (drainMarks (sys_drain y)).

Definition accounted (y : system) id : Prop :=
  id ∈ tracked (sys_reg y) \/ id ∈ pending y \/ isReleased (sys_reg y) id.

Record sysInv (y : system) : Prop := {
  si_places : NoDup (places y);
  si_placed : forall id, id ∈ places y -> is_Some (sys_created y !! id);
  si_keyed : keyed (reg_sessions (sys_reg y));
  si_pointed : forall s, pointed y s -> sys_created y !! sess_ID s = Some s;
  si_heap : forall id, is_Some (reg_heap (sys_reg y) !! id) <-> is_Some (sys_created y !! id);
  si_parents : parentsInv (reg_sessions (sys_reg y)) (reg_parents (sys_reg y));
  si_state : reg_state (sys_reg y) = pcState (sys_drain y);
  si_drained : drained (sys_drain y) = true -> reg_sessions (sys_reg y) = ∅ /\ sys_holder y = None;
  si_releasing : forall s, s ∈ sys_releasing y -> isReleased (sys_reg y) (sess_ID s);
  si_registered : forall id, id ∈ sys_registered y -> is_Some (sys_created y !! id) /\ accounted y id;
}.

Lemma startSystem_inv : sysInv startSystem.
Proof.
  split; cbn; try done.
  - constructor.
  - by intros id ?%elem_of_nil.
  - intros s. unfold pointed. cbn. rewrite !elem_of_nil, lookup_empty. intros H. by repeat destruct H as [H|H].
  - intros id. by rewrite !lookup_empty.
  - apply parentsInv_empty.
  - by intros s ?%elem_of_nil.
Qed.

(** *** Where sessions are *)

Lemma ids_perm (l l' : list (Session M)) s : l ≡ₚ s :: l' -> ids l ≡ₚ sess_ID s :: ids l'.
Proof. intros H. by apply (Permutation_map sess_ID) in H. Qed.

Lemma closing_perm (l l' : list forceItem) i : l ≡ₚ i :: l' -> closing l ≡ₚ closing [i] ++ closing l'.
Proof. intros H. unfold closing. rewrite H. by destruct i. Qed.

Lemma closing_matched matched fo : closing (map toClose matched ++ fo) = ids matched ++ closing fo.
Proof. induction matched as [|s matched IH]; [done|]. cbn. by f_equal. Qed.

Lemma flagged_tracked r r' : flagged r r' -> tracked r' = tracked r.
Proof. intros Hf. unfold tracked. by rewrite (fl_sessions _ _ Hf). Qed.

(** Case analysis on a step; the facts about taken and flagged sessions are added. *)
Ltac stepCases Hst Hk :=
  destruct Hst; cbn [sys_reg] in Hk;
  repeat match goal with |- context [let '(_, _) := ?x in _] => destruct x eqn:? end;
  repeat match goal with
  | H : takeMatching _ _ = _ |- _ => apply takeMatching_takes in H; [|exact Hk]
  | H : snapshotIdleEntries _ _ _ = _ |- _ => apply takeMatching_takes in H; [|exact Hk]
  | H : snapshotEntriesForForce _ = _ |- _ => apply snapshotEntriesForForce_takes in H; [|exact Hk]
  | H : releaseCAS _ _ = Some _ |- _ => apply releaseCAS_flagged in H as [? ?]
  end;
  try match goal with |- context [Touch ?n ?s ?r] => pose proof (Touch_flagged n s r) end;
  try match goal with |- context [markReleased ?s ?r] => pose proof (markReleased_flagged s r) end;
  try match goal with |- context [removeFrom ?s ?r] => pose proof (tracked_removeFrom s r) end.

(** Rewrite with the facts about lists, as permutations, and decide. *)
Ltac placesStep :=
  rewrite ?closing_matched; unfold callCloser;
  repeat match goal with
  | H : takes _ _ _ |- _ => apply takes_tracked in H
  | H : flagged ?r ?r' |- context [tracked ?r'] => rewrite (flagged_tracked _ _ H); clear H
  | H : ?a ⊆+ ?b |- _ => let k := fresh "k" in let E := fresh "E" in
      destruct (submseteq_Permutation _ _ H) as [k E]; clear H; rewrite E; clear E
  | H : _ ≡ₚ toClose _ :: _ |- _ => rewrite (closing_perm _ _ _ H); clear H
  | H : _ ≡ₚ toMark _ :: _ |- _ => rewrite (closing_perm _ _ _ H); clear H
  | H : _ ≡ₚ _ :: _ |- _ => rewrite (ids_perm _ _ _ H); clear H
  | |- context [if sess_closer ?s then _ else _] => destruct (sess_closer s)
  end; cbn; solve_submseteq.

(** A step moves sessions along; only [regCreate] brings in a new one. *)
Lemma step_places y y' :
  sysInv y -> step y y' ->
  places y' ⊆+ places y /\ sys_created y' = sys_created y \/
  exists s, sys_created y !! sess_ID s = None /\ sys_created y' = <[sess_ID s := s]> (sys_created y) /\
    places y' = sess_ID s :: places y.
Proof.
  intros Hi Hst. pose proof (si_keyed _ Hi) as Hk. clear Hi.
  stepCases Hst Hk; [right; by exists s|left..]; split; try done; unfold places;
    cbn [sys_reg sys_creating sys_holder sys_force sys_drain sys_closed drainTodo held map app] in *.
  3: { apply submseteq_skips_l. rewrite app_comm_cons. apply submseteq_app; [apply tracked_insert|done]. }
  all: try done.
  all: placesStep.
Qed.

Lemma step_created y y' id s : step y y' -> sys_created y !! id = Some s -> sys_created y' !! id = Some s.
Proof.
  intros Hst H. destruct Hst; repeat case_match; try done. cbn in *.
  rewrite lookup_insert_ne; [done|congruence].
Qed.

(** Only the insertion of [Register] adds to the session map. *)
Lemma step_sessions y y' id s :
  sysInv y -> step y y' -> reg_sessions (sys_reg y') !! id = Some s ->
  reg_sessions (sys_reg y) !! id = Some s \/ sys_holder y = Some s /\ id = sess_ID s.
Proof.
  intros Hi Hst. pose proof (si_keyed _ Hi) as Hk. clear Hi. stepCases Hst Hk; cbn [sys_reg sys_holder];
    try (by left);
    repeat match goal with
    | H : flagged ?r ?r' |- context [reg_sessions ?r'] => rewrite (fl_sessions _ _ H)
    end; try (by left).
  - cbn. intros [[<- <-]|[_ ?]]%lookup_insert_Some; [by right|by left].
  - rewrite removeFrom_sessions. intros [_ ?]%lookup_delete_Some. by left.
  - intros ?%(takes_sub _ _ _ _ _ Heqp0). by left.
  - intros ?%(takes_sub _ _ _ _ _ Heqp). by left.
  - intros ?%(takes_sub _ _ _ _ _ Heqp). by left.
Qed.

Lemma perm_elem {A} (x y : A) l l' : l ≡ₚ y :: l' -> x ∈ l <-> x = y \/ x ∈ l'.
Proof. intros ->. apply elem_of_cons. Qed.

Lemma items_perm s i (l l' : list forceItem) :
  l ≡ₚ i :: l' -> s ∈ map itemSession l <-> s = itemSession i \/ s ∈ map itemSession l'.
Proof. intros H. apply perm_elem. by apply (Permutation_map itemSession) in H. Qed.

Lemma items_matched s matched fo :
  s ∈ map itemSession (map toClose matched ++ fo) <-> s ∈ matched \/ s ∈ map itemSession fo.
Proof. rewrite map_app, map_map, elem_of_app. cbn. by rewrite map_id. Qed.

Lemma step_pointed y y' s :
  sysInv y -> step y y' -> pointed y' s -> pointed y s \/ sys_created y' !! sess_ID s = Some s.
Proof.
  intros Hi Hst Hp.
  assert (reg_sessions (sys_reg y') !! sess_ID s = Some s -> pointed y s) as Hreg.
  { intros H. apply (step_sessions _ _ _ _ Hi Hst) in H as [H|[H _]]; unfold pointed; tauto. }
  pose proof (si_keyed _ Hi) as Hk. clear Hi.
  destruct Hp as [Hp|[Hp|[Hp|Hp]]]; [| |by left; apply Hreg|]; clear Hreg; unfold pointed in *;
  stepCases Hst Hk; cbn [sys_reg sys_creating sys_holder sys_releasing sys_force sys_drain sys_created drainTodo drainMarks map itemSession] in *;
    repeat match goal with
    | H : _ ≡ₚ toClose _ :: _ |- _ => apply (items_perm s) in H
    | H : _ ≡ₚ toMark _ :: _ |- _ => apply (items_perm s) in H
    | H : _ ≡ₚ _ :: _ |- _ => apply (perm_elem s) in H
    | H : takes _ _ _ |- _ => pose proof (tk_from _ _ _ H s); clear H
    end; rewrite ?items_matched, ?elem_of_cons, ?elem_of_nil in *; try tauto.
  - destruct Hp as [->|Hp]; [right; apply lookup_insert_eq|tauto].
  - injection Hp as <-. tauto.
  - done.
  - destruct Hp as [[->|Hp]|Hp]; tauto.
Qed.

(** *** The registry *)

Lemma step_heap y y' id :
  sysInv y -> step y y' ->
  is_Some (reg_heap (sys_reg y') !! id) <-> is_Some (sys_created y' !! id).
Proof.
  intros Hi Hst. pose proof (si_heap _ Hi id) as Hh. pose proof (si_keyed _ Hi) as Hk. clear Hi.
  stepCases Hst Hk; cbn [sys_reg sys_created] in *; try done;
    repeat match goal with
    | H : flagged ?r ?r' |- context [reg_heap ?r'] => rewrite (fl_heap _ _ H)
    | H : takes ?r ?r' _ |- context [reg_heap ?r'] => rewrite (tk_heap _ _ _ H)
    end; try done.
  - cbn. destruct (decide (id = sess_ID s)) as [->|]; [by rewrite !lookup_insert_eq; split; eexists|].
    by rewrite !lookup_insert_ne.
  - by rewrite (proj2 (removeFrom_rest s r)).
Qed.

Lemma step_released y y' id :
  sysInv y -> step y y' -> isReleased (sys_reg y) id -> isReleased (sys_reg y') id.
Proof.
  intros Hi Hst. pose proof (fun id => proj1 (si_heap _ Hi id)) as Hh. pose proof (si_keyed _ Hi) as Hk. clear Hi.
  stepCases Hst Hk; cbn [sys_reg sys_created] in *; try done;
    repeat match goal with
    | H : flagged ?r ?r' |- context [isReleased ?r' _] => by apply (fl_released _ _ H)
    | H : takes ?r ?r' _ |- context [isReleased ?r' _] => unfold isReleased; by rewrite (tk_heap _ _ _ H)
    end.
  - intros (st & Hs & Hr). exists st. cbn. rewrite lookup_insert_ne; [done|]. intros <-.
    destruct (Hh (sess_ID s)) as [? ?]; [by eexists|]. congruence.
  - unfold isReleased. by rewrite (proj2 (removeFrom_rest s r)).
Qed.

Lemma holder_untracked y s :
  sysInv y -> sys_holder y = Some s -> reg_sessions (sys_reg y) !! sess_ID s = None.
Proof.
  intros Hi Hh. pose proof (si_places _ Hi) as Hn. unfold places in Hn. rewrite Hh in Hn.
  apply NoDup_app in Hn as (_ & _ & Hn). cbn in Hn. apply NoDup_cons in Hn as [Hn _].
  rewrite elem_of_app, elem_tracked in Hn. by apply eq_None_not_Some; tauto.
Qed.

Lemma tracked_pointed y s' id : sysInv y -> reg_sessions (sys_reg y) !! id = Some s' -> sys_created y !! id = Some s'.
Proof.
  intros Hi Hs. pose proof (si_keyed _ Hi _ _ Hs) as <-. apply (si_pointed _ Hi). unfold pointed. tauto.
Qed.

Lemma step_parents y y' :
  sysInv y -> step y y' -> parentsInv (reg_sessions (sys_reg y')) (reg_parents (sys_reg y')).
Proof.
  intros Hi Hst. pose proof (si_parents _ Hi) as Hp. pose proof (si_keyed _ Hi) as Hk.
  stepCases Hst Hk; cbn [sys_reg] in *; try done;
    repeat match goal with
    | H : flagged ?r ?r' |- context [reg_parents ?r'] => by rewrite (fl_sessions _ _ H), (fl_parents _ _ H)
    | H : takes ?r ?r' _ |- context [reg_parents ?r'] => by apply (tk_parents _ _ _ H)
    end.
  - apply registerInsert_inv; [done|]. by apply (holder_untracked _ _ Hi).
  - apply removeFrom_inv; [done|]. intros s' Hs'. apply (tracked_pointed _ _ _ Hi) in Hs'. cbn in Hs'.
    assert (made !! sess_ID s = Some s) as Hm; [|congruence]. apply (si_pointed _ Hi).
    unfold pointed. cbn. do 3 right. left. apply (perm_elem s) in H. tauto.
Qed.

Lemma step_state y y' :
  sysInv y -> step y y' -> reg_state (sys_reg y') = pcState (sys_drain y').
Proof.
  intros Hi Hst. pose proof (si_state _ Hi) as Hs. pose proof (si_keyed _ Hi) as Hk. clear Hi.
  stepCases Hst Hk; cbn [sys_reg sys_drain] in *; try done;
    repeat match goal with
    | H : flagged ?r ?r' |- context [reg_state ?r'] => by rewrite (fl_state _ _ H)
    | H : takes ?r ?r' _ |- context [reg_state ?r'] => by rewrite (tk_state _ _ _ H)
    end.
  by rewrite (proj1 (removeFrom_rest s r)).
Qed.

(** A drained registry stays empty; it becomes so when the count under the lock is zero
    or when the force snapshot clears the maps. *)
Lemma step_drained y y' :
  sysInv y -> step y y' -> drained (sys_drain y') = true -> reg_sessions (sys_reg y') = ∅ /\ sys_holder y' = None.
Proof.
  intros Hi Hst Hd. destruct (decide (drained (sys_drain y) = true)) as [Hd0|Hd0].
  - destruct (si_drained _ Hi Hd0) as [He Hh].
    assert (sys_holder y' = None) as Hh'.
    { pose proof (si_state _ Hi) as Hs. clear - Hst Hd0 Hs Hh. destruct Hst; repeat case_match; cbn in *; try done.
      exfalso. destruct d; cbn in *; congruence. }
    split; [|done]. apply map_empty. intros id. destruct (_ !! id) as [s|] eqn:E; [|done].
    apply (step_sessions _ _ _ _ Hi Hst) in E as [E|[E _]]; [by rewrite He, lookup_empty in E|congruence].
  - clear Hi. destruct Hst; repeat case_match; cbn in *; try done.
    + split; [|done]. unfold Count in H. apply map_size_empty_inv. lia.
    + unfold snapshotEntriesForForce in *. by simplify_eq.
Qed.


Lemma step_releasing y y' s :
  sysInv y -> step y y' -> s ∈ sys_releasing y' -> isReleased (sys_reg y') (sess_ID s).
Proof.
  intros Hi Hst Hin.
  assert (s ∈ sys_releasing y -> isReleased (sys_reg y') (sess_ID s)) as Hold
    by (intros H; by eapply step_released, si_releasing).
  clear Hi. destruct Hst; repeat case_match; cbn [sys_releasing sys_reg] in *; try (by apply Hold).
  - apply elem_of_cons in Hin as [->|Hin]; [|by apply Hold]. by eapply releaseCAS_flagged.
  - apply Hold. apply (perm_elem s) in H. tauto.
Qed.

Lemma takes_split r r' gone id :
  takes r r' gone -> is_Some (reg_sessions r !! id) -> id ∈ ids gone \/ is_Some (reg_sessions r' !! id).
Proof. intros Ht Hs. rewrite (tk_sessions _ _ _ Ht). case_decide; tauto. Qed.

(** A tracked session is still tracked after a step, or was taken to be closed, or its
    owner released it. *)
Lemma step_tracked y y' id :
  sysInv y -> step y y' -> id ∈ tracked (sys_reg y) -> accounted y' id.
Proof.
  intros Hi Hst Hin. unfold accounted, pending. rewrite !elem_of_app, !elem_tracked in *.
  pose proof (si_keyed _ Hi) as Hk. pose proof (si_releasing _ Hi) as Hr. clear Hi.
  stepCases Hst Hk; cbn [sys_reg sys_force sys_drain sys_releasing] in *; try tauto;
    repeat match goal with
    | H : flagged ?r ?r' |- context [reg_sessions ?r'] => rewrite (fl_sessions _ _ H)
    | H : takes ?r ?r' _ |- context [reg_sessions ?r'] => destruct (takes_split _ _ _ _ H Hin); clear H
    end; try tauto.
  - left. cbn. destruct (decide (id = sess_ID s)) as [->|]; [by rewrite lookup_insert_eq|by rewrite lookup_insert_ne].
  - rewrite removeFrom_sessions. destruct (decide (id = sess_ID s)) as [->|]; [|left; by rewrite lookup_delete_ne].
    right; right. unfold isReleased. rewrite (proj2 (removeFrom_rest s r)). apply Hr.
    apply (perm_elem s) in H. tauto.
  - right; left; left. rewrite map_app, map_map, map_app, elem_of_app. cbn. rewrite map_id. by left.
Qed.

Lemma mark_accounted y s :
  sysInv y -> pointed y s -> isReleased (markReleased s (sys_reg y)) (sess_ID s).
Proof. intros Hi Hp. apply markReleased_sets, (si_heap _ Hi). rewrite (si_pointed _ Hi _ Hp). by eexists. Qed.

(** A session on its way to its closer stays there until it is marked. *)
Lemma step_pending y y' id : sysInv y -> step y y' -> id ∈ pending y -> id ∈ pending y' \/ isReleased (sys_reg y') id.
Proof.
  intros Hi Hst. pose proof (mark_accounted y) as Hm. unfold pending. rewrite !elem_of_app.
  assert (forall l (s : Session M), s ∈ l -> sess_ID s ∈ ids l) as Hids by (intros; by apply elem_ids).
  assert (forall fo i fo', fo ≡ₚ i :: fo' -> id ∈ ids (map itemSession fo) <->
    id = sess_ID (itemSession i) \/ id ∈ ids (map itemSession fo')) as Hpm.
  { intros fo i fo' H. apply perm_elem. by apply (Permutation_map itemSession), (Permutation_map sess_ID) in H. }
  destruct Hst; repeat case_match; cbn [sys_reg sys_force sys_drain drainMarks] in *; try tauto.
  - rewrite !map_app, !elem_of_app. tauto.
  - apply Hpm in H. cbn [map itemSession] in *. rewrite elem_of_cons. tauto.
  - pose proof (Hpm _ _ _ H) as ->. cbn [itemSession]. intros [[->|?]|?]; [|tauto..]. right. apply Hm; [done|].
    unfold pointed. cbn. do 4 right. left. apply (items_perm s) in H. tauto.
  - cbn [map]. rewrite elem_of_nil. tauto.
  - cbn [map]. rewrite elem_of_cons. intros [?|[->|?]]; [tauto| |tauto]. right. apply Hm; [done|].
    unfold pointed. cbn. do 6 right. apply list_elem_of_here.
  - cbn [map]. rewrite elem_of_nil. tauto.
  - cbn [map]. rewrite elem_of_cons. intros [?|[->|?]]; [tauto| |tauto]. right. apply Hm; [done|].
    unfold pointed. cbn. do 6 right. apply list_elem_of_here.
Qed.

Lemma step_registered y y' id :
  sysInv y -> step y y' -> id ∈ sys_registered y' -> is_Some (sys_created y' !! id) /\ accounted y' id.
Proof.
  intros Hi Hst Hin.
  assert (id ∈ sys_registered y \/ exists s, sys_holder y = Some s /\ id = sess_ID s /\ id ∈ tracked (sys_reg y')) as [Hold|Hnew].
  { clear Hi. destruct Hst; repeat case_match; try (by left). cbn in *.
    apply elem_of_union in Hin as [->%elem_of_singleton|?]; [right|by left]. exists s. split_and!; [done|done|].
    apply elem_tracked. cbn. by rewrite lookup_insert_eq. }
  - destruct (si_registered _ Hi _ Hold) as [[s Hs] Ha]. split; [exists s; by eapply step_created|].
    destruct Ha as [Ha|[Ha|Ha]]; [by eapply step_tracked| |by right; right; eapply step_released].
    destruct (step_pending _ _ _ Hi Hst Ha); unfold accounted; tauto.
  - destruct Hnew as (s & Hs & -> & Ht). split; [|by left]. exists s. eapply step_created; [done|].
    apply (si_pointed _ Hi). unfold pointed. tauto.
Qed.

Lemma step_inv y y' : sysInv y -> step y y' -> sysInv y'.
Proof.
  intros Hi Hst. split.
  - destruct (step_places _ _ Hi Hst) as [[Hsub _]|(s & Hn & _ & ->)].
    + apply submseteq_Permutation in Hsub as [k Hk]. pose proof (si_places _ Hi) as Hnd. rewrite Hk in Hnd.
      by apply NoDup_app in Hnd as [? _].
    + apply NoDup_cons. split; [|apply (si_places _ Hi)]. intros [? ?]%(si_placed _ Hi). congruence.
  - destruct (step_places _ _ Hi Hst) as [[Hsub ->]|(s & Hn & -> & ->)]; intros id Hin.
    + apply (si_placed _ Hi). by eapply elem_of_submseteq.
    + apply elem_of_cons in Hin as [->|Hin]; [by rewrite lookup_insert_eq|].
      apply (si_placed _ Hi) in Hin as [s' Hs']. exists s'. rewrite lookup_insert_ne; [done|congruence].
  - intros id s Hs. apply (step_sessions _ _ _ _ Hi Hst) in Hs as [Hs|[_ ->]]; [by apply (si_keyed _ Hi)|done].
  - intros s Hp. destruct (step_pointed _ _ _ Hi Hst Hp) as [Hp'|]; [|done].
    eapply step_created; [done|]. by apply (si_pointed _ Hi).
  - intros id. by apply (step_heap y).
  - by apply (step_parents y).
  - by apply (step_state y).
  - by apply (step_drained y).
  - intros s. by apply (step_releasing y).
  - intros id. by apply (step_registered y).
Qed.

Lemma reachable_sysInv y : reachable y -> sysInv y.
Proof.
  intros Hr. pose proof startSystem_inv as Hi. unfold reachable in Hr.
  induction Hr as [|x z w Hst _ IH]; [done|]. apply IH. by eapply step_inv.
Qed.

(** ** Runs of the drain *)

Definition callClosers (todo : list (Session M)) (cl : list bytes) : list bytes :=
  foldl (fun cl s => callCloser s cl) cl todo.

Lemma run_idle_closers r cr h rel fo todo marks cl made reged :
  rtc step (MkSystem r cr h rel fo (dIdleClosing todo marks) cl made reged)
    (MkSystem (markEntriesReleased marks r) cr h rel fo dWaiting (callClosers todo cl) made reged).
Proof.
  revert cl. induction todo as [|s todo IH]; intros cl; [|by eapply rtc_l; [by apply drainIdleClose|apply IH]].
  revert r. induction marks as [|s marks IH]; intros r; [apply rtc_once, drainIdleDone|].
  eapply rtc_l; [apply drainIdleMark|apply IH].
Qed.

Lemma run_force_closers r cr h rel fo todo marks cl made reged :
  rtc step (MkSystem r cr h rel fo (dForceClosing todo marks) cl made reged)
    (MkSystem (setState StateClosed (markEntriesReleased marks r)) cr h rel fo dDone (callClosers todo cl) made reged).
Proof.
  revert cl. induction todo as [|s todo IH]; intros cl; [|by eapply rtc_l; [by apply drainForceClose|apply IH]].
  revert r. induction marks as [|s marks IH]; intros r; [apply rtc_once, drainForceClosed|].
  eapply rtc_l; [apply drainForceMark|apply IH].
Qed.

(** The deadline path from the stored [StateForcing] on. *)
Definition forced r : Registry M := setState StateClosed (markEntriesReleased (sessionList r) (setMaps ∅ ∅ r)).

Lemma run_forcing r cr rel fo cl made reged :
  rtc step (MkSystem r cr None rel fo dForcing cl made reged)
    (MkSystem (forced r) cr None rel fo dDone (callClosers (sessionList r) cl) made reged).
Proof. eapply rtc_l; [apply drainSnapshot|]. apply run_force_closers. Qed.

(** The end of a drain that finds the registry as it is. *)
Definition waited r : Registry M := if Count r =? 0 then setState StateClosed r else forced (setState StateForcing r).

Lemma run_waiting r cr rel fo cl made reged :
  rtc step (MkSystem r cr None rel fo dWaiting cl made reged)
    (MkSystem (waited r) cr None rel fo dDone (callClosers (sessionList r) cl) made reged).
Proof.
  unfold waited. destruct (Z.eqb_spec (Count r) 0) as [E|E].
  - assert (sessionList r = []) as ->.
    { unfold sessionList. unfold Count in E. by rewrite (map_size_empty_inv (reg_sessions r)) by lia. }
    eapply rtc_l; [by apply drainSeesEmpty|]. apply rtc_once, drainEmptyClosed.
  - eapply rtc_l; [by apply drainDeadline|]. eapply rtc_l; [apply drainForcing|]. exact (run_forcing (setState StateForcing r) _ _ _ _ _ _).
Qed.

Lemma run_started_nograce r cr rel fo cl made reged :
  rtc step (MkSystem r cr None rel fo dStarted cl made reged)
    (MkSystem (waited r) cr None rel fo dDone (callClosers (sessionList r) cl) made reged).
Proof. eapply rtc_l; [apply drainNoGrace|]. apply run_waiting. Qed.

(** From every point of the drain the drain can end, with the mutex free. *)
Lemma run_unlocked r cr rel fo d cl made reged :
  d <> dNone ->
  exists y, rtc step (MkSystem r cr None rel fo d cl made reged) y /\ sys_drain y = dDone.
Proof.
  intros Hd. destruct d; [done|..].
  - eexists. split; [apply run_started_nograce|done].
  - eexists. split; [etransitivity; [apply run_idle_closers|apply run_waiting]|done].
  - eexists. split; [apply run_waiting|done].
  - eexists. split; [apply rtc_once, drainEmptyClosed|done].
  - eexists. split; [eapply rtc_l; [apply drainForcing|apply run_forcing]|done].
  - eexists. split; [apply run_forcing|done].
  - eexists. split; [apply run_force_closers|done].
  - eexists. split; [constructor|done].
Qed.

(** *** [drainWith] as a run *)

Lemma rtc_trans (x y z : system) : rtc step x y -> rtc step y z -> rtc step x z.
Proof. intros. by etransitivity. Qed.

Lemma callClosers_app todo cl :
  callClosers todo cl = cl ++ ids (base.filter (fun s => sess_closer s = true) todo).
Proof.
  revert cl. induction todo as [|s todo IH]; intros cl; [by rewrite app_nil_r|].
  cbn [callClosers foldl]. fold (callClosers todo (callCloser s cl)). rewrite IH. unfold callCloser. rewrite filter_cons.
  destruct (sess_closer s); [rewrite decide_True by done; cbn; by rewrite <- app_assoc|by rewrite decide_False].
Qed.

Lemma sessionList_NoDup r : keyed (reg_sessions r) -> NoDup (sessionList r).
Proof.
  intros Hk. apply (NoDup_fmap_1 sess_ID). change (NoDup (ids (sessionList r))).
  rewrite sessionList_ids by done. apply tracked_NoDup.
Qed.

Lemma takes_keyed r r' gone : keyed (reg_sessions r) -> takes r r' gone -> keyed (reg_sessions r').
Proof. intros Hk Ht id s Hs. by apply Hk, (takes_sub _ _ _ _ _ Ht). Qed.

Lemma takes_perm r r' gone :
  keyed (reg_sessions r) -> takes r r' gone -> gone ++ sessionList r' ≡ₚ sessionList r.
Proof.
  intros Hk Ht. pose proof (takes_keyed _ _ _ Hk Ht) as Hk'. apply NoDup_Permutation.
  - apply NoDup_app. split_and!; [apply (NoDup_fmap_1 sess_ID), (tk_nodup _ _ _ Ht)| |by apply sessionList_NoDup].
    intros s Hin. rewrite elem_sessionList, (tk_sessions _ _ _ Ht), decide_True by (done || by apply elem_ids). done.
  - by apply sessionList_NoDup.
  - intros s. rewrite elem_of_app, !elem_sessionList, (tk_sessions _ _ _ Ht) by done. split.
    + intros [Hin|Hin]; [by apply (tk_from _ _ _ Ht)|]. by case_decide.
    + intros Hs. case_decide as Hin; [left|by right]. apply list_elem_of_fmap in Hin as (s' & Heq & Hin).
      pose proof (tk_from _ _ _ Ht _ Hin). congruence.
Qed.

Lemma marked_flagged l r : flagged r (markEntriesReleased l r).
Proof.
  revert r. induction l as [|s l IH]; intros r; [by split|].
  change (markEntriesReleased (s :: l) r) with (markEntriesReleased l (markReleased s r)). destruct (markReleased_flagged s r) as [H1 H2 H3 H4 H5].
  destruct (IH (markReleased s r)) as [G1 G2 G3 G4 G5]. split; [congruence..|intros id; by rewrite G4|auto].
Qed.

Lemma takeMatching_none p r r' : takeMatching p r = (r', []) -> r' = r.
Proof.
  unfold takeMatching. destruct (foldl _ _ _) as [sessions parents] eqn:E. intros [= <- H].
  rewrite H in E. cbn in E. injection E as <- <-. by destruct r.
Qed.

(** The idle fast path as a run. *)
Lemma run_started run now grace r cr rel fo cl made reged r' n errs :
  keyed (reg_sessions r) -> runIdleGraceFastPath run now grace r = (r', n, errs) ->
  exists gone, rtc step (MkSystem r cr None rel fo dStarted cl made reged)
    (MkSystem r' cr None rel fo dWaiting (callClosers gone cl) made reged) /\
    n = zlen gone /\ gone ++ sessionList r' ≡ₚ sessionList r /\ keyed (reg_sessions r').
Proof.
  intros Hk. unfold runIdleGraceFastPath. destruct (Z.leb_spec grace 0) as [Hg|Hg].
  { intros [= <- <- <-]. exists []. split_and!; try done. apply rtc_once, drainNoGrace. }
  pose proof (drainIdle now grace r cr rel fo cl made reged Hg) as Hst.
  destruct (snapshotIdleEntries now grace r) as [r1 entries] eqn:E.
  pose proof (takeMatching_takes _ _ _ _ Hk E) as Ht.
  destruct (Z.eqb_spec (zlen entries) 0) as [Hz|Hz]; intros [= <- <- <-].
  - destruct entries; [|unfold zlen in Hz; cbn in Hz; lia].
    unfold snapshotIdleEntries in E. apply takeMatching_none in E as ->.
    exists []. split_and!; try done. eapply rtc_l; [done|]. apply (run_idle_closers r _ _ _ _ [] []).
  - pose proof (marked_flagged entries r1) as Hf. exists entries. split_and!; [|done| |].
    + eapply rtc_l; [done|]. apply run_idle_closers.
    + unfold sessionList at 1. rewrite (fl_sessions _ _ Hf). by apply takes_perm.
    + rewrite (fl_sessions _ _ Hf). by eapply takes_keyed.
Qed.

Lemma Count_sessionList r : Count r = zlen (sessionList r).
Proof. unfold Count, sessionList, zlen. rewrite length_map. by rewrite length_map_to_list. Qed.

(** [drainWith] with nothing running beside it is one of these runs. *)
Lemma run_drainWith run now grace r cr rel fo cl made reged :
  keyed (reg_sessions r) -> reg_state r = StateOpen ->
  let '(r', result) := drainWith run now grace [] (fun r => r) r in
  exists closed, rtc step (MkSystem r cr None rel fo dNone cl made reged)
      (MkSystem r' cr None rel fo dDone closed made reged) /\
    closed ≡ₚ cl ++ ids (base.filter (fun s => sess_closer s = true) (sessionList r)) /\
    dr_alreadyDraining result = false /\ dr_Final result = StateClosed /\ dr_ForceClosed result = Count r.
Proof.
  intros Hk Hs. unfold drainWith. rewrite decide_False by (rewrite Hs; tauto).
  destruct (runIdleGraceFastPath run now grace (setState StateDraining r)) as [[r1 n] errs] eqn:E.
  destruct (run_started run now grace (setState StateDraining r) cr rel fo cl made reged _ _ _ Hk E) as (gone & Hrun & -> & Hperm & Hk1).
  pose proof (run_waiting r1 cr rel fo (callClosers gone cl) made reged) as Hwait. unfold waited in Hwait.
  assert (callClosers (sessionList r1) (callClosers gone cl) ≡ₚ
    cl ++ ids (base.filter (fun s => sess_closer s = true) (sessionList r))) as Hcl.
  { change (sessionList r) with (sessionList (setState StateDraining r)). rewrite !callClosers_app, <- app_assoc, <- map_app, <- filter_app.
    by rewrite Hperm. }
  assert (zlen gone + zlen (sessionList r1) = Count r) as Hcount.
  { change (Count r) with (Count (setState StateDraining r)). rewrite Count_sessionList, <- zlen_app. unfold zlen.
    by rewrite Hperm. }
  pose proof (rtc_l step _ _ _ (drainCAS r cr None rel fo cl made reged Hs) (rtc_trans _ _ _ Hrun Hwait)) as Hall.
  unfold waitForIdle. cbn [waitTicks]. rewrite (Count_sessionList r1) in *.
  destruct (Z.eqb_spec (zlen (sessionList r1)) 0) as [E0|E0]; [cbn [Z.eqb]|rewrite (proj2 (Z.eqb_neq _ 0) E0)].
  - exists (callClosers (sessionList r1) (callClosers gone cl)). split_and!; try done. cbn. lia.
  - exists (callClosers (sessionList r1) (callClosers gone cl)). split_and!; done.
Qed.
End drain.

Lemma done_stays {M} (y y' : system (M := M)) :
  sysInv y -> sys_drain y = dDone -> rtc step y y' -> sysInv y' /\ sys_drain y' = dDone.
Proof.
  intros Hi Hd Hst. induction Hst as [|x w z Hxw _ IH]; [done|]. apply IH; [by eapply step_inv|].
  clear - Hxw Hd. by destruct Hxw; repeat case_match; cbn in *.
Qed.

(** C5. A drain settles.  In every reachable state of the concurrent registry whose
    lifecycle state is closed, no session is tracked, the parent index is empty, no
    [Register] is about to insert, and every session that was ever registered is marked
    released (or a concurrent [ForceCloseMatching] is still closing it); and every later
    state is closed and empty too. *)
Theorem drain_settles {M} (y y' : system (M := M)) :
  reachable y -> reg_state (sys_reg y) = StateClosed -> rtc step y y' ->
  reg_state (sys_reg y') = StateClosed /\ reg_sessions (sys_reg y') = ∅ /\ reg_parents (sys_reg y') = ∅ /\
  sys_holder y' = None /\
  forall id, id ∈ sys_registered y' ->
    isReleased (sys_reg y') id \/ id ∈ map sess_ID (map itemSession (sys_force y')).
Proof.
  intros Hr Hs Hst. apply reachable_sysInv in Hr.
  assert (sys_drain y = dDone) as Hd.
  { pose proof (si_state _ Hr) as H. rewrite Hs in H. by destruct (sys_drain y). }
  destruct (done_stays _ _ Hr Hd Hst) as [Hi Hd'].
  pose proof (si_state _ Hi) as Hs'. pose proof (si_parents _ Hi) as Hp.
  destruct (si_drained _ Hi) as [He Hh]; [by rewrite Hd'|].
  rewrite Hd' in Hs'. rewrite He in Hp. split_and!; try done; [by eapply parentsInv_no_sessions|].
  intros id [_ Ha]%(si_registered _ Hi). unfold accounted, pending in Ha. rewrite Hd', elem_tracked, He, lookup_empty in Ha.
  cbn in Ha. rewrite app_nil_r in Ha. destruct Ha as [[? ?]|[?|?]]; [done|by right|by left].
Qed.

(** No closer is called twice.  In every reachable state the calls of closers made so
    far are for pairwise different sessions, and a session whose closer was called is no
    longer tracked and is not queued for another close. *)
Theorem closer_at_most_once {M} (y : system (M := M)) :
  reachable y ->
  NoDup (sys_closed y) /\
  forall id, id ∈ sys_closed y -> reg_sessions (sys_reg y) !! id = None /\
    (forall s, s ∈ drainTodo (sys_drain y) -> sess_ID s <> id) /\ (forall s, toClose s ∈ sys_force y -> sess_ID s <> id).
Proof.
  intros Hr%reachable_sysInv. pose proof (si_places _ Hr) as Hn. unfold places in Hn.
  apply NoDup_app in Hn as (_ & _ & Hn). apply NoDup_app in Hn as (_ & _ & Hn).
  apply NoDup_app in Hn as (_ & Ht & Hn). apply NoDup_app in Hn as (_ & Hc & Hn). apply NoDup_app in Hn as (_ & Hd & Hn).
  split; [done|]. intros id Hin. split_and!.
  - apply eq_None_not_Some. intros Hs%elem_tracked. apply (Ht _ Hs). rewrite !elem_of_app. tauto.
  - intros s Hs%elem_ids <-. by apply (Hd _ Hs).
  - intros s Hs <-. apply (Hc (sess_ID s)); [|rewrite elem_of_app; tauto]. apply list_elem_of_omap. by exists (toClose s).
Qed.

(** The parent index is exact.  In every reachable state [ChildrenOf] lists, once
    each, exactly the tracked sessions that were registered with the given parent. *)
Theorem ChildrenOf_exact {M} (y : system (M := M)) parentID :
  reachable y ->
  NoDup (ChildrenOf parentID (sys_reg y)) /\
  forall c, c ∈ ChildrenOf parentID (sys_reg y) <->
    parentID <> [] /\ exists s, reg_sessions (sys_reg y) !! c = Some s /\ sess_ParentID s = parentID.
Proof.
  intros Hr%reachable_sysInv. pose proof (si_parents _ Hr) as Hp. unfold ChildrenOf. destruct (decide (parentID = [])) as [E|E].
  - split; [constructor|]. intros c. rewrite elem_of_nil. tauto.
  - split; [|apply (pi_child _ _ Hp)]. destruct (_ !! parentID) eqn:El; cbn; [by eapply (pi_lists _ _ Hp)|constructor].
Qed.

(** A drain that has begun can always end: from every reachable state in which a
    drain is running, whatever the other calls were doing, some continuation reaches the
    closed state. *)
Theorem drain_can_end {M} (y : system (M := M)) :
  reachable y -> reg_state (sys_reg y) <> StateOpen ->
  exists y', rtc step y y' /\ reg_state (sys_reg y') = StateClosed.
Proof.
  intros Hr Hs. pose proof (reachable_sysInv _ Hr) as Hi. rewrite (si_state _ Hi) in Hs.
  assert (exists y1, rtc step y y1 /\ sys_holder y1 = None /\ sys_drain y1 = sys_drain y) as (y1 & Hr1 & Hh1 & Hd1).
  { destruct y as [r cr [s|] rel fo d cl made reged]; [|by eexists; split; [constructor|]].
    eexists. split; [apply rtc_once, regInsert|done]. }
  destruct y1 as [r cr h rel fo d cl made reged]. cbn in Hh1, Hd1. subst h d.
  destruct (run_unlocked r cr rel fo (sys_drain y) cl made reged) as (y2 & Hr2 & Hd2); [by intros E; rewrite E in Hs|].
  exists y2. split; [by etransitivity|].
  assert (reachable y2) as Hi2 by (unfold reachable in *; etransitivity; [exact Hr|]; by etransitivity).
  apply reachable_sysInv in Hi2. by rewrite (si_state _ Hi2), Hd2.
Qed.

(** [drainWith] on a registry nothing else touches is one of the runs of the system,
    and it closes everything: the closer of every tracked session that has one is called
    exactly once, the result counts every tracked session as closed by force, and the
    final state is closed. *)
Theorem drainWith_closes_all {M} run now grace (y : system (M := M)) :
  reachable y -> sys_holder y = None -> reg_state (sys_reg y) = StateOpen ->
  let '(r', result) := drainWith run now grace [] (fun r => r) (sys_reg y) in
  exists closed, rtc step y (MkSystem r' (sys_creating y) None (sys_releasing y) (sys_force y) dDone closed
      (sys_created y) (sys_registered y)) /\
    closed ≡ₚ sys_closed y ++ map sess_ID (base.filter (fun s => sess_closer s = true) (sessionList (sys_reg y))) /\
    dr_Final result = StateClosed /\ dr_ForceClosed result = Count (sys_reg y) /\ reg_sessions r' = ∅.
Proof.
  intros Hr Hh Hs. pose proof (reachable_sysInv _ Hr) as Hi.
  assert (sys_drain y = dNone) as Hd.
  { pose proof (si_state _ Hi) as H. rewrite Hs in H. by destruct (sys_drain y). }
  pose proof (run_drainWith run now grace (sys_reg y) (sys_creating y) (sys_releasing y) (sys_force y) (sys_closed y)
    (sys_created y) (sys_registered y) (si_keyed _ Hi) Hs) as H.
  destruct (drainWith run now grace [] (fun r => r) (sys_reg y)) as [r' result].
  destruct H as (closed & Hrun & Hcl & _ & Hf & Hn). destruct y as [r cr h rel fo d cl made reged]. cbn in *. subst h d.
  exists closed. split_and!; try done.
  assert (reachable (MkSystem r' cr None rel fo dDone closed made reged)) as Hr' by (unfold reachable in *; by etransitivity).
  apply reachable_sysInv in Hr'. by destruct (si_drained _ Hr').
Qed.

(** ** A race: the drain starts while a [Register] holds the mutex *)

Definition sampleSession : Session unit := MkSession (lit "a") (lit "p") (lit "k") 5 tt true.

Definition sampleHeap : Registry unit :=
  setHeap (<[sess_ID sampleSession := MkSessionState false (sess_OpenedAt sampleSession)]> ∅) newRegistry.

(** The session is created and the mutex taken. *)
Definition sampleLocked : system :=
  MkSystem sampleHeap [] (Some sampleSession) [] [] dNone [] {[sess_ID sampleSession := sampleSession]} ∅.

(** The drain wins the compare-and-swap before the insertion. *)
Definition sampleRaced : system :=
  MkSystem (setState StateDraining sampleHeap) [] (Some sampleSession) [] [] dStarted []
    {[sess_ID sampleSession := sampleSession]} ∅.

Definition sampleInserted : system :=
  MkSystem (registerInsert sampleSession (setState StateDraining sampleHeap)) [] None [] [] dStarted []
    {[sess_ID sampleSession := sampleSession]} ({[sess_ID sampleSession]} ∪ ∅).

Definition sampleEnded : system :=
  MkSystem (waited (sys_reg sampleInserted)) [] None [] [] dDone [lit "a"]
    {[sess_ID sampleSession := sampleSession]} ({[sess_ID sampleSession]} ∪ ∅).

Lemma sampleLocked_reachable : reachable sampleLocked.
Proof.
  eapply rtc_l; [apply (regCreate sampleSession); [done|apply lookup_empty]|].
  eapply rtc_once. by apply regLock.
Qed.

Lemma sampleInserted_reachable : reachable sampleInserted.
Proof.
  eapply rtc_r; [eapply rtc_r; [apply sampleLocked_reachable|by apply drainCAS]|]. apply regInsert.
Qed.

Lemma sampleEnded_reachable : reachable sampleEnded.
Proof.
  assert (callClosers (sessionList (sys_reg sampleInserted)) [] = [lit "a"]) as E by (vm_compute; reflexivity).
  unfold sampleEnded. rewrite <- E. eapply rtc_trans; [apply sampleInserted_reachable|]. apply run_started_nograce.
Qed.

Lemma drain_settles_witness :
  reachable sampleEnded /\ reg_sessions (sys_reg sampleEnded) = ∅ /\ isReleased (sys_reg sampleEnded) (lit "a").
Proof.
  pose proof (drain_settles sampleEnded sampleEnded sampleEnded_reachable) as H.
  destruct H as (_ & He & _ & _ & Ha); [vm_compute; reflexivity|constructor|].
  split; [apply sampleEnded_reachable|]. split; [exact He|].
  destruct (Ha (lit "a")) as [Hr|Hr]; [|exact Hr|].
  - change (lit "a" ∈ ({[sess_ID sampleSession]} ∪ ∅ : gset bytes)). apply elem_of_union_l. by apply elem_of_singleton.
  - exfalso. cbn in Hr. by apply elem_of_nil in Hr.
Defined.

Lemma closer_at_most_once_witness :
  reachable sampleEnded /\ sys_closed sampleEnded = [lit "a"] /\ NoDup (sys_closed sampleEnded).
Proof.
  split; [apply sampleEnded_reachable|]. split; [reflexivity|].
  apply (closer_at_most_once sampleEnded sampleEnded_reachable).
Defined.

Lemma ChildrenOf_exact_witness :
  reachable sampleInserted /\ lit "a" ∈ ChildrenOf (lit "p") (sys_reg sampleInserted).
Proof.
  split; [apply sampleInserted_reachable|]. apply (ChildrenOf_exact sampleInserted (lit "p") sampleInserted_reachable).
  split; [discriminate|]. exists sampleSession. split; [apply lookup_insert_eq|reflexivity].
Defined.

Lemma drain_can_end_witness :
  sys_holder sampleRaced = Some sampleSession /\
  exists y', rtc step sampleRaced y' /\ reg_state (sys_reg y') = StateClosed.
Proof.
  split; [reflexivity|]. apply (drain_can_end sampleRaced); [|discriminate].
  eapply rtc_r; [apply sampleLocked_reachable|by apply drainCAS].
Defined.

(** The same session registered before any drain. *)
Definition sampleOpen : system :=
  MkSystem (registerInsert sampleSession sampleHeap) [] None [] [] dNone []
    {[sess_ID sampleSession := sampleSession]} ({[sess_ID sampleSession]} ∪ ∅).

Definition sampleEnv : closeEnv (M := unit) := MkCloseEnv (fun _ => closerReturned None) false (fun l => l).

Lemma drainWith_closes_all_witness :
  let '(r', result) := drainWith sampleEnv 100 10 [] (fun r => r) (sys_reg sampleOpen) in
  dr_ForceClosed result = 1 /\ reg_sessions r' = ∅.
Proof.
  pose proof (drainWith_closes_all sampleEnv 100 10 sampleOpen) as H.
  destruct (drainWith _ _ _ _ _ _) as [r' result].
  destruct H as (closed & _ & _ & _ & Hn & He); [|reflexivity|reflexivity|split; [exact Hn|exact He]].
  eapply rtc_r; [apply sampleLocked_reachable|]. apply regInsert.
Defined.
