(* ===== verification/LtGroup.v ===== *)
(** * LtGroup: the ordered shutdown of a group of registries (livetrack/group.go, group_member.go)

    A group owns every registry of a daemon generation and the hooks that run around
    their drains.  [Quiesce] goes through the phases in order; in each it runs the
    before-hooks, drains the members of the phase concurrently, waits for them, and runs
    the after-hooks.

    The group sees a member only through an interface, the class [DrainMember]; its laws
    are what the registry of LtDrain promises (the instance at the end of the first
    part).  [Quiesce] is a step relation, because the drains of one phase overlap.  The
    group is assembled before [Quiesce] starts ([Attach] and [AddHook] are functions), and
    no other caller drains its members. *)

From S2P Require Import Prelude LtRegistry LtDrain.

Open Scope Z_scope.

(** ** The interface of a member *)

(** [mvalid] are the states a member can be in; [others] is what its owners may do at any
    time, drains in progress included; [beginDrain] is the compare-and-swap of a drain
    that finds the member open; [forceCloseNow] the removal of every session. *)
Class DrainMember (R : Type) := {
  mvalid : R -> Prop;
  activeCount : Z -> Z -> R -> Z;
  isOpen : R -> bool;
  drainedR : R -> Prop;
  others : R -> R -> Prop;
  beginDrain : R -> R -> Prop;
  forceCloseNow : R -> R -> Prop;
  activeCount_nonneg now grace r : 0 <= activeCount now grace r;
  others_valid r r' : mvalid r -> others r r' -> mvalid r';
  others_open r r' : mvalid r -> others r r' -> isOpen r' = isOpen r;
  others_drained r r' : mvalid r -> drainedR r -> others r r' -> drainedR r';
  beginDrain_valid r r' : mvalid r -> beginDrain r r' -> mvalid r' /\ isOpen r' = false;
  forceCloseNow_valid r r' : mvalid r -> forceCloseNow r r' -> mvalid r' /\ isOpen r' = isOpen r /\
    (drainedR r -> drainedR r') /\ forall now grace, activeCount now grace r' = 0;
  drained_quiet now grace r : mvalid r -> drainedR r -> activeCount now grace r = 0;
}.

Section instance.
Context {M : Type}.
Implicit Types y : @system M.

(** Every step but the start of a drain. *)
Definition otherStep y y' : Prop := step y y' /\ (sys_drain y = dNone -> sys_drain y' = dNone).

Lemma otherSteps_inv y y' : sysInv y -> rtc otherStep y y' ->
  sysInv y' /\ (sys_drain y' = dNone <-> sys_drain y = dNone) /\ (sys_drain y = dDone -> sys_drain y' = dDone).
Proof.
  intros Hi Hst. revert Hi. induction Hst as [|x w z [Hxw Hn] _ IH]; intros Hi; [done|].
  destruct (IH (step_inv _ _ Hi Hxw)) as (Hz & Ho & Hd). split; [done|].
  assert (sys_drain w = dNone -> sys_drain x = dNone) as Hback
    by (clear - Hxw; destruct Hxw; repeat case_match; cbn in *; done).
  split; [tauto|]. intros Hx. apply Hd. destruct (done_stays x w Hi Hx) as [_ ?]; [by apply rtc_once|done].
Qed.

Definition openSystem y : bool := match sys_drain y with dNone => true | _ => false end.

Lemma inactive_empty now grace (r : Registry M) : reg_sessions r = ∅ -> ActiveCount now grace r = 0.
Proof. intros E. unfold ActiveCount, sessionList. by rewrite E. Qed.

#[export] Program Instance registryMember : DrainMember (@system M) := {|
  mvalid := sysInv;
  activeCount now grace y := ActiveCount now grace (sys_reg y);
  isOpen := openSystem;
  drainedR y := sys_drain y = dDone;
  others := rtc otherStep;
  beginDrain y y' := step y y' /\ sys_drain y = dNone /\ sys_drain y' = dStarted;
  forceCloseNow y y' := sys_holder y = None /\ y' =
    let '(r', matched) := takeMatching (fun s => (fun _ => true) (snapshotSession s)) (sys_reg y) in
    MkSystem r' (sys_creating y) None (sys_releasing y) (map toClose matched ++ sys_force y) (sys_drain y)
      (sys_closed y) (sys_created y) (sys_registered y);
|}.
Next Obligation. intros now grace y. apply zlen_nonneg. Qed.
Next Obligation. intros y y' Hi Hst. by apply (otherSteps_inv y). Qed.
Next Obligation.
  intros y y' Hi Hst. cbn in Hi. destruct (otherSteps_inv _ _ Hi Hst) as (_ & Ho & _). unfold openSystem.
  destruct (sys_drain y), (sys_drain y'); intuition congruence.
Qed.
Next Obligation. intros y y' Hi Hd Hst. cbn in Hi, Hd. destruct (otherSteps_inv _ _ Hi Hst) as (_ & _ & H). by apply H. Qed.
Next Obligation.
  intros y y' Hi (Hst & Hd & Hd'). cbn in Hi. split; [by eapply step_inv|]. unfold openSystem. by rewrite Hd'.
Qed.
Next Obligation.
  intros y y' Hi [Hh ->]. cbn in Hi. destruct (takeMatching _ _) as [r' matched] eqn:E. cbn.
  pose proof (takeMatching_takes _ _ _ _ (si_keyed _ Hi) E) as Ht. split.
  - eapply step_inv; [exact Hi|]. destruct y as [r cr h rel fo d cl made reged]. cbn in *. subst h.
    pose proof (forceTake (fun _ => true) r cr rel fo d cl made reged) as Hst.
    cbn beta in Hst. by rewrite E in Hst.
  - split_and!; [done|done|]. intros now grace. apply inactive_empty. apply map_empty. intros id.
    rewrite (tk_sessions _ _ _ Ht). case_decide as Hin; [done|]. destruct (_ !! id) as [s|] eqn:Es; [|done].
    destruct Hin. pose proof (si_keyed _ Hi _ _ Es) as <-. unfold takeMatching in E.
    destruct (foldl _ _ _) as [? ?]. injection E as <- <-. apply elem_ids, list_elem_of_filter.
    split; [done|]. by apply elem_sessionList; [apply (si_keyed _ Hi)|].
Qed.
Next Obligation.
  intros now grace y Hi Hd. cbn in Hi, Hd. apply inactive_empty. by apply (si_drained _ Hi); rewrite Hd.
Qed.
End instance.

(** ** The group *)

Inductive Phase := PhaseIngress | PhaseEgress | PhaseWorkers | PhaseStorage.

#[export] Instance Phase_eq_dec : EqDecision Phase.
Proof. solve_decision. Defined.

Definition orderedPhases : list Phase := [PhaseIngress; PhaseEgress; PhaseWorkers; PhaseStorage].

Record MemberSpec := MkMemberSpec {
  ms_Phase : Phase;
  ms_QuietRelevant : bool;
  ms_CancelNoWait : bool;
}.

Inductive hookTiming := hookBefore | hookAfter.

#[export] Instance hookTiming_eq_dec : EqDecision hookTiming.
Proof. solve_decision. Defined.

(** What a hook function does when it is called. *)
Inductive hookResult := hookOk | hookErr (err : bytes) | hookPanic.

Record hook := MkHook {
  hk_name : bytes;
  hk_timing : hookTiming;
  hk_fn : hookResult;
}.

(** A type-erased member with the state of its registry. *)
Record member := MkMember {
  mem_R : Type;
  mem_dm : DrainMember mem_R;
  mem_state : mem_R;
  mem_spec : MemberSpec;
}.

Record Group := MkGroup {
  g_members : list member;
  g_hooks : Phase -> list hook;
}.

Definition NewGroup : Group := MkGroup [] (fun _ => []).

Definition MemberCount (g : Group) : Z := zlen (g_members g).

Definition Attach (spec : MemberSpec) {M} (reg : @system M) (g : Group) : Group :=
  MkGroup (g_members g ++ [MkMember _ registryMember reg spec]) (g_hooks g).

Definition addHook (phase : Phase) (timing : hookTiming) (name : bytes) (fn : hookResult) (g : Group) : Group :=
  MkGroup (g_members g)
    (fun p => if decide (p = phase) then g_hooks g p ++ [MkHook name timing fn] else g_hooks g p).
Definition AddHook (phase : Phase) := addHook phase hookAfter.
Definition AddHookBefore (phase : Phase) := addHook phase hookBefore.

(** ** AwaitQuiet *)

Definition memberActive (now grace : Z) (m : member) : Z :=
  @activeCount (mem_R m) (mem_dm m) now grace (mem_state m).

Definition quietActiveCount (now grace : Z) (g : Group) : Z :=
  foldl (fun total m => if ms_QuietRelevant (mem_spec m) then total + memberActive now grace m else total) 0 (g_members g).

(** [AwaitQuiet]: the group as it is at the call, at each tick, and when the context is
    done, each with its time; nothing is changed. *)
Fixpoint awaitTicks (grace : Z) (ticks : list (Z * Group)) (done : Z * Group) : bool :=
  match ticks with
  | [] => quietActiveCount done.1 grace done.2 =? 0
  | (now, g) :: ticks => if quietActiveCount now grace g =? 0 then true else awaitTicks grace ticks done
  end.

Definition AwaitQuiet (grace : Z) (start : Z * Group) (ticks : list (Z * Group)) (done : Z * Group) : bool :=
  if quietActiveCount start.1 grace start.2 =? 0 then true else awaitTicks grace ticks done.

(** ** Quiesce *)

Inductive event :=
| evHook (phase : Phase) (name : bytes)
| evHookFailed (phase : Phase) (name : bytes)
| evHookPanic (name : bytes)
| evForceClosed (i : nat)
| evDrainStarted (i : nat)
| evDrained (i : nat).

(** A failing or panicking hook is logged and does not stop the phase. *)
Definition runHook (phase : Phase) (h : hook) : list event :=
  evHook phase (hk_name h) ::
  match hk_fn h with
  | hookOk => []
  | hookErr _ => [evHookFailed phase (hk_name h)]
  | hookPanic => [evHookPanic (hk_name h)]
  end.

(** Where [Quiesce] is: between phases, or in the phase with its hooks and the members
    (by position) still to do. *)
Inductive quiescePC :=
| qNext (rest : list Phase)
| qBefore (phase : Phase) (todo : list hook) (members : list nat) (rest : list Phase)
| qMembers (phase : Phase) (todo : list nat) (rest : list Phase)
| qAfter (phase : Phase) (todo : list hook) (rest : list Phase).

(** [q_running] are the goroutines not yet done: not yet at the compare-and-swap of
    [drainWith], or past it with whether they won it. *)
Record quiesce := MkQuiesce {
  q_members : list member;
  q_pc : quiescePC;
  q_running : list (nat * option bool);
  q_events : list event;
}.

Definition phaseAt (members : list member) (i : nat) : option Phase := ms_Phase ∘ mem_spec <$> members !! i.

Definition membersOf (phase : Phase) (members : list member) : list nat :=
  filter (fun i => phaseAt members i = Some phase) (seq 0 (length members)).

Definition timed (timing : hookTiming) (hooks : list hook) : list hook := filter (fun h => hk_timing h = timing) hooks.

(** A relation on the state of a member. *)
Inductive onMember (rel : forall R, DrainMember R -> R -> R -> Prop) : member -> member -> Prop :=
| onMember_intro R dm st st' spec :
    rel R dm st st' -> onMember rel (MkMember R dm st spec) (MkMember R dm st' spec).

Definition openM (m : member) : bool := @isOpen _ (mem_dm m) (mem_state m).
Definition drainedM (m : member) : Prop := @drainedR _ (mem_dm m) (mem_state m).
Definition validM (m : member) : Prop := @mvalid _ (mem_dm m) (mem_state m).

Section quiesce.
Variable hooks : Phase -> list hook.

Inductive qstep : quiesce -> quiesce -> Prop :=
(* the owners of the sessions, and the drains in progress *)
| qOthers i m m' ms pc run ev :
    ms !! i = Some m -> onMember (@others) m m' ->
    qstep (MkQuiesce ms pc run ev) (MkQuiesce (<[i := m']> ms) pc run ev)
(* quiescePhase: copy the members and hooks of the phase under the mutex *)
| qBegin phase rest ms run ev :
    qstep (MkQuiesce ms (qNext (phase :: rest)) run ev)
      (MkQuiesce ms (qBefore phase (timed hookBefore (hooks phase)) (membersOf phase ms) rest) run ev)
| qHookBefore phase h todo members rest ms run ev :
    qstep (MkQuiesce ms (qBefore phase (h :: todo) members rest) run ev)
      (MkQuiesce ms (qBefore phase todo members rest) run (ev ++ runHook phase h))
| qBeforeDone phase members rest ms run ev :
    qstep (MkQuiesce ms (qBefore phase [] members rest) run ev) (MkQuiesce ms (qMembers phase members rest) run ev)
(* the loop over the members: CancelNoWait members are closed in the loop, *)
| qForce phase i todo rest m m' ms run ev :
    ms !! i = Some m -> ms_CancelNoWait (mem_spec m) = true -> onMember (@forceCloseNow) m m' ->
    qstep (MkQuiesce ms (qMembers phase (i :: todo) rest) run ev)
      (MkQuiesce (<[i := m']> ms) (qMembers phase todo rest) run (ev ++ [evForceClosed i]))
(* the others get a goroutine, *)
| qSpawn phase i todo rest m ms run ev :
    ms !! i = Some m -> ms_CancelNoWait (mem_spec m) = false ->
    qstep (MkQuiesce ms (qMembers phase (i :: todo) rest) run ev)
      (MkQuiesce ms (qMembers phase todo rest) ((i, None) :: run) ev)
(* which wins or loses the compare-and-swap, *)
| qStartWon i m m' ms pc run run' ev :
    run ≡ₚ (i, None) :: run' -> ms !! i = Some m -> openM m = true -> onMember (@beginDrain) m m' ->
    qstep (MkQuiesce ms pc run ev)
      (MkQuiesce (<[i := m']> ms) pc ((i, Some true) :: run') (ev ++ [evDrainStarted i]))
| qStartLost i m ms pc run run' ev :
    run ≡ₚ (i, None) :: run' -> ms !! i = Some m -> openM m = false ->
    qstep (MkQuiesce ms pc run ev) (MkQuiesce ms pc ((i, Some false) :: run') (ev ++ [evDrainStarted i]))
(* and returns: when its drain is over, or at once when it lost *)
| qEnd i won m ms pc run run' ev :
    run ≡ₚ (i, Some won) :: run' -> ms !! i = Some m -> (won = true -> drainedM m) ->
    qstep (MkQuiesce ms pc run ev) (MkQuiesce ms pc run' (ev ++ [evDrained i]))
(* wg.Wait, then the after-hooks *)
| qWaited phase rest ms ev :
    qstep (MkQuiesce ms (qMembers phase [] rest) [] ev)
      (MkQuiesce ms (qAfter phase (timed hookAfter (hooks phase)) rest) [] ev)
| qHookAfter phase h todo rest ms run ev :
    qstep (MkQuiesce ms (qAfter phase (h :: todo) rest) run ev)
      (MkQuiesce ms (qAfter phase todo rest) run (ev ++ runHook phase h))
| qAfterDone phase rest ms run ev :
    qstep (MkQuiesce ms (qAfter phase [] rest) run ev) (MkQuiesce ms (qNext rest) run ev).

Definition Quiesce (members : list member) : quiesce := MkQuiesce members (qNext orderedPhases) [] [].

(** *** The phases in order *)

Definition cancels (members : list member) (i : nat) : bool :=
  from_option (ms_CancelNoWait ∘ mem_spec) false (members !! i).

(** What happens to a member of a phase, on its own. *)
Definition handled (members : list member) (i : nat) : list event :=
  if cancels members i then [evForceClosed i] else [evDrainStarted i; evDrained i].

Definition precedes {A} (a b : A) (l : list A) : Prop := exists l1 l2 l3, l = l1 ++ a :: l2 ++ b :: l3.

(** The events between the hooks of a phase: every member is handled exactly once, and
    every drain starts before it ends. *)
Definition memberEvents (members : list member) (js : list nat) (mid : list event) : Prop :=
  mid ≡ₚ concat (map (handled members) js) /\
  forall i, evDrained i ∈ mid -> precedes (evDrainStarted i) (evDrained i) mid.

(** All of a phase. *)
Definition phaseEvents (members : list member) (phase : Phase) (t : list event) : Prop :=
  exists mid, memberEvents members (membersOf phase members) mid /\
    t = concat (map (runHook phase) (timed hookBefore (hooks phase))) ++ mid ++
        concat (map (runHook phase) (timed hookAfter (hooks phase))).

(** What a goroutine still has to report. *)
Definition owed (run : nat * option bool) : list event :=
  match run with
  | (i, None) => [evDrainStarted i; evDrained i]
  | (i, Some _) => [evDrained i]
  end.

(** The events of the phase in progress. *)
Definition current (members : list member) (pc : quiescePC) (running : list (nat * option bool)) (t : list event) : Prop :=
  match pc with
  | qNext _ => t = [] /\ running = []
  | qBefore phase todo js _ => running = [] /\ js = membersOf phase members /\
      t ++ concat (map (runHook phase) todo) = concat (map (runHook phase) (timed hookBefore (hooks phase)))
  | qMembers phase todo _ => exists mid js,
      t = concat (map (runHook phase) (timed hookBefore (hooks phase))) ++ mid /\
      js ++ todo = membersOf phase members /\
      mid ++ concat (map owed running) ≡ₚ concat (map (handled members) js) /\
      (forall i won, (i, Some won) ∈ running -> evDrainStarted i ∈ mid) /\
      forall i, evDrained i ∈ mid -> precedes (evDrainStarted i) (evDrained i) mid
  | qAfter phase todo _ => running = [] /\ exists mid, memberEvents members (membersOf phase members) mid /\
      t ++ concat (map (runHook phase) todo) = concat (map (runHook phase) (timed hookBefore (hooks phase))) ++ mid ++
        concat (map (runHook phase) (timed hookAfter (hooks phase)))
  end.

Definition pcPhases (pc : quiescePC) : list Phase :=
  match pc with qNext rest => rest | qBefore p _ _ rest | qMembers p _ rest | qAfter p _ rest => p :: rest end.

(** The members change only in their registries. *)
Definition sameSpecs (ms ms' : list member) : Prop := map mem_spec ms = map mem_spec ms'.

Lemma sameSpecs_lookup ms ms' i : sameSpecs ms ms' -> mem_spec <$> ms !! i = mem_spec <$> ms' !! i.
Proof.
  intros H. pose proof (list_lookup_fmap mem_spec ms i) as E. pose proof (list_lookup_fmap mem_spec ms' i) as E'.
  change (mem_spec <$> ms) with (map mem_spec ms) in E. change (mem_spec <$> ms') with (map mem_spec ms') in E'. congruence.
Qed.

Lemma phaseAt_spec ms i : phaseAt ms i = ms_Phase <$> (mem_spec <$> ms !! i).
Proof. unfold phaseAt. by destruct (ms !! i). Qed.

Lemma cancels_spec ms i : cancels ms i = from_option ms_CancelNoWait false (mem_spec <$> ms !! i).
Proof. unfold cancels. by destruct (ms !! i). Qed.

Lemma sameSpecs_cancels ms ms' i m : sameSpecs ms ms' -> ms' !! i = Some m -> cancels ms i = ms_CancelNoWait (mem_spec m).
Proof. intros H E. by rewrite cancels_spec, (sameSpecs_lookup _ _ _ H), E. Qed.

Lemma sameSpecs_membersOf ms ms' phase : sameSpecs ms ms' -> membersOf phase ms' = membersOf phase ms.
Proof.
  intros H. unfold membersOf. pose proof (f_equal length H) as Hl. rewrite !length_map in Hl. rewrite Hl.
  apply list_filter_iff. intros i. by rewrite !phaseAt_spec, (sameSpecs_lookup _ _ _ H).
Qed.

Lemma sameSpecs_insert ms ms' i m m' rel :
  sameSpecs ms ms' -> ms' !! i = Some m -> onMember rel m m' -> sameSpecs ms (<[i := m']> ms').
Proof.
  intros H Hi Hm. unfold sameSpecs. change (map mem_spec (<[i := m']> ms')) with (mem_spec <$> <[i := m']> ms').
  rewrite list_fmap_insert, list_insert_id; [exact H|]. rewrite list_lookup_fmap, Hi. by destruct Hm.
Qed.

Lemma precedes_snoc {A} (a b c : A) l : precedes a b l -> precedes a b (l ++ [c]).
Proof. intros (l1 & l2 & l3 & ->). exists l1, l2, (l3 ++ [c]). by rewrite <- !app_assoc; cbn; rewrite <- app_assoc. Qed.

Lemma precedes_last {A} (a b : A) l : a ∈ l -> precedes a b (l ++ [b]).
Proof. intros (l1 & l2 & ->)%list_elem_of_split. exists l1, l2, []. by rewrite <- app_assoc. Qed.

(** An event other than the end of a drain keeps the order. *)
Lemma ordered_snoc e mid :
  (forall i, evDrained i ∈ mid -> precedes (evDrainStarted i) (evDrained i) mid) ->
  (forall i, e = evDrained i -> evDrainStarted i ∈ mid) ->
  forall i, evDrained i ∈ mid ++ [e] -> precedes (evDrainStarted i) (evDrained i) (mid ++ [e]).
Proof.
  intros Ho He i [Hin|Heq%list_elem_of_singleton]%elem_of_app; [by apply precedes_snoc, Ho|].
  rewrite <- Heq. by apply precedes_last, He.
Qed.

Lemma concat_map_perm {A B} (f : A -> list B) l l' : l ≡ₚ l' -> concat (map f l) ≡ₚ concat (map f l').
Proof.
  induction 1; cbn; [done| | |by etransitivity].
  - by apply Permutation_app_head.
  - rewrite !app_assoc. apply Permutation_app_tail, Permutation_app_comm.
Qed.

Record orderInv (ms0 : list member) (q : quiesce) : Prop := {
  oi_specs : sameSpecs ms0 (q_members q);
  oi_events : exists done ts t, done ++ pcPhases (q_pc q) = orderedPhases /\ Forall2 (phaseEvents ms0) done ts /\
    q_events q = concat ts ++ t /\ current ms0 (q_pc q) (q_running q) t;
}.

(** Steps of the goroutines while the members of the phase are handled. *)
Lemma current_running ms0 pc run run' t e i o o' :
  current ms0 pc run t -> run ≡ₚ (i, o) :: run' -> [e] ++ concat (map owed o') ≡ₚ owed (i, o) ->
  (forall j won, (j, Some won) ∈ o' -> e = evDrainStarted j) ->
  (forall j, e = evDrained j -> j = i /\ o <> None) ->
  current ms0 pc (o' ++ run') (t ++ [e]).
Proof.
  intros Hc Hp Howed Hst Hend.
  assert (run <> []) as Hne by (intros ->; by apply Permutation_nil_cons in Hp).
  destruct pc; cbn in *; [by destruct Hc|by destruct Hc|..|by destruct Hc].
  destruct Hc as (mid & js & -> & Hjs & Hperm & Hin & Hord). exists (mid ++ [e]), js.
  rewrite <- !app_assoc. split_and!; [done|done| | |].
  - rewrite <- Hperm. apply Permutation_app_head. rewrite map_app, concat_app, app_assoc, Howed.
    by rewrite (concat_map_perm owed _ _ Hp).
  - intros j won [Hj|Hj]%elem_of_app; apply elem_of_app.
    + right. apply list_elem_of_singleton. symmetry. by eapply Hst.
    + left. apply (Hin j won). rewrite Hp. by apply list_elem_of_further.
  - apply ordered_snoc; [done|]. intros j Hj. destruct (Hend j Hj) as [-> Ho]. destruct o as [won|]; [|done].
    apply (Hin i won). rewrite Hp. apply list_elem_of_here.
Qed.

Lemma step_order ms0 q q' : orderInv ms0 q -> qstep q q' -> orderInv ms0 q'.
Proof.
  intros [Hs (done & ts & t & Hdone & Hts & Hev & Hc)] Hst. destruct Hst; cbn [q_members q_pc q_running q_events] in *;
    (split; cbn [q_members q_pc q_running q_events];
     [first [done|by eapply sameSpecs_insert]|]).
  - by exists done, ts, t.
  - cbn in Hc. destruct Hc as [-> ->]. exists done, ts, []. split_and!; try done. cbn.
    by rewrite (sameSpecs_membersOf _ _ _ Hs).
  - cbn in Hc. destruct Hc as (-> & -> & Hc). exists done, ts, (t ++ runHook phase h).
    split_and!; [done|done|by rewrite Hev, app_assoc|]. cbn. split_and!; [done|done|]. by rewrite <- app_assoc.
  - cbn in Hc. destruct Hc as (-> & -> & Hc). exists done, ts, t. split_and!; [done|done|done|]. rewrite app_nil_r in Hc.
    exists [], []. rewrite app_nil_r. split_and!; try done; [by intros ? ? ?%elem_of_nil|by intros ? ?%elem_of_nil].
  - destruct Hc as (mid & js & -> & Hjs & Hperm & Hin & Hord).
    exists done, ts, (concat (map (runHook phase) (timed hookBefore (hooks phase))) ++ mid ++ [evForceClosed i]).
    split_and!; [done|done|by rewrite Hev, <- !app_assoc|].
    exists (mid ++ [evForceClosed i]), (js ++ [i]). rewrite <- !app_assoc. split_and!; [done|done| | |].
    + rewrite map_app, concat_app. cbn. unfold handled at 2. rewrite (sameSpecs_cancels _ _ _ _ Hs H), H0. cbn.
      rewrite <- Hperm. solve_Permutation.
    + intros j won Hj. apply elem_of_app. left. by eapply Hin.
    + by apply ordered_snoc.
  - destruct Hc as (mid & js & -> & Hjs & Hperm & Hin & Hord). exists done, ts, (concat (map (runHook phase) (timed hookBefore (hooks phase))) ++ mid).
    split_and!; [done|done|done|]. exists mid, (js ++ [i]). split_and!; [done|by rewrite <- app_assoc| | |done].
    + rewrite map_app, concat_app. cbn. unfold handled at 2. rewrite (sameSpecs_cancels _ _ _ _ Hs H), H0. cbn.
      rewrite <- Hperm. solve_Permutation.
    + intros j won [Hj|Hj]%elem_of_cons; [done|by eapply Hin].
  - exists done, ts, (t ++ [evDrainStarted i]). split_and!; [done|done|by rewrite Hev, app_assoc|].
    apply (current_running _ _ _ _ _ _ i None [(i, Some true)] Hc H); [done| |done].
    by intros j won [= -> ->]%list_elem_of_singleton.
  - exists done, ts, (t ++ [evDrainStarted i]). split_and!; [done|done|by rewrite Hev, app_assoc|].
    apply (current_running _ _ _ _ _ _ i None [(i, Some false)] Hc H); [done| |done].
    by intros j w [= -> ->]%list_elem_of_singleton.
  - exists done, ts, (t ++ [evDrained i]). split_and!; [done|done|by rewrite Hev, app_assoc|].
    apply (current_running _ _ _ _ _ _ i (Some won) [] Hc H); [done|by intros j w ?%elem_of_nil|].
    by intros j [= ->].
  - destruct Hc as (mid & js & -> & Hjs & Hperm & _ & Hord). exists done, ts, (concat (map (runHook phase) (timed hookBefore (hooks phase))) ++ mid).
    split_and!; [done|done|done|]. split; [done|]. exists mid. rewrite !app_nil_r in *. subst js. split; [done|]. by rewrite <- app_assoc.
  - destruct Hc as (-> & mid & Hmid & Hc). exists done, ts, (t ++ runHook phase h).
    split_and!; [done|done|by rewrite Hev, app_assoc|]. split; [done|]. exists mid. split; [done|]. by rewrite <- app_assoc.
  - destruct Hc as (-> & mid & Hmid & Hc). cbn in Hc. rewrite app_nil_r in Hc. exists (done ++ [phase]), (ts ++ [t]), [].
    split_and!; [by rewrite <- app_assoc| |rewrite concat_app, Hev; cbn; by rewrite !app_nil_r|done].
    apply Forall2_app; [done|]. constructor; [|constructor]. by exists mid.
Qed.
End quiesce.

(** [Quiesce] keeps the declared order.  When it has finished, the events are those
    of ingress, egress, workers and storage in this order; each phase is its before-hooks
    in the order they were added, then its members, each handled exactly once (a
    [CancelNoWait] member closed by force, any other drained, its drain starting before
    it ends), then its after-hooks.  No hook is lost when another fails or panics. *)
Theorem Quiesce_ordered hooks members q :
  rtc (qstep hooks) (Quiesce members) q -> q_pc q = qNext [] ->
  exists ts, Forall2 (phaseEvents hooks members) orderedPhases ts /\ q_events q = concat ts.
Proof.
  intros Hst Hend.
  assert (orderInv hooks members (Quiesce members)) as Hi.
  { split; [done|]. exists [], [], []. by split_and!. }
  assert (orderInv hooks members q) as [_ (done & ts & t & Hdone & Hts & Hev & Hc)].
  { clear Hend. induction Hst as [|x y z Hxy _ IH]; [done|]. apply IH. by eapply step_order. }
  rewrite Hend in *. cbn in *. rewrite app_nil_r in Hdone. subst done. destruct Hc as [-> _].
  exists ts. by rewrite Hev, app_nil_r.
Qed.

(** *** Every member ends drained *)

Section drains.
Variable hooks : Phase -> list hook.

Definition pcTodo (pc : quiescePC) : list nat :=
  match pc with qBefore _ _ js _ | qMembers _ js _ => js | qNext _ | qAfter _ _ _ => [] end.
Definition pcRest (pc : quiescePC) : list Phase :=
  match pc with qNext rest | qBefore _ _ _ rest | qMembers _ _ rest | qAfter _ _ rest => rest end.

(** The members not finished yet in the phase in progress. *)
Definition active (pc : quiescePC) (run : list (nat * option bool)) : list nat := pcTodo pc ++ map fst run.

Definition phaseOf (m : member) : Phase := ms_Phase (mem_spec m).

(** How far [Quiesce] is with a member. *)
Record progress (pc : quiescePC) (run : list (nat * option bool)) (i : nat) (m : member) : Prop := {
  pg_valid : validM m;
  pg_rest : phaseOf m ∈ pcRest pc -> openM m = true /\ i ∉ active pc run;
  pg_todo : i ∈ pcTodo pc -> openM m = true;
  pg_spawned : (i, None) ∈ run -> openM m = true;
  pg_over : phaseOf m ∉ pcRest pc -> i ∉ active pc run -> ms_CancelNoWait (mem_spec m) = false -> drainedM m;
}.

Record drainInv (q : quiesce) : Prop := {
  dv_phases : NoDup (pcRest (q_pc q));
  dv_active : NoDup (active (q_pc q) (q_running q));
  dv_won : forall i, (i, Some false) ∉ q_running q;
  dv_idle : (forall phase todo rest, q_pc q <> qMembers phase todo rest) -> q_running q = [];
  dv_progress : forall i m, q_members q !! i = Some m -> progress (q_pc q) (q_running q) i m;
}.

(** The interface of the members, for the erased type. *)
Lemma others_member m m' :
  validM m -> onMember (@others) m m' -> validM m' /\ openM m' = openM m /\ (drainedM m -> drainedM m') /\ mem_spec m' = mem_spec m.
Proof.
  intros Hv Hm. revert Hv. destruct Hm as [R dm st st' spec H]. intros Hv. unfold validM, openM, drainedM in *. cbn in *.
  split_and!; [exact (others_valid _ _ Hv H)|exact (others_open _ _ Hv H)|intros Hd; exact (others_drained _ _ Hv Hd H)|done].
Qed.

Lemma force_member m m' :
  validM m -> onMember (@forceCloseNow) m m' -> validM m' /\ openM m' = openM m /\ mem_spec m' = mem_spec m.
Proof.
  intros Hv Hm. revert Hv. destruct Hm as [R dm st st' spec H]. intros Hv. unfold validM, openM, drainedM in *. cbn in *.
  by destruct (forceCloseNow_valid _ _ Hv H) as (? & ? & ? & ?).
Qed.

Lemma begin_member m m' :
  validM m -> onMember (@beginDrain) m m' -> validM m' /\ mem_spec m' = mem_spec m.
Proof.
  intros Hv Hm. revert Hv. destruct Hm as [R dm st st' spec H]. intros Hv. unfold validM in *. cbn in *. split; [|done]. by destruct (beginDrain_valid _ _ Hv H).
Qed.

Lemma lookup_insert_cases (ms : list member) i j m x :
  <[i := m]> ms !! j = Some x -> j = i /\ x = m \/ j <> i /\ ms !! j = Some x.
Proof.
  destruct (decide (j = i)) as [->|]; [|rewrite list_lookup_insert_ne by done; by right].
  intros H. left. split; [done|]. apply list_lookup_insert_Some in H. intuition congruence.
Qed.

Lemma membersOf_NoDup phase ms : NoDup (membersOf phase ms).
Proof. apply NoDup_filter, NoDup_seq. Qed.

Lemma elem_membersOf phase ms i : i ∈ membersOf phase ms <-> exists m, ms !! i = Some m /\ phaseOf m = phase.
Proof.
  unfold membersOf, phaseAt. rewrite list_elem_of_filter, elem_of_seq. split.
  - intros [Hp _]. destruct (ms !! i) as [m|]; [|done]. injection Hp as <-. by exists m.
  - intros (m & Hm & <-). rewrite Hm. split; [done|]. apply lookup_lt_Some in Hm. lia.
Qed.

(** A step that is about other members. *)
Lemma progress_other pc run pc' run' i m :
  pcRest pc' = pcRest pc -> (i ∈ pcTodo pc' -> i ∈ pcTodo pc) -> ((i, None) ∈ run' -> (i, None) ∈ run) ->
  (i ∈ active pc' run' <-> i ∈ active pc run) -> progress pc run i m -> progress pc' run' i m.
Proof. intros Hr Ht Hs Ha [Hv Hre Hto Hsp Ho]. split; rewrite ?Hr, ?Ha; auto. Qed.

(** A member in progress that stays so. *)
Lemma progress_active pc run i m :
  validM m -> phaseOf m ∉ pcRest pc -> i ∈ active pc run ->
  (i ∈ pcTodo pc -> openM m = true) -> ((i, None) ∈ run -> openM m = true) -> progress pc run i m.
Proof. intros Hv Hp Ha Ht Hs. by split. Qed.

Lemma active_phase pc run i m : progress pc run i m -> i ∈ active pc run -> phaseOf m ∉ pcRest pc.
Proof. intros [_ Hr _ _ _] Ha Hp. by destruct (Hr Hp). Qed.

Lemma run_elem (run : list (nat * option bool)) i o : (i, o) ∈ run -> i ∈ map fst run.
Proof. intros H. apply list_elem_of_fmap. by exists (i, o). Qed.

Lemma perm_fst (run run' : list (nat * option bool)) i o : run ≡ₚ (i, o) :: run' -> map fst run ≡ₚ i :: map fst run'.
Proof. intros H. by apply (Permutation_map fst) in H. Qed.

Lemma begin_inv phase rest ms run ev :
  drainInv (MkQuiesce ms (qNext (phase :: rest)) run ev) ->
  drainInv (MkQuiesce ms (qBefore phase (timed hookBefore (hooks phase)) (membersOf phase ms) rest) run ev).
Proof.
  intros [Hph Hnd Hwon Hidle Hpr]. cbn in *. rewrite (Hidle ltac:(done)) in *. apply NoDup_cons in Hph as [Hout Hph].
  split; cbn; [done|unfold active; cbn; rewrite app_nil_r; apply membersOf_NoDup|done|done|].
  intros j x Hx. destruct (Hpr j x Hx) as [Hv Hre Hto Hsp Ho]. cbn in *.
  assert (j ∈ membersOf phase ms <-> phaseOf x = phase) as Hj.
  { rewrite elem_membersOf. split; [intros (m & Hm & <-); congruence|intros <-; by exists x]. }
  unfold active in *. cbn in *. rewrite elem_of_cons in Hre, Ho. split; unfold active; cbn; rewrite ?app_nil_r, ?Hj.
  - done.
  - intros Hin. split; [apply Hre; by right|]. intros E. by rewrite E in Hin.
  - intros E. by apply Hre; left.
  - done.
  - intros Hn Hne. apply Ho; [tauto|apply not_elem_of_nil].
Qed.

Lemma step_drainInv q q' : drainInv q -> qstep hooks q q' -> drainInv q'.
Proof.
  intros Hi Hst. destruct Hst as [i m m' ms pc run ev Hm Hon|phase rest ms run ev| | |phase i todo rest m m' ms run ev Hm Hcan Hon
    |phase i todo rest m ms run ev Hm Hcan|i m m' ms pc run run' ev Hp Hm Hop Hon|i m ms pc run run' ev Hp Hm Hop
    |i won m ms pc run run' ev Hp Hm Hd|phase rest ms ev| | ].
  2: by apply begin_inv.
  all: destruct Hi as [Hph Hnd Hwon Hidle Hpr]; cbn [q_members q_pc q_running q_events] in *.
  - (* others *) split; cbn; [done..|]. intros j x Hx. apply lookup_insert_cases in Hx as [[-> ->]|[_ Hx]]; [|by apply Hpr].
    destruct (Hpr _ _ Hm) as [Hv Hr Ht Hsp Ho]. destruct (others_member _ _ Hv Hon) as (Hv' & Hop & Hd & Hspec).
    unfold phaseOf in *. split; rewrite ?Hop; unfold phaseOf; rewrite ?Hspec; auto.
  - (* a before-hook *) split; cbn; [done|done|done|intros _; by apply Hidle|]. intros j x Hx. by eapply progress_other, Hpr.
  - (* before-hooks over *) split; cbn; [done|done|done| |].
    + intros E. by destruct (E phase members rest).
    + intros j x Hx. by eapply progress_other, Hpr.
  - (* force *) unfold active in Hnd. cbn in Hnd. apply NoDup_cons in Hnd as [Hni Hnd].
    split; cbn; [done|done|done|intros E; by destruct (E phase todo rest)|].
    intros j x Hx. apply lookup_insert_cases in Hx as [[-> ->]|[Hne Hx]].
    + pose proof (Hpr _ _ Hm) as Hpi. destruct (force_member _ _ (pg_valid _ _ _ _ Hpi) Hon) as (Hv' & _ & Hspec).
      pose proof (active_phase _ _ _ _ Hpi) as Hpa. unfold active, phaseOf in *. cbn in *. rewrite elem_of_app in *.
      split; unfold phaseOf; rewrite ?Hspec; [done| | | |congruence].
      * intros Hin. destruct Hpa; [left; apply list_elem_of_here|done].
      * intros Hin. tauto.
      * intros Hin%run_elem. tauto.
    + eapply progress_other, Hpr, Hx; unfold active; cbn; rewrite ?elem_of_cons; tauto.
  - (* spawn *) unfold active in Hnd. cbn in Hnd. split; cbn.
    + done.
    + unfold active. cbn. by rewrite <- Permutation_middle.
    + intros j [?|?]%elem_of_cons; [done|by eapply Hwon].
    + intros E. by destruct (E phase todo rest).
    + intros j x Hx. destruct (decide (j = i)) as [->|Hne].
      * assert (x = m) as -> by congruence. pose proof (Hpr _ _ Hm) as Hpi.
        assert (openM m = true) as Hopen by (apply (pg_todo _ _ _ _ Hpi), list_elem_of_here).
        apply progress_active; [apply (pg_valid _ _ _ _ Hpi)| |unfold active; cbn; rewrite elem_of_app, elem_of_cons; tauto|done|done].
        apply (active_phase _ _ _ _ Hpi), elem_of_app. left. apply list_elem_of_here.
      * eapply progress_other, Hpr, Hx; unfold active; cbn; rewrite ?elem_of_app, ?elem_of_cons, ?elem_of_app.
        -- done.
        -- tauto.
        -- intros [?|?]; [congruence|done].
        -- tauto.
  - (* won *) pose proof (Hpr _ _ Hm) as Hpi. destruct (begin_member _ _ (pg_valid _ _ _ _ Hpi) Hon) as [Hv' Hspec].
    pose proof (perm_fst _ _ _ _ Hp) as Hpf.
    assert (NoDup (pcTodo pc ++ i :: map fst run')) as Hnd' by (unfold active in Hnd; by rewrite Hpf in Hnd).
    assert ((i ∉ pcTodo pc) /\ (i ∉ map fst run')) as [Hi1 Hi2].
    { rewrite <- Permutation_middle in Hnd'. apply NoDup_cons in Hnd' as [Hn _]. rewrite elem_of_app in Hn. tauto. }
    assert (forall j, j ∈ active pc run <-> j ∈ active pc ((i, Some true) :: run')) as Hact
      by (intros j; unfold active; rewrite !elem_of_app, Hpf; done).
    split; cbn.
    + done.
    + done.
    + intros j [?|Hj]%elem_of_cons; [done|]. apply (Hwon j). rewrite Hp. by apply list_elem_of_further.
    + intros E. rewrite (Hidle E) in Hp. by apply Permutation_nil_cons in Hp.
    + intros j x Hx. apply lookup_insert_cases in Hx as [[-> ->]|[Hne Hx]].
      * apply progress_active; [done| |by apply elem_of_app; right; apply list_elem_of_here|done|].
        -- unfold phaseOf. rewrite Hspec. apply (active_phase _ _ _ _ Hpi), Hact, elem_of_app. right. apply list_elem_of_here.
        -- intros [?|?%run_elem]%elem_of_cons; done.
      * eapply progress_other, Hpr, Hx; [done|done| |by rewrite Hact].
        rewrite Hp, !elem_of_cons. intros [?|?]; [congruence|by right].
  - (* lost: impossible *) exfalso. assert (openM m = true); [|congruence].
    apply (pg_spawned _ _ _ _ (Hpr _ _ Hm)). rewrite Hp. apply list_elem_of_here.
  - (* end *) pose proof (Hpr _ _ Hm) as Hpi. pose proof (perm_fst _ _ _ _ Hp) as Hpf.
    assert (NoDup (i :: active pc run')) as Hnd'.
    { unfold active in *. by rewrite Hpf, <- Permutation_middle in Hnd. }
    apply NoDup_cons in Hnd' as [Hout Hnd'].
    assert (forall j, j ∈ active pc run <-> j = i \/ j ∈ active pc run') as Hact
      by (intros j; unfold active; rewrite !elem_of_app, Hpf, elem_of_cons; tauto).
    assert (drainedM m) as Hdr.
    { destruct won; [by apply Hd|]. destruct (Hwon i). rewrite Hp. apply list_elem_of_here. }
    split; cbn.
    + done.
    + done.
    + intros j Hj. apply (Hwon j). rewrite Hp. by apply list_elem_of_further.
    + intros E. rewrite (Hidle E) in Hp. by apply Permutation_nil_cons in Hp.
    + intros j x Hx. destruct (decide (j = i)) as [->|Hne].
      * assert (x = m) as -> by congruence. destruct Hpi as [Hv Hre Hto Hsp Ho]. split; try done.
        -- intros Hin%Hre. split; [tauto|done].
        -- intros Hin. apply Hsp. rewrite Hp. by apply list_elem_of_further.
      * eapply progress_other, Hpr, Hx; [done|done| |rewrite Hact; tauto].
        rewrite Hp, !elem_of_cons. by right.
  - (* waited *) split; cbn; [done|done|done|done|]. intros j x Hx. by eapply progress_other, Hpr.
  - (* an after-hook *) split; cbn; [done|done|done|intros _; by apply Hidle|]. intros j x Hx. by eapply progress_other, Hpr.
  - (* the phase is over *) split; cbn; [done|done|done|intros _; by apply Hidle|]. intros j x Hx. by eapply progress_other, Hpr.
Qed.

Lemma start_drainInv members :
  (forall i m, members !! i = Some m -> validM m /\ openM m = true) -> drainInv (Quiesce members).
Proof.
  intros H. split; cbn; [|constructor|by intros i ?%elem_of_nil|done|].
  - apply (bool_decide_unpack (NoDup orderedPhases)). by vm_compute.
  - intros i m [Hv Ho]%H. split; cbn; try done.
    + intros _. split; [done|]. apply not_elem_of_nil.
    + intros Hn. destruct Hn. unfold orderedPhases. destruct (phaseOf m); rewrite !elem_of_cons; tauto.
Qed.
End drains.

(** C6. [Quiesce] drains everything.  When every member was open at the start and nobody
    else drains them, then once [Quiesce] has finished every member that is waited for is
    drained: its registry is closed and has no active session, and stays so. *)
Theorem Quiesce_drains hooks members q :
  (forall i m, members !! i = Some m -> validM m /\ openM m = true) ->
  rtc (qstep hooks) (Quiesce members) q -> q_pc q = qNext [] ->
  q_running q = [] /\
  forall i m, q_members q !! i = Some m -> ms_CancelNoWait (mem_spec m) = false ->
    drainedM m /\ forall now grace, memberActive now grace m = 0.
Proof.
  intros Hopen Hst Hend.
  assert (drainInv q) as Hi.
  { pose proof (start_drainInv members Hopen) as Hi. clear Hopen Hend.
    induction Hst as [|x y z Hxy _ IH]; [done|]. apply IH. by eapply step_drainInv. }
  assert (q_running q = []) as Hrun by (apply (dv_idle _ Hi); by rewrite Hend).
  split; [done|]. intros i m Hm Hcan.
  pose proof (dv_progress _ Hi _ _ Hm) as Hp. rewrite Hend, Hrun in Hp.
  assert (drainedM m) as Hd by (apply (pg_over _ _ _ _ Hp); [apply not_elem_of_nil|apply not_elem_of_nil|done]).
  split; [done|]. intros now grace. apply drained_quiet; [apply (pg_valid _ _ _ _ Hp)|done].
Qed.

Lemma quiet_fold now grace ms total :
  0 <= total ->
  total <= foldl (fun total m => if ms_QuietRelevant (mem_spec m) then total + memberActive now grace m else total) total ms /\
  (foldl (fun total m => if ms_QuietRelevant (mem_spec m) then total + memberActive now grace m else total) total ms = 0 <->
   total = 0 /\ forall m, m ∈ ms -> ms_QuietRelevant (mem_spec m) = true -> memberActive now grace m = 0).
Proof.
  revert total. induction ms as [|m ms IH]; intros total Ht; cbn.
  { split; [lia|]. split; [intros ->; split; [done|by intros m ?%elem_of_nil]|tauto]. }
  pose proof (@activeCount_nonneg _ (mem_dm m) now grace (mem_state m)) as Hn. fold (memberActive now grace m) in Hn.
  destruct (ms_QuietRelevant (mem_spec m)) eqn:Eq.
  - destruct (IH (total + memberActive now grace m)) as [Hle Hiff]; [lia|]. split; [lia|]. rewrite Hiff. split.
    + intros [Hz Hall]. split; [lia|]. intros x [->|Hx]%elem_of_cons Hq; [lia|by apply Hall].
    + intros [-> Hall]. split; [rewrite Hall; [done|apply list_elem_of_here|done]|]. intros x Hx. by apply Hall, list_elem_of_further.
  - destruct (IH total Ht) as [Hle Hiff]. split; [done|]. rewrite Hiff. split; intros [Hz Hall]; (split; [done|]).
    + intros x [->|Hx]%elem_of_cons Hq; [congruence|by apply Hall].
    + intros x Hx. by apply Hall, list_elem_of_further.
Qed.

(** A group is quiet when no member that counts has an active session. *)
Definition quiet (now grace : Z) (g : Group) : Prop :=
  forall m, m ∈ g_members g -> ms_QuietRelevant (mem_spec m) = true -> memberActive now grace m = 0.

Lemma quietActiveCount_zero now grace g : quietActiveCount now grace g = 0 <-> quiet now grace g.
Proof.
  unfold quietActiveCount. destruct (quiet_fold now grace (g_members g) 0) as [_ ->]; [done|]. unfold quiet. tauto.
Qed.

(** [AwaitQuiet] reports quiet exactly when it saw it: it returns true if and only if
    the group was quiet at the call, at one of the ticks, or when the context ended. *)
Theorem AwaitQuiet_sees_quiet grace start ticks done :
  AwaitQuiet grace start ticks done = true <->
  exists now g, (now, g) ∈ start :: ticks ++ [done] /\ quiet now grace g.
Proof.
  assert (awaitTicks grace ticks done = true <-> exists now g, (now, g) ∈ ticks ++ [done] /\ quiet now grace g) as Ht.
  { induction ticks as [|[now g] ticks IH]; cbn.
    - rewrite Z.eqb_eq, quietActiveCount_zero. split; [intros; exists done.1, done.2; split; [|done]|].
      + apply list_elem_of_singleton. by destruct done.
      + intros (now & g & <-%list_elem_of_singleton & Hq). done.
    - destruct (Z.eqb_spec (quietActiveCount now grace g) 0) as [E|E]; rewrite quietActiveCount_zero in E.
      + split; [intros _; exists now, g; split; [apply list_elem_of_here|done]|done].
      + rewrite IH. split; intros (n & h & Hin & Hq); exists n, h; (split; [|done]); [by apply list_elem_of_further|].
        apply elem_of_cons in Hin as [[= -> ->]|]; done. }
  unfold AwaitQuiet. destruct start as [now g]. cbn.
  destruct (Z.eqb_spec (quietActiveCount now grace g) 0) as [E|E]; rewrite quietActiveCount_zero in E.
  - split; [intros _; exists now, g; split; [apply list_elem_of_here|done]|done].
  - rewrite Ht. split; intros (n & h & Hin & Hq); exists n, h; (split; [|done]); [by apply list_elem_of_further|].
    apply elem_of_cons in Hin as [[= -> ->]|]; done.
Qed.

(** ** A shutdown *)

Lemma others_of_steps {M} (y y' : @system M) : sys_drain y <> dNone -> rtc step y y' -> rtc otherStep y y'.
Proof.
  intros Hd Hst. induction Hst as [|x w z Hxw _ IH]; [constructor|]. eapply rtc_l; [split; [exact Hxw|done]|]. apply IH.
  clear - Hd Hxw. by destruct Hxw; repeat case_match; cbn in *.
Qed.

Definition sampleMembers (served watched : @system unit) : list member :=
  [MkMember _ registryMember served (MkMemberSpec PhaseIngress true false);
   MkMember _ registryMember watched (MkMemberSpec PhaseWorkers false true)].

(** A before-hook that panics and an after-hook that fails. *)
Definition sampleHooks : Phase -> list hook :=
  g_hooks (AddHook PhaseStorage (lit "close") (hookErr (lit "busy")) (AddHookBefore PhaseIngress (lit "keepalives") hookPanic NewGroup)).

Definition sampleEvents : list event :=
  [evHook PhaseIngress (lit "keepalives"); evHookPanic (lit "keepalives"); evDrainStarted 0; evDrained 0;
   evForceClosed 1; evHook PhaseStorage (lit "close"); evHookFailed PhaseStorage (lit "close")].

(** A phase without hooks whose members are done at once. *)
Lemma run_empty_phase phase rest ms ev :
  timed hookBefore (sampleHooks phase) = [] -> membersOf phase ms = [] -> timed hookAfter (sampleHooks phase) = [] ->
  rtc (qstep sampleHooks) (MkQuiesce ms (qNext (phase :: rest)) [] ev) (MkQuiesce ms (qNext rest) [] ev).
Proof.
  intros Hb Hm Ha. eapply rtc_l; [apply qBegin|]. rewrite Hb, Hm. eapply rtc_l; [apply qBeforeDone|].
  eapply rtc_l; [apply qWaited|]. rewrite Ha. eapply rtc_once, qAfterDone.
Qed.

(** Draining the first member. *)
Lemma run_ingress r cr rel fo cl made reged watched rest :
  reg_state r = StateOpen ->
  let served := MkSystem r cr None rel fo dNone cl made reged in
  exists served', sys_drain served' = dDone /\
  rtc (qstep sampleHooks) (MkQuiesce (sampleMembers served watched) (qNext (PhaseIngress :: rest)) [] [])
    (MkQuiesce (sampleMembers served' watched) (qNext rest) [] (take 4 sampleEvents)).
Proof.
  intros Hs served. eexists (MkSystem _ _ _ _ _ dDone _ _ _). split; [reflexivity|].
  eapply rtc_l; [apply qBegin|]. cbn. eapply rtc_l; [apply qHookBefore|]. eapply rtc_l; [apply qBeforeDone|].
  eapply rtc_l; [by eapply qSpawn|]. eapply rtc_l.
  { eapply (qStartWon _ 0); [done|done|done|]. constructor. split; [by apply drainCAS|done]. }
  eapply rtc_l.
  { eapply (qOthers _ 0); [done|]. constructor. apply others_of_steps; [done|]. apply run_started_nograce. }
  eapply rtc_l; [by eapply (qEnd _ 0)|]. eapply rtc_l; [apply qWaited|]. eapply rtc_once, qAfterDone.
Qed.

Lemma run_workers served r cr rel fo d cl made reged rest ev :
  let watched := MkSystem r cr None rel fo d cl made reged in
  exists watched',
  rtc (qstep sampleHooks) (MkQuiesce (sampleMembers served watched) (qNext (PhaseWorkers :: rest)) [] ev)
    (MkQuiesce (sampleMembers served watched') (qNext rest) [] (ev ++ [evForceClosed 1])).
Proof.
  intros watched. eexists. eapply rtc_l; [apply qBegin|]. cbn. eapply rtc_l; [apply qBeforeDone|].
  eapply rtc_l; [eapply (qForce _ _ 1); [done|done|]; constructor; split; [done|reflexivity]|].
  eapply rtc_l; [apply qWaited|]. eapply rtc_once, qAfterDone.
Qed.

Lemma run_storage ms rest ev :
  membersOf PhaseStorage ms = [] ->
  rtc (qstep sampleHooks) (MkQuiesce ms (qNext (PhaseStorage :: rest)) [] ev)
    (MkQuiesce ms (qNext rest) [] (ev ++ drop 5 sampleEvents)).
Proof.
  intros Hm. eapply rtc_l; [apply qBegin|]. rewrite Hm. cbn. eapply rtc_l; [apply qBeforeDone|].
  eapply rtc_l; [apply qWaited|]. eapply rtc_l; [apply qHookAfter|]. eapply rtc_once, qAfterDone.
Qed.

Lemma run_sample :
  exists served watched, rtc (qstep sampleHooks) (Quiesce (sampleMembers sampleOpen sampleOpen))
    (MkQuiesce (sampleMembers served watched) (qNext []) [] sampleEvents) /\ sys_drain served = dDone.
Proof.
  destruct (run_ingress (registerInsert sampleSession sampleHeap) [] [] [] [] {[sess_ID sampleSession := sampleSession]}
    ({[sess_ID sampleSession]} ∪ ∅) sampleOpen [PhaseEgress; PhaseWorkers; PhaseStorage] eq_refl) as (served & Hd & H1).
  destruct (run_workers served (registerInsert sampleSession sampleHeap) [] [] [] dNone [] {[sess_ID sampleSession := sampleSession]}
    ({[sess_ID sampleSession]} ∪ ∅) [PhaseStorage] (take 4 sampleEvents)) as (watched & H2).
  exists served, watched. split; [|done]. etransitivity; [exact H1|]. etransitivity; [by apply run_empty_phase|].
  etransitivity; [exact H2|]. by apply (run_storage _ []).
Qed.

Lemma sampleOpen_inv : sysInv sampleOpen.
Proof. apply reachable_sysInv. eapply rtc_r; [apply sampleLocked_reachable|]. apply regInsert. Qed.

Lemma Quiesce_ordered_witness :
  exists ts, Forall2 (phaseEvents sampleHooks (sampleMembers sampleOpen sampleOpen)) orderedPhases ts /\
    sampleEvents = concat ts.
Proof.
  destruct run_sample as (served & watched & Hrun & _).
  exact (Quiesce_ordered sampleHooks (sampleMembers sampleOpen sampleOpen) _ Hrun eq_refl).
Defined.

Lemma Quiesce_drains_witness :
  exists served watched, rtc (qstep sampleHooks) (Quiesce (sampleMembers sampleOpen sampleOpen))
    (MkQuiesce (sampleMembers served watched) (qNext []) [] sampleEvents) /\
  forall now grace, ActiveCount now grace (sys_reg served) = 0.
Proof.
  destruct run_sample as (served & watched & Hrun & _). exists served, watched. split; [exact Hrun|]. intros now grace.
  assert (forall i m, sampleMembers sampleOpen sampleOpen !! i = Some m -> validM m /\ openM m = true) as Hopen.
  { intros [|[|i]] m; cbn; [intros [= <-]|intros [= <-]|done]; (split; [apply sampleOpen_inv|reflexivity]). }
  destruct (Quiesce_drains sampleHooks (sampleMembers sampleOpen sampleOpen) _ Hopen Hrun eq_refl) as [_ H].
  exact (proj2 (H 0%nat _ eq_refl eq_refl) now grace).
Defined.
