(* ===== verification/RtSegments.v ===== *)
(** * RtSegments: length-framed transcripts (reorienttag/segments.go, tags.go)

    A compaction keeps part of a conversation as text: segments with a role, a kind and a
    byte count, between a pair of tags.  The parser finds these spans in any text.  The
    theorems: what was framed is read back exactly, whatever characters its segments
    contain; and for every text the spans found are in order, disjoint and inside it. *)

From S2P Require Import Prelude GoUtf8 GoStrconv.

Open Scope Z_scope.

(** ** Tags *)

Definition PreCompactionTranscriptOpen : bytes := lit "<pre-compaction-transcript>".
Definition PreCompactionTranscriptClose : bytes := lit "</pre-compaction-transcript>".
Definition CompactionInstructionsOpen : bytes := lit "<compaction-instructions>".
Definition CompactionInstructionsClose : bytes := lit "</compaction-instructions>".

Definition newline : bytes := [Byte.x0a].

Definition WrapInjection (transcript instructions : bytes) : bytes :=
  newline ++ newline ++ PreCompactionTranscriptOpen ++ newline ++ transcript ++ newline ++
  PreCompactionTranscriptClose ++ newline ++
  (if decide (instructions = []) then [] else
   newline ++ CompactionInstructionsOpen ++ newline ++ instructions ++ newline ++ CompactionInstructionsClose ++ newline).

(** The double-quote character as a string, to write the tags that contain it. *)
Definition dq : bytes := [dquote].

Definition TranscriptFormatMarker : bytes := lit "<clyde-transcript-format version=" ++ dq ++ lit "2" ++ dq ++ lit "/>".

(** ** Segments *)

Abbreviation SegmentKind := bytes (only parsing).
Abbreviation SegmentRole := bytes (only parsing).

Definition SegmentKindChat : SegmentKind := lit "chat".
Definition SegmentKindThinking : SegmentKind := lit "thinking".
Definition SegmentKindToolCall : SegmentKind := lit "tool_call".
Definition SegmentKindToolOutput : SegmentKind := lit "tool_output".
Definition SegmentKindSystem : SegmentKind := lit "system".
Definition SegmentKindOther : SegmentKind := lit "other".

Definition SegmentRoleUser : SegmentRole := lit "user".
Definition SegmentRoleAssistant : SegmentRole := lit "assistant".
Definition SegmentRoleSystem : SegmentRole := lit "system".
Definition SegmentRoleOther : SegmentRole := lit "other".

Record Segment := MkSegment {
  seg_Role : SegmentRole;
  seg_Kind : SegmentKind;
  seg_Text : bytes;
}.

Record TranscriptSpan := MkSpan {
  span_Start : nat;
  span_End : nat;
  span_Segments : list Segment;
}.

Definition segmentRolePrefix : bytes := lit "<segment role=".
Definition segmentKindPrefix : bytes := lit " kind=".
Definition segmentBytesPrefix : bytes := lit " bytes=".
Definition segmentHeaderEnd : bytes := lit ">" ++ newline.
Definition segmentFooter : bytes := newline ++ lit "</segment>".
Definition segmentSeparator : bytes := newline ++ newline.

Definition knownRole (role : SegmentRole) : bool :=
  bool_decide (role ∈ [SegmentRoleUser; SegmentRoleAssistant; SegmentRoleSystem; SegmentRoleOther]).
Definition knownKind (kind : SegmentKind) : bool :=
  bool_decide (kind ∈ [SegmentKindChat; SegmentKindThinking; SegmentKindToolCall; SegmentKindToolOutput;
    SegmentKindSystem; SegmentKindOther]).

Section encode.
(** Which runes of 128 and above are printable. *)
Variable isPrint : Z -> bool.

Definition EncodeSegment (segment : Segment) : bytes :=
  segmentRolePrefix ++ Quote isPrint (seg_Role segment) ++ segmentKindPrefix ++ Quote isPrint (seg_Kind segment) ++
  segmentBytesPrefix ++ Quote isPrint (Itoa (zlen (seg_Text segment))) ++ segmentHeaderEnd ++
  seg_Text segment ++ segmentFooter.

(** The loop of [EncodeTranscript]: a separator before every segment but the first. *)
Fixpoint encodeSegments (index : nat) (segments : list Segment) : bytes :=
  match segments with
  | [] => []
  | segment :: segments =>
      (if (0 <? index)%nat then segmentSeparator else []) ++ EncodeSegment segment ++ encodeSegments (S index) segments
  end.

Definition EncodeTranscript (segments : list Segment) : bytes :=
  if (length segments =? 0)%nat then [] else TranscriptFormatMarker ++ newline ++ encodeSegments 0 segments.

Definition FramedTranscript (segments : list Segment) : bytes :=
  if (length segments =? 0)%nat then [] else
  PreCompactionTranscriptOpen ++ newline ++ EncodeTranscript segments ++ newline ++ PreCompactionTranscriptClose.
End encode.

(** ** Parsing *)

(** Positions are byte offsets; [text[position:]] is [drop position text]. *)
Definition consumeLiteral (text : bytes) (position : nat) (literal : bytes) : option nat :=
  if HasPrefix (drop position text) literal then Some (position + length literal)%nat else None.

Definition consumeQuoted (text : bytes) (position : nat) : option (bytes * nat) :=
  quoted ← QuotedPrefix (drop position text);
  value ← Unquote quoted;
  Some (value, position + length quoted)%nat.

Definition consumeLength (text : bytes) (position : nat) : option (Z * nat) :=
  '(value, next) ← consumeQuoted text position;
  if bool_decide (value = []) || negb (bool_decide (value = TrimLeft value (lit "+-"))) then None else
  length ← Atoi value;
  if (length <? 0) || negb (bool_decide (Itoa length = value)) then None else Some (length, next).

Definition parseSegment (text : bytes) (position : nat) : option (Segment * nat) :=
  position ← consumeLiteral text position segmentRolePrefix;
  '(role, position) ← consumeQuoted text position;
  if negb (knownRole role) then None else
  position ← consumeLiteral text position segmentKindPrefix;
  '(kind, position) ← consumeQuoted text position;
  if negb (knownKind kind) then None else
  position ← consumeLiteral text position segmentBytesPrefix;
  '(len, position) ← consumeLength text position;
  position ← consumeLiteral text position segmentHeaderEnd;
  if (zlen text - Z.of_nat position <? len) then None else
  let body := take (Z.to_nat len) (drop position text) in
  position ← consumeLiteral text (position + Z.to_nat len)%nat segmentFooter;
  Some (MkSegment role kind body, position).

Definition closing : bytes := newline ++ PreCompactionTranscriptClose.

(** Every iteration consumes a segment, so the length of the text is enough fuel. *)
Fixpoint framedLoop (fuel : nat) (text : bytes) (position : nat) (segments : list Segment) : option (list Segment * nat) :=
  match fuel with
  | O => None
  | S fuel =>
      '(segment, next) ← parseSegment text position;
      let segments := segments ++ [segment] in
      if HasPrefix (drop next text) closing then Some (segments, next + length closing)%nat else
      if negb (HasPrefix (drop next text) segmentSeparator) then None else
      framedLoop fuel text (next + length segmentSeparator) segments
  end.

Definition parseFramedBody (text : bytes) (position : nat) : option (list Segment * nat) :=
  framedLoop (S (length text)) text position [].

Definition spanHeader : bytes := PreCompactionTranscriptOpen ++ newline ++ TranscriptFormatMarker ++ newline.

(** Every iteration moves the position forward. *)
Fixpoint spansLoop (fuel : nat) (text : bytes) (position : nat) : list TranscriptSpan :=
  match fuel with
  | O => []
  | S fuel =>
      if negb (position <? length text)%nat then [] else
      match Index (drop position text) spanHeader with
      | None => []
      | Some offset =>
          let start := (position + offset)%nat in
          match parseFramedBody text (start + length spanHeader) with
          | None => spansLoop fuel text (start + length spanHeader)
          | Some (segments, stop) => MkSpan start stop segments :: spansLoop fuel text stop
          end
      end
  end.

Definition ParseTranscriptSpans (text : bytes) : list TranscriptSpan := spansLoop (S (length text)) text 0.

(** ** Removing spans *)

Fixpoint outsideLoop (text : bytes) (previousEnd : nat) (spans : list TranscriptSpan) : bytes :=
  match spans with
  | [] => drop previousEnd text
  | span :: spans =>
      take (span_Start span - previousEnd) (drop previousEnd text) ++ outsideLoop text (span_End span) spans
  end.

Definition textOutsideSpans (text : bytes) (spans : list TranscriptSpan) : bytes := outsideLoop text 0 spans.

Definition RemoveTranscriptSpans (text : bytes) : bytes * bool :=
  let spans := ParseTranscriptSpans text in
  if (length spans =? 0)%nat then (text, false) else (textOutsideSpans text spans, true).

Definition ContainsTranscriptWrapper (text : bytes) : bool :=
  if Contains text spanHeader then true else
  existsb (fun heading => Contains text (PreCompactionTranscriptOpen ++ newline ++ lit "### " ++ heading ++ newline ++ newline))
    [lit "User"; lit "Assistant"; lit "System"; lit "Other"].

Definition CompleteTranscriptSpans (text : bytes) : list TranscriptSpan :=
  let spans := ParseTranscriptSpans text in
  if ContainsTranscriptWrapper (textOutsideSpans text spans) then [] else spans.

(** ** Reading what was written *)

#[export] Instance plainByte_dec b : Decision (plainByte b).
Proof. unfold plainByte. apply _. Defined.

Lemma HasPrefix_app l rest : HasPrefix (l ++ rest) l = true.
Proof. apply HasPrefix_spec. by exists rest. Qed.

Lemma drop_app_plus (text l rest : bytes) p : drop p text = l ++ rest -> drop (p + length l) text = rest.
Proof. intros H. rewrite <- drop_drop, H. apply drop_app_length. Qed.

Lemma consumeLiteral_at text p l rest :
  drop p text = l ++ rest -> consumeLiteral text p l = Some (p + length l)%nat.
Proof. intros H. unfold consumeLiteral. by rewrite H, HasPrefix_app. Qed.

Section roundtrip.
Variable isPrint : Z -> bool.

Lemma consumeQuoted_at text p s rest :
  Forall plainByte s -> drop p text = Quote isPrint s ++ rest ->
  consumeQuoted text p = Some (s, p + length (Quote isPrint s))%nat.
Proof.
  intros Hs H. unfold consumeQuoted. rewrite H, QuotedPrefix_Quote by done. cbn [mbind option_bind]. by rewrite Unquote_Quote.
Qed.

Lemma consumeLength_at text p n rest :
  0 <= n <= maxInt64 -> drop p text = Quote isPrint (Itoa n) ++ rest ->
  consumeLength text p = Some (n, p + length (Quote isPrint (Itoa n)))%nat.
Proof.
  intros Hn H. unfold consumeLength. rewrite (consumeQuoted_at _ _ _ _ (Itoa_plain n Hn) H). cbn [mbind option_bind].
  destruct (Itoa_digits n Hn) as (Hd & Hne & _). rewrite (bool_decide_eq_false_2 (Itoa n = [])) by done.
  assert (TrimLeft (Itoa n) (lit "+-") = Itoa n) as ->.
  { destruct (Itoa n) as [|b s]; [done|]. apply TrimLeft_digit. by apply Forall_cons in Hd as [? _]. }
  rewrite bool_decide_eq_true_2 by done. cbn [orb negb]. rewrite Atoi_Itoa by done. cbn [mbind option_bind].
  by rewrite (proj2 (Z.ltb_ge n 0)), bool_decide_eq_true_2 by (done || lia).
Qed.

(** A segment the encoder may be given: a known role and kind, and a text whose length
    is an [int]. *)
Definition goodSegment (s : Segment) : Prop :=
  knownRole (seg_Role s) = true /\ knownKind (seg_Kind s) = true /\ zlen (seg_Text s) <= maxInt64.

Lemma knownRole_plain role : knownRole role = true -> Forall plainByte role.
Proof.
  unfold knownRole. rewrite bool_decide_eq_true, !elem_of_cons. intros H.
  repeat destruct H as [->|H]; [..|by apply elem_of_nil in H]; apply (bool_decide_unpack (Forall plainByte _)); by vm_compute.
Qed.

Lemma knownKind_plain kind : knownKind kind = true -> Forall plainByte kind.
Proof.
  unfold knownKind. rewrite bool_decide_eq_true, !elem_of_cons. intros H.
  repeat destruct H as [->|H]; [..|by apply elem_of_nil in H]; apply (bool_decide_unpack (Forall plainByte _)); by vm_compute.
Qed.

Lemma parseSegment_at text p s rest :
  goodSegment s -> drop p text = EncodeSegment isPrint s ++ rest ->
  parseSegment text p = Some (s, p + length (EncodeSegment isPrint s))%nat.
Proof.
  intros (Hr & Hk & Hlen) H. unfold EncodeSegment in *. rewrite <- !app_assoc in H. unfold parseSegment.
  rewrite (consumeLiteral_at _ _ _ _ H). apply drop_app_plus in H. cbn [mbind option_bind].
  rewrite (consumeQuoted_at _ _ _ _ (knownRole_plain _ Hr) H). apply drop_app_plus in H. cbn [mbind option_bind].
  rewrite Hr. cbn [negb].
  rewrite (consumeLiteral_at _ _ _ _ H). apply drop_app_plus in H. cbn [mbind option_bind].
  rewrite (consumeQuoted_at _ _ _ _ (knownKind_plain _ Hk) H). apply drop_app_plus in H. cbn [mbind option_bind].
  rewrite Hk. cbn [negb].
  rewrite (consumeLiteral_at _ _ _ _ H). apply drop_app_plus in H. cbn [mbind option_bind].
  assert (0 <= zlen (seg_Text s) <= maxInt64) as Hl by (pose proof (zlen_nonneg (seg_Text s)); lia).
  rewrite (consumeLength_at _ _ _ _ Hl H). apply drop_app_plus in H. cbn [mbind option_bind].
  rewrite (consumeLiteral_at _ _ _ _ H). apply drop_app_plus in H. cbn [mbind option_bind].
  set (q := (_ + length segmentHeaderEnd)%nat) in *.
  rewrite (proj2 (Z.ltb_ge _ _)).
  2: { apply (f_equal length) in H. rewrite length_drop, !length_app in H. change (length segmentFooter) with 11%nat in H.
    unfold zlen. lia. }
  rewrite to_nat_zlen. rewrite H, take_app_length. apply drop_app_plus in H.
  rewrite (consumeLiteral_at _ _ _ _ H). cbn [mbind option_bind]. destruct s as [role kind body]. cbn [seg_Role seg_Kind seg_Text] in *. f_equal. f_equal.
  rewrite !length_app. unfold q. lia.
Qed.

Lemma encodeSegments_S n segs : encodeSegments isPrint (S n) segs = encodeSegments isPrint 1 segs.
Proof. revert n. induction segs as [|s segs IH]; intros n; [done|]. cbn. by rewrite (IH (S n)), (IH 1%nat). Qed.

Lemma framedLoop_at fuel text p acc s segs post :
  goodSegment s -> Forall goodSegment segs -> (length segs < fuel)%nat ->
  drop p text = EncodeSegment isPrint s ++ encodeSegments isPrint 1 segs ++ closing ++ post ->
  framedLoop fuel text p acc =
    Some (acc ++ s :: segs, p + length (EncodeSegment isPrint s ++ encodeSegments isPrint 1 segs ++ closing))%nat.
Proof.
  revert p acc s fuel. induction segs as [|s' segs IH]; intros p acc s [|fuel] Hs Hsegs Hf H; cbn in Hf; try lia;
    cbn [framedLoop]; rewrite (parseSegment_at _ _ _ _ Hs H); apply drop_app_plus in H; cbn [mbind option_bind].
  - rewrite H. cbn [encodeSegments app]. rewrite HasPrefix_app. f_equal. f_equal. rewrite !length_app. lia.
  - apply Forall_cons in Hsegs as [Hs' Hsegs]. cbn [encodeSegments] in *. rewrite encodeSegments_S in *.
    change ((0 <? 1)%nat) with true in *. cbn match in *. rewrite <- !app_assoc in H. rewrite H.
    replace (HasPrefix _ closing) with false by reflexivity. rewrite HasPrefix_app. cbn [negb].
    apply drop_app_plus in H. rewrite (IH _ _ s'); [|done|done|lia|done].
    f_equal. f_equal; [by rewrite <- app_assoc|]. rewrite !length_app. lia.
Qed.

Lemma encodeSegments_length n segs : (length segs <= length (encodeSegments isPrint n segs))%nat.
Proof.
  revert n. induction segs as [|s segs IH]; intros n; [done|]. cbn [encodeSegments length]. specialize (IH (S n)).
  rewrite !length_app. unfold EncodeSegment, segmentRolePrefix. rewrite length_app. cbn. lia.
Qed.
End roundtrip.

(** ** Positions *)

Lemma consumeLiteral_bounds text p l q :
  consumeLiteral text p l = Some q -> q = (p + length l)%nat /\ (length l <= length text - p)%nat.
Proof.
  unfold consumeLiteral. destruct (HasPrefix _ _) eqn:E; [|done]. intros [= <-]. split; [done|].
  apply HasPrefix_spec in E as [rest E]. apply (f_equal length) in E. rewrite length_drop, length_app in E. lia.
Qed.

Lemma consumeQuoted_bounds text p v q : consumeQuoted text p = Some (v, q) -> (p <= q)%nat.
Proof.
  unfold consumeQuoted. destruct (QuotedPrefix _) as [quoted|]; cbn; [|done]. destruct (Unquote quoted); cbn; [|done].
  intros [= _ <-]. lia.
Qed.

Lemma consumeLength_bounds text p n q : consumeLength text p = Some (n, q) -> (p <= q)%nat.
Proof.
  unfold consumeLength. destruct (consumeQuoted _ _) as [[v next]|] eqn:E; cbn; [|done]. apply consumeQuoted_bounds in E.
  destruct (_ || _); [done|]. destruct (Atoi v); cbn; [|done]. destruct (_ || _); [done|]. by intros [= _ <-].
Qed.

Lemma parseSegment_bounds text p s q : parseSegment text p = Some (s, q) -> (p < q <= length text)%nat.
Proof.
  unfold parseSegment. intros H.
  destruct (consumeLiteral _ _ segmentRolePrefix) as [p1|] eqn:E1; cbn [mbind option_bind negb] in H; [|done]. apply consumeLiteral_bounds in E1 as [-> _].
  destruct (consumeQuoted _ _) as [[role p2]|] eqn:E2; cbn [mbind option_bind negb] in H; [|done]. apply consumeQuoted_bounds in E2.
  destruct (knownRole role); cbn [mbind option_bind negb] in H; [|done].
  destruct (consumeLiteral _ _ segmentKindPrefix) as [p3|] eqn:E3; cbn [mbind option_bind negb] in H; [|done]. apply consumeLiteral_bounds in E3 as [-> _].
  destruct (consumeQuoted _ _) as [[kind p4]|] eqn:E4; cbn [mbind option_bind negb] in H; [|done]. apply consumeQuoted_bounds in E4.
  destruct (knownKind kind); cbn [mbind option_bind negb] in H; [|done].
  destruct (consumeLiteral _ _ segmentBytesPrefix) as [p5|] eqn:E5; cbn [mbind option_bind negb] in H; [|done]. apply consumeLiteral_bounds in E5 as [-> _].
  destruct (consumeLength _ _) as [[n p6]|] eqn:E6; cbn [mbind option_bind negb] in H; [|done]. apply consumeLength_bounds in E6.
  destruct (consumeLiteral _ _ segmentHeaderEnd) as [p7|] eqn:E7; cbn [mbind option_bind negb] in H; [|done]. apply consumeLiteral_bounds in E7 as [-> _].
  destruct (_ <? _); [done|].
  destruct (consumeLiteral _ _ segmentFooter) as [p8|] eqn:E8; cbn [mbind option_bind negb] in H; [|done]. apply consumeLiteral_bounds in E8 as [-> Hb].
  injection H as _ <-. unfold segmentRolePrefix, segmentFooter in *. cbn in *. lia.
Qed.

Lemma framedLoop_bounds fuel text p acc segs q :
  framedLoop fuel text p acc = Some (segs, q) -> (p < q <= length text)%nat.
Proof.
  revert p acc. induction fuel as [|fuel IH]; intros p acc; [done|]. cbn [framedLoop].
  destruct (parseSegment text p) as [[s next]|] eqn:E; cbn [mbind option_bind]; [|done]. apply parseSegment_bounds in E.
  destruct (HasPrefix _ closing) eqn:Ec.
  - intros [= _ <-]. apply HasPrefix_spec in Ec as [rest Ec]. apply (f_equal length) in Ec.
    rewrite length_drop, length_app in Ec. unfold closing in *. cbn in *. lia.
  - destruct (HasPrefix _ segmentSeparator); [|done]. cbn [negb]. intros H%IH. lia.
Qed.

Lemma parseSegment_beyond text p : (length text < p)%nat -> parseSegment text p = None.
Proof.
  intros H. unfold parseSegment, consumeLiteral. by rewrite drop_ge by lia.
Qed.

(** Enough fuel is as good as more. *)
Lemma framedLoop_fuel f1 f2 text p acc :
  (length text < f1 + p)%nat -> (length text < f2 + p)%nat -> framedLoop f1 text p acc = framedLoop f2 text p acc.
Proof.
  revert f2 p acc. induction f1 as [|f1 IH]; intros f2 p acc H1 H2.
  - destruct f2; [done|]. cbn [framedLoop]. by rewrite parseSegment_beyond by lia.
  - destruct f2 as [|f2]; [cbn [framedLoop]; by rewrite parseSegment_beyond by lia|]. cbn [framedLoop].
    destruct (parseSegment text p) as [[s next]|] eqn:E; cbn [mbind option_bind]; [|done]. apply parseSegment_bounds in E.
    destruct (HasPrefix _ closing); [done|]. destruct (HasPrefix _ segmentSeparator); [|done]. cbn [negb].
    apply IH; lia.
Qed.

Lemma spansLoop_fuel f1 f2 text p :
  (length text < f1 + p)%nat -> (length text < f2 + p)%nat -> spansLoop f1 text p = spansLoop f2 text p.
Proof.
  revert f2 p. induction f1 as [|f1 IH]; intros f2 p H1 H2.
  - destruct f2; [done|]. cbn [spansLoop]. by rewrite (proj2 (Nat.ltb_ge _ _)) by lia.
  - destruct f2 as [|f2]; [cbn [spansLoop]; by rewrite (proj2 (Nat.ltb_ge _ _)) by lia|]. cbn [spansLoop].
    destruct (Nat.ltb_spec p (length text)); [|done]. cbn [negb]. destruct (Index _ _) as [offset|]; [|done].
    destruct (parseFramedBody _ _) as [[segs stop]|] eqn:E.
    + apply framedLoop_bounds in E. f_equal. apply IH; lia.
    + change (length spanHeader) with 67%nat. apply IH; lia.
Qed.

(** *** Moving the origin *)

Definition shiftSpan (d : nat) (span : TranscriptSpan) : TranscriptSpan :=
  MkSpan (d + span_Start span) (d + span_End span) (span_Segments span).

Lemma consumeLiteral_shift text d p l :
  consumeLiteral text (d + p) l = Nat.add d <$> consumeLiteral (drop d text) p l.
Proof. unfold consumeLiteral. rewrite drop_drop. destruct (HasPrefix _ _); [|done]. cbn. f_equal. lia. Qed.

Lemma consumeQuoted_shift text d p :
  consumeQuoted text (d + p) = prod_map id (Nat.add d) <$> consumeQuoted (drop d text) p.
Proof.
  unfold consumeQuoted. rewrite drop_drop. destruct (QuotedPrefix _) as [quoted|]; [|done]. cbn [mbind option_bind].
  destruct (Unquote quoted); [|done]. cbn. do 2 f_equal. lia.
Qed.

Lemma consumeLength_shift text d p :
  consumeLength text (d + p) = prod_map id (Nat.add d) <$> consumeLength (drop d text) p.
Proof.
  unfold consumeLength. rewrite consumeQuoted_shift. destruct (consumeQuoted (drop d text) p) as [[v q]|]; [|done].
  cbn [mbind option_bind fmap option_fmap option_map prod_map fst snd id]. destruct (_ || _); [done|].
  destruct (Atoi v); [|done]. cbn [mbind option_bind]. by destruct (_ || _).
Qed.

Ltac shiftLiteral := rewrite consumeLiteral_shift;
  match goal with |- context [consumeLiteral (drop ?d ?text) ?p ?l] => destruct (consumeLiteral (drop d text) p l) as [?|] end; [|done];
  cbn [mbind option_bind fmap option_fmap option_map].

Ltac shiftPair lem f := rewrite lem;
  match goal with |- context [f (drop ?d ?text) ?p] => destruct (f (drop d text) p) as [[? ?]|] end; [|done];
  cbn [mbind option_bind fmap option_fmap option_map prod_map fst snd id].

Lemma parseSegment_shift text d p :
  (d <= length text)%nat ->
  parseSegment text (d + p) = prod_map id (Nat.add d) <$> parseSegment (drop d text) p.
Proof.
  intros Hd. unfold parseSegment.
  assert (forall q : nat, zlen text - Z.of_nat (d + q) = zlen (drop d text) - Z.of_nat q) as Hz.
  { intros q. unfold zlen. rewrite length_drop. lia. }
  shiftLiteral. shiftPair consumeQuoted_shift consumeQuoted. destruct (knownRole _); cbn [negb]; [|done].
  shiftLiteral. shiftPair consumeQuoted_shift consumeQuoted. destruct (knownKind _); cbn [negb]; [|done].
  shiftLiteral. shiftPair consumeLength_shift consumeLength. shiftLiteral. rewrite Hz. destruct (_ <? _); [done|].
  rewrite <- Nat.add_assoc. shiftLiteral. by rewrite drop_drop.
Qed.

Lemma framedLoop_shift fuel text d p acc :
  (d <= length text)%nat ->
  framedLoop fuel text (d + p) acc = prod_map id (Nat.add d) <$> framedLoop fuel (drop d text) p acc.
Proof.
  intros Hd. revert p acc. induction fuel as [|fuel IH]; intros p acc; [done|]. cbn [framedLoop].
  rewrite parseSegment_shift by done. destruct (parseSegment (drop d text) p) as [[s q]|]; [|done].
  cbn [mbind option_bind fmap option_fmap option_map prod_map fst snd id]. rewrite <- drop_drop.
  destruct (HasPrefix _ closing); [cbn; do 2 f_equal; lia|]. destruct (HasPrefix _ segmentSeparator); [|done]. cbn [negb].
  by rewrite <- Nat.add_assoc, IH.
Qed.

Lemma parseFramedBody_shift text d p :
  (d <= length text)%nat ->
  parseFramedBody text (d + p) = prod_map id (Nat.add d) <$> parseFramedBody (drop d text) p.
Proof.
  intros Hd. unfold parseFramedBody. rewrite framedLoop_shift by done. f_equal.
  apply framedLoop_fuel; rewrite length_drop; lia.
Qed.

Lemma spansLoop_shift fuel text d p :
  (d <= length text)%nat -> spansLoop fuel text (d + p) = map (shiftSpan d) (spansLoop fuel (drop d text) p).
Proof.
  intros Hd. revert p. induction fuel as [|fuel IH]; intros p; [done|]. cbn [spansLoop].
  rewrite length_drop. assert ((d + p <? length text)%nat = (p <? length text - d)%nat) as ->.
  { destruct (Nat.ltb_spec (d + p) (length text)), (Nat.ltb_spec p (length text - d)); (done || lia). }
  destruct (_ <? _)%nat; [|done]. cbn [negb]. rewrite drop_drop. destruct (Index _ _) as [offset|]; [|done].
  replace (d + p + offset + length spanHeader)%nat with (d + (p + offset + length spanHeader))%nat by lia.
  rewrite parseFramedBody_shift by done. destruct (parseFramedBody (drop d text) _) as [[segs stop]|]; cbn [fmap option_fmap option_map].
  - cbn [prod_map fst snd id map]. f_equal; [unfold shiftSpan; cbn; f_equal; lia|]. apply IH.
  - apply IH.
Qed.

Lemma outsideLoop_shift text d p spans :
  outsideLoop text (d + p) (map (shiftSpan d) spans) = outsideLoop (drop d text) p spans.
Proof.
  revert p. induction spans as [|span spans IH]; intros p; cbn; [by rewrite drop_drop|].
  rewrite drop_drop, IH. do 2 f_equal. lia.
Qed.

Lemma FramedTranscript_eq isPrint segs :
  segs <> [] -> FramedTranscript isPrint segs = spanHeader ++ encodeSegments isPrint 0 segs ++ closing.
Proof.
  intros H. unfold FramedTranscript, EncodeTranscript, spanHeader, closing. destruct segs as [|s segs]; [done|].
  cbn [length Nat.eqb]. by rewrite <- !app_assoc.
Qed.

(** The framed transcript at its place in a text. *)
Lemma parse_framed isPrint pre segs post :
  segs <> [] -> Forall goodSegment segs ->
  (forall k, (k < length pre)%nat -> HasPrefix (drop k (pre ++ FramedTranscript isPrint segs ++ post)) spanHeader = false) ->
  let n := length (pre ++ FramedTranscript isPrint segs) in
  ParseTranscriptSpans (pre ++ FramedTranscript isPrint segs ++ post) =
    MkSpan (length pre) n segs :: map (shiftSpan n) (ParseTranscriptSpans post).
Proof.
  intros Hne Hgood Hpre n. set (text := pre ++ FramedTranscript isPrint segs ++ post) in *.
  assert (drop (length pre) text = spanHeader ++ encodeSegments isPrint 0 segs ++ closing ++ post) as Hat.
  { unfold text. rewrite drop_app_length, FramedTranscript_eq by done. by rewrite <- !app_assoc. }
  assert (n = (length pre + length spanHeader + length (encodeSegments isPrint 0 segs ++ closing))%nat) as Hn.
  { unfold n. rewrite FramedTranscript_eq, !length_app by done. lia. }
  assert (n <= length text)%nat as Hle by (unfold text, n; rewrite (app_assoc pre), (length_app _ post); lia).
  assert (Index text spanHeader = Some (length pre)) as Hidx.
  { apply Index_Some. split_and!; [rewrite Hat; apply HasPrefix_app| |done]. unfold text. rewrite length_app. lia. }
  unfold ParseTranscriptSpans. cbn [spansLoop]. change (length spanHeader) with 67%nat in *.
  rewrite (proj2 (Nat.ltb_lt _ _)) by lia. cbn [negb]. rewrite drop_0, Hidx. cbn [Nat.add].
  assert (parseFramedBody text (length pre + 67) = Some (segs, n)) as ->.
  { apply (drop_app_plus _ spanHeader) in Hat. change (length spanHeader) with 67%nat in *. destruct segs as [|s segs]; [done|].
    apply Forall_cons in Hgood as [Hs Hsegs]. cbn [encodeSegments] in Hat, Hn. change ((0 <? 0)%nat) with false in *. cbn match in *.
    rewrite app_nil_l, <- !app_assoc in *. unfold parseFramedBody.
    rewrite (framedLoop_at isPrint _ _ _ [] s segs post Hs Hsegs).
    - rewrite Hn. done.
    - pose proof (encodeSegments_length isPrint 1 segs) as H. apply (f_equal length) in Hat.
      rewrite length_drop, !length_app in Hat. lia.
    - exact Hat. }
  f_equal. rewrite <- (Nat.add_0_r n) at 1. rewrite spansLoop_shift by done. f_equal.
  assert (drop n text = post) as -> by (unfold text, n; rewrite app_assoc; apply drop_app_length).
  apply (spansLoop_fuel (length text) (S (length post)) post 0); [|lia]. unfold text, n in *. rewrite !length_app in *. lia.
Qed.

(** C27. Framed transcripts survive any surroundings.  In a text in which the span header
    does not occur before it, a framed transcript of segments with known roles and kinds
    is found at its place and decodes to exactly those segments, even when their texts
    contain tags, footers or other transcripts; parsing goes on after it as if the rest
    stood alone, and removal deletes exactly the spans. *)
Theorem ParseTranscriptSpans_framed isPrint pre segs post :
  segs <> [] -> Forall goodSegment segs ->
  (forall k, (k < length pre)%nat -> HasPrefix (drop k (pre ++ FramedTranscript isPrint segs ++ post)) spanHeader = false) ->
  let n := length (pre ++ FramedTranscript isPrint segs) in
  ParseTranscriptSpans (pre ++ FramedTranscript isPrint segs ++ post) =
    MkSpan (length pre) n segs :: map (shiftSpan n) (ParseTranscriptSpans post) /\
  RemoveTranscriptSpans (pre ++ FramedTranscript isPrint segs ++ post) =
    (pre ++ textOutsideSpans post (ParseTranscriptSpans post), true).
Proof.
  intros Hne Hgood Hpre n. pose proof (parse_framed isPrint pre segs post Hne Hgood Hpre) as H. cbn zeta in H. fold n in H.
  split; [exact H|]. unfold RemoveTranscriptSpans. rewrite H. cbn [length Nat.eqb]. f_equal. unfold textOutsideSpans.
  cbn [outsideLoop span_Start span_End]. rewrite drop_0, Nat.sub_0_r, take_app_length. f_equal.
  rewrite <- (Nat.add_0_r n) at 1. rewrite outsideLoop_shift. f_equal. unfold n. rewrite app_assoc. apply drop_app_length.
Qed.

(** A segment whose text contains a footer and a close tag. *)
Definition sampleSegments : list Segment :=
  [MkSegment SegmentRoleUser SegmentKindChat (segmentFooter ++ closing); MkSegment SegmentRoleAssistant SegmentKindToolCall []].

Lemma ParseTranscriptSpans_framed_witness :
  let text := lit "intro " ++ FramedTranscript (fun _ => false) sampleSegments ++ lit " outro" in
  map span_Segments (ParseTranscriptSpans text) = [sampleSegments] /\
  RemoveTranscriptSpans text = (lit "intro  outro", true).
Proof.
  destruct (ParseTranscriptSpans_framed (fun _ => false) (lit "intro ") sampleSegments (lit " outro")) as [H1 H2].
  - discriminate.
  - repeat constructor; vm_compute; (reflexivity || discriminate).
  - intros k Hk. do 6 (destruct k as [|k]; [vm_compute; reflexivity|]). vm_compute in Hk. lia.
  - cbv zeta. rewrite H1, H2. split; vm_compute; reflexivity.
Defined.

(** ** Spans of any text *)

Lemma parseSegment_known text p s q :
  parseSegment text p = Some (s, q) -> knownRole (seg_Role s) = true /\ knownKind (seg_Kind s) = true.
Proof.
  unfold parseSegment. intros H.
  destruct (consumeLiteral _ _ segmentRolePrefix); cbn [mbind option_bind] in H; [|done].
  destruct (consumeQuoted _ _) as [[role ?]|]; cbn [mbind option_bind] in H; [|done].
  destruct (knownRole role) eqn:Er; cbn [negb] in H; [|done].
  destruct (consumeLiteral _ _ segmentKindPrefix); cbn [mbind option_bind] in H; [|done].
  destruct (consumeQuoted _ _) as [[kind ?]|]; cbn [mbind option_bind] in H; [|done].
  destruct (knownKind kind) eqn:Ek; cbn [negb] in H; [|done].
  destruct (consumeLiteral _ _ segmentBytesPrefix); cbn [mbind option_bind] in H; [|done].
  destruct (consumeLength _ _) as [[len ?]|]; cbn [mbind option_bind] in H; [|done].
  destruct (consumeLiteral _ _ segmentHeaderEnd); cbn [mbind option_bind] in H; [|done].
  destruct (_ <? _); [done|]. destruct (consumeLiteral _ _ segmentFooter); cbn [mbind option_bind] in H; [|done].
  by injection H as <- <-.
Qed.

Definition knownSegment (s : Segment) : Prop := knownRole (seg_Role s) = true /\ knownKind (seg_Kind s) = true.

Lemma framedLoop_known fuel text p acc segs q :
  Forall knownSegment acc -> framedLoop fuel text p acc = Some (segs, q) -> Forall knownSegment segs /\ segs <> [].
Proof.
  revert p acc. induction fuel as [|fuel IH]; intros p acc Hacc; [done|]. cbn [framedLoop].
  destruct (parseSegment text p) as [[s next]|] eqn:E; cbn [mbind option_bind]; [|done]. apply parseSegment_known in E.
  assert (Forall knownSegment (acc ++ [s])) as Hacc' by (apply Forall_app; split; [done|]; by constructor).
  destruct (HasPrefix _ closing); [intros [= <- _]; split; [done|]; by destruct acc|].
  destruct (HasPrefix _ segmentSeparator); [|done]. cbn [negb]. by apply IH.
Qed.

(** The spans lie in order in the text from [p] on; each starts with the header and
    carries segments with known roles and kinds. *)
Fixpoint spansFit (text : bytes) (p : nat) (spans : list TranscriptSpan) : Prop :=
  match spans with
  | [] => True
  | span :: spans =>
      (p <= span_Start span)%nat /\ (span_Start span + length spanHeader < span_End span <= length text)%nat /\
      HasPrefix (drop (span_Start span) text) spanHeader = true /\
      Forall knownSegment (span_Segments span) /\ span_Segments span <> [] /\ spansFit text (span_End span) spans
  end.

Lemma spansFit_mono text p q spans : (p <= q)%nat -> spansFit text q spans -> spansFit text p spans.
Proof. intros Hle. destruct spans as [|span spans]; [done|]. cbn [spansFit]. intros (H & ?). split; [lia|done]. Qed.

Lemma spansLoop_fit fuel text p : spansFit text p (spansLoop fuel text p).
Proof.
  revert p. induction fuel as [|fuel IH]; intros p; cbn [spansLoop]; [done|].
  destruct (Nat.ltb_spec p (length text)); [|done]. cbn [negb]. destruct (Index _ _) as [offset|] eqn:Ei; [|done].
  apply Index_Some in Ei as (Hh & _ & _). rewrite drop_drop in Hh.
  destruct (parseFramedBody _ _) as [[segs stop]|] eqn:E.
  - pose proof (framedLoop_bounds _ _ _ _ _ _ E). destruct (framedLoop_known _ _ _ _ _ _ (Forall_nil_2 _) E).
    cbn [spansFit span_Start span_End span_Segments]. split_and!; try done; [lia|lia|lia].
  - eapply spansFit_mono; [|apply IH]. lia.
Qed.

(** For every text the spans found lie in order, do not overlap and end inside the
    text, so cutting them out never slices out of range; each starts with the span
    header, has at least one segment, and only known roles and kinds. *)
Theorem ParseTranscriptSpans_fit text : spansFit text 0 (ParseTranscriptSpans text).
Proof. apply spansLoop_fit. Qed.
