(* ===== verification/CvKinds.v ===== *)
(** * CvKinds: content kinds and load rules (conversation/contentkind.go, loadrules.go)

    A content-kind set says what an export shows; a load-rules tag stores with every search
    row which record kinds were loaded when its message index was computed.  The theorems:
    resolving selectors keeps exactly one tool kind, the most detailed one selected; and a
    stored tag reads back as the gate it was written under. *)

From S2P Require Import Prelude GoUtf8 GoStrconv GoText.

Open Scope Z_scope.

(** ** Kinds *)

(** A kind is a string; these are the ones the program names. *)
Definition ContentKindChat : bytes := lit "chat".
Definition ContentKindThinking : bytes := lit "thinking".
Definition ContentKindToolSummaries : bytes := lit "tools".
Definition ContentKindToolCalls : bytes := lit "tool_calls".
Definition ContentKindToolOutputs : bytes := lit "tool_outputs".
Definition ContentKindSystemPrompts : bytes := lit "system_prompts".
Definition ContentKindSystemMessages : bytes := lit "system_messages".
Definition ContentKindInjected : bytes := lit "injected".
Definition ContentKindRawJSONMetadata : bytes := lit "raw_json_metadata".

Definition AllContentKinds : list bytes :=
  [ContentKindChat; ContentKindThinking; ContentKindToolSummaries; ContentKindToolCalls; ContentKindToolOutputs;
   ContentKindSystemPrompts; ContentKindSystemMessages; ContentKindInjected; ContentKindRawJSONMetadata].

Definition contentSelectorAll : bytes := lit "all".

Definition allSelectorContentKinds : list bytes :=
  filter (fun kind => kind <> ContentKindToolSummaries /\ kind <> ContentKindToolCalls) AllContentKinds.

Definition ExpandContentSelector (value : bytes) : option (list bytes) :=
  let trimmed := TrimSpace value in
  if decide (trimmed = contentSelectorAll) then Some allSelectorContentKinds else
  if decide (trimmed ∈ AllContentKinds) then Some [trimmed] else None.

(** ** Sets *)

Record ContentKindSet := MkContentKindSet { cks_members : gset bytes }.

Definition collapseToolContentKinds (members : gset bytes) : gset bytes :=
  if decide (ContentKindToolOutputs ∈ members)
  then members ∖ {[ContentKindToolCalls]} ∖ {[ContentKindToolSummaries]}
  else if decide (ContentKindToolCalls ∈ members) then members ∖ {[ContentKindToolSummaries]} else members.

Definition NewContentKindSet (kinds : list bytes) : ContentKindSet :=
  MkContentKindSet (collapseToolContentKinds (list_to_set kinds)).

Definition Has (s : ContentKindSet) (kind : bytes) : bool := bool_decide (kind ∈ cks_members s).

Definition Kinds (s : ContentKindSet) : list bytes := filter (fun kind => kind ∈ cks_members s) AllContentKinds.

Definition Empty (s : ContentKindSet) : bool := bool_decide (cks_members s = ∅).

Inductive resolveError := errUnknownKind (value : bytes) | errNoKinds.

Fixpoint resolveLoop (values : list bytes) (members : gset bytes) : outcome resolveError (gset bytes) :=
  match values with
  | [] => Ok members
  | value :: values =>
      if decide (TrimSpace value = []) then resolveLoop values members else
      match ExpandContentSelector value with
      | None => Fail (errUnknownKind value)
      | Some kinds => resolveLoop values (members ∪ list_to_set kinds)
      end
  end.

Definition ResolveContentKinds (values : list bytes) : outcome resolveError ContentKindSet :=
  members ← resolveLoop values ∅;
  let members := collapseToolContentKinds members in
  if decide (members = ∅) then Fail errNoKinds else Ok (MkContentKindSet members).

(** ** Load rules *)

Definition loadRulesTagVersionV1 : bytes := lit "v1;".

Definition loadGatedContentKinds : list bytes :=
  [ContentKindToolOutputs; ContentKindSystemPrompts; ContentKindSystemMessages; ContentKindInjected].

Definition LoadRulesTag (kinds : ContentKindSet) : bytes :=
  loadRulesTagVersionV1 ++ Join (filter (fun kind => Has kinds kind = true) loadGatedContentKinds) (lit ",").

(** The part of [LoadOptions] the tag controls. *)
Record LoadOptions := MkLoadOptions {
  lo_IncludeSystemPrompts : bool;
  lo_IncludeSystemMessages : bool;
  lo_IncludeToolOutputs : bool;
  lo_IncludeInjected : bool;
}.

Definition defaultOptions : LoadOptions := MkLoadOptions false false false false.

Definition applyRule (options : LoadOptions) (name : bytes) : LoadOptions :=
  let kind := TrimSpace name in
  let '(MkLoadOptions prompts messages outputs injected) := options in
  if decide (kind = ContentKindToolOutputs) then MkLoadOptions prompts messages true injected else
  if decide (kind = ContentKindSystemPrompts) then MkLoadOptions true messages outputs injected else
  if decide (kind = ContentKindSystemMessages) then MkLoadOptions prompts true outputs injected else
  if decide (kind = ContentKindInjected) then MkLoadOptions prompts messages outputs true else options.

Definition LoadOptionsForRules (tag : bytes) : LoadOptions * bool :=
  if decide (tag = []) then (defaultOptions, true) else
  match CutPrefix tag loadRulesTagVersionV1 with
  | None => (defaultOptions, false)
  | Some list => (foldl applyRule defaultOptions (Split list (lit ",")), true)
  end.

(** ** Selectors *)

(** What the selector values name, before tool kinds are collapsed. *)
Definition named (values : list bytes) (kind : bytes) : Prop :=
  exists value kinds, value ∈ values /\ TrimSpace value <> [] /\ ExpandContentSelector value = Some kinds /\ kind ∈ kinds.

Lemma resolveLoop_spec values members :
  match resolveLoop values members with
  | Ok out => (forall value, value ∈ values -> TrimSpace value <> [] -> is_Some (ExpandContentSelector value)) /\
      forall kind, kind ∈ out <-> kind ∈ members \/ named values kind
  | Fail e => exists value, e = errUnknownKind value /\ value ∈ values /\ TrimSpace value <> [] /\ ExpandContentSelector value = None
  | Panic => False
  end.
Proof.
  revert members. induction values as [|value values IH]; intros members; cbn [resolveLoop].
  { split; [by intros value ?%elem_of_nil|]. intros kind. split; [tauto|]. intros [|(v & ks & Hv & _)]; [done|].
    by apply elem_of_nil in Hv. }
  assert (forall kind, named (value :: values) kind <->
    (TrimSpace value <> [] /\ exists kinds, ExpandContentSelector value = Some kinds /\ kind ∈ kinds) \/ named values kind) as Hn.
  { intros kind. unfold named. setoid_rewrite elem_of_cons. split.
    - intros (v & ks & [->|Hv] & Ht & He & Hk); [left|right]; eauto 10.
    - intros [(Ht & ks & He & Hk)|(v & ks & Hv & Ht & He & Hk)]; eauto 10. }
  destruct (decide (TrimSpace value = [])) as [Eb|Eb].
  - specialize (IH members). destruct (resolveLoop values members) as [out|e|]; [|destruct IH as (v & -> & Hv & H)|done].
    + destruct IH as [Hall Hout]. split; [intros v [->|Hv]%elem_of_cons; [done|by apply Hall]|].
      intros kind. rewrite Hout, Hn. tauto.
    + exists v. split; [done|]. split; [by apply list_elem_of_further|done].
  - destruct (ExpandContentSelector value) as [kinds|] eqn:Ee.
    + specialize (IH (members ∪ list_to_set kinds)). destruct (resolveLoop values _) as [out|e|]; [|destruct IH as (v & -> & Hv & H)|done].
      * destruct IH as [Hall Hout]. split; [intros v [->|Hv]%elem_of_cons; [by rewrite Ee|by apply Hall]|].
        intros kind. rewrite Hout, Hn, elem_of_union, elem_of_list_to_set. split.
        -- intros [[?|?]|?]; [by left| |by right; right]. right. left. eauto.
        -- intros [?|[(_ & ks & He & Hk)|?]]; [tauto| |tauto]. left. right. congruence.
      * exists v. split; [done|]. split; [by apply list_elem_of_further|done].
    + exists value. split_and!; [done|apply list_elem_of_here|done|done].
Qed.

(** The tool kinds, from the least to the most detailed. *)
Definition toolKind (kind : bytes) : Prop :=
  kind ∈ [ContentKindToolSummaries; ContentKindToolCalls; ContentKindToolOutputs].

(** [kind] is named and no more detailed tool kind is. *)
Definition kept (values : list bytes) (kind : bytes) : Prop :=
  named values kind /\
  (kind = ContentKindToolCalls -> ~ named values ContentKindToolOutputs) /\
  (kind = ContentKindToolSummaries -> ~ named values ContentKindToolOutputs /\ ~ named values ContentKindToolCalls).

Lemma collapse_spec members kind :
  kind ∈ collapseToolContentKinds members <->
  kind ∈ members /\ (kind = ContentKindToolCalls -> ContentKindToolOutputs ∉ members) /\
  (kind = ContentKindToolSummaries -> (ContentKindToolOutputs ∉ members) /\ (ContentKindToolCalls ∉ members)).
Proof.
  assert (ContentKindToolCalls <> ContentKindToolSummaries) as Hne by done.
  unfold collapseToolContentKinds. destruct (decide (ContentKindToolOutputs ∈ members)) as [Ho|Ho].
  - rewrite !elem_of_difference, !elem_of_singleton. tauto.
  - destruct (decide (ContentKindToolCalls ∈ members)) as [Hc|Hc].
    + rewrite elem_of_difference, elem_of_singleton. tauto.
    + tauto.
Qed.

(** Resolving selectors.  It succeeds exactly when every value that is not blank is a
    known selector and some value is not blank; the set then has every kind the values
    name, except that of the tool kinds it keeps only the most detailed one named. *)
Theorem ResolveContentKinds_exact values :
  match ResolveContentKinds values with
  | Ok s => (forall value, value ∈ values -> TrimSpace value <> [] -> is_Some (ExpandContentSelector value)) /\
      (forall kind, Has s kind = true <-> kept values kind) /\
      (forall a b, toolKind a -> toolKind b -> Has s a = true -> Has s b = true -> a = b)
  | Fail (errUnknownKind value) => value ∈ values /\ TrimSpace value <> [] /\ ExpandContentSelector value = None
  | Fail errNoKinds => forall kind, ~ kept values kind
  | Panic => False
  end.
Proof.
  unfold ResolveContentKinds. pose proof (resolveLoop_spec values ∅) as H.
  destruct (resolveLoop values ∅) as [out|e|]; cbn [mbind outcome_bind]; [|by destruct H as (v & -> & H)|done].
  destruct H as [Hall Hout].
  assert (forall kind, kind ∈ out <-> named values kind) as Hin by (intros kind; rewrite Hout; by rewrite elem_of_empty; tauto).
  assert (forall kind, kind ∈ collapseToolContentKinds out <-> kept values kind) as Hk.
  { intros kind. rewrite collapse_spec, !Hin. done. }
  destruct (decide (collapseToolContentKinds out = ∅)) as [E|E].
  - intros kind. rewrite <- Hk, E. apply not_elem_of_empty.
  - split; [done|]. unfold Has. cbn [cks_members]. split; [intros kind; by rewrite bool_decide_eq_true|].
    intros a b Ha Hb. rewrite !bool_decide_eq_true, !Hk. unfold kept, toolKind in *. rewrite !elem_of_cons, elem_of_nil in *.
    destruct Ha as [->|[->|[->|[]]]], Hb as [->|[->|[->|[]]]]; tauto.
Qed.

(** ** Tags *)

(** The gate a kind set stands for. *)
Definition gateOf (kinds : ContentKindSet) : LoadOptions :=
  MkLoadOptions (Has kinds ContentKindSystemPrompts) (Has kinds ContentKindSystemMessages)
    (Has kinds ContentKindToolOutputs) (Has kinds ContentKindInjected).

(** A stored tag reads back as the rules it was written under: the gate rebuilt from
    the tag of a kind set has exactly the load-gated kinds of that set, and the tag is
    recognised. *)
Theorem LoadOptionsForRules_LoadRulesTag kinds :
  LoadOptionsForRules (LoadRulesTag kinds) = (gateOf kinds, true).
Proof.
  unfold LoadRulesTag, gateOf, loadGatedContentKinds. rewrite !filter_cons.
  generalize (Has kinds ContentKindToolOutputs), (Has kinds ContentKindSystemPrompts),
    (Has kinds ContentKindSystemMessages), (Has kinds ContentKindInjected).
  intros [] [] [] []; vm_compute; reflexivity.
Qed.
