(* ===== verification/RiPlan.v ===== *)
(** * RiPlan: splitting a conversation for compaction (reorientinject/contract.go, plan.go, splitter.go, unframed.go)

    When a client compacts a conversation, the proxy keeps the newest part of it verbatim:
    it counts segments from the newest message back until the token budget is used, sends
    the older part to be summarised, and inserts the newer part, framed, under the summary.

    The token counter, the wire protocol of the provider, the export-argument parser and
    the instructions file are parameters.  The theorems: an accepted plan is under the
    budget and the byte cap and its cut lies in the counted region; the text it retains
    decodes, inside the injection, to exactly the segments after the cut; the boundary
    segment keeps the longest tail that fits; unframed text is reconstructed only when
    every candidate agrees.  One more shows that the byte cap is lost when the wrapper is
    as large as the cap. *)

From S2P Require Import Prelude GoUtf8 GoStrconv GoFloat RtSegments CvKinds.

Open Scope Z_scope.

(** ** The request *)

Inductive SegmentKind := KindText | KindThinking | KindToolUse | KindToolResult | KindImage | KindOther.

Record Segment := MkPart {
  part_Kind : SegmentKind;
  part_Text : bytes;
  part_Atomic : bool;
}.

Definition RoleUser : bytes := lit "user".
Definition RoleAssistant : bytes := lit "assistant".
Definition RoleSystem : bytes := lit "system".
Definition RoleOther : bytes := lit "other".

Record Message := MkMessage {
  msg_Role : bytes;
  msg_Segments : list Segment;
}.

Record ParsedRequest := MkParsedRequest {
  pr_SessionID : bytes;
  pr_Messages : list Message;
  pr_RetainStart : Z;
  pr_InstructionStart : Z;
  pr_Arguments : list bytes;
}.

Record Cut := MkCut {
  cut_MessageIndex : Z;
  cut_SegmentIndex : Z;
  cut_HeadRunes : Z;
}.

Record plan := MkPlan {
  plan_Cut : Cut;
  plan_Retained : bytes;
  plan_RetainedTokens : Z;
}.

(** ** Frames *)

Definition frameRole (role : bytes) : bytes :=
  if decide (role = RoleUser) then SegmentRoleUser else
  if decide (role = RoleAssistant) then SegmentRoleAssistant else
  if decide (role = RoleSystem) then SegmentRoleSystem else SegmentRoleOther.

Definition textFrameKind (role : bytes) : bytes :=
  if decide (role = RoleUser \/ role = RoleAssistant) then SegmentKindChat else
  if decide (role = RoleSystem) then SegmentKindSystem else SegmentKindOther.

Definition frameKind (role : bytes) (kind : SegmentKind) : bytes :=
  match kind with
  | KindText => textFrameKind role
  | KindThinking => SegmentKindThinking
  | KindToolUse => SegmentKindToolCall
  | KindToolResult => SegmentKindToolOutput
  | KindImage | KindOther => SegmentKindOther
  end.

Definition frameSegment (role : bytes) (segment : Segment) (text : bytes) : RtSegments.Segment :=
  MkSegment (frameRole role) (frameKind role (part_Kind segment)) text.

(** [tailRunes]; [[]rune(text)] decodes malformed bytes to U+FFFD. *)
Definition tailRunes (text : bytes) (headRunes : Z) : bytes :=
  if headRunes <=? 0 then text else
  let runes := runesOf text in
  if zlen runes <=? headRunes then [] else stringOfRunes (drop (Z.to_nat headRunes) runes).

Section plan.
Variable isPrint : Z -> bool.
(** The token counter. *)
Variable estimate : bytes -> Z.

Abbreviation encode := (EncodeSegment isPrint).

(** ** Planning *)

(** The binary search; the search interval shrinks in every iteration. *)
Fixpoint headLoop (fuel : nat) (runes : list Z) (budget low high tail : Z) : Z :=
  match fuel with
  | O => tail
  | S fuel =>
      if high <? low then tail else
      let middle := (low + high) / 2 in
      if estimate (stringOfRunes (drop (Z.to_nat (zlen runes - middle)) runes)) <? budget
      then headLoop fuel runes budget (middle + 1) high middle
      else headLoop fuel runes budget low (middle - 1) tail
  end.

Definition headRunesThatFit (text : bytes) (budget : Z) : Z :=
  let runes := runesOf text in
  zlen runes - headLoop (S (S (length runes))) runes budget 0 (zlen runes) 0.

Section included.
Variable include : SegmentKind -> bool.
Variable request : ParsedRequest.

(** The segments of one message that go into the retained text. *)
Fixpoint retainedParts (cut : Cut) (messageIndex : Z) (role : bytes) (segmentIndex : Z) (segments : list Segment)
  : list RtSegments.Segment :=
  match segments with
  | [] => []
  | segment :: segments =>
      let rest := retainedParts cut messageIndex role (segmentIndex + 1) segments in
      if (messageIndex =? cut_MessageIndex cut) && (segmentIndex <? cut_SegmentIndex cut) then rest else
      if negb (include (part_Kind segment)) then rest else
      let text := if (messageIndex =? cut_MessageIndex cut) && (segmentIndex =? cut_SegmentIndex cut)
                  then tailRunes (part_Text segment) (cut_HeadRunes cut) else part_Text segment in
      if decide (TrimSpace text = []) then rest else frameSegment role segment text :: rest
  end.

(** Over the messages [messageIndex], [messageIndex + 1], ...; an index outside the
    request panics. *)
Fixpoint retainedFrom (cut : Cut) (count : nat) (messageIndex : Z) : outcome unit (list RtSegments.Segment) :=
  match count with
  | O => Ok []
  | S count =>
      match pr_Messages request !! Z.to_nat messageIndex with
      | None => Panic
      | Some message =>
          rest ← retainedFrom cut count (messageIndex + 1);
          Ok (retainedParts cut messageIndex (msg_Role message) 0 (msg_Segments message) ++ rest)
      end
  end.

Definition retainedSegments (cut : Cut) : outcome unit (list RtSegments.Segment) :=
  retainedFrom cut (Z.to_nat (pr_InstructionStart request - cut_MessageIndex cut)) (cut_MessageIndex cut).

Definition retainedText (cut : Cut) : outcome unit bytes :=
  segments ← retainedSegments cut; Ok (EncodeTranscript isPrint segments).

(** A result of [ok == false] is [Fail tt]. *)
Definition finishPlan (cut : Cut) : outcome unit plan :=
  retained ← retainedText cut;
  if decide (retained = []) then Fail tt else Ok (MkPlan cut retained 0).

(** What the scan of segments says: go on with the tokens used and the cut so far, or the
    boundary segment was found. *)
Inductive scan := scanMore (used : Z) (cut : Cut) | scanBoundary (cut : Cut).

(** The inner loop, over the segments of a message from the last to the first. *)
Fixpoint scanSegments (budget messageIndex : Z) (role : bytes) (backward : list (Z * Segment)) (used : Z) (cut : Cut) : scan :=
  match backward with
  | [] => scanMore used cut
  | (segmentIndex, segment) :: backward =>
      if negb (include (part_Kind segment)) then scanSegments budget messageIndex role backward used cut else
      let count := estimate (encode (frameSegment role segment (part_Text segment))) in
      if used + count <? budget
      then scanSegments budget messageIndex role backward (used + count) (MkCut messageIndex segmentIndex 0)
      else
      let head := if part_Atomic segment then zlen (runesOf (part_Text segment)) else
        let overhead := estimate (encode (frameSegment role segment [])) in
        headRunesThatFit (part_Text segment) (budget - used - overhead) in
      scanBoundary (MkCut messageIndex segmentIndex head)
  end.

Definition backwardSegments (segments : list Segment) : list (Z * Segment) :=
  rev (imap (fun i segment => (Z.of_nat i, segment)) segments).

(** The outer loop, down from [messageIndex]. *)
Fixpoint scanMessages (count : nat) (budget messageIndex used : Z) (cut : Cut) : outcome unit scan :=
  match count with
  | O => Ok (scanMore used cut)
  | S count =>
      match pr_Messages request !! Z.to_nat messageIndex with
      | None => Panic
      | Some message =>
          match scanSegments budget messageIndex (msg_Role message) (backwardSegments (msg_Segments message)) used cut with
          | scanMore used cut => scanMessages count budget (messageIndex - 1) used cut
          | scanBoundary cut => Ok (scanBoundary cut)
          end
      end
  end.

Definition planOnce (budget : Z) : outcome unit plan :=
  let used := estimate (TranscriptFormatMarker ++ newline) in
  let start := pr_RetainStart request in
  let stop := pr_InstructionStart request in
  result ← scanMessages (Z.to_nat (stop - start)) budget (stop - 1) used (MkCut (-1) 0 0);
  match result with
  | scanBoundary cut => finishPlan cut
  | scanMore _ cut =>
      if cut_MessageIndex cut <? 0 then Fail tt else
      if (cut_MessageIndex cut =? start) && (cut_HeadRunes cut =? 0) then
        if stop <=? start + 1 then Fail tt else finishPlan (MkCut (start + 1) 0 0)
      else finishPlan cut
  end.

Definition planAttempts : nat := 4.

(** The re-planning loop of [planCut]. *)
Fixpoint planLoop (attempts : nat) (budget maxBytes planningBudget : Z) : outcome unit plan :=
  match attempts with
  | O => Fail tt
  | S attempts =>
      candidate ← planOnce planningBudget;
      let tokens := estimate (plan_Retained candidate) in
      let size := zlen (plan_Retained candidate) in
      if (tokens <? budget) && ((maxBytes <=? 0) || (size <=? maxBytes))
      then Ok (MkPlan (plan_Cut candidate) (plan_Retained candidate) tokens) else
      let overage := tokens - budget + 1 in
      let overage :=
        if (0 <? maxBytes) && (maxBytes <? size)
        then Z.max overage (tokens - f64int (f64div (f64mul (f64 tokens) (f64 maxBytes)) (f64 size)) + 1)
        else overage in
      let planningBudget := planningBudget - overage in
      if planningBudget <=? 0 then Fail tt else planLoop attempts budget maxBytes planningBudget
  end.

Definition planCut (budget maxBytes : Z) : outcome unit plan :=
  if (budget <=? 0) || (pr_RetainStart request <? 0) || (pr_InstructionStart request <=? pr_RetainStart request)
  then Fail tt else planLoop planAttempts budget maxBytes budget.

(** ** The shape of a plan *)

Lemma scanSegments_cut budget messageIndex role backward used cut :
  match scanSegments budget messageIndex role backward used cut with
  | scanMore _ cut' => cut' = cut \/ cut_MessageIndex cut' = messageIndex
  | scanBoundary cut' => cut_MessageIndex cut' = messageIndex
  end.
Proof.
  revert used cut. induction backward as [|[segmentIndex segment] backward IH]; intros used cut; cbn [scanSegments]; [by left|].
  destruct (include _); cbn [negb]; [|apply IH]. cbv zeta. destruct (_ <? budget); [|done].
  specialize (IH (used + estimate (encode (frameSegment role segment (part_Text segment)))) (MkCut messageIndex segmentIndex 0)).
  destruct (scanSegments _ _ _ _ _ _); [|done]. destruct IH as [->|]; by right.
Qed.

(** The cut found lies among the messages scanned. *)
Lemma scanMessages_cut count budget messageIndex used cut result :
  0 <= messageIndex - Z.of_nat count + 1 ->
  scanMessages count budget messageIndex used cut = Ok result ->
  let inRange c := messageIndex - Z.of_nat count < cut_MessageIndex c <= messageIndex in
  match result with
  | scanMore _ cut' => cut' = cut \/ inRange cut'
  | scanBoundary cut' => inRange cut'
  end.
Proof.
  revert messageIndex used cut. induction count as [|count IH]; intros messageIndex used cut Hc; cbn [scanMessages].
  { intros [= <-]. by left. }
  destruct (_ !! _) as [message|]; [|done].
  pose proof (scanSegments_cut budget messageIndex (msg_Role message) (backwardSegments (msg_Segments message)) used cut) as Hs.
  destruct (scanSegments _ _ _ _ _ _) as [used' cut'|cut'].
  - intros H. specialize (IH (messageIndex - 1) used' cut' ltac:(lia) H). destruct result as [u c|c]; cbn in *; [|lia].
    destruct IH as [->|]; [|right; lia]. destruct Hs as [->|Hs]; [by left|right; lia].
  - intros [= <-]. cbn. lia.
Qed.

Lemma scanMessages_no_panic count budget messageIndex used cut :
  0 <= messageIndex - Z.of_nat count + 1 -> messageIndex < zlen (pr_Messages request) ->
  scanMessages count budget messageIndex used cut <> Panic.
Proof.
  revert messageIndex used cut. induction count as [|count IH]; intros messageIndex used cut Hc Hm; cbn [scanMessages]; [done|].
  destruct (lookup_lt_is_Some_2 (pr_Messages request) (Z.to_nat messageIndex)) as [message ->]; [unfold zlen in Hm; lia|].
  destruct (scanSegments _ _ _ _ _ _); [|done]. apply IH; lia.
Qed.

Lemma retainedFrom_no_panic cut count messageIndex :
  0 <= messageIndex -> messageIndex + Z.of_nat count <= zlen (pr_Messages request) ->
  exists segments, retainedFrom cut count messageIndex = Ok segments.
Proof.
  revert messageIndex. induction count as [|count IH]; intros messageIndex H0 Hm; cbn [retainedFrom]; [by eexists|].
  destruct (lookup_lt_is_Some_2 (pr_Messages request) (Z.to_nat messageIndex)) as [message ->]; [unfold zlen in Hm; lia|].
  destruct (IH (messageIndex + 1)) as [rest ->]; [lia|lia|]. by eexists.
Qed.

(** What an accepted plan is. *)
Definition planned (p : plan) : Prop :=
  pr_RetainStart request <= cut_MessageIndex (plan_Cut p) < pr_InstructionStart request /\
  exists segments, retainedSegments (plan_Cut p) = Ok segments /\ segments <> [] /\
    plan_Retained p = EncodeTranscript isPrint segments.

Lemma finishPlan_spec cut :
  0 <= pr_RetainStart request -> pr_InstructionStart request <= zlen (pr_Messages request) ->
  pr_RetainStart request <= cut_MessageIndex cut < pr_InstructionStart request ->
  match finishPlan cut with Ok p => planned p /\ plan_Cut p = cut | Fail _ => True | Panic => False end.
Proof.
  intros H0 Hm Hc. unfold finishPlan, retainedText.
  destruct (retainedFrom_no_panic cut (Z.to_nat (pr_InstructionStart request - cut_MessageIndex cut)) (cut_MessageIndex cut))
    as [segments Hs]; [lia|lia|]. fold (retainedSegments cut) in Hs. rewrite Hs. cbn [mbind outcome_bind].
  destruct (decide _) as [E|E]; [done|]. split; [|done]. split; [done|]. exists segments. split_and!; [done| |done].
  by intros ->.
Qed.

Lemma planOnce_spec budget :
  0 <= pr_RetainStart request < pr_InstructionStart request -> pr_InstructionStart request <= zlen (pr_Messages request) ->
  match planOnce budget with Ok p => planned p | Fail _ => True | Panic => False end.
Proof.
  intros H0 Hm. unfold planOnce. set (start := pr_RetainStart request) in *. set (stop := pr_InstructionStart request) in *.
  pose proof (scanMessages_no_panic (Z.to_nat (stop - start)) budget (stop - 1) (estimate (TranscriptFormatMarker ++ newline)) (MkCut (-1) 0 0)
    ltac:(lia) ltac:(lia)) as Hnp.
  pose proof (scanMessages_cut (Z.to_nat (stop - start)) budget (stop - 1) (estimate (TranscriptFormatMarker ++ newline)) (MkCut (-1) 0 0)) as Hcut.
  destruct (scanMessages _ _ _ _ _) as [result|e|]; cbn [mbind outcome_bind]; [|done|done].
  specialize (Hcut result ltac:(lia) eq_refl). cbn zeta in Hcut. rewrite Z2Nat.id in Hcut by lia.
  assert (forall cut, start <= cut_MessageIndex cut < stop ->
    match finishPlan cut with Ok p => planned p | Fail _ => True | Panic => False end) as Hfin.
  { intros cut Hc. pose proof (finishPlan_spec cut (proj1 H0) Hm Hc) as H. destruct (finishPlan cut); [by destruct H|done|done]. }
  destruct result as [used cut|cut]; [|apply Hfin; lia].
  destruct (Z.ltb_spec (cut_MessageIndex cut) 0); [done|].
  destruct Hcut as [->|Hcut]; [cbn in *; lia|].
  destruct (_ && _); [|apply Hfin; lia]. destruct (Z.leb_spec stop (start + 1)); [done|]. apply Hfin. cbn. lia.
Qed.

Lemma planLoop_spec attempts budget maxBytes planningBudget :
  0 <= pr_RetainStart request < pr_InstructionStart request -> pr_InstructionStart request <= zlen (pr_Messages request) ->
  match planLoop attempts budget maxBytes planningBudget with
  | Ok p => planned p /\ plan_RetainedTokens p = estimate (plan_Retained p) /\ plan_RetainedTokens p < budget /\
      (0 < maxBytes -> zlen (plan_Retained p) <= maxBytes)
  | Fail _ => True
  | Panic => False
  end.
Proof.
  intros H0 Hm. revert planningBudget. induction attempts as [|attempts IH]; intros planningBudget; cbn [planLoop]; [done|].
  pose proof (planOnce_spec planningBudget H0 Hm) as Hp. destruct (planOnce planningBudget) as [candidate|e|]; [|done|done].
  cbn [mbind outcome_bind]. cbv zeta. destruct (_ && _) eqn:E.
  - reflect_bools. cbn. split_and!; [exact Hp|done|done|]. intros Hmax. apply orb_true_iff in H1 as [H1|H1]; reflect_bools; lia.
  - match goal with |- context [if ?b then Fail tt else _] => destruct b end; [done|]. apply IH.
Qed.

(** ** The retained segments *)

Lemma frame_known role segment text :
  knownRole (seg_Role (frameSegment role segment text)) = true /\ knownKind (seg_Kind (frameSegment role segment text)) = true.
Proof.
  cbn. split.
  - unfold frameRole. repeat case_decide; reflexivity.
  - unfold frameKind, textFrameKind. destruct (part_Kind segment); repeat case_decide; reflexivity.
Qed.

Lemma EncodeRune_length r : (length (EncodeRune r) <= 4)%nat.
Proof. unfold EncodeRune. repeat case_match; cbn; lia. Qed.

Lemma stringOfRunes_length rs : (length (stringOfRunes rs) <= 4 * length rs)%nat.
Proof.
  unfold stringOfRunes. induction rs as [|r rs IH]; [done|]. cbn. rewrite length_app. pose proof (EncodeRune_length r). lia.
Qed.

Lemma runesLoop_length fuel s : (length (runesLoop fuel s) <= length s)%nat.
Proof.
  revert s. induction fuel as [|fuel IH]; intros s; cbn [runesLoop]; [cbn; lia|]. destruct s as [|b s]; [done|].
  pose proof (DecodeRune_width b s) as Hw. destruct (DecodeRune (b :: s)) as [r width]. cbn [snd] in Hw.
  cbn [length]. specialize (IH (drop width (b :: s))). rewrite length_drop in IH. cbn [length] in *. lia.
Qed.

Lemma tailRunes_length text head : zlen (tailRunes text head) <= 4 * zlen text.
Proof.
  unfold tailRunes, zlen. destruct (_ <=? 0); [lia|]. destruct (_ <=? head); [cbn; lia|].
  pose proof (stringOfRunes_length (drop (Z.to_nat head) (runesOf text))). rewrite length_drop in *.
  pose proof (runesLoop_length (length text) text). unfold runesOf in *. lia.
Qed.

(** Texts far below the size limit of Go strings. *)
Definition sizesFit : Prop :=
  forall message segment, message ∈ pr_Messages request -> segment ∈ msg_Segments message ->
    4 * zlen (part_Text segment) <= maxInt64.

Lemma retainedParts_good cut messageIndex role segmentIndex segments :
  (forall segment, segment ∈ segments -> 4 * zlen (part_Text segment) <= maxInt64) ->
  Forall goodSegment (retainedParts cut messageIndex role segmentIndex segments).
Proof.
  revert segmentIndex. induction segments as [|segment segments IH]; intros segmentIndex Hs; cbn [retainedParts]; [constructor|].
  assert (Forall goodSegment (retainedParts cut messageIndex role (segmentIndex + 1) segments)) as Hrest.
  { apply IH. intros x Hx. by apply Hs, list_elem_of_further. }
  destruct (_ && (segmentIndex <? _)); [done|]. destruct (negb _); [done|]. cbv zeta.
  match goal with |- context [decide (TrimSpace ?t = [])] => set (text := t) end. destruct (decide (TrimSpace text = [])); [done|]. constructor; [|done].
  destruct (frame_known role segment text) as [Hr Hk]. split_and!; [done|done|]. cbn.
  specialize (Hs segment (list_elem_of_here _ _)). pose proof (tailRunes_length (part_Text segment) (cut_HeadRunes cut)).
  unfold text. pose proof (zlen_nonneg (part_Text segment)). destruct (_ && _); lia.
Qed.

Lemma retainedFrom_good cut count messageIndex segments :
  sizesFit -> retainedFrom cut count messageIndex = Ok segments -> Forall goodSegment segments.
Proof.
  intros Hf. revert messageIndex segments. induction count as [|count IH]; intros messageIndex segments; cbn [retainedFrom].
  { intros [= <-]. constructor. }
  destruct (_ !! _) as [message|] eqn:Em; [|done]. destruct (retainedFrom cut count _) as [rest| |] eqn:Er; cbn [mbind outcome_bind]; try done.
  intros [= <-]. apply Forall_app. split; [|by eapply IH].
  apply retainedParts_good. intros segment Hin. eapply Hf; [|exact Hin]. by eapply list_elem_of_lookup_2.
Qed.
End included.

(** ** The boundary segment *)

(** The last [n] runes of a text. *)
Definition lastRunes (runes : list Z) (n : Z) : bytes := stringOfRunes (drop (Z.to_nat (zlen runes - n)) runes).

Lemma headLoop_spec fuel runes budget low high tail :
  (forall m n, 0 <= m <= n -> n <= zlen runes -> estimate (lastRunes runes m) <= estimate (lastRunes runes n)) ->
  0 <= tail <= low -> tail <= zlen runes -> low <= tail + 1 -> high <= zlen runes -> low <= high + 1 -> (high - low + 1 < Z.of_nat fuel) ->
  (tail = 0 \/ estimate (lastRunes runes tail) < budget) ->
  (forall m, high < m <= zlen runes -> budget <= estimate (lastRunes runes m)) ->
  let n := headLoop fuel runes budget low high tail in
  0 <= n <= zlen runes /\ (n = 0 \/ estimate (lastRunes runes n) < budget) /\
  forall m, n < m <= zlen runes -> budget <= estimate (lastRunes runes m).
Proof.
  intros Hmono. revert low high tail. induction fuel as [|fuel IH]; intros low high tail Ht Htz Hlt Hh Hlh Hf Hfit Hno; [lia|].
  cbn [headLoop]. destruct (Z.ltb_spec high low) as [E|E].
  - cbv zeta. split_and!; [lia|lia|done|]. intros m Hm. apply Hno. lia.
  - set (middle := (low + high) / 2). assert (low <= middle <= high) as Hmid.
    { unfold middle. split; [apply Z.div_le_lower_bound; lia|apply Z.div_le_upper_bound; lia]. }
    fold (lastRunes runes middle). destruct (Z.ltb_spec (estimate (lastRunes runes middle)) budget) as [Ef|Ef].
    + apply IH; try lia; done.
    + apply IH; try lia. intros m Hm. specialize (Hmono middle m ltac:(lia) ltac:(lia)). lia.
Qed.
End plan.

(** An accepted plan keeps its promises.  With the instructions inside the request,
    [planCut] never indexes out of range, and a plan it accepts measures strictly under
    the token budget, is within the byte cap when there is one, has its cut in the counted
    region, and retains exactly the encoding of the segments from the cut on. *)
Theorem planCut_sound isPrint estimate include request budget maxBytes :
  pr_InstructionStart request <= zlen (pr_Messages request) ->
  match planCut isPrint estimate include request budget maxBytes with
  | Ok p => plan_RetainedTokens p = estimate (plan_Retained p) /\ plan_RetainedTokens p < budget /\
      (0 < maxBytes -> zlen (plan_Retained p) <= maxBytes) /\
      pr_RetainStart request <= cut_MessageIndex (plan_Cut p) < pr_InstructionStart request /\
      exists segments, retainedSegments include request (plan_Cut p) = Ok segments /\ segments <> [] /\
        plan_Retained p = EncodeTranscript isPrint segments
  | Fail _ => True
  | Panic => False
  end.
Proof.
  intros Hm. unfold planCut. destruct (_ || _) eqn:E; [done|]. reflect_bools.
  pose proof (planLoop_spec isPrint estimate include request planAttempts budget maxBytes budget ltac:(lia) Hm) as Hl.
  destruct (planLoop _ _ _ _ _ _ _ _) as [p| |]; [|done|done]. destruct Hl as ([Hc Hs] & Ht & Hb & Hx). split_and!; try done; lia.
Qed.

(** C20. What is injected can be read back.  The injection built from an accepted plan
    contains, right after its leading blank line, a framed transcript that decodes to
    exactly the segments retained from the cut on, whatever their texts contain; without
    operator instructions it is the only transcript in the injection. *)
Theorem planCut_injection_recovered isPrint estimate include request budget maxBytes instructions p :
  pr_InstructionStart request <= zlen (pr_Messages request) -> sizesFit request ->
  planCut isPrint estimate include request budget maxBytes = Ok p ->
  exists segments span rest, retainedSegments include request (plan_Cut p) = Ok segments /\
    ParseTranscriptSpans (WrapInjection (plan_Retained p) instructions) = span :: rest /\
    span_Start span = 2%nat /\ span_Segments span = segments /\ (instructions = [] -> rest = []).
Proof.
  intros Hm Hf Hp. unfold planCut in Hp. destruct (_ || _) eqn:E; [done|]. reflect_bools.
  pose proof (planLoop_spec isPrint estimate include request planAttempts budget maxBytes budget ltac:(lia) Hm) as Hl.
  rewrite Hp in Hl. destruct Hl as ([_ (segments & Hs & Hne & Hr)] & _).
  pose proof (retainedFrom_good include request _ _ _ _ Hf Hs) as Hgood.
  set (post := newline ++ (if decide (instructions = []) then [] else newline ++ CompactionInstructionsOpen ++ newline ++
    instructions ++ newline ++ CompactionInstructionsClose ++ newline)).
  assert (WrapInjection (plan_Retained p) instructions = (newline ++ newline) ++ FramedTranscript isPrint segments ++ post) as ->.
  { rewrite Hr. unfold WrapInjection, FramedTranscript, post. destruct segments as [|s segments]; [done|].
    change (length (s :: segments) =? 0)%nat with false. cbn match. by rewrite <- !app_assoc. }
  exists segments. eexists. eexists. split; [done|].
  rewrite (parse_framed isPrint (newline ++ newline) segments post Hne Hgood); [split_and!; [done|done|done|]|].
  - intros ->. done.
  - intros k Hk. cbn in Hk. destruct k as [|[|k]]; [reflexivity|reflexivity|lia].
Qed.

(** The boundary segment keeps as much as fits.  When the counter gives no longer tail
    of the text fewer tokens than a shorter one, [headRunesThatFit] leaves the longest
    tail that measures under the budget: that tail fits (or is empty), and every longer
    one does not. *)
Theorem headRunesThatFit_longest estimate text budget :
  let runes := runesOf text in
  (forall m n, 0 <= m <= n -> n <= zlen runes -> estimate (lastRunes runes m) <= estimate (lastRunes runes n)) ->
  let n := zlen runes - headRunesThatFit estimate text budget in
  0 <= n <= zlen runes /\ (n = 0 \/ estimate (lastRunes runes n) < budget) /\
  forall m, n < m <= zlen runes -> budget <= estimate (lastRunes runes m).
Proof.
  intros runes Hmono n. unfold n, headRunesThatFit. fold runes.
  replace (zlen runes - (zlen runes - headLoop estimate (S (S (length runes))) runes budget 0 (zlen runes) 0))
    with (headLoop estimate (S (S (length runes))) runes budget 0 (zlen runes) 0) by lia.
  pose proof (zlen_nonneg runes). apply headLoop_spec; try lia; [done|unfold zlen; lia].
Qed.

(** ** The splitter *)

Definition DefaultMaxTokens : Z := 500000.

Record Settings := MkSettings {
  set_DefaultBudget : Z;
  set_DefaultContent : ContentKindSet;
  set_MaxRetainedBytes : Z;
  set_InstructionsFile : bytes;
}.

Record Result := MkResult {
  res_Forwarded : bytes;
  res_Injection : bytes;
}.

(** What the splitter is built from: the provider of the wire protocol, the counter, the
    parser of export arguments (the [max-tokens] text and the content kinds), the parser
    of human-readable counts, and the file system. *)
Record splitterEnv := MkSplitterEnv {
  env_isPrint : Z -> bool;
  env_Estimate : bytes -> Z;
  env_ParseCompaction : bytes -> option ParsedRequest;
  env_Truncate : bytes -> Cut -> Z -> option bytes;
  env_ParseArguments : list bytes -> option (bytes * ContentKindSet);
  env_ParseHumanCount : bytes -> option Z;
  env_ReadFile : bytes -> option bytes;
}.

Definition NewSplitter (settings : Settings) : Settings :=
  if set_DefaultBudget settings <=? 0
  then MkSettings DefaultMaxTokens (set_DefaultContent settings) (set_MaxRetainedBytes settings) (set_InstructionsFile settings)
  else settings.

Definition includeFor (selected : ContentKindSet) (kind : SegmentKind) : bool :=
  if Empty selected then true else
  match kind with
  | KindText | KindOther => Has selected ContentKindChat
  | KindThinking => Has selected ContentKindThinking
  | KindToolUse => Has selected ContentKindToolCalls || Has selected ContentKindToolSummaries || Has selected ContentKindToolOutputs
  | KindToolResult => Has selected ContentKindToolOutputs
  | KindImage => false
  end.

Definition instructions (env : splitterEnv) (settings : Settings) : bytes :=
  if decide (set_InstructionsFile settings = []) then [] else
  match env_ReadFile env (set_InstructionsFile settings) with
  | None => []
  | Some content => TrimSpace content
  end.

Definition options (env : splitterEnv) (settings : Settings) (args : list bytes) : Z * (SegmentKind -> bool) :=
  let budget := set_DefaultBudget settings in
  let selected := set_DefaultContent settings in
  if (length args =? 0)%nat then (budget, includeFor selected) else
  match env_ParseArguments env args with
  | None => (budget, includeFor selected)
  | Some (maxTokens, content) =>
      let budget :=
        if decide (maxTokens = []) then budget else
        match env_ParseHumanCount env maxTokens with
        | None => budget
        | Some parsed => if 0 <? parsed then parsed else budget
        end in
      (budget, includeFor (if Empty content then selected else content))
  end.

(** [Splitter.Plan] with a provider and a counter; [Fail tt] forwards the request as it is. *)
Definition Plan (env : splitterEnv) (settings : Settings) (body : bytes) : outcome unit Result :=
  match env_ParseCompaction env body with
  | None => Fail tt
  | Some parsed =>
      let '(budget, include) := options env settings (pr_Arguments parsed) in
      let instr := instructions env settings in
      let maxBytes := set_MaxRetainedBytes settings in
      let maxBytes := if 0 <? maxBytes then maxBytes - zlen (WrapInjection [] instr) else maxBytes in
      p ← planCut (env_isPrint env) (env_Estimate env) include parsed budget maxBytes;
      match env_Truncate env body (plan_Cut p) (pr_InstructionStart parsed) with
      | None => Fail tt
      | Some forwarded => Ok (MkResult forwarded (WrapInjection (plan_Retained p) instr))
      end
  end.

Lemma WrapInjection_length transcript instr :
  zlen (WrapInjection transcript instr) = zlen transcript + zlen (WrapInjection [] instr).
Proof. unfold WrapInjection. rewrite !zlen_app, zlen_nil. lia. Qed.

(** The byte cap holds when it leaves room.  With a byte cap larger than the wrapper
    and the instructions, the injection of a planned split, wrapper included, is at most
    the cap, and its retained text measures under the budget in force. *)
Theorem Plan_within_cap env settings body parsed result :
  env_ParseCompaction env body = Some parsed -> pr_InstructionStart parsed <= zlen (pr_Messages parsed) ->
  zlen (WrapInjection [] (instructions env settings)) < set_MaxRetainedBytes settings ->
  Plan env settings body = Ok result ->
  zlen (res_Injection result) <= set_MaxRetainedBytes settings /\
  exists retained, res_Injection result = WrapInjection retained (instructions env settings) /\
    env_Estimate env retained < (options env settings (pr_Arguments parsed)).1.
Proof.
  intros Hparse Hm Hroom. unfold Plan. rewrite Hparse. destruct (options _ _ _) as [budget include]. cbv zeta.
  pose proof (zlen_nonneg (WrapInjection [] (instructions env settings))).
  rewrite (proj2 (Z.ltb_lt 0 _)) by lia. set (cap := set_MaxRetainedBytes settings - _) in *.
  unfold planCut. destruct (_ || _) eqn:E; [done|]. reflect_bools.
  pose proof (planLoop_spec (env_isPrint env) (env_Estimate env) include parsed planAttempts budget cap budget ltac:(lia) Hm) as Hl.
  destruct (planLoop _ _ _ _ _ _ _ _) as [p| |]; cbn [mbind outcome_bind]; [|done|done].
  destruct Hl as (_ & Ht & Hb & Hx). destruct (env_Truncate _ _ _ _) as [forwarded|]; [|done]. intros [= <-]. cbn [res_Injection fst].
  specialize (Hx ltac:(unfold cap; lia)). rewrite WrapInjection_length. split; [unfold cap in Hx; lia|].
  exists (plan_Retained p). split; [done|]. lia.
Qed.

(** A conversation of two user messages and the compaction prompt; the counter counts
    bytes. *)
Definition sampleRequest : ParsedRequest :=
  MkParsedRequest (lit "s")
    [MkMessage RoleUser [MkPart KindText (lit "old question") false];
     MkMessage RoleAssistant [MkPart KindText (lit "recent answer") false];
     MkMessage RoleUser [MkPart KindText (lit "compact") false]] 0 2 [].

Definition sampleEnv : splitterEnv :=
  MkSplitterEnv (fun _ => false) zlen (fun _ => Some sampleRequest) (fun body _ _ => Some body) (fun _ => None) (fun _ => None)
    (fun _ => None).

(** The byte cap is lost when the wrapper fills it.  With a cap of 10 bytes, less than
    the wrapper alone, the remaining cap is negative, which [planCut] reads as no cap: the
    split still goes ahead with an injection far over the cap. *)
Theorem Plan_cap_lost :
  exists result, Plan sampleEnv (MkSettings 200 (MkContentKindSet ∅) 10 []) [] = Ok result /\
    zlen (res_Injection result) = 173.
Proof. eexists. split; vm_compute; reflexivity. Qed.

Lemma planCut_sound_witness :
  match planCut (fun _ => false) zlen (fun _ => true) sampleRequest 200 300 with
  | Ok p => plan_RetainedTokens p < 200 /\ cut_MessageIndex (plan_Cut p) = 1
  | _ => False
  end.
Proof.
  pose proof (planCut_sound (fun _ => false) zlen (fun _ => true) sampleRequest 200 300 ltac:(vm_compute; discriminate)) as H.
  assert (match planCut (fun _ => false) zlen (fun _ => true) sampleRequest 200 300 with
    Ok p => cut_MessageIndex (plan_Cut p) = 1 | _ => False end) as Hc by (vm_compute; reflexivity).
  destruct (planCut _ _ _ _ _ _) as [p| |]; [|destruct Hc|destruct Hc]. split; [apply H|exact Hc].
Defined.

Lemma planCut_injection_recovered_witness :
  exists p span rest, planCut (fun _ => false) zlen (fun _ => true) sampleRequest 200 300 = Ok p /\
    ParseTranscriptSpans (WrapInjection (plan_Retained p) []) = span :: rest /\ rest = [] /\
    map seg_Text (span_Segments span) = [lit "recent answer"].
Proof.
  assert (match planCut (fun _ => false) zlen (fun _ => true) sampleRequest 200 300 with
    | Ok p => retainedSegments (fun _ => true) sampleRequest (plan_Cut p) =
        Ok [MkSegment SegmentRoleAssistant SegmentKindChat (lit "recent answer")]
    | _ => False end) as Hs by (vm_compute; reflexivity).
  destruct (planCut (fun _ => false) zlen (fun _ => true) sampleRequest 200 300) as [p| |] eqn:Hp; [|destruct Hs|destruct Hs].
  destruct (planCut_injection_recovered (fun _ => false) zlen (fun _ => true) sampleRequest 200 300 [] p)
    as (segments & span & rest & Hseg & Hparse & _ & Hspan & Hrest).
  - vm_compute. discriminate.
  - intros message segment Hmsg Hin. unfold sampleRequest in Hmsg. cbn [pr_Messages] in Hmsg.
    rewrite !elem_of_cons in Hmsg. destruct Hmsg as [->|[->|[->|Hn%elem_of_nil]]]; [..|destruct Hn];
      cbn [msg_Segments] in Hin; apply list_elem_of_singleton in Hin as ->; vm_compute; discriminate.
  - exact Hp.
  - exists p, span, rest. split; [reflexivity|]. split; [exact Hparse|]. split; [by apply Hrest|].
    rewrite Hspan. rewrite Hs in Hseg. injection Hseg as <-. reflexivity.
Defined.

Lemma headRunesThatFit_longest_witness :
  headRunesThatFit zlen (lit "recent answer") 7 = 7 /\
  forall m, 6 < m <= 13 -> 7 <= zlen (lastRunes (runesOf (lit "recent answer")) m).
Proof.
  assert (headRunesThatFit zlen (lit "recent answer") 7 = 7) as E by (vm_compute; reflexivity).
  split; [exact E|]. intros m Hm.
  destruct (headRunesThatFit_longest zlen (lit "recent answer") 7) as (_ & _ & H).
  - change (zlen (runesOf (lit "recent answer"))) with 13. intros a b Hab Hb.
    assert (forall k, 0 <= k <= 13 -> zlen (lastRunes (runesOf (lit "recent answer")) k) = k) as Hlen.
    { intros k Hk. assert (k = 0 \/ k = 1 \/ k = 2 \/ k = 3 \/ k = 4 \/ k = 5 \/ k = 6 \/ k = 7 \/ k = 8 \/ k = 9 \/ k = 10 \/
        k = 11 \/ k = 12 \/ k = 13) as Hc by lia. repeat destruct Hc as [->|Hc]; [..|subst k]; vm_compute; reflexivity. }
    rewrite !Hlen by lia. lia.
  - apply H. rewrite E. change (zlen (runesOf (lit "recent answer"))) with 13. lia.
Defined.

Lemma Plan_within_cap_witness :
  exists result, Plan sampleEnv (MkSettings 200 (MkContentKindSet ∅) 300 []) [] = Ok result /\ zlen (res_Injection result) <= 300.
Proof.
  assert (match Plan sampleEnv (MkSettings 200 (MkContentKindSet ∅) 300 []) [] with Ok _ => True | _ => False end) as Ho
    by (vm_compute; exact I).
  destruct (Plan sampleEnv (MkSettings 200 (MkContentKindSet ∅) 300 []) []) as [result| |] eqn:Hr; [|destruct Ho|destruct Ho].
  exists result. split; [reflexivity|].
  refine (proj1 (Plan_within_cap sampleEnv (MkSettings 200 (MkContentKindSet ∅) 300 []) [] sampleRequest result _ _ _ Hr)).
  - reflexivity.
  - vm_compute. discriminate.
  - vm_compute. reflexivity.
Defined.

(** ** Unframed transcripts *)

Definition unframedHeadingPrefix : bytes := lit "### ".
Definition unframedSeparator : bytes := newline ++ newline.
Definition unframedOtherHeading : bytes := lit "Other".

Definition unframedHeading (role : bytes) : bytes :=
  if decide (role = RoleUser) then lit "User" else
  if decide (role = RoleAssistant) then lit "Assistant" else
  if decide (role = RoleSystem) then lit "System" else unframedOtherHeading.

Record unframedCandidate := MkCandidate {
  uc_message : Z;
  uc_segment : Z;
  uc_text : bytes;
}.

Section unframed.
Variable request : ParsedRequest.

(** The segments of one message in the unframed format; [written] counts those before. *)
Fixpoint renderParts (start : unframedCandidate) (messageIndex : Z) (role : bytes) (segmentIndex written : Z)
    (segments : list Segment) : bytes :=
  match segments with
  | [] => []
  | segment :: segments =>
      let skip := renderParts start messageIndex role (segmentIndex + 1) written segments in
      if (messageIndex =? uc_message start) && (segmentIndex <? uc_segment start) then skip else
      if decide (TrimSpace (part_Text segment) = []) then skip else
      (if written =? 0 then unframedSeparator ++ unframedHeadingPrefix ++ unframedHeading role else []) ++
      unframedSeparator ++ part_Text segment ++ renderParts start messageIndex role (segmentIndex + 1) (written + 1) segments
  end.

(** The messages from [messageIndex] up to the instructions; all indices are in range. *)
Fixpoint renderMessages (start : unframedCandidate) (headingWritten : bool) (messageIndex : Z) (messages : list Message) : bytes :=
  match messages with
  | [] => []
  | message :: messages =>
      let written := if (messageIndex =? uc_message start) && headingWritten then 1 else 0 in
      renderParts start messageIndex (msg_Role message) 0 written (msg_Segments message) ++
      renderMessages start headingWritten (messageIndex + 1) messages
  end.

(** [request.Messages[from:InstructionStart]]. *)
Definition countedFrom (from : Z) : list Message := slice (pr_Messages request) from (pr_InstructionStart request).

Definition renderUnframed (start : unframedCandidate) (headingWritten : bool) : bytes :=
  TrimRight (renderMessages start headingWritten (uc_message start) (countedFrom (uc_message start)))
    ([Byte.x20; Byte.x09; Byte.x0d; Byte.x0a]).

Definition unframedTails (messageIndex : Z) (role : bytes) (segmentIndex : Z) (segment : Segment) (text : bytes) : list bytes :=
  match CutPrefix text (unframedHeadingPrefix ++ unframedHeading role ++ unframedSeparator) with
  | None => []
  | Some body =>
      let following := renderUnframed (MkCandidate messageIndex (segmentIndex + 1) []) true in
      if negb (HasSuffix body following) then [] else
      let tail := TrimSuffix body following in
      if decide (TrimSpace tail = []) then [] else
      if negb (HasSuffix (part_Text segment) tail) then [] else
      if part_Atomic segment && negb (bool_decide (TrimSpace tail = TrimSpace (part_Text segment))) then [] else [tail]
  end.

Fixpoint unframedParts (start : unframedCandidate) (messageIndex : Z) (role : bytes) (segmentIndex : Z) (segments : list Segment)
  : list RtSegments.Segment :=
  match segments with
  | [] => []
  | segment :: segments =>
      let rest := unframedParts start messageIndex role (segmentIndex + 1) segments in
      if (messageIndex =? uc_message start) && (segmentIndex <? uc_segment start) then rest else
      let text := if (messageIndex =? uc_message start) && (segmentIndex =? uc_segment start) then uc_text start
                  else part_Text segment in
      if decide (TrimSpace text = []) then rest else frameSegment role segment text :: rest
  end.

Fixpoint unframedMessages (start : unframedCandidate) (messageIndex : Z) (messages : list Message) : list RtSegments.Segment :=
  match messages with
  | [] => []
  | message :: messages =>
      unframedParts start messageIndex (msg_Role message) 0 (msg_Segments message) ++
      unframedMessages start (messageIndex + 1) messages
  end.

Definition unframedSegments (start : unframedCandidate) : list RtSegments.Segment :=
  unframedMessages start (uc_message start) (countedFrom (uc_message start)).

(** The candidates, in the order the loops visit them. *)
Definition candidates (text : bytes) : list unframedCandidate :=
  concat (imap (fun i message =>
    let messageIndex := pr_RetainStart request + Z.of_nat i in
    concat (imap (fun j segment =>
      map (MkCandidate messageIndex (Z.of_nat j)) (unframedTails messageIndex (msg_Role message) (Z.of_nat j) segment text))
      (msg_Segments message)))
    (countedFrom (pr_RetainStart request))).

#[export] Instance Segment_eq_dec : EqDecision RtSegments.Segment.
Proof. solve_decision. Defined.

(** The body of the innermost loop on the reconstruction found so far and its count. *)
Definition reconstructStep (state : list RtSegments.Segment * Z) (candidate : unframedCandidate) : list RtSegments.Segment * Z :=
  let '(found, matchCount) := state in
  let segments := unframedSegments candidate in
  if (0 <? matchCount) && bool_decide (found = segments) then (found, matchCount) else (segments, matchCount + 1).

Definition ReconstructUnframedTranscript (text : bytes) : option (list RtSegments.Segment) :=
  let '(found, matchCount) := foldl reconstructStep ([], 0) (candidates text) in
  if negb (matchCount =? 1) then None else Some found.
End unframed.

Lemma reconstruct_count request cs found n :
  1 <= n ->
  1 <= (foldl (reconstructStep request) (found, n) cs).2 /\
  n <= (foldl (reconstructStep request) (found, n) cs).2 /\
  ((foldl (reconstructStep request) (found, n) cs).2 = n <-> forall c, c ∈ cs -> unframedSegments request c = found) /\
  ((foldl (reconstructStep request) (found, n) cs).2 = n -> (foldl (reconstructStep request) (found, n) cs).1 = found).
Proof.
  revert found n. induction cs as [|c cs IH]; intros found n Hn.
  { cbn. split_and!; [lia|lia|split; [by intros _ c ?%elem_of_nil|done]|done]. }
  cbn [foldl]. unfold reconstructStep at 2 4 6 8 10. rewrite (proj2 (Z.ltb_lt 0 n)) by lia. cbn [andb].
  destruct (bool_decide (found = unframedSegments request c)) eqn:E; reflect_bools.
  - destruct (IH found n Hn) as (H1 & H2 & H3 & H4). split_and!; [lia|lia| |done]. rewrite H3. split.
    + intros H x [->|Hx]%elem_of_cons; [done|by apply H].
    + intros H x Hx. by apply H, list_elem_of_further.
  - destruct (IH (unframedSegments request c) (n + 1) ltac:(lia)) as (H1 & H2 & _). split_and!; [lia|lia| |lia]. split; [lia|].
    intros H. destruct E. symmetry. apply H, list_elem_of_here.
Qed.

(** Unframed text is reconstructed only when it is unambiguous: the result is a list
    of segments exactly when some retained segment can start the text and all that can
    give these same segments. *)
Theorem ReconstructUnframedTranscript_unique request text segments :
  ReconstructUnframedTranscript request text = Some segments <->
  candidates request text <> [] /\ forall c, c ∈ candidates request text -> unframedSegments request c = segments.
Proof.
  unfold ReconstructUnframedTranscript. destruct (candidates request text) as [|c cs].
  { split; [done|]. by intros [? _]. }
  cbn [foldl]. unfold reconstructStep at 2. cbn [Z.ltb Z.compare andb].
  destruct (reconstruct_count request cs (unframedSegments request c) (0 + 1) ltac:(lia)) as (_ & Hle & Hiff & Hfound).
  destruct (foldl _ _ cs) as [found n]. cbn [fst snd] in *. destruct (Z.eqb_spec n 1) as [->|Hn]; cbn [negb].
  - rewrite (Hfound eq_refl). split.
    + intros [= <-]. split; [done|]. intros x [->|Hx]%elem_of_cons; [done|]. by apply (proj1 Hiff).
    + intros [_ H]. f_equal. apply H, list_elem_of_here.
  - split; [done|]. intros [_ H]. destruct Hn. apply Hiff. intros x Hx.
    rewrite (H x (list_elem_of_further _ _ _ Hx)). symmetry. apply H, list_elem_of_here.
Qed.
