(* ===== verification/CvCompaction.v ===== *)
(** * CvCompaction: compacted conversations (conversation/compaction.go, compaction_segments.go)

    A transcript marks where its harness compacted the context: boundaries, their
    summaries, and micro-boundaries.  [CompactionCheckpoints] groups these markers,
    [CompactionSegments] cuts the transcript at them into segments numbered from the newest,
    and [SelectCompactionSegments] picks segments by a textual selector.

    The theorems: the segments cover the whole transcript without gap or overlap, and the
    code never indexes out of range; a selection is exactly the selected segments, oldest
    first; and the number of a segment, as text, selects that segment. *)

From S2P Require Import Prelude GoUtf8 GoStrconv GoText.

Open Scope Z_scope.

(** ** Transcript messages *)

Inductive CompactionKind := CompactionKindBoundary | CompactionKindMicroboundary | CompactionKindSummary | CompactionKindUnknown (name : bytes).

Definition MessageVisibilityMetaOnly : bytes := lit "meta_only".
Definition CompactionTriggerUnknown : bytes := lit "unknown".

Section conversation.
(** A compacted context item, which this code only copies. *)
Context {Item : Type}.

(** The metadata and message fields this code reads. *)
Record CompactionMetadata := MkMetadata {
  md_Kind : CompactionKind;
  md_Trigger : bytes;
  md_MessagesSummarized : Z;
  md_ReplacementHistoryCount : Z;
  md_HeadUUID : bytes;
  md_AnchorUUID : bytes;
  md_TailUUID : bytes;
  md_ContextItems : list Item;
}.

Record Message := MkMessage {
  m_UUID : bytes;
  m_ParentUUID : bytes;
  m_LogicalParentUUID : bytes;
  m_Visibility : bytes;
  m_Compaction : option CompactionMetadata;
  m_Timestamp : option Z;
  m_Tools : list bytes;
}.

Record CompactionCheckpoint := MkCheckpoint {
  cp_BoundaryIndex : Z;
  cp_BoundaryUUID : bytes;
  cp_SummaryIndex : Z;
  cp_SummaryUUID : bytes;
  cp_ContextItems : list Item;
  cp_Trigger : bytes;
  cp_HeadUUID : bytes;
  cp_AnchorUUID : bytes;
  cp_TailUUID : bytes;
  cp_MessagesSummarized : Z;
  cp_ReplacementHistoryCount : Z;
}.

(** ** Checkpoints *)

Definition boundaryCheckpoint (index : Z) (message : Message) : CompactionCheckpoint :=
  match m_Compaction message with
  | None => MkCheckpoint index (m_UUID message) (-1) [] [] CompactionTriggerUnknown [] [] [] 0 0
  | Some md => MkCheckpoint index (m_UUID message) (-1) [] (md_ContextItems md) (md_Trigger md) (md_HeadUUID md) (md_AnchorUUID md)
      (md_TailUUID md) (md_MessagesSummarized md) (md_ReplacementHistoryCount md)
  end.

Definition summaryOnlyCheckpoint (index : Z) (message : Message) : CompactionCheckpoint :=
  match m_Compaction message with
  | None => MkCheckpoint (-1) [] index (m_UUID message) [] CompactionTriggerUnknown [] [] [] 0 0
  | Some md => MkCheckpoint (-1) [] index (m_UUID message) (md_ContextItems md) (md_Trigger md) (md_HeadUUID md) (md_AnchorUUID md)
      (md_TailUUID md) (md_MessagesSummarized md) (md_ReplacementHistoryCount md)
  end.

Definition firstNonZeroInt (a b : Z) : Z := if negb (a =? 0) then a else b.

Definition attachSummaryCheckpoint (c : CompactionCheckpoint) (summaryIndex : Z) (summary : Message) : CompactionCheckpoint :=
  match m_Compaction summary with
  | None => MkCheckpoint (cp_BoundaryIndex c) (cp_BoundaryUUID c) summaryIndex (m_UUID summary) (cp_ContextItems c) (cp_Trigger c)
      (cp_HeadUUID c) (cp_AnchorUUID c) (cp_TailUUID c) (cp_MessagesSummarized c) (cp_ReplacementHistoryCount c)
  | Some md => MkCheckpoint (cp_BoundaryIndex c) (cp_BoundaryUUID c) summaryIndex (m_UUID summary)
      (cp_ContextItems c ++ md_ContextItems md) (cp_Trigger c) (cp_HeadUUID c) (cp_AnchorUUID c) (cp_TailUUID c)
      (firstNonZeroInt (cp_MessagesSummarized c) (md_MessagesSummarized md))
      (firstNonZeroInt (cp_ReplacementHistoryCount c) (md_ReplacementHistoryCount md))
  end.

Definition isCompactionSummary (message : Message) : bool :=
  match m_Compaction message with
  | Some md => match md_Kind md with CompactionKindSummary => true | _ => false end
  | None => false
  end.

Definition summaryAttachesToBoundary (boundary summary : Message) : bool :=
  if bool_decide (m_ParentUUID summary = m_UUID boundary) || bool_decide (m_LogicalParentUUID summary = m_UUID boundary) then true
  else bool_decide (m_ParentUUID summary = []) && bool_decide (m_LogicalParentUUID summary = []).

(** The loop; [messages] are those from [index] on, and [attached] the indices of the
    summaries already taken. *)
Fixpoint checkpointsLoop (index : nat) (messages : list Message) (attached : gset nat) : list CompactionCheckpoint :=
  match messages with
  | [] => []
  | message :: rest =>
      if decide (index ∈ attached) then checkpointsLoop (S index) rest attached else
      match m_Compaction message with
      | None => checkpointsLoop (S index) rest attached
      | Some md =>
          match md_Kind md with
          | CompactionKindBoundary =>
              let checkpoint := boundaryCheckpoint (Z.of_nat index) message in
              match rest with
              | next :: _ =>
                  if isCompactionSummary next && summaryAttachesToBoundary message next
                  then attachSummaryCheckpoint checkpoint (Z.of_nat index + 1) next ::
                       checkpointsLoop (S index) rest ({[S index]} ∪ attached)
                  else checkpoint :: checkpointsLoop (S index) rest attached
              | [] => checkpoint :: checkpointsLoop (S index) rest attached
              end
          | CompactionKindMicroboundary => boundaryCheckpoint (Z.of_nat index) message :: checkpointsLoop (S index) rest attached
          | CompactionKindSummary => summaryOnlyCheckpoint (Z.of_nat index) message :: checkpointsLoop (S index) rest attached
          | CompactionKindUnknown _ => checkpointsLoop (S index) rest attached
          end
      end
  end.

Definition CompactionMessages (messages : list Message) : list Message := filter (fun m => m_Compaction m <> None) messages.

Definition CompactionCheckpoints (messages : list Message) : list CompactionCheckpoint :=
  if (length (CompactionMessages messages) =? 0)%nat then [] else checkpointsLoop 0 messages ∅.

(** ** Segments *)

Record CompactionSegment := MkSegment {
  sg_Index : Z;
  sg_StartMessageIndex : Z;
  sg_EndMessageIndex : Z;
  sg_HasStartingSummary : bool;
  sg_SummaryMessageIndex : Z;
  sg_SummaryUUID : bytes;
  sg_SummaryTimestamp : option Z;
  sg_VisibleMessageCount : Z;
  sg_ToolCallCount : Z;
  sg_Checkpoint : CompactionCheckpoint;
}.

Definition emptyCompactionCheckpoint : CompactionCheckpoint :=
  MkCheckpoint (-1) [] (-1) [] [] CompactionTriggerUnknown [] [] [] 0 0.

Definition checkpointSegmentStart (checkpoint : CompactionCheckpoint) : Z :=
  if 0 <=? cp_SummaryIndex checkpoint then cp_SummaryIndex checkpoint else cp_BoundaryIndex checkpoint.

Definition checkpointSegmentStarts (checkpoints : list CompactionCheckpoint) (messageCount : Z) : list Z :=
  filter (fun start => 0 <= start < messageCount) (map checkpointSegmentStart checkpoints).

Definition compactionSegmentSummaryUUID (checkpoint : CompactionCheckpoint) : bytes :=
  if decide (cp_SummaryUUID checkpoint = []) then cp_BoundaryUUID checkpoint else cp_SummaryUUID checkpoint.

Definition compactionSegmentSummaryTimestamp (messages : list Message) (summaryIndex : Z) : option Z :=
  if (summaryIndex <? 0) || (zlen messages <=? summaryIndex) then None else
  messages !! Z.to_nat summaryIndex ≫= m_Timestamp.

(** The loops from [start] to [end], cut at the end of the messages. *)
Definition countVisibleMessages (messages : list Message) (start stop : Z) : Z :=
  zlen (filter (fun m => m_Compaction m = None /\ m_Visibility m <> MessageVisibilityMetaOnly) (slice messages start stop)).

Definition countToolCalls (messages : list Message) (start stop : Z) : Z :=
  foldl (fun count m => count + zlen (m_Tools m)) 0 (slice messages start stop).

(** A segment without a summary. *)
Definition plainSegment (messages : list Message) (start stop : Z) : CompactionSegment :=
  MkSegment 0 start stop false (-1) [] None (countVisibleMessages messages start stop) (countToolCalls messages start stop)
    emptyCompactionCheckpoint.

Definition checkpointSegment (messages : list Message) (checkpoint : CompactionCheckpoint) (start stop : Z) : CompactionSegment :=
  let summaryIndex := if cp_SummaryIndex checkpoint <? 0 then cp_BoundaryIndex checkpoint else cp_SummaryIndex checkpoint in
  MkSegment 0 start stop (0 <=? summaryIndex) summaryIndex (compactionSegmentSummaryUUID checkpoint)
    (compactionSegmentSummaryTimestamp messages summaryIndex) (countVisibleMessages messages start stop)
    (countToolCalls messages start stop) checkpoint.

(** The loop over the checkpoints; [starts[i]] out of range panics. *)
Fixpoint segmentsLoop (messages : list Message) (starts : list Z) (i : nat) (checkpoints : list CompactionCheckpoint)
  : outcome unit (list CompactionSegment) :=
  match checkpoints with
  | [] => Ok []
  | checkpoint :: checkpoints =>
      match starts !! i with
      | None => Panic
      | Some start =>
          let stop := default (zlen messages) (starts !! S i) in
          rest ← segmentsLoop messages starts (S i) checkpoints;
          Ok (if stop <=? start then rest else checkpointSegment messages checkpoint start stop :: rest)
      end
  end.

Definition setIndex (segment : CompactionSegment) (index : Z) : CompactionSegment :=
  MkSegment index (sg_StartMessageIndex segment) (sg_EndMessageIndex segment) (sg_HasStartingSummary segment)
    (sg_SummaryMessageIndex segment) (sg_SummaryUUID segment) (sg_SummaryTimestamp segment) (sg_VisibleMessageCount segment)
    (sg_ToolCallCount segment) (sg_Checkpoint segment).

(** Number from the newest and put the newest first. *)
Definition newestFirst (chronological : list CompactionSegment) : list CompactionSegment :=
  imap (fun i segment => setIndex segment (Z.of_nat i)) (rev chronological).

Definition CompactionSegments (messages : list Message) : outcome unit (list CompactionSegment) :=
  let checkpoints := CompactionCheckpoints messages in
  let starts := checkpointSegmentStarts checkpoints (zlen messages) in
  match starts with
  | [] => Ok [plainSegment messages 0 (zlen messages)]
  | first :: _ =>
      let head := if 0 <? first then [plainSegment messages 0 first] else [] in
      rest ← segmentsLoop messages starts 0 checkpoints;
      Ok (newestFirst (head ++ rest))
  end.

(** ** Selection *)

Inductive selectError :=
| errNoSegments
| errInvalidSelector (selector : bytes) (maxSegment : Z)
| errSegmentRange (maxSegment : Z).

Definition defaultCompactionSelector : bytes := lit "0".

Definition maxCompactionSegmentIndex (segments : list CompactionSegment) : Z :=
  foldl (fun m segment => if m <? sg_Index segment then sg_Index segment else m) 0 segments.

Definition parseCompactionSelectorIndex (raw : bytes) (maxSegment : Z) : outcome selectError Z :=
  match Atoi (TrimSpace raw) with
  | None => Fail (errInvalidSelector raw maxSegment)
  | Some value => if (value <? 0) || (maxSegment <? value) then Fail (errSegmentRange maxSegment) else Ok value
  end.

(** The integers from [start] to [stop]. *)
Definition between (start stop : Z) : list Z := map (fun i => start + Z.of_nat i) (seq 0 (Z.to_nat (stop - start + 1))).

Definition parseCompactionSelectorRange (raw : bytes) (maxSegment : Z) (selected : gset Z) : outcome selectError (gset Z) :=
  match Split raw (lit "..") with
  | [low; high] =>
      if bool_decide (low = []) || bool_decide (high = []) then Fail (errInvalidSelector raw maxSegment) else
      start ← parseCompactionSelectorIndex low maxSegment;
      stop ← parseCompactionSelectorIndex high maxSegment;
      if stop <? start then Fail (errInvalidSelector raw maxSegment) else Ok (selected ∪ list_to_set (between start stop))
  | _ => Fail (errInvalidSelector raw maxSegment)
  end.

Fixpoint selectorParts (selector : bytes) (parts : list bytes) (maxSegment : Z) (selected : gset Z) : outcome selectError (gset Z) :=
  match parts with
  | [] => Ok selected
  | part :: parts =>
      let trimmed := TrimSpace part in
      if decide (trimmed = []) then Fail (errInvalidSelector selector maxSegment) else
      if Contains trimmed (lit "..") then
        selected ← parseCompactionSelectorRange trimmed maxSegment selected;
        selectorParts selector parts maxSegment selected
      else
        value ← parseCompactionSelectorIndex trimmed maxSegment;
        selectorParts selector parts maxSegment ({[value]} ∪ selected)
  end.

Definition parseCompactionSelector (selector : bytes) (maxSegment : Z) : outcome selectError (gset Z) :=
  if decide (selector = lit "all") then Ok (list_to_set (between 0 maxSegment))
  else selectorParts selector (Split selector (lit ",")) maxSegment ∅.

(** [sort.SliceStable] with the given order: each element goes before the first one that
    is strictly after it. *)
Fixpoint insertSegment (segment : CompactionSegment) (sorted : list CompactionSegment) : list CompactionSegment :=
  match sorted with
  | [] => [segment]
  | other :: rest => if sg_Index other <? sg_Index segment then segment :: sorted else other :: insertSegment segment rest
  end.

Definition sortSegments (segments : list CompactionSegment) : list CompactionSegment :=
  foldl (fun sorted segment => insertSegment segment sorted) [] segments.

Record CompactionSegmentSelection := MkSelection {
  sel_Selector : bytes;
  sel_Segments : list CompactionSegment;
}.

Definition SelectCompactionSegments (segments : list CompactionSegment) (selector : bytes)
  : outcome selectError CompactionSegmentSelection :=
  let normalized := TrimSpace selector in
  let normalized := if decide (normalized = []) then defaultCompactionSelector else normalized in
  if (length segments =? 0)%nat then Fail errNoSegments else
  let maxSegment := maxCompactionSegmentIndex segments in
  indexSet ← parseCompactionSelector normalized maxSegment;
  let selected := filter (fun segment => sg_Index segment ∈ indexSet) segments in
  if (length selected =? 0)%nat then Fail (errSegmentRange maxSegment) else
  Ok (MkSelection normalized (sortSegments selected)).

(** ** Checkpoints in order *)

Lemma start_boundary index message : 0 <= index -> checkpointSegmentStart (boundaryCheckpoint index message) = index.
Proof. intros H. unfold boundaryCheckpoint, checkpointSegmentStart. by destruct (m_Compaction message). Qed.

Lemma start_summary index message : 0 <= index -> checkpointSegmentStart (summaryOnlyCheckpoint index message) = index.
Proof.
  intros H. unfold summaryOnlyCheckpoint, checkpointSegmentStart.
  destruct (m_Compaction message); cbn; by rewrite (proj2 (Z.leb_le 0 index)).
Qed.

Lemma start_attached c index message : 0 <= index -> checkpointSegmentStart (attachSummaryCheckpoint c index message) = index.
Proof.
  intros H. unfold attachSummaryCheckpoint, checkpointSegmentStart.
  destruct (m_Compaction message); cbn; by rewrite (proj2 (Z.leb_le 0 index)).
Qed.

(** The starts increase strictly from [lo] and stay below [hi]. *)
Fixpoint increasing (lo : Z) (starts : list Z) (hi : Z) : Prop :=
  match starts with [] => True | start :: starts => lo <= start < hi /\ increasing (start + 1) starts hi end.

Lemma increasing_mono lo lo' starts hi : lo' <= lo -> increasing lo starts hi -> increasing lo' starts hi.
Proof. destruct starts; cbn; [done|]. intros ? [? ?]. split; [lia|done]. Qed.

Lemma checkpointsLoop_starts index messages attached :
  (forall k, k ∈ attached -> (k <= index)%nat) ->
  increasing (if decide (index ∈ attached) then Z.of_nat index + 1 else Z.of_nat index)
    (map checkpointSegmentStart (checkpointsLoop index messages attached)) (Z.of_nat index + zlen messages).
Proof.
  revert index attached. induction messages as [|message rest IH]; intros index attached Hat; [done|]. cbn [checkpointsLoop].
  assert (forall attached', (forall k, k ∈ attached' -> (k <= S index)%nat) ->
    increasing (Z.of_nat index + 1) (map checkpointSegmentStart (checkpointsLoop (S index) rest attached'))
      (Z.of_nat index + zlen (message :: rest))) as Hrest.
  { intros attached' H'. specialize (IH (S index) attached' H'). rewrite zlen_cons.
    replace (Z.of_nat (S index) + zlen rest) with (Z.of_nat index + (1 + zlen rest)) in IH by lia.
    eapply increasing_mono; [|exact IH]. case_decide; lia. }
  assert (forall k, k ∈ attached -> (k <= S index)%nat) as Hat' by (intros k Hk; specialize (Hat k Hk); lia).
  pose proof (zlen_nonneg rest) as Hz. pose proof (zlen_cons message rest) as Hc.
  destruct (decide (index ∈ attached)) as [Hin|Hin]; [by apply Hrest|].
  assert (increasing (Z.of_nat index) (map checkpointSegmentStart (checkpointsLoop (S index) rest attached))
    (Z.of_nat index + zlen (message :: rest))) as Hskip by (eapply increasing_mono; [|by apply Hrest]; lia).
  destruct (m_Compaction message) as [md|]; [|done]. destruct (md_Kind md); [|..|done].
  - destruct rest as [|next rest].
    + cbn [map increasing checkpointsLoop]. rewrite start_boundary by lia. rewrite Hc. split; [lia|done].
    + destruct (_ && _); cbn [map increasing].
      * rewrite start_attached by lia. split; [rewrite !zlen_cons; pose proof (zlen_nonneg rest); lia|].
        assert (forall k, k ∈ {[S index]} ∪ attached -> (k <= S index)%nat) as H'.
        { intros k [->%elem_of_singleton|Hk]%elem_of_union; [lia|by apply Hat']. }
        specialize (IH (S index) ({[S index]} ∪ attached) H').
        rewrite decide_True in IH by (apply elem_of_union_l; by apply elem_of_singleton).
        replace (Z.of_nat (S index) + zlen (next :: rest)) with (Z.of_nat index + zlen (message :: next :: rest)) in IH
          by (rewrite !zlen_cons; lia).
        by replace (Z.of_nat (S index) + 1) with (Z.of_nat index + 1 + 1) in IH by lia.
      * rewrite start_boundary by lia. split; [lia|]. by apply Hrest.
  - cbn [map increasing]. rewrite start_boundary by lia. split; [lia|]. by apply Hrest.
  - cbn [map increasing]. rewrite start_summary by lia. split; [lia|]. by apply Hrest.
Qed.

Lemma CompactionCheckpoints_starts messages :
  increasing 0 (map checkpointSegmentStart (CompactionCheckpoints messages)) (zlen messages).
Proof.
  unfold CompactionCheckpoints. destruct (_ =? 0)%nat; [done|].
  pose proof (checkpointsLoop_starts 0 messages ∅) as H. rewrite decide_False in H by apply not_elem_of_empty.
  apply H. by intros k ?%elem_of_empty.
Qed.

Lemma increasing_filter lo starts hi :
  0 <= lo -> increasing lo starts hi -> filter (fun start => 0 <= start < hi) starts = starts.
Proof.
  revert lo. induction starts as [|start starts IH]; intros lo Hlo; [done|]. cbn [increasing]. intros [Hs Hr].
  rewrite filter_cons, decide_True by lia. f_equal. eapply IH; [|exact Hr]. lia.
Qed.

(** ** The segments cover the transcript *)

(** The segments, oldest first, cover [[a, b)] without gap or overlap. *)
Fixpoint tiles (segments : list CompactionSegment) (a b : Z) : Prop :=
  match segments with
  | [] => a = b
  | segment :: segments => sg_StartMessageIndex segment = a /\ a < sg_EndMessageIndex segment /\
      tiles segments (sg_EndMessageIndex segment) b
  end.

(** A segment with a summary starts at it. *)
Definition startsAtSummary (segment : CompactionSegment) : Prop :=
  sg_HasStartingSummary segment = true -> sg_SummaryMessageIndex segment = sg_StartMessageIndex segment.

Lemma segmentsLoop_tiles messages starts i checkpoints lo :
  drop i starts = map checkpointSegmentStart checkpoints ->
  increasing lo (map checkpointSegmentStart checkpoints) (zlen messages) ->
  exists rest, segmentsLoop messages starts i checkpoints = Ok rest /\ length rest = length checkpoints /\
    Forall startsAtSummary rest /\
    tiles rest (default (zlen messages) (head (map checkpointSegmentStart checkpoints))) (zlen messages).
Proof.
  revert i lo. induction checkpoints as [|c checkpoints IH]; intros i lo Hd Hinc; cbn [segmentsLoop]; [by exists []|].
  cbn [map increasing] in Hinc. destruct Hinc as [Hs Hinc].
  assert (starts !! i = Some (checkpointSegmentStart c)) as Hi.
  { rewrite <- (Nat.add_0_r i), <- lookup_drop, Hd. done. }
  assert (drop (S i) starts = map checkpointSegmentStart checkpoints) as Hd'.
  { replace (S i) with (i + 1)%nat by lia. rewrite <- drop_drop, Hd. done. }
  assert (starts !! S i = head (map checkpointSegmentStart checkpoints)) as Hn.
  { rewrite <- (Nat.add_0_r (S i)), <- lookup_drop, Hd'. by destruct (map _ _). }
  rewrite Hi, Hn. destruct (IH (S i) (checkpointSegmentStart c + 1) Hd' Hinc) as (rest & Hr & Hlen & Hsum & Ht). rewrite Hr.
  cbn [mbind outcome_bind].
  assert (checkpointSegmentStart c < default (zlen messages) (head (map checkpointSegmentStart checkpoints))) as Hlt.
  { destruct checkpoints as [|c' cs]; cbn in *; lia. }
  rewrite (proj2 (Z.leb_gt _ _)) by exact Hlt. eexists. split; [done|]. split_and!; [cbn; lia| |by split_and!].
  constructor; [|done]. unfold startsAtSummary, checkpointSegment. cbn. intros _. unfold checkpointSegmentStart.
  destruct (Z.ltb_spec (cp_SummaryIndex c) 0), (Z.leb_spec 0 (cp_SummaryIndex c)); (done || lia).
Qed.

Lemma newestFirst_index chronological j segment :
  newestFirst chronological !! j = Some segment -> sg_Index segment = Z.of_nat j.
Proof.
  unfold newestFirst. rewrite list_lookup_imap. intros (s & Hs & ->)%fmap_Some. done.
Qed.

Definition spanOf (segment : CompactionSegment) : Z * Z := (sg_StartMessageIndex segment, sg_EndMessageIndex segment).

Lemma tiles_spans l l' a b : map spanOf l' = map spanOf l -> tiles l a b -> tiles l' a b.
Proof.
  revert l' a. induction l as [|s l IH]; intros [|s' l'] a; cbn [map tiles]; try done.
  intros [= Hs He Hl] (Ha & Hlt & Ht). rewrite Hs, He. split_and!; [done|done|]. by apply IH.
Qed.

Lemma newestFirst_spans chronological : map spanOf (rev (newestFirst chronological)) = map spanOf chronological.
Proof.
  unfold newestFirst. rewrite map_rev. change (map spanOf (imap ?f ?l)) with (spanOf <$> imap f l).
  rewrite fmap_imap. assert (forall l : list CompactionSegment,
    imap (fun n => spanOf ∘ (fun segment => setIndex segment (Z.of_nat n))) l = map spanOf l) as ->.
  { intros l. rewrite (imap_ext _ (fun _ => spanOf)) by done. clear. induction l as [|s l IH]; [done|]. cbn. by f_equal. }
  by rewrite <- map_rev, rev_involutive.
Qed.

Lemma newestFirst_startsAtSummary chronological : Forall startsAtSummary chronological -> Forall startsAtSummary (newestFirst chronological).
Proof.
  rewrite !Forall_forall. intros H s (j & Hj)%list_elem_of_lookup. unfold newestFirst in Hj. rewrite list_lookup_imap in Hj.
  apply fmap_Some in Hj as (s0 & Hs0 & ->). apply list_elem_of_lookup_2 in Hs0.
  apply list_elem_of_In, in_rev, list_elem_of_In in Hs0. by apply (H s0).
Qed.

Lemma newestFirst_length chronological : length (newestFirst chronological) = length chronological.
Proof. unfold newestFirst. by rewrite length_imap, length_rev. Qed.

(** ** Numbered segments *)

(** As [CompactionSegments] returns them: the [j]-th has number [j]. *)
Definition numbered (segments : list CompactionSegment) : Prop :=
  forall j segment, segments !! j = Some segment -> sg_Index segment = Z.of_nat j.

Lemma CompactionSegments_spec messages :
  exists segments, CompactionSegments messages = Ok segments /\ segments <> [] /\ numbered segments /\
    Forall startsAtSummary segments /\ (messages <> [] -> tiles (rev segments) 0 (zlen messages)).
Proof.
  unfold CompactionSegments. pose proof (CompactionCheckpoints_starts messages) as Hinc.
  set (checkpoints := CompactionCheckpoints messages) in *.
  unfold checkpointSegmentStarts. rewrite (increasing_filter _ _ _ (Z.le_refl 0) Hinc).
  destruct (map checkpointSegmentStart checkpoints) as [|first starts] eqn:E.
  - eexists. split; [done|]. split_and!; [done| | |].
    + intros [|j] segment; cbn; [by intros [= <-]|done].
    + constructor; [by intros ?|constructor].
    + intros Hne. cbn. split_and!; [done| |done]. destruct messages; [done|]. rewrite zlen_cons. pose proof (zlen_nonneg messages). lia.
  - destruct (segmentsLoop_tiles messages (first :: starts) 0 checkpoints 0) as (rest & Hr & Hlen & Hsum & Ht); [done|by rewrite E|].
    rewrite Hr. cbn [mbind outcome_bind]. eexists. split; [done|].
    set (chronological := (if 0 <? first then [plainSegment messages 0 first] else []) ++ rest).
    rewrite E in Ht. cbn [head default] in Ht. cbn in Hinc. destruct Hinc as [Hfirst _].
    assert (tiles chronological 0 (zlen messages)) as Htiles.
    { unfold chronological. destruct (Z.ltb_spec 0 first) as [Hp|Hp]; [cbn; split_and!; [done|lia|done]|].
      by replace 0 with first by lia. }
    split_and!.
    + intros Hn. apply (f_equal length) in Hn. rewrite newestFirst_length in Hn. unfold chronological in Hn.
      rewrite length_app in Hn. destruct checkpoints; cbn in *; [done|lia].
    + intros j segment. apply newestFirst_index.
    + apply newestFirst_startsAtSummary. unfold chronological. apply Forall_app. split; [|done].
      destruct (0 <? first); constructor; [by intros ?|constructor].
    + intros _. eapply tiles_spans; [apply newestFirst_spans|done].
Qed.

(** ** Sorting and selecting *)

Lemma insertSegment_front segment sorted :
  (forall other, other ∈ sorted -> sg_Index other < sg_Index segment) -> insertSegment segment sorted = segment :: sorted.
Proof.
  destruct sorted as [|other rest]; [done|]. intros H. cbn. by rewrite (proj2 (Z.ltb_lt _ _)) by apply H, list_elem_of_here.
Qed.

Lemma sortSegments_ascending segments :
  StronglySorted (fun a b => sg_Index a < sg_Index b) segments -> sortSegments segments = rev segments.
Proof.
  unfold sortSegments. intros Hs.
  assert (forall acc, (forall a b, a ∈ acc -> b ∈ segments -> sg_Index a < sg_Index b) ->
    foldl (fun sorted segment => insertSegment segment sorted) acc segments = rev segments ++ acc) as Hgen.
  { induction Hs as [|s segments Hs IH Hall]; intros acc Hacc; [done|]. cbn [foldl rev]. rewrite insertSegment_front.
    - rewrite IH; [by rewrite <- app_assoc|]. rewrite Forall_forall in Hall.
      intros a b [->|Ha]%elem_of_cons Hb; [by apply Hall|]. apply Hacc; [done|by apply list_elem_of_further].
    - intros other Ho. apply Hacc; [done|apply list_elem_of_here]. }
  rewrite Hgen, app_nil_r; [done|]. by intros a b ?%elem_of_nil.
Qed.

Lemma numbered_sorted segments : numbered segments -> StronglySorted (fun a b => sg_Index a < sg_Index b) segments.
Proof.
  unfold numbered. intros H. assert (exists k : nat, forall j s, segments !! j = Some s -> sg_Index s = Z.of_nat (k + j)) as [k Hk] by (by exists 0%nat).
  clear H. revert k Hk. induction segments as [|s segments IH]; intros k Hk; constructor.
  - apply (IH (S k)). intros j x Hx. rewrite (Hk (S j) x Hx). lia.
  - apply Forall_forall. intros x (j & Hx)%list_elem_of_lookup. rewrite (Hk 0%nat s eq_refl), (Hk (S j) x Hx). lia.
Qed.

Lemma filter_sorted (P : CompactionSegment -> Prop) `{forall x, Decision (P x)} segments :
  StronglySorted (fun a b => sg_Index a < sg_Index b) segments ->
  StronglySorted (fun a b => sg_Index a < sg_Index b) (filter P segments).
Proof.
  induction 1 as [|s segments Hs IH Hall]; [constructor|]. rewrite filter_cons. case_decide; [|done]. constructor; [done|].
  rewrite Forall_forall in *. intros x [_ Hx]%list_elem_of_filter. by apply Hall.
Qed.

Lemma maxIndex_numbered segments : segments <> [] -> numbered segments -> maxCompactionSegmentIndex segments = zlen segments - 1.
Proof.
  intros Hne Hn. unfold maxCompactionSegmentIndex.
  assert (forall l k m, (forall j s, l !! j = Some s -> sg_Index s = k + Z.of_nat j) -> (l = [] -> m = k - 1) -> m <= k -> l <> [] \/ True ->
    foldl (fun m segment => if m <? sg_Index segment then sg_Index segment else m) m l = k + zlen l - 1) as Hgen.
  { intros l. induction l as [|s l IH]; intros k m Hl Hnil Hm _; cbn [foldl].
    - rewrite Hnil by done. rewrite zlen_nil. lia.
    - rewrite (Hl 0%nat s eq_refl). rewrite (IH (k + 1)); [rewrite zlen_cons; lia| | | |by right].
      + intros j x Hx. rewrite (Hl (S j) x Hx). lia.
      + intros _. destruct (Z.ltb_spec m (k + Z.of_nat 0)); lia.
      + destruct (Z.ltb_spec m (k + Z.of_nat 0)); lia. }
  rewrite (Hgen segments 0 0); [lia| |done|lia|by right]. intros j s Hs. by rewrite (Hn j s Hs).
Qed.
End conversation.

(** ** Numbers as selectors *)

Lemma digits_absent n b : 0 <= n <= maxInt64 -> isDigit b = false -> b ∉ Itoa n.
Proof.
  intros Hn Hb Hin. destruct (Itoa_digits n Hn) as [Hd _]. rewrite Forall_forall in Hd. apply Hd in Hin. congruence.
Qed.

Lemma digit_not_space b : isDigit b = true -> b2z b < 128 /\ IsSpace (b2z b) = false.
Proof.
  unfold isDigit. intros H. reflect_bools. split; [lia|]. unfold IsSpace, inZ.
  repeat (apply orb_false_iff; split); try (apply Z.eqb_neq; lia); apply andb_false_iff;
    (left; apply Z.leb_gt; lia) || (right; apply Z.leb_gt; lia).
Qed.

Lemma TrimSpace_digits s : s <> [] -> Forall (fun b => isDigit b = true) s -> TrimSpace s = s.
Proof.
  intros Hne Hd. unfold TrimSpace, TrimLeftFunc.
  assert (forall fuel, trimLeftLoop fuel IsSpace s = s) as ->.
  { intros [|fuel]; [done|]. destruct s as [|b s]; [done|]. apply Forall_cons in Hd as [Hb _].
    destruct (digit_not_space b Hb) as [Hlt Hsp]. cbn [trimLeftLoop]. by rewrite DecodeRune_ascii, Hsp. }
  unfold TrimRightFunc. destruct s as [|b0 s0]; [done|]. set (s := b0 :: s0) in *. change (length s) with (S (length s0)).
  unfold s at 1. cbn [trimRightLoop]. fold s.
  destruct (exists_last Hne) as (init & b' & Es). assert (isDigit b' = true) as Hb'.
  { rewrite Es in Hd. apply Forall_app in Hd as [_ Hd]. by apply Forall_cons in Hd as [? _]. }
  destruct (digit_not_space b' Hb') as [Hlt Hsp].
  assert (DecodeLastRune s = (b2z b', 1%nat)) as ->.
  { unfold DecodeLastRune. rewrite Es, last_snoc. by rewrite (proj2 (Z.ltb_lt _ _) Hlt). }
  by rewrite Hsp.
Qed.

Section claims.
Context {Item : Type}.
Implicit Types (messages : list (Message (Item := Item))) (segments : list (CompactionSegment (Item := Item))).

(** The segments cover the transcript.  For every transcript, [CompactionSegments]
    returns (it never indexes out of range) a list that is not empty, numbered from the
    newest; read from the oldest, its segments cover all messages without gap or overlap,
    and a segment that starts with a summary starts at that summary. *)
Theorem CompactionSegments_partition messages :
  messages <> [] ->
  exists segments, CompactionSegments messages = Ok segments /\ segments <> [] /\ numbered segments /\
    Forall startsAtSummary segments /\ tiles (rev segments) 0 (zlen messages).
Proof.
  intros Hne. destruct (CompactionSegments_spec messages) as (segments & H1 & H2 & H3 & H4 & H5).
  exists segments. split_and!; try done. by apply H5.
Qed.

Lemma Select_selected segments selector sel :
  numbered segments -> SelectCompactionSegments segments selector = Ok sel ->
  exists indexSet, parseCompactionSelector (sel_Selector sel) (zlen segments - 1) = Ok indexSet /\
    sel_Segments sel = rev (filter (fun segment => sg_Index segment ∈ indexSet) segments) /\ sel_Segments sel <> [].
Proof.
  intros Hn. unfold SelectCompactionSegments. set (normalized := if decide _ then _ else _).
  destruct (Nat.eqb_spec (length segments) 0) as [|Hlen]; [done|].
  assert (segments <> []) as Hne by (by intros ->). rewrite maxIndex_numbered by done.
  destruct (parseCompactionSelector normalized (zlen segments - 1)) as [indexSet| |] eqn:Ep; cbn [mbind outcome_bind]; [|done|done].
  destruct (Nat.eqb_spec (length (filter (fun segment => sg_Index segment ∈ indexSet) segments)) 0) as [|Hl]; [done|].
  intros [= <-]. exists indexSet. cbn [sel_Selector sel_Segments].
  rewrite sortSegments_ascending by (apply filter_sorted, numbered_sorted, Hn). split_and!; [done|done|].
  intros E. apply (f_equal length) in E. rewrite length_rev in E. cbn in E. lia.
Qed.

(** A selection is what the selector says, oldest first.  On numbered segments, a
    successful selection holds exactly the segments whose number is in the set the
    selector parses to, in chronological order, and at least one. *)
Theorem SelectCompactionSegments_exact segments selector sel :
  numbered segments -> SelectCompactionSegments segments selector = Ok sel ->
  exists indexSet, parseCompactionSelector (sel_Selector sel) (zlen segments - 1) = Ok indexSet /\
    (forall segment, segment ∈ sel_Segments sel <-> segment ∈ segments /\ sg_Index segment ∈ indexSet) /\
    sel_Segments sel <> [] /\ StronglySorted (fun a b => sg_Index b < sg_Index a) (sel_Segments sel).
Proof.
  intros Hn Hs. destruct (Select_selected _ _ _ Hn Hs) as (indexSet & Hp & Hsel & Hne). exists indexSet.
  split; [done|]. rewrite Hsel. split_and!.
  - intros segment. rewrite list_elem_of_In, <- in_rev, <- list_elem_of_In, list_elem_of_filter. tauto.
  - by rewrite <- Hsel.
  - pose proof (filter_sorted (fun segment => sg_Index segment ∈ indexSet) segments (numbered_sorted segments Hn)) as Hss.
    clear - Hss. induction Hss as [|s l Hss IH Hall]; [constructor|]. cbn [rev]. apply StronglySorted_app. split_and!; [|done|].
    + intros x y Hx ->%list_elem_of_singleton. rewrite Forall_forall in Hall. apply Hall.
      by apply list_elem_of_In, in_rev, list_elem_of_In.
    + constructor; constructor.
Qed.

Lemma filter_none (P : CompactionSegment (Item := Item) -> Prop) `{forall x, Decision (P x)} l :
  (forall x, x ∈ l -> ~ P x) -> filter P l = [].
Proof.
  induction l as [|x l IH]; intros Hl; [done|]. rewrite filter_cons, decide_False by apply Hl, list_elem_of_here.
  apply IH. intros y Hy. by apply Hl, list_elem_of_further.
Qed.

Lemma filter_numbered segments j s :
  numbered segments -> segments !! j = Some s ->
  filter (fun segment => sg_Index segment ∈ ({[Z.of_nat j]} ∪ ∅ : gset Z)) segments = [s].
Proof.
  intros Hn Hs. assert (forall x : CompactionSegment (Item := Item), sg_Index x ∈ ({[Z.of_nat j]} ∪ ∅ : gset Z) <-> sg_Index x = Z.of_nat j) as Hiff.
  { intros x. rewrite elem_of_union, elem_of_singleton. split; [intros [?|?%elem_of_empty]; done|by left]. }
  destruct (list_elem_of_split_length segments j s Hs) as (l1 & l2 & -> & Hlen).
  rewrite filter_app, filter_cons, decide_True by (rewrite Hiff; by apply Hn).
  rewrite !filter_none; [done|..].
  - intros x (i & Hx)%list_elem_of_lookup. rewrite Hiff.
    rewrite (Hn (j + 1 + i)%nat x); [lia|]. rewrite lookup_app_r by lia. by replace (j + 1 + i - length l1)%nat with (S i) by lia.
  - intros x (i & Hx)%list_elem_of_lookup. rewrite Hiff. pose proof (lookup_lt_Some _ _ _ Hx) as Hlt.
    rewrite (Hn i x); [lia|]. by rewrite lookup_app_l.
Qed.

Lemma parse_number n maxSegment :
  0 <= n <= maxSegment -> n <= maxInt64 -> parseCompactionSelector (Itoa n) maxSegment = Ok ({[n]} ∪ ∅).
Proof.
  intros Hn Hmax. assert (0 <= n <= maxInt64) as Hr by lia. destruct (Itoa_digits n Hr) as (Hd & Hne & _).
  unfold parseCompactionSelector. rewrite decide_False.
  2: { intros E. apply (digits_absent n Byte.x61 Hr eq_refl). rewrite E. apply list_elem_of_here. }
  assert (Split (Itoa n) (lit ",") = [Itoa n]) as ->.
  { unfold Split. destruct (length (Itoa n)); [done|]. cbn [splitLoop]. change (lit ",") with [Byte.x2c].
    by rewrite (Index_absent Byte.x2c _ []) by (by apply digits_absent). }
  cbn [selectorParts]. rewrite TrimSpace_digits, decide_False by done. unfold Contains. change (lit "..") with [Byte.x2e; Byte.x2e].
  rewrite (Index_absent Byte.x2e _ [Byte.x2e]) by (by apply digits_absent).
  unfold parseCompactionSelectorIndex. rewrite TrimSpace_digits, Atoi_Itoa by done.
  by rewrite (proj2 (Z.ltb_ge n 0)), (proj2 (Z.ltb_ge maxSegment n)) by lia.
Qed.

(** The number of a segment selects it.  On numbered segments, the decimal number of a
    segment selects exactly that segment. *)
Theorem SelectCompactionSegments_number segments j s :
  numbered segments -> segments !! j = Some s -> zlen segments <= maxInt64 ->
  SelectCompactionSegments segments (Itoa (Z.of_nat j)) = Ok (MkSelection (Itoa (Z.of_nat j)) [s]).
Proof.
  intros Hn Hs Hmax. pose proof (lookup_lt_Some _ _ _ Hs) as Hlt. assert (segments <> []) as Hne by (by intros ->).
  assert (0 <= Z.of_nat j <= maxInt64) as Hr by (unfold zlen in Hmax; lia).
  destruct (Itoa_digits _ Hr) as (Hd & Hnd & _). unfold SelectCompactionSegments.
  rewrite TrimSpace_digits, decide_False by done. rewrite (proj2 (Nat.eqb_neq _ _)) by lia.
  rewrite maxIndex_numbered, parse_number by (done || unfold zlen; lia). cbn [mbind outcome_bind].
  by rewrite filter_numbered with (s := s) by done.
Qed.
End claims.

(** ** A compacted transcript *)

Definition sampleMetadata (kind : CompactionKind) : CompactionMetadata (Item := unit) :=
  MkMetadata kind (lit "auto") 3 0 [] [] [] [].

(** Two messages, a boundary with its summary, and one message after. *)
Definition sampleTranscript : list (Message (Item := unit)) :=
  let m uuid compaction := MkMessage (lit uuid) [] [] (lit "visible") compaction (Some 1) [] in
  [m "a"%string None; m "b"%string None; m "c"%string (Some (sampleMetadata CompactionKindBoundary));
   m "d"%string (Some (sampleMetadata CompactionKindSummary)); m "e"%string None].

Lemma CompactionSegments_partition_witness :
  exists segments, CompactionSegments sampleTranscript = Ok segments /\ map spanOf segments = [(3, 5); (0, 3)] /\
    tiles (rev segments) 0 5.
Proof.
  destruct (CompactionSegments_partition sampleTranscript) as (segments & Hs & _ & _ & _ & Ht); [discriminate|].
  exists segments. split; [exact Hs|]. split; [|exact Ht].
  assert (match CompactionSegments sampleTranscript with Ok l => map spanOf l = [(3, 5); (0, 3)] | _ => False end) as E
    by (vm_compute; reflexivity).
  rewrite Hs in E. exact E.
Defined.

(** Two numbered segments. *)
Definition sampleSegments : list (CompactionSegment (Item := unit)) :=
  newestFirst [plainSegment sampleTranscript 0 3; plainSegment sampleTranscript 3 5].

Lemma SelectCompactionSegments_exact_witness :
  match SelectCompactionSegments sampleSegments (lit " all ") with
  | Ok sel => map spanOf (sel_Segments sel) = [(0, 3); (3, 5)] /\
      StronglySorted (fun a b => sg_Index b < sg_Index a) (sel_Segments sel)
  | _ => False
  end.
Proof.
  pose proof (SelectCompactionSegments_exact sampleSegments (lit " all ")) as H.
  assert (match SelectCompactionSegments sampleSegments (lit " all ") with
    Ok sel => map spanOf (sel_Segments sel) = [(0, 3); (3, 5)] | _ => False end) as E by (vm_compute; reflexivity).
  destruct (SelectCompactionSegments sampleSegments (lit " all ")) as [sel| |]; [|destruct E|destruct E]. split; [exact E|].
  destruct (H sel) as (set & _ & _ & _ & Hsorted); [intros j segment; apply newestFirst_index|reflexivity|exact Hsorted].
Defined.

Lemma SelectCompactionSegments_number_witness :
  exists s, sampleSegments !! 1%nat = Some s /\ SelectCompactionSegments sampleSegments (lit "1") = Ok (MkSelection (lit "1") [s]).
Proof.
  eexists. split; [reflexivity|]. change (lit "1") with (Itoa (Z.of_nat 1)).
  apply (SelectCompactionSegments_number sampleSegments 1); [intros j segment; apply newestFirst_index|reflexivity|vm_compute; discriminate].
Defined.
