(* ===== verification/DsSupervisor.v ===== *)
(** * DsSupervisor: the worker supervisor (internal/daemonsupervisor/supervisor.go)

    The supervisor owns the daemon worker process.  It starts a first worker, waits for
    it to become ready, and then serves two sources of events in one loop: the operating
    system (signals, cancellation, the exit of the worker) and control handlers, one per
    connection, which start replacement workers and ask for a replacement to be aborted.

    The goroutines share worker processes through wait channels: the channel of a worker
    has room for one value and gets exactly one, when the process has exited.  Whoever
    receives it has reaped the worker; a second receive on the same channel never
    returns.  The model is a step relation over the main goroutine, the goroutine that
    waits for readiness, the control handlers and the processes; every choice of a
    [select] and every interleaving is a step.  Signals, timeouts, cancellation and
    errors of the control socket may happen at any time.

    Not modelled: the encoding of requests as JSON and the transport of descriptors (the
    handlers start with a decoded request), logging, and the end of the supervisor's own
    process after [SuperviseContext] has returned. *)

From S2P Require Import Prelude.

Open Scope Z_scope.

(** ** Worker processes and their wait channels *)

(** A process runs, has exited, has its exit in the wait channel, or had it received. *)
Inductive workerState := wRunning | wExited | wReported | wConsumed.

#[export] Instance workerState_eq_dec : EqDecision workerState.
Proof. solve_decision. Defined.

(** [workerHandle]: the process and its wait channel; a handle is an index into the
    table of all workers ever started. *)
Record worker := MkWorker {
  w_pid : Z;
  w_state : workerState;
}.

Definition setWorker (state : workerState) (w : nat) (workers : list worker) : list worker :=
  alter (fun k => MkWorker (w_pid k) state) w workers.

Definition pidOf (workers : list worker) (w : nat) : option Z := w_pid <$> workers !! w.
Definition stateOf (workers : list worker) (w : nat) : option workerState := w_state <$> workers !! w.

(** ** stopWorker *)

(** Before the signal, in the [select] on the wait channel and the timeout, and blocked
    on the wait channel after [Kill]. *)
Inductive stopPC := stSignal | stWait | stKilled.

(** One step of [stopWorker]: the next position, or [None] when it returns. *)
Inductive stopStep (workers : list worker) (w : nat) : stopPC -> option stopPC -> list worker -> Prop :=
| stopSignalled : stopStep workers w stSignal (Some stWait) workers
| stopTimeout : stopStep workers w stWait (Some stKilled) workers
| stopWaited pc :
    pc <> stSignal -> stateOf workers w = Some wReported ->
    stopStep workers w pc None (setWorker wConsumed w workers).

(** ** runningWorkers *)

(** The non-blocking receive on each wait channel keeps the workers whose exit has not
    been reported. *)
Fixpoint runningWorkers (workers : list worker) (ws : list nat) : list worker * list nat :=
  match ws with
  | [] => (workers, [])
  | w :: ws =>
      if decide (stateOf workers w = Some wReported)
      then runningWorkers (setWorker wConsumed w workers) ws
      else let '(workers, running) := runningWorkers workers ws in (workers, w :: running)
  end.

(** ** The goroutines *)

(** What [SuperviseContext] returns: nil, the exit of the worker, a worker that did not
    become ready, or an error of the control socket (with the worker that is current). *)
Inductive result := oNil | oExited | oNotReady | oControl (current : nat).

(** The main goroutine.  [mStopping] is [stopWorker] on [w] followed by the deferred stops
    of [todo] and the return; [mReplacing] and [mAbortCheck] are between the receive of
    the loop's [select] and what the case does. *)
Inductive mainPC :=
| mStarting
| mLoop (current : nat) (superseded : list nat)
| mReplacing (replacement current : nat) (superseded : list nat)
| mAbortCheck (pid : Z) (handler current : nat) (superseded : list nat)
| mAborting (pc : stopPC) (aborted current : nat) (superseded : list nat) (handler : nat)
| mStopping (pc : stopPC) (w : nat) (todo : list nat) (o : result)
| mReturned (o : result).

(** Return with result [o]: the deferred function stops the superseded workers. *)
Definition finish (superseded : list nat) (o : result) : mainPC :=
  match superseded with
  | [] => mReturned o
  | w :: superseded => mStopping stSignal w superseded o
  end.

(** The goroutine of [waitForWorkerReady] and its result in [readyCh]. *)
Inductive readyResult := rdOk | rdFailed | rdExitedBefore.
Inductive readyPC := rdWaiting | rdSent (r : readyResult) | rdGone.

(** A decoded control request; [rqInvalid] is one [handleControl] rejects. *)
Inductive request := rqStatus | rqReplace | rqAbort (pid : Z) | rqInvalid.
Inductive response := respStatus | respPid (pid : Z) | respError.

(** A control handler. *)
Inductive handlerPC :=
| hRequest (r : request)
| hOffer (w : nat)
| hSent (w : nat)
| hStopping (pc : stopPC) (w : nat)
| hAbort (pid : Z)
| hAwait (pid : Z)
| hReplied (pid : Z) (ok : bool)
| hDone (r : response).

Record supervisor := MkSupervisor {
  sv_workers : list worker;
  sv_main : mainPC;
  sv_ready : readyPC;
  sv_serving : bool; (* serveControl was started *)
  sv_handlers : list handlerPC;
}.

(** The operating system does not reuse the pid of a process that was not reaped. *)
Definition freshPid (workers : list worker) (pid : Z) : Prop :=
  0 < pid /\ Forall (fun k => w_state k = wRunning \/ w_state k = wExited -> w_pid k <> pid) workers.

(** ** The system *)

(** The first worker has been started. *)
Definition initial (pid : Z) : supervisor := MkSupervisor [MkWorker pid wRunning] mStarting rdWaiting false [].

(** A worker process exits, and the goroutine that [startWorker] left behind reports it. *)
Inductive processStep : supervisor -> supervisor -> Prop :=
| sExit w ws m r b hs :
    stateOf ws w = Some wRunning -> processStep (MkSupervisor ws m r b hs) (MkSupervisor (setWorker wExited w ws) m r b hs)
| sReport w ws m r b hs :
    stateOf ws w = Some wExited -> processStep (MkSupervisor ws m r b hs) (MkSupervisor (setWorker wReported w ws) m r b hs).

(** The goroutine that waits for the first worker to be ready. *)
Inductive readyStep : supervisor -> supervisor -> Prop :=
(* waitForWorkerReady: the pipe or the deadline, or the exit of the worker *)
| sReady ok ws m b hs :
    readyStep (MkSupervisor ws m rdWaiting b hs) (MkSupervisor ws m (rdSent (if ok : bool then rdOk else rdFailed)) b hs)
| sReadyExit ws m b hs :
    stateOf ws 0 = Some wReported ->
    readyStep (MkSupervisor ws m rdWaiting b hs) (MkSupervisor (setWorker wConsumed 0 ws) m (rdSent rdExitedBefore) b hs).

(** [SuperviseContext] until the first worker is ready. *)
Inductive startStep : supervisor -> supervisor -> Prop :=
(* SuperviseContext: a signal or the cancellation before the worker is ready *)
| sStartStop ws r b hs :
    startStep (MkSupervisor ws mStarting r b hs) (MkSupervisor ws (mStopping stSignal 0 [] oNil) r b hs)
| sStartOk ws b hs :
    startStep (MkSupervisor ws mStarting (rdSent rdOk) b hs) (MkSupervisor ws (mLoop 0 []) rdGone true hs)
| sStartFailed ws b hs :
    startStep (MkSupervisor ws mStarting (rdSent rdFailed) b hs)
      (MkSupervisor ws (mStopping stSignal 0 [] oNotReady) rdGone b hs)
| sStartExited ws b hs :
    startStep (MkSupervisor ws mStarting (rdSent rdExitedBefore) b hs) (MkSupervisor ws (mReturned oExited) rdGone b hs).

(** [runSupervisorLoop] and the stops it ends with. *)
Inductive loopStep : supervisor -> supervisor -> Prop :=
(* runSupervisorLoop: a signal or the cancellation *)
| sLoopStop current superseded ws r b hs :
    loopStep (MkSupervisor ws (mLoop current superseded) r b hs)
      (MkSupervisor ws (mStopping stSignal current superseded oNil) r b hs)
(* the exit of the current worker *)
| sLoopExited current superseded ws r b hs :
    stateOf ws current = Some wReported ->
    loopStep (MkSupervisor ws (mLoop current superseded) r b hs)
      (MkSupervisor (setWorker wConsumed current ws) (finish superseded oExited) r b hs)
(* an error of the control socket *)
| sLoopControl current superseded ws r b hs :
    loopStep (MkSupervisor ws (mLoop current superseded) r b hs)
      (MkSupervisor ws (finish superseded (oControl current)) r b hs)
(* a replacement: the unbuffered channel, then the assignments *)
| sLoopReplacement h w current superseded ws r b hs :
    hs !! h = Some (hOffer w) ->
    loopStep (MkSupervisor ws (mLoop current superseded) r b hs)
      (MkSupervisor ws (mReplacing w current superseded) r b (<[h := hSent w]> hs))
| sReplaced w current superseded ws ws' running r b hs :
    runningWorkers ws superseded = (ws', running) ->
    loopStep (MkSupervisor ws (mReplacing w current superseded) r b hs)
      (MkSupervisor ws' (mLoop w (running ++ [current])) r b hs)
(* an abort: the unbuffered channel, then the check *)
| sLoopAbort h pid current superseded ws r b hs :
    hs !! h = Some (hAbort pid) ->
    loopStep (MkSupervisor ws (mLoop current superseded) r b hs)
      (MkSupervisor ws (mAbortCheck pid h current superseded) r b (<[h := hAwait pid]> hs))
| sAbortRefused pid h current superseded ws ws' running r b hs :
    runningWorkers ws superseded = (ws', running) ->
    pidOf ws current <> Some pid \/ running = [] ->
    loopStep (MkSupervisor ws (mAbortCheck pid h current superseded) r b hs)
      (MkSupervisor ws' (mLoop current running) r b (<[h := hReplied pid false]> hs))
| sAbortAccepted pid h current superseded ws ws' running restored r b hs :
    runningWorkers ws superseded = (ws', running ++ [restored]) ->
    pidOf ws current = Some pid ->
    loopStep (MkSupervisor ws (mAbortCheck pid h current superseded) r b hs)
      (MkSupervisor ws' (mAborting stSignal current restored running h) r b hs)
| sAbortStop pc pc' aborted current superseded h ws ws' r b hs :
    stopStep ws aborted pc (Some pc') ws' ->
    loopStep (MkSupervisor ws (mAborting pc aborted current superseded h) r b hs)
      (MkSupervisor ws' (mAborting pc' aborted current superseded h) r b hs)
| sAborted pc aborted current superseded h pid ws ws' r b hs :
    stopStep ws aborted pc None ws' -> hs !! h = Some (hAwait pid) ->
    loopStep (MkSupervisor ws (mAborting pc aborted current superseded h) r b hs)
      (MkSupervisor ws' (mLoop current superseded) r b (<[h := hReplied pid true]> hs))
(* the last stops and the return *)
| sStop pc pc' w todo o ws ws' r b hs :
    stopStep ws w pc (Some pc') ws' ->
    loopStep (MkSupervisor ws (mStopping pc w todo o) r b hs) (MkSupervisor ws' (mStopping pc' w todo o) r b hs)
| sStopped pc w todo o ws ws' r b hs :
    stopStep ws w pc None ws' ->
    loopStep (MkSupervisor ws (mStopping pc w todo o) r b hs) (MkSupervisor ws' (finish todo o) r b hs).

(** [serveControl] and [handleControl]. *)
Inductive handlerStep : supervisor -> supervisor -> Prop :=
(* serveControl: a connection with its request *)
| hAccept rq ws m r hs :
    handlerStep (MkSupervisor ws m r true hs) (MkSupervisor ws m r true (hs ++ [hRequest rq]))
(* handleControl *)
| hStatusReply h ws m r b hs :
    hs !! h = Some (hRequest rqStatus) ->
    handlerStep (MkSupervisor ws m r b hs) (MkSupervisor ws m r b (<[h := hDone respStatus]> hs))
| hReject h rq ws m r b hs :
    hs !! h = Some (hRequest rq) -> rq = rqInvalid \/ rq = rqReplace ->
    handlerStep (MkSupervisor ws m r b hs) (MkSupervisor ws m r b (<[h := hDone respError]> hs))
| hStart h pid ws m r b hs :
    hs !! h = Some (hRequest rqReplace) -> freshPid ws pid ->
    handlerStep (MkSupervisor ws m r b hs)
      (MkSupervisor (ws ++ [MkWorker pid wRunning]) m r b (<[h := hOffer (length ws)]> hs))
| hReplaceReply h w k ws m r b hs :
    hs !! h = Some (hSent w) -> ws !! w = Some k ->
    handlerStep (MkSupervisor ws m r b hs) (MkSupervisor ws m r b (<[h := hDone (respPid (w_pid k))]> hs))
| hOfferGone h w o ws r b hs :
    hs !! h = Some (hOffer w) ->
    handlerStep (MkSupervisor ws (mReturned o) r b hs) (MkSupervisor ws (mReturned o) r b (<[h := hStopping stSignal w]> hs))
| hStop h pc pc' w ws ws' m r b hs :
    hs !! h = Some (hStopping pc w) -> stopStep ws w pc (Some pc') ws' ->
    handlerStep (MkSupervisor ws m r b hs) (MkSupervisor ws' m r b (<[h := hStopping pc' w]> hs))
| hStopped h pc w ws ws' m r b hs :
    hs !! h = Some (hStopping pc w) -> stopStep ws w pc None ws' ->
    handlerStep (MkSupervisor ws m r b hs) (MkSupervisor ws' m r b (<[h := hDone respError]> hs))
| hAbortRequest h pid ws m r b hs :
    hs !! h = Some (hRequest (rqAbort pid)) ->
    handlerStep (MkSupervisor ws m r b hs) (MkSupervisor ws m r b (<[h := hAbort pid]> hs))
| hAbortGone h pid o ws r b hs :
    hs !! h = Some (hAbort pid) ->
    handlerStep (MkSupervisor ws (mReturned o) r b hs) (MkSupervisor ws (mReturned o) r b (<[h := hDone respError]> hs))
| hAbortReply h pid ok ws m r b hs :
    hs !! h = Some (hReplied pid ok) ->
    handlerStep (MkSupervisor ws m r b hs)
      (MkSupervisor ws m r b (<[h := hDone (if ok : bool then respPid pid else respError)]> hs)).

(** A step of the whole system. *)
Inductive step (s s' : supervisor) : Prop :=
| stepProcess (H : processStep s s')
| stepReady (H : readyStep s s')
| stepStart (H : startStep s s')
| stepLoop (H : loopStep s s')
| stepHandler (H : handlerStep s s').

(** Everything a run of the supervisor can reach. *)
Definition reachableFrom (pid : Z) (s : supervisor) : Prop := rtc step (initial pid) s.

(** ** Who has to reap which worker *)

Definition mainOwned (m : mainPC) : list nat :=
  match m with
  | mStarting => [0%nat]
  | mLoop current superseded | mAbortCheck _ _ current superseded => current :: superseded
  | mReplacing replacement current superseded => replacement :: current :: superseded
  | mAborting _ aborted current superseded _ => aborted :: current :: superseded
  | mStopping _ w todo _ => w :: todo
  | mReturned _ => []
  end.

Definition handlerOwned (h : handlerPC) : list nat :=
  match h with
  | hOffer w | hStopping _ w => [w]
  | _ => []
  end.

Definition owned (s : supervisor) : list nat :=
  mainOwned (sv_main s) ++ concat (map handlerOwned (sv_handlers s)).

(** The worker that an error of the control socket leaves behind. *)
Definition abandoned (m : mainPC) : option nat :=
  match m with
  | mStopping _ _ _ (oControl w) | mReturned (oControl w) => Some w
  | _ => None
  end.

(** The main goroutine before the first worker was ready, or on its way out. *)
Definition startup (m : mainPC) : Prop :=
  match m with
  | mStarting | mReturned oNil => True
  | mStopping _ w todo o => w = 0%nat /\ todo = [] /\ o = oNil
  | _ => False
  end.

(** Every worker that was not reaped has exactly one owner.  The exception is the first
    worker, whose exit the goroutine that waits for readiness may take away. *)
Record ownersInv (s : supervisor) : Prop := {
  sv_nodup : NoDup (owned s);
  sv_bound w : w ∈ owned s -> (w < length (sv_workers s))%nat;
  sv_unowned w state : stateOf (sv_workers s) w = Some state -> w ∉ owned s ->
    state = wConsumed \/ abandoned (sv_main s) = Some w;
  sv_live w : w ∈ owned s -> stateOf (sv_workers s) w = Some wConsumed ->
    sv_ready s = rdSent rdExitedBefore /\ w = 0%nat;
  sv_left w : abandoned (sv_main s) = Some w -> (w ∉ owned s) /\ (w < length (sv_workers s))%nat;
}.

Record phaseInv (s : supervisor) : Prop := {
  sv_start : sv_ready s <> rdGone -> startup (sv_main s) /\ sv_serving s = false;
  sv_starting : sv_main s = mStarting -> sv_ready s <> rdGone;
  sv_stolen : sv_ready s = rdSent rdExitedBefore -> stateOf (sv_workers s) 0 = Some wConsumed;
  sv_handled : sv_serving s = false -> sv_handlers s = [];
  sv_aborting pc aborted current superseded h : sv_main s = mAborting pc aborted current superseded h ->
    exists pid, sv_handlers s !! h = Some (hAwait pid) /\ pidOf (sv_workers s) aborted = Some pid;
  sv_checking pid h current superseded : sv_main s = mAbortCheck pid h current superseded ->
    sv_handlers s !! h = Some (hAwait pid);
}.

Definition supervisorInv (s : supervisor) : Prop := ownersInv s /\ phaseInv s.

Lemma stateOf_set state w w' ws :
  stateOf (setWorker state w ws) w' =
  if decide (w = w') then const state <$> stateOf ws w' else stateOf ws w'.
Proof.
  unfold stateOf, setWorker. rewrite list_lookup_alter. case_decide; [|done]. subst. by destruct (ws !! w').
Qed.

Lemma setWorker_length state w ws : length (setWorker state w ws) = length ws.
Proof. apply length_alter. Qed.

Lemma stateOf_lt ws w : is_Some (stateOf ws w) <-> (w < length ws)%nat.
Proof. unfold stateOf. rewrite fmap_is_Some. apply lookup_lt_is_Some. Qed.

(** Replacing a handler replaces what it owns. *)
Lemma handlers_owned hs i h h' :
  hs !! i = Some h ->
  concat (map handlerOwned (<[i := h']> hs)) ++ handlerOwned h ≡ₚ concat (map handlerOwned hs) ++ handlerOwned h'.
Proof.
  revert i. induction hs as [|x hs IH]; intros [|i] H; try done; cbn in *.
  - simplify_eq. solve_Permutation.
  - specialize (IH i H). rewrite <- !app_assoc, IH. done.
Qed.

Lemma handlers_owned_same hs i h h' :
  hs !! i = Some h -> handlerOwned h = handlerOwned h' ->
  concat (map handlerOwned (<[i := h']> hs)) ≡ₚ concat (map handlerOwned hs).
Proof. intros H E. pose proof (handlers_owned hs i h h' H) as P. rewrite E in P. by apply (inj (.++ _)) in P. Qed.

(** Receiving from the wait channels of all of [ws]. *)
Definition consumeAll (dropped : list nat) (ws : list worker) : list worker :=
  foldl (fun ws w => setWorker wConsumed w ws) ws dropped.

Lemma consumeAll_length dropped ws : length (consumeAll dropped ws) = length ws.
Proof. revert ws. induction dropped as [|w d IH]; intros ws; [done|]. unfold consumeAll in *. cbn [foldl]. by rewrite IH, setWorker_length. Qed.

Lemma consumeAll_state dropped ws w :
  stateOf (consumeAll dropped ws) w = if decide (w ∈ dropped) then const wConsumed <$> stateOf ws w else stateOf ws w.
Proof.
  revert ws. induction dropped as [|x d IH]; intros ws; [done|]. unfold consumeAll in *. cbn [foldl]. rewrite IH, stateOf_set.
  destruct (stateOf ws w); repeat case_decide; set_unfold; tauto || (exfalso; intuition congruence).
Qed.

Lemma runningWorkers_spec sup ws ws' running :
  NoDup sup -> runningWorkers ws sup = (ws', running) ->
  exists dropped, sup ≡ₚ dropped ++ running /\ ws' = consumeAll dropped ws /\
    Forall (fun w => stateOf ws w = Some wReported) dropped.
Proof.
  intros Hnd. revert ws ws' running. induction Hnd as [|w sup Hw Hnd IH]; intros ws ws' running H; cbn in H.
  { simplify_eq. by exists []. }
  case_decide as Hs.
  - destruct (IH _ _ _ H) as (d & Hp & -> & Hd). exists (w :: d). split_and!; [by rewrite Hp|done|].
    constructor; [done|]. rewrite Forall_forall in *. intros x Hx. specialize (Hd x Hx). rewrite stateOf_set in Hd.
    case_decide; [|done]. subst. exfalso. apply Hw. rewrite Hp. set_solver.
  - destruct (runningWorkers ws sup) as [ws1 r1] eqn:E. simplify_eq.
    destruct (IH _ _ _ E) as (d & Hp & -> & Hd). exists d. split_and!; [|done|done]. rewrite Hp. solve_Permutation.
Qed.

(** ** Preservation *)

(** The workers in [dropped] were reaped, and no other. *)
Definition moved (dropped : list nat) (ws ws' : list worker) : Prop :=
  length ws' = length ws /\ forall w,
    (w ∈ dropped -> stateOf ws' w = Some wConsumed) /\
    (w ∉ dropped -> stateOf ws w = Some wConsumed <-> stateOf ws' w = Some wConsumed).

Lemma moved_refl ws : moved [] ws ws.
Proof. split; [done|]. intros w. split; [by intros ?%elem_of_nil|done]. Qed.

Lemma moved_state w old new ws :
  stateOf ws w = Some old -> old <> wConsumed -> new <> wConsumed -> moved [] ws (setWorker new w ws).
Proof.
  intros H Ho Hn. split; [apply setWorker_length|]. intros w'. split; [by intros ?%elem_of_nil|]. intros _.
  rewrite stateOf_set. case_decide; [|done]. subst. rewrite H. cbn. split; intros [= E]; by subst.
Qed.

Lemma moved_consume w ws : is_Some (stateOf ws w) -> moved [w] ws (setWorker wConsumed w ws).
Proof.
  intros [k Hk]. split; [apply setWorker_length|]. intros w'. rewrite stateOf_set, list_elem_of_singleton.
  split; intros ?; case_decide; subst; try done. by rewrite Hk.
Qed.

Lemma moved_consumeAll dropped ws :
  Forall (fun w => stateOf ws w = Some wReported) dropped -> moved dropped ws (consumeAll dropped ws).
Proof.
  intros Hd. rewrite Forall_forall in Hd. split; [apply consumeAll_length|]. intros w. rewrite consumeAll_state.
  split; intros Hw; case_decide; try done. by rewrite Hd.
Qed.

Lemma owners_moved s s' dropped :
  ownersInv s -> owned s ≡ₚ dropped ++ owned s' -> moved dropped (sv_workers s) (sv_workers s') ->
  abandoned (sv_main s') = abandoned (sv_main s) ->
  (sv_ready s = rdSent rdExitedBefore -> sv_ready s' = rdSent rdExitedBefore \/ 0%nat ∈ dropped) ->
  ownersInv s'.
Proof.
  intros Hi Hp [Hlen Hm] Ha Hr. pose proof (sv_nodup _ Hi) as Hnd. rewrite Hp in Hnd.
  apply NoDup_app in Hnd as (_ & Hdis & Hnd).
  assert (forall w, w ∈ owned s <-> w ∈ dropped \/ w ∈ owned s') as Hin by (intros w; by rewrite Hp, elem_of_app).
  split.
  - done.
  - intros w Hw. rewrite Hlen. apply (sv_bound _ Hi), Hin. by right.
  - intros w state Hs Hw. rewrite Ha. destruct (decide (w ∈ dropped)) as [Hd|Hd].
    { left. apply (Hm w) in Hd. congruence. }
    assert (is_Some (stateOf (sv_workers s) w)) as [st Hst] by (rewrite stateOf_lt, <- Hlen, <- stateOf_lt; by eexists).
    destruct (sv_unowned _ Hi w st Hst) as [->|?]; [|left|by right].
    + rewrite Hin. tauto.
    + apply (Hm w) in Hst; [|done]. congruence.
  - intros w Hw Hc. assert (w ∉ dropped) as Hd by (intros ?; by apply (Hdis w)).
    destruct (sv_live _ Hi w) as [H0 ->]; [by apply Hin; right|by apply (Hm w)|].
    destruct (Hr H0) as [?|?]; [done|]. by destruct Hd.
  - intros w Hw. rewrite Ha in Hw. destruct (sv_left _ Hi w Hw) as [H1 H2]. rewrite Hin in H1.
    split; [tauto|]. by rewrite Hlen.
Qed.

(** Replacing a handler, when the rest of the owned workers is [rest]. *)
Lemma owned_handler main hs i h h' dropped :
  hs !! i = Some h -> handlerOwned h = dropped ++ handlerOwned h' ->
  main ++ concat (map handlerOwned hs) ≡ₚ dropped ++ main ++ concat (map handlerOwned (<[i := h']> hs)).
Proof.
  intros H E. pose proof (handlers_owned hs i h h' H) as P. rewrite E in P.
  rewrite app_assoc in P. apply (inj (.++ _)) in P.
  rewrite <- P. solve_Permutation.
Qed.

Lemma startOwned s : phaseInv s -> sv_ready s <> rdGone -> forall w, w ∈ owned s -> w = 0%nat.
Proof.
  intros Hi Hr w Hw. destruct (sv_start _ Hi Hr) as [Hs Hb]. unfold owned in Hw. rewrite (sv_handled _ Hi Hb) in Hw.
  destruct (sv_main s); cbn in *; try done.
  - by apply list_elem_of_singleton in Hw.
  - destruct Hs as (-> & -> & _). by apply list_elem_of_singleton in Hw.
  - by apply elem_of_nil in Hw.
Qed.

Lemma owners_readyExit ws m b hs :
  stateOf ws 0 = Some wReported -> supervisorInv (MkSupervisor ws m rdWaiting b hs) ->
  ownersInv (MkSupervisor (setWorker wConsumed 0 ws) m (rdSent rdExitedBefore) b hs).
Proof.
  intros H0 [Hi Hp]. pose proof (startOwned _ Hp ltac:(done)) as Hst. split; cbn.
  - apply (sv_nodup _ Hi).
  - intros w Hw. rewrite setWorker_length. by apply (sv_bound _ Hi).
  - intros w state Hs Hw. rewrite stateOf_set in Hs. case_decide as E.
    + left. subst. rewrite H0 in Hs. by simplify_eq/=.
    + by apply (sv_unowned _ Hi w).
  - intros w Hw _. split; [done|]. by apply Hst.
  - intros w Hw. rewrite setWorker_length. by apply (sv_left _ Hi).
Qed.

Lemma owners_control current superseded ws b hs :
  supervisorInv (MkSupervisor ws (mLoop current superseded) rdGone b hs) ->
  ownersInv (MkSupervisor ws (finish superseded (oControl current)) rdGone b hs).
Proof.
  intros [Hi Hp]. pose proof (sv_nodup _ Hi) as Hnd. unfold owned in Hnd. cbn in Hnd. apply NoDup_cons in Hnd as [Hc Hnd].
  assert (owned (MkSupervisor ws (finish superseded (oControl current)) rdGone b hs) =
    superseded ++ concat (map handlerOwned hs)) as E by (by destruct superseded).
  assert (abandoned (finish superseded (oControl current)) = Some current) as Ea by (by destruct superseded).
  split; rewrite ?E; cbn [sv_workers sv_main sv_ready]; rewrite ?Ea.
  - done.
  - intros w Hw. apply (sv_bound _ Hi). unfold owned. cbn. set_solver.
  - intros w state Hs Hw. destruct (decide (w = current)) as [->|]; [by right|].
    destruct (sv_unowned _ Hi w state Hs) as [?|?]; [unfold owned; cbn; set_solver|by left|done].
  - intros w Hw Hs. destruct (sv_live _ Hi w) as [? _]; [unfold owned; cbn; set_solver|done|done].
  - intros w [= <-]. split; [done|]. apply (sv_bound _ Hi). unfold owned. cbn. set_solver.
Qed.

Lemma stateOf_app ws pid w :
  stateOf (ws ++ [MkWorker pid wRunning]) w =
  if decide (w = length ws) then Some wRunning else stateOf ws w.
Proof.
  unfold stateOf. case_decide as E.
  - subst. by rewrite lookup_app_r, Nat.sub_diag by done.
  - destruct (decide (w < length ws)%nat).
    + by rewrite lookup_app_l.
    + rewrite !lookup_ge_None_2; [done|lia|]. rewrite length_app. cbn. lia.
Qed.

Lemma owners_start h pid ws m r b hs :
  hs !! h = Some (hRequest rqReplace) -> ownersInv (MkSupervisor ws m r b hs) ->
  ownersInv (MkSupervisor (ws ++ [MkWorker pid wRunning]) m r b (<[h := hOffer (length ws)]> hs)).
Proof.
  intros Hh Hi.
  assert (owned (MkSupervisor (ws ++ [MkWorker pid wRunning]) m r b (<[h := hOffer (length ws)]> hs))
    ≡ₚ length ws :: owned (MkSupervisor ws m r b hs)) as Hp.
  { unfold owned. cbn [sv_main sv_handlers]. pose proof (handlers_owned hs h _ (hOffer (length ws)) Hh) as P.
    cbn [handlerOwned] in P. rewrite app_nil_r in P. rewrite P. solve_Permutation. }
  assert (forall w, w ∈ owned (MkSupervisor ws m r b hs) -> w <> length ws) as Hlt
    by (intros w Hw ->; apply (sv_bound _ Hi) in Hw; cbn in Hw; lia).
  split; cbn [sv_workers sv_main sv_ready].
  - rewrite Hp. constructor; [|apply (sv_nodup _ Hi)]. intros Hw. by apply Hlt in Hw.
  - intros w. rewrite Hp, length_app, elem_of_cons. cbn. intros [->|Hw]; [lia|].
    apply (sv_bound _ Hi) in Hw. cbn in Hw. lia.
  - intros w state. rewrite Hp, stateOf_app, not_elem_of_cons. case_decide; [tauto|]. intros Hs [_ Hw].
    by apply (sv_unowned _ Hi w).
  - intros w. rewrite Hp, stateOf_app, elem_of_cons. case_decide; [done|]. intros [->|Hw] Hs; [done|].
    by apply (sv_live _ Hi w).
  - intros w Hw. destruct (sv_left _ Hi w Hw) as [H1 H2]. cbn in H2. rewrite Hp, not_elem_of_cons, length_app. cbn.
    split; [split; [lia|done]|lia].
Qed.

Lemma stopStep_moved ws w pc next ws' :
  stopStep ws w pc next ws' -> moved (if next is Some _ then [] else [w]) ws ws'.
Proof. intros []; try apply moved_refl. apply moved_consume. by eexists. Qed.

Lemma owned_finish superseded o ws r b hs :
  owned (MkSupervisor ws (finish superseded o) r b hs) = superseded ++ concat (map handlerOwned hs).
Proof. by destruct superseded. Qed.

Lemma abandoned_finish superseded o : abandoned (finish superseded o) = abandoned (mReturned o).
Proof. by destruct superseded. Qed.

Lemma running_moved sup ws ws' running rest :
  NoDup (sup ++ rest) -> runningWorkers ws sup = (ws', running) ->
  exists dropped, sup ≡ₚ dropped ++ running /\ moved dropped ws ws'.
Proof.
  intros (Hnd & _ & _)%NoDup_app H. destruct (runningWorkers_spec _ _ _ _ Hnd H) as (d & Hp & -> & Hd).
  exists d. split; [done|]. by apply moved_consumeAll.
Qed.

(** The superseded workers of a state with two more owned ones. *)
Lemma owned_superseded current superseded ws m r b hs extra :
  ownersInv (MkSupervisor ws m r b hs) -> mainOwned m = extra ++ current :: superseded ->
  NoDup (superseded ++ concat (map handlerOwned hs)).
Proof.
  intros Hi E. pose proof (sv_nodup _ Hi) as Hnd. unfold owned in Hnd. cbn in Hnd. rewrite E in Hnd.
  rewrite <- app_assoc in Hnd. apply NoDup_app in Hnd as (_ & _ & Hnd). by apply NoDup_cons in Hnd as [_ ?].
Qed.

Lemma step_owners s s' : supervisorInv s -> step s s' -> ownersInv s'.
Proof.
  intros [Hi Hp] Hst. destruct Hst as [Hst|Hst|Hst|Hst|Hst]; destruct Hst.
  all: try (apply (owners_moved _ _ [] Hi); cbn; [|apply moved_refl|done|by left]; done).
  all: try (apply (owners_moved _ _ [] Hi); unfold owned; cbn; [|apply moved_refl|done|by left];
    first [by rewrite map_app, concat_app, app_nil_r|by eapply (owned_handler _ _ _ _ _ [])|by eapply (owned_handler [] _ _ _ _ [])]).
  - apply (owners_moved _ _ [] Hi); cbn; [done|by eapply moved_state|done|by left].
  - apply (owners_moved _ _ [] Hi); cbn; [done|by eapply moved_state|done|by left].
  - by apply owners_readyExit.
  - apply (owners_moved _ _ [0%nat] Hi); cbn; [done| |done|set_solver].
    split; [done|]. intros w. rewrite list_elem_of_singleton. split; [intros ->|done]. by apply (sv_stolen _ Hp).
  - apply (owners_moved _ _ [current] Hi); cbn [sv_main sv_ready sv_workers].
    + by rewrite owned_finish.
    + apply moved_consume. by eexists.
    + by rewrite abandoned_finish.
    + by left.
  - destruct r; [exfalso; by destruct (sv_start _ Hp)..|]. by apply owners_control.
  - apply (owners_moved _ _ [] Hi); unfold owned; cbn; [|apply moved_refl|done|by left].
    pose proof (owned_handler (current :: superseded) hs h (hOffer w) (hSent w) [w] H eq_refl) as P. cbn in P.
    rewrite P. solve_Permutation.
  - destruct (running_moved _ _ _ _ _ (owned_superseded current superseded _ _ _ _ _ [w] Hi eq_refl) H) as (d & Hd & Hm).
    apply (owners_moved _ _ d Hi); unfold owned; cbn; [|done|done|by left]. rewrite Hd. solve_Permutation.
  - apply (owners_moved _ _ [] Hi); unfold owned; cbn; [|apply moved_refl|done|by left].
    by eapply (owned_handler (current :: superseded) _ _ _ _ []).
  - destruct (running_moved _ _ _ _ _ (owned_superseded current superseded _ _ _ _ _ [] Hi eq_refl) H) as (d & Hd & Hm).
    apply (owners_moved _ _ d Hi); unfold owned; cbn; [|done|done|by left].
    rewrite <- (handlers_owned_same hs h (hAwait pid) (hReplied pid false)); [|by eapply (sv_checking _ Hp)|done].
    rewrite Hd. solve_Permutation.
  - destruct (running_moved _ _ _ _ _ (owned_superseded current superseded _ _ _ _ _ [] Hi eq_refl) H) as (d & Hd & Hm).
    apply (owners_moved _ _ d Hi); unfold owned; cbn; [|done|done|by left]. rewrite Hd. solve_Permutation.
  - apply (owners_moved _ _ [] Hi); cbn; [done|exact (stopStep_moved _ _ _ _ _ H)|done|by left].
  - apply (owners_moved _ _ [aborted] Hi); unfold owned; cbn; [|exact (stopStep_moved _ _ _ _ _ H)|done|by left].
    rewrite <- (handlers_owned_same hs h (hAwait pid) (hReplied pid true)); [done|done|done].
  - apply (owners_moved _ _ [] Hi); cbn; [done|exact (stopStep_moved _ _ _ _ _ H)|done|by left].
  - apply (owners_moved _ _ [w] Hi); cbn [sv_main sv_ready sv_workers].
    + by rewrite owned_finish.
    + exact (stopStep_moved _ _ _ _ _ H).
    + rewrite abandoned_finish. by destruct o.
    + by left.
  - by apply owners_start.
  - apply (owners_moved _ _ [] Hi); unfold owned; cbn; [|exact (stopStep_moved _ _ _ _ _ H0)|done|by left].
    by eapply (owned_handler _ _ _ _ _ []).
  - apply (owners_moved _ _ [w] Hi); unfold owned; cbn; [|exact (stopStep_moved _ _ _ _ _ H0)|done|by left].
    by eapply (owned_handler _ _ _ _ _ [w]).
Qed.

Lemma moved_consumed dropped ws ws' w :
  moved dropped ws ws' -> stateOf ws w = Some wConsumed -> stateOf ws' w = Some wConsumed.
Proof.
  intros [_ Hm] Hs. destruct (Hm w) as [H1 H2]. destruct (decide (w ∈ dropped)) as [Hd|Hd]; [by apply H1|by apply H2].
Qed.

Lemma await_insert (hs : list handlerPC) h0 x y h pid :
  hs !! h0 = Some x -> x <> hAwait pid -> hs !! h = Some (hAwait pid) -> <[h0 := y]> hs !! h = Some (hAwait pid).
Proof. intros H0 Hx H. rewrite list_lookup_insert_ne; [done|]. intros ->. congruence. Qed.

Lemma running_consumed sup ws ws' running w :
  runningWorkers ws sup = (ws', running) -> stateOf ws w = Some wConsumed -> stateOf ws' w = Some wConsumed.
Proof.
  revert ws ws' running. induction sup as [|x sup IH]; intros ws ws' running H Hw; cbn in H; [by simplify_eq|].
  case_decide.
  - eapply IH; [done|]. rewrite stateOf_set. case_decide; [|done]. by rewrite Hw.
  - destruct (runningWorkers ws sup) as [ws1 r1] eqn:E. simplify_eq. by eapply IH.
Qed.

(** What a step does to a worker that was reaped: nothing. *)
Lemma step_consumed s s' w :
  step s s' -> stateOf (sv_workers s) w = Some wConsumed -> stateOf (sv_workers s') w = Some wConsumed.
Proof.
  intros Hst Hw. destruct Hst as [Hst|Hst|Hst|Hst|Hst]; destruct Hst; cbn in *; try done.
  all: try (rewrite stateOf_set; case_decide; subst; [by rewrite Hw|done]).
  all: try by eapply running_consumed.
  all: try by (eapply moved_consumed; [by eapply stopStep_moved|]).
  1-2: rewrite stateOf_set; case_decide; subst; congruence.
  rewrite stateOf_app. case_decide; [|done]. subst. unfold stateOf in Hw. by rewrite lookup_ge_None_2 in Hw.
Qed.

Lemma step_stolen s s' :
  phaseInv s -> step s s' -> sv_ready s' = rdSent rdExitedBefore -> stateOf (sv_workers s') 0 = Some wConsumed.
Proof.
  intros Hp Hst Hr. destruct (decide (stateOf (sv_workers s) 0 = Some wConsumed)) as [Hc|Hc].
  { by eapply step_consumed. }
  pose proof (sv_stolen _ Hp) as Hs. destruct Hst as [Hst|Hst|Hst|Hst|Hst]; destruct Hst; cbn in *; try tauto; try done.
  - by destruct ok.
  - rewrite stateOf_set. by rewrite H.
Qed.

Lemma step_start s s' :
  phaseInv s -> step s s' -> sv_ready s' <> rdGone -> startup (sv_main s') /\ sv_serving s' = false.
Proof.
  intros Hp Hst Hr. assert (sv_ready s <> rdGone) as Hr0 by (intros E; destruct Hst as [Hst|Hst|Hst|Hst|Hst]; destruct Hst; cbn in *; congruence).
  destruct (sv_start _ Hp Hr0) as [Hs Hb].
  destruct Hst as [Hst|Hst|Hst|Hst|Hst]; destruct Hst; cbn in *; try tauto; try done; try (destruct Hs as (-> & -> & ->)); done.
Qed.

Lemma step_handled s s' : phaseInv s -> step s s' -> sv_serving s' = false -> sv_handlers s' = [].
Proof.
  intros Hp Hst Hb. assert (sv_serving s = false) as Hb0 by (destruct Hst as [Hst|Hst|Hst|Hst|Hst]; destruct Hst; cbn in *; congruence).
  pose proof (sv_handled _ Hp Hb0) as Hh. by destruct Hst as [Hst|Hst|Hst|Hst|Hst]; destruct Hst; cbn in *; subst.
Qed.

Lemma pidOf_set state w w' ws : pidOf (setWorker state w ws) w' = pidOf ws w'.
Proof. unfold pidOf, setWorker. rewrite list_lookup_alter. case_decide; [|done]. subst. by destruct (ws !! w'). Qed.

Lemma pidOf_running sup ws ws' running w :
  runningWorkers ws sup = (ws', running) -> pidOf ws' w = pidOf ws w.
Proof.
  revert ws ws' running. induction sup as [|x sup IH]; intros ws ws' running H; cbn in H; [by simplify_eq|].
  case_decide.
  - rewrite (IH _ _ _ H). apply pidOf_set.
  - destruct (runningWorkers ws sup) as [ws1 r1] eqn:E. simplify_eq. by eapply IH.
Qed.

(** A worker keeps its pid. *)
Lemma step_pid s s' w pid : step s s' -> pidOf (sv_workers s) w = Some pid -> pidOf (sv_workers s') w = Some pid.
Proof.
  intros Hst Hw. destruct Hst as [Hst|Hst|Hst|Hst|Hst]; destruct Hst; cbn in *; rewrite ?pidOf_set; try done.
  all: try by erewrite pidOf_running.
  all: try (match goal with H : stopStep _ _ _ _ _ |- _ => destruct H end; by rewrite ?pidOf_set).
  unfold pidOf in *. destruct (ws !! w) eqn:E; [|done]. by rewrite (lookup_app_l_Some _ _ _ _ E).
Qed.

(** The handler an abort answers is still waiting, for the worker it named. *)
Definition waitsFor (ws : list worker) (m : mainPC) (hs : list handlerPC) : Prop :=
  match m with
  | mAborting _ aborted _ _ h => exists pid, hs !! h = Some (hAwait pid) /\ pidOf ws aborted = Some pid
  | mAbortCheck pid h _ _ => hs !! h = Some (hAwait pid)
  | _ => True
  end.

Lemma waitsFor_insert ws m hs h x y :
  hs !! h = Some x -> (forall pid, x <> hAwait pid) -> waitsFor ws m hs -> waitsFor ws m (<[h := y]> hs).
Proof.
  intros Hh Hx. destruct m; cbn; try done.
  - intros H. by eapply await_insert.
  - intros (pid & H & Hp). exists pid. split; [by eapply await_insert|done].
Qed.

Lemma waitsFor_app ws m hs l : waitsFor ws m hs -> waitsFor ws m (hs ++ l).
Proof.
  destruct m; cbn; try done.
  - intros H. by apply lookup_app_l_Some.
  - intros (pid & H & Hp). exists pid. split; [by apply lookup_app_l_Some|done].
Qed.

Lemma waitsFor_finish ws superseded o hs : waitsFor ws (finish superseded o) hs.
Proof. by destruct superseded. Qed.

Lemma waitsFor_pids ws ws' m hs :
  (forall w pid, pidOf ws w = Some pid -> pidOf ws' w = Some pid) -> waitsFor ws m hs -> waitsFor ws' m hs.
Proof. intros Hp. destruct m; cbn; try done. intros (pid & H & E). eauto. Qed.

Lemma step_waits s s' :
  waitsFor (sv_workers s) (sv_main s) (sv_handlers s) -> step s s' ->
  waitsFor (sv_workers s') (sv_main s') (sv_handlers s').
Proof.
  intros Hw Hst. pose proof (fun w pid => step_pid s s' w pid Hst) as Hp.
  apply (waitsFor_pids _ _ _ _ Hp) in Hw. clear Hp.
  destruct Hst as [Hst|Hst|Hst|Hst|Hst]; destruct Hst; cbn [sv_main sv_handlers sv_workers] in *; try done; try by eapply waitsFor_insert.
  all: try apply waitsFor_finish.
  - cbn. rewrite list_lookup_insert_eq; [done|]. by eapply lookup_lt_Some.
  - cbn in *. exists pid. by rewrite (pidOf_running _ _ _ _ _ H).
  - by apply waitsFor_app.
Qed.

Lemma step_supervisorInv s s' : supervisorInv s -> step s s' -> supervisorInv s'.
Proof.
  intros Hi Hst. split; [by eapply step_owners|]. destruct Hi as [_ Hp].
  assert (waitsFor (sv_workers s') (sv_main s') (sv_handlers s')) as Hw.
  { eapply step_waits; [|done]. unfold waitsFor.
    destruct (sv_main s) eqn:E; try done; [by eapply (sv_checking _ Hp)|by eapply (sv_aborting _ Hp)]. }
  split.
  - by apply (step_start s).
  - intros Hm. pose proof (sv_starting _ Hp) as H.
    destruct Hst as [Hst|Hst|Hst|Hst|Hst]; destruct Hst; cbn in *; subst; try done; try (by apply H); by destruct superseded || destruct todo.
  - by apply (step_stolen s).
  - by apply (step_handled s).
  - intros pc aborted current superseded h E. by rewrite E in Hw.
  - intros pid h current superseded E. by rewrite E in Hw.
Qed.

Lemma initial_supervisorInv pid : supervisorInv (initial pid).
Proof.
  split; split; cbn; try done.
  - apply NoDup_singleton.
  - intros w Hw%list_elem_of_singleton. subst. cbn. lia.
  - intros [|w] state Hs Hw; [exfalso; apply Hw; set_solver|done].
  - intros w Hw%list_elem_of_singleton. by subst.
Qed.

Lemma reachable_supervisorInv pid s : reachableFrom pid s -> supervisorInv s.
Proof.
  intros Hr. pose proof (initial_supervisorInv pid) as Hi. unfold reachableFrom in Hr.
  induction Hr as [|x z w Hst _ IH]; [done|]. apply IH. by eapply step_supervisorInv.
Qed.

(** ** Stops end *)

(** A worker that was not reaped can get as far as having its exit reported. *)
Lemma worker_reports ws m r b hs w state :
  stateOf ws w = Some state -> state <> wConsumed ->
  exists ws', rtc step (MkSupervisor ws m r b hs) (MkSupervisor ws' m r b hs) /\
    stateOf ws' w = Some wReported /\ forall w', w' <> w -> stateOf ws' w' = stateOf ws w'.
Proof.
  assert (forall ws, stateOf ws w = Some wExited ->
    exists ws', rtc step (MkSupervisor ws m r b hs) (MkSupervisor ws' m r b hs) /\
    stateOf ws' w = Some wReported /\ forall w', w' <> w -> stateOf ws' w' = stateOf ws w') as Hexited.
  { intros ws1 H. exists (setWorker wReported w ws1). split; [by apply rtc_once, stepProcess, sReport|]. rewrite stateOf_set, decide_True by done.
    rewrite H. split; [done|]. intros w' Hw. by rewrite stateOf_set, decide_False. }
  intros H Hc. destruct state; [|by apply Hexited|by exists ws|done].
  destruct (Hexited (setWorker wExited w ws)) as (ws' & Hr & Hs & Ho).
  { by rewrite stateOf_set, decide_True, H. }
  exists ws'. split_and!; [|done|].
  - eapply rtc_l; [by apply stepProcess, sExit|done].
  - intros w' Hw. by rewrite Ho, stateOf_set, decide_False.
Qed.

(** [stopWorker] in the main goroutine gets to the receive on the wait channel. *)
Lemma stop_waits pc w todo o ws r b hs :
  exists pc', pc' <> stSignal /\
    rtc step (MkSupervisor ws (mStopping pc w todo o) r b hs) (MkSupervisor ws (mStopping pc' w todo o) r b hs).
Proof.
  destruct pc; [exists stWait|exists stWait|exists stKilled]; split; try done.
  apply rtc_once, stepLoop, sStop. constructor.
Qed.

Lemma stopping_next pc w todo o ws r b hs state :
  stateOf ws w = Some state -> state <> wConsumed ->
  exists ws', rtc step (MkSupervisor ws (mStopping pc w todo o) r b hs) (MkSupervisor ws' (finish todo o) r b hs) /\
    forall w', w' <> w -> stateOf ws' w' = stateOf ws w'.
Proof.
  intros Hs Hc. destruct (worker_reports ws (mStopping pc w todo o) r b hs w state Hs Hc) as (ws1 & Hr & Hs1 & Ho).
  destruct (stop_waits pc w todo o ws1 r b hs) as (pc' & Hpc & Hw). exists (setWorker wConsumed w ws1). split.
  - etrans; [apply Hr|]. etrans; [apply Hw|]. apply rtc_once, stepLoop, (sStopped pc'). by apply stopWaited.
  - intros w' Hw'. by rewrite stateOf_set, decide_False, Ho.
Qed.

Lemma stopping_returns todo w pc o ws r b hs :
  NoDup (w :: todo) -> (forall x, x ∈ w :: todo -> exists state, stateOf ws x = Some state /\ state <> wConsumed) ->
  exists s', rtc step (MkSupervisor ws (mStopping pc w todo o) r b hs) s' /\ sv_main s' = mReturned o.
Proof.
  revert w pc ws. induction todo as [|w' todo IH]; intros w pc ws Hnd Hl.
  all: destruct (Hl w (list_elem_of_here _ _)) as (state & Hs & Hc).
  - destruct (stopping_next pc w [] o ws r b hs state Hs Hc) as (ws1 & Hr & _). by eexists.
  - apply NoDup_cons in Hnd as [Hnw Hnd].
    destruct (stopping_next pc w (w' :: todo) o ws r b hs state Hs Hc) as (ws1 & Hr & Ho).
    destruct (IH w' stSignal ws1 Hnd) as (s' & Hs' & Hm).
    { intros x Hx. assert (x <> w) by (by intros ->). rewrite Ho by done. apply Hl. by apply list_elem_of_further. }
    exists s'. split; [|done]. etrans; [apply Hr|done].
Qed.

(** A loop that is cancelled returns. *)
Lemma loop_returns current superseded ws b hs :
  supervisorInv (MkSupervisor ws (mLoop current superseded) rdGone b hs) ->
  exists s', rtc step (MkSupervisor ws (mLoop current superseded) rdGone b hs) s' /\ sv_main s' = mReturned oNil.
Proof.
  intros [Hi _]. destruct (stopping_returns superseded current stSignal oNil ws rdGone b hs) as (s' & Hr & Hm).
  - pose proof (sv_nodup _ Hi) as Hnd. unfold owned in Hnd. by apply NoDup_app in Hnd as [? _].
  - intros x Hx. assert (x ∈ owned (MkSupervisor ws (mLoop current superseded) rdGone b hs)) as Ho
      by (unfold owned; cbn [sv_main mainOwned]; rewrite elem_of_app; by left).
    pose proof (sv_bound _ Hi x Ho) as Hb. apply stateOf_lt in Hb as [state Hs]. exists state. split; [done|].
    intros ->. by destruct (sv_live _ Hi x Ho Hs).
  - exists s'. split; [|done]. eapply rtc_l; [apply stepLoop, sLoopStop|done].
Qed.

Lemma owned_live s w : supervisorInv s -> sv_ready s = rdGone -> w ∈ owned s ->
  exists state, stateOf (sv_workers s) w = Some state /\ state <> wConsumed.
Proof.
  intros [Hi _] Hr Ho. pose proof (sv_bound _ Hi w Ho) as Hb. apply stateOf_lt in Hb as [state Hs]. exists state.
  split; [done|]. intros ->. destruct (sv_live _ Hi w Ho Hs) as [? _]. congruence.
Qed.

Lemma serving_ready s : supervisorInv s -> sv_serving s = true -> sv_ready s = rdGone.
Proof.
  intros [_ Hp] Hs. destruct (sv_ready s) eqn:E; [..|done].
  all: destruct (sv_start _ Hp) as [_ ?]; congruence.
Qed.

Lemma steps_supervisorInv s s' : supervisorInv s -> rtc step s s' -> supervisorInv s'.
Proof. intros Hi Hr. induction Hr as [|x z w Hst _ IH]; [done|]. apply IH. by eapply step_supervisorInv. Qed.

(** An abort in progress gets back to the loop. *)
Lemma aborting_loops pc aborted current superseded h ws b hs :
  supervisorInv (MkSupervisor ws (mAborting pc aborted current superseded h) rdGone b hs) ->
  exists ws' hs', rtc step (MkSupervisor ws (mAborting pc aborted current superseded h) rdGone b hs)
    (MkSupervisor ws' (mLoop current superseded) rdGone b hs').
Proof.
  intros Hi. destruct (sv_aborting _ (proj2 Hi) _ _ _ _ _ eq_refl) as (pid & Hh & _).
  destruct (owned_live _ aborted Hi eq_refl) as (state & Hs & Hc); [unfold owned; cbn; set_solver|].
  destruct (worker_reports ws (mAborting pc aborted current superseded h) rdGone b hs aborted state Hs Hc)
    as (ws1 & Hr & Hs1 & _).
  assert (exists pc', pc' <> stSignal /\ rtc step (MkSupervisor ws1 (mAborting pc aborted current superseded h) rdGone b hs)
    (MkSupervisor ws1 (mAborting pc' aborted current superseded h) rdGone b hs)) as (pc' & Hpc & Hw).
  { destruct pc; [exists stWait|exists stWait|exists stKilled]; split; try done. apply rtc_once, stepLoop, sAbortStop. constructor. }
  eexists _, _. etrans; [apply Hr|]. etrans; [apply Hw|]. apply rtc_once. eapply stepLoop, sAborted; [by apply stopWaited|done].
Qed.

(** ** Properties *)

(** C7. A stopped supervisor leaves no worker behind.  When [SuperviseContext] has
    returned, every worker it or a control handler ever started has exited and been
    reaped, except a worker that a control handler is still about to stop, and, when the
    return was caused by an error of the control socket, the worker that was current. *)
Theorem supervisor_no_orphan pid s o w state :
  reachableFrom pid s -> sv_main s = mReturned o -> stateOf (sv_workers s) w = Some state ->
  state = wConsumed \/ o = oControl w \/
  exists h hp, sv_handlers s !! h = Some hp /\ w ∈ handlerOwned hp.
Proof.
  intros Hr Hm Hs. destruct (reachable_supervisorInv _ _ Hr) as [Hi _].
  destruct (decide (w ∈ owned s)) as [Ho|Ho].
  - right. right. unfold owned in Ho. rewrite Hm in Ho. cbn in Ho. apply list_elem_of_In, in_concat in Ho as (l & Hl & Hw).
    apply in_map_iff in Hl as (hp & <- & Hin). apply list_elem_of_In, list_elem_of_lookup in Hin as [h Hh].
    exists h, hp. split; [done|]. by apply list_elem_of_In.
  - destruct (sv_unowned _ Hi w state Hs Ho) as [?|Ha]; [by left|]. right. left. rewrite Hm in Ha. cbn in Ha.
    destruct o; by simplify_eq.
Qed.

(** The loop never loses the exit of a worker.  While the loop selects, its current
    worker and the superseded ones are distinct workers none of which was reaped: the
    receive on the wait channel of each of them will return when the process exits. *)
Theorem supervisor_loop_notices pid s current superseded :
  reachableFrom pid s -> sv_main s = mLoop current superseded ->
  NoDup (current :: superseded) /\
  forall w, w ∈ current :: superseded -> exists state, stateOf (sv_workers s) w = Some state /\ state <> wConsumed.
Proof.
  intros Hr Hm. pose proof (reachable_supervisorInv _ _ Hr) as Hi. pose proof (sv_nodup _ (proj1 Hi)) as Hnd.
  unfold owned in Hnd. rewrite Hm in Hnd. split; [by apply NoDup_app in Hnd as [? _]|].
  intros w Hw. apply owned_live; [done|..].
  - destruct (sv_ready s) eqn:E; [..|done]; destruct (sv_start _ (proj2 Hi)) as [Hst _]; try congruence; by rewrite Hm in Hst.
  - unfold owned. rewrite Hm. cbn [mainOwned]. rewrite elem_of_app. by left.
Qed.

(** A serving supervisor can always shut down.  From every reachable state in which
    the control socket is served, whatever replacement, abort or stop is in progress, the
    main goroutine can return. *)
Theorem supervisor_can_stop pid s :
  reachableFrom pid s -> sv_serving s = true ->
  exists s' o, rtc step s s' /\ sv_main s' = mReturned o.
Proof.
  intros Hr Hs. pose proof (reachable_supervisorInv _ _ Hr) as Hi. pose proof (serving_ready _ Hi Hs) as Hg.
  destruct s as [ws m r b hs]. cbn in Hs, Hg. subst r.
  assert (forall current superseded ws' hs', rtc step (MkSupervisor ws m rdGone b hs) (MkSupervisor ws' (mLoop current superseded) rdGone b hs') ->
    exists s' o, rtc step (MkSupervisor ws m rdGone b hs) s' /\ sv_main s' = mReturned o) as Hloop.
  { intros current superseded ws' hs' Hto. pose proof (steps_supervisorInv _ _ Hi Hto) as Hi'.
    destruct (loop_returns _ _ _ _ _ Hi') as (s' & Hr' & Hm'). exists s', oNil. split; [by etrans|done]. }
  destruct m as [|current superseded|w current superseded|apid h current superseded|pc aborted current superseded h|pc w todo o|o].
  - by destruct (sv_starting _ (proj2 Hi)).
  - by eapply Hloop.
  - destruct (runningWorkers ws superseded) as [ws' running] eqn:E. by eapply Hloop, rtc_once, stepLoop, sReplaced.
  - destruct (runningWorkers ws superseded) as [ws' running] eqn:E.
    destruct (decide (pidOf ws current = Some apid)) as [Ep|Ep];
      [destruct running as [|restored running _] using rev_ind|]; [by eapply Hloop, rtc_once, stepLoop, sAbortRefused; eauto| |].
    + pose proof (stepLoop _ _ (sAbortAccepted apid h current superseded ws ws' running restored rdGone b hs E Ep)) as Hst.
      destruct (aborting_loops stSignal current restored running h ws' b hs) as (ws2 & hs2 & H2); [by eapply step_supervisorInv|].
      eapply Hloop, rtc_l; [exact Hst|exact H2].
    + eapply Hloop, rtc_once, stepLoop, sAbortRefused; eauto.
  - destruct (aborting_loops _ _ _ _ _ _ _ _ Hi) as (ws2 & hs2 & H2). by eapply Hloop.
  - destruct (stopping_returns todo w pc o ws rdGone b hs) as (s' & Hr' & Hm'); [| |by exists s', o].
    + pose proof (sv_nodup _ (proj1 Hi)) as Hnd. unfold owned in Hnd. by apply NoDup_app in Hnd as [? _].
    + intros x Hx. apply (owned_live _ x Hi eq_refl). unfold owned. cbn [sv_main mainOwned]. rewrite elem_of_app. by left.
  - by eexists _, o.
Qed.

(** An abort does what it answers.  When the loop answers an abort request with
    success, the worker with the requested pid has exited and been reaped, and the loop
    goes on with another worker, which has not. *)
Theorem supervisor_abort_exact pid s s' h apid :
  reachableFrom pid s -> step s s' ->
  sv_handlers s !! h = Some (hAwait apid) -> sv_handlers s' !! h = Some (hReplied apid true) ->
  exists aborted current superseded, sv_main s' = mLoop current superseded /\
    pidOf (sv_workers s') aborted = Some apid /\ stateOf (sv_workers s') aborted = Some wConsumed /\
    stateOf (sv_workers s') current <> Some wConsumed /\ stateOf (sv_workers s') current <> None.
Proof.
  intros Hr Hst Hh Hh'. pose proof (reachable_supervisorInv _ _ Hr) as Hi.
  pose proof (step_supervisorInv _ _ Hi Hst) as Hi'. pose proof (fun w p => step_pid s s' w p Hst) as Hpid.
  destruct Hst as [Hst|Hst|Hst|Hst|Hst]; destruct Hst; cbn [sv_handlers sv_main sv_workers] in *; try congruence.
  all: try (destruct (decide (h = h0)) as [->|Hne];
    [rewrite list_lookup_insert_eq in Hh' by (by eapply lookup_lt_Some); congruence|
     rewrite list_lookup_insert_ne in Hh' by done; congruence]).
  - destruct (sv_aborting _ (proj2 Hi) _ _ _ _ _ eq_refl) as (p & Hw & Hp). cbn in Hw, Hp.
    destruct (decide (h = h0)) as [->|Hne]; [|rewrite list_lookup_insert_ne in Hh' by done; congruence].
    simplify_eq. assert (sv_ready (MkSupervisor ws (mAborting pc aborted current superseded h0) r b hs) = rdGone) as Hg.
    { apply serving_ready; [done|]. cbn. destruct b; [done|]. pose proof (sv_handled _ (proj2 Hi) eq_refl) as E. cbn in E. by subst. }
    cbn in Hg. subst r. exists aborted, current, superseded. split_and!; [done|by apply Hpid|..].
    + by apply (proj1 (proj2 (stopStep_moved _ _ _ _ _ H) aborted)), list_elem_of_singleton.
    + destruct (owned_live _ current Hi' eq_refl) as (st & Hs & Hc); [unfold owned; cbn; set_solver|]. cbn in Hs. congruence.
    + destruct (owned_live _ current Hi' eq_refl) as (st & Hs & Hc); [unfold owned; cbn; set_solver|]. cbn in Hs. congruence.
  - apply lookup_app_Some in Hh' as [?|[? Hh']]; [congruence|]. apply lookup_lt_Some in Hh. lia.
Qed.

(** ** The exit of a worker that two goroutines wait for *)

(** Nothing happens to a goroutine that waits for an exit another one has received. *)
Lemma stolen_stuck s s' :
  sv_main s = mStopping stKilled 0 [] oNil -> stateOf (sv_workers s) 0 = Some wConsumed -> rtc step s s' ->
  sv_main s' = mStopping stKilled 0 [] oNil.
Proof.
  intros Hm Hc Hr. revert Hm Hc. induction Hr as [|x y z Hst _ IH]; intros Hm Hc; [done|].
  apply IH; [|by eapply step_consumed]. destruct Hst as [Hst|Hst|Hst|Hst|Hst]; destruct Hst; cbn in *; simplify_eq; try done.
  - inversion H.
  - inversion H. subst. congruence.
Qed.

(** A signal before the first worker is ready; the worker exits; the goroutine that waits
    for readiness receives the exit before [stopWorker] does. *)
Definition hungSupervisor (pid : Z) : supervisor :=
  MkSupervisor [MkWorker pid wConsumed] (mStopping stKilled 0 [] oNil) (rdSent rdExitedBefore) false [].

Lemma hungSupervisor_reachable pid : reachableFrom pid (hungSupervisor pid).
Proof.
  unfold reachableFrom, initial. eapply rtc_l; [apply stepStart, sStartStop|].
  eapply rtc_l; [apply stepLoop, sStop, stopSignalled|]. eapply rtc_l; [by apply stepProcess, (sExit 0)|]. eapply rtc_l; [by apply stepProcess, (sReport 0)|].
  eapply rtc_l; [by apply stepReady, sReadyExit|]. eapply rtc_l; [apply stepLoop, sStop, stopTimeout|]. apply rtc_refl.
Qed.

(** A signal during the start can hang the supervisor.  The supervisor can reach a state
    in which the first worker has exited and been reaped and the main goroutine waits for
    that exit, and from which it never returns: whatever happens later, it stays there. *)
Theorem supervisor_start_hangs pid :
  exists s, reachableFrom pid s /\ stateOf (sv_workers s) 0 = Some wConsumed /\
    forall s', rtc step s s' -> sv_main s' = mStopping stKilled 0 [] oNil.
Proof.
  exists (hungSupervisor pid). split; [apply hungSupervisor_reachable|]. split; [done|].
  intros s' Hr. by apply (stolen_stuck (hungSupervisor pid)).
Qed.

(** ** A run with a replacement that is aborted *)

Definition sampleHandlers (abort : handlerPC) : list handlerPC := [hSent 1; abort].

(** The loop after a replacement, with an abort request for it. *)
Definition sampleReplaced : supervisor :=
  MkSupervisor [MkWorker 10 wRunning; MkWorker 11 wRunning] (mLoop 1 [0%nat]) rdGone true (sampleHandlers (hAbort 11)).

Lemma sampleReplaced_reachable : reachableFrom 10 sampleReplaced.
Proof.
  unfold reachableFrom, initial. eapply rtc_l; [apply stepReady, (sReady true)|]. eapply rtc_l; [apply stepStart, sStartOk|].
  eapply rtc_l; [apply stepHandler, (hAccept rqReplace)|]. eapply rtc_l; [apply stepHandler, (hAccept (rqAbort 11))|].
  eapply rtc_l; [apply stepHandler, (hStart 0 11); [done|]; split; [done|repeat constructor; done]|].
  eapply rtc_l; [by apply stepLoop, (sLoopReplacement 0)|]. eapply rtc_l; [by apply stepLoop, sReplaced|].
  eapply rtc_l; [by apply stepHandler, (hAbortRequest 1)|]. apply rtc_refl.
Qed.

(** The same, with the replacement about to be reaped. *)
Definition sampleAborting : supervisor :=
  MkSupervisor [MkWorker 10 wRunning; MkWorker 11 wReported] (mAborting stWait 1 0 [] 1) rdGone true
    (sampleHandlers (hAwait 11)).
Definition sampleAborted : supervisor :=
  MkSupervisor [MkWorker 10 wRunning; MkWorker 11 wConsumed] (mLoop 0 []) rdGone true
    (sampleHandlers (hReplied 11 true)).

Lemma sampleAborting_reachable : reachableFrom 10 sampleAborting.
Proof.
  eapply rtc_trans; [apply sampleReplaced_reachable|]. eapply rtc_l; [by apply stepLoop, (sLoopAbort 1)|].
  eapply rtc_l; [by eapply stepLoop, (sAbortAccepted 11 1 1 [0%nat] _ _ [] 0)|]. eapply rtc_l; [apply stepLoop, sAbortStop, stopSignalled|].
  eapply rtc_l; [by apply stepProcess, (sExit 1)|]. eapply rtc_l; [by apply stepProcess, (sReport 1)|]. apply rtc_refl.
Qed.

Lemma sampleAborted_step : step sampleAborting sampleAborted.
Proof. by eapply stepLoop, (sAborted stWait 1 0 [] 1 11); [apply stopWaited|]. Qed.

(** The supervisor after a control error with one superseded worker stopped. *)
Definition sampleLeft : supervisor :=
  MkSupervisor [MkWorker 10 wConsumed; MkWorker 11 wRunning] (mReturned (oControl 1)) rdGone true
    (sampleHandlers (hAbort 11)).

Lemma sampleLeft_reachable : reachableFrom 10 sampleLeft.
Proof.
  eapply rtc_trans; [apply sampleReplaced_reachable|]. eapply rtc_l; [apply stepLoop, sLoopControl|].
  eapply rtc_l; [apply stepLoop, sStop, stopSignalled|]. eapply rtc_l; [by apply stepProcess, (sExit 0)|]. eapply rtc_l; [by apply stepProcess, (sReport 0)|].
  eapply rtc_l; [by apply stepLoop, sStopped, stopWaited|]. apply rtc_refl.
Qed.

Lemma supervisor_no_orphan_witness :
  exists s, reachableFrom 10 s /\ sv_main s = mReturned (oControl 1) /\ stateOf (sv_workers s) 1 = Some wRunning /\
    (wRunning = wConsumed \/ oControl 1 = oControl 1 \/ exists h hp, sv_handlers s !! h = Some hp /\ 1%nat ∈ handlerOwned hp).
Proof.
  exists sampleLeft. split; [apply sampleLeft_reachable|]. split; [reflexivity|]. split; [reflexivity|].
  apply (supervisor_no_orphan 10 sampleLeft (oControl 1) 1 wRunning); [apply sampleLeft_reachable|reflexivity|reflexivity].
Defined.

Lemma supervisor_loop_notices_witness :
  reachableFrom 10 sampleReplaced /\ NoDup [1%nat; 0%nat].
Proof.
  split; [apply sampleReplaced_reachable|].
  apply (supervisor_loop_notices 10 sampleReplaced 1 [0%nat]); [apply sampleReplaced_reachable|reflexivity].
Defined.

Lemma supervisor_can_stop_witness :
  exists s' o, rtc step sampleAborting s' /\ sv_main s' = mReturned o.
Proof. apply (supervisor_can_stop 10 sampleAborting); [apply sampleAborting_reachable|reflexivity]. Defined.

Lemma supervisor_abort_exact_witness :
  exists aborted current superseded, sv_main sampleAborted = mLoop current superseded /\
    pidOf (sv_workers sampleAborted) aborted = Some 11.
Proof.
  destruct (supervisor_abort_exact 10 sampleAborting sampleAborted 1 11) as (a & c & sup & H1 & H2 & _);
    [apply sampleAborting_reachable|apply sampleAborted_step|reflexivity|reflexivity|]. exists a, c, sup. split; assumption.
Defined.
