(* ===== verification/DsControl.v ===== *)
(** * DsControl: control requests of the supervisor (internal/daemonsupervisor/supervisor.go)

    What a control request carries and how it travels: the environment of a replacement
    worker ([EnvWithOverrides]), and the frame of a request, a four-byte length that comes
    with the file descriptors and then the body.  The encoding of the body is JSON of a
    struct; it is a parameter here (the functions [marshal] and [unmarshal]), because the
    framing and the handling of the descriptors do not look into it. *)

From S2P Require Import Prelude GoBinary GoUtf8 GoStrconv.

Open Scope Z_scope.

(** ** Environments *)

Definition envKey (entry : bytes) : option bytes :=
  match Index entry [Byte.x3d] with
  | None | Some 0%nat => None
  | Some index => Some (take index entry)
  end.

(** The keys of the overrides. *)
Definition overrideKeys (overrides : list bytes) : gset bytes :=
  foldl (fun remove override => match envKey override with Some key => {[key]} ∪ remove | None => remove end) ∅ overrides.

Fixpoint keepEntries (remove : gset bytes) (base : list bytes) : list bytes :=
  match base with
  | [] => []
  | entry :: base =>
      match envKey entry with
      | None => entry :: keepEntries remove base
      | Some key => if decide (key ∈ remove) then keepEntries remove base else entry :: keepEntries remove base
      end
  end.

Definition EnvWithOverrides (base overrides : list bytes) : list bytes :=
  keepEntries (overrideKeys overrides) base ++ overrides.

Definition EnvReloadChild : bytes := lit "CLYDE_DAEMON_RELOAD_CHILD".
Definition EnvInheritedListeners : bytes := lit "CLYDE_DAEMON_INHERITED_LISTENERS".
Definition EnvReadyFD : bytes := lit "CLYDE_DAEMON_READY_FD".
Definition EnvSupervisorSocket : bytes := lit "CLYDE_DAEMON_SUPERVISOR_SOCKET".

(** [replacementWorkerEnvironment], with the listeners encoded. *)
Definition replacementWorkerEnvironment (environment : list bytes) (specJSON : bytes) (readyFD : Z)
    (supervisorSocketPath : bytes) : list bytes :=
  EnvWithOverrides environment
    [EnvReloadChild ++ lit "=1"; EnvInheritedListeners ++ lit "=" ++ specJSON;
     EnvReadyFD ++ lit "=" ++ Itoa readyFD; EnvSupervisorSocket ++ lit "=" ++ supervisorSocketPath].

(** The environment of the first worker. *)
Definition workerEnvironment (environ : list bytes) (readyFD : Z) (supervisorSocketPath : bytes) : list bytes :=
  EnvWithOverrides environ
    [EnvReloadChild ++ lit "="; EnvInheritedListeners ++ lit "=";
     EnvReadyFD ++ lit "=" ++ Itoa readyFD; EnvSupervisorSocket ++ lit "=" ++ supervisorSocketPath].

(** ** Frames *)

Definition controlLengthPrefixBytes : nat := 4.
Definition maxControlRequestBytes : Z := 2 ^ 20.

Inductive controlError :=
| ceEncode | cePayloadLimit
| ceRead | ceEOF | ceMessages | ceDescriptors | ceTruncated | ceEmpty | ceLimit | ceDecode.

(** [binary.BigEndian.PutUint32] and [Uint32]. *)
Definition putUint32BE (x : Z) : bytes := rev (leBytes 4 x).
Definition uint32BE (b : bytes) : Z := leValue (rev b).

Section frames.
Context {request : Type}.
Variable marshal : request -> option bytes.
Variable unmarshal : bytes -> option request.

(** What [sendControlRequest] writes: the length prefix, which carries the descriptors,
    and the body. *)
Definition sendControlRequest (req : request) : outcome controlError (bytes * bytes) :=
  match marshal req with
  | None => Fail ceEncode
  | Some payload =>
      if maxControlRequestBytes <? zlen payload then Fail cePayloadLimit
      else Ok (putUint32BE (Z.land (u64 (zlen payload)) (2 ^ 32 - 1)), payload)
  end.

(** A control message: descriptors, one that is not about descriptors, or a malformed one. *)
Inductive controlMessage :=
| cmRights (fds : list Z)
| cmOther
| cmBroken.

(** What the socket delivers: the bytes and the control messages of the first read, whether
    the messages were cut short, and the bytes of the stream that follow. *)
Record received := MkReceived {
  rv_error : bool;
  rv_header : bytes;
  rv_messages : option (list controlMessage);
  rv_truncated : bool;
  rv_rest : bytes;
}.

(** [filesFromUnixRights]: the files, or the files that were closed on an error. *)
Fixpoint filesFromUnixRights (messages : list controlMessage) (files : list Z) : list Z + list Z :=
  match messages with
  | [] => inr files
  | cmOther :: messages => filesFromUnixRights messages files
  | cmBroken :: _ => inl files
  | cmRights fds :: messages => filesFromUnixRights messages (files ++ base.filter (fun fd => 0 <= fd) fds)
  end.

(** [readControlRequest]: the result, and the files it closed. *)
Definition readControlRequest (conn : received) : outcome controlError (request * list Z) * list Z :=
  if rv_error conn then (Fail ceRead, []) else
  let headerRead := length (rv_header conn) in
  if (headerRead =? 0)%nat then (Fail ceEOF, []) else
  match rv_messages conn with
  | None => (Fail ceMessages, [])
  | Some messages =>
      match filesFromUnixRights messages [] with
      | inl closed => (Fail ceDescriptors, closed)
      | inr files =>
          if rv_truncated conn then (Fail ceTruncated, files) else
          let missing := (controlLengthPrefixBytes - headerRead)%nat in
          if (length (rv_rest conn) <? missing)%nat then (Fail ceRead, files) else
          let header := rv_header conn ++ take missing (rv_rest conn) in
          let stream := drop missing (rv_rest conn) in
          let length_ := uint32BE header in
          if length_ =? 0 then (Fail ceEmpty, files) else
          if maxControlRequestBytes <? length_ then (Fail ceLimit, files) else
          if zlen stream <? length_ then (Fail ceRead, files) else
          match unmarshal (take (Z.to_nat length_) stream) with
          | None => (Fail ceDecode, files)
          | Some req => (Ok (req, files), [])
          end
      end
  end.

(** Every usable descriptor of the messages. *)
Definition descriptors (messages : list controlMessage) : list Z :=
  concat (map (fun m => match m with cmRights fds => base.filter (fun fd => 0 <= fd) fds | _ => [] end) messages).

Lemma filesFromUnixRights_ok messages files :
  cmBroken ∉ messages -> filesFromUnixRights messages files = inr (files ++ descriptors messages).
Proof.
  revert files. induction messages as [|m messages IH]; intros files Hb; cbn.
  - by rewrite app_nil_r.
  - apply not_elem_of_cons in Hb as [Hm Hb]. destruct m; [|by apply IH|done]. rewrite IH by done. by rewrite <- app_assoc.
Qed.

(** A control request arrives as it was sent.  Whatever part of the length prefix the
    first read returns, and whatever follows on the stream, the receiver decodes exactly
    the body that was sent and has every descriptor that was passed. *)
Theorem control_roundtrip req prefix payload first messages rest :
  sendControlRequest req = Ok (prefix, payload) -> payload <> [] ->
  (0 < first <= controlLengthPrefixBytes)%nat -> cmBroken ∉ messages ->
  unmarshal payload = Some req ->
  readControlRequest (MkReceived false (take first prefix) (Some messages) false (drop first prefix ++ payload ++ rest))
  = (Ok (req, descriptors messages), []).
Proof.
  intros Hs Hne Hf Hb Hu. unfold sendControlRequest in Hs. destruct (marshal req) as [p|]; [|done].
  destruct (Z.ltb_spec maxControlRequestBytes (zlen p)) as [|Hle]; [done|]. injection Hs as <- ->.
  assert (0 < zlen payload) as Hpos by (destruct payload; [done|]; rewrite zlen_cons; pose proof (zlen_nonneg payload); lia).
  unfold maxControlRequestBytes in *. unfold controlLengthPrefixBytes in Hf.
  rewrite u64_small by lia. change (2 ^ 32 - 1) with (Z.ones 32). rewrite Z.land_ones, Z.mod_small by lia.
  set (pre := putUint32BE (zlen payload)).
  assert (length pre = 4%nat) as Hlen by (unfold pre, putUint32BE; by rewrite length_rev, leBytes_length).
  unfold readControlRequest. cbv zeta. cbn [rv_error rv_header rv_messages rv_truncated rv_rest].
  rewrite length_take, Hlen. replace (first `min` 4)%nat with first by lia.
  destruct (Nat.eqb_spec first 0) as [|_]; [lia|]. rewrite filesFromUnixRights_ok by done. cbn [app].
  unfold controlLengthPrefixBytes. rewrite length_app, length_drop, Hlen.
  rewrite (proj2 (Nat.ltb_ge _ _)) by lia.
  rewrite take_app_le, (take_ge (drop first pre)) by (rewrite length_drop; lia).
  rewrite take_drop. rewrite drop_app_ge, length_drop, Hlen, Nat.sub_diag by (rewrite length_drop; lia). cbn [drop].
  assert (uint32BE pre = zlen payload) as ->.
  { unfold pre, putUint32BE, uint32BE. rewrite rev_involutive. apply leValue_leBytes. cbn. lia. }
  rewrite drop_0, zlen_app. pose proof (zlen_nonneg rest). unfold maxControlRequestBytes.
  rewrite (proj2 (Z.eqb_neq _ _)), !(proj2 (Z.ltb_ge _ _)) by lia.
  rewrite take_zlen_app. by rewrite Hu.
Qed.

(** No descriptor leaks.  On every path of [readControlRequest] after the first read, the
    usable descriptors that arrived are either all returned with the request or all closed. *)
Theorem readControl_no_leak conn messages :
  rv_error conn = false -> rv_header conn <> [] -> rv_messages conn = Some messages -> cmBroken ∉ messages ->
  match readControlRequest conn with
  | (Ok (_, files), closed) => files = descriptors messages /\ closed = []
  | (Fail _, closed) => closed = descriptors messages
  | (Panic, _) => False
  end.
Proof.
  intros He Hh Hm Hb. unfold readControlRequest. rewrite He, Hm, filesFromUnixRights_ok by done. cbn [app].
  destruct (rv_header conn); [done|]. cbn [length Nat.eqb]. repeat case_match; simplify_eq; done.
Qed.
End frames.

(** ** What the environment of a worker holds *)

(** The entries for a key, in order. *)
Definition entriesOf (key : bytes) (env : list bytes) : list bytes :=
  base.filter (fun entry => envKey entry = Some key) env.

Lemma overrideKeys_spec overrides key :
  key ∈ overrideKeys overrides <-> exists entry, entry ∈ overrides /\ envKey entry = Some key.
Proof.
  unfold overrideKeys. induction overrides as [|o overrides IH] using rev_ind; cbn.
  { set_solver. }
  rewrite foldl_snoc. destruct (envKey o) as [k|] eqn:E.
  - rewrite elem_of_union, elem_of_singleton, IH. split.
    + intros [->|(e & He & Hk)]; [exists o|exists e]; set_solver.
    + intros (e & He & Hk). apply elem_of_app in He as [He|He%list_elem_of_singleton]; [right; by exists e|]. subst. left. congruence.
  - rewrite IH. split; intros (e & He & Hk); exists e; [set_solver|].
    apply elem_of_app in He as [He|He%list_elem_of_singleton]; [done|]. congruence.
Qed.

Lemma keepEntries_entries remove base key :
  entriesOf key (keepEntries remove base) = if decide (key ∈ remove) then [] else entriesOf key base.
Proof.
  unfold entriesOf. induction base as [|e base IH]; cbn; [by case_decide|].
  destruct (envKey e) as [k|] eqn:E; [destruct (decide (k ∈ remove)) as [Hk|Hk]|];
    rewrite ?filter_cons, ?E, IH; repeat case_decide; simplify_eq; done.
Qed.

Lemma entriesOf_overridden overrides key :
  entriesOf key overrides <> [] <-> key ∈ overrideKeys overrides.
Proof.
  rewrite overrideKeys_spec. unfold entriesOf. split.
  - intros H. destruct (base.filter _ overrides) as [|e l] eqn:E; [done|].
    assert (e ∈ base.filter (fun entry => envKey entry = Some key) overrides) as Hin by (rewrite E; apply list_elem_of_here).
    apply list_elem_of_filter in Hin as [? ?]. by exists e.
  - intros (e & He & Hk) E. assert (e ∈ base.filter (fun entry => envKey entry = Some key) overrides) as Hin
      by (by apply list_elem_of_filter). rewrite E in Hin. by apply elem_of_nil in Hin.
Qed.

(** Overrides win, and nothing else changes.  For every key the resulting environment
    has exactly the entries of the overrides when they name the key, and exactly the
    entries of the base, in order, when they do not; entries without a key stay. *)
Theorem EnvWithOverrides_exact base overrides key :
  entriesOf key (EnvWithOverrides base overrides) =
    (if decide (entriesOf key overrides = []) then entriesOf key base else entriesOf key overrides) /\
  forall entry, envKey entry = None -> entry ∈ base -> entry ∈ EnvWithOverrides base overrides.
Proof.
  split.
  - unfold EnvWithOverrides, entriesOf. rewrite filter_app. fold (entriesOf key (keepEntries (overrideKeys overrides) base)).
    fold (entriesOf key overrides). rewrite keepEntries_entries. pose proof (entriesOf_overridden overrides key) as H.
    destruct (decide (key ∈ overrideKeys overrides)) as [Hk|Hk], (decide (entriesOf key overrides = [])) as [E|E]; try done.
    + by apply H in Hk.
    + rewrite E. by rewrite app_nil_r.
    + by apply H in E.
  - intros entry Hk Hin. unfold EnvWithOverrides. apply elem_of_app. left. induction base as [|e base IH]; [by apply elem_of_nil in Hin|].
    cbn. apply elem_of_cons in Hin as [<-|Hin]; [rewrite Hk; apply list_elem_of_here|].
    repeat case_match; try apply list_elem_of_further; by apply IH.
Qed.

(** ** A request with two descriptors *)

Lemma control_roundtrip_witness :
  readControlRequest (fun b : bytes => Some b)
    (MkReceived false [Byte.x00] (Some [cmRights [7; 8]]) false ([Byte.x00; Byte.x00; Byte.x02] ++ lit "{}" ++ []))
  = (Ok (lit "{}", [7; 8]), []).
Proof.
  apply (control_roundtrip (fun b : bytes => Some b) (fun b => Some b) (lit "{}") [Byte.x00; Byte.x00; Byte.x00; Byte.x02] (lit "{}")
    1 [cmRights [7; 8]] []); [vm_compute; reflexivity|discriminate|unfold controlLengthPrefixBytes; lia| |reflexivity].
  intros H. apply list_elem_of_singleton in H. discriminate.
Defined.

Lemma readControl_no_leak_witness :
  (readControlRequest (fun b : bytes => Some b) (MkReceived false [Byte.x00] (Some [cmRights [7; -1; 8]]) true [])).2 = [7; 8].
Proof.
  pose proof (readControl_no_leak (fun b : bytes => Some b) (MkReceived false [Byte.x00] (Some [cmRights [7; -1; 8]]) true [])
    [cmRights [7; -1; 8]] eq_refl ltac:(discriminate) eq_refl) as H.
  destruct (readControlRequest _ _) as [[[r f]|e|] closed] eqn:E.
  - vm_compute in E. discriminate.
  - apply H. intros Hb. apply list_elem_of_singleton in Hb. discriminate.
  - vm_compute in E. discriminate.
Defined.
