(* ===== verification/TkCap.v ===== *)
(** * TkCap: capping text to a token budget (internal/tokencount)

    [CapToLastTokens] keeps the newest whole lines of a text whose estimates fit a budget,
    and the longest end part of the line before them; [CapToLastTokensExact] checks the
    result with an authoritative counter and shrinks it a bounded number of times.

    A counter is any function from text to a number of tokens ([Counter]); the tokenizer
    behind the GPT counter is third-party code and is the parameter [codec].  Token counts
    are a small multiple of the length of a text, so sums of them stay far inside [int]
    and are integers here. *)

From S2P Require Import Prelude GoUtf8 GoStrconv GoText GoFloat.
From Stdlib Require Import SpecFloat.

Open Scope Z_scope.

(** The interface [Counter]. *)
Abbreviation Counter := (bytes -> Z).

Definition nl : Byte.byte := Byte.x0a.

(** [utf8.RuneStart]. *)
Definition RuneStart (b : Byte.byte) : bool := negb (Z.land (b2z b) 192 =? 128).

(** ** Counters *)

(** 3.5 and 1.3 as [float64] constants. *)
Definition DefaultCharsPerToken : float64 := S754_finite false 7881299347898368 (-51).
Definition DefaultSafetyFactor : float64 := S754_finite false 5854679515581645 (-52).

Definition heuristicCounter (charsPerToken : float64) : Counter := fun text =>
  let ratio := if f64le charsPerToken (f64 0) then DefaultCharsPerToken else charsPerToken in
  f64int (f64ceil (f64div (f64 (zlen text)) ratio)).

Definition scaledCounter (base : Counter) (factor : float64) : Counter := fun text =>
  let factor := if f64le factor (f64 0) then f64 1 else factor in
  f64int (f64ceil (f64mul (f64 (base text)) factor)).

(** The o200k codec is built once, or its construction failed; counting may fail. *)
Definition tiktokenCounter (codec : option (bytes -> option Z)) (fallback : Counter) : Counter := fun text =>
  match codec with
  | None => fallback text
  | Some count => match count text with None => fallback text | Some n => n end
  end.

Inductive Family := FamilyUnknown | FamilyClaude | FamilyGPT.

(** The words that are searched are ASCII, and the two other runes whose lower case is ASCII
    (i with dot above and the kelvin sign) give letters that are in none of them. *)
Definition FamilyFromModel (model : bytes) : Family :=
  let lower := map lowerByte model in
  if Contains lower (lit "claude") then FamilyClaude
  else if Contains lower (lit "gpt") || Contains lower (lit "codex") || Contains lower (lit "o1")
          || Contains lower (lit "o3") || Contains lower (lit "o4") then FamilyGPT
  else FamilyUnknown.

Record Settings := MkSettings {
  SafetyFactor : float64;
  CharsPerToken : float64;
}.

Definition positive64 (x : float64) : bool := SFltb (f64 0) x.
Definition safetyFactor (s : Settings) : float64 :=
  if positive64 (SafetyFactor s) then SafetyFactor s else DefaultSafetyFactor.
Definition charsPerToken (s : Settings) : float64 :=
  if positive64 (CharsPerToken s) then CharsPerToken s else DefaultCharsPerToken.

Definition knownCounter (codec : option (bytes -> option Z)) (family : Family) (s : Settings) : Counter :=
  let heuristic := heuristicCounter (charsPerToken s) in
  let tik := tiktokenCounter codec heuristic in
  match family with
  | FamilyClaude => scaledCounter tik (safetyFactor s)
  | FamilyGPT => tik
  | FamilyUnknown => heuristic
  end.

(** An unknown family is inferred from the model, once. *)
Definition LocalCounter (codec : option (bytes -> option Z))
    (family : Family) (model : bytes) (s : Settings) : Counter :=
  match family with
  | FamilyUnknown => knownCounter codec (FamilyFromModel model) s
  | _ => knownCounter codec family s
  end.

(** ** lastFittingSuffix *)

Section cap.
Variable c : Counter.

Definition startsRune (line : bytes) (i : nat) : bool :=
  match line !! i with Some b => RuneStart b | None => true end.

(** The two inner loops: back to the start of a rune above [low], and forward to one
    below [high] (the argument [gap] is [high - low]). *)
Fixpoint retreat (line : bytes) (low middle : nat) : nat :=
  match middle with
  | O => O
  | S m => if (low <? middle)%nat && negb (startsRune line middle) then retreat line low m else middle
  end.

Fixpoint advance (line : bytes) (gap low : nat) : nat :=
  match gap with
  | O => low
  | S gap => if negb (startsRune line low) then advance line gap (S low) else low
  end.

Definition fits (line : bytes) (budget : Z) (start : nat) : Z * bool :=
  let tokens := c (drop start line ++ [nl]) in (tokens, tokens <=? budget).

(** The binary search; an interval of [n] bytes is done after [n] rounds. *)
Fixpoint searchLoop (fuel : nat) (line : bytes) (budget : Z) (low high : nat) : nat :=
  match fuel with
  | O => high
  | S fuel =>
      if (low <? high)%nat then
        let middle := retreat line low (low + (high - low) / 2) in
        if (fits line budget middle).2 then searchLoop fuel line budget low middle
        else searchLoop fuel line budget (advance line (high - (middle + 1)) (middle + 1)) high
      else high
  end.

Definition lastFittingSuffix (line : bytes) (budget : Z) : nat * Z :=
  let high := searchLoop (length line) line budget 0 (length line) in
  let '(tokens, ok) := fits line budget high in
  if negb ok || (high =? length line)%nat then (length line, 0) else (high, tokens).

(** ** CapToLastTokens *)

(** The loop over the lines from the end; [end_] decreases, and the loop ends when it is
    not positive (a line without a newline before it is the first). *)
Fixpoint capLoop (fuel : nat) (trimmed : bytes) (budget : Z) (end_ cut : nat) (keptTokens : Z) : nat * Z :=
  match fuel with
  | O => (cut, keptTokens)
  | S fuel =>
      if (end_ =? 0)%nat then (cut, keptTokens) else
      let newline := LastIndexByte (take end_ trimmed) nl in
      let lineStart := match newline with Some n => S n | None => 0%nat end in
      let line := drop lineStart (take end_ trimmed) in
      let lineTokens := c (line ++ [nl]) in
      if budget <? keptTokens + lineTokens then
        let '(suffixStart, suffixTokens) := lastFittingSuffix line (budget - keptTokens) in
        if (lineStart + suffixStart <? end_)%nat then ((lineStart + suffixStart)%nat, keptTokens + suffixTokens)
        else (cut, keptTokens)
      else
        match newline with
        | None => (lineStart, keptTokens + lineTokens)
        | Some n => capLoop fuel trimmed budget n lineStart (keptTokens + lineTokens)
        end
  end.

Definition CapToLastTokens (body : bytes) (budget : Z) : bytes * Z * bool :=
  if budget <=? 0 then (body, 0, false) else
  let total := c body in
  if total <=? budget then (body, total, false) else
  let trimmed := TrimRight body [nl] in
  match trimmed with
  | [] => (body, total, false)
  | _ :: _ =>
      let '(cut, keptTokens) := capLoop (S (length trimmed)) trimmed budget (length trimmed) (length trimmed) 0 in
      if (length trimmed <=? cut)%nat then ([], 0, true)
      else (drop cut trimmed ++ [nl], keptTokens, true)
  end.

(** ** CapToLastTokensExact *)

Definition maxRefineCalls : nat := 3.

(** [exact] is the authoritative counter: a count, or an error.  The conversion of the
    target is of a value below [localCount], so it fits. *)
Fixpoint refineLoop (calls : nat) (exact : bytes -> option Z) (budget : Z) (current : bytes) (truncated : bool)
  : bytes * bool :=
  match calls with
  | O => (current, truncated)
  | S calls =>
      match exact current with
      | None => (current, truncated)
      | Some count =>
          if (count <=? budget) || (count <=? 0) then (current, truncated) else
          let localCount := c current in
          let target := f64int (f64div (f64mul (f64 localCount) (f64 budget)) (f64 count)) in
          let target := if localCount <=? target then localCount - 1 else target in
          if target <=? 0 then ([], true) else
          let '(current, _, _) := CapToLastTokens current target in
          match current with
          | [] => ([], true)
          | _ :: _ => refineLoop calls exact budget current true
          end
      end
  end.

Definition CapToLastTokensExact (exact : option (bytes -> option Z)) (body : bytes) (budget : Z) : bytes * bool :=
  let '(capped, _, truncated) := CapToLastTokens body budget in
  match exact with
  | None => (capped, truncated)
  | Some exact =>
      if bool_decide (capped = []) || (budget <=? 0) then (capped, truncated)
      else refineLoop maxRefineCalls exact budget capped truncated
  end.
End cap.

(** ** The suffix of a line *)

Lemma retreat_spec line low middle :
  (low <= middle)%nat ->
  (low <= retreat line low middle <= middle)%nat /\
  (retreat line low middle = low \/ startsRune line (retreat line low middle) = true) /\
  forall i, (retreat line low middle < i <= middle)%nat -> startsRune line i = false.
Proof.
  induction middle as [|m IH]; intros H; [cbn; split_and!; [lia|lia|left; lia|lia]|]. cbn [retreat].
  destruct (Nat.ltb_spec low (S m)) as [Hlt|Hge], (startsRune line (S m)) eqn:E; cbn [andb negb];
    try (split_and!; [lia|lia|tauto || (left; lia)|lia]).
  destruct (IH ltac:(lia)) as (H1 & H2 & H3). split_and!; [lia|lia|done|]. intros i Hi.
  destruct (decide (i = S m)) as [->|]; [done|]. apply H3. lia.
Qed.

Lemma advance_spec line gap low :
  (low <= advance line gap low <= low + gap)%nat /\
  (advance line gap low = (low + gap)%nat \/ startsRune line (advance line gap low) = true) /\
  forall i, (low <= i < advance line gap low)%nat -> startsRune line i = false.
Proof.
  revert low. induction gap as [|gap IH]; intros low; cbn [advance]; [split_and!; [lia|lia|left; lia|lia]|].
  destruct (startsRune line low) eqn:E; cbn [negb]; [split_and!; [lia|lia|by right|lia]|].
  destruct (IH (S low)) as (H1 & H2 & H3). split_and!; [lia|lia|destruct H2; [left; lia|by right]|].
  intros i Hi. destruct (decide (i = low)) as [->|]; [done|]. apply H3. lia.
Qed.

(** Where a cut may fall. *)
Definition boundary (line : bytes) (i : nat) : Prop := i = 0%nat \/ startsRune line i = true.

Section suffix.
Context {c : Counter} (line : bytes) (budget : Z).
Abbreviation fit i := ((fits c line budget i).2 = true).
Hypothesis monotone : forall a b, c b <= c (a ++ b).

Lemma fits_mono i j : (i <= j)%nat -> fit i -> fit j.
Proof.
  intros Hij. unfold fits. cbn [snd]. rewrite !Z.leb_le. intros H. etrans; [|exact H].
  replace (drop j line) with (drop (j - i) (drop i line)) by (rewrite drop_drop; f_equal; lia).
  rewrite <- (take_drop (j - i) (drop i line)) at 2. rewrite <- app_assoc. apply monotone.
Qed.

Lemma searchLoop_spec fuel low high :
  (high - low <= fuel)%nat -> (low <= high <= length line)%nat ->
  (boundary line low \/ low = high) -> (boundary line high \/ high = length line) ->
  (forall i, (i < low)%nat -> boundary line i -> ~ fit i) -> (high = length line \/ fit high) ->
  let r := searchLoop c fuel line budget low high in
  (r <= length line)%nat /\ (boundary line r \/ r = length line) /\
  (forall i, (i < r)%nat -> boundary line i -> ~ fit i) /\ (r = length line \/ fit r).
Proof.
  revert low high. induction fuel as [|fuel IH]; intros low high Hf Hb Hlow Hhigh Hno Hfit; cbn [searchLoop].
  { replace low with high in * by lia. cbv zeta. split_and!; [lia|done|done|done]. }
  destruct (Nat.ltb_spec low high) as [Hlt|Hge].
  2: { replace low with high in * by lia. cbv zeta. split_and!; [lia|done|done|done]. }
  assert ((high - low) / 2 < high - low)%nat as Hhalf by (apply Nat.div_lt; lia).
  destruct (retreat_spec line low (low + (high - low) / 2) ltac:(lia)) as (H1 & H2 & _).
  set (middle := retreat line low (low + (high - low) / 2)) in *.
  assert (boundary line middle) as Hm.
  { destruct H2 as [->|?]; [|by right]. destruct Hlow as [?|?]; [done|lia]. }
  destruct (fits c line budget middle).2 eqn:Efit.
  - apply IH; [lia|lia|by destruct Hlow as [?|?]; [left|lia]|by left|done|by right].
  - destruct (advance_spec line (high - (middle + 1)) (middle + 1)) as (H3 & H4 & H5).
    set (next := advance line (high - (middle + 1)) (middle + 1)) in *.
    apply IH; [lia|lia| |done| |done].
    + destruct H4 as [->|?]; [right; lia|left; by right].
    + intros i Hi Hbi Hfi. destruct (decide (i <= middle)%nat) as [Hle|Hgt].
      * apply (fits_mono i middle Hle) in Hfi. congruence.
      * destruct Hbi as [->|Hbi]; [lia|]. rewrite H5 in Hbi by lia. done.
Qed.

(** The longest end part of a line.  When a longer text never has a smaller estimate, the
    suffix that is found starts at a rune and fits, no earlier rune starts a suffix that
    fits, and nothing is kept only when no suffix fits. *)
Theorem lastFittingSuffix_longest start tokens :
  lastFittingSuffix c line budget = (start, tokens) ->
  (start <= length line)%nat /\
  (forall i, (i < start)%nat -> boundary line i -> budget < c (drop i line ++ [nl])) /\
  (start = length line /\ tokens = 0 \/
   boundary line start /\ tokens = c (drop start line ++ [nl]) /\ tokens <= budget).
Proof.
  intros H. unfold lastFittingSuffix in H.
  destruct (searchLoop_spec (length line) 0 (length line)) as (H1 & H2 & H3 & H4);
    [lia|lia|left; by left|by right|lia|by left|].
  set (high := searchLoop c (length line) line budget 0 (length line)) in *.
  assert (forall i, (i < high)%nat -> boundary line i -> budget < c (drop i line ++ [nl])) as Hno.
  { intros i Hi Hbi. specialize (H3 i Hi Hbi). unfold fits in H3. cbn [snd] in H3. rewrite Z.leb_le in H3. lia. }
  unfold fits in H, H4. cbn [fst snd] in H, H4.
  destruct (Z.leb_spec (c (drop high line ++ [nl])) budget) as [Hle|Hgt], (Nat.eqb_spec high (length line)) as [E|E];
    cbn [negb orb] in H; simplify_eq.
  - split_and!; [lia|rewrite <- E; done|by left].
  - split_and!; [lia|done|right]. split_and!; [|done|done]. by destruct H2.
  - split_and!; [lia|rewrite <- E; done|by left].
  - by destruct H4.
Qed.
End suffix.

Lemma lastFittingSuffix_longest_witness :
  lastFittingSuffix zlen (lit "abcdefg") 4 = (4%nat, 4) /\ 4 < zlen (drop 3 (lit "abcdefg") ++ [nl]).
Proof.
  split; [vm_compute; reflexivity|].
  destruct (lastFittingSuffix_longest (c := zlen) (lit "abcdefg") 4
    ltac:(intros a b; rewrite zlen_app; pose proof (zlen_nonneg a); lia) 4 4 ltac:(vm_compute; reflexivity)) as (_ & H & _).
  apply (H 3%nat); [lia|]. right. vm_compute. reflexivity.
Defined.

(** ** The lines that are kept *)

(** The text from [p] on, with the newline that ends it. *)
Definition tailFrom (trimmed : bytes) (p : nat) : bytes := drop p (trimmed ++ [nl]).

(** A list of kept lines, newest last: their text and their estimates. *)
Definition linesText (ls : list bytes) : bytes := concat (map (.++ [nl]) ls).
Definition linesCost (c : Counter) (ls : list bytes) : Z := foldr (fun l n => c (l ++ [nl]) + n) 0 ls.

Lemma linesCost_cons c l ls : linesCost c (l :: ls) = c (l ++ [nl]) + linesCost c ls.
Proof. done. Qed.

Lemma linesText_cons l ls : linesText (l :: ls) = l ++ [nl] ++ linesText ls.
Proof. unfold linesText. cbn. by rewrite <- app_assoc. Qed.

Lemma tailFrom_line trimmed p q :
  (p <= q <= length trimmed)%nat -> (trimmed ++ [nl]) !! q = Some nl ->
  tailFrom trimmed p = drop p (take q trimmed) ++ [nl] ++ tailFrom trimmed (S q).
Proof.
  intros [Hp Hq] Hnl. unfold tailFrom. rewrite <- (take_drop q (trimmed ++ [nl])) at 1.
  rewrite drop_app_le by (rewrite length_take, length_app; cbn; lia). rewrite take_app_le by lia. f_equal.
  rewrite (drop_S _ nl q Hnl). done.
Qed.

Lemma lastFittingSuffix_fits c line budget start tokens :
  lastFittingSuffix c line budget = (start, tokens) -> (start < length line)%nat ->
  tokens = c (drop start line ++ [nl]) /\ tokens <= budget.
Proof.
  unfold lastFittingSuffix, fits. set (high := searchLoop _ _ _ _ _ _). intros H Hs.
  destruct (Z.leb_spec (c (drop high line ++ [nl])) budget); destruct (Nat.eqb_spec high (length line)); cbn in H; simplify_eq; try lia.
Qed.

(** What the loop has kept when it stops. *)
Definition capped (c : Counter) (trimmed : bytes) (budget : Z) (cut : nat) (kept : Z) : Prop :=
  exists ls, tailFrom trimmed cut = linesText ls /\ kept = linesCost c ls /\ kept <= budget.

Lemma capLoop_spec c fuel trimmed budget end_ cut kept cut' kept' ls :
  (end_ < fuel)%nat -> (end_ <= length trimmed)%nat -> (trimmed ++ [nl]) !! end_ = Some nl ->
  tailFrom trimmed (S end_) = linesText ls -> kept = linesCost c ls -> kept <= budget ->
  (cut = S end_ \/ cut = length trimmed /\ end_ = length trimmed /\ kept = 0) ->
  capLoop c fuel trimmed budget end_ cut kept = (cut', kept') ->
  cut' = length trimmed /\ kept' = 0 \/ capped c trimmed budget cut' kept'.
Proof.
  revert end_ cut kept ls. induction fuel as [|fuel IH]; intros end_ cut kept ls Hfuel Hend Hnl Htext Hkept Hbud Hcut H; [lia|].
  assert (cut = length trimmed /\ kept = 0 \/ capped c trimmed budget cut kept) as Hdone.
  { destruct Hcut as [->|(-> & -> & ->)]; [right|by left]. by exists ls. }
  cbn [capLoop] in H. destruct (Nat.eqb_spec end_ 0) as [|Hpos]; [by simplify_eq|].
  set (newline := LastIndexByte (take end_ trimmed) nl) in *.
  set (lineStart := match newline with Some n => S n | None => 0%nat end) in *.
  assert (lineStart <= end_)%nat as Hle.
  { unfold lineStart. destruct newline as [n|] eqn:E; [|lia]. apply LastIndexByte_Some in E as (_ & E & _).
    rewrite length_take in E. lia. }
  set (line := drop lineStart (take end_ trimmed)) in *.
  assert (length line = end_ - lineStart)%nat as Hlen by (unfold line; rewrite length_drop, length_take; lia).
  pose proof (tailFrom_line trimmed lineStart end_ ltac:(lia) Hnl) as Hline. fold line in Hline. rewrite Htext in Hline.
  destruct (Z.ltb_spec budget (kept + c (line ++ [nl]))) as [Hover|Hfit].
  - destruct (lastFittingSuffix c line (budget - kept)) as [start tokens] eqn:Es.
    destruct (Nat.ltb_spec (lineStart + start) end_) as [Hlt|]; [|by simplify_eq]. simplify_eq.
    destruct (lastFittingSuffix_fits _ _ _ _ _ Es) as [-> Hfits]; [lia|]. right. exists (drop start line :: ls).
    split_and!; [|rewrite linesCost_cons; lia|lia]. unfold tailFrom in *. rewrite <- drop_drop, Hline.
    rewrite drop_app_le by lia. by rewrite linesText_cons.
  - assert (tailFrom trimmed lineStart = linesText (line :: ls)) as Hnext
      by (by rewrite Hline, linesText_cons).
    destruct newline as [n|] eqn:E.
    + apply LastIndexByte_Some in E as (E1 & E2 & _). rewrite length_take in E2.
      eapply (IH n (S n) _ (line :: ls)); [lia|lia| |exact Hnext| |exact Hfit|by left|exact H].
      * rewrite lookup_app_l by lia. by rewrite lookup_take_lt in E1 by lia.
      * rewrite linesCost_cons. lia.
    + injection H as <- <-. right. exists (line :: ls). split_and!; [exact Hnext|rewrite linesCost_cons; lia|exact Hfit].
Qed.

Lemma linesCost_subadditive (c : Counter) ls :
  (forall a b, c (a ++ b) <= c a + c b) -> c [] = 0 -> c (linesText ls) <= linesCost c ls.
Proof.
  intros Hsub H0. induction ls as [|l ls IH]; [cbn; lia|]. rewrite linesText_cons, linesCost_cons, app_assoc.
  etrans; [apply Hsub|]. lia.
Qed.

Lemma CapToLastTokens_cut c body budget out kept :
  CapToLastTokens c body budget = (out, kept, true) ->
  (out = [] /\ kept = 0 /\ 0 < budget) \/
  exists cut, out = tailFrom (TrimRight body [nl]) cut /\ (cut < length (TrimRight body [nl]))%nat /\
    capped c (TrimRight body [nl]) budget cut kept /\ 0 < budget.
Proof.
  unfold CapToLastTokens. destruct (Z.leb_spec budget 0) as [|Hb]; [done|].
  destruct (Z.leb_spec (c body) budget) as [|Ht]; [done|].
  set (trimmed := TrimRight body [nl]). destruct trimmed as [|x l] eqn:Etr; [done|]. rewrite <- Etr.
  destruct (capLoop c (S (length trimmed)) trimmed budget (length trimmed) (length trimmed) 0) as [cut k] eqn:El.
  assert (cut = length trimmed /\ k = 0 \/ capped c trimmed budget cut k) as Hc.
  { eapply (capLoop_spec c (S (length trimmed)) trimmed budget (length trimmed) (length trimmed) 0 cut k []); [lia|lia| | |done|lia| |exact El].
    - by rewrite lookup_app_r, Nat.sub_diag.
    - unfold tailFrom. rewrite drop_ge; [done|]. rewrite length_app. cbn. lia.
    - by right. }
  destruct (Nat.leb_spec (length trimmed) cut) as [Hge|Hlt]; intros [= <- <-]; [by left|].
  right. exists cut. split_and!; [|done| |done].
  - unfold tailFrom. rewrite drop_app_le by lia. done.
  - destruct Hc as [[-> _]|Hc]; [lia|done].
Qed.

(** C29. The cap holds.  For a counter that is not larger on the whole than on its parts, a
    truncated text is a suffix of the body (which ends with one newline), the count that
    is returned is within the budget, and so is the estimate of the text itself; a text
    that is not truncated is the body, and it is within the budget unless it consists of
    newlines only. *)
Theorem CapToLastTokens_bounded (c : Counter) body budget out kept truncated :
  (forall a b, c (a ++ b) <= c a + c b) -> c [] = 0 -> 0 < budget ->
  CapToLastTokens c body budget = (out, kept, truncated) ->
  if truncated : bool
  then out `suffix_of` TrimRight body [nl] ++ [nl] /\ c out <= kept /\ kept <= budget
  else out = body /\ (c body <= budget \/ TrimRight body [nl] = []).
Proof.
  intros Hsub H0 Hb H. destruct truncated.
  - destruct (CapToLastTokens_cut _ _ _ _ _ H) as [(-> & -> & _)|(cut & E & _ & (ls & Ht & -> & Hk) & _)].
    + split_and!; [apply suffix_nil|lia|lia].
    + split_and!; [|rewrite E, Ht; by apply linesCost_subadditive|done].
      rewrite E. unfold tailFrom. exists (take cut (TrimRight body [nl] ++ [nl])). by rewrite take_drop.
  - unfold CapToLastTokens in H. destruct (Z.leb_spec budget 0); [lia|].
    destruct (Z.leb_spec (c body) budget); [simplify_eq; tauto|].
    destruct (TrimRight body [nl]) as [|x l]; [simplify_eq; tauto|]. repeat case_match; simplify_eq.
Qed.

Lemma CapToLastTokens_bounded_witness :
  lit "line
" `suffix_of` TrimRight (lit "first line
") [nl] ++ [nl] /\ zlen (lit "line
") <= 5 /\ 5 <= 5.
Proof.
  apply (CapToLastTokens_bounded zlen (lit "first line
") 5 _ 5 true); [intros a b; rewrite zlen_app; lia|reflexivity|lia|vm_compute; reflexivity].
Defined.

(** ** Cutting valid UTF-8 *)

Lemma isCont_RuneStart b : isCont (b2z b) = true -> RuneStart b = false.
Proof. by destruct b. Qed.

(** A rune that decodes: its later bytes start no rune, and what follows does not matter. *)
Lemma DecodeRune_bytes s r w i :
  DecodeRune s = (r, w) -> (w =? 1)%nat && (r =? RuneError) = false -> (0 < i < w)%nat -> startsRune s i = false.
Proof.
  intros H Hok Hi. destruct s as [|b s]; [cbn in H; simplify_eq; lia|]. pose proof (DecodeRune_width b s) as Hw. rewrite H in Hw. cbn [snd] in Hw.
  destruct (lookup_lt_is_Some_2 (b :: s) i ltac:(lia)) as [x Hx]. unfold startsRune. rewrite Hx.
  apply isCont_RuneStart. by eapply (DecodeRune_cont _ r w i).
Qed.

Lemma validLoop_fuel s f g : (length s <= f)%nat -> (length s <= g)%nat -> validLoop f s = validLoop g s.
Proof.
  revert s g. induction f as [|f IH]; intros s g Hf Hg.
  { destruct s; [|cbn in Hf; lia]. by destruct g. }
  destruct s as [|b s]; [by destruct g|]. destruct g as [|g]; [cbn in Hg; lia|]. cbn [validLoop].
  destruct (DecodeRune (b :: s)) as [r w] eqn:E. destruct (_ && _); [done|].
  pose proof (DecodeRune_width b s) as Hw. rewrite E in Hw. cbn [snd] in Hw.
  apply IH; rewrite length_drop; cbn [length] in *; lia.
Qed.

Lemma ValidString_cons b s r w :
  DecodeRune (b :: s) = (r, w) ->
  ValidString (b :: s) = negb ((w =? 1)%nat && (r =? RuneError)) && ValidString (drop w (b :: s)).
Proof.
  intros E. unfold ValidString. cbn [length validLoop]. rewrite E. destruct (_ && _); [done|]. cbn [negb andb].
  pose proof (DecodeRune_width b s) as Hw. rewrite E in Hw. cbn [snd] in Hw.
  apply validLoop_fuel; rewrite length_drop; cbn [length] in *; lia.
Qed.

(** A valid string is cut into two valid ones at the start of a rune. *)
Lemma ValidString_cut s p :
  ValidString s = true -> boundary s p -> ValidString (take p s) = true /\ ValidString (drop p s) = true.
Proof.
  remember (length s) as n eqn:En. revert s p En. induction (lt_wf n) as [n _ IH]. intros s p -> Hv Hb.
  destruct s as [|b s]; [by rewrite take_nil, drop_nil|].
  destruct (decide (p = 0%nat)) as [->|Hp]; [by rewrite take_0, drop_0|].
  destruct (DecodeRune (b :: s)) as [r w] eqn:E. rewrite (ValidString_cons _ _ _ _ E) in Hv.
  apply andb_true_iff in Hv as [Hok Hv]. apply negb_true_iff in Hok.
  pose proof (DecodeRune_width b s) as Hw. rewrite E in Hw. cbn [snd] in Hw.
  destruct (decide (p < w)%nat) as [Hlt|Hge].
  { destruct Hb as [?|Hb]; [done|]. rewrite (DecodeRune_bytes _ _ _ p E Hok) in Hb by lia. done. }
  destruct (IH (length (drop w (b :: s)))) with (s := drop w (b :: s)) (p := (p - w)%nat) as [H1 H2].
  - rewrite length_drop. cbn [length] in *. lia.
  - done.
  - done.
  - destruct (decide (p - w = 0)%nat) as [?|Hne]; [by left|]. right. destruct Hb as [?|Hb]; [lia|].
    unfold startsRune in *. rewrite lookup_drop. by replace (w + (p - w))%nat with p by lia.
  - pose proof (DecodeRune_take _ _ _ p E Hok ltac:(lia)) as Et. split.
    + destruct p as [|p]; [lia|]. cbn [take] in Et |- *. rewrite (ValidString_cons _ _ _ _ Et), Hok. cbn [negb andb].
      change (b :: take p s) with (take (S p) (b :: s)). by rewrite skipn_firstn_comm.
    + rewrite drop_drop in H2. by replace (w + (p - w))%nat with p in H2 by lia.
Qed.

Lemma ValidString_app a b : ValidString a = true -> ValidString b = true -> ValidString (a ++ b) = true.
Proof.
  remember (length a) as n eqn:En. revert a En. induction (lt_wf n) as [n _ IH]. intros a -> Ha Hb.
  destruct a as [|x a]; [done|]. destruct (DecodeRune (x :: a)) as [r w] eqn:E.
  rewrite (ValidString_cons _ _ _ _ E) in Ha. apply andb_true_iff in Ha as [Hok Ha].
  pose proof (DecodeRune_width x a) as Hw. rewrite E in Hw. cbn [snd] in Hw.
  pose proof (DecodeRune_app x a b r w E (proj1 (negb_true_iff _) Hok)) as E'.
  cbn [app] in *. rewrite (ValidString_cons _ _ _ _ E'), Hok. cbn [andb]. change (x :: a ++ b) with ((x :: a) ++ b).
  rewrite drop_app_le by lia. apply (IH (length (drop w (x :: a)))); [|done|done|done].
  rewrite length_drop. cbn [length] in *. lia.
Qed.

Lemma TrimRight_split s b : exists k, s = TrimRight s [b] ++ replicate k b.
Proof.
  unfold TrimRight. cut (exists k, rev (rev s) = rev (TrimLeft (rev s) [b]) ++ replicate k b); [by rewrite rev_involutive|].
  induction (rev s) as [|x l IH]; [by exists 0%nat|]. cbn [TrimLeft]. destruct (bool_decide (x ∈ [b])) eqn:E.
  - apply bool_decide_eq_true, list_elem_of_singleton in E as ->. destruct IH as [k Hk]. exists (S k).
    cbn [rev]. rewrite Hk, <- app_assoc. f_equal. by rewrite replicate_S_end.
  - exists 0%nat. by rewrite app_nil_r.
Qed.

Lemma ValidString_trim s : ValidString s = true -> ValidString (TrimRight s [nl]) = true.
Proof.
  intros Hv. destruct (TrimRight_split s nl) as [k Hk]. revert Hv Hk. generalize (TrimRight s [nl]) as t. intros t Hv ->.
  destruct (ValidString_cut (t ++ replicate k nl) (length t) Hv) as [H _].
  - right. unfold startsRune. rewrite lookup_app_r, Nat.sub_diag by done. by destruct k.
  - by rewrite take_app_length in H.
Qed.

Lemma startsRune_drop s p i : startsRune (drop p s) i = startsRune s (p + i).
Proof. unfold startsRune. by rewrite lookup_drop. Qed.

Lemma searchLoop_boundary c fuel line budget low high :
  (low <= high <= length line)%nat -> (boundary line low \/ low = high) -> (boundary line high \/ high = length line) ->
  let r := searchLoop c fuel line budget low high in boundary line r \/ r = length line.
Proof.
  revert low high. induction fuel as [|fuel IH]; intros low high Hb Hlow Hhigh; cbn [searchLoop]; [done|].
  destruct (Nat.ltb_spec low high) as [Hlt|Hge]; [|done].
  assert ((high - low) / 2 < high - low)%nat as Hhalf by (apply Nat.div_lt; lia).
  destruct (retreat_spec line low (low + (high - low) / 2) ltac:(lia)) as (H1 & H2 & _).
  set (middle := retreat line low (low + (high - low) / 2)) in *. destruct (fits c line budget middle).2.
  - apply IH; [lia|by destruct Hlow as [?|?]; [left|lia]|left].
    destruct H2 as [->|?]; [|by right]. destruct Hlow as [?|?]; [done|lia].
  - destruct (advance_spec line (high - (middle + 1)) (middle + 1)) as (H3 & H4 & _).
    apply IH; [lia| |done]. destruct H4 as [->|?]; [right; lia|left; by right].
Qed.

Lemma lastFittingSuffix_boundary c line budget start tokens :
  lastFittingSuffix c line budget = (start, tokens) -> (start < length line)%nat -> boundary line start.
Proof.
  unfold lastFittingSuffix. destruct (searchLoop_boundary c (length line) line budget 0 (length line)) as [H|H];
    [lia|left; by left|by right|..]; destruct (fits _ _ _ _) as [t ok]; intros E Hs.
  - destruct (negb ok || _); simplify_eq; [lia|done].
  - rewrite H, Nat.eqb_refl, orb_true_r in E. simplify_eq. lia.
Qed.

(** Where the loop cuts: at the first byte, after a newline, or at the start of a rune. *)
Definition cutPoint (trimmed : bytes) (cut : nat) : Prop :=
  boundary trimmed cut \/ exists n, cut = S n /\ trimmed !! n = Some nl.

Lemma capLoop_cut c fuel trimmed budget end_ cut kept cut' kept' :
  (end_ <= length trimmed)%nat -> cutPoint trimmed cut ->
  capLoop c fuel trimmed budget end_ cut kept = (cut', kept') -> cutPoint trimmed cut'.
Proof.
  revert end_ cut kept. induction fuel as [|fuel IH]; intros end_ cut kept Hend Hcut H; cbn [capLoop] in H; [by simplify_eq|].
  destruct (end_ =? 0)%nat; [by simplify_eq|].
  destruct (LastIndexByte (take end_ trimmed) nl) as [n|] eqn:E; destruct (budget <? _).
  - apply LastIndexByte_Some in E as (E1 & E2 & _). rewrite length_take in E2. rewrite lookup_take_lt in E1 by lia.
    destruct (lastFittingSuffix c _ _) as [start tokens] eqn:Es.
    destruct (Nat.ltb_spec (S n + start) end_) as [Hlt|]; [|by simplify_eq]. injection H as <- _.
    apply lastFittingSuffix_boundary in Es; [|rewrite length_drop, length_take; lia].
    destruct Es as [->|Es]; [right; exists n; split; [lia|done]|]. left. right.
    rewrite startsRune_drop in Es. unfold startsRune in *. by rewrite lookup_take_lt in Es by lia.
  - apply LastIndexByte_Some in E as (E1 & E2 & _). rewrite length_take in E2. rewrite lookup_take_lt in E1 by lia.
    eapply (IH n); [lia| |exact H]. right. by exists n.
  - destruct (lastFittingSuffix c _ _) as [start tokens] eqn:Es.
    destruct (Nat.ltb_spec (0 + start) end_) as [Hlt|]; [|by simplify_eq]. injection H as <- _.
    apply lastFittingSuffix_boundary in Es; [|rewrite length_drop, length_take; lia]. rewrite drop_0 in Es. left.
    destruct Es as [->|Es]; [by left|right]. unfold startsRune in *. by rewrite lookup_take_lt in Es by lia.
  - injection H as <- _. left. by left.
Qed.

(** Valid UTF-8 stays valid.  Whatever the counter and the budget, capping a valid text
    gives a valid text. *)
Theorem CapToLastTokens_valid (c : Counter) body budget out kept truncated :
  ValidString body = true -> CapToLastTokens c body budget = (out, kept, truncated) -> ValidString out = true.
Proof.
  intros Hv H. unfold CapToLastTokens in H. destruct (_ <=? _); [by simplify_eq|]. destruct (_ <=? _); [by simplify_eq|].
  pose proof (ValidString_trim body Hv) as Ht. set (trimmed := TrimRight body [nl]) in *.
  destruct trimmed as [|x l] eqn:Etr; [by simplify_eq|]. rewrite <- Etr in *.
  destruct (capLoop c (S (length trimmed)) trimmed budget (length trimmed) (length trimmed) 0) as [cut k] eqn:El.
  destruct (Nat.leb_spec (length trimmed) cut) as [Hge|Hlt]; injection H as <- _ _; [done|].
  apply ValidString_app; [|done]. apply capLoop_cut in El; [|done|left; right; unfold startsRune; by rewrite lookup_ge_None_2].
  destruct El as [Hb|(n & -> & Hn)]; [by apply ValidString_cut|].
  assert (ValidString (drop n trimmed) = true) as Hd.
  { apply ValidString_cut; [done|]. right. unfold startsRune. by rewrite Hn. }
  rewrite (drop_S _ nl n Hn) in Hd. rewrite (ValidString_cons nl _ 10 1) in Hd by done. apply andb_true_iff in Hd as [_ Hd]. exact Hd.
Qed.

Lemma CapToLastTokens_valid_witness : ValidString (CapToLastTokens zlen (lit "first line") 5).1.1 = true.
Proof.
  apply (CapToLastTokens_valid zlen (lit "first line") 5 _ 5 true); [vm_compute; reflexivity|vm_compute; reflexivity].
Defined.

(** ** Refining with the authoritative counter *)

Lemma TrimRight_snoc s b x : TrimRight (s ++ [x]) [b] = if decide (x = b) then TrimRight s [b] else s ++ [x].
Proof.
  unfold TrimRight. rewrite rev_app_distr. cbn [rev app TrimLeft]. case_decide as E.
  - subst. by rewrite bool_decide_eq_true_2 by (by apply list_elem_of_singleton).
  - rewrite bool_decide_eq_false_2 by (by rewrite list_elem_of_singleton). cbn [rev]. by rewrite rev_involutive.
Qed.

Lemma TrimRight_last s b : TrimRight s [b] = [] \/ exists t x, TrimRight s [b] = t ++ [x] /\ x <> b.
Proof.
  induction s as [|x s IH] using rev_ind; [by left|]. rewrite TrimRight_snoc. case_decide; [done|]. right. by exists s, x.
Qed.

(** A text that was cut is not made of newlines only. *)
Lemma CapToLastTokens_solid c body budget out kept truncated :
  TrimRight body [nl] <> [] -> CapToLastTokens c body budget = (out, kept, truncated) ->
  out = [] \/ TrimRight out [nl] <> [].
Proof.
  intros Hne H. destruct truncated.
  - destruct (CapToLastTokens_cut _ _ _ _ _ H) as [(-> & _)|(cut & -> & Hlt & _)]; [by left|]. right.
    destruct (TrimRight_last body nl) as [?|(t & x & E & Hx)]; [done|]. rewrite E in *. rewrite length_app in Hlt. cbn in Hlt.
    unfold tailFrom. rewrite drop_app_le by (rewrite length_app; cbn; lia). rewrite TrimRight_snoc, decide_True by done.
    rewrite drop_app_le by lia. rewrite TrimRight_snoc, decide_False by done. by destruct (drop cut t).
  - right. unfold CapToLastTokens in H. destruct (_ <=? _); [by simplify_eq|]. destruct (_ <=? _); [by simplify_eq|].
    destruct (TrimRight body [nl]); [done|]. repeat case_match; simplify_eq.
Qed.

Lemma CapToLastTokens_within (c : Counter) body budget out kept truncated :
  (forall a b, c (a ++ b) <= c a + c b) -> c [] = 0 -> 0 < budget -> TrimRight body [nl] <> [] ->
  CapToLastTokens c body budget = (out, kept, truncated) -> c out <= budget.
Proof.
  intros Hsub H0 Hb Hne H. destruct truncated.
  - destruct (CapToLastTokens_cut _ _ _ _ _ H) as [(-> & _)|(cut & E & _ & (ls & Ht & -> & Hk) & _)]; [lia|].
    rewrite E, Ht. etrans; [by apply linesCost_subadditive|done].
  - unfold CapToLastTokens in H. destruct (Z.leb_spec budget 0); [lia|].
    destruct (Z.leb_spec (c body) budget); [by simplify_eq|]. destruct (TrimRight body [nl]); [done|]. repeat case_match; simplify_eq.
Qed.

Lemma refineLoop_within (c : Counter) calls exact budget current truncated out truncated' :
  (forall a b, c (a ++ b) <= c a + c b) -> c [] = 0 -> 0 < budget -> TrimRight current [nl] <> [] -> c current <= budget ->
  refineLoop c calls exact budget current truncated = (out, truncated') -> c out <= budget.
Proof.
  intros Hsub H0 Hb. revert current truncated. induction calls as [|calls IH]; intros current truncated Hne Hc H; cbn [refineLoop] in H.
  { by simplify_eq. }
  destruct (exact current) as [count|]; [|by simplify_eq]. destruct (_ || _); [by simplify_eq|]. cbv zeta in H.
  set (target := f64int _) in H. set (bounded := if c current <=? target then c current - 1 else target) in H.
  assert (bounded < c current) as Hlt by (unfold bounded; destruct (Z.leb_spec (c current) target); lia).
  destruct (Z.leb_spec bounded 0) as [|Hpos]; [simplify_eq; lia|].
  destruct (CapToLastTokens c current bounded) as [[next kept] tr] eqn:E.
  pose proof (CapToLastTokens_within c current bounded next kept tr Hsub H0 Hpos Hne E).
  pose proof (CapToLastTokens_solid c current bounded next kept tr Hne E) as Hs.
  destruct next as [|b next]; [simplify_eq; lia|]. destruct Hs as [?|Hs]; [done|]. apply (IH _ _ Hs ltac:(lia) H).
Qed.

(** Refining never leaves the local budget.  For a text that is not made of newlines
    only and a counter that is not larger on the whole than on its parts, whatever the
    authoritative counter answers or fails to answer, the result is within the budget by
    the local counter. *)
Theorem CapToLastTokensExact_local (c : Counter) exact body budget out truncated :
  (forall a b, c (a ++ b) <= c a + c b) -> c [] = 0 -> 0 < budget -> TrimRight body [nl] <> [] ->
  CapToLastTokensExact c exact body budget = (out, truncated) -> c out <= budget.
Proof.
  intros Hsub H0 Hb Hne H. unfold CapToLastTokensExact in H.
  destruct (CapToLastTokens c body budget) as [[text kept] tr] eqn:E.
  pose proof (CapToLastTokens_within c body budget text kept tr Hsub H0 Hb Hne E).
  pose proof (CapToLastTokens_solid c body budget text kept tr Hne E) as Hs.
  destruct exact as [exact|]; [|by simplify_eq].
  destruct (bool_decide (text = [])) eqn:Et; cbn [orb] in H; [by simplify_eq|]. apply bool_decide_eq_false in Et.
  destruct (_ <=? _); [by simplify_eq|]. destruct Hs as [?|Hs]; [done|].
  by apply (refineLoop_within c maxRefineCalls exact budget text tr out truncated).
Qed.

(** A counter that reports 90 tokens of overhead for every text. *)
Definition overheadCounter (text : bytes) : option Z := Some (zlen text + 90).
Definition sampleLine : bytes := replicate 200 Byte.x61.

Lemma CapToLastTokensExact_local_witness :
  zlen (CapToLastTokensExact zlen (Some overheadCounter) sampleLine 100).1 <= 100.
Proof.
  apply (CapToLastTokensExact_local zlen (Some overheadCounter) sampleLine 100 _ true);
    [intros a b; rewrite zlen_app; lia|reflexivity|lia|vm_compute; discriminate|vm_compute; reflexivity].
Defined.

(** The authoritative budget can be exceeded.  The refinement stops after three calls
    without checking its last candidate: for one counter and text the result is not empty
    and the authoritative count of it is above the budget. *)
Theorem CapToLastTokensExact_exceeds :
  let out := (CapToLastTokensExact zlen (Some overheadCounter) sampleLine 100).1 in
  out <> [] /\ overheadCounter out = Some 118 /\ 100 < 118.
Proof. split; [vm_compute; discriminate|]. split; [vm_compute; reflexivity|lia]. Qed.

(** A text of newlines only is not capped, however small the budget. *)
Lemma CapToLastTokens_newlines (c : Counter) n budget :
  0 < budget -> budget < c (replicate n nl) ->
  CapToLastTokens c (replicate n nl) budget = (replicate n nl, c (replicate n nl), false).
Proof.
  intros Hb Hc. unfold CapToLastTokens. rewrite (proj2 (Z.leb_gt _ _)), (proj2 (Z.leb_gt _ _)) by lia.
  assert (TrimRight (replicate n nl) [nl] = []) as ->; [|done].
  clear Hc. induction n as [|n IH]; [done|]. by rewrite replicate_S_end, TrimRight_snoc, decide_True.
Qed.
