(* ===== verification/AdRetry.v ===== *)
(** * AdRetry: retry policies and the retry loops (internal/adapter/retry, codex transports)

    A policy matches a failed attempt by its backend, operation, status and error, bounds
    the number of attempts, and computes a delay: exponential, capped, with jitter.  The
    two codex transports run an operation under the policies; their loops are the same up
    to the errors that bypass the policies.

    Durations are [int64] nanoseconds.  The delay is computed in [float64]; the conversion
    back is the class [FloatConversion], because Go leaves it to the architecture when the
    value does not fit.  The Unicode case-folding table is the parameter [foldRune] (a
    representative of the fold orbit of a rune), and the random number that jitter draws
    is an argument. *)

From Stdlib Require Import SpecFloat.
From S2P Require Import Prelude GoUtf8 GoStrconv GoFloat.

Open Scope Z_scope.

(** ** math.Pow with a positive integral exponent *)

Definition half64 : float64 := f64div (f64 1) (f64 2).

(** The loop over the bits of the exponent: [x1 * 2^xe] is squared, [a1 * 2^ae] multiplied. *)
Fixpoint powLoop (fuel : nat) (i : Z) (a1 : float64) (ae : Z) (x1 : float64) (xe : Z) : float64 * Z :=
  match fuel with
  | O => (a1, ae)
  | S fuel =>
      if i =? 0 then (a1, ae) else
      if (xe <? - 2 ^ 12) || (2 ^ 12 <? xe) then (a1, ae + xe) else
      let '(a1, ae) := if Z.odd i then (f64mul a1 x1, ae + xe) else (a1, ae) in
      let x1 := f64mul x1 x1 in
      let xe := 2 * xe in
      let '(x1, xe) := if SFltb x1 half64 then (f64add x1 x1, xe - 1) else (x1, xe) in
      powLoop fuel (Z.shiftr i 1) a1 ae x1 xe
  end.

(** [math.Pow(x, y)] for an integer [y] of at least one; 64 rounds pass all bits. *)
Definition Pow (x : float64) (y : Z) : float64 :=
  if f64eq x (f64 1) then f64 1 else
  if y =? 1 then x else
  match x with
  | S754_nan => S754_nan
  | S754_zero s => if s && Z.odd y then x else S754_zero false
  | S754_infinity s => S754_infinity (s && Z.odd y)
  | S754_finite _ _ _ =>
      let '(x1, xe) := SFfrexp 53 1024 x in
      let '(a1, ae) := powLoop 64 y (f64 1) 0 x1 xe in
      SFldexp 53 1024 a1 ae
  end.

Example Pow_2_40 : Pow (f64 2) 40 = f64 (2 ^ 40).
Proof. vm_compute. reflexivity. Qed.
Example Pow_3_5 : Pow (f64 3) 5 = f64 243.
Proof. vm_compute. reflexivity. Qed.

(** ** Policies *)

Record Matchers := MkMatchers {
  Backends : list bytes;
  Operations : list bytes;
  Statuses : list Z;
  ErrorClasses : list bytes;
  ErrorCodes : list bytes;
  MessageSubstrings : list bytes;
}.

Record Policy := MkPolicy {
  p_Name : bytes;
  p_Enabled : bool;
  p_MaxAttempts : Z;
  p_InitialDelay : Z;
  p_MaxDelay : Z;
  p_Multiplier : float64;
  p_JitterFraction : float64;
  p_RetryWhenResponseStarted : bool;
  p_Match : Matchers;
}.

Record Signal := MkSignal {
  s_Backend : bytes;
  s_Operation : bytes;
  s_Status : Z;
  s_ErrorClass : bytes;
  s_ErrorCode : bytes;
  s_Message : bytes;
  s_ResponseStarted : bool;
}.

Inductive Reason := response_started | max_attempts_exhausted | matched | no_policy_matched.

Record Decision := MkDecision {
  d_Retry : bool;
  d_PolicyName : bytes;
  d_Delay : Z;
  d_Reason : Reason;
}.

(** The configuration of a policy: the enabled flag is optional. *)
Record PolicyConfig := MkPolicyConfig {
  pc_Enabled : option bool;
  pc_Policy : Policy;
}.

Definition FromConfig (cfg : list PolicyConfig) : list Policy :=
  map (fun item =>
    let p := pc_Policy item in
    MkPolicy (TrimSpace (p_Name p)) (default true (pc_Enabled item)) (p_MaxAttempts p) (p_InitialDelay p)
      (p_MaxDelay p) (p_Multiplier p) (p_JitterFraction p) (p_RetryWhenResponseStarted p) (p_Match p)) cfg.

Section retry.
Context `{FloatConversion}.
Variable foldRune : Z -> Z.

(** [strings.EqualFold]. *)
Definition EqualFold (s t : bytes) : bool := bool_decide (map foldRune (runesOf s) = map foldRune (runesOf t)).

Definition matchStringSet (values : list bytes) (got : bytes) : bool :=
  match values with
  | [] => true
  | _ :: _ => existsb (fun value => EqualFold (TrimSpace value) (TrimSpace got)) values
  end.

Definition matchIntSet (values : list Z) (got : Z) : bool :=
  match values with
  | [] => true
  | _ :: _ => bool_decide (got ∈ values)
  end.

Definition matchMessageSubstrings (values : list bytes) (got : bytes) : bool :=
  match values with
  | [] => true
  | _ :: _ => existsb (fun value => Contains got value) values
  end.

Definition Matches (p : Policy) (signal : Signal) : bool :=
  let m := p_Match p in
  matchStringSet (Backends m) (s_Backend signal) && matchStringSet (Operations m) (s_Operation signal)
  && matchIntSet (Statuses m) (s_Status signal) && matchStringSet (ErrorClasses m) (s_ErrorClass signal)
  && matchStringSet (ErrorCodes m) (s_ErrorCode signal) && matchMessageSubstrings (MessageSubstrings m) (s_Message signal).

(** [DelayForAttempt]; [random] is the number drawn when jitter applies. *)
Definition DelayForAttempt (p : Policy) (attempt : Z) (random : float64) : Z :=
  let delay := Z.max (p_InitialDelay p) 0 in
  let multiplier := if f64eq (p_Multiplier p) (f64 0) then f64 1 else p_Multiplier p in
  let delay := if (1 <? attempt) && (0 <? delay)
               then toInt64 (f64mul (f64 delay) (Pow multiplier (attempt - 1))) else delay in
  let delay := if (0 <? p_MaxDelay p) && (p_MaxDelay p <? delay) then p_MaxDelay p else delay in
  if (delay <=? 0) || f64le (p_JitterFraction p) (f64 0) then delay else
  let jitterRange := f64mul (f64 delay) (p_JitterFraction p) in
  let offset := f64mul (f64sub (f64mul random (f64 2)) (f64 1)) jitterRange in
  let jittered := toInt64 (f64add (f64 delay) offset) in
  if jittered <? 0 then 0 else
  if (0 <? p_MaxDelay p) && (p_MaxDelay p <? jittered) then p_MaxDelay p else jittered.

Fixpoint Decide (policies : list Policy) (signal : Signal) (attempt : Z) (random : float64) : Decision :=
  match policies with
  | [] => MkDecision false [] 0 no_policy_matched
  | policy :: policies =>
      if negb (p_Enabled policy) then Decide policies signal attempt random else
      if negb (Matches policy signal) then Decide policies signal attempt random else
      if s_ResponseStarted signal && negb (p_RetryWhenResponseStarted policy)
      then MkDecision false (p_Name policy) 0 response_started else
      if p_MaxAttempts policy <=? attempt then MkDecision false (p_Name policy) 0 max_attempts_exhausted else
      MkDecision true (p_Name policy) (DelayForAttempt policy attempt random) matched
  end.

Fixpoint MaxAttempts (policies : list Policy) (policyName : bytes) : Z :=
  match policies with
  | [] => 0
  | policy :: policies => if decide (p_Name policy = policyName) then p_MaxAttempts policy else MaxAttempts policies policyName
  end.
End retry.

(** ** The retry loops of the codex transports *)

(** What the loops look at in an error. *)
Record attemptError := MkAttemptError {
  ae_fallback : bool;      (* ErrWebsocketFallbackToHTTP *)
  ae_permanent : bool;     (* IsPermanentRefreshFailure *)
  ae_handshake : bool;     (* a websocketHandshakeError *)
  ae_close : bool;         (* a normal or going-away close *)
  ae_message : bytes;
}.

Definition codexRetryErrorClass (err : option attemptError) : bytes :=
  match err with
  | None => []
  | Some err =>
      if ae_handshake err then lit "response_failed" else
      if ae_close err then lit "websocket_close" else
      if Contains (ae_message err) (lit "codex websocket") then lit "websocket_error" else lit "response_failed"
  end.

Inductive releaseReason := rlSuccess | rlFallback | rlPermanent | rlFailed.

(** What a run does: attempts, their releases, and sleeps. *)
Inductive event := evAttempt (n : Z) | evRelease (n : Z) (why : releaseReason) | evSleep (delay : Z).

Inductive runResult := rrOk | rrError (err : attemptError) | rrSleepError.

Section loop.
Context `{FloatConversion}.
Variable foldRune : Z -> Z.
Variable policies : list Policy.
(** The outcome of each attempt (its error and whether the response had started), whether
    the sleep after it completes, and the random number it draws. *)
Variable once : Z -> option attemptError * bool.
Variable sleepOk : Z -> bool.
Variable random : Z -> float64.

Definition retrySignal (operation : bytes) (err : attemptError) (responseStarted : bool) : Signal :=
  MkSignal (lit "codex") operation 0 (codexRetryErrorClass (Some err)) [] (ae_message err) responseStarted.

(** The common part of the two loops after the errors that bypass the policies. *)
Definition afterFailure (loop : Z -> option (runResult * list event)) (operation : bytes) (attempt : Z)
    (err : attemptError) (responseStarted : bool) : option (runResult * list event) :=
  let decision := Decide foldRune policies (retrySignal operation err responseStarted) attempt (random attempt) in
  if negb (d_Retry decision) then Some (rrError err, [evAttempt attempt; evRelease attempt rlFailed]) else
  if negb (sleepOk attempt)
  then Some (rrSleepError, [evAttempt attempt; evRelease attempt rlFailed; evSleep (d_Delay decision)]) else
  match loop (attempt + 1) with
  | None => None
  | Some (result, events) =>
      Some (result, evAttempt attempt :: evRelease attempt rlFailed :: evSleep (d_Delay decision) :: events)
  end.

Definition codexHTTPRetryOperation : bytes := lit "codex.responses.http.generate".
Definition codexWebsocketRetryOperation : bytes := lit "codex.responses.websocket.generate".

Fixpoint runHTTPTransportEventsWithRetry (fuel : nat) (attempt : Z) : option (runResult * list event) :=
  match fuel with
  | O => None
  | S fuel =>
      match once attempt with
      | (None, _) => Some (rrOk, [evAttempt attempt; evRelease attempt rlSuccess])
      | (Some err, responseStarted) =>
          if ae_permanent err then Some (rrError err, [evAttempt attempt; evRelease attempt rlPermanent]) else
          afterFailure (runHTTPTransportEventsWithRetry fuel) codexHTTPRetryOperation attempt err responseStarted
      end
  end.

Fixpoint runWebsocketTransportEventsWithRetry (fuel : nat) (attempt : Z) : option (runResult * list event) :=
  match fuel with
  | O => None
  | S fuel =>
      match once attempt with
      | (None, _) => Some (rrOk, [evAttempt attempt; evRelease attempt rlSuccess])
      | (Some err, responseStarted) =>
          if ae_fallback err then Some (rrError err, [evAttempt attempt; evRelease attempt rlFallback]) else
          if ae_permanent err then Some (rrError err, [evAttempt attempt; evRelease attempt rlPermanent]) else
          afterFailure (runWebsocketTransportEventsWithRetry fuel) codexWebsocketRetryOperation attempt err responseStarted
      end
  end.
End loop.

(** ** Decisions *)

Section facts.
Context `{FloatConversion}.
Variable foldRune : Z -> Z.

(** A policy that takes part in the decision about a signal. *)
Definition applies (signal : Signal) (p : Policy) : bool := p_Enabled p && Matches foldRune p signal.

Lemma Decide_unfold policies signal attempt random :
  Decide foldRune policies signal attempt random =
  match list_find (fun p => applies signal p = true) policies with
  | None => MkDecision false [] 0 no_policy_matched
  | Some (_, policy) =>
      if s_ResponseStarted signal && negb (p_RetryWhenResponseStarted policy)
      then MkDecision false (p_Name policy) 0 response_started else
      if p_MaxAttempts policy <=? attempt then MkDecision false (p_Name policy) 0 max_attempts_exhausted else
      MkDecision true (p_Name policy) (DelayForAttempt policy attempt random) matched
  end.
Proof.
  induction policies as [|p policies IH]; [done|]. cbn [Decide list_find].
  destruct (decide (applies signal p = true)) as [Ha|Ha].
  - apply andb_true_iff in Ha as [-> ->]. done.
  - rewrite IH. unfold applies in Ha. destruct (p_Enabled p); cbn [negb andb] in *; [destruct (Matches foldRune p signal); [done|]|].
    all: by destruct (list_find _ _) as [[]|].
Qed.

(** A retry is decided by the first policy that applies.  [Decide] asks for a retry exactly
    when there is a first enabled policy that matches the failure, the response has not
    started or that policy allows it, and the attempts of that policy are not used up;
    the delay is that policy's. *)
Theorem Decide_retry_iff policies signal attempt random delay :
  (d_Retry (Decide foldRune policies signal attempt random) = true /\
   d_Delay (Decide foldRune policies signal attempt random) = delay) <->
  exists before policy after, policies = before ++ policy :: after /\
    Forall (fun p => applies signal p = false) before /\ applies signal policy = true /\
    (s_ResponseStarted signal = true -> p_RetryWhenResponseStarted policy = true) /\
    attempt < p_MaxAttempts policy /\ delay = DelayForAttempt policy attempt random.
Proof.
  rewrite Decide_unfold. split.
  - destruct (list_find _ policies) as [[i p]|] eqn:E; [|by intros [? _]].
    apply list_find_Some in E as (Hi & Hp & Hb). destruct (s_ResponseStarted signal && _) eqn:Es; [by intros [? _]|].
    destruct (Z.leb_spec (p_MaxAttempts p) attempt); [by intros [? _]|]. intros [_ <-].
    exists (take i policies), p, (drop (S i) policies). split_and!; [by rewrite take_drop_middle| |done| |done|done].
    + apply Forall_forall. intros x (j & Hj)%list_elem_of_lookup. pose proof (lookup_lt_Some _ _ _ Hj) as Hlt.
      rewrite length_take in Hlt. rewrite lookup_take_lt in Hj by lia. specialize (Hb j x Hj ltac:(lia)). by destruct (applies signal x).
    + intros Hs. rewrite Hs in Es. by destruct (p_RetryWhenResponseStarted p).
  - intros (before & p & after & -> & Hb & Hp & Hs & Ha & ->).
    rewrite (proj2 (list_find_Some _ _ (length before) p)).
    + destruct (s_ResponseStarted signal && negb (p_RetryWhenResponseStarted p)) eqn:E.
      { apply andb_true_iff in E as [E1 E2]. rewrite Hs in E2 by done. done. }
      rewrite (proj2 (Z.leb_gt _ _)) by lia. done.
    + split_and!; [by rewrite list_lookup_middle|done|]. intros j y Hj Hlt. rewrite lookup_app_l in Hj by lia.
      rewrite Forall_lookup in Hb. rewrite (Hb _ _ Hj). done.
Qed.

(** The backoff is capped.  With a positive maximum, for every multiplier, jitter, random
    number, attempt and architecture the delay is at most the maximum; and it is not
    negative unless the exponential delay itself was converted to a negative number. *)
Theorem DelayForAttempt_bounds p attempt random :
  0 < p_MaxDelay p ->
  DelayForAttempt p attempt random <= p_MaxDelay p /\
  (0 <= toInt64 (f64mul (f64 (p_InitialDelay p))
     (Pow (if f64eq (p_Multiplier p) (f64 0) then f64 1 else p_Multiplier p) (attempt - 1))) ->
   0 <= DelayForAttempt p attempt random).
Proof.
  intros Hm. unfold DelayForAttempt. cbv zeta. set (multiplier := if f64eq _ _ then f64 1 else _).
  set (raw := if (1 <? attempt) && _ then _ else _). set (delay := if (0 <? p_MaxDelay p) && (p_MaxDelay p <? raw) then _ else _).
  set (jittered := toInt64 (f64add _ _)).
  assert (delay <= p_MaxDelay p) as Hd.
  { unfold delay. destruct (Z.ltb_spec 0 (p_MaxDelay p)); [|lia]. destruct (Z.ltb_spec (p_MaxDelay p) raw); cbn [andb]; lia. }
  split.
  - destruct (_ || _); [done|]. destruct (Z.ltb_spec jittered 0); [lia|]. rewrite (proj2 (Z.ltb_lt _ _) Hm). cbn [andb].
    destruct (Z.ltb_spec (p_MaxDelay p) jittered); lia.
  - intros Hraw. assert (0 <= delay) as H0.
    { unfold delay, raw. destruct (Z.ltb_spec 0 (Z.max (p_InitialDelay p) 0)) as [Hp|Hp]; [rewrite Z.max_l in * by lia|];
        rewrite ?andb_true_r, ?andb_false_r; repeat case_match; lia. }
    destruct (_ || _); [done|]. destruct (Z.ltb_spec jittered 0); [lia|]. repeat case_match; lia.
Qed.
End facts.

Definition anyMatch : Matchers := MkMatchers [] [] [] [] [] [].

(** One second, doubled up to thirty. *)
Definition samplePolicy : Policy :=
  MkPolicy (lit "default") true 100 (10 ^ 9) (30 * 10 ^ 9) (f64 2) (f64 0) false anyMatch.

Lemma DelayForAttempt_bounds_witness :
  DelayForAttempt (H := arm64Conversion) samplePolicy 41 (f64 0) <= 30 * 10 ^ 9.
Proof. apply (DelayForAttempt_bounds (H := arm64Conversion) samplePolicy 41 (f64 0)). cbn. lia. Defined.

(** The backoff can overflow.  With an initial delay of one second that doubles and a cap
    of thirty seconds, the delay before attempt 42 is negative on amd64, so that the loop
    does not wait at all; on arm64 it is the cap. *)
Theorem DelayForAttempt_overflow :
  DelayForAttempt (H := amd64Conversion) samplePolicy 41 (f64 0) = minInt64 /\
  DelayForAttempt (H := arm64Conversion) samplePolicy 41 (f64 0) = p_MaxDelay samplePolicy.
Proof. split; vm_compute; reflexivity. Qed.

(** ** The loops end *)

(** The largest number of attempts an enabled policy allows, and at least one. *)
Definition attemptBound (policies : list Policy) : Z :=
  foldr (fun p n => if p_Enabled p then Z.max (p_MaxAttempts p) n else n) 1 policies.

Lemma attemptBound_cons p policies :
  attemptBound (p :: policies) = if p_Enabled p then Z.max (p_MaxAttempts p) (attemptBound policies) else attemptBound policies.
Proof. done. Qed.

Lemma attemptBound_pos policies : 1 <= attemptBound policies.
Proof. induction policies as [|p policies IH]; [done|]. rewrite attemptBound_cons. destruct (p_Enabled p); lia. Qed.

Lemma attemptBound_member policies p : p ∈ policies -> p_Enabled p = true -> p_MaxAttempts p <= attemptBound policies.
Proof.
  induction policies as [|q policies IH]; intros Hin He; [by apply elem_of_nil in Hin|]. rewrite attemptBound_cons.
  apply elem_of_cons in Hin as [->|Hin]; [rewrite He; lia|]. specialize (IH Hin He). destruct (p_Enabled q); lia.
Qed.

(** The events of a run from attempt [n] on: each attempt is released at once, and a failed
    attempt that is followed by another is followed by a sleep. *)
Inductive rounds (bound : Z) : Z -> list event -> Prop :=
| roundLast n why : n <= bound -> rounds bound n [evAttempt n; evRelease n why]
| roundSleep n delay : n <= bound -> rounds bound n [evAttempt n; evRelease n rlFailed; evSleep delay]
| roundNext n delay events :
    n < bound -> rounds bound (n + 1) events ->
    rounds bound n (evAttempt n :: evRelease n rlFailed :: evSleep delay :: events).

Section ends.
Context `{FloatConversion}.
Variable foldRune : Z -> Z.
Variable policies : list Policy.
Variable once : Z -> option attemptError * bool.
Variable sleepOk : Z -> bool.
Variable random : Z -> float64.

Abbreviation bound := (attemptBound policies).

Lemma afterFailure_ends loop operation attempt err started :
  attempt <= bound ->
  (attempt < bound -> exists result events, loop (attempt + 1) = Some (result, events) /\ rounds bound (attempt + 1) events) ->
  exists result events, afterFailure foldRune policies sleepOk random loop operation attempt err started = Some (result, events) /\
    rounds bound attempt events.
Proof.
  intros Ha Hloop. unfold afterFailure. cbv zeta. set (signal := retrySignal operation err started).
  destruct (d_Retry (Decide foldRune policies signal attempt (random attempt))) eqn:E; cbn [negb].
  2: { eexists _, _. split; [done|]. by apply roundLast. }
  destruct (sleepOk attempt); cbn [negb]; [|eexists _, _; split; [done|by apply roundSleep]].
  destruct (proj1 (Decide_retry_iff foldRune policies signal attempt (random attempt) _) (conj E eq_refl))
    as (before & p & after & Hpol & _ & Hp & _ & Hlt & _).
  apply andb_true_iff in Hp as [Hen _].
  assert (p_MaxAttempts p <= bound) by (apply attemptBound_member; [rewrite Hpol; set_solver|done]).
  destruct (Hloop ltac:(lia)) as (result & events & -> & Hr). eexists _, _. split; [done|]. by apply roundNext; [lia|].
Qed.

(** C37. The retry loops end.  Whatever the attempts return, both loops return after at most as
    many attempts as the most generous enabled policy allows (and at least one); the
    attempts are numbered from one without gaps, each is released exactly once before
    anything else happens, and only failed attempts are repeated. *)
Theorem retry_loops_end :
  (exists result events, runHTTPTransportEventsWithRetry foldRune policies once sleepOk random (Z.to_nat bound) 1
     = Some (result, events) /\ rounds bound 1 events) /\
  (exists result events, runWebsocketTransportEventsWithRetry foldRune policies once sleepOk random (Z.to_nat bound) 1
     = Some (result, events) /\ rounds bound 1 events).
Proof.
  pose proof (attemptBound_pos policies) as Hpos.
  assert (forall fuel attempt, Z.of_nat fuel = bound - attempt + 1 -> attempt <= bound ->
    (exists result events, runHTTPTransportEventsWithRetry foldRune policies once sleepOk random fuel attempt
       = Some (result, events) /\ rounds bound attempt events) /\
    (exists result events, runWebsocketTransportEventsWithRetry foldRune policies once sleepOk random fuel attempt
       = Some (result, events) /\ rounds bound attempt events)) as Hends.
  { induction fuel as [|fuel IH]; intros attempt Hf Ha; [lia|]. cbn [runHTTPTransportEventsWithRetry runWebsocketTransportEventsWithRetry].
    destruct (once attempt) as [[err|] started].
    2: { split; eexists _, _; (split; [done|by apply roundLast]). }
    split; repeat (match goal with |- context [if ?b then _ else _] => destruct b end;
      [eexists _, _; split; [done|by apply roundLast]|]); apply afterFailure_ends; try done; intros Hlt; apply IH; lia. }
  apply Hends; lia.
Qed.
End ends.

(** ** The built-in codex policies *)

Section builtin.
Context `{FloatConversion}.
Variable foldRune : Z -> Z.

(** 0.2 as a [float64] constant. *)
Definition twoTenths : float64 := S754_finite false 7205759403792794 (-55).

Definition builtinCodexPolicy (name : bytes) (substrings : list bytes) : Policy :=
  MkPolicy name true 3 (250 * 10 ^ 6) (2 * 10 ^ 9) (f64 2) twoTenths false
    (MkMatchers [lit "codex"] [codexWebsocketRetryOperation; codexHTTPRetryOperation] []
       [lit "scanner_error"; lit "websocket_error"; lit "response_failed"] [] substrings).

Definition builtinCodexOverloadedRetryPolicy : Policy :=
  builtinCodexPolicy (lit "codex.responses.overloaded") [lit "Our servers are currently overloaded. Please try again later."].
Definition builtinCodexTransportRetryPolicy : Policy := builtinCodexPolicy (lit "codex.responses.transport") [].

Definition appendCodexRetryPolicyIfAbsent (policies : list Policy) (builtin : Policy) : list Policy :=
  if existsb (fun policy => EqualFold foldRune (TrimSpace (p_Name policy)) (p_Name builtin)) policies
  then policies else policies ++ [builtin].

Definition appendBuiltinCodexRetryPolicies (policies : list Policy) : list Policy :=
  let policies := appendCodexRetryPolicyIfAbsent policies builtinCodexOverloadedRetryPolicy in
  appendCodexRetryPolicyIfAbsent policies builtinCodexTransportRetryPolicy.

(** The built-in policies keep their bounds.  On every architecture and for every random
    number, the delay after an attempt that the built-in policies allow to be repeated is
    between zero and two seconds. *)
Theorem builtin_delays policies_name substrings attempt random :
  1 <= attempt < 3 ->
  0 <= DelayForAttempt (builtinCodexPolicy policies_name substrings) attempt random <= 2 * 10 ^ 9.
Proof.
  intros Ha. destruct (DelayForAttempt_bounds (builtinCodexPolicy policies_name substrings) attempt random) as [Hmax Hmin]; [done|].
  split; [|exact Hmax]. apply Hmin. cbn [p_InitialDelay p_Multiplier builtinCodexPolicy].
  assert (attempt = 1 \/ attempt = 2) as [-> | ->] by lia.
  - rewrite (toInt64_fits _ (250 * 10 ^ 6)); [lia|vm_compute; reflexivity|unfold minInt64, maxInt64; lia].
  - rewrite (toInt64_fits _ (500 * 10 ^ 6)); [lia|vm_compute; reflexivity|unfold minInt64, maxInt64; lia].
Qed.
End builtin.

Lemma builtin_delays_witness :
  0 <= DelayForAttempt (H := amd64Conversion) builtinCodexTransportRetryPolicy 2 half64 <= 2 * 10 ^ 9.
Proof. apply (builtin_delays (H := amd64Conversion) (lit "codex.responses.transport") [] 2 half64). lia. Defined.
