(* ===== verification/SiSse.v ===== *)
(** * SiSse: forced responses in an event stream (internal/sentinelinject/hook.go)

    When the latest user message holds a configured keyword, the proxy replaces the text of
    the model in the response stream (and, with a second keyword, the user text that goes
    upstream).  This file models the choice of the two texts ([parseSentinels]), the reader
    and writer of server-sent events and the replacement of the content blocks, and the
    decision of the hook.

    JSON is a parameter: the request comes decoded, and the encoder of the three payloads
    that are inserted is the class [PayloadEncoder], whose only law is what JSON promises
    about an encoded line, that it has no control characters.  The rewriting of the request
    body ([requestReplaceTransformer]) is JSON throughout and is not modelled. *)

From S2P Require Import Prelude GoUtf8 GoStrconv GoText.

Open Scope Z_scope.

Definition cr : Byte.byte := Byte.x0d.
Definition lf : Byte.byte := Byte.x0a.

(** ** The keywords *)

Record sentinelSplit := MkSplit {
  forcedResponse : bytes;
  upstreamUser : bytes;
  hasResponse : bool;
  hasUpstreamUser : bool;
}.

(** The text after the first occurrence of a keyword ([strings.Cut]), if the keyword is set. *)
Definition cutAfter (userText keyword : bytes) : option bytes :=
  match keyword with
  | [] => None
  | _ :: _ => match Index userText keyword with Some n => Some (drop (n + length keyword) userText) | None => None end
  end.

Definition parseSingly (userText sentinel actualUserSentinel : bytes) : sentinelSplit :=
  let forced := cutAfter userText sentinel in
  let upstream := cutAfter userText actualUserSentinel in
  MkSplit (default [] forced) (default [] upstream) (bool_decide (is_Some forced)) (bool_decide (is_Some upstream)).

(** The slice between the two keywords panics when it would start after its end. *)
Definition parseSentinels (userText sentinel actualUserSentinel : bytes) : outcome unit sentinelSplit :=
  match sentinel, actualUserSentinel with
  | _ :: _, _ :: _ =>
      match Index userText sentinel, Index userText actualUserSentinel with
      | Some sentinelIdx, Some actualIdx =>
          if (sentinelIdx <? actualIdx)%nat then
            if (actualIdx <? sentinelIdx + length sentinel)%nat then Panic else
            Ok (MkSplit (take (actualIdx - (sentinelIdx + length sentinel)) (drop (sentinelIdx + length sentinel) userText))
                  (drop (actualIdx + length actualUserSentinel) userText) true true)
          else Ok (parseSingly userText sentinel actualUserSentinel)
      | _, _ => Ok (parseSingly userText sentinel actualUserSentinel)
      end
  | _, _ => Ok (parseSingly userText sentinel actualUserSentinel)
  end.

Definition matchedSplit (s : sentinelSplit) : bool := hasResponse s || hasUpstreamUser s.

(** ** The hook *)

(** The content of a message, decoded: blank or null, a string or blocks that may fail to
    decode. *)
Inductive messageContent :=
| mcBlank
| mcString (s : option bytes)
| mcBlocks (blocks : option (list bytes)).

Record anthropicMessage := MkMessage {
  m_Role : bytes;
  m_Content : messageContent;
}.

(** The texts of the blocks that are not empty, one per line. *)
Definition textOf (m : anthropicMessage) : bytes :=
  match m_Content m with
  | mcBlank | mcString None | mcBlocks None => []
  | mcString (Some plain) => plain
  | mcBlocks (Some blocks) => Join (base.filter (fun text => text <> []) blocks) [lf]
  end.

Definition lastUserMessageText (messages : list anthropicMessage) : bytes :=
  match base.filter (fun m => m_Role m = lit "user") (rev messages) with
  | m :: _ => textOf m
  | [] => []
  end.

Record hookRequest := MkHookRequest {
  hr_Provider : bytes;
  hr_Method : bytes;
  hr_Path : bytes;
  hr_Messages : option (list anthropicMessage); (* None: the body could not be read or decoded *)
}.

Record hookMatch := MkHookMatch {
  hm_Matched : bool;
  hm_Transformer : option bytes;        (* responseReplaceTransformer *)
  hm_RequestTransformer : option bytes; (* requestReplaceTransformer *)
  hm_ContinueMatching : bool;
}.

Definition unmatched : hookMatch := MkHookMatch false None None false.

(** A hook made by [New]: both keywords are trimmed. *)
Definition MatchRequestResponse (sentinel actualUserSentinel : bytes) (req : hookRequest) : outcome unit hookMatch :=
  let sentinel := TrimSpace sentinel in
  let actualUserSentinel := TrimSpace actualUserSentinel in
  if bool_decide (sentinel = []) && bool_decide (actualUserSentinel = []) then Ok unmatched else
  if negb (bool_decide (hr_Method req = lit "POST")) then Ok unmatched else
  if negb (bool_decide (hr_Provider req = lit "claude")) then Ok unmatched else
  if negb (bool_decide (hr_Path req = lit "/v1/messages")) then Ok unmatched else
  match hr_Messages req with
  | None => Ok unmatched
  | Some messages =>
      split ← parseSentinels (lastUserMessageText messages) sentinel actualUserSentinel;
      if negb (matchedSplit split) then Ok unmatched else
      Ok (MkHookMatch true (if hasResponse split then Some (forcedResponse split) else None)
            (if hasUpstreamUser split then Some (upstreamUser split) else None)
            (hasResponse split && negb (hasUpstreamUser split)))
  end.

(** ** Server-sent events *)

Record sseEvent := MkEvent {
  e_Name : bytes;
  e_Data : bytes;
}.

(** [strings.ReplaceAll(body, CRLF, LF)]. *)
Fixpoint replaceCRLF (s : bytes) : bytes :=
  match s with
  | [] => []
  | b :: rest =>
      match rest with
      | c :: rest' => if bool_decide (b = cr) && bool_decide (c = lf) then lf :: replaceCRLF rest' else b :: replaceCRLF rest
      | [] => [b]
      end
  end.

Definition TrimPrefix (s prefix : bytes) : bytes := default s (CutPrefix s prefix).

(** The loop of [parseSSERecord] over the lines. *)
Fixpoint recordLines (lines : list bytes) (name : bytes) (dataLines : list bytes) : sseEvent :=
  match lines with
  | [] => MkEvent name (Join dataLines [lf])
  | line :: lines =>
      match CutPrefix line (lit "event:") with
      | Some value => recordLines lines (TrimSpace value) dataLines
      | None =>
          match CutPrefix line (lit "data:") with
          | Some value => recordLines lines name (dataLines ++ [TrimPrefix value (lit " ")])
          | None => recordLines lines name dataLines
          end
      end
  end.

Definition parseSSERecord (record : bytes) : sseEvent := recordLines (Split record [lf]) [] [].

Definition emptyEvent (event : sseEvent) : Prop := e_Name event = [] /\ e_Data event = [].
#[export] Instance emptyEvent_dec event : Decision (emptyEvent event).
Proof. unfold emptyEvent. solve_decision. Defined.

Definition parseSSEEvents (body : bytes) : list sseEvent :=
  base.filter (fun event => ~ emptyEvent event) (map parseSSERecord (Split (replaceCRLF body) [lf; lf])).

Definition writeSSEDataLines (data : bytes) : bytes :=
  match data with
  | [] => []
  | _ :: _ => concat (map (fun line => lit "data: " ++ line ++ [lf]) (Split data [lf]))
  end.

Definition buildEvent (event : sseEvent) : bytes :=
  (match e_Name event with [] => [] | _ :: _ => lit "event: " ++ e_Name event ++ [lf] end)
  ++ writeSSEDataLines (e_Data event) ++ [lf].

Definition buildSSEBody (events : list sseEvent) : bytes := concat (map buildEvent events).

(** ** The replacement *)

Definition contentBlockEventStart : bytes := lit "content_block_start".
Definition contentBlockEventDelta : bytes := lit "content_block_delta".
Definition contentBlockEventStop : bytes := lit "content_block_stop".
Definition sseEventMessageStart : bytes := lit "message_start".

Definition isContentBlockEvent (name : bytes) : bool :=
  bool_decide (name = contentBlockEventStart) || bool_decide (name = contentBlockEventDelta)
  || bool_decide (name = contentBlockEventStop).

(** The payloads of the three events: type, index and, for a delta, the text. *)
Inductive payload := pStart (index : Z) | pDelta (index : Z) (text : bytes) | pStop (index : Z).

(** A byte that a JSON line may hold. *)
Definition printable (b : Byte.byte) : Prop := 32 <= b2z b.

(** The JSON encoder writes one line, which it ends with a newline, or fails. *)
Class PayloadEncoder := {
  Encode : payload -> option bytes;
  Encode_line p out : Encode p = Some out -> exists line, out = line ++ [lf] /\ Forall printable line /\ line <> [];
}.

Section replace.
Context `{PayloadEncoder}.

Definition MarshalSSEData (p : payload) : option bytes :=
  match Encode p with
  | Some buffer => Some (TrimSuffix buffer [lf])
  | None => None
  end.

Definition marshalTextBlockEvents (blockIndex : Z) (content : bytes) : option (list sseEvent) :=
  start ← MarshalSSEData (pStart blockIndex);
  delta ← MarshalSSEData (pDelta blockIndex content);
  stop ← MarshalSSEData (pStop blockIndex);
  Some [MkEvent contentBlockEventStart start; MkEvent contentBlockEventDelta delta; MkEvent contentBlockEventStop stop].

(** The loop of [replaceSSEText]: the output and whether the block was inserted. *)
Fixpoint replaceLoop (forced : bytes) (events output : list sseEvent) (blockInserted : bool)
  : option (list sseEvent * bool) :=
  match events with
  | [] => Some (output, blockInserted)
  | event :: events =>
      if isContentBlockEvent (e_Name event) then replaceLoop forced events output blockInserted else
      let output := output ++ [event] in
      if bool_decide (e_Name event = sseEventMessageStart) && negb blockInserted then
        match marshalTextBlockEvents 0 forced with
        | None => None
        | Some appendEvents => replaceLoop forced events (output ++ appendEvents) true
        end
      else replaceLoop forced events output blockInserted
  end.

Definition replaceSSEText (body forced : bytes) : option bytes :=
  let events := parseSSEEvents body in
  match events with
  | [] => Some body
  | _ :: _ =>
      match replaceLoop forced events [] false with
      | None => None
      | Some (output, blockInserted) => Some (if blockInserted : bool then buildSSEBody output else body)
      end
  end.

(** [responseReplaceTransformer.TransformResponse]: the body that goes to the client.  A
    response that is not a successful stream passes; when the body cannot be read to its
    end, what was read goes on; when the events cannot be encoded, the body does. *)
Definition TransformResponse (streamingSuccess readOk : bool) (body content : bytes) : bytes :=
  if negb streamingSuccess then body else
  if negb readOk then body else
  default body (replaceSSEText body content).
End replace.

(** ** The keywords *)

(** The texts between the keywords.  When both keywords occur and the first occurrence of
    the second is after that of the first, the split is exact: the user text is a prefix,
    the first keyword, the forced response, the second keyword and the upstream text.  But
    when the second keyword starts inside the first, the call panics. *)
Theorem parseSentinels_between u s a i j :
  s <> [] -> a <> [] -> Index u s = Some i -> Index u a = Some j -> (i < j)%nat ->
  if decide (j < i + length s)%nat then parseSentinels u s a = Panic
  else exists forced upstream, parseSentinels u s a = Ok (MkSplit forced upstream true true) /\
    u = take i u ++ s ++ forced ++ a ++ upstream /\ length (take i u ++ s ++ forced) = j.
Proof.
  intros Hs Ha Ei Ej Hij. unfold parseSentinels. destruct s as [|s0 s]; [done|]. destruct a as [|a0 a]; [done|].
  rewrite Ei, Ej, (proj2 (Nat.ltb_lt _ _) Hij). case_decide as Hd; [by rewrite (proj2 (Nat.ltb_lt _ _) Hd)|].
  rewrite (proj2 (Nat.ltb_ge _ _)) by lia. eexists _, _. split; [done|].
  apply Index_Some in Ei as (Hi & Hil & _), Ej as (Hj & Hjl & _).
  apply HasPrefix_spec in Hi as [ri Hi], Hj as [rj Hj].
  set (sl := s0 :: s) in *. set (al := a0 :: a) in *.
  assert (drop (i + length sl) u = ri) as Hri by (rewrite <- drop_drop, Hi; apply drop_app_length).
  assert (drop (j + length al) u = rj) as Hrj by (rewrite <- drop_drop, Hj; apply drop_app_length).
  set (k := (j - (i + length sl))%nat).
  assert (drop k ri = al ++ rj) as Hk.
  { rewrite <- Hri, drop_drop. rewrite <- Hj. f_equal. unfold k. lia. }
  assert (length ri = length u - (i + length sl))%nat as Hlr by (rewrite <- Hri, length_drop; done).
  rewrite Hri, Hrj. split.
  - rewrite <- Hk, take_drop, <- Hi. by rewrite take_drop.
  - rewrite !length_app, !length_take. rewrite Hlr. unfold k. lia.
Qed.

Lemma parseSentinels_between_witness :
  parseSentinels (lit "@@reply") (lit "@@reply") (lit "reply") = Panic.
Proof.
  exact (parseSentinels_between (lit "@@reply") (lit "@@reply") (lit "reply") 0 2 ltac:(discriminate) ltac:(discriminate)
    eq_refl eq_refl ltac:(lia)).
Defined.

(** ** Reading back what was written *)

(** The lines of an event. *)
Definition eventLines (event : sseEvent) : list bytes :=
  (match e_Name event with [] => [] | _ :: _ => [lit "event: " ++ e_Name event] end)
  ++ (match e_Data event with [] => [] | _ :: _ => map (fun line => lit "data: " ++ line) (Split (e_Data event) [lf]) end).

(** Events that survive: not empty, and a name that is trimmed, on one line, and no carriage
    returns, which the reader drops before newlines. *)
Record wfEvent (event : sseEvent) : Prop := {
  wf_some : ~ emptyEvent event;
  wf_name : TrimSpace (e_Name event) = e_Name event;
  wf_line : lf ∉ e_Name event;
  wf_cr : cr ∉ e_Name event ++ e_Data event;
}.

Lemma eventLines_nonempty event : ~ emptyEvent event -> eventLines event <> [].
Proof.
  intros He. unfold eventLines. destruct (e_Name event) eqn:En; [|done]. destruct (e_Data event) eqn:Ed.
  - exfalso. apply He. by split.
  - rewrite <- Ed. cbn [app]. destruct (Split_absent (e_Data event) lf) as (_ & _ & Hne). by destruct (Split (e_Data event) [lf]).
Qed.

(** A byte that does not occur in a literal. *)
Ltac absent_byte := apply (bool_decide_eq_true_1 _); vm_compute; reflexivity.

(** Every line has text, and none a newline. *)
Lemma eventLines_lines event :
  lf ∉ e_Name event -> Forall (fun line => line <> [] /\ lf ∉ line) (eventLines event).
Proof.
  intros Hn. unfold eventLines. apply Forall_app. split.
  - destruct (e_Name event); [done|]. constructor; [|done]. split; [done|]. rewrite not_elem_of_app. split; [|done]. absent_byte.
  - destruct (e_Data event) as [|b d] eqn:E; [done|]. rewrite <- E. destruct (Split_absent (e_Data event) lf) as (Hl & _ & _).
    apply Forall_fmap. eapply Forall_impl; [exact Hl|]. intros line Hline. cbn [compose]. split; [done|].
    rewrite not_elem_of_app. split; [|done]. absent_byte.
Qed.

(** The text of lines ends where the first empty line is. *)
Lemma Index_blank lines rest :
  lines <> [] -> Forall (fun line => line <> [] /\ lf ∉ line) lines ->
  Index (Join lines [lf] ++ [lf; lf] ++ rest) [lf; lf] = Some (length (Join lines [lf])).
Proof.
  induction lines as [|line lines IH]; intros Hne Hl; [done|]. apply Forall_cons in Hl as [[_ Hlf] Hl].
  destruct lines as [|next lines].
  - cbn [Join]. rewrite (Index_skip line lf [lf]), (Index_here [lf; lf]) by done. cbn. f_equal. lia.
  - rewrite Join_cons, <- !app_assoc by done. rewrite (Index_skip line lf [lf]) by done.
    pose proof (proj1 (proj1 (Forall_cons _ _ _) Hl)) as [Hn1 Hn2]. specialize (IH ltac:(done) Hl).
    assert (exists b tail, Join (next :: lines) [lf] ++ [lf; lf] ++ rest = b :: tail /\ b <> lf) as (b & tail & Hb & Hbl).
    { destruct next as [|b next]; [done|]. apply not_elem_of_cons in Hn2 as [Hb _].
      destruct lines; [by exists b, (next ++ [lf; lf] ++ rest)|]. rewrite Join_cons by done. eexists b, _. split; [done|done]. }
    change ([lf] ++ Join (next :: lines) [lf] ++ [lf; lf] ++ rest) with (lf :: (Join (next :: lines) [lf] ++ [lf; lf] ++ rest)).
    cbn [Index]. replace (HasPrefix (lf :: Join (next :: lines) [lf] ++ [lf; lf] ++ rest) [lf; lf]) with false.
    + rewrite IH. cbn [fmap option_fmap option_map]. f_equal. rewrite !length_app. cbn. lia.
    + rewrite Hb. cbn. rewrite (bool_decide_eq_true_2 (lf = lf)), (bool_decide_eq_false_2 (lf = b)) by done. done.
Qed.

Lemma writeData_lines data :
  writeSSEDataLines data = concat (map (.++ [lf]) (match data with [] => [] | _ :: _ => map (fun line => lit "data: " ++ line) (Split data [lf]) end)).
Proof.
  unfold writeSSEDataLines. destruct data as [|b d]; [done|]. rewrite map_map. done.
Qed.

Lemma concat_lines lines : lines <> [] -> concat (map (.++ [lf]) lines) = Join lines [lf] ++ [lf].
Proof.
  induction lines as [|line lines IH]; intros Hne; [done|]. destruct lines as [|next lines]; [cbn; by rewrite app_nil_r|].
  rewrite Join_cons by done. cbn [map concat] in *. rewrite IH by done. by rewrite <- !app_assoc.
Qed.

Lemma buildEvent_lines event : ~ emptyEvent event -> buildEvent event = Join (eventLines event) [lf] ++ [lf; lf].
Proof.
  intros He. unfold buildEvent. rewrite writeData_lines.
  transitivity (concat (map (.++ [lf]) (eventLines event)) ++ [lf]).
  - unfold eventLines. rewrite map_app, concat_app. destruct (e_Name event); [done|]. cbn [map concat].
    rewrite app_nil_r, <- !app_assoc. done.
  - rewrite concat_lines by (by apply eventLines_nonempty). by rewrite <- app_assoc.
Qed.

Lemma TrimPrefix_blank line : TrimPrefix (lit " " ++ line) (lit " ") = line.
Proof. by destruct line. Qed.

(** The lines of the data give the data lines back. *)
Lemma recordLines_data lines name acc :
  recordLines (map (fun line => lit "data: " ++ line) lines) name acc = MkEvent name (Join (acc ++ lines) [lf]).
Proof.
  revert acc. induction lines as [|line lines IH]; intros acc; cbn [map recordLines]; [by rewrite app_nil_r|].
  change (CutPrefix (lit "data: " ++ line) (lit "event:")) with (@None bytes).
  change (CutPrefix (lit "data: " ++ line) (lit "data:")) with (Some (lit " " ++ line)).
  cbv iota beta. rewrite IH. by rewrite TrimPrefix_blank, <- app_assoc.
Qed.

Lemma parse_eventLines event : wfEvent event -> parseSSERecord (Join (eventLines event) [lf]) = event.
Proof.
  intros [He Hn Hl _]. unfold parseSSERecord. rewrite Split_Join; [|by apply eventLines_nonempty|].
  2: { eapply Forall_impl; [by apply eventLines_lines|]. by intros line [_ ?]. }
  assert (forall name, recordLines (match e_Data event with [] => [] | _ :: _ => map (fun line => lit "data: " ++ line) (Split (e_Data event) [lf]) end) name []
    = MkEvent name (e_Data event)) as Hdata.
  { intros name. destruct (e_Data event) as [|b d] eqn:E; [done|]. rewrite recordLines_data. cbn [app]. f_equal.
    apply Split_absent. }
  unfold eventLines. destruct event as [[|n name] data]; cbn [e_Name e_Data] in *.
  - cbn [app]. apply Hdata.
  - cbn [app recordLines].
    change (CutPrefix (lit "event: " ++ n :: name) (lit "event:")) with (Some (Byte.x20 :: n :: name)).
    cbv iota beta. rewrite TrimSpace_blank, Hn. apply Hdata.
Qed.

Lemma replaceCRLF_id s : cr ∉ s -> replaceCRLF s = s.
Proof.
  induction s as [|b s IH]; intros Hn; [done|]. apply not_elem_of_cons in Hn as [Hb Hn]. cbn [replaceCRLF].
  destruct s as [|c s]; [done|]. rewrite bool_decide_eq_false_2 by done. cbn [andb]. f_equal. by apply IH.
Qed.

Lemma build_no_cr events : Forall wfEvent events -> cr ∉ buildSSEBody events.
Proof.
  intros Hw (l & Hl & Hin)%list_elem_of_In%in_concat. apply in_map_iff in Hl as (e & <- & He).
  rewrite Forall_forall in Hw. specialize (Hw e ltac:(by apply list_elem_of_In)). destruct Hw as [He1 _ _ Hcr].
  apply list_elem_of_In in Hin. unfold buildEvent in Hin. rewrite not_elem_of_app in Hcr. destruct Hcr as [Hc1 Hc2].
  apply elem_of_app in Hin as [Hin|Hin].
  - destruct (e_Name e); [by apply elem_of_nil in Hin|]. apply elem_of_app in Hin as [Hin|Hin]; [revert Hin; absent_byte|].
    apply elem_of_app in Hin as [Hin|Hin]; [done|revert Hin; absent_byte].
  - apply elem_of_app in Hin as [Hin|Hin]; [|revert Hin; absent_byte]. unfold writeSSEDataLines in Hin.
    destruct (e_Data e) as [|b d] eqn:E; [by apply elem_of_nil in Hin|]. rewrite <- E in *.
    apply list_elem_of_In, in_concat in Hin as (l & Hl & Hin). apply in_map_iff in Hl as (line & <- & Hline).
    apply list_elem_of_In in Hin. apply elem_of_app in Hin as [Hin|Hin]; [revert Hin; absent_byte|].
    apply elem_of_app in Hin as [Hin|Hin]; [|revert Hin; absent_byte]. apply Hc2.
    destruct (Split_absent (e_Data e) lf) as (_ & Hj & _). rewrite <- Hj. clear Hj. revert Hline.
    induction (Split (e_Data e) [lf]) as [|x parts IH]; intros Hline; [done|].
    destruct parts as [|y parts]; [destruct Hline as [->|[]]; done|]. rewrite Join_cons by done.
    destruct Hline as [->|Hline]; rewrite !elem_of_app; [by left|]. right. right. by apply IH.
Qed.

Lemma parse_body events :
  Forall wfEvent events ->
  base.filter (fun event => ~ emptyEvent event) (map parseSSERecord (Split (buildSSEBody events) [lf; lf])) = events.
Proof.
  induction events as [|event events IH]; intros Hw; [done|]. apply Forall_cons in Hw as [He Hw].
  unfold buildSSEBody. cbn [map concat]. fold (buildSSEBody events). pose proof (wf_some _ He) as Hs.
  rewrite buildEvent_lines, <- app_assoc by done.
  rewrite Split_part; [|done|apply Index_blank; [by apply eventLines_nonempty|apply eventLines_lines, (wf_line _ He)]].
  cbn [map]. rewrite parse_eventLines by done. rewrite filter_cons, decide_True by done. f_equal. by apply IH.
Qed.

(** Events read back as they were written: for events that are not empty, with trimmed
    one-line names and no carriage returns, and with data of any number of lines,
    including empty ones. *)
Theorem SSE_roundtrip events :
  Forall wfEvent events -> parseSSEEvents (buildSSEBody events) = events.
Proof.
  intros Hw. unfold parseSSEEvents. rewrite replaceCRLF_id by (by apply build_no_cr). by apply parse_body.
Qed.

Definition sampleEvents : list sseEvent :=
  [MkEvent sseEventMessageStart (lit "{}"); MkEvent contentBlockEventDelta (lit "hello");
   MkEvent [] (lit "one" ++ [lf; lf] ++ lit "three"); MkEvent (lit "ping") []].

Lemma sampleEvents_wf : Forall wfEvent sampleEvents.
Proof.
  repeat constructor; try (vm_compute; reflexivity); try (intros [E1 E2]; discriminate); absent_byte.
Qed.

Lemma SSE_roundtrip_witness : parseSSEEvents (buildSSEBody sampleEvents) = sampleEvents.
Proof. apply SSE_roundtrip. apply sampleEvents_wf. Defined.

(** ** The replacement *)

(** What the reader returns: trimmed one-line names, and only bytes of the record. *)
Lemma recordLines_name lines name acc :
  Forall (fun line => lf ∉ line) lines -> lf ∉ name -> TrimSpace name = name ->
  (lf ∉ e_Name (recordLines lines name acc)) /\ TrimSpace (e_Name (recordLines lines name acc)) = e_Name (recordLines lines name acc).
Proof.
  revert name acc. induction lines as [|line lines IH]; intros name acc Hl Hn Ht; [done|]. apply Forall_cons in Hl as [Hline Hl].
  cbn [recordLines]. destruct (CutPrefix line (lit "event:")) as [value|] eqn:E; [|destruct (CutPrefix line (lit "data:")); by apply IH].
  apply IH; [done| |apply TrimSpace_idem]. intros Hin%TrimSpace_subset. apply Hline.
  unfold CutPrefix in E. case_match; simplify_eq. apply list_elem_of_lookup in Hin as [i Hi]. rewrite lookup_drop in Hi. by eapply list_elem_of_lookup_2.
Qed.

Lemma Join_elem b parts sep : b ∈ Join parts sep -> b ∈ sep \/ exists part, part ∈ parts /\ b ∈ part.
Proof.
  induction parts as [|part parts IH]; intros H; [by apply elem_of_nil in H|]. destruct parts as [|next parts].
  - right. exists part. split; [apply list_elem_of_here|done].
  - rewrite Join_cons in H by done. rewrite !elem_of_app in H. destruct H as [H|[H|H]].
    + right. exists part. split; [apply list_elem_of_here|done].
    + by left.
    + destruct (IH H) as [?|(p & Hp & Hb)]; [by left|]. right. exists p. split; [by apply list_elem_of_further|done].
Qed.

Lemma CutPrefix_elem line prefix value b : CutPrefix line prefix = Some value -> b ∈ value -> b ∈ line.
Proof.
  unfold CutPrefix. intros E Hin. case_match; simplify_eq. apply list_elem_of_lookup in Hin as [i Hi].
  rewrite lookup_drop in Hi. by eapply list_elem_of_lookup_2.
Qed.

Lemma recordLines_bytes b lines name acc :
  Forall (fun line => b ∉ line) lines -> b ∉ name -> Forall (fun line => b ∉ line) acc -> b <> lf ->
  b ∉ e_Name (recordLines lines name acc) ++ e_Data (recordLines lines name acc).
Proof.
  revert name acc. induction lines as [|line lines IH]; intros name acc Hl Hn Ha Hb; cbn [recordLines].
  - cbn [e_Name e_Data]. rewrite not_elem_of_app. split; [done|]. intros [H|(p & Hp & Hin)]%Join_elem.
    + by apply list_elem_of_singleton in H.
    + rewrite Forall_forall in Ha. by apply (Ha p Hp).
  - apply Forall_cons in Hl as [Hline Hl]. destruct (CutPrefix line (lit "event:")) as [value|] eqn:E.
    { apply IH; try done. intros Hin%TrimSpace_subset. apply Hline. by eapply CutPrefix_elem. }
    destruct (CutPrefix line (lit "data:")) as [value|] eqn:E2; [|by apply IH]. apply IH; try done.
    apply Forall_app. split; [done|]. constructor; [|done]. intros Hin. apply Hline. eapply CutPrefix_elem; [done|].
    unfold TrimPrefix in Hin. destruct (CutPrefix value (lit " ")) as [v|] eqn:E3; cbn in Hin; [by eapply CutPrefix_elem|done].
Qed.

Lemma Split_part_bytes s sep part b : sep <> [] -> part ∈ Split s sep -> b ∈ part -> b ∈ s.
Proof.
  intros Hne. remember (length s) as n eqn:En. revert s En. induction (lt_wf n) as [n _ IH]. intros s -> Hp Hb.
  destruct (Index s sep) as [i|] eqn:E.
  - rewrite (Split_Some s sep i Hne E) in Hp. apply elem_of_cons in Hp as [->|Hp].
    + apply list_elem_of_lookup in Hb as [k Hk]. apply lookup_take_Some in Hk as [Hk _]. by eapply list_elem_of_lookup_2.
    + assert (0 < length sep)%nat by (destruct sep; [done|cbn; lia]). assert (s <> []) as Hs by (intros ->; by destruct sep).
      destruct s as [|x s]; [done|].
      eapply (IH (length (drop (i + length sep) (x :: s)))) in Hp; [|rewrite length_drop; cbn [length] in *; lia|done|done].
      apply list_elem_of_lookup in Hp as [k Hk]. rewrite lookup_drop in Hk. by eapply list_elem_of_lookup_2.
  - rewrite (Split_None s sep E) in Hp. apply list_elem_of_singleton in Hp. by subst.
Qed.

(** Events that were read can be written and read again. *)
Lemma parsed_wf body : cr ∉ replaceCRLF body -> Forall wfEvent (parseSSEEvents body).
Proof.
  intros Hcr. apply Forall_forall. intros event (He & Hin)%list_elem_of_filter.
  apply list_elem_of_In, in_map_iff in Hin as (record & <- & Hr). apply list_elem_of_In in Hr.
  destruct (Split_absent record lf) as (Hl & _ & _).
  destruct (recordLines_name (Split record [lf]) [] [] Hl (not_elem_of_nil _) eq_refl) as [H1 H2].
  split; [done|done|done|]. apply recordLines_bytes; [|apply not_elem_of_nil|done|done].
  apply Forall_forall. intros line Hline Hin. apply Hcr. eapply Split_part_bytes; [|exact Hr|]; [done|].
  by eapply Split_part_bytes; [|exact Hline|].
Qed.

Section exact.
Context `{PayloadEncoder}.

Lemma MarshalSSEData_line p data : MarshalSSEData p = Some data -> (lf ∉ data) /\ (cr ∉ data) /\ data <> [].
Proof.
  unfold MarshalSSEData. destruct (Encode p) as [buffer|] eqn:E; [|done]. intros [= <-].
  destruct (Encode_line p buffer E) as (line & -> & Hp & Hne). unfold TrimSuffix, HasSuffix. rewrite length_app. cbn [length].
  replace (length line + 1 - 1)%nat with (length line) by lia. rewrite drop_app_length, bool_decide_eq_true_2 by done.
  rewrite (proj2 (Nat.leb_le _ _)) by lia. cbn [andb]. rewrite take_app_length. rewrite Forall_forall in Hp.
  split_and!; [intros Hin..|done]; by apply Hp in Hin.
Qed.

Lemma marshalTextBlockEvents_wf index content events :
  marshalTextBlockEvents index content = Some events -> Forall wfEvent events.
Proof.
  unfold marshalTextBlockEvents. intros E.
  destruct (MarshalSSEData (pStart index)) as [start|] eqn:E1; [|done].
  destruct (MarshalSSEData (pDelta index content)) as [delta|] eqn:E2; [|done].
  destruct (MarshalSSEData (pStop index)) as [stop|] eqn:E3; [|done]. cbn [mbind option_bind] in E. injection E as <-.
  apply MarshalSSEData_line in E1 as (_ & C1 & _), E2 as (_ & C2 & _), E3 as (_ & C3 & _).
  repeat constructor; try (intros [? ?]; discriminate); try (vm_compute; reflexivity); try absent_byte.
  all: cbn [e_Name e_Data]; rewrite not_elem_of_app; (split; [absent_byte|done]).
Qed.

(** The events that are kept, and the block after the first start of a message. *)
Definition keptEvents (events : list sseEvent) : list sseEvent :=
  base.filter (fun event => isContentBlockEvent (e_Name event) = false) events.

Fixpoint insertAfterStart (block events : list sseEvent) : list sseEvent :=
  match events with
  | [] => []
  | event :: events =>
      if decide (e_Name event = sseEventMessageStart) then event :: block ++ events
      else event :: insertAfterStart block events
  end.

Lemma replaceLoop_kept forced events output :
  replaceLoop forced events output true = Some (output ++ keptEvents events, true).
Proof.
  revert output. induction events as [|event events IH]; intros output; cbn [replaceLoop].
  { unfold keptEvents. by rewrite app_nil_r. }
  unfold keptEvents. rewrite filter_cons. destruct (isContentBlockEvent (e_Name event)) eqn:E; cbn [negb].
  - rewrite decide_False by done. apply IH.
  - rewrite decide_True by done. rewrite andb_false_r, IH. by rewrite <- app_assoc.
Qed.

Definition startsMessage (events : list sseEvent) : bool :=
  existsb (fun event => bool_decide (e_Name event = sseEventMessageStart)) events.

Lemma replaceLoop_spec forced events output block :
  marshalTextBlockEvents 0 forced = Some block ->
  exists out, replaceLoop forced events output false = Some (out, startsMessage (keptEvents events)) /\
    (startsMessage (keptEvents events) = true -> out = output ++ insertAfterStart block (keptEvents events)).
Proof.
  intros Hb. revert output. induction events as [|event events IH]; intros output; cbn [replaceLoop].
  { by eexists. }
  unfold keptEvents. rewrite filter_cons. destruct (isContentBlockEvent (e_Name event)) eqn:E.
  - rewrite decide_False by done. apply IH.
  - rewrite decide_True by done. cbn [startsMessage existsb insertAfterStart].
    destruct (bool_decide (e_Name event = sseEventMessageStart)) eqn:Es; cbn [andb negb orb].
    + apply bool_decide_eq_true in Es. rewrite Hb, replaceLoop_kept, decide_True by done. eexists. split; [done|].
      intros _. by rewrite <- !app_assoc.
    + apply bool_decide_eq_false in Es. destruct (IH (output ++ [event])) as (out & -> & Ho). exists out. split; [done|].
      intros Hs. rewrite (Ho Hs), decide_False by done. by rewrite <- app_assoc.
Qed.

Lemma insertAfterStart_wf block events :
  Forall wfEvent block -> Forall wfEvent events -> Forall wfEvent (insertAfterStart block events).
Proof.
  intros Hb. induction events as [|event events IH]; intros He; [done|]. apply Forall_cons in He as [H1 H2]. cbn.
  case_decide; constructor; [done|by apply Forall_app|done|by apply IH].
Qed.

Lemma kept_start events : startsMessage (keptEvents events) = startsMessage events.
Proof.
  induction events as [|event events IH]; [done|]. unfold keptEvents. rewrite filter_cons. cbn [startsMessage existsb].
  destruct (isContentBlockEvent (e_Name event)) eqn:E.
  - rewrite decide_False by done. fold (keptEvents events). fold (startsMessage events). rewrite <- IH.
    rewrite bool_decide_eq_false_2; [done|]. intros En. by rewrite En in E.
  - rewrite decide_True by done. unfold startsMessage in *. cbn [existsb]. f_equal. exact IH.
Qed.

(** C28. The model text is replaced and nothing else.  When the block can be encoded, a stream
    with a start of a message becomes one that a client reads as the same events without
    the content blocks, with exactly the forced block after the first start; a stream
    without one passes unchanged.  (A stray carriage return, one not before a newline, is
    excluded: the reader would drop it.) *)
Theorem replaceSSEText_exact body forced block :
  cr ∉ replaceCRLF body -> marshalTextBlockEvents 0 forced = Some block ->
  exists out, replaceSSEText body forced = Some out /\
    if startsMessage (parseSSEEvents body)
    then parseSSEEvents out = insertAfterStart block (keptEvents (parseSSEEvents body))
    else out = body.
Proof.
  intros Hcr Hb. unfold replaceSSEText. destruct (parseSSEEvents body) as [|event events] eqn:Ep; [by eexists|]. rewrite <- Ep.
  destruct (replaceLoop_spec forced (parseSSEEvents body) [] block Hb) as (out & -> & Ho). eexists. split; [done|].
  rewrite kept_start in *. destruct (startsMessage (parseSSEEvents body)); [|done]. rewrite Ho by done. cbn [app].
  assert (Forall wfEvent (insertAfterStart block (keptEvents (parseSSEEvents body)))) as Hw.
  { apply insertAfterStart_wf; [by eapply marshalTextBlockEvents_wf|]. apply Forall_forall. intros e [_ He]%list_elem_of_filter.
    pose proof (parsed_wf body Hcr) as Hp. rewrite Forall_forall in Hp. by apply Hp. }
  unfold parseSSEEvents at 1. rewrite replaceCRLF_id by (by apply build_no_cr). by apply parse_body.
Qed.
End exact.

(** ** An encoder *)

(** The text of a delta with quotes, backslashes and control characters escaped. *)
Definition escapeByte (b : Byte.byte) : bytes :=
  if (b2z b <? 32) || (b2z b =? 34) || (b2z b =? 92) then lit "\u00" ++ hexDigits 2 (b2z b) else [b].

Definition encodeSample (p : payload) : bytes :=
  match p with
  | pStart i => lit "start " ++ Itoa 0
  | pDelta i text => lit "delta " ++ concat (map escapeByte text)
  | pStop i => lit "stop " ++ Itoa 0
  end.

Lemma escapeByte_printable b : Forall printable (escapeByte b).
Proof. destruct b; repeat constructor; vm_compute; discriminate. Qed.

#[local] Instance sampleEncoder : PayloadEncoder.
Proof.
  refine {| Encode p := Some (encodeSample p ++ [lf]) |}. intros p out [= <-]. exists (encodeSample p). split; [done|].
  split; [|by destruct p]. destruct p; cbn [encodeSample].
  - repeat constructor; vm_compute; discriminate.
  - apply Forall_app. split; [repeat constructor; vm_compute; discriminate|]. apply Forall_concat, Forall_fmap, Forall_forall.
    intros b _. apply escapeByte_printable.
  - repeat constructor; vm_compute; discriminate.
Defined.

Lemma replaceSSEText_exact_witness :
  exists out, replaceSSEText (buildSSEBody sampleEvents) (lit "forced") = Some out /\
    map e_Name (parseSSEEvents out) =
      [sseEventMessageStart; contentBlockEventStart; contentBlockEventDelta; contentBlockEventStop; []; lit "ping"].
Proof.
  destruct (marshalTextBlockEvents 0 (lit "forced")) as [block|] eqn:E; [|vm_compute in E; discriminate].
  destruct (replaceSSEText_exact (buildSSEBody sampleEvents) (lit "forced") block) as (out & H1 & H2);
    [apply (bool_decide_eq_true_1 _); vm_compute; reflexivity|exact E|].
  exists out. split; [exact H1|]. assert (parseSSEEvents (buildSSEBody sampleEvents) = sampleEvents) as Es by (vm_compute; reflexivity). rewrite Es in H2.
  change (startsMessage sampleEvents) with true in H2. cbv iota in H2. rewrite H2. clear -E. vm_compute in E. injection E as <-.
  vm_compute. reflexivity.
Defined.
