(* ===== verification/GoSha256.v ===== *)
(** * GoSha256: [crypto/sha256], [encoding/hex] and the strings of [encoding/json]

    The digest is the one of FIPS 180-4 on bytes.  Its constants are computed from their
    definition (the fractional parts of the square and cube roots of the first primes).
    The JSON part writes a string the way [json.Marshal] does. *)

From S2P Require Import Prelude GoUtf8 GoStrconv.

Open Scope Z_scope.

(** ** Constants *)

Definition isPrime (n : Z) : bool := forallb (fun d => negb (n mod Z.of_nat d =? 0)) (seq 2 (Z.to_nat n - 2)).

(** The first [n] primes; the sixty-fourth is 311. *)
Definition firstPrimes (n : nat) : list Z := take n (List.filter isPrime (map Z.of_nat (seq 2 310))).

(** The cube root rounded down, of a number below 2^108. *)
Fixpoint cubeRoot (bit : nat) (root n : Z) : Z :=
  let next := root + 2 ^ Z.of_nat bit in
  let root := if next * next * next <=? n then next else root in
  match bit with O => root | S bit => cubeRoot bit root n end.

Definition roundConstants : list Z :=
  Eval vm_compute in map (fun p => u32 (cubeRoot 35 0 (p * 2 ^ 96))) (firstPrimes 64).

Definition initialHash : list Z :=
  Eval vm_compute in map (fun p => u32 (Z.sqrt (p * 2 ^ 64))) (firstPrimes 8).

(** ** Compression *)

Definition rotr (x n : Z) : Z := Z.lor (Z.shiftr x n) (u32 (Z.shiftl x (32 - n))).
Definition not32 (x : Z) : Z := Z.lxor x (2 ^ 32 - 1).
Definition xor3 (x y z : Z) : Z := Z.lxor x (Z.lxor y z).

Definition bigSigma0 (x : Z) : Z := xor3 (rotr x 2) (rotr x 13) (rotr x 22).
Definition bigSigma1 (x : Z) : Z := xor3 (rotr x 6) (rotr x 11) (rotr x 25).
Definition smallSigma0 (x : Z) : Z := xor3 (rotr x 7) (rotr x 18) (Z.shiftr x 3).
Definition smallSigma1 (x : Z) : Z := xor3 (rotr x 17) (rotr x 19) (Z.shiftr x 10).
Definition choice (x y z : Z) : Z := Z.lxor (Z.land x y) (Z.land (not32 x) z).
Definition majority (x y z : Z) : Z := xor3 (Z.land x y) (Z.land x z) (Z.land y z).

Record digest := MkDigest { dA : Z; dB : Z; dC : Z; dD : Z; dE : Z; dF : Z; dG : Z; dH : Z }.

(** One round per constant.  [window] holds the next sixteen words of the schedule. *)
Fixpoint rounds (constants window : list Z) (d : digest) : digest :=
  match constants with
  | [] => d
  | k :: constants =>
      let w i := nth i window 0 in
      let t1 := dH d + bigSigma1 (dE d) + choice (dE d) (dF d) (dG d) + k + w 0%nat in
      let t2 := bigSigma0 (dA d) + majority (dA d) (dB d) (dC d) in
      let next := u32 (smallSigma1 (w 14%nat) + w 9%nat + smallSigma0 (w 1%nat) + w 0%nat) in
      rounds constants (drop 1 window ++ [next])
        (MkDigest (u32 (t1 + t2)) (dA d) (dB d) (dC d) (u32 (dD d + t1)) (dE d) (dF d) (dG d))
  end.

Definition addDigest (x y : digest) : digest :=
  MkDigest (u32 (dA x + dA y)) (u32 (dB x + dB y)) (u32 (dC x + dC y)) (u32 (dD x + dD y))
    (u32 (dE x + dE y)) (u32 (dF x + dF y)) (u32 (dG x + dG y)) (u32 (dH x + dH y)).

(** Big-endian bytes. *)
Fixpoint beBytes (n : nat) (x : Z) : bytes :=
  match n with O => [] | S n => z2b (x / 2 ^ (8 * Z.of_nat n)) :: beBytes n x end.
Definition beWord (s : bytes) : Z := foldl (fun acc b => acc * 256 + b2z b) 0 s.

Definition blockWords (block : bytes) : list Z := map (fun i => beWord (take 4 (drop (4 * i) block))) (seq 0 16).

(** [fuel] bounds the number of 64-byte blocks. *)
Fixpoint blocks (fuel : nat) (s : bytes) (d : digest) : digest :=
  match fuel with
  | O => d
  | S fuel =>
      match s with
      | [] => d
      | _ :: _ => blocks fuel (drop 64 s) (addDigest d (rounds roundConstants (blockWords (take 64 s)) d))
      end
  end.

(** A one bit, zeros up to eight bytes short of a block, and the length in bits. *)
Definition padded (s : bytes) : bytes :=
  s ++ [Byte.x80] ++ replicate (Z.to_nat ((55 - zlen s) mod 64)) Byte.x00 ++ beBytes 8 (zlen s * 8).

Definition startDigest : digest :=
  let w i := nth i initialHash 0 in
  MkDigest (w 0%nat) (w 1%nat) (w 2%nat) (w 3%nat) (w 4%nat) (w 5%nat) (w 6%nat) (w 7%nat).

(** [sha256.Sum256]. *)
Definition Sum256 (s : bytes) : bytes :=
  let d := blocks (length (padded s)) (padded s) startDigest in
  concat (map (beBytes 4) [dA d; dB d; dC d; dD d; dE d; dF d; dG d; dH d]).

(** [hex.EncodeToString]. *)
Definition EncodeToString (s : bytes) : bytes :=
  concat (map (fun b => [hexDigit (b2z b / 16); hexDigit (b2z b mod 16)]) s).

Lemma beBytes_length n x : length (beBytes n x) = n.
Proof. induction n as [|n IH]; [done|]. cbn [beBytes length]. by rewrite IH. Qed.

Lemma Sum256_length s : length (Sum256 s) = 32%nat.
Proof. unfold Sum256. cbn [map concat]. by rewrite !length_app, !beBytes_length. Qed.

Lemma EncodeToString_length s : length (EncodeToString s) = (2 * length s)%nat.
Proof. induction s as [|b s IH]; [done|]. unfold EncodeToString in *. cbn [map concat]. rewrite length_app, IH. cbn. lia. Qed.

Lemma hexDigit_pair b c :
  [hexDigit (b2z b / 16); hexDigit (b2z b mod 16)] = [hexDigit (b2z c / 16); hexDigit (b2z c mod 16)] -> b = c.
Proof.
  assert (forall x y, 0 <= x < 16 -> 0 <= y < 16 -> hexDigit x = hexDigit y -> x = y) as Hinj.
  { intros x y Hx Hy H. apply (f_equal b2z) in H. unfold hexDigit in H.
    destruct (Z.ltb_spec x 10), (Z.ltb_spec y 10); rewrite !b2z_z2b, !Z.mod_small in H by lia; lia. }
  intros [= H1 H2]. pose proof (b2z_range b). pose proof (b2z_range c).
  pose proof (Z.mod_pos_bound (b2z b) 16). pose proof (Z.mod_pos_bound (b2z c) 16).
  apply Hinj in H1; [|split; [apply Z.div_pos|apply Z.div_lt_upper_bound]; lia..]. apply Hinj in H2; [|lia|lia].
  apply b2z_inj. rewrite (Z.div_mod (b2z b) 16), (Z.div_mod (b2z c) 16) by done. by rewrite H1, H2.
Qed.

(** Different digests have different texts. *)
Lemma EncodeToString_inj s t : EncodeToString s = EncodeToString t -> s = t.
Proof.
  revert t. induction s as [|b s IH]; intros [|c t] H; try done.
  change (EncodeToString (b :: s)) with ([hexDigit (b2z b / 16); hexDigit (b2z b mod 16)] ++ EncodeToString s) in H.
  change (EncodeToString (c :: t)) with ([hexDigit (b2z c / 16); hexDigit (b2z c mod 16)] ++ EncodeToString t) in H.
  apply app_inj_1 in H as [H1 H2]; [|done]. by rewrite (hexDigit_pair _ _ H1), (IH _ H2).
Qed.

(** The examples of the standard. *)
Example Sum256_empty :
  EncodeToString (Sum256 []) = lit "e3b0c44298fc1c149afbf4c8996fb92427ae41e4649b934ca495991b7852b855".
Proof. vm_compute. reflexivity. Qed.

Example Sum256_abc :
  EncodeToString (Sum256 (lit "abc")) = lit "ba7816bf8f01cfea414140de5dae2223b00361a396177a9cb410ff61f20015ad".
Proof. vm_compute. reflexivity. Qed.

Example Sum256_two_blocks :
  EncodeToString (Sum256 (lit "abcdbcdecdefdefgefghfghighijhijkijkljklmklmnlmnomnopnopq"))
  = lit "248d6a61d20638b8e5c026930c3e6039a33ce45964ff2167f6ecedd419db06c1".
Proof. vm_compute. reflexivity. Qed.

(** ** Strings in JSON *)

(** The bytes [json.Marshal] writes as they are: printable, and none of the quote, the
    backslash and the three that HTML treats specially. *)
Definition htmlSafe (b : Byte.byte) : bool :=
  (32 <=? b2z b) && negb (existsb (Z.eqb (b2z b)) [34; 92; 60; 62; 38]).

Definition jsonEscape (b : Byte.byte) : bytes :=
  let z := b2z b in
  if (z =? 34) || (z =? 92) then [backslash; b]
  else if z =? 8 then lit "\b" else if z =? 12 then lit "\f" else if z =? 10 then lit "\n"
  else if z =? 13 then lit "\r" else if z =? 9 then lit "\t"
  else lit "\u00" ++ [hexDigit (z / 16); hexDigit (z mod 16)].

(** A byte that starts no rune is written as the escape of U+FFFD, and U+2028 and U+2029 are
    escaped. *)
Fixpoint jsonLoop (fuel : nat) (s : bytes) : bytes :=
  match fuel with
  | O => []
  | S fuel =>
      match s with
      | [] => []
      | b :: _ =>
          if b2z b <? RuneSelf then (if htmlSafe b then [b] else jsonEscape b) ++ jsonLoop fuel (drop 1 s) else
          let '(r, width) := DecodeRune s in
          if (r =? RuneError) && (width =? 1)%nat then lit "\ufffd" ++ jsonLoop fuel (drop 1 s)
          else if r =? 8232 then lit "\u2028" ++ jsonLoop fuel (drop width s)
          else if r =? 8233 then lit "\u2029" ++ jsonLoop fuel (drop width s)
          else take width s ++ jsonLoop fuel (drop width s)
      end
  end.

Definition jsonString (s : bytes) : bytes := [dquote] ++ jsonLoop (length s) s ++ [dquote].
