(* ===== verification/GoJson.v ===== *)
(** * GoJson: what the program uses of encoding/json

    The scanner of [encoding/json] as a parser that gives every value with its text, as
    [json.RawMessage] keeps it; [json.Valid], [json.Unmarshal] into strings, raw items and
    raw fields, and [json.Marshal] of raw items and fields.  The nesting limit of the scanner
    is the fuel of the parser.

    The main fact is [parseValue_local]: the text of a value that was found inside another
    one, read again on its own, is the same value. *)

From S2P Require Import Prelude GoUtf8 GoStrconv GoText GoSort GoSha256.

Open Scope Z_scope.

(** ** The scanner *)

(** A value with its text; the keys of an object are texts of strings. *)
Inductive json :=
| JLiteral (raw : bytes)
| JNumber (raw : bytes)
| JString (raw : bytes)
| JArray (raw : bytes) (items : list json)
| JObject (raw : bytes) (fields : list (bytes * json)).

Definition rawOf (v : json) : bytes :=
  match v with
  | JLiteral raw | JNumber raw | JString raw | JArray raw _ | JObject raw _ => raw
  end.

Definition isJSONSpace (b : Byte.byte) : bool :=
  bool_decide (b = Byte.x20) || bool_decide (b = Byte.x09) || bool_decide (b = Byte.x0d) || bool_decide (b = Byte.x0a).

Fixpoint skipSpace (s : bytes) : bytes :=
  match s with
  | b :: rest => if isJSONSpace b then skipSpace rest else s
  | [] => []
  end.

Definition isHex (b : Byte.byte) : bool := match unhex b with Some _ => true | None => false end.

(** The rest of a string literal after its opening quote: the text up to and with the closing
    quote, and what follows. *)
Fixpoint stringEnd (s : bytes) : option (bytes * bytes) :=
  match s with
  | [] => None
  | b :: rest =>
      if bool_decide (b = dquote) then Some ([b], rest)
      else if bool_decide (b = backslash) then
        match rest with
        | [] => None
        | c :: rest =>
            if existsb (fun x => bool_decide (c = x)) (lit "bfnrt\/") || bool_decide (c = dquote)
            then '(raw, rest) ← stringEnd rest; Some (b :: c :: raw, rest)
            else if bool_decide (c = Byte.x75) then
              match rest with
              | h1 :: h2 :: h3 :: h4 :: rest =>
                  if isHex h1 && isHex h2 && isHex h3 && isHex h4
                  then '(raw, rest) ← stringEnd rest; Some (b :: c :: h1 :: h2 :: h3 :: h4 :: raw, rest)
                  else None
              | _ => None
              end
            else None
        end
      else if b2z b <? 32 then None
      else '(raw, rest) ← stringEnd rest; Some (b :: raw, rest)
  end.

Fixpoint digits (s : bytes) : bytes * bytes :=
  match s with
  | b :: rest => if isDigit b then let '(ds, rest) := digits rest in (b :: ds, rest) else ([], s)
  | [] => ([], [])
  end.

(** At least one digit. *)
Definition digits1 (s : bytes) : option (bytes * bytes) :=
  match digits s with
  | ([], _) => None
  | (ds, rest) => Some (ds, rest)
  end.

Definition optional (b : Byte.byte) (s : bytes) : bytes * bytes :=
  match s with
  | c :: rest => if bool_decide (c = b) then ([c], rest) else ([], s)
  | [] => ([], [])
  end.

Definition scanInt (s : bytes) : option (bytes * bytes) :=
  match s with
  | b :: rest => if bool_decide (b = Byte.x30) then Some ([b], rest) else digits1 s
  | [] => None
  end.

Definition scanFraction (s : bytes) : option (bytes * bytes) :=
  match s with
  | b :: rest => if bool_decide (b = Byte.x2e) then '(ds, rest) ← digits1 rest; Some (b :: ds, rest) else Some ([], s)
  | [] => Some ([], [])
  end.

Definition scanSign (s : bytes) : bytes * bytes :=
  match s with
  | b :: rest => if bool_decide (b = Byte.x2b) || bool_decide (b = Byte.x2d) then ([b], rest) else ([], s)
  | [] => ([], [])
  end.

Definition scanExponent (s : bytes) : option (bytes * bytes) :=
  match s with
  | b :: rest =>
      if bool_decide (b = Byte.x65) || bool_decide (b = Byte.x45)
      then let '(sign, rest) := scanSign rest in '(ds, rest) ← digits1 rest; Some (b :: sign ++ ds, rest)
      else Some ([], s)
  | [] => Some ([], [])
  end.

Definition scanNumber (s : bytes) : option (bytes * bytes) :=
  let '(minus, s) := optional Byte.x2d s in
  '(int, s) ← scanInt s;
  '(fraction, s) ← scanFraction s;
  '(exponent, s) ← scanExponent s;
  Some (minus ++ int ++ fraction ++ exponent, s).

Definition scanLiteral (s : bytes) : option (bytes * bytes) :=
  match CutPrefix s (lit "true") with
  | Some rest => Some (lit "true", rest)
  | None =>
      match CutPrefix s (lit "false") with
      | Some rest => Some (lit "false", rest)
      | None =>
          match CutPrefix s (lit "null") with
          | Some rest => Some (lit "null", rest)
          | None => None
          end
      end
  end.

Section containers.
(** The parser of the elements. *)
Context (elem : bytes -> option (json * bytes)).

(** The items of an array after the bracket or a comma, with the closing bracket; [n] bounds
    their number. *)
Fixpoint itemsLoop (n : nat) (s : bytes) : option (list json * bytes) :=
  match n with
  | O => None
  | S n =>
      '(v, rest) ← elem s;
      match skipSpace rest with
      | b :: rest =>
          if bool_decide (b = Byte.x2c) then '(vs, rest) ← itemsLoop n rest; Some (v :: vs, rest)
          else if bool_decide (b = Byte.x5d) then Some ([v], rest)
          else None
      | [] => None
      end
  end.

Definition parseItems (s : bytes) : option (list json * bytes) :=
  match skipSpace s with
  | b :: rest => if bool_decide (b = Byte.x5d) then Some ([], rest) else itemsLoop (length s) (b :: rest)
  | [] => None
  end.

(** A key, the colon and the value. *)
Definition parseField (s : bytes) : option (bytes * json * bytes) :=
  match skipSpace s with
  | q :: rest =>
      if bool_decide (q = dquote) then
        '(key, rest) ← stringEnd rest;
        match skipSpace rest with
        | c :: rest => if bool_decide (c = Byte.x3a) then '(v, rest) ← elem rest; Some (q :: key, v, rest) else None
        | [] => None
        end
      else None
  | [] => None
  end.

Fixpoint fieldsLoop (n : nat) (s : bytes) : option (list (bytes * json) * bytes) :=
  match n with
  | O => None
  | S n =>
      '(key, v, rest) ← parseField s;
      match skipSpace rest with
      | b :: rest =>
          if bool_decide (b = Byte.x2c) then '(fields, rest) ← fieldsLoop n rest; Some ((key, v) :: fields, rest)
          else if bool_decide (b = Byte.x7d) then Some ([(key, v)], rest)
          else None
      | [] => None
      end
  end.

Definition parseFields (s : bytes) : option (list (bytes * json) * bytes) :=
  match skipSpace s with
  | b :: rest => if bool_decide (b = Byte.x7d) then Some ([], rest) else fieldsLoop (length s) (b :: rest)
  | [] => None
  end.
End containers.

(** What was read of [s] when [rest] is left. *)
Definition consumed (s rest : bytes) : bytes := take (length s - length rest) s.

(** The value at the start of [s], after white space; containers are at most [fuel - 1]
    deep. *)
Fixpoint parseValue (fuel : nat) (s : bytes) : option (json * bytes) :=
  match fuel with
  | O => None
  | S fuel =>
      match skipSpace s with
      | [] => None
      | b :: rest =>
          if bool_decide (b = dquote) then '(raw, rest) ← stringEnd rest; Some (JString (b :: raw), rest)
          else if bool_decide (b = Byte.x5b) then
            if (fuel =? 0)%nat then None else
            '(items, rest') ← parseItems (parseValue fuel) rest; Some (JArray (b :: consumed rest rest') items, rest')
          else if bool_decide (b = Byte.x7b) then
            if (fuel =? 0)%nat then None else
            '(fields, rest') ← parseFields (parseValue fuel) rest; Some (JObject (b :: consumed rest rest') fields, rest')
          else match scanLiteral (b :: rest) with
               | Some (raw, rest) => Some (JLiteral raw, rest)
               | None => '(raw, rest) ← scanNumber (b :: rest); Some (JNumber raw, rest)
               end
      end
  end.

(** [maxNestingDepth] of the scanner. *)
Definition maxNestingDepth : nat := Z.to_nat 10000.

(** The only value of a text. *)
Definition parseDoc (depth : nat) (s : bytes) : option json :=
  '(v, rest) ← parseValue (S depth) s;
  match skipSpace rest with
  | [] => Some v
  | _ :: _ => None
  end.

(** [json.Valid]. *)
Definition Valid (s : bytes) : bool := match parseDoc maxNestingDepth s with Some _ => true | None => false end.

(** ** Strings *)

(** [getu4] on the text after the backslash and the u. *)
Definition hex4 (s : bytes) : option (Z * bytes) := hexValue 4 0 s.

(** [getu4] with the backslash and the u. *)
Definition getu4 (s : bytes) : option (Z * bytes) :=
  match s with
  | b :: c :: rest => if bool_decide (b = backslash) && bool_decide (c = Byte.x75) then hex4 rest else None
  | _ => None
  end.

(** [utf16.DecodeRune]. *)
Definition decodeSurrogates (r1 r2 : Z) : option Z :=
  if inZ 55296 56319 r1 && inZ 56320 57343 r2 then Some ((r1 - 55296) * 1024 + (r2 - 56320) + 65536) else None.

(** [unquote] between the quotes. *)
Fixpoint jsonUnquote (fuel : nat) (s : bytes) : option bytes :=
  match fuel with
  | O => Some []
  | S fuel =>
      match s with
      | [] => Some []
      | b :: rest =>
          if bool_decide (b = backslash) then
            match rest with
            | [] => None
            | c :: rest' =>
                if bool_decide (c = dquote) || bool_decide (c = backslash) || bool_decide (c = Byte.x2f) || bool_decide (c = Byte.x27)
                then (app [c]) <$> jsonUnquote fuel rest'
                else if bool_decide (c = Byte.x62) then (app [Byte.x08]) <$> jsonUnquote fuel rest'
                else if bool_decide (c = Byte.x66) then (app [Byte.x0c]) <$> jsonUnquote fuel rest'
                else if bool_decide (c = Byte.x6e) then (app [Byte.x0a]) <$> jsonUnquote fuel rest'
                else if bool_decide (c = Byte.x72) then (app [Byte.x0d]) <$> jsonUnquote fuel rest'
                else if bool_decide (c = Byte.x74) then (app [Byte.x09]) <$> jsonUnquote fuel rest'
                else if bool_decide (c = Byte.x75) then
                  match hex4 rest' with
                  | None => None
                  | Some (r, rest') =>
                      if inZ 55296 57343 r then
                        match getu4 rest' with
                        | Some (r2, rest2) =>
                            match decodeSurrogates r r2 with
                            | Some d => (app (EncodeRune d)) <$> jsonUnquote fuel rest2
                            | None => (app (EncodeRune RuneError)) <$> jsonUnquote fuel rest'
                            end
                        | None => (app (EncodeRune RuneError)) <$> jsonUnquote fuel rest'
                        end
                      else (app (EncodeRune r)) <$> jsonUnquote fuel rest'
                  end
                else None
            end
          else if bool_decide (b = dquote) || (b2z b <? 32) then None
          else if b2z b <? RuneSelf then (app [b]) <$> jsonUnquote fuel rest
          else let '(r, width) := DecodeRune s in (app (EncodeRune r)) <$> jsonUnquote fuel (drop width s)
      end
  end.

(** The value of the text of a string, quotes included. *)
Definition decodeString (raw : bytes) : option bytes :=
  let inner := take (length raw - 2) (drop 1 raw) in jsonUnquote (length inner) inner.

(** ** Unmarshal and Marshal *)

(** [json.Unmarshal] into a string. *)
Definition UnmarshalString (s : bytes) : option bytes :=
  match parseDoc maxNestingDepth s with
  | Some (JString raw) => decodeString raw
  | _ => None
  end.

(** [json.Unmarshal] of a text that starts with a bracket into a [[]json.RawMessage]. *)
Definition UnmarshalItems (s : bytes) : option (list bytes) :=
  match parseDoc maxNestingDepth s with
  | Some (JArray _ items) => Some (map rawOf items)
  | _ => None
  end.

Definition fieldName (key : bytes) : bytes := default [] (decodeString key).

(** [json.Unmarshal] of a text that starts with a brace into a [map[string]json.RawMessage]:
    the last of several fields of one name stays. *)
Definition UnmarshalFields (s : bytes) : option (gmap bytes bytes) :=
  match parseDoc maxNestingDepth s with
  | Some (JObject _ fields) => Some (foldl (fun m '(key, v) => <[fieldName key := rawOf v]> m) ∅ fields)
  | _ => None
  end.

(** How [json.Marshal] writes a raw message: without the white space between tokens, and with
    the characters escaped that HTML treats specially. *)
Fixpoint compactLoop (inString escaped : bool) (s : bytes) : bytes :=
  match s with
  | [] => []
  | b :: rest =>
      let z := b2z b in
      if (z =? 60) || (z =? 62) || (z =? 38) then lit "\u00" ++ [hexDigit (z / 16); hexDigit (z mod 16)] ++ compactLoop inString false rest
      else
        match b, rest with
        | Byte.xe2, Byte.x80 :: c :: rest' =>
            if (b2z c =? 168) || (b2z c =? 169) then lit "\u202" ++ [hexDigit (b2z c mod 16)] ++ compactLoop inString false rest'
            else b :: compactLoop inString false rest
        | _, _ =>
            if inString then
              if escaped then b :: compactLoop true false rest
              else if bool_decide (b = backslash) then b :: compactLoop true true rest
              else if bool_decide (b = dquote) then b :: compactLoop false false rest
              else b :: compactLoop true false rest
            else if isJSONSpace b then compactLoop false false rest
            else b :: compactLoop (bool_decide (b = dquote)) false rest
        end
  end.

Definition compactRaw (raw : bytes) : bytes := compactLoop false false raw.

(** [json.Marshal] of raw items and of a map of raw fields, whose keys are sorted. *)
Definition MarshalItems (items : list bytes) : bytes := lit "[" ++ Join (map compactRaw items) (lit ",") ++ lit "]".

Definition MarshalFields (fields : gmap bytes bytes) : bytes :=
  lit "{" ++ Join (map (fun '(name, raw) => jsonString name ++ lit ":" ++ compactRaw raw)
                       (SliceStable (fun a b => strLess a.1 b.1) (map_to_list fields))) (lit ",") ++ lit "}".

(** JSON texts in the examples are written with apostrophes for the quotes. *)
Definition jlit (s : string) : bytes := map (fun b => if bool_decide (b = Byte.x27) then dquote else b) (lit s).

Example parse_sample : rawOf <$> parseDoc 10 (jlit " {'a' : [1, -2.5e3, 'x\u0041'], 'b':null } ") =
  Some (jlit "{'a' : [1, -2.5e3, 'x\u0041'], 'b':null }").
Proof. vm_compute. reflexivity. Qed.

Example decode_sample : decodeString (jlit "'a\u0041\ud83d\ude00\ud800\n'") = Some (lit "aA" ++ EncodeRune 128512 ++ EncodeRune 65533 ++ [Byte.x0a]).
Proof. vm_compute. reflexivity. Qed.

Example marshal_sample : MarshalFields (<[lit "b" := jlit "[1, '<']"]> (<[lit "a" := jlit "{ 'x y' : 1 }"]> ∅)) =
  jlit "{'a':{'x y':1},'b':[1,'\u003c']}".
Proof. vm_compute. reflexivity. Qed.

(** ** The text of a value *)

(** Induction over values, with the hypothesis for every item and field. *)
Lemma json_nested_ind (P : json -> Prop) :
  (forall raw, P (JLiteral raw)) -> (forall raw, P (JNumber raw)) -> (forall raw, P (JString raw)) ->
  (forall raw items, Forall P items -> P (JArray raw items)) ->
  (forall raw fields, Forall (fun field => P field.2) fields -> P (JObject raw fields)) ->
  forall v, P v.
Proof.
  intros H1 H2 H3 H4 H5. fix IH 1. intros [raw|raw|raw|raw items|raw fields]; [done|done|done| |].
  - apply H4. induction items as [|v items IHi]; [constructor|constructor; [apply IH|exact IHi]].
  - apply H5. induction fields as [|[k v] fields IHf]; [constructor|constructor; [apply IH|exact IHf]].
Qed.

Definition spaces (s : bytes) : Prop := Forall (fun b => isJSONSpace b = true) s.

Lemma skipSpace_spec s : exists sp, s = sp ++ skipSpace s /\ spaces sp /\
  match skipSpace s with [] => True | b :: _ => isJSONSpace b = false end.
Proof.
  induction s as [|b s (sp & E & Hs & Hh)]; [exists []; split_and!; [done|constructor|done]|]. cbn [skipSpace]. destruct (isJSONSpace b) eqn:Eb.
  - exists (b :: sp). cbn. rewrite <- E. split_and!; [done|by constructor|done].
  - exists []. split_and!; [done|constructor|done].
Qed.

Lemma skipSpace_app sp s : spaces sp -> skipSpace (sp ++ s) = skipSpace s.
Proof. induction 1 as [|b sp Hb _ IH]; [done|]. cbn [app skipSpace]. by rewrite Hb. Qed.

Lemma skipSpace_here b s : isJSONSpace b = false -> skipSpace (b :: s) = b :: s.
Proof. intros H. cbn [skipSpace]. by rewrite H. Qed.

Lemma consumed_app p rest : consumed (p ++ rest) rest = p.
Proof. unfold consumed. rewrite length_app, Nat.add_sub. by rewrite take_app_length. Qed.

(** A literal of a string ends at its closing quote, whatever follows. *)
Lemma stringEnd_local s raw rest : stringEnd s = Some (raw, rest) ->
  s = raw ++ rest /\ forall rest', stringEnd (raw ++ rest') = Some (raw, rest').
Proof.
  remember (length s) as n eqn:En. revert s raw rest En. induction (lt_wf n) as [n _ IH]. intros s raw rest -> E.
  destruct s as [|b s]; [done|]. cbn [stringEnd] in E.
  destruct (bool_decide (b = dquote)) eqn:Eq; [injection E as <- <-; split; [done|]; intros rest'; cbn; by rewrite Eq|].
  destruct (bool_decide (b = backslash)) eqn:Es.
  - destruct s as [|c s]; [done|]. destruct (existsb _ _ || _) eqn:Ec.
    + destruct (stringEnd s) as [[raw0 rest0]|] eqn:E0; [|done]. injection E as <- <-.
      destruct (IH (length s) ltac:(cbn; lia) _ _ _ eq_refl E0) as [-> H]. split; [done|]. intros rest'.
      cbn [app stringEnd]. by rewrite Eq, Es, Ec, H.
    + destruct (bool_decide (c = Byte.x75)) eqn:Eu; [|done]. destruct s as [|h1 [|h2 [|h3 [|h4 s]]]]; try done.
      destruct (_ && _) eqn:Eh; [|done]. destruct (stringEnd s) as [[raw0 rest0]|] eqn:E0; [|done]. injection E as <- <-.
      destruct (IH (length s) ltac:(cbn; lia) _ _ _ eq_refl E0) as [-> H]. split; [done|]. intros rest'.
      cbn [app stringEnd]. by rewrite Eq, Es, Ec, Eu, Eh, H.
  - destruct (b2z b <? 32) eqn:El; [done|]. destruct (stringEnd s) as [[raw0 rest0]|] eqn:E0; [|done]. injection E as <- <-.
    destruct (IH (length s) ltac:(cbn; lia) _ _ _ eq_refl E0) as [-> H]. split; [done|]. intros rest'.
    cbn [app stringEnd]. by rewrite Eq, Es, El, H.
Qed.

(** What stands after a value inside a container. *)
Definition delimiter (b : Byte.byte) : Prop := b = Byte.x2c \/ b = Byte.x5d \/ b = Byte.x7d.

(** [rest'] goes on like [rest], ends, or goes on with a delimiter: a number before it ends at
    the same place. *)
Definition follows (rest rest' : bytes) : Prop :=
  rest' = [] \/ (exists b t t', rest = b :: t /\ rest' = b :: t') \/ exists b t, rest' = b :: t /\ delimiter b.

Lemma follows_delimiter rest b t : delimiter b -> follows rest (b :: t).
Proof. intros H. right. right. by exists b, t. Qed.

Lemma follows_app p rest rest' : follows rest rest' -> follows (p ++ rest) (p ++ rest').
Proof. destruct p as [|b p]; [done|]. intros _. right. left. by exists b, (p ++ rest), (p ++ rest'). Qed.

Definition localScan (f : bytes -> option (bytes * bytes)) : Prop := forall s raw rest, f s = Some (raw, rest) ->
  s = raw ++ rest /\ forall rest', follows rest rest' -> f (raw ++ rest') = Some (raw, rest').

Lemma digits_local : localScan (fun s => Some (digits s)).
Proof.
  intros s. induction s as [|b s IH]; intros raw rest E.
  { injection E as <- <-. split; [done|]. intros rest' [->|[(? & ? & ? & ? & _)|(x & t & -> & [-> | [-> | ->]])]]; done. }
  cbn [digits] in E. destruct (isDigit b) eqn:Eb.
  - destruct (digits s) as [ds r] eqn:Ed. injection E as <- <-. destruct (IH _ _ eq_refl) as [-> H]. split; [done|].
    intros rest' Hf. specialize (H rest' Hf). cbn [app digits]. rewrite Eb. by injection H as ->.
  - injection E as <- <-. split; [done|]. intros rest' [->|[(c & t & t' & Ec & ->)|(x & t & -> & [-> | [-> | ->]])]]; try done. injection Ec as <- _.
    cbn [app digits]. by rewrite Eb.
Qed.

Lemma digits1_local : localScan digits1.
Proof.
  intros s raw rest E. unfold digits1 in *. destruct (digits s) as [[|d ds] r] eqn:Ed; [done|]. injection E as <- <-.
  destruct (digits_local s (d :: ds) r) as [-> H]; [by rewrite Ed|]. split; [done|]. intros rest' Hf.
  assert (digits ((d :: ds) ++ rest') = (d :: ds, rest')) as ->; [|done]. specialize (H rest' Hf). congruence.
Qed.

Lemma optional_local b : ~ delimiter b -> localScan (fun s => Some (optional b s)).
Proof.
  intros Hb. assert (forall x t, delimiter x -> optional b (x :: t) = ([], x :: t)) as Hstop
    by (intros x t Hx; cbn; rewrite bool_decide_eq_false_2; [done|by intros ->]).
  intros [|c s] raw rest E; cbn [optional] in E.
  { injection E as <- <-. split; [done|]. intros rest' [->|[(? & ? & ? & ? & _)|(x & t & -> & Hx)]]; [done|done|]. f_equal. by apply Hstop. }
  case_bool_decide as Hc.
  - injection E as <- <-. split; [done|]. intros rest' _. cbn. by rewrite bool_decide_eq_true_2.
  - injection E as <- <-. split; [done|]. intros rest' [->|[(x & t & t' & Ex & ->)|(x & t & -> & Hx)]]; [done| |f_equal; by apply Hstop].
    injection Ex as <- _. cbn. by rewrite bool_decide_eq_false_2.
Qed.

Lemma scanInt_local : localScan scanInt.
Proof.
  intros [|b s] raw rest E; cbn [scanInt] in E; [done|]. destruct (bool_decide (b = Byte.x30)) eqn:Eb.
  - injection E as <- <-. split; [done|]. intros rest' _. cbn. by rewrite Eb.
  - destruct (digits1_local _ _ _ E) as [Hs H]. split; [done|]. intros rest' Hf. specialize (H rest' Hf).
    destruct raw as [|c raw]; [unfold digits1 in E; by destruct (digits (b :: s)) as [[|??] ?]|].
    injection Hs as <- _. cbn [app scanInt]. by rewrite Eb.
Qed.

Lemma scanFraction_local : localScan scanFraction.
Proof.
  intros [|b s] raw rest E; cbn [scanFraction] in E.
  { injection E as <- <-. split; [done|]. intros rest' [->|[(? & ? & ? & ? & _)|(x & t & -> & [-> | [-> | ->]])]]; done. }
  destruct (bool_decide (b = Byte.x2e)) eqn:Eb.
  - destruct (digits1 s) as [[ds r]|] eqn:Ed; [|done]. injection E as <- <-. destruct (digits1_local _ _ _ Ed) as [-> H].
    split; [done|]. intros rest' Hf. cbn [app scanFraction]. by rewrite Eb, H.
  - injection E as <- <-. split; [done|]. intros rest' [->|[(x & t & t' & Ex & ->)|(x & t & -> & [-> | [-> | ->]])]]; try done. injection Ex as <- _.
    cbn [app scanFraction]. by rewrite Eb.
Qed.

Lemma scanSign_local : localScan (fun s => Some (scanSign s)).
Proof.
  intros [|b s] raw rest E; cbn [scanSign] in E.
  { injection E as <- <-. split; [done|]. intros rest' [->|[(? & ? & ? & ? & _)|(x & t & -> & [-> | [-> | ->]])]]; done. }
  destruct (_ || _) eqn:Eb.
  - injection E as <- <-. split; [done|]. intros rest' _. cbn [app scanSign]. by rewrite Eb.
  - injection E as <- <-. split; [done|]. intros rest' [->|[(x & t & t' & Ex & ->)|(x & t & -> & [-> | [-> | ->]])]]; try done. injection Ex as <- _.
    cbn [app scanSign]. by rewrite Eb.
Qed.

Lemma scanExponent_local : localScan scanExponent.
Proof.
  intros [|b s] raw rest E; cbn [scanExponent] in E.
  { injection E as <- <-. split; [done|]. intros rest' [->|[(? & ? & ? & ? & _)|(x & t & -> & [-> | [-> | ->]])]]; done. }
  destruct (_ || _) eqn:Eb.
  - destruct (scanSign s) as [sign s1] eqn:Es. destruct (digits1 s1) as [[ds r]|] eqn:Ed; [|done]. injection E as <- <-.
    destruct (scanSign_local s sign s1) as [-> H1]; [by rewrite Es|]. destruct (digits1_local _ _ _ Ed) as [-> H2].
    split; [cbn; by rewrite app_assoc|]. intros rest' Hf. cbn [app scanExponent]. rewrite Eb, <- app_assoc.
    specialize (H1 (ds ++ rest') (follows_app _ _ _ Hf)). injection H1 as ->. cbn. by rewrite H2.
  - injection E as <- <-. split; [done|]. intros rest' [->|[(x & t & t' & Ex & ->)|(x & t & -> & [-> | [-> | ->]])]]; try done. injection Ex as <- _.
    cbn [app scanExponent]. by rewrite Eb.
Qed.

Lemma scanNumber_local : localScan scanNumber.
Proof.
  intros s raw rest E. unfold scanNumber in *. destruct (optional Byte.x2d s) as [m s1] eqn:E1.
  destruct (scanInt s1) as [[i s2]|] eqn:E2; [|done]. cbn in E. destruct (scanFraction s2) as [[f s3]|] eqn:E3; [|done]. cbn in E.
  destruct (scanExponent s3) as [[e s4]|] eqn:E4; [|done]. injection E as <- <-.
  destruct (optional_local Byte.x2d ltac:(intros [?|[?|?]]; done) s m s1) as [-> H1]; [by rewrite E1|]. destruct (scanInt_local _ _ _ E2) as [-> H2].
  destruct (scanFraction_local _ _ _ E3) as [-> H3]. destruct (scanExponent_local _ _ _ E4) as [-> H4].
  split; [by rewrite <- !app_assoc|]. intros rest' Hf. rewrite <- !app_assoc.
  specialize (H1 (i ++ f ++ e ++ rest') ltac:(do 3 apply follows_app; done)). injection H1 as ->.
  rewrite H2 by (by do 2 apply follows_app). cbn. rewrite H3 by (by apply follows_app). cbn. by rewrite H4.
Qed.

Lemma scanNumber_nonempty s raw rest : scanNumber s = Some (raw, rest) -> raw <> [].
Proof.
  unfold scanNumber. destruct (optional Byte.x2d s) as [m s1]. destruct (scanInt s1) as [[i s2]|] eqn:E2; [|done]. cbn.
  destruct (scanFraction s2) as [[f s3]|]; [|done]. cbn. destruct (scanExponent s3) as [[e s4]|]; [|done]. intros [= <- <-].
  destruct i as [|d i]; [|by destruct m]. exfalso. destruct s1 as [|b s1]; cbn in E2; [done|]. case_bool_decide; [done|].
  unfold digits1 in E2. by destruct (digits (b :: s1)) as [[|??] ?].
Qed.

Lemma HasPrefix_here p rest : HasPrefix (p ++ rest) p = true.
Proof. apply HasPrefix_spec. by exists rest. Qed.

Lemma scanLiteral_local s raw rest : scanLiteral s = Some (raw, rest) ->
  s = raw ++ rest /\ raw <> [] /\ forall rest', scanLiteral (raw ++ rest') = Some (raw, rest').
Proof.
  unfold scanLiteral, CutPrefix. intros E.
  destruct (HasPrefix s (lit "true")) eqn:E1; [|destruct (HasPrefix s (lit "false")) eqn:E2; [|destruct (HasPrefix s (lit "null")) eqn:E3; [|done]]];
    (injection E as <- <-); [apply HasPrefix_spec in E1 as [r ->]|apply HasPrefix_spec in E2 as [r ->]|apply HasPrefix_spec in E3 as [r ->]];
    (split; [done|]); (split; [done|]); intros rest';
    repeat (rewrite (HasPrefix_here (lit _)) || match goal with |- context [HasPrefix (lit ?a ++ ?r) (lit ?b)] => change (HasPrefix (lit a ++ r) (lit b)) with false end); reflexivity.
Qed.

Lemma scanNumber_first b s raw rest : scanNumber (b :: s) = Some (raw, rest) -> b = Byte.x2d \/ isDigit b = true.
Proof.
  intros H. unfold scanNumber in H. cbn [optional] in H. destruct (bool_decide (b = Byte.x2d)) eqn:E; [left; by apply bool_decide_eq_true in E|right].
  cbn [scanInt] in H. destruct (bool_decide (b = Byte.x30)) eqn:E0; [apply bool_decide_eq_true in E0 as ->; done|].
  unfold digits1 in H. cbn [digits] in H. by destruct (isDigit b).
Qed.

(** A number does not start like a literal. *)
Lemma scanNumber_not_literal b s t raw rest : scanNumber (b :: s) = Some (raw, rest) -> scanLiteral (b :: t) = None.
Proof.
  intros H%scanNumber_first. unfold scanLiteral, CutPrefix.
  assert (b <> Byte.x74 /\ b <> Byte.x66 /\ b <> Byte.x6e) as (H1 & H2 & H3) by (destruct H as [->|Hd]; [done|]; split_and!; intros ->; done).
  change (lit "true") with (Byte.x74 :: lit "rue"). change (lit "false") with (Byte.x66 :: lit "alse"). change (lit "null") with (Byte.x6e :: lit "ull").
  cbn [HasPrefix]. by rewrite !bool_decide_eq_false_2.
Qed.

(** A parser of values whose results do not depend on what surrounds the text. *)
Definition localElem (elem : bytes -> option (json * bytes)) : Prop := forall s v rest, elem s = Some (v, rest) ->
  exists sp, s = sp ++ rawOf v ++ rest /\ spaces sp /\ rawOf v <> [] /\
  forall sp' rest', spaces sp' -> follows rest rest' -> elem (sp' ++ rawOf v ++ rest') = Some (v, rest').

Lemma follows_cons p b t t' : follows (p ++ b :: t) (p ++ b :: t').
Proof. apply follows_app. right. left. eauto. Qed.

Lemma skipSpace_Some s b rest : skipSpace s = b :: rest -> exists sp, s = sp ++ b :: rest /\ spaces sp /\ isJSONSpace b = false.
Proof. intros E. destruct (skipSpace_spec s) as (sp & Es & Hs & Hb). rewrite E in Es, Hb. eauto. Qed.

Lemma skipSpace_next sp b t : spaces sp -> isJSONSpace b = false -> skipSpace (sp ++ b :: t) = b :: t.
Proof. intros Hs Hb. rewrite skipSpace_app by done. by apply skipSpace_here. Qed.

Section local.
Context (elem : bytes -> option (json * bytes)) (Hlocal : localElem elem).

Lemma itemsLoop_local n s vs rest : itemsLoop elem n s = Some (vs, rest) ->
  exists p, s = p ++ rest /\ p <> [] /\
  forall n' rest', (length p <= n')%nat -> itemsLoop elem n' (p ++ rest') = Some (vs, rest').
Proof.
  revert s vs. induction n as [|n IH]; intros s vs E; [done|]. cbn [itemsLoop] in E.
  destruct (elem s) as [[v r]|] eqn:Ev; [|done]. cbn in E. destruct (Hlocal _ _ _ Ev) as (sp & -> & Hsp & Hne & Hv).
  destruct (skipSpace r) as [|b r1] eqn:Er; [done|]. apply skipSpace_Some in Er as (sp1 & -> & Hsp1 & Hb).
  assert (forall t, elem (sp ++ rawOf v ++ sp1 ++ b :: t) = Some (v, sp1 ++ b :: t)) as Hv'
    by (intros t; apply Hv; [done|apply follows_cons]).
  destruct (bool_decide (b = Byte.x2c)) eqn:Ec.
  - destruct (itemsLoop elem n r1) as [[vs1 r2]|] eqn:E1; [|done]. injection E as <- <-. destruct (IH _ _ E1) as (p & -> & Hp & H).
    exists (sp ++ rawOf v ++ sp1 ++ b :: p). split_and!; [by rewrite <- !app_assoc|by destruct sp; destruct (rawOf v)|].
    intros n' rest' Hn. rewrite <- !app_assoc. cbn [app]. destruct n' as [|n'].
    { rewrite !length_app in Hn. cbn in Hn. lia. }
    cbn [itemsLoop]. rewrite Hv'. cbn. rewrite skipSpace_next by done. rewrite Ec, H; [done|]. rewrite !length_app in Hn. cbn in Hn. lia.
  - destruct (bool_decide (b = Byte.x5d)) eqn:Ed; [|done]. injection E as <- <-.
    exists (sp ++ rawOf v ++ sp1 ++ [b]). split_and!; [by rewrite <- !app_assoc|by destruct sp; destruct (rawOf v)|].
    intros n' rest' Hn. rewrite <- !app_assoc. cbn [app]. destruct n' as [|n'].
    { rewrite !length_app in Hn. cbn in Hn. lia. }
    cbn [itemsLoop]. rewrite Hv'. cbn. rewrite skipSpace_next by done. by rewrite Ec, Ed.
Qed.

Lemma parseItems_local s vs rest : parseItems elem s = Some (vs, rest) ->
  exists p, s = p ++ rest /\ forall rest', parseItems elem (p ++ rest') = Some (vs, rest').
Proof.
  unfold parseItems. intros E. destruct (skipSpace s) as [|b r] eqn:Es; [done|].
  pose proof Es as Es'. apply skipSpace_Some in Es' as (sp & -> & Hsp & Hb). destruct (bool_decide (b = Byte.x5d)) eqn:Ed.
  - injection E as <- <-. exists (sp ++ [b]). split; [by rewrite <- app_assoc|]. intros rest'. rewrite <- app_assoc. cbn [app].
    rewrite skipSpace_next by done. by rewrite Ed.
  - destruct (itemsLoop_local _ _ _ _ E) as (p & Ep & Hp & H). destruct p as [|c p]; [done|]. injection Ep as <- ->.
    exists (sp ++ b :: p). split; [by rewrite <- app_assoc|]. intros rest'. rewrite <- app_assoc. cbn [app].
    rewrite skipSpace_next by done. rewrite Ed. apply (H _ rest'). rewrite !length_app. cbn. rewrite length_app. lia.
Qed.

Lemma parseField_local s key v rest : parseField elem s = Some (key, v, rest) ->
  exists p, s = p ++ rest /\ p <> [] /\ forall rest', follows rest rest' -> parseField elem (p ++ rest') = Some (key, v, rest').
Proof.
  unfold parseField. intros E. destruct (skipSpace s) as [|q r] eqn:Es; [done|]. apply skipSpace_Some in Es as (sp & -> & Hsp & Hq).
  destruct (bool_decide (q = dquote)) eqn:Eq; [|done]. destruct (stringEnd r) as [[key0 r1]|] eqn:Ek; [|done]. cbn in E.
  destruct (stringEnd_local _ _ _ Ek) as [-> Hk]. destruct (skipSpace r1) as [|c r2] eqn:Ec; [done|].
  apply skipSpace_Some in Ec as (sp1 & -> & Hsp1 & Hc). destruct (bool_decide (c = Byte.x3a)) eqn:Eco; [|done].
  destruct (elem r2) as [[v0 r3]|] eqn:Ev; [|done]. injection E as <- <- <-. destruct (Hlocal _ _ _ Ev) as (sp2 & -> & Hsp2 & Hne & Hv).
  exists (sp ++ q :: key0 ++ sp1 ++ c :: sp2 ++ rawOf v0). split; [by repeat (rewrite <- app_assoc; cbn)|]. split; [by destruct sp|].
  intros rest' Hf. repeat (rewrite <- app_assoc; cbn [app]). rewrite skipSpace_next by done. rewrite Eq, Hk. cbn.
  rewrite skipSpace_next by done. rewrite Eco, Hv by done. done.
Qed.

Lemma fieldsLoop_local n s vs rest : fieldsLoop elem n s = Some (vs, rest) ->
  exists p, s = p ++ rest /\ p <> [] /\
  forall n' rest', (length p <= n')%nat -> fieldsLoop elem n' (p ++ rest') = Some (vs, rest').
Proof.
  revert s vs. induction n as [|n IH]; intros s vs E; [done|]. cbn [fieldsLoop] in E.
  destruct (parseField elem s) as [[[key v] r]|] eqn:Ev; [|done]. cbn in E. destruct (parseField_local _ _ _ _ Ev) as (p0 & -> & Hne & Hv).
  destruct (skipSpace r) as [|b r1] eqn:Er; [done|]. apply skipSpace_Some in Er as (sp1 & -> & Hsp1 & Hb).
  assert (forall t, parseField elem (p0 ++ sp1 ++ b :: t) = Some (key, v, sp1 ++ b :: t)) as Hv' by (intros t; apply Hv, follows_cons).
  destruct (bool_decide (b = Byte.x2c)) eqn:Ec.
  - destruct (fieldsLoop elem n r1) as [[vs1 r2]|] eqn:E1; [|done]. injection E as <- <-. destruct (IH _ _ E1) as (p & -> & Hp & H).
    exists (p0 ++ sp1 ++ b :: p). split_and!; [by rewrite <- !app_assoc|by destruct p0|].
    intros n' rest' Hn. rewrite <- !app_assoc. cbn [app]. destruct n' as [|n'].
    { rewrite !length_app in Hn. cbn in Hn. lia. }
    cbn [fieldsLoop]. rewrite Hv'. cbn. rewrite skipSpace_next by done. rewrite Ec, H; [done|]. rewrite !length_app in Hn. cbn in Hn. lia.
  - destruct (bool_decide (b = Byte.x7d)) eqn:Ed; [|done]. injection E as <- <-.
    exists (p0 ++ sp1 ++ [b]). split_and!; [by rewrite <- !app_assoc|by destruct p0|].
    intros n' rest' Hn. rewrite <- !app_assoc. cbn [app]. destruct n' as [|n'].
    { rewrite !length_app in Hn. cbn in Hn. lia. }
    cbn [fieldsLoop]. rewrite Hv'. cbn. rewrite skipSpace_next by done. by rewrite Ec, Ed.
Qed.

Lemma parseFields_local s vs rest : parseFields elem s = Some (vs, rest) ->
  exists p, s = p ++ rest /\ forall rest', parseFields elem (p ++ rest') = Some (vs, rest').
Proof.
  unfold parseFields. intros E. destruct (skipSpace s) as [|b r] eqn:Es; [done|].
  pose proof Es as Es'. apply skipSpace_Some in Es' as (sp & -> & Hsp & Hb). destruct (bool_decide (b = Byte.x7d)) eqn:Ed.
  - injection E as <- <-. exists (sp ++ [b]). split; [by rewrite <- app_assoc|]. intros rest'. rewrite <- app_assoc. cbn [app].
    rewrite skipSpace_next by done. by rewrite Ed.
  - destruct (fieldsLoop_local _ _ _ _ E) as (p & Ep & Hp & H). destruct p as [|c p]; [done|]. injection Ep as <- ->.
    exists (sp ++ b :: p). split; [by rewrite <- app_assoc|]. intros rest'. rewrite <- app_assoc. cbn [app].
    rewrite skipSpace_next by done. rewrite Ed. apply (H _ rest'). rewrite !length_app. cbn. rewrite length_app. lia.
Qed.
End local.

(** The text of a value, wherever it stands, is that value. *)
Lemma parseValue_local fuel : localElem (parseValue fuel).
Proof.
  induction fuel as [|fuel IH]; intros s v rest E; [done|]. cbn [parseValue] in E.
  destruct (skipSpace s) as [|b r] eqn:Es; [done|]. apply skipSpace_Some in Es as (sp & -> & Hsp & Hb). exists sp.
  destruct (bool_decide (b = dquote)) eqn:Eq.
  { destruct (stringEnd r) as [[raw r1]|] eqn:Er; [|done]. injection E as <- <-. destruct (stringEnd_local _ _ _ Er) as [-> H].
    split_and!; [done|done|done|]. intros sp' rest' Hsp' _. cbn [rawOf app parseValue]. rewrite skipSpace_next by done. by rewrite Eq, H. }
  destruct (bool_decide (b = Byte.x5b)) eqn:Ea.
  { destruct (fuel =? 0)%nat eqn:Ef; [done|]. destruct (parseItems _ r) as [[items r1]|] eqn:Er; [|done]. injection E as <- <-.
    destruct (parseItems_local _ IH _ _ _ Er) as (p & -> & H). rewrite consumed_app.
    split_and!; [done|done|done|]. intros sp' rest' Hsp' _. cbn [rawOf app parseValue]. rewrite skipSpace_next by done.
    rewrite Eq, Ea, Ef, H. cbn. by rewrite consumed_app. }
  destruct (bool_decide (b = Byte.x7b)) eqn:Eo.
  { destruct (fuel =? 0)%nat eqn:Ef; [done|]. destruct (parseFields _ r) as [[fields r1]|] eqn:Er; [|done]. injection E as <- <-.
    destruct (parseFields_local _ IH _ _ _ Er) as (p & -> & H). rewrite consumed_app.
    split_and!; [done|done|done|]. intros sp' rest' Hsp' _. cbn [rawOf app parseValue]. rewrite skipSpace_next by done.
    rewrite Eq, Ea, Eo, Ef, H. cbn. by rewrite consumed_app. }
  assert (forall raw t t', b :: r = raw ++ t -> raw <> [] -> exists raw0, raw = b :: raw0 /\ raw ++ t' = b :: raw0 ++ t') as Hhead.
  { intros raw t t' Er Hne. destruct raw as [|c raw]; [done|]. injection Er as <- _. by exists raw. }
  destruct (scanLiteral (b :: r)) as [[raw r1]|] eqn:El.
  - injection E as <- <-. destruct (scanLiteral_local _ _ _ El) as (Er & Hne & H). split_and!; [by rewrite Er|done|done|].
    intros sp' rest' Hsp' _. cbn [rawOf parseValue]. destruct (Hhead _ _ rest' Er Hne) as (raw0 & -> & _). cbn [app].
    rewrite skipSpace_next by done. rewrite Eq, Ea, Eo. specialize (H rest'). cbn [app] in H. by rewrite H.
  - destruct (scanNumber (b :: r)) as [[raw r1]|] eqn:En; [|done]. injection E as <- <-.
    destruct (scanNumber_local _ _ _ En) as (Er & H). pose proof (scanNumber_nonempty _ _ _ En) as Hne.
    split_and!; [by rewrite Er|done|done|].
    intros sp' rest' Hsp' Hf. cbn [rawOf parseValue]. destruct (Hhead _ _ rest' Er Hne) as (raw0 & -> & _). cbn [app].
    rewrite skipSpace_next by done. rewrite Eq, Ea, Eo. specialize (H rest' Hf). cbn [app] in H.
    rewrite (scanNumber_not_literal _ _ _ _ _ En). by rewrite H.
Qed.

(** ** More fuel, parts of a value *)

Definition extends (f g : bytes -> option (json * bytes)) : Prop := forall s x, f s = Some x -> g s = Some x.

Lemma itemsLoop_mono f g n s x : extends f g -> itemsLoop f n s = Some x -> itemsLoop g n s = Some x.
Proof.
  intros H. revert s x. induction n as [|n IH]; intros s x E; [done|]. cbn [itemsLoop] in *. destruct (f s) as [[v r]|] eqn:Ev; [|done].
  rewrite (H _ _ Ev). cbn in *. destruct (skipSpace r) as [|b r1]; [done|]. case_bool_decide; [|done].
  destruct (itemsLoop f n r1) as [[vs r2]|] eqn:E1; [|done]. by rewrite (IH _ _ E1).
Qed.

Lemma fieldsLoop_mono f g n s x : extends f g -> fieldsLoop f n s = Some x -> fieldsLoop g n s = Some x.
Proof.
  intros H. assert (forall t y, parseField f t = Some y -> parseField g t = Some y) as Hf.
  { intros t y. unfold parseField. destruct (skipSpace t) as [|q r]; [done|]. case_bool_decide; [|done].
    destruct (stringEnd r) as [[k r1]|]; [|done]. cbn. destruct (skipSpace r1) as [|c r2]; [done|]. case_bool_decide; [|done].
    destruct (f r2) as [[v r3]|] eqn:Ev; [|done]. by rewrite (H _ _ Ev). }
  revert s x. induction n as [|n IH]; intros s x E; [done|]. cbn [fieldsLoop] in *. destruct (parseField f s) as [[[k v] r]|] eqn:Ev; [|done].
  rewrite (Hf _ _ Ev). cbn in *. destruct (skipSpace r) as [|b r1]; [done|]. case_bool_decide; [|done].
  destruct (fieldsLoop f n r1) as [[vs r2]|] eqn:E1; [|done]. by rewrite (IH _ _ E1).
Qed.

Lemma parseValue_S fuel : extends (parseValue fuel) (parseValue (S fuel)).
Proof.
  induction fuel as [|fuel IH]; intros s x E; [done|]. cbn [parseValue] in E. remember (S fuel) as fuel1 eqn:Ef. cbn [parseValue]. subst fuel1.
  destruct (skipSpace s) as [|b r]; [done|]. case_bool_decide; [done|]. case_bool_decide.
  { destruct (fuel =? 0)%nat; [done|]. destruct (parseItems (parseValue fuel) r) as [[vs r1]|] eqn:Er; [|done].
    enough (parseItems (parseValue (S fuel)) r = Some (vs, r1)) as -> by done. revert Er. unfold parseItems. destruct (skipSpace r); [done|].
    case_bool_decide; [done|]. by apply itemsLoop_mono. }
  case_bool_decide; [|done]. destruct (fuel =? 0)%nat; [done|]. destruct (parseFields (parseValue fuel) r) as [[vs r1]|] eqn:Er; [|done].
  enough (parseFields (parseValue (S fuel)) r = Some (vs, r1)) as -> by done. revert Er. unfold parseFields. destruct (skipSpace r); [done|].
  case_bool_decide; [done|]. by apply fieldsLoop_mono.
Qed.

Lemma itemsLoop_elem f n s vs rest v : itemsLoop f n s = Some (vs, rest) -> v ∈ vs -> exists s' rest', f s' = Some (v, rest').
Proof.
  revert s vs. induction n as [|n IH]; intros s vs E Hv; [done|]. cbn [itemsLoop] in E. destruct (f s) as [[v0 r]|] eqn:Ev; [|done]. cbn in E.
  destruct (skipSpace r) as [|b r1]; [done|]. case_bool_decide.
  - destruct (itemsLoop f n r1) as [[vs1 r2]|] eqn:E1; [|done]. injection E as <- <-. apply elem_of_cons in Hv as [->|Hv]; eauto.
  - case_bool_decide; [|done]. injection E as <- <-. apply list_elem_of_singleton in Hv as ->. eauto.
Qed.

Lemma fieldsLoop_elem f n s vs rest k v : fieldsLoop f n s = Some (vs, rest) -> (k, v) ∈ vs -> exists s' rest', f s' = Some (v, rest').
Proof.
  assert (forall t k v r, parseField f t = Some (k, v, r) -> exists s' rest', f s' = Some (v, rest')) as Hf.
  { intros t k0 v0 r0. unfold parseField. destruct (skipSpace t) as [|q r]; [done|]. case_bool_decide; [|done].
    destruct (stringEnd r) as [[k1 r1]|]; [|done]. cbn. destruct (skipSpace r1) as [|c r2]; [done|]. case_bool_decide; [|done].
    destruct (f r2) as [[v1 r3]|] eqn:Ev; [|done]. intros [= _ <- _]. eauto. }
  revert s vs. induction n as [|n IH]; intros s vs E Hv; [done|]. cbn [fieldsLoop] in E.
  destruct (parseField f s) as [[[k0 v0] r]|] eqn:Ev; [|done]. cbn in E. apply Hf in Ev.
  destruct (skipSpace r) as [|b r1]; [done|]. case_bool_decide.
  - destruct (fieldsLoop f n r1) as [[vs1 r2]|] eqn:E1; [|done]. injection E as <- <-. apply elem_of_cons in Hv as [[= -> ->]|Hv]; eauto.
  - case_bool_decide; [|done]. injection E as <- <-. apply list_elem_of_singleton in Hv as [= -> ->]. eauto.
Qed.

(** The values directly inside a value. *)
Definition children (v : json) : list json :=
  match v with
  | JArray _ items => items
  | JObject _ fields => map snd fields
  | _ => []
  end.

Lemma parseValue_children fuel s v rest child : parseValue (S fuel) s = Some (v, rest) -> child ∈ children v ->
  exists s' rest', parseValue fuel s' = Some (child, rest').
Proof.
  cbn [parseValue]. intros E Hc. destruct (skipSpace s) as [|b r]; [done|]. case_bool_decide.
  { destruct (stringEnd r) as [[raw r1]|]; [|done]. injection E as <- <-. by apply not_elem_of_nil in Hc. }
  case_bool_decide.
  { destruct (fuel =? 0)%nat; [done|]. destruct (parseItems _ r) as [[vs r1]|] eqn:Er; [|done]. injection E as <- <-. revert Er.
    unfold parseItems. destruct (skipSpace r); [done|]. case_bool_decide; [|intros Er; by eapply itemsLoop_elem].
    intros [= <- _]. by apply not_elem_of_nil in Hc. }
  case_bool_decide.
  { destruct (fuel =? 0)%nat; [done|]. destruct (parseFields _ r) as [[vs r1]|] eqn:Er; [|done]. injection E as <- <-. revert Er.
    cbn [children] in Hc. apply list_elem_of_fmap in Hc as ([k v] & -> & Hc).
    unfold parseFields. destruct (skipSpace r); [done|]. case_bool_decide; [|intros Er; by eapply fieldsLoop_elem].
    intros [= <- _]. by apply not_elem_of_nil in Hc. }
  destruct (scanLiteral (b :: r)) as [[raw r1]|]; [injection E as <- <-; by apply not_elem_of_nil in Hc|].
  destruct (scanNumber (b :: r)) as [[raw r1]|]; [injection E as <- <-; by apply not_elem_of_nil in Hc|done].
Qed.

(** ** Documents *)

Lemma parseDoc_raw depth s v : parseDoc depth s = Some v -> parseDoc depth (rawOf v) = Some v.
Proof.
  unfold parseDoc. destruct (parseValue (S depth) s) as [[v0 r]|] eqn:E; [|done]. cbn -[parseValue]. destruct (skipSpace r); [|done].
  intros [= ->]. destruct (parseValue_local _ _ _ _ E) as (sp & _ & _ & _ & H). specialize (H [] [] (Forall_nil_2 _) (or_introl eq_refl)).
  cbn [app] in H. rewrite app_nil_r in H. by rewrite H.
Qed.

Lemma parseDoc_child depth s v child : parseDoc depth s = Some v -> child ∈ children v -> parseDoc depth (rawOf child) = Some child.
Proof.
  unfold parseDoc at 1. destruct (parseValue (S depth) s) as [[v0 r]|] eqn:E; [|done]. cbn -[parseValue]. destruct (skipSpace r); [|done].
  intros [= ->] Hc. destruct (parseValue_children _ _ _ _ _ E Hc) as (s' & r' & E').
  destruct (parseValue_local _ _ _ _ (parseValue_S _ _ _ E')) as (sp & _ & _ & _ & H).
  specialize (H [] [] (Forall_nil_2 _) (or_introl eq_refl)). cbn [app] in H. rewrite app_nil_r in H. unfold parseDoc. by rewrite H.
Qed.

Lemma parseDoc_text depth s v : parseDoc depth s = Some v -> exists sp sp', s = sp ++ rawOf v ++ sp' /\ spaces sp /\ spaces sp'.
Proof.
  unfold parseDoc. destruct (parseValue (S depth) s) as [[v0 r]|] eqn:E; [|done]. cbn -[parseValue]. destruct (skipSpace r) eqn:Er; [|done].
  intros [= ->]. destruct (parseValue_local _ _ _ _ E) as (sp & -> & Hsp & _). exists sp, r. split_and!; [done|done|].
  destruct (skipSpace_spec r) as (sp' & Es & Hs & _). rewrite Er, app_nil_r in Es. by rewrite Es.
Qed.

(** ** Trimming *)

Lemma space_ascii b : isJSONSpace b = true -> asciiSpace b.
Proof. unfold isJSONSpace. rewrite !orb_true_iff, !bool_decide_eq_true. by intros [[[->| ->]| ->]| ->]. Qed.

Lemma spaces_ascii s : spaces s -> Forall asciiSpace s.
Proof. intros H. eapply Forall_impl; [exact H|]. intros b. apply space_ascii. Qed.

Lemma digit_dark b : isDigit b = true -> asciiDark b.
Proof.
  unfold isDigit, asciiDark, IsSpace, inZ, RuneSelf. rewrite andb_true_iff. intros [H1%Z.leb_le H2%Z.leb_le]. split; [lia|].
  rewrite !orb_false_iff, !andb_false_iff, !Z.eqb_neq, !Z.leb_gt. lia.
Qed.

Lemma stringEnd_last s raw rest : stringEnd s = Some (raw, rest) -> exists t, raw = t ++ [dquote].
Proof.
  remember (length s) as n eqn:En. revert s raw rest En. induction (lt_wf n) as [n _ IH]. intros s raw rest -> E.
  destruct s as [|b s]; [done|]. cbn [stringEnd] in E. case_bool_decide as Hb; [injection E as <- <-; subst; by exists []|].
  assert (forall p t, (length t < length (b :: s))%nat -> ('(raw, rest) ← stringEnd t; Some (p ++ raw, rest)) = Some (raw, rest) ->
          exists t, raw = t ++ [dquote]) as Hgo.
  { intros p t Hl Ht. destruct (stringEnd t) as [[raw0 rest0]|] eqn:E0; [|done]. injection Ht as <- <-.
    destruct (IH _ Hl _ _ _ eq_refl E0) as [t0 ->]. exists (p ++ t0). by rewrite app_assoc. }
  case_bool_decide.
  - destruct s as [|c s]; [done|]. destruct (existsb _ _ || _); [apply (Hgo [b; c] s); [cbn; lia|done]|]. case_bool_decide; [|done].
    destruct s as [|h1 [|h2 [|h3 [|h4 s]]]]; try done. destruct (_ && _); [|done]. apply (Hgo [b; c; h1; h2; h3; h4] s); [cbn; lia|done].
  - destruct (b2z b <? 32); [done|]. apply (Hgo [b] s); [cbn; lia|done].
Qed.

Lemma digits_isDigit s ds rest : digits s = (ds, rest) -> Forall (fun b => isDigit b = true) ds.
Proof.
  revert ds rest. induction s as [|b s IH]; intros ds rest E; [injection E as <- <-; constructor|]. cbn [digits] in E.
  destruct (isDigit b) eqn:Eb; [|injection E as <- <-; constructor]. destruct (digits s) as [ds0 r] eqn:Ed. injection E as <- <-.
  constructor; [done|]. by eapply IH.
Qed.

Lemma digits1_last s ds rest : digits1 s = Some (ds, rest) -> exists t b, ds = t ++ [b] /\ isDigit b = true.
Proof.
  unfold digits1. destruct (digits s) as [[|d ds0] r] eqn:E; [done|]. intros [= <- <-]. apply digits_isDigit in E.
  destruct (exists_last (l := d :: ds0)) as (t & b & Et); [done|]. rewrite Et in *. exists t, b. split; [done|].
  apply Forall_app in E as [_ E]. by apply Forall_cons in E as [E _].
Qed.

Lemma scanNumber_last s raw rest : scanNumber s = Some (raw, rest) -> exists t b, raw = t ++ [b] /\ isDigit b = true.
Proof.
  unfold scanNumber. destruct (optional Byte.x2d s) as [m s1]. destruct (scanInt s1) as [[i s2]|] eqn:E2; [|done]. cbn.
  destruct (scanFraction s2) as [[f s3]|] eqn:E3; [|done]. cbn. destruct (scanExponent s3) as [[e s4]|] eqn:E4; [|done]. intros [= <- <-].
  assert (exists t b, i = t ++ [b] /\ isDigit b = true) as Hi.
  { destruct s1 as [|b s1]; [done|]. cbn [scanInt] in E2. case_bool_decide as Hb; [|by eapply digits1_last].
    injection E2 as <- <-. exists [], b. subst. done. }
  assert (f = [] \/ exists t b, f = t ++ [b] /\ isDigit b = true) as Hf.
  { destruct s2 as [|b s2]; cbn [scanFraction] in E3; [injection E3 as <- <-; by left|]. case_bool_decide; [|injection E3 as <- <-; by left].
    destruct (digits1 s2) as [[ds r]|] eqn:Ed; [|done]. injection E3 as <- <-. right. destruct (digits1_last _ _ _ Ed) as (t & c & -> & Hc).
    by exists (b :: t), c. }
  assert (e = [] \/ exists t b, e = t ++ [b] /\ isDigit b = true) as He.
  { destruct s3 as [|b s3]; cbn [scanExponent] in E4; [injection E4 as <- <-; by left|]. destruct (_ || _); [|injection E4 as <- <-; by left].
    destruct (scanSign s3) as [sg s5]. destruct (digits1 s5) as [[ds r]|] eqn:Ed; [|done]. injection E4 as <- <-. right.
    destruct (digits1_last _ _ _ Ed) as (t & c & -> & Hc). exists (b :: sg ++ t), c. split; [|done]. cbn. by rewrite app_assoc. }
  destruct He as [->|(t & b & -> & Hb)]; [|exists (m ++ i ++ f ++ t), b; by rewrite !app_assoc]. rewrite app_nil_r.
  destruct Hf as [->|(t & b & -> & Hb)]; [|exists (m ++ i ++ t), b; by rewrite !app_assoc]. rewrite app_nil_r.
  destruct Hi as (t & b & -> & Hb). exists (m ++ t), b. by rewrite !app_assoc.
Qed.

Lemma itemsLoop_last f n s vs rest : localElem f -> itemsLoop f n s = Some (vs, rest) -> exists t, s = t ++ Byte.x5d :: rest.
Proof.
  intros Hl. revert s vs. induction n as [|n IH]; intros s vs E; [done|]. cbn [itemsLoop] in E. destruct (f s) as [[v r]|] eqn:Ev; [|done].
  cbn in E. destruct (Hl _ _ _ Ev) as (sp & -> & _). destruct (skipSpace r) as [|b r1] eqn:Er; [done|].
  apply skipSpace_Some in Er as (sp1 & -> & _). case_bool_decide.
  - destruct (itemsLoop f n r1) as [[vs1 r2]|] eqn:E1; [|done]. injection E as <- <-. destruct (IH _ _ E1) as [t ->].
    exists (sp ++ rawOf v ++ sp1 ++ b :: t). by repeat (rewrite <- app_assoc; cbn).
  - case_bool_decide; [|done]. injection E as <- <-. subst b. exists (sp ++ rawOf v ++ sp1). by rewrite <- !app_assoc.
Qed.

Lemma fieldsLoop_last f n s vs rest : localElem f -> fieldsLoop f n s = Some (vs, rest) -> exists t, s = t ++ Byte.x7d :: rest.
Proof.
  intros Hl. revert s vs. induction n as [|n IH]; intros s vs E; [done|]. cbn [fieldsLoop] in E.
  destruct (parseField f s) as [[[k v] r]|] eqn:Ev; [|done]. cbn in E. destruct (parseField_local _ Hl _ _ _ _ Ev) as (p & -> & _).
  destruct (skipSpace r) as [|b r1] eqn:Er; [done|]. apply skipSpace_Some in Er as (sp1 & -> & _). case_bool_decide.
  - destruct (fieldsLoop f n r1) as [[vs1 r2]|] eqn:E1; [|done]. injection E as <- <-. destruct (IH _ _ E1) as [t ->].
    exists (p ++ sp1 ++ b :: t). by repeat (rewrite <- app_assoc; cbn).
  - case_bool_decide; [|done]. injection E as <- <-. subst b. exists (p ++ sp1). by rewrite <- !app_assoc.
Qed.

(** How the text of each kind of value starts, and that it starts and ends with a dark byte. *)
Definition startsAs (v : json) (b : Byte.byte) : Prop :=
  match v with
  | JString _ => b = dquote
  | JArray _ _ => b = Byte.x5b
  | JObject _ _ => b = Byte.x7b
  | _ => b <> dquote /\ b <> Byte.x5b /\ b <> Byte.x7b
  end.

Lemma parseValue_shape fuel s v rest : parseValue fuel s = Some (v, rest) ->
  exists b t, rawOf v = b :: t /\ startsAs v b /\ asciiDark b /\ exists t' c, rawOf v = t' ++ [c] /\ asciiDark c.
Proof.
  destruct fuel as [|fuel]; [done|]. cbn [parseValue]. intros E. destruct (skipSpace s) as [|b r] eqn:Es; [done|].
  pose proof (parseValue_local fuel) as Hl. case_bool_decide as Hq.
  { subst b. destruct (stringEnd r) as [[raw r1]|] eqn:Er; [|done]. injection E as <- <-. destruct (stringEnd_last _ _ _ Er) as [t ->].
    exists dquote, (t ++ [dquote]). split_and!; [done|done|done|]. exists (dquote :: t), dquote. by split_and!. }
  case_bool_decide as Ha.
  { subst b. destruct (fuel =? 0)%nat; [done|]. destruct (parseItems _ r) as [[vs r1]|] eqn:Er; [|done]. injection E as <- <-.
    assert (exists t, r = t ++ Byte.x5d :: r1) as [t ->].
    { revert Er. unfold parseItems. destruct (skipSpace r) as [|c r2] eqn:Es2; [done|]. apply skipSpace_Some in Es2 as (sp & -> & _).
      case_bool_decide as Hc; [intros [= _ <-]; subst c; by exists sp|]. intros [t Et]%itemsLoop_last; [|done]. exists (sp ++ t). by rewrite Et, app_assoc. }
    change (t ++ Byte.x5d :: r1) with (t ++ [Byte.x5d] ++ r1). rewrite app_assoc, consumed_app. exists Byte.x5b, (t ++ [Byte.x5d]).
    split_and!; [done|done|done|]. exists (Byte.x5b :: t), Byte.x5d. by split_and!. }
  case_bool_decide as Ho.
  { subst b. destruct (fuel =? 0)%nat; [done|]. destruct (parseFields _ r) as [[vs r1]|] eqn:Er; [|done]. injection E as <- <-.
    assert (exists t, r = t ++ Byte.x7d :: r1) as [t ->].
    { revert Er. unfold parseFields. destruct (skipSpace r) as [|c r2] eqn:Es2; [done|]. apply skipSpace_Some in Es2 as (sp & -> & _).
      case_bool_decide as Hc; [intros [= _ <-]; subst c; by exists sp|]. intros [t Et]%fieldsLoop_last; [|done]. exists (sp ++ t). by rewrite Et, app_assoc. }
    change (t ++ Byte.x7d :: r1) with (t ++ [Byte.x7d] ++ r1). rewrite app_assoc, consumed_app. exists Byte.x7b, (t ++ [Byte.x7d]).
    split_and!; [done|done|done|]. exists (Byte.x7b :: t), Byte.x7d. by split_and!. }
  destruct (scanLiteral (b :: r)) as [[raw r1]|] eqn:El.
  - injection E as <- <-. destruct (scanLiteral_local _ _ _ El) as (Eb & Hne & _). destruct raw as [|c raw]; [done|]. injection Eb as <- _.
    exists b, raw. cbn [rawOf startsAs]. assert (b :: raw = lit "true" \/ b :: raw = lit "false" \/ b :: raw = lit "null") as Hr.
    { revert El. unfold scanLiteral. destruct (CutPrefix _ _); [intros E0; left; congruence|]. destruct (CutPrefix _ _); [intros E0; right; left; congruence|].
      destruct (CutPrefix _ _); [intros E0; right; right; congruence|done]. }
    split; [done|]. split; [done|]. split; [destruct Hr as [Hr|[Hr|Hr]]; injection Hr as -> _; done|].
    destruct Hr as [Hr|[Hr|Hr]]; rewrite Hr; [exists (lit "tru"), Byte.x65|exists (lit "fals"), Byte.x65|exists (lit "nul"), Byte.x6c]; by split_and!.
  - destruct (scanNumber (b :: r)) as [[raw r1]|] eqn:En; [|done]. injection E as <- <-. destruct (scanNumber_local _ _ _ En) as (Eb & _).
    pose proof (scanNumber_nonempty _ _ _ En) as Hne. destruct raw as [|c raw]; [done|]. injection Eb as <- _. exists b, raw. cbn [rawOf startsAs].
    destruct (scanNumber_last _ _ _ En) as (t & c & Et & Hc).
    assert (asciiDark b) as [Hb1 Hb2].
    { pose proof (scanNumber_first _ _ _ _ En) as [->|Hd]; [done|by apply digit_dark]. }
    split; [done|]. split; [done|]. split; [done|]. exists t, c. split; [done|by apply digit_dark].
Qed.

Lemma parseDoc_trim depth s v : parseDoc depth s = Some v -> TrimSpace s = rawOf v /\ exists b t, rawOf v = b :: t /\ startsAs v b.
Proof.
  intros E. destruct (parseDoc_text _ _ _ E) as (sp & sp' & -> & Hsp & Hsp').
  pose proof (parseDoc_raw _ _ _ E) as E'. unfold parseDoc in E'. destruct (parseValue (S depth) (rawOf v)) as [[v0 r]|] eqn:Ev; [|done].
  cbn -[parseValue] in E'. destruct (skipSpace r); [|done]. injection E' as ->.
  destruct (parseValue_shape _ _ _ _ Ev) as (b & t & Eb & Hs & Hd & t' & c & Ec & Hc). split; [|eauto].
  apply TrimSpace_around; [by apply spaces_ascii|by apply spaces_ascii| |].
  - intros x y Ex. rewrite Eb in Ex. by injection Ex as <- _.
  - intros x y Ex. rewrite Ec in Ex. by apply app_inj_2 in Ex as [_ [= <-]].
Qed.

(** ** Sizes and depths *)

Lemma parseValue_consumes fuel s v rest : parseValue fuel s = Some (v, rest) -> (length (rawOf v) + length rest <= length s)%nat.
Proof. intros H. destruct (parseValue_local _ _ _ _ H) as (sp & -> & _). rewrite !length_app. lia. Qed.

Lemma itemsLoop_size f n s vs rest v :
  (forall s v rest, f s = Some (v, rest) -> (length (rawOf v) + length rest <= length s)%nat) ->
  itemsLoop f n s = Some (vs, rest) -> (length rest < length s)%nat /\ (v ∈ vs -> (length (rawOf v) + length rest < length s)%nat).
Proof.
  intros Hf. revert s vs. induction n as [|n IH]; intros s vs E; [done|]. cbn [itemsLoop] in E. destruct (f s) as [[v0 r]|] eqn:Ev; [|done].
  cbn in E. pose proof (Hf _ _ _ Ev) as Hl. destruct (skipSpace r) as [|b r1] eqn:Er; [done|]. apply skipSpace_Some in Er as (sp1 & -> & _).
  rewrite length_app in Hl. cbn in Hl. case_bool_decide.
  - destruct (itemsLoop f n r1) as [[vs1 r2]|] eqn:E1; [|done]. injection E as <- <-. destruct (IH _ _ E1) as [H1 H2].
    split; [lia|]. intros [->|Hv]%elem_of_cons; [lia|]. specialize (H2 Hv). lia.
  - case_bool_decide; [|done]. injection E as <- <-. split; [lia|]. intros ->%list_elem_of_singleton. lia.
Qed.

Lemma fieldsLoop_size f n s vs rest k v :
  (forall s v rest, f s = Some (v, rest) -> (length (rawOf v) + length rest <= length s)%nat) ->
  fieldsLoop f n s = Some (vs, rest) -> (length rest < length s)%nat /\ ((k, v) ∈ vs -> (length (rawOf v) + length rest < length s)%nat).
Proof.
  intros Hf. assert (forall s k v rest, parseField f s = Some (k, v, rest) -> (length (rawOf v) + length rest <= length s)%nat) as Hp.
  { intros t k0 v0 r0. unfold parseField. destruct (skipSpace t) as [|q r] eqn:Et; [done|]. apply skipSpace_Some in Et as (sp & -> & _).
    case_bool_decide; [|done]. destruct (stringEnd r) as [[k1 r1]|] eqn:Ek; [|done]. destruct (stringEnd_local _ _ _ Ek) as [-> _]. cbn.
    destruct (skipSpace r1) as [|c r2] eqn:Er; [done|]. apply skipSpace_Some in Er as (sp1 & -> & _). case_bool_decide; [|done].
    destruct (f r2) as [[v1 r3]|] eqn:Ev; [|done]. intros [= _ <- <-]. apply Hf in Ev. rewrite !length_app. cbn. rewrite !length_app. cbn. lia. }
  revert s vs. induction n as [|n IH]; intros s vs E; [done|]. cbn [fieldsLoop] in E.
  destruct (parseField f s) as [[[k0 v0] r]|] eqn:Ev; [|done].
  cbn in E. pose proof (Hp _ _ _ _ Ev) as Hl. destruct (skipSpace r) as [|b r1] eqn:Er; [done|]. apply skipSpace_Some in Er as (sp1 & -> & _).
  rewrite length_app in Hl. cbn in Hl. case_bool_decide.
  - destruct (fieldsLoop f n r1) as [[vs1 r2]|] eqn:E1; [|done]. injection E as <- <-. destruct (IH _ _ E1) as [H1 H2].
    split; [lia|]. intros [[= -> ->]|Hv]%elem_of_cons; [lia|]. specialize (H2 Hv). lia.
  - case_bool_decide; [|done]. injection E as <- <-. split; [lia|]. intros [= -> ->]%list_elem_of_singleton. lia.
Qed.

Lemma consumed_length s rest : (length rest <= length s)%nat -> length (consumed s rest) = (length s - length rest)%nat.
Proof. intros H. unfold consumed. rewrite length_take. lia. Qed.

(** A part of a value has a shorter text. *)
Lemma child_shorter fuel s v rest child : parseValue fuel s = Some (v, rest) -> child ∈ children v ->
  (length (rawOf child) < length (rawOf v))%nat.
Proof.
  destruct fuel as [|fuel]; [done|]. cbn [parseValue]. intros E Hc. destruct (skipSpace s) as [|b r]; [done|]. case_bool_decide.
  { destruct (stringEnd r) as [[raw r1]|]; [|done]. injection E as <- <-. by apply not_elem_of_nil in Hc. }
  case_bool_decide.
  { destruct (fuel =? 0)%nat; [done|]. destruct (parseItems _ r) as [[vs r1]|] eqn:Er; [|done]. injection E as <- <-. revert Er.
    unfold parseItems. destruct (skipSpace r) as [|c r2] eqn:Es; [done|]. apply skipSpace_Some in Es as (sp & -> & _).
    case_bool_decide; [intros [= <- _]; by apply not_elem_of_nil in Hc|]. intros Er.
    destruct (itemsLoop_size _ _ _ _ _ child (parseValue_consumes fuel) Er) as [L1 L2]. specialize (L2 Hc).
    cbn [rawOf length]. rewrite consumed_length; rewrite length_app; lia. }
  case_bool_decide.
  { destruct (fuel =? 0)%nat; [done|]. destruct (parseFields _ r) as [[vs r1]|] eqn:Er; [|done]. injection E as <- <-. revert Er.
    cbn [children] in Hc. apply list_elem_of_fmap in Hc as ([k v] & -> & Hc).
    unfold parseFields. destruct (skipSpace r) as [|c r2] eqn:Es; [done|]. apply skipSpace_Some in Es as (sp & -> & _).
    case_bool_decide; [intros [= <- _]; by apply not_elem_of_nil in Hc|]. intros Er.
    destruct (fieldsLoop_size _ _ _ _ _ k v (parseValue_consumes fuel) Er) as [L1 L2]. specialize (L2 Hc).
    cbn [rawOf length snd]. rewrite consumed_length; rewrite length_app; lia. }
  destruct (scanLiteral (b :: r)) as [[raw r1]|]; [injection E as <- <-; by apply not_elem_of_nil in Hc|].
  destruct (scanNumber (b :: r)) as [[raw r1]|]; [injection E as <- <-; by apply not_elem_of_nil in Hc|done].
Qed.

Lemma parseValue_mono fuel fuel' s x : (fuel <= fuel')%nat -> parseValue fuel s = Some x -> parseValue fuel' s = Some x.
Proof. induction 1 as [|fuel' _ IH]; [done|]. intros H. by apply parseValue_S, IH. Qed.

Lemma parseDoc_mono depth depth' s v : (depth <= depth')%nat -> parseDoc depth s = Some v -> parseDoc depth' s = Some v.
Proof.
  intros Hle. unfold parseDoc. destruct (parseValue (S depth) s) as [x|] eqn:E; [|done].
  by rewrite (parseValue_mono (S depth) (S depth') _ _ (le_n_S _ _ Hle) E).
Qed.

Lemma parseDoc_shorter depth s v child : parseDoc depth s = Some v -> child ∈ children v -> (length (rawOf child) < length (rawOf v))%nat.
Proof.
  unfold parseDoc. destruct (parseValue (S depth) s) as [[v0 r]|] eqn:E; [|done]. cbn -[parseValue]. destruct (skipSpace r); [|done].
  intros [= ->]. by eapply child_shorter.
Qed.

(** What is read does not depend on the nesting limit. *)
Lemma parseValue_agree fuel fuel' s x y : parseValue fuel s = Some x -> parseValue fuel' s = Some y -> x = y.
Proof.
  intros H1 H2. destruct (Nat.le_ge_cases fuel fuel') as [H|H].
  - rewrite (parseValue_mono _ _ _ _ H H1) in H2. congruence.
  - rewrite (parseValue_mono _ _ _ _ H H2) in H1. congruence.
Qed.
