(* ===== verification/CvRecord.v ===== *)
(** * CvRecord: conversation records (conversation/types.go, lineage.go, origin.go, index.go,
      scan.go, parser.go; providerid)

    A record describes one conversation of a provider.  It is found by its id, its native id,
    the path of its artifact or its title; the cache keys it by path and selector.  Times are
    nanoseconds after Go's zero time, so that [Equal] is equality and [After] is order. *)

From S2P Require Import Prelude GoUtf8 GoStrconv GoText GoSort GoSha256.

Open Scope Z_scope.

(** ** Providers *)

Inductive Provider :=
| ProviderUnspecified | ProviderClaude | ProviderCodex | ProviderAnthropic | ProviderOpenAICompat | ProviderMITM
| ProviderArtifact | ProviderCursor | ProviderConductor | ProviderZed | ProviderCopilot.

#[export] Instance Provider_eq_dec : EqDecision Provider.
Proof. solve_decision. Defined.

(** The value of the constant; providers are sorted by it. *)
Definition providerValue (p : Provider) : Z :=
  match p with
  | ProviderUnspecified => 0
  | ProviderClaude => 1
  | ProviderCodex => 2
  | ProviderAnthropic => 3
  | ProviderOpenAICompat => 4
  | ProviderMITM => 5
  | ProviderArtifact => 6
  | ProviderCursor => 7
  | ProviderConductor => 8
  | ProviderZed => 9
  | ProviderCopilot => 10
  end.

Definition providerString (p : Provider) : bytes :=
  match p with
  | ProviderUnspecified => lit "unspecified"
  | ProviderClaude => lit "claude"
  | ProviderCodex => lit "codex"
  | ProviderAnthropic => lit "anthropic"
  | ProviderOpenAICompat => lit "openai_compat"
  | ProviderMITM => lit "mitm"
  | ProviderArtifact => lit "artifact"
  | ProviderCursor => lit "cursor"
  | ProviderConductor => lit "conductor"
  | ProviderZed => lit "zed"
  | ProviderCopilot => lit "copilot"
  end.

Definition providerValid (p : Provider) : bool :=
  match p with
  | ProviderUnspecified => false
  | _ => true
  end.

(** The labels of the switch in [Parse], in its order. *)
Definition providerLabels : list (bytes * Provider) :=
  [(lit "unspecified", ProviderUnspecified);
   (lit "claude", ProviderClaude); (lit "claude-cli", ProviderClaude);
   (lit "codex", ProviderCodex); (lit "openai-codex", ProviderCodex); (lit "openai-codex-app", ProviderCodex);
   (lit "anthropic", ProviderAnthropic); (lit "anthropic-oauth", ProviderAnthropic);
   (lit "openai_compat", ProviderOpenAICompat); (lit "openai-compat", ProviderOpenAICompat);
   (lit "openai-compat-passthrough", ProviderOpenAICompat);
   (lit "mitm", ProviderMITM); (lit "artifact", ProviderArtifact); (lit "cursor", ProviderCursor);
   (lit "conductor", ProviderConductor);
   (lit "zed", ProviderZed); (lit "zed-agent", ProviderZed); (lit "zed_agent", ProviderZed);
   (lit "copilot", ProviderCopilot)].

Definition passthroughOverridePrefix : bytes := lit "passthrough-override-".

Definition Parse (toLowerRune : Z -> Z) (raw : bytes) : option Provider :=
  let label := TrimSpace (ToLower toLowerRune raw) in
  if bool_decide (label = []) then None else
  match List.find (fun '(name, _) => bool_decide (label = name)) providerLabels with
  | Some (_, provider) => Some provider
  | None => if HasPrefix label passthroughOverridePrefix then Some ProviderOpenAICompat else None
  end.

(** A label that is written to a cache file is read back as its provider. *)
Theorem Parse_String toLowerRune p : Parse toLowerRune (providerString p) = Some p.
Proof. by destruct p. Qed.

(** ** Records *)

Record Lineage := MkLineage {
  ln_Kind : bytes;
  ln_ParentProvider : Provider;
  ln_ParentNativeID : bytes;
  ln_ParentMessageUUID : bytes;
}.

Record ConvRecord := MkRecord {
  rc_ID : bytes;
  rc_Provider : Provider;
  rc_NativeID : bytes;
  rc_Selector : bytes;
  rc_Lineage : option Lineage;
  rc_Origin : bytes;
  rc_Title : bytes;
  rc_TitleUncertain : bool;
  rc_WorkspaceRoot : bytes;
  rc_ArtifactPath : bytes;
  rc_ArtifactKind : bytes;
  rc_Model : bytes;
  rc_CreatedAt : Z;
  rc_UpdatedAt : Z;
  rc_SizeBytes : Z;
  rc_Archived : bool;
  rc_LatestRequestID : bytes;
}.

#[export] Instance Lineage_eq_dec : EqDecision Lineage.
Proof. solve_decision. Defined.
#[export] Instance ConvRecord_eq_dec : EqDecision ConvRecord.
Proof. solve_decision. Defined.

Definition emptyRecord : ConvRecord :=
  MkRecord [] ProviderUnspecified [] [] None [] [] false [] [] [] [] 0 0 0 false [].

Definition OriginSubagent : bytes := lit "subagent".
Definition ConversationLineageKindFork : bytes := lit "fork".

Definition IsSubagent (r : ConvRecord) : bool := bool_decide (rc_Origin r = OriginSubagent).

(** The stable id of an artifact. *)
Definition DerivedID (provider : Provider) (providerID artifactPath : bytes) : bytes :=
  let providerID := TrimSpace providerID in
  if negb (bool_decide (providerID = [])) then providerString provider ++ lit ":" ++ providerID
  else providerString ProviderArtifact ++ lit ":" ++ EncodeToString (take 8 (Sum256 artifactPath)).

Definition ParentConversationID (record : ConvRecord) : option bytes :=
  match rc_Lineage record with
  | None => None
  | Some lineage =>
      if bool_decide (ln_ParentNativeID lineage = []) then None
      else Some (DerivedID (ln_ParentProvider lineage) (ln_ParentNativeID lineage) [])
  end.

(** ** Keys of the cache *)

Definition recordKey (path selector : bytes) : bytes :=
  if bool_decide (selector = []) then path else path ++ [Byte.x00] ++ selector.

Definition keyOf (r : ConvRecord) : bytes := recordKey (rc_ArtifactPath r) (rc_Selector r).

Definition recordsByPath (records : list ConvRecord) : gmap bytes ConvRecord :=
  foldl (fun byPath record => <[keyOf record := record]> byPath) ∅ records.

Lemma recordKey_inj path path' selector selector' :
  Byte.x00 ∉ path -> Byte.x00 ∉ path' -> recordKey path selector = recordKey path' selector' ->
  path = path' /\ selector = selector'.
Proof.
  assert (forall p q s t : bytes, Byte.x00 ∉ p -> Byte.x00 ∉ q -> p ++ [Byte.x00] ++ s = q ++ [Byte.x00] ++ t -> p = q /\ s = t) as Hsplit.
  { intros p. induction p as [|x p IH]; intros [|y q] s t Hp Hq E; cbn in E.
    - by injection E as ->.
    - injection E as <- _. by apply not_elem_of_cons in Hq as [? _].
    - injection E as -> _. by apply not_elem_of_cons in Hp as [? _].
    - injection E as -> E. apply not_elem_of_cons in Hp as [_ Hp], Hq as [_ Hq]. by destruct (IH q s t Hp Hq E) as [-> ->]. }
  unfold recordKey. intros Hp Hq. do 2 case_bool_decide; intros E; subst; try done.
  - destruct Hp. apply elem_of_app. right. apply list_elem_of_here.
  - destruct Hq. apply elem_of_app. right. apply list_elem_of_here.
  - by apply Hsplit.
Qed.

(** ** Order *)

Definition recordLess (left right : ConvRecord) : bool :=
  if negb (rc_UpdatedAt left =? rc_UpdatedAt right) then rc_UpdatedAt right <? rc_UpdatedAt left
  else strLess (rc_ID left) (rc_ID right).

Definition sortRecords (records : list ConvRecord) : list ConvRecord := SliceStable recordLess records.

#[export] Instance recordLess_weak : StrictWeak recordLess.
Proof.
  split; unfold recordLess.
  - intros a b. rewrite (Z.eqb_sym (rc_UpdatedAt b)). destruct (Z.eqb_spec (rc_UpdatedAt a) (rc_UpdatedAt b)); cbn.
    + intros E. by apply (less_asym strLess).
    + rewrite Z.ltb_lt, Z.ltb_ge. lia.
  - intros a b c. destruct (Z.eqb_spec (rc_UpdatedAt a) (rc_UpdatedAt b)) as [E|], (Z.eqb_spec (rc_UpdatedAt a) (rc_UpdatedAt c)),
      (Z.eqb_spec (rc_UpdatedAt c) (rc_UpdatedAt b)); cbn; rewrite ?Z.ltb_lt; try lia.
    intros E'. by apply (less_cotrans strLess).
Qed.

(** ** Finding a record *)

Definition resolveRecordIdentity (records : list ConvRecord) (selector : bytes) : option ConvRecord :=
  List.find (fun record => bool_decide (rc_ID record = selector) || bool_decide (rc_NativeID record = selector)
                           || bool_decide (rc_ArtifactPath record = selector)) records.

Definition resolveRecordExact (records : list ConvRecord) (selector : bytes) : option ConvRecord :=
  match resolveRecordIdentity records selector with
  | Some record => Some record
  | None => List.find (fun record => bool_decide (rc_Title record = selector)) records
  end.

(** The last match and the number of matches. *)
Fixpoint fuzzyLoop (toLowerRune : Z -> Z) (lower : bytes) (records : list ConvRecord) (matched : ConvRecord) (matchCount : Z)
  : ConvRecord * Z :=
  match records with
  | [] => (matched, matchCount)
  | record :: records =>
      if Contains (ToLower toLowerRune (rc_Title record)) lower
      then fuzzyLoop toLowerRune lower records record (matchCount + 1)
      else fuzzyLoop toLowerRune lower records matched matchCount
  end.

Definition resolveRecordFuzzyTitle (toLowerRune : Z -> Z) (records : list ConvRecord) (selector : bytes) : option ConvRecord :=
  let lower := ToLower toLowerRune selector in
  let '(matched, matchCount) := fuzzyLoop toLowerRune lower records emptyRecord 0 in
  if negb (matchCount =? 1) then None else Some matched.

Definition resolveRecord (toLowerRune : Z -> Z) (records : list ConvRecord) (selector : bytes) : option ConvRecord :=
  match resolveRecordExact records selector with
  | Some record => Some record
  | None => resolveRecordFuzzyTitle toLowerRune records selector
  end.

(** The first record that carries the request id, and how many do. *)
Fixpoint carriersLoop (records : list ConvRecord) (requestID : bytes) (first : ConvRecord) (carriers : Z) : ConvRecord * Z :=
  match records with
  | [] => (first, carriers)
  | record :: records =>
      if negb (bool_decide (rc_LatestRequestID record = requestID)) then carriersLoop records requestID first carriers
      else carriersLoop records requestID (if carriers =? 0 then record else first) (carriers + 1)
  end.

Definition recordByLatestRequestID (records : list ConvRecord) (requestID : bytes) : ConvRecord * Z :=
  if bool_decide (requestID = []) then (emptyRecord, 0) else carriersLoop records requestID emptyRecord 0.

Definition recordByNativeID (records : list ConvRecord) (provider : Provider) (nativeID : bytes) : option ConvRecord :=
  if bool_decide (nativeID = []) then None else
  List.find (fun record => bool_decide (rc_Provider record = provider) && bool_decide (rc_NativeID record = nativeID)) records.

(** ** Shape of request ids *)

Definition requestIDLength : Z := 36.

Definition isHexDigit (char : Z) : bool :=
  if (48 <=? char) && (char <=? 57) then true
  else if (97 <=? char) && (char <=? 102) then true
  else (65 <=? char) && (char <=? 70).

Definition dashIndex (index : nat) : bool := existsb (Nat.eqb index) [8; 13; 18; 23]%nat.

(** [range] over the string: the byte offset and the rune there. *)
Fixpoint requestIDLoop (fuel : nat) (index : nat) (s : bytes) : bool :=
  match s, fuel with
  | [], _ => true
  | _ :: _, O => true
  | _ :: _, S fuel =>
      let '(char, width) := DecodeRune s in
      if if dashIndex index then negb (char =? 45) else negb (isHexDigit char) then false
      else requestIDLoop fuel (index + width) (drop width s)
  end.

Definition looksLikeRequestID (selector : bytes) : bool :=
  if negb (zlen selector =? requestIDLength) then false else requestIDLoop (length selector) 0 selector.
