(* ===== verification/CvScan.v ===== *)
(** * CvScan: the incremental scan of conversation artifacts (conversation/scan.go, parser.go)

    A scan asks every registered parser for its artifacts and reuses the cached record of an
    artifact whose stamp (size and modification time) is unchanged.  An artifact that holds
    several conversations is read on from the end of its last complete record.

    The theorem [scans_exact]: after any number of scans, a scan that reuses the cache finds
    what a scan finds that reads every artifact from its beginning and, when it cannot be read,
    remembers what the last scan knew of it.  What the parsers read may change from scan to
    scan, with the stamp of the artifact or, when the candidate says so, with metadata outside
    of it. *)

From S2P Require Import Prelude GoUtf8 GoSort CvRecord.

Open Scope Z_scope.

(** ** Data *)

Record FileStamp := MkStamp { fs_Size : Z; fs_Mtime : Z }.

#[export] Instance FileStamp_eq_dec : EqDecision FileStamp.
Proof. solve_decision. Defined.

Definition stampEqual (a b : FileStamp) : bool := (fs_Size a =? fs_Size b) && (fs_Mtime a =? fs_Mtime b).

Record ScanCandidate := MkCandidate {
  cn_Path : bytes;
  cn_Selector : bytes;
  cn_Stamp : FileStamp;
  cn_MetadataChanged : bool;
}.

Record MultiConversationScan := MkMultiScan {
  mc_Candidate : ScanCandidate;
  mc_PriorRecords : list ConvRecord;
  mc_StartOffset : Z;
}.

Record MultiConversationScanResult := MkMultiResult {
  mr_Records : list ConvRecord;
  mr_CompleteOffset : Z;
}.

Record MultiConversationScanState := MkMultiState {
  ms_Stamp : FileStamp;
  ms_CompleteOffset : Z;
}.

#[export] Instance MultiConversationScanState_eq_dec : EqDecision MultiConversationScanState.
Proof. solve_decision. Defined.

Inductive discovery := dsFound (candidates : list ScanCandidate) | dsNotExist | dsFailed.

(** A provider's parser: what its methods return during the scan.  [ps_ScanRecords] is
    present when the parser implements [MultiConversationParser]; discovery gets the stamps
    too, which a parser without [DiscoverCached] ignores. *)
Record Parser := MkParser {
  ps_Provider : Provider;
  ps_Discover : gmap bytes ConvRecord -> gmap bytes FileStamp -> discovery;
  ps_ScanRecord : bytes -> FileStamp -> option ConvRecord;
  ps_ScanRecords : option (MultiConversationScan -> option MultiConversationScanResult);
}.

(** [sc_stamps] is [None] for a nil map. *)
Record scanCache := MkScanCache {
  sc_records : gmap bytes ConvRecord;
  sc_stamps : option (gmap bytes FileStamp);
  sc_multiStates : gmap bytes MultiConversationScanState;
  sc_skipProviders : Provider -> bool;
}.

Record scanResult := MkScanResult {
  sr_changed : bool;
  sr_records : list ConvRecord;
  sr_stamps : gmap bytes FileStamp;
  sr_multiStates : gmap bytes MultiConversationScanState;
}.

Inductive scanError := scanDiscover (provider : Provider) | scanCanceled.

Record scanCandidateResult := MkScanned {
  cr_records : list ConvRecord;
  cr_stampRecorded : bool;
  cr_multiState : option MultiConversationScanState;
}.

Definition stampsOf (prior : scanCache) : gmap bytes FileStamp := default ∅ (sc_stamps prior).

(** ** One candidate *)

(** [range] visits a map in an unspecified order; [reflect.DeepEqual] also compares how a time
    is represented, so it may tell equal records apart. *)
Section scan.
Context (mapOrder : gmap bytes ConvRecord -> list (bytes * ConvRecord)).
Context (deepEqual : ConvRecord -> ConvRecord -> bool).

Definition selectorLess (a b : ConvRecord) : bool :=
  if negb (bool_decide (rc_Selector a = rc_Selector b)) then strLess (rc_Selector a) (rc_Selector b)
  else strLess (rc_ID a) (rc_ID b).

Definition recordsForArtifact (records : gmap bytes ConvRecord) (path : bytes) : list ConvRecord :=
  SliceStable selectorLess (filter (fun record => rc_ArtifactPath record = path) (map snd (mapOrder records))).

Definition scanMultiConversationCandidate (ScanRecords : MultiConversationScan -> option MultiConversationScanResult)
    (candidate : ScanCandidate) (prior : scanCache) : scanCandidateResult :=
  let priorRecords := recordsForArtifact (sc_records prior) (cn_Path candidate) in
  let stored := sc_multiStates prior !! cn_Path candidate in
  let unchanged := match stored with
                   | Some state => stampEqual (ms_Stamp state) (cn_Stamp candidate) && negb (cn_MetadataChanged candidate)
                   | None => false
                   end in
  if unchanged then MkScanned priorRecords true stored else
  let input := match stored with
               | Some state =>
                   if negb (cn_MetadataChanged candidate) && (fs_Size (ms_Stamp state) <? fs_Size (cn_Stamp candidate))
                      && (0 <=? ms_CompleteOffset state) && (ms_CompleteOffset state <=? fs_Size (ms_Stamp state))
                   then MkMultiScan candidate priorRecords (ms_CompleteOffset state)
                   else MkMultiScan candidate [] 0
               | None => MkMultiScan candidate [] 0
               end in
  match ScanRecords input with
  | Some result => MkScanned (mr_Records result) true (Some (MkMultiState (cn_Stamp candidate) (mr_CompleteOffset result)))
  | None =>
      match priorRecords with
      | _ :: _ => MkScanned priorRecords false None
      | [] => MkScanned [] true None
      end
  end.

Definition candidateKey (candidate : ScanCandidate) : bytes := recordKey (cn_Path candidate) (cn_Selector candidate).

Definition scanCandidate (parser : Parser) (candidate : ScanCandidate) (prior : scanCache) : scanCandidateResult :=
  match ps_ScanRecords parser with
  | Some ScanRecords => scanMultiConversationCandidate ScanRecords candidate prior
  | None =>
      let key := candidateKey candidate in
      let unchanged := match stampsOf prior !! key with
                       | Some previous => stampEqual previous (cn_Stamp candidate) && negb (cn_MetadataChanged candidate)
                       | None => false
                       end in
      if unchanged then
        match sc_records prior !! key with
        | Some record => MkScanned [record] true None
        | None => MkScanned [] true None
        end
      else
        match ps_ScanRecord parser (cn_Path candidate) (cn_Stamp candidate) with
        | Some record => MkScanned [record] true None
        | None =>
            match sc_records prior !! key with
            | Some record => MkScanned [record] false None
            | None => MkScanned [] true None
            end
        end
  end.

(** ** The whole scan *)

Definition scanned := (list ConvRecord * gmap bytes FileStamp * gmap bytes MultiConversationScanState)%type.

(** What the loop body does with the result of a candidate. *)
Definition absorb (candidate : ScanCandidate) (result : scanCandidateResult) (acc : scanned) : scanned :=
  let '(out, stamps, multiStates) := acc in
  let multiStates := match cr_multiState result with
                     | Some state => <[cn_Path candidate := state]> multiStates
                     | None => multiStates
                     end in
  let stamps := if cr_stampRecorded result
                then match cr_records result with
                     | [] => <[candidateKey candidate := cn_Stamp candidate]> stamps
                     | _ :: _ => foldl (fun stamps record => <[keyOf record := cn_Stamp candidate]> stamps) stamps (cr_records result)
                     end
                else stamps in
  (out ++ cr_records result, stamps, multiStates).

Context (ctxErr : ScanCandidate -> bool).

Fixpoint scanCandidates (parser : Parser) (prior : scanCache) (candidates : list ScanCandidate) (acc : scanned)
  : outcome scanError scanned :=
  match candidates with
  | [] => Ok acc
  | candidate :: candidates =>
      if ctxErr candidate then Fail scanCanceled else
      scanCandidates parser prior candidates (absorb candidate (scanCandidate parser candidate prior) acc)
  end.

Definition appendSkippedProviderRecords (provider : Provider) (prior : scanCache) (acc : scanned) : scanned :=
  foldl (fun (acc : scanned) '(key, record) =>
           let '(out, stamps, multiStates) := acc in
           if negb (bool_decide (rc_Provider record = provider)) then acc else
           (out ++ [record],
            match stampsOf prior !! key with Some stamp => <[key := stamp]> stamps | None => stamps end,
            multiStates))
    acc (mapOrder (sc_records prior)).

Definition discoverCandidates (parser : Parser) (prior : scanCache) : outcome scanError (list ScanCandidate) :=
  match ps_Discover parser (sc_records prior) (stampsOf prior) with
  | dsFound candidates => Ok candidates
  | dsNotExist => Ok []
  | dsFailed => Fail (scanDiscover (ps_Provider parser))
  end.

(** [registry] lists the parsers in the order of [Providers]. *)
Fixpoint scanProviders (registry : list Parser) (prior : scanCache) (acc : scanned) : outcome scanError scanned :=
  match registry with
  | [] => Ok acc
  | parser :: registry =>
      if sc_skipProviders prior (ps_Provider parser)
      then scanProviders registry prior (appendSkippedProviderRecords (ps_Provider parser) prior acc)
      else candidates ← discoverCandidates parser prior;
           acc ← scanCandidates parser prior candidates acc;
           scanProviders registry prior acc
  end.

(** [maps.EqualFunc]. *)
Definition mapsEqualFunc {V} (eq : V -> V -> bool) (m m' : gmap bytes V) : bool :=
  bool_decide (size m = size m') &&
  forallb (fun '(key, v) => match m' !! key with Some v' => eq v v' | None => false end) (map_to_list m).

Definition multiStateEqual (a b : MultiConversationScanState) : bool :=
  stampEqual (ms_Stamp a) (ms_Stamp b) && (ms_CompleteOffset a =? ms_CompleteOffset b).

Definition copySkippedMultiStates (prior : scanCache) : gmap bytes MultiConversationScanState :=
  if negb (sc_skipProviders prior ProviderCursor) then ∅ else sc_multiStates prior.

(** [ended] is whether the context has ended after the last candidate. *)
Definition scan (registry : list Parser) (prior : scanCache) (ended : bool) : outcome scanError scanResult :=
  '(out, stamps, multiStates) ← scanProviders registry prior ([], ∅, copySkippedMultiStates prior);
  if ended then Fail scanCanceled else
  Ok (MkScanResult
    (bool_decide (sc_stamps prior = None)
     || negb (mapsEqualFunc deepEqual (sc_records prior) (recordsByPath out))
     || negb (mapsEqualFunc stampEqual (stampsOf prior) stamps)
     || negb (mapsEqualFunc multiStateEqual (sc_multiStates prior) multiStates))
    out stamps multiStates).
End scan.

Lemma stampEqual_eq a b : stampEqual a b = true <-> a = b.
Proof.
  destruct a as [s m], b as [s' m']. unfold stampEqual. cbn. rewrite andb_true_iff, !Z.eqb_eq. naive_solver.
Qed.

Lemma multiStateEqual_eq a b : multiStateEqual a b = true <-> a = b.
Proof.
  destruct a as [s o], b as [s' o']. unfold multiStateEqual. cbn. rewrite andb_true_iff, stampEqual_eq, Z.eqb_eq. naive_solver.
Qed.

Lemma mapsEqualFunc_eq {V} (eq : V -> V -> bool) (m m' : gmap bytes V) :
  (forall a b, eq a b = true -> a = b) -> mapsEqualFunc eq m m' = true -> m = m'.
Proof.
  intros Heq H. unfold mapsEqualFunc in H. apply andb_true_iff in H as [Hs Hf]. apply bool_decide_eq_true in Hs.
  apply map_subseteq_size_eq; [|lia]. apply map_subseteq_spec. intros k v Hk.
  rewrite forallb_forall in Hf. specialize (Hf (k, v)). cbn in Hf.
  destruct (m' !! k) as [v'|] eqn:E.
  - rewrite (Heq v v'); [done|]. apply Hf. by apply list_elem_of_In, elem_of_map_to_list.
  - discriminate Hf. by apply list_elem_of_In, elem_of_map_to_list.
Qed.

(** ** The records of a map by artifact *)

Lemma recordsByPath_app rs rs' : recordsByPath (rs ++ rs') = foldl (fun m r => <[keyOf r := r]> m) (recordsByPath rs) rs'.
Proof. unfold recordsByPath. by rewrite foldl_app. Qed.

Lemma foldl_insert_other {V} (f : ConvRecord -> V) (rs : list ConvRecord) (m : gmap bytes V) k :
  Forall (fun r => keyOf r <> k) rs -> foldl (fun m r => <[keyOf r := f r]> m) m rs !! k = m !! k.
Proof.
  revert m. induction rs as [|r rs IH]; intros m; cbn; [done|]. rewrite Forall_cons. intros [H1 H2].
  by rewrite IH, lookup_insert_ne.
Qed.

Lemma foldl_insert_here {V} (f : ConvRecord -> V) (rs : list ConvRecord) (m : gmap bytes V) r :
  NoDup (map keyOf rs) -> r ∈ rs -> foldl (fun m r => <[keyOf r := f r]> m) m rs !! keyOf r = Some (f r).
Proof.
  revert m. induction rs as [|x rs IH]; intros m Hn Hr; cbn in *; [by apply elem_of_nil in Hr|].
  apply NoDup_cons in Hn as [Hx Hn]. apply elem_of_cons in Hr as [->|Hr]; [|by apply IH].
  rewrite foldl_insert_other; [by rewrite lookup_insert_eq|].
  apply Forall_forall. intros y Hy E. apply Hx. rewrite <- E. apply list_elem_of_In, in_map, list_elem_of_In, Hy.
Qed.

Lemma foldl_insert_const {V} (v : V) (rs : list ConvRecord) (m : gmap bytes V) k :
  foldl (fun m r => <[keyOf r := v]> m) m rs !! k = if bool_decide (Exists (fun r => keyOf r = k) rs) then Some v else m !! k.
Proof.
  revert m. induction rs as [|r rs IH]; intros m; cbn [foldl].
  { rewrite bool_decide_eq_false_2; [done|]. by intros ?%Exists_nil. }
  rewrite IH. destruct (decide (keyOf r = k)) as [E|E].
  - rewrite (bool_decide_eq_true_2 (Exists _ (r :: rs))) by (by constructor). case_bool_decide; [done|]. by rewrite E, lookup_insert_eq.
  - rewrite lookup_insert_ne by done. erewrite bool_decide_ext; [done|]. rewrite Exists_cons. naive_solver.
Qed.

Lemma foldl_insert_const_perm {V} (v : V) (rs rs' : list ConvRecord) (m : gmap bytes V) :
  rs ≡ₚ rs' -> foldl (fun m r => <[keyOf r := v]> m) m rs = foldl (fun m r => <[keyOf r := v]> m) m rs'.
Proof.
  intros Hp. apply map_eq. intros k. rewrite !foldl_insert_const.
  erewrite bool_decide_ext; [done|]. rewrite !list.Exists_exists. by setoid_rewrite Hp.
Qed.

(** Every record of the cache is stored under its own key. *)
Definition wellKeyed (records : gmap bytes ConvRecord) : Prop := forall k r, records !! k = Some r -> keyOf r = k.

Lemma recordsByPath_keyed rs : wellKeyed (recordsByPath rs).
Proof.
  unfold recordsByPath. assert (wellKeyed ∅) as H0 by (intros k r; by rewrite lookup_empty).
  revert H0. generalize (∅ : gmap bytes ConvRecord). induction rs as [|x rs IH]; intros m Hm; cbn; [done|].
  apply IH. intros k r. destruct (decide (keyOf x = k)) as [<-|]; [rewrite lookup_insert_eq; by intros [= ->]|].
  rewrite lookup_insert_ne by done. apply Hm.
Qed.

(** ** Reuse is exact *)

Section reuse.
Context (mapOrder : gmap bytes ConvRecord -> list (bytes * ConvRecord)).
Context (mapOrder_perm : forall m, mapOrder m ≡ₚ map_to_list m).

Definition noCache : scanCache := MkScanCache ∅ None ∅ (fun _ => false).

(** What a full read of a candidate gives. *)
Definition readAll (parser : Parser) (candidate : ScanCandidate) : option (list ConvRecord * option MultiConversationScanState) :=
  match ps_ScanRecords parser with
  | None => record ← ps_ScanRecord parser (cn_Path candidate) (cn_Stamp candidate); Some ([record], None)
  | Some ScanRecords =>
      result ← ScanRecords (MkMultiScan candidate [] 0);
      Some (mr_Records result, Some (MkMultiState (cn_Stamp candidate) (mr_CompleteOffset result)))
  end.

(** What is known of a candidate. *)
Definition knownOf (parser : Parser) (known : gmap bytes ConvRecord) (candidate : ScanCandidate) : list ConvRecord :=
  match ps_ScanRecords parser with
  | None => option_list (known !! candidateKey candidate)
  | Some _ => recordsForArtifact mapOrder known (cn_Path candidate)
  end.

(** A candidate is read from its beginning.  One that cannot be read keeps what is known of it,
    and then has no stamp, so that it is read again. *)
Definition reread (known : gmap bytes ConvRecord) (parser : Parser) (candidate : ScanCandidate) : scanCandidateResult :=
  match readAll parser candidate with
  | Some (records, state) => MkScanned records true state
  | None => let records := knownOf parser known candidate in MkScanned records (bool_decide (records = [])) None
  end.

Definition restamped (candidate : ScanCandidate) (stamp : FileStamp) : ScanCandidate :=
  MkCandidate (cn_Path candidate) (cn_Selector candidate) stamp false.

Inductive sameMulti : option MultiConversationScanResult -> option MultiConversationScanResult -> Prop :=
| same_none : sameMulti None None
| same_some rs rs' offset : rs ≡ₚ rs' -> sameMulti (Some (MkMultiResult rs offset)) (Some (MkMultiResult rs' offset)).

(** Reading on from the last complete record, with the records before it, gives what a full
    read of the grown artifact gives; a full read does not look at the metadata flag. *)
Definition appendOnly (ScanRecords : MultiConversationScan -> option MultiConversationScanResult) : Prop :=
  (forall candidate, ScanRecords (MkMultiScan (restamped candidate (cn_Stamp candidate)) [] 0) = ScanRecords (MkMultiScan candidate [] 0)) /\
  forall candidate stamp result records,
    cn_MetadataChanged candidate = false -> (fs_Size stamp < fs_Size (cn_Stamp candidate))%Z ->
    ScanRecords (MkMultiScan (restamped candidate stamp) [] 0) = Some result -> records ≡ₚ mr_Records result ->
    sameMulti (ScanRecords (MkMultiScan candidate records (mr_CompleteOffset result))) (ScanRecords (MkMultiScan candidate [] 0)).

(** The cache holds for a candidate what the parser gives for the stamp it is cached under. *)
Definition faithful (parser : Parser) (prior : scanCache) (candidate : ScanCandidate) : Prop :=
  match ps_ScanRecords parser with
  | None =>
      stampsOf prior !! candidateKey candidate = Some (cn_Stamp candidate) ->
      sc_records prior !! candidateKey candidate = ps_ScanRecord parser (cn_Path candidate) (cn_Stamp candidate)
  | Some ScanRecords =>
      forall state, sc_multiStates prior !! cn_Path candidate = Some state ->
        exists result, ScanRecords (MkMultiScan (restamped candidate (ms_Stamp state)) [] 0) = Some result /\
          mr_CompleteOffset result = ms_CompleteOffset state /\
          recordsForArtifact mapOrder (sc_records prior) (cn_Path candidate) ≡ₚ mr_Records result
  end.

Definition lawful (parser : Parser) : Prop :=
  match ps_ScanRecords parser with
  | None => True
  | Some ScanRecords => appendOnly ScanRecords
  end.

Record sameResult (a b : scanCandidateResult) : Prop := {
  same_records : cr_records a ≡ₚ cr_records b;
  same_stamp : cr_stampRecorded a = cr_stampRecorded b;
  same_state : cr_multiState a = cr_multiState b;
}.

Lemma recordsForArtifact_empty path : recordsForArtifact mapOrder ∅ path = [].
Proof.
  unfold recordsForArtifact. apply Permutation_nil_r. rewrite SliceStable_perm, mapOrder_perm. by rewrite map_to_list_empty.
Qed.

Lemma restamped_same candidate : cn_MetadataChanged candidate = false -> restamped candidate (cn_Stamp candidate) = candidate.
Proof. by destruct candidate as [p s t []]. Qed.

(** A candidate scanned with a cache that is faithful, unless its metadata changed, gives what
    a full read gives. *)
Lemma scanCandidate_exact parser prior candidate :
  lawful parser -> (cn_MetadataChanged candidate = false -> faithful parser prior candidate) ->
  sameResult (scanCandidate mapOrder parser candidate prior) (reread (sc_records prior) parser candidate).
Proof.
  intros Hl Hf. unfold lawful, faithful, reread, readAll, knownOf, scanCandidate in *. destruct (ps_ScanRecords parser) as [f|] eqn:Em.
  - unfold scanMultiConversationCandidate. set (known := recordsForArtifact mapOrder (sc_records prior) (cn_Path candidate)) in *.
    assert (forall o o', sameMulti o o' ->
      sameResult (match o with
                  | Some result => MkScanned (mr_Records result) true (Some (MkMultiState (cn_Stamp candidate) (mr_CompleteOffset result)))
                  | None => match known with _ :: _ => MkScanned known false None | [] => MkScanned [] true None end
                  end)
        (match (result ← o'; Some (mr_Records result, Some (MkMultiState (cn_Stamp candidate) (mr_CompleteOffset result)))) with
         | Some (records, state) => MkScanned records true state
         | None => MkScanned known (bool_decide (known = [])) None
         end)) as Hsame.
    { intros o o' [|rs rs' offset Hp]; cbn; [|by split]. by destruct known. }
    assert (sameMulti (f (MkMultiScan candidate [] 0)) (f (MkMultiScan candidate [] 0))) as Hrefl by (destruct (f _) as [[]|]; by constructor).
    destruct (sc_multiStates prior !! cn_Path candidate) as [state|] eqn:Es; cbn zeta beta; [|by apply Hsame].
    destruct (stampEqual _ _ && _) eqn:Eu; [|destruct (_ && _ && _ && _) eqn:Ei; cbn zeta beta; [|by apply Hsame]].
    + apply andb_true_iff in Eu as [Eu Hmd%negb_true_iff]. apply stampEqual_eq in Eu. destruct (Hf Hmd state eq_refl) as (result & Hfull & Hoff & Hrec).
      rewrite Eu, restamped_same in Hfull by done. rewrite Hfull. split; cbn; [done|done|]. rewrite <- Eu, Hoff. by destruct state.
    + reflect_bools. destruct (Hf ltac:(done) state eq_refl) as (result & Hfull & Hoff & Hrec).
      pose proof (proj2 Hl candidate (ms_Stamp state) result _ ltac:(done) ltac:(done) Hfull Hrec) as Hs. rewrite Hoff in Hs. by apply Hsame.
  - assert (forall o, sameResult (match o with
                                  | Some record => MkScanned [record] true None
                                  | None => match sc_records prior !! candidateKey candidate with Some record => MkScanned [record] false None | None => MkScanned [] true None end
                                  end)
      (match (record ← o; Some ([record], None)) with
       | Some (records, state) => MkScanned records true state
       | None => MkScanned (option_list (sc_records prior !! candidateKey candidate)) (bool_decide (option_list (sc_records prior !! candidateKey candidate) = [])) None
       end)) as Hsame by (intros [x|]; cbn; [done|]; by destruct (sc_records prior !! _)).
    destruct (stampsOf prior !! candidateKey candidate) as [stamp|] eqn:Es; [|apply Hsame].
    destruct (stampEqual _ _ && _) eqn:Eu; [|apply Hsame].
    apply andb_true_iff in Eu as [Eu Hmd%negb_true_iff]. apply stampEqual_eq in Eu. subst stamp. rewrite (Hf Hmd eq_refl).
    destruct (ps_ScanRecord _ _ _); cbn; done.
Qed.

(** ** The whole scan is exact *)

Definition discovered (registry : list Parser) (prior : scanCache) : list (Parser * ScanCandidate) :=
  concat (map (fun parser => map (pair parser) match discoverCandidates parser prior with Ok candidates => candidates | _ => [] end) registry).

(** The loop of the scan, with a given way to scan a candidate. *)
Definition absorbAll (result : Parser -> ScanCandidate -> scanCandidateResult) (ds : list (Parser * ScanCandidate)) (acc : scanned) : scanned :=
  foldl (fun acc '(parser, candidate) => absorb candidate (result parser candidate) acc) acc ds.

Abbreviation reuse prior := (fun parser candidate => scanCandidate mapOrder parser candidate prior).

Lemma scanCandidates_ok ctxErr parser prior candidates acc acc' :
  scanCandidates mapOrder ctxErr parser prior candidates acc = Ok acc' -> acc' = absorbAll (reuse prior) (map (pair parser) candidates) acc.
Proof.
  revert acc. induction candidates as [|c candidates IH]; intros acc; cbn; [by intros [= ->]|].
  destruct (ctxErr c); [done|]. apply IH.
Qed.

Lemma scanProviders_ok ctxErr registry prior acc acc' :
  (forall p, sc_skipProviders prior p = false) -> scanProviders mapOrder ctxErr registry prior acc = Ok acc' ->
  acc' = absorbAll (reuse prior) (discovered registry prior) acc.
Proof.
  intros Hs. revert acc. induction registry as [|p registry IH]; intros acc; cbn [scanProviders]; [by intros [= ->]|].
  rewrite Hs. unfold discovered. cbn [map concat]. unfold absorbAll at 1. rewrite foldl_app.
  destruct (discoverCandidates p prior) as [cs| |]; cbn [mbind outcome_bind]; [|done|done].
  destruct (scanCandidates _ _ _ _ _ _) as [acc1| |] eqn:E; cbn; [|done|done].
  intros H. apply IH in H. rewrite H. apply scanCandidates_ok in E. by rewrite E.
Qed.

Definition sameScanned (a b : scanned) : Prop := a.1.1 ≡ₚ b.1.1 /\ a.1.2 = b.1.2 /\ a.2 = b.2.

Lemma absorb_same candidate r r' a b : sameResult r r' -> sameScanned a b -> sameScanned (absorb candidate r a) (absorb candidate r' b).
Proof.
  destruct a as [[out stamps] multi], b as [[out' stamps'] multi']. intros [Hr Hst Hm] (Ho & Hs & Hmu). cbn in *. subst.
  unfold absorb. rewrite Hst, Hm. split_and!; cbn; [by rewrite Ho, Hr| |done].
  destruct (cr_stampRecorded r'); [|done]. destruct (cr_records r) as [|x rs].
  - apply Permutation_nil_l in Hr. by rewrite <- Hr.
  - rewrite (foldl_insert_const_perm _ _ _ _ Hr). by destruct (cr_records r') as [|y rs']; [apply Permutation_nil_r in Hr|].
Qed.

Lemma absorbAll_same result result' ds a b :
  (forall p c, (p, c) ∈ ds -> sameResult (result p c) (result' p c)) -> sameScanned a b ->
  sameScanned (absorbAll result ds a) (absorbAll result' ds b).
Proof.
  revert a b. induction ds as [|[p c] ds IH]; intros a b Hr Hab; cbn; [done|]. apply IH.
  - intros q d Hd. apply Hr. by apply list_elem_of_further.
  - apply absorb_same; [|done]. apply Hr, list_elem_of_here.
Qed.

Lemma scan_ok deepEqual ctxErr registry prior ended result :
  (forall p, sc_skipProviders prior p = false) -> scan mapOrder deepEqual ctxErr registry prior ended = Ok result ->
  absorbAll (reuse prior) (discovered registry prior) ([], ∅, ∅) = (sr_records result, sr_stamps result, sr_multiStates result).
Proof.
  intros Hs. unfold scan, copySkippedMultiStates. rewrite Hs. cbn [negb].
  destruct (scanProviders _ _ _ _ _) as [[[out stamps] multi]| |] eqn:E; cbn [mbind outcome_bind]; [|done|done].
  apply scanProviders_ok in E; [|done]. rewrite <- E. destruct ended; [done|]. by intros [= <-].
Qed.

(** ** The cache stays faithful *)

(** Records carry the path of their artifact; a parser of single conversations gives them no
    selector, and the conversations of one artifact have different selectors. *)
Definition named (parser : Parser) : Prop :=
  match ps_ScanRecords parser with
  | None => forall path stamp r, ps_ScanRecord parser path stamp = Some r -> rc_ArtifactPath r = path /\ rc_Selector r = []
  | Some ScanRecords =>
      forall input result, ScanRecords input = Some result ->
        Forall (fun r => rc_ArtifactPath r = cn_Path (mc_Candidate input)) (mr_Records result) /\ NoDup (map keyOf (mr_Records result))
  end.

Definition plainCandidate (c : ScanCandidate) : Prop := cn_Selector c = [] /\ Byte.x00 ∉ cn_Path c.

Definition ofCandidate (c : ScanCandidate) (r : scanCandidateResult) : Prop :=
  Forall (fun x => rc_ArtifactPath x = cn_Path c) (cr_records r) /\ NoDup (map keyOf (cr_records r)).

Lemma keyOf_plain r path : Byte.x00 ∉ path -> keyOf r = path -> rc_ArtifactPath r = path.
Proof.
  unfold keyOf, recordKey. intros Hp. case_bool_decide; [done|]. intros <-. destruct Hp.
  apply elem_of_app. right. apply list_elem_of_here.
Qed.

Lemma keyOf_path r path selector :
  Byte.x00 ∉ path -> Byte.x00 ∉ rc_ArtifactPath r -> keyOf r = recordKey path selector -> rc_ArtifactPath r = path.
Proof. intros Hp Hr H. by destruct (recordKey_inj _ _ _ _ Hr Hp H). Qed.

Lemma elem_of_recordsForArtifact records path r :
  wellKeyed records -> r ∈ recordsForArtifact mapOrder records path <-> records !! keyOf r = Some r /\ rc_ArtifactPath r = path.
Proof.
  intros Hk. unfold recordsForArtifact. rewrite elem_of_SliceStable, list_elem_of_filter, list_elem_of_In, in_map_iff.
  split.
  - intros (Hp & [k x] & E & Hx). cbn in E. subst x. apply list_elem_of_In in Hx. rewrite mapOrder_perm in Hx.
    apply elem_of_map_to_list in Hx. by rewrite (Hk _ _ Hx).
  - intros (Hx & Hp). split; [done|]. exists (keyOf r, r). split; [done|]. apply list_elem_of_In.
    rewrite mapOrder_perm. by apply elem_of_map_to_list.
Qed.

Lemma recordsForArtifact_NoDup records path : wellKeyed records -> NoDup (map keyOf (recordsForArtifact mapOrder records path)).
Proof.
  intros Hk. unfold recordsForArtifact. change (map keyOf) with (fmap (M := list) keyOf).
  rewrite SliceStable_perm. assert (map snd (mapOrder records) ≡ₚ map snd (map_to_list records)) as Hp by (by apply Permutation_map, mapOrder_perm).
  rewrite Hp. apply NoDup_fmap_2_strong.
  - intros x y Hx Hy E. apply list_elem_of_filter in Hx as [_ Hx], Hy as [_ Hy].
    apply list_elem_of_In, in_map_iff in Hx as ([kx x'] & <- & Hx), Hy as ([ky y'] & <- & Hy).
    apply list_elem_of_In, elem_of_map_to_list in Hx, Hy. cbn in *.
    rewrite <- (Hk _ _ Hx), E, (Hk _ _ Hy), Hy in Hx. by injection Hx.
  - apply NoDup_filter. change (map snd) with (fmap (M := list) (@snd bytes ConvRecord)). apply NoDup_fmap_2_strong; [|apply NoDup_map_to_list].
    intros [kx x] [ky y] Hx%elem_of_map_to_list Hy%elem_of_map_to_list E. cbn in E. subst y.
    by rewrite <- (Hk _ _ Hx), <- (Hk _ _ Hy).
Qed.

Lemma scanCandidate_of parser prior c :
  named parser -> wellKeyed (sc_records prior) -> plainCandidate c -> ofCandidate c (scanCandidate mapOrder parser c prior).
Proof.
  intros Hn Hk [Hsel Hnul]. unfold named in Hn. unfold scanCandidate. destruct (ps_ScanRecords parser) as [f|].
  - assert (Forall (fun x => rc_ArtifactPath x = cn_Path c) (recordsForArtifact mapOrder (sc_records prior) (cn_Path c))) as Hprior.
    { apply Forall_forall. intros x Hx. by apply elem_of_recordsForArtifact in Hx as [_ Hx]. }
    pose proof (recordsForArtifact_NoDup (sc_records prior) (cn_Path c) Hk) as Hdup.
    unfold scanMultiConversationCandidate. destruct (match sc_multiStates prior !! _ with Some _ => _ | None => false end); [by split|].
    match goal with |- context [f ?input] => set (i := input) end.
    assert (mc_Candidate i = c) as Hi by (unfold i; repeat case_match; done).
    destruct (f i) as [result|] eqn:E.
    + destruct (Hn i result E) as [H1 H2]. rewrite Hi in H1. by split.
    + destruct (recordsForArtifact _ _ _); [split; constructor|by split].
  - assert (forall r, sc_records prior !! candidateKey c = Some r -> ofCandidate c (MkScanned [r] true None) /\ ofCandidate c (MkScanned [r] false None)) as Hc.
    { intros r Hr. apply Hk in Hr. unfold candidateKey in Hr. rewrite Hsel in Hr. apply keyOf_plain in Hr; [|done].
      split; (split; cbn; [by constructor|apply NoDup_singleton]). }
    assert (ofCandidate c (MkScanned [] true None)) as H0 by (split; constructor).
    assert (forall r, ps_ScanRecord parser (cn_Path c) (cn_Stamp c) = Some r -> ofCandidate c (MkScanned [r] true None)) as Hs.
    { intros r Hr. apply Hn in Hr as [Hr _]. split; cbn; [by constructor|apply NoDup_singleton]. }
    destruct (sc_records prior !! candidateKey c) as [r|]; [destruct (Hc r eq_refl)|]; repeat case_match; eauto.
Qed.

(** What the accumulated maps hold for one artifact. *)
Definition look (path selector : bytes) (acc : scanned) : option ConvRecord * option FileStamp * option MultiConversationScanState :=
  (recordsByPath acc.1.1 !! recordKey path selector, acc.1.2 !! recordKey path selector, acc.2 !! path).

Lemma key_elsewhere c path selector r :
  Byte.x00 ∉ path -> Byte.x00 ∉ cn_Path c -> cn_Path c <> path -> rc_ArtifactPath r = cn_Path c -> keyOf r <> recordKey path selector.
Proof. intros Hp Hc Hne Hr E. apply Hne. rewrite <- Hr. apply keyOf_path in E; [done|done|]. by rewrite Hr. Qed.

Lemma absorb_other c r acc path selector :
  ofCandidate c r -> Byte.x00 ∉ path -> Byte.x00 ∉ cn_Path c -> cn_Path c <> path ->
  look path selector (absorb c r acc) = look path selector acc.
Proof.
  destruct acc as [[out stamps] multi]. intros [Ho _] Hp Hc Hne. unfold look, absorb. cbn.
  assert (Forall (fun x => keyOf x <> recordKey path selector) (cr_records r)) as Hk.
  { eapply Forall_impl; [exact Ho|]. intros x Hx. by apply (key_elsewhere c). }
  f_equal; [f_equal|].
  - rewrite recordsByPath_app. by apply (foldl_insert_other id).
  - destruct (cr_stampRecorded r); [|done]. destruct (cr_records r) eqn:E.
    + rewrite lookup_insert_ne; [done|]. intros H. by apply recordKey_inj in H as [? _].
    + rewrite <- E in *. by apply (foldl_insert_other (fun _ => cn_Stamp c)).
  - destruct (cr_multiState r); [by rewrite lookup_insert_ne|done].
Qed.

Lemma absorbAll_other result ds acc path selector :
  Byte.x00 ∉ path -> (forall p c, (p, c) ∈ ds -> ofCandidate c (result p c) /\ plainCandidate c /\ cn_Path c <> path) ->
  look path selector (absorbAll result ds acc) = look path selector acc.
Proof.
  intros Hp. revert acc. induction ds as [|[p c] ds IH]; intros acc H; [done|]. unfold absorbAll. cbn [foldl].
  fold (absorbAll result ds (absorb c (result p c) acc)). rewrite IH.
  - destruct (H p c) as (H1 & [_ H2] & H3); [apply list_elem_of_here|]. by apply absorb_other.
  - intros q d Hd. apply H. by apply list_elem_of_further.
Qed.

(** With one candidate per path, the maps hold for it what its own result puts there. *)
Lemma absorbAll_here result ds p c :
  NoDup (map (fun d : Parser * ScanCandidate => cn_Path d.2) ds) -> (p, c) ∈ ds ->
  (forall q d, (q, d) ∈ ds -> ofCandidate d (result q d) /\ plainCandidate d) ->
  exists acc, forall selector, look (cn_Path c) selector acc = (None, None, None) /\
    look (cn_Path c) selector (absorbAll result ds ([], ∅, ∅)) = look (cn_Path c) selector (absorb c (result p c) acc).
Proof.
  intros Hn Hin H. apply list_elem_of_split in Hin as (ds1 & ds2 & ->).
  destruct (H p c) as (Hof & [_ Hnul]); [apply elem_of_app; right; apply list_elem_of_here|].
  rewrite map_app in Hn. cbn [map] in Hn. apply NoDup_app in Hn as (_ & Hd & Hn). apply NoDup_cons in Hn as [Hn _].
  exists (absorbAll result ds1 ([], ∅, ∅)). intros selector. split.
  - rewrite absorbAll_other; [|done|].
    + unfold look, recordsByPath. cbn. by rewrite !lookup_empty.
    + intros q d Hq. destruct (H q d); [rewrite elem_of_app, elem_of_cons; auto|]. split_and!; [done|done|]. intros E.
      apply (Hd (cn_Path d)); [apply list_elem_of_In, (in_map (fun d => cn_Path d.2) _ (q, d)), list_elem_of_In, Hq|].
      rewrite E. apply list_elem_of_here.
  - unfold absorbAll. rewrite foldl_app. cbn [foldl]. fold (absorbAll result ds1 ([], ∅, ∅)).
    fold (absorbAll result ds2 (absorb c (result p c) (absorbAll result ds1 ([], ∅, ∅)))).
    apply absorbAll_other; [done|]. intros q d Hq. destruct (H q d); [rewrite elem_of_app, elem_of_cons; auto|]. split_and!; [done|done|]. intros E.
    apply Hn. cbn [snd]. rewrite <- E. apply list_elem_of_In, (in_map (fun d => cn_Path d.2) _ (q, d)), list_elem_of_In, Hq.
Qed.

Lemma single_recorded parser prior c : ps_ScanRecords parser = None -> (cn_MetadataChanged c = false -> faithful parser prior c) ->
  cr_stampRecorded (scanCandidate mapOrder parser c prior) = true ->
  cr_records (scanCandidate mapOrder parser c prior) = option_list (ps_ScanRecord parser (cn_Path c) (cn_Stamp c)).
Proof.
  intros E Hf. unfold faithful in Hf. unfold scanCandidate. rewrite E in *.
  destruct (stampsOf prior !! candidateKey c) as [stamp|] eqn:Es.
  - destruct (stampEqual _ _ && _) eqn:Eu.
    + apply andb_true_iff in Eu as [Eu Hmd%negb_true_iff]. apply stampEqual_eq in Eu. subst stamp. rewrite (Hf Hmd eq_refl). by destruct (ps_ScanRecord _ _ (cn_Stamp c)).
    + destruct (ps_ScanRecord _ _ (cn_Stamp c)); [done|]. by destruct (sc_records prior !! _).
  - destruct (ps_ScanRecord _ _ (cn_Stamp c)); [done|]. by destruct (sc_records prior !! _).
Qed.

Lemma multi_recorded parser prior c f state : ps_ScanRecords parser = Some f -> appendOnly f -> (cn_MetadataChanged c = false -> faithful parser prior c) ->
  cr_multiState (scanCandidate mapOrder parser c prior) = Some state ->
  exists result, f (MkMultiScan (restamped c (ms_Stamp state)) [] 0) = Some result /\
    mr_CompleteOffset result = ms_CompleteOffset state /\ cr_records (scanCandidate mapOrder parser c prior) ≡ₚ mr_Records result.
Proof.
  intros E [Hflag Happ] Hf. unfold faithful in Hf. unfold scanCandidate. rewrite E in *. unfold scanMultiConversationCandidate.
  destruct (sc_multiStates prior !! cn_Path c) as [old|] eqn:Es; cbn zeta.
  - destruct (stampEqual _ _ && _) eqn:Eu.
    { apply andb_true_iff in Eu as [_ Hmd%negb_true_iff]. destruct (Hf Hmd old eq_refl) as (result & Hfull & Hoff & Hrec). intros [= <-]. by exists result. }
    destruct (_ && _ && _ && _) eqn:Ei; cbn zeta beta.
    + reflect_bools. destruct (Hf ltac:(done) old eq_refl) as (result & Hfull & Hoff & Hrec). pose proof (Happ c (ms_Stamp old) result _ ltac:(done) ltac:(done) Hfull Hrec) as Hs. rewrite Hoff in Hs.
      inversion Hs as [E1 E2|rs rs' off Hp E1 E2]; [by destruct (recordsForArtifact _ _ _)|].
      intros [= <-]. cbn.
      exists (MkMultiResult rs' off). split_and!; [|done|done]. by rewrite Hflag.
    + destruct (f (MkMultiScan c [] 0)) as [r|] eqn:Ef; [|by destruct (recordsForArtifact _ _ _)]. intros [= <-]. exists r. cbn. by rewrite Hflag.
  - destruct (f (MkMultiScan c [] 0)) as [r|] eqn:Ef; [|by destruct (recordsForArtifact _ _ _)]. intros [= <-]. exists r. cbn. by rewrite Hflag.
Qed.

Lemma recordsByPath_spec rs k r : NoDup (map keyOf rs) -> recordsByPath rs !! k = Some r <-> r ∈ rs /\ keyOf r = k.
Proof.
  intros Hn. split.
  - intros H. pose proof (recordsByPath_keyed rs _ _ H) as Hk. split; [|done]. subst k.
    destruct (decide (Exists (fun x => keyOf x = keyOf r) rs)) as [He|He].
    + apply list.Exists_exists in He as (x & Hx & E). unfold recordsByPath in H. rewrite <- E in H.
      rewrite (foldl_insert_here id) in H by done. by injection H as <-.
    + apply not_Exists_Forall in He; [|intros ?; apply _]. unfold recordsByPath in H. rewrite (foldl_insert_other id) in H by done. by rewrite lookup_empty in H.
  - intros [Hr <-]. by apply (foldl_insert_here id).
Qed.

Lemma recordsByPath_perm rs rs' : NoDup (map keyOf rs) -> rs ≡ₚ rs' -> recordsByPath rs = recordsByPath rs'.
Proof.
  intros Hn Hp. apply map_eq. intros k. apply option_eq. intros r.
  assert (NoDup (map keyOf rs')) as Hn' by (by rewrite <- (Permutation_map keyOf Hp)).
  rewrite !recordsByPath_spec by done. by rewrite Hp.
Qed.

Lemma absorbAll_out result ds acc :
  (absorbAll result ds acc).1.1 = acc.1.1 ++ concat (map (fun d => cr_records (result d.1 d.2)) ds).
Proof.
  revert acc. induction ds as [|[p c] ds IH]; intros [[out stamps] multi]; [by cbn; rewrite app_nil_r|].
  change (absorbAll result ((p, c) :: ds) (out, stamps, multi)) with (absorbAll result ds (absorb c (result p c) (out, stamps, multi))).
  rewrite IH. cbn. by rewrite app_assoc.
Qed.

Lemma absorbAll_keys result ds :
  NoDup (map (fun d : Parser * ScanCandidate => cn_Path d.2) ds) ->
  (forall q d, (q, d) ∈ ds -> ofCandidate d (result q d) /\ plainCandidate d) ->
  NoDup (map keyOf (absorbAll result ds ([], ∅, ∅)).1.1).
Proof.
  rewrite absorbAll_out. cbn [fst app]. induction ds as [|[p c] ds IH]; intros Hn H; cbn; [constructor|].
  apply NoDup_cons in Hn as [Hc Hn]. rewrite map_app. destruct (H p c) as ([Hp Hk] & [_ Hnul]); [apply list_elem_of_here|].
  apply NoDup_app. split_and!; [done| |apply IH; [done|]; intros q d Hq; apply H; by apply list_elem_of_further].
  intros k Hk1 Hk2. apply list_elem_of_In, in_map_iff in Hk1 as (x & <- & Hx), Hk2 as (y & E & Hy).
  apply in_concat in Hy as (l & Hl & Hy). apply in_map_iff in Hl as ([q d] & <- & Hd).
  destruct (H q d) as ([Hp' _] & [_ Hnul']); [by apply list_elem_of_further, list_elem_of_In|].
  rewrite Forall_forall in Hp. rewrite Forall_forall in Hp'.
  specialize (Hp x ltac:(by apply list_elem_of_In)). specialize (Hp' y ltac:(by apply list_elem_of_In)).
  apply Hc. cbn. rewrite <- Hp. apply recordKey_inj in E as [E _]; [| by rewrite Hp' | by rewrite Hp].
  rewrite <- E, Hp'. apply list_elem_of_In, (in_map (fun d => cn_Path d.2) _ (q, d)), Hd.
Qed.

(** The cache that a refresh keeps for the next scan. *)
Definition cacheOf (result : scanResult) : scanCache :=
  MkScanCache (recordsByPath (sortRecords (sr_records result))) (Some (sr_stamps result)) (sr_multiStates result) (fun _ => false).

Lemma single_faithful parser prior c c' acc sel r s m :
  ps_ScanRecords parser = None -> named parser -> wellKeyed (sc_records prior) -> plainCandidate c -> (cn_MetadataChanged c = false -> faithful parser prior c) ->
  look (cn_Path c) [] acc = (None, None, None) -> cn_Path c' = cn_Path c -> cn_Selector c' = [] -> sel = [] ->
  look (cn_Path c) sel (absorb c (scanCandidate mapOrder parser c prior) acc) = (r, Some s, m) ->
  r = ps_ScanRecord parser (cn_Path c') s.
Proof.
  intros E Hn Hk Hpl Hf Hacc Hp Hs -> H. destruct Hpl as [Hsel Hnul]. pose proof (single_recorded parser prior c E Hf) as Hrec.
  pose proof (scanCandidate_of parser prior c Hn Hk (conj Hsel Hnul)) as [Hpath _].
  set (res := scanCandidate mapOrder parser c prior) in *. destruct acc as [[out stamps] multi].
  unfold look in *. cbn in *. injection Hacc as H1 H2 H3. injection H as H4 H5 _.
  destruct (cr_stampRecorded res); [|congruence]. rewrite (Hrec eq_refl) in *. rewrite Hp.
  destruct (ps_ScanRecord parser (cn_Path c) (cn_Stamp c)) as [x|] eqn:Ex; cbn in *.
  - unfold named in Hn. rewrite E in Hn. destruct (Hn _ _ _ Ex) as [Hx1 Hx2].
    assert (keyOf x = recordKey (cn_Path c) []) as Hkx by (unfold keyOf; by rewrite Hx1, Hx2).
    rewrite Hkx, lookup_insert_eq in H5. injection H5 as <-. rewrite Ex, <- H4, recordsByPath_app. cbn.
    by rewrite Hkx, lookup_insert_eq.
  - unfold candidateKey in H5. rewrite Hsel, lookup_insert_eq in H5. injection H5 as <-. rewrite Ex, <- H4, app_nil_r. done.
Qed.

Lemma multi_records parser prior c acc ds :
  (forall selector, look (cn_Path c) selector acc = (None, None, None)) ->
  (forall selector, look (cn_Path c) selector ds = look (cn_Path c) selector (absorb c (scanCandidate mapOrder parser c prior) acc)) ->
  ofCandidate c (scanCandidate mapOrder parser c prior) -> Byte.x00 ∉ cn_Path c ->
  recordsForArtifact mapOrder (recordsByPath ds.1.1) (cn_Path c) ≡ₚ cr_records (scanCandidate mapOrder parser c prior).
Proof.
  set (res := scanCandidate mapOrder parser c prior). intros Hacc Hds [Hp Hk] Hnul.
  pose proof (recordsByPath_keyed ds.1.1) as Hw. apply NoDup_Permutation.
  - eapply NoDup_fmap_1, recordsForArtifact_NoDup, Hw.
  - by eapply NoDup_fmap_1.
  - intros r. rewrite elem_of_recordsForArtifact by done.
    assert (rc_ArtifactPath r = cn_Path c -> recordsByPath ds.1.1 !! keyOf r = recordsByPath (acc.1.1 ++ cr_records res) !! keyOf r) as Hlook.
    { intros E. specialize (Hds (rc_Selector r)). destruct acc as [[out stamps] multi], ds as [[out' stamps'] multi'].
      injection Hds as Hds _ _. unfold keyOf. by rewrite E. }
    rewrite recordsByPath_app in Hlook. rewrite Forall_forall in Hp. split.
    + intros [H1 H2]. rewrite Hlook in H1 by done. destruct (decide (Exists (fun x => keyOf x = keyOf r) (cr_records res))) as [He|He].
      * apply list.Exists_exists in He as (x & Hx & E). rewrite <- E, (foldl_insert_here id) in H1 by done. by injection H1 as <-.
      * apply not_Exists_Forall in He; [|intros ?; apply _]. rewrite (foldl_insert_other id) in H1 by done.
        pose proof (f_equal (fun t => t.1.1) (Hacc (rc_Selector r))) as Hl. unfold look in Hl. cbn [fst] in Hl.
        unfold keyOf in H1. rewrite H2 in H1. by rewrite Hl in H1.
    + intros Hr. split; [|by apply Hp]. rewrite Hlook by (by apply Hp). by apply (foldl_insert_here id).
Qed.

Section after.
Context (deepEqual : ConvRecord -> ConvRecord -> bool) (ctxErr : ScanCandidate -> bool) (registry : list Parser) (prior : scanCache) (ended : bool) (result : scanResult).
Context (Escan : scan mapOrder deepEqual ctxErr registry prior ended = Ok result).
Context (Hskip : forall q, sc_skipProviders prior q = false) (Hkeyed : wellKeyed (sc_records prior)).
Local Abbreviation ds := (discovered registry prior).
Context (Honce : NoDup (map (fun d : Parser * ScanCandidate => cn_Path d.2) ds)).
Context (Hall : forall q d, (q, d) ∈ ds -> lawful q /\ named q /\ plainCandidate d /\ (cn_MetadataChanged d = false -> faithful q prior d)).

Lemma after_of q d : (q, d) ∈ ds -> ofCandidate d (reuse prior q d) /\ plainCandidate d.
Proof. intros Hd. destruct (Hall q d Hd) as (_ & Hnm & Hpl & _). split; [|done]. by apply scanCandidate_of. Qed.

Lemma after_keys : NoDup (map keyOf (sr_records result)).
Proof. pose proof (absorbAll_keys (reuse prior) ds Honce after_of) as Hkeys. by rewrite (scan_ok _ _ _ _ _ _ Hskip Escan) in Hkeys. Qed.

Lemma after_records : sc_records (cacheOf result) = recordsByPath (sr_records result).
Proof. cbn [cacheOf sc_records]. symmetry. apply recordsByPath_perm; [apply after_keys|symmetry; apply SliceStable_perm]. Qed.

(** A scan leaves a cache that is faithful to the parsers of that scan. *)
Lemma scan_faithful p d c : (p, d) ∈ ds -> cn_Path d = cn_Path c -> plainCandidate c -> faithful p (cacheOf result) c.
Proof.
  intros Hd Hp [Hsel Hnul]. pose proof (scan_ok _ _ _ _ _ _ Hskip Escan) as Hfold. pose proof after_records as Hrecords.
  destruct (absorbAll_here (reuse prior) ds p d Honce Hd after_of) as (acc & Hacc). rewrite Hfold in Hacc.
  destruct (Hall p d Hd) as (Hl & Hnm & Hpl & Hf). unfold faithful. rewrite Hrecords. unfold stampsOf. cbn [cacheOf sc_stamps sc_multiStates default].
  destruct (ps_ScanRecords p) as [f|] eqn:Em.
  - intros state Hst. unfold lawful in Hl. rewrite Em in Hl. destruct (Hacc []) as [Ha Hb].
    pose proof (f_equal snd Hb) as Hm. cbn [look snd] in Hm. rewrite Hp, Hst in Hm.
    assert (cr_multiState (scanCandidate mapOrder p d prior) = Some state) as Hms.
    { apply (f_equal snd) in Ha. destruct acc as [[out stamps] multi]. cbn in Ha, Hm. rewrite <- Hp in Hm.
      destruct (cr_multiState _); [by rewrite lookup_insert_eq in Hm|congruence]. }
    destruct (multi_recorded p prior d f state Em Hl Hf Hms) as (r & Hr & Hoff & Hperm). exists r. split_and!; [|done|].
    + rewrite <- Hr. do 2 f_equal. unfold restamped. destruct Hpl as [Hsel' _]. by rewrite Hp, Hsel, Hsel'.
    + rewrite <- Hperm, <- Hp. destruct (after_of p d Hd) as [Ho [_ Hnul']].
      apply (multi_records p prior d acc (sr_records result, sr_stamps result, sr_multiStates result)); [| |done|done]; intros selector; by destruct (Hacc selector).
  - intros Hst. destruct (Hacc []) as [Ha Hb]. unfold candidateKey in *. rewrite Hsel in *.
    eapply (single_faithful p prior d c acc []); try done.
    rewrite <- Hb. unfold look. cbn [fst snd]. unfold id in Hst. by rewrite Hp, Hst.
Qed.

(** Nothing is cached of an artifact that the scan did not find. *)
Lemma scan_unknown p c : (forall q d, (q, d) ∈ ds -> cn_Path d <> cn_Path c) -> plainCandidate c -> faithful p (cacheOf result) c.
Proof.
  intros He [Hsel Hnul]. pose proof (scan_ok _ _ _ _ _ _ Hskip Escan) as Hfold.
  assert (look (cn_Path c) [] (absorbAll (reuse prior) ds ([], ∅, ∅)) = (None, None, None)) as Hlook.
  { rewrite absorbAll_other; [unfold look, recordsByPath; cbn; by rewrite !lookup_empty|done|].
    intros q d Hd. destruct (after_of q d Hd). split_and!; [done|done|]. by apply (He q d). }
  rewrite Hfold in Hlook. injection Hlook as _ H2 H3. unfold faithful, stampsOf, candidateKey. cbn [cacheOf sc_stamps sc_multiStates default].
  rewrite Hsel. destruct (ps_ScanRecords p); [by rewrite H3|]. intros Hst. unfold recordKey, id in *. cbn in Hst, H2. congruence.
Qed.

(** The scan is the one that reads everything. *)
Lemma scan_rereads : sameScanned (sr_records result, sr_stamps result, sr_multiStates result) (absorbAll (reread (sc_records prior)) ds ([], ∅, ∅)).
Proof.
  rewrite <- (scan_ok _ _ _ _ _ _ Hskip Escan). apply absorbAll_same; [|done]. intros q d Hd. destruct (Hall q d Hd) as (Hl & _ & _ & Hf). by apply scanCandidate_exact.
Qed.
End after.

(** ** Any number of scans *)

(** Unless the candidate says that metadata changed, the parser of this scan reads for what is
    cached what the parser of the last scan read. *)
Definition agrees (last now : Parser) (prior : scanCache) (c : ScanCandidate) : Prop :=
  match ps_ScanRecords last, ps_ScanRecords now with
  | None, None =>
      stampsOf prior !! candidateKey c = Some (cn_Stamp c) ->
      ps_ScanRecord now (cn_Path c) (cn_Stamp c) = ps_ScanRecord last (cn_Path c) (cn_Stamp c)
  | Some readLast, Some readNow =>
      forall state, sc_multiStates prior !! cn_Path c = Some state ->
        readNow (MkMultiScan (restamped c (ms_Stamp state)) [] 0) = readLast (MkMultiScan (restamped c (ms_Stamp state)) [] 0)
  | _, _ => False
  end.

(** What a scan finds, with the parsers of that scan.  Every artifact is found once. *)
Record conforms (last : list (Parser * ScanCandidate)) (prior : scanCache) (ds : list (Parser * ScanCandidate)) : Prop := {
  cf_once : NoDup (map (fun d : Parser * ScanCandidate => cn_Path d.2) ds);
  cf_laws : forall q d, (q, d) ∈ ds -> lawful q /\ named q /\ plainCandidate d;
  cf_told : forall q d q0 d0, (q, d) ∈ ds -> (q0, d0) ∈ last -> cn_Path d0 = cn_Path d -> cn_MetadataChanged d = false -> agrees q0 q prior d;
}.

(** The finds of some scans, the last one first, and the cache they leave.  Between two scans
    artifacts may appear, change, become unreadable and disappear. *)
Inductive scans : list (list (Parser * ScanCandidate)) -> scanCache -> Prop :=
| scans_none : scans [] noCache
| scans_next deepEqual ctxErr registry history prior ended result :
    scans history prior -> conforms (default [] (head history)) prior (discovered registry prior) ->
    scan mapOrder deepEqual ctxErr registry prior ended = Ok result ->
    scans (discovered registry prior :: history) (cacheOf result).

(** What is known after some scans that read every artifact from its beginning. *)
Fixpoint remembered (history : list (list (Parser * ScanCandidate))) : gmap bytes ConvRecord :=
  match history with
  | [] => ∅
  | ds :: history => recordsByPath (absorbAll (reread (remembered history)) ds ([], ∅, ∅)).1.1
  end.

Lemma agrees_faithful last now prior c : agrees last now prior c -> faithful last prior c -> faithful now prior c.
Proof.
  unfold agrees, faithful. destruct (ps_ScanRecords last), (ps_ScanRecords now); [|done|done|].
  - intros Ha Hf state Hst. destruct (Hf state Hst) as (result & Hr & Ho & Hp). exists result. by rewrite (Ha state Hst).
  - intros Ha Hf Hst. by rewrite (Ha Hst), (Hf Hst).
Qed.

Record scansInv (history : list (list (Parser * ScanCandidate))) (prior : scanCache) : Prop := {
  si_skip : forall p, sc_skipProviders prior p = false;
  si_keyed : wellKeyed (sc_records prior);
  si_found : forall q d c, (q, d) ∈ default [] (head history) -> cn_Path d = cn_Path c -> plainCandidate c -> faithful q prior c;
  si_other : forall q c, (forall q0 d0, (q0, d0) ∈ default [] (head history) -> cn_Path d0 <> cn_Path c) -> plainCandidate c -> faithful q prior c;
  si_records : sc_records prior = remembered history;
}.

Lemma inv_laws history prior ds : scansInv history prior -> conforms (default [] (head history)) prior ds ->
  forall q d, (q, d) ∈ ds -> lawful q /\ named q /\ plainCandidate d /\ (cn_MetadataChanged d = false -> faithful q prior d).
Proof.
  intros Hi [_ Hlaws Htold] q d Hd. destruct (Hlaws q d Hd) as (Hl & Hn & Hp). split_and!; [done|done|done|]. intros Hmd.
  destruct (decide (Exists (fun x => cn_Path x.2 = cn_Path d) (default [] (head history)))) as [He|He].
  - apply list.Exists_exists in He as ([q0 d0] & Hin & Hpath). apply (agrees_faithful q0); [by apply (Htold q d q0 d0)|]. by apply (si_found _ _ Hi q0 d0).
  - apply (si_other _ _ Hi); [|done]. intros q0 d0 Hin E. apply He, list.Exists_exists. by exists (q0, d0).
Qed.

Lemma scans_inv history prior : scans history prior -> scansInv history prior.
Proof.
  induction 1 as [|deepEqual ctxErr registry history prior ended result _ Hi Hc E].
  - split; [done|intros k r; by rewrite ?lookup_empty|by intros q d c ?%not_elem_of_nil| |done].
    intros q c _ _. unfold faithful, stampsOf, noCache. cbn. destruct (ps_ScanRecords _); [intros ?|]; by rewrite lookup_empty.
  - pose proof (inv_laws _ _ _ Hi Hc) as Hlaws. destruct Hi as [Hs Hk _ _ Hr]. pose proof (cf_once _ _ _ Hc) as Honce.
    split; cbn [head default]; [done|apply recordsByPath_keyed| | |].
    + intros q d c Hd Hp Hpl. by eapply scan_faithful.
    + intros q c Hne Hpl. by eapply scan_unknown.
    + erewrite after_records by done. cbn [remembered]. rewrite <- Hr.
      destruct (scan_rereads _ _ _ _ _ _ E Hs Hlaws) as (Hp & _ & _). apply recordsByPath_perm; [by eapply after_keys|exact Hp].
Qed.

(** C9. Incremental scanning is exact.  Some scans have run, none of which skipped a provider, and
    between them artifacts and what is read of them changed in any way that a new stamp or the
    flag for changed metadata tells, growing logs by complete records.  Then a scan finds the
    records, stamps and positions of one that has no stamps and positions to reuse: it reads
    every artifact from its beginning, and keeps for one that it cannot read what such scans
    knew of it, without a stamp; only the order of the records may differ.  (Every
    artifact is found once, by a path without a zero byte and without a selector; its records
    carry its path and have different keys.) *)
Theorem scans_exact deepEqual ctxErr registry history prior ended result :
  scans history prior -> conforms (default [] (head history)) prior (discovered registry prior) ->
  scan mapOrder deepEqual ctxErr registry prior ended = Ok result ->
  sameScanned (sr_records result, sr_stamps result, sr_multiStates result)
    (absorbAll (reread (remembered history)) (discovered registry prior) ([], ∅, ∅)).
Proof.
  intros Hsc Hc E. pose proof (scans_inv _ _ Hsc) as Hi. rewrite <- (si_records _ _ Hi).
  eapply scan_rereads; [exact E|apply Hi|exact (inv_laws _ _ _ Hi Hc)].
Qed.

(** An artifact that is discovered but cannot be read keeps its cached record, and its stamp
    is not stored, so that the next scan reads it again. *)
Theorem scanCandidate_keeps parser candidate prior record :
  ps_ScanRecords parser = None -> sc_records prior !! candidateKey candidate = Some record ->
  ps_ScanRecord parser (cn_Path candidate) (cn_Stamp candidate) = None ->
  stampsOf prior !! candidateKey candidate <> Some (cn_Stamp candidate) ->
  scanCandidate mapOrder parser candidate prior = MkScanned [record] false None.
Proof.
  intros Em Hr Hs Hst. unfold scanCandidate. rewrite Em, Hr, Hs. destruct (stampsOf prior !! _) as [stamp|]; [|done].
  destruct (stampEqual stamp (cn_Stamp candidate)) eqn:E; [|done]. apply stampEqual_eq in E. by subst.
Qed.
End reuse.

(** ** Examples *)

Definition sampleRecord (path selector : bytes) (size : Z) : ConvRecord :=
  MkRecord (path ++ selector) ProviderClaude path selector None [] [] false [] path [] [] 0 0 size false [].

(** One conversation per file, whose title is not in the file, and a log of two conversations. *)
Definition titled (title : bytes) (r : ConvRecord) : ConvRecord :=
  MkRecord (rc_ID r) (rc_Provider r) (rc_NativeID r) (rc_Selector r) (rc_Lineage r) (rc_Origin r) title (rc_TitleUncertain r) (rc_WorkspaceRoot r)
    (rc_ArtifactPath r) (rc_ArtifactKind r) (rc_Model r) (rc_CreatedAt r) (rc_UpdatedAt r) (rc_SizeBytes r) (rc_Archived r) (rc_LatestRequestID r).

Definition fileParser (stamp : FileStamp) (title : bytes) (flag reads : bool) : Parser :=
  MkParser ProviderClaude (fun _ _ => dsFound [MkCandidate (lit "/a") [] stamp flag])
    (fun path stamp => if reads then Some (titled title (sampleRecord path [] (fs_Size stamp))) else None) None.

Definition logParser (stamp : FileStamp) : Parser :=
  MkParser ProviderCopilot (fun _ _ => dsFound [MkCandidate (lit "/log") [] stamp false]) (fun _ _ => None)
    (Some (fun input =>
       let path := cn_Path (mc_Candidate input) in
       let size := fs_Size (cn_Stamp (mc_Candidate input)) in
       Some (MkMultiResult [sampleRecord path (lit "x") 0; sampleRecord path (lit "y") size] size))).

Definition sampleScan (registry : list Parser) (prior : scanCache) : outcome scanError scanResult :=
  scan map_to_list (fun a b => bool_decide (a = b)) (fun _ => false) registry prior false.

Definition firstRegistry : list Parser := [fileParser (MkStamp 5 1) (lit "old") false true; logParser (MkStamp 7 1)].
(** The title changed, and the log grew. *)
Definition secondRegistry : list Parser := [fileParser (MkStamp 5 1) (lit "new") true true; logParser (MkStamp 9 2)].
(** The file was written and cannot be read. *)
Definition thirdRegistry : list Parser := [fileParser (MkStamp 6 3) (lit "new") false false; logParser (MkStamp 9 2)].

Lemma sample_finds stamp title flag reads logStamp prior :
  discovered [fileParser stamp title flag reads; logParser logStamp] prior =
  [(fileParser stamp title flag reads, MkCandidate (lit "/a") [] stamp flag); (logParser logStamp, MkCandidate (lit "/log") [] logStamp false)].
Proof. done. Qed.

Lemma sample_conforms last prior stamp title flag reads logStamp :
  (forall q0 d0, (q0, d0) ∈ last -> exists stamp0 title0 flag0 reads0 logStamp0,
     (q0, d0) ∈ discovered [fileParser stamp0 title0 flag0 reads0; logParser logStamp0] prior /\ (flag = false -> stamp <> stamp0 /\ stampsOf prior !! lit "/a" = Some stamp0)) ->
  conforms last prior (discovered [fileParser stamp title flag reads; logParser logStamp] prior).
Proof.
  rewrite sample_finds. intros Hlast. split.
  - cbn. apply NoDup_cons. split; [|apply NoDup_singleton]. by rewrite list_elem_of_singleton.
  - intros q d [[= -> ->]|[= -> ->]%list_elem_of_singleton]%elem_of_cons; (split_and!; [| |split; [done|refine (bool_decide_unpack _ _); by vm_compute]]).
    + done.
    + intros p st r. cbn. by destruct reads; [intros [= <-]|].
    + split; [done|]. intros candidate st result records _ _ [= <-] _. by apply same_some.
    + intros input result [= <-]. split; [by repeat constructor|]. cbn [map mr_Records]. apply NoDup_cons. split; [|apply NoDup_singleton].
      rewrite list_elem_of_singleton. intros E. unfold keyOf, recordKey in E. cbn in E. by apply app_inv_head in E.
  - intros q d q0 d0 Hd (stamp0 & title0 & flag0 & reads0 & logStamp0 & Hin & Hst)%Hlast Hp Hmd. rewrite sample_finds in Hin.
    apply elem_of_cons in Hd as [[= -> ->]|[= -> ->]%list_elem_of_singleton]; apply elem_of_cons in Hin as [[= -> ->]|[= -> ->]%list_elem_of_singleton]; try discriminate Hp; [|done].
    destruct (Hst Hmd) as [Hne Hs]. intros Hs'. exfalso. change (stampsOf prior !! lit "/a" = Some stamp) in Hs'. congruence.
Qed.

Definition scanned3 : option (scanResult * scanResult * scanResult) :=
  match sampleScan firstRegistry noCache with
  | Ok first => match sampleScan secondRegistry (cacheOf first) with
                | Ok second => match sampleScan thirdRegistry (cacheOf second) with Ok third => Some (first, second, third) | _ => None end
                | _ => None
                end
  | _ => None
  end.

(** The new title is read although the file did not change; it is kept, without a stamp, when
    the file cannot be read. *)
Lemma scans_exact_witness :
  exists first second third,
    scanned3 = Some (first, second, third) /\
    map rc_Title (sr_records second) = [lit "new"; []; []] /\
    map rc_Title (sr_records third) = [lit "new"; []; []] /\ sr_stamps third !! lit "/a" = None /\
    sameScanned (sr_records third, sr_stamps third, sr_multiStates third)
      (absorbAll (reread map_to_list (remembered map_to_list [discovered secondRegistry (cacheOf first); discovered firstRegistry noCache]))
         (discovered thirdRegistry (cacheOf second)) ([], ∅, ∅)).
Proof.
  assert (match scanned3 with
          | Some (first, second, third) => map rc_Title (sr_records second) = [lit "new"; []; []] /\ map rc_Title (sr_records third) = [lit "new"; []; []] /\
              sr_stamps third !! lit "/a" = None /\ sr_stamps second !! lit "/a" = Some (MkStamp 5 1)
          | None => False
          end) as Hrun by (vm_compute; done).
  unfold scanned3 in *. destruct (sampleScan firstRegistry noCache) as [first|e|] eqn:E1; [|done|done].
  destruct (sampleScan secondRegistry (cacheOf first)) as [second|e|] eqn:E2; [|done|done].
  destruct (sampleScan thirdRegistry (cacheOf second)) as [third|e|] eqn:E3; [|done|done]. destruct Hrun as (H2 & H3 & Hs3 & Hs2).
  exists first, second, third. split_and!; [reflexivity|exact H2|exact H3|exact Hs3|].
  assert (scans map_to_list [discovered firstRegistry noCache] (cacheOf first)) as S1.
  { apply (scans_next map_to_list (fun a b => bool_decide (a = b)) (fun _ => false) firstRegistry [] noCache false first (scans_none _)); [|exact E1]. apply sample_conforms. by intros q0 d0 ?%not_elem_of_nil. }
  assert (scans map_to_list [discovered secondRegistry (cacheOf first); discovered firstRegistry noCache] (cacheOf second)) as S2.
  { apply (scans_next map_to_list (fun a b => bool_decide (a = b)) (fun _ => false) secondRegistry _ (cacheOf first) false second S1); [|exact E2]. apply sample_conforms.
    intros q0 d0 Hin. exists (MkStamp 5 1), (lit "old"), false, true, (MkStamp 7 1). split; [exact Hin|discriminate]. }
  apply (scans_exact map_to_list (fun _ => Permutation_refl _) (fun a b => bool_decide (a = b)) (fun _ => false)
           thirdRegistry _ (cacheOf second) false third S2); [|exact E3].
  apply sample_conforms. intros q0 d0 Hin. exists (MkStamp 5 1), (lit "new"), true, true, (MkStamp 9 2). split; [exact Hin|].
  intros _. split; [discriminate|exact Hs2].
Defined.
