(* ===== verification/CvIndex.v ===== *)
(** * CvIndex: the conversation index, its files and its refresh (conversation/index.go,
      index_records.go, retained.go, lineage.go)

    The index keeps the records of the last scan and, apart from them, the records of
    conversations whose transcripts were deleted.  Both are stored in files: a cache and a
    file of retained records.  A refresh scans, moves the records of vanished conversations to
    the retained ones, writes the files and installs the result.

    The theorems: no conversation is forgotten by a refresh, by a failed one or by a restart,
    as long as the cache can be written; what is served is every known conversation once, in
    order; and two ways in which retained records do get lost. *)

From S2P Require Import Prelude GoUtf8 GoStrconv GoSort CvRecord CvScan.

Open Scope Z_scope.

(** ** Files *)

Inductive fileState := fAbsent | fUnreadable | fBytes (data : bytes).

Record cacheFile := MkCacheFile {
  cf_Version : Z;
  cf_Records : list ConvRecord;
  cf_Stamps : option (gmap bytes FileStamp);
  cf_MultiStates : gmap bytes MultiConversationScanState;
  cf_RefreshCompletedAt : Z;
}.

Record retainedFile := MkRetainedFile { rf_Version : Z; rf_Records : list ConvRecord }.

(** The JSON of the two files. *)
Class IndexCodec := {
  encodeCache : cacheFile -> option bytes;
  decodeCache : bytes -> option cacheFile;
  encodeRetained : retainedFile -> option bytes;
  decodeRetained : bytes -> option retainedFile;
}.

Record indexFiles := MkFiles { if_cache : fileState; if_retained : fileState }.

Definition cacheFormatVersion : Z := 5.
Definition retainedFormatVersion : Z := 1.
Definition nl : Byte.byte := Byte.x0a.

Inductive indexError := ixRead | ixDecode | ixVersion | ixScan (e : scanError) | ixPanic | ixContext | ixRetained | ixCache.

Section index.
Context {codec : IndexCodec}.

Definition emptyCache : cacheFile := MkCacheFile 0 [] None ∅ 0.

Definition readCache (file : fileState) : outcome indexError (cacheFile * bool) :=
  match file with
  | fAbsent => Ok (emptyCache, false)
  | fUnreadable => Fail ixRead
  | fBytes data =>
      match decodeCache data with
      | None => Fail ixDecode
      | Some cache =>
          if negb (cf_Version cache =? cacheFormatVersion) then Fail ixVersion else
          Ok (MkCacheFile (cf_Version cache) (sortRecords (cf_Records cache)) (cf_Stamps cache) (cf_MultiStates cache)
                (cf_RefreshCompletedAt cache), true)
      end
  end.

Definition readRetained (file : fileState) : outcome indexError (list ConvRecord) :=
  match file with
  | fAbsent => Ok []
  | fUnreadable => Fail ixRead
  | fBytes data =>
      match decodeRetained data with
      | None => Fail ixDecode
      | Some file => if negb (rf_Version file =? retainedFormatVersion) then Fail ixVersion else Ok (rf_Records file)
      end
  end.

(** Which steps of the write succeed. *)
Record retainedIO := MkRetainedIO {
  rio_mkdir : bool; rio_createTemp : bool; rio_write : bool; rio_sync : bool; rio_close : bool; rio_chmod : bool; rio_rename : bool;
}.

(** The new content reaches the file only by the rename. *)
Definition writeRetained (io : retainedIO) (records : list ConvRecord) (file : fileState) : fileState * bool :=
  match encodeRetained (MkRetainedFile retainedFormatVersion records) with
  | None => (file, false)
  | Some content =>
      if negb (rio_mkdir io) then (file, false) else
      if negb (rio_createTemp io) then (file, false) else
      if negb (rio_write io) then (file, false) else
      if negb (rio_sync io) then (file, false) else
      if negb (rio_close io) then (file, false) else
      if negb (rio_chmod io) then (file, false) else
      if negb (rio_rename io) then (file, false) else
      (fBytes content, true)
  end.

(** [os.WriteFile] truncates the file and writes to it: an error can leave any prefix. *)
Inductive writeFileResult := wfOk | wfOpen | wfPartial (written : nat).

Record cacheIO := MkCacheIO { cio_mkdir : bool; cio_writeFile : writeFileResult }.

Definition writeCache (io : cacheIO) (records : list ConvRecord) (stamps : gmap bytes FileStamp)
    (multiStates : gmap bytes MultiConversationScanState) (refreshCompletedAt : Z) (file : fileState) : fileState * bool :=
  if negb (cio_mkdir io) then (file, false) else
  match encodeCache (MkCacheFile cacheFormatVersion records (Some stamps) multiStates refreshCompletedAt) with
  | None => (file, false)
  | Some data =>
      match cio_writeFile io with
      | wfOk => (fBytes (data ++ [nl]), true)
      | wfOpen => (file, false)
      | wfPartial written => (fBytes (take written (data ++ [nl])), false)
      end
  end.

(** ** Retained records *)

Definition idPresent (records : list ConvRecord) (id : bytes) : bool := existsb (fun r => bool_decide (rc_ID r = id)) records.

(** The second loop: [next] so far, whose ids and those of [retained] are the keys of [kept]. *)
Fixpoint retainLoop (current : list ConvRecord) (previous : list ConvRecord) (next : list ConvRecord) (added : Z) (changed : bool)
  : list ConvRecord * Z * bool :=
  match previous with
  | [] => (next, added, changed)
  | record :: previous =>
      if bool_decide (rc_ID record = []) || idPresent current (rc_ID record) || idPresent next (rc_ID record)
      then retainLoop current previous next added changed
      else retainLoop current previous (next ++ [record]) (added + 1) true
  end.

Definition retainDropped (previous current retained : list ConvRecord) : list ConvRecord * Z * bool :=
  let next := filter (fun r => idPresent current (rc_ID r) = false) retained in
  let changed := existsb (fun r => idPresent current (rc_ID r)) retained in
  let '(next, added, changed) := retainLoop current previous next 0 changed in
  (sortRecords next, added, changed).

(** ** The index *)

Record Index := MkIndex {
  ix_includeSubagents : bool;
  ix_records : list ConvRecord;
  ix_retained : list ConvRecord;
  ix_prevRecords : gmap bytes ConvRecord;
  ix_prevStamps : option (gmap bytes FileStamp);
  ix_prevMultiStates : gmap bytes MultiConversationScanState;
  ix_lastSkippedCount : Z;
  ix_loaded : bool;
  ix_lastRefresh : Z;
  ix_cachePresent : bool;
}.

Definition NewIndex (includeSubagents : bool) : Index :=
  MkIndex includeSubagents [] [] ∅ None ∅ (-1) false 0 false.

Definition loadOnce (files : indexFiles) (idx : Index) : Index * outcome indexError unit :=
  if ix_loaded idx then (idx, Ok tt) else
  match readCache (if_cache files) with
  | Fail e => (idx, Fail e)
  | Panic => (idx, Panic)
  | Ok (cache, present) =>
      match readRetained (if_retained files) with
      | Fail e => (idx, Fail e)
      | Panic => (idx, Panic)
      | Ok retained =>
          (MkIndex (ix_includeSubagents idx) (cf_Records cache) retained (recordsByPath (cf_Records cache)) (cf_Stamps cache)
             (cf_MultiStates cache) (ix_lastSkippedCount idx) true (cf_RefreshCompletedAt cache) present, Ok tt)
      end
  end.

(** The cache that [beginRefresh] hands to the scan. *)
Definition priorCache (idx : Index) : scanCache :=
  MkScanCache (ix_prevRecords idx) (ix_prevStamps idx) (ix_prevMultiStates idx) (fun _ => false).

Definition installRefreshResult (idx : Index) (records : list ConvRecord) (result : scanResult) (retained : list ConvRecord)
    (completedAt : Z) : Index :=
  MkIndex (ix_includeSubagents idx) records retained (recordsByPath records) (Some (sr_stamps result)) (sr_multiStates result)
    (ix_lastSkippedCount idx) true completedAt true.

Definition reportSkippedSubagents (idx : Index) (records : list ConvRecord) : Index :=
  MkIndex (ix_includeSubagents idx) (ix_records idx) (ix_retained idx) (ix_prevRecords idx) (ix_prevStamps idx) (ix_prevMultiStates idx)
    (zlen (filter (fun r => IsSubagent r = true) records)) (ix_loaded idx) (ix_lastRefresh idx) (ix_cachePresent idx).

Record refreshIO := MkRefreshIO { io_retained : retainedIO; io_cache : cacheIO; io_completedAt : Z }.

(** [found] is what the scan returned, [ended] whether the context has ended after it. *)
Definition refresh (found : outcome scanError scanResult) (ended : bool) (io : refreshIO) (files : indexFiles) (idx : Index)
  : Index * indexFiles * outcome indexError unit :=
  match found with
  | Panic => (idx, files, Fail ixPanic)
  | Fail e => (idx, files, Fail (ixScan e))
  | Ok result =>
      if ended then (idx, files, Fail ixContext) else
      let records := sortRecords (sr_records result) in
      let '(retained, _, retainedChanged) := retainDropped (ix_records idx) records (ix_retained idx) in
      let '(retainedFile, written) := if retainedChanged then writeRetained (io_retained io) retained (if_retained files)
                                      else (if_retained files, true) in
      let files := MkFiles (if_cache files) retainedFile in
      if negb written then (idx, files, Fail ixRetained) else
      let '(cacheFile, written) := if sr_changed result
                                   then writeCache (io_cache io) records (sr_stamps result) (sr_multiStates result) (io_completedAt io)
                                          (if_cache files)
                                   else (if_cache files, true) in
      let files := MkFiles cacheFile retainedFile in
      if negb written then (idx, files, Fail ixCache) else
      let idx := installRefreshResult idx records result retained (io_completedAt io) in
      (if sr_changed result then reportSkippedSubagents idx records else idx, files, Ok tt)
  end.

(** [refreshWithReason] loads first; the background refresh does not. *)
Definition refreshWithReason (found : outcome scanError scanResult) (ended : bool) (io : refreshIO) (files : indexFiles) (idx : Index)
  : Index * indexFiles * outcome indexError unit :=
  match loadOnce files idx with
  | (idx, Fail e) => (idx, files, Fail e)
  | (idx, Panic) => (idx, files, Panic)
  | (idx, Ok _) => refresh found ended io files idx
  end.

(** ** Serving records *)

Definition visibleFrom (idx : Index) (records : list ConvRecord) : list ConvRecord :=
  if ix_includeSubagents idx then records else filter (fun r => IsSubagent r = false) records.

Definition visibleRecords (idx : Index) : list ConvRecord :=
  match ix_retained idx with
  | [] => visibleFrom idx (ix_records idx)
  | _ :: _ =>
      let served := ix_records idx ++ filter (fun r => idPresent (ix_records idx) (rc_ID r) = false) (ix_retained idx) in
      visibleFrom idx (sortRecords served)
  end.

Definition visibleScannedRecords (idx : Index) : list ConvRecord := visibleFrom idx (ix_records idx).

Definition List (files : indexFiles) (idx : Index) : Index * outcome indexError (list ConvRecord) :=
  match loadOnce files idx with
  | (idx, Ok _) => (idx, Ok (visibleRecords idx))
  | (idx, Fail e) => (idx, Fail e)
  | (idx, Panic) => (idx, Panic)
  end.

(** A record without a stamp gets the zero stamp. *)
Definition cloneStampedRecords (records : list ConvRecord) (stamps : option (gmap bytes FileStamp)) : list (ConvRecord * FileStamp) :=
  map (fun record => (record, default (MkStamp 0 0) (default ∅ stamps !! keyOf record))) records.

Definition ListWithStamps (files : indexFiles) (idx : Index) : Index * outcome indexError (list (ConvRecord * FileStamp)) :=
  match loadOnce files idx with
  | (idx, Ok _) => (idx, Ok (cloneStampedRecords (visibleScannedRecords idx) (ix_prevStamps idx)))
  | (idx, Fail e) => (idx, Fail e)
  | (idx, Panic) => (idx, Panic)
  end.

Definition RecordByID (idx : Index) (id : bytes) : option ConvRecord :=
  let id := TrimSpace id in
  if bool_decide (id = []) then None else
  List.find (fun record => bool_decide (rc_ID record = id) && negb (IsSubagent record && negb (ix_includeSubagents idx)))
    (ix_records idx ++ ix_retained idx).

Definition ResolveForkParent (idx : option Index) (record : ConvRecord) : option ConvRecord :=
  match idx, rc_Lineage record with
  | None, _ => None
  | _, None => None
  | Some idx, Some lineage =>
      if negb (bool_decide (ln_Kind lineage = ConversationLineageKindFork)) then None else
      match ParentConversationID record with
      | None => None
      | Some parentID => RecordByID idx parentID
      end
  end.
End index.

(** ** What is retained *)

Definition ids (records : list ConvRecord) : list bytes := map rc_ID records.

Lemma elem_of_ids records id : id ∈ ids records <-> exists r, r ∈ records /\ rc_ID r = id.
Proof. unfold ids. rewrite list_elem_of_In, in_map_iff. setoid_rewrite list_elem_of_In. naive_solver. Qed.

Lemma idPresent_spec records id : idPresent records id = true <-> id ∈ ids records.
Proof.
  unfold idPresent. rewrite existsb_exists, elem_of_ids. setoid_rewrite list_elem_of_In. setoid_rewrite bool_decide_eq_true. done.
Qed.

Lemma idPresent_false records id : idPresent records id = false <-> id ∉ ids records.
Proof. rewrite <- idPresent_spec. by destruct (idPresent records id). Qed.

Lemma ids_app l l' : ids (l ++ l') = ids l ++ ids l'.
Proof. apply map_app. Qed.

Lemma ids_sortRecords l : ids (sortRecords l) ≡ₚ ids l.
Proof. apply Permutation_map, SliceStable_perm. Qed.

Lemma elem_of_ids_sort l id : id ∈ ids (sortRecords l) <-> id ∈ ids l.
Proof. by rewrite ids_sortRecords. Qed.

Lemma retainLoop_spec current previous next added changed next' added' changed' :
  retainLoop current previous next added changed = (next', added', changed') ->
  exists extra, next' = next ++ extra /\ added' = added + zlen extra /\ changed' = (changed || negb (bool_decide (extra = []))) /\
    (forall r, r ∈ extra -> r ∈ previous) /\ NoDup (ids extra) /\
    (forall id, id ∈ ids extra <-> (id ∈ ids previous) /\ id <> [] /\ (id ∉ ids current) /\ (id ∉ ids next)).
Proof.
  revert next added changed. induction previous as [|r previous IH]; intros next added changed E; cbn [retainLoop] in E.
  { injection E as <- <- <-. exists []. rewrite app_nil_r. split_and!; try done; [rewrite zlen_nil; lia|by rewrite orb_false_r|constructor|].
    intros id. cbn. split; [by intros ?%elem_of_nil|by intros [?%elem_of_nil _]]. }
  destruct (_ || _ || _) eqn:Eb.
  - apply IH in E as (extra & -> & -> & -> & Hin & Hn & Hids). exists extra.
    split_and!; [done|done|done|intros x Hx; apply list_elem_of_further, Hin, Hx|done|].
    intros id. rewrite Hids. change (ids (r :: previous)) with (rc_ID r :: ids previous). rewrite elem_of_cons. split; [naive_solver|].
    intros ([->|Hp] & H1 & H2 & H3); [|done]. exfalso. apply orb_true_iff in Eb as [Eb|Eb]; [apply orb_true_iff in Eb as [Eb|Eb]|].
    + by apply bool_decide_eq_true in Eb.
    + by apply idPresent_spec in Eb.
    + by apply idPresent_spec in Eb.
  - apply orb_false_iff in Eb as [Eb H3]. apply orb_false_iff in Eb as [H1 H2]. apply bool_decide_eq_false in H1.
    apply idPresent_false in H2, H3.
    apply IH in E as (extra & -> & -> & -> & Hin & Hn & Hids). exists (r :: extra).
    rewrite <- app_assoc, zlen_cons. split_and!; [done|lia|by destruct changed| | |].
    + intros x Hx. apply elem_of_cons in Hx as [->|Hx]; [apply list_elem_of_here|by apply list_elem_of_further, Hin].
    + unfold ids. cbn [map]. apply NoDup_cons. split; [|done]. intros Hr. apply Hids in Hr as (_ & _ & _ & Hr).
      apply Hr. rewrite ids_app. apply elem_of_app. right. by apply list_elem_of_singleton.
    + intros id. change (ids (r :: extra)) with (rc_ID r :: ids extra). change (ids (r :: previous)) with (rc_ID r :: ids previous).
      rewrite !elem_of_cons, Hids, ids_app.
      rewrite not_elem_of_app. change (ids [r]) with [rc_ID r]. rewrite list_elem_of_singleton.
      destruct (decide (id = rc_ID r)) as [->|]; naive_solver.
Qed.

(** [retainDropped] keeps exactly the known conversations that the scan did not find. *)
Lemma retainDropped_spec previous current retained next added changed :
  retainDropped previous current retained = (next, added, changed) ->
  (forall r, r ∈ next -> r ∈ retained \/ r ∈ previous) /\
  (forall id, id ∈ ids next <-> (id ∉ ids current) /\ (id ∈ ids retained \/ (id ∈ ids previous /\ id <> []))) /\
  (changed = false -> next = sortRecords retained) /\
  (NoDup (ids retained) -> NoDup (ids next)).
Proof.
  unfold retainDropped. set (kept := filter _ retained). set (found := existsb _ retained).
  destruct (retainLoop _ _ _ _ _) as [[next' added'] changed'] eqn:E. intros [= <- <- <-].
  apply retainLoop_spec in E as (extra & -> & -> & -> & Hin & Hn & Hids).
  assert (forall id, id ∈ ids kept <-> (id ∉ ids current) /\ id ∈ ids retained) as Hkept.
  { intros id. rewrite !elem_of_ids. split.
    - intros (r & Hr & <-). apply list_elem_of_filter in Hr as [H1 H2]. apply idPresent_false in H1. rewrite elem_of_ids in H1. eauto.
    - intros (Hc & r & Hr & <-). exists r. split; [|done]. apply list_elem_of_filter. split; [|done]. apply idPresent_false. by rewrite elem_of_ids. }
  split_and!.
  - intros r Hr. unfold sortRecords in Hr. rewrite elem_of_SliceStable, elem_of_app in Hr. destruct Hr as [Hr|Hr].
    + left. by apply list_elem_of_filter in Hr as [_ Hr].
    + right. by apply Hin.
  - intros id. rewrite elem_of_ids_sort, ids_app, elem_of_app, Hids, Hkept.
    destruct (decide (id ∈ ids current)), (decide (id ∈ ids retained)); naive_solver.
  - intros Hc. apply orb_false_iff in Hc as [Hf He]. apply negb_false_iff, bool_decide_eq_true in He. subst extra. rewrite app_nil_r.
    f_equal. unfold kept. clear -Hf. unfold found in Hf. clear found. induction retained as [|r retained IH]; [done|].
    cbn [existsb] in Hf. apply orb_false_iff in Hf as [Hr Hf]. rewrite filter_cons_True by done. by rewrite IH.
  - intros Hnd. rewrite ids_sortRecords, ids_app. apply NoDup_app. split_and!; [|intros id H1 H2; apply Hids in H2 as (_ & _ & _ & H2); done|done].
    clear -Hnd. unfold kept. induction retained as [|r retained IH]; [constructor|]. unfold ids in Hnd. cbn [map] in Hnd.
    apply NoDup_cons in Hnd as [Hr Hnd]. rewrite filter_cons. destruct (decide _); [|by apply IH].
    unfold ids. cbn [map]. apply NoDup_cons. split; [|by apply IH]. intros Hx. apply Hr. fold (ids retained).
    apply elem_of_ids in Hx as (y & Hy & <-). apply list_elem_of_filter in Hy as [_ Hy]. apply elem_of_ids. eauto.
Qed.

(** ** No conversation is forgotten *)

(** The strings of the record are valid UTF-8, which JSON keeps. *)
Definition encodable (r : ConvRecord) : Prop :=
  Forall (fun s => ValidString s = true)
    ([rc_ID r; rc_NativeID r; rc_Selector r; rc_Origin r; rc_Title r; rc_WorkspaceRoot r; rc_ArtifactPath r; rc_ArtifactKind r; rc_Model r;
      rc_LatestRequestID r] ++
     match rc_Lineage r with
     | Some lineage => [ln_Kind lineage; ln_ParentNativeID lineage; ln_ParentMessageUUID lineage]
     | None => []
     end).

Class IndexCodecOk {codec : IndexCodec} : Prop := {
  cache_roundtrip f data : Forall encodable (cf_Records f) -> encodeCache f = Some data ->
    exists f', decodeCache (data ++ [nl]) = Some f' /\ cf_Version f' = cf_Version f /\ cf_Records f' = cf_Records f;
  retained_roundtrip f data : Forall encodable (rf_Records f) -> encodeRetained f = Some data -> decodeRetained data = Some f;
}.

(** The conversations the index knows. *)
Definition known (idx : Index) : list bytes := ids (ix_records idx) ++ ids (ix_retained idx).

Section durable.
Context {codec : IndexCodec} {codec_ok : IndexCodecOk}.

(** The files hold what the index holds. *)
Record inStep (idx : Index) (files : indexFiles) : Prop := {
  is_loaded : ix_loaded idx = true;
  is_cache : exists cache present, readCache (if_cache files) = Ok (cache, present) /\ cf_Records cache ≡ₚ ix_records idx;
  is_retained : exists retained, readRetained (if_retained files) = Ok retained /\ retained ≡ₚ ix_retained idx;
  is_prior : ix_prevRecords idx = recordsByPath (ix_records idx);
  is_keys : NoDup (map keyOf (ix_records idx));
  is_encodable : Forall encodable (ix_records idx ++ ix_retained idx);
}.

(** What the scan of a refresh returns: conversations with different keys, and "unchanged"
    only when they are the ones of the cache. *)
Definition plausible (idx : Index) (found : outcome scanError scanResult) : Prop :=
  forall result, found = Ok result ->
    NoDup (map keyOf (sr_records result)) /\ Forall encodable (sr_records result) /\
    (sr_changed result = false -> ix_prevRecords idx = recordsByPath (sr_records result)).

(** The index and its files over time: refreshes that may fail anywhere but in writing the
    cache, and restarts. *)
Inductive indexStep : Index * indexFiles -> Index * indexFiles -> Prop :=
| step_refresh idx files found ended io idx' files' o :
    plausible idx found -> refresh found ended io files idx = (idx', files', o) -> o <> Fail ixCache ->
    indexStep (idx, files) (idx', files')
| step_restart idx files idx' :
    loadOnce files (NewIndex (ix_includeSubagents idx)) = (idx', Ok tt) -> indexStep (idx, files) (idx', files).

Lemma recordsByPath_elem rs rs' : NoDup (map keyOf rs) -> NoDup (map keyOf rs') -> recordsByPath rs = recordsByPath rs' -> rs ≡ₚ rs'.
Proof.
  intros Hn Hn' E. apply NoDup_Permutation; [by eapply NoDup_fmap_1|by eapply NoDup_fmap_1|].
  intros r. transitivity (recordsByPath rs !! keyOf r = Some r); [|rewrite E]; rewrite recordsByPath_spec by done; naive_solver.
Qed.

Lemma loadOnce_inStep files includeSubagents idx idx' : inStep idx files -> loadOnce files (NewIndex includeSubagents) = (idx', Ok tt) ->
  inStep idx' files /\ ix_records idx' ≡ₚ ix_records idx /\ ix_retained idx' ≡ₚ ix_retained idx.
Proof.
  intros [Hl (cache & present & Hc & Hcr) (retained & Hr & Hrr) Hp Hk He]. unfold loadOnce. cbn [ix_loaded NewIndex]. rewrite Hc, Hr.
  intros [= <-]. cbn. split_and!; [|done|done]. split; cbn; [done|by exists cache, present|by exists retained|done| |by rewrite Hcr, Hrr].
  by rewrite (Permutation_map keyOf Hcr).
Qed.

Lemma writeRetained_cases io records file file' ok : Forall encodable records -> writeRetained io records file = (file', ok) ->
  if ok then readRetained file' = Ok records else file' = file.
Proof.
  intros He. unfold writeRetained. destruct (encodeRetained _) as [content|] eqn:E; [|by intros [= <- <-]].
  repeat (case_match; [by intros [= <- <-]|]). intros [= <- <-]. cbn. by rewrite (retained_roundtrip (MkRetainedFile _ records) _ He E).
Qed.

Lemma writeCache_cases io records stamps multi at_ file file' : Forall encodable records ->
  writeCache io records stamps multi at_ file = (file', true) ->
  exists cache, readCache file' = Ok (cache, true) /\ cf_Records cache = sortRecords records.
Proof.
  intros He. unfold writeCache. destruct (cio_mkdir io); cbn [negb]; [|done]. destruct (encodeCache _) as [data|] eqn:E; [|done].
  destruct (cio_writeFile io); [|done|done]. intros [= <-]. destruct (cache_roundtrip (MkCacheFile _ records _ _ _) _ He E) as (f & Hd & Hv & Hr).
  cbn [readCache]. rewrite Hd. cbn in Hv, Hr. rewrite Hv. cbn. eexists. split; [done|]. cbn. by rewrite Hr.
Qed.

Lemma elem_of_known idx id : id ∈ known idx <-> id ∈ ids (ix_records idx) \/ id ∈ ids (ix_retained idx).
Proof. apply elem_of_app. Qed.

(** The part of a refresh that computes and writes the retained records. *)
Lemma retained_stage idx files records io retained added changed retFile written :
  inStep idx files -> retainDropped (ix_records idx) records (ix_retained idx) = (retained, added, changed) ->
  (if changed then writeRetained io retained (if_retained files) else (if_retained files, true)) = (retFile, written) ->
  (forall id, id <> [] -> id ∈ known idx -> id ∈ ids records \/ id ∈ ids retained) /\ Forall encodable retained /\
  if written then exists r, readRetained retFile = Ok r /\ r ≡ₚ retained else retFile = if_retained files.
Proof.
  intros [_ _ (old & Hor & Horr) _ _ He] Er Ew. apply retainDropped_spec in Er as (Hsub & Hids & Hsame & _).
  assert (Forall encodable retained) as Hencr.
  { rewrite Forall_forall in *. intros r Hr. apply He, elem_of_app. apply Hsub in Hr. tauto. }
  split_and!; [|done|].
  - intros id Hne Hid. apply elem_of_known in Hid. destruct (decide (id ∈ ids records)); [by left|right]. apply Hids. tauto.
  - destruct changed; [apply writeRetained_cases in Ew; [|done]; destruct written; eauto|]. injection Ew as <- <-.
    exists old. split; [done|]. rewrite Horr, Hsame by done. symmetry. apply SliceStable_perm.
Qed.

Lemma refresh_inStep idx files found ended io idx' files' o :
  inStep idx files -> plausible idx found -> refresh found ended io files idx = (idx', files', o) -> o <> Fail ixCache ->
  inStep idx' files' /\ forall id, id <> [] -> id ∈ known idx -> id ∈ known idx'.
Proof.
  intros Hin Hpl E Ho. unfold refresh in E. destruct found as [result|e|]; [|by injection E as <- <- <-..].
  destruct ended; [by injection E as <- <- <-|]. destruct (Hpl result eq_refl) as (Hkeys & Henc & Hun). clear Hpl.
  assert (sortRecords (sr_records result) ≡ₚ sr_records result) as Hperm by apply SliceStable_perm.
  set (records := sortRecords (sr_records result)) in *.
  destruct (retainDropped _ _ _) as [[retained added] changed] eqn:Er.
  destruct (if changed then _ else _) as [retFile written] eqn:Ew.
  destruct (retained_stage _ _ _ _ _ _ _ _ _ Hin Er Ew) as (Hknown & Hencr & Hret).
  assert (Forall encodable records) as Hencs by (by rewrite Hperm). destruct Hin as [Hl Hcache Hold Hprior Hk He].
  destruct written; cbn [negb] in E; [|injection E as <- <- <-; subst retFile; by destruct files].
  destruct (if sr_changed result then _ else _) as [cacheFile written] eqn:Ec.
  destruct written; cbn [negb] in E; [|by injection E as <- <- <-].
  assert (exists cache present, readCache cacheFile = Ok (cache, present) /\ cf_Records cache ≡ₚ records) as Hcf.
  { destruct (sr_changed result).
    - apply writeCache_cases in Ec as (cache & Hc & Hr); [|done]. exists cache, true. split; [done|]. rewrite Hr. apply SliceStable_perm.
    - injection Ec as <-. destruct Hcache as (cache & present & Hc & Hr). exists cache, present. split; [done|].
      rewrite Hr, Hperm. apply recordsByPath_elem; [done|done|]. by rewrite <- Hprior, Hun. }
  assert (inStep (installRefreshResult idx records result retained (io_completedAt io)) (MkFiles cacheFile retFile)) as Hnew.
  { split; cbn; [done|done|done|done|by rewrite (Permutation_map keyOf Hperm)|by apply Forall_app]. }
  destruct (sr_changed result); injection E as <- <- <-; (split; [|intros id H1 H2; apply elem_of_known; by apply Hknown]); [|done].
  destruct Hnew. by split.
Qed.

(** C10. No conversation is forgotten.  Through any sequence of refreshes, of refreshes that fail
    before the cache is written, and of restarts, every conversation that the index knew,
    found by a scan or retained, is still known: it is scanned or retained. *)
Theorem index_never_forgets idx files idx' files' id :
  inStep idx files -> rtc indexStep (idx, files) (idx', files') -> id <> [] -> id ∈ known idx -> id ∈ known idx'.
Proof.
  intros Hin Hsteps Hne. remember (idx, files) as a eqn:Ea. remember (idx', files') as b eqn:Eb.
  revert idx files Ea Hin. induction Hsteps as [a|a m b Hstep _ IH]; intros idx files -> Hin Hid.
  { by injection Eb as <- <-. }
  inversion Hstep as [i f found ended io i' f' o Hpl Er Ho E1 E2|i f i' Hl E1 E2]; subst.
  - destruct (refresh_inStep _ _ _ _ _ _ _ _ Hin Hpl Er Ho) as [Hin' Hk]. by eapply IH; eauto.
  - destruct (loadOnce_inStep _ _ _ _ Hin Hl) as (Hin' & Hr & Ht). eapply IH; [done|done|done|].
    rewrite elem_of_known. unfold ids. rewrite (Permutation_map rc_ID Hr), (Permutation_map rc_ID Ht). by apply elem_of_known.
Qed.

(** When only the cache cannot be written, nothing deleted is lost either: the retained file
    holds every conversation the index knew, unless the scan has just found its transcript. *)
Theorem refresh_cache_failure idx files result ended io idx' files' id :
  inStep idx files -> refresh (Ok result) ended io files idx = (idx', files', Fail ixCache) ->
  id <> [] -> id ∈ known idx -> id ∉ ids (sr_records result) ->
  idx' = idx /\ exists retained, readRetained (if_retained files') = Ok retained /\ id ∈ ids retained.
Proof.
  intros Hin E Hne Hid Hnew. unfold refresh in E. destruct ended; [done|]. set (records := sortRecords (sr_records result)) in *.
  destruct (retainDropped _ _ _) as [[retained added] changed] eqn:Er.
  destruct (if changed then _ else _) as [retFile written] eqn:Ew.
  destruct (retained_stage _ _ _ _ _ _ _ _ _ Hin Er Ew) as (Hknown & _ & Hret). destruct written; cbn [negb] in E; [|done].
  destruct (if sr_changed result then _ else _) as [cacheFile written]. destruct written; cbn [negb] in E; [done|].
  injection E as <- <-. split; [done|]. destruct Hret as (r & Hr & Hrr). exists r. split; [done|].
  unfold ids. rewrite (Permutation_map rc_ID Hrr). destruct (Hknown id Hne Hid) as [H|H]; [|done].
  unfold records in H. by rewrite elem_of_ids_sort in H.
Qed.

(** The scan of the index gives plausible results. *)
Lemma scan_plausible mapOrder deepEqual ctxErr registry idx ended :
  (forall m, mapOrder m ≡ₚ map_to_list m) -> (forall a b, deepEqual a b = true -> a = b) ->
  wellKeyed (ix_prevRecords idx) ->
  NoDup (map (fun d : Parser * ScanCandidate => cn_Path d.2) (discovered registry (priorCache idx))) ->
  (forall q d, (q, d) ∈ discovered registry (priorCache idx) -> named q /\ plainCandidate d) ->
  (forall result, scan mapOrder deepEqual ctxErr registry (priorCache idx) ended = Ok result -> Forall encodable (sr_records result)) ->
  plausible idx (scan mapOrder deepEqual ctxErr registry (priorCache idx) ended).
Proof.
  intros Hmo Hde Hk Hn Hc He result E. split_and!; [|by apply He|].
  - pose proof (absorbAll_keys (fun p c => scanCandidate mapOrder p c (priorCache idx)) (discovered registry (priorCache idx)) Hn) as Hkeys.
    rewrite (scan_ok mapOrder deepEqual ctxErr registry (priorCache idx) ended result (fun _ => eq_refl) E) in Hkeys. apply Hkeys. intros q d Hd. destruct (Hc q d Hd). split; [|done].
    by apply scanCandidate_of.
  - unfold scan in E. destruct (scanProviders _ _ _ _ _) as [[[out stamps] multi]| |]; cbn [mbind outcome_bind] in E; [|done|done].
    destruct ended; [done|]. injection E as <-. cbn. rewrite !orb_false_iff. intros [[[_ H] _] _]. apply negb_false_iff in H.
    by apply (mapsEqualFunc_eq deepEqual).
Qed.

(** ** Two losses *)

Definition allRetained : retainedIO := MkRetainedIO true true true true true true true.
Definition goodIO (completedAt : Z) : refreshIO := MkRefreshIO allRetained (MkCacheIO true wfOk) completedAt.
Definition cacheFullIO (completedAt : Z) : refreshIO := MkRefreshIO allRetained (MkCacheIO true wfOpen) completedAt.

Definition foundRecords (changed : bool) (records : list ConvRecord) : outcome scanError scanResult :=
  Ok (MkScanResult changed records ∅ ∅).

(** The index of a store whose only conversation [x] was deleted. *)
Definition onlyRetained (x : ConvRecord) : Index := MkIndex true [] [x] ∅ (Some ∅) ∅ (-1) true 0 true.

Lemma retainDropped_found x : rc_ID x <> [] -> retainDropped [] [x] [x] = ([], 0, true).
Proof.
  intros _. unfold retainDropped. assert (idPresent [x] (rc_ID x) = true) as H.
  { apply idPresent_spec. by apply list_elem_of_singleton. }
  rewrite filter_cons_False by (by rewrite H). cbn [existsb filter list_filter]. rewrite H. done.
Qed.

(** The retained records in memory and in the file can part.  The transcript of a retained
    conversation [x] comes back, and the refresh that finds it removes [x] from the retained
    file and then cannot write the cache: in memory nothing changes.  The transcript goes away
    again; the next refresh sees no difference to what is in memory and writes nothing.  Now
    the index serves [x], and after a restart nothing remains of it. *)
Theorem retained_lost_by_cache_failure x cacheData emptyData files t1 t2 :
  rc_ID x <> [] -> if_cache files = fBytes cacheData ->
  (exists cache, readCache (fBytes cacheData) = Ok (cache, true) /\ cf_Records cache = []) ->
  readRetained (if_retained files) = Ok [x] ->
  encodeRetained (MkRetainedFile retainedFormatVersion []) = Some emptyData ->
  (exists data, encodeCache (MkCacheFile cacheFormatVersion [x] (Some ∅) ∅ t1) = Some data) ->
  let step1 := refresh (foundRecords true [x]) false (cacheFullIO t1) files (onlyRetained x) in
  let step2 := refresh (foundRecords false []) false (goodIO t2) step1.1.2 step1.1.1 in
  let restarted := loadOnce step2.1.2 (NewIndex true) in
  step1.2 = Fail ixCache /\ step2.2 = Ok tt /\ restarted.2 = Ok tt /\
  known step2.1.1 = [rc_ID x] /\ known restarted.1 = [].
Proof.
  intros Hx Hc (cache & Hrc & Hrec) Hr He (data & Hd). cbn zeta.
  assert (refresh (foundRecords true [x]) false (cacheFullIO t1) files (onlyRetained x)
          = (onlyRetained x, MkFiles (fBytes cacheData) (fBytes emptyData), Fail ixCache)) as ->.
  { unfold refresh, foundRecords. cbn [sr_records sr_changed sr_stamps sr_multiStates ix_records ix_retained onlyRetained].
    change (sortRecords [x]) with [x]. rewrite (retainDropped_found x Hx). unfold writeRetained. rewrite He. cbn. by rewrite Hc, Hd. }
  cbn [fst snd]. assert (refresh (foundRecords false []) false (goodIO t2) (MkFiles (fBytes cacheData) (fBytes emptyData)) (onlyRetained x)
          = (MkIndex true [] [x] ∅ (Some ∅) ∅ (-1) true t2 true, MkFiles (fBytes cacheData) (fBytes emptyData), Ok tt)) as -> by done.
  cbn [fst snd]. assert (readRetained (fBytes emptyData) = Ok []) as Hr0.
  { cbn [readRetained]. by rewrite (retained_roundtrip (MkRetainedFile _ []) _ (Forall_nil_2 _) He). }
  unfold loadOnce. cbn [ix_loaded NewIndex if_cache if_retained]. rewrite Hrc, Hr0. cbn. unfold known. cbn. by rewrite Hrec.
Qed.

(** A load that failed is not repeated before the background refresh.  With an unreadable
    cache the retained file is not read either; the refresh installs an index without
    retained records and marks it loaded, and the next refresh that retains a conversation
    overwrites the file: the conversations retained before are gone. *)
Theorem retained_lost_by_failed_load x y files e data1 data2 t1 t2 :
  rc_ID y <> [] -> rc_ID x <> rc_ID y -> encodable y ->
  readCache (if_cache files) = Fail e -> readRetained (if_retained files) = Ok [x] ->
  encodeCache (MkCacheFile cacheFormatVersion [y] (Some ∅) ∅ t1) = Some data1 ->
  encodeRetained (MkRetainedFile retainedFormatVersion [y]) = Some data2 ->
  let loaded := loadOnce files (NewIndex true) in
  let step1 := refresh (foundRecords true [y]) false (goodIO t1) files loaded.1 in
  let step2 := refresh (foundRecords false []) false (goodIO t2) step1.1.2 step1.1.1 in
  loaded.2 = Fail e /\ step1.2 = Ok tt /\ step2.2 = Ok tt /\
  readRetained (if_retained step2.1.2) = Ok [y] /\ known step2.1.1 = [rc_ID y].
Proof.
  intros Hy Hxy Henc Hc Hr Hd1 Hd2. cbn zeta.
  assert (loadOnce files (NewIndex true) = (NewIndex true, Fail e)) as -> by (unfold loadOnce; cbn; by rewrite Hc).
  cbn [fst snd]. assert (refresh (foundRecords true [y]) false (goodIO t1) files (NewIndex true)
    = (reportSkippedSubagents (MkIndex true [y] [] (recordsByPath [y]) (Some ∅) ∅ (-1) true t1 true) [y],
       MkFiles (fBytes (data1 ++ [nl])) (if_retained files), Ok tt)) as ->.
  { unfold refresh, foundRecords. cbn [sr_records sr_changed sr_stamps sr_multiStates]. change (sortRecords [y]) with [y].
    cbn -[recordsByPath reportSkippedSubagents]. unfold writeCache. cbn [io_cache goodIO cio_mkdir cio_writeFile io_completedAt negb]. rewrite Hd1.
    cbn -[recordsByPath reportSkippedSubagents]. done. }
  cbn [fst snd]. unfold refresh, foundRecords. cbn [sr_records sr_changed sr_stamps sr_multiStates ix_records ix_retained reportSkippedSubagents].
  assert (retainDropped [y] (sortRecords []) [] = ([y], 1, true)) as ->.
  { unfold retainDropped. cbn [filter list_filter existsb retainLoop]. rewrite (bool_decide_eq_false_2 (rc_ID y = [])) by done. done. }
  unfold writeRetained. rewrite Hd2. cbn. split_and!; try done.
  by rewrite (retained_roundtrip (MkRetainedFile retainedFormatVersion [y]) data2 (proj2 (Forall_singleton _ _) Henc) Hd2).
Qed.
End durable.

(** ** What is served *)

Definition hidden (idx : Index) (r : ConvRecord) : bool := IsSubagent r && negb (ix_includeSubagents idx).

Lemma elem_of_visibleFrom idx records r : r ∈ visibleFrom idx records <-> r ∈ records /\ hidden idx r = false.
Proof.
  unfold visibleFrom, hidden. destruct (ix_includeSubagents idx); cbn.
  - rewrite andb_false_r. tauto.
  - rewrite list_elem_of_filter, andb_true_r. tauto.
Qed.

Lemma sublist_sorted {A} (R : A -> A -> Prop) (P : A -> Prop) `{!forall x, Decision (P x)} l :
  StronglySorted R l -> StronglySorted R (filter P l).
Proof.
  induction 1 as [|x l Hs IH Hf]; [constructor|]. rewrite filter_cons. destruct (decide _); [|done]. constructor; [done|].
  rewrite Forall_forall in *. intros y Hy. apply list_elem_of_filter in Hy as [_ Hy]. by apply Hf.
Qed.

(** Listing serves every known conversation once: the scanned ones, and the retained ones that
    were not scanned again, except subagent conversations unless they are asked for, in the
    order of the last update. *)
Theorem visibleRecords_exact idx :
  StronglySorted (inOrder recordLess) (ix_records idx) ->
  (forall r, r ∈ visibleRecords idx <->
     (r ∈ ix_records idx \/ (r ∈ ix_retained idx /\ rc_ID r ∉ ids (ix_records idx))) /\ hidden idx r = false) /\
  StronglySorted (inOrder recordLess) (visibleRecords idx) /\
  (NoDup (ids (ix_records idx)) -> NoDup (ids (ix_retained idx)) -> NoDup (ids (visibleRecords idx))).
Proof.
  intros Hs. unfold visibleRecords. destruct (ix_retained idx) as [|x retained] eqn:Er.
  - split_and!.
    + intros r. rewrite elem_of_visibleFrom. split; [tauto|]. intros [[?|[H _]] ?]; [done|]. by apply elem_of_nil in H.
    + unfold visibleFrom. destruct (ix_includeSubagents idx); [done|]. by apply sublist_sorted.
    + intros H _. unfold visibleFrom. destruct (ix_includeSubagents idx); [done|].
      eapply sublist_NoDup; [exact H|]. apply (fmap_sublist rc_ID), sublist_filter.
  - rewrite <- Er. clear Er. set (fresh := filter _ (ix_retained idx)).
    assert (forall r, r ∈ fresh <-> r ∈ ix_retained idx /\ rc_ID r ∉ ids (ix_records idx)) as Hfresh.
    { intros r. unfold fresh. rewrite list_elem_of_filter, idPresent_false. tauto. }
    pose proof (SliceStable_sorted recordLess (ix_records idx ++ fresh)) as Hsort. split_and!.
    + intros r. rewrite elem_of_visibleFrom. unfold sortRecords. by rewrite elem_of_SliceStable, elem_of_app, Hfresh.
    + unfold visibleFrom. destruct (ix_includeSubagents idx); [done|]. by apply sublist_sorted.
    + intros H1 H2. assert (NoDup (ids (sortRecords (ix_records idx ++ fresh)))) as Hn.
      { rewrite ids_sortRecords, ids_app. apply NoDup_app. split_and!; [done| |].
        - intros id Hid Hid'. apply elem_of_ids in Hid' as (r & Hr & <-). by apply Hfresh in Hr as [_ Hr].
        - eapply sublist_NoDup; [exact H2|]. apply (fmap_sublist rc_ID), sublist_filter. }
      unfold visibleFrom. destruct (ix_includeSubagents idx); [done|].
      eapply sublist_NoDup; [exact Hn|]. apply (fmap_sublist rc_ID), sublist_filter.
Qed.

(** ** Examples *)

(** A codec: records are numbered, and a number is written as its bits. *)
#[local] Instance Provider_countable : Countable Provider.
Proof.
  refine (inj_countable (fun p => Z.to_nat (providerValue p))
    (fun n => List.find (fun p => Nat.eqb (Z.to_nat (providerValue p)) n)
       [ProviderUnspecified; ProviderClaude; ProviderCodex; ProviderAnthropic; ProviderOpenAICompat; ProviderMITM; ProviderArtifact;
        ProviderCursor; ProviderConductor; ProviderZed; ProviderCopilot]) _).
  by intros [].
Defined.

#[local] Instance Lineage_countable : Countable Lineage.
Proof.
  refine (inj_countable' (fun l => (ln_Kind l, ln_ParentProvider l, ln_ParentNativeID l, ln_ParentMessageUUID l))
    (fun '(a, b, c, d) => MkLineage a b c d) _).
  by intros [].
Defined.

#[local] Instance ConvRecord_countable : Countable ConvRecord.
Proof.
  refine (inj_countable' (fun r => ((rc_ID r, rc_Provider r, rc_NativeID r, rc_Selector r, rc_Lineage r, rc_Origin r),
      (rc_Title r, rc_TitleUncertain r, rc_WorkspaceRoot r, rc_ArtifactPath r, rc_ArtifactKind r, rc_Model r),
      (rc_CreatedAt r, rc_UpdatedAt r, rc_SizeBytes r, rc_Archived r, rc_LatestRequestID r)))
    (fun '((a, b, c, d, e, f), (g, h, i, j, k, l), (m, n, o, p, q)) => MkRecord a b c d e f g h i j k l m n o p q) _).
  by intros [].
Defined.

Fixpoint bits (p : positive) : bytes :=
  match p with
  | xH => []
  | xO p => Byte.x00 :: bits p
  | xI p => Byte.x01 :: bits p
  end.

Fixpoint ofBits (s : bytes) : positive :=
  match s with
  | Byte.x00 :: s => xO (ofBits s)
  | Byte.x01 :: s => xI (ofBits s)
  | _ => xH
  end.

Lemma ofBits_bits p : ofBits (bits p) = p /\ ofBits (bits p ++ [nl]) = p.
Proof. induction p as [p IH|p IH|]; cbn; [destruct IH as [-> ->]..|]; done. Qed.

#[local] Instance numberCodec : IndexCodec := {
  encodeCache f := if cf_Version f =? cacheFormatVersion then Some (bits (encode (cf_Records f))) else None;
  decodeCache data := (fun records => MkCacheFile cacheFormatVersion records (Some ∅) ∅ 0) <$> decode (ofBits data);
  encodeRetained f := if rf_Version f =? retainedFormatVersion then Some (bits (encode (rf_Records f))) else None;
  decodeRetained data := MkRetainedFile retainedFormatVersion <$> decode (ofBits data);
}.

#[local] Instance numberCodec_ok : IndexCodecOk.
Proof.
  split.
  - intros f data _. cbn. destruct (Z.eqb_spec (cf_Version f) cacheFormatVersion) as [Hv|]; [|done]. intros [= <-].
    destruct (ofBits_bits (encode (cf_Records f))) as [_ ->]. rewrite decode_encode. by eexists.
  - intros f data _. cbn. destruct (Z.eqb_spec (rf_Version f) retainedFormatVersion) as [Hv|]; [|done]. intros [= <-].
    destruct (ofBits_bits (encode (rf_Records f))) as [-> _]. rewrite decode_encode. cbn. rewrite <- Hv. by destruct f.
Qed.

Definition recordA : ConvRecord := sampleRecord (lit "/a") [] 1.
Definition recordB : ConvRecord := sampleRecord (lit "/b") [] 2.

Lemma sample_encodable : encodable recordA /\ encodable recordB.
Proof. split; repeat constructor. Qed.

Definition cacheWith (records : list ConvRecord) : fileState := fBytes (bits (encode records)).

(** An index that has scanned [recordA] and retains nothing. *)
Definition scannedA : Index := MkIndex true [recordA] [] (recordsByPath [recordA]) (Some ∅) ∅ (-1) true 0 true.
Definition filesA : indexFiles := MkFiles (cacheWith [recordA]) fAbsent.

Lemma readCache_with records : readCache (cacheWith records) = Ok (MkCacheFile cacheFormatVersion (sortRecords records) (Some ∅) ∅ 0, true).
Proof. unfold readCache, cacheWith. cbn. destruct (ofBits_bits (encode records)) as [-> _]. by rewrite decode_encode. Qed.

Lemma scannedA_inStep : inStep scannedA filesA.
Proof.
  split; [done|eexists _, _; split; [apply readCache_with|done]|by exists []|done|apply NoDup_singleton|].
  apply Forall_singleton, sample_encodable.
Qed.

(** Deleting a transcript retains its conversation, over a restart. *)
Lemma index_never_forgets_witness :
  exists idx files, rtc indexStep (scannedA, filesA) (idx, files) /\ ix_records idx = [] /\ rc_ID recordA ∈ known idx.
Proof.
  destruct (refresh (foundRecords true []) false (goodIO 1) filesA scannedA) as [[idx1 files1] o1] eqn:E1.
  assert (indexStep (scannedA, filesA) (idx1, files1)) as S1.
  { apply (step_refresh _ _ (foundRecords true []) false (goodIO 1) _ _ o1); [|exact E1|vm_compute in E1; by injection E1 as <- <- <-].
    intros result [= <-]. split_and!; [constructor|constructor|done]. }
  exists idx1, files1. split_and!.
  - by apply rtc_once.
  - vm_compute in E1. by injection E1 as <- <- <-.
  - apply (index_never_forgets scannedA filesA idx1 files1 (rc_ID recordA)); [apply scannedA_inStep|by apply rtc_once|done|].
    apply list_elem_of_here.
Defined.

Lemma refresh_cache_failure_witness :
  exists files', refresh (foundRecords true []) false (cacheFullIO 1) filesA scannedA = (scannedA, files', Fail ixCache) /\
    exists retained, readRetained (if_retained files') = Ok retained /\ rc_ID recordA ∈ ids retained.
Proof.
  eexists. split; [reflexivity|].
  apply (refresh_cache_failure scannedA filesA (MkScanResult true [] ∅ ∅) false (cacheFullIO 1) scannedA _ (rc_ID recordA));
    [apply scannedA_inStep|reflexivity|done|apply list_elem_of_here|by intros ?%elem_of_nil].
Defined.

Lemma retained_lost_by_cache_failure_witness :
  exists files, let step1 := refresh (foundRecords true [recordA]) false (cacheFullIO 1) files (onlyRetained recordA) in
    let step2 := refresh (foundRecords false []) false (goodIO 2) step1.1.2 step1.1.1 in
    let restarted := loadOnce step2.1.2 (NewIndex true) in
    step1.2 = Fail ixCache /\ step2.2 = Ok tt /\ restarted.2 = Ok tt /\
    known step2.1.1 = [rc_ID recordA] /\ known restarted.1 = [].
Proof.
  exists (MkFiles (cacheWith []) (fBytes (bits (encode [recordA])))).
  apply (retained_lost_by_cache_failure recordA (bits (encode (@nil ConvRecord))) (bits (encode (@nil ConvRecord)))).
  - done.
  - reflexivity.
  - eexists. split; [apply (readCache_with [])|reflexivity].
  - cbn. destruct (ofBits_bits (encode [recordA])) as [-> _]. by rewrite decode_encode.
  - reflexivity.
  - eexists. reflexivity.
Defined.

Lemma retained_lost_by_failed_load_witness :
  exists files, let loaded := loadOnce files (NewIndex true) in
    let step1 := refresh (foundRecords true [recordB]) false (goodIO 1) files loaded.1 in
    let step2 := refresh (foundRecords false []) false (goodIO 2) step1.1.2 step1.1.1 in
    readRetained (if_retained files) = Ok [recordA] /\
    (loaded.2 = Fail ixRead /\ step1.2 = Ok tt /\ step2.2 = Ok tt /\
     readRetained (if_retained step2.1.2) = Ok [recordB] /\ known step2.1.1 = [rc_ID recordB]).
Proof.
  exists (MkFiles fUnreadable (fBytes (bits (encode [recordA])))).
  assert (readRetained (fBytes (bits (encode [recordA]))) = Ok [recordA]) as Hr.
  { cbn. destruct (ofBits_bits (encode [recordA])) as [-> _]. by rewrite decode_encode. }
  split; [exact Hr|].
  apply (retained_lost_by_failed_load recordA recordB _ ixRead (bits (encode [recordB])) (bits (encode [recordB])));
    [done|done|apply sample_encodable|reflexivity|exact Hr|reflexivity|reflexivity].
Defined.

Lemma visibleRecords_exact_witness :
  ids (visibleRecords (MkIndex true [recordA] [recordB] ∅ None ∅ 0 true 0 true)) = [lit "/a"; lit "/b"] /\
  StronglySorted (inOrder recordLess) (visibleRecords (MkIndex true [recordA] [recordB] ∅ None ∅ 0 true 0 true)).
Proof.
  split; [reflexivity|].
  apply (visibleRecords_exact (MkIndex true [recordA] [recordB] ∅ None ∅ 0 true 0 true)). repeat constructor.
Defined.
