(* ===== verification/CvRefresh.v ===== *)
(** * CvRefresh: one refresh at a time (conversation/index.go [beginRefresh], [endRefresh],
      [waitForRefresh], [refreshWithReason], [refreshAsync], the deferred wait of [Start])

    A refresh claims the only slot under the mutex.  A caller that finds the slot taken waits
    for the refresh in flight and reports its outcome; the background worker goes away
    instead.  The end of a refresh writes its outcome, frees the slot under the mutex and
    closes the channel, in three steps.  The step relation has these steps, for any number of
    callers.

    The theorems: two refreshes never run at the same time; who waits, waits for a refresh
    that exists, and gets the outcome of that refresh; nobody waits forever, because the
    refresh that is waited for has an owner that can go on. *)

From S2P Require Import Prelude.

(** The outcome of a refresh: [None] is a nil error. *)
Definition result := option nat.

(** A [refreshRun]: its error and whether its channel is closed. *)
Record run := MkRun { run_err : result; run_closed : bool }.

Inductive callerKind := ckSync | ckAsync | ckStop.

Inductive callerPC :=
| pcIdle (kind : callerKind)
| pcRunning (r : nat)                  (** between [beginRefresh] and the end of [refresh] *)
| pcEnding (r : nat) (err : result)    (** [refresh] has returned *)
| pcWritten (r : nat) (err : result)   (** [run.err] is written *)
| pcReleased (r : nat) (err : result)  (** the slot is free, the channel still open *)
| pcWaiting (r : nat)
| pcReturned (err : result)
| pcCanceled.

Record state := MkState {
  st_refreshing : bool;
  st_refreshRun : option nat;
  st_runs : list run;
  st_callers : list callerPC;
}.

Definition setCaller (c : nat) (pc : callerPC) (s : state) : state :=
  MkState (st_refreshing s) (st_refreshRun s) (st_runs s) (<[c := pc]> (st_callers s)).

(** [beginRefresh]: the run, and whether it was claimed. *)
Definition beginRefresh (s : state) : option nat * bool * state :=
  if st_refreshing s then (st_refreshRun s, false, s)
  else (Some (length (st_runs s)), true,
        MkState true (Some (length (st_runs s))) (st_runs s ++ [MkRun None false]) (st_callers s)).

(** The critical section of [endRefresh]. *)
Definition release (r : nat) (s : state) : state :=
  MkState false (if bool_decide (st_refreshRun s = Some r) then None else st_refreshRun s) (st_runs s) (st_callers s).

Definition setErr (r : nat) (err : result) (s : state) : state :=
  MkState (st_refreshing s) (st_refreshRun s) (alter (fun x => MkRun err (run_closed x)) r (st_runs s)) (st_callers s).

Definition closeRun (r : nat) (s : state) : state :=
  MkState (st_refreshing s) (st_refreshRun s) (alter (fun x => MkRun (run_err x) true) r (st_runs s)) (st_callers s).

Inductive step : state -> state -> Prop :=
| step_claim s c kind r s' :
    st_callers s !! c = Some (pcIdle kind) -> kind <> ckStop -> beginRefresh s = (Some r, true, s') ->
    step s (setCaller c (pcRunning r) s')
| step_join s c r s' :
    st_callers s !! c = Some (pcIdle ckSync) -> beginRefresh s = (Some r, false, s') ->
    step s (setCaller c (pcWaiting r) s')
| step_join_nil s c s' :
    st_callers s !! c = Some (pcIdle ckSync) -> beginRefresh s = (None, false, s') ->
    step s (setCaller c (pcReturned None) s')
| step_skip s c r s' :
    st_callers s !! c = Some (pcIdle ckAsync) -> beginRefresh s = (r, false, s') ->
    step s (setCaller c (pcReturned None) s')
| step_stop s c r :
    st_callers s !! c = Some (pcIdle ckStop) -> st_refreshRun s = Some r -> step s (setCaller c (pcWaiting r) s)
| step_stop_nil s c :
    st_callers s !! c = Some (pcIdle ckStop) -> st_refreshRun s = None -> step s (setCaller c (pcReturned None) s)
| step_finish s c r err :
    st_callers s !! c = Some (pcRunning r) -> step s (setCaller c (pcEnding r err) s)
| step_write s c r err :
    st_callers s !! c = Some (pcEnding r err) -> step s (setCaller c (pcWritten r err) (setErr r err s))
| step_release s c r err :
    st_callers s !! c = Some (pcWritten r err) -> step s (setCaller c (pcReleased r err) (release r s))
| step_close s c r err :
    st_callers s !! c = Some (pcReleased r err) -> step s (setCaller c (pcReturned err) (closeRun r s))
| step_wake s c r x :
    st_callers s !! c = Some (pcWaiting r) -> st_runs s !! r = Some x -> run_closed x = true ->
    step s (setCaller c (pcReturned (run_err x)) s)
| step_cancel s c r :
    st_callers s !! c = Some (pcWaiting r) -> step s (setCaller c pcCanceled s).

Definition initial (kinds : list callerKind) : state := MkState false None [] (map pcIdle kinds).

Definition reachable (kinds : list callerKind) (s : state) : Prop := rtc step (initial kinds) s.

(** ** The invariant *)

(** The run a caller owns, and the run whose slot it holds. *)
Definition ownedRun (pc : callerPC) : option nat :=
  match pc with
  | pcRunning r | pcEnding r _ | pcWritten r _ | pcReleased r _ => Some r
  | _ => None
  end.

Definition heldRun (pc : callerPC) : option nat :=
  match pc with
  | pcRunning r | pcEnding r _ | pcWritten r _ => Some r
  | _ => None
  end.

(** The outcome that the owner has written. *)
Definition writtenErr (pc : callerPC) : option result :=
  match pc with
  | pcWritten _ err | pcReleased _ err => Some err
  | _ => None
  end.

Record refreshInv (s : state) : Prop := {
  ri_slot : match st_refreshRun s with
            | Some r => st_refreshing s = true /\ exists c pc, st_callers s !! c = Some pc /\ heldRun pc = Some r
            | None => st_refreshing s = false
            end;
  ri_held : forall c pc r, st_callers s !! c = Some pc -> heldRun pc = Some r -> st_refreshRun s = Some r;
  ri_owned : forall c pc r, st_callers s !! c = Some pc -> ownedRun pc = Some r ->
    exists x, st_runs s !! r = Some x /\ run_closed x = false /\ (forall err, writtenErr pc = Some err -> run_err x = err);
  ri_unique : forall c c' pc pc' r, st_callers s !! c = Some pc -> st_callers s !! c' = Some pc' ->
    ownedRun pc = Some r -> ownedRun pc' = Some r -> c = c';
  ri_open : forall r x, st_runs s !! r = Some x -> run_closed x = false ->
    exists c pc, st_callers s !! c = Some pc /\ ownedRun pc = Some r;
  ri_waiting : forall c r, st_callers s !! c = Some (pcWaiting r) -> (r < length (st_runs s))%nat;
}.

Lemma caller_inv (s : state) c pc c0 pc0 : <[c := pc]> (st_callers s) !! c0 = Some pc0 ->
  (c0 = c /\ pc0 = pc) \/ (c0 <> c /\ st_callers s !! c0 = Some pc0).
Proof. intros [(-> & -> & _)|(Hne & H)]%list_lookup_insert_Some; [by left|right]. split; congruence. Qed.

Lemma caller_updated (s : state) c pc pc' : st_callers s !! c = Some pc -> <[c := pc']> (st_callers s) !! c = Some pc'.
Proof. intros H. apply list_lookup_insert_eq. by eapply lookup_lt_Some. Qed.

Lemma caller_other (s : state) c c' pc pc' : st_callers s !! c' = Some pc' -> c' <> c -> <[c := pc]> (st_callers s) !! c' = Some pc'.
Proof. intros H Hne. by rewrite list_lookup_insert_ne. Qed.

(** A caller that neither gains nor loses a run keeps the invariant. *)
Lemma quiet_step s c pc pc' :
  refreshInv s -> st_callers s !! c = Some pc -> ownedRun pc' = ownedRun pc -> heldRun pc' = heldRun pc ->
  writtenErr pc' = None -> (forall r, pc' = pcWaiting r -> (r < length (st_runs s))%nat) -> refreshInv (setCaller c pc' s).
Proof.
  intros [Hs Hh Ho Hu Hop Hw] Hc Eo Eh Ew Hwt.
  assert (forall c0 pc0, <[c := pc']> (st_callers s) !! c0 = Some pc0 ->
    exists pc1, st_callers s !! c0 = Some pc1 /\ ownedRun pc1 = ownedRun pc0 /\ heldRun pc1 = heldRun pc0) as Hback.
  { intros c0 pc0 H. apply caller_inv in H as [[-> ->]|[_ H]]; eauto. }
  assert (forall c0 pc0, st_callers s !! c0 = Some pc0 ->
    exists pc1, <[c := pc']> (st_callers s) !! c0 = Some pc1 /\ ownedRun pc1 = ownedRun pc0 /\ heldRun pc1 = heldRun pc0) as Hforth.
  { intros c0 pc0 H. destruct (decide (c0 = c)) as [->|Hne].
    - exists pc'. simplify_eq. split_and!; [by eapply caller_updated|done|done].
    - exists pc0. split_and!; [by apply caller_other|done|done]. }
  split; cbn.
  - destruct (st_refreshRun s) as [r|]; [|done]. destruct Hs as [Hs (c0 & pc0 & H0 & H1)]. split; [done|].
    destruct (Hforth _ _ H0) as (pc1 & Hpc & _ & E). exists c0, pc1. split; [done|congruence].
  - intros c0 pc0 r H0 H1. destruct (Hback _ _ H0) as (pc1 & Hpc & _ & E). eapply Hh; [exact Hpc|congruence].
  - intros c0 pc0 r H0 H1. apply caller_inv in H0 as [[-> ->]|[_ H0]]; [|by eapply Ho].
    destruct (Ho _ pc r Hc) as (x & Hx & Hcl & _); [congruence|]. exists x. split_and!; [done|done|congruence].
  - intros c0 c1 pc0 pc1 r H0 H1 H2 H3. destruct (Hback _ _ H0) as (p0 & Hp0 & E0 & _), (Hback _ _ H1) as (p1 & Hp1 & E1 & _).
    apply (Hu c0 c1 p0 p1 r); congruence.
  - intros r x Hx Hcl. destruct (Hop r x Hx Hcl) as (c0 & pc0 & H0 & H1).
    destruct (Hforth _ _ H0) as (pc1 & Hpc & E & _). exists c0, pc1. split; [done|congruence].
  - intros c0 r H0. apply caller_inv in H0 as [[-> E]|[_ H0]]; [by apply Hwt|by eapply Hw].
Qed.

Lemma claim_step s c kind r s' :
  refreshInv s -> st_callers s !! c = Some (pcIdle kind) -> beginRefresh s = (Some r, true, s') -> refreshInv (setCaller c (pcRunning r) s').
Proof.
  intros [Hs Hh Ho Hu Hop Hw] Hc E. unfold beginRefresh in E. destruct (st_refreshing s) eqn:Er; [done|]. injection E as <- <-.
  assert (forall c pc r, st_callers s !! c = Some pc -> ownedRun pc = Some r -> (r < length (st_runs s))%nat) as Hlt.
  { intros c0 pc0 r0 H0 H1. destruct (Ho _ _ _ H0 H1) as (x & Hx & _). by eapply lookup_lt_Some. }
  assert (st_refreshRun s = None) as Hn by (destruct (st_refreshRun s); [naive_solver|done]).
  split; cbn.
  - split; [done|]. eexists c, _. split; [by eapply caller_updated|done].
  - intros c0 pc0 r0 H0 H1. apply caller_inv in H0 as [[-> ->]|[_ H0]]; [done|]. specialize (Hh _ _ _ H0 H1). congruence.
  - intros c0 pc0 r0 H0 H1. apply caller_inv in H0 as [[-> ->]|[_ H0]].
    + injection H1 as <-. exists (MkRun None false). split_and!; [by rewrite lookup_app_r, Nat.sub_diag by lia|done|done].
    + destruct (Ho _ _ _ H0 H1) as (x & Hx & H3). exists x. by rewrite lookup_app_l by (by eapply lookup_lt_Some).
  - intros c0 c1 pc0 pc1 r0 H0 H1 H2 H3.
    apply caller_inv in H0 as [[-> ->]|[_ H0]], H1 as [[-> ->]|[_ H1]]; [done| | |by eapply Hu].
    + specialize (Hlt _ _ _ H1 H3). injection H2 as <-. lia.
    + specialize (Hlt _ _ _ H0 H2). injection H3 as <-. lia.
  - intros r0 x Hx Hcl. apply lookup_app_Some in Hx as [Hx|[Hx1 Hx2]].
    + destruct (Hop r0 x Hx Hcl) as (c0 & pc0 & H0 & H1). exists c0, pc0. split; [|done]. apply caller_other; [done|]. intros ->. simplify_eq.
    + apply list_lookup_singleton_Some in Hx2 as [Hx2 <-]. exists c, (pcRunning (length (st_runs s))). split; [by eapply caller_updated|].
      cbn. f_equal. lia.
  - intros c0 r0 H0. rewrite length_app. apply caller_inv in H0 as [[-> ?]|[_ H0]]; [done|]. specialize (Hw _ _ H0). lia.
Qed.

(** Another caller owns another run. *)
Lemma other_run s c c0 pc pc0 r r0 : refreshInv s -> st_callers s !! c = Some pc -> ownedRun pc = Some r ->
  st_callers s !! c0 = Some pc0 -> ownedRun pc0 = Some r0 -> c0 <> c -> r0 <> r.
Proof. intros Hi H1 H2 H3 H4 Hne ->. apply Hne. by eapply (ri_unique s Hi). Qed.

Lemma held_owned pc r : heldRun pc = Some r -> ownedRun pc = Some r.
Proof. by destruct pc. Qed.

Lemma write_step s c r err :
  refreshInv s -> st_callers s !! c = Some (pcEnding r err) -> refreshInv (setCaller c (pcWritten r err) (setErr r err s)).
Proof.
  intros Hi Hc. pose proof Hi as [Hs Hh Ho Hu Hop Hw].
  assert (forall c0 pc0 r0, st_callers s !! c0 = Some pc0 -> ownedRun pc0 = Some r0 -> c0 <> c -> r0 <> r) as Hother.
  { intros c0 pc0 r0 H0 H1. by eapply (other_run s c c0 (pcEnding r err)). }
  split; cbn.
  - destruct (st_refreshRun s) as [r0|]; [|done]. destruct Hs as [Hs (c0 & pc0 & H0 & H1)]. split; [done|].
    destruct (decide (c0 = c)) as [->|Hne]; [|exists c0, pc0; split; [by apply caller_other|done]].
    simplify_eq/=. eexists c, _. split; [by eapply caller_updated|done].
  - intros c0 pc0 r0 H0 H1. apply caller_inv in H0 as [[-> ->]|[_ H0]]; [|by eapply Hh]. injection H1 as <-. by eapply Hh.
  - intros c0 pc0 r0 H0 H1. apply caller_inv in H0 as [[-> ->]|[Hne H0]].
    + injection H1 as <-. destruct (Ho _ _ r Hc eq_refl) as (x & Hx & Hcl & _).
      exists (MkRun err (run_closed x)). rewrite list_lookup_alter_eq, Hx. split_and!; [done|done|by intros ? [= ->]].
    + destruct (Ho _ _ _ H0 H1) as (x & Hx & H3). exists x. split; [|done]. rewrite list_lookup_alter_ne; [done|].
      intros E. by apply (Hother c0 pc0 r0).
  - intros c0 c1 pc0 pc1 r0 H0 H1 H2 H3.
    apply caller_inv in H0 as [[-> ->]|[N0 H0]], H1 as [[-> ->]|[N1 H1]]; [done| | |by eapply Hu].
    + injection H2 as <-. by destruct (Hother _ _ _ H1 H3 N1).
    + injection H3 as <-. by destruct (Hother _ _ _ H0 H2 N0).
  - intros r0 x Hx Hcl. assert (exists y, st_runs s !! r0 = Some y /\ run_closed y = false) as (y & Hy & Hyc).
    { destruct (decide (r = r0)) as [->|Hne].
      - rewrite list_lookup_alter_eq in Hx. destruct (st_runs s !! r0) as [y|]; [|done]. injection Hx as <-. by exists y.
      - rewrite list_lookup_alter_ne in Hx by done. by exists x. }
    destruct (Hop r0 y Hy Hyc) as (c0 & pc0 & H0 & H1). destruct (decide (c0 = c)) as [->|Hne].
    + simplify_eq/=. eexists c, _. split; [by eapply caller_updated|done].
    + exists c0, pc0. split; [by apply caller_other|done].
  - intros c0 r0 H0. rewrite length_alter. apply caller_inv in H0 as [[-> ?]|[_ H0]]; [done|by eapply Hw].
Qed.

Lemma release_step s c r err :
  refreshInv s -> st_callers s !! c = Some (pcWritten r err) -> refreshInv (setCaller c (pcReleased r err) (release r s)).
Proof.
  intros Hi Hc. pose proof Hi as [Hs Hh Ho Hu Hop Hw]. pose proof (Hh _ _ r Hc eq_refl) as Hrun.
  assert (forall c0 pc0, <[c := pcReleased r err]> (st_callers s) !! c0 = Some pc0 ->
    exists pc1, st_callers s !! c0 = Some pc1 /\ ownedRun pc1 = ownedRun pc0 /\ writtenErr pc1 = writtenErr pc0) as Hback.
  { intros c0 pc0 H. apply caller_inv in H as [[-> ->]|[_ H]]; eauto. }
  split; cbn.
  - by rewrite bool_decide_eq_true_2.
  - intros c0 pc0 r0 H0 H1. exfalso. apply caller_inv in H0 as [[-> ->]|[Hne H0]]; [done|].
    pose proof (Hh _ _ _ H0 H1) as E. rewrite Hrun in E. injection E as <-.
    by apply (other_run s c c0 (pcWritten r err) pc0 r r Hi Hc eq_refl H0 (held_owned _ _ H1)).
  - intros c0 pc0 r0 H0 H1. destruct (Hback _ _ H0) as (pc1 & Hpc & E1 & E2). destruct (Ho c0 pc1 r0 Hpc) as (x & Hx); [congruence|].
    exists x. by rewrite <- E2.
  - intros c0 c1 pc0 pc1 r0 H0 H1 H2 H3. destruct (Hback _ _ H0) as (p0 & Hp0 & E0 & _), (Hback _ _ H1) as (p1 & Hp1 & E1 & _).
    apply (Hu c0 c1 p0 p1 r0); congruence.
  - intros r0 x Hx Hcl. destruct (Hop r0 x Hx Hcl) as (c0 & pc0 & H0 & H1). destruct (decide (c0 = c)) as [->|Hne].
    + simplify_eq/=. eexists c, _. split; [by eapply caller_updated|done].
    + exists c0, pc0. split; [by apply caller_other|done].
  - intros c0 r0 H0. apply caller_inv in H0 as [[-> ?]|[_ H0]]; [done|by eapply Hw].
Qed.

Lemma close_step s c r err :
  refreshInv s -> st_callers s !! c = Some (pcReleased r err) -> refreshInv (setCaller c (pcReturned err) (closeRun r s)).
Proof.
  intros Hi Hc. pose proof Hi as [Hs Hh Ho Hu Hop Hw].
  assert (forall c0 pc0 r0, st_callers s !! c0 = Some pc0 -> ownedRun pc0 = Some r0 -> c0 <> c -> r <> r0) as Hother.
  { intros c0 pc0 r0 H0 H1 Hne E. by apply (other_run s c c0 (pcReleased r err) pc0 r r0 Hi Hc eq_refl H0 H1 Hne). }
  split; cbn.
  - destruct (st_refreshRun s) as [r0|]; [|done]. destruct Hs as [Hs (c0 & pc0 & H0 & H1)]. split; [done|].
    exists c0, pc0. split; [|done]. apply caller_other; [done|]. intros ->. simplify_eq.
  - intros c0 pc0 r0 H0 H1. apply caller_inv in H0 as [[-> ->]|[_ H0]]; [done|by eapply Hh].
  - intros c0 pc0 r0 H0 H1. apply caller_inv in H0 as [[-> ->]|[Hne H0]]; [done|].
    rewrite list_lookup_alter_ne by (by eapply Hother). by eapply Ho.
  - intros c0 c1 pc0 pc1 r0 H0 H1 H2 H3.
    apply caller_inv in H0 as [[-> ->]|[_ H0]], H1 as [[-> ->]|[_ H1]]; [done..|by eapply Hu].
  - intros r0 x Hx Hcl. destruct (decide (r = r0)) as [->|Hne].
    { rewrite list_lookup_alter_eq in Hx. destruct (st_runs s !! r0); [|done]. by injection Hx as <-. }
    rewrite list_lookup_alter_ne in Hx by done. destruct (Hop r0 x Hx Hcl) as (c0 & pc0 & H0 & H1).
    exists c0, pc0. split; [|done]. apply caller_other; [done|]. intros ->. by simplify_eq/=.
  - intros c0 r0 H0. rewrite length_alter. apply caller_inv in H0 as [[-> ?]|[_ H0]]; [done|by eapply Hw].
Qed.

Lemma refreshStep_inv s s' : refreshInv s -> step s s' -> refreshInv s'.
Proof.
  intros Hi Hstep. pose proof Hi as [Hs _ Ho _ _ Hw].
  assert (forall r, st_refreshRun s = Some r -> (r < length (st_runs s))%nat) as Hlt.
  { intros r E. rewrite E in Hs. destruct Hs as [_ (c & pc & H0 & H1%held_owned)]. destruct (Ho _ _ _ H0 H1) as (x & Hx & _).
    by eapply lookup_lt_Some. }
  assert (forall r b s0, beginRefresh s = (r, b, s0) -> b = false -> s0 = s /\ r = st_refreshRun s) as Hbegin.
  { intros r b s0. unfold beginRefresh. destruct (st_refreshing s); by intros [= <- <- <-]. }
  destruct Hstep as [s c kind r s0 Hc Hk E|s c r s0 Hc E|s c s0 Hc E|s c r s0 Hc E|s c r Hc E|s c Hc E|s c r err Hc|s c r err Hc|s c r err Hc|s c r err Hc|s c r x Hc Hx Hcl|s c r Hc].
  - by eapply claim_step.
  - apply Hbegin in E as [-> E]; [|done]. eapply quiet_step; try done. intros r0 [= <-]. by apply Hlt.
  - apply Hbegin in E as [-> E]; [|done]. by eapply quiet_step.
  - apply Hbegin in E as [-> E]; [|done]. by eapply quiet_step.
  - eapply quiet_step; try done. intros r0 [= <-]. by apply Hlt.
  - by eapply quiet_step.
  - by eapply quiet_step.
  - by apply write_step.
  - by apply release_step.
  - by apply close_step.
  - by eapply quiet_step.
  - by eapply quiet_step.
Qed.

Lemma refreshInv_reachable kinds s : reachable kinds s -> refreshInv s.
Proof.
  intros H. unfold reachable in H. remember (initial kinds) as s0 eqn:E0. assert (refreshInv s0) as Hi.
  { subst s0. assert (forall c pc, map pcIdle kinds !! c = Some pc -> exists kind, pc = pcIdle kind) as Hidle.
    { intros c pc Hc. apply list_elem_of_lookup_2, list_elem_of_In, in_map_iff in Hc as (k & <- & _). eauto. }
    split; cbn; [done|..|by intros r x; rewrite lookup_nil|].
    - intros c pc r Hc. by apply Hidle in Hc as [k ->].
    - intros c pc r Hc. by apply Hidle in Hc as [k ->].
    - intros c c' pc pc' r Hc. by apply Hidle in Hc as [k ->].
    - intros c r Hc. by apply Hidle in Hc as [k ?]. }
  clear E0. revert Hi. induction H as [|s1 s2 s3 Hs _ IH]; [done|]. intros Hi. apply IH. by eapply refreshStep_inv.
Qed.

(** At most one refresh runs at a time: two callers that are inside a refresh are the same. *)
Theorem refresh_exclusive kinds s c c' r r' :
  reachable kinds s -> st_callers s !! c = Some (pcRunning r) -> st_callers s !! c' = Some (pcRunning r') -> c = c' /\ r = r'.
Proof.
  intros H%refreshInv_reachable H1 H2. pose proof (ri_held s H _ _ r H1 eq_refl) as E1. pose proof (ri_held s H _ _ r' H2 eq_refl) as E2.
  rewrite E1 in E2. injection E2 as <-. split; [|done]. by eapply (ri_unique s H c c' _ _ r).
Qed.

(** A caller that finds a refresh in flight gets a run to wait for, never nil. *)
Lemma join_has_run kinds s : reachable kinds s -> st_refreshing s = true -> exists r, st_refreshRun s = Some r.
Proof.
  intros H%refreshInv_reachable E. pose proof (ri_slot s H) as Hs. destruct (st_refreshRun s) as [r|]; [eauto|congruence].
Qed.

(** ** Who waits gets the outcome *)

(** The outcome of run [r] is settled. *)
Definition settled (r : nat) (err : result) (s : state) : Prop :=
  (exists x, st_runs s !! r = Some x /\ run_err x = err) /\
  forall c pc, st_callers s !! c = Some pc -> ownedRun pc = Some r -> writtenErr pc = Some err.

Lemma settled_quiet r err s c pc pc' : settled r err s -> st_callers s !! c = Some pc ->
  (ownedRun pc' = Some r -> ownedRun pc = Some r /\ (writtenErr pc = Some err -> writtenErr pc' = Some err)) -> settled r err (setCaller c pc' s).
Proof.
  intros [Hx Hw] Hc Ho. split; [done|]. intros c0 pc0 H0 H1. cbn in H0. apply caller_inv in H0 as [[-> ->]|[_ H0]]; [|by eapply Hw].
  destruct (Ho H1) as [H2 H3]. apply H3. by eapply Hw.
Qed.

Lemma settled_step r err s s' : settled r err s -> step s s' -> settled r err s'.
Proof.
  intros Hset Hstep.
  assert (forall r b s0, beginRefresh s = (r, b, s0) -> b = false -> s0 = s) as Hbegin.
  { intros r0 b s0. unfold beginRefresh. destruct (st_refreshing s); by intros [= <- <- <-]. }
  destruct Hstep as [s c kind r0 s0 Hc Hk E|s c r0 s0 Hc E|s c s0 Hc E|s c r0 s0 Hc E|s c r0 Hc E|s c Hc E|s c r0 e Hc|s c r0 e Hc|s c r0 e Hc|s c r0 e Hc|s c r0 x Hc Hx Hcl|s c r0 Hc].
  - unfold beginRefresh in E. destruct (st_refreshing s); [done|]. injection E as <- <-. destruct Hset as [(x & Hx & Hxe) Hw]. split.
    + exists x. cbn. by rewrite lookup_app_l by (by eapply lookup_lt_Some).
    + intros c0 pc0 H0 H1. cbn in H0. apply caller_inv in H0 as [[-> ->]|[_ H0]]; [|by eapply Hw].
      injection H1 as <-. apply lookup_lt_Some in Hx. lia.
  - apply Hbegin in E as ->; [|done]. by eapply settled_quiet.
  - apply Hbegin in E as ->; [|done]. by eapply settled_quiet.
  - apply Hbegin in E as ->; [|done]. by eapply settled_quiet.
  - by eapply settled_quiet.
  - by eapply settled_quiet.
  - by eapply settled_quiet.
  - assert (r0 <> r) as Hne. { intros ->. destruct Hset as [_ Hw]. by specialize (Hw _ _ Hc eq_refl). }
    apply (settled_quiet r err (setErr r0 e s) c (pcEnding r0 e)); [|done|by intros [= <-]].
    destruct Hset as [Hx Hw]. split; [|done]. cbn. by rewrite list_lookup_alter_ne.
  - apply (settled_quiet r err (release r0 s) c (pcWritten r0 e)); [done|done|]. cbn. intros [= <-]. done.
  - apply (settled_quiet r err (closeRun r0 s) c (pcReleased r0 e)); [|done|done]. destruct Hset as [(x & Hx & Hxe) Hw]. split; [|done]. cbn.
    destruct (decide (r0 = r)) as [->|Hne]; [|rewrite list_lookup_alter_ne by done; by exists x].
    rewrite list_lookup_alter_eq, Hx. eexists. split; [done|done].
  - by eapply settled_quiet.
  - by eapply settled_quiet.
Qed.

(** Only the end of the run wakes a waiting caller. *)
Lemma woken s s' w r e : st_callers s !! w = Some (pcWaiting r) -> step s s' -> st_callers s' !! w = Some (pcReturned e) ->
  exists x, st_runs s !! r = Some x /\ e = run_err x.
Proof.
  intros Hw Hs He. inversion Hs as [? c k r0 s0 Hc Hk Hb|? c r0 s0 Hc Hb|? c s0 Hc Hb|? c r0 s0 Hc Hb|? c r0 Hc Hr|? c Hc Hr|
    ? c r0 e0 Hc|? c r0 e0 Hc|? c r0 e0 Hc|? c r0 e0 Hc|? c r0 x Hc Hx Hcl|? c r0 Hc]; subst; cbn in He;
    try (unfold beginRefresh in Hb; destruct (st_refreshing s); inversion Hb; subst; cbn in He);
    apply caller_inv in He as [[-> E]|[_ He]]; try congruence.
  rewrite Hw in Hc. injection Hc as <-. injection E as ->. eauto.
Qed.

(** Waiting for somebody else's refresh reports the outcome of that refresh: once its owner
    has an outcome, every caller that is woken by the end of this refresh, then or later,
    returns this outcome. *)
Theorem waiter_outcome kinds s s1 s2 c r err w e :
  reachable kinds s -> st_callers s !! c = Some (pcEnding r err) -> rtc step (setCaller c (pcWritten r err) (setErr r err s)) s1 ->
  st_callers s1 !! w = Some (pcWaiting r) -> step s1 s2 -> st_callers s2 !! w = Some (pcReturned e) -> e = err.
Proof.
  intros H%refreshInv_reachable Hc Hsteps Hw Hstep He.
  assert (settled r err (setCaller c (pcWritten r err) (setErr r err s))) as Hset.
  { destruct (ri_owned s H _ _ r Hc eq_refl) as (y & Hy & _). split.
    - exists (MkRun err (run_closed y)). cbn. by rewrite list_lookup_alter_eq, Hy.
    - intros c0 pc0 H0 H1. cbn in H0. apply caller_inv in H0 as [[-> ->]|[Hne H0]]; [done|].
      by destruct (other_run s c c0 (pcEnding r err) pc0 r r H Hc eq_refl H0 H1 Hne). }
  assert (settled r err s1) as [(y & Hy & <-) _].
  { revert Hset. induction Hsteps as [|t1 t2 t3 Hs _ IH]; [done|]. intros Hset. apply IH; [done..|]. by eapply settled_step. }
  destruct (woken _ _ _ _ _ Hw Hstep He) as (x & Hx & ->). by rewrite Hx in Hy; injection Hy as ->.
Qed.

(** ** Nobody waits forever *)

(** From [s], run [r] can be brought to its end while [w] waits for it. *)
Definition closable (r w : nat) (s : state) : Prop :=
  exists s' x, rtc step s s' /\ st_callers s' !! w = Some (pcWaiting r) /\ st_runs s' !! r = Some x /\ run_closed x = true.

Lemma closable_step r w s s' : step s s' -> closable r w s' -> closable r w s.
Proof. intros Hs (s2 & x & H & Hrest). exists s2, x. split; [by eapply rtc_l|done]. Qed.

Lemma still_waiting s c w pc pc' r : st_callers s !! c = Some pc -> ownedRun pc = Some r -> st_callers s !! w = Some (pcWaiting r) ->
  <[c := pc']> (st_callers s) !! w = Some (pcWaiting r) /\ <[c := pc']> (st_callers s) !! c = Some pc'.
Proof. intros Hc Ho Hw. split; [|by eapply caller_updated]. apply caller_other; [done|]. intros ->. by simplify_eq/=. Qed.

(** The owner of a run can bring it to its end. *)
Lemma owner_closes s c w pc r : refreshInv s -> st_callers s !! c = Some pc -> ownedRun pc = Some r ->
  st_callers s !! w = Some (pcWaiting r) -> closable r w s.
Proof.
  assert (forall s err, refreshInv s -> st_callers s !! c = Some (pcReleased r err) -> st_callers s !! w = Some (pcWaiting r) -> closable r w s) as H1.
  { intros s0 err Hi Hc Hw. destruct (ri_owned s0 Hi _ _ r Hc eq_refl) as (x & Hx & _).
    exists (setCaller c (pcReturned err) (closeRun r s0)), (MkRun (run_err x) true).
    split_and!; [by apply rtc_once, (step_close _ _ r)|by destruct (still_waiting _ _ _ _ (pcReturned err) _ Hc eq_refl Hw)| |done]. cbn.
    by rewrite list_lookup_alter_eq, Hx. }
  assert (forall s err, refreshInv s -> st_callers s !! c = Some (pcWritten r err) -> st_callers s !! w = Some (pcWaiting r) -> closable r w s) as H2.
  { intros s0 err Hi Hc Hw. destruct (still_waiting _ _ _ _ (pcReleased r err) _ Hc eq_refl Hw) as [K1 K2].
    pose proof (step_release s0 c r err Hc) as St. eapply closable_step; [exact St|]. eapply H1; [by eapply refreshStep_inv|exact K2|exact K1]. }
  assert (forall s err, refreshInv s -> st_callers s !! c = Some (pcEnding r err) -> st_callers s !! w = Some (pcWaiting r) -> closable r w s) as H3.
  { intros s0 err Hi Hc Hw. destruct (still_waiting _ _ _ _ (pcWritten r err) _ Hc eq_refl Hw) as [K1 K2].
    pose proof (step_write s0 c r err Hc) as St. eapply closable_step; [exact St|]. eapply H2; [by eapply refreshStep_inv|exact K2|exact K1]. }
  intros Hi Hc Ho Hw. destruct pc as [k|r0|r0 e|r0 e|r0 e|r0|e|]; try done; injection Ho as ->; [|by eapply H3|by eapply H2|by eapply H1].
  destruct (still_waiting _ _ _ _ (pcEnding r None) _ Hc eq_refl Hw) as [K1 K2].
  pose proof (step_finish s c r None Hc) as St. eapply closable_step; [exact St|]. eapply H3; [by eapply refreshStep_inv|exact K2|exact K1].
Qed.

(** Nobody waits for nothing: a caller that waits can always still return, because the run it
    waits for is closed or has an owner that has only its own steps to do. *)
Theorem waiter_can_return kinds s w r :
  reachable kinds s -> st_callers s !! w = Some (pcWaiting r) ->
  exists s' err, rtc step s s' /\ st_callers s' !! w = Some (pcReturned err).
Proof.
  intros Hi%refreshInv_reachable Hw.
  assert (closable r w s) as (s' & x & Hs & Hw' & Hx & Hcl).
  { destruct (lookup_lt_is_Some_2 _ _ (ri_waiting s Hi _ _ Hw)) as [x Hx]. destruct (run_closed x) eqn:Hcl; [by exists s, x|].
    destruct (ri_open s Hi _ _ Hx Hcl) as (c & pc & Hc & Ho). by eapply owner_closes. }
  exists (setCaller w (pcReturned (run_err x)) s'), (run_err x). split; [|by eapply caller_updated].
  eapply rtc_r; [exact Hs|]. by eapply step_wake.
Qed.

(** ** An example: a background refresh, and a caller that joins it *)

Definition joined : state := MkState true (Some 0%nat) [MkRun None false] [pcRunning 0; pcWaiting 0].

Lemma joined_reachable : reachable [ckAsync; ckSync] joined.
Proof.
  eapply rtc_l; [eapply (step_claim _ 0%nat ckAsync 0%nat); [reflexivity|done|reflexivity]|].
  apply rtc_once. pose (s1 := MkState true (Some 0%nat) [MkRun None false] [pcRunning 0; pcIdle ckSync]).
  exact (step_join s1 1%nat 0%nat s1 eq_refl eq_refl).
Qed.

Lemma refresh_exclusive_witness : reachable [ckAsync; ckSync] joined /\ (0 = 0 /\ 0 = 0)%nat.
Proof. split; [apply joined_reachable|]. by apply (refresh_exclusive [ckAsync; ckSync] joined 0 0 0 0 joined_reachable). Defined.

Definition ended : state := MkState true (Some 0%nat) [MkRun None false] [pcEnding 0 (Some 7%nat); pcWaiting 0].
Definition closed : state := MkState false None [MkRun (Some 7%nat) true] [pcReturned (Some 7%nat); pcWaiting 0].

Lemma waiter_outcome_witness : Some 7%nat = Some 7%nat :> result.
Proof.
  apply (waiter_outcome [ckAsync; ckSync] ended closed (setCaller 1 (pcReturned (Some 7%nat)) closed) 0 0 (Some 7%nat) 1 (Some 7%nat)); [| | |reflexivity| |reflexivity].
  - eapply rtc_r; [apply joined_reachable|]. exact (step_finish joined 0%nat 0%nat (Some 7%nat) eq_refl).
  - reflexivity.
  - eapply rtc_l; [eapply (step_release _ 0%nat 0%nat (Some 7%nat)); reflexivity|].
    apply rtc_once. exact (step_close (MkState false None [MkRun (Some 7%nat) false] [pcReleased 0 (Some 7%nat); pcWaiting 0]) 0%nat 0%nat (Some 7%nat) eq_refl).
  - exact (step_wake closed 1%nat 0%nat (MkRun (Some 7%nat) true) eq_refl eq_refl eq_refl).
Defined.

Lemma waiter_can_return_witness : exists s' err, rtc step joined s' /\ st_callers s' !! 1%nat = Some (pcReturned err).
Proof. apply (waiter_can_return [ckAsync; ckSync] joined 1 0); [apply joined_reachable|reflexivity]. Defined.
