(* ===== verification/CvRequest.v ===== *)
(** * CvRequest: resolving a selector or a request id to a conversation
      (conversation/index.go [Resolve], [ResolveRequest], conversation/request.go)

    A selector names a conversation by id, native id, path or title; a request id names the
    conversation that issued the request.  Lookups go through the index first, then through
    the live stores of the providers, then through a refreshed index.

    The theorems: a request id is never answered by a guess; a miss over stale records or
    unreadable stores is not reported as a confirmed absence; the exhaustive scan runs only
    when it was asked for; a selector shaped like a request id never matches a title. *)

From S2P Require Import Prelude GoUtf8 GoStrconv GoText GoSort CvRecord.

Open Scope Z_scope.

(** ** Reasons *)

Inductive RequestNotFoundReason :=
| RequestNotFoundReasonUnspecified
| RequestNotFoundReasonNoResolver
| RequestNotFoundReasonNotRetained
| RequestNotFoundReasonNoMatchingConversation
| RequestNotFoundReasonUnindexedConversation
| RequestNotFoundReasonAmbiguousConversation
| RequestNotFoundReasonInconclusive.

#[export] Instance RequestNotFoundReason_eq_dec : EqDecision RequestNotFoundReason.
Proof. solve_decision. Defined.

Inductive RequestOrigin := RequestOriginUnspecified | RequestOriginIndex | RequestOriginLive | RequestOriginFullScan.

(** The loop over the outranking reasons. *)
Fixpoint outrank (outranking : list RequestNotFoundReason) (soFar next : RequestNotFoundReason) : option RequestNotFoundReason :=
  match outranking with
  | [] => None
  | reason :: outranking =>
      if bool_decide (soFar = reason) then Some soFar
      else if bool_decide (next = reason) then Some next
      else outrank outranking soFar next
  end.

Definition MergeRequestNotFoundReason (soFar next : RequestNotFoundReason) : RequestNotFoundReason :=
  match outrank [RequestNotFoundReasonAmbiguousConversation; RequestNotFoundReasonInconclusive] soFar next with
  | Some reason => reason
  | None => if bool_decide (soFar = RequestNotFoundReasonUnspecified) then next else soFar
  end.

(** ** Lookups *)

Record RequestMatch := MkMatch {
  rm_Found : bool;
  rm_Provider : Provider;
  rm_NativeConversationID : bytes;
  rm_Origin : RequestOrigin;
  rm_Reason : RequestNotFoundReason;
}.

(** [ResolveRequestID] of a provider with [AllowFullScan] as its second argument; [None] is
    an error. *)
Definition RequestResolver := bytes -> bool -> option RequestMatch.

Record RequestResolution := MkResolution {
  rr_RequestID : bytes;
  rr_Found : bool;
  rr_Origin : RequestOrigin;
  rr_Reason : RequestNotFoundReason;
  rr_Record : ConvRecord;
}.

Definition missingRequestMatch (reason : RequestNotFoundReason) : RequestMatch :=
  MkMatch false ProviderUnspecified [] RequestOriginUnspecified reason.

Fixpoint matchLoop (resolvers : list RequestResolver) (requestID : bytes) (allowFullScan : bool) (reason : RequestNotFoundReason)
  : RequestMatch :=
  match resolvers with
  | [] => missingRequestMatch reason
  | resolver :: resolvers =>
      match resolver requestID allowFullScan with
      | None => matchLoop resolvers requestID allowFullScan (MergeRequestNotFoundReason reason RequestNotFoundReasonInconclusive)
      | Some m =>
          if rm_Found m then m
          else matchLoop resolvers requestID allowFullScan (MergeRequestNotFoundReason reason (rm_Reason m))
      end
  end.

Definition resolveRequestMatch (resolvers : list RequestResolver) (requestID : bytes) (allowFullScan : bool) : RequestMatch :=
  match resolvers with
  | [] => missingRequestMatch RequestNotFoundReasonNoResolver
  | _ :: _ => matchLoop resolvers requestID allowFullScan RequestNotFoundReasonUnspecified
  end.

Definition foundRequestResolution (requestID : bytes) (origin : RequestOrigin) (record : ConvRecord) : RequestResolution :=
  MkResolution requestID true origin RequestNotFoundReasonUnspecified record.

Definition missingRequestResolution (requestID : bytes) (reason : RequestNotFoundReason) : RequestResolution :=
  MkResolution requestID false RequestOriginUnspecified reason emptyRecord.

Definition ambiguousRequestResolution (requestID : bytes) : RequestResolution :=
  missingRequestResolution requestID RequestNotFoundReasonAmbiguousConversation.

(** What a lookup sees: the records that [List] returned (or its error), those of the
    snapshot before and after the refresh, whether the refresh succeeded, and the resolvers
    of the registered parsers in the order of their providers. *)
Record lookupEnv := MkLookup {
  le_listed : option (list ConvRecord);
  le_snapshot : list ConvRecord;
  le_fresh : bool;
  le_after : list ConvRecord;
  le_resolvers : list RequestResolver;
}.

Inductive resolveError :=
| reRequired
| reList
| reNotFound (note : option RequestNotFoundReason) (fresh : bool).

Definition normalizeRequestID (requestID : bytes) : bytes := TrimSpace requestID.

Definition ResolveRequest (env : lookupEnv) (requestID : bytes) (allowFullScan : bool) : outcome resolveError RequestResolution :=
  let requestID := normalizeRequestID requestID in
  if bool_decide (requestID = []) then Fail reRequired else
  match le_listed env with
  | None => Fail reList
  | Some _ =>
      let '(record, carriers) := recordByLatestRequestID (le_snapshot env) requestID in
      if carriers =? 1 then Ok (foundRequestResolution requestID RequestOriginIndex record)
      else if 1 <? carriers then Ok (ambiguousRequestResolution requestID) else
      let m := resolveRequestMatch (le_resolvers env) requestID false in
      match (if rm_Found m then recordByNativeID (le_snapshot env) (rm_Provider m) (rm_NativeConversationID m) else None) with
      | Some record => Ok (foundRequestResolution requestID (rm_Origin m) record)
      | None =>
          let '(record, carriers) := recordByLatestRequestID (le_after env) requestID in
          if carriers =? 1 then Ok (foundRequestResolution requestID RequestOriginIndex record)
          else if 1 <? carriers then Ok (ambiguousRequestResolution requestID) else
          let m := if negb (rm_Found m) && allowFullScan then resolveRequestMatch (le_resolvers env) requestID allowFullScan else m in
          if rm_Found m then
            match recordByNativeID (le_after env) (rm_Provider m) (rm_NativeConversationID m) with
            | Some record => Ok (foundRequestResolution requestID (rm_Origin m) record)
            | None =>
                if negb (le_fresh env) then Ok (missingRequestResolution requestID RequestNotFoundReasonInconclusive)
                else Ok (missingRequestResolution requestID RequestNotFoundReasonUnindexedConversation)
            end
          else
            let reason := if negb (le_fresh env) then MergeRequestNotFoundReason (rm_Reason m) RequestNotFoundReasonInconclusive
                          else rm_Reason m in
            Ok (missingRequestResolution requestID reason)
      end
  end.

Definition resolveUUIDShapedSelector (env : lookupEnv) (selector : bytes) : outcome resolveError ConvRecord :=
  match resolveRecordIdentity (le_snapshot env) selector with
  | Some record => Ok record
  | None =>
      let '(record, carriers) := recordByLatestRequestID (le_snapshot env) selector in
      if carriers =? 1 then Ok record
      else if 1 <? carriers then Fail (reNotFound (Some RequestNotFoundReasonAmbiguousConversation) true) else
      let m := resolveRequestMatch (le_resolvers env) selector false in
      match (if rm_Found m then recordByNativeID (le_snapshot env) (rm_Provider m) (rm_NativeConversationID m) else None) with
      | Some record => Ok record
      | None =>
          match resolveRecordIdentity (le_after env) selector with
          | Some record => Ok record
          | None =>
              let '(record, carriers) := recordByLatestRequestID (le_after env) selector in
              if carriers =? 1 then Ok record
              else if 1 <? carriers then Fail (reNotFound (Some RequestNotFoundReasonAmbiguousConversation) (le_fresh env)) else
              if negb (rm_Found m) then Fail (reNotFound (Some (rm_Reason m)) (le_fresh env)) else
              match recordByNativeID (le_after env) (rm_Provider m) (rm_NativeConversationID m) with
              | Some record => Ok record
              | None => Fail (reNotFound (Some RequestNotFoundReasonUnindexedConversation) (le_fresh env))
              end
          end
      end
  end.

Definition Resolve (toLowerRune : Z -> Z) (env : lookupEnv) (selector : bytes) : outcome resolveError ConvRecord :=
  let selector := TrimSpace selector in
  if bool_decide (selector = []) then Fail reRequired else
  match le_listed env with
  | None => Fail reList
  | Some records =>
      if looksLikeRequestID selector then
        match resolveRecordIdentity records selector with
        | Some record => Ok record
        | None => resolveUUIDShapedSelector env selector
        end
      else
        match resolveRecordExact records selector with
        | Some record => Ok record
        | None =>
            match resolveRecordFuzzyTitle toLowerRune records selector with
            | Some record => Ok record
            | None =>
                match resolveRecord toLowerRune (le_after env) selector with
                | Some record => Ok record
                | None => Fail (reNotFound None (le_fresh env))
                end
            end
        end
  end.

(** The resolvers in ascending order of their providers. *)
Definition requestResolvers (registry : list (Provider * option RequestResolver)) : list RequestResolver :=
  omap snd (SliceStable (fun a b => providerValue a.1 <? providerValue b.1) registry).

(** ** Merging reasons *)

#[export] Instance Merge_assoc : Assoc (=) MergeRequestNotFoundReason.
Proof. by intros [] [] []. Qed.

#[export] Instance Merge_left_id : LeftId (=) RequestNotFoundReasonUnspecified MergeRequestNotFoundReason.
Proof. by intros []. Qed.

#[export] Instance Merge_right_id : RightId (=) RequestNotFoundReasonUnspecified MergeRequestNotFoundReason.
Proof. by intros []. Qed.

(** What several lookups together can say: ambiguity if one of them found it, else that the
    search was incomplete if one of them was, else the first reason that is known. *)
Definition overall (reasons : list RequestNotFoundReason) : RequestNotFoundReason :=
  if bool_decide (RequestNotFoundReasonAmbiguousConversation ∈ reasons) then RequestNotFoundReasonAmbiguousConversation
  else if bool_decide (RequestNotFoundReasonInconclusive ∈ reasons) then RequestNotFoundReasonInconclusive
  else default RequestNotFoundReasonUnspecified (List.find (fun r => negb (bool_decide (r = RequestNotFoundReasonUnspecified))) reasons).

Lemma overall_cons r rs : overall (r :: rs) = MergeRequestNotFoundReason r (overall rs).
Proof.
  assert (forall a (b : RequestNotFoundReason) l, bool_decide (a ∈ b :: l) = bool_decide (a = b) || bool_decide (a ∈ l)) as Hc.
  { intros a b l. rewrite <- bool_decide_or. apply bool_decide_ext. apply elem_of_cons. }
  unfold overall. rewrite !Hc. cbn [List.find].
  destruct (bool_decide_reflect (RequestNotFoundReasonAmbiguousConversation ∈ rs)); [by destruct r|].
  destruct (bool_decide_reflect (RequestNotFoundReasonInconclusive ∈ rs)); [by destruct r|].
  destruct (List.find _ rs) as [x|] eqn:E; [|by destruct r].
  apply List.find_some in E as [Hin _]. apply list_elem_of_In in Hin. by destruct r, x.
Qed.

Definition reasonOf (answer : option RequestMatch) : RequestNotFoundReason :=
  match answer with
  | None => RequestNotFoundReasonInconclusive
  | Some m => rm_Reason m
  end.

(** The resolvers are asked in order; the first that finds a conversation answers, and if none
    does the reason is the overall one. *)
Lemma matchLoop_spec resolvers requestID allow reason :
  let m := matchLoop resolvers requestID allow reason in
  (rm_Found m = true /\ exists resolver, resolver ∈ resolvers /\ resolver requestID allow = Some m) \/
  (m = missingRequestMatch (MergeRequestNotFoundReason reason (overall (map (fun r => reasonOf (r requestID allow)) resolvers))) /\
   forall resolver m', resolver ∈ resolvers -> resolver requestID allow = Some m' -> rm_Found m' = false).
Proof.
  revert reason. induction resolvers as [|r rs IH]; intros reason; cbn [matchLoop map].
  { right. split; [by destruct reason|]. by intros ? ? ?%elem_of_nil. }
  rewrite overall_cons, (assoc MergeRequestNotFoundReason). destruct (r requestID allow) as [m|] eqn:E; cbn [reasonOf].
  - destruct (rm_Found m) eqn:Ef; [left; eauto using list_elem_of_here|].
    destruct (IH (MergeRequestNotFoundReason reason (rm_Reason m))) as [(Hf & r' & Hr & Hm)|(Hm & Hr)].
    + left. split; [done|]. exists r'. split; [by apply list_elem_of_further|done].
    + right. split; [done|]. intros r' m' Hin Hm'. apply elem_of_cons in Hin as [->|Hin]; [congruence|by eapply Hr].
  - destruct (IH (MergeRequestNotFoundReason reason RequestNotFoundReasonInconclusive)) as [(Hf & r' & Hr & Hm)|(Hm & Hr)].
    + left. split; [done|]. exists r'. split; [by apply list_elem_of_further|done].
    + right. split; [done|]. intros r' m' Hin Hm'. apply elem_of_cons in Hin as [->|Hin]; [congruence|by eapply Hr].
Qed.

(** ** Carriers and native ids *)

Definition carriersOf (records : list ConvRecord) (requestID : bytes) : list ConvRecord :=
  filter (fun r => rc_LatestRequestID r = requestID) records.

Lemma carriersLoop_spec records requestID first n : 0 <= n ->
  carriersLoop records requestID first n =
  (if n =? 0 then default first (head (carriersOf records requestID)) else first, n + zlen (carriersOf records requestID)).
Proof.
  revert first n. induction records as [|r records IH]; intros first n Hn; cbn [carriersLoop].
  { unfold carriersOf. cbn. rewrite Z.add_0_r. by destruct (n =? 0). }
  unfold carriersOf. rewrite filter_cons. case_bool_decide as H; cbn [negb].
  - rewrite decide_True by done. fold (carriersOf records requestID). rewrite IH by lia. rewrite zlen_cons. cbn [head default].
    destruct (Z.eqb_spec (n + 1) 0); [lia|]. unfold id. f_equal. lia.
  - rewrite decide_False by done. by rewrite IH.
Qed.

Lemma recordByLatestRequestID_spec records requestID record carriers :
  recordByLatestRequestID records requestID = (record, carriers) -> requestID <> [] ->
  carriers = zlen (carriersOf records requestID) /\ (carriers = 1 -> carriersOf records requestID = [record]).
Proof.
  unfold recordByLatestRequestID. intros E Hne.
  case_bool_decide; [done|]. rewrite carriersLoop_spec in E by lia. cbn [Z.eqb] in E. injection E as <- <-. split; [lia|].
  intros H1. destruct (carriersOf records requestID) as [|r [|r' l]]; [done|done|]. rewrite !zlen_cons in H1. pose proof (zlen_nonneg l). lia.
Qed.

Lemma recordByNativeID_spec records provider nativeID record :
  recordByNativeID records provider nativeID = Some record ->
  record ∈ records /\ rc_Provider record = provider /\ rc_NativeID record = nativeID /\ nativeID <> [].
Proof.
  unfold recordByNativeID. case_bool_decide; [done|]. intros E. apply List.find_some in E as [Hin E]. reflect_bools.
  split_and!; try done. by apply list_elem_of_In.
Qed.

Lemma resolveRequestMatch_found resolvers requestID allow :
  rm_Found (resolveRequestMatch resolvers requestID allow) = true ->
  exists resolver, resolver ∈ resolvers /\ resolver requestID allow = Some (resolveRequestMatch resolvers requestID allow).
Proof.
  unfold resolveRequestMatch. destruct resolvers as [|r rs]; [done|]. intros Hf.
  destruct (matchLoop_spec (r :: rs) requestID allow RequestNotFoundReasonUnspecified) as [[_ H]|[H _]]; [done|].
  rewrite H in Hf. done.
Qed.

(** The record is the only carrier of the request id in [records]. *)
Definition onlyCarrier (records : list ConvRecord) (requestID : bytes) (record : ConvRecord) : Prop :=
  carriersOf records requestID = [record].

(** A provider's store names the record as the conversation of the request. *)
Definition namedByStore (env : lookupEnv) (requestID : bytes) (allow : bool) (origin : RequestOrigin) (record : ConvRecord) : Prop :=
  exists resolver m, resolver ∈ le_resolvers env /\ resolver requestID allow = Some m /\ rm_Found m = true /\
    rc_Provider record = rm_Provider m /\ rc_NativeID record = rm_NativeConversationID m /\ rc_NativeID record <> [] /\ rm_Origin m = origin /\
    (record ∈ le_snapshot env \/ record ∈ le_after env).

Lemma namedByStore_match env requestID allow m record records :
  m = resolveRequestMatch (le_resolvers env) requestID allow -> rm_Found m = true ->
  recordByNativeID records (rm_Provider m) (rm_NativeConversationID m) = Some record ->
  (records = le_snapshot env \/ records = le_after env) -> namedByStore env requestID allow (rm_Origin m) record.
Proof.
  intros Hm Hf Hr Hin. destruct (resolveRequestMatch_found (le_resolvers env) requestID allow) as (resolver & H1 & H2); [by rewrite <- Hm|].
  rewrite <- Hm in H2. apply recordByNativeID_spec in Hr as (Hi & Hp & Hn & Hne). exists resolver, m. rewrite Hn.
  split_and!; try done. destruct Hin as [->| ->]; auto.
Qed.

(** ** Answers *)

(** C11. A request id is never answered by a guess.  The record of an answer is the only record of
    a snapshot whose latest request has the id, or it is the record of the provider and
    native id that a provider's store named; a store was scanned exhaustively only if the
    caller allowed it. *)
Theorem ResolveRequest_sound env requestID allowFullScan res :
  ResolveRequest env requestID allowFullScan = Ok res -> rr_Found res = true ->
  let id := TrimSpace requestID in
  rr_RequestID res = id /\
  ((rr_Origin res = RequestOriginIndex /\
    (onlyCarrier (le_snapshot env) id (rr_Record res) \/ onlyCarrier (le_after env) id (rr_Record res))) \/
   exists allow, (allow = true -> allowFullScan = true) /\ namedByStore env id allow (rr_Origin res) (rr_Record res)).
Proof.
  unfold ResolveRequest, normalizeRequestID. intros E Hf. cbn zeta. set (id := TrimSpace requestID) in *. cbn zeta in E.
  case_bool_decide as Hne; [done|]. destruct (le_listed env); [|done].
  destruct (recordByLatestRequestID (le_snapshot env) id) as [r1 n1] eqn:E1.
  apply recordByLatestRequestID_spec in E1 as [_ H1]; [|done].
  destruct (Z.eqb_spec n1 1) as [Hn1|_]; [injection E as <-; split; [done|]; left; split; [done|]; left; by apply H1|].
  destruct (1 <? n1); [by injection E as <-|]. set (m := resolveRequestMatch (le_resolvers env) id false) in *.
  destruct (if rm_Found m then _ else None) as [r2|] eqn:E2.
  { injection E as <-. split; [done|]. right. exists false. split; [done|]. destruct (rm_Found m) eqn:Efm; [|done].
    by eapply namedByStore_match; eauto. }
  destruct (recordByLatestRequestID (le_after env) id) as [r3 n3] eqn:E3.
  apply recordByLatestRequestID_spec in E3 as [_ H3]; [|done].
  destruct (Z.eqb_spec n3 1) as [Hn3|_]; [injection E as <-; split; [done|]; left; split; [done|]; right; by apply H3|].
  destruct (1 <? n3); [by injection E as <-|].
  set (m' := if negb (rm_Found m) && allowFullScan then resolveRequestMatch (le_resolvers env) id allowFullScan else m) in *.
  destruct (rm_Found m') eqn:Efm; [|by injection E as <-].
  destruct (recordByNativeID (le_after env) _ _) as [r4|] eqn:E4; [|by destruct (le_fresh env); injection E as <-].
  injection E as <-. split; [done|]. right. unfold m' in *. destruct (negb (rm_Found m) && allowFullScan) eqn:Ea.
  - exists allowFullScan. split; [done|]. by eapply namedByStore_match; eauto.
  - exists false. split; [done|]. by eapply namedByStore_match; eauto.
Qed.

Definition unconfirmed (reason : RequestNotFoundReason) : Prop :=
  reason = RequestNotFoundReasonAmbiguousConversation \/ reason = RequestNotFoundReasonInconclusive.

Lemma Merge_inconclusive reason : unconfirmed (MergeRequestNotFoundReason reason RequestNotFoundReasonInconclusive).
Proof. unfold unconfirmed. destruct reason; auto. Qed.

Lemma resolveRequestMatch_unreadable resolvers requestID allow :
  Exists (fun resolver => resolver requestID allow = None) resolvers ->
  rm_Found (resolveRequestMatch resolvers requestID allow) = false -> unconfirmed (rm_Reason (resolveRequestMatch resolvers requestID allow)).
Proof.
  intros He Hf. unfold resolveRequestMatch in *. destruct resolvers as [|r rs]; [by apply Exists_nil in He|].
  destruct (matchLoop_spec (r :: rs) requestID allow RequestNotFoundReasonUnspecified) as [[H _]|[-> _]]; [congruence|]. cbn [rm_Reason missingRequestMatch].
  rewrite (left_id RequestNotFoundReasonUnspecified MergeRequestNotFoundReason). unfold overall, unconfirmed.
  case_bool_decide; [by left|]. rewrite bool_decide_eq_true_2; [by right|].
  apply list.Exists_exists in He as (x & Hx & Hn). apply list_elem_of_In, in_map_iff. exists x. rewrite Hn. split; [done|by apply list_elem_of_In].
Qed.

(** A miss proves an absence only if everything was read.  When the index could not be
    refreshed, the reason of a miss is that the request is ambiguous or that the search was
    inconclusive.  When a provider's store could not be read, it is one of these, or that the
    conversation a store named is not indexed. *)
Theorem ResolveRequest_miss env requestID allowFullScan res :
  ResolveRequest env requestID allowFullScan = Ok res -> rr_Found res = false ->
  (le_fresh env = false -> unconfirmed (rr_Reason res)) /\
  (Exists (fun resolver => forall allow, resolver (TrimSpace requestID) allow = None) (le_resolvers env) ->
   unconfirmed (rr_Reason res) \/ rr_Reason res = RequestNotFoundReasonUnindexedConversation).
Proof.
  unfold ResolveRequest, normalizeRequestID. intros E Hf. set (id := TrimSpace requestID) in *. cbn zeta in E.
  case_bool_decide as Hne; [done|]. destruct (le_listed env); [|done].
  destruct (recordByLatestRequestID (le_snapshot env) id) as [r1 n1]. destruct (n1 =? 1); [by injection E as <-|].
  destruct (1 <? n1); [injection E as <-; cbn; unfold unconfirmed; tauto|]. set (m := resolveRequestMatch (le_resolvers env) id false) in *.
  destruct (if rm_Found m then _ else None) as [r2|] eqn:E2; [by injection E as <-|].
  destruct (recordByLatestRequestID (le_after env) id) as [r3 n3]. destruct (n3 =? 1); [by injection E as <-|].
  destruct (1 <? n3); [injection E as <-; cbn; unfold unconfirmed; tauto|].
  set (m' := if negb (rm_Found m) && allowFullScan then resolveRequestMatch (le_resolvers env) id allowFullScan else m) in *.
  destruct (rm_Found m') eqn:Efm.
  - destruct (recordByNativeID (le_after env) _ _); [by injection E as <-|].
    destruct (le_fresh env); injection E as <-; cbn; unfold unconfirmed; split; [done|tauto|tauto|tauto].
  - assert (Exists (fun resolver : RequestResolver => forall allow, resolver id allow = None) (le_resolvers env) -> unconfirmed (rm_Reason m')) as Hun.
    { intros He. assert (exists allow, m' = resolveRequestMatch (le_resolvers env) id allow) as [allow Hm].
      { unfold m'. destruct (negb (rm_Found m) && allowFullScan); eauto. }
      rewrite Hm in *. apply resolveRequestMatch_unreadable; [|done]. eapply Exists_impl; [exact He|]. intros r Hr. apply Hr. }
    injection E as <-. cbn. destruct (le_fresh env); cbn [negb]; split; try done.
    + intros He. left. by apply Hun.
    + intros _. apply Merge_inconclusive.
    + intros _. left. apply Merge_inconclusive.
Qed.

(** Unless the caller allows it, no exhaustive scan runs: the answer does not depend on what
    the stores would say to one. *)
Theorem ResolveRequest_bounded env env' requestID :
  le_listed env = le_listed env' -> le_snapshot env = le_snapshot env' -> le_fresh env = le_fresh env' -> le_after env = le_after env' ->
  Forall2 (fun resolver resolver' : RequestResolver => forall id, resolver id false = resolver' id false) (le_resolvers env) (le_resolvers env') ->
  ResolveRequest env requestID false = ResolveRequest env' requestID false.
Proof.
  intros H1 H2 H3 H4 Hr. assert (forall id, resolveRequestMatch (le_resolvers env) id false = resolveRequestMatch (le_resolvers env') id false) as Hm.
  { intros id. unfold resolveRequestMatch. assert (forall reason, matchLoop (le_resolvers env) id false reason = matchLoop (le_resolvers env') id false reason) as Hl.
    { induction Hr as [|r r' rs rs' Hrr Hrs IH]; intros reason; [done|]. cbn [matchLoop]. rewrite <- Hrr. by destruct (r id false) as [m|]; rewrite ?IH. }
    rewrite Hl. by destruct Hr. }
  unfold ResolveRequest. rewrite H1, H2, H3, H4, Hm. by rewrite !andb_false_r.
Qed.

(** ** Selectors shaped like request ids *)

(** The rune of a sequence that starts outside ASCII is outside ASCII. *)
Lemma DecodeRune_high b s : 128 <= b2z b -> 128 <= (DecodeRune (b :: s)).1.
Proof.
  intros Hb. pose proof (b2z_range b). assert (128 <= RuneError) as He by (unfold RuneError; lia). cbn [DecodeRune].
  destruct (firstByte (b2z b)) as [[[n lo] hi]|] eqn:Ef; [|done].
  assert ((n = 2%nat /\ 194 <= b2z b /\ lo = 128) \/ (n = 3%nat /\ 224 <= b2z b /\ 128 <= lo /\ (b2z b = 224 -> lo = 160)) \/
          (n = 4%nat /\ 240 <= b2z b /\ 128 <= lo /\ (b2z b = 240 -> lo = 144))) as Hn.
  { unfold firstByte in Ef. repeat (case_match; reflect_bools; simplify_eq; try lia). }
  destruct s as [|b1 [|b2 [|b3 s]]]; destruct Hn as [(-> & Hn)|[(-> & Hn)|(-> & Hn)]]; cbn [Nat.eqb];
    repeat (case_match; cbn [fst]; try done); unfold inZ, isCont in *; reflect_bools; cbn [fst]; try done; lia.
Qed.

Lemma requestIDLoop_spec fuel index s : (length s <= fuel)%nat -> requestIDLoop fuel index s = true ->
  forall i b, s !! i = Some b -> if dashIndex (index + i) then b2z b = 45 else isHexDigit (b2z b) = true.
Proof.
  revert index s. induction fuel as [|fuel IH]; intros index [|x s] Hlen Hl i b Hb; cbn in Hlen; try lia; [done..|].
  cbn [requestIDLoop] in Hl. destruct (DecodeRune (x :: s)) as [char width] eqn:Ed.
  destruct (if dashIndex index then _ else _) eqn:Ec; [done|].
  assert (b2z x < 128 /\ char = b2z x /\ width = 1%nat) as (Hx & -> & ->).
  { destruct (Z.lt_ge_cases (b2z x) 128) as [Hlt|Hge].
    - rewrite DecodeRune_ascii in Ed by done. by injection Ed as <- <-.
    - exfalso. assert (128 <= char) as Hbig.
      { pose proof (DecodeRune_high x s Hge) as H. by rewrite Ed in H. }
      destruct (dashIndex index); [apply negb_false_iff, Z.eqb_eq in Ec; lia|].
      apply negb_false_iff in Ec. unfold isHexDigit in Ec. repeat (case_match; reflect_bools; try lia). }
  destruct i as [|i]; cbn in Hb.
  - injection Hb as <-. rewrite Nat.add_0_r. destruct (dashIndex index); apply negb_false_iff in Ec; [by apply Z.eqb_eq|done].
  - rewrite <- Nat.add_succ_comm, <- Nat.add_1_r. apply (IH (index + 1)%nat s); [lia|done|done].
Qed.

(** A selector has the shape of a request id iff it has 36 bytes, with dashes after the eighth,
    twelfth, sixteenth and twentieth hexadecimal digit. *)
Lemma looksLikeRequestID_spec selector : looksLikeRequestID selector = true ->
  length selector = 36%nat /\
  forall i b, selector !! i = Some b -> if dashIndex i then b2z b = 45 else isHexDigit (b2z b) = true.
Proof.
  unfold looksLikeRequestID, requestIDLength. destruct (Z.eqb_spec (zlen selector) 36) as [Hl|]; [|done]. cbn [negb]. intros H.
  split; [unfold zlen in Hl; lia|]. intros i b Hb. by apply (requestIDLoop_spec (length selector) 0 selector).
Qed.

Definition identifies (record : ConvRecord) (selector : bytes) : Prop :=
  rc_ID record = selector \/ rc_NativeID record = selector \/ rc_ArtifactPath record = selector.

Lemma resolveRecordIdentity_spec records selector record :
  resolveRecordIdentity records selector = Some record -> record ∈ records /\ identifies record selector.
Proof.
  intros E. apply List.find_some in E as [Hin E]. split; [by apply list_elem_of_In|]. unfold identifies.
  apply orb_true_iff in E as [E|E]; [apply orb_true_iff in E as [E|E]|]; reflect_bools; auto.
Qed.

(** A selector that has the shape of a request id is matched against what a record is, never
    against what it is about: the answer owns the selector as an identifier, or is the answer
    of a request-id lookup.  Titles do not matter. *)
Theorem Resolve_request_shape toLowerRune env selector record :
  looksLikeRequestID (TrimSpace selector) = true -> Resolve toLowerRune env selector = Ok record ->
  let id := TrimSpace selector in
  identifies record id \/ onlyCarrier (le_snapshot env) id record \/ onlyCarrier (le_after env) id record \/
  exists origin, namedByStore env id false origin record.
Proof.
  unfold Resolve. intros Hs E. cbn zeta in *. set (id := TrimSpace selector) in *. case_bool_decide as Hne; [done|].
  destruct (le_listed env) as [records|]; [|done]. rewrite Hs in E.
  destruct (resolveRecordIdentity records id) as [r|] eqn:E0.
  { injection E as <-. apply resolveRecordIdentity_spec in E0. tauto. }
  unfold resolveUUIDShapedSelector in E. destruct (resolveRecordIdentity (le_snapshot env) id) as [r|] eqn:E1.
  { injection E as <-. apply resolveRecordIdentity_spec in E1. tauto. }
  destruct (recordByLatestRequestID (le_snapshot env) id) as [r2 n2] eqn:E2.
  apply recordByLatestRequestID_spec in E2 as [_ H2]; [|done].
  destruct (Z.eqb_spec n2 1) as [Hn2|_]; [injection E as <-; right; left; by apply H2|].
  destruct (1 <? n2); [done|]. set (m := resolveRequestMatch (le_resolvers env) id false) in *. cbn zeta in E.
  destruct (if rm_Found m then _ else None) as [r3|] eqn:E3.
  { injection E as <-. do 3 right. destruct (rm_Found m) eqn:Em; [|done]. eexists. by eapply namedByStore_match; eauto. }
  destruct (resolveRecordIdentity (le_after env) id) as [r|] eqn:E4.
  { injection E as <-. apply resolveRecordIdentity_spec in E4. tauto. }
  destruct (recordByLatestRequestID (le_after env) id) as [r5 n5] eqn:E5.
  apply recordByLatestRequestID_spec in E5 as [_ H5]; [|done].
  destruct (Z.eqb_spec n5 1) as [Hn5|_]; [injection E as <-; right; right; left; by apply H5|].
  destruct (1 <? n5); [done|]. destruct (rm_Found m) eqn:Em; [|done]. cbn [negb] in E.
  destruct (recordByNativeID (le_after env) _ _) as [r6|] eqn:E6; [|done]. injection E as <-. do 3 right.
  eexists. by eapply namedByStore_match; eauto.
Qed.

(** ** Examples *)

Definition sampleRequestID : bytes := lit "0123abcd-0000-4000-8000-0123456789ab".

Definition carrier (id title : bytes) : ConvRecord :=
  MkRecord id ProviderCursor id [] None [] title false [] (lit "/" ++ id) [] [] 0 0 0 false sampleRequestID.

(** Nothing cached; a store that names the conversation [c1], found by the refresh. *)
Definition liveEnv (fresh : bool) : lookupEnv :=
  MkLookup (Some []) [] fresh (if fresh then [MkRecord (lit "cursor:c1") ProviderCursor (lit "c1") [] None [] sampleRequestID false [] (lit "/c1") [] [] 0 0 0 false []] else [])
    [fun _ _ => None; fun _ _ => Some (MkMatch true ProviderCursor (lit "c1") RequestOriginLive RequestNotFoundReasonUnspecified)].

Lemma ResolveRequest_sound_witness :
  exists res, ResolveRequest (liveEnv true) sampleRequestID false = Ok res /\ rr_Record res = hd emptyRecord (le_after (liveEnv true)) /\
    ((rr_Origin res = RequestOriginIndex /\
      (onlyCarrier (le_snapshot (liveEnv true)) sampleRequestID (rr_Record res) \/ onlyCarrier (le_after (liveEnv true)) sampleRequestID (rr_Record res))) \/
     exists allow, (allow = true -> false = true) /\ namedByStore (liveEnv true) sampleRequestID allow (rr_Origin res) (rr_Record res)).
Proof.
  eexists. split; [reflexivity|]. split; [reflexivity|].
  exact (proj2 (ResolveRequest_sound (liveEnv true) sampleRequestID false _ eq_refl eq_refl)).
Defined.

(** Two copies of a conversation: no answer, and no wrong one. *)
Example copies_are_ambiguous :
  ResolveRequest (MkLookup (Some []) [carrier (lit "a") []; carrier (lit "b") []] true [] []) sampleRequestID true
  = Ok (ambiguousRequestResolution sampleRequestID).
Proof. reflexivity. Qed.

Lemma ResolveRequest_miss_witness :
  exists res, ResolveRequest (liveEnv false) sampleRequestID false = Ok res /\ rr_Found res = false /\ unconfirmed (rr_Reason res).
Proof.
  eexists. split; [reflexivity|]. split; [reflexivity|].
  exact (proj1 (ResolveRequest_miss (liveEnv false) sampleRequestID false _ eq_refl eq_refl) eq_refl).
Defined.

Lemma ResolveRequest_bounded_witness :
  ResolveRequest (liveEnv true) sampleRequestID false
  = ResolveRequest (MkLookup (Some []) [] true (le_after (liveEnv true))
      [fun _ _ => None; fun _ full => if full : bool then None else Some (MkMatch true ProviderCursor (lit "c1") RequestOriginLive RequestNotFoundReasonUnspecified)])
      sampleRequestID false.
Proof. apply ResolveRequest_bounded; try reflexivity. repeat constructor. Defined.

Lemma Resolve_request_shape_witness :
  Resolve (fun r => r) (liveEnv true) sampleRequestID = Ok (hd emptyRecord (le_after (liveEnv true))) /\
  (let id := TrimSpace sampleRequestID in
   identifies (hd emptyRecord (le_after (liveEnv true))) id \/ onlyCarrier (le_snapshot (liveEnv true)) id (hd emptyRecord (le_after (liveEnv true))) \/
   onlyCarrier (le_after (liveEnv true)) id (hd emptyRecord (le_after (liveEnv true))) \/
   exists origin, namedByStore (liveEnv true) id false origin (hd emptyRecord (le_after (liveEnv true)))).
Proof.
  split; [reflexivity|].
  apply (Resolve_request_shape (fun r => r) (liveEnv true) sampleRequestID); reflexivity.
Defined.
