(* ===== verification/CvList.v ===== *)
(** * CvList: listing conversations and searching their raw text (conversation/list.go,
      raw_text_search.go)

    Listing filters the records and cuts a page out of them; a raw-text search returns the
    first matching message of each conversation, page by page.  The theorems: following the
    offsets lists every matching record once; a page of a search is a page of the list of all
    matches; lowering the text only when it needs it makes no difference; excerpts and
    snippets are bounded; clamping the input of a snippet can change it. *)

From S2P Require Import Prelude GoUtf8 GoStrconv GoText GoSort CvRecord.

Open Scope Z_scope.

(** ** Paths and words *)

Definition slash : Byte.byte := Byte.x2f.
Definition dot : bytes := lit ".".
Definition dotdot : bytes := lit "..".

(** [path/filepath.Clean]: the elements kept so far, the last one first. *)
Definition cleanElement (rooted : bool) (kept : list bytes) (element : bytes) : list bytes :=
  if bool_decide (element = []) || bool_decide (element = dot) then kept
  else if bool_decide (element = dotdot) then
    match kept with
    | last :: kept' => if bool_decide (last = dotdot) then element :: kept else kept'
    | [] => if rooted then [] else [element]
    end
  else element :: kept.

Definition Clean (path : bytes) : bytes :=
  let rooted := match path with b :: _ => bool_decide (b = slash) | [] => false end in
  let kept := rev (foldl (cleanElement rooted) [] (Split path [slash])) in
  if rooted then slash :: Join kept [slash]
  else match kept with [] => dot | _ :: _ => Join kept [slash] end.

(** [strings.Fields]: the words between white space. *)
Fixpoint fieldsLoop (fuel : nat) (s word : bytes) : list bytes :=
  let flush := match word with [] => [] | _ :: _ => [word] end in
  match s, fuel with
  | [], _ => flush
  | _ :: _, O => flush
  | _ :: _, S fuel =>
      let '(r, width) := DecodeRune s in
      if IsSpace r then flush ++ fieldsLoop fuel (drop width s) []
      else fieldsLoop fuel (drop width s) (word ++ take width s)
  end.

Definition Fields (s : bytes) : list bytes := fieldsLoop (length s) s [].

(** ** Listing *)

Definition DefaultListLimit : Z := 20.
Definition MaxListLimit : Z := 100.
Definition DefaultSearchLimit : Z := 20.
Definition MaxSearchLimit : Z := 50.

Record ListOptions := MkListOptions {
  lo_Limit : Z;
  lo_Offset : Z;
  lo_Provider : Provider;
  lo_WorkspaceRoot : bytes;
  lo_Query : bytes;
  lo_IncludeArchived : bool;
  lo_All : bool;
}.

Record ListResult := MkListResult {
  lr_Records : list ConvRecord;
  lr_TotalMatched : Z;
  lr_ReturnedCount : Z;
  lr_Offset : Z;
  lr_Limit : Z;
  lr_NextOffset : Z;
  lr_HasMore : bool;
}.

Definition cleanWorkspaceFilter (workspaceRoot : bytes) : bytes :=
  let workspaceRoot := TrimSpace workspaceRoot in
  if bool_decide (workspaceRoot = []) then [] else Clean workspaceRoot.

Definition normalizeListOptions (options : ListOptions) : ListOptions :=
  let offset := if lo_Offset options <? 0 then 0 else lo_Offset options in
  let limit := if lo_All options then 0
               else let limit := if lo_Limit options <=? 0 then DefaultListLimit else lo_Limit options in
                    if MaxListLimit <? limit then MaxListLimit else limit in
  MkListOptions limit offset (lo_Provider options) (cleanWorkspaceFilter (lo_WorkspaceRoot options)) (TrimSpace (lo_Query options))
    (lo_IncludeArchived options) (lo_All options).

Section list.
Context (toLowerRune : Z -> Z).

Definition queryTerms (query : bytes) : list bytes :=
  filter (fun term => term <> []) (map TrimSpace (Fields (ToLower toLowerRune (TrimSpace query)))).

Definition recordMatchesTerms (record : ConvRecord) (terms : list bytes) : bool :=
  let fields := [rc_ID record; providerString (rc_Provider record); rc_NativeID record; rc_Title record; rc_WorkspaceRoot record;
                 rc_ArtifactPath record; rc_ArtifactKind record; rc_Model record] in
  let joined := ToLower toLowerRune (Join fields [Byte.x0a]) in
  forallb (Contains joined) terms.

Definition recordMatchesListOptions (record : ConvRecord) (options : ListOptions) : bool :=
  if negb (lo_IncludeArchived options) && rc_Archived record then false else
  if providerValid (lo_Provider options) && negb (bool_decide (rc_Provider record = lo_Provider options)) then false else
  if negb (bool_decide (lo_WorkspaceRoot options = [])) &&
     (let filterWorkspace := cleanWorkspaceFilter (lo_WorkspaceRoot options) in
      let recordWorkspace := cleanWorkspaceFilter (rc_WorkspaceRoot record) in
      negb (bool_decide (recordWorkspace = filterWorkspace)) && negb (HasPrefix recordWorkspace (filterWorkspace ++ [slash]))) then false else
  let terms := queryTerms (lo_Query options) in
  if negb (bool_decide (terms = [])) && negb (recordMatchesTerms record terms) then false else true.

(** The records that match. *)
Definition matching (records : list ConvRecord) (options : ListOptions) : list ConvRecord :=
  filter (fun record => recordMatchesListOptions record (normalizeListOptions options) = true) records.

Definition FilterRecords (records : list ConvRecord) (options : ListOptions) : ListResult :=
  let filtered := matching records options in
  let options := normalizeListOptions options in
  let totalMatched := zlen filtered in
  let start := Z.min (lo_Offset options) totalMatched in
  let stop := if lo_All options then totalMatched else Z.min (start + lo_Limit options) totalMatched in
  let page := slice filtered start stop in
  let nextOffset := start + zlen page in
  MkListResult page totalMatched (zlen page) start (lo_Limit options) nextOffset (nextOffset <? totalMatched).

Definition ConversationIDsMatching (records : list ConvRecord) (provider : Provider) (workspaceRoot : bytes) (includeArchived : bool)
  : list bytes :=
  map rc_ID (lr_Records (FilterRecords records (MkListOptions 0 0 provider workspaceRoot [] includeArchived true))).
End list.

(** ** Snippets *)

Definition searchSnippetRunes : Z := 240.
Definition snippetInputMaxBytes : Z := searchSnippetRunes * 8.
Definition searchExcerptMaxBytes : Z := 4096.

(** [utf8.RuneStart]. *)
Definition RuneStart (b : Byte.byte) : bool := negb (isCont (b2z b)).

(** The largest [cut' <= cut] that is 0 or at the start of a rune. *)
Fixpoint runeCut (text : bytes) (cut : nat) : nat :=
  match cut with
  | O => O
  | S cut' => match text !! cut with
              | Some b => if RuneStart b then cut else runeCut text cut'
              | None => cut
              end
  end.

Definition clampSnippet (text : bytes) : bytes :=
  if snippetInputMaxBytes <? zlen text then take (runeCut text (Z.to_nat snippetInputMaxBytes)) text else text.

Definition renderSnippet (text : bytes) : bytes :=
  let normalized := Join (Fields text) (lit " ") in
  let runes := runesOf normalized in
  if zlen runes <=? searchSnippetRunes then normalized
  else stringOfRunes (take (Z.to_nat searchSnippetRunes) runes) ++ lit "...".

Definition snippet (text : bytes) : bytes := renderSnippet (clampSnippet text).

Definition Excerpt (text : bytes) : bytes :=
  let trimmed := TrimSpace text in
  if zlen trimmed <=? searchExcerptMaxBytes then trimmed
  else TrimRight (take (runeCut trimmed (Z.to_nat searchExcerptMaxBytes)) trimmed) [Byte.x20; Byte.x09; Byte.x0a] ++ [Byte.x0a] ++ lit "...".

(** ** Raw text search *)

Record SearchOptions := MkSearchOptions {
  so_Query : bytes;
  so_Limit : Z;
  so_Offset : Z;
  so_Provider : Provider;
  so_WorkspaceRoot : bytes;
  so_IncludeArchived : bool;
  so_Roles : list bytes;
  so_FromUnix : option Z;
  so_UntilUnix : option Z;
  so_ConversationID : bytes;
}.

Record SearchMatch := MkSearchMatch {
  sm_Record : ConvRecord;
  sm_MessageIndex : Z;
  sm_Role : bytes;
  sm_Timestamp : option Z;
  sm_Snippet : bytes;
  sm_ContextWindow : bytes;
}.

Record SearchResult := MkSearchResult {
  sr_Matches : list SearchMatch;
  sr_ConversationsScanned : Z;
  sr_ReturnedCount : Z;
  sr_Limit : Z;
  sr_Offset : Z;
  sr_NextOffset : Z;
  sr_HasMore : bool;
}.

Inductive searchError := ErrQueryRequired | searchCanceled.

Definition normalizeRawTextOptions (options : SearchOptions) : SearchOptions :=
  let offset := if so_Offset options <? 0 then 0 else so_Offset options in
  let limit := if so_Limit options <=? 0 then DefaultSearchLimit else so_Limit options in
  let limit := if MaxSearchLimit <? limit then MaxSearchLimit else limit in
  MkSearchOptions (TrimSpace (so_Query options)) limit offset (so_Provider options) (cleanWorkspaceFilter (so_WorkspaceRoot options))
    (so_IncludeArchived options) (so_Roles options) (so_FromUnix options) (so_UntilUnix options) (so_ConversationID options).

Definition needsLowering (text : bytes) : bool :=
  existsb (fun b => ((65 <=? b2z b) && (b2z b <=? 90)) || (128 <=? b2z b)) text.

(** A message: its role, its time in seconds unless it has none, and its rendered text; what
    a parser streams is messages and at most one error, after which it is not read on. *)
Section search.
Context (toLowerRune : Z -> Z) (EqualFold : bytes -> bytes -> bool).
Context {Message : Type} (roleOf : Message -> bytes) (unixOf : Message -> option Z) (RenderMessageIndexText : Message -> bytes).

Definition textContainsTerms (text : bytes) (terms : list bytes) : bool :=
  let text := if needsLowering text then ToLower toLowerRune text else text in
  forallb (Contains text) terms.

Definition messageMatchesRowFilters (message : Message) (roles : list bytes) (fromUnix untilUnix : option Z) : bool :=
  if negb (bool_decide (roles = [])) && negb (existsb (fun role => EqualFold role (roleOf message)) roles) then false else
  match fromUnix, untilUnix with
  | None, None => true
  | _, _ =>
      match unixOf message with
      | None => false
      | Some timestamp =>
          if match fromUnix with Some from => timestamp <? from | None => false end then false else
          if match untilUnix with Some stop => stop <=? timestamp | None => false end then false else true
      end
  end.

(** The stream of a record: messages, and an error in place of one. *)
Fixpoint streamMatch (record : ConvRecord) (terms : list bytes) (options : SearchOptions) (messageIndex : Z) (stream : list (option Message))
  : option (option SearchMatch) :=
  match stream with
  | [] => Some None
  | None :: _ => None
  | Some message :: stream =>
      let indexText := RenderMessageIndexText message in
      if messageMatchesRowFilters message (so_Roles options) (so_FromUnix options) (so_UntilUnix options) && textContainsTerms indexText terms
      then Some (Some (MkSearchMatch record messageIndex (roleOf message) (unixOf message) (snippet indexText) (Excerpt indexText)))
      else streamMatch record terms options (messageIndex + 1) stream
  end.

(** [resolveStream] fails when no parser is registered for the provider. *)
Definition firstRawTextMatch (resolveStream : ConvRecord -> option (list (option Message))) (record : ConvRecord) (terms : list bytes)
    (options : SearchOptions) : option (option SearchMatch) :=
  match resolveStream record with
  | None => None
  | Some stream => streamMatch record terms options 0 stream
  end.

Context (resolveStream : ConvRecord -> option (list (option Message))).

(** The loop over the candidates; [ctxErr] is whether the context has ended before a record. *)
Fixpoint searchLoop (ctxErr : ConvRecord -> bool) (terms : list bytes) (options : SearchOptions) (candidates : list ConvRecord)
    (scanned skipped : Z) (matches : list SearchMatch) : outcome searchError (Z * list SearchMatch * bool) :=
  match candidates with
  | [] => Ok (scanned, matches, false)
  | record :: candidates =>
      if negb (bool_decide (so_ConversationID options = [])) && negb (bool_decide (rc_ID record = so_ConversationID options))
      then searchLoop ctxErr terms options candidates scanned skipped matches
      else if ctxErr record then Fail searchCanceled else
      let scanned := scanned + 1 in
      match firstRawTextMatch resolveStream record terms options with
      | None => searchLoop ctxErr terms options candidates scanned skipped matches
      | Some None => searchLoop ctxErr terms options candidates scanned skipped matches
      | Some (Some found) =>
          if skipped <? so_Offset options then searchLoop ctxErr terms options candidates scanned (skipped + 1) matches
          else if zlen matches =? so_Limit options then Ok (scanned, matches, true)
          else searchLoop ctxErr terms options candidates scanned skipped (matches ++ [found])
      end
  end.

Definition SearchRawText (records : list ConvRecord) (ctxErr : ConvRecord -> bool) (options : SearchOptions) : outcome searchError SearchResult :=
  let options := normalizeRawTextOptions options in
  let terms := queryTerms toLowerRune (so_Query options) in
  if bool_decide (terms = []) then Fail ErrQueryRequired else
  let candidates := lr_Records (FilterRecords toLowerRune records
    (MkListOptions 0 0 (so_Provider options) (so_WorkspaceRoot options) [] (so_IncludeArchived options) true)) in
  '(scanned, matches, hasMore) ← searchLoop ctxErr terms options candidates 0 0 [];
  Ok (MkSearchResult matches scanned (zlen matches) (so_Limit options) (so_Offset options) (so_Offset options + zlen matches) hasMore).
End search.

(** ** Pages *)

Definition atOffset (options : ListOptions) (offset : Z) : ListOptions :=
  MkListOptions (lo_Limit options) offset (lo_Provider options) (lo_WorkspaceRoot options) (lo_Query options) (lo_IncludeArchived options)
    (lo_All options).

(** A client that follows the offsets: it asks for the page at [offset], and for the next one
    while there are more; [None] when [requests] requests are not enough to come to the end. *)
Fixpoint pagesFrom (toLowerRune : Z -> Z) (requests : nat) (records : list ConvRecord) (options : ListOptions) (offset : Z) : option (list ListResult) :=
  match requests with
  | O => None
  | S requests =>
      let page := FilterRecords toLowerRune records (atOffset options offset) in
      if lr_HasMore page
      then pages ← pagesFrom toLowerRune requests records options (lr_NextOffset page); Some (page :: pages)
      else Some [page]
  end.

Lemma matching_offset toLowerRune records options offset :
  matching toLowerRune records (atOffset options offset) = matching toLowerRune records options.
Proof. done. Qed.

Lemma limit_range options : lo_All options = false -> 1 <= lo_Limit (normalizeListOptions options) <= MaxListLimit.
Proof.
  intros E. unfold normalizeListOptions. cbn [lo_Limit]. rewrite E. unfold DefaultListLimit, MaxListLimit. cbn zeta.
  destruct (Z.leb_spec (lo_Limit options) 0) as [H|H]; [cbn; lia|]. destruct (Z.ltb_spec 100 (lo_Limit options)); lia.
Qed.

Lemma slice_split {A} (l : list A) a b : 0 <= a <= b -> b <= zlen l -> drop (Z.to_nat a) l = slice l a b ++ drop (Z.to_nat b) l.
Proof.
  intros Ha Hb. unfold slice. rewrite <- (take_drop (Z.to_nat (b - a)) (drop (Z.to_nat a) l)) at 1. f_equal.
  rewrite drop_drop. f_equal. lia.
Qed.

Lemma slice_zlen {A} (l : list A) a b : 0 <= a <= b -> b <= zlen l -> zlen (slice l a b) = b - a.
Proof. intros Ha Hb. unfold slice, zlen in *. rewrite length_take, length_drop. lia. Qed.

(** The page at an offset within the matching records. *)
Lemma page_at toLowerRune records options offset :
  let l := matching toLowerRune records options in
  let limit := lo_Limit (normalizeListOptions options) in
  lo_All options = false -> 0 <= offset <= zlen l ->
  let stop := Z.min (offset + limit) (zlen l) in
  FilterRecords toLowerRune records (atOffset options offset) =
  MkListResult (slice l offset stop) (zlen l) (stop - offset) offset limit stop (stop <? zlen l).
Proof.
  intros l limit Hall Ho stop. assert (1 <= limit <= MaxListLimit) as Hlim by (by apply limit_range). unfold FilterRecords. rewrite matching_offset. fold l.
  assert (lo_Offset (normalizeListOptions (atOffset options offset)) = offset) as -> by (cbn; destruct (Z.ltb_spec offset 0); lia).
  change (lo_All (normalizeListOptions (atOffset options offset))) with (lo_All options).
  change (lo_Limit (normalizeListOptions (atOffset options offset))) with limit. rewrite Hall, Z.min_l by lia. cbn zeta. fold stop.
  rewrite slice_zlen by lia. by replace (offset + (stop - offset)) with stop by lia.
Qed.

(** The number of pages that list [rest] records, [limit] at a time; no records are a page too. *)
Definition pagesOf (limit rest : Z) : Z := Z.max 1 ((rest + limit - 1) / limit).

Lemma pagesOf_last limit rest : 0 <= rest <= limit -> 1 <= limit -> pagesOf limit rest = 1.
Proof. intros Hr Hl. unfold pagesOf. pose proof (Z.div_lt_upper_bound (rest + limit - 1) limit 2). lia. Qed.

Lemma pagesOf_next limit rest : 1 <= limit < rest -> pagesOf limit rest = 1 + pagesOf limit (rest - limit).
Proof.
  intros H. unfold pagesOf. replace (rest + limit - 1) with ((rest - limit + limit - 1) + 1 * limit) by lia. rewrite Z.div_add by lia.
  pose proof (Z.div_le_lower_bound (rest - limit + limit - 1) limit 1). lia.
Qed.

(** What every page of a listing says. *)
Definition pageOf (total limit : Z) (page : ListResult) : Prop :=
  lr_TotalMatched page = total /\ lr_Limit page = limit /\ lr_ReturnedCount page = zlen (lr_Records page) /\ zlen (lr_Records page) <= limit.

Lemma pagesFrom_exact toLowerRune requests records options offset :
  let l := matching toLowerRune records options in
  let limit := lo_Limit (normalizeListOptions options) in
  lo_All options = false -> 0 <= offset <= zlen l -> pagesOf limit (zlen l - offset) <= Z.of_nat requests ->
  exists pages, pagesFrom toLowerRune requests records options offset = Some pages /\
    concat (map lr_Records pages) = drop (Z.to_nat offset) l /\ zlen pages = pagesOf limit (zlen l - offset) /\
    Forall (pageOf (zlen l) limit) pages.
Proof.
  intros l limit Hall. assert (1 <= limit <= MaxListLimit) as Hlim by (by apply limit_range).
  revert offset. induction requests as [|requests IH]; intros offset Ho Hf; [unfold pagesOf in Hf; lia|]. cbn [pagesFrom].
  rewrite page_at by done. fold l limit. set (stop := Z.min (offset + limit) (zlen l)). cbn zeta. cbn [lr_HasMore lr_NextOffset].
  assert (pageOf (zlen l) limit (MkListResult (slice l offset stop) (zlen l) (stop - offset) offset limit stop (stop <? zlen l))) as Hp
    by (split_and!; cbn [lr_ReturnedCount lr_Records]; try done; rewrite slice_zlen by lia; lia).
  destruct (Z.ltb_spec stop (zlen l)) as [Hlt|Hge].
  - assert (stop = offset + limit) as Es by lia. rewrite (pagesOf_next limit (zlen l - offset)) in * by lia.
    replace (zlen l - offset - limit) with (zlen l - stop) in * by lia.
    destruct (IH stop) as (pages & -> & Hc & Hn & Hps); [lia|lia|]. eexists. split; [reflexivity|]. split_and!.
    + cbn [map concat lr_Records]. rewrite Hc. symmetry. apply slice_split; lia.
    + rewrite zlen_cons, Hn. lia.
    + by constructor.
  - eexists. split; [reflexivity|]. rewrite pagesOf_last by lia. split_and!; [|done|by constructor].
    cbn [map concat lr_Records]. rewrite app_nil_r, (slice_split l offset stop), (drop_ge l (Z.to_nat stop)), app_nil_r by (unfold zlen in *; lia). done.
Qed.

(** C33. Paging is complete and ends: a client that starts at offset 0 and asks for the next page
    while there are more comes to a page that says there are none, after as many requests as
    it takes to list the matching records a limit at a time; it has then seen every matching
    record exactly once, in order.  Each page has the limit at most, its own count, and the
    total. *)
Theorem pages_complete toLowerRune records options :
  lo_All options = false ->
  let found := matching toLowerRune records options in
  let limit := lo_Limit (normalizeListOptions options) in
  1 <= limit <= MaxListLimit /\
  exists pages, pagesFrom toLowerRune (Z.to_nat (pagesOf limit (zlen found))) records options 0 = Some pages /\
    concat (map lr_Records pages) = found /\ zlen pages = pagesOf limit (zlen found) /\ Forall (pageOf (zlen found) limit) pages.
Proof.
  intros Hall found limit. split; [by apply limit_range|]. pose proof (zlen_nonneg found) as Hn.
  destruct (pagesFrom_exact toLowerRune (Z.to_nat (pagesOf limit (zlen found))) records options 0 Hall) as (pages & E & Hp); [fold found; lia| |].
  - fold found limit. rewrite Z.sub_0_r. unfold pagesOf. lia.
  - exists pages. fold found limit in Hp. rewrite Z.sub_0_r in Hp. done.
Qed.

(** ** Searching *)

(** Lowering the text only when it has an upper-case ASCII letter or a byte outside ASCII
    gives the same answer as always lowering it. *)
Theorem textContainsTerms_exact toLowerRune text terms :
  textContainsTerms toLowerRune text terms = forallb (Contains (ToLower toLowerRune text)) terms.
Proof.
  unfold textContainsTerms. destruct (needsLowering text) eqn:E; [done|]. do 2 f_equal.
  assert (Forall (fun b => b2z b < 128 /\ lowerByte b = b) text) as Hall.
  { unfold needsLowering in E. apply Forall_forall. intros b Hb. assert (forall c, In c text -> ((65 <=? b2z c) && (b2z c <=? 90)) || (128 <=? b2z c) = false) as H.
    { intros c Hc. destruct (((65 <=? b2z c) && (b2z c <=? 90)) || (128 <=? b2z c)) eqn:Ec; [|done].
      rewrite <- E. symmetry. apply existsb_exists. eauto. }
    specialize (H b ltac:(by apply list_elem_of_In)). apply orb_false_iff in H as [H1 H2]. reflect_bools.
    split; [done|]. unfold lowerByte. by rewrite H1. }
  unfold ToLower. replace (forallb (fun b => b2z b <? RuneSelf) text) with true.
  - induction Hall as [|b text [_ Hb] Hall IH]; [done|]. cbn [map]. rewrite Hb. f_equal. apply IH.
    cbn in E. by apply orb_false_iff in E as [_ E].
  - symmetry. apply forallb_forall. intros b Hb. rewrite Forall_forall in Hall. apply Z.ltb_lt. unfold RuneSelf.
    by apply Hall, list_elem_of_In.
Qed.

Section exact.
Context (toLowerRune : Z -> Z) (EqualFold : bytes -> bytes -> bool).
Context {Message : Type} (roleOf : Message -> bytes) (unixOf : Message -> option Z) (RenderMessageIndexText : Message -> bytes).
Context (resolveStream : ConvRecord -> option (list (option Message))).

(** What a search looks for, said of the messages of a conversation and not of the loops. *)
Section wanted.
Context (terms : list bytes) (options : SearchOptions).

(** A message that passes the filters and has every term in its lowered text.  A message without
    a time passes no bound; the lower bound is in, the upper one is out. *)
Record wanted (message : Message) : Prop := {
  wa_role : so_Roles options = [] \/ exists role, role ∈ so_Roles options /\ EqualFold role (roleOf message) = true;
  wa_from : forall from, so_FromUnix options = Some from -> exists time, unixOf message = Some time /\ from <= time;
  wa_until : forall stop, so_UntilUnix options = Some stop -> exists time, unixOf message = Some time /\ time < stop;
  wa_terms : forall term, term ∈ terms -> Contains (ToLower toLowerRune (RenderMessageIndexText message)) term = true;
}.

(** The match of a conversation: its first wanted message, before which nothing failed. *)
Definition firstWanted (record : ConvRecord) (found : SearchMatch) : Prop :=
  exists before message after,
    resolveStream record = Some (map Some before ++ Some message :: after) /\
    Forall (fun m => ~ wanted m) before /\ wanted message /\
    found = MkSearchMatch record (zlen before) (roleOf message) (unixOf message)
              (snippet (RenderMessageIndexText message)) (Excerpt (RenderMessageIndexText message)).

(** The conversations searched: all, or the one that is named. *)
Definition inScope (record : ConvRecord) : Prop := so_ConversationID options = [] \/ rc_ID record = so_ConversationID options.

#[export] Instance inScope_dec record : Decision (inScope record).
Proof. unfold inScope. apply _. Defined.

(** The matches of a list of conversations, in its order. *)
Inductive matchesOf : list ConvRecord -> list SearchMatch -> Prop :=
| matches_none : matchesOf [] []
| matches_hit record records found all :
    inScope record -> firstWanted record found -> matchesOf records all -> matchesOf (record :: records) (found :: all)
| matches_skip record records all :
    (inScope record -> forall found, ~ firstWanted record found) -> matchesOf records all -> matchesOf (record :: records) all.

Lemma wanted_spec message :
  messageMatchesRowFilters EqualFold roleOf unixOf message (so_Roles options) (so_FromUnix options) (so_UntilUnix options) &&
  textContainsTerms toLowerRune (RenderMessageIndexText message) terms = true <-> wanted message.
Proof.
  rewrite andb_true_iff, textContainsTerms_exact, forallb_forall. unfold messageMatchesRowFilters.
  assert (negb (bool_decide (so_Roles options = [])) && negb (existsb (fun role => EqualFold role (roleOf message)) (so_Roles options)) = false <->
    (so_Roles options = [] \/ exists role, role ∈ so_Roles options /\ EqualFold role (roleOf message) = true)) as Hrole.
  { rewrite andb_false_iff, !negb_false_iff, bool_decide_eq_true, existsb_exists. by setoid_rewrite list_elem_of_In. }
  destruct (negb _ && negb _).
  { split; [by intros [? _]|]. intros [Hr _ _ _]. by apply Hrole in Hr. }
  destruct Hrole as [Hrole _]. split.
  - intros [H Ht]. split; [by apply Hrole| | |intros term Hterm; by apply Ht, list_elem_of_In].
    + intros from E. rewrite E in H. destruct (unixOf message) as [time|]; [|done]. exists time. split; [done|].
      destruct (Z.ltb_spec time from); done.
    + intros stop E. rewrite E in H. destruct (unixOf message) as [time|]; [|by destruct (so_FromUnix options)]. exists time. split; [done|].
      destruct (so_FromUnix options) as [from|]; [destruct (Z.ltb_spec time from); [done|]|]; destruct (Z.leb_spec stop time); done || lia.
  - intros [_ Hf Hu Ht]. split; [|intros term Hterm; by apply Ht, list_elem_of_In].
    destruct (so_FromUnix options) as [from|], (so_UntilUnix options) as [stop|]; try done.
    + destruct (Hf _ eq_refl) as (time & E & H1), (Hu _ eq_refl) as (time' & E' & H2). rewrite E in *. injection E' as <-.
      by rewrite (proj2 (Z.ltb_ge _ _)), (proj2 (Z.leb_gt _ _)).
    + destruct (Hf _ eq_refl) as (time & E & H1). rewrite E. by rewrite (proj2 (Z.ltb_ge _ _)).
    + destruct (Hu _ eq_refl) as (time & E & H1). rewrite E. by rewrite (proj2 (Z.leb_gt _ _)).
Qed.

Lemma streamMatch_spec record index stream found :
  streamMatch toLowerRune EqualFold roleOf unixOf RenderMessageIndexText record terms options index stream = Some (Some found) <->
  exists before message after, stream = map Some before ++ Some message :: after /\
    Forall (fun m => ~ wanted m) before /\ wanted message /\
    found = MkSearchMatch record (index + zlen before) (roleOf message) (unixOf message)
              (snippet (RenderMessageIndexText message)) (Excerpt (RenderMessageIndexText message)).
Proof.
  revert index. induction stream as [|[m|] stream IH]; intros index; cbn [streamMatch].
  - split; [done|]. intros ([|] & ? & ? & ? & _); done.
  - cbn zeta. destruct (messageMatchesRowFilters _ _ _ _ _ _ _ && textContainsTerms _ _ _) eqn:E.
    + apply wanted_spec in E. split.
      * intros [= <-]. exists [], m, stream. rewrite zlen_nil, Z.add_0_r. done.
      * intros ([|b before] & message & after & Hs & Hb & Hm & ->); cbn [map app] in Hs; injection Hs as [= <-].
        { by rewrite zlen_nil, Z.add_0_r. }
        by apply Forall_inv in Hb.
    + assert (~ wanted m) as Hm by (rewrite <- wanted_spec; by rewrite E). rewrite IH. split.
      * intros (before & message & after & -> & Hb & Hw & ->). exists (m :: before), message, after.
        split_and!; [done|by constructor|done|]. rewrite zlen_cons. by replace (index + (1 + zlen before)) with (index + 1 + zlen before) by lia.
      * intros ([|b before] & message & after & Hs & Hb & Hw & ->); cbn [map app] in Hs; injection Hs as [= <-]; [done|].
        exists before, message, after. apply Forall_cons in Hb as [_ Hb]. split_and!; try done. rewrite zlen_cons. by replace (index + (1 + zlen before)) with (index + 1 + zlen before) by lia.
  - split; [done|]. intros ([|] & ? & ? & ? & _); done.
Qed.

Abbreviation first := (fun record => firstRawTextMatch toLowerRune EqualFold roleOf unixOf RenderMessageIndexText resolveStream record terms options).

Lemma first_spec record found : first record = Some (Some found) <-> firstWanted record found.
Proof.
  unfold firstRawTextMatch, firstWanted. destruct (resolveStream record) as [stream|].
  - rewrite streamMatch_spec. split; intros (before & message & after & H1 & H2 & H3 & H4); exists before, message, after.
    + split_and!; [by rewrite H1|done|done|exact H4].
    + split_and!; [by injection H1|done|done|exact H4].
  - split; [done|]. by intros (? & ? & ? & ? & _).
Qed.

(** The same matches, computed. *)
Definition foundIn (record : ConvRecord) : option SearchMatch := if decide (inScope record) then mjoin (first record) else None.

Lemma foundIn_scope record : inScope record -> foundIn record = mjoin (first record).
Proof. intros H. unfold foundIn. by rewrite decide_True. Qed.

Lemma foundIn_out record : ~ inScope record -> foundIn record = None.
Proof. intros H. unfold foundIn. by rewrite decide_False. Qed.

Lemma foundIn_spec record found : foundIn record = Some found <-> inScope record /\ firstWanted record found.
Proof.
  unfold foundIn. rewrite <- first_spec. destruct (decide (inScope record)); [|by split; [|intros []]].
  destruct (first record) as [[f|]|]; cbn; (split; [intros [= <-]|intros [_ [= <-]]]; done) || (split; [done|by intros []]).
Qed.

Lemma matchesOf_omap records all : matchesOf records all <-> omap foundIn records = all.
Proof.
  split.
  - induction 1 as [|record records found all Hi Hf _ <-|record records all Hn _ <-]; [done| |]; cbn [omap list_omap].
    + by rewrite (proj2 (foundIn_spec record found)).
    + destruct (foundIn record) as [found|] eqn:E; [|done]. apply foundIn_spec in E as [Hi Hf]. by destruct (Hn Hi found).
  - intros <-. induction records as [|record records IH]; cbn [omap list_omap]; [constructor|].
    destruct (foundIn record) as [found|] eqn:E; [apply foundIn_spec in E as []; by constructor|]. constructor; [|done].
    intros Hi found Hf. assert (foundIn record = Some found) by (by apply foundIn_spec). congruence.
Qed.

(** The conversations counted: those in scope up to the one that has the match after the page, if there is one. *)
Definition counted (records : list ConvRecord) (all : list SearchMatch) (stop scanned : Z) : Prop :=
  (zlen all <= stop /\ scanned = zlen (filter inScope records)) \/
  (stop < zlen all /\ exists before record after found, records = before ++ record :: after /\
     matchesOf before (take (Z.to_nat stop) all) /\ inScope record /\ firstWanted record found /\
     scanned = zlen (filter inScope (before ++ [record]))).
End wanted.

Abbreviation search := (searchLoop toLowerRune EqualFold roleOf unixOf RenderMessageIndexText resolveStream (fun _ => false)).

(** How many conversations the loop counts before it meets the match after the page, and at it. *)
Fixpoint scanCount (terms : list bytes) (options : SearchOptions) (stop : nat) (records : list ConvRecord) : Z :=
  match records with
  | [] => 0
  | record :: records =>
      if decide (inScope options record) then
        match foundIn terms options record, stop with
        | None, _ => 1 + scanCount terms options stop records
        | Some _, O => 1
        | Some _, S stop => 1 + scanCount terms options stop records
        end
      else scanCount terms options stop records
  end.

Lemma scanCount_counted terms options stop records :
  counted terms options records (omap (foundIn terms options) records) (Z.of_nat stop) (scanCount terms options stop records).
Proof.
  revert stop. induction records as [|record records IH]; intros stop; [left; cbn; unfold zlen; cbn; lia|].
  assert (forall stop', counted terms options records (omap (foundIn terms options) records) (Z.of_nat stop') (scanCount terms options stop' records) ->
    forall add all', add = (if decide (inScope options record) then 1 else 0) ->
    (all' = omap (foundIn terms options) records /\ foundIn terms options record = None /\ stop = stop' \/
     exists found, all' = found :: omap (foundIn terms options) records /\ foundIn terms options record = Some found /\ stop = S stop') ->
    counted terms options (record :: records) all' (Z.of_nat stop) (add + scanCount terms options stop' records)) as Hgo.
  { intros stop' Hc add all' -> Hall. assert (zlen all' - Z.of_nat stop = zlen (omap (foundIn terms options) records) - Z.of_nat stop') as Hlen
      by (destruct Hall as [(-> & _ & ->)|(found & -> & _ & ->)]; [|rewrite zlen_cons]; lia).
    assert (forall l, zlen (filter (inScope options) (record :: l)) = (if decide (inScope options record) then 1 else 0) + zlen (filter (inScope options) l)) as Hf
      by (intros l; rewrite filter_cons; destruct (decide (inScope options record)); [by rewrite zlen_cons|lia]).
    destruct Hc as [[Hl ->]|(Hl & before & r & after & found & -> & Hm & Hi & Hw & ->)]; [left|right].
    - rewrite Hf. split; [lia|done].
    - split; [lia|]. exists (record :: before), r, after, found. rewrite <- Hf. split_and!; try done.
      apply matchesOf_omap in Hm. apply matchesOf_omap. cbn [omap list_omap].
      replace (Z.to_nat (Z.of_nat stop')) with stop' in Hm by lia. replace (Z.to_nat (Z.of_nat stop)) with stop by lia.
      destruct Hall as [(-> & -> & ->)|(f & -> & -> & ->)]; rewrite Hm; done. }
  cbn [scanCount omap list_omap]. destruct (decide (inScope options record)) as [Hi|Hi].
  - destruct (foundIn terms options record) as [found|] eqn:E.
    + destruct stop as [|stop].
      * right. rewrite zlen_cons. pose proof (zlen_nonneg (omap (foundIn terms options) records)). split; [lia|].
        exists [], record, records, found. apply foundIn_spec in E as [_ Hw]. split_and!; try done; [constructor|]. cbn [app]. by rewrite filter_cons_True.
      * apply (Hgo stop); [apply IH|done|right; eauto].
    + apply (Hgo stop); [apply IH|done|by left].
  - assert (foundIn terms options record = None) as E by (by apply foundIn_out). rewrite E.
    rewrite <- (Z.add_0_l (scanCount _ _ _ _)). apply Hgo; [apply IH|done|by left].
Qed.

Lemma outOfScope options record :
  negb (bool_decide (so_ConversationID options = [])) && negb (bool_decide (rc_ID record = so_ConversationID options)) = bool_decide (~ inScope options record).
Proof. unfold inScope. repeat case_bool_decide; done || tauto. Qed.

Lemma searchLoop_exact terms options records scanned skipped matches :
  let all := omap (foundIn terms options) records in
  let stop := (so_Offset options - skipped) + (so_Limit options - zlen matches) in
  0 <= skipped <= so_Offset options -> zlen matches <= so_Limit options -> (matches <> [] -> skipped = so_Offset options) ->
  search terms options records scanned skipped matches
  = Ok (scanned + scanCount terms options (Z.to_nat stop) records,
        matches ++ take (Z.to_nat (so_Limit options - zlen matches)) (drop (Z.to_nat (so_Offset options - skipped)) all),
        stop <? zlen all).
Proof.
  cbn zeta. revert scanned skipped matches. induction records as [|record records IH]; intros scanned skipped matches Hs Hm Hsk.
  { cbn [searchLoop omap list_omap scanCount]. rewrite drop_nil, take_nil, app_nil_r, Z.add_0_r. change (zlen []) with 0 at 1.
    rewrite (proj2 (Z.ltb_ge _ _)); [done|lia]. }
  cbn [searchLoop omap list_omap scanCount]. rewrite outOfScope. case_bool_decide as Hi.
  { rewrite foundIn_out, decide_False by done. by apply IH. }
  rewrite foundIn_scope, decide_True by done. cbn zeta.
  destruct (firstRawTextMatch _ _ _ _ _ _ record terms options) as [[found|]|]; cbn [mjoin option_join];
    [|rewrite IH, Z.add_assoc by done; done..].
  set (all := omap (foundIn terms options) records). pose proof (zlen_nonneg all) as Hn. rewrite zlen_cons.
  destruct (Z.ltb_spec skipped (so_Offset options)) as [Hlt|Hge].
  - rewrite IH by (lia || done || (intros H; apply Hsk in H; lia)). fold all.
    replace (Z.to_nat (so_Offset options - skipped + (so_Limit options - zlen matches)))
      with (S (Z.to_nat (so_Offset options - (skipped + 1) + (so_Limit options - zlen matches)))) by lia.
    replace (Z.to_nat (so_Offset options - skipped)) with (S (Z.to_nat (so_Offset options - (skipped + 1)))) by lia. cbn [drop].
    rewrite Z.add_assoc. do 2 f_equal. apply Bool.eq_iff_eq_true. rewrite !Z.ltb_lt. lia.
  - assert (skipped = so_Offset options) as -> by lia. rewrite !Z.sub_diag. cbn [Z.to_nat drop].
    destruct (Z.eqb_spec (zlen matches) (so_Limit options)) as [El|Hne].
    + rewrite El, !Z.sub_diag. cbn [Z.add Z.to_nat take]. rewrite app_nil_r. do 2 f_equal. symmetry. apply Z.ltb_lt. lia.
    + rewrite IH; [|lia|rewrite zlen_app, zlen_cons, zlen_nil; lia|done]. fold all.
      rewrite zlen_app, !zlen_cons, zlen_nil, Z.sub_diag. cbn [Z.to_nat drop].
      replace (Z.to_nat (0 + (so_Limit options - zlen matches))) with (S (Z.to_nat (0 + (so_Limit options - (zlen matches + (1 + 0)))))) by lia.
      replace (Z.to_nat (so_Limit options - zlen matches)) with (S (Z.to_nat (so_Limit options - (zlen matches + (1 + 0))))) by lia. cbn [take].
      rewrite <- app_assoc. do 2 f_equal; [f_equal; lia|]. apply Bool.eq_iff_eq_true. rewrite !Z.ltb_lt. lia.
Qed.

(** C34. A raw-text search that is not cancelled returns a page of all matches.  The match of a
    conversation is its first message that passes the filters and has every term in its
    lowered text, if the conversation could be read as far as that; all matches are those of
    the conversations that are listed for the provider and the workspace and are the one that
    is named, if one is named, in list order.  The page starts at the offset and has at most
    the limit; it says how many matches it has, where the next page starts, whether there is
    a match after it, and how many conversations were read for it: those up to the one with the
    match after the page, or all.  Without a search term there is an error. *)
Theorem SearchRawText_exact records options :
  let normal := normalizeRawTextOptions options in
  let terms := queryTerms toLowerRune (so_Query normal) in
  let records' := matching toLowerRune records
    (MkListOptions 0 0 (so_Provider normal) (so_WorkspaceRoot normal) [] (so_IncludeArchived normal) true) in
  let stop := so_Offset normal + so_Limit normal in
  0 <= so_Offset normal /\ 1 <= so_Limit normal <= MaxSearchLimit /\
  match SearchRawText toLowerRune EqualFold roleOf unixOf RenderMessageIndexText resolveStream records (fun _ => false) options with
  | Ok result =>
      terms <> [] /\ exists all, matchesOf terms normal records' all /\
      sr_Matches result = take (Z.to_nat (so_Limit normal)) (drop (Z.to_nat (so_Offset normal)) all) /\
      sr_ReturnedCount result = zlen (sr_Matches result) /\
      sr_Limit result = so_Limit normal /\ sr_Offset result = so_Offset normal /\
      sr_NextOffset result = so_Offset normal + zlen (sr_Matches result) /\
      (sr_HasMore result = true <-> stop < zlen all) /\
      counted terms normal records' all stop (sr_ConversationsScanned result)
  | Fail e => e = ErrQueryRequired /\ terms = []
  | Panic => False
  end.
Proof.
  unfold SearchRawText. cbn zeta. set (o := normalizeRawTextOptions options). set (lo := MkListOptions _ _ _ _ _ _ _).
  assert (lr_Records (FilterRecords toLowerRune records lo) = matching toLowerRune records lo) as ->.
  { unfold FilterRecords. cbn [lr_Records]. change (lo_All (normalizeListOptions lo)) with true. change (lo_Offset (normalizeListOptions lo)) with 0.
    pose proof (zlen_nonneg (matching toLowerRune records lo)). rewrite Z.min_l by lia. by apply slice_full. }
  assert (0 <= so_Offset o /\ 1 <= so_Limit o <= MaxSearchLimit) as [Ho Hl].
  { unfold o, normalizeRawTextOptions, DefaultSearchLimit, MaxSearchLimit. cbn [so_Offset so_Limit]. split.
    - destruct (Z.ltb_spec (so_Offset options) 0); lia.
    - destruct (Z.leb_spec (so_Limit options) 0); [cbn; lia|]. destruct (Z.ltb_spec 50 (so_Limit options)); lia. }
  split_and!; [done|by apply Hl|by apply Hl|]. case_bool_decide as Ht; [done|].
  rewrite searchLoop_exact by (rewrite ?zlen_nil; lia || done). change (zlen (@nil SearchMatch)) with 0. rewrite !Z.sub_0_r. cbn [app mbind outcome_bind]. split; [done|].
  exists (omap (foundIn (queryTerms toLowerRune (so_Query o)) o) (matching toLowerRune records lo)). split_and!; try done; [by apply matchesOf_omap|by apply Z.ltb_lt|].
  cbn [sr_ConversationsScanned]. rewrite Z.add_0_l.
  pose proof (scanCount_counted (queryTerms toLowerRune (so_Query o)) o (Z.to_nat (so_Offset o + so_Limit o)) (matching toLowerRune records lo)) as H.
  by rewrite Z2Nat.id in H by lia.
Qed.
End exact.

(** ** Bounds of the texts *)

Lemma runeCut_le text cut : (runeCut text cut <= cut)%nat.
Proof.
  induction cut as [|cut IH]; [done|]. cbn [runeCut]. destruct (text !! S cut) as [b|]; [|done]. destruct (RuneStart b); lia.
Qed.

Lemma TrimLeft_suffix s cutset : exists k, TrimLeft s cutset = drop k s.
Proof.
  induction s as [|b s [k IH]]; [by exists 0%nat|]. cbn [TrimLeft]. repeat case_match; (by exists (S k)) || (by exists 0%nat).
Qed.

Lemma TrimRight_prefix s cutset : exists k, TrimRight s cutset = take k s.
Proof.
  unfold TrimRight. destruct (TrimLeft_suffix (rev s) cutset) as [k ->]. exists (length s - k)%nat.
  by rewrite skipn_rev, rev_involutive.
Qed.

(** An excerpt is the trimmed text, or a beginning of it of at most 4096 bytes and an ellipsis. *)
Theorem Excerpt_bounded text :
  Excerpt text = TrimSpace text /\ zlen (TrimSpace text) <= searchExcerptMaxBytes \/
  exists k, Excerpt text = take k (TrimSpace text) ++ [Byte.x0a] ++ lit "..." /\ Z.of_nat k <= searchExcerptMaxBytes.
Proof.
  unfold Excerpt. destruct (Z.leb_spec (zlen (TrimSpace text)) searchExcerptMaxBytes); [by left|]. right.
  destruct (TrimRight_prefix (take (runeCut (TrimSpace text) (Z.to_nat searchExcerptMaxBytes)) (TrimSpace text)) [Byte.x20; Byte.x09; Byte.x0a]) as [k Hk].
  exists (k `min` runeCut (TrimSpace text) (Z.to_nat searchExcerptMaxBytes))%nat. split.
  - rewrite Hk, take_take. by rewrite Nat.min_comm || done.
  - pose proof (runeCut_le (TrimSpace text) (Z.to_nat searchExcerptMaxBytes)). unfold searchExcerptMaxBytes in *. lia.
Qed.

(** Clamping the input of a snippet can change the snippet: white space is collapsed after the
    clamp, so a text that begins with much of it loses what follows. *)
Theorem snippet_clamp_changes :
  let text := replicate 1920 Byte.x20 ++ lit "found it" in
  snippet text = [] /\ renderSnippet text = lit "found it".
Proof. by vm_compute. Qed.

(** ** Examples *)

Definition listed (id : bytes) : ConvRecord :=
  MkRecord id ProviderClaude id [] None [] [] false (lit "/w/../work/") (lit "/" ++ id) [] [] 0 0 0 false [].

Definition listedThree : list ConvRecord := [listed (lit "a"); listed (lit "b"); listed (lit "c")].

Definition twoPerPage : ListOptions := MkListOptions 2 0 ProviderClaude (lit "/work") [] false false.

Lemma pages_complete_witness : exists pages,
  pagesFrom (fun r => r) 2 listedThree twoPerPage 0 = Some pages /\
  map lr_Records pages = [[listed (lit "a"); listed (lit "b")]; [listed (lit "c")]] /\
  concat (map lr_Records pages) = matching (fun r => r) listedThree twoPerPage /\ map lr_HasMore pages = [true; false].
Proof.
  destruct (pages_complete (fun r => r) listedThree twoPerPage eq_refl) as (_ & pages & E & Hc & _ & _). exists pages.
  split; [exact E|]. vm_compute in E. injection E as <-. split; [reflexivity|]. split; [exact Hc|reflexivity].
Defined.

Definition sampleSearch : SearchOptions := MkSearchOptions (lit "Needle") 1 1 ProviderUnspecified [] true [] None None [].

(** Conversation [b] cannot be read. *)
Definition sampleStream (record : ConvRecord) : option (list (option bytes)) :=
  if bool_decide (rc_ID record = lit "b") then Some [Some (lit "x"); None] else Some [Some (lit "hay"); Some (lit "a NEEDLE")].

Definition sampleResult : outcome searchError SearchResult :=
  SearchRawText (fun r => r) (fun a b => bool_decide (a = b)) (fun _ => lit "user") (fun _ => None) (fun m => m) sampleStream
    listedThree (fun _ => false) sampleSearch.

Definition sampleSummary (result : SearchResult) : list (bytes * Z) * (Z * Z * bool) :=
  (map (fun m => (rc_ID (sm_Record m), sm_MessageIndex m)) (sr_Matches result),
   (sr_ReturnedCount result, sr_ConversationsScanned result, sr_HasMore result)).

(** The second match is the one of conversation [c]: three conversations were read for it. *)
Lemma SearchRawText_exact_witness : exists result,
  sampleResult = Ok result /\ sampleSummary result = ([(lit "c", 1)], (1, 3, false)) /\ sr_ReturnedCount result = zlen (sr_Matches result).
Proof.
  pose proof (SearchRawText_exact (fun r => r) (fun a b => bool_decide (a = b)) (fun _ => lit "user") (fun _ => None)
    (fun m => m) sampleStream listedThree sampleSearch) as H. apply proj2, proj2 in H. fold sampleResult in H.
  assert (match sampleResult with Ok result => Some (sampleSummary result) | _ => None end = Some ([(lit "c", 1)], (1, 3, false))) as Hs by (vm_compute; reflexivity).
  destruct sampleResult as [result|e|]; [|discriminate Hs..]. exists result. split; [reflexivity|]. split; [by apply (inj Some) in Hs|].
  destruct H as (_ & all & _ & _ & H & _). exact H.
Defined.
