(* ===== verification/VsRows.v ===== *)
(** * VsRows: the rows of a message document (vectorsearch/rows.go)

    A message document becomes rows: its text, one group of rows per tool call and its
    thinking block, each field cut into pieces of a bounded number of bytes.  A row's path
    names its conversation, message, field and piece; rows that differ only in the piece
    form a family.  The primary key of a row is a digest of its path, split position and
    content.

    Parameters: the shell parser ([shelldecomp], another module) and the lower case of
    runes above ASCII (the Unicode tables). *)

From S2P Require Import Prelude GoUtf8 GoStrconv GoText GoSha256 CsRecord CsStore TkCap.

Open Scope Z_scope.

(** ** Data *)

(** [semsearch.SemToolCall] and [semsearch.SemDoc]; a nil pointer is [None]. *)
Record SemToolCall := MkTool {
  tool_Name : bytes;
  tool_Display : bytes;
  tool_LangHint : bytes;
  tool_Output : bytes;
  tool_IsError : bool;
  tool_TimestampUnix : option Z;
  tool_TimestampUnknown : bool;
}.

Record SemDoc := MkDoc {
  doc_ConversationID : bytes;
  doc_ParentConversationID : bytes;
  doc_MessageIndex : Z;
  doc_Role : bytes;
  doc_TimestampUnix : Z;
  doc_Text : bytes;
  doc_Tools : list SemToolCall;
  doc_Thinking : bytes;
  doc_WorkspaceRoot : bytes;
  doc_Archived : bool;
  doc_LoadRules : bytes;
}.

Record storedChunk := MkChunk {
  sc_Content : bytes;
  sc_RelativePath : bytes;
  sc_ConversationID : bytes;
  sc_ParentConversationID : bytes;
  sc_MessageIndex : Z;
  sc_Role : bytes;
  sc_TimestampUnix : Z;
  sc_WorkspaceRoot : bytes;
  sc_Archived : bool;
  sc_SplitPart : Z;
  sc_LoadRules : bytes;
}.

Record chunkFamily := MkFamily {
  fam_Key : bytes;
  fam_Chunks : list storedChunk;
}.

Definition conversationChunkMaxBytes : Z := 60000.

(** [time.Time{}.Unix()], the marker of an unknown time. *)
Definition missingTimestampUnix : Z := -62135596800.

(** ** Paths *)

Definition conversationRelativePath (conversationID : bytes) (messageIndex : Z) (partIndex : nat) (multipart : bool) : bytes :=
  let basePath := lit "conv/" ++ conversationID ++ lit "/" ++ Itoa messageIndex in
  if negb multipart then basePath else basePath ++ lit "/" ++ Itoa (Z.of_nat partIndex).

Definition conversationRelativePathPrefix (conversationID : bytes) : bytes := lit "conv/" ++ conversationID ++ lit "/".
Definition conversationToolRelativePathPrefix (conversationID : bytes) : bytes := lit "convtool/" ++ conversationID ++ lit "/".
Definition conversationThinkingRelativePathPrefix (conversationID : bytes) : bytes :=
  lit "convthink/" ++ conversationID ++ lit "/".

Definition conversationToolCallPath (conversationID : bytes) (messageIndex : Z) (toolIndex : nat) : bytes :=
  lit "convtool/" ++ conversationID ++ lit "/" ++ Itoa messageIndex ++ lit "/" ++ Itoa (Z.of_nat toolIndex).
Definition conversationThinkingPath (conversationID : bytes) (messageIndex : Z) : bytes :=
  lit "convthink/" ++ conversationID ++ lit "/" ++ Itoa messageIndex.

Definition providerFromConversationID (conversationID : bytes) : bytes :=
  match Index conversationID (lit ":") with
  | None | Some O => []
  | Some separator => take separator conversationID
  end.

(** ** Splitting a field *)

Definition conversationTextIsStorable (text : bytes) : bool := negb (bool_decide (TrimSpace text = [])).

(** The loop of [splitTextByBytes]; every piece takes at least one byte. *)
Fixpoint splitPieces (fuel : nat) (text : bytes) (maxBytes start : nat) : list bytes :=
  match fuel with
  | O => []
  | S fuel =>
      if negb (start <? length text)%nat then [] else
      let end_ := (start + maxBytes)%nat in
      if (length text <=? end_)%nat then [drop start text] else
      let end_ := retreat text start end_ in
      let end_ := if (end_ =? start)%nat then (start + (DecodeRune (drop start text)).2)%nat else end_ in
      take (end_ - start) (drop start text) :: splitPieces fuel text maxBytes end_
  end.

Definition splitTextByBytes (text : bytes) (maxBytes : Z) : list bytes :=
  if (maxBytes <=? 0) || (zlen text <=? maxBytes) then [text]
  else splitPieces (length text) text (Z.to_nat maxBytes) 0.

Definition chunkBuilder : Type := bytes -> nat -> bool -> storedChunk.

Definition appendStorableField (chunks : list storedChunk) (content : bytes) (budget : Z) (build : chunkBuilder)
  : list storedChunk :=
  if negb (conversationTextIsStorable content) then chunks else
  let pieces := splitTextByBytes content budget in
  let multipart := (1 <? length pieces)%nat in
  chunks ++ imap (fun partIndex piece => build piece partIndex multipart) pieces.

Definition isEmpty (s : bytes) : bool := match s with [] => true | _ :: _ => false end.

Definition appendContinuedField (chunks : list storedChunk) (content : bytes) (budget : Z) (continuationPrefix : bytes)
    (build : chunkBuilder) : list storedChunk :=
  let budget :=
    if negb (isEmpty continuationPrefix) && (zlen continuationPrefix + 1 <? budget)
    then budget - (zlen continuationPrefix + 1) else budget in
  appendStorableField chunks content budget (fun piece partIndex multipart =>
    let piece := if (0 <? partIndex)%nat && negb (isEmpty continuationPrefix)
                 then continuationPrefix ++ [nl] ++ piece else piece in
    build piece partIndex multipart).

(** ** Tool calls *)

Definition appendToken (tokens : list bytes) (value : bytes) : list bytes :=
  let trimmed := TrimSpace value in
  if isEmpty trimmed then tokens
  else if bool_decide (trimmed ∈ tokens) then tokens
  else tokens ++ [trimmed].

(** What the code reads of a decomposition by [shelldecomp]. *)
Record shellTarget := MkTarget { target_Resolvable : bool; target_Path : bytes; target_Raw : bytes }.
Record Decomposition := MkDecomposition {
  IsOpaque : bool;
  Commands : list bytes;
  ReadTargets : list shellTarget;
  WriteTargets : list shellTarget;
}.

Definition appendShellTarget (tokens : list bytes) (target : shellTarget) : list bytes :=
  let raw := target_Raw target in let path := target_Path target in
  if target_Resolvable target then
    let tokens := appendToken tokens path in
    if negb (isEmpty (TrimSpace raw)) && negb (bool_decide (TrimSpace raw = TrimSpace path))
    then appendToken tokens raw else tokens
  else appendToken tokens raw.

(** [strings.ToValidUTF8(s, "")]: the bytes that belong to no rune are left out. *)
Fixpoint toValidLoop (fuel : nat) (s : bytes) : bytes :=
  match fuel with
  | O => []
  | S fuel =>
      match s with
      | [] => []
      | _ :: _ =>
          let '(r, width) := DecodeRune s in
          (if (r =? RuneError) && (width =? 1)%nat then [] else take width s) ++ toValidLoop fuel (drop width s)
      end
  end.
Definition ToValidUTF8 (s : bytes) : bytes := toValidLoop (length s) s.

Section shell.
Variable Parse : bytes -> option Decomposition.

Definition appendShellTokens (tokens : list bytes) (command : bytes) : list bytes :=
  match Parse command with
  | None => appendToken tokens command
  | Some d =>
      if IsOpaque d then appendToken tokens command else
      let out := foldl appendToken tokens (Commands d) in
      let out := foldl appendShellTarget out (ReadTargets d) in
      let out := foldl appendShellTarget out (WriteTargets d) in
      if (length out =? length tokens)%nat then appendToken out command else out
  end.

Definition toolContent (tool : SemToolCall) : bytes :=
  let tokens := appendToken [] (tool_Name tool) in
  let display := TrimSpace (tool_Display tool) in
  let tokens :=
    if negb (isEmpty display) && bool_decide (tool_LangHint tool = lit "bash")
    then appendShellTokens tokens display else tokens in
  Join (appendToken tokens (tool_Display tool)) [nl].

(** ** The rows of a document *)

Definition newChunk (doc : SemDoc) (conversationID parentConversationID relativePath content : bytes) : storedChunk :=
  MkChunk content relativePath conversationID parentConversationID (doc_MessageIndex doc) (doc_Role doc)
    (doc_TimestampUnix doc) (doc_WorkspaceRoot doc) (doc_Archived doc) 0 (doc_LoadRules doc).

Definition withTimestamp (doc : SemDoc) (timestampUnix : Z) : SemDoc :=
  MkDoc (doc_ConversationID doc) (doc_ParentConversationID doc) (doc_MessageIndex doc) (doc_Role doc) timestampUnix
    (doc_Text doc) (doc_Tools doc) (doc_Thinking doc) (doc_WorkspaceRoot doc) (doc_Archived doc) (doc_LoadRules doc).

Definition cleanedTool (tool : SemToolCall) : SemToolCall :=
  MkTool (ToValidUTF8 (tool_Name tool)) (ToValidUTF8 (tool_Display tool)) (ToValidUTF8 (tool_LangHint tool))
    (ToValidUTF8 (tool_Output tool)) (tool_IsError tool) (tool_TimestampUnix tool) (tool_TimestampUnknown tool).

(** The document whose time a tool row takes. *)
Definition toolDocument (doc : SemDoc) (tool : SemToolCall) : SemDoc :=
  match tool_TimestampUnix tool with
  | Some known => withTimestamp doc known
  | None => if tool_TimestampUnknown tool then withTimestamp doc missingTimestampUnix else doc
  end.

(** The path of one piece of a field other than the message text. *)
Definition partPath (basePath : bytes) (partIndex : nat) (multipart : bool) : bytes :=
  if multipart then basePath ++ lit "/" ++ Itoa (Z.of_nat partIndex) else basePath.

Definition toolChunks (doc : SemDoc) (conversationID parentConversationID : bytes) (budget : Z)
    (chunks : list storedChunk) (toolIndex : nat) (tool : SemToolCall) : list storedChunk :=
  let cleaned := cleanedTool tool in
  let basePath := conversationToolCallPath conversationID (doc_MessageIndex doc) toolIndex in
  appendContinuedField chunks (toolContent cleaned) budget (TrimSpace (tool_Name cleaned))
    (fun piece partIndex multipart =>
       newChunk (toolDocument doc tool) conversationID parentConversationID (partPath basePath partIndex multipart) piece).

(** The loop over the tool calls. *)
Fixpoint toolsLoop (doc : SemDoc) (conversationID parentConversationID : bytes) (budget : Z)
    (chunks : list storedChunk) (toolIndex : nat) (tools : list SemToolCall) : list storedChunk :=
  match tools with
  | [] => chunks
  | tool :: tools =>
      toolsLoop doc conversationID parentConversationID budget
        (toolChunks doc conversationID parentConversationID budget chunks toolIndex tool) (S toolIndex) tools
  end.

(** The only error is a blank conversation id. *)
Inductive rowsError := rowsConversationIDRequired.

Definition documentChunks (doc : SemDoc) (budget : Z) : outcome rowsError (list storedChunk) :=
  let conversationID := TrimSpace (doc_ConversationID doc) in
  if isEmpty conversationID then Fail rowsConversationIDRequired else
  let parentConversationID := TrimSpace (doc_ParentConversationID doc) in
  let chunks := appendStorableField [] (doc_Text doc) budget (fun piece partIndex multipart =>
    newChunk doc conversationID parentConversationID
      (conversationRelativePath conversationID (doc_MessageIndex doc) partIndex multipart) piece) in
  let chunks := toolsLoop doc conversationID parentConversationID budget chunks 0 (doc_Tools doc) in
  let thinkingPath := conversationThinkingPath conversationID (doc_MessageIndex doc) in
  Ok (appendStorableField chunks (ToValidUTF8 (doc_Thinking doc)) budget (fun piece partIndex multipart =>
        newChunk doc conversationID parentConversationID (partPath thinkingPath partIndex multipart) piece)).
End shell.

(** ** Families *)

(** The three prefixes are tried in turn. *)
Fixpoint familyKeyLoop (relativePath : bytes) (families : list (bytes * nat)) : bytes :=
  match families with
  | [] => relativePath
  | (prefix, segments) :: families =>
      match CutPrefix relativePath prefix with
      | None => familyKeyLoop relativePath families
      | Some remainder =>
          let parts := Split remainder (lit "/") in
          if (length parts <=? segments)%nat then relativePath
          else prefix ++ Join (take segments parts) (lit "/")
      end
  end.

Definition chunkFamilyKey (conversationID relativePath : bytes) : bytes :=
  familyKeyLoop relativePath
    [(conversationRelativePathPrefix conversationID, 1%nat);
     (conversationToolRelativePathPrefix conversationID, 2%nat);
     (conversationThinkingRelativePathPrefix conversationID, 1%nat)].

Definition appendToFamily (chunk : storedChunk) (family : chunkFamily) : chunkFamily :=
  MkFamily (fam_Key family) (fam_Chunks family ++ [chunk]).

Fixpoint groupLoop (conversationID : bytes) (families : list chunkFamily) (positions : gmap bytes nat)
    (chunks : list storedChunk) : list chunkFamily :=
  match chunks with
  | [] => families
  | chunk :: chunks =>
      let key := chunkFamilyKey conversationID (sc_RelativePath chunk) in
      match positions !! key with
      | Some position => groupLoop conversationID (alter (appendToFamily chunk) position families) positions chunks
      | None =>
          groupLoop conversationID (families ++ [MkFamily key [chunk]])
            (<[key := length families]> positions) chunks
      end
  end.

Definition groupFamilies (conversationID : bytes) (chunks : list storedChunk) : list chunkFamily :=
  groupLoop conversationID [] ∅ chunks.

(** ** Keys and stored rows *)

Definition hashInput (chunk : storedChunk) : bytes :=
  if 0 <? sc_SplitPart chunk
  then sc_RelativePath chunk ++ lit ":0:0:" ++ Itoa (sc_SplitPart chunk) ++ lit ":" ++ sc_Content chunk
  else sc_RelativePath chunk ++ lit ":0:0:" ++ sc_Content chunk.

Definition chunkID (chunk : storedChunk) : bytes :=
  lit "chunk_" ++ take 16 (EncodeToString (Sum256 (hashInput chunk))).

(** The fields that are present, separated by commas. *)
Definition jsonObject (fields : list bytes) : bytes := lit "{" ++ Join fields (lit ",") ++ lit "}".
Definition jsonField (name value : bytes) : bytes := jsonString name ++ lit ":" ++ value.
Definition omitEmpty (name value : bytes) : list bytes :=
  if isEmpty value then [] else [jsonField name (jsonString value)].

(** [json.Marshal] of the metadata of a row. *)
Definition encodeChunkMetadata (chunk : storedChunk) : bytes :=
  jsonObject
    (omitEmpty (lit "conversation_id") (sc_ConversationID chunk)
     ++ omitEmpty (lit "parent_conversation_id") (sc_ParentConversationID chunk)
     ++ [jsonField (lit "message_index") (Itoa (sc_MessageIndex chunk))]
     ++ omitEmpty (lit "role") (sc_Role chunk)
     ++ [jsonField (lit "timestamp_unix")
           (if sc_TimestampUnix chunk =? missingTimestampUnix then lit "null" else Itoa (sc_TimestampUnix chunk))]).

Definition StringScalar (s : bytes) : ScalarValue := MkScalar ScalarTypeString false s false 0.
Definition BoolScalar (b : bool) : ScalarValue := MkScalar ScalarTypeBool false [] b 0.
Definition Int64Scalar (z : Z) : ScalarValue := MkScalar ScalarTypeInt64 false [] false z.

Definition timestampScalar (timestampUnix : Z) : ScalarValue :=
  if timestampUnix =? missingTimestampUnix then MkScalar ScalarTypeInt64 true [] false 0 else Int64Scalar timestampUnix.

Definition conversationIDColumn : bytes := lit "conversationId".
Definition parentConversationIDColumn : bytes := lit "parentConversationId".
Definition roleColumn : bytes := lit "role".
Definition providerColumn : bytes := lit "provider".
Definition workspaceRootColumn : bytes := lit "workspaceRoot".
Definition archivedColumn : bytes := lit "archived".
Definition timestampUnixColumn : bytes := lit "timestampUnix".
Definition messageIndexColumn : bytes := lit "messageIndex".
Definition loadRulesColumn : bytes := lit "loadRules".

Definition chunkScalars (toLowerRune : Z -> Z) (chunk : storedChunk) : list (bytes * ScalarValue) :=
  [(conversationIDColumn, StringScalar (sc_ConversationID chunk));
   (parentConversationIDColumn, StringScalar (sc_ParentConversationID chunk));
   (roleColumn, StringScalar (ToLower toLowerRune (sc_Role chunk)));
   (providerColumn, StringScalar (providerFromConversationID (sc_ConversationID chunk)));
   (workspaceRootColumn, StringScalar (sc_WorkspaceRoot chunk));
   (archivedColumn, BoolScalar (sc_Archived chunk));
   (timestampUnixColumn, timestampScalar (sc_TimestampUnix chunk));
   (messageIndexColumn, Int64Scalar (sc_MessageIndex chunk));
   (loadRulesColumn, StringScalar (sc_LoadRules chunk))].

Definition chunkRow (toLowerRune : Z -> Z) (chunk : storedChunk) (vector : list Z) : Row :=
  MkUserRow (chunkID chunk) vector (chunkScalars toLowerRune chunk) (sc_RelativePath chunk) (sc_SplitPart chunk) true
    (sc_Content chunk) (encodeChunkMetadata chunk).

(** ** Pieces of a field *)

Lemma DecodeRune_small s : ((DecodeRune s).2 <= 4)%nat.
Proof. unfold DecodeRune. repeat case_match; cbn; lia. Qed.

(** A valid string starts with a byte that starts a rune. *)
Lemma ValidString_start b s : ValidString (b :: s) = true -> RuneStart b = true.
Proof.
  intros H. destruct (DecodeRune (b :: s)) as [r w] eqn:E. rewrite (ValidString_cons _ _ _ _ E) in H.
  apply andb_true_iff in H as [H _]. destruct (RuneStart b) eqn:Eb; [done|]. exfalso.
  unfold DecodeRune in E. replace (firstByte (b2z b)) with (@None (nat * Z * Z)) in E; [by simplify_eq|].
  clear -Eb. by destruct b.
Qed.

Lemma ValidString_rune b s : ValidString (b :: s) = true -> boundary (b :: s) (DecodeRune (b :: s)).2.
Proof.
  intros H. destruct (DecodeRune (b :: s)) as [r w] eqn:E. rewrite (ValidString_cons _ _ _ _ E) in H.
  apply andb_true_iff in H as [_ H]. right. unfold startsRune. cbn [snd].
  destruct (drop w (b :: s)) as [|x rest] eqn:Ed.
  - destruct ((b :: s) !! w) as [y|] eqn:El; [|done]. apply (drop_S _ y) in El. congruence.
  - assert ((b :: s) !! w = Some x) as ->; [|by eapply ValidString_start].
    pose proof (lookup_drop (b :: s) w 0) as Hl. rewrite Ed, Nat.add_0_r in Hl. done.
Qed.

(** The end of the piece that starts at [start]. *)
Definition pieceEnd (text : bytes) (maxBytes start : nat) : nat :=
  let end_ := retreat text start (start + maxBytes) in
  if (end_ =? start)%nat then (start + (DecodeRune (drop start text)).2)%nat else end_.

Lemma pieceEnd_spec text maxBytes start :
  (0 < maxBytes)%nat -> (start + maxBytes < length text)%nat ->
  let e := pieceEnd text maxBytes start in
  (start < e <= length text)%nat /\
  (e - start <= maxBytes \/ (e - start)%nat = (DecodeRune (drop start text)).2)%nat /\
  (ValidString (drop start text) = true -> boundary (drop start text) (e - start)).
Proof.
  intros Hm Hl. unfold pieceEnd. destruct (retreat_spec text start (start + maxBytes) ltac:(lia)) as (H1 & H2 & _).
  set (e := retreat text start (start + maxBytes)) in *. cbv zeta.
  destruct (drop start text) as [|b rest] eqn:Ed.
  { apply (f_equal length) in Ed. rewrite length_drop in Ed. cbn in Ed. lia. }
  assert (length (b :: rest) = length text - start)%nat as Hlen by (rewrite <- Ed, length_drop; done).
  destruct (Nat.eqb_spec e start) as [He|He].
  - pose proof (DecodeRune_width b rest) as Hw. split_and!; [lia|lia|right; lia|].
    intros Hv. replace (start + (DecodeRune (b :: rest)).2 - start)%nat with (DecodeRune (b :: rest)).2 by lia.
    by apply ValidString_rune.
  - split_and!; [lia|lia|left; lia|]. intros _. right. destruct H2 as [?|H2]; [done|].
    rewrite <- Ed, startsRune_drop. by replace (start + (e - start))%nat with e by lia.
Qed.

(** What every piece satisfies. *)
Definition pieceOk (maxBytes : nat) (piece : bytes) : Prop :=
  piece <> [] /\ (length piece <= Nat.max maxBytes 4)%nat.

Lemma splitPieces_spec fuel text maxBytes start :
  (0 < maxBytes)%nat -> (length text - start <= fuel)%nat -> (start <= length text)%nat ->
  let pieces := splitPieces fuel text maxBytes start in
  concat pieces = drop start text /\ Forall (pieceOk maxBytes) pieces /\
  (ValidString (drop start text) = true -> Forall (fun piece => ValidString piece = true) pieces).
Proof.
  intros Hm. revert start. induction fuel as [|fuel IH]; intros start Hf Hs; cbv zeta.
  { cbn. rewrite drop_ge by lia. done. }
  cbn [splitPieces]. destruct (Nat.ltb_spec start (length text)) as [Hlt|Hge]; cbn [negb].
  2: { cbn. rewrite drop_ge by lia. done. }
  destruct (Nat.leb_spec (length text) (start + maxBytes)) as [Hle|Hgt].
  - split_and!; [apply app_nil_r| |by intros; constructor]. constructor; [|constructor].
    pose proof (length_drop text start). split; [intros E; rewrite E in *; cbn in *; lia|lia].
  - fold (pieceEnd text maxBytes start).
    destruct (pieceEnd_spec text maxBytes start Hm ltac:(lia)) as (H1 & H2 & H3).
    set (e := pieceEnd text maxBytes start) in *.
    destruct (IH e ltac:(lia) ltac:(lia)) as (I1 & I2 & I3).
    assert (drop e text = drop (e - start) (drop start text)) as Ed by (rewrite drop_drop; f_equal; lia).
    assert (length (take (e - start) (drop start text)) = e - start)%nat as El.
    { rewrite length_take, length_drop. lia. }
    split_and!.
    + cbn [concat]. by rewrite I1, Ed, take_drop.
    + constructor; [|done]. pose proof (DecodeRune_small (drop start text)).
      split; [intros E; rewrite E in El; cbn in El; lia|lia].
    + intros Hv. destruct (ValidString_cut _ _ Hv (H3 Hv)) as [Hv1 Hv2]. constructor; [done|].
      apply I3. by rewrite Ed.
Qed.

(** The two cases of the cut. *)
Lemma splitTextByBytes_cases text maxBytes :
  (maxBytes <= 0 \/ zlen text <= maxBytes) /\ splitTextByBytes text maxBytes = [text] \/
  0 < maxBytes < zlen text /\ splitTextByBytes text maxBytes = splitPieces (length text) text (Z.to_nat maxBytes) 0.
Proof.
  unfold splitTextByBytes. destruct (Z.leb_spec maxBytes 0), (Z.leb_spec (zlen text) maxBytes); cbn [orb];
    [left; split; [lia|done]..|right; split; [lia|done]].
Qed.

Lemma splitTextByBytes_concat text maxBytes : concat (splitTextByBytes text maxBytes) = text.
Proof.
  destruct (splitTextByBytes_cases text maxBytes) as [[_ ->]|[Hm ->]]; [apply app_nil_r|].
  destruct (splitPieces_spec (length text) text (Z.to_nat maxBytes) 0) as (H1 & _); [lia|lia|lia|done].
Qed.

Lemma splitTextByBytes_nonempty text maxBytes : text <> [] -> Forall (.≠ []) (splitTextByBytes text maxBytes).
Proof.
  intros Ht. destruct (splitTextByBytes_cases text maxBytes) as [[_ ->]|[Hm ->]]; [by constructor|].
  destruct (splitPieces_spec (length text) text (Z.to_nat maxBytes) 0) as (_ & H2 & _); [lia|lia|lia|].
  eapply Forall_impl; [exact H2|]. by intros piece [? _].
Qed.

(** Cutting a field: its pieces put together are the field, none is empty or above the
    budget (a budget below the width of a rune is raised to that rune), and the pieces of
    valid text are valid. *)
Theorem splitTextByBytes_pieces text maxBytes :
  0 < maxBytes -> text <> [] ->
  concat (splitTextByBytes text maxBytes) = text /\
  Forall (fun piece => 0 < zlen piece <= Z.max maxBytes 4) (splitTextByBytes text maxBytes) /\
  (ValidString text = true -> Forall (fun piece => ValidString piece = true) (splitTextByBytes text maxBytes)).
Proof.
  intros Hm Ht. split; [apply splitTextByBytes_concat|].
  destruct (splitTextByBytes_cases text maxBytes) as [[Hs ->]|[Hs ->]].
  - split; [|by intros; constructor]. constructor; [|done]. destruct text; [done|]. autorewrite with golen in *.
    pose proof (zlen_nonneg text). lia.
  - destruct (splitPieces_spec (length text) text (Z.to_nat maxBytes) 0) as (_ & H2 & H3); [lia|lia|lia|].
    split; [|done]. eapply Forall_impl; [exact H2|]. intros [|b piece] [Hne Hp]; [done|]. unfold zlen in *. cbn in *. lia.
Qed.

Lemma splitTextByBytes_pieces_witness :
  splitTextByBytes (lit "a€b") 3 = [lit "a"; lit "€"; lit "b"] /\
  Forall (fun piece => ValidString piece = true) (splitTextByBytes (lit "a€b") 3).
Proof.
  split; [vm_compute; reflexivity|].
  refine (proj2 (proj2 (splitTextByBytes_pieces (lit "a€b") 3 _ _)) _); [lia|discriminate|vm_compute; reflexivity].
Defined.

(** ** Families of a document *)

Lemma digitsRev_digits fuel n : 0 <= n -> Forall (fun b => isDigit b = true) (digitsRev fuel n).
Proof.
  revert n. induction fuel as [|fuel IH]; intros n Hn; cbn [digitsRev]; [constructor|].
  destruct (Z.ltb_spec n 10).
  - constructor; [apply digit_plain; lia|constructor].
  - constructor; [apply digit_plain, Z.mod_pos_bound; lia|apply IH, Z.div_pos; lia].
Qed.

Lemma Itoa_absent n b : isDigit b = false -> b <> Byte.x2d -> b ∉ Itoa n.
Proof.
  intros Hb Hm H. unfold Itoa in H. assert (forall m, 0 <= m -> b ∉ rev (digitsRev 20 m)) as Hd.
  { intros m Hpos Hin. pose proof (digitsRev_digits 20 m Hpos) as Hall. rewrite Forall_forall in Hall.
    apply list_elem_of_In, in_rev, list_elem_of_In in Hin. apply Hall in Hin. congruence. }
  destruct (Z.ltb_spec n 0); [|by apply (Hd n) in H].
  apply elem_of_app in H as [H|H]; [|by apply (Hd (- n)) in H; [|lia]].
  change (lit "-") with [Byte.x2d] in H. by apply list_elem_of_singleton in H.
Qed.

Lemma Itoa_no_slash n : Byte.x2f ∉ Itoa n.
Proof. by apply Itoa_absent. Qed.

Lemma CutPrefix_app p s : CutPrefix (p ++ s) p = Some s.
Proof.
  unfold CutPrefix. assert (HasPrefix (p ++ s) p = true) as -> by (apply HasPrefix_spec; by exists s).
  by rewrite drop_app_length.
Qed.

Lemma Split_none s : Byte.x2f ∉ s -> Split s (lit "/") = [s].
Proof. intros H. apply (Split_Join [s] Byte.x2f); [done|by repeat constructor]. Qed.

Lemma Split_two s t : Byte.x2f ∉ s -> Byte.x2f ∉ t -> Split (s ++ lit "/" ++ t) (lit "/") = [s; t].
Proof. intros Hs Ht. apply (Split_Join [s; t] Byte.x2f); [done|by repeat constructor]. Qed.

Lemma Split_three s t u :
  Byte.x2f ∉ s -> Byte.x2f ∉ t -> Byte.x2f ∉ u -> Split (s ++ lit "/" ++ t ++ lit "/" ++ u) (lit "/") = [s; t; u].
Proof. intros Hs Ht Hu. apply (Split_Join [s; t; u] Byte.x2f); [done|by repeat constructor]. Qed.

Lemma conversationRelativePath_part id mi i m :
  conversationRelativePath id mi i m = partPath (conversationRelativePath id mi 0 false) i m.
Proof. unfold conversationRelativePath, partPath. by destruct m; cbn [negb]; rewrite <- ?app_assoc. Qed.

(** The key of a row of each field is the path of the field. *)
Lemma chunkFamilyKey_text id mi i m :
  chunkFamilyKey id (partPath (conversationRelativePath id mi 0 false) i m) = conversationRelativePath id mi 0 false.
Proof.
  unfold chunkFamilyKey. cbn [familyKeyLoop].
  assert (conversationRelativePath id mi 0 false = conversationRelativePathPrefix id ++ Itoa mi) as ->.
  { unfold conversationRelativePath, conversationRelativePathPrefix. cbn [negb]. by rewrite <- !app_assoc. }
  unfold partPath. destruct m; rewrite <- ?app_assoc, CutPrefix_app; cbv iota.
  - rewrite Split_two by apply Itoa_no_slash. cbn [length Nat.leb take Join]. done.
  - rewrite Split_none by apply Itoa_no_slash. done.
Qed.

Lemma chunkFamilyKey_tool id mi k i m :
  chunkFamilyKey id (partPath (conversationToolCallPath id mi k) i m) = conversationToolCallPath id mi k.
Proof.
  unfold chunkFamilyKey. cbn [familyKeyLoop].
  assert (conversationToolCallPath id mi k = conversationToolRelativePathPrefix id ++ Itoa mi ++ lit "/" ++ Itoa (Z.of_nat k)) as ->.
  { unfold conversationToolCallPath, conversationToolRelativePathPrefix. by rewrite <- !app_assoc. }
  assert (forall rest, CutPrefix (conversationToolRelativePathPrefix id ++ rest) (conversationRelativePathPrefix id) = None) as E by done.
  unfold partPath. destruct m; rewrite <- ?app_assoc, E, CutPrefix_app; cbv iota.
  - rewrite Split_three by apply Itoa_no_slash. cbn [length Nat.leb take Join]. done.
  - rewrite Split_two by apply Itoa_no_slash. done.
Qed.

Lemma chunkFamilyKey_thinking id mi i m :
  chunkFamilyKey id (partPath (conversationThinkingPath id mi) i m) = conversationThinkingPath id mi.
Proof.
  unfold chunkFamilyKey. cbn [familyKeyLoop].
  assert (conversationThinkingPath id mi = conversationThinkingRelativePathPrefix id ++ Itoa mi) as ->.
  { unfold conversationThinkingPath, conversationThinkingRelativePathPrefix. by rewrite <- !app_assoc. }
  assert (forall rest, CutPrefix (conversationThinkingRelativePathPrefix id ++ rest) (conversationRelativePathPrefix id) = None) as E1 by done.
  assert (forall rest, CutPrefix (conversationThinkingRelativePathPrefix id ++ rest) (conversationToolRelativePathPrefix id) = None) as E2 by done.
  unfold partPath. destruct m; rewrite <- ?app_assoc, E1, E2, CutPrefix_app; cbv iota.
  - rewrite Split_two by apply Itoa_no_slash. cbn [length Nat.leb take Join]. done.
  - rewrite Split_none by apply Itoa_no_slash. done.
Qed.

(** *** Grouping blocks of rows *)

Section group.
Variable id : bytes.
Abbreviation keyOf := (fun chunk => chunkFamilyKey id (sc_RelativePath chunk)).

Lemma groupLoop_continue fs k before block positions rest :
  positions !! k = Some (length fs) -> Forall (fun chunk => keyOf chunk = k) block ->
  groupLoop id (fs ++ [MkFamily k before]) positions (block ++ rest)
  = groupLoop id (fs ++ [MkFamily k (before ++ block)]) positions rest.
Proof.
  intros Hk. revert before. induction block as [|chunk block IH]; intros before Hall; [by rewrite app_nil_r|].
  apply Forall_cons in Hall as [Hc Hall]. cbn [app groupLoop]. rewrite Hc, Hk.
  rewrite alter_app_r_alt by done. rewrite Nat.sub_diag.
  change (alter (appendToFamily chunk) 0%nat [MkFamily k before]) with [MkFamily k (before ++ [chunk])].
  rewrite IH by done. by rewrite <- app_assoc.
Qed.

Lemma groupLoop_block fs k block positions rest :
  positions !! k = None -> block <> [] -> Forall (fun chunk => keyOf chunk = k) block ->
  groupLoop id fs positions (block ++ rest)
  = groupLoop id (fs ++ [MkFamily k block]) (<[k := length fs]> positions) rest.
Proof.
  intros Hk Hne Hall. destruct block as [|chunk block]; [done|]. apply Forall_cons in Hall as [Hc Hall].
  cbn [app groupLoop]. rewrite Hc, Hk. rewrite groupLoop_continue; [done| |done]. by rewrite lookup_insert_eq.
Qed.

Definition hasChunks (family : chunkFamily) : bool := negb (length (fam_Chunks family) =? 0)%nat.

(** Blocks with different keys come back as they are, without the empty ones. *)
Lemma groupLoop_families families fs positions :
  Forall (fun f => Forall (fun chunk => keyOf chunk = fam_Key f) (fam_Chunks f)) families ->
  NoDup (map fam_Key families) -> Forall (fun f => positions !! fam_Key f = None) families ->
  groupLoop id fs positions (concat (map fam_Chunks families)) = fs ++ List.filter hasChunks families.
Proof.
  revert fs positions. induction families as [|[k block] families IH]; intros fs positions Hkeys Hnd Hnone;
    cbn [map concat List.filter fam_Key fam_Chunks] in *; [by rewrite app_nil_r|].
  apply Forall_cons in Hkeys as [Hk Hkeys]. apply Forall_cons in Hnone as [Hn Hnone]. apply NoDup_cons in Hnd as [Hnot Hnd].
  cbn [fam_Key fam_Chunks] in *. destruct block as [|chunk block].
  - cbn [app]. rewrite IH by done. done.
  - rewrite (groupLoop_block _ k) by done. rewrite IH; [by rewrite <- app_assoc|done|done|].
    rewrite Forall_forall in Hnone |- *. intros f Hf. rewrite lookup_insert_ne; [by apply Hnone|].
    intros ->. apply Hnot. apply list_elem_of_In, in_map_iff. exists f. split; [done|]. by apply list_elem_of_In.
Qed.
End group.

(** *** The families of a document *)

Section families.
Variable Parse : bytes -> option Decomposition.

(** The rows of one field: every piece after the first repeats [prefix]. *)
Definition fieldChunks (doc : SemDoc) (key content prefix : bytes) (budget : Z) : list storedChunk :=
  appendContinuedField [] content budget prefix (fun piece partIndex multipart =>
    newChunk doc (TrimSpace (doc_ConversationID doc)) (TrimSpace (doc_ParentConversationID doc))
      (partPath key partIndex multipart) piece).

Definition toolFamily (doc : SemDoc) (budget : Z) (k : nat) (tool : SemToolCall) : chunkFamily :=
  let key := conversationToolCallPath (TrimSpace (doc_ConversationID doc)) (doc_MessageIndex doc) k in
  MkFamily key (fieldChunks (toolDocument doc tool) key (toolContent Parse (cleanedTool tool))
                  (TrimSpace (tool_Name (cleanedTool tool))) budget).

(** One family per field: the text, each tool call and the thinking block. *)
Definition docFamilies (doc : SemDoc) (budget : Z) : list chunkFamily :=
  let id := TrimSpace (doc_ConversationID doc) in
  let text := conversationRelativePath id (doc_MessageIndex doc) 0 false in
  let thinking := conversationThinkingPath id (doc_MessageIndex doc) in
  MkFamily text (fieldChunks doc text (doc_Text doc) [] budget)
  :: imap (toolFamily doc budget) (doc_Tools doc)
  ++ [MkFamily thinking (fieldChunks doc thinking (ToValidUTF8 (doc_Thinking doc)) [] budget)].

Lemma appendStorableField_app chunks content budget build :
  appendStorableField chunks content budget build = chunks ++ appendStorableField [] content budget build.
Proof. unfold appendStorableField. destruct (negb _); [by rewrite app_nil_r|done]. Qed.

Lemma appendStorableField_ext chunks content budget build build' :
  (forall piece i m, build piece i m = build' piece i m) ->
  appendStorableField chunks content budget build = appendStorableField chunks content budget build'.
Proof. intros H. unfold appendStorableField. destruct (negb _); [done|]. f_equal. apply imap_ext. intros. apply H. Qed.

Lemma appendContinuedField_app chunks content budget prefix build :
  appendContinuedField chunks content budget prefix build = chunks ++ appendContinuedField [] content budget prefix build.
Proof. unfold appendContinuedField. by rewrite appendStorableField_app. Qed.

Lemma appendContinuedField_plain chunks content budget build :
  appendContinuedField chunks content budget [] build = appendStorableField chunks content budget build.
Proof.
  unfold appendContinuedField. cbn [isEmpty negb andb]. apply appendStorableField_ext. intros piece i m.
  by rewrite andb_false_r.
Qed.

Lemma toolDocument_ids doc tool :
  doc_ConversationID (toolDocument doc tool) = doc_ConversationID doc /\
  doc_ParentConversationID (toolDocument doc tool) = doc_ParentConversationID doc.
Proof. unfold toolDocument. destruct (tool_TimestampUnix tool); [done|]. by destruct (tool_TimestampUnknown tool). Qed.

Lemma toolsLoop_families doc budget chunks k tools :
  toolsLoop Parse doc (TrimSpace (doc_ConversationID doc)) (TrimSpace (doc_ParentConversationID doc)) budget chunks k tools
  = chunks ++ concat (map fam_Chunks (imap (fun i => toolFamily doc budget (k + i)) tools)).
Proof.
  revert chunks k. induction tools as [|tool tools IH]; intros chunks k; cbn [toolsLoop imap map concat]; [by rewrite app_nil_r|].
  rewrite IH. unfold toolChunks. rewrite appendContinuedField_app, <- app_assoc. f_equal. f_equal.
  - rewrite Nat.add_0_r. unfold toolFamily, fieldChunks. cbn [fam_Chunks].
    destruct (toolDocument_ids doc tool) as [-> ->]. done.
  - f_equal. f_equal. apply imap_ext. intros i t _. cbn. by rewrite Nat.add_succ_r.
Qed.

(** The rows of a document, field by field. *)
Lemma documentChunks_fields doc budget chunks :
  documentChunks Parse doc budget = Ok chunks -> chunks = concat (map fam_Chunks (docFamilies doc budget)).
Proof.
  unfold documentChunks. destruct (isEmpty _); [done|]. intros [= <-]. rewrite appendStorableField_app, toolsLoop_families.
  unfold docFamilies. cbn [map concat fam_Chunks]. rewrite map_app, concat_app. cbn [map concat fam_Chunks].
  rewrite app_nil_r, <- app_assoc. unfold fieldChunks at 1 2. rewrite !appendContinuedField_plain.
  f_equal. apply appendStorableField_ext. intros. by rewrite conversationRelativePath_part.
Qed.

(** A property of every row of a field. *)
Lemma fieldChunks_forall doc key content prefix budget (P : storedChunk -> Prop) :
  (forall i m piece, P (newChunk doc (TrimSpace (doc_ConversationID doc)) (TrimSpace (doc_ParentConversationID doc))
                          (partPath key i m) piece)) ->
  Forall P (fieldChunks doc key content prefix budget).
Proof.
  intros H. unfold fieldChunks, appendContinuedField, appendStorableField. destruct (negb _) in |- *; [constructor|].
  cbn [app]. apply Forall_lookup. intros i chunk Hl. rewrite list_lookup_imap in Hl.
  destruct (_ !! i); [|done]. simplify_eq/=. apply H.
Qed.

Lemma docFamilies_keys doc budget :
  Forall (fun f => Forall (fun chunk => chunkFamilyKey (TrimSpace (doc_ConversationID doc)) (sc_RelativePath chunk) = fam_Key f)
                     (fam_Chunks f)) (docFamilies doc budget).
Proof.
  unfold docFamilies. constructor; [|apply Forall_app; split; [|constructor; [|constructor]]]; cbn [fam_Key fam_Chunks].
  - apply fieldChunks_forall. intros. apply chunkFamilyKey_text.
  - apply Forall_lookup. intros i f Hl. rewrite list_lookup_imap in Hl. destruct (_ !! i); [|done]. simplify_eq/=.
    apply fieldChunks_forall. intros. apply chunkFamilyKey_tool.
  - apply fieldChunks_forall. intros. apply chunkFamilyKey_thinking.
Qed.

Lemma Itoa_inj_nat i j : Z.of_nat i <= maxInt64 -> Z.of_nat j <= maxInt64 -> Itoa (Z.of_nat i) = Itoa (Z.of_nat j) -> i = j.
Proof. intros Hi Hj H. apply (f_equal Atoi) in H. rewrite !Atoi_Itoa in H by lia. by simplify_eq. Qed.

Lemma docFamilies_nodup doc budget : zlen (doc_Tools doc) <= maxInt64 -> NoDup (map fam_Key (docFamilies doc budget)).
Proof.
  intros Hn. unfold docFamilies. cbn [map fam_Key]. rewrite map_app. cbn [map fam_Key].
  set (id := TrimSpace (doc_ConversationID doc)). set (mi := doc_MessageIndex doc).
  assert (map fam_Key (imap (toolFamily doc budget) (doc_Tools doc))
          = imap (fun k _ => conversationToolCallPath id mi k) (doc_Tools doc)) as ->.
  { apply list_eq. intros i. rewrite list_lookup_fmap, !list_lookup_imap. by destruct (_ !! i). }
  assert (forall key, key ∈ imap (fun k (_ : SemToolCall) => conversationToolCallPath id mi k) (doc_Tools doc) ->
            exists k, key = conversationToolCallPath id mi k) as Hin.
  { intros key [i Hl]%list_elem_of_lookup. rewrite list_lookup_imap in Hl. destruct (_ !! i); [|done]. simplify_eq/=. eauto. }
  constructor; [|apply NoDup_app; split_and!].
  - intros [H|H]%elem_of_app; [by apply Hin in H as [k H]|]. by apply list_elem_of_singleton in H.
  - apply NoDup_alt. intros i j key Hi Hj. rewrite list_lookup_imap in Hi, Hj.
    destruct (doc_Tools doc !! i) eqn:Ei; [|done]. destruct (doc_Tools doc !! j) eqn:Ej; [|done]. cbn [fmap option_fmap option_map] in Hi, Hj.
    apply lookup_lt_Some in Ei, Ej. unfold zlen in Hn. apply Some_inj in Hi, Hj. rewrite <- Hj in Hi.
    unfold conversationToolCallPath in Hi. do 5 apply app_inv_head in Hi. apply Itoa_inj_nat; [lia|lia|done].
  - intros key [k ->]%Hin H. by apply list_elem_of_singleton in H.
  - apply NoDup_singleton.
Qed.

(** Grouping gives the rows of a document back field by field: one family for the message
    text, one per tool call and one for the thinking block, in that order, without the fields
    that store nothing. *)
Theorem documentChunks_families doc budget chunks :
  documentChunks Parse doc budget = Ok chunks -> zlen (doc_Tools doc) <= maxInt64 ->
  groupFamilies (TrimSpace (doc_ConversationID doc)) chunks = List.filter hasChunks (docFamilies doc budget).
Proof.
  intros H Hn. rewrite (documentChunks_fields _ _ _ H). unfold groupFamilies.
  rewrite groupLoop_families; [done|apply docFamilies_keys|by apply docFamilies_nodup|].
  apply Forall_forall. intros f _. apply lookup_empty.
Qed.
End families.

(** ** What the rows of a field hold *)

(** The content of row [i] of a field without the prefix that continues it. *)
Definition withoutPrefix (prefix : bytes) (i : nat) (content : bytes) : bytes :=
  if (0 <? i)%nat && negb (isEmpty prefix) then drop (length prefix + 1) content else content.

Lemma withoutPrefix_continued prefix i piece :
  withoutPrefix prefix i (if (0 <? i)%nat && negb (isEmpty prefix) then prefix ++ [nl] ++ piece else piece) = piece.
Proof.
  unfold withoutPrefix. destruct (_ && _); [|done]. rewrite app_assoc.
  replace (length prefix + 1)%nat with (length (prefix ++ [nl])) by (rewrite length_app; cbn; lia).
  apply drop_app_length.
Qed.

Lemma splitTextByBytes_bound text budget : 4 <= budget -> Forall (fun piece => zlen piece <= budget) (splitTextByBytes text budget).
Proof.
  intros Hb. destruct (splitTextByBytes_cases text budget) as [[Hs ->]|[Hs ->]]; [constructor; [lia|done]|].
  destruct (splitPieces_spec (length text) text (Z.to_nat budget) 0) as (_ & H2 & _); [lia|lia|lia|].
  eapply Forall_impl; [exact H2|]. intros piece [_ Hp]. unfold zlen. lia.
Qed.

Lemma storable_nonempty text : conversationTextIsStorable text = true -> text <> [].
Proof. by intros H ->. Qed.

Lemma fieldChunks_nonempty doc key content prefix budget :
  Forall (fun chunk => sc_Content chunk <> []) (fieldChunks doc key content prefix budget).
Proof.
  unfold fieldChunks, appendContinuedField, appendStorableField.
  destruct (conversationTextIsStorable content) eqn:Hs; cbn [negb app]; [|constructor].
  apply Forall_lookup. intros i chunk Hl. rewrite list_lookup_imap in Hl.
  destruct (_ !! i) as [piece|] eqn:Ep; [|done]. apply Some_inj in Hl. subst chunk. cbn [sc_Content newChunk].
  pose proof (Forall_lookup_1 _ _ _ _ (splitTextByBytes_nonempty content _ (storable_nonempty _ Hs)) Ep) as Hne.
  cbv beta in Hne. destruct (_ && negb (isEmpty prefix)); [|done]. by destruct prefix.
Qed.

(** A field with text is recovered from its rows: without the repeated prefix their contents
    put together are the field, and a budget with room for the prefix bounds every row. *)
Theorem fieldChunks_recover doc key content prefix budget :
  conversationTextIsStorable content = true ->
  concat (imap (withoutPrefix prefix) (map sc_Content (fieldChunks doc key content prefix budget))) = content /\
  (zlen prefix + 5 <= budget -> Forall (fun chunk => zlen (sc_Content chunk) <= budget) (fieldChunks doc key content prefix budget)).
Proof.
  intros Hs. unfold fieldChunks, appendContinuedField, appendStorableField. rewrite Hs. cbn [negb app].
  set (budget' := if _ && _ then _ else _). set (pieces := splitTextByBytes content budget').
  split.
  - rewrite <- (splitTextByBytes_concat content budget'). fold pieces. f_equal.
    apply list_eq. intros i. rewrite list_lookup_imap, list_lookup_fmap, list_lookup_imap.
    destruct (pieces !! i) as [piece|]; [|done]. cbn. f_equal. apply withoutPrefix_continued.
  - intros Hb. apply Forall_lookup. intros i chunk Hl. rewrite list_lookup_imap in Hl.
    destruct (pieces !! i) as [piece|] eqn:Ep; [|done]. cbn in Hl. apply Some_inj in Hl. subst chunk. cbn [sc_Content newChunk].
    pose proof (zlen_nonneg prefix) as Hp. destruct (isEmpty prefix) eqn:Ee.
    + rewrite andb_false_r. assert (budget' = budget) as Eb by done. clearbody budget'.
      pose proof (splitTextByBytes_bound content budget' ltac:(lia)) as Hall. rewrite Forall_lookup in Hall.
      specialize (Hall i piece Ep). lia.
    + assert (budget' = budget - (zlen prefix + 1)) as Eb.
      { subst budget'. cbn [negb andb]. by rewrite (proj2 (Z.ltb_lt _ _)) by lia. }
      clearbody budget'. pose proof (splitTextByBytes_bound content budget' ltac:(lia)) as Hall. rewrite Forall_lookup in Hall.
      specialize (Hall i piece Ep). destruct (_ && _); autorewrite with golen; lia.
Qed.

(** A message of three pieces, with its tool call. *)
Definition sampleDoc : SemDoc :=
  MkDoc (lit " claude:s1 ") [] 7 (lit "User") 1700000000 (lit "one two three")
    [MkTool (lit "Bash") (lit "ls -l") (lit "bash") [] false None true] [] [] false [].

Lemma documentChunks_families_witness :
  exists chunks, documentChunks (fun _ => None) sampleDoc 5 = Ok chunks /\
  map fam_Key (groupFamilies (TrimSpace (doc_ConversationID sampleDoc)) chunks)
  = [lit "conv/claude:s1/7"; lit "convtool/claude:s1/7/0"].
Proof.
  eexists. split; [vm_compute; reflexivity|].
  rewrite (documentChunks_families (fun _ => None) sampleDoc 5); [vm_compute; reflexivity|vm_compute; reflexivity|vm_compute; discriminate].
Defined.

Lemma fieldChunks_recover_witness :
  map sc_Content (fieldChunks sampleDoc (lit "k") (lit "one two three") (lit "Bash") 10)
    = [lit "one t"; lit "Bash
wo th"; lit "Bash
ree"] /\
  concat (imap (withoutPrefix (lit "Bash")) (map sc_Content (fieldChunks sampleDoc (lit "k") (lit "one two three") (lit "Bash") 10)))
    = lit "one two three".
Proof.
  split; [vm_compute; reflexivity|].
  apply (fieldChunks_recover sampleDoc (lit "k") (lit "one two three") (lit "Bash") 10). vm_compute. reflexivity.
Defined.

(** The digest does not tell the split position from the content: a row at split position
    [n] has the key of the whole row whose content starts with [n] and a colon. *)
Theorem chunkID_ambiguous path id parent mi role time root archived rules n content :
  0 < n ->
  chunkID (MkChunk content path id parent mi role time root archived n rules)
  = chunkID (MkChunk (Itoa n ++ lit ":" ++ content) path id parent mi role time root archived 0 rules).
Proof.
  intros Hn. unfold chunkID. do 2 f_equal. unfold hashInput. cbn [sc_SplitPart sc_RelativePath sc_Content].
  by rewrite (proj2 (Z.ltb_lt 0 n)).
Qed.

Lemma chunkID_ambiguous_witness :
  chunkID (MkChunk (lit "abc") (lit "conv/s/1") [] [] 1 [] 0 [] false 1 [])
  = chunkID (MkChunk (lit "1:abc") (lit "conv/s/1") [] [] 1 [] 0 [] false 0 []).
Proof. apply (chunkID_ambiguous (lit "conv/s/1") [] [] 1 [] 0 [] false [] 1 (lit "abc")). lia. Defined.
