(* ===== verification/VsEmbed.v ===== *)
(** * VsEmbed: embedding rows and writing them (vectorsearch/embed.go, ingest.go
      [ensureCollection])

    The rows that a collection lacks are packed into embedding requests.  An input that the
    endpoint rejects for its length is cut in half and tried again in the next round; the
    rows that got a vector are buffered and written in batches.

    The embedding endpoint, the vector store and the context are the class [Backend]: any
    functions on a state of their own.  The acknowledged rows and the logged drops are kept
    in the state as lists. *)

From Stdlib Require Import SpecFloat.
From S2P Require Import Prelude GoUtf8 GoStrconv GoText GoFloat GoSha256 CsRecord CsStore TkCap VsRows.

Open Scope Z_scope.

(** ** Limits *)

Definition nvEmbedCodeModelName : bytes := lit "nvidia/nv-embedcode-7b-v1".
Definition nvEmbedCodeInputTokenLimit : Z := 4096.
Definition minimumInputTokenLimit : Z := 512.
(** 0.9 as a [float64] constant. *)
Definition embedTokenSafetyMargin : float64 := S754_finite false 8106479329266893 (-53).
Definition embedBatchRows : Z := 32.
Definition embedBatchTokenBudget : Z := 6000.
Definition estimatedBytesPerPackToken : Z := 4.
Definition rowFlushBytes : Z := 32 * 2 ^ 20.
Definition estimatedRowOverheadBytes : Z := 512.
Definition estimatedBytesPerVectorItem : Z := 4.
Definition splitRetrySpecialTokenMargin : Z := 2.
Definition contextLengthExceededReason : bytes := lit "context_length_exceeded".
Definition emptyContentReason : bytes := lit "empty_content".

Definition activeTokenLimit (toLowerRune : Z -> Z) (embeddingModel : bytes) : Z :=
  if bool_decide (ToLower toLowerRune (TrimSpace embeddingModel) = nvEmbedCodeModelName)
  then nvEmbedCodeInputTokenLimit else minimumInputTokenLimit.

Definition embedByteBudget (toLowerRune : Z -> Z) (embeddingModel : bytes) : Z :=
  let tokenCap := Z.max (f64int (f64mul (f64 (activeTokenLimit toLowerRune embeddingModel)) embedTokenSafetyMargin)) 1 in
  tokenCap * 5 / 2.

Example embedByteBudget_models :
  map (embedByteBudget id) [lit " NVIDIA/nv-embedcode-7b-v1 "; lit "other"] = [9215; 1150].
Proof. vm_compute. reflexivity. Qed.

(** ** Splitting chunks *)

Definition safeInt32 (value : Z) : Z :=
  if 2 ^ 31 - 1 <? value then 2 ^ 31 - 1 else if value <? - 2 ^ 31 then - 2 ^ 31 else value.

Definition withPiece (chunk : storedChunk) (piece : bytes) (splitPart : Z) : storedChunk :=
  MkChunk piece (sc_RelativePath chunk) (sc_ConversationID chunk) (sc_ParentConversationID chunk) (sc_MessageIndex chunk)
    (sc_Role chunk) (sc_TimestampUnix chunk) (sc_WorkspaceRoot chunk) (sc_Archived chunk) splitPart (sc_LoadRules chunk).

Fixpoint childLoop (chunk : storedChunk) (baseOffset offset : Z) (pieces : list bytes) : list storedChunk :=
  match pieces with
  | [] => []
  | piece :: pieces =>
      withPiece chunk piece (safeInt32 (baseOffset + offset + 1)) :: childLoop chunk baseOffset (offset + zlen piece) pieces
  end.

Definition splitChunkAtBudget (chunk : storedChunk) (budget : Z) : list storedChunk :=
  let baseOffset := if 0 <? sc_SplitPart chunk then sc_SplitPart chunk - 1 else 0 in
  childLoop chunk baseOffset 0 (splitTextByBytes (sc_Content chunk) budget).

Definition splitChunkInHalf (chunk : storedChunk) : list storedChunk :=
  splitChunkAtBudget chunk (Z.max (zlen (sc_Content chunk) / 2) 1).

Definition expandOverBudget (chunks : list storedChunk) (byteBudget : Z) : list storedChunk :=
  if byteBudget <=? 0 then chunks
  else concat (map (fun chunk =>
    if zlen (sc_Content chunk) <=? byteBudget then [chunk] else splitChunkAtBudget chunk byteBudget) chunks).

(** ** Packing *)

(** The reuse key of a content. *)
Definition contentKey (content : bytes) : bytes := EncodeToString (Sum256 content).

Definition estimatedTokens (content : bytes) : Z :=
  Z.max ((zlen content + estimatedBytesPerPackToken - 1) / estimatedBytesPerPackToken) 1.

Definition packTokens (reuse : gmap bytes (list Z)) (chunk : storedChunk) : Z :=
  match reuse !! contentKey (sc_Content chunk) with Some _ => 0 | None => estimatedTokens (sc_Content chunk) end.

Fixpoint packLoop (reuse : gmap bytes (list Z)) (groups : list (list storedChunk)) (current : list storedChunk)
    (currentTokens : Z) (chunks : list storedChunk) : list (list storedChunk) :=
  match chunks with
  | [] => if (0 <? length current)%nat then groups ++ [current] else groups
  | chunk :: chunks =>
      let tokens := packTokens reuse chunk in
      let overBudget := embedBatchTokenBudget <? currentTokens + tokens in
      let overRows := embedBatchRows <=? zlen current in
      if (0 <? length current)%nat && (overBudget || overRows)
      then packLoop reuse (groups ++ [current]) [chunk] tokens chunks
      else packLoop reuse groups (current ++ [chunk]) (currentTokens + tokens) chunks
  end.

Definition packChunks (chunks : list storedChunk) (reuse : gmap bytes (list Z)) : list (list storedChunk) :=
  packLoop reuse [] [] 0 chunks.

(** ** The endpoint, the store and the state of an ingest *)

(** What the code reads of [embedding.BatchResult]; a nil vector is [None]. *)
Record SkippedInput := MkSkipped { skip_Index : Z; skip_Reason : bytes; skip_MaxTokens : Z; skip_Reported : bool }.
Record BatchResult := MkBatch { Vectors : list (option (list Z)); Skipped : list SkippedInput }.

(** The effects: whether the context has ended, an embedding request, and the calls on the
    store.  [None] and [false] are errors. *)
Class Backend (W : Type) := {
  ctxErr : W -> W * bool;
  EmbedBatch : list bytes -> W -> W * option BatchResult;
  storeEnsureCollection : Z -> W -> W * bool;
  storeUpsert : list Row -> W -> W * bool;
  collectionPresent : W -> W * option bool;
  sharedLayout : bool;
}.

(** The fields of [Client] that the ingest reads. *)
Record clientConfig := MkConfig {
  cfg_dimension : Z;
  cfg_embeddingModel : bytes;
  cfg_byteBudget : Z;
  cfg_toLowerRune : Z -> Z;
}.

Record rejection := MkRejection { rej_chunk : storedChunk; rej_reason : bytes; rej_maxTokens : Z; rej_maxReported : bool }.

Record ingestStats := MkStats { stat_reused : Z; stat_embedded : Z; stat_split : Z; stat_dropped : Z }.

Inductive ingestError := ieContext | ieEmbed | ieVectorCount | ieNoVector | ieDimension | ieEnsure | ieLoad | ieUpsert | ieRounds.

(** A [rowWriter] with the state it shares: the world, [ensured] of its collection, the
    statistics, the rows that [Upsert] acknowledged and the inputs that were logged as
    dropped. *)
Record ingest (W : Type) := MkIngest {
  ig_world : W;
  ig_ensured : bool;
  ig_pending : list Row;
  ig_pendingBytes : Z;
  ig_written : Z;
  ig_stats : ingestStats;
  ig_upserted : list Row;
  ig_dropped : list storedChunk;
}.
Arguments MkIngest {W}.
Arguments ig_world {W}.
Arguments ig_ensured {W}.
Arguments ig_pending {W}.
Arguments ig_pendingBytes {W}.
Arguments ig_written {W}.
Arguments ig_stats {W}.
Arguments ig_upserted {W}.
Arguments ig_dropped {W}.

Section embed.
Context {W : Type} `{Backend W}.
Variable cfg : clientConfig.

(** *** State and errors *)

Definition I (A : Type) : Type := ingest W -> ingest W * outcome ingestError A.
#[global] Instance I_ret : MRet I := fun A a st => (st, Ok a).
#[global] Instance I_bind : MBind I := fun A B f m st =>
  match m st with
  | (st, Ok a) => f a st
  | (st, Fail e) => (st, Fail e)
  | (st, Panic) => (st, Panic)
  end.
Definition failI {A} (e : ingestError) : I A := fun st => (st, Fail e).

Definition setWorld (w : W) (st : ingest W) : ingest W :=
  MkIngest w (ig_ensured st) (ig_pending st) (ig_pendingBytes st) (ig_written st) (ig_stats st) (ig_upserted st) (ig_dropped st).
Definition setEnsured (st : ingest W) : ingest W :=
  MkIngest (ig_world st) true (ig_pending st) (ig_pendingBytes st) (ig_written st) (ig_stats st) (ig_upserted st) (ig_dropped st).
Definition setPending (pending : list Row) (pendingBytes : Z) (st : ingest W) : ingest W :=
  MkIngest (ig_world st) (ig_ensured st) pending pendingBytes (ig_written st) (ig_stats st) (ig_upserted st) (ig_dropped st).
Definition setStats (stats : ingestStats) (st : ingest W) : ingest W :=
  MkIngest (ig_world st) (ig_ensured st) (ig_pending st) (ig_pendingBytes st) (ig_written st) stats (ig_upserted st) (ig_dropped st).

Definition modify (f : ingest W -> ingest W) : I unit := fun st => (f st, Ok tt).

(** An effect of the world. *)
Definition call {A} (f : W -> W * A) : I A := fun st => let '(w, a) := f (ig_world st) in (setWorld w st, Ok a).
(** An effect that may fail. *)
Definition attempt (e : ingestError) (f : W -> W * bool) : I unit :=
  ok ← call f; if (ok : bool) then mret tt else failI e.

Definition addStats (reused embedded split dropped : Z) : I unit := fun st =>
  let s := ig_stats st in
  (setStats (MkStats (stat_reused s + reused) (stat_embedded s + embedded) (stat_split s + split) (stat_dropped s + dropped)) st,
   Ok tt).

(** *** Writing rows *)

Definition ensureCollection (dimension : Z) : I unit := fun st =>
  if ig_ensured st then (st, Ok tt) else
  (attempt ieEnsure (storeEnsureCollection dimension);;
   (if sharedLayout
    then present ← call collectionPresent; match present with Some _ => mret tt | None => failI ieLoad end
    else mret tt);;
   modify setEnsured : I unit) st.

Definition acknowledged (st : ingest W) : ingest W :=
  MkIngest (ig_world st) (ig_ensured st) [] 0 (ig_written st + zlen (ig_pending st)) (ig_stats st)
    (ig_upserted st ++ ig_pending st) (ig_dropped st).

Definition flush : I unit := fun st =>
  match ig_pending st with
  | [] => (st, Ok tt)
  | first :: _ =>
      (ensureCollection (zlen (ur_Vector first));;
       attempt ieUpsert (storeUpsert (ig_pending st));;
       modify acknowledged : I unit) st
  end.

Definition add (row : Row) : I unit := fun st =>
  let pendingBytes := ig_pendingBytes st + (zlen (ur_Content row) + zlen (ur_RelativePath row) + zlen (ur_Metadata row)
                        + zlen (ur_Vector row) * estimatedBytesPerVectorItem + estimatedRowOverheadBytes) in
  let st := setPending (ig_pending st ++ [row]) pendingBytes st in
  if pendingBytes <? rowFlushBytes then (st, Ok tt) else flush st.

(** *** Rejections *)

Definition splitByteFloor (refusal : rejection) : Z * bool :=
  let limit := activeTokenLimit (cfg_toLowerRune cfg) (cfg_embeddingModel cfg) in
  let modelMaxTokens :=
    if rej_maxReported refusal && (0 <=? rej_maxTokens refusal) then rej_maxTokens refusal
    else if 0 <? limit then limit else minimumInputTokenLimit in
  if modelMaxTokens <=? splitRetrySpecialTokenMargin then (0, false)
  else (modelMaxTokens - splitRetrySpecialTokenMargin, true).

Definition RuneCountInString (s : bytes) : Z := zlen (runesOf s).

Definition shouldSplit (refusal : rejection) : bool :=
  if negb (bool_decide (rej_reason refusal = contextLengthExceededReason)) then false else
  if RuneCountInString (sc_Content (rej_chunk refusal)) <=? 1 then false else
  let '(byteFloor, hasCapacity) := splitByteFloor refusal in
  if negb hasCapacity then false else byteFloor <? zlen (sc_Content (rej_chunk refusal)).

Inductive dropKinds := dkEmptyContent | dkUnexpectedReason | dkIndivisible | dkNoContentCapacity | dkBelowTokenFloor | dkUnknown.

Definition dropKind (refusal : rejection) : dropKinds :=
  if bool_decide (rej_reason refusal = emptyContentReason) then dkEmptyContent else
  if negb (bool_decide (rej_reason refusal = contextLengthExceededReason)) then dkUnexpectedReason else
  if RuneCountInString (sc_Content (rej_chunk refusal)) <=? 1 then dkIndivisible else
  let '(byteFloor, hasCapacity) := splitByteFloor refusal in
  if negb hasCapacity then dkNoContentCapacity else
  if zlen (sc_Content (rej_chunk refusal)) <=? byteFloor then dkBelowTokenFloor else dkUnknown.

Definition logDropped (refusal : rejection) : I unit := fun st =>
  (MkIngest (ig_world st) (ig_ensured st) (ig_pending st) (ig_pendingBytes st) (ig_written st) (ig_stats st)
     (ig_upserted st) (ig_dropped st ++ [rej_chunk refusal]), Ok tt).

(** *** Vectors of a pack *)

(** The positions of the chunks without a stored vector. *)
Definition missPositions (reuse : gmap bytes (list Z)) (pack : list storedChunk) : list nat :=
  List.filter (fun i => match pack !! i with
                        | Some chunk => match reuse !! contentKey (sc_Content chunk) with Some _ => false | None => true end
                        | None => false
                        end) (seq 0 (length pack)).

Definition skippedMap (skipped : list SkippedInput) : gmap Z SkippedInput :=
  foldl (fun m skip => <[skip_Index skip := skip]> m) ∅ skipped.

(** The loop over the answers of the endpoint. *)
Fixpoint answerLoop (pack : list storedChunk) (skipped : gmap Z SkippedInput) (position : Z)
    (answers : list (nat * option (list Z))) (vectors : list (option (list Z))) (rejected : list rejection)
  : I (list (option (list Z)) * list rejection) :=
  match answers with
  | [] => mret (vectors, rejected)
  | (chunkPosition, Some vector) :: answers =>
      if (0 <? cfg_dimension cfg) && negb (zlen vector =? cfg_dimension cfg) then failI ieDimension else
      addStats 0 1 0 0;;
      answerLoop pack skipped (position + 1) answers (<[chunkPosition := Some vector]> vectors) rejected
  | (chunkPosition, None) :: answers =>
      match skipped !! position, pack !! chunkPosition with
      | Some info, Some chunk =>
          answerLoop pack skipped (position + 1) answers vectors
            (rejected ++ [MkRejection chunk (skip_Reason info) (skip_MaxTokens info) (skip_Reported info)])
      | None, _ => failI ieNoVector
      | _, None => fun st => (st, Panic)
      end
  end.

Definition vectorsFor (pack : list storedChunk) (reuse : gmap bytes (list Z)) : I (list (option (list Z)) * list rejection) :=
  let vectors := map (fun chunk => reuse !! contentKey (sc_Content chunk)) pack in
  let positions := missPositions reuse pack in
  addStats (zlen pack - zlen positions) 0 0 0;;
  if (length positions =? 0)%nat then mret (vectors, []) else
  let texts := omap (fun i => sc_Content <$> pack !! i) positions in
  result ← call (EmbedBatch texts);
  match result with
  | None => failI ieEmbed
  | Some result =>
      if negb (length (Vectors result) =? length texts)%nat then failI ieVectorCount else
      answerLoop pack (skippedMap (Skipped result)) 0 (zip positions (Vectors result)) vectors []
  end.

(** *** Rounds *)

(** The rows of a pack that have a vector. *)
Fixpoint addRows (pack : list storedChunk) (vectors : list (option (list Z))) : I unit :=
  match pack, vectors with
  | chunk :: pack, vector :: vectors =>
      match vector with
      | Some vector => add (chunkRow (cfg_toLowerRune cfg) chunk vector);; addRows pack vectors
      | None => addRows pack vectors
      end
  | _, _ => mret tt
  end.

Fixpoint refuse (rejected : list rejection) (retry : list storedChunk) : I (list storedChunk) :=
  match rejected with
  | [] => mret retry
  | refusal :: rejected =>
      if shouldSplit refusal
      then addStats 0 0 1 0;; refuse rejected (retry ++ splitChunkInHalf (rej_chunk refusal))
      else logDropped refusal;; addStats 0 0 0 1;; refuse rejected retry
  end.

Fixpoint packsLoop (packs : list (list storedChunk)) (reuse : gmap bytes (list Z)) (retry : list storedChunk)
  : I (list storedChunk) :=
  match packs with
  | [] => mret retry
  | pack :: packs =>
      ended ← call ctxErr;
      if (ended : bool) then failI ieContext else
      '(vectors, rejected) ← vectorsFor pack reuse;
      addRows pack vectors;;
      retry ← refuse rejected retry;
      packsLoop packs reuse retry
  end.

Fixpoint roundsLoop (fuel : nat) (queue : list storedChunk) (reuse : gmap bytes (list Z)) : I unit :=
  match queue with
  | [] => mret tt
  | _ :: _ =>
      match fuel with
      | O => failI ieRounds
      | S fuel => retry ← packsLoop (packChunks queue reuse) reuse []; roundsLoop fuel retry ∅
      end
  end.

(** A chunk of [n] bytes needs at most [n] rounds. *)
Definition longest (chunks : list storedChunk) : nat := foldr (fun chunk n => Nat.max (length (sc_Content chunk)) n) 0%nat chunks.

Definition embedAndWrite (chunks : list storedChunk) (reuse : gmap bytes (list Z)) : I unit :=
  roundsLoop (S (longest chunks)) chunks reuse;; flush.
End embed.

(** ** Packs *)

Section packs.
Variable reuse : gmap bytes (list Z).

Definition tokensOf (group : list storedChunk) : Z := foldr (fun chunk n => packTokens reuse chunk + n) 0 group.

Lemma tokensOf_app g h : tokensOf (g ++ h) = tokensOf g + tokensOf h.
Proof. unfold tokensOf. induction g as [|c g IH]; cbn [app foldr]; lia. Qed.

(** A group is not empty, has at most 32 rows, and is a single row if it is over the budget. *)
Definition groupOk (group : list storedChunk) : Prop :=
  0 < zlen group <= embedBatchRows /\ (tokensOf group <= embedBatchTokenBudget \/ length group = 1%nat).

Lemma packLoop_spec groups current currentTokens chunks :
  currentTokens = tokensOf current -> Forall groupOk groups -> (current = [] \/ groupOk current) ->
  concat (packLoop reuse groups current currentTokens chunks) = concat groups ++ current ++ chunks /\
  Forall groupOk (packLoop reuse groups current currentTokens chunks).
Proof.
  revert groups current currentTokens. induction chunks as [|chunk chunks IH]; intros groups current tokens Ht Hg Hc; cbn [packLoop].
  - destruct current as [|x current]; cbn [length Nat.ltb Nat.leb]; [by rewrite !app_nil_r|].
    destruct Hc as [?|Hc]; [done|]. rewrite concat_app. cbn [concat]. rewrite !app_nil_r. split; [done|]. by apply Forall_app_2; [|constructor].
  - assert (groupOk [chunk]) as H1 by (split; [vm_compute; done|by right]).
    destruct current as [|x current].
    + cbn [length Nat.ltb Nat.leb andb app]. destruct (IH groups [chunk] (tokens + packTokens reuse chunk)) as [E HF];
        [cbn in Ht |- *; lia|done|by right|]. split; [by rewrite E|done].
    + cbn [length Nat.ltb Nat.leb andb]. destruct Hc as [?|Hc]; [done|].
      destruct ((embedBatchTokenBudget <? tokens + packTokens reuse chunk) || (embedBatchRows <=? zlen (x :: current))) eqn:E.
      * destruct (IH (groups ++ [x :: current]) [chunk] (packTokens reuse chunk)) as [Ec HF];
          [cbn; lia|by apply Forall_app_2; [|constructor]|by right|].
        split; [|done]. rewrite Ec, concat_app. cbn [concat]. by rewrite app_nil_r, <- !app_assoc.
      * reflect_bools. destruct (IH groups ((x :: current) ++ [chunk]) (tokens + packTokens reuse chunk)) as [Ec HF].
        -- rewrite tokensOf_app. cbn [tokensOf foldr]. unfold tokensOf in *. cbn [foldr] in *. lia.
        -- done.
        -- right. split; [autorewrite with golen in *; pose proof (zlen_nonneg current); lia|].
           left. rewrite tokensOf_app, <- Ht. cbn. lia.
        -- split; [|done]. by rewrite Ec, <- app_assoc.
Qed.

(** The requests of a round: the packs are the chunks in order, none is empty or has more than
    32 rows, and one over the token budget is a single row. *)
Theorem packChunks_partition chunks :
  concat (packChunks chunks reuse) = chunks /\ Forall groupOk (packChunks chunks reuse).
Proof. apply (packLoop_spec [] [] 0 chunks); [done|constructor|by left]. Qed.
End packs.

(** ** Splitting *)

Lemma childLoop_content chunk base offset pieces : map sc_Content (childLoop chunk base offset pieces) = pieces.
Proof. revert offset. induction pieces as [|p pieces IH]; intros offset; cbn; [done|]. by rewrite IH. Qed.

Lemma splitChunkAtBudget_content chunk budget :
  map sc_Content (splitChunkAtBudget chunk budget) = splitTextByBytes (sc_Content chunk) budget.
Proof. apply childLoop_content. Qed.

(** The number of runes, of a string that is one rune. *)
Lemma runesOf_whole b s : (DecodeRune (b :: s)).2 = length (b :: s) -> length (runesOf (b :: s)) = 1%nat.
Proof.
  unfold runesOf. cbn [length runesLoop]. destruct (DecodeRune (b :: s)) as [r w]. cbn [snd]. intros ->.
  rewrite (drop_ge (b :: s)) by done. by destruct (length s).
Qed.

Lemma concat_shorter (pieces : list bytes) piece :
  piece ∈ pieces -> pieces <> [piece] -> Forall (.≠ []) pieces -> (length piece < length (concat pieces))%nat.
Proof.
  intros Hin Hne Hall. apply list_elem_of_split in Hin as (l & r & ->). rewrite concat_app. cbn [concat].
  rewrite !length_app. apply Forall_app in Hall as [Hl Hr]. apply Forall_cons in Hr as [_ Hr].
  destruct l as [|x l]; [destruct r as [|y r]; [done|]|].
  - apply Forall_cons in Hr as [Hy _]. destruct y; [done|]. cbn. rewrite !length_app. cbn. lia.
  - apply Forall_cons in Hl as [Hx _]. destruct x; [done|]. cbn. rewrite !length_app. cbn. lia.
Qed.

Lemma splitPieces_whole s maxBytes :
  (0 < maxBytes < length s)%nat -> splitPieces (length s) s maxBytes 0 = [s] -> (DecodeRune s).2 = length s.
Proof.
  intros Hm H. destruct s as [|b s]; [cbn in Hm; lia|]. change (length (b :: s)) with (S (length s)) in H at 1. cbn [splitPieces] in H.
  rewrite (proj2 (Nat.ltb_lt 0 _)), (proj2 (Nat.leb_gt _ _)) in H by (cbn [length] in *; lia). cbn [negb] in H.
  fold (pieceEnd (b :: s) maxBytes 0) in H. destruct (pieceEnd_spec (b :: s) maxBytes 0) as (H1 & H2 & _); [lia|cbn [length] in *; lia|].
  set (e := pieceEnd (b :: s) maxBytes 0) in *. rewrite drop_0, Nat.sub_0_r in *. injection H as H _.
  apply (f_equal length) in H. rewrite length_take in H. lia.
Qed.

Lemma splitHalf_pieces content :
  1 < RuneCountInString content ->
  Forall (fun piece => piece <> [] /\ (length piece < length content)%nat)
    (splitTextByBytes content (Z.max (zlen content / 2) 1)).
Proof.
  intros Hr. destruct content as [|b [|b' s]]; [done| |].
  { exfalso. unfold RuneCountInString, zlen in Hr. rewrite runesOf_whole in Hr; [lia|].
    pose proof (DecodeRune_width b []). cbn [length] in *. lia. }
  set (content := b :: b' :: s) in *. set (half := Z.max (zlen content / 2) 1).
  assert (0 < half < zlen content) as Hh.
  { subst half. assert (2 <= zlen content) by (subst content; autorewrite with golen; pose proof (zlen_nonneg s); lia).
    pose proof (Z.div_lt (zlen content) 2). lia. }
  destruct (splitTextByBytes_cases content half) as [[Hs _]|[_ E]]; [lia|].
  destruct (splitPieces_spec (length content) content (Z.to_nat half) 0) as (H1 & H2 & _); [lia|lia|lia|].
  rewrite E. rewrite drop_0 in H1. rewrite Forall_forall in H2. apply Forall_forall. intros piece Hp.
  split; [by apply H2|]. apply (f_equal length) in H1 as Hl. rewrite <- Hl. apply concat_shorter; [done| |].
  - intros Ew. rewrite Ew in H1. cbn in H1. rewrite app_nil_r in H1. subst piece.
    apply splitPieces_whole in Ew; [|unfold zlen in *; lia].
    unfold RuneCountInString, zlen in Hr. subst content. rewrite runesOf_whole in Hr by done. lia.
  - apply Forall_forall. intros x Hx. by apply H2.
Qed.

(** The two halves of an input with more than one rune are shorter than the input. *)
Lemma splitChunkInHalf_shorter chunk :
  1 < RuneCountInString (sc_Content chunk) ->
  Forall (fun child => (length (sc_Content child) < length (sc_Content chunk))%nat) (splitChunkInHalf chunk).
Proof.
  intros Hr. pose proof (splitHalf_pieces _ Hr) as H. rewrite <- (splitChunkAtBudget_content chunk) in H.
  rewrite Forall_forall in H. apply Forall_forall. intros child Hc. apply (H (sc_Content child)).
  apply list_elem_of_In, in_map, list_elem_of_In. done.
Qed.

Lemma shouldSplit_runes cfg refusal :
  shouldSplit cfg refusal = true -> 1 < RuneCountInString (sc_Content (rej_chunk refusal)).
Proof.
  unfold shouldSplit. destruct (negb _); [done|]. destruct (Z.leb_spec (RuneCountInString (sc_Content (rej_chunk refusal))) 1); [done|].
  done.
Qed.

(** ** What becomes of an input

    An input is kept whole, or it is cut in half and its halves are treated the same way. *)

Definition divisible (chunk : storedChunk) : Prop := 1 < RuneCountInString (sc_Content chunk).

Inductive tiling : storedChunk -> list storedChunk -> Prop :=
| tile_whole c : tiling c [c]
| tile_halves c leaves : divisible c -> tilings (splitChunkInHalf c) leaves -> tiling c leaves
with tilings : list storedChunk -> list storedChunk -> Prop :=
| tiles_nil : tilings [] []
| tiles_cons c cs leaves rest : tiling c leaves -> tilings cs rest -> tilings (c :: cs) (leaves ++ rest).

Scheme tiling_mut := Induction for tiling Sort Prop
with tilings_mut := Induction for tilings Sort Prop.
Combined Scheme tiling_ind' from tiling_mut, tilings_mut.

Lemma tilings_refl cs : tilings cs cs.
Proof. induction cs as [|c cs IH]; [constructor|]. apply (tiles_cons c cs [c] cs); [constructor|done]. Qed.

Lemma tilings_app a b la lb : tilings a la -> tilings b lb -> tilings (a ++ b) (la ++ lb).
Proof. intros Ha Hb. induction Ha; [done|]. rewrite <- app_assoc. by constructor. Qed.

Lemma tilings_app_inv a b leaves : tilings (a ++ b) leaves -> exists la lb, leaves = la ++ lb /\ tilings a la /\ tilings b lb.
Proof.
  revert leaves. induction a as [|c a IH]; intros leaves Ht; [exists [], leaves; by split_and!; [|constructor|]|].
  inversion Ht as [|? ? l rest Hc Hr]; subst. destruct (IH _ Hr) as (la & lb & -> & Ha & Hb).
  exists (l ++ la), lb. rewrite app_assoc. split_and!; [done|by constructor|done].
Qed.

Lemma tilings_permute cs cs' leaves :
  cs ≡ₚ cs' -> tilings cs leaves -> exists leaves', tilings cs' leaves' /\ leaves' ≡ₚ leaves.
Proof.
  intros Hp. revert leaves. induction Hp as [|c cs cs' _ IH|c d cs|cs1 cs2 cs3 _ IH1 _ IH2]; intros leaves Ht.
  - by exists leaves.
  - inversion Ht as [|? ? l rest Hc Hr]; subst. destruct (IH _ Hr) as (leaves' & H1 & H2).
    exists (l ++ leaves'). split; [by constructor|by rewrite H2].
  - inversion Ht as [|? ? l rest Hc Hr]; subst. inversion Hr as [|? ? l' rest' Hc' Hr']; subst.
    exists (l' ++ l ++ rest'). split; [by constructor; [|constructor]|]. apply Permutation_app_swap_app.
  - destruct (IH1 _ Ht) as (l2 & H1 & E1). destruct (IH2 _ H1) as (l3 & H3 & E3). exists l3. split; [done|by rewrite E3].
Qed.

(** Inputs that were cut in half, from the tilings of their halves. *)
Lemma tilings_halves splits leaves :
  Forall divisible splits -> tilings (concat (map splitChunkInHalf splits)) leaves -> tilings splits leaves.
Proof.
  revert leaves. induction splits as [|c splits IH]; intros leaves Hd Ht; cbn [map concat] in *; [done|].
  apply Forall_cons in Hd as [Hc Hd]. apply tilings_app_inv in Ht as (la & lb & -> & Ha & Hb).
  constructor; [by apply tile_halves|by apply IH].
Qed.

(** The leaves hold the content of the inputs, in order. *)
Lemma tiling_content :
  (forall c leaves, tiling c leaves -> concat (map sc_Content leaves) = sc_Content c) /\
  (forall cs leaves, tilings cs leaves -> concat (map sc_Content leaves) = concat (map sc_Content cs)).
Proof.
  apply tiling_ind'.
  - intros c. apply app_nil_r.
  - intros c leaves _ _ ->. unfold splitChunkInHalf. rewrite splitChunkAtBudget_content. apply splitTextByBytes_concat.
  - done.
  - intros c cs leaves rest _ E1 _ E2. by rewrite map_app, concat_app, E1, E2.
Qed.

Definition offsetOf (chunk : storedChunk) : Z := if 0 <? sc_SplitPart chunk then sc_SplitPart chunk - 1 else 0.

(** Pieces of a content from an offset on: each split position is its offset plus one. *)
Fixpoint chain (path : bytes) (offset : Z) (leaves : list storedChunk) : Prop :=
  match leaves with
  | [] => True
  | leaf :: leaves =>
      sc_RelativePath leaf = path /\ sc_SplitPart leaf = offset + 1 /\ chain path (offset + zlen (sc_Content leaf)) leaves
  end.

Lemma chain_app path offset a b :
  chain path offset (a ++ b) <-> chain path offset a /\ chain path (offset + zlen (concat (map sc_Content a))) b.
Proof.
  revert offset. induction a as [|c a IH]; intros offset; cbn [app chain map concat].
  - rewrite zlen_nil, Z.add_0_r. tauto.
  - rewrite IH, zlen_app, Z.add_assoc. tauto.
Qed.

Lemma childLoop_chain chunk base offset pieces :
  0 <= base + offset -> base + offset + zlen (concat pieces) < 2 ^ 31 - 1 ->
  chain (sc_RelativePath chunk) (base + offset) (childLoop chunk base offset pieces).
Proof.
  revert offset. induction pieces as [|p pieces IH]; intros offset Ho Hb; cbn [childLoop chain]; [done|].
  cbn [concat] in Hb. rewrite zlen_app in Hb. pose proof (zlen_nonneg p). pose proof (zlen_nonneg (concat pieces)).
  cbn [withPiece sc_RelativePath sc_SplitPart sc_Content]. split_and!; [done| |].
  - unfold safeInt32. destruct (Z.ltb_spec (2 ^ 31 - 1) (base + offset + 1)); [lia|].
    destruct (Z.ltb_spec (base + offset + 1) (- 2 ^ 31)); [lia|done].
  - rewrite <- Z.add_assoc. apply IH; lia.
Qed.

Definition positionFits (chunk : storedChunk) : Prop :=
  0 <= sc_SplitPart chunk /\ offsetOf chunk + zlen (sc_Content chunk) < 2 ^ 31 - 1.

Lemma splitChunkAtBudget_chain chunk budget :
  positionFits chunk -> chain (sc_RelativePath chunk) (offsetOf chunk) (splitChunkAtBudget chunk budget).
Proof.
  intros [H1 H2]. unfold splitChunkAtBudget. fold (offsetOf chunk). rewrite <- (Z.add_0_r (offsetOf chunk)) at 1.
  apply childLoop_chain; rewrite Z.add_0_r.
  - unfold offsetOf. destruct (Z.ltb_spec 0 (sc_SplitPart chunk)); lia.
  - by rewrite splitTextByBytes_concat.
Qed.

(** An input is written whole, or its leaves are pieces at their offsets. *)
Lemma tiling_chain :
  (forall c leaves, tiling c leaves -> positionFits c -> leaves = [c] \/ chain (sc_RelativePath c) (offsetOf c) leaves) /\
  (forall cs leaves, tilings cs leaves -> forall path offset,
     0 <= offset -> offset + zlen (concat (map sc_Content cs)) < 2 ^ 31 - 1 -> chain path offset cs -> chain path offset leaves).
Proof.
  apply tiling_ind'.
  - intros c _. by left.
  - intros c leaves _ _ IH Hf. right. pose proof Hf as [H1 H2]. apply IH; [| |by apply splitChunkAtBudget_chain].
    + unfold offsetOf. destruct (Z.ltb_spec 0 (sc_SplitPart c)); lia.
    + unfold splitChunkInHalf. by rewrite splitChunkAtBudget_content, splitTextByBytes_concat.
  - done.
  - intros c cs leaves rest Ht IHc _ IH path offset Ho Hb (Hp & Hs & Hc). cbn [map concat] in Hb. rewrite zlen_app in Hb.
    pose proof (zlen_nonneg (sc_Content c)). pose proof (zlen_nonneg (concat (map sc_Content cs))).
    assert (offsetOf c = offset) as Eo by (unfold offsetOf; rewrite Hs, (proj2 (Z.ltb_lt 0 _)); lia).
    rewrite chain_app, (proj1 tiling_content c leaves Ht). split; [|apply IH; [lia|lia|done]].
    assert (positionFits c) as Hf by (split; [lia|rewrite Eo; lia]).
    destruct (IHc Hf) as [->|Hl]; [done|by rewrite <- Hp, <- Eo].
Qed.

(** ** Rounds

    [wp m st Q]: the operation neither panics nor runs out of rounds, and a normal return
    satisfies [Q]. *)

Section rounds.
Context {W : Type} `{Backend W}.
Variable cfg : clientConfig.
Abbreviation row := (fun kept : storedChunk * list Z => chunkRow (cfg_toLowerRune cfg) kept.1 kept.2).

Definition wp {A} (m : I A) (st : ingest W) (Q : A -> ingest W -> Prop) : Prop :=
  match m st with
  | (st', Ok a) => Q a st'
  | (_, Fail e) => e <> ieRounds
  | (_, Panic) => False
  end.

Lemma wp_ret {A} (a : A) st (Q : A -> ingest W -> Prop) : Q a st -> wp (mret a) st Q.
Proof. done. Qed.

Lemma wp_fail {A} e st (Q : A -> ingest W -> Prop) : e <> ieRounds -> wp (failI e) st Q.
Proof. done. Qed.

Lemma wp_bind {A B} (m : I A) (f : A -> I B) st (Q : B -> ingest W -> Prop) :
  wp m st (fun a st' => wp (f a) st' Q) -> wp (m ≫= f) st Q.
Proof. unfold wp, mbind, I_bind. destruct (m st) as [st' [a|e|]]; done. Qed.

Lemma wp_mono {A} (m : I A) st (Q R : A -> ingest W -> Prop) :
  wp m st Q -> (forall a st', Q a st' -> R a st') -> wp m st R.
Proof. unfold wp. destruct (m st) as [st' [a|e|]]; auto. Qed.

(** What an operation adds: rows handed to the writer and inputs logged as dropped. *)
Definition adds (rows : list Row) (drops : list storedChunk) (st st' : ingest W) : Prop :=
  ig_upserted st' ++ ig_pending st' = (ig_upserted st ++ ig_pending st) ++ rows /\
  ig_dropped st' = ig_dropped st ++ drops /\
  ig_written st' - zlen (ig_upserted st') = ig_written st - zlen (ig_upserted st).

(** The part of the state that counts here is unchanged. *)
Definition quiet (st st' : ingest W) : Prop :=
  ig_upserted st' = ig_upserted st /\ ig_pending st' = ig_pending st /\ ig_dropped st' = ig_dropped st /\
  ig_written st' = ig_written st.

Lemma quiet_adds st st' : quiet st st' -> adds [] [] st st'.
Proof. intros (H1 & H2 & H3 & H4). unfold adds. rewrite H1, H2, H3, H4, !app_nil_r. done. Qed.

Lemma quiet_trans st1 st2 st3 : quiet st1 st2 -> quiet st2 st3 -> quiet st1 st3.
Proof. intros (? & ? & ? & ?) (? & ? & ? & ?). unfold quiet. split_and!; congruence. Qed.

Lemma adds_trans r1 r2 d1 d2 st1 st2 st3 :
  adds r1 d1 st1 st2 -> adds r2 d2 st2 st3 -> adds (r1 ++ r2) (d1 ++ d2) st1 st3.
Proof. intros (A1 & A2 & A3) (B1 & B2 & B3). unfold adds. rewrite B1, A1, B2, A2, !app_assoc. split_and!; [done|done|lia]. Qed.

Lemma wp_call {A} (f : W -> W * A) st (Q : A -> ingest W -> Prop) :
  (forall a st', quiet st st' -> Q a st') -> wp (call f) st Q.
Proof. intros HQ. unfold wp, call. destruct (f (ig_world st)) as [w a]. by apply HQ. Qed.

Lemma wp_attempt e f st (Q : () -> ingest W -> Prop) :
  e <> ieRounds -> (forall st', quiet st st' -> Q tt st') -> wp (attempt e f) st Q.
Proof. intros He HQ. apply wp_bind, wp_call. intros [] st' Hq; [by apply HQ|done]. Qed.

Lemma wp_addStats a b c d st (Q : () -> ingest W -> Prop) :
  (forall st', quiet st st' -> Q tt st') -> wp (addStats a b c d) st Q.
Proof. intros HQ. by apply HQ. Qed.

Lemma wp_ensureCollection d st (Q : () -> ingest W -> Prop) :
  (forall st', quiet st st' -> Q tt st') -> wp (ensureCollection d) st Q.
Proof.
  intros HQ. unfold ensureCollection, wp. destruct (ig_ensured st); [by apply HQ|].
  apply (wp_bind (attempt ieEnsure (storeEnsureCollection d))). apply wp_attempt; [done|]. intros st1 H1.
  apply wp_bind. assert (forall st2, quiet st1 st2 -> wp (modify setEnsured) st2 Q) as Hend.
  { intros st2 H2. apply HQ. eapply quiet_trans; [exact H1|]. destruct H2 as (? & ? & ? & ?). done. }
  destruct sharedLayout; [|by apply Hend].
  apply wp_bind, wp_call. intros [b|] st2 H2; [by apply Hend|done].
Qed.

Lemma wp_flush st (Q : () -> ingest W -> Prop) :
  (forall st', adds [] [] st st' -> ig_pending st' = [] -> Q tt st') -> wp flush st Q.
Proof.
  intros HQ. unfold flush, wp. destruct (ig_pending st) as [|first rest] eqn:E.
  { apply HQ; [apply quiet_adds; done|done]. }
  apply (wp_bind (ensureCollection (zlen (ur_Vector first)))). apply wp_ensureCollection. intros st1 H1.
  apply wp_bind, wp_attempt; [done|]. intros st2 H2. destruct (quiet_trans _ _ _ H1 H2) as (Hu & Hp & Hd & Hw).
  apply HQ; [|done]. unfold adds, acknowledged. cbn [ig_upserted ig_pending ig_dropped ig_written].
  rewrite Hu, Hp, Hd, Hw, !app_nil_r. split_and!; [done|done|]. autorewrite with golen. lia.
Qed.

Lemma wp_add r st (Q : () -> ingest W -> Prop) : (forall st', adds [r] [] st st' -> Q tt st') -> wp (add r) st Q.
Proof.
  intros HQ. unfold add, wp.
  set (n := ig_pendingBytes st + _). set (st1 := setPending (ig_pending st ++ [r]) n st).
  assert (adds [r] [] st st1) as H1 by (unfold adds; cbn; rewrite app_nil_r, app_assoc; done).
  destruct (_ <? _); [by apply HQ|]. apply (wp_flush st1). intros st2 H2 _. apply HQ.
  by apply (adds_trans [r] [] [] [] st st1 st2).
Qed.

(** *** One pack *)

(** The chunks of a pack with their vectors, and the chunks without one. *)
Fixpoint keptOf (pack : list storedChunk) (vectors : list (option (list Z))) : list (storedChunk * list Z) :=
  match pack, vectors with
  | chunk :: pack, Some vector :: vectors => (chunk, vector) :: keptOf pack vectors
  | _ :: pack, None :: vectors => keptOf pack vectors
  | _, _ => []
  end.

Fixpoint missing (pack : list storedChunk) (vectors : list (option (list Z))) : list storedChunk :=
  match pack, vectors with
  | chunk :: pack, None :: vectors => chunk :: missing pack vectors
  | _ :: pack, Some _ :: vectors => missing pack vectors
  | _, _ => []
  end.

Lemma pack_partition pack vectors :
  length vectors = length pack -> pack ≡ₚ map fst (keptOf pack vectors) ++ missing pack vectors.
Proof.
  revert vectors. induction pack as [|c pack IH]; intros [|[v|] vectors] Hl; cbn in *; try done.
  - constructor. apply IH. lia.
  - rewrite <- Permutation_middle. constructor. apply IH. lia.
Qed.

Lemma missing_set pack vectors p c v :
  vectors !! p = Some None -> pack !! p = Some c ->
  missing pack vectors ≡ₚ c :: missing pack (<[p := Some v]> vectors).
Proof.
  revert vectors p. induction pack as [|x pack IH]; intros [|u vectors] [|p] Hv Hc; try done; cbn in Hv, Hc; simplify_eq.
  - done.
  - cbn [insert list_insert]. destruct u as [u|]; cbn [missing]; [by apply IH|].
    rewrite (IH vectors p) by done. constructor.
Qed.

Lemma filter_map {A B} (f : B -> bool) (g : A -> B) l : List.filter f (map g l) = map g (List.filter (fun x => f (g x)) l).
Proof. induction l as [|x l IH]; [done|]. cbn. destruct (f (g x)); cbn; by rewrite IH. Qed.

Lemma missPositions_cons reuse chunk pack :
  missPositions reuse (chunk :: pack)
  = (if reuse !! contentKey (sc_Content chunk) is Some _ then [] else [0%nat]) ++ map S (missPositions reuse pack).
Proof.
  unfold missPositions. cbn [length seq List.filter lookup list_lookup]. rewrite <- seq_shift, filter_map.
  change ((chunk :: pack) !! 0%nat) with (Some chunk). cbv iota. by destruct (reuse !! contentKey (sc_Content chunk)).
Qed.

Abbreviation stored reuse := (map (fun chunk => reuse !! contentKey (sc_Content chunk))).

Lemma missPositions_spec (reuse : gmap bytes (list Z)) pack :
  NoDup (missPositions reuse pack) /\
  Forall (fun p => stored reuse pack !! p = Some None /\ is_Some (pack !! p)) (missPositions reuse pack) /\
  missing pack (stored reuse pack) = omap (pack !!.) (missPositions reuse pack).
Proof.
  induction pack as [|chunk pack (I1 & I2 & I3)]; [by repeat split; constructor|].
  rewrite missPositions_cons.
  assert (omap ((chunk :: pack) !!.) (map S (missPositions reuse pack)) = omap (pack !!.) (missPositions reuse pack)) as Eo.
  { generalize (missPositions reuse pack). intros l. induction l as [|p l IH]; [done|]. cbn in *. by rewrite IH. }
  assert (Forall (fun p => stored reuse (chunk :: pack) !! p = Some None /\ is_Some ((chunk :: pack) !! p))
            (map S (missPositions reuse pack))) as Hall.
  { apply Forall_forall. intros p Hp. apply list_elem_of_In, in_map_iff in Hp as (q & <- & Hq).
    rewrite Forall_forall in I2. by apply (I2 q), list_elem_of_In. }
  assert (NoDup (map S (missPositions reuse pack))) as Hnd by (by apply (NoDup_fmap_2 S)).
  cbn [map] in *. destruct (reuse !! contentKey (sc_Content chunk)) as [v|] eqn:E.
  - cbn [app missing]. rewrite Eo. split_and!; done.
  - cbn [app missing]. change (0%nat :: map S (missPositions reuse pack)) with ([0%nat] ++ map S (missPositions reuse pack)).
    rewrite omap_app. change (omap ((chunk :: pack) !!.) [0%nat]) with [chunk]. cbn [app].
    rewrite Eo, I3. split_and!; [|constructor; [|done]|done].
    + constructor; [|done]. intros Hp. apply list_elem_of_In, in_map_iff in Hp as (q & ? & _). done.
    + done.
Qed.

Lemma wp_answerLoop pack skipped position answers vectors rejected st (Q : _ -> ingest W -> Prop) :
  NoDup (map fst answers) ->
  Forall (fun p => vectors !! p = Some None /\ is_Some (pack !! p)) (map fst answers) ->
  length vectors = length pack ->
  missing pack vectors ≡ₚ map rej_chunk rejected ++ omap (pack !!.) (map fst answers) ->
  (forall vectors' rejected' st', quiet st st' -> length vectors' = length pack ->
     missing pack vectors' ≡ₚ map rej_chunk rejected' -> Q (vectors', rejected') st') ->
  wp (answerLoop cfg pack skipped position answers vectors rejected) st Q.
Proof.
  revert position vectors rejected st. induction answers as [|[p [v|]] answers IH]; intros position vectors rejected st Hnd Hall Hlen Hperm HQ;
    cbn [answerLoop map] in *.
  - apply wp_ret, HQ; [done|done|]. by rewrite Hperm, app_nil_r.
  - apply NoDup_cons in Hnd as [Hp Hnd]. apply Forall_cons in Hall as [[Hv [c Hc]] Hall]. cbn [fst] in *.
    destruct (_ && _); [done|]. apply wp_bind, wp_addStats. intros st1 H1.
    apply IH; [done| |by rewrite length_insert| |].
    + rewrite Forall_forall in Hall |- *. intros q Hq. rewrite list_lookup_insert_ne; [by apply Hall|]. by intros <-.
    + apply (Permutation_cons_inv (a := c)). rewrite <- (missing_set pack vectors p c v) by done. rewrite Hperm.
      change (p :: map fst answers) with ([p] ++ map fst answers). rewrite omap_app. cbn. rewrite Hc.
      symmetry. apply Permutation_middle.
    + intros vectors' rejected' st' Hq. apply HQ. by eapply quiet_trans.
  - apply NoDup_cons in Hnd as [Hp Hnd]. apply Forall_cons in Hall as [[Hv [c Hc]] Hall]. cbn [fst] in *. rewrite Hc.
    destruct (skipped !! position) as [info|]; [|done].
    apply IH; [done|done|done| |done]. rewrite Hperm. rewrite map_app, <- app_assoc.
    change (p :: map fst answers) with ([p] ++ map fst answers). rewrite omap_app. cbn. by rewrite Hc.
Qed.

(** The chunks of a pack that got no vector are the rejected ones. *)
Lemma wp_vectorsFor pack reuse st (Q : _ -> ingest W -> Prop) :
  (forall vectors rejected st', quiet st st' -> length vectors = length pack ->
     missing pack vectors ≡ₚ map rej_chunk rejected -> Q (vectors, rejected) st') ->
  wp (vectorsFor cfg pack reuse) st Q.
Proof.
  intros HQ. destruct (missPositions_spec reuse pack) as (Hnd & Hall & Hmiss). unfold vectorsFor.
  apply wp_bind, wp_addStats. intros st1 H1. set (positions := missPositions reuse pack) in *.
  destruct (Nat.eqb_spec (length positions) 0) as [Ez|Hnz].
  { apply wp_ret, HQ; [done|by rewrite length_map|]. destruct positions; [|done]. by rewrite Hmiss. }
  set (texts := omap _ positions). assert (length texts = length positions) as Ht.
  { subst texts. clear -Hall. induction positions as [|p positions IH]; [done|].
    apply Forall_cons in Hall as [[_ [c Hc]] Hall]. cbn in *. rewrite Hc. cbn. by rewrite IH. }
  apply wp_bind, wp_call. intros [result|] st2 H2; [|done].
  destruct (Nat.eqb_spec (length (Vectors result)) (length texts)) as [El|]; cbn [negb]; [|done].
  assert (map fst (zip positions (Vectors result)) = positions) as Ef by (apply fst_zip; lia).
  apply wp_answerLoop; rewrite ?Ef; [done|done|by rewrite length_map|by rewrite Hmiss|].
  intros vectors rejected st' H3. apply HQ. eapply quiet_trans; [by eapply quiet_trans|done].
Qed.

Lemma wp_addRows pack vectors st (Q : () -> ingest W -> Prop) :
  (forall st', adds (map row (keptOf pack vectors)) [] st st' -> Q tt st') -> wp (addRows cfg pack vectors) st Q.
Proof.
  revert vectors st. induction pack as [|c pack IH]; intros vectors st HQ.
  { cbn. apply HQ, quiet_adds. done. }
  destruct vectors as [|[v|] vectors]; cbn [addRows keptOf map] in *; [apply HQ, quiet_adds; done| |by apply IH].
  apply wp_bind, wp_add. intros st1 H1. apply IH. intros st2 H2. apply HQ. by apply (adds_trans [_] _ [] [] st st1 st2).
Qed.

Lemma wp_refuse rejected retry st (Q : _ -> ingest W -> Prop) :
  (forall splits drops st', adds [] drops st st' -> map rej_chunk rejected ≡ₚ splits ++ drops -> Forall divisible splits ->
     Q (retry ++ concat (map splitChunkInHalf splits)) st') ->
  wp (refuse cfg rejected retry) st Q.
Proof.
  revert retry st. induction rejected as [|refusal rejected IH]; intros retry st HQ; cbn [refuse map] in *.
  { apply wp_ret. pose proof (HQ [] [] st) as H0. cbn in H0. rewrite app_nil_r in H0. apply H0; [by apply quiet_adds|done|done]. }
  destruct (shouldSplit cfg refusal) eqn:Es.
  - apply wp_bind, wp_addStats. intros st1 H1. apply IH. intros splits drops st2 H2 Hp Hd. rewrite <- app_assoc.
    apply (HQ (rej_chunk refusal :: splits) drops).
    + by apply (adds_trans [] [] [] drops st st1 st2); [apply quiet_adds|].
    + cbn. by constructor.
    + constructor; [by apply (shouldSplit_runes cfg)|done].
  - apply wp_bind. set (st1 := (logDropped refusal st).1). assert (adds [] [rej_chunk refusal] st st1) as H1.
    { unfold adds. cbn. by rewrite app_nil_r. }
    change (wp (addStats 0 0 0 1 ≫= fun _ => refuse cfg rejected retry) st1 Q). apply wp_bind, wp_addStats. intros st2 H2.
    apply IH. intros splits drops st3 H3 Hp Hd. apply (HQ splits (rej_chunk refusal :: drops)); [|by rewrite Hp, Permutation_middle|done].
    apply (adds_trans [] [] [rej_chunk refusal] drops st st1 st3 H1). by apply (adds_trans [] [] [] drops st1 st2 st3 (quiet_adds _ _ H2)).
Qed.

(** *** All packs of a round *)

Lemma Permutation_thirds {A} (a b c d e f : list A) :
  (a ++ b ++ c) ++ (d ++ e ++ f) ≡ₚ (a ++ d) ++ (b ++ e) ++ (c ++ f).
Proof.
  rewrite <- !app_assoc. apply Permutation_app_head. rewrite (app_assoc b c), Permutation_app_swap_app, <- app_assoc.
  do 2 apply Permutation_app_head. apply Permutation_app_swap_app.
Qed.

Lemma wp_packsLoop packs reuse retry st (Q : _ -> ingest W -> Prop) :
  (forall kept splits drops st', adds (map row kept) drops st st' -> concat packs ≡ₚ map fst kept ++ splits ++ drops ->
     Forall divisible splits -> Q (retry ++ concat (map splitChunkInHalf splits)) st') ->
  wp (packsLoop cfg packs reuse retry) st Q.
Proof.
  revert retry st. induction packs as [|pack packs IH]; intros retry st HQ; cbn [packsLoop concat] in *.
  { apply wp_ret. pose proof (HQ [] [] [] st) as H0. cbn in H0. rewrite app_nil_r in H0. apply H0; [by apply quiet_adds|done|done]. }
  apply wp_bind, wp_call. intros [] st1 H1; [done|]. apply wp_bind, wp_vectorsFor. intros vectors rejected st2 H2 Hl Hm.
  apply wp_bind, wp_addRows. intros st3 H3. apply wp_bind, wp_refuse. intros splits drops st4 H4 Hp Hd.
  apply IH. intros kept splits' drops' st5 H5 Hp' Hd'. rewrite <- app_assoc, <- concat_app, <- map_app.
  apply (HQ (keptOf pack vectors ++ kept) (splits ++ splits') (drops ++ drops')).
  - rewrite map_app. pose proof (quiet_adds _ _ (quiet_trans _ _ _ H1 H2)) as Ha.
    pose proof (adds_trans _ _ _ _ _ _ _ Ha H3) as Hb. pose proof (adds_trans _ _ _ _ _ _ _ Hb H4) as Hc.
    pose proof (adds_trans _ _ _ _ _ _ _ Hc H5) as He. cbn [app] in He. by rewrite app_nil_r in He.
  - assert (pack ≡ₚ map fst (keptOf pack vectors) ++ splits ++ drops) as Hpack.
    { etrans; [by apply (pack_partition pack vectors)|]. by rewrite Hm, Hp. }
    rewrite map_app. etrans; [apply Permutation_app; [exact Hpack|exact Hp']|]. apply Permutation_thirds.
  - by apply Forall_app.
Qed.

(** *** Rounds until nothing is left *)

Lemma longest_le chunks chunk : chunk ∈ chunks -> (length (sc_Content chunk) <= longest chunks)%nat.
Proof. induction 1 as [|? ? ? _ IH]; unfold longest in *; cbn [foldr]; lia. Qed.

Lemma longest_lt chunks n : chunks <> [] -> Forall (fun c => (length (sc_Content c) < n)%nat) chunks -> (longest chunks < n)%nat.
Proof.
  intros Hne Hall. destruct chunks as [|c chunks]; [done|]. clear Hne. revert c Hall.
  induction chunks as [|d chunks IH]; intros c Hall; apply Forall_cons in Hall as [Hc Hall]; unfold longest in *; cbn [foldr]; [lia|].
  specialize (IH d Hall). cbn [foldr] in IH. lia.
Qed.

Lemma retry_shorter queue kept splits drops n :
  queue ≡ₚ kept ++ splits ++ drops -> Forall divisible splits -> (longest queue < S n)%nat ->
  concat (map splitChunkInHalf splits) = [] \/ (longest (concat (map splitChunkInHalf splits)) < n)%nat.
Proof.
  intros Hp Hd Hn. destruct (concat (map splitChunkInHalf splits)) as [|c rest] eqn:E; [by left|]. right. rewrite <- E.
  apply longest_lt; [by rewrite E|]. apply Forall_concat, Forall_forall. intros halves Hin.
  apply list_elem_of_In, in_map_iff in Hin as (parent & <- & Hin). apply list_elem_of_In in Hin.
  rewrite Forall_forall in Hd. eapply Forall_impl; [apply splitChunkInHalf_shorter, Hd, Hin|]. intros child Hc.
  assert (parent ∈ queue) as Hq by (rewrite Hp; apply elem_of_app; right; apply elem_of_app; by left).
  pose proof (longest_le queue parent Hq). cbv beta in Hc. lia.
Qed.

Lemma wp_roundsLoop fuel queue reuse st (Q : () -> ingest W -> Prop) :
  queue = [] \/ (longest queue < fuel)%nat ->
  (forall leaves kept drops st', adds (map row kept) drops st st' -> tilings queue leaves ->
     leaves ≡ₚ map fst kept ++ drops -> Q tt st') ->
  wp (roundsLoop cfg fuel queue reuse) st Q.
Proof.
  revert queue reuse st Q. induction fuel as [|fuel IH]; intros queue reuse st Q Hf HQ.
  { destruct Hf as [->|?]; [|lia]. apply (HQ [] [] [] st); [by apply quiet_adds|constructor|done]. }
  destruct queue as [|c queue]; [apply (HQ [] [] [] st); [by apply quiet_adds|constructor|done]|].
  destruct Hf as [?|Hf]; [done|]. set (q := c :: queue) in *.
  change (wp (packsLoop cfg (packChunks q reuse) reuse [] ≫= fun retry => roundsLoop cfg fuel retry ∅) st Q).
  apply wp_bind, wp_packsLoop. intros kept splits drops st1 H1 Hp Hd. rewrite app_nil_l.
  assert (concat (packChunks q reuse) = q) as Eq by (apply (packLoop_spec reuse [] [] 0 q); [done|constructor|by left]).
  rewrite Eq in Hp.
  apply IH; [by eapply retry_shorter|]. intros leaves kept' drops' st2 H2 Ht Hl.
  pose proof (tilings_app _ _ _ _ (tilings_refl (map fst kept))
    (tilings_app _ _ _ _ (tilings_halves _ _ Hd Ht) (tilings_refl drops))) as Hall.
  destruct (tilings_permute _ q _ (symmetry Hp) Hall) as (leaves' & Ht' & Hl').
  apply (HQ leaves' (kept ++ kept') (drops ++ drops')); [rewrite map_app; by eapply adds_trans|done|].
  rewrite Hl', Hl, !map_app, <- !app_assoc. do 2 apply Permutation_app_head. apply Permutation_app_comm.
Qed.

Lemma wp_embedAndWrite chunks reuse st (Q : () -> ingest W -> Prop) :
  (forall leaves kept drops st', adds (map row kept) drops st st' -> ig_pending st' = [] -> tilings chunks leaves ->
     leaves ≡ₚ map fst kept ++ drops -> Q tt st') ->
  wp (embedAndWrite cfg chunks reuse) st Q.
Proof.
  intros HQ. apply wp_bind, wp_roundsLoop; [right; lia|]. intros leaves kept drops st1 H1 Ht Hl.
  apply wp_flush. intros st2 H2 Hp. apply (HQ leaves kept drops); [|done|done|done].
  pose proof (adds_trans _ _ _ _ _ _ _ H1 H2) as H12. by rewrite !app_nil_r in H12.
Qed.
End rounds.

(** ** Theorems *)

Section theorems.
Context {W : Type} `{Backend W}.
Variable cfg : clientConfig.

(** An ingest always comes to an end: whatever the endpoint and the store answer, the rounds
    that cut rejected inputs in half stop before the bound on their number, and no access
    is out of range. *)
Theorem embedAndWrite_terminates chunks reuse (st : ingest W) :
  (embedAndWrite cfg chunks reuse st).2 <> Fail ieRounds /\ (embedAndWrite cfg chunks reuse st).2 <> Panic.
Proof.
  pose proof (wp_embedAndWrite cfg chunks reuse st (fun _ _ => True) ltac:(done)) as H0. unfold wp in H0.
  destruct (embedAndWrite cfg chunks reuse st) as [st' [a|e|]]; [done| |done]. split; [|done]. cbn. by intros [= ->].
Qed.

(** C19. Nothing is lost or invented: after an ingest that returned no error every input is one row,
    or pieces in the order of its text, and each of them was acknowledged by the store as
    the row of that piece with a vector, or logged as dropped; these are all the rows and
    all the drops, and the count of written rows is theirs. *)
Theorem embedAndWrite_accounts chunks reuse (st st' : ingest W) :
  embedAndWrite cfg chunks reuse st = (st', Ok tt) -> ig_pending st = [] ->
  exists leaves kept drops,
    tilings chunks leaves /\ concat (map sc_Content leaves) = concat (map sc_Content chunks) /\
    leaves ≡ₚ map fst kept ++ drops /\
    ig_upserted st' = ig_upserted st ++ map (fun '(chunk, vector) => chunkRow (cfg_toLowerRune cfg) chunk vector) kept /\
    ig_dropped st' = ig_dropped st ++ drops /\
    ig_written st' = ig_written st + zlen kept.
Proof.
  intros E Hp. pose proof (wp_embedAndWrite cfg chunks reuse st (fun _ st' => exists leaves kept drops,
    adds (map (fun k => chunkRow (cfg_toLowerRune cfg) k.1 k.2) kept) drops st st' /\ ig_pending st' = [] /\
    tilings chunks leaves /\ leaves ≡ₚ map fst kept ++ drops)) as H0.
  unfold wp in H0. rewrite E in H0. destruct H0 as (leaves & kept & drops & (H1 & H2 & H3) & Hp' & Ht & Hl); [by eauto 10|].
  exists leaves, kept, drops. rewrite Hp, Hp', !app_nil_r in H1.
  split_and!; [done|by apply (proj2 tiling_content)|done| |done|].
  - rewrite H1. f_equal. apply map_ext. by intros [chunk vector].
  - rewrite H1, zlen_app in H3. unfold zlen in *. rewrite length_map in H3. lia.
Qed.

End theorems.

(** *** Keys of pieces *)

Lemma Itoa_no_colon n : Byte.x3a ∉ Itoa n.
Proof. by apply Itoa_absent. Qed.

Lemma hashInput_position c d :
  sc_RelativePath c = sc_RelativePath d -> 0 < sc_SplitPart c <= maxInt64 -> 0 < sc_SplitPart d <= maxInt64 ->
  hashInput c = hashInput d -> sc_SplitPart c = sc_SplitPart d /\ sc_Content c = sc_Content d.
Proof.
  intros Hp Hc Hd H. unfold hashInput in H. rewrite Hp, !(proj2 (Z.ltb_lt 0 _)) in H by lia. do 2 apply app_inv_head in H.
  pose proof (Index_byte (Itoa (sc_SplitPart c)) Byte.x3a (sc_Content c) (Itoa_no_colon _)) as Ic.
  pose proof (Index_byte (Itoa (sc_SplitPart d)) Byte.x3a (sc_Content d) (Itoa_no_colon _)) as Id.
  change (Byte.x3a :: sc_Content c) with (lit ":" ++ sc_Content c) in Ic.
  change (Byte.x3a :: sc_Content d) with (lit ":" ++ sc_Content d) in Id.
  rewrite H, Id in Ic. injection Ic as Ic. apply app_inj_1 in H as [H1 H2]; [|done]. apply app_inv_head in H2.
  split; [|done]. apply (f_equal Atoi) in H1. rewrite !Atoi_Itoa in H1 by lia. by simplify_eq.
Qed.

Lemma chain_later path offset leaves leaf :
  chain path offset leaves -> 0 <= offset -> leaf ∈ leaves ->
  sc_RelativePath leaf = path /\ offset < sc_SplitPart leaf <= offset + zlen (concat (map sc_Content leaves)) + 1.
Proof.
  revert offset. induction leaves as [|c leaves IH]; intros offset Hc Ho Hin; [by apply elem_of_nil in Hin|].
  destruct Hc as (Hp & Hs & Hc). pose proof (zlen_nonneg (sc_Content c)) as Hn. cbn [map concat]. rewrite zlen_app.
  pose proof (zlen_nonneg (concat (map sc_Content leaves))).
  apply elem_of_cons in Hin as [->|Hin]; [split; [done|lia]|].
  destruct (IH _ Hc ltac:(lia) Hin) as [H1 H2]. split; [done|lia].
Qed.

(** The pieces of a chunk have different inputs to the digest, however alike their contents
    are. *)
Theorem splitChunkAtBudget_keys chunk budget :
  positionFits chunk -> 0 < budget -> sc_Content chunk <> [] -> NoDup (map hashInput (splitChunkAtBudget chunk budget)).
Proof.
  intros Hf Hb Hne. pose proof (splitChunkAtBudget_chain chunk budget Hf) as Hc.
  assert (Forall (fun c => sc_Content c <> []) (splitChunkAtBudget chunk budget)) as Hall.
  { pose proof (splitTextByBytes_nonempty (sc_Content chunk) budget Hne) as H1.
    rewrite <- (splitChunkAtBudget_content chunk), Forall_forall in H1. apply Forall_forall. intros c Hin.
    apply H1, list_elem_of_In, in_map, list_elem_of_In, Hin. }
  assert (concat (map sc_Content (splitChunkAtBudget chunk budget)) = sc_Content chunk) as Ec.
  { rewrite splitChunkAtBudget_content. apply splitTextByBytes_concat. }
  destruct Hf as [Hs Hbound]. rewrite <- Ec in Hbound.
  assert (0 <= offsetOf chunk) as Ho by (unfold offsetOf; destruct (Z.ltb_spec 0 (sc_SplitPart chunk)); lia).
  revert Hc Hall Hbound Ho. generalize (offsetOf chunk). generalize (splitChunkAtBudget chunk budget).
  clear. intros leaves. induction leaves as [|c leaves IH]; intros offset Hc Hall Hb Ho; cbn [map]; [apply NoDup_nil_2|].
  pose proof (chain_later _ _ _ c Hc Ho (list_elem_of_here _ _)) as [Hp1 Hp2].
  destruct Hc as (Hp & Hs & Hc). apply Forall_cons in Hall as [Hne Hall]. cbn [map concat] in Hb, Hp2. rewrite zlen_app in Hb, Hp2.
  assert (0 < zlen (sc_Content c)) by (destruct (sc_Content c); [done|]; autorewrite with golen; pose proof (zlen_nonneg l); lia).
  pose proof (zlen_nonneg (concat (map sc_Content leaves))).
  constructor; [|by apply (IH (offset + zlen (sc_Content c))); [|done|lia|lia]].
  intros Hin. apply list_elem_of_In, in_map_iff in Hin as (d & Hh & Hd). apply list_elem_of_In in Hd.
  destruct (chain_later _ _ _ d Hc ltac:(lia) Hd) as [Hp3 Hp4].
  apply hashInput_position in Hh as [Hh _]; [lia|congruence|unfold maxInt64; lia|unfold maxInt64; lia].
Qed.

(** *** An endpoint that takes three bytes at most *)

Definition shortAnswer (text : bytes) : option (list Z) := if zlen text <=? 3 then Some [zlen text] else None.

#[export] Instance shortBackend : Backend nat := {|
  ctxErr n := (n, false);
  EmbedBatch texts n :=
    (S n, Some (MkBatch (map shortAnswer texts)
                  (omap (fun '(i, text) => if zlen text <=? 3 then None
                                           else Some (MkSkipped (Z.of_nat i) contextLengthExceededReason 3 true))
                     (imap pair texts))));
  storeEnsureCollection _ n := (n, true);
  storeUpsert _ n := (n, true);
  collectionPresent n := (n, Some true);
  sharedLayout := false;
|}.

Definition sampleConfig : clientConfig := MkConfig 1 (lit "m") 2000 id.
Definition sampleChunk : storedChunk := MkChunk (lit "ababab") (lit "conv/s/1") (lit "s") [] 1 (lit "user") 5 [] false 0 [].
Definition emptyIngest : ingest nat := MkIngest 0%nat false [] 0 0 (MkStats 0 0 0 0) [] [].

Lemma embedAndWrite_accounts_witness :
  exists st' kept drops,
    embedAndWrite sampleConfig [sampleChunk] ∅ emptyIngest = (st', Ok tt) /\
    map (fun r => (ur_Content r, ur_SplitPart r)) (ig_upserted st') = [(lit "aba", 1); (lit "bab", 4)] /\
    ig_upserted st' = map (fun '(chunk, vector) => chunkRow id chunk vector) kept /\ ig_dropped st' = drops.
Proof.
  destruct (embedAndWrite sampleConfig [sampleChunk] ∅ emptyIngest) as [st' o] eqn:E.
  assert (o = Ok tt) as -> by (apply (f_equal snd) in E; cbn [snd] in E; rewrite <- E; vm_compute; reflexivity).
  destruct (embedAndWrite_accounts sampleConfig [sampleChunk] ∅ emptyIngest st' E eq_refl)
    as (leaves & kept & drops & _ & _ & _ & Hu & Hd & _).
  exists st', kept, drops. split_and!; [done| |exact Hu|exact Hd].
  apply (f_equal fst) in E. cbn [fst] in E. rewrite <- E. vm_compute. reflexivity.
Defined.

Lemma splitChunkAtBudget_keys_witness :
  map sc_Content (splitChunkAtBudget sampleChunk 2) = [lit "ab"; lit "ab"; lit "ab"] /\
  NoDup (map hashInput (splitChunkAtBudget sampleChunk 2)).
Proof.
  split; [vm_compute; reflexivity|].
  apply (splitChunkAtBudget_keys sampleChunk 2); [split; vm_compute; done|lia|discriminate].
Defined.
