(* ===== verification/VsState.v ===== *)
(** * VsState: comparing stored rows and planning an ingest (vectorsearch/state.go,
      ingest.go [groupDocuments], [planConversation], [fillUnknownTimes] of the local store)

    The rows of the delivered conversations are read once and grouped into families.  A
    message field whose family is stored and does not differ is left alone; otherwise its
    rows that are not stored are planned for embedding. *)

From S2P Require Import Prelude GoUtf8 GoStrconv GoText GoSha256 CsRecord CsStore TkCap VsRows VsEmbed.

Open Scope Z_scope.

(** ** Data *)

Record storedFamilyRow := MkFamilyRow {
  fr_id : bytes;
  fr_relativePath : bytes;
  fr_content : bytes;
  fr_splitPart : Z;
  fr_splitPartRecorded : bool;
  fr_timeKnown : bool;
}.

Definition hasCurrentKey (row : storedFamilyRow) : bool :=
  fr_splitPartRecorded row &&
  bool_decide (fr_id row = chunkID (MkChunk (fr_content row) (fr_relativePath row) [] [] 0 [] 0 [] false (fr_splitPart row) [])).

Inductive contentComparison := contentMatches | contentUnknown | contentDiffers.

#[export] Instance contentComparison_eq_dec : EqDecision contentComparison.
Proof. solve_decision. Defined.

(** The families of a conversation; [None] is a nil state. *)
Abbreviation families := (gmap bytes (list storedFamilyRow)).
Definition conversationState : Type := option families.

Definition rowsOf (state : families) (familyKey : bytes) : list storedFamilyRow := default [] (state !! familyKey).

(** The first row with the id decides. *)
Fixpoint findRow (id : bytes) (rows : list storedFamilyRow) : option storedFamilyRow :=
  match rows with
  | [] => None
  | row :: rows => if bool_decide (fr_id row = id) then Some row else findRow id rows
  end.

Definition hasUnknownTimeRow (state : conversationState) (familyKey id : bytes) : bool :=
  match state with
  | None => false
  | Some state => match findRow id (rowsOf state familyKey) with Some row => negb (fr_timeKnown row) | None => false end
  end.

Definition hasRow (state : conversationState) (familyKey id : bytes) : bool :=
  match state with
  | None => false
  | Some state => match findRow id (rowsOf state familyKey) with Some _ => true | None => false end
  end.

Definition present (state : conversationState) (familyKey : bytes) : bool :=
  match state with
  | None => false
  | Some state => match state !! familyKey with Some _ => true | None => false end
  end.

(** ** Comparing content *)

(** The loop over the rows at one offset; [rec] compares the rest after a piece. *)
Fixpoint compareLoop (rec : nat -> contentComparison) (content : bytes) (offset : nat) (rows : list storedFamilyRow)
    (candidates : nat) (unknown : bool) : contentComparison :=
  match rows with
  | [] => if unknown || ((candidates =? 0)%nat && (0 <? offset)%nat) then contentUnknown else contentDiffers
  | row :: rows =>
      let whole := (offset =? 0)%nat && (fr_splitPart row =? 0) in
      if negb whole && negb (fr_splitPart row =? Z.of_nat offset + 1) then compareLoop rec content offset rows candidates unknown
      else if whole then
        if bool_decide (fr_content row = content) then contentMatches
        else compareLoop rec content offset rows (S candidates) unknown
      else if isEmpty (fr_content row) || negb (HasPrefix (drop offset content) (fr_content row))
      then compareLoop rec content offset rows (S candidates) unknown
      else match rec (offset + length (fr_content row))%nat with
           | contentMatches => contentMatches
           | contentUnknown => compareLoop rec content offset rows (S candidates) true
           | contentDiffers => compareLoop rec content offset rows (S candidates) unknown
           end
  end.

(** Every piece is at least one byte, so the length of the content bounds the depth. *)
Fixpoint compareFrom (fuel : nat) (rows : list storedFamilyRow) (content : bytes) (offset : nat) : contentComparison :=
  if (offset =? length content)%nat then contentMatches else
  match fuel with
  | O => contentDiffers
  | S fuel => compareLoop (compareFrom fuel rows content) content offset rows 0 false
  end.

Definition compareStoredContent (rows : list storedFamilyRow) (content : bytes) (offset : nat) : contentComparison :=
  compareFrom (length content - offset) rows content offset.

Definition pathRows (rows : list storedFamilyRow) (chunk : storedChunk) : list storedFamilyRow :=
  List.filter (fun row => bool_decide (fr_relativePath row = sc_RelativePath chunk)) rows.

Definition chunkDiffers (rows : list storedFamilyRow) (chunk : storedChunk) : bool :=
  let rows := pathRows rows chunk in
  (length rows =? 0)%nat || bool_decide (compareStoredContent rows (sc_Content chunk) 0 = contentDiffers).

Definition differs (state : conversationState) (familyKey : bytes) (generated : list storedChunk) : bool :=
  match state with
  | None => false
  | Some state =>
      let rows := rowsOf state familyKey in
      forallb hasCurrentKey rows && existsb (chunkDiffers rows) generated
  end.

(** ** Loading *)

Definition embeddingModelsCompatible (stored current : bytes) : bool :=
  isEmpty stored || isEmpty current || bool_decide (stored = current).

Definition scalarOf (row : StoredRow) (column : bytes) : option ScalarCell := sr_Scalars row !! column.

Definition rowTimestampPresent (row : StoredRow) : bool :=
  match scalarOf row timestampUnixColumn with Some (ValueCell _ _) => true | _ => false end.

Definition rowHasZeroTime (row : StoredRow) : bool :=
  match scalarOf row timestampUnixColumn with
  | Some (NullCell _) => true
  | Some (ValueCell _ value) => sv_Int64 value =? missingTimestampUnix
  | _ => false
  end.

Record storedBatch := MkStoredBatch {
  sb_conversations : gmap bytes families;
  sb_reuse : gmap bytes (list Z);
}.

Definition newStoredBatch : storedBatch := MkStoredBatch ∅ ∅.

Definition familyRow (row : StoredRow) : storedFamilyRow :=
  MkFamilyRow (sr_ID row) (sr_RelativePath row) (sr_Content row) (sr_SplitPart row) (sr_SplitPartRecorded row)
    (negb (rowHasZeroTime row) && rowTimestampPresent row).

Definition addToFamilies (key : bytes) (row : storedFamilyRow) (state : families) : families :=
  <[key := rowsOf state key ++ [row]]> state.

(** [storedBatch.add] of a row and its vector. *)
Definition addStored (conversationID : bytes) (row : StoredRow) (vector : list Z) (currentModel : bytes) (batch : storedBatch)
  : storedBatch :=
  let reuse :=
    if (0 <? length vector)%nat && embeddingModelsCompatible (sr_EmbeddingModel row) currentModel
    then <[contentKey (sr_Content row) := vector]> (sb_reuse batch) else sb_reuse batch in
  if isEmpty conversationID || negb (conversationTextIsStorable (sr_Content row))
  then MkStoredBatch (sb_conversations batch) reuse else
  let state := default ∅ (sb_conversations batch !! conversationID) in
  let familyKey := chunkFamilyKey conversationID (sr_RelativePath row) in
  MkStoredBatch (<[conversationID := addToFamilies familyKey (familyRow row) state]> (sb_conversations batch)) reuse.

Definition stateOf (batch : storedBatch) (conversationID : bytes) : conversationState := sb_conversations batch !! conversationID.

Definition familyPrefixes (id : bytes) : list bytes :=
  [conversationRelativePathPrefix id; conversationToolRelativePathPrefix id; conversationThinkingRelativePathPrefix id].

(** The longest prefix of the path wins; the first of equals. *)
Definition assignConversationID (row : StoredRow) (requested : list bytes) : bytes :=
  let byCell :=
    match scalarOf row conversationIDColumn with
    | Some (ValueCell _ value) =>
        if negb (isEmpty (sv_String value)) && bool_decide (sv_String value ∈ requested) then Some (sv_String value) else None
    | _ => None
    end in
  match byCell with
  | Some id => id
  | None =>
      (foldl (fun matched id =>
         foldl (fun '(matchedID, matchedLength) prefix =>
                  if HasPrefix (sr_RelativePath row) prefix && (matchedLength <? zlen prefix)
                  then (id, zlen prefix) else (matchedID, matchedLength)) matched (familyPrefixes id))
         ([], 0) requested).1
  end.

Fixpoint dedupeLoop (seen : gset bytes) (ids : list bytes) : list bytes :=
  match ids with
  | [] => []
  | id :: ids =>
      let trimmed := TrimSpace id in
      if isEmpty trimmed then dedupeLoop seen ids
      else if bool_decide (trimmed ∈ seen) then dedupeLoop seen ids
      else trimmed :: dedupeLoop ({[trimmed]} ∪ seen) ids
  end.
Definition dedupeIDs (ids : list bytes) : list bytes := dedupeLoop ∅ ids.

Definition conversationFilterIDBatchSize : nat := 256.

(** The loop over groups of requested conversations.  [query] is [QueryRows] of the store for
    the ids of a group and their path prefixes, with the state [W] of the store; [None] is an
    error. *)
Fixpoint loadGroups {W} (query : list bytes -> list bytes -> W -> W * option (list (StoredRow * list Z))) (currentModel : bytes)
    (fuel : nat) (requested : list bytes) (batch : storedBatch) (w : W) : W * option storedBatch :=
  match fuel with
  | O => (w, Some batch)
  | S fuel =>
      match requested with
      | [] => (w, Some batch)
      | _ :: _ =>
          let group := take conversationFilterIDBatchSize requested in
          match query group (concat (map familyPrefixes group)) w with
          | (w, None) => (w, None)
          | (w, Some rows) =>
              loadGroups query currentModel fuel (drop conversationFilterIDBatchSize requested)
                (foldl (fun batch '(row, vector) => addStored (assignConversationID row group) row vector currentModel batch)
                   batch rows) w
          end
      end
  end.

(** [loadStoredBatch]; [collectionLoaded] is [loadCollectionIfPresent]. *)
Definition loadStoredBatch {W} (collectionLoaded : W -> W * option bool)
    (query : list bytes -> list bytes -> W -> W * option (list (StoredRow * list Z))) (currentModel : bytes)
    (conversationIDs : list bytes) (w : W) : W * option storedBatch :=
  let requested := dedupeIDs conversationIDs in
  if (length requested =? 0)%nat then (w, Some newStoredBatch) else
  match collectionLoaded w with
  | (w, None) => (w, None)
  | (w, Some false) => (w, Some newStoredBatch)
  | (w, Some true) => loadGroups query currentModel (length requested) requested newStoredBatch w
  end.

(** ** Planning *)

Section plan.
Variable Parse : bytes -> option Decomposition.

Fixpoint generatedChunks (docs : list SemDoc) : outcome rowsError (list storedChunk) :=
  match docs with
  | [] => Ok []
  | doc :: docs =>
      documentRows ← documentChunks Parse doc conversationChunkMaxBytes;
      rest ← generatedChunks docs;
      Ok (documentRows ++ rest)
  end.

Record matchedRow := MkMatched { mr_relativePath : bytes; mr_timestampUnix : Z }.

(** The planned chunks, the ids already planned and the times to fill. *)
Record planned := MkPlanned {
  pl_chunks : list storedChunk;
  pl_seen : gset bytes;
  pl_fills : gmap bytes matchedRow;
}.

Definition planChunk (state : conversationState) (key : bytes) (unchanged : bool) (plan : planned) (chunk : storedChunk) : planned :=
  let id := chunkID chunk in
  let fills :=
    if negb (sc_TimestampUnix chunk =? missingTimestampUnix) && hasUnknownTimeRow state key id
    then <[id := MkMatched (sc_RelativePath chunk) (sc_TimestampUnix chunk)]> (pl_fills plan) else pl_fills plan in
  if unchanged || bool_decide (id ∈ pl_seen plan) || hasRow state key id then MkPlanned (pl_chunks plan) (pl_seen plan) fills
  else MkPlanned (pl_chunks plan ++ [chunk]) ({[id]} ∪ pl_seen plan) fills.

Definition planFamily (byteBudget : Z) (state : conversationState) (plan : planned) (family : chunkFamily) : planned :=
  let unchanged := present state (fam_Key family) && negb (differs state (fam_Key family) (fam_Chunks family)) in
  foldl (planChunk state (fam_Key family) unchanged) plan (expandOverBudget (fam_Chunks family) byteBudget).

Definition planConversation (byteBudget : Z) (conversationID : bytes) (docs : list SemDoc) (state : conversationState)
  : outcome rowsError (list storedChunk * gmap bytes matchedRow) :=
  generated ← generatedChunks docs;
  let plan := foldl (planFamily byteBudget state) (MkPlanned [] ∅ ∅) (groupFamilies conversationID generated) in
  Ok (pl_chunks plan, pl_fills plan).
End plan.

(** ** What the comparison decides *)

Section compare.
Variables (rows : list storedFamilyRow) (content : bytes).

(** A row that holds the text at an offset, as a piece of it. *)
Definition pieceAt (row : storedFamilyRow) (offset : nat) : Prop :=
  fr_splitPart row = Z.of_nat offset + 1 /\ fr_content row <> [] /\ HasPrefix (drop offset content) (fr_content row) = true.

(** The pieces that are stored make up the text from an offset to its end. *)
Inductive covered : nat -> Prop :=
| covered_end : covered (length content)
| covered_piece row offset :
    row ∈ rows -> pieceAt row offset -> covered (offset + length (fr_content row)) -> covered offset.

(** The pieces that are stored make up the text up to an offset at which no piece starts. *)
Inductive interrupted : nat -> Prop :=
| interrupted_here offset :
    (0 < offset)%nat -> offset <> length content -> Forall (fun row => fr_splitPart row <> Z.of_nat offset + 1) rows ->
    interrupted offset
| interrupted_piece row offset :
    row ∈ rows -> pieceAt row offset -> interrupted (offset + length (fr_content row)) -> interrupted offset.

Definition wholeRow (offset : nat) (row : storedFamilyRow) : Prop :=
  offset = 0%nat /\ fr_splitPart row = 0 /\ fr_content row = content.

Definition matchedAt (offset : nat) : Prop := covered offset \/ exists row, row ∈ rows /\ wholeRow offset row.

Lemma pieceAt_bound row offset : pieceAt row offset -> (offset < offset + length (fr_content row) <= length content)%nat.
Proof.
  intros (_ & Hne & Hp). apply HasPrefix_spec in Hp as [rest Hp]. apply (f_equal length) in Hp. rewrite length_drop, length_app in Hp.
  destruct (fr_content row); [done|]. cbn in *. lia.
Qed.

(** The loop at one offset, for any comparison of the rest. *)
Lemma compareLoop_spec rec offset rs candidates unknown :
  match compareLoop rec content offset rs candidates unknown with
  | contentMatches =>
      exists row, row ∈ rs /\ (wholeRow offset row \/ pieceAt row offset /\ rec (offset + length (fr_content row))%nat = contentMatches)
  | contentUnknown =>
      (forall row, row ∈ rs -> ~ wholeRow offset row /\
         (pieceAt row offset -> rec (offset + length (fr_content row))%nat <> contentMatches)) /\
      (unknown = true \/
       (exists row, row ∈ rs /\ pieceAt row offset /\ rec (offset + length (fr_content row))%nat = contentUnknown) \/
       (candidates = 0%nat /\ (0 < offset)%nat /\ Forall (fun row => fr_splitPart row <> Z.of_nat offset + 1) rs))
  | contentDiffers =>
      unknown = false /\
      (forall row, row ∈ rs -> ~ wholeRow offset row /\
         (pieceAt row offset -> rec (offset + length (fr_content row))%nat = contentDiffers)) /\
      ~ (candidates = 0%nat /\ (0 < offset)%nat /\ Forall (fun row => fr_splitPart row <> Z.of_nat offset + 1) rs)
  end.
Proof.
  revert candidates unknown. induction rs as [|row rs IH]; intros candidates unknown; cbn [compareLoop].
  { destruct unknown; cbn [orb]; [split; [by intros row Hr%elem_of_nil|by left]|].
    destruct (Nat.eqb_spec candidates 0), (Nat.ltb_spec 0 offset); cbn [andb];
      first [split; [by intros row Hr%elem_of_nil|right; right; split_and!; [done|done|constructor]]
            |split_and!; [done|by intros row Hr%elem_of_nil|by intros (? & ? & _); lia]]. }
  (* a row that is skipped, one that counts and does not decide *)
  assert (Hstep : forall c u,
    (~ wholeRow offset row) ->
    (pieceAt row offset -> rec (offset + length (fr_content row))%nat = contentDiffers \/
                           (rec (offset + length (fr_content row))%nat = contentUnknown /\ u = true)) ->
    (u = true -> unknown = true \/ (pieceAt row offset /\ rec (offset + length (fr_content row))%nat = contentUnknown)) ->
    (unknown = true -> u = true) ->
    (c = candidates /\ fr_splitPart row <> Z.of_nat offset + 1 \/ c = S candidates /\ (offset = 0%nat \/ fr_splitPart row = Z.of_nat offset + 1)) ->
    match compareLoop rec content offset rs c u with
    | contentMatches => exists r, r ∈ row :: rs /\ (wholeRow offset r \/ pieceAt r offset /\ rec (offset + length (fr_content r))%nat = contentMatches)
    | contentUnknown => (forall r, r ∈ row :: rs -> ~ wholeRow offset r /\ (pieceAt r offset -> rec (offset + length (fr_content r))%nat <> contentMatches)) /\
        (unknown = true \/ (exists r, r ∈ row :: rs /\ pieceAt r offset /\ rec (offset + length (fr_content r))%nat = contentUnknown) \/
         (candidates = 0%nat /\ (0 < offset)%nat /\ Forall (fun r => fr_splitPart r <> Z.of_nat offset + 1) (row :: rs)))
    | contentDiffers => unknown = false /\
        (forall r, r ∈ row :: rs -> ~ wholeRow offset r /\ (pieceAt r offset -> rec (offset + length (fr_content r))%nat = contentDiffers)) /\
        ~ (candidates = 0%nat /\ (0 < offset)%nat /\ Forall (fun r => fr_splitPart r <> Z.of_nat offset + 1) (row :: rs))
    end).
  { intros c u Hw Hp Hu Hu' Hc. specialize (IH c u). destruct (compareLoop rec content offset rs c u).
    - destruct IH as (r & Hr & HQ). exists r. split; [by apply list_elem_of_further|done].
    - destruct IH as [Hall Hwhy]. split.
      + intros r [->|Hr]%elem_of_cons; [|by apply Hall]. split; [done|]. intros Hpi. destruct (Hp Hpi) as [->|[-> _]]; done.
      + destruct Hwhy as [->|[(r & Hr & HQ)|(Hc0 & Ho & HF)]].
        * destruct (Hu eq_refl) as [?|[? ?]]; [by left|]. right; left. exists row. split; [apply list_elem_of_here|done].
        * right; left. exists r. split; [by apply list_elem_of_further|done].
        * destruct Hc as [[-> Hne]|[-> _]]; [|done]. right; right. split_and!; [done|done|by constructor].
    - destruct IH as (-> & Hall & Hno). split_and!.
      + destruct unknown; [|done]. by discriminate Hu'.
      + intros r [->|Hr]%elem_of_cons; [|by apply Hall]. split; [done|]. intros Hpi. destruct (Hp Hpi) as [->|[_ ?]]; done.
      + intros (Hc0 & Ho & [Hne HF]%Forall_cons). destruct Hc as [[-> _]|[_ [?|?]]]; [by apply Hno|lia|done]. }
  destruct ((offset =? 0)%nat && (fr_splitPart row =? 0)) eqn:Ew; cbn [negb andb].
  - reflect_bools. destruct (bool_decide (fr_content row = content)) eqn:Ec; reflect_bools.
    + exists row. split; [apply list_elem_of_here|]. by left.
    + apply Hstep; [by intros (_ & _ & ?)|intros (? & _ & _); lia|by left|done|right; split; [done|by left]].
  - assert (~ wholeRow offset row) as Hnw.
    { intros (-> & Hs & _). rewrite Hs in Ew. done. }
    destruct (fr_splitPart row =? Z.of_nat offset + 1) eqn:Es; cbn [negb]; reflect_bools.
    2: { apply Hstep; [done|by intros (? & _ & _)|by left|done|by left]. }
    destruct (isEmpty (fr_content row) || negb (HasPrefix (drop offset content) (fr_content row))) eqn:Ep.
    + apply Hstep; [done| |by left|done|right; split; [done|by right]].
      intros (_ & Hne & HP). destruct (fr_content row); [done|]. cbn [isEmpty orb] in Ep. by rewrite HP in Ep.
    + assert (pieceAt row offset) as Hpi.
      { reflect_bools. split_and!; [done| |done]. by destruct (fr_content row). }
      destruct (rec (offset + length (fr_content row))%nat) eqn:Er.
      * exists row. split; [apply list_elem_of_here|]. by right.
      * apply Hstep; [done|intros _; by right|intros _; by right|done|right; split; [done|by right]].
      * apply Hstep; [done|intros _; by left|by left|done|right; split; [done|by right]].
Qed.

Lemma covered_inv offset : covered offset -> offset <> length content ->
  exists row, row ∈ rows /\ pieceAt row offset /\ covered (offset + length (fr_content row)).
Proof. intros [|row o Hr Hp Hc] Hne; [done|]. by exists row. Qed.

Lemma interrupted_end : ~ interrupted (length content).
Proof. intros H. inversion H as [|row o Hr Hp Hc]; subst; [done|]. apply pieceAt_bound in Hp. lia. Qed.

(** *** The verdict *)
Lemma compareFrom_spec fuel offset :
  (offset <= length content)%nat -> (length content - offset <= fuel)%nat ->
  match compareFrom fuel rows content offset with
  | contentMatches => matchedAt offset
  | contentUnknown => ~ matchedAt offset /\ interrupted offset
  | contentDiffers => ~ matchedAt offset /\ ~ interrupted offset
  end.
Proof.
  revert offset. induction fuel as [|fuel IH]; intros offset Ho Hf; cbn [compareFrom];
    (destruct (Nat.eqb_spec offset (length content)) as [->|Hne]; [left; constructor|]); [lia|].
  pose proof (compareLoop_spec (compareFrom fuel rows content) offset rows 0 false) as HL.
  assert (forall row, pieceAt row offset ->
    match compareFrom fuel rows content (offset + length (fr_content row)) with
    | contentMatches => covered (offset + length (fr_content row))
    | contentUnknown => ~ covered (offset + length (fr_content row)) /\ interrupted (offset + length (fr_content row))
    | contentDiffers => ~ covered (offset + length (fr_content row)) /\ ~ interrupted (offset + length (fr_content row))
    end) as Hrec.
  { intros row Hp. pose proof (pieceAt_bound _ _ Hp) as Hb. specialize (IH (offset + length (fr_content row))%nat ltac:(lia) ltac:(lia)).
    unfold matchedAt in IH. destruct (compareFrom fuel rows content _).
    - destruct IH as [?|(w & _ & Hw0 & _)]; [done|lia].
    - split; [|apply IH]. intros Hc. apply (proj1 IH). by left.
    - split; [|apply IH]. intros Hc. apply (proj1 IH). by left. }
  destruct (compareLoop _ content offset rows 0 false).
  - destruct HL as (row & Hr & [Hw|[Hp Hm]]); [right; by exists row|left].
    apply (covered_piece row); [done|done|]. specialize (Hrec row Hp). by rewrite Hm in Hrec.
  - destruct HL as [Hall Hwhy]. split.
    + intros [Hc|(row & Hr & Hw)]; [|by destruct (Hall row Hr)].
      destruct (covered_inv _ Hc Hne) as (row & Hr & Hp & Hc'). specialize (Hrec row Hp). destruct (Hall row Hr) as [_ Hn].
      destruct (compareFrom fuel rows content _); [by apply Hn|by destruct Hrec|by destruct Hrec].
    + destruct Hwhy as [?|[(row & Hr & Hp & Hu)|(_ & Hpos & HF)]]; [done| |by apply interrupted_here].
      apply (interrupted_piece row); [done|done|]. specialize (Hrec row Hp). rewrite Hu in Hrec. apply Hrec.
  - destruct HL as (_ & Hall & Hno). split.
    + intros [Hc|(row & Hr & Hw)]; [|by destruct (Hall row Hr)].
      destruct (covered_inv _ Hc Hne) as (row & Hr & Hp & Hc'). specialize (Hrec row Hp). destruct (Hall row Hr) as [_ Hd].
      rewrite (Hd Hp) in Hrec. by destruct Hrec.
    + intros Hi. inversion Hi as [? Hpos _ HF|row ? Hr Hp Hi']; subst; [by apply Hno|].
      specialize (Hrec row Hp). destruct (Hall row Hr) as [_ Hd]. rewrite (Hd Hp) in Hrec. by destruct Hrec.
Qed.

(** The verdict on stored pieces is exact: the text matches when some row holds it whole or a
    sequence of stored pieces makes it up; otherwise it is unknown when the pieces are a
    beginning of it and stop at an offset at which no piece is stored, and it differs in
    every other case. *)
Theorem compareStoredContent_exact :
  (compareStoredContent rows content 0 = contentMatches <-> matchedAt 0) /\
  (compareStoredContent rows content 0 = contentUnknown <-> ~ matchedAt 0 /\ interrupted 0) /\
  (compareStoredContent rows content 0 = contentDiffers <-> ~ matchedAt 0 /\ ~ interrupted 0).
Proof.
  pose proof (compareFrom_spec (length content - 0) 0 ltac:(lia) ltac:(lia)) as HF. unfold compareStoredContent.
  destruct (compareFrom (length content - 0) rows content 0) eqn:E; split_and!; split; intros Hx; tauto || congruence.
Qed.
End compare.

(** ** What is planned *)

Section planning.
Variables (byteBudget : Z) (state : conversationState).

Definition unchangedFamily (family : chunkFamily) : bool :=
  present state (fam_Key family) && negb (differs state (fam_Key family) (fam_Chunks family)).

(** A row of a family that has to be written: the family is absent or differs, and no row of
    the family has its key. *)
Definition wanted (family : chunkFamily) (chunk : storedChunk) : Prop :=
  chunk ∈ expandOverBudget (fam_Chunks family) byteBudget /\
  unchangedFamily family = false /\ hasRow state (fam_Key family) (chunkID chunk) = false.

(** The two loops as one over pairs of a family and a row. *)
Definition planSteps (fs : list chunkFamily) : list (chunkFamily * storedChunk) :=
  concat (map (fun f => map (pair f) (expandOverBudget (fam_Chunks f) byteBudget)) fs).

Definition planStep (plan : planned) (step : chunkFamily * storedChunk) : planned :=
  planChunk state (fam_Key step.1) (unchangedFamily step.1) plan step.2.

Lemma planFamilies_steps fs plan : foldl (planFamily byteBudget state) plan fs = foldl planStep plan (planSteps fs).
Proof.
  revert plan. induction fs as [|f fs IH]; intros plan; [done|]. unfold planSteps. cbn [foldl map concat]. rewrite foldl_app.
  rewrite IH. f_equal. unfold planFamily. fold (unchangedFamily f). generalize (expandOverBudget (fam_Chunks f) byteBudget).
  intros l. revert plan. induction l as [|c l IHl]; intros plan; [done|]. cbn [foldl map]. by rewrite IHl.
Qed.

Lemma elem_of_planSteps fs f c : (f, c) ∈ planSteps fs <-> f ∈ fs /\ c ∈ expandOverBudget (fam_Chunks f) byteBudget.
Proof.
  unfold planSteps. rewrite !list_elem_of_In, in_concat. setoid_rewrite in_map_iff. split.
  - intros (l & (g & <- & Hg) & Hin). apply in_map_iff in Hin as (d & [= -> ->] & Hd). done.
  - intros [Hf Hc]. eexists. split; [by exists f|]. by apply in_map.
Qed.

Record planInv (steps : list (chunkFamily * storedChunk)) (plan : planned) : Prop := {
  inv_seen id : id ∈ pl_seen plan <-> id ∈ map chunkID (pl_chunks plan);
  inv_nodup : NoDup (map chunkID (pl_chunks plan));
  inv_sound c : c ∈ pl_chunks plan -> exists f, (f, c) ∈ steps /\ unchangedFamily f = false /\ hasRow state (fam_Key f) (chunkID c) = false;
  inv_complete f c : (f, c) ∈ steps -> unchangedFamily f = false -> hasRow state (fam_Key f) (chunkID c) = false ->
    chunkID c ∈ map chunkID (pl_chunks plan);
}.

Lemma planStep_inv steps plan f c : planInv steps plan -> planInv (steps ++ [(f, c)]) (planStep plan (f, c)).
Proof.
  intros [Hs Hn Hso Hc]. unfold planStep, planChunk. cbn [fst snd].
  destruct (unchangedFamily f || bool_decide (chunkID c ∈ pl_seen plan) || hasRow state (fam_Key f) (chunkID c)) eqn:E.
  - split; cbn [pl_chunks pl_seen]; [done|done| |].
    + intros d Hd. destruct (Hso d Hd) as (g & Hg & HQ). exists g. split; [apply elem_of_app; by left|done].
    + intros g d [Hin|Hin]%elem_of_app Hu Hh; [by apply (Hc g)|]. apply list_elem_of_singleton in Hin as [= -> ->].
      rewrite Hu, Hh, orb_false_r in E. cbn [orb] in E. reflect_bools. by apply Hs.
  - apply orb_false_iff in E as [[Hu Hd]%orb_false_iff Hh]. apply bool_decide_eq_false in Hd.
    split; cbn [pl_chunks pl_seen]; rewrite ?map_app; cbn [map].
    + intros id. rewrite elem_of_union, elem_of_singleton, elem_of_app, list_elem_of_singleton, Hs. tauto.
    + apply NoDup_app. split_and!; [done| |apply NoDup_singleton]. intros id Hid Hl%list_elem_of_singleton. subst. by apply Hd, Hs.
    + intros d [Hin|Hin]%elem_of_app.
      * destruct (Hso d Hin) as (g & Hg & HQ). exists g. split; [apply elem_of_app; by left|done].
      * apply list_elem_of_singleton in Hin as ->. exists f. split; [apply elem_of_app; right; by apply list_elem_of_singleton|done].
    + intros g d [Hin|Hin]%elem_of_app Hu' Hh'; apply elem_of_app; [left; by apply (Hc g)|right].
      apply list_elem_of_singleton in Hin as [= -> ->]. by apply list_elem_of_singleton.
Qed.

Lemma planSteps_inv steps : planInv steps (foldl planStep (MkPlanned [] ∅ ∅) steps).
Proof.
  induction steps as [|[f c] steps IH] using rev_ind.
  - split; cbn; [intros id; split; [by intros ?%elem_of_empty|by intros ?%elem_of_nil]|apply NoDup_nil_2|by intros c ?%elem_of_nil|by intros f c ?%elem_of_nil].
  - rewrite foldl_app. by apply planStep_inv.
Qed.

(** The plan of a conversation is exact: its rows have different keys, each belongs to a family
    that is absent or differs and has no stored row with its key, and every such row is in the
    plan by its key. *)
Theorem planConversation_exact Parse conversationID docs generated chunks fills :
  generatedChunks Parse docs = Ok generated ->
  planConversation Parse byteBudget conversationID docs state = Ok (chunks, fills) ->
  NoDup (map chunkID chunks) /\
  (forall chunk, chunk ∈ chunks -> exists family, family ∈ groupFamilies conversationID generated /\ wanted family chunk) /\
  (forall family chunk, family ∈ groupFamilies conversationID generated -> wanted family chunk ->
     chunkID chunk ∈ map chunkID chunks).
Proof.
  intros Hg Hp. unfold planConversation in Hp. rewrite Hg in Hp. cbn [mbind outcome_bind] in Hp. rewrite planFamilies_steps in Hp.
  injection Hp as <- <-. destruct (planSteps_inv (planSteps (groupFamilies conversationID generated))) as [_ Hn Hs Hc].
  split_and!; [done| |].
  - intros c Hin. destruct (Hs c Hin) as (f & [Hf He]%elem_of_planSteps & Hu & Hh). by exists f.
  - intros f c Hf (He & Hu & Hh). apply (Hc f); [by apply elem_of_planSteps|done|done].
Qed.
End planning.

(** ** Ingesting the same documents again *)

(** *** Families *)

Section groups.
Variable id : bytes.
Abbreviation keyOf := (fun chunk => chunkFamilyKey id (sc_RelativePath chunk)).

Definition groupsOk (chunks : list storedChunk) (fs : list chunkFamily) : Prop :=
  Forall (fun f => fam_Chunks f <> [] /\ Forall (fun c => keyOf c = fam_Key f /\ c ∈ chunks) (fam_Chunks f)) fs.

Lemma groupsOk_mono chunks chunks' fs : (forall c, c ∈ chunks -> c ∈ chunks') -> groupsOk chunks fs -> groupsOk chunks' fs.
Proof.
  intros Hs Hf. eapply Forall_impl; [exact Hf|]. intros f [Hne Hall]. split; [done|]. eapply Forall_impl; [exact Hall|].
  intros c [Hk Hc]. split; [done|by apply Hs].
Qed.

Lemma groupLoop_ok before chunks fs positions :
  groupsOk before fs ->
  (forall k i, positions !! k = Some i -> exists f, fs !! i = Some f /\ fam_Key f = k) ->
  groupsOk (before ++ chunks) (groupLoop id fs positions chunks).
Proof.
  revert before fs positions. induction chunks as [|c chunks IH]; intros before fs positions Hf Hp; cbn [groupLoop].
  { by rewrite app_nil_r. }
  change (c :: chunks) with ([c] ++ chunks). rewrite app_assoc.
  assert (groupsOk (before ++ [c]) fs) as Hf' by (eapply groupsOk_mono; [|exact Hf]; intros; apply elem_of_app; by left).
  assert (c ∈ before ++ [c]) as Hin by (apply elem_of_app; right; by apply list_elem_of_singleton).
  destruct (positions !! keyOf c) as [i|] eqn:E.
  - destruct (Hp _ _ E) as (f & Hl & Hk). apply IH.
    + apply Forall_lookup. intros j g Hg. destruct (decide (i = j)) as [<-|Hne].
      * rewrite list_lookup_alter_eq, Hl in Hg. injection Hg as <-. cbn [fam_Chunks fam_Key appendToFamily].
        unfold groupsOk in Hf'. rewrite Forall_lookup in Hf'. destruct (Hf' i f Hl) as [Hne Hall].
        split; [by destruct (fam_Chunks f)|]. apply Forall_app_2; [done|]. by constructor.
      * rewrite list_lookup_alter_ne in Hg by done. unfold groupsOk in Hf'. rewrite Forall_lookup in Hf'. by eapply Hf'.
    + intros k j Hkj. destruct (Hp _ _ Hkj) as (g & Hg & Hgk). destruct (decide (i = j)) as [<-|Hne].
      * exists (appendToFamily c g). rewrite list_lookup_alter_eq, Hg. done.
      * exists g. by rewrite list_lookup_alter_ne.
  - apply IH.
    + apply Forall_app_2; [done|]. constructor; [|constructor]. cbn [fam_Chunks fam_Key]. split; [done|]. by constructor.
    + intros k j Hkj. destruct (decide (k = keyOf c)) as [->|Hne].
      * rewrite lookup_insert_eq in Hkj. injection Hkj as <-. eexists. split; [by apply list_lookup_middle|done].
      * rewrite lookup_insert_ne in Hkj by done. destruct (Hp _ _ Hkj) as (g & Hg & Hgk). exists g. split; [|done].
        by apply lookup_app_l_Some.
Qed.

Lemma groupFamilies_ok chunks : groupsOk chunks (groupFamilies id chunks).
Proof. apply (groupLoop_ok [] chunks [] ∅); [constructor|]. intros k i Hk. by rewrite lookup_empty in Hk. Qed.
End groups.

Lemma docFamilies_forall Parse doc budget (P : storedChunk -> Prop) :
  (forall doc key content prefix, Forall P (fieldChunks doc key content prefix budget)) ->
  Forall P (concat (map fam_Chunks (docFamilies Parse doc budget))).
Proof.
  intros HP. unfold docFamilies. cbn [map concat fam_Chunks]. rewrite map_app, concat_app. cbn [map concat fam_Chunks].
  rewrite app_nil_r. repeat apply Forall_app_2; [apply HP| |apply HP].
  apply Forall_concat, Forall_forall. intros l Hl. apply list_elem_of_In, in_map_iff in Hl as (f & <- & Hf).
  apply list_elem_of_In, list_elem_of_lookup in Hf as [i Hf]. rewrite list_lookup_imap in Hf.
  destruct (_ !! i); [|done]. simplify_eq/=. apply HP.
Qed.

(** Generated rows are not split and not empty. *)
Lemma generatedChunks_whole Parse docs generated :
  generatedChunks Parse docs = Ok generated -> Forall (fun c => sc_SplitPart c = 0 /\ sc_Content c <> []) generated.
Proof.
  revert generated. induction docs as [|doc docs IH]; intros generated Hg; cbn [generatedChunks] in Hg; [by simplify_eq|].
  destruct (documentChunks Parse doc conversationChunkMaxBytes) as [rows|e|] eqn:E; [|done|done]. cbn [mbind outcome_bind] in Hg.
  destruct (generatedChunks Parse docs) as [rest|e|]; [|done|done]. cbn in Hg. injection Hg as <-.
  apply Forall_app_2; [|by apply IH]. rewrite (documentChunks_fields _ _ _ _ E). apply docFamilies_forall. intros d key content prefix.
  apply Forall_and. split; [by apply fieldChunks_forall|apply fieldChunks_nonempty].
Qed.

(** *** Stored rows of pieces *)

(** A stored row that holds a chunk under its key. *)
Definition holds (row : storedFamilyRow) (chunk : storedChunk) : Prop :=
  fr_id row = chunkID chunk /\ fr_relativePath row = sc_RelativePath chunk /\ fr_content row = sc_Content chunk /\
  fr_splitPart row = sc_SplitPart chunk /\ fr_splitPartRecorded row = true.

Lemma holds_current row chunk : holds row chunk -> hasCurrentKey row = true.
Proof.
  intros (Hi & Hp & Hc & Hs & Hr). unfold hasCurrentKey. rewrite Hr, Hi, Hp, Hc, Hs. cbn [andb]. apply bool_decide_eq_true.
  unfold chunkID, hashInput. done.
Qed.

(** Pieces at their offsets that are stored make up the text. *)
Lemma covered_chain rows content path offset leaves :
  chain path (Z.of_nat offset) leaves -> (offset <= length content)%nat ->
  concat (map sc_Content leaves) = drop offset content ->
  Forall (fun leaf => sc_Content leaf <> [] /\ exists row, row ∈ rows /\ holds row leaf) leaves ->
  covered rows content offset.
Proof.
  revert offset. induction leaves as [|leaf leaves IH]; intros offset Hc Ho Ht Hall.
  - cbn in Ht. assert (offset = length content) as ->; [|constructor].
    apply (f_equal length) in Ht. rewrite length_drop in Ht. cbn in Ht. lia.
  - destruct Hc as (_ & Hs & Hc). apply Forall_cons in Hall as [(Hne & row & Hr & Hh) Hall]. cbn [map concat] in Ht.
    pose proof Hh as (_ & _ & Hrc & Hrs & _). apply (covered_piece rows content row); [done| |].
    + split_and!; [lia|congruence|]. apply HasPrefix_spec. exists (concat (map sc_Content leaves)). by rewrite Hrc.
    + apply (f_equal length) in Ht as Hl. rewrite length_drop, length_app in Hl. rewrite Hrc. apply IH; [|lia| |done].
      * unfold zlen in Hc. by replace (Z.of_nat (offset + length (sc_Content leaf))) with (Z.of_nat offset + Z.of_nat (length (sc_Content leaf))) by lia.
      * rewrite <- drop_drop, <- Ht. by rewrite drop_app_length.
Qed.

(** *** The state that is read back *)

Definition loadRows (id model : bytes) (loaded : list (StoredRow * list Z)) : storedBatch :=
  foldl (fun batch '(row, vector) => addStored id row vector model batch) newStoredBatch loaded.

Lemma loadRows_state id model loaded key row :
  id <> [] ->
  row ∈ rowsOf (default ∅ (stateOf (loadRows id model loaded) id)) key <->
  exists stored vector, (stored, vector) ∈ loaded /\ conversationTextIsStorable (sr_Content stored) = true /\
    chunkFamilyKey id (sr_RelativePath stored) = key /\ row = familyRow stored.
Proof.
  intros Hid. unfold loadRows, stateOf.
  induction loaded as [|[stored vector] loaded IH] using rev_ind.
  { cbn. rewrite lookup_empty. unfold rowsOf. cbn. rewrite lookup_empty. split; [by intros ?%elem_of_nil|].
    by intros (? & ? & ?%elem_of_nil & _). }
  rewrite foldl_app. cbn [foldl]. set (batch := foldl _ _ loaded) in *. unfold addStored.
  destruct (isEmpty id) eqn:Ee; [by destruct id|]. cbn [orb].
  destruct (conversationTextIsStorable (sr_Content stored)) eqn:Es; cbn [negb sb_conversations].
  - rewrite lookup_insert_eq. cbn [default from_option Datatypes.id]. unfold addToFamilies, rowsOf in *.
    set (st := default ∅ (sb_conversations batch !! id)) in *.
    destruct (decide (key = chunkFamilyKey id (sr_RelativePath stored))) as [->|Hne].
    + rewrite lookup_insert_eq. cbn [default from_option Datatypes.id].
      rewrite elem_of_app, list_elem_of_singleton, IH. setoid_rewrite elem_of_app. setoid_rewrite list_elem_of_singleton. split.
      * intros [(s & v & Hin & HQ)| ->]; [exists s, v; by split; [left|]|]. exists stored, vector. by split; [right|].
      * intros (s & v & [Hin| [= -> ->] ] & H1 & H2 & H3); [left; by exists s, v|by right].
    + rewrite lookup_insert_ne by done. rewrite IH. setoid_rewrite elem_of_app. setoid_rewrite list_elem_of_singleton. split.
      * intros (s & v & Hin & HQ). exists s, v. by split; [left|].
      * intros (s & v & [Hin| [= -> ->] ] & H1 & H2 & H3); [by exists s, v|done].
  - rewrite IH. setoid_rewrite elem_of_app. setoid_rewrite list_elem_of_singleton. split.
    + intros (s & v & Hin & HQ). exists s, v. by split; [left|].
    + intros (s & v & [Hin| [= -> ->] ] & H1 & HQ); [by exists s, v|congruence].
Qed.

Definition sameRow (c d : storedChunk) : Prop :=
  sc_RelativePath c = sc_RelativePath d /\ sc_SplitPart c = sc_SplitPart d /\ sc_Content c = sc_Content d.

(** The tiling of one of several inputs. *)
Lemma tilings_member cs leaves c : tilings cs leaves -> c ∈ cs -> exists l, tiling c l /\ forall leaf, leaf ∈ l -> leaf ∈ leaves.
Proof.
  induction 1 as [|d cs l rest Hd _ IH]; [by intros ?%elem_of_nil|]. intros [->|Hin]%elem_of_cons.
  - exists l. split; [done|]. intros leaf Hl. apply elem_of_app. by left.
  - destruct (IH Hin) as (l' & Hl' & Hs). exists l'. split; [done|]. intros leaf Hl. apply elem_of_app. right. by apply Hs.
Qed.

Section again.
Variables (byteBudget : Z) (id : bytes) (generated chunks leaves : list storedChunk).

Definition expanded : list storedChunk :=
  concat (map (fun f => expandOverBudget (fam_Chunks f) byteBudget) (groupFamilies id generated)).

(** The leaves that a piece was written as. *)
Definition writtenAs (piece : storedChunk) (l : list storedChunk) : Prop :=
  (forall leaf, leaf ∈ l -> leaf ∈ leaves) /\ concat (map sc_Content l) = sc_Content piece /\
  ((exists leaf, l = [leaf] /\ sameRow leaf piece) \/ chain (sc_RelativePath piece) (offsetOf piece) l).

Hypothesis Hplanned : forall piece, piece ∈ expanded -> chunkID piece ∈ map chunkID chunks.
Hypothesis Hchunks : forall c, c ∈ chunks -> c ∈ expanded.
Hypothesis Htiles : tilings chunks leaves.
Hypothesis Hkeys : forall c d, c ∈ expanded -> d ∈ expanded -> chunkID c = chunkID d -> sameRow c d.

Lemma piece_written piece : piece ∈ expanded -> positionFits piece -> exists l, writtenAs piece l.
Proof.
  intros Hp Hf. pose proof (Hplanned piece Hp) as Hin. apply list_elem_of_In, in_map_iff in Hin as (c & Hid & Hc).
  apply list_elem_of_In in Hc. pose proof (Hkeys c piece (Hchunks c Hc) Hp Hid) as (E1 & E2 & E3).
  destruct (tilings_member _ _ _ Htiles Hc) as (l & Hl & Hs). exists l. split; [done|].
  assert (offsetOf c = offsetOf piece) as Eo by (unfold offsetOf; by rewrite E2).
  split; [rewrite <- E3; by apply (proj1 tiling_content)|].
  destruct (proj1 tiling_chain c l Hl) as [->|Hch].
  - split; [by destruct Hf as [? _]; lia|]. rewrite Eo, E3. apply Hf.
  - left. by exists c.
  - right. by rewrite <- E1, <- Eo.
Qed.

(** Pieces in a chain are written as a chain. *)
Lemma pieces_written path offset pieces :
  chain path offset pieces -> 0 <= offset -> offset + zlen (concat (map sc_Content pieces)) < 2 ^ 31 - 1 ->
  Forall (.∈ expanded) pieces ->
  exists l, chain path offset l /\ (forall leaf, leaf ∈ l -> leaf ∈ leaves) /\
    concat (map sc_Content l) = concat (map sc_Content pieces).
Proof.
  revert offset. induction pieces as [|piece pieces IH]; intros offset Hc Ho Hb Hin.
  { exists []. split_and!; [done|by intros ? ?%elem_of_nil|done]. }
  destruct Hc as (Hp & Hs & Hc). apply Forall_cons in Hin as [H1 Hin]. cbn [map concat] in Hb. rewrite zlen_app in Hb.
  pose proof (zlen_nonneg (sc_Content piece)). pose proof (zlen_nonneg (concat (map sc_Content pieces))).
  assert (offsetOf piece = offset) as Eo by (unfold offsetOf; rewrite Hs, (proj2 (Z.ltb_lt 0 _)); lia).
  destruct (piece_written piece H1) as (l1 & Hl1 & Ht1 & Hw1); [split; [lia|rewrite Eo; lia]|].
  destruct (IH (offset + zlen (sc_Content piece)) Hc ltac:(lia) ltac:(lia) Hin) as (l2 & Hc2 & Hl2 & Ht2).
  exists (l1 ++ l2). cbn [map concat]. rewrite map_app, concat_app, Ht1, Ht2. split_and!; [|intros leaf [?|?]%elem_of_app; auto|done].
  apply chain_app. rewrite Ht1. split; [|done]. destruct Hw1 as [(leaf & -> & E1 & E2 & E3)|Hch]; [|by rewrite <- Hp, <- Eo].
  cbn [chain]. split_and!; [congruence|congruence|done].
Qed.

(** A generated row that was written is found again, whole or in pieces. *)
Lemma generated_matched rows chunk :
  sc_SplitPart chunk = 0 -> zlen (sc_Content chunk) < 2 ^ 31 - 1 ->
  Forall (.∈ expanded) (expandOverBudget [chunk] byteBudget) ->
  (forall leaf, leaf ∈ leaves -> sc_RelativePath leaf = sc_RelativePath chunk -> sc_Content leaf <> [] /\ exists row, row ∈ rows /\ holds row leaf) ->
  matchedAt rows (sc_Content chunk) 0.
Proof.
  intros Hs Hlen Hin Hrows.
  assert (positionFits chunk) as Hf by (split; [lia|unfold offsetOf; rewrite Hs; cbn; lia]).
  assert (offsetOf chunk = 0) as Eo by (unfold offsetOf; by rewrite Hs).
  assert (forall l, chain (sc_RelativePath chunk) 0 l -> (forall leaf, leaf ∈ l -> leaf ∈ leaves) ->
            concat (map sc_Content l) = sc_Content chunk -> covered rows (sc_Content chunk) 0) as Hcov.
  { intros l Hc Hl Ht. apply (covered_chain rows (sc_Content chunk) (sc_RelativePath chunk) 0 l); [done|lia|done|].
    apply Forall_forall. intros leaf Hleaf. apply Hrows; [by apply Hl|].
    by destruct (chain_later _ _ _ leaf Hc ltac:(lia) Hleaf) as [? _]. }
  unfold expandOverBudget in Hin. cbn [map concat] in Hin. rewrite app_nil_r in Hin.
  assert (chunk ∈ expanded -> matchedAt rows (sc_Content chunk) 0) as Hwhole.
  { intros H1. destruct (piece_written chunk H1 Hf) as (l & Hl & Ht & [(leaf & -> & E1 & E2 & E3)|Hc]).
    - right. destruct (Hrows leaf) as (_ & row & Hr & _ & _ & Hrc & Hrs & _); [apply Hl; by apply list_elem_of_singleton|done|].
      exists row. split; [done|]. split_and!; [done|congruence|congruence].
    - left. rewrite Eo in Hc. by apply (Hcov l). }
  destruct (byteBudget <=? 0); [apply Hwhole; by apply Forall_cons in Hin as [? _]|].
  destruct (zlen (sc_Content chunk) <=? byteBudget); [apply Hwhole; by apply Forall_cons in Hin as [? _]|].
  pose proof (splitChunkAtBudget_chain chunk byteBudget Hf) as Hc. rewrite Eo in Hc.
  assert (concat (map sc_Content (splitChunkAtBudget chunk byteBudget)) = sc_Content chunk) as Et.
  { rewrite splitChunkAtBudget_content. apply splitTextByBytes_concat. }
  destruct (pieces_written _ _ _ Hc) as (l & Hcl & Hl & Ht); [lia|rewrite Et; lia|done|]. left. apply (Hcov l); [done|done|congruence].
Qed.
End again.

Lemma expandOverBudget_member chunks budget chunk piece :
  chunk ∈ chunks -> piece ∈ expandOverBudget [chunk] budget -> piece ∈ expandOverBudget chunks budget.
Proof.
  unfold expandOverBudget. destruct (budget <=? 0); [by intros H ->%list_elem_of_singleton|]. intros Hc Hp.
  cbn [map concat] in Hp. rewrite app_nil_r in Hp. apply list_elem_of_In, in_concat. eexists. split; [|by apply list_elem_of_In].
  apply in_map_iff. exists chunk. split; [done|by apply list_elem_of_In].
Qed.

Lemma elem_of_expanded byteBudget id generated f piece :
  f ∈ groupFamilies id generated -> piece ∈ expandOverBudget (fam_Chunks f) byteBudget -> piece ∈ expanded byteBudget id generated.
Proof.
  intros Hf Hp. apply list_elem_of_In, in_concat. eexists. split; [|by apply list_elem_of_In].
  apply in_map_iff. exists f. split; [done|by apply list_elem_of_In].
Qed.

(** A text that matches and is not empty has a row. *)
Lemma matchedAt_row rows content : content <> [] -> matchedAt rows content 0 -> exists row, row ∈ rows.
Proof.
  intros Hne [Hc|(row & Hr & _)]; [|by exists row].
  destruct (covered_inv _ _ _ Hc) as (row & Hr & _); [by destruct content|by exists row].
Qed.

(** Families of which every row matches are left alone. *)
Lemma unchanged_matched state f :
  fam_Chunks f <> [] -> Forall (fun c => sc_Content c <> []) (fam_Chunks f) ->
  Forall (fun row => hasCurrentKey row = true) (rowsOf (default ∅ state) (fam_Key f)) ->
  Forall (fun c => matchedAt (pathRows (rowsOf (default ∅ state) (fam_Key f)) c) (sc_Content c) 0) (fam_Chunks f) ->
  unchangedFamily state f = true.
Proof.
  intros Hne Hcontent Hcur Hall.
  assert (exists row, row ∈ rowsOf (default ∅ state) (fam_Key f)) as [row0 Hrow0].
  { destruct (fam_Chunks f) as [|c rest]; [done|]. apply Forall_cons in Hall as [Hm _]. apply Forall_cons in Hcontent as [Hc _].
    destruct (matchedAt_row _ _ Hc Hm) as [row Hr]. exists row. apply list_elem_of_In, List.filter_In in Hr as [Hr _]. by apply list_elem_of_In. }
  destruct state as [state|]; cbn [default from_option Datatypes.id] in *;
    [|unfold rowsOf in Hrow0; rewrite lookup_empty in Hrow0; by apply elem_of_nil in Hrow0].
  unfold unchangedFamily. apply andb_true_iff. split.
  - unfold present. unfold rowsOf in Hrow0. destruct (state !! fam_Key f); [done|]. by apply elem_of_nil in Hrow0.
  - apply negb_true_iff. unfold differs. apply andb_false_iff. right. apply not_true_is_false. intros Hex.
    apply existsb_exists in Hex as (c & Hin & Hd). apply list_elem_of_In in Hin. rewrite Forall_forall in Hall, Hcontent.
    specialize (Hall c Hin). specialize (Hcontent c Hin). unfold chunkDiffers in Hd.
    destruct (matchedAt_row _ _ Hcontent Hall) as [row Hr]. set (rs := pathRows _ c) in *.
    destruct rs as [|r rs']; [by apply elem_of_nil in Hr|]. cbn [length Nat.eqb orb] in Hd. apply bool_decide_eq_true in Hd.
    pose proof (compareFrom_spec (r :: rs') (sc_Content c) (length (sc_Content c) - 0) 0 ltac:(lia) ltac:(lia)) as HF.
    unfold compareStoredContent in Hd. rewrite Hd in HF. by destruct HF.
Qed.

(** C18. Ingesting the same documents twice writes nothing the second time.  The first plan is made for
    a conversation without stored rows; its rows are written, possibly in smaller pieces, none
    of which is blank, and are read back.  Keys of different rows do not collide.  Then the
    second plan is empty. *)
Theorem planConversation_idempotent Parse byteBudget id docs generated chunks fills leaves model loaded :
  id <> [] -> generatedChunks Parse docs = Ok generated -> Forall (fun c => zlen (sc_Content c) < 2 ^ 31 - 1) generated ->
  planConversation Parse byteBudget id docs None = Ok (chunks, fills) ->
  tilings chunks leaves -> Forall (fun leaf => conversationTextIsStorable (sc_Content leaf) = true) leaves ->
  (forall c d, c ∈ expanded byteBudget id generated -> d ∈ expanded byteBudget id generated -> chunkID c = chunkID d -> sameRow c d) ->
  (forall leaf, leaf ∈ leaves -> exists stored vector, (stored, vector) ∈ loaded /\ holds (familyRow stored) leaf) ->
  (forall stored vector, (stored, vector) ∈ loaded -> exists leaf, leaf ∈ leaves /\ holds (familyRow stored) leaf) ->
  exists fills', planConversation Parse byteBudget id docs (stateOf (loadRows id model loaded) id) = Ok ([], fills').
Proof.
  intros Hid Hg Hlen Hplan Htiles Hblank Hkeys Hload Honly. set (state := stateOf (loadRows id model loaded) id).
  unfold planConversation in *. rewrite Hg in *. cbn [mbind outcome_bind] in *. rewrite planFamilies_steps in *. injection Hplan as Hc0 _.
  pose proof (planSteps_inv None (planSteps byteBudget (groupFamilies id generated))) as [_ _ Hs0 Hc1]. rewrite Hc0 in *.
  pose proof (groupFamilies_ok id generated) as Hgroups. pose proof (generatedChunks_whole _ _ _ Hg) as Hwhole.
  unfold groupsOk in Hgroups. rewrite Forall_forall in Hgroups. rewrite Forall_forall in Hwhole.
  rewrite Forall_forall in Hlen. rewrite Forall_forall in Hblank.
  assert (forall piece, piece ∈ expanded byteBudget id generated -> chunkID piece ∈ map chunkID chunks) as Hall.
  { intros piece Hp. apply list_elem_of_In, in_concat in Hp as (l & Hl & Hp). apply in_map_iff in Hl as (f & <- & Hf).
    apply (Hc1 f); [|done|done]. apply elem_of_planSteps. split; by apply list_elem_of_In. }
  assert (forall c, c ∈ chunks -> c ∈ expanded byteBudget id generated) as Hsub.
  { intros c Hc. destruct (Hs0 c Hc) as (f & [Hf He]%elem_of_planSteps & _). by apply (elem_of_expanded _ _ _ f). }
  assert (forall f, f ∈ groupFamilies id generated -> unchangedFamily state f = true) as Hunch.
  { intros f Hf. destruct (Hgroups f Hf) as [Hne Hfam]. rewrite Forall_forall in Hfam. apply unchanged_matched; [done| | |].
    - apply Forall_forall. intros c Hc. apply Hwhole. by apply Hfam.
    - apply Forall_forall. intros row (stored & vector & Hin & _ & _ & ->)%loadRows_state; [|done].
      destruct (Honly _ _ Hin) as (leaf & _ & Hh). by eapply holds_current.
    - apply Forall_forall. intros c Hc. destruct (Hfam c Hc) as [Hk Hcg]. destruct (Hwhole c Hcg) as [Hsp _].
      apply (generated_matched byteBudget id generated chunks leaves Hall Hsub Htiles Hkeys); [done|by apply Hlen| |].
      + apply Forall_forall. intros piece Hp. apply (elem_of_expanded _ _ _ f); [done|]. by apply (expandOverBudget_member _ _ c).
      + intros leaf Hleaf Hpath. split; [by apply storable_nonempty, Hblank|].
        destruct (Hload leaf Hleaf) as (stored & vector & Hin & Hh). exists (familyRow stored). split; [|done].
        pose proof Hh as (_ & Hp & Hct & _). cbn in Hp, Hct. apply list_elem_of_In, List.filter_In. split.
        * apply list_elem_of_In, loadRows_state; [done|]. exists stored, vector. split_and!; [done| | |done].
          -- rewrite Hct. by apply Hblank.
          -- by rewrite Hp, Hpath.
        * apply bool_decide_eq_true. cbn. congruence. }
  pose proof (planSteps_inv state (planSteps byteBudget (groupFamilies id generated))) as [_ _ Hs1 _].
  set (plan := foldl (planStep state) _ _) in *. exists (pl_fills plan). destruct (pl_chunks plan) as [|c rest]; [done|]. exfalso.
  destruct (Hs1 c (list_elem_of_here _ _)) as (f & [Hf _]%elem_of_planSteps & Hu & _). rewrite (Hunch f Hf) in Hu. done.
Qed.

(** *** Examples *)

(** The stored row of a chunk. *)
Definition storedCopy (chunk : storedChunk) : StoredRow :=
  MkStoredRow (chunkID chunk) (sc_RelativePath chunk) (sc_Content chunk) (sc_SplitPart chunk) true (lit "m")
    (contentKey (sc_Content chunk)) {[timestampUnixColumn := ValueCell timestampUnixColumn (timestampScalar (sc_TimestampUnix chunk))]}.
Definition readBack (chunks : list storedChunk) : list (StoredRow * list Z) := map (fun c => (storedCopy c, [])) chunks.

Definition noShell (command : bytes) : option Decomposition := None.
Definition sampleID : bytes := lit "claude:s1".
Definition sampleGenerated : list storedChunk := match generatedChunks noShell [sampleDoc] with Ok g => g | _ => [] end.
Definition samplePlan : list storedChunk :=
  match planConversation noShell 5 sampleID [sampleDoc] None with Ok (chunks, _) => chunks | _ => [] end.

Lemma NoDup_map_eq {A B} (f : A -> B) (l : list A) c d : NoDup (map f l) -> c ∈ l -> d ∈ l -> f c = f d -> c = d.
Proof.
  intros Hn [i Hi]%list_elem_of_lookup [j Hj]%list_elem_of_lookup H.
  assert (i = j) as ->; [|congruence]. eapply (NoDup_lookup (map f l)); [done| |].
  - rewrite list_lookup_fmap, Hi. done.
  - rewrite list_lookup_fmap, Hj. cbn. by rewrite H.
Qed.

Lemma storedCopy_holds chunk : holds (familyRow (storedCopy chunk)) chunk.
Proof. split_and!; reflexivity. Qed.

Lemma readBack_in chunks c : c ∈ chunks -> exists stored vector, (stored, vector) ∈ readBack chunks /\ holds (familyRow stored) c.
Proof.
  intros Hc. exists (storedCopy c), []. split; [|apply storedCopy_holds].
  apply list_elem_of_In, in_map_iff. exists c. split; [reflexivity|]. by apply list_elem_of_In.
Qed.

Lemma readBack_elem chunks stored vector : (stored, vector) ∈ readBack chunks -> exists c, c ∈ chunks /\ holds (familyRow stored) c.
Proof.
  intros H. apply list_elem_of_In, in_map_iff in H as (c & [= <- <-] & Hc). exists c. split; [by apply list_elem_of_In|apply storedCopy_holds].
Qed.

Lemma planConversation_idempotent_witness :
  map sc_Content samplePlan = [lit "one t"; lit "wo th"; lit "ree"; lit "Bash
"; lit "ls -l"] /\
  exists fills', planConversation noShell 5 sampleID [sampleDoc] (stateOf (loadRows sampleID (lit "m") (readBack samplePlan)) sampleID)
                 = Ok ([], fills').
Proof.
  split; [vm_compute; reflexivity|].
  apply (planConversation_idempotent noShell 5 sampleID [sampleDoc] sampleGenerated samplePlan ∅ samplePlan (lit "m") (readBack samplePlan)).
  - discriminate.
  - vm_compute. reflexivity.
  - apply (bool_decide_unpack _). vm_compute. done.
  - vm_compute. reflexivity.
  - apply tilings_refl.
  - apply (bool_decide_unpack _). vm_compute. done.
  - intros c d Hc Hd Hid.
    assert (c = d) as ->; [|repeat split]. revert Hid. apply (NoDup_map_eq chunkID (expanded 5 sampleID sampleGenerated)); [|done|done].
    apply (bool_decide_unpack _). vm_compute. done.
  - apply readBack_in.
  - apply readBack_elem.
Defined.

(** A message that starts with as many blanks as a passage is long, here 64 bytes. *)
Definition indentedDoc : SemDoc :=
  MkDoc sampleID [] 1 (lit "user") 1700000000 (replicate 64 Byte.x20 ++ lit "x") [] [] [] false [].

Definition indentedPlan : list storedChunk :=
  match planConversation noShell 64 sampleID [indentedDoc] None with Ok (chunks, _) => chunks | _ => [] end.

(** A blank piece is stored but not counted as stored: the message that starts with it is found to
    differ and its blank row is written again by every ingest. *)
Theorem planConversation_blank_again :
  exists fills fills' blank rest,
    planConversation noShell 64 sampleID [indentedDoc] None = Ok ([blank; rest], fills) /\
    sc_Content blank = replicate 64 Byte.x20 /\
    planConversation noShell 64 sampleID [indentedDoc]
      (stateOf (loadRows sampleID (lit "m") (readBack [blank; rest])) sampleID) = Ok ([blank], fills').
Proof.
  exists ∅, ∅, (withPiece (newChunk indentedDoc sampleID [] (lit "conv/claude:s1/1") []) (replicate 64 Byte.x20) 1),
    (withPiece (newChunk indentedDoc sampleID [] (lit "conv/claude:s1/1") []) (lit "x") 65).
  split_and!; [vm_compute; reflexivity|reflexivity|vm_compute; reflexivity].
Qed.

Lemma planConversation_exact_witness :
  NoDup (map chunkID samplePlan) /\
  forall chunk, chunk ∈ samplePlan -> exists family, family ∈ groupFamilies sampleID sampleGenerated /\ wanted 5 None family chunk.
Proof.
  assert (generatedChunks noShell [sampleDoc] = Ok sampleGenerated) as Hg by (vm_compute; reflexivity).
  assert (planConversation noShell 5 sampleID [sampleDoc] None = Ok (samplePlan, ∅)) as Hp by (vm_compute; reflexivity).
  destruct (planConversation_exact 5 None noShell sampleID [sampleDoc] sampleGenerated samplePlan ∅ Hg Hp) as (H1 & H2 & _).
  split; assumption.
Defined.
