(* ===== verification/VsUpsert.v ===== *)
(** * VsUpsert: fingerprint records and the ingest of documents (vectorsearch/checkpoint.go,
      ingest.go [SyncConversationManifest], [groupDocuments], [UpsertConversationDocuments];
      ingest_status.go)

    A record holds the fingerprint of a conversation whose rows are written.  It is one file,
    written to a temporary file that is renamed, and then kept in memory.  The conversations
    to deliver are those of the manifest without a record or with another fingerprint.

    Parameters: the JSON of a record and the collection's name.  The effects of the file
    system are explicit: which step of a write fails is an argument. *)

From S2P Require Import Prelude GoUtf8 GoStrconv GoText GoSha256 CsRecord CsStore TkCap VsRows VsEmbed VsState.

Open Scope Z_scope.

(** ** Records *)

Definition checkpointFileSuffix : bytes := lit ".json".
Definition checkpointTempPrefix : bytes := lit ".tmp-".

Record checkpointRecord := MkCheckpoint { cp_ConversationID : bytes; cp_Fingerprint : bytes }.

(** [json.Marshal] and [json.Unmarshal] of a record: what is written is read back. *)
Class CheckpointCodec := {
  marshalCheckpoint : checkpointRecord -> bytes;
  unmarshalCheckpoint : bytes -> option checkpointRecord;
  unmarshal_marshal r : ValidString (cp_ConversationID r) = true -> ValidString (cp_Fingerprint r) = true ->
    unmarshalCheckpoint (marshalCheckpoint r) = Some r;
}.

(** An entry of a directory; [None] is a content that cannot be read. *)
Record entry := MkEntry { en_Name : bytes; en_IsDir : bool; en_Content : option bytes }.

(** The directories of the collections below the root; an absent one cannot be listed. *)
Abbreviation disk := (gmap bytes (list entry)).

Record checkpointStore := MkCheckpoints {
  ck_root : bytes;
  ck_loaded : gmap bytes (gmap bytes bytes);
}.

Definition newCheckpointStore (root : bytes) : checkpointStore := MkCheckpoints root ∅.

Definition checkpointFileName (conversationID : bytes) : bytes :=
  take 32 (EncodeToString (Sum256 conversationID)) ++ checkpointFileSuffix.

Section checkpoints.
Context `{CheckpointCodec}.

Definition loadEntry (fingerprints : gmap bytes bytes) (e : entry) : gmap bytes bytes :=
  if en_IsDir e || negb (HasSuffix (en_Name e) checkpointFileSuffix) || HasPrefix (en_Name e) checkpointTempPrefix
  then fingerprints else
  match en_Content e with
  | None => fingerprints
  | Some content =>
      match unmarshalCheckpoint content with
      | None => fingerprints
      | Some record =>
          if isEmpty (cp_ConversationID record) then fingerprints
          else <[cp_ConversationID record := cp_Fingerprint record]> fingerprints
      end
  end.

Definition loadEntries (entries : list entry) : gmap bytes bytes := foldl loadEntry ∅ entries.

Definition records (files : disk) (store : checkpointStore) (collectionName : bytes) : checkpointStore * gmap bytes bytes :=
  match ck_loaded store !! collectionName with
  | Some fingerprints => (store, fingerprints)
  | None =>
      let fingerprints :=
        if isEmpty (ck_root store) then ∅
        else match files !! collectionName with None => ∅ | Some entries => loadEntries entries end in
      (MkCheckpoints (ck_root store) (<[collectionName := fingerprints]> (ck_loaded store)), fingerprints)
  end.

(** [slices.Sort] and [slices.Compact] of strings. *)
Definition strLe (a b : bytes) : Prop := strCompare a b <= 0.
#[global] Instance strLe_dec : RelDecision strLe.
Proof. intros a b. unfold strLe. apply _. Defined.

Fixpoint Compact (l : list bytes) : list bytes :=
  match l with
  | [] => []
  | x :: l' => match l' with
               | y :: _ => if bool_decide (x = y) then Compact l' else x :: Compact l'
               | [] => [x]
               end
  end.

(** [ids] and [fingerprints] are the two columns of the manifest. *)
Definition needed (files : disk) (store : checkpointStore) (collectionName : bytes) (manifest : list (bytes * bytes))
  : checkpointStore * list bytes :=
  let '(store, recorded) := records files store collectionName in
  let ids := omap (fun '(id, fingerprint) =>
                     if isEmpty id then None
                     else if bool_decide (recorded !! id = Some fingerprint) then None else Some id) manifest in
  (store, Compact (merge_sort strLe ids)).

(** How a write of a record goes: the steps that succeed, the bytes of the temporary file
    that were written, and its name. *)
Record writeSteps := MkSteps {
  ws_mkdir : bool;
  ws_createTemp : bool;
  ws_tempName : bytes;
  ws_write : bool;
  ws_partial : nat;
  ws_close : bool;
  ws_rename : bool;
  ws_remove : bool;
}.

Definition putFile (entries : list entry) (name content : bytes) : list entry :=
  if existsb (fun e => bool_decide (en_Name e = name)) entries
  then map (fun e => if bool_decide (en_Name e = name) then MkEntry name false (Some content) else e) entries
  else entries ++ [MkEntry name false (Some content)].

Definition afterFailure (steps : writeSteps) (entries : list entry) (content : bytes) : list entry :=
  if ws_remove steps then entries else putFile entries (ws_tempName steps) content.

(** [writeCheckpointFile] on the entries of the directory (empty if it was absent): the entries
    left, [None] when there is still no directory, and whether it succeeded. *)
Definition writeCheckpointFile (steps : writeSteps) (directory : option (list entry)) (conversationID fingerprint : bytes)
  : option (list entry) * bool :=
  if negb (ws_mkdir steps) then (directory, false) else
  let entries := default [] directory in
  let content := marshalCheckpoint (MkCheckpoint conversationID fingerprint) in
  let name := checkpointFileName conversationID in
  if negb (ws_createTemp steps) then (Some entries, false)
  else if negb (ws_write steps) then (Some (afterFailure steps entries (take (ws_partial steps) content)), false)
  else if negb (ws_close steps) then (Some (afterFailure steps entries content), false)
  else if negb (ws_rename steps) then (Some (afterFailure steps entries content), false)
  else (Some (putFile entries name content), true).

Definition record (steps : writeSteps) (files : disk) (store : checkpointStore) (collectionName conversationID fingerprint : bytes)
  : checkpointStore * disk :=
  let '(store, recorded) := records files store collectionName in
  let memory := MkCheckpoints (ck_root store) (<[collectionName := <[conversationID := fingerprint]> recorded]> (ck_loaded store)) in
  if isEmpty (ck_root store) then (memory, files) else
  let '(directory, written) := writeCheckpointFile steps (files !! collectionName) conversationID fingerprint in
  let files := match directory with Some entries => <[collectionName := entries]> files | None => files end in
  if written then (memory, files) else (store, files).

Definition loadedCount (store : checkpointStore) (collectionName : bytes) : option Z :=
  (fun fingerprints => Z.of_nat (size fingerprints)) <$> ck_loaded store !! collectionName.
End checkpoints.

(** ** What is needed *)

#[export] Instance strLe_total : Total strLe.
Proof. intros a b. unfold strLe. pose proof (strCompare_opp a b). lia. Qed.
#[export] Instance strLe_trans : Transitive strLe.
Proof. intros a b c. apply strCompare_le_trans. Qed.

Lemma strLe_antisym a b : strLe a b -> strLe b a -> a = b.
Proof. unfold strLe. intros H1 H2. pose proof (strCompare_opp a b). apply strCompare_eq. lia. Qed.

Lemma Compact_elem l x : x ∈ Compact l <-> x ∈ l.
Proof.
  induction l as [|y l IH]; [done|]. cbn [Compact]. destruct l as [|z l]; [done|].
  destruct (decide (y = z)) as [->|Hne].
  - rewrite bool_decide_eq_true_2, IH by done. rewrite !elem_of_cons. tauto.
  - rewrite bool_decide_eq_false_2 by done. rewrite elem_of_cons, IH, !elem_of_cons. tauto.
Qed.

Lemma Compact_sorted l : StronglySorted strLe l -> StronglySorted strLe (Compact l) /\ NoDup (Compact l).
Proof.
  induction 1 as [|y l Hl [IH1 IH2] Hy]; [split; [constructor|apply NoDup_nil_2]|]. cbn [Compact].
  destruct l as [|z l]; [split; [by repeat constructor|apply NoDup_singleton]|].
  destruct (decide (y = z)) as [->|Hne]; [by rewrite bool_decide_eq_true_2|]. rewrite bool_decide_eq_false_2 by done.
  assert (forall x, x ∈ Compact (z :: l) -> strLe y x) as Hle.
  { intros x Hx. apply (proj1 (Compact_elem _ _)) in Hx. rewrite Forall_forall in Hy. by apply Hy. }
  split.
  - constructor; [done|]. by apply Forall_forall.
  - constructor; [|done]. intros Hin. apply (proj1 (Compact_elem _ _)) in Hin. apply StronglySorted_inv in Hl as [_ Hz].
    apply elem_of_cons in Hin as [?|Hin]; [done|]. rewrite Forall_forall in Hz. apply Hne, strLe_antisym; [|by apply Hz].
    rewrite Forall_forall in Hy. apply Hy. apply list_elem_of_here.
Qed.

(** The conversations to deliver, exactly: each id once and in order, those that are not empty
    and whose fingerprint in the manifest is not the recorded one. *)
Theorem needed_exact `{CheckpointCodec} files store collectionName manifest store' ids :
  needed files store collectionName manifest = (store', ids) ->
  StronglySorted strLe ids /\ NoDup ids /\
  (forall id, id ∈ ids <-> id <> [] /\ exists fingerprint,
     (id, fingerprint) ∈ manifest /\ (records files store collectionName).2 !! id <> Some fingerprint).
Proof.
  unfold needed. destruct (records files store collectionName) as [store1 recorded]. intros [= <- <-]. cbn [snd].
  set (wanted := omap _ manifest).
  destruct (Compact_sorted (merge_sort strLe wanted)) as [H1 H2]; [apply StronglySorted_merge_sort; apply _|].
  split_and!; [done|done|]. intros id. rewrite Compact_elem, merge_sort_Permutation. subst wanted. rewrite list_elem_of_omap. split.
  - intros ([i f] & Hin & Hs). destruct (isEmpty i) eqn:Ei; [done|]. case_bool_decide as Hr; [done|]. injection Hs as ->.
    split; [by destruct id|]. by exists f.
  - intros (Hne & f & Hin & Hr). exists (id, f). split; [done|]. destruct id; [done|]. cbn [isEmpty]. by rewrite bool_decide_eq_false_2.
Qed.

(** ** Records survive a restart *)

Section durable.
Context `{CheckpointCodec}.

(** The record of an entry that the loader takes. *)
Definition entryRecord (e : entry) : option (bytes * bytes) :=
  if en_IsDir e || negb (HasSuffix (en_Name e) checkpointFileSuffix) || HasPrefix (en_Name e) checkpointTempPrefix then None else
  content ← en_Content e;
  r ← unmarshalCheckpoint content;
  if isEmpty (cp_ConversationID r) then None else Some (cp_ConversationID r, cp_Fingerprint r).

Lemma loadEntry_record m e : loadEntry m e = match entryRecord e with Some (id, f) => <[id := f]> m | None => m end.
Proof.
  unfold loadEntry, entryRecord. destruct (_ || _); [done|]. destruct (en_Content e) as [content|]; [|done]. cbn.
  destruct (unmarshalCheckpoint content) as [r|]; [|done]. cbn. by destruct (isEmpty (cp_ConversationID r)).
Qed.

(** Every record is in the file that its conversation is named after. *)
Definition directoryOk (entries : list entry) : Prop :=
  NoDup (map en_Name entries) /\
  forall e id f, e ∈ entries -> entryRecord e = Some (id, f) -> en_Name e = checkpointFileName id.

Lemma loadEntries_lookup entries id f :
  directoryOk entries -> loadEntries entries !! id = Some f <-> exists e, e ∈ entries /\ entryRecord e = Some (id, f).
Proof.
  unfold loadEntries. induction entries as [|e entries IH] using rev_ind; intros [Hn Hr].
  { cbn. rewrite lookup_empty. split; [done|]. by intros (e & ?%elem_of_nil & _). }
  rewrite map_app in Hn. apply NoDup_app in Hn as (Hn & Hne & _).
  assert (directoryOk entries) as Hok.
  { split; [done|]. intros e' i f' Hin. apply Hr. apply elem_of_app. by left. }
  rewrite foldl_app. cbn [foldl]. rewrite loadEntry_record. setoid_rewrite elem_of_app. setoid_rewrite list_elem_of_singleton.
  destruct (entryRecord e) as [[i g]|] eqn:Ee.
  - destruct (decide (i = id)) as [->|Hi].
    + rewrite lookup_insert_eq. split; [intros [= ->]; exists e; split; [by right|done]|].
      intros (e' & [Hin| ->] & He'); [|congruence]. exfalso.
      apply (Hne (en_Name e')); [by apply list_elem_of_In, in_map, list_elem_of_In|]. cbn [map]. apply list_elem_of_singleton.
      rewrite (Hr e' id f), (Hr e id g); [done|apply elem_of_app; right; by apply list_elem_of_singleton|done|apply elem_of_app; by left|done].
    + rewrite lookup_insert_ne by done. rewrite (IH Hok). split.
      * intros (e' & Hin & He'). exists e'. split; [by left|done].
      * intros (e' & [Hin| ->] & He'); [by exists e'|]. congruence.
  - rewrite (IH Hok). split.
    + intros (e' & Hin & He'). exists e'. split; [by left|done].
    + intros (e' & [Hin| ->] & He'); [by exists e'|congruence].
Qed.

Lemma putFile_elem entries name content e :
  e ∈ putFile entries name content <->
  e = MkEntry name false (Some content) \/ (e ∈ entries /\ en_Name e <> name).
Proof.
  unfold putFile. destruct (existsb _ entries) eqn:Ex.
  - apply existsb_exists in Ex as (e0 & H0 & E0). apply bool_decide_eq_true in E0. rewrite list_elem_of_In, in_map_iff. split.
    + intros (e' & He & Hin). case_bool_decide as Hn; subst; [by left|]. right. split; [by apply list_elem_of_In|done].
    + intros [->|[Hin Hn]].
      * exists e0. rewrite bool_decide_eq_true_2 by done. done.
      * exists e. rewrite bool_decide_eq_false_2 by done. split; [done|by apply list_elem_of_In].
  - rewrite elem_of_app, list_elem_of_singleton. split; [|tauto].
    intros [Hin| ->]; [|by left]. right. split; [done|]. intros Hn.
    assert (existsb (fun e => bool_decide (en_Name e = name)) entries = true) as Et; [|congruence].
    apply existsb_exists. exists e. split; [by apply list_elem_of_In|by apply bool_decide_eq_true].
Qed.

Lemma putFile_names entries name content : NoDup (map en_Name entries) -> NoDup (map en_Name (putFile entries name content)).
Proof.
  intros Hn. unfold putFile. destruct (existsb _ entries) eqn:Ex.
  - rewrite map_map. erewrite map_ext; [exact Hn|]. intros e. cbn. case_bool_decide; by subst.
  - rewrite map_app. apply NoDup_app. split_and!; [done| |apply NoDup_singleton].
    intros x Hx Hx'. cbn in Hx'. apply list_elem_of_singleton in Hx' as ->. apply list_elem_of_In, in_map_iff in Hx as (e & <- & Hin).
    assert (existsb (fun e' => bool_decide (en_Name e' = en_Name e)) entries = true) as Et; [|congruence].
    apply existsb_exists. exists e. split; [done|by apply bool_decide_eq_true].
Qed.

(** The name of a record file ends in the suffix and is no temporary name. *)
Lemma checkpointFileName_loaded id :
  HasSuffix (checkpointFileName id) checkpointFileSuffix = true /\ HasPrefix (checkpointFileName id) checkpointTempPrefix = false.
Proof.
  unfold checkpointFileName. split.
  - unfold HasSuffix. rewrite length_app. apply andb_true_iff. split; [apply Nat.leb_le; lia|]. apply bool_decide_eq_true.
    replace (length _ + _ - _)%nat with (length (take 32 (EncodeToString (Sum256 id)))) by lia. apply drop_app_length.
  - pose proof (Sum256_length id) as Hl. destruct (Sum256 id) as [|b rest]; [done|].
    change (EncodeToString (b :: rest)) with (hexDigit (b2z b / 16) :: hexDigit (b2z b mod 16) :: EncodeToString rest).
    cbn [take app HasPrefix]. change checkpointTempPrefix with (Byte.x2e :: lit "tmp-"). cbn [HasPrefix].
    assert (hexDigit (b2z b / 16) <> Byte.x2e) as Hd.
    { intros E. apply (f_equal b2z) in E. unfold hexDigit in E. pose proof (b2z_range b).
      assert (0 <= b2z b / 16 < 16) by (split; [apply Z.div_pos|apply Z.div_lt_upper_bound]; lia).
      destruct (b2z b / 16 <? 10); rewrite b2z_z2b, Z.mod_small in E by lia; change (b2z Byte.x2e) with 46 in E; lia. }
    by rewrite bool_decide_eq_false_2 by congruence.
Qed.

Definition diskRecords (files : disk) (collectionName : bytes) : gmap bytes bytes := loadEntries (default [] (files !! collectionName)).

(** What a write needs of the directory: no other conversation has the same file name, and the
    temporary name is a new one with the prefix. *)
Record writable (steps : writeSteps) (entries : list entry) (conversationID : bytes) : Prop := {
  wr_directory : directoryOk entries;
  wr_names e id f : e ∈ entries -> entryRecord e = Some (id, f) -> en_Name e = checkpointFileName conversationID -> id = conversationID;
  wr_temp : HasPrefix (ws_tempName steps) checkpointTempPrefix = true;
  wr_fresh : Forall (fun e => en_Name e <> ws_tempName steps) entries;
}.

Lemma entryRecord_new id f :
  id <> [] -> ValidString id = true -> ValidString f = true ->
  entryRecord (MkEntry (checkpointFileName id) false (Some (marshalCheckpoint (MkCheckpoint id f)))) = Some (id, f).
Proof.
  intros Hid Hi Hf. unfold entryRecord. cbn [en_IsDir en_Name en_Content]. destruct (checkpointFileName_loaded id) as [-> ->].
  cbn. rewrite unmarshal_marshal by done. cbn. by destruct id.
Qed.

Lemma entryRecord_temp name content : HasPrefix name checkpointTempPrefix = true -> entryRecord (MkEntry name false content) = None.
Proof. intros Ht. unfold entryRecord. cbn [en_IsDir en_Name]. by rewrite Ht, orb_true_r. Qed.

(** A record that is put in place. *)
Lemma putFile_record steps entries id f :
  writable steps entries id -> id <> [] -> ValidString id = true -> ValidString f = true ->
  let entries' := putFile entries (checkpointFileName id) (marshalCheckpoint (MkCheckpoint id f)) in
  directoryOk entries' /\ loadEntries entries' = <[id := f]> (loadEntries entries).
Proof.
  intros [[Hn Hr] Hnames _ _] Hid Hvi Hvf. cbv zeta. pose proof (entryRecord_new id f Hid Hvi Hvf) as Enew.
  set (new := MkEntry _ false _) in Enew.
  assert (directoryOk (putFile entries (checkpointFileName id) (marshalCheckpoint (MkCheckpoint id f)))) as Hok.
  { split; [by apply putFile_names|]. intros e i g He Hrec. apply putFile_elem in He as [->|[He _]]; [|by apply (Hr e i g)].
    fold new in Hrec. rewrite Enew in Hrec. by injection Hrec as <- <-. }
  split; [done|]. apply map_eq. intros i. apply option_eq. intros g. rewrite (loadEntries_lookup _ i g Hok).
  setoid_rewrite putFile_elem. fold new. destruct (decide (i = id)) as [->|Hi].
  - rewrite lookup_insert_eq. split.
    + intros (e & [->|[He Hne]] & Hrec); [by rewrite Enew in Hrec; injection Hrec as ->|]. by rewrite (Hr e id g He Hrec) in Hne.
    + intros [= <-]. exists new. split; [by left|done].
  - rewrite lookup_insert_ne by done. rewrite (loadEntries_lookup entries i g (conj Hn Hr)). split.
    + intros (e & [->|[He Hne]] & Hrec); [by rewrite Enew in Hrec; injection Hrec as -> ->|by exists e].
    + intros (e & He & Hrec). exists e. split; [|done]. right. split; [done|]. intros Hname.
      by apply Hi, (Hnames e i g).
Qed.

(** A temporary file that is left behind. *)
Lemma putFile_temp steps entries id content :
  writable steps entries id ->
  directoryOk (putFile entries (ws_tempName steps) content) /\
  loadEntries (putFile entries (ws_tempName steps) content) = loadEntries entries.
Proof.
  intros [[Hn Hr] _ Ht Hfresh]. pose proof (entryRecord_temp (ws_tempName steps) (Some content) Ht) as Enone.
  assert (directoryOk (putFile entries (ws_tempName steps) content)) as Hok.
  { split; [by apply putFile_names|]. intros e i g He Hrec. apply putFile_elem in He as [->|[He _]]; [congruence|by apply (Hr e i g)]. }
  split; [done|]. apply map_eq. intros i. apply option_eq. intros g.
  rewrite (loadEntries_lookup _ i g Hok), (loadEntries_lookup entries i g (conj Hn Hr)). setoid_rewrite putFile_elem. split.
  - intros (e & [->|[He _]] & Hrec); [congruence|by exists e].
  - intros (e & He & Hrec). exists e. split; [|done]. right. split; [done|]. rewrite Forall_forall in Hfresh. by apply Hfresh.
Qed.

(** A write of a record is all or nothing for the next reader. *)
Lemma writeCheckpointFile_atomic steps directory id f directory' written :
  writable steps (default [] directory) id -> id <> [] -> ValidString id = true -> ValidString f = true ->
  writeCheckpointFile steps directory id f = (directory', written) ->
  directoryOk (default [] directory') /\
  loadEntries (default [] directory') =
    if written then <[id := f]> (loadEntries (default [] directory)) else loadEntries (default [] directory).
Proof.
  intros Hw Hid Hvi Hvf E. pose proof (wr_directory _ _ _ Hw) as Hok. unfold writeCheckpointFile in E.
  assert (forall content, directoryOk (afterFailure steps (default [] directory) content) /\
            loadEntries (afterFailure steps (default [] directory) content) = loadEntries (default [] directory)) as Hfail.
  { intros content. unfold afterFailure. destruct (ws_remove steps); [done|]. by apply (putFile_temp _ _ id). }
  repeat case_match; simplify_eq/=; try done; try apply Hfail. by apply (putFile_record steps).
Qed.

(** Memory and disk agree: what is loaded is what the directory holds. *)
Definition agrees (files : disk) (store : checkpointStore) : Prop :=
  ck_root store <> [] -> forall c m, ck_loaded store !! c = Some m -> m = diskRecords files c.

Lemma records_agrees files store c :
  agrees files store ->
  agrees files (records files store c).1 /\ ck_root (records files store c).1 = ck_root store /\
  (ck_root store <> [] -> (records files store c).2 = diskRecords files c) /\
  ck_loaded (records files store c).1 !! c = Some (records files store c).2 /\
  (forall d, d <> c -> ck_loaded (records files store c).1 !! d = ck_loaded store !! d).
Proof.
  intros Ha. unfold records. destruct (ck_loaded store !! c) as [m|] eqn:E; cbn [fst snd].
  { split_and!; [done|done|intros Hr; by apply Ha|done|done]. }
  set (m := if isEmpty (ck_root store) then _ else _).
  assert (ck_root store <> [] -> m = diskRecords files c) as Em.
  { intros Hr. subst m. destruct (ck_root store); [done|]. cbn [isEmpty]. unfold diskRecords. by destruct (files !! c). }
  cbn [ck_root ck_loaded]. split_and!; [|done|done|by rewrite lookup_insert_eq|intros d Hd; by rewrite lookup_insert_ne].
  intros Hr d m' Hd. cbn in Hd, Hr. destruct (decide (d = c)) as [->|Hne].
  - rewrite lookup_insert_eq in Hd. injection Hd as <-. by apply Em.
  - rewrite lookup_insert_ne in Hd by done. by apply Ha.
Qed.

(** Recording a fingerprint keeps memory and disk in agreement whichever step of the write
    fails: afterwards the conversation has the new fingerprint in both or is unchanged in
    both, so a restart needs what the running daemon needs. *)
Theorem record_agrees steps files store c id f :
  ck_root store <> [] -> agrees files store -> writable steps (default [] (files !! c)) id ->
  id <> [] -> ValidString id = true -> ValidString f = true ->
  let '(store', files') := record steps files store c id f in
  agrees files' store' /\ directoryOk (default [] (files' !! c)) /\
  (diskRecords files' c = <[id := f]> (diskRecords files c) \/ diskRecords files' c = diskRecords files c) /\
  (forall manifest, (needed files' store' c manifest).2 = (needed files' (newCheckpointStore (ck_root store)) c manifest).2).
Proof.
  intros Hroot Ha Hw Hid Hvi Hvf. unfold record.
  destruct (records_agrees files store c Ha) as (Ha1 & Hr1 & Hm & Hl & _).
  destruct (records files store c) as [store1 recorded]. cbn [fst snd] in *. rewrite Hr1.
  destruct (isEmpty (ck_root store)) eqn:Ee; [by destruct (ck_root store)|].
  destruct (writeCheckpointFile steps (files !! c) id f) as [directory' written] eqn:Ew.
  destruct (writeCheckpointFile_atomic _ _ _ _ _ _ Hw Hid Hvi Hvf Ew) as [Hok Hload].
  set (files' := match directory' with Some entries => <[c := entries]> files | None => files end).
  assert (default [] (files' !! c) = default [] directory' /\ forall d, d <> c -> files' !! d = files !! d) as [Hc Hd].
  { subst files'. destruct directory' as [entries|].
    - rewrite lookup_insert_eq. split; [done|]. intros d Hne. by rewrite lookup_insert_ne.
    - split; [|done]. unfold writeCheckpointFile in Ew. destruct (negb (ws_mkdir steps)); [by injection Ew as -> _|].
      repeat case_match; discriminate Ew. }
  assert (forall store', agrees files' store' -> ck_root store' = ck_root store -> forall manifest,
    (needed files' store' c manifest).2 = (needed files' (newCheckpointStore (ck_root store)) c manifest).2) as Hneed.
  { intros store' Ha' Hr' manifest. unfold needed.
    destruct (records_agrees files' store' c Ha') as (_ & _ & E1 & _). rewrite Hr' in E1. specialize (E1 Hroot).
    assert (agrees files' (newCheckpointStore (ck_root store))) as Hnew by (intros _ d m Hd'; change (@lookup _ _ (gmap _ _) _ d ∅ = Some m) in Hd'; by rewrite lookup_empty in Hd').
    destruct (records_agrees files' _ c Hnew) as (_ & _ & E2 & _). specialize (E2 Hroot).
    destruct (records files' store' c), (records files' (newCheckpointStore (ck_root store)) c). cbn [fst snd] in *. by subst. }
  destruct written.
  - assert (agrees files' (MkCheckpoints (ck_root store) (<[c := <[id := f]> recorded]> (ck_loaded store1)))) as Hnew.
    { intros _ d m Hdm. cbn in Hdm. unfold diskRecords. destruct (decide (d = c)) as [->|Hne].
      - rewrite lookup_insert_eq in Hdm. injection Hdm as <-. rewrite Hc, Hload, (Hm Hroot). done.
      - rewrite lookup_insert_ne in Hdm by done. rewrite Hd by done. apply Ha1; [by rewrite Hr1|done]. }
    split_and!; [done|by rewrite Hc|left; unfold diskRecords; by rewrite Hc|by apply Hneed].
  - assert (agrees files' store1) as Hold.
    { intros _ d m Hdm. unfold diskRecords. destruct (decide (d = c)) as [->|Hne].
      - rewrite Hc, Hload. rewrite Hl in Hdm. injection Hdm as <-. by apply Hm.
      - rewrite Hd by done. apply Ha1; [by rewrite Hr1|done]. }
    split_and!; [done|by rewrite Hc|right; unfold diskRecords; by rewrite Hc|by apply Hneed].
Qed.
End durable.

(** ** The ingest of documents *)

(** The calls on the store besides those of the embedding. *)
Class IngestStore (W : Type) := {
  ingest_backend :: Backend W;
  storeQueryRows : list bytes -> list bytes -> W -> W * option (list (StoredRow * list Z));
  storeFillTimes : gmap bytes matchedRow -> W -> W * option Z;
}.

Definition groupDocument (byConversation : gmap bytes (list SemDoc)) (doc : SemDoc) : gmap bytes (list SemDoc) :=
  let conversationID := TrimSpace (doc_ConversationID doc) in
  <[conversationID := default [] (byConversation !! conversationID) ++ [doc]]> byConversation.

(** The documents by conversation, and the conversations in order. *)
Definition groupDocuments (docs : list SemDoc) : outcome rowsError (gmap bytes (list SemDoc) * list bytes) :=
  if existsb (fun doc => isEmpty (TrimSpace (doc_ConversationID doc))) docs then Fail rowsConversationIDRequired else
  let byConversation := foldl groupDocument ∅ docs in
  Ok (byConversation, merge_sort strLe (map fst (map_to_list byConversation))).

Inductive upsertError := upCollectionID | upRows (e : rowsError) | upLoad | upIngest (e : ingestError) | upFill.

Record upsertStats := MkUpsert { us_rowsWritten : Z; us_reused : Z; us_embedded : Z }.

Record client (W : Type) := MkClient {
  cl_ingest : ingest W;
  cl_checkpoints : checkpointStore;
  cl_disk : disk;
  cl_rowsWritten : Z;
  cl_timesFilled : Z;
  cl_jobCount : Z;
  cl_lastUpsert : option upsertStats;
}.
Arguments MkClient {W}.
Arguments cl_ingest {W}.
Arguments cl_checkpoints {W}.
Arguments cl_disk {W}.
Arguments cl_rowsWritten {W}.
Arguments cl_timesFilled {W}.
Arguments cl_jobCount {W}.
Arguments cl_lastUpsert {W}.

Section upsert.
Context `{CheckpointCodec} {W : Type} `{IngestStore W}.
Variables (cfg : clientConfig) (Parse : bytes -> option Decomposition) (collectionName : bytes).
(** How the write of each conversation's record goes. *)
Variable recordSteps : bytes -> writeSteps.

Definition setIngest (ig : ingest W) (st : client W) : client W :=
  MkClient ig (cl_checkpoints st) (cl_disk st) (cl_rowsWritten st) (cl_timesFilled st) (cl_jobCount st) (cl_lastUpsert st).
Definition setCheckpoints (store : checkpointStore) (files : disk) (st : client W) : client W :=
  MkClient (cl_ingest st) store files (cl_rowsWritten st) (cl_timesFilled st) (cl_jobCount st) (cl_lastUpsert st).

(** [newRowWriter]: a buffer of its own for each conversation. *)
Definition newRowWriter (ig : ingest W) : ingest W :=
  MkIngest (ig_world ig) (ig_ensured ig) [] 0 0 (ig_stats ig) (ig_upserted ig) (ig_dropped ig).

Definition fillUnknownTimes (fills : gmap bytes matchedRow) (ig : ingest W) : ingest W * option Z :=
  if decide (fills = ∅) then (ig, Some 0) else
  let '(w, filled) := storeFillTimes fills (ig_world ig) in (setWorld w ig, filled).

(** The body of the loop over the delivered conversations. *)
Definition upsertConversation (byConversation : gmap bytes (list SemDoc)) (fingerprints : gmap bytes bytes) (batch : storedBatch)
    (conversationID : bytes) (st : client W) : client W * outcome upsertError unit :=
  match planConversation Parse (cfg_byteBudget cfg) conversationID (default [] (byConversation !! conversationID))
          (stateOf batch conversationID) with
  | Panic => (st, Panic)
  | Fail e => (st, Fail (upRows e))
  | Ok (chunks, fills) =>
      match embedAndWrite cfg chunks (sb_reuse batch) (newRowWriter (cl_ingest st)) with
      | (ig, Panic) => (setIngest ig st, Panic)
      | (ig, Fail e) => (setIngest ig st, Fail (upIngest e))
      | (ig, Ok _) =>
          let st := MkClient ig (cl_checkpoints st) (cl_disk st) (cl_rowsWritten st + ig_written ig) (cl_timesFilled st)
                      (cl_jobCount st) (cl_lastUpsert st) in
          match fillUnknownTimes fills ig with
          | (ig, None) => (setIngest ig st, Fail upFill)
          | (ig, Some filled) =>
              let st := MkClient ig (cl_checkpoints st) (cl_disk st) (cl_rowsWritten st) (cl_timesFilled st + filled)
                          (cl_jobCount st) (cl_lastUpsert st) in
              match fingerprints !! conversationID with
              | None => (st, Ok tt)
              | Some fingerprint =>
                  let '(store, files) := record (recordSteps conversationID) (cl_disk st) (cl_checkpoints st) collectionName
                                           conversationID fingerprint in
                  (setCheckpoints store files st, Ok tt)
              end
          end
      end
  end.

Fixpoint upsertLoop (byConversation : gmap bytes (list SemDoc)) (fingerprints : gmap bytes bytes) (batch : storedBatch)
    (order : list bytes) (st : client W) : client W * outcome upsertError unit :=
  match order with
  | [] => (st, Ok tt)
  | conversationID :: order =>
      match upsertConversation byConversation fingerprints batch conversationID st with
      | (st, Ok _) => upsertLoop byConversation fingerprints batch order st
      | (st, Fail e) => (st, Fail e)
      | (st, Panic) => (st, Panic)
      end
  end.

(** The fingerprint of the last entry of a conversation in the manifest. *)
Definition manifestFingerprints (manifest : list (bytes * bytes)) : gmap bytes bytes :=
  foldl (fun m '(id, fingerprint) => <[id := fingerprint]> m) ∅ manifest.

Definition UpsertConversationDocuments (collectionID : bytes) (docs : list SemDoc) (manifest : list (bytes * bytes)) (st : client W)
  : client W * outcome upsertError Z :=
  if isEmpty (TrimSpace collectionID) then (st, Fail upCollectionID) else
  match groupDocuments docs with
  | Panic => (st, Panic)
  | Fail e => (st, Fail (upRows e))
  | Ok (byConversation, order) =>
      let jobID := cl_jobCount st + 1 in
      let st := MkClient (cl_ingest st) (cl_checkpoints st) (cl_disk st) 0 0 jobID (cl_lastUpsert st) in
      if (length order =? 0)%nat then (st, Ok jobID) else
      let '(w, loaded) := loadStoredBatch collectionPresent storeQueryRows (cfg_embeddingModel cfg) order (ig_world (cl_ingest st)) in
      let ig := setStats (MkStats 0 0 0 0) (setWorld w (cl_ingest st)) in
      let st := setIngest ig st in
      match loaded with
      | None => (st, Fail upLoad)
      | Some batch =>
          match upsertLoop byConversation (manifestFingerprints manifest) batch order st with
          | (st, Panic) => (st, Panic)
          | (st, Fail e) => (st, Fail e)
          | (st, Ok _) =>
              let stats := ig_stats (cl_ingest st) in
              (MkClient (cl_ingest st) (cl_checkpoints st) (cl_disk st) (cl_rowsWritten st) (cl_timesFilled st) (cl_jobCount st)
                 (Some (MkUpsert (cl_rowsWritten st) (stat_reused stats) (stat_embedded stats))), Ok jobID)
          end
      end
  end.

Definition SyncConversationManifest (collectionID : bytes) (manifest : list (bytes * bytes)) (st : client W)
  : client W * outcome upsertError (list bytes) :=
  if isEmpty (TrimSpace collectionID) then (st, Fail upCollectionID) else
  let '(store, ids) := needed (cl_disk st) (cl_checkpoints st) collectionName manifest in
  (setCheckpoints store (cl_disk st) st, Ok ids).
End upsert.

(** ** What was acknowledged or dropped stays so *)

Section grows.
Context {W : Type} `{Backend W}.
Variable cfg : clientConfig.

Definition grows (st st' : ingest W) : Prop :=
  exists rows drops, ig_upserted st' = ig_upserted st ++ rows /\ ig_dropped st' = ig_dropped st ++ drops.
Definition growing {A} (m : I A) : Prop := forall st, grows st (m st).1.

Lemma grows_same st st' : ig_upserted st' = ig_upserted st -> ig_dropped st' = ig_dropped st -> grows st st'.
Proof. intros E1 E2. exists [], []. by rewrite !app_nil_r. Qed.

Lemma grows_refl st : grows st st.
Proof. by apply grows_same. Qed.

Lemma grows_trans st1 st2 st3 : grows st1 st2 -> grows st2 st3 -> grows st1 st3.
Proof. intros (l1 & k1 & E1 & F1) (l2 & k2 & E2 & F2). exists (l1 ++ l2), (k1 ++ k2). by rewrite E2, E1, F2, F1, !app_assoc. Qed.

Lemma growing_ret {A} (a : A) : growing (mret a).
Proof. intros st. apply grows_refl. Qed.
Lemma growing_fail {A} e : growing (@failI W A e).
Proof. intros st. apply grows_refl. Qed.
Lemma growing_panic {A} : growing (fun st => (st, @Panic ingestError A)).
Proof. intros st. apply grows_refl. Qed.
Lemma growing_call {A} (f : W -> W * A) : growing (call f).
Proof. intros st. unfold call. destruct (f (ig_world st)). by apply grows_same. Qed.
Lemma growing_stats a b c d : growing (addStats a b c d).
Proof. intros st. by apply grows_same. Qed.
Lemma growing_drop refusal : growing (logDropped refusal).
Proof. intros st. exists [], [rej_chunk refusal]. by rewrite app_nil_r. Qed.

Lemma growing_bind {A B} (m : I A) (f : A -> I B) : growing m -> (forall a, growing (f a)) -> growing (m ≫= f).
Proof.
  intros Hm Hf st. unfold mbind, I_bind. specialize (Hm st). destruct (m st) as [st1 [a|e|]]; [|done|done].
  eapply grows_trans; [exact Hm|apply Hf].
Qed.

Lemma growing_attempt e f : growing (attempt e f).
Proof. apply growing_bind; [apply growing_call|]. intros []; [apply growing_ret|apply growing_fail]. Qed.

Lemma growing_ensure d : growing (ensureCollection d).
Proof.
  intros st. unfold ensureCollection. destruct (ig_ensured st); [apply grows_refl|].
  refine (growing_bind _ _ (growing_attempt _ _) _ st). intros _. apply growing_bind; [|intros _ st'; by apply grows_same].
  destruct sharedLayout; [|apply growing_ret]. apply growing_bind; [apply growing_call|].
  intros []; [apply growing_ret|apply growing_fail].
Qed.

Lemma growing_flush : growing flush.
Proof.
  intros st. unfold flush. destruct (ig_pending st) as [|r rs]; [apply grows_refl|].
  refine (growing_bind _ _ (growing_ensure _) _ st). intros _. apply growing_bind; [apply growing_attempt|].
  intros _ st'. exists (ig_pending st'), []. by rewrite app_nil_r.
Qed.

Lemma growing_add r : growing (add r).
Proof.
  intros st. unfold add. destruct (_ <? _); [by apply grows_same|].
  eapply grows_trans; [|apply growing_flush]. by apply grows_same.
Qed.

Lemma growing_answer pack skipped position answers vectors rejected : growing (answerLoop cfg pack skipped position answers vectors rejected).
Proof.
  revert position vectors rejected. induction answers as [|[p [v|]] answers IH]; intros position vectors rejected; cbn [answerLoop].
  - apply growing_ret.
  - destruct (_ && _); [apply growing_fail|]. apply growing_bind; [apply growing_stats|]. intros _. apply IH.
  - destruct (skipped !! position), (pack !! p); first [apply IH|apply growing_fail|apply growing_panic].
Qed.

Lemma growing_vectors pack reuse : growing (vectorsFor cfg pack reuse).
Proof.
  unfold vectorsFor. apply growing_bind; [apply growing_stats|]. intros _. destruct (_ =? _)%nat; [apply growing_ret|].
  apply growing_bind; [apply growing_call|]. intros [result|]; [|apply growing_fail]. destruct (negb _); [apply growing_fail|apply growing_answer].
Qed.

Lemma growing_addRows pack vectors : growing (addRows cfg pack vectors).
Proof.
  revert vectors. induction pack as [|c pack IH]; intros vectors; [apply growing_ret|].
  destruct vectors as [|[v|] vectors]; cbn [addRows]; [apply growing_ret| |apply IH].
  apply growing_bind; [apply growing_add|]. intros _. apply IH.
Qed.

Lemma growing_refuse rejected retry : growing (refuse cfg rejected retry).
Proof.
  revert retry. induction rejected as [|refusal rejected IH]; intros retry; cbn [refuse]; [apply growing_ret|].
  destruct (shouldSplit cfg refusal).
  - apply growing_bind; [apply growing_stats|]. intros _. apply IH.
  - apply growing_bind; [apply growing_drop|]. intros _. apply growing_bind; [apply growing_stats|]. intros _. apply IH.
Qed.

Lemma growing_packs packs reuse retry : growing (packsLoop cfg packs reuse retry).
Proof.
  revert retry. induction packs as [|pack packs IH]; intros retry; cbn [packsLoop]; [apply growing_ret|].
  apply growing_bind; [apply growing_call|]. intros []; [apply growing_fail|].
  apply growing_bind; [apply growing_vectors|]. intros [vectors rejected]. apply growing_bind; [apply growing_addRows|].
  intros _. apply growing_bind; [apply growing_refuse|]. apply IH.
Qed.

Lemma growing_rounds fuel queue reuse : growing (roundsLoop cfg fuel queue reuse).
Proof.
  revert queue reuse. induction fuel as [|fuel IH]; intros queue reuse; (destruct queue; [apply growing_ret|]); [apply growing_fail|].
  apply (growing_bind (packsLoop cfg _ reuse [])); [apply growing_packs|]. intros retry. apply IH.
Qed.

Lemma growing_embed chunks reuse : growing (embedAndWrite cfg chunks reuse).
Proof. apply growing_bind; [apply growing_rounds|]. intros _. apply growing_flush. Qed.
End grows.

(** ** A fingerprint is recorded only for written rows *)

Section recorded.
Context `{CheckpointCodec} {W : Type} `{IngestStore W}.
Variables (cfg : clientConfig) (Parse : bytes -> option Decomposition) (collectionName : bytes) (recordSteps : bytes -> writeSteps).
Variables (byConversation : gmap bytes (list SemDoc)) (fingerprints : gmap bytes bytes) (batch : storedBatch).

(** What became of a plan: the pieces with their vectors, and the dropped pieces. *)
Definition account : Type := list (storedChunk * list Z) * list storedChunk.

Definition accountRows (a : account) : list Row := map (fun '(chunk, vector) => chunkRow (cfg_toLowerRune cfg) chunk vector) a.1.

(** The chunks that the plan of a conversation asks for, whole or in pieces in the order of
    their text, are exactly those of an account. *)
Definition accounted (id : bytes) (a : account) : Prop :=
  exists chunks fills leaves,
    planConversation Parse (cfg_byteBudget cfg) id (default [] (byConversation !! id)) (stateOf batch id) = Ok (chunks, fills) /\
    tilings chunks leaves /\ leaves ≡ₚ map fst a.1 ++ a.2.

(** The records of some conversations, in turn. *)
Definition recordAll (ids : list bytes) (start : checkpointStore * disk) : checkpointStore * disk :=
  foldl (fun '(store, files) id =>
           match fingerprints !! id with
           | Some f => record (recordSteps id) files store collectionName id f
           | None => (store, files)
           end) start ids.

Lemma fillUnknownTimes_quiet fills (ig : ingest W) :
  let ig' := (fillUnknownTimes fills ig).1 in ig_upserted ig' = ig_upserted ig /\ ig_dropped ig' = ig_dropped ig.
Proof. unfold fillUnknownTimes. destruct (decide _); [done|]. by destruct (storeFillTimes fills (ig_world ig)). Qed.

Lemma planConversation_no_panic id : planConversation Parse (cfg_byteBudget cfg) id (default [] (byConversation !! id)) (stateOf batch id) <> Panic.
Proof.
  unfold planConversation. destruct (generatedChunks Parse _) eqn:Eg; [done|done|]. exfalso. revert Eg. generalize (default [] (byConversation !! id)).
  intros docs. induction docs as [|doc docs IH]; [done|]. cbn [generatedChunks]. unfold documentChunks at 1. destruct (isEmpty _); [done|]. cbn.
  destruct (generatedChunks Parse docs); [done|done|]. done.
Qed.

(** The rows and drops of one ingest, from a writer of its own. *)
Lemma embedAndWrite_account chunks reuse (ig ig' : ingest W) : embedAndWrite cfg chunks reuse (newRowWriter ig) = (ig', Ok tt) ->
  exists leaves (a : account), tilings chunks leaves /\ leaves ≡ₚ map fst a.1 ++ a.2 /\
    ig_upserted ig' = ig_upserted ig ++ accountRows a /\ ig_dropped ig' = ig_dropped ig ++ a.2 /\ ig_written ig' = zlen (accountRows a).
Proof.
  intros E. assert (wp (embedAndWrite cfg chunks reuse) (newRowWriter ig) (fun _ st' => exists leaves kept drops,
    adds (map (fun k => chunkRow (cfg_toLowerRune cfg) k.1 k.2) kept) drops (newRowWriter ig) st' /\ ig_pending st' = [] /\
    tilings chunks leaves /\ leaves ≡ₚ map fst kept ++ drops)) as Hw.
  { apply wp_embedAndWrite. intros leaves kept drops st1 H1 H2 H3 H4. by exists leaves, kept, drops. }
  unfold wp in Hw. rewrite E in Hw. destruct Hw as (leaves & kept & drops & (H1 & H2 & H3) & Hp & Ht & Hl).
  assert (accountRows (kept, drops) = map (fun k => chunkRow (cfg_toLowerRune cfg) k.1 k.2) kept) as Hrows by (apply map_ext; by intros []).
  exists leaves, (kept, drops). rewrite Hrows. cbn [newRowWriter ig_upserted ig_pending ig_written ig_dropped fst snd] in *.
  rewrite Hp, !app_nil_r in H1. split_and!; [done..|]. rewrite H1, zlen_app in H3. lia.
Qed.

Lemma upsertConversation_spec id st st' o :
  upsertConversation cfg Parse collectionName recordSteps byConversation fingerprints batch id st = (st', o) ->
  o <> Panic /\
  match o with
  | Ok _ => exists a, accounted id a /\
      ig_upserted (cl_ingest st') = ig_upserted (cl_ingest st) ++ accountRows a /\ ig_dropped (cl_ingest st') = ig_dropped (cl_ingest st) ++ a.2 /\
      cl_rowsWritten st' = cl_rowsWritten st + zlen (accountRows a) /\
      (cl_checkpoints st', cl_disk st') = recordAll [id] (cl_checkpoints st, cl_disk st)
  | _ => grows (cl_ingest st) (cl_ingest st') /\ cl_checkpoints st' = cl_checkpoints st /\ cl_disk st' = cl_disk st
  end.
Proof.
  unfold upsertConversation. destruct (planConversation _ _ _ _ _) as [[chunks fills]|e|] eqn:Ep; cycle 1.
  { intros [= <- <-]. split_and!; [done|apply grows_refl|done|done]. }
  { by apply planConversation_no_panic in Ep. }
  pose proof (growing_embed cfg chunks (sb_reuse batch) (newRowWriter (cl_ingest st))) as Hg.
  pose proof (wp_embedAndWrite cfg chunks (sb_reuse batch) (newRowWriter (cl_ingest st)) (fun _ _ => True) ltac:(done)) as Hw. unfold wp in Hw.
  destruct (embedAndWrite _ _ _ _) as [ig [[]|e|]] eqn:Ee; cbn [fst] in Hg; [|by intros [= <- <-]|done].
  destruct (embedAndWrite_account _ _ _ _ Ee) as (leaves & a & Ht & Hl & Hu & Hd & Hn). cbn zeta.
  destruct (fillUnknownTimes_quiet fills ig) as [Fu Fd]. destruct (fillUnknownTimes fills ig) as [ig' [filled|]]; cbn [fst] in Fu, Fd.
  2: { intros [= <- <-]. split; [done|]. split_and!; [|done|done]. exists (accountRows a), a.2. cbn [setIngest cl_ingest]. by rewrite Fu, Fd, Hu, Hd. }
  cbn [recordAll foldl cl_disk cl_checkpoints]. assert (accounted id a) as Ha by (by exists chunks, fills, leaves).
  destruct (fingerprints !! id) as [f|]; [destruct (record _ _ _ _ _ _) as [store files]|]; intros [= <- <-]; (split; [done|]); exists a;
    cbn [setCheckpoints cl_ingest cl_rowsWritten cl_checkpoints cl_disk]; rewrite Fu, Fd, Hu, Hd, Hn; done.
Qed.

(** C8. The conversations are ingested one after another: the call processes a first part of them, all
    of them if it returns no error, and writes exactly the records of that part.  Each
    conversation of that part has an account that holds every chunk of its plan, whole or in
    pieces, once: as a row of that piece or as a drop.  The rows that the store acknowledged
    and the drops that were logged are those of the accounts, in order, and after them only
    what the conversation at which the call failed had written; the rows are counted. *)
Theorem upsertLoop_records order st st' o :
  upsertLoop cfg Parse collectionName recordSteps byConversation fingerprints batch order st = (st', o) ->
  o <> Panic /\
  exists done rest accounts moreRows moreDrops, order = done ++ rest /\ (rest = [] <-> o = Ok tt) /\
    (cl_checkpoints st', cl_disk st') = recordAll done (cl_checkpoints st, cl_disk st) /\
    Forall2 accounted done accounts /\
    ig_upserted (cl_ingest st') = ig_upserted (cl_ingest st) ++ concat (map accountRows accounts) ++ moreRows /\
    ig_dropped (cl_ingest st') = ig_dropped (cl_ingest st) ++ concat (map snd accounts) ++ moreDrops /\
    (o = Ok tt -> moreRows = [] /\ moreDrops = [] /\ cl_rowsWritten st' = cl_rowsWritten st + zlen (concat (map accountRows accounts))).
Proof.
  revert st. induction order as [|id order IH]; intros st E; cbn [upsertLoop] in E.
  { injection E as <- <-. split; [done|]. exists [], [], [], [], []. cbn. rewrite !app_nil_r. unfold zlen. cbn. split_and!; try done. intros _. split_and!; [done|done|lia]. }
  destruct (upsertConversation _ _ _ _ _ _ _ id st) as [st1 o1] eqn:E1.
  destruct (upsertConversation_spec _ _ _ _ E1) as (Hnp & Hspec). destruct o1 as [[]|e|]; [| |done].
  - destruct Hspec as (a & Ha & Hu & Hd & Hn & Hc). destruct (IH st1 E) as (Hp & don & rest & accounts & rows & drops & -> & Hr & Hrec & Hall & Hu' & Hd' & Hend).
    split; [done|]. exists (id :: don), rest, (a :: accounts), rows, drops. cbn [map concat]. split_and!; [done|done|by rewrite Hrec, Hc|by constructor|..].
    + by rewrite Hu', Hu, <- !app_assoc.
    + by rewrite Hd', Hd, <- !app_assoc.
    + intros Ho. destruct (Hend Ho) as (-> & -> & Hw). split_and!; [done|done|]. rewrite Hw, Hn, zlen_app. lia.
  - injection E as <- <-. destruct Hspec as ((rows & drops & Hu & Hd) & -> & ->). split; [done|].
    exists [], (id :: order), [], rows, drops. by split_and!; [|split|..].
Qed.
End recorded.

(** ** Examples *)

(** A codec for the examples: the length of the id in unary, the id and the fingerprint. *)
Fixpoint countOnes (s : bytes) : option (nat * bytes) :=
  match s with
  | [] => None
  | b :: s => if bool_decide (b = Byte.x30) then Some (0%nat, s)
              else '(n, rest) ← countOnes s; Some (S n, rest)
  end.

Lemma countOnes_replicate n s : countOnes (replicate n Byte.x31 ++ Byte.x30 :: s) = Some (n, s).
Proof. induction n as [|n IH]; [done|]. cbn [replicate app countOnes]. rewrite bool_decide_eq_false_2 by done. by rewrite IH. Qed.

#[export] Instance unaryCodec : CheckpointCodec.
Proof.
  refine {| marshalCheckpoint r := replicate (length (cp_ConversationID r)) Byte.x31 ++ Byte.x30 :: cp_ConversationID r ++ cp_Fingerprint r;
            unmarshalCheckpoint s := '(n, rest) ← countOnes s; Some (MkCheckpoint (take n rest) (drop n rest)) |}.
  intros [id f] _ _. cbn [cp_ConversationID cp_Fingerprint]. rewrite countOnes_replicate. cbn. by rewrite take_app_length, drop_app_length.
Defined.

Definition goodSteps : writeSteps := MkSteps true true (lit ".tmp-1") true 0 true true true.
(** The temporary file is written in part and cannot be removed. *)
Definition fullDisk : writeSteps := MkSteps true true (lit ".tmp-1") false 3 true true false.

Definition sampleRoot : bytes := lit "root".

Lemma needed_exact_witness :
  (needed ∅ (newCheckpointStore sampleRoot) (lit "c") [(lit "b", lit "1"); ([], lit "2"); (lit "a", lit "3"); (lit "b", lit "1")]).2
    = [lit "a"; lit "b"] /\
  NoDup (needed ∅ (newCheckpointStore sampleRoot) (lit "c") [(lit "b", lit "1"); ([], lit "2"); (lit "a", lit "3"); (lit "b", lit "1")]).2.
Proof.
  split; [vm_compute; reflexivity|].
  exact (proj1 (proj2 (needed_exact ∅ (newCheckpointStore sampleRoot) (lit "c") _ _ _ (surjective_pairing _)))).
Defined.

Lemma sample_writable steps : HasPrefix (ws_tempName steps) checkpointTempPrefix = true -> writable steps [] (lit "a").
Proof.
  intros Ht. split; [split; [apply NoDup_nil_2|by intros e id f ?%elem_of_nil]|by intros e id f ?%elem_of_nil|done|constructor].
Qed.

Lemma record_agrees_witness :
  diskRecords (record goodSteps ∅ (newCheckpointStore sampleRoot) (lit "c") (lit "a") (lit "1")).2 (lit "c") !! lit "a" = Some (lit "1") /\
  let '(store', files') := record fullDisk ∅ (newCheckpointStore sampleRoot) (lit "c") (lit "a") (lit "1") in
  agrees files' store' /\ directoryOk (default [] (files' !! lit "c")) /\
  (diskRecords files' (lit "c") = <[lit "a" := lit "1"]> (diskRecords ∅ (lit "c")) \/ diskRecords files' (lit "c") = diskRecords ∅ (lit "c")) /\
  (forall manifest, (needed files' store' (lit "c") manifest).2 = (needed files' (newCheckpointStore sampleRoot) (lit "c") manifest).2).
Proof.
  split; [vm_compute; reflexivity|].
  apply (record_agrees fullDisk ∅ (newCheckpointStore sampleRoot) (lit "c") (lit "a") (lit "1")).
  - discriminate.
  - intros _ d m Hd. change (@lookup _ _ (gmap _ _) _ d ∅ = Some m) in Hd. rewrite lookup_empty in Hd. discriminate Hd.
  - rewrite lookup_empty. apply sample_writable. reflexivity.
  - discriminate.
  - vm_compute. reflexivity.
  - vm_compute. reflexivity.
Defined.

#[export] Instance shortStore : IngestStore nat := {|
  ingest_backend := shortBackend;
  storeQueryRows _ _ n := (n, Some []);
  storeFillTimes _ n := (n, Some 0);
|}.

Definition emptyClient : client nat := MkClient emptyIngest (newCheckpointStore sampleRoot) ∅ 0 0 0 None.
Definition shortDoc : SemDoc := MkDoc (lit "s") [] 1 (lit "user") 5 (lit "ababab") [] [] [] false [].

Lemma upsertLoop_records_witness :
  exists st' a, upsertLoop sampleConfig noShell (lit "c") (fun _ => goodSteps) {[lit "s" := [shortDoc]]} {[lit "s" := lit "1"]}
                newStoredBatch [lit "s"] emptyClient = (st', Ok tt) /\
    map ur_Content (ig_upserted (cl_ingest st')) = [lit "aba"; lit "bab"] /\ ig_dropped (cl_ingest st') = [] /\
    accounted sampleConfig noShell {[lit "s" := [shortDoc]]} newStoredBatch (lit "s") a /\
    ig_upserted (cl_ingest st') = accountRows sampleConfig a /\ a.2 = [].
Proof.
  destruct (upsertLoop sampleConfig noShell (lit "c") (fun _ => goodSteps) {[lit "s" := [shortDoc]]} {[lit "s" := lit "1"]}
              newStoredBatch [lit "s"] emptyClient) as [st' o] eqn:E.
  assert (o = Ok tt) as -> by (apply (f_equal snd) in E; cbn [snd] in E; rewrite <- E; vm_compute; reflexivity).
  assert (ig_dropped (cl_ingest st') = []) as Hnone by (apply (f_equal fst) in E; cbn [fst] in E; rewrite <- E; vm_compute; reflexivity).
  destruct (upsertLoop_records _ _ _ _ _ _ _ _ _ _ _ E) as (_ & don & rest & accounts & rows & drops & Ho & Hr & _ & Hall & Hu & Hd & Hend).
  rewrite (proj2 Hr eq_refl), app_nil_r in Ho. subst don. destruct (Hend eq_refl) as (-> & -> & _).
  inversion Hall as [|? a ? accounts' Ha Hnil]; subst. inversion Hnil; subst.
  exists st', a. cbn [map concat] in Hu, Hd. rewrite !app_nil_r in Hu, Hd. split_and!; [reflexivity| |exact Hnone|exact Ha|exact Hu|].
  - apply (f_equal fst) in E. cbn [fst] in E. rewrite <- E. vm_compute. reflexivity.
  - rewrite Hd in Hnone. exact Hnone.
Defined.
