(* ===== verification/VsSearch.v ===== *)
(** * VsSearch: searching conversations (vectorsearch/filter.go, client.go [queryVector],
      [embedQuery], [SearchConversations]) and the embedder of the local store
      (vectorsearch/backend_local.go)

    A search filter becomes a filter tree over the conversation columns; query vectors are
    kept in a cache of bounded size. *)

From S2P Require Import Prelude GoUtf8 GoStrconv GoText GoSha256 CsRecord CsCollection CsFilter CsStore TkCap VsRows VsEmbed.

Open Scope Z_scope.

(** ** Filters *)

(** [semsearch.SearchFilter] without [MinScore], which is not part of the tree. *)
Record SearchFilter := MkSearchFilter {
  sf_Providers : list bytes;
  sf_WorkspaceRoots : list bytes;
  sf_Roles : list bytes;
  sf_FromUnix : option Z;
  sf_UntilUnix : option Z;
  sf_ConversationIDs : list bytes;
  sf_ParentConversationID : bytes;
  sf_MessageIndexFrom : Z;
  sf_MessageIndexUntil : Z;
}.

(** The constructors of the [collection] package. *)
Definition ColumnIn (column : bytes) (values : list ScalarValue) : Filter := MkFilter FilterIn [] column values None None.
Definition ColumnEquals (column : bytes) (value : ScalarValue) : Filter := MkFilter FilterEquals [] column [value] None None.
Definition ColumnRange (column : bytes) (lower upper : option Z) : Filter := MkFilter FilterRange [] column [] lower upper.
Definition AllOf (children : list Filter) : Filter := MkFilter FilterAll children [] [] None None.

Section filters.
Variable toLowerRune : Z -> Z.

Definition lowercaseAll (values : list bytes) : list bytes := map (ToLower toLowerRune) values.

Definition inAny (column : bytes) (values : list bytes) : list Filter :=
  if (0 <? length values)%nat then [ColumnIn column (map StringScalar values)] else [].

Definition timeRange (filter : SearchFilter) : list Filter :=
  match sf_FromUnix filter, sf_UntilUnix filter with
  | None, None => []
  | from, until =>
      let lower := missingTimestampUnix + 1 in
      let lower := match from with Some from => if lower <? from then from else lower | None => lower end in
      [ColumnRange timestampUnixColumn (Some lower) until]
  end.

Definition filterChildren (filter : SearchFilter) : list Filter :=
  inAny providerColumn (sf_Providers filter)
  ++ inAny workspaceRootColumn (sf_WorkspaceRoots filter)
  ++ inAny roleColumn (lowercaseAll (sf_Roles filter))
  ++ inAny conversationIDColumn (sf_ConversationIDs filter)
  ++ (if isEmpty (sf_ParentConversationID filter) then []
      else [ColumnEquals parentConversationIDColumn (StringScalar (sf_ParentConversationID filter))])
  ++ timeRange filter
  ++ (if 0 <? sf_MessageIndexFrom filter then [ColumnRange messageIndexColumn (Some (sf_MessageIndexFrom filter)) None] else [])
  ++ (if 0 <? sf_MessageIndexUntil filter then [ColumnRange messageIndexColumn None (Some (sf_MessageIndexUntil filter))] else []).

Definition searchFilter (filter : SearchFilter) : option Filter :=
  match filterChildren filter with [] => None | children => Some (AllOf children) end.

(** *** What a filter asks of a row *)

(** The values of the columns of a row; a null value is absent. *)
Definition chunkValue (chunk : storedChunk) (name : bytes) : option ScalarValue :=
  '(_, scalar) ← list_find (fun scalar => scalar.1 = name) (chunkScalars toLowerRune chunk);
  if sv_Null scalar.2 then None else Some scalar.2.

Record askedFor (filter : SearchFilter) (chunk : storedChunk) : Prop := {
  af_provider : sf_Providers filter <> [] -> providerFromConversationID (sc_ConversationID chunk) ∈ sf_Providers filter;
  af_root : sf_WorkspaceRoots filter <> [] -> sc_WorkspaceRoot chunk ∈ sf_WorkspaceRoots filter;
  af_role : sf_Roles filter <> [] -> exists role, role ∈ sf_Roles filter /\ ToLower toLowerRune role = ToLower toLowerRune (sc_Role chunk);
  af_conversation : sf_ConversationIDs filter <> [] -> sc_ConversationID chunk ∈ sf_ConversationIDs filter;
  af_parent : sf_ParentConversationID filter <> [] -> sc_ParentConversationID chunk = sf_ParentConversationID filter;
  af_known : sf_FromUnix filter <> None \/ sf_UntilUnix filter <> None -> missingTimestampUnix < sc_TimestampUnix chunk;
  af_from from : sf_FromUnix filter = Some from -> from <= sc_TimestampUnix chunk;
  af_until until : sf_UntilUnix filter = Some until -> sc_TimestampUnix chunk < until;
  af_indexFrom : 0 < sf_MessageIndexFrom filter -> sf_MessageIndexFrom filter <= sc_MessageIndex chunk;
  af_indexUntil : 0 < sf_MessageIndexUntil filter -> sc_MessageIndex chunk < sf_MessageIndexUntil filter;
}.

Lemma kAnd_true a b : kAnd a b = truthTrue <-> a = truthTrue /\ b = truthTrue.
Proof. destruct a, b; cbn; split; try done; by intros [? ?]. Qed.

Lemma ofBool_true b : ofBool b = truthTrue <-> b = true.
Proof. by destruct b. Qed.

(** All children are true. *)
Definition allTrue (chunk : storedChunk) (children : list Filter) : Prop :=
  Forall (fun child => evalFilter child (chunkValue chunk) = truthTrue) children.

Lemma evalFilter_all chunk children : evalFilter (AllOf children) (chunkValue chunk) = truthTrue <-> allTrue chunk children.
Proof.
  cbn [evalFilter AllOf f_Kind f_Children]. unfold allTrue. induction children as [|c children IH]; [split; [constructor|done]|].
  cbn [map foldr]. rewrite kAnd_true, IH. split; [intros [? ?]; by constructor|by intros [? ?]%Forall_cons].
Qed.

Lemma allTrue_inAny chunk column values s :
  chunkValue chunk column = Some (StringScalar s) -> allTrue chunk (inAny column values) <-> (values <> [] -> s ∈ values).
Proof.
  intros Hv. unfold inAny. destruct values as [|v values]; cbn [length Nat.ltb Nat.leb]; [split; [done|by constructor]|].
  unfold allTrue. rewrite Forall_singleton. cbn [evalFilter ColumnIn f_Kind f_Column]. rewrite Hv.
  unfold leafMeaning. cbn [ColumnIn f_Kind f_Values]. rewrite ofBool_true, bool_decide_eq_true. split.
  - intros Hin _. apply list_elem_of_In, in_map_iff in Hin as (x & [= ->] & Hx). by apply list_elem_of_In.
  - intros Hin. apply list_elem_of_In, in_map, list_elem_of_In. by apply Hin.
Qed.

Lemma lowercaseAll_elem roles x : x ∈ lowercaseAll roles <-> exists role, role ∈ roles /\ ToLower toLowerRune role = x.
Proof.
  unfold lowercaseAll. rewrite list_elem_of_In, in_map_iff. setoid_rewrite list_elem_of_In. split; intros (r & ? & ?); by exists r.
Qed.

Lemma allTrue_time chunk filter :
  allTrue chunk (timeRange filter) <->
  (sf_FromUnix filter <> None \/ sf_UntilUnix filter <> None -> missingTimestampUnix < sc_TimestampUnix chunk) /\
  (forall from, sf_FromUnix filter = Some from -> from <= sc_TimestampUnix chunk) /\
  (forall until, sf_UntilUnix filter = Some until -> sc_TimestampUnix chunk < until).
Proof.
  unfold timeRange, allTrue.
  assert (chunkValue chunk timestampUnixColumn
          = if sc_TimestampUnix chunk =? missingTimestampUnix then None else Some (Int64Scalar (sc_TimestampUnix chunk))) as Hv.
  { unfold chunkValue, chunkScalars. cbn -[missingTimestampUnix]. unfold timestampScalar. by destruct (_ =? missingTimestampUnix). }
  destruct (sf_FromUnix filter) as [from|] eqn:Ef, (sf_UntilUnix filter) as [until|] eqn:Eu; cbv iota; rewrite ?Forall_singleton;
    cbn [evalFilter ColumnRange f_Kind f_Column]; rewrite ?Hv; cycle 3.
  { split; [|constructor]. intros _. split_and!; [by intros [?|?]|done|done]. }
  all: unfold leafMeaning; cbn [ColumnRange f_Kind f_Lower f_Upper from_option]; destruct (Z.eqb_spec (sc_TimestampUnix chunk) missingTimestampUnix) as [E|E].
  all: try (split; [done|]; intros (H1 & _); rewrite E in H1; specialize (H1 ltac:(first [by left|by right])); lia).
  all: rewrite ofBool_true, ?andb_true_r, ?andb_true_l, ?andb_true_iff, ?Z.leb_le, ?Z.ltb_lt; cbn [Int64Scalar sv_Int64].
  - destruct (Z.ltb_spec (missingTimestampUnix + 1) from); split.
    + intros [H1 H2]. split_and!; [lia|by intros ? [= <-]|by intros ? [= <-]].
    + intros (H1 & H2 & H3). specialize (H2 _ eq_refl). specialize (H3 _ eq_refl). lia.
    + intros [H1 H2]. split_and!; [lia|intros ? [= <-]; lia|by intros ? [= <-]].
    + intros (H1 & H2 & H3). specialize (H1 ltac:(by left)). specialize (H3 _ eq_refl). lia.
  - destruct (Z.ltb_spec (missingTimestampUnix + 1) from); split.
    + intros H1. split_and!; [lia|by intros ? [= <-]|done].
    + intros (H1 & H2 & _). by apply H2.
    + intros H1. split_and!; [lia|intros ? [= <-]; lia|done].
    + intros (H1 & H2 & _). specialize (H1 ltac:(by left)). lia.
  - split.
    + intros [H1 H2]. split_and!; [lia|done|by intros ? [= <-]].
    + intros (H1 & _ & H3). specialize (H1 ltac:(by right)). specialize (H3 _ eq_refl). lia.
Qed.

Lemma allTrue_from chunk bound (low : bool) :
  allTrue chunk (if 0 <? bound then [ColumnRange messageIndexColumn (if low then Some bound else None) (if low then None else Some bound)] else []) <->
  (0 < bound -> if low then bound <= sc_MessageIndex chunk else sc_MessageIndex chunk < bound).
Proof.
  unfold allTrue. destruct (Z.ltb_spec 0 bound) as [Hb|Hb]; [|split; [lia|constructor]]. rewrite Forall_singleton.
  assert (chunkValue chunk messageIndexColumn = Some (Int64Scalar (sc_MessageIndex chunk))) as Hv by done.
  cbn [evalFilter ColumnRange f_Kind f_Column]. rewrite Hv. unfold leafMeaning. cbn [ColumnRange f_Kind f_Lower f_Upper].
  rewrite ofBool_true. destruct low; cbn [from_option Int64Scalar sv_Int64]; rewrite ?andb_true_r, ?andb_true_l, ?Z.leb_le, ?Z.ltb_lt; tauto.
Qed.

(** The filter tree means what the search asks for: a stored row passes it exactly when every
    dimension that is set holds of the row; an unknown time passes no time range; and a
    search that sets nothing has no filter. *)
Theorem searchFilter_exact filter chunk :
  (match searchFilter filter with Some tree => evalFilter tree (chunkValue chunk) = truthTrue | None => True end) <->
  askedFor filter chunk.
Proof.
  transitivity (allTrue chunk (filterChildren filter)).
  { unfold searchFilter. destruct (filterChildren filter) as [|c cs] eqn:E; [split; [intros; constructor|done]|]. apply evalFilter_all. }
  unfold filterChildren, allTrue. rewrite !Forall_app. fold (allTrue chunk (inAny providerColumn (sf_Providers filter))).
  fold (allTrue chunk (inAny workspaceRootColumn (sf_WorkspaceRoots filter))).
  fold (allTrue chunk (inAny roleColumn (lowercaseAll (sf_Roles filter)))).
  fold (allTrue chunk (inAny conversationIDColumn (sf_ConversationIDs filter))). fold (allTrue chunk (timeRange filter)).
  pose proof (allTrue_from chunk (sf_MessageIndexFrom filter) true) as Hlow. pose proof (allTrue_from chunk (sf_MessageIndexUntil filter) false) as Hup.
  unfold allTrue in Hlow, Hup. cbv iota in Hlow, Hup. rewrite Hlow, Hup. clear Hlow Hup.
  rewrite (allTrue_inAny chunk providerColumn _ (providerFromConversationID (sc_ConversationID chunk))) by done.
  rewrite (allTrue_inAny chunk workspaceRootColumn _ (sc_WorkspaceRoot chunk)) by done.
  rewrite (allTrue_inAny chunk roleColumn _ (ToLower toLowerRune (sc_Role chunk))) by done.
  rewrite (allTrue_inAny chunk conversationIDColumn _ (sc_ConversationID chunk)) by done.
  rewrite allTrue_time, lowercaseAll_elem.
  assert (lowercaseAll (sf_Roles filter) <> [] <-> sf_Roles filter <> []) as -> by (unfold lowercaseAll; by destruct (sf_Roles filter)).
  assert (Forall (fun child => evalFilter child (chunkValue chunk) = truthTrue)
            (if isEmpty (sf_ParentConversationID filter) then []
             else [ColumnEquals parentConversationIDColumn (StringScalar (sf_ParentConversationID filter))])
          <-> (sf_ParentConversationID filter <> [] -> sc_ParentConversationID chunk = sf_ParentConversationID filter)) as ->.
  { destruct (sf_ParentConversationID filter) as [|b s] eqn:Ep; cbn [isEmpty]; [split; [done|constructor]|]. rewrite Forall_singleton.
    assert (chunkValue chunk parentConversationIDColumn = Some (StringScalar (sc_ParentConversationID chunk))) as Hv by done.
    cbn [evalFilter ColumnEquals f_Kind f_Column]. rewrite Hv. unfold leafMeaning. cbn [ColumnEquals f_Kind f_Values].
    rewrite ofBool_true, bool_decide_eq_true, list_elem_of_singleton. split; [by intros [= ->]|intros Hq; by rewrite Hq]. }
  split.
  - intros (H1 & H2 & H3 & H4 & H5 & (H6 & H7 & H8) & H9 & H10). by split.
  - intros [H1 H2 H3 H4 H5 H6 H7 H8 H9 H10]. by split_and!.
Qed.
End filters.

(** The filter of a search for a user's messages before a time, on the row of a message. *)
Definition sampleSearchFilter : SearchFilter := MkSearchFilter [] [] [lit "USER"] None (Some 9) [] [] 1 0.

Example searchFilter_sample :
  searchFilter id sampleSearchFilter
  = Some (AllOf [ColumnIn roleColumn [StringScalar (lit "user")];
                 ColumnRange timestampUnixColumn (Some (missingTimestampUnix + 1)) (Some 9);
                 ColumnRange messageIndexColumn (Some 1) None]) /\
  match searchFilter id sampleSearchFilter with Some tree => evalFilter tree (chunkValue id sampleChunk) | None => truthFalse end = truthTrue.
Proof. vm_compute. done. Qed.

(** ** Query vectors *)

Definition queryVectorCacheSize : nat := 64.

(** [vectors] and [vectorOrder] of a client, oldest query first. *)
Record vectorCache := MkCache { vc_vectors : gmap bytes (list Z); vc_order : list bytes }.
Definition emptyCache : vectorCache := MkCache ∅ [].

(** The second locked part of [queryVector]; the first looks the query up. *)
Definition storeVector (cache : vectorCache) (query : bytes) (vector : list Z) : vectorCache :=
  match vc_vectors cache !! query with
  | Some _ => cache
  | None =>
      let '(vectors, order) :=
        if (queryVectorCacheSize <=? length (vc_order cache))%nat then
          match vc_order cache with
          | oldest :: order => (delete oldest (vc_vectors cache), order)
          | [] => (vc_vectors cache, [])
          end
        else (vc_vectors cache, vc_order cache) in
      MkCache (<[query := vector]> vectors) (order ++ [query])
  end.

(** [embedQuery]: [embed] is the endpoint, [dimension] the configured width. *)
Definition embedQuery (embed : bytes -> option (list Z)) (dimension : Z) (queryPrefix query : bytes) : option (list Z) :=
  vector ← embed (queryPrefix ++ query);
  if (0 <? dimension) && negb (zlen vector =? dimension) then None else Some vector.

(** [queryVector] without interference: the vector, whether it was cached, and the cache. *)
Definition queryVector (embed : bytes -> option (list Z)) (dimension : Z) (queryPrefix query : bytes) (cache : vectorCache)
  : vectorCache * option (list Z * bool) :=
  match vc_vectors cache !! query with
  | Some cached => (cache, Some (cached, true))
  | None =>
      match embedQuery embed dimension queryPrefix query with
      | None => (cache, None)
      | Some vector => (storeVector cache query vector, Some (vector, false))
      end
  end.

Section cache.
Variables (embed : bytes -> option (list Z)) (dimension : Z) (queryPrefix : bytes).
Abbreviation answer := (embedQuery embed dimension queryPrefix).

(** The caches that searches reach: the embedding runs without the lock, so the entries of
    searches that run at the same time are stored in any order, also for a query that another
    search has stored meanwhile. *)
Inductive cacheReachable : vectorCache -> Prop :=
| cache_start : cacheReachable emptyCache
| cache_store cache query vector : cacheReachable cache -> answer query = Some vector -> cacheReachable (storeVector cache query vector).

Record cacheInv (cache : vectorCache) : Prop := {
  ci_nodup : NoDup (vc_order cache);
  ci_keys query : query ∈ vc_order cache <-> is_Some (vc_vectors cache !! query);
  ci_size : (length (vc_order cache) <= queryVectorCacheSize)%nat;
  ci_vectors query vector : vc_vectors cache !! query = Some vector -> answer query = Some vector;
}.

Lemma storeVector_inv cache query vector : cacheInv cache -> answer query = Some vector -> cacheInv (storeVector cache query vector).
Proof.
  intros [Hn Hk Hs Hv] Ha. unfold storeVector. destruct (vc_vectors cache !! query) eqn:E; [by split|].
  assert (query ∉ vc_order cache) as Hq by (intros [? Hin]%Hk; congruence).
  destruct (vc_order cache) as [|oldest order] eqn:Eo; cbn [length] in *.
  { cbn [Nat.leb queryVectorCacheSize]. split; cbn [vc_order vc_vectors app length]; [apply NoDup_singleton| |unfold queryVectorCacheSize; lia|].
    - intros q. rewrite list_elem_of_singleton. destruct (decide (q = query)) as [->|Hne]; [by rewrite lookup_insert_eq|].
      rewrite lookup_insert_ne by done. rewrite <- Hk. split; [done|by intros ?%elem_of_nil].
    - intros q v. destruct (decide (q = query)) as [->|Hne]; [rewrite lookup_insert_eq; by intros [= <-]|].
      rewrite lookup_insert_ne by done. apply Hv. }
  apply NoDup_cons in Hn as [Hold Hn]. rewrite elem_of_cons in Hq.
  destruct (Nat.leb_spec queryVectorCacheSize (S (length order))).
  - split; cbn [vc_order vc_vectors].
    + apply NoDup_app. split_and!; [done|intros q Hin ->%list_elem_of_singleton; tauto|apply NoDup_singleton].
    + intros q. rewrite elem_of_app, list_elem_of_singleton. destruct (decide (q = query)) as [->|Hne]; [rewrite lookup_insert_eq; split; [done|by right]|].
      rewrite lookup_insert_ne by done. destruct (decide (q = oldest)) as [->|Hne'].
      * rewrite lookup_delete_eq. split; [by intros [?|?]|by intros [? ?]].
      * rewrite lookup_delete_ne by done. rewrite <- Hk, elem_of_cons. tauto.
    + rewrite length_app. cbn. lia.
    + intros q v. destruct (decide (q = query)) as [->|Hne]; [rewrite lookup_insert_eq; by intros [= <-]|].
      rewrite lookup_insert_ne by done. intros [_ Hl]%lookup_delete_Some. by apply Hv.
  - split; cbn [vc_order vc_vectors].
    + apply (NoDup_app (oldest :: order)). split_and!; [by constructor|intros q Hin ->%list_elem_of_singleton|apply NoDup_singleton].
      apply elem_of_cons in Hin. tauto.
    + intros q. rewrite elem_of_app, list_elem_of_singleton. destruct (decide (q = query)) as [->|Hne]; [rewrite lookup_insert_eq; split; [done|by right]|].
      rewrite lookup_insert_ne by done. rewrite <- Hk. tauto.
    + rewrite length_app. cbn. lia.
    + intros q v. destruct (decide (q = query)) as [->|Hne]; [rewrite lookup_insert_eq; by intros [= <-]|].
      rewrite lookup_insert_ne by done. apply Hv.
Qed.

(** Every reachable cache has at most 64 entries, its order lists exactly the cached queries, and a
    cached vector is the one the endpoint gives: a search returns the same vector with and
    without the cache. *)
Theorem queryVector_transparent cache query :
  cacheReachable cache ->
  cacheInv cache /\ fst <$> (queryVector embed dimension queryPrefix query cache).2 = answer query /\
  cacheReachable (queryVector embed dimension queryPrefix query cache).1.
Proof.
  intros Hr. assert (cacheInv cache) as Hi.
  { induction Hr as [|cache q v _ IH Ha]; [|by apply storeVector_inv].
    split; cbn; [apply NoDup_nil_2| |unfold queryVectorCacheSize; lia|]; intros q.
    - rewrite lookup_empty. split; [by intros ?%elem_of_nil|by intros [? ?]].
    - intros v Hq. by rewrite lookup_empty in Hq. }
  split; [done|]. unfold queryVector. destruct (vc_vectors cache !! query) as [cached|] eqn:E.
  - cbn. by rewrite (ci_vectors _ Hi _ _ E).
  - destruct (answer query) as [vector|] eqn:Ea; [|done]. cbn. split; [done|]. by constructor.
Qed.
End cache.

Lemma queryVector_transparent_witness :
  fst <$> (queryVector (fun s => Some [zlen s]) 1 [] (lit "abc") (storeVector emptyCache (lit "abc") [3])).2 = Some [3].
Proof.
  apply (queryVector_transparent (fun s => Some [zlen s]) 1 [] (storeVector emptyCache (lit "abc") [3]) (lit "abc")).
  constructor; [constructor|]. vm_compute. reflexivity.
Defined.
