(* ===== verification/VsLocal.v ===== *)
(** * VsLocal: ingesting with the bundled embedding model (vectorsearch/backend_local.go)

    The embedder of the local store embeds every text by itself and never rejects one: a batch
    has a vector for each text, or it fails. *)

From S2P Require Import Prelude GoUtf8 GoStrconv GoText GoSha256 CsRecord CsStore TkCap VsRows VsEmbed.

Open Scope Z_scope.

(** [staticEmbedder.EmbedBatch]: the workers fill one position each; [Vector] is the model's
    function, [None] when its worker panicked. *)
Definition staticEmbedBatch (Vector : bytes -> option (list Z)) (texts : list bytes) : option BatchResult :=
  let vectors := map Vector texts in
  if forallb (fun vector => match vector with Some _ => true | None => false end) vectors
  then Some (MkBatch vectors []) else None.

(** A backend whose endpoint is the bundled model. *)
Class LocalBackend (W : Type) := {
  local_backend :: Backend W;
  local_vector : bytes -> option (list Z);
  local_embed texts w : (EmbedBatch texts w).2 = staticEmbedBatch local_vector texts;
}.

Section local.
Context {W : Type} `{LocalBackend W}.
Variable cfg : clientConfig.

Lemma wp_and {A} (m : I A) (st : ingest W) Q R : wp m st Q -> wp m st R -> wp m st (fun a st' => Q a st' /\ R a st').
Proof. unfold wp. destruct (m st) as [st' [a|e|]]; done. Qed.

(** Answers that all have a vector reject nothing. *)
Lemma wp_answerLoop_total pack skipped position answers vectors rejected (st : ingest W) :
  Forall (fun answer : nat * option (list Z) => answer.2 <> None) answers ->
  wp (answerLoop cfg pack skipped position answers vectors rejected) st (fun result _ => result.2 = rejected).
Proof.
  revert position vectors st. induction answers as [|[p [v|]] answers IH]; intros position vectors st Hall; cbn [answerLoop]; [done| |].
  - apply Forall_cons in Hall as [_ Hall]. destruct (_ && _); [done|]. apply wp_bind, wp_addStats. intros st1 _. by apply IH.
  - by apply Forall_cons in Hall as [? _].
Qed.

(** The bundled model rejects no chunk of a pack, whatever is reused. *)
Lemma vectorsFor_total pack reuse (st : ingest W) : wp (vectorsFor cfg pack reuse) st (fun result _ => result.2 = []).
Proof.
  pose proof (wp_vectorsFor cfg pack reuse st (fun _ _ => True) ltac:(done)) as Hsafe.
  unfold vectorsFor, wp in *. unfold mbind, I_bind, addStats in *. cbv beta iota zeta in *.
  destruct (length (missPositions reuse pack) =? 0)%nat; [done|]. unfold call in *. cbv beta iota zeta in *.
  set (texts := omap _ _) in *. set (st1 := setStats _ _) in *. pose proof (local_embed texts (ig_world st1)) as He.
  destruct (EmbedBatch texts (ig_world st1)) as [w result]. cbn [snd] in He. rewrite He in *.
  unfold staticEmbedBatch in *. destruct (forallb _ (map local_vector texts)) eqn:Ef; [|done].
  cbn [Vectors Skipped] in *. destruct (negb _); [done|]. apply wp_answerLoop_total.
  apply Forall_forall. intros [p a] Hin Hn. cbn in Hn. subst a. apply elem_of_zip_r in Hin.
  apply list_elem_of_In in Hin. rewrite forallb_forall in Ef. by apply Ef in Hin.
Qed.

(** A pack without missing vectors is written as it is. *)
Lemma keptOf_full pack vectors :
  length vectors = length pack -> missing pack vectors = [] -> map fst (keptOf pack vectors) = pack.
Proof.
  revert vectors. induction pack as [|c pack IH]; intros [|[v|] vectors] Hl Hm; cbn in *; try done.
  f_equal. apply IH; [lia|done].
Qed.

Abbreviation row := (fun kept : storedChunk * list Z => chunkRow (cfg_toLowerRune cfg) kept.1 kept.2).

Lemma wp_packsLoop_total packs reuse (st : ingest W) :
  wp (packsLoop cfg packs reuse []) st (fun retry st' => retry = [] /\
    exists kept, map fst kept = concat packs /\ adds (map row kept) [] st st').
Proof.
  revert st. induction packs as [|pack packs IH]; intros st; cbn [packsLoop concat].
  { apply wp_ret. split; [done|]. exists []. split; [done|]. by apply quiet_adds. }
  apply wp_bind, wp_call. intros [] st1 H1; [done|]. apply wp_bind.
  eapply wp_mono; [apply wp_and; [apply (vectorsFor_total pack reuse)|apply (wp_vectorsFor cfg pack reuse st1
    (fun result st' => quiet st1 st' /\ length result.1 = length pack /\ missing pack result.1 ≡ₚ map rej_chunk result.2));
    intros vectors rejected st' Hq Hl Hm; by split_and!]|].
  intros [vectors rejected] st2 (Er & Hq & Hl & Hm). cbn [fst snd] in *. subst rejected.
  apply Permutation_nil_r in Hm. apply wp_bind, wp_addRows. intros st3 H3. apply wp_bind, wp_ret.
  eapply wp_mono; [apply IH|]. intros retry st4 (-> & kept & Hk & H4). split; [done|].
  exists (keptOf pack vectors ++ kept). rewrite map_app, Hk, keptOf_full by done. split; [done|]. rewrite map_app.
  pose proof (adds_trans _ _ _ _ _ _ _ (quiet_adds _ _ (quiet_trans _ _ _ H1 Hq)) H3) as H13.
  by apply (adds_trans _ _ [] [] _ _ _ H13 H4).
Qed.

(** With the bundled model nothing is cut or dropped: an ingest that returns no error has written one
    row per planned chunk, in their order. *)
Theorem local_writes_all chunks reuse (st st' : ingest W) :
  embedAndWrite cfg chunks reuse st = (st', Ok tt) -> ig_pending st = [] ->
  ig_dropped st' = ig_dropped st /\
  exists vectors, length vectors = length chunks /\
    ig_upserted st' = ig_upserted st ++ zip_with (chunkRow (cfg_toLowerRune cfg)) chunks vectors.
Proof.
  intros E Hp. pose (Q := fun (_ : ()) (st' : ingest W) =>
    ig_pending st' = [] /\ exists kept, map fst kept = chunks /\ adds (map row kept) [] st st').
  assert (wp (embedAndWrite cfg chunks reuse) st Q) as Hw.
  { apply wp_bind.
    assert (forall st1 kept, map fst kept = chunks -> adds (map row kept) [] st st1 -> wp flush st1 Q) as Hend.
    { intros st1 kept Hk Ha. apply wp_flush. intros st2 Hf Hnil. unfold Q. split; [done|]. exists kept. split; [done|].
      pose proof (adds_trans _ _ _ _ _ _ _ Ha Hf) as Hb. by rewrite !app_nil_r in Hb. }
    destruct chunks as [|c chunks]; [apply wp_ret, (Hend st []); [done|by apply quiet_adds]|].
    apply (wp_bind (packsLoop cfg (packChunks (c :: chunks) reuse) reuse [])).
    eapply wp_mono; [apply wp_packsLoop_total|]. intros retry st1 (-> & kept & Hk & Ha).
    assert (concat (packChunks (c :: chunks) reuse) = c :: chunks) as Eq
      by (apply (packLoop_spec reuse [] [] 0 (c :: chunks)); [done|constructor|by left]).
    rewrite Eq in Hk. assert (wp (roundsLoop cfg (longest (c :: chunks)) [] ∅) st1 (fun _ st' => wp flush st' Q)) as Hr.
    { destruct (longest (c :: chunks)); apply wp_ret; by apply (Hend st1 kept). }
    exact Hr. }
  unfold wp in Hw. rewrite E in Hw. destruct Hw as (Hp' & kept & Hk & (H1 & H2 & _)). rewrite Hp, Hp', !app_nil_r in *.
  split; [done|]. exists (map snd kept). rewrite length_map, <- Hk, length_map. split; [done|]. rewrite H1. f_equal.
  clear. induction kept as [|[c v] kept IH]; [done|]. cbn. by f_equal.
Qed.
End local.

(** A model that embeds every text as its length. *)
#[export] Instance lengthBackend : LocalBackend nat.
Proof.
  refine {| local_backend := {| ctxErr n := (n, false);
                                EmbedBatch texts n := (n, staticEmbedBatch (fun text => Some [zlen text]) texts);
                                storeEnsureCollection _ n := (n, true); storeUpsert _ n := (n, true);
                                collectionPresent n := (n, Some true); sharedLayout := false |};
            local_vector text := Some [zlen text] |}.
  reflexivity.
Defined.

Lemma local_writes_all_witness :
  exists st' : ingest nat,
    @embedAndWrite nat (@local_backend nat lengthBackend) sampleConfig (expandOverBudget [sampleChunk] 4) ∅ emptyIngest = (st', Ok tt) /\
    map ur_Content (ig_upserted st') = [lit "abab"; lit "ab"] /\ ig_dropped st' = [].
Proof.
  destruct (@embedAndWrite nat (@local_backend nat lengthBackend) sampleConfig (expandOverBudget [sampleChunk] 4) ∅ emptyIngest) as [st' o] eqn:E.
  assert (o = Ok tt) as -> by (apply (f_equal snd) in E; cbn [snd] in E; rewrite <- E; vm_compute; reflexivity).
  destruct (@local_writes_all nat lengthBackend sampleConfig (expandOverBudget [sampleChunk] 4) ∅ emptyIngest st' E eq_refl) as [Hd _].
  exists st'. split_and!; [reflexivity|apply (f_equal fst) in E; cbn [fst] in E; rewrite <- E; vm_compute; reflexivity|exact Hd].
Defined.
