(* ===== verification/MtRedact.v ===== *)
(** * MtRedact: credentials do not reach the capture store (mitm/capture/redact.go)

    Before an exchange is stored, the credential headers are dropped, and their values and
    the values of sensitive JSON fields are masked in a copy of the body.  What cannot be
    masked safely is replaced as a whole by a marker. *)

From S2P Require Import Prelude GoUtf8 GoStrconv GoText GoSort GoSha256 GoJson.

Open Scope Z_scope.

Definition redactedValue : bytes := lit "[REDACTED]".
Definition utf8ByteOrderMark : bytes := [Byte.xef; Byte.xbb; Byte.xbf].
Definition maxSensitiveBodyValues : Z := 64.
Definition DefaultMaxBodyBytes : Z := 8 * 1024 * 1024.

(** An [http.Header] in the order in which a range statement happens to visit it. *)
Definition Header := list (bytes * list bytes).

Definition Get (headers : Header) (name : bytes) : bytes :=
  match list_find (fun h => h.1 = name) headers with
  | Some (_, (_, value :: _)) => value
  | _ => []
  end.

Definition Del (headers : Header) (name : bytes) : Header := filter (fun h => h.1 <> name) headers.

(** [strings.EqualFold] with an ASCII name: besides the letters of the other case, the long s
    and the Kelvin sign are equal to ASCII letters. *)
Definition foldLatin (r : Z) : Z :=
  if (65 <=? r) && (r <=? 90) then r + 32 else if r =? 383 then 115 else if r =? 8490 then 107 else r.

Definition EqualFold (name constant : bytes) : bool := bool_decide (map foldLatin (runesOf name) = map foldLatin (runesOf constant)).

Section redact.
(** [unicode.ToLower], and what reading a zstd stream up to a number of bytes gives. *)
Context (toLowerRune : Z -> Z) (zstdRead : bytes -> Z -> option bytes).

Abbreviation lower := (ToLower toLowerRune).

(** ** Names *)

Definition sensitiveHeaderNames : list bytes :=
  map lit ["authorization"; "proxy-authorization"; "cookie"; "set-cookie"; "chatgpt-account-id"; "x-api-key"; "x-clyde-token";
           "openai-api-key"; "x-amz-security-token"; "api-key"; "x-auth-token"]%string.

Definition sensitiveHTTPHeader (name : bytes) : bool :=
  let normalized := lower (TrimSpace name) in
  bool_decide (normalized ∈ sensitiveHeaderNames)
  || bool_decide (normalized ∈ map lit ["access-token"; "refresh-token"; "id-token"]%string)
  || existsb (HasSuffix normalized) (map lit ["-api-key"; "-access-token"; "-refresh-token"; "-id-token"; "-auth-token"]%string).

Definition sensitiveBodyFields : list bytes :=
  map lit ["authorization"; "proxyauthorization"; "accesstoken"; "refreshtoken"; "idtoken"; "token"; "authtoken"; "apikey"; "xapikey";
           "cookie"; "cookies"; "setcookie"; "accountid"; "accountuuid"; "chatgptaccountid"; "clientsecret"; "password"]%string.

Definition sensitiveJSONField (name : bytes) : bool :=
  let normalized := filter (fun b => b ∉ lit "-_. ") (lower name) in
  bool_decide (normalized ∈ sensitiveBodyFields).

Definition sensitiveHTTPHeaderNameByte (value : Byte.byte) : bool :=
  let z := b2z value in
  inZ 97 122 z || inZ 65 90 z || inZ 48 57 z || bool_decide (value ∈ lit "-_.").

(** ** Collecting values *)

Definition appendSensitiveBodyValueWithStatus (values : list bytes) (value : bytes) : list bytes * bool :=
  let trimmed := TrimSpace value in
  if bool_decide (trimmed = []) || bool_decide (trimmed ∈ values) then (values, true)
  else if maxSensitiveBodyValues <=? zlen values then (values, false)
  else (values ++ [trimmed], true).

Definition appendSensitiveBodyCandidateWithStatus (values : list bytes) (value : bytes) : list bytes * bool :=
  let trimmed := TrimSpace value in
  if bool_decide (trimmed = []) || bool_decide (trimmed ∈ values) then (values, true)
  else if maxSensitiveBodyValues <=? zlen values then (values, false)
  else (values ++ [trimmed], true).

Definition sensitiveCookieParts (name value : bytes) : list bytes :=
  let parts := Split value (lit ";") in
  if EqualFold name (lit "Set-Cookie") && (1 <? zlen parts) then take 1 parts else parts.

Definition unquotedSensitiveCookieValue (value : bytes) : bytes :=
  match Unquote (TrimSpace value) with
  | Some unquoted => unquoted
  | None => TrimSpace value
  end.

Definition isAuthorization (name : bytes) : bool := EqualFold name (lit "Authorization") || EqualFold name (lit "Proxy-Authorization").
Definition isCookie (name : bytes) : bool := EqualFold name (lit "Cookie") || EqualFold name (lit "Set-Cookie").

(** The state of a collection: the values, and whether all of them fitted. *)
Definition collection := (list bytes * bool)%type.

Definition collectWith (append : list bytes -> bytes -> list bytes * bool) (value : bytes) (st : collection) : collection :=
  let '(values, complete) := append (fst st) value in (values, snd st && complete).

Definition appendSensitiveHeaderValuesWithStatus (values : list bytes) (name value : bytes) : list bytes * bool :=
  let trimmed := TrimSpace value in
  let st := collectWith appendSensitiveBodyValueWithStatus trimmed (values, true) in
  let st :=
    if isAuthorization name then
      match Cut trimmed (lit " ") with
      | Some (_, token) =>
          if negb (bool_decide (TrimSpace token = [])) then collectWith appendSensitiveBodyCandidateWithStatus token st else st
      | None => st
      end
    else st in
  if isCookie name then
    foldl (fun st part =>
             match Cut part (lit "=") with
             | Some (_, cookieValue) =>
                 if negb (bool_decide (TrimSpace cookieValue = []))
                 then collectWith appendSensitiveBodyCandidateWithStatus (unquotedSensitiveCookieValue cookieValue) st else st
             | None => st
             end) st (sensitiveCookieParts name trimmed)
  else st.

Definition short (value : bytes) : bool := negb (bool_decide (value = [])) && (zlen value <? 3).

Definition containsShortSensitiveHeaderValue (name value : bytes) : bool :=
  let trimmed := TrimSpace value in
  if short trimmed then true else
  if isAuthorization name then
    match Cut trimmed (lit " ") with
    | Some (_, token) => short (TrimSpace token)
    | None => false
    end
  else if negb (isCookie name) then false else
  existsb (fun part => match Cut part (lit "=") with
                       | Some (_, cookieValue) => short (unquotedSensitiveCookieValue cookieValue)
                       | None => false
                       end) (sensitiveCookieParts name trimmed).

(** The values of all sensitive headers, in the order of the headers. *)
Definition SensitiveHTTPHeaderValuesWithStatus (headers : Header) : collection :=
  foldl (fun st '(name, headerValues) =>
           if negb (sensitiveHTTPHeader name) then st else
           foldl (fun '(values, complete) value =>
                    let complete := if containsShortSensitiveHeaderValue name value then false else complete in
                    let '(values, valueComplete) := appendSensitiveHeaderValuesWithStatus values name value in
                    (values, complete && valueComplete)) st headerValues)
        ([], true) headers.

(** [parseSensitiveJSONObject]: the only object of a text, with all its fields.  Its braces
    are read as tokens, which do not count for the nesting limit. *)
Definition parseSensitiveJSONObject (raw : bytes) : option (list (bytes * bytes)) :=
  match parseDoc (S maxNestingDepth) raw with
  | Some (JObject _ fields) => Some (map (fun '(key, v) => (fieldName key, rawOf v)) fields)
  | _ => None
  end.

Definition startsWith (s : bytes) (b : Byte.byte) : bool := match s with c :: _ => bool_decide (c = b) | [] => false end.

Fixpoint collectSensitiveJSONScalars (fuel : nat) (raw : bytes) (st : collection) : collection :=
  match fuel with
  | O => st
  | S fuel =>
      let trimmed := TrimSpace raw in
      if bool_decide (trimmed = []) || bool_decide (trimmed = lit "null") then st
      else if startsWith trimmed dquote then
        match UnmarshalString trimmed with
        | Some value => collectWith appendSensitiveBodyValueWithStatus value st
        | None => (st.1, false)
        end
      else if startsWith trimmed Byte.x7b then
        match parseSensitiveJSONObject trimmed with
        | Some fields => foldl (fun st field => collectSensitiveJSONScalars fuel field.2 st) st fields
        | None => (st.1, false)
        end
      else if startsWith trimmed Byte.x5b then
        match UnmarshalItems trimmed with
        | Some items => foldl (fun st item => collectSensitiveJSONScalars fuel item st) st items
        | None => (st.1, false)
        end
      else if Valid trimmed then collectWith appendSensitiveBodyValueWithStatus trimmed st
      else (st.1, false)
  end.

(** Lines end with a carriage return, a line feed, or both. *)
Fixpoint captureLines (s line : bytes) : list bytes :=
  match s with
  | [] => if bool_decide (line = []) then [] else [line]
  | b :: rest =>
      if bool_decide (b = Byte.x0d) then
        match rest with
        | c :: rest' => if bool_decide (c = Byte.x0a) then (line ++ [b; c]) :: captureLines rest' [] else (line ++ [b]) :: captureLines rest []
        | [] => [line ++ [b]]
        end
      else if bool_decide (b = Byte.x0a) then (line ++ [b]) :: captureLines rest []
      else captureLines rest (line ++ [b])
  end.

Definition splitCaptureLines (body : bytes) : list bytes := captureLines body [].

Definition hasLineBreak (s : bytes) : bool := bool_decide (Byte.x0d ∈ s) || bool_decide (Byte.x0a ∈ s).

(** The lines of a stream; a line that should be JSON and is not ends the collection. *)
Fixpoint collectLines (collect : bytes -> collection -> collection) (lines : list bytes) (st : collection) : collection :=
  match lines with
  | [] => st
  | line :: lines =>
      let payload := TrimSpace line in
      let payload := match CutPrefix payload (lit "data:") with Some data => TrimSpace data | None => payload end in
      if bool_decide (payload = []) || bool_decide (payload = lit "[DONE]") || HasPrefix payload (lit "event:") || HasPrefix payload (lit ":")
      then collectLines collect lines st
      else if negb (Valid payload) then
        let trimmedPayload := TrimSpace payload in
        if negb (startsWith trimmedPayload Byte.x7b || startsWith trimmedPayload Byte.x5b || startsWith trimmedPayload dquote)
        then collectLines collect lines st
        else (st.1, false)
      else collectLines collect lines (collect payload st)
  end.

Definition collectSensitiveBodyStreamValues (collect : bytes -> collection -> collection) (body : bytes) (st : collection) : collection :=
  collectLines collect (splitCaptureLines body) st.

Fixpoint collectSensitiveBodyValues (fuel : nat) (body : bytes) (st : collection) : collection :=
  match fuel with
  | O => st
  | S fuel =>
      let trimmed := TrimSpace body in
      if bool_decide (trimmed = []) then st
      else if startsWith trimmed Byte.x7b then
        match parseSensitiveJSONObject trimmed with
        | None =>
            if hasLineBreak trimmed then collectSensitiveBodyStreamValues (collectSensitiveBodyValues fuel) trimmed st
            else (st.1, false)
        | Some fields =>
            foldl (fun st '(name, value) =>
                     let st := if sensitiveJSONField name then collectSensitiveJSONScalars (S (length value)) value st else st in
                     collectSensitiveBodyValues fuel value st) st fields
        end
      else if startsWith trimmed Byte.x5b then
        match UnmarshalItems trimmed with
        | None => (st.1, false)
        | Some items => foldl (fun st item => collectSensitiveBodyValues fuel item st) st items
        end
      else if negb (hasLineBreak trimmed) then st
      else collectSensitiveBodyStreamValues (collectSensitiveBodyValues fuel) trimmed st
  end.

Definition SensitiveHTTPBodyValuesWithStatus (body : option bytes) : collection :=
  match body with
  | None => ([], true)
  | Some body => collectSensitiveBodyValues (S (length body)) body ([], true)
  end.

(** ** What must not be stored *)

Definition containsSensitiveValue (value : bytes) (sensitiveValues : list bytes) : bool :=
  existsb (fun v => negb (bool_decide (v = [])) && Contains value v) sensitiveValues.

(** The part of a text before a separator ends with a name and blanks; each separator is
    looked at with the text after the previous one. *)
Fixpoint dropBlanks (reversed : bytes) : bytes :=
  match reversed with
  | b :: rest => if bool_decide (b = Byte.x20) || bool_decide (b = Byte.x09) then dropBlanks rest else reversed
  | [] => []
  end.

Fixpoint nameSuffix (reversed : bytes) : bytes :=
  match reversed with
  | b :: rest => if sensitiveHTTPHeaderNameByte b then nameSuffix rest ++ [b] else []
  | [] => []
  end.

Fixpoint assignmentLoop (fuel : nat) (remaining : bytes) (separator : Byte.byte) : bool :=
  match fuel with
  | O => false
  | S fuel =>
      match Index remaining [separator] with
      | None => false
      | Some assignmentIndex =>
          let name := nameSuffix (dropBlanks (rev (take assignmentIndex remaining))) in
          if negb (bool_decide (name = [])) && (sensitiveHTTPHeader name || sensitiveJSONField name) then true
          else assignmentLoop fuel (drop (assignmentIndex + 1) remaining) separator
      end
  end.

Definition containsSensitiveHTTPHeaderAssignment (body : bytes) (separator : Byte.byte) : bool :=
  assignmentLoop (S (length body)) body separator.

Definition quoted (name : bytes) : bytes := [dquote] ++ name ++ [dquote].

Definition bodyMarkers : list bytes :=
  map (fun name => quoted (lit name))
    ["authorization"; "proxy-authorization"; "access_token"; "accesstoken"; "refresh_token"; "refreshtoken"; "id_token"; "idtoken"; "token";
     "password"; "client_secret"; "api_key"; "apikey"; "x-api-key"; "cookie"; "cookies"; "set-cookie"; "account_id"; "accountid";
     "account_uuid"; "accountuuid"; "chatgpt-account-id"]%string
  ++ map lit ["access_token="; "refresh_token="; "id_token="; "token="; "api_key="; "password="; "client_secret="; "account_id="; "account_uuid="]%string.

Definition containsSensitiveBodyMarker (body : bytes) : bool :=
  containsSensitiveHTTPHeaderAssignment body Byte.x3d || containsSensitiveHTTPHeaderAssignment body Byte.x3a
  || existsb (Contains (lower body)) bodyMarkers.

(** ** Scanning JSON *)

Fixpoint containsIn (v : json) (sensitiveValues : list bytes) : bool :=
  match v with
  | JString raw =>
      match decodeString raw with
      | Some value => containsSensitiveBodyMarker value || containsSensitiveValue value sensitiveValues
      | None => true
      end
  | JNumber raw => containsSensitiveValue raw sensitiveValues
  | JLiteral _ => false
  | JArray _ items => existsb (fun item => containsIn item sensitiveValues) items
  | JObject _ fields =>
      existsb (fun '(key, item) =>
                 match decodeString key with
                 | Some name => containsSensitiveBodyMarker name || containsSensitiveValue name sensitiveValues
                 | None => true
                 end || containsIn item sensitiveValues) fields
  end.

(** [containsSensitiveJSONScalar] reads the text as tokens, without a nesting limit; an error
    of the decoder counts as found. *)
Definition containsSensitiveJSONScalar (raw : bytes) (sensitiveValues : list bytes) : bool :=
  match parseValue (S (length raw)) raw with
  | None => true
  | Some (v, rest) =>
      containsIn v sensitiveValues
      || match skipSpace rest with
         | b :: _ => negb (bool_decide (b = Byte.x5d)) && negb (bool_decide (b = Byte.x7d))
         | [] => false
         end
  end.

Definition hasUnicodeEscape (raw : bytes) : bool := Contains raw (lit "\u").

Definition containsUnredactableSensitiveJSONString (raw : bytes) (sensitiveValues : list bytes) : bool :=
  match UnmarshalString raw with
  | None => true
  | Some value =>
      if containsSensitiveBodyMarker value then true
      else hasUnicodeEscape raw && containsSensitiveValue value sensitiveValues
  end.

Fixpoint containsUnredactableSensitiveJSON (fuel : nat) (raw : bytes) (sensitiveValues : list bytes) : bool :=
  match fuel with
  | O => false
  | S fuel =>
      let trimmed := TrimSpace raw in
      if startsWith trimmed dquote then containsUnredactableSensitiveJSONString trimmed sensitiveValues
      else if startsWith trimmed Byte.x7b then
        match parseSensitiveJSONObject trimmed with
        | None => true
        | Some fields =>
            existsb (fun '(name, value) =>
                       if sensitiveJSONField name then false
                       else if containsSensitiveBodyMarker name || (hasUnicodeEscape trimmed && containsSensitiveValue name sensitiveValues) then true
                       else containsUnredactableSensitiveJSON fuel value sensitiveValues) fields
        end
      else if startsWith trimmed Byte.x5b then
        match UnmarshalItems trimmed with
        | None => true
        | Some items => existsb (fun item => containsUnredactableSensitiveJSON fuel item sensitiveValues) items
        end
      else false
  end.

(** ** Masking JSON *)

Definition maskedJSON : bytes := quoted redactedValue.

Definition maskAll (value : bytes) (sensitiveValues : list bytes) : bytes :=
  foldl (fun redacted v => if bool_decide (v = []) then redacted else ReplaceAll redacted v redactedValue) value sensitiveValues.

Definition redactJSONScalar (raw : bytes) (sensitiveValues : list bytes) : bytes * bool :=
  let trimmed := TrimSpace raw in
  if bool_decide (trimmed = []) then (raw, false)
  else if startsWith trimmed dquote then
    match UnmarshalString trimmed with
    | None => (raw, false)
    | Some value =>
        let redacted := maskAll value sensitiveValues in
        if bool_decide (redacted = value) then (raw, false) else (jsonString redacted, true)
    end
  else if startsWith trimmed Byte.x7b || startsWith trimmed Byte.x5b then (raw, false)
  else if containsSensitiveValue trimmed sensitiveValues then (maskedJSON, true)
  else (raw, false).

(** The loop body of [redactJSONObject] and [redactJSONArray]; [nested] is [redactJSONValue]. *)
Definition redactJSONItem (nested : bytes -> bytes * bool) (item : bytes) (sensitiveValues : list bytes) : bytes * bool :=
  let '(redacted, scalarChanged) := redactJSONScalar item sensitiveValues in
  if scalarChanged then (redacted, true) else
  let '(redacted, nestedChanged) := nested item in
  if nestedChanged then (redacted, true) else (item, false).

Definition redactJSONObject (nested : bytes -> bytes * bool) (raw : bytes) (sensitiveValues : list bytes) : bytes * bool :=
  match UnmarshalFields raw with
  | None => (raw, false)
  | Some fields =>
      let results := map_imap (fun name value => Some (if sensitiveJSONField name then (maskedJSON, true)
                                                       else redactJSONItem nested value sensitiveValues)) fields in
      if existsb (fun '(_, (_, changed)) => changed) (map_to_list results) then (MarshalFields (fst <$> results), true) else (raw, false)
  end.

Definition redactJSONArray (nested : bytes -> bytes * bool) (raw : bytes) (sensitiveValues : list bytes) : bytes * bool :=
  match UnmarshalItems raw with
  | None => (raw, false)
  | Some items =>
      let results := map (fun item => redactJSONItem nested item sensitiveValues) items in
      if existsb snd results then (MarshalItems (map fst results), true) else (raw, false)
  end.

Fixpoint redactJSONValue (fuel : nat) (raw : bytes) (sensitiveValues : list bytes) : bytes * bool :=
  match fuel with
  | O => (raw, false)
  | S fuel =>
      let trimmed := TrimSpace raw in
      let nested item := redactJSONValue fuel item sensitiveValues in
      if startsWith trimmed Byte.x7b then redactJSONObject nested raw sensitiveValues
      else if startsWith trimmed Byte.x5b then redactJSONArray nested raw sensitiveValues
      else (raw, false)
  end.

Definition redactJSON (raw : bytes) (sensitiveValues : list bytes) : bytes * bool := redactJSONValue (S (length raw)) raw sensitiveValues.

Definition redactValidJSONCaptureBody (body : bytes) (sensitiveValues : list bytes) : bytes :=
  if containsUnredactableSensitiveJSON (S (length body)) body sensitiveValues then redactedValue else
  let '(value, changed) := redactJSON body sensitiveValues in
  if changed then (if containsSensitiveJSONScalar value sensitiveValues then redactedValue else value)
  else if containsSensitiveBodyMarker body then redactedValue
  else body.

Definition looksLikeJSONValue (body : bytes) : bool :=
  let trimmed := TrimSpace body in
  if bool_decide (trimmed = []) then false
  else if startsWith trimmed Byte.x7b || startsWith trimmed Byte.x5b || startsWith trimmed dquote then true
  else Valid trimmed.

(** [bytes.SplitAfter] at line feeds. *)
Fixpoint splitAfterLines (s line : bytes) : list bytes :=
  match s with
  | [] => [line]
  | b :: rest => if bool_decide (b = Byte.x0a) then (line ++ [b]) :: splitAfterLines rest [] else splitAfterLines rest (line ++ [b])
  end.

(** Puts the masked text of a value in the place of the value. *)
Definition splice (line value redacted : bytes) : option bytes :=
  match Cut line value with
  | Some (before, after) => Some (before ++ redacted ++ after)
  | None => None
  end.

(** The loop of [redactJSONLines]: [inr] is an early return. *)
Fixpoint jsonLinesLoop (body : bytes) (sensitiveValues : list bytes) (lines : list bytes) (valueCount : Z)
  : list bytes * Z + bytes * bool :=
  match lines with
  | [] => inl ([], valueCount)
  | line :: lines =>
      let keep line valueCount :=
        match jsonLinesLoop body sensitiveValues lines valueCount with
        | inl (rest, n) => inl (line :: rest, n)
        | inr early => inr early
        end in
      let value := TrimSpace line in
      if bool_decide (value = []) then keep line valueCount
      else if negb (Valid value) then inr (body, false)
      else
        let '(redacted, changed) := redactJSON value sensitiveValues in
        if containsSensitiveJSONScalar redacted sensitiveValues then inr (redactedValue, true)
        else if negb changed then
          if containsSensitiveBodyMarker value then inr (redactedValue, true) else keep line (valueCount + 1)
        else
          match splice line value redacted with
          | None => inr (body, false)
          | Some line' => keep line' (valueCount + 1)
          end
  end.

Definition redactJSONLines (body : bytes) (sensitiveValues : list bytes) : bytes * bool :=
  match jsonLinesLoop body sensitiveValues (splitAfterLines body []) 0 with
  | inr early => early
  | inl (lines, valueCount) => if valueCount <? 2 then (body, false) else (concat lines, true)
  end.

Definition redactJSONCaptureBody (body : bytes) (sensitiveValues : list bytes) : bytes :=
  if Valid body then redactValidJSONCaptureBody body sensitiveValues else
  let '(value, valid) := redactJSONLines body sensitiveValues in
  if valid then value else redactedValue.

(** ** Masking event streams and plain text *)

Definition redactSensitiveSSEScalar (payload : bytes) (sensitiveValues : list bytes) : bytes * bool :=
  match UnmarshalString payload with
  | None => (payload, false)
  | Some value =>
      if negb (containsSensitiveBodyMarker value) && negb (containsSensitiveValue value sensitiveValues) then (payload, false)
      else (maskedJSON, true)
  end.

Record sseState := MkSSEState { sse_lines : list bytes; sse_changed : bool; sse_handled : bool }.

(** One line: the line that takes its place and whether it differs, or an early return. *)
Definition sseLine (line : bytes) (sensitiveValues : list bytes) : option (bytes * bool * bool) :=
  let trimmed := TrimSpace line in
  match CutPrefix trimmed (lit "data:") with
  | None => Some (line, false, false)
  | Some data =>
      let payload := TrimSpace data in
      let unchanged := Some (line, false, true) in
      let put redacted := match splice line payload redacted with Some line' => Some (line', true, true) | None => unchanged end in
      if bool_decide (payload = []) || bool_decide (payload = lit "[DONE]") then unchanged
      else if negb (Valid payload) then
        if looksLikeJSONValue payload || containsSensitiveBodyMarker payload then None else unchanged
      else if startsWith payload dquote then
        let '(redacted, payloadChanged) := redactSensitiveSSEScalar payload sensitiveValues in
        if negb payloadChanged then unchanged else put redacted
      else if containsSensitiveJSONScalar payload sensitiveValues then None
      else
        let '(redacted, payloadChanged) := redactJSON payload sensitiveValues in
        if containsSensitiveJSONScalar redacted sensitiveValues then None
        else if negb payloadChanged then unchanged else put redacted
  end.

Fixpoint sseLoop (lines : list bytes) (sensitiveValues : list bytes) (st : sseState) : option sseState :=
  match lines with
  | [] => Some st
  | line :: lines =>
      match sseLine line sensitiveValues with
      | None => None
      | Some (line', changed, handled) =>
          sseLoop lines sensitiveValues (MkSSEState (sse_lines st ++ [line']) (sse_changed st || changed) (sse_handled st || handled))
      end
  end.

Definition redactSSEJSON (body : bytes) (sensitiveValues : list bytes) : bytes * bool :=
  match sseLoop (splitCaptureLines body) sensitiveValues (MkSSEState [] false false) with
  | None => (redactedValue, true)
  | Some st => if negb (sse_changed st) then (body, sse_handled st) else (concat (sse_lines st), true)
  end.

Definition containsSensitiveSSENonDataMarker (body : bytes) : bool :=
  existsb (fun line => let trimmed := TrimSpace line in negb (HasPrefix trimmed (lit "data:")) && containsSensitiveBodyMarker trimmed)
          (splitCaptureLines body).

Definition TrimPrefix (s prefix : bytes) : bytes := default s (CutPrefix s prefix).

Definition redactHTTPBody (body : bytes) (sensitiveValues : list bytes) : bytes :=
  let redacted := TrimPrefix body utf8ByteOrderMark in
  if looksLikeJSONValue redacted then redactJSONCaptureBody redacted sensitiveValues else
  let redacted := foldl (fun redacted value => ReplaceAll redacted value redactedValue) redacted sensitiveValues in
  let '(value, handled) := redactSSEJSON redacted sensitiveValues in
  if handled then (if containsSensitiveSSENonDataMarker value then redactedValue else value)
  else if containsSensitiveBodyMarker redacted then redactedValue
  else redacted.

(** ** The exchange *)

Definition captureBodyUsesZstd (contentEncoding : bytes) : bool :=
  let encoding := lower (TrimSpace contentEncoding) in
  bool_decide (encoding = lit "zstd") || bool_decide (encoding = lit "zstandard").

Definition decodeZstdCaptureBody (body : bytes) : option bytes :=
  match zstdRead body (DefaultMaxBodyBytes + 1) with
  | Some decoded => if DefaultMaxBodyBytes <? zlen decoded then None else Some decoded
  | None => None
  end.

(** What the loops over the additional values and the headers leave: the values, whether they
    are complete, and whether one is too short to be masked. *)
Definition gatherValues (headers : Header) (additionalValues : list bytes) (additionalValuesComplete : bool) : list bytes * bool * bool :=
  let st := foldl (fun '(values, complete, shortSensitiveValue) value =>
                     let shortSensitiveValue := if short (TrimSpace value) then true else shortSensitiveValue in
                     let '(values, valueComplete) := appendSensitiveBodyValueWithStatus values value in
                     (values, complete && valueComplete, shortSensitiveValue)) ([], additionalValuesComplete, false) additionalValues in
  foldl (fun st '(name, values) =>
           if negb (sensitiveHTTPHeader name) then st else
           foldl (fun '(sensitiveValues, complete, shortSensitiveValue) value =>
                    let shortSensitiveValue := if containsShortSensitiveHeaderValue name value then true else shortSensitiveValue in
                    let '(sensitiveValues, valueComplete) := appendSensitiveHeaderValuesWithStatus sensitiveValues name value in
                    (sensitiveValues, complete && valueComplete, shortSensitiveValue)) st values) st headers.

Definition keptHeaders (headers : Header) : Header := filter (fun h => sensitiveHTTPHeader h.1 = false) headers.

Definition contentEncodingKey : bytes := lit "Content-Encoding".
Definition contentLengthKey : bytes := lit "Content-Length".

(** From the decoded body on. *)
Definition redactDecoded (headers : Header) (body : option bytes) (redactionBody : option bytes) (gathered : list bytes * bool * bool)
  : Header * option bytes :=
  let '(sensitiveValues, complete, shortSensitiveValue) := gathered in
  let '(bodyValues, bodyValuesComplete) := SensitiveHTTPBodyValuesWithStatus redactionBody in
  let '(sensitiveValues, complete) :=
    foldl (fun st value => collectWith appendSensitiveBodyValueWithStatus value st) (sensitiveValues, complete) bodyValues in
  let complete := complete && bodyValuesComplete in
  match redactionBody with
  | None => (headers, None)
  | Some redactionBody =>
      if negb complete || shortSensitiveValue then (Del headers contentLengthKey, Some redactedValue) else
      let redactedBody := redactHTTPBody redactionBody sensitiveValues in
      (if bool_decide (Some redactedBody = body) then headers else Del headers contentLengthKey, Some redactedBody)
  end.

Definition redactHTTP (headers : Header) (body : option bytes) (additionalValues : list bytes) (additionalValuesComplete : bool)
  : Header * option bytes :=
  let gathered := gatherValues headers additionalValues additionalValuesComplete in
  let redactedHeaders := keptHeaders headers in
  let contentEncoding := TrimSpace (Get headers contentEncodingKey) in
  let undecorated := Del (Del redactedHeaders contentEncodingKey) contentLengthKey in
  match body with
  | None => redactDecoded redactedHeaders None None gathered
  | Some bytes =>
      if negb (bool_decide (contentEncoding = [])) && negb (captureBodyUsesZstd contentEncoding) then (undecorated, Some redactedValue)
      else if captureBodyUsesZstd contentEncoding then
        match decodeZstdCaptureBody bytes with
        | None => (undecorated, Some redactedValue)
        | Some decoded => redactDecoded undecorated (Some bytes) (Some decoded) gathered
        end
      else redactDecoded redactedHeaders (Some bytes) (Some bytes) gathered
  end.

(** [RedactHTTP] and [RedactHTTPWithSensitiveValuesStatus]. *)
Definition RedactHTTP (headers : Header) (body : option bytes) : Header * option bytes := redactHTTP headers body [] true.

Definition RedactHTTPWithSensitiveValuesStatus (headers : Header) (body : option bytes) (additionalValues : list bytes)
  (additionalValuesComplete : bool) : Header * option bytes := redactHTTP headers body additionalValues additionalValuesComplete.
End redact.

Definition sampleRedact (headers : Header) (body : bytes) : option bytes := (RedactHTTP id (fun _ _ => None) headers (Some body)).2.

Example redact_sample : sampleRedact [] (jlit "{'outer':[{'access_token':{'unexpected':'nested-secret'}},{'account_id':7}],'safe':'kept'}") =
  Some (jlit "{'outer':[{'access_token':'[REDACTED]'},{'account_id':'[REDACTED]'}],'safe':'kept'}").
Proof. vm_compute. reflexivity. Qed.
Example redact_lines : sampleRedact [] (jlit "{'access\u005ftoken':'first-secret','safe':1}" ++ [Byte.x0a] ++ jlit "{'account_id':'second-secret','safe':2}") =
  Some (jlit "{'access_token':'[REDACTED]','safe':1}" ++ [Byte.x0a] ++ jlit "{'account_id':'[REDACTED]','safe':2}").
Proof. vm_compute. reflexivity. Qed.
