(* ===== verification/MtRedactSpec.v ===== *)
(** * MtRedactSpec: what the capture store can see of a credential

    A credential is a value of a sensitive header, its token or a cookie in it, a value
    handed over from a related message, or a scalar under a sensitive field of the body.
    The theorems say where a stored copy can and cannot hold one. *)

From S2P Require Import Prelude GoUtf8 GoStrconv GoText GoSort GoSha256 GoJson MtRedact.

Open Scope Z_scope.

(** ** Values of a JSON text *)

(** The strings, decoded, and the numbers of a value. *)
Fixpoint scalars (v : json) : list bytes :=
  match v with
  | JString raw => [fieldName raw]
  | JNumber raw => [raw]
  | JLiteral _ => []
  | JArray _ items => concat (map scalars items)
  | JObject _ fields => concat (map (fun '(_, item) => scalars item) fields)
  end.

(** Those inside a container. *)
Definition inner (v : json) : list bytes := concat (map scalars (children v)).

Fixpoint uniqueNames (v : json) : bool :=
  match v with
  | JArray _ items => forallb uniqueNames items
  | JObject _ fields => bool_decide (NoDup (map (fun field => fieldName field.1) fields)) && forallb (fun '(_, item) => uniqueNames item) fields
  | _ => true
  end.

Fixpoint sensitiveScalars (toLowerRune : Z -> Z) (v : json) : list bytes :=
  match v with
  | JArray _ items => concat (map (sensitiveScalars toLowerRune) items)
  | JObject _ fields =>
      concat (map (fun '(key, item) => (if sensitiveJSONField toLowerRune (fieldName key) then scalars item else []) ++ sensitiveScalars toLowerRune item) fields)
  | _ => []
  end.

Lemma scalars_inner v x : x ∈ scalars v -> match v with JString _ | JNumber _ => True | _ => x ∈ inner v end.
Proof.
  destruct v as [raw|raw|raw|raw items|raw fields]; cbn [scalars]; [by intros ?%not_elem_of_nil|done|done|done|].
  unfold inner. cbn [children]. rewrite map_map. intros H. replace (map (fun x0 => scalars x0.2) fields) with (map (fun '(_, item) => scalars item) fields); [done|].
  apply map_ext. by intros [].
Qed.

Lemma elem_of_inner v x : x ∈ inner v <-> exists child, child ∈ children v /\ x ∈ scalars child.
Proof.
  unfold inner. rewrite list_elem_of_concat. split.
  - intros (l & Hx & Hl). apply list_elem_of_fmap in Hl as (c & -> & Hc). eauto.
  - intros (c & Hc & Hx). exists (scalars c). split; [done|]. by apply list_elem_of_fmap_2.
Qed.

(** ** Collections *)

Definition grows (st st' : collection) : Prop := (forall v, v ∈ st.1 -> v ∈ st'.1) /\ (st'.2 = true -> st.2 = true).

Definition collected (st : collection) (x : bytes) : Prop := st.2 = true -> TrimSpace x <> [] -> TrimSpace x ∈ st.1.

#[export] Instance grows_preorder : PreOrder grows.
Proof. split; [by intros st|]. intros a b c [H1 H2] [H3 H4]. split; auto. Qed.

Lemma collected_grows st st' x : collected st x -> grows st st' -> collected st' x.
Proof. intros H [H1 H2] Hc Hne. apply H1, H; auto. Qed.

Definition appends (append : list bytes -> bytes -> list bytes * bool) : Prop := forall values value,
  (forall v, v ∈ values -> v ∈ (append values value).1) /\
  ((append values value).2 = true -> TrimSpace value <> [] -> TrimSpace value ∈ (append values value).1).

Lemma append_appends : appends appendSensitiveBodyValueWithStatus.
Proof.
  intros values value. unfold appendSensitiveBodyValueWithStatus. cbn zeta. case_bool_decide as H1; cbn; [done|].
  case_bool_decide as H2; cbn; [done|]. destruct (_ <=? _); cbn; [done|]. split; intros; apply elem_of_app; [by left|right; by apply list_elem_of_singleton].
Qed.

Lemma collectWith_collects append value st : appends append -> grows st (collectWith append value st) /\ collected (collectWith append value st) value.
Proof.
  intros H. destruct (H st.1 value) as [H1 H2]. unfold collectWith, grows, collected. destruct (append st.1 value) as [values ok]. cbn in *.
  split; [split; [done|by intros [? _]%andb_true_iff]|]. intros [_ ?]%andb_true_iff. auto.
Qed.

(** A loop collects what its steps collect. *)
Lemma foldl_collects {A} (f : collection -> A -> collection) (want : A -> bytes -> Prop) l st :
  (forall st a, a ∈ l -> grows st (f st a) /\ forall x, want a x -> collected (f st a) x) ->
  grows st (foldl f st l) /\ forall a x, a ∈ l -> want a x -> collected (foldl f st l) x.
Proof.
  revert st. induction l as [|a l IH]; intros st H; [split; [done|by intros a x ?%not_elem_of_nil]|]. cbn [foldl].
  destruct (H st a (list_elem_of_here _ _)) as [H1 H2]. destruct (IH (f st a)) as [H3 H4]; [intros; by apply H, list_elem_of_further|].
  split; [by etrans|]. intros b x [->|Hb]%elem_of_cons Hx; [|by eapply H4]. by eapply collected_grows; [apply H2|].
Qed.

Lemma foldl_grows {A} (f : collection -> A -> collection) l st : (forall st a, a ∈ l -> grows st (f st a)) -> grows st (foldl f st l).
Proof. intros H. apply (foldl_collects f (fun _ _ => False)). intros st0 a Ha. split; [by apply H|done]. Qed.

(** ** Reading values back *)

Lemma startsWith_shape v b : (exists c t, rawOf v = c :: t /\ startsAs v c) ->
  startsWith (rawOf v) b = match v with
                           | JString _ => bool_decide (dquote = b)
                           | JArray _ _ => bool_decide (Byte.x5b = b)
                           | JObject _ _ => bool_decide (Byte.x7b = b)
                           | _ => startsWith (rawOf v) b
                           end.
Proof. intros (c & t & E & Hs). destruct v; try done; rewrite E; cbn in Hs |- *; by rewrite Hs. Qed.

Lemma startsWith_scalar v : (exists c t, rawOf v = c :: t /\ startsAs v c) -> match v with JLiteral _ | JNumber _ => True | _ => False end ->
  startsWith (rawOf v) dquote = false /\ startsWith (rawOf v) Byte.x5b = false /\ startsWith (rawOf v) Byte.x7b = false.
Proof.
  intros (c & t & E & Hs) Hv. destruct v; try done; rewrite E; cbn in Hs |- *; destruct Hs as (?&?&?); by rewrite !bool_decide_eq_false_2.
Qed.

Section collect.
Context (toLowerRune : Z -> Z).

Abbreviation doc := (parseDoc maxNestingDepth).

Lemma collectScalars_grows fuel raw st : grows st (collectSensitiveJSONScalars fuel raw st).
Proof.
  revert raw st. induction fuel as [|fuel IH]; intros raw st; [done|]. cbn [collectSensitiveJSONScalars].
  destruct (_ || _); [done|]. assert (grows st (st.1, false)) as Hf by (split; [done|done]).
  destruct (startsWith _ dquote); [destruct (UnmarshalString _); [by apply collectWith_collects, append_appends|done]|].
  destruct (startsWith _ Byte.x7b); [destruct (parseSensitiveJSONObject _); [by apply foldl_grows|done]|].
  destruct (startsWith _ Byte.x5b); [destruct (UnmarshalItems _); [by apply foldl_grows|done]|].
  destruct (Valid _); [by apply collectWith_collects, append_appends|done].
Qed.

Lemma doc_object s raw fields : doc s = Some (JObject raw fields) ->
  parseSensitiveJSONObject s = Some (map (fun '(key, v) => (fieldName key, rawOf v)) fields).
Proof. intros H. unfold parseSensitiveJSONObject. by rewrite (parseDoc_mono _ (S maxNestingDepth) _ _ (Nat.le_succ_diag_r _) H). Qed.

Lemma doc_items s raw items : doc s = Some (JArray raw items) -> UnmarshalItems s = Some (map rawOf items).
Proof. intros H. unfold UnmarshalItems. by rewrite H. Qed.

Lemma scalars_collected fuel v st : doc (rawOf v) = Some v -> (length (rawOf v) < fuel)%nat ->
  forall x, x ∈ scalars v -> collected (collectSensitiveJSONScalars fuel (rawOf v) st) x.
Proof.
  revert v st. induction fuel as [|fuel IH]; intros v st Hd Hf x Hx; [lia|]. cbn [collectSensitiveJSONScalars].
  destruct (parseDoc_trim _ _ _ Hd) as [-> Hs]. pose proof Hs as (c & t & Ec & Hc). rewrite (bool_decide_eq_false_2 (rawOf v = [])) by (by rewrite Ec).
  assert (match v with JLiteral _ => True | _ => rawOf v <> lit "null" end) as Hnull.
  { destruct v; try done; intros E; rewrite E in Hd; vm_compute in Hd; congruence. }
  destruct v as [raw|raw|raw|raw items|raw fields]; [by apply not_elem_of_nil in Hx| | | |]; rewrite (bool_decide_eq_false_2 _ Hnull); cbn [orb].
  - destruct (startsWith_scalar _ Hs I) as (-> & -> & ->). unfold Valid. rewrite Hd. apply list_elem_of_singleton in Hx as ->.
    by apply collectWith_collects, append_appends.
  - rewrite (startsWith_shape _ _ Hs). cbn. cbn [rawOf] in Hd. unfold UnmarshalString. rewrite Hd. apply list_elem_of_singleton in Hx as ->.
    unfold fieldName. destruct (decodeString raw); [|done]. by apply collectWith_collects, append_appends.
  - rewrite !(startsWith_shape _ _ Hs). cbn. cbn [rawOf] in Hd. rewrite (doc_items _ _ _ Hd). cbn [scalars] in Hx.
    apply list_elem_of_concat in Hx as (l & Hx & Hl). apply list_elem_of_fmap in Hl as (item & -> & Hi).
    destruct (foldl_collects (fun st item => collectSensitiveJSONScalars fuel item st)
      (fun r y => exists item, item ∈ items /\ r = rawOf item /\ y ∈ scalars item) (map rawOf items) st) as [_ H].
    + intros st0 r _. split; [apply collectScalars_grows|]. intros y (it & Hit & -> & Hy).
      pose proof (parseDoc_shorter _ _ _ it Hd Hit). apply IH; [by eapply parseDoc_child|cbn [rawOf] in *; lia|done].
    + apply (H (rawOf item)); [by apply list_elem_of_fmap_2|eauto].
  - rewrite !(startsWith_shape _ _ Hs). cbn. cbn [rawOf] in Hd. rewrite (doc_object _ _ _ Hd). cbn [scalars] in Hx.
    apply list_elem_of_concat in Hx as (l & Hx & Hl). apply list_elem_of_fmap in Hl as ([k item] & -> & Hi).
    destruct (foldl_collects (fun st field => collectSensitiveJSONScalars fuel field.2 st)
      (fun r y => exists item, item ∈ map snd fields /\ r.2 = rawOf item /\ y ∈ scalars item) (map (fun '(key, v) => (fieldName key, rawOf v)) fields) st) as [_ H].
    + intros st0 r _. split; [apply collectScalars_grows|]. intros y (it & Hit & -> & Hy).
      pose proof (parseDoc_shorter _ _ _ it Hd Hit). apply IH; [by eapply parseDoc_child|cbn [rawOf] in *; lia|done].
    + apply (H (fieldName k, rawOf item)); [apply list_elem_of_fmap; by exists (k, item)|].
      exists item. split; [apply list_elem_of_fmap; by exists (k, item)|done].
Qed.

Abbreviation collectBody := (collectSensitiveBodyValues toLowerRune).

Lemma collectLines_grows collect lines st : (forall payload st, grows st (collect payload st)) -> grows st (collectLines collect lines st).
Proof.
  intros H. revert st. induction lines as [|line lines IH]; intros st; [done|]. cbn [collectLines]. destruct (_ || _); [done|].
  destruct (negb (Valid _)); [|etrans; [apply H|apply IH]]. destruct (negb _); [done|]. split; [done|done].
Qed.

Lemma collectBody_grows fuel body st : grows st (collectBody fuel body st).
Proof.
  revert body st. induction fuel as [|fuel IH]; intros body st; [done|]. cbn [collectSensitiveBodyValues].
  assert (grows st (st.1, false)) as Hf by (split; [done|done]).
  assert (forall text, grows st (collectSensitiveBodyStreamValues (collectBody fuel) text st)) as Hl by (intros; by apply collectLines_grows).
  case_bool_decide; [done|]. destruct (startsWith _ Byte.x7b).
  { destruct (parseSensitiveJSONObject _) as [fields|]; [|by destruct (hasLineBreak _)]. apply foldl_grows. intros st0 [name value] _.
    etrans; [|apply IH]. destruct (sensitiveJSONField _ _); [apply collectScalars_grows|done]. }
  destruct (startsWith _ Byte.x5b); [destruct (UnmarshalItems _); [by apply foldl_grows|done]|]. by destruct (negb _).
Qed.

Lemma fields_collected fuel s v st : doc s = Some v -> (length (rawOf v) < fuel)%nat ->
  forall x, x ∈ sensitiveScalars toLowerRune v -> collected (collectBody fuel s st) x.
Proof.
  revert s v st. induction fuel as [|fuel IH]; intros s v st Hd Hf x Hx; [lia|]. cbn [collectSensitiveBodyValues].
  destruct (parseDoc_trim _ _ _ Hd) as [-> Hs]. pose proof Hs as (c & t & Ec & Hc). rewrite (bool_decide_eq_false_2 (rawOf v = [])) by (by rewrite Ec).
  pose proof (parseDoc_raw _ _ _ Hd) as Hr.
  destruct v as [raw|raw|raw|raw items|raw fields]; try (by apply not_elem_of_nil in Hx); rewrite !(startsWith_shape _ _ Hs).
  - rewrite (bool_decide_eq_false_2 (Byte.x5b = Byte.x7b)) by done. rewrite (bool_decide_eq_true_2 (Byte.x5b = Byte.x5b)) by done. rewrite (doc_items _ _ _ Hr). cbn [sensitiveScalars] in Hx.
    apply list_elem_of_concat in Hx as (l & Hx & Hl). apply list_elem_of_fmap in Hl as (item & -> & Hi).
    destruct (foldl_collects (fun st item => collectBody fuel item st)
      (fun r y => exists item, item ∈ items /\ r = rawOf item /\ y ∈ sensitiveScalars toLowerRune item) (map rawOf items) st) as [_ H].
    + intros st0 r _. split; [apply collectBody_grows|]. intros y (it & Hit & -> & Hy).
      pose proof (parseDoc_shorter _ _ _ it Hr Hit). eapply IH; [by eapply parseDoc_child|cbn [rawOf] in *; lia|done].
    + apply (H (rawOf item)); [by apply list_elem_of_fmap_2|eauto].
  - rewrite (bool_decide_eq_true_2 (Byte.x7b = Byte.x7b)) by done. rewrite (doc_object _ _ _ Hr). cbn [sensitiveScalars] in Hx.
    apply list_elem_of_concat in Hx as (l & Hx & Hl). apply list_elem_of_fmap in Hl as ([k item] & -> & Hi).
    cbv iota beta. match goal with |- collected (foldl ?f _ _) _ => destruct (foldl_collects f
      (fun r y => exists key item, (key, item) ∈ fields /\ r = (fieldName key, rawOf item) /\
         y ∈ (if sensitiveJSONField toLowerRune (fieldName key) then scalars item else []) ++ sensitiveScalars toLowerRune item)
      (map (fun '(key, v) => (fieldName key, rawOf v)) fields) st) as [_ H] end.
    + intros st0 [name value] _. split.
      { etrans; [|apply collectBody_grows]. destruct (sensitiveJSONField toLowerRune name); [apply collectScalars_grows|done]. }
      intros y (key & it & Hit & [= -> ->] & Hy). assert (it ∈ children (JObject raw fields)) as Hch by (apply list_elem_of_fmap; by exists (key, it)).
      pose proof (parseDoc_shorter _ _ _ it Hr Hch). apply elem_of_app in Hy as [Hy|Hy].
      * destruct (sensitiveJSONField toLowerRune (fieldName key)); [|by apply not_elem_of_nil in Hy]. eapply collected_grows; [|apply collectBody_grows].
        apply scalars_collected; [by eapply parseDoc_child|lia|done].
      * eapply IH; [by eapply parseDoc_child|cbn [rawOf] in *; lia|done].
    + apply (H (fieldName k, rawOf item)); [apply list_elem_of_fmap; by exists (k, item)|]. by exists k, item.
Qed.
End collect.

(** ** Masking *)

Lemma ReplaceAll_none s old new : Contains s old = false -> ReplaceAll s old new = s.
Proof. unfold Contains, ReplaceAll. destruct s as [|b s]; [done|]. cbn [length replaceAllLoop]. by destruct (Index (b :: s) old). Qed.

Lemma ReplaceAll_some s old new : old <> [] -> Contains s old = true -> Contains (ReplaceAll s old new) new = true.
Proof.
  intros Hne. unfold Contains at 1, ReplaceAll. destruct (Index s old) as [n|] eqn:E; [|done]. intros _.
  destruct s as [|b s]; [by destruct old|]. cbn [length replaceAllLoop]. rewrite E. apply Contains_spec. eauto.
Qed.

(** Masking leaves a text as it is only if it has no value in it, or is itself marked. *)
Lemma maskAll_same value vs : maskAll value vs = value -> Forall (fun v => v <> []) vs ->
  (forall v, v ∈ vs -> Contains value v = false) \/ Contains value redactedValue = true.
Proof.
  assert (forall vs value, Forall (fun v => v <> []) vs ->
    (maskAll value vs = value /\ forall v, v ∈ vs -> Contains value v = false) \/ Contains (maskAll value vs) redactedValue = true) as H.
  { clear. intros vs. induction vs as [|v vs IH]; intros value Hf; [left; split; [done|by intros ? ?%not_elem_of_nil]|].
    apply Forall_cons in Hf as [Hv Hf]. unfold maskAll. cbn [foldl]. rewrite bool_decide_eq_false_2 by done. fold (maskAll (ReplaceAll value v redactedValue) vs).
    destruct (Contains value v) eqn:E.
    - right. pose proof (ReplaceAll_some value v redactedValue Hv E) as Hm.
      destruct (IH (ReplaceAll value v redactedValue) Hf) as [[-> _]|?]; done.
    - rewrite ReplaceAll_none by done. destruct (IH value Hf) as [[H1 H2]|?]; [|by right]. left. split; [done|].
      intros u [->|Hu]%elem_of_cons; auto. }
  intros E Hf. destruct (H vs value Hf) as [[_ ?]|Hm]; [by left|]. right. by rewrite E in Hm.
Qed.

Lemma containsSensitiveValue_false value vs v : containsSensitiveValue value vs = false -> v ∈ vs -> v <> [] -> Contains value v = false.
Proof.
  intros H Hv Hne. destruct (Contains value v) eqn:E; [|done]. unfold containsSensitiveValue in H.
  assert (existsb (fun v => negb (bool_decide (v = [])) && Contains value v) vs = true) as Hc; [|congruence].
  apply existsb_exists. exists v. split; [by apply list_elem_of_In|]. by rewrite E, bool_decide_eq_false_2.
Qed.

Section mask.
Context (toLowerRune : Z -> Z).

Abbreviation doc := (parseDoc maxNestingDepth).

(** A scanned value holds no sensitive scalar. *)
Lemma containsIn_scalars v vs x y : containsIn toLowerRune v vs = false -> x ∈ scalars v -> y ∈ vs -> y <> [] -> Contains x y = false.
Proof.
  intros H Hx Hy Hne. revert x Hx H. induction v as [raw|raw|raw|raw items IH|raw fields IH] using json_nested_ind; intros x Hx H.
  - by apply not_elem_of_nil in Hx.
  - apply list_elem_of_singleton in Hx as ->. by eapply containsSensitiveValue_false.
  - apply list_elem_of_singleton in Hx as ->. cbn [containsIn] in H. unfold fieldName. destruct (decodeString raw); [|done].
    apply orb_false_iff in H as [_ H]. by eapply containsSensitiveValue_false.
  - cbn [scalars containsIn] in *. apply list_elem_of_concat in Hx as (l & Hx & Hl). apply list_elem_of_fmap in Hl as (item & -> & Hi).
    rewrite Forall_forall in IH. apply (IH item Hi x Hx). destruct (containsIn toLowerRune item vs) eqn:E; [|done].
    assert (existsb (fun item => containsIn toLowerRune item vs) items = true); [|congruence]. apply existsb_exists. exists item. split; [by apply list_elem_of_In|done].
  - cbn [scalars containsIn] in *. apply list_elem_of_concat in Hx as (l & Hx & Hl). apply list_elem_of_fmap in Hl as ([k item] & -> & Hi).
    rewrite Forall_forall in IH. apply (IH (k, item) Hi x Hx). cbn [snd]. destruct (containsIn toLowerRune item vs) eqn:E; [|done].
    match type of H with existsb ?f _ = _ => assert (existsb f fields = true); [|congruence] end.
    apply existsb_exists. exists (k, item). split; [by apply list_elem_of_In|]. rewrite E. by rewrite orb_true_r.
Qed.

Lemma scanned_scalars raw vs depth v x y : containsSensitiveJSONScalar toLowerRune raw vs = false -> parseDoc depth raw = Some v ->
  x ∈ scalars v -> y ∈ vs -> y <> [] -> Contains x y = false.
Proof.
  unfold containsSensitiveJSONScalar, parseDoc. destruct (parseValue (S (length raw)) raw) as [[w rest]|] eqn:E; [|done].
  intros [H _]%orb_false_iff. destruct (parseValue (S depth) raw) as [[w' rest']|] eqn:E'; [|done]. cbn -[parseValue].
  destruct (skipSpace rest'); [|done]. intros [= ->]. pose proof (parseValue_agree _ _ _ _ _ E E') as [= -> _]. by apply containsIn_scalars.
Qed.

(** A scalar that was left as it is. *)
Lemma redactJSONScalar_same v vs raw x y : doc (rawOf v) = Some v -> redactJSONScalar (rawOf v) vs = (raw, false) ->
  match v with JString _ | JNumber _ => True | _ => False end -> Forall (fun v => v <> []) vs ->
  x ∈ scalars v -> y ∈ vs -> Contains x y = true -> Contains x redactedValue = true.
Proof.
  intros Hd E Hv Hf Hx Hy Hc. assert (y <> []) as Hne by (rewrite Forall_forall in Hf; by apply Hf).
  unfold redactJSONScalar in E. destruct (parseDoc_trim _ _ _ Hd) as [Et Hs]. rewrite Et in E. pose proof Hs as (c & t & Ec & _).
  rewrite (bool_decide_eq_false_2 (rawOf v = [])) in E by (by rewrite Ec). destruct v as [|raw0|raw0| |]; try done; apply list_elem_of_singleton in Hx as ->.
  - destruct (startsWith_scalar _ Hs I) as (H1 & H2 & H3). rewrite H1, H2, H3 in E. cbn [orb] in E.
    destruct (containsSensitiveValue _ vs) eqn:Ev; [done|]. cbn [rawOf] in Ev. by rewrite (containsSensitiveValue_false _ _ _ Ev Hy Hne) in Hc.
  - rewrite (startsWith_shape _ _ Hs), bool_decide_eq_true_2 in E by done. unfold UnmarshalString in E. rewrite Hd in E. unfold fieldName in *.
    destruct (decodeString raw0) as [value|] eqn:Ed; [|cbn in Hc; by destruct y]. cbn [default] in *. case_bool_decide as Em; [|done].
    destruct (maskAll_same _ _ Em Hf) as [Hn|?]; [|done]. by rewrite Hn in Hc.
Qed.

Lemma foldl_insert_unique (fields : list (bytes * json)) (m : gmap bytes bytes) key v :
  NoDup (map (fun field => fieldName field.1) fields) -> (key, v) ∈ fields ->
  foldl (fun m '(key, v) => <[fieldName key := rawOf v]> m) m fields !! fieldName key = Some (rawOf v).
Proof.
  revert m. induction fields as [|[k w] fields IH]; intros m Hn H; [by apply not_elem_of_nil in H|]. cbn [map] in Hn. apply NoDup_cons in Hn as [Hk Hn].
  cbn [foldl]. apply elem_of_cons in H as [[= -> ->]|H]; [|by apply IH]. clear IH. cbn [fst] in Hk.
  assert (forall fields (m : gmap bytes bytes), fieldName k ∉ map (fun field : bytes * json => fieldName field.1) fields ->
    foldl (fun m '(key, v) => <[fieldName key := rawOf v]> m) m fields !! fieldName k = m !! fieldName k) as Hother.
  { clear. induction fields as [|[k' w'] fields IH]; intros m H; [done|]. cbn [map foldl fst] in *. apply not_elem_of_cons in H as [H1 H2].
    rewrite IH by done. by rewrite lookup_insert_ne by done. }
  rewrite Hother by done. by rewrite lookup_insert_eq.
Qed.

(** A value that was left as it is holds a sensitive scalar only if that is marked already. *)
Lemma redactJSONValue_same fuel s v vs raw x y : doc s = Some v -> (length (rawOf v) < fuel)%nat -> uniqueNames v = true ->
  redactJSONValue toLowerRune fuel s vs = (raw, false) -> Forall (fun v => v <> []) vs ->
  x ∈ inner v -> y ∈ vs -> Contains x y = true -> Contains x redactedValue = true.
Proof.
  intros Hd Hl Hu E Hf Hx Hy Hc. revert s v raw Hd Hl Hu E Hx. induction fuel as [|fuel IH]; intros s v raw Hd Hl Hu E Hx; [lia|].
  cbn [redactJSONValue] in E. destruct (parseDoc_trim _ _ _ Hd) as [Et Hs]. rewrite Et in E.
  unfold redactJSONObject, redactJSONArray in E.
  set (redactItem := fun item => redactJSONItem (fun item => redactJSONValue toLowerRune fuel item vs) item vs) in *.
  assert (forall child, child ∈ children v -> uniqueNames child = true -> x ∈ scalars child -> (redactItem (rawOf child)).2 = false ->
          Contains x redactedValue = true) as Hchild.
  { intros child Hch Hcu Hcx Hr. pose proof (parseDoc_shorter _ _ _ _ Hd Hch) as Hlc. pose proof (parseDoc_child _ _ _ _ Hd Hch) as Hdc.
    unfold redactItem, redactJSONItem in Hr. destruct (redactJSONScalar (rawOf child) vs) as [r1 [|]] eqn:E1; [done|].
    destruct (redactJSONValue toLowerRune fuel (rawOf child) vs) as [r2 [|]] eqn:E2; [done|].
    pose proof (scalars_inner _ _ Hcx) as Hin. destruct child as [w|w|w|w items|w fields].
    - by apply not_elem_of_nil in Hcx.
    - by eapply (redactJSONScalar_same (JNumber w)).
    - by eapply (redactJSONScalar_same (JString w)).
    - eapply IH; [exact Hdc|lia|done|exact E2|done].
    - eapply IH; [exact Hdc|lia|done|exact E2|done]. }
  apply elem_of_inner in Hx as (child & Hch & Hcx). destruct v as [w|w|w|w items|w fields]; try by apply not_elem_of_nil in Hch.
  - rewrite !(startsWith_shape _ _ Hs) in E. rewrite (bool_decide_eq_false_2 (Byte.x5b = Byte.x7b)), (bool_decide_eq_true_2 (Byte.x5b = Byte.x5b)) in E by done.
    rewrite (doc_items _ _ _ Hd) in E. destruct (existsb snd _) eqn:Ex; [done|]. cbn [children uniqueNames] in *.
    apply (Hchild child Hch); [rewrite forallb_forall in Hu; by apply Hu, list_elem_of_In|done|].
    destruct (redactItem (rawOf child)).2 eqn:Er; [|done]. rewrite <- Ex. symmetry. apply existsb_exists.
    exists (redactItem (rawOf child)). split; [|done]. apply in_map, in_map. by apply list_elem_of_In.
  - rewrite !(startsWith_shape _ _ Hs) in E. rewrite (bool_decide_eq_true_2 (Byte.x7b = Byte.x7b)) in E by done.
    unfold UnmarshalFields in E. rewrite Hd in E. destruct (existsb _ _) eqn:Ex in E; [done|]. cbn [children uniqueNames] in *.
    apply andb_true_iff in Hu as [Hn%bool_decide_eq_true Hu]. pose proof Hch as Hch'. apply list_elem_of_fmap in Hch' as ([key c] & -> & Hkc). cbn [snd] in *.
    apply (Hchild c Hch); [rewrite forallb_forall in Hu; apply list_elem_of_In in Hkc; by apply (Hu _ Hkc)|done|].
    pose proof (foldl_insert_unique fields ∅ key c Hn Hkc) as Hlook. destruct (redactItem (rawOf c)).2 eqn:Er; [|done]. rewrite <- Ex. symmetry.
    apply existsb_exists. eexists (fieldName key, _). split; [apply list_elem_of_In, elem_of_map_to_list; rewrite map_lookup_imap, Hlook; reflexivity|].
    cbv beta iota. destruct (sensitiveJSONField toLowerRune (fieldName key)); [done|]. exact Er.
Qed.
End mask.

(** ** Credentials of a message *)

Inductive headerCredential (name value : bytes) : bytes -> Prop :=
| hc_value : headerCredential name value (TrimSpace value)
| hc_token scheme token : isAuthorization name = true -> Cut (TrimSpace value) (lit " ") = Some (scheme, token) ->
    headerCredential name value token
| hc_cookie part cookie content : isCookie name = true -> part ∈ sensitiveCookieParts name (TrimSpace value) ->
    Cut part (lit "=") = Some (cookie, content) -> TrimSpace content <> [] ->
    headerCredential name value (unquotedSensitiveCookieValue content).

(** The credentials of a request or a response with its body, and those handed over. *)
Inductive credential (toLowerRune : Z -> Z) (headers : Header) (body additionalValues : list bytes) : bytes -> Prop :=
| cr_additional v : v ∈ additionalValues -> credential toLowerRune headers body additionalValues v
| cr_header name values value v : (name, values) ∈ headers -> sensitiveHTTPHeader toLowerRune name = true -> value ∈ values ->
    headerCredential name value v -> credential toLowerRune headers body additionalValues v
| cr_body v : v ∈ body -> credential toLowerRune headers body additionalValues v.

Definition nonempty (st : collection) : Prop := Forall (fun v => v <> []) st.1.

Lemma collectWith_nonempty value st : nonempty st -> nonempty (collectWith appendSensitiveBodyValueWithStatus value st).
Proof.
  unfold nonempty, collectWith, appendSensitiveBodyValueWithStatus. cbn zeta. intros H. repeat case_match; simplify_eq/=; try done.
  apply Forall_app. split; [done|]. constructor; [|constructor]. intros E. rewrite E in *. done.
Qed.

Lemma foldl_preserves {A B} (P : A -> Prop) (f : A -> B -> A) l st : (forall st b, P st -> P (f st b)) -> P st -> P (foldl f st l).
Proof. intros H. revert st. induction l as [|b l IH]; intros st Hs; [done|]. cbn. apply IH. by apply H. Qed.

Lemma headerValues_collects name value st :
  let st' := (let '(values, ok) := appendSensitiveHeaderValuesWithStatus st.1 name value in (values, st.2 && ok)) in
  grows st st' /\ (nonempty st -> nonempty st') /\ forall v, headerCredential name value v -> collected st' v.
Proof.
  cbn zeta.
  set (inner := fun st0 : collection => appendSensitiveHeaderValuesWithStatus st0.1 name value).
  assert (forall (st0 : collection), st0.2 = true -> grows st0 (inner st0) /\ (nonempty st0 -> nonempty (inner st0)) /\
    forall v, headerCredential name value v -> collected (inner st0) v) as H.
  { intros [values c] Hc. cbn in Hc. subst c. unfold inner, appendSensitiveHeaderValuesWithStatus. cbn [fst].
    change appendSensitiveBodyCandidateWithStatus with appendSensitiveBodyValueWithStatus.
    set (append := appendSensitiveBodyValueWithStatus). set (s1 := collectWith append (TrimSpace value) (values, true)).
    destruct (collectWith_collects append (TrimSpace value) (values, true) append_appends) as [G1 C1]. fold s1 in G1, C1.
    match goal with |- context [if isCookie name then foldl ?f ?s ?l else ?s] => set (step := f); set (s2 := s) end.
    assert (grows s1 s2 /\ (nonempty s1 -> nonempty s2) /\
      forall scheme token, isAuthorization name = true -> Cut (TrimSpace value) (lit " ") = Some (scheme, token) -> collected s2 token) as (G2 & N2 & C2).
    { unfold s2. destruct (isAuthorization name); [|split_and!; [reflexivity|done|by intros]]. destruct (Cut _ _) as [[scheme token]|]; [|split_and!; [reflexivity|done|by intros]].
      case_bool_decide as Ht; cbn [negb].
      - split_and!; [reflexivity|done|]. intros sc tk _ [= <- <-] _ Hne. done.
      - destruct (collectWith_collects append token s1 append_appends) as [Ga Ca]. split_and!; [done|by apply collectWith_nonempty|].
        by intros sc tk _ [= <- <-]. }
    assert (grows s2 (if isCookie name then foldl step s2 (sensitiveCookieParts name (TrimSpace value)) else s2) /\
      (nonempty s2 -> nonempty (if isCookie name then foldl step s2 (sensitiveCookieParts name (TrimSpace value)) else s2)) /\
      forall part cookie content, isCookie name = true -> part ∈ sensitiveCookieParts name (TrimSpace value) ->
        Cut part (lit "=") = Some (cookie, content) -> TrimSpace content <> [] ->
        collected (if isCookie name then foldl step s2 (sensitiveCookieParts name (TrimSpace value)) else s2) (unquotedSensitiveCookieValue content)) as (G3 & N3 & C3).
    { destruct (isCookie name); [|split_and!; [reflexivity|done|by intros]].
      destruct (foldl_collects step (fun part x => exists cookie content, Cut part (lit "=") = Some (cookie, content) /\ TrimSpace content <> [] /\
        x = unquotedSensitiveCookieValue content) (sensitiveCookieParts name (TrimSpace value)) s2) as [Ga Ca].
      - intros st0 part _. unfold step. destruct (Cut part (lit "=")) as [[ck ct]|]; [|split; [reflexivity|by intros x (? & ? & ? & _)]].
        case_bool_decide as Hb; cbn [negb].
        + split; [reflexivity|]. intros x (? & ? & [= <- <-] & Hne & _). done.
        + destruct (collectWith_collects append (unquotedSensitiveCookieValue ct) st0 append_appends) as [Gb Cb]. split; [done|].
          by intros x (? & ? & [= <- <-] & _ & ->).
      - split_and!; [done| |].
        + intros Hn. apply (foldl_preserves nonempty); [|exact Hn]. intros st0 part Hst. unfold step. cbv beta. destruct (Cut part (lit "=")) as [[??]|]; [|exact Hst].
          case_match; [by apply collectWith_nonempty|exact Hst].
        + intros part ck ct _ Hp Hcut Hne. apply (Ca part); [done|]. eauto. }
    split_and!.
    - etrans; [exact G1|]. etrans; [exact G2|exact G3].
    - intros Hn. by apply N3, N2, collectWith_nonempty.
    - intros v Hv. destruct Hv as [|scheme token Ha Hcut|part ck ct Hck Hp Hcut Hne].
      + eapply collected_grows; [exact C1|]. by etrans.
      + eapply collected_grows; [by eapply C2|done].
      + by eapply C3. }
  destruct (H (st.1, true) eq_refl) as ((G1 & _) & N & C). unfold inner in *. cbn [fst] in *.
  destruct (appendSensitiveHeaderValuesWithStatus st.1 name value) as [values ok]. split_and!.
  - split; [done|]. by intros [? _]%andb_true_iff.
  - done.
  - intros v Hv [_ Hok]%andb_true_iff. by apply (C v Hv).
Qed.

Lemma foldl_fst {A B C} (f : A * C -> B -> A * C) (g : A -> B -> A) l st :
  (forall st b, (f st b).1 = g st.1 b) -> (foldl f st l).1 = foldl g st.1 l.
Proof. intros H. revert st. induction l as [|b l IH]; intros st; [done|]. cbn. by rewrite IH, H. Qed.

Section credentials.
Context (toLowerRune : Z -> Z).

(** What the two loops gather. *)
Lemma gatherValues_collects headers additionalValues complete :
  let st := (gatherValues toLowerRune headers additionalValues complete).1 in
  nonempty st /\ (st.2 = true -> complete = true) /\ forall v, credential toLowerRune headers [] additionalValues v -> collected st v.
Proof.
  cbn zeta. unfold gatherValues.
  set (headerStep := fun (st : collection) '(name, values) => if negb (sensitiveHTTPHeader toLowerRune name) then st else
    foldl (fun st value => let '(values, ok) := appendSensitiveHeaderValuesWithStatus st.1 name value in (values, st.2 && ok)) st values).
  rewrite (foldl_fst _ headerStep).
  2: { intros [st b] [name values]. unfold headerStep. cbn [fst]. destruct (negb _); [done|].
    rewrite (foldl_fst _ (fun st value => let '(values, ok) := appendSensitiveHeaderValuesWithStatus st.1 name value in (values, st.2 && ok))); [done|].
    intros [[vs c] sh] value. cbn [fst snd]. by destruct (appendSensitiveHeaderValuesWithStatus vs name value). }
  rewrite (foldl_fst _ (fun st value => collectWith appendSensitiveBodyValueWithStatus value st)).
  2: { intros [[vs c] sh] value. unfold collectWith. cbn [fst snd]. by destruct (appendSensitiveBodyValueWithStatus vs value). }
  cbn [fst]. set (s1 := foldl (fun (st : collection) value => collectWith appendSensitiveBodyValueWithStatus value st) ([], complete) additionalValues).
  destruct (foldl_collects (fun st value => collectWith appendSensitiveBodyValueWithStatus value st) (fun v x => x = v) additionalValues ([], complete)) as [G1 C1].
  { intros st value _. destruct (collectWith_collects appendSensitiveBodyValueWithStatus value st append_appends). split; [done|]. by intros x ->. }
  fold s1 in G1, C1.
  assert (nonempty s1) as N1.
  { apply (foldl_preserves nonempty); [intros; by apply collectWith_nonempty|constructor]. }
  destruct (foldl_collects headerStep (fun h x => sensitiveHTTPHeader toLowerRune h.1 = true /\ exists value, value ∈ h.2 /\ headerCredential h.1 value x) headers s1) as [G2 C2].
  { intros st [name values] _. unfold headerStep. cbn [fst snd]. destruct (sensitiveHTTPHeader toLowerRune name) eqn:Es; cbn [negb]; [|split; [reflexivity|by intros x [? _]]].
    destruct (foldl_collects (fun st value => let '(values, ok) := appendSensitiveHeaderValuesWithStatus st.1 name value in (values, st.2 && ok))
      (fun value x => headerCredential name value x) values st) as [Ga Ca].
    - intros st0 value _. by destruct (headerValues_collects name value st0) as (? & _ & ?).
    - split; [done|]. intros x (_ & value & Hv & Hx). by eapply Ca. }
  split_and!.
  - apply (foldl_preserves nonempty); [|done]. intros st [name values] Hst. unfold headerStep. destruct (negb _); [done|].
    apply (foldl_preserves nonempty); [|done]. intros st0 value. by destruct (headerValues_collects name value st0) as (_ & ? & _).
  - intros H. by apply G1, G2.
  - intros v Hv. destruct Hv as [v Hv|name values value v Hh Hs Hval Hc|v Hv]; [| |by apply not_elem_of_nil in Hv].
    + eapply collected_grows; [by apply (C1 v)|done].
    + apply (C2 (name, values)); [done|]. cbn. eauto.
Qed.

(** The values a body is masked with. *)
Lemma allValues_collect headers additionalValues complete body v :
  parseDoc maxNestingDepth body = Some v ->
  let gathered := (gatherValues toLowerRune headers additionalValues complete).1 in
  let bodyValues := SensitiveHTTPBodyValuesWithStatus toLowerRune (Some body) in
  let st := foldl (fun st value => collectWith appendSensitiveBodyValueWithStatus value st) gathered bodyValues.1 in
  nonempty st /\ forall x, credential toLowerRune headers (sensitiveScalars toLowerRune v) additionalValues x ->
  st.2 && bodyValues.2 = true -> TrimSpace x <> [] -> TrimSpace x ∈ st.1.
Proof.
  intros Hd. cbn zeta. destruct (gatherValues_collects headers additionalValues complete) as (N & _ & C).
  set (gathered := (gatherValues toLowerRune headers additionalValues complete).1) in *.
  set (bodyValues := SensitiveHTTPBodyValuesWithStatus toLowerRune (Some body)).
  destruct (foldl_collects (fun st value => collectWith appendSensitiveBodyValueWithStatus value st) (fun v x => x = v) bodyValues.1 gathered) as [G1 C1].
  { intros st value _. destruct (collectWith_collects appendSensitiveBodyValueWithStatus value st append_appends). split; [done|]. by intros x ->. }
  split; [apply (foldl_preserves nonempty); [intros; by apply collectWith_nonempty|done]|].
  intros x Hx [H1 H2]%andb_true_iff Hne.
  assert (collected (foldl (fun st value => collectWith appendSensitiveBodyValueWithStatus value st) gathered bodyValues.1) x -> TrimSpace x ∈
    (foldl (fun st value => collectWith appendSensitiveBodyValueWithStatus value st) gathered bodyValues.1).1) as Hgo by (intros Hc; by apply Hc).
  destruct Hx as [x Hx|name values value x Hh Hs Hval Hc|x Hx].
  - apply Hgo. eapply collected_grows; [|exact G1]. apply C. by apply cr_additional.
  - apply Hgo. eapply collected_grows; [|exact G1]. apply C. by eapply cr_header.
  - assert (TrimSpace x ∈ bodyValues.1) as Hb.
    { assert (collected bodyValues x) as Hc; [|by apply Hc]. unfold bodyValues, SensitiveHTTPBodyValuesWithStatus.
      eapply fields_collected; [exact Hd| |done]. destruct (parseDoc_text _ _ _ Hd) as (sp & sp' & -> & _). rewrite !length_app. lia. }
    specialize (C1 _ _ Hb eq_refl H1). rewrite TrimSpace_idem in C1. by apply C1.
Qed.

(** A JSON text is masked as JSON. *)
Lemma jsonBody_valid body v : parseDoc maxNestingDepth body = Some v ->
  TrimPrefix body utf8ByteOrderMark = body /\ looksLikeJSONValue body = true /\ Valid body = true.
Proof.
  intros Hd. destruct (parseDoc_trim _ _ _ Hd) as [Et (b & t & Eb & Hs)]. split_and!.
  - unfold TrimPrefix, CutPrefix. destruct (HasPrefix body utf8ByteOrderMark) eqn:E; [|done]. exfalso. apply HasPrefix_spec in E as [rest ->].
    unfold parseDoc in Hd. cbn [utf8ByteOrderMark app] in Hd. destruct (parseValue _ _) as [[w r]|] eqn:Ep; [|done].
    destruct (parseValue_local _ _ _ _ Ep) as (sp & Esp & Hsp & _ & _). destruct (parseValue_shape _ _ _ _ Ep) as (c & u & Ec & _ & [Hc _] & _).
    rewrite Ec in Esp. destruct sp as [|c' sp]; injection Esp as <- _; [done|]. apply Forall_cons in Hsp as [Hsp _]. done.
  - unfold looksLikeJSONValue. rewrite Et. rewrite bool_decide_eq_false_2 by (by rewrite Eb). destruct (_ || _); [done|].
    unfold Valid. by rewrite (parseDoc_raw _ _ _ Hd).
  - unfold Valid. by rewrite Hd.
Qed.
End credentials.

(** ** Masking a text *)

(** Every byte with a mark that says whether it is of the body. *)
Definition tagged := list (Byte.byte * bool).

Definition original (body : bytes) : tagged := map (fun b => (b, true)) body.
Definition marker : tagged := map (fun b => (b, false)) redactedValue.

(** Texts in which parts were replaced by the marker. *)
Inductive masked (body : bytes) : tagged -> Prop :=
| masked_body : masked body (original body)
| masked_replace a w b : masked body (a ++ w ++ b) -> masked body (a ++ marker ++ b).

(** A part that is of the body throughout. *)
Definition kept (t w : tagged) : Prop := (exists a b, t = a ++ w ++ b) /\ Forall (fun x => x.2 = true) w.

Fixpoint maskLoop (fuel : nat) (t : tagged) (v : bytes) : tagged :=
  match fuel with
  | O => t
  | S fuel =>
      match Index (map fst t) v with
      | Some n => take n t ++ marker ++ maskLoop fuel (drop (n + length v) t) v
      | None => t
      end
  end.

Lemma maskLoop_text fuel t v : map fst (maskLoop fuel t v) = replaceAllLoop fuel (map fst t) v redactedValue.
Proof.
  revert t. induction fuel as [|fuel IH]; intros t; [done|]. cbn [maskLoop replaceAllLoop]. destruct (Index (map fst t) v); [|done].
  rewrite !map_app, IH. f_equal; [by rewrite <- firstn_map|]. f_equal. by rewrite <- skipn_map.
Qed.

Lemma maskLoop_masked body fuel p t v : masked body (p ++ t) -> masked body (p ++ maskLoop fuel t v).
Proof.
  revert p t. induction fuel as [|fuel IH]; intros p t H; [done|]. cbn [maskLoop]. destruct (Index (map fst t) v) as [n|]; [|done].
  assert (masked body ((p ++ take n t ++ marker) ++ drop (n + length v) t)) as H'.
  { rewrite <- (take_drop n t), <- (take_drop (length v) (drop n t)), drop_drop in H. rewrite app_assoc in H.
    apply masked_replace in H. by rewrite <- !app_assoc in *. }
  apply IH in H'. by rewrite <- !app_assoc in H'.
Qed.

(** A kept part lies on one side of a marker. *)
Lemma kept_split x y w : kept (x ++ marker ++ y) w -> kept x w \/ kept y w.
Proof.
  intros [(a & b & E) Hw]. destruct (decide (length a + length w <= length x)%nat) as [H1|H1].
  - left. split; [|done]. exists a, (take (length x - (length a + length w)) b).
    assert (take (length x) (x ++ marker ++ y) = x) as Hx by apply take_app_length. rewrite E in Hx.
    rewrite !take_app_ge in Hx by lia. by rewrite Nat.sub_add_distr.
  - destruct (decide (length x + length marker <= length a)%nat) as [H2|H2].
    + right. split; [|done]. exists (drop (length x + length marker) a), b.
      assert (drop (length x + length marker) (x ++ marker ++ y) = y) as Hy.
      { rewrite drop_app_ge by lia. rewrite drop_app_ge by lia. replace (length x + length marker - length x - length marker)%nat with 0%nat by lia. done. }
      rewrite E in Hy. rewrite <- Hy. by rewrite drop_app_le by lia.
    + destruct w as [|c w]; [left; split; [by exists [], x|done]|]. exfalso.
      (* the first byte of the part or the first of the marker is in both *)
      set (k := (length a `max` length x)%nat).
      assert (exists e, marker !! (k - length x)%nat = Some e) as [e He].
      { apply lookup_lt_is_Some. unfold k. destruct (Nat.max_spec (length a) (length x)) as [[? ->]|[? ->]]; [|lia]. rewrite Nat.sub_diag. cbn. lia. }
      assert ((x ++ marker ++ y) !! k = Some e) as Hk.
      { rewrite lookup_app_r by (unfold k; lia). rewrite lookup_app_l; [done|]. by apply lookup_lt_Some in He. }
      rewrite E in Hk. rewrite lookup_app_r in Hk by (unfold k; lia). rewrite lookup_app_l in Hk by (unfold k; cbn in *; lia).
      rewrite Forall_lookup in Hw. specialize (Hw _ _ Hk).
      apply list_elem_of_lookup_2, list_elem_of_fmap in He as (? & -> & _). done.
Qed.

Lemma maskLoop_kept fuel t v w : v <> [] -> (length t <= fuel)%nat -> kept (maskLoop fuel t v) w -> w <> [] ->
  kept t w /\ map fst w <> v.
Proof.
  intros Hv. revert t. induction fuel as [|fuel IH]; intros t Hl Hk Hw.
  { destruct t; [|cbn in Hl; lia]. destruct Hk as [([|? a] & b & E) _]; [|done]. by destruct w. }
  cbn [maskLoop] in Hk. destruct (Index (map fst t) v) as [n|] eqn:Ei.
  - apply Index_Some in Ei as (Hp & Hn & Hmin). apply kept_split in Hk as [[(a & b & E) Ht]|Hk].
    + split; [split; [|done]|].
      * exists a, (b ++ drop n t). rewrite <- (take_drop n t) at 1. rewrite E. by rewrite <- !app_assoc.
      * intros Ev. assert (length a < n)%nat as Ha.
        { apply (f_equal length) in E. rewrite !length_app, length_take in E. destruct w; [done|]. cbn in E. lia. }
        specialize (Hmin _ Ha). rewrite <- (take_drop n t), E in Hmin. rewrite !map_app, Ev, <- !app_assoc in Hmin.
        rewrite <- (length_map fst a) in Hmin. rewrite drop_app_length in Hmin. rewrite HasPrefix_here in Hmin. done.
    + destruct (IH (drop (n + length v) t)) as [[(a & b & E) Ht] Hne]; [|done|done|].
      { rewrite length_drop. destruct v; [done|]. cbn. lia. }
      split; [split; [|done]|done]. exists (take (n + length v) t ++ a), b. rewrite <- (take_drop (n + length v) t) at 1. by rewrite E, <- !app_assoc.
  - split; [done|]. intros Ev. destruct Hk as [(a & b & ->) _]. rewrite !map_app, Ev in Ei.
    assert (Contains (map fst a ++ v ++ map fst b) v = true) as Hc by (apply Contains_spec; eauto). unfold Contains in Hc. by rewrite Ei in Hc.
Qed.

(** Masking with all values. *)
Lemma mask_all body vs : Forall (fun v => v <> []) vs ->
  exists t, map fst t = foldl (fun redacted value => ReplaceAll redacted value redactedValue) body vs /\ masked body t /\
  forall w, kept t w -> w <> [] -> map fst w ∉ vs.
Proof.
  intros Hvs. assert (forall t, masked body t -> exists t', map fst t' = foldl (fun redacted value => ReplaceAll redacted value redactedValue) (map fst t) vs /\
    masked body t' /\ forall w, kept t' w -> w <> [] -> kept t w /\ map fst w ∉ vs) as H.
  { induction Hvs as [|v vs Hv Hvs IH]; intros t Ht; [exists t; split_and!; [done|done|intros w Hw _; split; [done|apply not_elem_of_nil]]|].
    cbn [foldl]. destruct (IH (maskLoop (length t) t v)) as (t' & E & Hm & Hk); [by apply (maskLoop_masked body _ [])|].
    exists t'. split_and!; [|done|].
    - rewrite E, maskLoop_text. unfold ReplaceAll. by rewrite length_map.
    - intros w Hw Hne. destruct (Hk w Hw Hne) as [Hw' Hn]. destruct (maskLoop_kept _ _ _ _ Hv (Nat.le_refl _) Hw' Hne) as [H1 H2].
      split; [done|]. by apply not_elem_of_cons. }
  destruct (H (original body) (masked_body body)) as (t & E & Hm & Hk). exists t. split_and!; [|done|intros w Hw Hne; by apply Hk].
  rewrite E. f_equal. unfold original. rewrite map_map. apply map_id.
Qed.

(** ** What is stored *)

Section stored.
Context (toLowerRune : Z -> Z) (zstdRead : bytes -> Z -> option bytes).

(** The text of a body: the body without an encoding, what a zstd reader makes of it up to the
    limit, and none when the reader fails or the encoding is another one. *)
Definition bodyText (headers : Header) (body : bytes) : option bytes :=
  let encoding := TrimSpace (Get headers contentEncodingKey) in
  if bool_decide (encoding = []) then Some body
  else if captureBodyUsesZstd toLowerRune encoding then decodeZstdCaptureBody zstdRead body else None.

(** The text of a body is masked with all values, or replaced; a body without a text is replaced. *)
Lemma redactHTTP_masks headers body additionalValues complete headers' r :
  redactHTTP toLowerRune zstdRead headers (Some body) additionalValues complete = (headers', Some r) ->
  r = redactedValue \/ exists text, bodyText headers body = Some text /\
  let bodyValues := SensitiveHTTPBodyValuesWithStatus toLowerRune (Some text) in
  let gathered := gatherValues toLowerRune headers additionalValues complete in
  let st := foldl (fun st value => collectWith appendSensitiveBodyValueWithStatus value st) gathered.1 bodyValues.1 in
  r = redactHTTPBody toLowerRune text st.1 /\ st.2 && bodyValues.2 = true /\ gathered.2 = false.
Proof.
  unfold redactHTTP, bodyText. set (e := TrimSpace (Get headers contentEncodingKey)).
  destruct (gatherValues toLowerRune headers additionalValues complete) as [[values ok] short]. cbn [fst snd].
  assert (forall hs b text, redactDecoded toLowerRune hs b (Some text) (values, ok, short) = (headers', Some r) ->
    r = redactedValue \/ exists text', Some text = Some text' /\
      let bodyValues := SensitiveHTTPBodyValuesWithStatus toLowerRune (Some text') in
      let st := foldl (fun st value => collectWith appendSensitiveBodyValueWithStatus value st) (values, ok) bodyValues.1 in
      r = redactHTTPBody toLowerRune text' st.1 /\ st.2 && bodyValues.2 = true /\ short = false) as Hgo.
  { intros hs b text. unfold redactDecoded. destruct (SensitiveHTTPBodyValuesWithStatus toLowerRune (Some text)) as [bodyValues bodyOk] eqn:Eb.
    match goal with |- context [foldl ?f (values, ok) bodyValues] => destruct (foldl f (values, ok) bodyValues) as [all allOk] eqn:Ef end.
    destruct (negb (allOk && bodyOk) || short) eqn:E; [intros [= _ <-]; by left|]. intros [= _ <-]. right. exists text. split; [done|]. rewrite Eb. cbn [fst snd].
    rewrite Ef. cbn [fst snd]. apply orb_false_iff in E as [E ->]. apply negb_false_iff in E. done. }
  destruct (decide (e = [])) as [He|He].
  - rewrite (bool_decide_eq_true_2 _ He). cbn [negb andb]. rewrite He. change (captureBodyUsesZstd toLowerRune []) with false. cbv iota. apply Hgo.
  - rewrite (bool_decide_eq_false_2 _ He). cbn [negb andb]. destruct (captureBodyUsesZstd toLowerRune e); cbn [negb]; [|intros [= _ <-]; by left].
    destruct (decodeZstdCaptureBody zstdRead body) as [text|]; [apply Hgo|intros [= _ <-]; by left].
Qed.

Lemma redactHTTP_plain headers body additionalValues complete headers' r :
  TrimSpace (Get headers contentEncodingKey) = [] ->
  redactHTTP toLowerRune zstdRead headers (Some body) additionalValues complete = (headers', Some r) ->
  r = redactedValue \/
  let bodyValues := SensitiveHTTPBodyValuesWithStatus toLowerRune (Some body) in
  let gathered := gatherValues toLowerRune headers additionalValues complete in
  let st := foldl (fun st value => collectWith appendSensitiveBodyValueWithStatus value st) gathered.1 bodyValues.1 in
  r = redactHTTPBody toLowerRune body st.1 /\ st.2 && bodyValues.2 = true /\ gathered.2 = false.
Proof.
  intros He [->|(text & Et & H)]%redactHTTP_masks; [by left|]. right. unfold bodyText in Et.
  rewrite (bool_decide_eq_true_2 _ He) in Et. by injection Et as ->.
Qed.

(** C12. A stored JSON object or array holds no credential of its message in a value.  The text of the
    body, which may have come compressed, is one object or array in which no two fields of one
    object have the same name.  Then the placeholder is stored, or: in whatever way the stored
    bytes are read as JSON, no string and no number that is an item of an array or the value of
    a field contains the value of a sensitive header, its token, a cookie, a value handed over,
    or a scalar that stood under a sensitive field.  The one exception is a text that already
    came with the marker in it, in a body that is stored as it came.  (Names of fields are not
    covered, nor is a body that is a single string.)  A body without a readable text is not
    stored. *)
Theorem redactHTTP_json_masked headers body additionalValues complete headers' r :
  redactHTTP toLowerRune zstdRead headers (Some body) additionalValues complete = (headers', Some r) ->
  match bodyText headers body with
  | None => r = redactedValue
  | Some text =>
      forall v, parseDoc maxNestingDepth text = Some v -> uniqueNames v = true ->
      r = redactedValue \/
      forall depth t x secret, parseDoc depth r = Some t -> x ∈ inner t ->
        credential toLowerRune headers (sensitiveScalars toLowerRune v) additionalValues secret -> TrimSpace secret <> [] ->
        Contains x (TrimSpace secret) = true -> r = text /\ Contains x redactedValue = true
  end.
Proof.
  intros [->|(body' & -> & Hr & Hok & _)]%redactHTTP_masks; [by destruct (bodyText headers body); [left|]|].
  clear body. rename body' into body. intros v Hd Hu.
  destruct (allValues_collect toLowerRune headers additionalValues complete body v Hd) as [Hne Hall].
  match type of Hr with context [foldl ?f ?s ?l] => set (st := foldl f s l) in * end. destruct (jsonBody_valid body v Hd) as (Hb & Hj & Hv).
  unfold redactHTTPBody in Hr. rewrite Hb, Hj in Hr. unfold redactJSONCaptureBody in Hr. rewrite Hv in Hr. unfold redactValidJSONCaptureBody in Hr.
  destruct (containsUnredactableSensitiveJSON _ _ _ _); [by left|]. destruct (redactJSON toLowerRune body st.1) as [value [|]] eqn:Er.
  - destruct (containsSensitiveJSONScalar toLowerRune value st.1) eqn:Es; [by left|]. right. intros depth t x secret Ht Hx Hc Hs Hcon. exfalso.
    subst r. rewrite (scanned_scalars _ _ _ _ _ x (TrimSpace secret) Es Ht) in Hcon; [done| |by apply Hall|done].
    unfold inner in Hx. apply list_elem_of_concat in Hx as (l & Hx & Hl). apply list_elem_of_fmap in Hl as (c & -> & Hch).
    destruct t as [| | |raw items|raw fields]; try by apply not_elem_of_nil in Hch.
    + cbn [scalars children] in *. apply list_elem_of_concat. exists (scalars c). split; [done|]. by apply list_elem_of_fmap_2.
    + cbn [scalars children] in *. apply list_elem_of_fmap in Hch as ([k w] & -> & Hk). apply list_elem_of_concat. exists (scalars w). split; [done|].
      apply list_elem_of_fmap. by exists (k, w).
  - destruct (containsSensitiveBodyMarker toLowerRune body); [by left|]. right. intros depth t x secret Ht Hx Hc Hs Hcon. split; [done|]. subst r.
    assert (t = v) as ->.
    { unfold parseDoc in Ht, Hd. destruct (parseValue (S depth) body) as [[w1 r1]|] eqn:E1; [|done].
      destruct (parseValue (S maxNestingDepth) body) as [[w2 r2]|] eqn:E2; [|done]. cbn -[parseValue] in Ht, Hd.
      pose proof (parseValue_agree _ _ _ _ _ E1 E2) as [= -> ->]. destruct (skipSpace r2); [|done]. congruence. }
    eapply (redactJSONValue_same toLowerRune (S (length body)) body v st.1 value x (TrimSpace secret)); [done| |done|exact Er|done|done|by apply Hall|done].
    destruct (parseDoc_text _ _ _ Hd) as (sp & sp' & -> & _). rewrite !length_app. lia.
Qed.

(** Where a credential stays.  The value of the authorization header is found: as the name of
    a field, when nothing else of the body is masked; in a body that is a single string; under
    the first of two fields of one name; and a value of a sensitive field is found elsewhere
    in a body that starts with a byte order mark. *)
Theorem redactHTTP_leaks :
  let secret := lit "secret-token" in
  let headers := [(lit "Authorization", [lit "Bearer " ++ secret])] in
  let stored headers body := (redactHTTP toLowerRune zstdRead headers (Some body) [] true).2 in
  (forall body, body ∈ [jlit "{'" ++ secret ++ jlit "':'value'}"; jlit "'use " ++ secret ++ jlit " now'";
      jlit "{'a':'" ++ secret ++ jlit "','a':'x'}"] -> stored headers body = Some body) /\
  stored headers (jlit "['use " ++ secret ++ jlit " now']") = Some (jlit "['use [REDACTED] now']") /\
  stored [] (utf8ByteOrderMark ++ jlit "{'access_token':'" ++ secret ++ jlit "','note':'" ++ secret ++ jlit "'}") =
    Some (jlit "{'access_token':'[REDACTED]','note':'" ++ secret ++ jlit "'}").
Proof.
  cbn zeta. split_and!; [|vm_compute; reflexivity|vm_compute; reflexivity].
  intros body Hb. repeat (apply elem_of_cons in Hb as [->|Hb]; [vm_compute; reflexivity|]). by apply not_elem_of_nil in Hb.
Qed.

(** Nothing masking writes makes a field of an event stream. *)
Lemma masked_no_data body t : masked body t -> Contains body (lit "data:") = false -> Contains (map fst t) (lit "data:") = false.
Proof.
  intros Hm Hb. destruct (Contains (map fst t) (lit "data:")) eqn:E; [|done]. apply Contains_spec in E as (a & b & E). exfalso.
  assert (Forall (fun x => x.2 = false -> x.1 ∈ redactedValue) t /\ forall w, kept t w -> Contains body (map fst w) = true) as [Hf Hk].
  { clear -Hm. induction Hm as [|a w b Hm [IH1 IH2]].
    - split; [apply Forall_forall; intros x Hx; apply list_elem_of_fmap in Hx as (? & -> & _); done|]. intros w [(a & b & E) _].
      apply Contains_spec. exists (map fst a), (map fst b). rewrite <- !map_app, <- E. unfold original. rewrite map_map. symmetry. apply map_id.
    - apply Forall_app in IH1 as [Fa [_ Fb]%Forall_app]. split.
      + apply Forall_app. split; [done|]. apply Forall_app. split; [|done]. apply Forall_forall. intros x Hx. by apply list_elem_of_fmap in Hx as (? & -> & Hx).
      + intros u [[(a1 & b1 & E) Hu]|[(a1 & b1 & E) Hu]]%kept_split; apply IH2; (split; [|done]).
        * exists a1, (b1 ++ w ++ b). by rewrite E, <- !app_assoc.
        * exists (a ++ w ++ a1), b1. by rewrite E, <- !app_assoc. }
  assert (exists w, map fst w = lit "data:" /\ exists a' b', t = a' ++ w ++ b') as (w & Ew & a' & b' & ->).
  { exists (take 5 (drop (length a) t)). split.
    - rewrite <- firstn_map, <- skipn_map, E, drop_app_length. done.
    - exists (take (length a) t), (drop 5 (drop (length a) t)). by rewrite !take_drop. }
  assert (Forall (fun x => x.2 = true) w) as Hw.
  { apply Forall_app in Hf as [_ [Hf _]%Forall_app]. rewrite Forall_forall in Hf |- *. intros x Hx. destruct x.2 eqn:Ex; [done|]. specialize (Hf x Hx Ex).
    assert (x.1 ∈ lit "data:") as Hd by (rewrite <- Ew; by apply list_elem_of_fmap_2).
    assert (Forall (fun b => b ∉ redactedValue) (lit "data:")) as Hall by (apply (bool_decide_unpack _); vm_compute; exact I).
    rewrite Forall_forall in Hall. by destruct (Hall _ Hd). }
  specialize (Hk w ltac:(split; [eauto|done])). rewrite Ew in Hk. congruence.
Qed.

Lemma captureLines_parts s line x : x ∈ captureLines s line -> exists a b, line ++ s = a ++ x ++ b.
Proof.
  remember (length s) as n eqn:En. revert s line En. induction (lt_wf n) as [n _ IH]. intros s line ->.
  destruct s as [|b s]; cbn [captureLines].
  { case_bool_decide; [by intros ?%not_elem_of_nil|]. intros ->%list_elem_of_singleton. exists [], []. by rewrite !app_nil_r. }
  assert (forall p s', line ++ b :: s = p ++ s' -> (length s' < length (b :: s))%nat -> x ∈ p :: captureLines s' [] -> exists a b', line ++ b :: s = a ++ x ++ b') as Hgo.
  { intros p s' E Hl [->|Hx]%elem_of_cons; [exists [], s'; by rewrite E|].
    destruct (IH (length s') Hl s' [] eq_refl Hx) as (a & b' & E'). cbn in E'. exists (p ++ a), b'. by rewrite E, E', <- app_assoc. }
  case_bool_decide.
  - destruct s as [|c s']; [intros ->%list_elem_of_singleton; exists [], []; by rewrite app_nil_r|]. case_bool_decide.
    + intros Hx. eapply Hgo; [|  |exact Hx]; [by rewrite <- app_assoc|cbn; lia].
    + intros Hx. eapply Hgo; [|  |exact Hx]; [by rewrite <- app_assoc|cbn; lia].
  - case_bool_decide.
    + intros Hx. eapply Hgo; [|  |exact Hx]; [by rewrite <- app_assoc|cbn; lia].
    + intros Hx. destruct (IH (length s) ltac:(cbn; lia) s _ eq_refl Hx) as (a & b' & E). exists a, b'. by rewrite <- E, <- app_assoc.
Qed.

Lemma TrimSpace_part s : exists a b, s = a ++ TrimSpace s ++ b.
Proof.
  unfold TrimSpace, TrimRightFunc. destruct (trimRightLoop_spec (length (TrimLeftFunc IsSpace s)) (TrimLeftFunc IsSpace s) ltac:(lia)) as [_ [k ->]].
  unfold TrimLeftFunc. destruct (trimLeftLoop_drop (length s) IsSpace s) as [j ->].
  exists (take j s), (drop k (drop j s)). by rewrite !take_drop.
Qed.

Lemma no_data_not_handled text vs : Contains text (lit "data:") = false -> redactSSEJSON toLowerRune text vs = (text, false).
Proof.
  intros H. unfold redactSSEJSON. assert (forall lines st, (forall l, l ∈ lines -> l ∈ splitCaptureLines text) -> sse_changed st = false -> sse_handled st = false ->
    exists ls, sseLoop toLowerRune lines vs st = Some (MkSSEState ls false false)) as Hl.
  { induction lines as [|line lines IH]; intros [ls ch hd] Hin Hc Hh; cbn in Hc, Hh; subst; [by exists ls|]. cbn [sseLoop].
    assert (sseLine toLowerRune line vs = Some (line, false, false)) as ->.
    { unfold sseLine, CutPrefix. destruct (HasPrefix (TrimSpace line) (lit "data:")) eqn:E; [|done]. exfalso. apply HasPrefix_spec in E as [rest E].
      destruct (captureLines_parts text [] line (Hin _ (list_elem_of_here _ _))) as (a & b & Et). destruct (TrimSpace_part line) as (c & d & El).
      rewrite E in El. cbn [app] in Et. assert (Contains text (lit "data:") = true); [|congruence]. apply Contains_spec.
      exists (a ++ c), (rest ++ d ++ b). by rewrite Et, El, <- !app_assoc. }
    apply IH; [intros l Hl; apply Hin; by apply list_elem_of_further|done|done]. }
  destruct (Hl (splitCaptureLines text) (MkSSEState [] false false)) as [ls ->]; [done|done|done|]. done.
Qed.

(** C13. A stored plain text holds no credential of its message.  The text is the body, without a
    byte order mark, in which parts were replaced by the marker, and no part that is left of
    the body is the value of a sensitive header, its token, a cookie, or a value handed over;
    or it is the marker alone. *)
Theorem redactHTTP_text_masked headers body additionalValues complete headers' r :
  TrimSpace (Get headers contentEncodingKey) = [] ->
  let text := TrimPrefix body utf8ByteOrderMark in
  looksLikeJSONValue text = false -> Contains text (lit "data:") = false ->
  redactHTTP toLowerRune zstdRead headers (Some body) additionalValues complete = (headers', Some r) ->
  r = redactedValue \/
  exists t, map fst t = r /\ masked text t /\
    forall part secret, kept t part -> credential toLowerRune headers [] additionalValues secret -> TrimSpace secret <> [] ->
    map fst part <> TrimSpace secret.
Proof.
  intros He text Hj Hdata E. destruct (redactHTTP_plain _ _ _ _ _ _ He E) as [->|(Hr & Hok & _)]; [by left|]. cbn zeta in Hr, Hok.
  set (bodyValues := SensitiveHTTPBodyValuesWithStatus toLowerRune (Some body)) in *.
  destruct (gatherValues_collects toLowerRune headers additionalValues complete) as (N & _ & C).
  set (gathered := gatherValues toLowerRune headers additionalValues complete) in *.
  set (st := foldl (fun st value => collectWith appendSensitiveBodyValueWithStatus value st) gathered.1 bodyValues.1) in *.
  assert (grows gathered.1 st) as G by (apply foldl_grows; intros; by apply collectWith_collects, append_appends).
  assert (nonempty st) as Hne by (apply (foldl_preserves nonempty); [intros; by apply collectWith_nonempty|done]).
  apply andb_true_iff in Hok as [Hok _].
  unfold redactHTTPBody in Hr. fold text in Hr. rewrite Hj in Hr. destruct (mask_all text st.1 Hne) as (t & Et & Hm & Hk).
  rewrite <- Et in Hr. rewrite no_data_not_handled in Hr by (by eapply masked_no_data).
  destruct (containsSensitiveBodyMarker toLowerRune (map fst t)); [by left|]. right. exists t. split_and!; [done|done|].
  intros part secret Hp Hc Hs Ep. apply (Hk part Hp); [intros ->; by rewrite <- Ep in Hs|]. rewrite Ep.
  by apply (collected_grows _ _ _ (C _ Hc) G).
Qed.

(** When the values could not all be collected, or one is too short to be masked, nothing of
    the body is stored. *)
Theorem redactHTTP_fails_closed headers body additionalValues complete :
  let gathered := gatherValues toLowerRune headers additionalValues complete in
  gathered.1.2 = false \/ gathered.2 = true ->
  (redactHTTP toLowerRune zstdRead headers (Some body) additionalValues complete).2 = Some redactedValue.
Proof.
  cbn zeta. intros H. unfold redactHTTP. destruct (gatherValues toLowerRune headers additionalValues complete) as [[values ok] sh]. cbn [fst snd] in H.
  assert (forall hs b decoded, (redactDecoded toLowerRune hs b (Some decoded) (values, ok, sh)).2 = Some redactedValue) as Hgo.
  { intros hs b decoded. unfold redactDecoded. destruct (SensitiveHTTPBodyValuesWithStatus toLowerRune (Some decoded)) as [bodyValues bodyOk].
    destruct (foldl_grows (fun st value => collectWith appendSensitiveBodyValueWithStatus value st) bodyValues (values, ok)) as [_ Hg].
    { intros st a _. by apply collectWith_collects, append_appends. }
    match goal with |- context [foldl ?f (values, ok) bodyValues] => destruct (foldl f (values, ok) bodyValues) as [all allOk] end. cbn [snd] in Hg.
    assert (negb (allOk && bodyOk) || sh = true) as ->; [|done]. destruct H as [->| ->]; [|by rewrite orb_true_r].
    destruct allOk; [by specialize (Hg eq_refl)|done]. }
  destruct (_ && _); [done|]. destruct (captureBodyUsesZstd _ _); [destruct (decodeZstdCaptureBody _ _); [apply Hgo|done]|apply Hgo].
Qed.

(** The stored headers are the other headers, unchanged and in order, but for the two that
    describe the body. *)
Theorem redactHTTP_headers headers body additionalValues complete headers' r :
  redactHTTP toLowerRune zstdRead headers body additionalValues complete = (headers', r) ->
  Forall (fun h => sensitiveHTTPHeader toLowerRune h.1 = false) headers' /\ headers' `sublist_of` headers /\
  forall h, h ∈ headers -> sensitiveHTTPHeader toLowerRune h.1 = false -> h.1 <> contentLengthKey -> h.1 <> contentEncodingKey -> h ∈ headers'.
Proof.
  set (kept := keptHeaders toLowerRune headers).
  assert (forall hs, hs ∈ [kept; Del kept contentLengthKey; Del (Del kept contentEncodingKey) contentLengthKey;
      Del (Del (Del kept contentEncodingKey) contentLengthKey) contentLengthKey] ->
    Forall (fun h => sensitiveHTTPHeader toLowerRune h.1 = false) hs /\ hs `sublist_of` headers /\
    forall h, h ∈ headers -> sensitiveHTTPHeader toLowerRune h.1 = false -> h.1 <> contentLengthKey -> h.1 <> contentEncodingKey -> h ∈ hs) as H.
  { intros hs Hhs. assert (hs `sublist_of` kept /\ forall h, h ∈ kept -> h.1 <> contentLengthKey -> h.1 <> contentEncodingKey -> h ∈ hs) as [H1 H2].
    { assert (forall k l, Del l k `sublist_of` l) as Hs by (intros; apply sublist_filter).
      assert (forall (k : bytes) (l : Header) h, h ∈ l -> h.1 <> k -> h ∈ Del l k) as Hin by (intros; by apply list_elem_of_filter).
      repeat (apply elem_of_cons in Hhs as [->|Hhs]; [split; [repeat (etrans; [apply Hs|]); done|intros; repeat apply Hin; done]|]). by apply not_elem_of_nil in Hhs. }
    assert (Forall (fun h => sensitiveHTTPHeader toLowerRune h.1 = false) kept) as Hk.
    { apply Forall_forall. intros h Hh. by apply list_elem_of_filter in Hh as [? _]. }
    split_and!.
    - rewrite Forall_forall in *. intros h Hh. apply Hk. by eapply elem_of_sublist.
    - etrans; [exact H1|]. apply sublist_filter.
    - intros h Hh Hs Hl Hen. apply H2; [by apply list_elem_of_filter|done|done]. }
  intros E. apply H. revert E. unfold redactHTTP. fold kept.
  assert (forall hs b d g, (redactDecoded toLowerRune hs b d g).1 = hs \/ (redactDecoded toLowerRune hs b d g).1 = Del hs contentLengthKey) as Hd.
  { intros hs b d [[values ok] sh]. unfold redactDecoded. destruct (SensitiveHTTPBodyValuesWithStatus toLowerRune d) as [bv bo].
    match goal with |- context [foldl ?f ?s bv] => destruct (foldl f s bv) as [all allOk] end. destruct d as [d|]; [|by left]. destruct (negb _ || _); [by right|]. cbn [fst]. destruct (bool_decide _); [by left|by right]. }
  assert (forall hs b d g, redactDecoded toLowerRune hs b d g = (headers', r) -> headers' = hs \/ headers' = Del hs contentLengthKey) as Hd'.
  { intros hs b d g Eq. specialize (Hd hs b d g). by rewrite Eq in Hd. }
  destruct body as [body|]; [|intros [-> | ->]%Hd'; set_solver]. destruct (_ && _); [intros [= <- _]; set_solver|].
  destruct (captureBodyUsesZstd _ _); [|intros [-> | ->]%Hd'; set_solver].
  destruct (decodeZstdCaptureBody _ _); [|intros [= <- _]; set_solver]. intros [-> | ->]%Hd'; set_solver.
Qed.
End stored.

(** ** Examples *)

Definition bearerHeaders : Header := [(lit "Authorization", [lit "Bearer secret-token"]); (lit "Content-Type", [lit "text/plain"])].
Definition noZstd (_ : bytes) (_ : Z) : option bytes := None.
Definition echoBody : bytes := jlit "{'echo':'see secret-token','token':'abc','n':[1,true]}".
Definition echoStored : bytes := jlit "{'echo':'see [REDACTED]','n':[1,true],'token':'[REDACTED]'}".

(** The body comes compressed; this reader knows one stream. *)
Definition zippedHeaders : Header := (lit "Content-Encoding", [lit "zstd"]) :: bearerHeaders.
Definition zipped : bytes := lit "(zipped)".
Definition unzip (body : bytes) (_ : Z) : option bytes := if bool_decide (body = zipped) then Some echoBody else None.

Lemma redactHTTP_json_masked_witness : exists v, parseDoc maxNestingDepth echoBody = Some v /\
  (redactHTTP id unzip zippedHeaders (Some zipped) [] true).2 = Some echoStored /\
  (echoStored = redactedValue \/
   forall depth t x secret, parseDoc depth echoStored = Some t -> x ∈ inner t ->
    credential id zippedHeaders (sensitiveScalars id v) [] secret -> TrimSpace secret <> [] ->
    Contains x (TrimSpace secret) = true -> echoStored = echoBody /\ Contains x redactedValue = true).
Proof.
  eexists. split; [vm_compute; reflexivity|]. split; [vm_compute; reflexivity|].
  assert (bodyText id unzip zippedHeaders zipped = Some echoBody) as Et by (vm_compute; reflexivity).
  assert (exists headers', redactHTTP id unzip zippedHeaders (Some zipped) [] true = (headers', Some echoStored)) as [headers' E] by (eexists; vm_compute; reflexivity).
  pose proof (redactHTTP_json_masked id unzip zippedHeaders zipped [] true headers' echoStored E) as H. rewrite Et in H.
  apply H; vm_compute; reflexivity.
Defined.

Definition echoText : bytes := lit "the proxy said secret-token was wrong".

Lemma redactHTTP_text_masked_witness :
  lit "the proxy said [REDACTED] was wrong" = redactedValue \/
  exists t, map fst t = lit "the proxy said [REDACTED] was wrong" /\ masked echoText t /\
    forall part secret, kept t part -> credential id bearerHeaders [] [] secret -> TrimSpace secret <> [] -> map fst part <> TrimSpace secret.
Proof.
  eapply (redactHTTP_text_masked id noZstd bearerHeaders echoText [] true); vm_compute; reflexivity.
Defined.

Lemma redactHTTP_fails_closed_witness :
  (redactHTTP id noZstd [(lit "Cookie", [lit "a=x"])] (Some echoBody) [] true).2 = Some redactedValue.
Proof. apply redactHTTP_fails_closed. right. vm_compute. reflexivity. Defined.

Lemma redactHTTP_headers_witness : exists headers',
  (Forall (fun h => sensitiveHTTPHeader id h.1 = false) headers' /\ headers' `sublist_of` bearerHeaders /\
   forall h, h ∈ bearerHeaders -> sensitiveHTTPHeader id h.1 = false -> h.1 <> contentLengthKey -> h.1 <> contentEncodingKey -> h ∈ headers').
Proof. eexists. eapply (redactHTTP_headers id noZstd bearerHeaders (Some echoBody) [] true). vm_compute. reflexivity. Defined.
