(* ===== verification/MtRelay.v ===== *)
(** * MtRelay: bridging a websocket (mitm/ws_capture.go)

    Two goroutines relay the messages of the two directions, one counter and one pair of
    capture buffers are shared, and the first failure closes both connections.  The handler
    waits for that and writes the capture.  The steps interleave in any way.

    The theorems: messages are delivered in order and without a gap, and at most one per
    direction is lost; a capture buffer is a prefix of the captured messages; the capture
    that is stored can miss a message that was delivered. *)

From S2P Require Import Prelude GoText.

Open Scope Z_scope.

(** ** Capture buffers *)

Definition newline : Byte.byte := Byte.x0a.

Definition appendCappedWSFrame (dst payload : bytes) (capBytes : Z) : bytes :=
  if capBytes <=? zlen dst then dst else
  let separated :=
    if 0 <? zlen dst then (if capBytes <? zlen dst + 1 then None else Some (dst ++ [newline])) else Some dst in
  match separated with
  | None => dst
  | Some dst =>
      let remaining := capBytes - zlen dst in
      let payload := if remaining <? zlen payload then take (Z.to_nat remaining) payload else payload in
      dst ++ payload
  end.

Record wsCaptureStoreRecorder := MkRecorder { wr_request : bytes; wr_response : bytes; wr_capBytes : Z }.

Definition newWSCaptureStoreRecorder (capBytes : Z) : option wsCaptureStoreRecorder :=
  if capBytes <=? 0 then None else Some (MkRecorder [] [] capBytes).

Definition add (r : option wsCaptureStoreRecorder) (payload : bytes) (fromClient : bool) : option wsCaptureStoreRecorder :=
  match r with
  | None => None
  | Some r =>
      Some (if fromClient then MkRecorder (appendCappedWSFrame (wr_request r) payload (wr_capBytes r)) (wr_response r) (wr_capBytes r)
            else MkRecorder (wr_request r) (appendCappedWSFrame (wr_response r) payload (wr_capBytes r)) (wr_capBytes r))
  end.

Definition bodies (r : option wsCaptureStoreRecorder) : bytes * bytes :=
  match r with
  | None => ([], [])
  | Some r => (wr_request r, wr_response r)
  end.

(** ** The relay *)

Definition wsError := nat.

(** The loop of one direction. *)
Inductive relayPC :=
| rpReading
| rpRead (m : bytes)      (** a message was read *)
| rpCounted (m : bytes)   (** and counted *)
| rpWritten (m : bytes)   (** and written to the other side *)
| rpFailed (err : wsError) (lost : option bytes)
| rpDone (lost : option bytes).

(** A direction: its loop, what its source still sends, and what its destination received. *)
Record direction := MkDirection { dr_pc : relayPC; dr_incoming : list bytes; dr_delivered : list bytes }.

Inductive wsHandlerPC :=
| hpWaiting
| hpClosed (messageCount : Z) (closeErr : option wsError)
| hpStored (messageCount : Z) (closeErr : option wsError) (stored : option (bytes * bytes)).

Record wsRelayState := MkRelay {
  wr_client : direction;      (** from the client *)
  wr_upstream : direction;
  wr_messageCount : Z;
  wr_closeErr : option wsError;
  wr_closed : bool;           (** [closeOnce] has run: the connections and the channel are closed *)
  wr_recorder : option wsCaptureStoreRecorder;
  wr_handler : wsHandlerPC;
}.

Definition dirOf (fromClient : bool) (s : wsRelayState) : direction := if fromClient then wr_client s else wr_upstream s.

Definition setDir (fromClient : bool) (d : direction) (s : wsRelayState) : wsRelayState :=
  if fromClient then MkRelay d (wr_upstream s) (wr_messageCount s) (wr_closeErr s) (wr_closed s) (wr_recorder s) (wr_handler s)
  else MkRelay (wr_client s) d (wr_messageCount s) (wr_closeErr s) (wr_closed s) (wr_recorder s) (wr_handler s).

Definition setPC (fromClient : bool) (pc : relayPC) (s : wsRelayState) : wsRelayState :=
  setDir fromClient (MkDirection pc (dr_incoming (dirOf fromClient s)) (dr_delivered (dirOf fromClient s))) s.

Definition countMessage (s : wsRelayState) : wsRelayState :=
  MkRelay (wr_client s) (wr_upstream s) (wr_messageCount s + 1) (wr_closeErr s) (wr_closed s) (wr_recorder s) (wr_handler s).

Definition capture (payload : bytes) (fromClient : bool) (s : wsRelayState) : wsRelayState :=
  MkRelay (wr_client s) (wr_upstream s) (wr_messageCount s) (wr_closeErr s) (wr_closed s) (add (wr_recorder s) payload fromClient) (wr_handler s).

(** [wsCloseBoth]: only the first call has an effect. *)
Definition closeBoth (reason : wsError) (s : wsRelayState) : wsRelayState :=
  if wr_closed s then s
  else MkRelay (wr_client s) (wr_upstream s) (wr_messageCount s) (Some reason) true (wr_recorder s) (wr_handler s).

Definition setHandler (h : wsHandlerPC) (s : wsRelayState) : wsRelayState :=
  MkRelay (wr_client s) (wr_upstream s) (wr_messageCount s) (wr_closeErr s) (wr_closed s) (wr_recorder s) h.

(** One step; [recording] is what [RecordingEnabled] answers, at any time. *)
Inductive relayStep : wsRelayState -> wsRelayState -> Prop :=
| rs_read s c m rest :
    dr_pc (dirOf c s) = rpReading -> dr_incoming (dirOf c s) = m :: rest ->
    relayStep s (setDir c (MkDirection (rpRead m) rest (dr_delivered (dirOf c s))) s)
| rs_readFailed s c err :
    dr_pc (dirOf c s) = rpReading -> relayStep s (setPC c (rpFailed err None) s)
| rs_count s c m :
    dr_pc (dirOf c s) = rpRead m -> relayStep s (setPC c (rpCounted m) (countMessage s))
| rs_write s c m :
    dr_pc (dirOf c s) = rpCounted m ->
    relayStep s (setDir c (MkDirection (rpWritten m) (dr_incoming (dirOf c s)) (dr_delivered (dirOf c s) ++ [m])) s)
| rs_writeFailed s c m err :
    dr_pc (dirOf c s) = rpCounted m -> relayStep s (setPC c (rpFailed err (Some m)) s)
| rs_capture s c m (recording : bool) :
    dr_pc (dirOf c s) = rpWritten m ->
    relayStep s (setPC c rpReading (if recording then capture m c s else s))
| rs_close s c err lost :
    dr_pc (dirOf c s) = rpFailed err lost -> relayStep s (setPC c (rpDone lost) (closeBoth err s))
| rs_handlerWakes s :
    wr_handler s = hpWaiting -> wr_closed s = true -> relayStep s (setHandler (hpClosed (wr_messageCount s) (wr_closeErr s)) s)
| rs_handlerStores s n err (recording : bool) :
    wr_handler s = hpClosed n err ->
    relayStep s (setHandler (hpStored n err (if recording then Some (bodies (wr_recorder s)) else None)) s).

Definition relayInitial (fromClient fromUpstream : list bytes) (capBytes : Z) : wsRelayState :=
  MkRelay (MkDirection rpReading fromClient []) (MkDirection rpReading fromUpstream []) 0 None false (newWSCaptureStoreRecorder capBytes) hpWaiting.

(** ** Capture buffers are prefixes *)

(** The messages one after another, as an unbounded buffer would hold them. *)
Definition joinFrame (dst payload : bytes) : bytes := match dst with [] => payload | _ :: _ => dst ++ newline :: payload end.
Definition joinFrames (frames : list bytes) : bytes := foldl joinFrame [] frames.

Lemma appendCapped_take dst payload capBytes : 0 < capBytes ->
  appendCappedWSFrame (take (Z.to_nat capBytes) dst) payload capBytes = take (Z.to_nat capBytes) (joinFrame dst payload).
Proof.
  intros Hc. unfold appendCappedWSFrame. remember (Z.to_nat capBytes) as n eqn:En.
  assert (capBytes = Z.of_nat n) as E by lia. clear En. subst capBytes.
  unfold zlen. rewrite length_take. destruct (Z.leb_spec (Z.of_nat n) (Z.of_nat (n `min` length dst))) as [H|H].
  - destruct dst as [|b dst]; [cbn in H; lia|]. cbn [joinFrame]. rewrite take_app_le by lia. done.
  - rewrite take_ge by lia. destruct dst as [|b dst].
    + cbn [joinFrame length]. rewrite Nat.min_0_r. change (0 <? Z.of_nat 0) with false. cbv iota. cbn [length app].
      change (Z.of_nat 0) with 0. rewrite Z.sub_0_r. destruct (Z.ltb_spec (Z.of_nat n) (Z.of_nat (length payload))); [by rewrite Nat2Z.id|by rewrite take_ge by lia].
    + replace (n `min` length (b :: dst))%nat with (length (b :: dst)) in * by lia. cbn [joinFrame].
      destruct (Z.ltb_spec 0 (Z.of_nat (length (b :: dst)))) as [_|H0]; [|cbn in H0; lia].
      destruct (Z.ltb_spec (Z.of_nat n) (Z.of_nat (length (b :: dst)) + 1)) as [H1|H1]; [lia|].
      rewrite length_app. cbn [length]. rewrite (take_app_ge (b :: dst)) by lia. rewrite <- app_assoc. f_equal. cbn [app].
      destruct (n - length (b :: dst))%nat as [|k] eqn:Ek; [cbn in *; lia|]. cbn [take]. f_equal. cbn [length] in Ek.
      destruct (Z.ltb_spec (Z.of_nat n - Z.of_nat (S (length dst) + 1)) (Z.of_nat (length payload))).
      * f_equal. lia.
      * by rewrite take_ge by lia.
Qed.

(** A capture buffer is what an unbounded one holds, cut at the cap. *)
Lemma capture_prefix frames capBytes : 0 < capBytes ->
  foldl (fun dst payload => appendCappedWSFrame dst payload capBytes) [] frames = take (Z.to_nat capBytes) (joinFrames frames).
Proof.
  intros Hc. unfold joinFrames. assert (forall dst, foldl (fun dst payload => appendCappedWSFrame dst payload capBytes) (take (Z.to_nat capBytes) dst) frames =
    take (Z.to_nat capBytes) (foldl joinFrame dst frames)) as H.
  { induction frames as [|f frames IH]; intros dst; [done|]. cbn [foldl]. by rewrite appendCapped_take, IH by done. }
  specialize (H []). by rewrite take_nil in H.
Qed.

(** ** The invariant *)

(** The message that was read and is not delivered. *)
Definition inFlight (pc : relayPC) : list bytes :=
  match pc with
  | rpRead m | rpCounted m | rpFailed _ (Some m) | rpDone (Some m) => [m]
  | _ => []
  end.

(** Of these, the ones that are counted. *)
Definition countedInFlight (pc : relayPC) : Z :=
  match pc with
  | rpCounted _ | rpFailed _ (Some _) | rpDone (Some _) => 1
  | _ => 0
  end.

Definition counted (d : direction) : Z := zlen (dr_delivered d) + countedInFlight (dr_pc d).

(** What the recorder may hold of a direction: the messages before the one that is just
    delivered. *)
Definition capturable (d : direction) : list bytes :=
  match dr_pc d with
  | rpWritten _ => removelast (dr_delivered d)
  | _ => dr_delivered d
  end.

(** A buffer that holds messages of a direction, in order, up to the cap. *)
Definition holds (buffer : bytes) (capBytes : Z) (delivered : list bytes) : Prop :=
  exists frames, frames `sublist_of` delivered /\ buffer = take (Z.to_nat capBytes) (joinFrames frames).

Definition recorderHolds (r : option wsCaptureStoreRecorder) (capBytes : Z) (c u : list bytes) : Prop :=
  match r with
  | None => capBytes <= 0
  | Some r => 0 < capBytes /\ wr_capBytes r = capBytes /\ holds (wr_request r) capBytes c /\ holds (wr_response r) capBytes u
  end.

Definition handlerHolds (capBytes : Z) (s : wsRelayState) : Prop :=
  match wr_handler s with
  | hpWaiting => True
  | hpClosed n err => n <= wr_messageCount s /\ err = wr_closeErr s /\ wr_closed s = true
  | hpStored n err stored =>
      n <= wr_messageCount s /\ err = wr_closeErr s /\ wr_closed s = true /\
      forall request response, stored = Some (request, response) -> 0 < capBytes ->
        holds request capBytes (dr_delivered (wr_client s)) /\ holds response capBytes (dr_delivered (wr_upstream s))
  end.

Record relayInv (sentC sentU : list bytes) (capBytes : Z) (s : wsRelayState) : Prop := {
  rv_client : sentC = dr_delivered (wr_client s) ++ inFlight (dr_pc (wr_client s)) ++ dr_incoming (wr_client s);
  rv_upstream : sentU = dr_delivered (wr_upstream s) ++ inFlight (dr_pc (wr_upstream s)) ++ dr_incoming (wr_upstream s);
  rv_written : forall c m, dr_pc (dirOf c s) = rpWritten m -> exists l, dr_delivered (dirOf c s) = l ++ [m];
  rv_count : wr_messageCount s = counted (wr_client s) + counted (wr_upstream s);
  rv_closed : wr_closed s = true <-> is_Some (wr_closeErr s);
  rv_recorder : recorderHolds (wr_recorder s) capBytes (capturable (wr_client s)) (capturable (wr_upstream s));
  rv_handler : handlerHolds capBytes s;
}.

Lemma holds_more buffer capBytes d d' : holds buffer capBytes d -> d `sublist_of` d' -> holds buffer capBytes d'.
Proof. intros (frames & H1 & H2) H. exists frames. split; [by etrans|done]. Qed.

Lemma recorder_more r capBytes c c' u u' : recorderHolds r capBytes c u -> c `sublist_of` c' -> u `sublist_of` u' -> recorderHolds r capBytes c' u'.
Proof. destruct r as [r|]; [|done]. intros (H1 & H2 & H3 & H4) Hc Hu. split_and!; [done|done|by eapply holds_more|by eapply holds_more]. Qed.

Lemma holds_append buffer capBytes l m : 0 < capBytes -> holds buffer capBytes l -> holds (appendCappedWSFrame buffer m capBytes) capBytes (l ++ [m]).
Proof.
  intros Hc (frames & H1 & ->). exists (frames ++ [m]). split; [by apply sublist_app|].
  rewrite appendCapped_take by done. unfold joinFrames. by rewrite foldl_app.
Qed.

Lemma capturable_sublist d : capturable d `sublist_of` dr_delivered d.
Proof.
  unfold capturable. destruct (dr_pc d); try done. destruct (dr_delivered d) as [|x l] using rev_ind; [done|].
  rewrite removelast_last. by apply sublist_inserts_r.
Qed.

(** Steps of one direction that neither deliver nor capture. *)
Lemma quiet_direction sentC sentU capBytes c s s' d :
  relayInv sentC sentU capBytes s ->
  s' = setDir c d s \/ s' = setDir c d (countMessage s) \/ (exists err, s' = setDir c d (closeBoth err s)) ->
  dr_delivered d = dr_delivered (dirOf c s) -> (forall m, dr_pc (dirOf c s) <> rpWritten m) -> (forall m, dr_pc d <> rpWritten m) ->
  inFlight (dr_pc d) ++ dr_incoming d = inFlight (dr_pc (dirOf c s)) ++ dr_incoming (dirOf c s) ->
  countedInFlight (dr_pc d) = countedInFlight (dr_pc (dirOf c s)) + (wr_messageCount s' - wr_messageCount s) ->
  0 <= wr_messageCount s' - wr_messageCount s -> relayInv sentC sentU capBytes s'.
Proof.
  intros [H1 H2 H3 H4 H5 H6 H7] Hs Hd Hw Hw' Hf Hn Hle.
  assert (wr_client s' = (if c then d else wr_client s) /\ wr_upstream s' = (if c then wr_upstream s else d) /\ wr_recorder s' = wr_recorder s /\
    wr_handler s' = wr_handler s /\ (wr_closed s' = true <-> is_Some (wr_closeErr s')) /\ (wr_closed s = true -> wr_closed s' = true /\ wr_closeErr s' = wr_closeErr s)) as (E1 & E2 & E3 & E4 & E5 & E6).
  { destruct Hs as [->|[->|[err ->]]]; unfold closeBoth; destruct c; try (destruct (wr_closed s) eqn:Ec); cbn; try rewrite Ec; split_and!; try done; eauto. }
  assert (capturable d = capturable (dirOf c s)) as Hcap.
  { unfold capturable. rewrite Hd. destruct (dr_pc d) eqn:Ed, (dr_pc (dirOf c s)) eqn:Es; try done; exfalso; naive_solver. }
  split.
  - rewrite E1. destruct c; cbn in *; [by rewrite Hd, Hf|done].
  - rewrite E2. destruct c; cbn in *; [done|by rewrite Hd, Hf].
  - intros c' m Hm. unfold dirOf in *. rewrite E1, E2 in *. destruct c', c; try (by destruct (Hw' m)); [by apply (H3 true m)|by apply (H3 false m)].
  - unfold counted in *. rewrite E1, E2. destruct c; cbn in *; rewrite Hd; lia.
  - done.
  - rewrite E1, E2, E3. destruct c; cbn in *; by rewrite Hcap.
  - unfold handlerHolds in *. rewrite E4, E1, E2. destruct (wr_handler s) as [|n err|n err stored]; [done| |].
    + destruct H7 as (G1 & G2 & G3). destruct (E6 G3) as [-> ->]. split_and!; [lia|done|done].
    + destruct H7 as (G1 & G2 & G3 & G4). destruct (E6 G3) as [-> ->]. split_and!; [lia|done|done|].
      intros rq rs Est Hc. destruct (G4 _ _ Est Hc). destruct c; cbn in *; by rewrite Hd.
Qed.

Lemma relayStep_inv sentC sentU capBytes s s' : relayInv sentC sentU capBytes s -> relayStep s s' -> relayInv sentC sentU capBytes s'.
Proof.
  intros Hi Hs. destruct Hs as [s c m rest Hp Hin|s c err Hp|s c m Hp|s c m Hp|s c m err Hp|s c m rec Hp|s c err lost Hp|s Hh Hc|s n err rec Hh].
  - eapply (quiet_direction _ _ _ c s); [done|by left|done|by rewrite Hp|done| | |]; cbn; rewrite ?Hp, ?Hin; try done; destruct c; cbn; lia.
  - eapply (quiet_direction _ _ _ c s); [done|by left|done|by rewrite Hp|done| | |]; cbn; rewrite ?Hp; try done; destruct c; cbn; lia.
  - eapply (quiet_direction _ _ _ c s); [done|right; left; reflexivity| |by rewrite Hp|done| | |]; destruct c; cbn in *; rewrite ?Hp; try done; cbn; lia.
  - (* a message is delivered *)
    destruct Hi as [H1 H2 H3 H4 H5 H6 H7]. destruct c; cbn in *; rewrite Hp in *; split; cbn; try done.
    + by rewrite H1, <- app_assoc.
    + intros [] m' Hm; cbn in *; [injection Hm as <-; eauto|by apply (H3 false)].
    + unfold counted in *. cbn. rewrite Hp in H4. rewrite zlen_app, zlen_cons, zlen_nil. cbn in H4. lia.
    + cbn. rewrite removelast_last. eapply recorder_more; [exact H6|apply capturable_sublist|done].
    + unfold handlerHolds in *. cbn in *. destruct (wr_handler s) as [|? ?|? ? ?]; [done|done|]. destruct H7 as (G1 & G2 & G3 & G4). split_and!; [done..|].
      intros rq rs Est Hc. destruct (G4 _ _ Est Hc). split; [|done]. eapply holds_more; [done|]. by apply sublist_inserts_r.
    + by rewrite H2, <- app_assoc.
    + intros [] m' Hm; cbn in *; [by apply (H3 true)|injection Hm as <-; eauto].
    + unfold counted in *. cbn. rewrite Hp in H4. rewrite zlen_app, zlen_cons, zlen_nil. cbn in H4. lia.
    + cbn. rewrite removelast_last. eapply recorder_more; [exact H6|done|apply capturable_sublist].
    + unfold handlerHolds in *. cbn in *. destruct (wr_handler s) as [|? ?|? ? ?]; [done|done|]. destruct H7 as (G1 & G2 & G3 & G4). split_and!; [done..|].
      intros rq rs Est Hc. destruct (G4 _ _ Est Hc). split; [done|]. eapply holds_more; [done|]. by apply sublist_inserts_r.
  - eapply (quiet_direction _ _ _ c s); [done|by left|done|by rewrite Hp|done| | |]; cbn; rewrite ?Hp; try done; destruct c; cbn; lia.
  - (* a message is captured, or not *)
    destruct Hi as [H1 H2 H3 H4 H5 H6 H7]. destruct (H3 c m Hp) as [l Hl].
    assert (recorderHolds (wr_recorder (if rec then capture m c s else s)) capBytes
      (if c then dr_delivered (wr_client s) else capturable (wr_client s)) (if c then capturable (wr_upstream s) else dr_delivered (wr_upstream s))) as Hr.
    { assert (recorderHolds (wr_recorder s) capBytes (if c then dr_delivered (wr_client s) else capturable (wr_client s))
        (if c then capturable (wr_upstream s) else dr_delivered (wr_upstream s))) as Hkeep.
      { eapply recorder_more; [exact H6| |]; destruct c; try done; apply capturable_sublist. }
      destruct rec; [|done]. unfold capture. cbn [wr_recorder]. destruct (wr_recorder s) as [r|]; [|done]. cbn [add recorderHolds] in *.
      destruct H6 as (G1 & G2 & G3 & G4). destruct c; cbn in *; unfold capturable in G3, G4; rewrite Hp, Hl, removelast_last in *; rewrite G2; split_and!; try done;
        by apply holds_append. }
    assert (forall t, t = (if rec then capture m c s else s) -> wr_client t = wr_client s /\ wr_upstream t = wr_upstream s /\
      wr_messageCount t = wr_messageCount s /\ wr_closed t = wr_closed s /\ wr_closeErr t = wr_closeErr s /\ wr_handler t = wr_handler s) as Ht.
    { intros t ->. by destruct rec. }
    remember (if rec then capture m c s else s) as t eqn:Et. destruct (Ht t eq_refl) as (T1 & T2 & T3 & T4 & T5 & T6). clear Et Ht.
    unfold dirOf in *. destruct c; cbn in *; rewrite Hp in *; split; cbn; rewrite ?T1, ?T2, ?T3, ?T4, ?T5; try done.
    all: match goal with
    | |- forall _ _, _ -> _ => intros [] m' Hm; cbn in *; [|]; try done; rewrite ?T1, ?T2 in *; first [by apply (H3 true)|by apply (H3 false)]
    | |- _ = counted _ + counted _ => unfold counted in *; cbn; rewrite ?Hp in H4; done
    | |- handlerHolds _ _ => unfold handlerHolds in *; cbn; by rewrite ?T1, ?T2, ?T3, ?T4, ?T5, ?T6
    end.
  - eapply (quiet_direction _ _ _ c s); [done|right; right; by exists err| |by rewrite Hp|done| | |];
      unfold closeBoth; destruct c, (wr_closed s); cbn in *; rewrite ?Hp; try done; cbn; destruct lost; lia.
  - destruct Hi as [H1 H2 H3 H4 H5 H6 H7]. split; try done.
  - destruct Hi as [H1 H2 H3 H4 H5 H6 H7]. split; try done. unfold handlerHolds in *. cbn. rewrite Hh in H7. destruct H7 as (G1 & G2 & G3). split_and!; [done|done|done|].
    intros rq rs Est Hc. destruct rec; [|done]. injection Est as Eb. destruct (wr_recorder s) as [r|]; cbn in Eb, H6; [|lia]. injection Eb as <- <-.
    destruct H6 as (_ & _ & K1 & K2). split; (eapply holds_more; [done|apply capturable_sublist]).
Qed.

Lemma relay_inv sentC sentU capBytes s : rtc relayStep (relayInitial sentC sentU capBytes) s -> relayInv sentC sentU capBytes s.
Proof.
  intros H. assert (relayInv sentC sentU capBytes (relayInitial sentC sentU capBytes)) as H0.
  { split; cbn; [done|done|by intros [] m|done|split; [done|by intros [? ?]]| |done]. unfold newWSCaptureStoreRecorder. destruct (Z.leb_spec capBytes 0); cbn; [lia|].
    split_and!; [lia|done| |]; (exists []; split; [done|symmetry; apply take_nil]). }
  revert H0. induction H as [|a b c Hs _ IH]; [done|]. intros H0. apply IH. by eapply relayStep_inv.
Qed.

(** ** What the relay guarantees *)

(** Messages are delivered in order and without a gap: in each direction, what the source
    sent is what the destination received, then at most one message that is on its way or lost
    with the connection, then what is still to be read.  The count is at least the number of
    delivered messages and at most one more per direction. *)
Theorem relay_in_order (sentC sentU : list bytes) (capBytes : Z) (s : wsRelayState) :
  rtc relayStep (relayInitial sentC sentU capBytes) s ->
  exists lostC lostU : list bytes,
    sentC = dr_delivered (wr_client s) ++ lostC ++ dr_incoming (wr_client s) /\ (length lostC <= 1)%nat /\
    sentU = dr_delivered (wr_upstream s) ++ lostU ++ dr_incoming (wr_upstream s) /\ (length lostU <= 1)%nat /\
    zlen (dr_delivered (wr_client s)) + zlen (dr_delivered (wr_upstream s)) <= wr_messageCount s <=
      zlen (dr_delivered (wr_client s)) + zlen (dr_delivered (wr_upstream s)) + zlen lostC + zlen lostU.
Proof.
  intros H. destruct (relay_inv _ _ _ _ H) as [H1 H2 _ H4 _ _ _].
  exists (inFlight (dr_pc (wr_client s))), (inFlight (dr_pc (wr_upstream s))).
  assert (forall pc, (length (inFlight pc) <= 1)%nat /\ 0 <= countedInFlight pc <= zlen (inFlight pc)) as Hf.
  { intros [| | | |err []|[]]; unfold zlen; cbn; lia. }
  destruct (Hf (dr_pc (wr_client s))), (Hf (dr_pc (wr_upstream s))). unfold counted in H4. split_and!; [done..|lia|lia].
Qed.

(** C30. The capture that the handler stores: each body is the delivered messages of its direction,
    or some of them, one per line in their order and cut at the cap, and the error of the
    end is that of the first failure.  A cap that is not positive stores nothing. *)
Theorem relay_capture (sentC sentU : list bytes) (capBytes n : Z) (err : option wsError) (request response : bytes) (s : wsRelayState) :
  rtc relayStep (relayInitial sentC sentU capBytes) s -> wr_handler s = hpStored n err (Some (request, response)) -> 0 < capBytes ->
  is_Some err /\ err = wr_closeErr s /\ n <= wr_messageCount s /\ zlen request <= capBytes /\ zlen response <= capBytes /\
  (exists frames, frames `sublist_of` sentC /\ request = take (Z.to_nat capBytes) (joinFrames frames)) /\
  (exists frames, frames `sublist_of` sentU /\ response = take (Z.to_nat capBytes) (joinFrames frames)).
Proof.
  intros H Hh Hc. destruct (relay_inv _ _ _ _ H) as [H1 H2 _ _ H5 _ H7]. unfold handlerHolds in H7. rewrite Hh in H7.
  destruct H7 as (G1 & -> & G3 & G4). destruct (G4 _ _ eq_refl Hc) as [(fc & Hfc & ->) (fu & Hfu & ->)].
  split_and!; [by apply H5|done|done|unfold zlen; rewrite length_take; lia|unfold zlen; rewrite length_take; lia| |].
  - exists fc. split; [|done]. etrans; [exact Hfc|]. rewrite H1. by apply sublist_inserts_r.
  - exists fu. split; [|done]. etrans; [exact Hfu|]. rewrite H2. by apply sublist_inserts_r.
Qed.

(** A run: the client sends one message, and the upstream connection fails when it is
    delivered; the client's loop is captured before, or not before, the handler stores. *)
Definition hello : bytes := lit "hello".

Ltac relay_go r := eapply rtc_l; [eapply r; reflexivity|cbn].

Lemma relay_captured_run : exists s,
  rtc relayStep (relayInitial [hello] [] 4) s /\ wr_handler s = hpStored 1 (Some 7%nat) (Some (lit "hell", [])) /\
  dr_delivered (wr_client s) = [hello].
Proof.
  eexists. split.
  - relay_go (fun s => rs_read s true hello []). relay_go (fun s => rs_count s true hello). relay_go (fun s => rs_write s true hello).
    relay_go (fun s => rs_capture s true hello true). relay_go (fun s => rs_readFailed s false 7%nat).
    relay_go (fun s => rs_close s false 7%nat None). relay_go rs_handlerWakes. relay_go (fun s => rs_handlerStores s 1 (Some 7%nat) true).
    apply rtc_refl.
  - split; reflexivity.
Defined.

(** The handler does not wait for the loops: a message that was delivered before the failure
    can be missing from the capture that is stored, although recording is on throughout. *)
Theorem capture_misses_frame : exists s : wsRelayState,
  rtc relayStep (relayInitial [hello] [] 100) s /\ dr_delivered (wr_client s) = [hello] /\
  wr_handler s = hpStored 1 (Some 7%nat) (Some ([], [])) /\ bodies (wr_recorder s) = (hello, []).
Proof.
  eexists. split.
  - relay_go (fun s => rs_read s true hello []). relay_go (fun s => rs_count s true hello). relay_go (fun s => rs_write s true hello).
    relay_go (fun s => rs_readFailed s false 7%nat).
    relay_go (fun s => rs_close s false 7%nat None). relay_go rs_handlerWakes. relay_go (fun s => rs_handlerStores s 1 (Some 7%nat) true).
    relay_go (fun s => rs_capture s true hello true).
    apply rtc_refl.
  - split_and!; reflexivity.
Qed.

Lemma relay_in_order_witness : exists s,
  rtc relayStep (relayInitial [hello] [] 4) s /\ dr_delivered (wr_client s) = [hello] /\
  exists lostC lostU : list bytes,
    [hello] = dr_delivered (wr_client s) ++ lostC ++ dr_incoming (wr_client s) /\ (length lostC <= 1)%nat /\
    [] = dr_delivered (wr_upstream s) ++ lostU ++ dr_incoming (wr_upstream s) /\ (length lostU <= 1)%nat /\
    zlen (dr_delivered (wr_client s)) + zlen (dr_delivered (wr_upstream s)) <= wr_messageCount s <=
      zlen (dr_delivered (wr_client s)) + zlen (dr_delivered (wr_upstream s)) + zlen lostC + zlen lostU.
Proof.
  destruct relay_captured_run as (s & H & _ & Hd). exists s. split; [exact H|]. split; [exact Hd|]. exact (relay_in_order [hello] [] 4 s H).
Defined.

Lemma relay_capture_witness : exists s,
  rtc relayStep (relayInitial [hello] [] 4) s /\
  (exists frames, frames `sublist_of` [hello] /\ lit "hell" = take (Z.to_nat 4) (joinFrames frames)).
Proof.
  destruct relay_captured_run as (s & H & Hh & _). exists s. split; [exact H|].
  refine (proj1 (proj2 (proj2 (proj2 (proj2 (proj2 (relay_capture [hello] [] 4 1 (Some 7%nat) (lit "hell") [] s H Hh _))))))). reflexivity.
Defined.
