(* ===== verification/AdUsage.v ===== *)
(** * AdUsage: the token usage of a relayed stream (adapter/passthrough_sse_usage.go)

    A response that is passed through unchanged is also read, byte by byte, by a parser of
    event streams that feeds the data of each event to a parser of JSON of bounded memory.
    The last valid terminal event gives the usage.  Both parsers are the state machines of
    the source; the arrays of fixed size are the sequences of what is written to them.

    [AdUsageSpec] states what they compute. *)

From S2P Require Import Prelude GoUtf8 GoStrconv GoText GoSha256 GoJson.

Open Scope Z_scope.

(** ** Types (passthrough_sse_types.go) *)

Definition passthroughTerminalResponseEvent : bytes := lit "response.completed".
Definition passthroughIncompleteResponseEvent : bytes := lit "response.incomplete".

Inductive passthroughTerminalEvent :=
| passthroughTerminalEventNone
| passthroughTerminalEventCompleted
| passthroughTerminalEventIncomplete.

Inductive passthroughSSELineKind :=
| passthroughSSELineUnknown
| passthroughSSELineData
| passthroughSSELineEvent.

#[export] Instance passthroughTerminalEvent_eq : EqDecision passthroughTerminalEvent.
Proof. solve_decision. Defined.
#[export] Instance passthroughSSELineKind_eq : EqDecision passthroughSSELineKind.
Proof. solve_decision. Defined.

Definition passthroughTerminalEventForName (name : bytes) : passthroughTerminalEvent :=
  if bool_decide (name = passthroughTerminalResponseEvent) then passthroughTerminalEventCompleted
  else if bool_decide (name = passthroughIncompleteResponseEvent) then passthroughTerminalEventIncomplete
  else passthroughTerminalEventNone.

(** What the parser writes of [Usage]; the other fields stay zero.  The details hold
    [CachedTokens]. *)
Record Usage := MkUsage {
  PromptTokens : Z;
  CompletionTokens : Z;
  TotalTokens : Z;
  PromptTokensDetails : option Z;
  InputTokens : Z;
  OutputTokens : Z;
}.

Definition zeroUsage : Usage := MkUsage 0 0 0 None 0 0.

(** ** The JSON parser *)

Definition passthroughMaxJSONDepth : Z := 64.
Definition passthroughMaxJSONStringBytes : Z := 64.

Inductive passthroughJSONMode :=
| passthroughJSONNormal
| passthroughJSONString
| passthroughJSONNumber
| passthroughJSONLiteral.

Inductive passthroughJSONContainer :=
| passthroughJSONObject
| passthroughJSONArray.

Inductive passthroughJSONObjectState :=
| passthroughJSONObjectKeyOrEnd
| passthroughJSONObjectKey
| passthroughJSONObjectColon
| passthroughJSONObjectValue
| passthroughJSONObjectCommaOrEnd.

Inductive passthroughJSONArrayState :=
| passthroughJSONArrayValueOrEnd
| passthroughJSONArrayValue
| passthroughJSONArrayCommaOrEnd.

Inductive passthroughJSONRootState :=
| passthroughJSONRootValue
| passthroughJSONRootComplete.

Inductive passthroughJSONNumberState :=
| passthroughJSONNumberMinus
| passthroughJSONNumberZero
| passthroughJSONNumberInteger
| passthroughJSONNumberFractionStart
| passthroughJSONNumberFraction
| passthroughJSONNumberExponentStart
| passthroughJSONNumberExponentSign
| passthroughJSONNumberExponent.

Inductive passthroughUsageKey :=
| passthroughUsageKeyNone
| passthroughUsageKeyResponse
| passthroughUsageKeyUsage
| passthroughUsageKeyInputTokens
| passthroughUsageKeyOutputTokens
| passthroughUsageKeyTotalTokens
| passthroughUsageKeyInputTokensDetails
| passthroughUsageKeyCachedTokens
| passthroughUsageKeyType.

#[export] Instance passthroughJSONContainer_eq : EqDecision passthroughJSONContainer.
Proof. solve_decision. Defined.
#[export] Instance passthroughJSONObjectState_eq : EqDecision passthroughJSONObjectState.
Proof. solve_decision. Defined.
#[export] Instance passthroughJSONArrayState_eq : EqDecision passthroughJSONArrayState.
Proof. solve_decision. Defined.
#[export] Instance passthroughJSONRootState_eq : EqDecision passthroughJSONRootState.
Proof. solve_decision. Defined.
#[export] Instance passthroughJSONNumberState_eq : EqDecision passthroughJSONNumberState.
Proof. solve_decision. Defined.
#[export] Instance passthroughUsageKey_eq : EqDecision passthroughUsageKey.
Proof. solve_decision. Defined.

Record passthroughJSONFrame := MkJSONFrame {
  container : passthroughJSONContainer;
  pathKey : passthroughUsageKey;
  currentKey : passthroughUsageKey;
  objectState : passthroughJSONObjectState;
  arrayState : passthroughJSONArrayState;
}.

Record passthroughUsageJSONParser := MkJSONParser {
  jp_frames : list passthroughJSONFrame;  (** [frames[:depth]]; the entries behind are written before they are read *)
  jp_overflowDepth : Z;
  jp_mode : passthroughJSONMode;
  jp_rootState : passthroughJSONRootState;
  jp_numberState : passthroughJSONNumberState;
  jp_number : Z;
  jp_numberFits : bool;
  jp_numberNegative : bool;
  jp_stringBuffer : bytes;  (** what of [stringBuffer] is written since the string began *)
  jp_stringLength : Z;
  jp_stringTooLong : bool;
  jp_stringEscaped : bool;
  jp_stringEscape : bool;
  jp_stringUnicodeDigits : Z;
  jp_stringIsKey : bool;
  jp_literalBuffer : bytes;
  jp_literalLength : Z;
  jp_invalid : bool;
  jp_terminal : passthroughTerminalEvent;
  jp_usage : Usage;
  jp_contentSeen : bool;
}.

Definition set_jp_frames (x : list passthroughJSONFrame) (p : passthroughUsageJSONParser) : passthroughUsageJSONParser :=
  MkJSONParser x (jp_overflowDepth p) (jp_mode p) (jp_rootState p) (jp_numberState p) (jp_number p) (jp_numberFits p) (jp_numberNegative p) (jp_stringBuffer p) (jp_stringLength p) (jp_stringTooLong p) (jp_stringEscaped p) (jp_stringEscape p) (jp_stringUnicodeDigits p) (jp_stringIsKey p) (jp_literalBuffer p) (jp_literalLength p) (jp_invalid p) (jp_terminal p) (jp_usage p) (jp_contentSeen p).
Definition set_jp_overflowDepth (x : Z) (p : passthroughUsageJSONParser) : passthroughUsageJSONParser :=
  MkJSONParser (jp_frames p) x (jp_mode p) (jp_rootState p) (jp_numberState p) (jp_number p) (jp_numberFits p) (jp_numberNegative p) (jp_stringBuffer p) (jp_stringLength p) (jp_stringTooLong p) (jp_stringEscaped p) (jp_stringEscape p) (jp_stringUnicodeDigits p) (jp_stringIsKey p) (jp_literalBuffer p) (jp_literalLength p) (jp_invalid p) (jp_terminal p) (jp_usage p) (jp_contentSeen p).
Definition set_jp_mode (x : passthroughJSONMode) (p : passthroughUsageJSONParser) : passthroughUsageJSONParser :=
  MkJSONParser (jp_frames p) (jp_overflowDepth p) x (jp_rootState p) (jp_numberState p) (jp_number p) (jp_numberFits p) (jp_numberNegative p) (jp_stringBuffer p) (jp_stringLength p) (jp_stringTooLong p) (jp_stringEscaped p) (jp_stringEscape p) (jp_stringUnicodeDigits p) (jp_stringIsKey p) (jp_literalBuffer p) (jp_literalLength p) (jp_invalid p) (jp_terminal p) (jp_usage p) (jp_contentSeen p).
Definition set_jp_rootState (x : passthroughJSONRootState) (p : passthroughUsageJSONParser) : passthroughUsageJSONParser :=
  MkJSONParser (jp_frames p) (jp_overflowDepth p) (jp_mode p) x (jp_numberState p) (jp_number p) (jp_numberFits p) (jp_numberNegative p) (jp_stringBuffer p) (jp_stringLength p) (jp_stringTooLong p) (jp_stringEscaped p) (jp_stringEscape p) (jp_stringUnicodeDigits p) (jp_stringIsKey p) (jp_literalBuffer p) (jp_literalLength p) (jp_invalid p) (jp_terminal p) (jp_usage p) (jp_contentSeen p).
Definition set_jp_numberState (x : passthroughJSONNumberState) (p : passthroughUsageJSONParser) : passthroughUsageJSONParser :=
  MkJSONParser (jp_frames p) (jp_overflowDepth p) (jp_mode p) (jp_rootState p) x (jp_number p) (jp_numberFits p) (jp_numberNegative p) (jp_stringBuffer p) (jp_stringLength p) (jp_stringTooLong p) (jp_stringEscaped p) (jp_stringEscape p) (jp_stringUnicodeDigits p) (jp_stringIsKey p) (jp_literalBuffer p) (jp_literalLength p) (jp_invalid p) (jp_terminal p) (jp_usage p) (jp_contentSeen p).
Definition set_jp_number (x : Z) (p : passthroughUsageJSONParser) : passthroughUsageJSONParser :=
  MkJSONParser (jp_frames p) (jp_overflowDepth p) (jp_mode p) (jp_rootState p) (jp_numberState p) x (jp_numberFits p) (jp_numberNegative p) (jp_stringBuffer p) (jp_stringLength p) (jp_stringTooLong p) (jp_stringEscaped p) (jp_stringEscape p) (jp_stringUnicodeDigits p) (jp_stringIsKey p) (jp_literalBuffer p) (jp_literalLength p) (jp_invalid p) (jp_terminal p) (jp_usage p) (jp_contentSeen p).
Definition set_jp_numberFits (x : bool) (p : passthroughUsageJSONParser) : passthroughUsageJSONParser :=
  MkJSONParser (jp_frames p) (jp_overflowDepth p) (jp_mode p) (jp_rootState p) (jp_numberState p) (jp_number p) x (jp_numberNegative p) (jp_stringBuffer p) (jp_stringLength p) (jp_stringTooLong p) (jp_stringEscaped p) (jp_stringEscape p) (jp_stringUnicodeDigits p) (jp_stringIsKey p) (jp_literalBuffer p) (jp_literalLength p) (jp_invalid p) (jp_terminal p) (jp_usage p) (jp_contentSeen p).
Definition set_jp_numberNegative (x : bool) (p : passthroughUsageJSONParser) : passthroughUsageJSONParser :=
  MkJSONParser (jp_frames p) (jp_overflowDepth p) (jp_mode p) (jp_rootState p) (jp_numberState p) (jp_number p) (jp_numberFits p) x (jp_stringBuffer p) (jp_stringLength p) (jp_stringTooLong p) (jp_stringEscaped p) (jp_stringEscape p) (jp_stringUnicodeDigits p) (jp_stringIsKey p) (jp_literalBuffer p) (jp_literalLength p) (jp_invalid p) (jp_terminal p) (jp_usage p) (jp_contentSeen p).
Definition set_jp_stringBuffer (x : bytes) (p : passthroughUsageJSONParser) : passthroughUsageJSONParser :=
  MkJSONParser (jp_frames p) (jp_overflowDepth p) (jp_mode p) (jp_rootState p) (jp_numberState p) (jp_number p) (jp_numberFits p) (jp_numberNegative p) x (jp_stringLength p) (jp_stringTooLong p) (jp_stringEscaped p) (jp_stringEscape p) (jp_stringUnicodeDigits p) (jp_stringIsKey p) (jp_literalBuffer p) (jp_literalLength p) (jp_invalid p) (jp_terminal p) (jp_usage p) (jp_contentSeen p).
Definition set_jp_stringLength (x : Z) (p : passthroughUsageJSONParser) : passthroughUsageJSONParser :=
  MkJSONParser (jp_frames p) (jp_overflowDepth p) (jp_mode p) (jp_rootState p) (jp_numberState p) (jp_number p) (jp_numberFits p) (jp_numberNegative p) (jp_stringBuffer p) x (jp_stringTooLong p) (jp_stringEscaped p) (jp_stringEscape p) (jp_stringUnicodeDigits p) (jp_stringIsKey p) (jp_literalBuffer p) (jp_literalLength p) (jp_invalid p) (jp_terminal p) (jp_usage p) (jp_contentSeen p).
Definition set_jp_stringTooLong (x : bool) (p : passthroughUsageJSONParser) : passthroughUsageJSONParser :=
  MkJSONParser (jp_frames p) (jp_overflowDepth p) (jp_mode p) (jp_rootState p) (jp_numberState p) (jp_number p) (jp_numberFits p) (jp_numberNegative p) (jp_stringBuffer p) (jp_stringLength p) x (jp_stringEscaped p) (jp_stringEscape p) (jp_stringUnicodeDigits p) (jp_stringIsKey p) (jp_literalBuffer p) (jp_literalLength p) (jp_invalid p) (jp_terminal p) (jp_usage p) (jp_contentSeen p).
Definition set_jp_stringEscaped (x : bool) (p : passthroughUsageJSONParser) : passthroughUsageJSONParser :=
  MkJSONParser (jp_frames p) (jp_overflowDepth p) (jp_mode p) (jp_rootState p) (jp_numberState p) (jp_number p) (jp_numberFits p) (jp_numberNegative p) (jp_stringBuffer p) (jp_stringLength p) (jp_stringTooLong p) x (jp_stringEscape p) (jp_stringUnicodeDigits p) (jp_stringIsKey p) (jp_literalBuffer p) (jp_literalLength p) (jp_invalid p) (jp_terminal p) (jp_usage p) (jp_contentSeen p).
Definition set_jp_stringEscape (x : bool) (p : passthroughUsageJSONParser) : passthroughUsageJSONParser :=
  MkJSONParser (jp_frames p) (jp_overflowDepth p) (jp_mode p) (jp_rootState p) (jp_numberState p) (jp_number p) (jp_numberFits p) (jp_numberNegative p) (jp_stringBuffer p) (jp_stringLength p) (jp_stringTooLong p) (jp_stringEscaped p) x (jp_stringUnicodeDigits p) (jp_stringIsKey p) (jp_literalBuffer p) (jp_literalLength p) (jp_invalid p) (jp_terminal p) (jp_usage p) (jp_contentSeen p).
Definition set_jp_stringUnicodeDigits (x : Z) (p : passthroughUsageJSONParser) : passthroughUsageJSONParser :=
  MkJSONParser (jp_frames p) (jp_overflowDepth p) (jp_mode p) (jp_rootState p) (jp_numberState p) (jp_number p) (jp_numberFits p) (jp_numberNegative p) (jp_stringBuffer p) (jp_stringLength p) (jp_stringTooLong p) (jp_stringEscaped p) (jp_stringEscape p) x (jp_stringIsKey p) (jp_literalBuffer p) (jp_literalLength p) (jp_invalid p) (jp_terminal p) (jp_usage p) (jp_contentSeen p).
Definition set_jp_stringIsKey (x : bool) (p : passthroughUsageJSONParser) : passthroughUsageJSONParser :=
  MkJSONParser (jp_frames p) (jp_overflowDepth p) (jp_mode p) (jp_rootState p) (jp_numberState p) (jp_number p) (jp_numberFits p) (jp_numberNegative p) (jp_stringBuffer p) (jp_stringLength p) (jp_stringTooLong p) (jp_stringEscaped p) (jp_stringEscape p) (jp_stringUnicodeDigits p) x (jp_literalBuffer p) (jp_literalLength p) (jp_invalid p) (jp_terminal p) (jp_usage p) (jp_contentSeen p).
Definition set_jp_literalBuffer (x : bytes) (p : passthroughUsageJSONParser) : passthroughUsageJSONParser :=
  MkJSONParser (jp_frames p) (jp_overflowDepth p) (jp_mode p) (jp_rootState p) (jp_numberState p) (jp_number p) (jp_numberFits p) (jp_numberNegative p) (jp_stringBuffer p) (jp_stringLength p) (jp_stringTooLong p) (jp_stringEscaped p) (jp_stringEscape p) (jp_stringUnicodeDigits p) (jp_stringIsKey p) x (jp_literalLength p) (jp_invalid p) (jp_terminal p) (jp_usage p) (jp_contentSeen p).
Definition set_jp_literalLength (x : Z) (p : passthroughUsageJSONParser) : passthroughUsageJSONParser :=
  MkJSONParser (jp_frames p) (jp_overflowDepth p) (jp_mode p) (jp_rootState p) (jp_numberState p) (jp_number p) (jp_numberFits p) (jp_numberNegative p) (jp_stringBuffer p) (jp_stringLength p) (jp_stringTooLong p) (jp_stringEscaped p) (jp_stringEscape p) (jp_stringUnicodeDigits p) (jp_stringIsKey p) (jp_literalBuffer p) x (jp_invalid p) (jp_terminal p) (jp_usage p) (jp_contentSeen p).
Definition set_jp_invalid (x : bool) (p : passthroughUsageJSONParser) : passthroughUsageJSONParser :=
  MkJSONParser (jp_frames p) (jp_overflowDepth p) (jp_mode p) (jp_rootState p) (jp_numberState p) (jp_number p) (jp_numberFits p) (jp_numberNegative p) (jp_stringBuffer p) (jp_stringLength p) (jp_stringTooLong p) (jp_stringEscaped p) (jp_stringEscape p) (jp_stringUnicodeDigits p) (jp_stringIsKey p) (jp_literalBuffer p) (jp_literalLength p) x (jp_terminal p) (jp_usage p) (jp_contentSeen p).
Definition set_jp_terminal (x : passthroughTerminalEvent) (p : passthroughUsageJSONParser) : passthroughUsageJSONParser :=
  MkJSONParser (jp_frames p) (jp_overflowDepth p) (jp_mode p) (jp_rootState p) (jp_numberState p) (jp_number p) (jp_numberFits p) (jp_numberNegative p) (jp_stringBuffer p) (jp_stringLength p) (jp_stringTooLong p) (jp_stringEscaped p) (jp_stringEscape p) (jp_stringUnicodeDigits p) (jp_stringIsKey p) (jp_literalBuffer p) (jp_literalLength p) (jp_invalid p) x (jp_usage p) (jp_contentSeen p).
Definition set_jp_usage (x : Usage) (p : passthroughUsageJSONParser) : passthroughUsageJSONParser :=
  MkJSONParser (jp_frames p) (jp_overflowDepth p) (jp_mode p) (jp_rootState p) (jp_numberState p) (jp_number p) (jp_numberFits p) (jp_numberNegative p) (jp_stringBuffer p) (jp_stringLength p) (jp_stringTooLong p) (jp_stringEscaped p) (jp_stringEscape p) (jp_stringUnicodeDigits p) (jp_stringIsKey p) (jp_literalBuffer p) (jp_literalLength p) (jp_invalid p) (jp_terminal p) x (jp_contentSeen p).
Definition set_jp_contentSeen (x : bool) (p : passthroughUsageJSONParser) : passthroughUsageJSONParser :=
  MkJSONParser (jp_frames p) (jp_overflowDepth p) (jp_mode p) (jp_rootState p) (jp_numberState p) (jp_number p) (jp_numberFits p) (jp_numberNegative p) (jp_stringBuffer p) (jp_stringLength p) (jp_stringTooLong p) (jp_stringEscaped p) (jp_stringEscape p) (jp_stringUnicodeDigits p) (jp_stringIsKey p) (jp_literalBuffer p) (jp_literalLength p) (jp_invalid p) (jp_terminal p) (jp_usage p) x.

Definition depth (p : passthroughUsageJSONParser) : Z := zlen (jp_frames p).

(** [&p.frames[p.depth-1]] and a write through it. *)
Definition topFrame (p : passthroughUsageJSONParser) : option passthroughJSONFrame := last (jp_frames p).

Definition setTop (f : passthroughJSONFrame) (p : passthroughUsageJSONParser) : passthroughUsageJSONParser :=
  set_jp_frames (removelast (jp_frames p) ++ [f]) p.

Definition setCurrentKey (k : passthroughUsageKey) (f : passthroughJSONFrame) : passthroughJSONFrame :=
  MkJSONFrame (container f) (pathKey f) k (objectState f) (arrayState f).
Definition setObjectState (s : passthroughJSONObjectState) (f : passthroughJSONFrame) : passthroughJSONFrame :=
  MkJSONFrame (container f) (pathKey f) (currentKey f) s (arrayState f).
Definition setArrayState (s : passthroughJSONArrayState) (f : passthroughJSONFrame) : passthroughJSONFrame :=
  MkJSONFrame (container f) (pathKey f) (currentKey f) (objectState f) s.

(** [if b { p.invalid = true }]. *)
Definition invalidIf (b : bool) (p : passthroughUsageJSONParser) : passthroughUsageJSONParser :=
  if b then set_jp_invalid true p else p.

Definition isObject (f : passthroughJSONFrame) : bool := bool_decide (container f = passthroughJSONObject).
Definition keyIs (k : passthroughUsageKey) (k' : passthroughUsageKey) : bool := bool_decide (k = k').

(** The frames of [response.usage] of a root object. *)
Definition isUsagePath (root response usage : passthroughJSONFrame) : bool :=
  isObject root && keyIs (pathKey root) passthroughUsageKeyNone &&
  (isObject response && keyIs (pathKey response) passthroughUsageKeyResponse) &&
  (isObject usage && keyIs (pathKey usage) passthroughUsageKeyUsage).

Definition currentValueIsRootType (p : passthroughUsageJSONParser) : bool :=
  if 0 <? jp_overflowDepth p then false else
  match jp_frames p with
  | [frame] => isObject frame && keyIs (currentKey frame) passthroughUsageKeyType
  | _ => false
  end.

Definition currentRootResponseValue (p : passthroughUsageJSONParser) : bool :=
  if 0 <? jp_overflowDepth p then false else
  match jp_frames p with
  | [root] => isObject root && keyIs (pathKey root) passthroughUsageKeyNone && keyIs (currentKey root) passthroughUsageKeyResponse
  | _ => false
  end.

Definition currentRootUsageValue (p : passthroughUsageJSONParser) : bool :=
  if 0 <? jp_overflowDepth p then false else
  match jp_frames p with
  | [root; response] =>
      isObject root && keyIs (pathKey root) passthroughUsageKeyNone &&
      (isObject response && keyIs (pathKey response) passthroughUsageKeyResponse) && keyIs (currentKey response) passthroughUsageKeyUsage
  | _ => false
  end.

Definition currentRootUsageDetailsValue (p : passthroughUsageJSONParser) : bool :=
  if 0 <? jp_overflowDepth p then false else
  match jp_frames p with
  | [root; response; usage] => isUsagePath root response usage && keyIs (currentKey usage) passthroughUsageKeyInputTokensDetails
  | _ => false
  end.

Definition clearSupersededStructuralUsage (p : passthroughUsageJSONParser) : passthroughUsageJSONParser :=
  if currentRootResponseValue p || currentRootUsageValue p then set_jp_usage zeroUsage p
  else if currentRootUsageDetailsValue p then
    let u := jp_usage p in
    set_jp_usage (MkUsage (PromptTokens u) (CompletionTokens u) (TotalTokens u) None (InputTokens u) (OutputTokens u)) p
  else p.

Definition isRootUsageCounter (p : passthroughUsageJSONParser) : bool :=
  if negb (jp_overflowDepth p =? 0) then false else
  match jp_frames p with
  | [root; response; usage] =>
      isUsagePath root response usage &&
      (keyIs (currentKey usage) passthroughUsageKeyInputTokens || keyIs (currentKey usage) passthroughUsageKeyOutputTokens ||
       keyIs (currentKey usage) passthroughUsageKeyTotalTokens)
  | [root; response; usage; details] =>
      isUsagePath root response usage &&
      (isObject details && keyIs (pathKey details) passthroughUsageKeyInputTokensDetails) && keyIs (currentKey details) passthroughUsageKeyCachedTokens
  | _ => false
  end.

Definition recordUsageNumber (value : Z) (p : passthroughUsageJSONParser) : passthroughUsageJSONParser :=
  if negb (jp_overflowDepth p =? 0) then p else
  let u := jp_usage p in
  match jp_frames p with
  | [root; response; usage] =>
      if isUsagePath root response usage then
        match currentKey usage with
        | passthroughUsageKeyInputTokens => set_jp_usage (MkUsage value (CompletionTokens u) (TotalTokens u) (PromptTokensDetails u) value (OutputTokens u)) p
        | passthroughUsageKeyOutputTokens => set_jp_usage (MkUsage (PromptTokens u) value (TotalTokens u) (PromptTokensDetails u) (InputTokens u) value) p
        | passthroughUsageKeyTotalTokens => set_jp_usage (MkUsage (PromptTokens u) (CompletionTokens u) value (PromptTokensDetails u) (InputTokens u) (OutputTokens u)) p
        | _ => p
        end
      else p
  | [root; response; usage; details] =>
      if isUsagePath root response usage &&
         (isObject details && keyIs (pathKey details) passthroughUsageKeyInputTokensDetails) && keyIs (currentKey details) passthroughUsageKeyCachedTokens
      then set_jp_usage (MkUsage (PromptTokens u) (CompletionTokens u) (TotalTokens u) (Some value) (InputTokens u) (OutputTokens u)) p
      else p
  | _ => p
  end.

Definition beginValue (p : passthroughUsageJSONParser) : passthroughUsageJSONParser * bool :=
  match topFrame p with
  | None =>
      if bool_decide (jp_rootState p = passthroughJSONRootValue) then (set_jp_rootState passthroughJSONRootComplete p, true) else (p, false)
  | Some frame =>
      if 0 <? jp_overflowDepth p then (p, true)
      else if isObject frame && bool_decide (objectState frame = passthroughJSONObjectValue)
      then (setTop (setObjectState passthroughJSONObjectCommaOrEnd frame) p, true)
      else if negb (isObject frame) &&
              (bool_decide (arrayState frame = passthroughJSONArrayValueOrEnd) || bool_decide (arrayState frame = passthroughJSONArrayValue))
      then (setTop (setArrayState passthroughJSONArrayCommaOrEnd frame) p, true)
      else (p, false)
  end.

(** [if !p.beginValue() { p.invalid = true }]. *)
Definition beginValueOrInvalid (p : passthroughUsageJSONParser) : passthroughUsageJSONParser :=
  let '(p, ok) := beginValue p in invalidIf (negb ok) p.

Definition completeScalar (p : passthroughUsageJSONParser) : passthroughUsageJSONParser :=
  if 0 <? jp_overflowDepth p then p else
  match topFrame p with
  | None => p
  | Some frame => if isObject frame then setTop (setCurrentKey passthroughUsageKeyNone frame) p else p
  end.

Definition expectsObjectKey (p : passthroughUsageJSONParser) : bool :=
  if 0 <? jp_overflowDepth p then false else
  match topFrame p with
  | None => false
  | Some frame =>
      isObject frame && (bool_decide (objectState frame = passthroughJSONObjectKeyOrEnd) || bool_decide (objectState frame = passthroughJSONObjectKey))
  end.

Definition passthroughUsageKeyFor (value : bytes) : passthroughUsageKey :=
  if bool_decide (value = lit "response") then passthroughUsageKeyResponse
  else if bool_decide (value = lit "usage") then passthroughUsageKeyUsage
  else if bool_decide (value = lit "input_tokens") then passthroughUsageKeyInputTokens
  else if bool_decide (value = lit "output_tokens") then passthroughUsageKeyOutputTokens
  else if bool_decide (value = lit "total_tokens") then passthroughUsageKeyTotalTokens
  else if bool_decide (value = lit "input_tokens_details") then passthroughUsageKeyInputTokensDetails
  else if bool_decide (value = lit "cached_tokens") then passthroughUsageKeyCachedTokens
  else if bool_decide (value = lit "type") then passthroughUsageKeyType
  else passthroughUsageKeyNone.

Definition currentStringKey (p : passthroughUsageJSONParser) : passthroughUsageKey :=
  if jp_stringEscaped p || jp_stringTooLong p then passthroughUsageKeyNone else passthroughUsageKeyFor (jp_stringBuffer p).

Definition setObjectKey (p : passthroughUsageJSONParser) : passthroughUsageJSONParser :=
  if negb (expectsObjectKey p) then set_jp_invalid true p else
  match topFrame p with
  | None => p
  | Some frame => setTop (setObjectState passthroughJSONObjectColon (setCurrentKey (currentStringKey p) frame)) p
  end.

Definition isPassthroughJSONWhitespace (current : Byte.byte) : bool :=
  bool_decide (current = Byte.x20) || bool_decide (current = Byte.x09) || bool_decide (current = Byte.x0a) || bool_decide (current = Byte.x0d).

Definition isPassthroughJSONValueDelimiter (current : Byte.byte) : bool :=
  isPassthroughJSONWhitespace current || bool_decide (current = Byte.x2c) || bool_decide (current = Byte.x7d) || bool_decide (current = Byte.x5d).

(** *** Strings *)

Definition beginString (p : passthroughUsageJSONParser) : passthroughUsageJSONParser :=
  let p := set_jp_stringBuffer [] (set_jp_stringLength 0 p) in
  let p := set_jp_stringTooLong false p in
  let p := set_jp_stringEscaped false p in
  let p := set_jp_stringEscape false p in
  let p := set_jp_stringUnicodeDigits 0 p in
  let p := set_jp_stringIsKey (expectsObjectKey p) p in
  let p := if negb (jp_stringIsKey p) then beginValueOrInvalid (clearSupersededStructuralUsage p) else p in
  set_jp_mode passthroughJSONString p.

Definition appendStringByte (current : Byte.byte) (p : passthroughUsageJSONParser) : passthroughUsageJSONParser :=
  let p := if jp_stringLength p <? passthroughMaxJSONStringBytes then set_jp_stringBuffer (jp_stringBuffer p ++ [current]) p
           else set_jp_stringTooLong true p in
  set_jp_stringLength (jp_stringLength p + 1) p.

Definition finishString (p : passthroughUsageJSONParser) : passthroughUsageJSONParser :=
  let p := invalidIf (jp_stringEscape p || negb (jp_stringUnicodeDigits p =? 0)) p in
  if jp_stringIsKey p then setObjectKey p else
  let p :=
    if currentValueIsRootType p then
      set_jp_terminal (if negb (jp_stringEscaped p) && negb (jp_stringTooLong p) then passthroughTerminalEventForName (jp_stringBuffer p)
                       else passthroughTerminalEventNone) p
    else p in
  let p := invalidIf (isRootUsageCounter p) p in
  completeScalar p.

Definition isPassthroughJSONHex (current : Byte.byte) : bool := isHex current.

Definition isPassthroughJSONEscape (current : Byte.byte) : bool :=
  bool_decide (current = dquote) || existsb (fun c => bool_decide (current = c)) (lit "\/bfnrt").

Definition consumeStringByte (current : Byte.byte) (p : passthroughUsageJSONParser) : passthroughUsageJSONParser :=
  if 0 <? jp_stringUnicodeDigits p then
    let p := invalidIf (negb (isPassthroughJSONHex current)) p in
    set_jp_stringUnicodeDigits (jp_stringUnicodeDigits p - 1) p
  else if jp_stringEscape p then
    let p := set_jp_stringEscaped true (set_jp_stringEscape false p) in
    if bool_decide (current = Byte.x75) then set_jp_stringUnicodeDigits 4 p
    else invalidIf (negb (isPassthroughJSONEscape current)) p
  else if bool_decide (current = backslash) then set_jp_stringEscaped true (set_jp_stringEscape true p)
  else if bool_decide (current = dquote) then set_jp_mode passthroughJSONNormal (finishString p)
  else if b2z current <? 32 then set_jp_invalid true p
  else appendStringByte current p.

(** *** Numbers *)

Definition appendNumberDigit (current : Byte.byte) (p : passthroughUsageJSONParser) : passthroughUsageJSONParser :=
  let digit := b2z current - 48 in
  if Z.quot (maxInt64 - digit) 10 <? jp_number p then set_jp_numberFits false p
  else set_jp_number (jp_number p * 10 + digit) p.

Definition beginNumber (current : Byte.byte) (p : passthroughUsageJSONParser) : passthroughUsageJSONParser :=
  let p := if currentValueIsRootType p then set_jp_terminal passthroughTerminalEventNone p else p in
  let p := beginValueOrInvalid (clearSupersededStructuralUsage p) in
  let p := set_jp_numberFits true (set_jp_number 0 p) in
  let p := set_jp_numberNegative (bool_decide (current = Byte.x2d)) p in
  let p :=
    if bool_decide (current = Byte.x2d) then set_jp_numberState passthroughJSONNumberMinus p
    else if bool_decide (current = Byte.x30) then appendNumberDigit current (set_jp_numberState passthroughJSONNumberZero p)
    else appendNumberDigit current (set_jp_numberState passthroughJSONNumberInteger p) in
  set_jp_mode passthroughJSONNumber p.

Definition isExponent (current : Byte.byte) : bool := bool_decide (current = Byte.x65) || bool_decide (current = Byte.x45).

Definition consumeNumberAfterMinus (current : Byte.byte) (p : passthroughUsageJSONParser) : passthroughUsageJSONParser :=
  if bool_decide (current = Byte.x30) then appendNumberDigit current (set_jp_numberState passthroughJSONNumberZero p)
  else if isDigit current then appendNumberDigit current (set_jp_numberState passthroughJSONNumberInteger p)
  else set_jp_invalid true p.

Definition consumeNumberAfterZero (current : Byte.byte) (p : passthroughUsageJSONParser) : passthroughUsageJSONParser :=
  if bool_decide (current = Byte.x2e) then set_jp_numberState passthroughJSONNumberFractionStart p
  else if isExponent current then set_jp_numberState passthroughJSONNumberExponentStart p
  else set_jp_invalid true p.

Definition consumeNumberAfterInteger (current : Byte.byte) (p : passthroughUsageJSONParser) : passthroughUsageJSONParser :=
  if isDigit current then appendNumberDigit current p
  else if bool_decide (current = Byte.x2e) then set_jp_numberState passthroughJSONNumberFractionStart p
  else if isExponent current then set_jp_numberState passthroughJSONNumberExponentStart p
  else set_jp_invalid true p.

Definition consumeNumberAfterFractionStart (current : Byte.byte) (p : passthroughUsageJSONParser) : passthroughUsageJSONParser :=
  if isDigit current then set_jp_numberState passthroughJSONNumberFraction p else set_jp_invalid true p.

Definition consumeNumberAfterFraction (current : Byte.byte) (p : passthroughUsageJSONParser) : passthroughUsageJSONParser :=
  if isDigit current then p
  else if isExponent current then set_jp_numberState passthroughJSONNumberExponentStart p
  else set_jp_invalid true p.

Definition consumeNumberAfterExponentStart (current : Byte.byte) (p : passthroughUsageJSONParser) : passthroughUsageJSONParser :=
  if bool_decide (current = Byte.x2b) || bool_decide (current = Byte.x2d) then set_jp_numberState passthroughJSONNumberExponentSign p
  else if isDigit current then set_jp_numberState passthroughJSONNumberExponent p
  else set_jp_invalid true p.

Definition consumeNumberAfterExponentSign (current : Byte.byte) (p : passthroughUsageJSONParser) : passthroughUsageJSONParser :=
  if isDigit current then set_jp_numberState passthroughJSONNumberExponent p else set_jp_invalid true p.

Definition consumeNumberAfterExponent (current : Byte.byte) (p : passthroughUsageJSONParser) : passthroughUsageJSONParser :=
  invalidIf (negb (isDigit current)) p.

Definition numberIsComplete (p : passthroughUsageJSONParser) : bool :=
  match jp_numberState p with
  | passthroughJSONNumberZero | passthroughJSONNumberInteger | passthroughJSONNumberFraction | passthroughJSONNumberExponent => true
  | _ => false
  end.

Definition numberIsInteger (p : passthroughUsageJSONParser) : bool :=
  match jp_numberState p with
  | passthroughJSONNumberZero | passthroughJSONNumberInteger => true
  | _ => false
  end.

Definition finishNumber (p : passthroughUsageJSONParser) : passthroughUsageJSONParser :=
  let p := invalidIf (negb (numberIsComplete p)) p in
  let p := invalidIf (isRootUsageCounter p && (negb (numberIsInteger p) || negb (jp_numberFits p) || jp_numberNegative p)) p in
  let p := if numberIsInteger p && jp_numberFits p && negb (jp_numberNegative p) then recordUsageNumber (jp_number p) p else p in
  completeScalar p.

(** *** Literals *)

Definition appendLiteralByte (current : Byte.byte) (p : passthroughUsageJSONParser) : passthroughUsageJSONParser :=
  let p := if jp_literalLength p <? 5 then set_jp_literalBuffer (jp_literalBuffer p ++ [current]) p else set_jp_invalid true p in
  set_jp_literalLength (jp_literalLength p + 1) p.

Definition beginLiteral (current : Byte.byte) (p : passthroughUsageJSONParser) : passthroughUsageJSONParser :=
  let p := if currentValueIsRootType p then set_jp_terminal passthroughTerminalEventNone p else p in
  let p := beginValueOrInvalid (clearSupersededStructuralUsage p) in
  let p := set_jp_literalBuffer [] (set_jp_literalLength 0 p) in
  set_jp_mode passthroughJSONLiteral (appendLiteralByte current p).

Definition finishLiteral (p : passthroughUsageJSONParser) : passthroughUsageJSONParser :=
  let p :=
    invalidIf ((5 <? jp_literalLength p) ||
               negb (bool_decide (jp_literalBuffer p = lit "true") || bool_decide (jp_literalBuffer p = lit "false") ||
                     bool_decide (jp_literalBuffer p = lit "null"))) p in
  let p := invalidIf (isRootUsageCounter p) p in
  completeScalar p.

(** *** Containers *)

Definition enterContainer (c : passthroughJSONContainer) (p : passthroughUsageJSONParser) : passthroughUsageJSONParser :=
  let p := if currentValueIsRootType p then set_jp_terminal passthroughTerminalEventNone p else p in
  let p := clearSupersededStructuralUsage p in
  let p := invalidIf (isRootUsageCounter p) p in
  let p := beginValueOrInvalid p in
  if 0 <? jp_overflowDepth p then set_jp_overflowDepth (jp_overflowDepth p + 1) p else
  let '(key, p) :=
    match topFrame p with
    | Some parent => if isObject parent then (currentKey parent, setTop (setCurrentKey passthroughUsageKeyNone parent) p) else (passthroughUsageKeyNone, p)
    | None => (passthroughUsageKeyNone, p)
    end in
  if depth p =? passthroughMaxJSONDepth then set_jp_overflowDepth 1 (set_jp_invalid true p) else
  set_jp_frames (jp_frames p ++ [MkJSONFrame c key passthroughUsageKeyNone passthroughJSONObjectKeyOrEnd passthroughJSONArrayValueOrEnd]) p.

Definition canClose (f : passthroughJSONFrame) : bool :=
  if isObject f then bool_decide (objectState f = passthroughJSONObjectKeyOrEnd) || bool_decide (objectState f = passthroughJSONObjectCommaOrEnd)
  else bool_decide (arrayState f = passthroughJSONArrayValueOrEnd) || bool_decide (arrayState f = passthroughJSONArrayCommaOrEnd).

Definition leaveContainer (current : Byte.byte) (p : passthroughUsageJSONParser) : passthroughUsageJSONParser :=
  if 0 <? jp_overflowDepth p then set_jp_overflowDepth (jp_overflowDepth p - 1) p else
  match topFrame p with
  | None => set_jp_invalid true p
  | Some frame =>
      if (bool_decide (current = Byte.x7d) && negb (isObject frame)) || (bool_decide (current = Byte.x5d) && isObject frame) then set_jp_invalid true p
      else if negb (canClose frame) then set_jp_invalid true p
      else set_jp_frames (removelast (jp_frames p)) p
  end.

Definition consumeComma (p : passthroughUsageJSONParser) : passthroughUsageJSONParser :=
  match topFrame p with
  | None => set_jp_invalid true p
  | Some frame =>
      if 0 <? jp_overflowDepth p then set_jp_invalid true p
      else if isObject frame then
        if negb (bool_decide (objectState frame = passthroughJSONObjectCommaOrEnd)) then set_jp_invalid true p
        else setTop (setObjectState passthroughJSONObjectKey frame) p
      else if negb (bool_decide (arrayState frame = passthroughJSONArrayCommaOrEnd)) then set_jp_invalid true p
      else setTop (setArrayState passthroughJSONArrayValue frame) p
  end.

Definition consumeColon (p : passthroughUsageJSONParser) : passthroughUsageJSONParser :=
  match topFrame p with
  | None => set_jp_invalid true p
  | Some frame =>
      if 0 <? jp_overflowDepth p then set_jp_invalid true p
      else if negb (isObject frame) || negb (bool_decide (objectState frame = passthroughJSONObjectColon)) then set_jp_invalid true p
      else setTop (setObjectState passthroughJSONObjectValue frame) p
  end.

(** *** Bytes *)

Definition consumeNormalByte (current : Byte.byte) (p : passthroughUsageJSONParser) : passthroughUsageJSONParser :=
  if isPassthroughJSONWhitespace current then p
  else if bool_decide (current = Byte.x7b) then enterContainer passthroughJSONObject p
  else if bool_decide (current = Byte.x5b) then enterContainer passthroughJSONArray p
  else if bool_decide (current = Byte.x7d) || bool_decide (current = Byte.x5d) then leaveContainer current p
  else if bool_decide (current = Byte.x2c) then consumeComma p
  else if bool_decide (current = Byte.x3a) then consumeColon p
  else if bool_decide (current = dquote) then beginString p
  else if bool_decide (current = Byte.x2d) || isDigit current then beginNumber current p
  else beginLiteral current p.

Definition consumeNumberByte (current : Byte.byte) (p : passthroughUsageJSONParser) : passthroughUsageJSONParser :=
  if isPassthroughJSONValueDelimiter current then consumeNormalByte current (set_jp_mode passthroughJSONNormal (finishNumber p)) else
  match jp_numberState p with
  | passthroughJSONNumberMinus => consumeNumberAfterMinus current p
  | passthroughJSONNumberZero => consumeNumberAfterZero current p
  | passthroughJSONNumberInteger => consumeNumberAfterInteger current p
  | passthroughJSONNumberFractionStart => consumeNumberAfterFractionStart current p
  | passthroughJSONNumberFraction => consumeNumberAfterFraction current p
  | passthroughJSONNumberExponentStart => consumeNumberAfterExponentStart current p
  | passthroughJSONNumberExponentSign => consumeNumberAfterExponentSign current p
  | passthroughJSONNumberExponent => consumeNumberAfterExponent current p
  end.

Definition consumeLiteralByte (current : Byte.byte) (p : passthroughUsageJSONParser) : passthroughUsageJSONParser :=
  if isPassthroughJSONValueDelimiter current then consumeNormalByte current (set_jp_mode passthroughJSONNormal (finishLiteral p))
  else appendLiteralByte current p.

Definition consumeByte (p : passthroughUsageJSONParser) (current : Byte.byte) : passthroughUsageJSONParser :=
  let p := set_jp_contentSeen true p in
  match jp_mode p with
  | passthroughJSONNormal => consumeNormalByte current p
  | passthroughJSONString => consumeStringByte current p
  | passthroughJSONNumber => consumeNumberByte current p
  | passthroughJSONLiteral => consumeLiteralByte current p
  end.

Definition Finish (p : passthroughUsageJSONParser) : passthroughUsageJSONParser :=
  let p :=
    match jp_mode p with
    | passthroughJSONString => set_jp_invalid true p
    | passthroughJSONNumber => finishNumber p
    | passthroughJSONLiteral => finishLiteral p
    | passthroughJSONNormal => p
    end in
  set_jp_mode passthroughJSONNormal p.

Definition ValidJSON (p : passthroughUsageJSONParser) : bool :=
  negb (jp_invalid p) && (jp_overflowDepth p =? 0) && (depth p =? 0) && bool_decide (jp_rootState p = passthroughJSONRootComplete).

(** [Reset] and the zero value. *)
Definition emptyJSONParser : passthroughUsageJSONParser :=
  MkJSONParser [] 0 passthroughJSONNormal passthroughJSONRootValue passthroughJSONNumberMinus 0 false false [] 0 false false false 0 false [] 0
    false passthroughTerminalEventNone zeroUsage false.

(** ** The event stream parser *)

Record passthroughSSEUsageParser := MkSSEParser {
  sp_json : passthroughUsageJSONParser;
  sp_terminalUsage : Usage;
  sp_streamPrefix : bytes;  (** [streamPrefix[:streamPrefixLength]] *)
  sp_streamPrefixResolved : bool;
  sp_lineKind : passthroughSSELineKind;
  sp_lineName : bytes;
  sp_lineNameLength : Z;
  sp_lineNameTooLong : bool;
  sp_lineHeaderComplete : bool;
  sp_lineValueStarted : bool;
  sp_eventName : bytes;
  sp_eventNameLength : Z;
  sp_eventNameTooLong : bool;
  sp_eventTerminal : passthroughTerminalEvent;
  sp_skipFollowingLineFeed : bool;
}.

Definition set_sp_json (x : passthroughUsageJSONParser) (p : passthroughSSEUsageParser) : passthroughSSEUsageParser :=
  MkSSEParser x (sp_terminalUsage p) (sp_streamPrefix p) (sp_streamPrefixResolved p) (sp_lineKind p) (sp_lineName p) (sp_lineNameLength p) (sp_lineNameTooLong p) (sp_lineHeaderComplete p) (sp_lineValueStarted p) (sp_eventName p) (sp_eventNameLength p) (sp_eventNameTooLong p) (sp_eventTerminal p) (sp_skipFollowingLineFeed p).
Definition set_sp_terminalUsage (x : Usage) (p : passthroughSSEUsageParser) : passthroughSSEUsageParser :=
  MkSSEParser (sp_json p) x (sp_streamPrefix p) (sp_streamPrefixResolved p) (sp_lineKind p) (sp_lineName p) (sp_lineNameLength p) (sp_lineNameTooLong p) (sp_lineHeaderComplete p) (sp_lineValueStarted p) (sp_eventName p) (sp_eventNameLength p) (sp_eventNameTooLong p) (sp_eventTerminal p) (sp_skipFollowingLineFeed p).
Definition set_sp_streamPrefix (x : bytes) (p : passthroughSSEUsageParser) : passthroughSSEUsageParser :=
  MkSSEParser (sp_json p) (sp_terminalUsage p) x (sp_streamPrefixResolved p) (sp_lineKind p) (sp_lineName p) (sp_lineNameLength p) (sp_lineNameTooLong p) (sp_lineHeaderComplete p) (sp_lineValueStarted p) (sp_eventName p) (sp_eventNameLength p) (sp_eventNameTooLong p) (sp_eventTerminal p) (sp_skipFollowingLineFeed p).
Definition set_sp_streamPrefixResolved (x : bool) (p : passthroughSSEUsageParser) : passthroughSSEUsageParser :=
  MkSSEParser (sp_json p) (sp_terminalUsage p) (sp_streamPrefix p) x (sp_lineKind p) (sp_lineName p) (sp_lineNameLength p) (sp_lineNameTooLong p) (sp_lineHeaderComplete p) (sp_lineValueStarted p) (sp_eventName p) (sp_eventNameLength p) (sp_eventNameTooLong p) (sp_eventTerminal p) (sp_skipFollowingLineFeed p).
Definition set_sp_lineKind (x : passthroughSSELineKind) (p : passthroughSSEUsageParser) : passthroughSSEUsageParser :=
  MkSSEParser (sp_json p) (sp_terminalUsage p) (sp_streamPrefix p) (sp_streamPrefixResolved p) x (sp_lineName p) (sp_lineNameLength p) (sp_lineNameTooLong p) (sp_lineHeaderComplete p) (sp_lineValueStarted p) (sp_eventName p) (sp_eventNameLength p) (sp_eventNameTooLong p) (sp_eventTerminal p) (sp_skipFollowingLineFeed p).
Definition set_sp_lineName (x : bytes) (p : passthroughSSEUsageParser) : passthroughSSEUsageParser :=
  MkSSEParser (sp_json p) (sp_terminalUsage p) (sp_streamPrefix p) (sp_streamPrefixResolved p) (sp_lineKind p) x (sp_lineNameLength p) (sp_lineNameTooLong p) (sp_lineHeaderComplete p) (sp_lineValueStarted p) (sp_eventName p) (sp_eventNameLength p) (sp_eventNameTooLong p) (sp_eventTerminal p) (sp_skipFollowingLineFeed p).
Definition set_sp_lineNameLength (x : Z) (p : passthroughSSEUsageParser) : passthroughSSEUsageParser :=
  MkSSEParser (sp_json p) (sp_terminalUsage p) (sp_streamPrefix p) (sp_streamPrefixResolved p) (sp_lineKind p) (sp_lineName p) x (sp_lineNameTooLong p) (sp_lineHeaderComplete p) (sp_lineValueStarted p) (sp_eventName p) (sp_eventNameLength p) (sp_eventNameTooLong p) (sp_eventTerminal p) (sp_skipFollowingLineFeed p).
Definition set_sp_lineNameTooLong (x : bool) (p : passthroughSSEUsageParser) : passthroughSSEUsageParser :=
  MkSSEParser (sp_json p) (sp_terminalUsage p) (sp_streamPrefix p) (sp_streamPrefixResolved p) (sp_lineKind p) (sp_lineName p) (sp_lineNameLength p) x (sp_lineHeaderComplete p) (sp_lineValueStarted p) (sp_eventName p) (sp_eventNameLength p) (sp_eventNameTooLong p) (sp_eventTerminal p) (sp_skipFollowingLineFeed p).
Definition set_sp_lineHeaderComplete (x : bool) (p : passthroughSSEUsageParser) : passthroughSSEUsageParser :=
  MkSSEParser (sp_json p) (sp_terminalUsage p) (sp_streamPrefix p) (sp_streamPrefixResolved p) (sp_lineKind p) (sp_lineName p) (sp_lineNameLength p) (sp_lineNameTooLong p) x (sp_lineValueStarted p) (sp_eventName p) (sp_eventNameLength p) (sp_eventNameTooLong p) (sp_eventTerminal p) (sp_skipFollowingLineFeed p).
Definition set_sp_lineValueStarted (x : bool) (p : passthroughSSEUsageParser) : passthroughSSEUsageParser :=
  MkSSEParser (sp_json p) (sp_terminalUsage p) (sp_streamPrefix p) (sp_streamPrefixResolved p) (sp_lineKind p) (sp_lineName p) (sp_lineNameLength p) (sp_lineNameTooLong p) (sp_lineHeaderComplete p) x (sp_eventName p) (sp_eventNameLength p) (sp_eventNameTooLong p) (sp_eventTerminal p) (sp_skipFollowingLineFeed p).
Definition set_sp_eventName (x : bytes) (p : passthroughSSEUsageParser) : passthroughSSEUsageParser :=
  MkSSEParser (sp_json p) (sp_terminalUsage p) (sp_streamPrefix p) (sp_streamPrefixResolved p) (sp_lineKind p) (sp_lineName p) (sp_lineNameLength p) (sp_lineNameTooLong p) (sp_lineHeaderComplete p) (sp_lineValueStarted p) x (sp_eventNameLength p) (sp_eventNameTooLong p) (sp_eventTerminal p) (sp_skipFollowingLineFeed p).
Definition set_sp_eventNameLength (x : Z) (p : passthroughSSEUsageParser) : passthroughSSEUsageParser :=
  MkSSEParser (sp_json p) (sp_terminalUsage p) (sp_streamPrefix p) (sp_streamPrefixResolved p) (sp_lineKind p) (sp_lineName p) (sp_lineNameLength p) (sp_lineNameTooLong p) (sp_lineHeaderComplete p) (sp_lineValueStarted p) (sp_eventName p) x (sp_eventNameTooLong p) (sp_eventTerminal p) (sp_skipFollowingLineFeed p).
Definition set_sp_eventNameTooLong (x : bool) (p : passthroughSSEUsageParser) : passthroughSSEUsageParser :=
  MkSSEParser (sp_json p) (sp_terminalUsage p) (sp_streamPrefix p) (sp_streamPrefixResolved p) (sp_lineKind p) (sp_lineName p) (sp_lineNameLength p) (sp_lineNameTooLong p) (sp_lineHeaderComplete p) (sp_lineValueStarted p) (sp_eventName p) (sp_eventNameLength p) x (sp_eventTerminal p) (sp_skipFollowingLineFeed p).
Definition set_sp_eventTerminal (x : passthroughTerminalEvent) (p : passthroughSSEUsageParser) : passthroughSSEUsageParser :=
  MkSSEParser (sp_json p) (sp_terminalUsage p) (sp_streamPrefix p) (sp_streamPrefixResolved p) (sp_lineKind p) (sp_lineName p) (sp_lineNameLength p) (sp_lineNameTooLong p) (sp_lineHeaderComplete p) (sp_lineValueStarted p) (sp_eventName p) (sp_eventNameLength p) (sp_eventNameTooLong p) x (sp_skipFollowingLineFeed p).
Definition set_sp_skipFollowingLineFeed (x : bool) (p : passthroughSSEUsageParser) : passthroughSSEUsageParser :=
  MkSSEParser (sp_json p) (sp_terminalUsage p) (sp_streamPrefix p) (sp_streamPrefixResolved p) (sp_lineKind p) (sp_lineName p) (sp_lineNameLength p) (sp_lineNameTooLong p) (sp_lineHeaderComplete p) (sp_lineValueStarted p) (sp_eventName p) (sp_eventNameLength p) (sp_eventNameTooLong p) (sp_eventTerminal p) x.

Definition resetLine (p : passthroughSSEUsageParser) : passthroughSSEUsageParser :=
  let p := set_sp_lineKind passthroughSSELineUnknown p in
  let p := set_sp_lineNameLength 0 (set_sp_lineName [] p) in
  let p := set_sp_lineNameTooLong false p in
  let p := set_sp_lineHeaderComplete false p in
  let p := set_sp_lineValueStarted false p in
  set_sp_eventNameTooLong false (set_sp_eventNameLength 0 (set_sp_eventName [] p)).

Definition newPassthroughSSEUsageParser : passthroughSSEUsageParser :=
  resetLine (MkSSEParser emptyJSONParser zeroUsage [] false passthroughSSELineUnknown [] 0 false false false [] 0 false
               passthroughTerminalEventNone false).

Definition currentLineKind (p : passthroughSSEUsageParser) : passthroughSSELineKind :=
  if sp_lineNameTooLong p then passthroughSSELineUnknown
  else if bool_decide (sp_lineName p = lit "data") then passthroughSSELineData
  else if bool_decide (sp_lineName p = lit "event") then passthroughSSELineEvent
  else passthroughSSELineUnknown.

Definition consumeLineNameByte (current : Byte.byte) (p : passthroughSSEUsageParser) : passthroughSSEUsageParser :=
  if bool_decide (current = Byte.x3a) then
    let p := set_sp_lineHeaderComplete true p in set_sp_lineKind (currentLineKind p) p
  else
    let p := if sp_lineNameLength p <? 5 then set_sp_lineName (sp_lineName p ++ [current]) p else set_sp_lineNameTooLong true p in
    set_sp_lineNameLength (sp_lineNameLength p + 1) p.

Definition consumeEventNameByte (current : Byte.byte) (p : passthroughSSEUsageParser) : passthroughSSEUsageParser :=
  let p := if sp_eventNameLength p <? zlen passthroughIncompleteResponseEvent then set_sp_eventName (sp_eventName p ++ [current]) p
           else set_sp_eventNameTooLong true p in
  set_sp_eventNameLength (sp_eventNameLength p + 1) p.

Definition jsonByte (current : Byte.byte) (p : passthroughSSEUsageParser) : passthroughSSEUsageParser :=
  set_sp_json (consumeByte (sp_json p) current) p.

Definition consumeLineValueByte (current : Byte.byte) (p : passthroughSSEUsageParser) : passthroughSSEUsageParser :=
  if negb (sp_lineValueStarted p) && bool_decide (current = Byte.x20) then set_sp_lineValueStarted true p else
  let p := set_sp_lineValueStarted true p in
  match sp_lineKind p with
  | passthroughSSELineData => jsonByte current p
  | passthroughSSELineEvent => consumeEventNameByte current p
  | passthroughSSELineUnknown => p
  end.

Definition finishEvent (p : passthroughSSEUsageParser) : passthroughSSEUsageParser :=
  let json := Finish (sp_json p) in
  let p :=
    if negb (bool_decide (sp_eventTerminal p = passthroughTerminalEventNone)) && bool_decide (jp_terminal json = sp_eventTerminal p) && ValidJSON json
    then set_sp_terminalUsage (jp_usage json) p else p in
  set_sp_eventTerminal passthroughTerminalEventNone (set_sp_json emptyJSONParser p).

Definition finishLine (p : passthroughSSEUsageParser) : passthroughSSEUsageParser :=
  if negb (sp_lineHeaderComplete p) && (sp_lineNameLength p =? 0) then resetLine (finishEvent p) else
  let p := if negb (sp_lineHeaderComplete p) then set_sp_lineKind (currentLineKind p) p else p in
  let p :=
    match sp_lineKind p with
    | passthroughSSELineData => jsonByte Byte.x0a p
    | passthroughSSELineEvent =>
        set_sp_eventTerminal (if sp_eventNameTooLong p then passthroughTerminalEventNone else passthroughTerminalEventForName (sp_eventName p)) p
    | passthroughSSELineUnknown => p
    end in
  resetLine p.

Definition consumeLineByte (p : passthroughSSEUsageParser) (current : Byte.byte) : passthroughSSEUsageParser :=
  if sp_skipFollowingLineFeed p && bool_decide (current = Byte.x0a) then set_sp_skipFollowingLineFeed false p else
  let p := set_sp_skipFollowingLineFeed false p in
  if bool_decide (current = Byte.x0d) then set_sp_skipFollowingLineFeed true (finishLine p)
  else if bool_decide (current = Byte.x0a) then finishLine p
  else if negb (sp_lineHeaderComplete p) then consumeLineNameByte current p
  else consumeLineValueByte current p.

Definition byteOrderMark : bytes := [Byte.xef; Byte.xbb; Byte.xbf].

Definition resolveStreamPrefix (p : passthroughSSEUsageParser) : passthroughSSEUsageParser :=
  if sp_streamPrefixResolved p then p else
  let p := set_sp_streamPrefixResolved true p in
  if bool_decide (sp_streamPrefix p = byteOrderMark) then p else foldl consumeLineByte p (sp_streamPrefix p).

Definition consumeStreamByte (p : passthroughSSEUsageParser) (current : Byte.byte) : passthroughSSEUsageParser :=
  if sp_streamPrefixResolved p then consumeLineByte p current else
  let p := set_sp_streamPrefix (sp_streamPrefix p ++ [current]) p in
  if zlen (sp_streamPrefix p) =? 3 then resolveStreamPrefix p else p.

Definition Write (p : passthroughSSEUsageParser) (chunk : bytes) : passthroughSSEUsageParser := foldl consumeStreamByte p chunk.

(** The method [Usage]: the parser and the answer. *)
Definition readUsage (p : passthroughSSEUsageParser) : passthroughSSEUsageParser * Usage :=
  let p := resolveStreamPrefix p in
  let p := if sp_lineHeaderComplete p || (0 <? sp_lineNameLength p) then finishLine p else p in
  let p := if negb (bool_decide (sp_eventTerminal p = passthroughTerminalEventNone)) || jp_contentSeen (sp_json p) then finishEvent p else p in
  (p, sp_terminalUsage p).

(** ** Examples *)

Definition completedStream : bytes :=
  lit "event: response.completed" ++ [Byte.x0d; Byte.x0a] ++
  lit "data: " ++ jlit "{'type':'response.completed','response':{'usage':{'input_tokens':12,'output_tokens':3," ++ [Byte.x0a] ++
  lit "data:" ++ jlit "'total_tokens':15,'input_tokens_details':{'cached_tokens':8}}}}" ++ [Byte.x0a; Byte.x0a].

Example completedStream_usage : (readUsage (Write newPassthroughSSEUsageParser completedStream)).2 = MkUsage 12 3 15 (Some 8) 12 3.
Proof. vm_compute. reflexivity. Qed.

(** A counter that is no number makes the event worthless, and so does a name that differs. *)
Example counter_invalid :
  (readUsage (Write newPassthroughSSEUsageParser (byteOrderMark ++ lit "event:response.completed" ++ [Byte.x0d] ++
     lit "data:" ++ jlit "{'response':{'usage':{'input_tokens':null}},'type':'response.completed'}"))).2 = zeroUsage.
Proof. vm_compute. reflexivity. Qed.
