(* ===== verification/AdUsageView.v ===== *)
(** * AdUsageView: the reference on trees and the states of the JSON parser

    The usage of a document as a function of its tree ([visit]), the questions the parser asks
    about its frames as places of that tree, and what its steps do to the part of the state
    that matters.  Used by [AdUsageSpec]. *)

From S2P Require Import Prelude GoUtf8 GoStrconv GoText GoSha256 GoJson AdUsage.

Open Scope Z_scope.

(** ** The reference on trees *)

(** Where a value stands in the document of an event. *)
Inductive place :=
| PRoot
| PType
| PResponse
| PUsage
| PDetails
| PCounter (k : passthroughUsageKey)
| POther.

#[export] Instance place_eq : EqDecision place.
Proof. solve_decision. Defined.

Definition placeOf (c : place) (k : passthroughUsageKey) : place :=
  match c, k with
  | PRoot, passthroughUsageKeyType => PType
  | PRoot, passthroughUsageKeyResponse => PResponse
  | PResponse, passthroughUsageKeyUsage => PUsage
  | PUsage, passthroughUsageKeyInputTokens | PUsage, passthroughUsageKeyOutputTokens | PUsage, passthroughUsageKeyTotalTokens
  | PDetails, passthroughUsageKeyCachedTokens => PCounter k
  | PUsage, passthroughUsageKeyInputTokensDetails => PDetails
  | _, _ => POther
  end.

(** The text of a string without escapes between its quotes. *)
Definition plainText (raw : bytes) : option bytes :=
  if bool_decide (backslash ∈ raw) then None else Some (take (length raw - 2) (drop 1 raw)).

Definition keyOf (raw : bytes) : passthroughUsageKey :=
  match plainText raw with Some name => passthroughUsageKeyFor name | None => passthroughUsageKeyNone end.

Definition terminalOf (v : json) : passthroughTerminalEvent :=
  match v with
  | JString raw => match plainText raw with Some name => passthroughTerminalEventForName name | None => passthroughTerminalEventNone end
  | _ => passthroughTerminalEventNone
  end.

(** A counter is an [int] that is not negative, written without a sign, fraction or exponent. *)
Definition counterOf (v : json) : option Z :=
  match v with
  | JNumber raw => n ← digitsValue 0 raw; if n <=? maxInt64 then Some n else None
  | _ => None
  end.

Definition recordCounter (k : passthroughUsageKey) (n : Z) (u : Usage) : Usage :=
  match k with
  | passthroughUsageKeyInputTokens => MkUsage n (CompletionTokens u) (TotalTokens u) (PromptTokensDetails u) n (OutputTokens u)
  | passthroughUsageKeyOutputTokens => MkUsage (PromptTokens u) n (TotalTokens u) (PromptTokensDetails u) (InputTokens u) n
  | passthroughUsageKeyTotalTokens => MkUsage (PromptTokens u) (CompletionTokens u) n (PromptTokensDetails u) (InputTokens u) (OutputTokens u)
  | passthroughUsageKeyCachedTokens => MkUsage (PromptTokens u) (CompletionTokens u) (TotalTokens u) (Some n) (InputTokens u) (OutputTokens u)
  | _ => u
  end.

(** What a new value at a place makes obsolete. *)
Definition supersede (c : place) (u : Usage) : Usage :=
  match c with
  | PResponse | PUsage => zeroUsage
  | PDetails => MkUsage (PromptTokens u) (CompletionTokens u) (TotalTokens u) None (InputTokens u) (OutputTokens u)
  | _ => u
  end.

(** The usage and the type after a value at a place; none when a counter is no counter. *)
Fixpoint visit (c : place) (v : json) (st : Usage * passthroughTerminalEvent) : option (Usage * passthroughTerminalEvent) :=
  let '(u, t) := st in
  match c with
  | PCounter k => n ← counterOf v; Some (recordCounter k n u, t)
  | _ =>
      let st := (supersede c u, if decide (c = PType) then terminalOf v else t) in
      match v with
      | JObject _ fields => foldl (fun st '(key, v) => st ← st; visit (placeOf c (keyOf key)) v st) (Some st) fields
      | _ => Some st
      end
  end.

(** ** Frames and places *)

Definition frameStep (c : place) (f : passthroughJSONFrame) : place := if isObject f then placeOf c (pathKey f) else POther.

(** The place of the value that the innermost open frame belongs to. *)
Definition innermost (fs : list passthroughJSONFrame) : place :=
  match fs with
  | [] => POther
  | root :: rest => foldl frameStep (if isObject root then PRoot else POther) rest
  end.

(** The place of the next value. *)
Definition nextPlace (fs : list passthroughJSONFrame) : place :=
  match last fs with
  | None => PRoot
  | Some f => placeOf (innermost fs) (currentKey f)
  end.

(** The outermost frame has no path key. *)
Definition rooted (fs : list passthroughJSONFrame) : Prop := match fs with [] => True | root :: _ => pathKey root = passthroughUsageKeyNone end.

(** How many frames are open around a value at a place. *)
Definition atLevel (n : nat) (c : place) : Prop :=
  match c with
  | PRoot => n = 0
  | PType | PResponse => n = 1
  | PUsage => n = 2
  | PDetails => n = 3
  | PCounter passthroughUsageKeyCachedTokens => n = 4
  | PCounter _ => n = 3
  | POther => True
  end%nat.

Lemma atLevel_step n c k : atLevel n c -> atLevel (S n) (placeOf c k).
Proof. destruct c as [| | | | |k'|], k; cbn; try done; try lia; destruct k'; cbn; lia. Qed.

Lemma innermost_level fs : fs <> [] -> atLevel (length fs - 1) (innermost fs).
Proof.
  destruct fs as [|root rest]; [done|]. intros _. cbn [innermost length]. replace (S (length rest) - 1)%nat with (length rest) by lia.
  induction rest as [|f rest IH] using rev_ind; [by destruct (isObject root)|]. rewrite foldl_app, length_app. cbn [foldl length]. rewrite Nat.add_1_r.
  unfold frameStep at 1. destruct (isObject f); [by apply atLevel_step|done].
Qed.

Lemma nextPlace_level fs : atLevel (length fs) (nextPlace fs).
Proof.
  unfold nextPlace. destruct fs as [|f fs _] using rev_ind; [done|]. rewrite last_snoc.
  pose proof (innermost_level (fs ++ [f]) ltac:(by destruct fs)) as H. apply (atLevel_step _ _ (currentKey f)) in H.
  rewrite length_app in *. cbn [length] in *. by replace (S (length fs + 1 - 1))%nat with (length fs + 1)%nat in H by lia.
Qed.

Lemma nextPlace_deep fs : (5 <= length fs)%nat -> nextPlace fs = POther.
Proof. intros H. pose proof (nextPlace_level fs) as Hl. destruct (nextPlace fs) as [| | | | |[]|]; cbn in Hl; try lia; done. Qed.

Lemma innermost_snoc fs f : fs <> [] -> innermost (fs ++ [f]) = frameStep (innermost fs) f.
Proof. destruct fs as [|root rest]; [done|]. intros _. cbn [app innermost]. by rewrite foldl_app. Qed.

Definition isCounter (c : place) : bool := match c with PCounter _ => true | _ => false end.

(** *** The questions the parser asks about its frames *)

Definition isAt (c d : place) : bool := bool_decide (c = d).

Lemma placeOf_type c k : isAt (placeOf c k) PType = isAt c PRoot && keyIs k passthroughUsageKeyType.
Proof. by destruct c, k. Qed.
Lemma placeOf_response c k : isAt (placeOf c k) PResponse = isAt c PRoot && keyIs k passthroughUsageKeyResponse.
Proof. by destruct c, k. Qed.
Lemma placeOf_usage c k : isAt (placeOf c k) PUsage = isAt c PResponse && keyIs k passthroughUsageKeyUsage.
Proof. by destruct c, k. Qed.
Lemma placeOf_details c k : isAt (placeOf c k) PDetails = isAt c PUsage && keyIs k passthroughUsageKeyInputTokensDetails.
Proof. by destruct c, k. Qed.
Lemma placeOf_counter c k : isCounter (placeOf c k) =
  isAt c PUsage && (keyIs k passthroughUsageKeyInputTokens || keyIs k passthroughUsageKeyOutputTokens || keyIs k passthroughUsageKeyTotalTokens)
  || isAt c PDetails && keyIs k passthroughUsageKeyCachedTokens.
Proof. by destruct c, k. Qed.
Lemma placeOf_root c k : isAt (placeOf c k) PRoot = false.
Proof. by destruct c, k. Qed.

Lemma frameStep_response c f : isAt (frameStep c f) PResponse = isObject f && (isAt c PRoot && keyIs (pathKey f) passthroughUsageKeyResponse).
Proof. unfold frameStep. destruct (isObject f); [apply placeOf_response|done]. Qed.
Lemma frameStep_usage c f : isAt (frameStep c f) PUsage = isObject f && (isAt c PResponse && keyIs (pathKey f) passthroughUsageKeyUsage).
Proof. unfold frameStep. destruct (isObject f); [apply placeOf_usage|done]. Qed.
Lemma frameStep_details c f : isAt (frameStep c f) PDetails = isObject f && (isAt c PUsage && keyIs (pathKey f) passthroughUsageKeyInputTokensDetails).
Proof. unfold frameStep. destruct (isObject f); [apply placeOf_details|done]. Qed.
Lemma frameStep_root c f : isAt (frameStep c f) PRoot = false.
Proof. unfold frameStep. destruct (isObject f); [apply placeOf_root|done]. Qed.

Lemma root_place root : isAt (if isObject root then PRoot else POther) PRoot = isObject root.
Proof. by destruct (isObject root). Qed.
Lemma root_other root c : c <> PRoot -> c <> POther -> isAt (if isObject root then PRoot else POther) c = false.
Proof. intros. destruct (isObject root); by apply bool_decide_eq_false_2. Qed.

(** A place decides how many frames are open. *)
Lemma place_length fs c n : (forall m, atLevel m c -> m = n) -> nextPlace fs = c -> length fs = n.
Proof. intros H E. apply H. rewrite <- E. apply nextPlace_level. Qed.

Create Rewrite HintDb places.
#[export] Hint Rewrite placeOf_type placeOf_response placeOf_usage placeOf_details placeOf_counter frameStep_response frameStep_usage frameStep_details
  frameStep_root root_place root_other using done : places.

Lemma rootType_place p : jp_overflowDepth p = 0 -> currentValueIsRootType p = isAt (nextPlace (jp_frames p)) PType.
Proof.
  intros Ho. unfold currentValueIsRootType. rewrite Ho. cbn [Z.ltb Z.compare]. destruct (jp_frames p) as [|f [|g l]]; [done| |].
  - unfold nextPlace. cbn [last innermost foldl]. by autorewrite with places.
  - symmetry. apply bool_decide_eq_false_2. intros E. apply (place_length _ _ 1) in E; [done|by intros].
Qed.

Lemma rootResponse_place p : jp_overflowDepth p = 0 -> rooted (jp_frames p) -> currentRootResponseValue p = isAt (nextPlace (jp_frames p)) PResponse.
Proof.
  intros Ho Hr. unfold currentRootResponseValue. rewrite Ho. cbn [Z.ltb Z.compare]. destruct (jp_frames p) as [|f [|g l]]; [done| |].
  - unfold nextPlace. cbn [last innermost foldl rooted] in *. autorewrite with places. rewrite Hr. by rewrite andb_true_r.
  - symmetry. apply bool_decide_eq_false_2. intros E. apply (place_length _ _ 1) in E; [done|by intros].
Qed.

Lemma rootUsage_place p : jp_overflowDepth p = 0 -> rooted (jp_frames p) -> currentRootUsageValue p = isAt (nextPlace (jp_frames p)) PUsage.
Proof.
  intros Ho Hr. unfold currentRootUsageValue. rewrite Ho. cbn [Z.ltb Z.compare]. destruct (jp_frames p) as [|f [|g [|h l]]].
  3: { unfold nextPlace. cbn [last innermost foldl rooted] in *. autorewrite with places. rewrite Hr. by destruct (isObject f), (isObject g). }
  all: symmetry; apply bool_decide_eq_false_2; intros E; apply (place_length _ _ 2) in E; [done|by intros].
Qed.

Lemma usagePath_place root response usage : pathKey root = passthroughUsageKeyNone ->
  isUsagePath root response usage = isAt (innermost [root; response; usage]) PUsage.
Proof.
  intros Hr. unfold isUsagePath. cbn [innermost foldl]. autorewrite with places. rewrite Hr.
  by destruct (isObject root), (isObject response), (isObject usage), (keyIs (pathKey response) _).
Qed.

Lemma rootDetails_place p : jp_overflowDepth p = 0 -> rooted (jp_frames p) ->
  currentRootUsageDetailsValue p = isAt (nextPlace (jp_frames p)) PDetails.
Proof.
  intros Ho Hr. unfold currentRootUsageDetailsValue. rewrite Ho. cbn [Z.ltb Z.compare]. destruct (jp_frames p) as [|f [|g [|h [|i l]]]].
  4: { unfold nextPlace. cbn [last rooted] in *. rewrite usagePath_place by done. by autorewrite with places. }
  all: symmetry; apply bool_decide_eq_false_2; intros E; apply (place_length _ _ 3) in E; [done|by intros].
Qed.

Lemma clearSuperseded_place p : jp_overflowDepth p = 0 -> rooted (jp_frames p) ->
  clearSupersededStructuralUsage p = set_jp_usage (supersede (nextPlace (jp_frames p)) (jp_usage p)) p.
Proof.
  intros Ho Hr. unfold clearSupersededStructuralUsage. rewrite rootResponse_place, rootUsage_place, rootDetails_place by done.
  assert (p = set_jp_usage (jp_usage p) p) as Hid by (by destruct p). by destruct (nextPlace (jp_frames p)).
Qed.

Lemma counter_place p : jp_overflowDepth p = 0 -> rooted (jp_frames p) -> isRootUsageCounter p = isCounter (nextPlace (jp_frames p)).
Proof.
  intros Ho Hr. unfold isRootUsageCounter. rewrite Ho. cbn [Z.eqb negb].
  assert (forall fs, (length fs < 3 \/ 4 < length fs)%nat -> isCounter (nextPlace fs) = false) as Hout.
  { intros fs Hl. pose proof (nextPlace_level fs) as H. destruct (nextPlace fs) as [| | | | |k|]; try done. destruct k; cbn in H; lia. }
  destruct (jp_frames p) as [|f [|g [|h [|i [|j l]]]]]; try (symmetry; apply Hout; cbn; lia).
  - unfold nextPlace. cbn [last rooted] in *. rewrite usagePath_place, placeOf_counter by done. cbn [innermost foldl]. autorewrite with places.
    by destruct (isObject f), (isObject g), (isObject h), (keyIs (pathKey g) _); rewrite ?orb_false_r.
  - unfold nextPlace. cbn [last rooted] in *. rewrite usagePath_place, placeOf_counter by done.
    change (innermost [f; g; h; i]) with (frameStep (innermost [f; g; h]) i). autorewrite with places.
    assert (isAt (innermost [f; g; h]) PResponse = false) as ->.
    { apply bool_decide_eq_false_2. intros E. pose proof (innermost_level [f; g; h] ltac:(done)) as H. rewrite E in H. done. }
    rewrite andb_false_l, andb_false_r. by destruct (isObject i), (isAt (innermost [f; g; h]) PUsage).
Qed.

Lemma placeOf_counter_key c k k' : placeOf c k = PCounter k' -> k' = k.
Proof. destruct c, k; cbn; congruence. Qed.

Lemma record_place p n : jp_overflowDepth p = 0 -> rooted (jp_frames p) ->
  recordUsageNumber n p = match nextPlace (jp_frames p) with PCounter k => set_jp_usage (recordCounter k n (jp_usage p)) p | _ => p end.
Proof.
  intros Ho Hr. pose proof (counter_place p Ho Hr) as Hc. assert (match nextPlace (jp_frames p) with PCounter k => set_jp_usage (recordCounter k n (jp_usage p)) p | _ => p end =
    match topFrame p with
    | Some f => if isRootUsageCounter p then set_jp_usage (recordCounter (currentKey f) n (jp_usage p)) p else p
    | None => p
    end) as ->.
  { rewrite Hc. unfold nextPlace, topFrame. destruct (last (jp_frames p)) as [f|]; [|done].
    destruct (placeOf (innermost (jp_frames p)) (currentKey f)) as [| | | | |k|] eqn:E; try done. by apply placeOf_counter_key in E as ->. }
  clear Hc. unfold isRootUsageCounter, recordUsageNumber, topFrame. rewrite Ho. cbn [Z.eqb negb].
  destruct (jp_frames p) as [|f [|g [|h [|i [|j l]]]]]; try done; cbn [last].
  - destruct (isUsagePath f g h); [|done]. by destruct (currentKey h).
  - destruct (isUsagePath f g h && _) eqn:E1; [|done]. cbn [andb]. destruct (keyIs (currentKey i) _) eqn:E2; [|done].
    by apply bool_decide_eq_true in E2 as ->.
  - match goal with |- context [match ?x with Some _ => _ | None => _ end] => by destruct x end.
Qed.

(** ** Invalid documents stay invalid *)

Definition sticky (f : passthroughUsageJSONParser -> passthroughUsageJSONParser) : Prop := forall p, jp_invalid p = true -> jp_invalid (f p) = true.

Create HintDb sticky discriminated.
Lemma invalidIf_sticky b : sticky (invalidIf b).
Proof. intros p H. by destruct b. Qed.
Lemma clear_sticky : sticky clearSupersededStructuralUsage.
Proof. intros p H. unfold clearSupersededStructuralUsage. by repeat case_match. Qed.
Lemma beginValue_sticky : sticky (fun p => (beginValue p).1).
Proof. intros p H. unfold beginValue. by repeat case_match. Qed.
Lemma beginValueOrInvalid_sticky : sticky beginValueOrInvalid.
Proof. intros p H. unfold beginValueOrInvalid. pose proof (beginValue_sticky p H) as Hb. cbv beta in Hb. destruct (beginValue p). by apply invalidIf_sticky. Qed.
Lemma completeScalar_sticky : sticky completeScalar.
Proof. intros p H. unfold completeScalar. by repeat case_match. Qed.
Lemma record_sticky n : sticky (recordUsageNumber n).
Proof. intros p H. unfold recordUsageNumber. by repeat case_match. Qed.
Lemma appendNumberDigit_sticky b : sticky (appendNumberDigit b).
Proof. intros p H. unfold appendNumberDigit. by repeat case_match. Qed.
Lemma setObjectKey_sticky : sticky setObjectKey.
Proof. intros p H. unfold setObjectKey. by repeat case_match. Qed.
#[export] Hint Resolve invalidIf_sticky clear_sticky beginValueOrInvalid_sticky completeScalar_sticky record_sticky appendNumberDigit_sticky
  setObjectKey_sticky : sticky.

Lemma finishNumber_sticky : sticky finishNumber.
Proof. intros p H. unfold finishNumber. apply completeScalar_sticky. case_match; [apply record_sticky|]; by repeat apply invalidIf_sticky. Qed.

Lemma finishLiteral_sticky : sticky finishLiteral.
Proof. intros p H. unfold finishLiteral. apply completeScalar_sticky. by repeat apply invalidIf_sticky. Qed.

Lemma finishString_sticky : sticky finishString.
Proof.
  intros p H. unfold finishString. case_match; [by apply setObjectKey_sticky, invalidIf_sticky|].
  apply completeScalar_sticky, invalidIf_sticky. case_match; cbn; by apply invalidIf_sticky.
Qed.

Lemma beginScalar_sticky (b : bool) : sticky (fun p => beginValueOrInvalid (clearSupersededStructuralUsage (if b then set_jp_terminal passthroughTerminalEventNone p else p))).
Proof. intros p H. apply beginValueOrInvalid_sticky, clear_sticky. by destruct b. Qed.

Lemma consumeNormal_sticky b : sticky (consumeNormalByte b).
Proof.
  intros p H. unfold consumeNormalByte. assert (forall c, jp_invalid (enterContainer c p) = true) as He.
  { intros c. unfold enterContainer. set (q := beginValueOrInvalid _). assert (jp_invalid q = true) as Hq.
    { apply beginValueOrInvalid_sticky, invalidIf_sticky, clear_sticky. by destruct (currentValueIsRootType p). }
    clearbody q. destruct (0 <? jp_overflowDepth q); [done|]. destruct (topFrame q) as [f|]; [destruct (isObject f)|]; by case_match. }
  destruct (isPassthroughJSONWhitespace b); [done|]. case_bool_decide; [done|]. case_bool_decide; [done|]. destruct (_ || _).
  { unfold leaveContainer. by repeat case_match. }
  case_bool_decide; [unfold consumeComma; by repeat case_match|]. case_bool_decide; [unfold consumeColon; by repeat case_match|].
  case_bool_decide; [unfold beginString; cbn; case_match; [apply beginValueOrInvalid_sticky, clear_sticky|]; done|].
  pose proof (beginScalar_sticky (currentValueIsRootType p) p H) as Hb. destruct (_ || _).
  - unfold beginNumber. cbn [set_jp_mode jp_invalid]. repeat case_match; cbn [set_jp_mode jp_invalid]; try apply appendNumberDigit_sticky; done.
  - unfold beginLiteral, appendLiteralByte. cbn. by repeat case_match.
Qed.

Lemma consumeByte_sticky p b : jp_invalid p = true -> jp_invalid (consumeByte p b) = true.
Proof.
  intros H. unfold consumeByte. change (jp_mode (set_jp_contentSeen true p)) with (jp_mode p). assert (jp_invalid (set_jp_contentSeen true p) = true) as H' by done.
  revert H'. generalize (set_jp_contentSeen true p) as q. clear H. intros q H. destruct (jp_mode p).
  - by apply consumeNormal_sticky.
  - unfold consumeStringByte. repeat case_match; try done; try by apply invalidIf_sticky.
    + by apply finishString_sticky.
    + unfold appendStringByte. by case_match.
  - unfold consumeNumberByte. case_match; [by apply consumeNormal_sticky, finishNumber_sticky|].
    case_match; [unfold consumeNumberAfterMinus|unfold consumeNumberAfterZero|unfold consumeNumberAfterInteger|unfold consumeNumberAfterFractionStart|
      unfold consumeNumberAfterFraction|unfold consumeNumberAfterExponentStart|unfold consumeNumberAfterExponentSign|unfold consumeNumberAfterExponent];
      repeat case_match; try done; try by apply appendNumberDigit_sticky. by apply invalidIf_sticky.
  - unfold consumeLiteralByte. case_match; [by apply consumeNormal_sticky, finishLiteral_sticky|]. unfold appendLiteralByte. by case_match.
Qed.

(** ** Outcomes *)

(** What a document gives from a state on: the usage and the type when it is valid. *)
Definition outcome (p : passthroughUsageJSONParser) (s : bytes) : option (Usage * passthroughTerminalEvent) :=
  let r := Finish (foldl consumeByte p s) in if ValidJSON r then Some (jp_usage r, jp_terminal r) else None.

Lemma Finish_sticky : sticky Finish.
Proof. intros p H. unfold Finish. destruct (jp_mode p); cbn; try done; [by apply finishNumber_sticky|by apply finishLiteral_sticky]. Qed.

Lemma outcome_invalid p s : jp_invalid p = true -> outcome p s = None.
Proof.
  intros H. unfold outcome, ValidJSON. assert (jp_invalid (Finish (foldl consumeByte p s)) = true) as ->; [|done].
  apply Finish_sticky. revert p H. induction s as [|b s IH]; intros p H; [done|]. by apply IH, consumeByte_sticky.
Qed.

Lemma outcome_cons p b s : outcome p (b :: s) = outcome (consumeByte p b) s.
Proof. done. Qed.

(** ** What of a state matters *)

Record view := MkView {
  v_frames : list passthroughJSONFrame;
  v_root : passthroughJSONRootState;
  v_usage : Usage;
  v_terminal : passthroughTerminalEvent;
}.

Definition viewOf (p : passthroughUsageJSONParser) : view := MkView (jp_frames p) (jp_rootState p) (jp_usage p) (jp_terminal p).

Definition sound (m : passthroughJSONMode) (p : passthroughUsageJSONParser) : Prop :=
  jp_mode p = m /\ jp_invalid p = false /\ jp_overflowDepth p = 0 /\ jp_contentSeen p = true.

Lemma consumeByte_sound m p b : sound m p -> consumeByte p b =
  match m with
  | passthroughJSONNormal => consumeNormalByte b p
  | passthroughJSONString => consumeStringByte b p
  | passthroughJSONNumber => consumeNumberByte b p
  | passthroughJSONLiteral => consumeLiteralByte b p
  end.
Proof. intros (Hm & _ & _ & Hc). unfold consumeByte. assert (set_jp_contentSeen true p = p) as -> by (destruct p; cbn in Hc; by subst). by rewrite Hm. Qed.

(** *** Frames around a value *)

Definition expectsFrame (f : passthroughJSONFrame) : bool :=
  if isObject f then bool_decide (objectState f = passthroughJSONObjectValue)
  else bool_decide (arrayState f = passthroughJSONArrayValueOrEnd) || bool_decide (arrayState f = passthroughJSONArrayValue).

(** A value may begin. *)
Definition expects (w : view) : bool :=
  match last (v_frames w) with
  | None => bool_decide (v_root w = passthroughJSONRootValue)
  | Some f => expectsFrame f
  end.

(** The innermost frame once a value has begun, and once it is complete. *)
Definition startFrame (f : passthroughJSONFrame) : passthroughJSONFrame :=
  if isObject f then setObjectState passthroughJSONObjectCommaOrEnd f else setArrayState passthroughJSONArrayCommaOrEnd f.
Definition closeFrame (f : passthroughJSONFrame) : passthroughJSONFrame :=
  if isObject f then setCurrentKey passthroughUsageKeyNone (startFrame f) else startFrame f.

Definition onTop (g : passthroughJSONFrame -> passthroughJSONFrame) (fs : list passthroughJSONFrame) : list passthroughJSONFrame :=
  match last fs with
  | None => []
  | Some f => removelast fs ++ [g f]
  end.

Definition rootAfter (w : view) : passthroughJSONRootState := match v_frames w with [] => passthroughJSONRootComplete | _ :: _ => v_root w end.

(** The view once a value has begun, and after it. *)
Definition startView (t : passthroughTerminalEvent) (w : view) : view :=
  MkView (onTop startFrame (v_frames w)) (rootAfter w) (supersede (nextPlace (v_frames w)) (v_usage w)) t.
Definition closeView (u : Usage) (t : passthroughTerminalEvent) (w : view) : view := MkView (onTop closeFrame (v_frames w)) (rootAfter w) u t.

Lemma onTop_snoc g fs f : onTop g (fs ++ [f]) = fs ++ [g f].
Proof. unfold onTop. by rewrite last_snoc, removelast_last. Qed.

Lemma isObject_start f : isObject (startFrame f) = isObject f.
Proof. unfold startFrame. destruct (isObject f) eqn:E; [exact E|exact E]. Qed.

Lemma onTop_close fs : onTop closeFrame fs = onTop (fun f => if isObject f then setCurrentKey passthroughUsageKeyNone f else f) (onTop startFrame fs).
Proof.
  destruct fs as [|f fs _] using rev_ind; [done|]. rewrite !onTop_snoc, isObject_start. unfold closeFrame. by destruct (isObject f).
Qed.

Lemma innermost_same fs f g : container f = container g -> pathKey f = pathKey g -> innermost (fs ++ [f]) = innermost (fs ++ [g]).
Proof.
  intros Hc Hp. assert (isObject f = isObject g) as Ho by (unfold isObject; by rewrite Hc).
  destruct fs as [|r fs]; [cbn; by rewrite Ho|]. rewrite !innermost_snoc by done. unfold frameStep. by rewrite Ho, Hp.
Qed.

Lemma startFrame_keys f : container (startFrame f) = container f /\ pathKey (startFrame f) = pathKey f /\ currentKey (startFrame f) = currentKey f.
Proof. unfold startFrame. by destruct (isObject f). Qed.

Lemma nextPlace_start fs : nextPlace (onTop startFrame fs) = nextPlace fs.
Proof.
  destruct fs as [|f fs _] using rev_ind; [done|]. rewrite onTop_snoc. unfold nextPlace. rewrite !last_snoc.
  destruct (startFrame_keys f) as (H1 & H2 & H3). by rewrite (innermost_same _ _ f), H3 by done.
Qed.

Lemma rooted_same fs f g : pathKey f = pathKey g -> rooted (fs ++ [f]) -> rooted (fs ++ [g]).
Proof. destruct fs; cbn; congruence. Qed.

Lemma rooted_start fs : rooted fs -> rooted (onTop startFrame fs).
Proof.
  destruct fs as [|f fs _] using rev_ind; [done|]. rewrite onTop_snoc. apply rooted_same. by destruct (startFrame_keys f) as (_ & -> & _).
Qed.

(** ** Beginning a value *)

Lemma beginValue_expects p : jp_overflowDepth p = 0 ->
  beginValue p = if expects (viewOf p) then (set_jp_frames (onTop startFrame (jp_frames p)) (set_jp_rootState (rootAfter (viewOf p)) p), true) else (p, false).
Proof.
  intros Ho. unfold beginValue, topFrame, expects, viewOf. cbn [v_frames v_root]. rewrite Ho. cbn [Z.ltb Z.compare].
  destruct (jp_frames p) as [|f fs _] eqn:E using rev_ind.
  { cbn [last]. case_bool_decide; [|done]. unfold rootAfter. cbn [v_frames]. destruct p; cbn in *; by subst. }
  rewrite last_snoc, onTop_snoc. unfold expectsFrame, startFrame, setTop. rewrite E, removelast_last.
  assert (rootAfter (MkView (fs ++ [f]) (jp_rootState p) (jp_usage p) (jp_terminal p)) = jp_rootState p) as -> by (unfold rootAfter; cbn; by destruct fs).
  assert (set_jp_rootState (jp_rootState p) p = p) as -> by by destruct p.
  destruct (isObject f); cbn [andb negb]; [by case_bool_decide|by destruct (_ || _)].
Qed.

Definition beginScalar (p : passthroughUsageJSONParser) : passthroughUsageJSONParser :=
  beginValueOrInvalid (clearSupersededStructuralUsage (if currentValueIsRootType p then set_jp_terminal passthroughTerminalEventNone p else p)).

Definition startTerminal (w : view) : passthroughTerminalEvent :=
  if decide (nextPlace (v_frames w) = PType) then passthroughTerminalEventNone else v_terminal w.

Lemma begin_cleared m p t : sound m p -> rooted (jp_frames p) -> let q := beginValueOrInvalid (clearSupersededStructuralUsage (set_jp_terminal t p)) in
  if expects (viewOf p) then sound m q /\ viewOf q = startView t (viewOf p) else jp_invalid q = true.
Proof.
  intros (Hm & Hi & Ho & Hc) Hr. cbn zeta. rewrite clearSuperseded_place by done. unfold beginValueOrInvalid. rewrite beginValue_expects by done.
  change (expects (viewOf (set_jp_usage _ (set_jp_terminal t p)))) with (expects (viewOf p)). by destruct (expects (viewOf p)).
Qed.

Lemma beginScalar_starts m p : sound m p -> rooted (jp_frames p) ->
  if expects (viewOf p) then sound m (beginScalar p) /\ viewOf (beginScalar p) = startView (startTerminal (viewOf p)) (viewOf p)
  else jp_invalid (beginScalar p) = true.
Proof.
  intros Hs Hr. pose proof Hs as (_ & _ & Ho & _). unfold beginScalar. rewrite rootType_place by done.
  assert ((if isAt (nextPlace (jp_frames p)) PType then set_jp_terminal passthroughTerminalEventNone p else p) = set_jp_terminal (startTerminal (viewOf p)) p) as ->.
  { unfold startTerminal, isAt. change (v_frames (viewOf p)) with (jp_frames p). case_bool_decide as Hd; [by rewrite decide_True|]. rewrite decide_False by done. by destruct p. }
  by apply begin_cleared.
Qed.

(** *** Where no value may begin *)

Lemma blocked_number b p : sound passthroughJSONNormal p -> rooted (jp_frames p) -> expects (viewOf p) = false -> jp_invalid (beginNumber b p) = true.
Proof.
  intros Hs Hr He. pose proof (beginScalar_starts _ _ Hs Hr) as H. rewrite He in H. unfold beginNumber. fold (beginScalar p).
  cbn [set_jp_mode jp_invalid]. repeat case_match; try apply appendNumberDigit_sticky; done.
Qed.

Lemma blocked_literal b p : sound passthroughJSONNormal p -> rooted (jp_frames p) -> expects (viewOf p) = false -> jp_invalid (beginLiteral b p) = true.
Proof.
  intros Hs Hr He. pose proof (beginScalar_starts _ _ Hs Hr) as H. rewrite He in H. unfold beginLiteral, appendLiteralByte. fold (beginScalar p).
  cbn. by repeat case_match.
Qed.

Lemma beginString_value p : sound passthroughJSONNormal p -> rooted (jp_frames p) -> expectsObjectKey p = false ->
  if expects (viewOf p) then
    let q := beginString p in
    sound passthroughJSONString q /\ viewOf q = startView (v_terminal (viewOf p)) (viewOf p) /\ jp_stringIsKey q = false /\
    jp_stringBuffer q = [] /\ jp_stringLength q = 0 /\ jp_stringTooLong q = false /\ jp_stringEscaped q = false /\ jp_stringEscape q = false /\ jp_stringUnicodeDigits q = 0
  else jp_invalid (beginString p) = true.
Proof.
  intros Hs Hr Hk. cbn zeta. unfold beginString.
  set (p0 := set_jp_stringUnicodeDigits 0 _). assert (expectsObjectKey p0 = false) as -> by exact Hk. cbn [jp_stringIsKey set_jp_stringIsKey negb].
  pose proof Hs as (Hm & Hi & Ho & Hc).
  pose proof (begin_cleared passthroughJSONNormal (set_jp_stringIsKey false p0) (jp_terminal p) ltac:(done) Hr) as H. cbv zeta in H.
  assert (set_jp_terminal (jp_terminal p) (set_jp_stringIsKey false p0) = set_jp_stringIsKey false p0) as E by done. rewrite E in H. clear E.
  change (expects (viewOf (set_jp_stringIsKey false p0))) with (expects (viewOf p)) in H.
  rewrite clearSuperseded_place in * by done. unfold beginValueOrInvalid in *. rewrite beginValue_expects in * by done.
  change (expects (viewOf (set_jp_usage _ _))) with (expects (viewOf p)) in *. by destruct (expects (viewOf p)).
Qed.

Lemma blocked_enter c p : sound passthroughJSONNormal p -> rooted (jp_frames p) -> expects (viewOf p) = false -> jp_invalid (enterContainer c p) = true.
Proof.
  intros Hs Hr He. unfold enterContainer. rewrite rootType_place by apply Hs.
  set (q := beginValueOrInvalid _). assert (jp_invalid q = true) as Hq.
  { subst q. set (p1 := if isAt _ _ then _ else p). assert (jp_frames p1 = jp_frames p /\ jp_overflowDepth p1 = 0 /\ jp_rootState p1 = jp_rootState p) as (E1 & E2 & E3).
    { destruct Hs as (_ & _ & Ho & _). subst p1. by destruct (isAt _ _). }
    rewrite clearSuperseded_place by (rewrite ?E1; done). unfold beginValueOrInvalid.
    set (p2 := set_jp_usage _ p1). assert (forall b, jp_overflowDepth (invalidIf b p2) = 0 /\ jp_frames (invalidIf b p2) = jp_frames p /\ jp_rootState (invalidIf b p2) = jp_rootState p) as Hb.
    { intros b. by destruct b. }
    destruct (Hb (isRootUsageCounter p2)) as (F1 & F2 & F3). rewrite beginValue_expects by done.
    assert (expects (viewOf (invalidIf (isRootUsageCounter p2) p2)) = false) as ->; [|done]. unfold expects, viewOf in *. cbn [v_frames v_root] in *. by rewrite F2, F3. }
  clearbody q. destruct (0 <? jp_overflowDepth q); [done|]. destruct (topFrame q) as [f|]; [destruct (isObject f)|]; by case_match.
Qed.

(** ** After a value *)

(** No value, key, comma or end is open but for what follows a value. *)
Definition closed (w : view) : Prop :=
  match last (v_frames w) with
  | None => v_root w = passthroughJSONRootComplete
  | Some f => if isObject f then objectState f = passthroughJSONObjectCommaOrEnd else arrayState f = passthroughJSONArrayCommaOrEnd
  end.

Lemma closed_expects w : closed w -> expects w = false.
Proof.
  unfold closed, expects, expectsFrame. destruct (last (v_frames w)) as [f|]; [|by intros ->]. destruct (isObject f); intros ->; done.
Qed.

Lemma isObject_close f : isObject (closeFrame f) = isObject f.
Proof. unfold closeFrame. destruct (isObject f) eqn:E; [|by rewrite isObject_start]. unfold isObject in *. rewrite <- E. cbn. by rewrite (proj1 (startFrame_keys f)). Qed.

Lemma closeView_closed u t w : closed (closeView u t w).
Proof.
  unfold closed, closeView, rootAfter. cbn [v_frames v_root]. destruct (v_frames w) as [|f fs _] using rev_ind; [done|].
  rewrite onTop_snoc, last_snoc, isObject_close. unfold closeFrame, startFrame. by destruct (isObject f) eqn:E.
Qed.

Lemma rooted_close fs : rooted fs -> rooted (onTop closeFrame fs).
Proof.
  destruct fs as [|f fs _] using rev_ind; [done|]. rewrite onTop_snoc. apply rooted_same. unfold closeFrame.
  destruct (startFrame_keys f) as (_ & H & _). by destruct (isObject f).
Qed.

Lemma expectsObjectKey_view p : jp_overflowDepth p = 0 -> expectsObjectKey p =
  match last (v_frames (viewOf p)) with
  | Some f => isObject f && (bool_decide (objectState f = passthroughJSONObjectKeyOrEnd) || bool_decide (objectState f = passthroughJSONObjectKey))
  | None => false
  end.
Proof. intros Ho. unfold expectsObjectKey. by rewrite Ho. Qed.

(** The bytes that may follow a value at once are those that end a number. *)
Lemma after_junk p b : sound passthroughJSONNormal p -> rooted (jp_frames p) -> closed (viewOf p) ->
  isPassthroughJSONValueDelimiter b = false -> jp_invalid (consumeByte p b) = true.
Proof.
  intros Hs Hr Hc Hb. pose proof (closed_expects _ Hc) as He. rewrite (consumeByte_sound _ _ _ Hs).
  unfold isPassthroughJSONValueDelimiter in Hb. rewrite !orb_false_iff in Hb. destruct Hb as [[[Hw H1] H2] H3].
  unfold consumeNormalByte. rewrite Hw, H1, H2, H3. cbn [orb].
  destruct (bool_decide (b = Byte.x7b)); [by apply blocked_enter|]. destruct (bool_decide (b = Byte.x5b)); [by apply blocked_enter|].
  destruct (bool_decide (b = Byte.x3a)).
  { unfold consumeColon, topFrame. unfold closed in Hc. cbn [v_frames viewOf] in Hc. change (v_frames (viewOf p)) with (jp_frames p) in Hc.
    destruct (last (jp_frames p)) as [f|]; [|done]. destruct (0 <? _); [done|]. destruct (isObject f); [|done]. by rewrite Hc. }
  destruct (bool_decide (b = dquote)).
  { assert (expectsObjectKey p = false) as Hk.
    { rewrite expectsObjectKey_view by apply Hs. unfold closed in Hc. destruct (last _) as [f|]; [|done]. destruct (isObject f); [|done]. by rewrite Hc. }
    pose proof (beginString_value p Hs Hr Hk) as H0. by rewrite He in H0. }
  destruct (_ || _); [by apply blocked_number|by apply blocked_literal].
Qed.

(** White space is skipped. *)
Lemma space_same b : isPassthroughJSONWhitespace b = isJSONSpace b.
Proof. unfold isPassthroughJSONWhitespace, isJSONSpace. by rewrite <- !orb_assoc, (orb_comm (bool_decide (b = Byte.x0a))). Qed.

Lemma skip_run p s : sound passthroughJSONNormal p -> outcome p s = outcome p (skipSpace s).
Proof.
  intros Hs. induction s as [|b s IH]; [done|]. cbn [skipSpace]. destruct (isJSONSpace b) eqn:E; [|done].
  rewrite outcome_cons, (consumeByte_sound _ _ _ Hs). unfold consumeNormalByte. by rewrite space_same, E.
Qed.

(** ** Scalars end *)

(** Normal mode again after a number or a literal. *)
Definition normal (p : passthroughUsageJSONParser) : passthroughUsageJSONParser := set_jp_mode passthroughJSONNormal p.

Lemma normal_sound m p : sound m p -> sound passthroughJSONNormal (normal p).
Proof. by intros (_ & H1 & H2 & H3). Qed.

(** What the end of a scalar makes of the usage: [value] is its counter. *)
Definition scalarUsage (w : view) (value : option Z) (u : Usage) : option Usage :=
  match nextPlace (v_frames w) with
  | PCounter k => (fun n => recordCounter k n u) <$> value
  | _ => Some u
  end.

Definition scalarEnds (w : view) (value : option Z) (u : Usage) (t : passthroughTerminalEvent) (q : passthroughUsageJSONParser) : Prop :=
  match scalarUsage w value u with
  | None => jp_invalid q = true
  | Some u => sound passthroughJSONNormal (normal q) /\ viewOf q = closeView u t w
  end.

Lemma completeScalar_view m q w u t : sound m q -> viewOf q = MkView (onTop startFrame (v_frames w)) (rootAfter w) u t ->
  sound m (completeScalar q) /\ viewOf (completeScalar q) = closeView u t w.
Proof.
  intros Hs Hv. pose proof Hs as (Hm & Hi & Ho & Hc). unfold completeScalar, closeView. rewrite onTop_close. rewrite Ho. cbn [Z.ltb Z.compare].
  assert (jp_frames q = onTop startFrame (v_frames w)) as Ef by (by injection Hv). unfold topFrame. rewrite Ef.
  destruct (v_frames w) as [|f fs _] using rev_ind; [done|]. rewrite !onTop_snoc, last_snoc in *. cbv beta. destruct (isObject (startFrame f)) eqn:E; [|done].
  unfold setTop. rewrite Ef, removelast_last. split; [done|]. injection Hv as _ Hr Hu Ht. unfold viewOf. cbn. by rewrite Hr, Hu, Ht.
Qed.

(** A number that is complete; [value] is its value when it is a counter. *)
Lemma finishNumber_ends q w u t : sound passthroughJSONNumber q -> rooted (v_frames w) ->
  viewOf q = MkView (onTop startFrame (v_frames w)) (rootAfter w) u t -> numberIsComplete q = true ->
  scalarEnds w (if numberIsInteger q && jp_numberFits q && negb (jp_numberNegative q) then Some (jp_number q) else None) u t (finishNumber q).
Proof.
  intros Hs Hr Hv Hn. pose proof Hs as (Hm & Hi & Ho & Hc). assert (jp_frames q = onTop startFrame (v_frames w)) as Ef by (by injection Hv).
  assert (rooted (jp_frames q)) as Hrq by (rewrite Ef; by apply rooted_start).
  assert (nextPlace (jp_frames q) = nextPlace (v_frames w)) as En by (rewrite Ef; apply nextPlace_start).
  unfold scalarEnds, scalarUsage, finishNumber. rewrite Hn. cbn [negb invalidIf]. rewrite counter_place, En by done.
  assert (jp_usage q = u) as Eu by (by injection Hv).
  set (ok := numberIsInteger q && jp_numberFits q && negb (jp_numberNegative q)).
  assert (negb (numberIsInteger q) || negb (jp_numberFits q) || jp_numberNegative q = negb ok) as ->.
  { subst ok. by destruct (numberIsInteger q), (jp_numberFits q), (jp_numberNegative q). }
  assert (forall b, numberIsInteger (invalidIf b q) && jp_numberFits (invalidIf b q) && negb (jp_numberNegative (invalidIf b q)) = ok) as Hok by (by intros []).
  rewrite Hok. assert (isCounter (nextPlace (v_frames w)) = false -> forall n, recordUsageNumber n q = q) as Hrec.
  { intros Hf n. rewrite record_place, En by done. by destruct (nextPlace (v_frames w)). }
  destruct (nextPlace (v_frames w)) as [| | | | |k|] eqn:Ep; cbn [isCounter andb invalidIf]; rewrite ?Hrec by done;
    try (assert ((if ok then q else q) = q) as -> by (by destruct ok); destruct (completeScalar_view _ q w u t Hs Hv);
         split; [by eapply normal_sound|done]).
  destruct ok; cbn [negb invalidIf fmap option_fmap option_map]; [|by apply completeScalar_sticky].
  rewrite record_place, En by done. destruct (completeScalar_view passthroughJSONNumber (set_jp_usage (recordCounter k (jp_number q) (jp_usage q)) q) w
    (recordCounter k (jp_number q) u) t) as [H1 H2]; [done| |split; [by eapply normal_sound|done]].
  injection Hv as V1 V2 V3 V4. unfold viewOf. cbn. by rewrite V1, V2, V3, V4.
Qed.

Definition isWord (s : bytes) : bool := bool_decide (s = lit "true") || bool_decide (s = lit "false") || bool_decide (s = lit "null").

Lemma finishLiteral_ends q w u t : sound passthroughJSONLiteral q -> rooted (v_frames w) ->
  viewOf q = MkView (onTop startFrame (v_frames w)) (rootAfter w) u t -> jp_literalLength q <= 5 -> isWord (jp_literalBuffer q) = true ->
  scalarEnds w None u t (finishLiteral q).
Proof.
  intros Hs Hr Hv Hl Hw. pose proof Hs as (Hm & Hi & Ho & Hc). assert (jp_frames q = onTop startFrame (v_frames w)) as Ef by (by injection Hv).
  assert (rooted (jp_frames q)) as Hrq by (rewrite Ef; by apply rooted_start).
  unfold scalarEnds, scalarUsage, finishLiteral. unfold isWord in Hw. rewrite Hw. replace (5 <? jp_literalLength q) with false by lia. cbn [orb negb invalidIf].
  rewrite counter_place, Ef, nextPlace_start by done. destruct (completeScalar_view _ _ _ _ _ Hs Hv) as [H1 H2].
  destruct (nextPlace (v_frames w)); cbn [isCounter invalidIf fmap option_fmap option_map];
    try (split; [by eapply normal_sound|done]). by apply completeScalar_sticky.
Qed.
