(* ===== verification/AdUsageScalar.v ===== *)
(** * AdUsageScalar: numbers and literals of the usage parser

    What the JSON parser of [AdUsage] does on a number or a literal is what the scanner of
    [GoJson] says, up to the byte that ends it.  Used by [AdUsageSpec]. *)

From S2P Require Import Prelude GoUtf8 GoStrconv GoText GoSha256 GoJson AdUsage AdUsageView.

Open Scope Z_scope.

(** ** Scalars *)

(** How a document goes on after a value. *)
Definition continues (w : view) (result : option (Usage * passthroughTerminalEvent)) (p : passthroughUsageJSONParser) (s rest : bytes) : Prop :=
  match result with
  | None => outcome p s = None
  | Some (u, t) => exists p', sound passthroughJSONNormal p' /\ viewOf p' = closeView u t w /\ outcome p s = outcome p' rest
  end.

Lemma visit_scalar c v u t : (forall raw fields, v <> JObject raw fields) ->
  visit c v (u, t) = (fun u => (u, if decide (c = PType) then terminalOf v else t)) <$>
    match c with PCounter k => (fun n => recordCounter k n (supersede c u)) <$> counterOf v | _ => Some (supersede c u) end.
Proof.
  intros Hv. destruct c; cbn [visit supersede]; try (destruct v; cbn [fmap option_fmap option_map]; try done; by edestruct Hv).
  rewrite decide_False by done. destruct v; cbn [visit]; by destruct (counterOf _).
Qed.

(** The bytes that end a scalar at once. *)
Definition stops (q : passthroughUsageJSONParser) (rest : bytes) : Prop :=
  forall c, head rest = Some c -> isPassthroughJSONValueDelimiter c = false -> jp_invalid (consumeByte q c) = true.

Inductive ending : passthroughJSONMode -> (passthroughUsageJSONParser -> passthroughUsageJSONParser) -> Prop :=
| ending_number : ending passthroughJSONNumber finishNumber
| ending_literal : ending passthroughJSONLiteral finishLiteral.

Lemma ending_delimiter m fin q c : ending m fin -> sound m q -> isPassthroughJSONValueDelimiter c = true ->
  consumeByte q c = consumeNormalByte c (normal (fin q)).
Proof.
  intros He Hs Hc. rewrite (consumeByte_sound _ _ _ Hs). destruct He; [unfold consumeNumberByte|unfold consumeLiteralByte]; by rewrite Hc.
Qed.

Lemma ending_finish m fin q : ending m fin -> sound m q -> outcome q [] = outcome (normal (fin q)) [].
Proof. intros He (Hm & _). unfold outcome, Finish. cbn [foldl]. rewrite Hm. by destruct He. Qed.

(** What follows makes the document invalid unless it may follow a scalar. *)
Definition dies (q : passthroughUsageJSONParser) (rest : bytes) : Prop :=
  forall c, head rest = Some c -> isPassthroughJSONValueDelimiter c = false -> outcome q rest = None.

Lemma stops_dies q rest : stops q rest -> dies q rest.
Proof. intros H c Hc Hd. destruct rest as [|c' rest]; [done|]. injection Hc as ->. rewrite outcome_cons. apply outcome_invalid. by apply H. Qed.

Lemma invalid_dead m fin q rest : ending m fin -> sound m q -> jp_invalid (fin q) = true -> dies q rest -> outcome q rest = None.
Proof.
  intros He Hs Hi Hst. destruct rest as [|c rest]; [rewrite (ending_finish _ _ _ He Hs); by apply outcome_invalid|].
  destruct (isPassthroughJSONValueDelimiter c) eqn:Ec; [|by eapply Hst].
  rewrite outcome_cons. apply outcome_invalid. rewrite (ending_delimiter _ _ _ _ He Hs Ec). by apply consumeNormal_sticky.
Qed.

Lemma scalar_continues m fin w value u t p s q rest : ending m fin -> sound m q -> rooted (v_frames w) ->
  scalarEnds w value u t (fin q) -> dies q rest -> outcome p s = outcome q rest ->
  continues w ((fun u => (u, t)) <$> scalarUsage w value u) p s rest.
Proof.
  intros He Hs Hr Hends Hst Ho. unfold scalarEnds in Hends. destruct (scalarUsage w value u) as [u'|]; cbn.
  2: { rewrite Ho. by eapply invalid_dead. }
  destruct Hends as [Hn Hv]. exists (normal (fin q)). split_and!; [done|done|]. rewrite Ho.
  destruct rest as [|c rest]; [by eapply ending_finish|]. destruct (isPassthroughJSONValueDelimiter c) eqn:Ec.
  - rewrite !outcome_cons, (ending_delimiter _ _ _ _ He Hs Ec). by rewrite (consumeByte_sound _ _ _ Hn).
  - rewrite (Hst c eq_refl Ec). symmetry. rewrite outcome_cons. apply outcome_invalid. apply after_junk; [done| | |done].
    + change (jp_frames (normal (fin q))) with (v_frames (viewOf (fin q))). rewrite Hv. by apply rooted_close.
    + change (viewOf (normal (fin q))) with (viewOf (fin q)). rewrite Hv. apply closeView_closed.
Qed.

(** *** Numbers *)

Definition inNumber (v : view) (st : passthroughJSONNumberState) (negative : bool) (q : passthroughUsageJSONParser) : Prop :=
  sound passthroughJSONNumber q /\ viewOf q = v /\ jp_numberState q = st /\ jp_numberNegative q = negative.

(** What is known of the value [n] of the digits. *)
Definition tracks (q : passthroughUsageJSONParser) (n : Z) : Prop :=
  0 <= n /\ if jp_numberFits q then jp_number q = n /\ n <= maxInt64 else maxInt64 < n.

Lemma digit_range c : isDigit c = true -> 48 <= b2z c <= 57.
Proof. unfold isDigit. lia. Qed.

Lemma digit_plainByte c : isDigit c = true -> isPassthroughJSONValueDelimiter c = false /\ isExponent c = false /\
  bool_decide (c = Byte.x2e) = false /\ bool_decide (c = Byte.x2b) = false /\ bool_decide (c = Byte.x2d) = false.
Proof. by destruct c. Qed.

Lemma exponent_plainByte c : isExponent c = true -> isPassthroughJSONValueDelimiter c = false /\ isDigit c = false /\ bool_decide (c = Byte.x2e) = false.
Proof. by destruct c. Qed.

Lemma append_tracks c q n : isDigit c = true -> tracks q n -> tracks (appendNumberDigit c q) (n * 10 + (b2z c - 48)).
Proof.
  intros Hd%digit_range [H0 H]. unfold tracks, appendNumberDigit. split; [lia|].
  assert (0 <= maxInt64 - (b2z c - 48)) as Hp by (unfold maxInt64; lia).
  pose proof (Z.quot_rem' (maxInt64 - (b2z c - 48)) 10). pose proof (Z.rem_bound_pos (maxInt64 - (b2z c - 48)) 10 Hp ltac:(lia)).
  destruct (Z.ltb_spec (Z.quot (maxInt64 - (b2z c - 48)) 10) (jp_number q)); cbn; destruct (jp_numberFits q); lia.
Qed.

Lemma append_inNumber c v st negative q : inNumber v st negative q -> inNumber v st negative (appendNumberDigit c q).
Proof. intros ((H1 & H2 & H3 & H4) & H5 & H6 & H7). unfold appendNumberDigit. by case_match. Qed.

Lemma setState_inNumber st' v st negative q : inNumber v st negative q -> inNumber v st' negative (set_jp_numberState st' q).
Proof. intros ((H1 & H2 & H3 & H4) & H5 & H6 & H7). done. Qed.

Lemma number_byte v st negative q c : inNumber v st negative q -> isPassthroughJSONValueDelimiter c = false ->
  consumeByte q c =
  match st with
  | passthroughJSONNumberMinus => consumeNumberAfterMinus c q
  | passthroughJSONNumberZero => consumeNumberAfterZero c q
  | passthroughJSONNumberInteger => consumeNumberAfterInteger c q
  | passthroughJSONNumberFractionStart => consumeNumberAfterFractionStart c q
  | passthroughJSONNumberFraction => consumeNumberAfterFraction c q
  | passthroughJSONNumberExponentStart => consumeNumberAfterExponentStart c q
  | passthroughJSONNumberExponentSign => consumeNumberAfterExponentSign c q
  | passthroughJSONNumberExponent => consumeNumberAfterExponent c q
  end.
Proof. intros (Hs & _ & Hst & _) Hc. rewrite (consumeByte_sound _ _ _ Hs). unfold consumeNumberByte. by rewrite Hc, Hst. Qed.

(** A number that ends before it is complete. *)
Lemma incomplete_dead q rest v st negative : inNumber v st negative q -> numberIsComplete q = false -> stops q rest -> outcome q rest = None.
Proof.
  intros (Hs & _ & _ & _) Hn Hst%stops_dies. revert Hst. apply (invalid_dead _ _ _ _ ending_number Hs). unfold finishNumber. rewrite Hn. cbn [negb invalidIf].
  apply completeScalar_sticky. case_match; [apply record_sticky|]; by apply invalidIf_sticky.
Qed.

Definition noDigit (s : bytes) : Prop := forall c, head s = Some c -> isDigit c = false.

Lemma digits_rest s : noDigit (digits s).2.
Proof.
  induction s as [|b s IH]; [by intros c|]. cbn [digits]. destruct (isDigit b) eqn:E; [by destruct (digits s)|]. intros c [= <-]. done.
Qed.

Lemma digitsLoop_run st s q v negative : st = passthroughJSONNumberFraction \/ st = passthroughJSONNumberExponent -> inNumber v st negative q ->
  outcome q s = outcome q (digits s).2.
Proof.
  intros Hst Hq. induction s as [|b s IH]; [done|]. cbn [digits]. destruct (isDigit b) eqn:E; [|done]. destruct (digits s) as [ds rest] eqn:Ed. cbn [snd] in *.
  rewrite outcome_cons. destruct (digit_plainByte _ E) as [Hd _]. rewrite (number_byte _ _ _ _ _ Hq Hd).
  destruct Hst as [->| ->]; [unfold consumeNumberAfterFraction|unfold consumeNumberAfterExponent]; by rewrite E.
Qed.

Lemma digitsInt_run s q v negative n : inNumber v passthroughJSONNumberInteger negative q -> tracks q n ->
  exists q' n', inNumber v passthroughJSONNumberInteger negative q' /\ tracks q' n' /\ digitsValue n (digits s).1 = Some n' /\
    outcome q s = outcome q' (digits s).2.
Proof.
  revert q n. induction s as [|b s IH]; intros q n Hq Ht; [by exists q, n|]. cbn [digits]. destruct (isDigit b) eqn:E; [|by exists q, n].
  destruct (IH _ _ (append_inNumber b _ _ _ _ Hq) (append_tracks _ _ _ E Ht)) as (q' & n' & H1 & H2 & H3 & H4).
  destruct (digits s) as [ds rest]. exists q', n'. split_and!; [done|done|cbn; by rewrite E|]. rewrite outcome_cons.
  destruct (digit_plainByte _ E) as [Hd _]. rewrite (number_byte _ _ _ _ _ Hq Hd). unfold consumeNumberAfterInteger. by rewrite E.
Qed.

(** The exponent and what follows. *)
Lemma exponent_run v st negative q s : inNumber v st negative q -> numberIsComplete q = true ->
  (forall c, isExponent c = true -> consumeByte q c = set_jp_numberState passthroughJSONNumberExponentStart q) ->
  (forall c, head s = Some c -> isExponent c = false -> isPassthroughJSONValueDelimiter c = false -> jp_invalid (consumeByte q c) = true) ->
  match scanExponent s with
  | None => outcome q s = None
  | Some (ex, rest) => exists q' st', inNumber v st' negative q' /\ numberIsComplete q' = true /\ outcome q s = outcome q' rest /\ stops q' rest /\
      (if decide (ex = []) then q' = q else numberIsInteger q' = false)
  end.
Proof.
  intros Hq Hn He Hstop. destruct s as [|c s]; cbn [scanExponent]; [by exists q, st; split_and!|].
  change (bool_decide (c = Byte.x65) || bool_decide (c = Byte.x45)) with (isExponent c). destruct (isExponent c) eqn:Ec.
  2: { exists q, st. split_and!; try done. intros c' [= <-] Hd. by apply Hstop. }
  rewrite outcome_cons, (He _ Ec). set (q1 := set_jp_numberState _ q).
  assert (inNumber v passthroughJSONNumberExponentStart negative q1) as H1 by (by eapply setState_inNumber).
  assert (forall st1 q2 t, st1 = passthroughJSONNumberExponentStart \/ st1 = passthroughJSONNumberExponentSign -> inNumber v st1 negative q2 ->
      (st1 = passthroughJSONNumberExponentStart -> forall c, head t = Some c -> bool_decide (c = Byte.x2b) || bool_decide (c = Byte.x2d) = false) ->
      match digits1 t with
      | None => outcome q2 t = None
      | Some (ds, rest) => exists q', inNumber v passthroughJSONNumberExponent negative q' /\ outcome q2 t = outcome q' rest /\ stops q' rest
      end) as Hdig.
  { intros st1 q2 t Hst1 Hq2 Hsign. unfold digits1. destruct t as [|d t].
    { apply (incomplete_dead _ _ _ _ _ Hq2); [|by intros c']. destruct Hq2 as (_ & _ & E & _). unfold numberIsComplete. rewrite E. by destruct Hst1 as [->| ->]. }
    cbn [digits]. destruct (isDigit d) eqn:Ed.
    - pose proof (digits_rest t) as Hr. pose proof (digitsLoop_run passthroughJSONNumberExponent t) as Hl. destruct (digits t) as [ds rest]. cbn [snd] in *.
      destruct (digit_plainByte _ Ed) as (Hd & _ & _ & Hd1 & Hd2). assert (consumeByte q2 d = set_jp_numberState passthroughJSONNumberExponent q2) as Eq.
      { rewrite (number_byte _ _ _ _ _ Hq2 Hd). destruct Hst1 as [->| ->]; [unfold consumeNumberAfterExponentStart; by rewrite Hd1, Hd2, Ed|].
        unfold consumeNumberAfterExponentSign. by rewrite Ed. }
      assert (inNumber v passthroughJSONNumberExponent negative (set_jp_numberState passthroughJSONNumberExponent q2)) as Hq3 by (by eapply setState_inNumber).
      exists (set_jp_numberState passthroughJSONNumberExponent q2). split_and!; [done|rewrite outcome_cons, Eq; eapply Hl; [by right|done]|].
      intros c' Hc' Hdel. rewrite (number_byte _ _ _ _ _ Hq3 Hdel). unfold consumeNumberAfterExponent. by rewrite (Hr _ Hc').
    - apply (incomplete_dead _ _ _ _ _ Hq2).
      + destruct Hq2 as (_ & _ & E & _). unfold numberIsComplete. rewrite E. by destruct Hst1 as [->| ->].
      + intros c' [= <-] Hdel. rewrite (number_byte _ _ _ _ _ Hq2 Hdel). destruct Hst1 as [->| ->].
        * unfold consumeNumberAfterExponentStart. by rewrite (Hsign eq_refl d eq_refl), Ed.
        * unfold consumeNumberAfterExponentSign. by rewrite Ed. }
  assert (forall st1 q2 t sign, st1 = passthroughJSONNumberExponentStart \/ st1 = passthroughJSONNumberExponentSign -> inNumber v st1 negative q2 ->
      (st1 = passthroughJSONNumberExponentStart -> forall c, head t = Some c -> bool_decide (c = Byte.x2b) || bool_decide (c = Byte.x2d) = false) ->
      outcome q1 s = outcome q2 t ->
      match ('(ds, rest) ← digits1 t; Some (c :: sign ++ ds, rest)) with
      | None => outcome q1 s = None
      | Some (ex, rest) => exists q' st', inNumber v st' negative q' /\ numberIsComplete q' = true /\ outcome q1 s = outcome q' rest /\ stops q' rest /\
          (if decide (ex = []) then q' = q else numberIsInteger q' = false)
      end) as Hall.
  { intros st1 q2 t sign Hst1 Hq2 Hsign Ho. specialize (Hdig st1 q2 t Hst1 Hq2 Hsign). destruct (digits1 t) as [[ds rest]|]; cbn; [|by rewrite Ho].
    destruct Hdig as (q' & Hq' & Eq & Hst). exists q', passthroughJSONNumberExponent. rewrite Ho.
    destruct Hq' as (A & B & C & D). unfold numberIsComplete, numberIsInteger. rewrite C. by split_and!. }
  destruct s as [|c2 s2]; cbn [scanSign]; [by apply (Hall passthroughJSONNumberExponentStart q1 [] []); [left| |intros _ c'|]|].
  destruct (_ || _) eqn:E2.
  - apply (Hall passthroughJSONNumberExponentSign (set_jp_numberState passthroughJSONNumberExponentSign q1) s2 [c2]); [by right|by eapply setState_inNumber|done|].
    rewrite outcome_cons. assert (isPassthroughJSONValueDelimiter c2 = false) as Hdel.
    { apply orb_true_iff in E2 as [->%bool_decide_eq_true| ->%bool_decide_eq_true]; done. }
    rewrite (number_byte _ _ _ _ _ H1 Hdel). unfold consumeNumberAfterExponentStart. by rewrite E2.
  - apply (Hall passthroughJSONNumberExponentStart q1 (c2 :: s2) []); [by left|done| |done]. intros _ c' [= <-]. done.
Qed.

(** The fraction, the exponent and what follows the digits of the integer. *)
Lemma fraction_run v st negative q s : inNumber v st negative q -> st = passthroughJSONNumberZero \/ st = passthroughJSONNumberInteger /\ noDigit s ->
  match ('(fraction, s1) ← scanFraction s; '(exponent, rest) ← scanExponent s1; Some (fraction ++ exponent, rest)) with
  | None => outcome q s = None
  | Some (text, rest) => exists q' st', inNumber v st' negative q' /\ numberIsComplete q' = true /\ outcome q s = outcome q' rest /\ stops q' rest /\
      (if decide (text = []) then q' = q else numberIsInteger q' = false)
  end.
Proof.
  intros Hq Hst. assert (numberIsComplete q = true) as Hn.
  { destruct Hq as (_ & _ & E & _). unfold numberIsComplete. rewrite E. by destruct Hst as [->|[-> _]]. }
  assert (forall c, isExponent c = true -> consumeByte q c = set_jp_numberState passthroughJSONNumberExponentStart q) as He.
  { intros c Hc. destruct (exponent_plainByte _ Hc) as (Hd & Hdig & Hdot). rewrite (number_byte _ _ _ _ _ Hq Hd).
    destruct Hst as [->|[-> _]]; [unfold consumeNumberAfterZero|unfold consumeNumberAfterInteger]; by rewrite ?Hdig, Hdot, Hc. }
  assert (scanFraction s = Some ([], s) -> (forall c, head s = Some c -> bool_decide (c = Byte.x2e) = false) ->
    match ('(fraction, s1) ← scanFraction s; '(exponent, rest) ← scanExponent s1; Some (fraction ++ exponent, rest)) with
    | None => outcome q s = None
    | Some (text, rest) => exists q' st', inNumber v st' negative q' /\ numberIsComplete q' = true /\ outcome q s = outcome q' rest /\ stops q' rest /\
        (if decide (text = []) then q' = q else numberIsInteger q' = false)
    end) as Hnone.
  { intros -> Hdot. cbn [mbind option_bind]. pose proof (exponent_run v st negative q s Hq Hn He) as H. destruct (scanExponent s) as [[ex rest]|]; cbn [mbind option_bind app];
      apply H; intros c Hc Hex Hd; rewrite (number_byte _ _ _ _ _ Hq Hd); specialize (Hdot c Hc);
      (destruct Hst as [->|[-> Hno]]; [unfold consumeNumberAfterZero; by rewrite Hdot, Hex|unfold consumeNumberAfterInteger; by rewrite (Hno c Hc), Hdot, Hex]). }
  destruct s as [|c s]; [by apply Hnone|]. cbn [scanFraction] in *. destruct (bool_decide (c = Byte.x2e)) eqn:Ec; [clear Hnone|apply Hnone; [done|by intros ? [= <-]]].
  apply bool_decide_eq_true in Ec as ->. set (q1 := set_jp_numberState passthroughJSONNumberFractionStart q).
  assert (consumeByte q Byte.x2e = q1) as E1.
  { rewrite (number_byte _ _ _ _ Byte.x2e Hq eq_refl). destruct Hst as [->|[-> _]]; done. }
  assert (inNumber v passthroughJSONNumberFractionStart negative q1) as H1 by (by eapply setState_inNumber).
  rewrite outcome_cons, E1. unfold digits1. destruct s as [|d s].
  { apply (incomplete_dead _ _ _ _ _ H1); [done|by intros c']. }
  cbn [digits]. destruct (isDigit d) eqn:Ed.
  2: { apply (incomplete_dead _ _ _ _ _ H1); [done|]. intros c' [= <-] Hd. rewrite (number_byte _ _ _ _ _ H1 Hd). unfold consumeNumberAfterFractionStart. by rewrite Ed. }
  pose proof (digits_rest s) as Hr. pose proof (digitsLoop_run passthroughJSONNumberFraction s) as Hl. destruct (digits s) as [ds rest]. cbn [mbind option_bind fst snd] in *.
  set (q2 := set_jp_numberState passthroughJSONNumberFraction q1).
  assert (inNumber v passthroughJSONNumberFraction negative q2) as H2 by (by eapply setState_inNumber).
  destruct (digit_plainByte _ Ed) as (Hd & _). assert (consumeByte q1 d = q2) as E2.
  { rewrite (number_byte _ _ _ _ _ H1 Hd). unfold consumeNumberAfterFractionStart. by rewrite Ed. }
  rewrite outcome_cons, E2. rewrite (Hl q2 v negative ltac:(by left) H2).
  pose proof (exponent_run v passthroughJSONNumberFraction negative q2 rest H2 eq_refl) as H.
  assert (forall c, isExponent c = true -> consumeByte q2 c = set_jp_numberState passthroughJSONNumberExponentStart q2) as He2.
  { intros c Hc. destruct (exponent_plainByte _ Hc) as (Hd' & Hdig & Hdot). rewrite (number_byte _ _ _ _ _ H2 Hd'). unfold consumeNumberAfterFraction. by rewrite Hdig, Hc. }
  specialize (H He2). destruct (scanExponent rest) as [[ex rest']|]; cbn [mbind option_bind].
  - destruct H as (q' & st' & A & B & C & D & F).
    { intros c Hc Hex Hd'. rewrite (number_byte _ _ _ _ _ H2 Hd'). unfold consumeNumberAfterFraction. by rewrite (Hr _ Hc), Hex. }
    exists q', st'. split_and!; try done. cbn. destruct (decide (ex = [])); [by subst|done].
  - apply H. intros c Hc Hex Hd'. rewrite (number_byte _ _ _ _ _ H2 Hd'). unfold consumeNumberAfterFraction. by rewrite (Hr _ Hc), Hex.
Qed.

Lemma digitsValue_none acc ds c text : isDigit c = false -> digitsValue acc (ds ++ c :: text) = None.
Proof. intros Hc. rewrite digitsValue_app. destruct (digitsValue acc ds); [|done]. cbn. by rewrite Hc. Qed.

Lemma fraction_text s text rest : ('(fraction, s1) ← scanFraction s; '(exponent, rest) ← scanExponent s1; Some (fraction ++ exponent, rest)) = Some (text, rest) ->
  text = [] \/ exists c t, text = c :: t /\ isDigit c = false.
Proof.
  unfold scanFraction. assert (forall t ex r, scanExponent t = Some (ex, r) -> ex = [] \/ exists c t, ex = c :: t /\ isDigit c = false) as Hex.
  { intros [|c t] ex r; cbn [scanExponent]; [intros [= <- _]; by left|]. destruct (_ || _) eqn:E; [|intros [= <- _]; by left].
    destruct (scanSign t) as [sign r0]. destruct (digits1 r0) as [[ds r1]|]; [|done]. intros [= <- _]. right. exists c, (sign ++ ds). split; [done|].
    apply orb_true_iff in E as [->%bool_decide_eq_true| ->%bool_decide_eq_true]; done. }
  destruct s as [|c s].
  { cbn. intros [= <- _]. by left. }
  destruct (bool_decide (c = Byte.x2e)) eqn:E.
  - destruct (digits1 s) as [[ds r]|]; [|done]. cbn. destruct (scanExponent r) as [[ex r1]|]; [|done]. intros [= <- _]. right.
    apply bool_decide_eq_true in E as ->. by exists Byte.x2e, (ds ++ ex).
  - cbn [mbind option_bind]. destruct (scanExponent (c :: s)) as [[ex r1]|] eqn:E1; [|done]. cbn. intros [= <- _]. by eapply Hex.
Qed.

(** The number after its sign: [text] is what was read and [counter] its value if it may be
    a counter. *)
Lemma unsigned_run v st negative q n ds s : inNumber v st negative q -> tracks q n -> digitsValue 0 ds = Some n ->
  st = passthroughJSONNumberZero \/ st = passthroughJSONNumberInteger ->
  let '(more, s0) := if decide (st = passthroughJSONNumberInteger) then digits s else ([], s) in
  match ('(fraction, s1) ← scanFraction s0; '(exponent, rest) ← scanExponent s1; Some (fraction ++ exponent, rest)) with
  | None => outcome q s = None
  | Some (text, rest) => exists q' st', inNumber v st' negative q' /\ numberIsComplete q' = true /\ outcome q s = outcome q' rest /\ stops q' rest /\
      (if numberIsInteger q' && jp_numberFits q' then Some (jp_number q') else None) =
      (n ← digitsValue 0 (ds ++ more ++ text); if n <=? maxInt64 then Some n else None)
  end.
Proof.
  intros Hq Ht Hn Hst.
  assert (exists q1 n1 more s0, (if decide (st = passthroughJSONNumberInteger) then digits s else ([], s)) = (more, s0) /\ inNumber v st negative q1 /\ tracks q1 n1 /\
    digitsValue 0 (ds ++ more) = Some n1 /\ outcome q s = outcome q1 s0 /\ (st = passthroughJSONNumberZero \/ st = passthroughJSONNumberInteger /\ noDigit s0)) as
    (q1 & n1 & more & s0 & -> & Hq1 & Ht1 & Hn1 & Ho & Hst1).
  { destruct Hst as [->| ->]; [rewrite decide_False by done; exists q, n, [], s; rewrite app_nil_r; split_and!; try done; by left|]. rewrite decide_True by done.
    destruct (digitsInt_run s q v negative n Hq Ht) as (q1 & n1 & A & B & C & D). pose proof (digits_rest s) as Hr. destruct (digits s) as [more s0].
    exists q1, n1, more, s0. split_and!; try done; [|by right]. rewrite digitsValue_app, Hn. exact C. }
  pose proof (fraction_run _ _ _ _ _ Hq1 Hst1) as H. pose proof (fraction_text s0) as Htext.
  destruct ('(fraction, s1) ← scanFraction s0; '(exponent, rest) ← scanExponent s1; Some (fraction ++ exponent, rest)) as [[text rest]|]; [|by rewrite Ho].
  destruct H as (q' & st' & A & B & C & D & F). exists q', st'. rewrite Ho. split_and!; try done.
  destruct (Htext _ _ eq_refl) as [->|(c & t & -> & Hc)].
  - rewrite decide_True in F by done. subst q'. rewrite app_nil_r, Hn1. cbn. destruct Ht1 as [_ Ht1].
    assert (numberIsInteger q1 = true) as -> by (destruct Hq1 as (_ & _ & E & _); unfold numberIsInteger; rewrite E; by destruct Hst1 as [->|[-> _]]).
    cbn [andb]. destruct (jp_numberFits q1); [destruct Ht1 as [-> Hle]|]; destruct (Z.leb_spec n1 maxInt64); try done; lia.
  - rewrite decide_False in F by done. rewrite F. cbn [andb]. rewrite app_assoc, digitsValue_none by done. done.
Qed.

Definition firstState (d : Byte.byte) : passthroughJSONNumberState :=
  if bool_decide (d = Byte.x30) then passthroughJSONNumberZero else passthroughJSONNumberInteger.

Lemma integer_run v negative q d s : isDigit d = true -> inNumber v (firstState d) negative q -> tracks q (b2z d - 48) ->
  match ('(int, s1) ← scanInt (d :: s); '(fraction, s2) ← scanFraction s1; '(exponent, rest) ← scanExponent s2; Some (int ++ fraction ++ exponent, rest)) with
  | None => outcome q s = None
  | Some (text, rest) => exists q' st', inNumber v st' negative q' /\ numberIsComplete q' = true /\ outcome q s = outcome q' rest /\ stops q' rest /\
      (if numberIsInteger q' && jp_numberFits q' then Some (jp_number q') else None) = counterOf (JNumber text)
  end.
Proof.
  intros Hd Hq Ht. assert (digitsValue 0 [d] = Some (b2z d - 48)) as Hv by (cbn [digitsValue]; by rewrite Hd).
  pose proof (unsigned_run v _ negative q _ [d] s Hq Ht Hv ltac:(unfold firstState; case_bool_decide; [by left|by right])) as H.
  assert (scanInt (d :: s) = let '(more, s0) := if decide (firstState d = passthroughJSONNumberInteger) then digits s else ([], s) in Some (d :: more, s0)) as ->.
  { cbn [scanInt]. unfold firstState. case_bool_decide; [by rewrite decide_False|]. rewrite decide_True by done. unfold digits1. cbn [digits]. rewrite Hd.
    by destruct (digits s). }
  destruct (if decide _ then digits s else ([], s)) as [more s0]. cbn [mbind option_bind].
  destruct (scanFraction s0) as [[fr s1]|]; cbn [mbind option_bind] in *; [|done]. destruct (scanExponent s1) as [[ex rest]|]; cbn [mbind option_bind] in *; done.
Qed.

Lemma beginNumber_state p b : sound passthroughJSONNormal p -> rooted (jp_frames p) -> expects (viewOf p) = true ->
  let v := startView (startTerminal (viewOf p)) (viewOf p) in
  (isDigit b = true -> inNumber v (firstState b) false (beginNumber b p) /\ tracks (beginNumber b p) (b2z b - 48)) /\
  (b = Byte.x2d -> inNumber v passthroughJSONNumberMinus true (beginNumber b p) /\ tracks (beginNumber b p) 0).
Proof.
  intros Hs Hr He. cbn zeta. pose proof (beginScalar_starts _ _ Hs Hr) as H. rewrite He in H. destruct H as [(S1 & S2 & S3 & S4) Hv].
  unfold beginNumber. fold (beginScalar p). set (q := set_jp_numberNegative _ _).
  assert (forall st n, inNumber (startView (startTerminal (viewOf p)) (viewOf p)) st n (set_jp_numberNegative n (set_jp_mode passthroughJSONNumber (set_jp_numberState st q)))) as Hq by done.
  assert (tracks q 0) as Ht by done. split.
  - intros Hd. destruct (digit_plainByte _ Hd) as (_ & _ & _ & _ & Em). rewrite Em.
    assert (forall st, inNumber (startView (startTerminal (viewOf p)) (viewOf p)) st false (set_jp_mode passthroughJSONNumber (appendNumberDigit b (set_jp_numberState st q))) /\
      tracks (set_jp_mode passthroughJSONNumber (appendNumberDigit b (set_jp_numberState st q))) (b2z b - 48)) as Hst.
    { intros st. pose proof (append_tracks b (set_jp_numberState st q) 0 Hd ltac:(done)) as Ha. split; [|exact Ha].
      assert (jp_numberNegative q = false) as Hn by (subst q; cbn; exact Em). unfold appendNumberDigit. by case_match. }
    unfold firstState. destruct (bool_decide (b = Byte.x30)); apply Hst.
  - intros ->. rewrite bool_decide_eq_true_2 by done. done.
Qed.

Lemma number_tests b : isDigit b = true ->
  isPassthroughJSONWhitespace b || bool_decide (b = Byte.x7b) || bool_decide (b = Byte.x5b) || (bool_decide (b = Byte.x7d) || bool_decide (b = Byte.x5d)) ||
  bool_decide (b = Byte.x2c) || bool_decide (b = Byte.x3a) || bool_decide (b = dquote) = false.
Proof. by destruct b. Qed.

Lemma normal_number b p : b = Byte.x2d \/ isDigit b = true -> consumeNormalByte b p = beginNumber b p.
Proof.
  intros [->|Hb]; [done|]. pose proof (number_tests b Hb) as H. rewrite !orb_false_iff in H.
  destruct H as [[[[[[H1 H2] H3] [H4 H4']] H5] H6] H7]. unfold consumeNormalByte. by rewrite H1, H2, H3, H4, H4', H5, H6, H7, Hb, orb_true_r.
Qed.

(** A number. *)
Lemma number_run p b s : sound passthroughJSONNormal p -> rooted (jp_frames p) -> expects (viewOf p) = true -> b = Byte.x2d \/ isDigit b = true ->
  match scanNumber (b :: s) with
  | None => outcome p (b :: s) = None
  | Some (raw, rest) => continues (viewOf p) (visit (nextPlace (jp_frames p)) (JNumber raw) (jp_usage p, jp_terminal p)) p (b :: s) rest
  end.
Proof.
  intros Hs Hr He Hb. destruct (beginNumber_state p b Hs Hr He) as [Hdig Hminus].
  assert (consumeByte p b = beginNumber b p) as Eb.
  { rewrite (consumeByte_sound _ _ _ Hs). by apply normal_number. }
  set (v := startView _ _) in *.
  assert (forall q text rest negative q' st', outcome p (b :: s) = outcome q rest -> inNumber v st' negative q' -> numberIsComplete q' = true -> outcome q rest = outcome q' rest ->
    stops q' rest -> (if numberIsInteger q' && jp_numberFits q' && negb negative then Some (jp_number q') else None) = counterOf (JNumber text) ->
    continues (viewOf p) (visit (nextPlace (jp_frames p)) (JNumber text) (jp_usage p, jp_terminal p)) p (b :: s) rest) as Hend.
  { intros q text rest negative q' st' Ho (A & B & C & D) Hc Ho' Hst Hv. rewrite visit_scalar by done.
    pose proof (finishNumber_ends q' (viewOf p) _ _ A Hr B Hc) as Hf. rewrite D, Hv in Hf.
    exact (scalar_continues _ _ (viewOf p) _ _ _ p (b :: s) q' rest ending_number A Hr Hf (stops_dies _ _ Hst) (eq_trans Ho Ho')). }
  unfold scanNumber. destruct Hb as [->|Hb].
  - destruct (Hminus eq_refl) as [Hq Ht]. cbn [optional]. rewrite bool_decide_eq_true_2 by done.
    destruct s as [|d s].
    { cbn. rewrite outcome_cons, Eb. apply (incomplete_dead _ _ _ _ _ Hq); [|by intros c]. destruct Hq as (_ & _ & E & _). unfold numberIsComplete. by rewrite E. }
    destruct (isDigit d) eqn:Ed.
    + destruct (digit_plainByte _ Ed) as (Hd & _). set (q := consumeByte (beginNumber Byte.x2d p) d).
      assert (inNumber v (firstState d) true q /\ tracks q (b2z d - 48)) as [Hq1 Ht1].
      { subst q. rewrite (number_byte _ _ _ _ _ Hq Hd). unfold consumeNumberAfterMinus, firstState. rewrite Ed.
        pose proof (fun st => append_tracks d (set_jp_numberState st (beginNumber Byte.x2d p)) 0 Ed Ht) as Ha.
        case_bool_decide; (split; [by eapply append_inNumber, setState_inNumber|apply Ha]). }
      pose proof (integer_run v true q d s Ed Hq1 Ht1) as H.
      destruct (scanInt (d :: s)) as [[int s1]|]; cbn [mbind option_bind] in *; [|rewrite !outcome_cons, Eb; exact H].
      destruct (scanFraction s1) as [[fr s2]|]; cbn [mbind option_bind] in *; [|rewrite !outcome_cons, Eb; exact H].
      destruct (scanExponent s2) as [[ex rest]|]; cbn [mbind option_bind] in *; [|rewrite !outcome_cons, Eb; exact H].
      destruct H as (q' & st' & A & B & C & D & _).
      eapply (Hend q'); [rewrite !outcome_cons, Eb; exact C|exact A|exact B|done|exact D|]. by rewrite andb_false_r.
    + assert (scanInt (d :: s) = None) as ->.
      { cbn [scanInt]. case_bool_decide; [by subst|]. unfold digits1. cbn [digits]. by rewrite Ed. }
      cbn. rewrite outcome_cons, Eb. apply (incomplete_dead _ _ _ _ _ Hq).
      * destruct Hq as (_ & _ & E & _). unfold numberIsComplete. by rewrite E.
      * intros c [= <-] Hd. rewrite (number_byte _ _ _ _ _ Hq Hd). unfold consumeNumberAfterMinus. rewrite Ed. case_bool_decide; [by subst|done].
  - destruct (Hdig Hb) as [Hq Ht]. cbn [optional]. destruct (digit_plainByte _ Hb) as (_ & _ & _ & _ & ->).
    pose proof (integer_run v false _ b s Hb Hq Ht) as H.
    destruct (scanInt (b :: s)) as [[int s1]|]; cbn [mbind option_bind app] in *; [|rewrite outcome_cons, Eb; exact H].
    destruct (scanFraction s1) as [[fr s2]|]; cbn [mbind option_bind app] in *; [|rewrite outcome_cons, Eb; exact H].
    destruct (scanExponent s2) as [[ex rest]|]; cbn [mbind option_bind app] in *; [|rewrite outcome_cons, Eb; exact H].
    destruct H as (q' & st' & A & B & C & D & F).
    eapply (Hend q'); [rewrite outcome_cons, Eb; exact C|exact A|exact B|done|exact D|]. by rewrite andb_true_r.
Qed.

(** *** Literals *)

Definition inLiteral (v : view) (word : bytes) (q : passthroughUsageJSONParser) : Prop :=
  sound passthroughJSONLiteral q /\ viewOf q = v /\ jp_literalBuffer q = word /\ jp_literalLength q = zlen word /\ zlen word <= 5.

(** The bytes up to the next delimiter. *)
Fixpoint wordEnd (s : bytes) : bytes * bytes :=
  match s with
  | c :: rest => if isPassthroughJSONValueDelimiter c then ([], s) else let '(w, r) := wordEnd rest in (c :: w, r)
  | [] => ([], [])
  end.

Lemma isWord_short w : isWord w = true -> zlen w <= 5.
Proof. unfold isWord. rewrite !orb_true_iff, !bool_decide_eq_true. by intros [[->| ->]| ->]. Qed.

Lemma word_run v s word q : inLiteral v word q ->
  let '(more, rest) := wordEnd s in
  if isWord (word ++ more) then exists q', inLiteral v (word ++ more) q' /\ outcome q s = outcome q' rest
  else outcome q s = None.
Proof.
  revert word q. induction s as [|c s IH]; intros word q Hq; cbn [wordEnd].
  { rewrite app_nil_r. pose proof Hq as (Hs & _ & Eb & _). destruct (isWord word) eqn:E; [by exists q|]. apply (invalid_dead _ _ _ _ ending_literal Hs); [|by intros c].
    unfold finishLiteral. unfold isWord in E. rewrite Eb, E, orb_true_r. apply completeScalar_sticky. by apply invalidIf_sticky. }
  destruct (isPassthroughJSONValueDelimiter c) eqn:Ec.
  { rewrite app_nil_r. pose proof Hq as (Hs & _ & Eb & _). destruct (isWord word) eqn:E.
    - by exists q.
    - apply (invalid_dead _ _ _ _ ending_literal Hs); [|intros c' [= <-]; by rewrite Ec].
      unfold finishLiteral. unfold isWord in E. rewrite Eb, E, orb_true_r. apply completeScalar_sticky. by apply invalidIf_sticky. }
  destruct (wordEnd s) as [more rest] eqn:Ew. destruct Hq as ((S1 & S2 & S3 & S4) & Hv & Eb & El & Hl).
  assert (consumeByte q c = appendLiteralByte c q) as Ec'.
  { rewrite (consumeByte_sound passthroughJSONLiteral q c) by done. unfold consumeLiteralByte. by rewrite Ec. }
  destruct (decide (zlen word < 5)) as [Hlt|Hge].
  - assert (inLiteral v (word ++ [c]) (appendLiteralByte c q)) as Hq'.
    { unfold appendLiteralByte. rewrite El. destruct (Z.ltb_spec (zlen word) 5); [|lia]. unfold inLiteral. rewrite zlen_app, zlen_cons, zlen_nil. cbn. rewrite Eb, El.
      split_and!; try done; lia. }
    specialize (IH _ _ Hq'). rewrite <- app_assoc in IH. cbn [app] in IH.
    rewrite outcome_cons, Ec'. exact IH.
  - destruct (isWord (word ++ c :: more)) eqn:E; [apply isWord_short in E; rewrite zlen_app, zlen_cons in E; pose proof (zlen_nonneg more); lia|].
    rewrite outcome_cons, Ec'. apply outcome_invalid. unfold appendLiteralByte. rewrite El. destruct (Z.ltb_spec (zlen word) 5); [lia|done].
Qed.

Lemma letters_run v letters word q rest : Forall (fun c => isPassthroughJSONValueDelimiter c = false) letters -> inLiteral v word q -> zlen (word ++ letters) <= 5 ->
  exists q', inLiteral v (word ++ letters) q' /\ outcome q (letters ++ rest) = outcome q' rest.
Proof.
  intros Hl. revert word q. induction Hl as [|c letters Hc _ IH]; intros word q Hq Hlen; [rewrite app_nil_r in *; by exists q|].
  destruct (IH (word ++ [c]) (appendLiteralByte c q)) as (q' & Hq' & Ho).
  - destruct Hq as ((S1 & S2 & S3 & S4) & Hv & Eb & El & Hle). rewrite zlen_app, zlen_cons in Hlen. pose proof (zlen_nonneg letters).
    unfold appendLiteralByte. rewrite El. destruct (Z.ltb_spec (zlen word) 5); [|lia]. unfold inLiteral. rewrite zlen_app, zlen_cons, zlen_nil. cbn. rewrite Eb, El.
    split_and!; try done; lia.
  - by rewrite <- app_assoc.
  - rewrite <- app_assoc in Hq'. exists q'. split; [done|]. rewrite <- Ho. cbn [app]. rewrite outcome_cons. f_equal.
    destruct Hq as (Hs & _). rewrite (consumeByte_sound _ _ _ Hs). unfold consumeLiteralByte. by rewrite Hc.
Qed.

Lemma isWord_more w c more : isWord w = true -> isWord (w ++ c :: more) = false.
Proof.
  unfold isWord. rewrite !orb_true_iff, !bool_decide_eq_true, !orb_false_iff, !bool_decide_eq_false.
  intros [[->| ->]| ->]; split_and!; intros E; vm_compute in E; congruence.
Qed.

Lemma isWord_letters w : isWord w = true -> Forall (fun c => isPassthroughJSONValueDelimiter c = false) w.
Proof. unfold isWord. rewrite !orb_true_iff, !bool_decide_eq_true. intros [[->| ->]| ->]; by repeat constructor. Qed.

Lemma scanLiteral_word s raw rest : scanLiteral s = Some (raw, rest) <-> isWord raw = true /\ s = raw ++ rest.
Proof.
  unfold isWord. rewrite !orb_true_iff, !bool_decide_eq_true. split.
  - intros H. destruct (scanLiteral_local _ _ _ H) as (-> & _ & _). split; [|done]. revert H. unfold scanLiteral.
    repeat (case_match; [intros [= <- _]; tauto|]). done.
  - intros [Hw ->]. assert (scanLiteral raw = Some (raw, [])) as H by (by destruct Hw as [[->| ->]| ->]).
    destruct (scanLiteral_local _ _ _ H) as (_ & _ & Hl). apply Hl.
Qed.

Lemma beginLiteral_state p b : sound passthroughJSONNormal p -> rooted (jp_frames p) -> expects (viewOf p) = true ->
  inLiteral (startView (startTerminal (viewOf p)) (viewOf p)) [b] (beginLiteral b p).
Proof.
  intros Hs Hr He. pose proof (beginScalar_starts _ _ Hs Hr) as H. rewrite He in H. destruct H as [(S1 & S2 & S3 & S4) Hv].
  unfold beginLiteral. fold (beginScalar p). done.
Qed.

(** A literal. *)
Lemma literal_run p b s : sound passthroughJSONNormal p -> rooted (jp_frames p) -> expects (viewOf p) = true -> consumeNormalByte b p = beginLiteral b p ->
  match scanLiteral (b :: s) with
  | None => outcome p (b :: s) = None
  | Some (raw, rest) => continues (viewOf p) (visit (nextPlace (jp_frames p)) (JLiteral raw) (jp_usage p, jp_terminal p)) p (b :: s) rest
  end.
Proof.
  intros Hs Hr He Eb. pose proof (beginLiteral_state p b Hs Hr He) as Hq. set (v := startView _ _) in *.
  assert (consumeByte p b = beginLiteral b p) as Ec by (by rewrite (consumeByte_sound _ _ _ Hs)).
  destruct (scanLiteral (b :: s)) as [[raw rest]|] eqn:E.
  - apply scanLiteral_word in E as [Hw E]. destruct raw as [|b' raw]; [done|]. injection E as <- ->.
    pose proof (isWord_letters _ Hw) as Hl. apply Forall_cons in Hl as [_ Hl].
    destruct (letters_run v raw [b] _ rest Hl Hq (isWord_short _ Hw)) as (q & Hq' & Ho). cbn [app] in Hq'. rewrite visit_scalar by done.
    pose proof Hq' as (A & B & Ebuf & El & Hle).
    pose proof (finishLiteral_ends q (viewOf p) _ _ A Hr B ltac:(lia) ltac:(by rewrite Ebuf)) as Hf.
    refine (scalar_continues _ _ (viewOf p) _ _ _ p (b :: raw ++ rest) q rest ending_literal A Hr Hf _ _); [|by rewrite outcome_cons, Ec].
    intros c Hc Hd. destruct rest as [|c' rest]; [done|]. injection Hc as ->. pose proof (word_run v (c :: rest) (b :: raw) q Hq') as H. cbn [wordEnd] in H. rewrite Hd in H.
    destruct (wordEnd rest) as [more r]. by rewrite (isWord_more _ c more Hw) in H.
  - rewrite outcome_cons, Ec. pose proof (word_run v s [b] _ Hq) as H. destruct (wordEnd s) as [more r] eqn:Ew. destruct (isWord ([b] ++ more)) eqn:Ei; [|exact H].
    exfalso. assert (forall s0, s0 = (wordEnd s0).1 ++ (wordEnd s0).2) as Hsplit.
    { induction s0 as [|c s0 IH]; [done|]. cbn [wordEnd]. destruct (isPassthroughJSONValueDelimiter c); [done|]. destruct (wordEnd s0); cbn in *; by rewrite IH at 1. }
    assert (scanLiteral (b :: s) = Some (b :: more, r)) as E'; [|congruence]. apply scanLiteral_word. split; [exact Ei|]. rewrite (Hsplit s) at 1. by rewrite Ew.
Qed.
