(* ===== verification/AdUsageJson.v ===== *)
(** * AdUsageJson: the JSON parser of the usage parser accepts JSON

    [document_run]: from its initial state the parser accepts exactly the texts of one value
    with at most 64 open containers in which every counter is a counter, and has then the
    usage and the type that [visit] reads off the tree.  Used by [AdUsageSpec]. *)

From S2P Require Import Prelude GoUtf8 GoStrconv GoText GoSha256 GoJson AdUsage AdUsageView AdUsageScalar.

Open Scope Z_scope.

(** ** Strings *)

(** Inside a string after the bytes [pre]. *)
Definition inString (v : view) (isKey : bool) (pre : bytes) (q : passthroughUsageJSONParser) : Prop :=
  sound passthroughJSONString q /\ viewOf q = v /\ jp_stringIsKey q = isKey /\ jp_stringEscape q = false /\ jp_stringUnicodeDigits q = 0 /\
  jp_stringEscaped q = bool_decide (backslash ∈ pre) /\
  (backslash ∉ pre -> jp_stringLength q = zlen pre /\ jp_stringTooLong q = (64 <? zlen pre) /\ jp_stringBuffer q = take 64 pre).

Lemma append_inString v k pre c q : c <> backslash -> inString v k pre q -> inString v k (pre ++ [c]) (appendStringByte c q).
Proof.
  intros Hc ((S1 & S2 & S3 & S4) & Hv & Hk & He & Hu & Hesc & Hbuf).
  assert (backslash ∈ pre ++ [c] <-> backslash ∈ pre) as Hiff.
  { rewrite elem_of_app, list_elem_of_singleton. split; [intros [?|E]; [done|by destruct Hc]|by left]. }
  unfold appendStringByte. assert (forall q', jp_mode q' = passthroughJSONString -> jp_invalid q' = false -> jp_overflowDepth q' = 0 -> jp_contentSeen q' = true -> viewOf q' = v ->
    jp_stringIsKey q' = k -> jp_stringEscape q' = false -> jp_stringUnicodeDigits q' = 0 -> jp_stringEscaped q' = jp_stringEscaped q ->
    (backslash ∉ pre -> jp_stringLength q' = zlen (pre ++ [c]) /\ jp_stringTooLong q' = (64 <? zlen (pre ++ [c])) /\ jp_stringBuffer q' = take 64 (pre ++ [c])) ->
    inString v k (pre ++ [c]) q') as Hgo.
  { intros q' ???????? E Hb. split_and!; try done.
    - rewrite E, Hesc. by apply bool_decide_ext.
    - intros Hn. apply Hb. by rewrite <- Hiff. }
  pose proof (zlen_nonneg pre) as Hz. change passthroughMaxJSONStringBytes with 64. destruct (Z.ltb_spec (jp_stringLength q) 64) as [Hl|Hl]; apply Hgo; try done; intros Hn; destruct (Hbuf Hn) as (L & T & B);
    cbn; rewrite ?L, ?T, ?B, zlen_app, zlen_cons, zlen_nil; rewrite L in Hl; unfold zlen in Hl; split_and!; try lia; try done.
  - unfold zlen. destruct (Z.ltb_spec 64 (Z.of_nat (length pre))), (Z.ltb_spec 64 (Z.of_nat (length pre) + (0 + 1))); done || lia.
  - rewrite !take_ge; [done|rewrite length_app; cbn; lia|lia].
  - unfold zlen. destruct (Z.ltb_spec 64 (Z.of_nat (length pre) + (0 + 1))); done || lia.
  - by rewrite take_app_le by lia.
Qed.

Lemma escape_inString v k pre more q q' : inString v k pre q -> backslash ∈ more -> sound passthroughJSONString q' -> viewOf q' = v -> jp_stringIsKey q' = k ->
  jp_stringEscape q' = false -> jp_stringUnicodeDigits q' = 0 -> jp_stringEscaped q' = true -> inString v k (pre ++ more) q'.
Proof.
  intros _ Hm. intros. assert (backslash ∈ pre ++ more) as Hin by (apply elem_of_app; by right). split_and!; try done. by rewrite bool_decide_eq_true_2.
Qed.

Lemma string_open q : jp_mode q = passthroughJSONString -> outcome q [] = None.
Proof. intros Hm. unfold outcome, Finish. cbn [foldl]. by rewrite Hm. Qed.

(** The four digits of an escape. *)
Fixpoint hexDigits (n : nat) (s : bytes) : option bytes :=
  match n, s with
  | O, _ => Some s
  | S n, h :: s => if isHex h then hexDigits n s else None
  | S _, [] => None
  end.

Lemma unicode_run n s q : sound passthroughJSONString q -> jp_stringUnicodeDigits q = Z.of_nat n ->
  match hexDigits n s with
  | None => outcome q s = None
  | Some rest => outcome q s = outcome (set_jp_stringUnicodeDigits 0 q) rest
  end.
Proof.
  revert s q. induction n as [|n IH]; intros s q Hs Hd; cbn [hexDigits].
  { assert (set_jp_stringUnicodeDigits 0 q = q) as -> by (destruct q; cbn in *; by subst). done. }
  destruct s as [|h s]; [by apply string_open, Hs|]. assert (consumeByte q h = set_jp_stringUnicodeDigits (Z.of_nat n) (invalidIf (negb (isHex h)) q)) as E.
  { rewrite (consumeByte_sound _ _ _ Hs). unfold consumeStringByte. rewrite Hd. destruct (Z.ltb_spec 0 (Z.of_nat (S n))); [|lia].
    unfold isPassthroughJSONHex. assert (jp_stringUnicodeDigits (invalidIf (negb (isHex h)) q) = Z.of_nat (S n)) as -> by (by destruct (isHex h)). f_equal. lia. }
  rewrite outcome_cons, E. destruct (isHex h); cbn [negb invalidIf]; [|by apply outcome_invalid].
  specialize (IH s (set_jp_stringUnicodeDigits (Z.of_nat n) q)). destruct (hexDigits n s); apply IH; try done; destruct Hs as (? & ? & ? & ?); done.
Qed.

Lemma stringEnd_unicode s : stringEnd (backslash :: Byte.x75 :: s) =
  match hexDigits 4 s with
  | Some rest => '(raw, rest) ← stringEnd rest; Some (backslash :: Byte.x75 :: take 4 s ++ raw, rest)
  | None => None
  end.
Proof.
  cbn [stringEnd]. change (bool_decide (backslash = dquote)) with false. cbn [existsb]. rewrite bool_decide_eq_true_2 by done. cbv iota.
  change (existsb (fun x => bool_decide (Byte.x75 = x)) (lit "bfnrt\/") || bool_decide (Byte.x75 = dquote)) with false. cbv iota. rewrite bool_decide_eq_true_2 by done.
  destruct s as [|h1 [|h2 [|h3 [|h4 s]]]]; cbn [hexDigits]; [done|by destruct (isHex h1)|by destruct (isHex h1), (isHex h2)|by destruct (isHex h1), (isHex h2), (isHex h3)|].
  by destruct (isHex h1), (isHex h2), (isHex h3), (isHex h4).
Qed.

Lemma string_run v k s pre q : inString v k pre q ->
  match stringEnd s with
  | None => outcome q s = None
  | Some (raw, rest) => exists body q', raw = body ++ [dquote] /\ inString v k (pre ++ body) q' /\ outcome q s = outcome (normal (finishString q')) rest
  end.
Proof.
  remember (length s) as n eqn:En. revert s pre q En. induction (lt_wf n) as [n _ IH]. intros s pre q -> Hq.
  pose proof Hq as (Hs & Hv & Hk & He & Hu & Hesc & Hbuf). destruct s as [|b s]; [by apply string_open, Hs|].
  assert (forall s' pre' more q', length s' < length (b :: s) -> inString v k (pre ++ more) q' -> outcome q (b :: s) = outcome q' s' ->
      stringEnd (b :: s) = ('(raw, rest) ← stringEnd s'; Some (more ++ raw, rest)) -> pre' = pre ++ more ->
      match stringEnd (b :: s) with
      | None => outcome q (b :: s) = None
      | Some (raw, rest) => exists body q', raw = body ++ [dquote] /\ inString v k (pre ++ body) q' /\ outcome q (b :: s) = outcome (normal (finishString q')) rest
      end)%nat as Hgo.
  { intros s' pre' more q' Hl Hq' Ho Es _. specialize (IH (length s') Hl s' (pre ++ more) q' eq_refl Hq'). rewrite Es, Ho.
    destruct (stringEnd s') as [[raw rest]|]; cbn [mbind option_bind]; [|done]. destruct IH as (body & q2 & -> & Hq2 & Ho2).
    exists (more ++ body), q2. rewrite <- app_assoc in Hq2. by rewrite <- app_assoc. }
  assert (consumeByte q b = consumeStringByte b q) as Eb by (by rewrite (consumeByte_sound _ _ _ Hs)).
  assert (consumeStringByte b q = if bool_decide (b = backslash) then set_jp_stringEscaped true (set_jp_stringEscape true q)
    else if bool_decide (b = dquote) then normal (finishString q) else if b2z b <? 32 then set_jp_invalid true q else appendStringByte b q) as Ec.
  { unfold consumeStringByte. by rewrite Hu, He. }
  rewrite Ec in Eb. clear Ec. destruct (decide (b = backslash)) as [->|Hnb].
  2: { rewrite (bool_decide_eq_false_2 (b = backslash)) in Eb by done. cbn [stringEnd] in *. rewrite (bool_decide_eq_false_2 (b = backslash)) in * by done.
       destruct (bool_decide (b = dquote)) eqn:Ed.
       { apply bool_decide_eq_true in Ed as ->. exists [], q. rewrite app_nil_r, outcome_cons, Eb. done. }
       destruct (b2z b <? 32); [rewrite outcome_cons, Eb; by apply outcome_invalid|].
       apply (Hgo s (pre ++ [b]) [b] (appendStringByte b q)); [cbn; lia|by apply append_inString|by rewrite outcome_cons, Eb|done|done]. }
  rewrite bool_decide_eq_true_2 in Eb by done. set (q1 := set_jp_stringEscaped true (set_jp_stringEscape true q)) in *.
  assert (sound passthroughJSONString q1) as Hs1 by (destruct Hs as (? & ? & ? & ?); done).
  destruct s as [|c s]; [rewrite outcome_cons, Eb; by apply string_open, Hs1|].
  assert (consumeByte q1 c = let q2 := set_jp_stringEscaped true (set_jp_stringEscape false q1) in
    if bool_decide (c = Byte.x75) then set_jp_stringUnicodeDigits 4 q2 else invalidIf (negb (isPassthroughJSONEscape c)) q2) as Ec.
  { rewrite (consumeByte_sound _ _ _ Hs1). unfold consumeStringByte. assert (jp_stringUnicodeDigits q1 = 0) as -> by done. done. }
  set (q2 := set_jp_stringEscaped true (set_jp_stringEscape false q1)) in *. cbv zeta in Ec.
  assert (sound passthroughJSONString q2 /\ viewOf q2 = v /\ jp_stringIsKey q2 = k) as (Hs2 & Hv2 & Hk2) by (destruct Hs as (? & ? & ? & ?); done).
  destruct (decide (c = Byte.x75)) as [->|Hcu].
  { rewrite bool_decide_eq_true_2 in Ec by done. rewrite stringEnd_unicode in *.
    pose proof (unicode_run 4 s (set_jp_stringUnicodeDigits 4 q2) ltac:(destruct Hs as (? & ? & ? & ?); done) eq_refl) as Hu4.
    destruct (hexDigits 4 s) as [rest|] eqn:Eh; [|by rewrite !outcome_cons, Eb, Ec].
    assert (s = take 4 s ++ rest) as Es.
    { clear -Eh. destruct s as [|h1 [|h2 [|h3 [|h4 s]]]]; cbn [hexDigits] in Eh; [done|by destruct (isHex h1)|by destruct (isHex h1), (isHex h2)|
        by destruct (isHex h1), (isHex h2), (isHex h3)|]. destruct (isHex h1), (isHex h2), (isHex h3), (isHex h4); try done. by injection Eh as ->. }
    eapply (Hgo rest _ (backslash :: Byte.x75 :: take 4 s)); [rewrite Es; cbn; rewrite length_app; lia| |by rewrite !outcome_cons, Eb, Ec, Hu4| |done].
    - eapply escape_inString; [exact Hq|apply list_elem_of_here|destruct Hs as (? & ? & ? & ?); done..].
    - destruct (stringEnd rest) as [[raw rest']|]; done. }
  rewrite bool_decide_eq_false_2 in Ec by done. cbn [stringEnd] in *. change (bool_decide (backslash = dquote)) with false in *.
  rewrite (bool_decide_eq_true_2 (backslash = backslash)), (bool_decide_eq_false_2 (c = Byte.x75)) in * by done. cbv iota in *.
  assert (existsb (fun x => bool_decide (c = x)) (lit "bfnrt\/") || bool_decide (c = dquote) = isPassthroughJSONEscape c) as Eesc by (by destruct c).
  rewrite Eesc in *. destruct (isPassthroughJSONEscape c).
  - eapply (Hgo s _ [backslash; c] q2); [cbn; lia| |by rewrite !outcome_cons, Eb, Ec|done|done].
    eapply escape_inString; [exact Hq|apply list_elem_of_here|destruct Hs as (? & ? & ? & ?); done..].
  - rewrite !outcome_cons, Eb, Ec. by apply outcome_invalid.
Qed.

(** *** The end of a string *)

Lemma plainText_quoted body : plainText (dquote :: body ++ [dquote]) = if bool_decide (backslash ∈ body) then None else Some body.
Proof.
  unfold plainText. assert (backslash ∈ dquote :: body ++ [dquote] <-> backslash ∈ body) as Hiff.
  { rewrite elem_of_cons, elem_of_app, list_elem_of_singleton. split; [by intros [?|[?|?]]|tauto]. }
  rewrite (bool_decide_ext _ _ Hiff). case_bool_decide; [done|]. cbn [drop length]. rewrite length_app. cbn [length].
  replace (S (length body + 1) - 2)%nat with (length body) by lia. by rewrite drop_0, take_app_length.
Qed.

Lemma long_keys body : 64 < zlen body -> passthroughUsageKeyFor body = passthroughUsageKeyNone /\ passthroughTerminalEventForName body = passthroughTerminalEventNone.
Proof.
  intros Hl. unfold passthroughUsageKeyFor, passthroughTerminalEventForName.
  assert (forall w : bytes, zlen w <= 64 -> bool_decide (body = w) = false) as H by (intros w Hw; apply bool_decide_eq_false_2; intros ->; lia).
  by rewrite !H by done.
Qed.

Lemma string_key v k body q : inString v k body q -> currentStringKey q = keyOf (dquote :: body ++ [dquote]).
Proof.
  intros (_ & _ & _ & _ & _ & He & Hb). unfold currentStringKey, keyOf. rewrite plainText_quoted, He. case_bool_decide as Hin; [done|]. cbn [orb].
  destruct (Hb Hin) as (_ & -> & ->). destruct (Z.ltb_spec 64 (zlen body)); [symmetry; by apply long_keys|]. rewrite take_ge; [done|unfold zlen in *; lia].
Qed.

Lemma string_terminal v k body q : inString v k body q ->
  (if negb (jp_stringEscaped q) && negb (jp_stringTooLong q) then passthroughTerminalEventForName (jp_stringBuffer q) else passthroughTerminalEventNone) =
  terminalOf (JString (dquote :: body ++ [dquote])).
Proof.
  intros (_ & _ & _ & _ & _ & He & Hb). unfold terminalOf. rewrite plainText_quoted, He. case_bool_decide as Hin; [done|]. cbn [negb andb].
  destruct (Hb Hin) as (_ & -> & ->). destruct (Z.ltb_spec 64 (zlen body)); [symmetry; by apply long_keys|]. rewrite take_ge; [done|unfold zlen in *; lia].
Qed.

Lemma finishString_ends q w u t body : inString (MkView (onTop startFrame (v_frames w)) (rootAfter w) u t) false body q -> rooted (v_frames w) ->
  scalarEnds w None u (if decide (nextPlace (v_frames w) = PType) then terminalOf (JString (dquote :: body ++ [dquote])) else t) (finishString q).
Proof.
  intros Hq Hr. pose proof (string_terminal _ _ _ _ Hq) as Hterm. destruct Hq as (Hs & Hv & Hk & He & Hu & _). pose proof Hs as (Hm & Hi & Ho & Hc).
  assert (jp_frames q = onTop startFrame (v_frames w)) as Ef by (by injection Hv). assert (jp_usage q = u) as Eu by (by injection Hv).
  assert (rooted (jp_frames q)) as Hrq by (rewrite Ef; by apply rooted_start).
  unfold finishString. rewrite He, Hu. cbn [Z.eqb negb orb invalidIf]. rewrite Hk, rootType_place, Ef, nextPlace_start, Hterm by done.
  set (t' := if decide _ then _ else t). set (q1 := if isAt _ PType then _ else q).
  assert (sound passthroughJSONString q1 /\ viewOf q1 = MkView (onTop startFrame (v_frames w)) (rootAfter w) u t') as [Hs1 Hv1].
  { subst q1 t'. unfold isAt. case_bool_decide as Hp; [rewrite decide_True by done|by rewrite decide_False].
    injection Hv as V1 V2 V3 V4. unfold viewOf. cbn. by rewrite V1, V2, V3. }
  assert (jp_frames q1 = onTop startFrame (v_frames w)) as E1 by (by injection Hv1).
  rewrite counter_place; [|by destruct Hs1 as (_ & _ & ? & _)|rewrite E1; by apply rooted_start]. rewrite E1, nextPlace_start.
  unfold scalarEnds, scalarUsage. destruct (completeScalar_view _ _ _ _ _ Hs1 Hv1) as [H1 H2].
  destruct (nextPlace (v_frames w)); cbn [isCounter invalidIf fmap option_fmap option_map]; try (split; [by eapply normal_sound|done]). by apply completeScalar_sticky.
Qed.

(** A string as a value. *)
Lemma stringValue_run p s : sound passthroughJSONNormal p -> rooted (jp_frames p) -> expects (viewOf p) = true ->
  match stringEnd s with
  | None => outcome p (dquote :: s) = None
  | Some (raw, rest) => continues (viewOf p) (visit (nextPlace (jp_frames p)) (JString (dquote :: raw)) (jp_usage p, jp_terminal p)) p (dquote :: s) rest
  end.
Proof.
  intros Hs Hr He. assert (consumeByte p dquote = beginString p) as Eb by (by rewrite (consumeByte_sound _ _ _ Hs)).
  assert (expectsObjectKey p = false) as Hk.
  { rewrite expectsObjectKey_view by apply Hs. unfold expects, expectsFrame in He. destruct (last _) as [f|]; [|done]. destruct (isObject f); [|done].
    apply bool_decide_eq_true in He as ->. done. }
  pose proof (beginString_value p Hs Hr Hk) as H. rewrite He in H. cbv zeta in H. destruct H as (H1 & H2 & H3 & H4 & H5 & H6 & H7 & H8 & H9).
  assert (inString (startView (v_terminal (viewOf p)) (viewOf p)) false [] (beginString p)) as Hq.
  { by split_and!. }
  pose proof (string_run _ _ s _ _ Hq) as H. rewrite outcome_cons, Eb. destruct (stringEnd s) as [[raw rest]|]; [|done].
  destruct H as (body & q & -> & Hq' & Ho). cbn [app] in Hq'. pose proof (finishString_ends q (viewOf p) _ _ body Hq' Hr) as Hf.
  rewrite visit_scalar by done. change (v_frames (viewOf p)) with (jp_frames p) in Hf. set (t := if decide _ then _ else _) in *.
  unfold scalarEnds, scalarUsage in Hf. change (v_frames (viewOf p)) with (jp_frames p) in Hf. change (counterOf (JString (dquote :: body ++ [dquote]))) with (@None Z).
  change (v_usage (viewOf p)) with (jp_usage p) in Hf.
  destruct (match nextPlace (jp_frames p) with PCounter k => _ | _ => _ end) as [u|] eqn:Eu; cbn [continues fmap option_fmap option_map].
  - destruct Hf as [A B]. exists (normal (finishString q)). split_and!; [done|done|]. by rewrite outcome_cons, Eb.
  - rewrite outcome_cons, Eb, Ho. by apply outcome_invalid.
Qed.

(** ** Where a byte cannot stand *)

(** A frame in which no value may begin and a byte that it does not allow. *)
Definition misplaced (f : passthroughJSONFrame) (b : Byte.byte) : Prop :=
  expectsFrame f = false /\ isJSONSpace b = false /\
  (b = dquote -> isObject f = true -> objectState f <> passthroughJSONObjectKeyOrEnd /\ objectState f <> passthroughJSONObjectKey) /\
  (b = Byte.x7d -> isObject f = true -> canClose f = false) /\ (b = Byte.x5d -> isObject f = false -> canClose f = false) /\
  (b = Byte.x2c -> if isObject f then objectState f <> passthroughJSONObjectCommaOrEnd else arrayState f <> passthroughJSONArrayCommaOrEnd) /\
  (b = Byte.x3a -> isObject f = true -> objectState f <> passthroughJSONObjectColon).

Lemma misplaced_invalid p f b : sound passthroughJSONNormal p -> rooted (jp_frames p) -> last (jp_frames p) = Some f -> misplaced f b ->
  jp_invalid (consumeByte p b) = true.
Proof.
  intros Hs Hr Hl (M1 & M2 & M3 & M4 & M5 & M6 & M7). rewrite (consumeByte_sound _ _ _ Hs). pose proof Hs as (Hm & Hi & Ho & Hc).
  assert (expects (viewOf p) = false) as He by (unfold expects; change (v_frames (viewOf p)) with (jp_frames p); by rewrite Hl).
  unfold consumeNormalByte. rewrite space_same, M2. destruct (bool_decide (b = Byte.x7b)); [by apply blocked_enter|].
  destruct (bool_decide (b = Byte.x5b)); [by apply blocked_enter|].
  destruct (bool_decide (b = Byte.x7d) || bool_decide (b = Byte.x5d)) eqn:Eend.
  { unfold leaveContainer, topFrame. rewrite Ho, Hl. cbn [Z.ltb Z.compare].
    apply orb_true_iff in Eend as [->%bool_decide_eq_true| ->%bool_decide_eq_true]; destruct (isObject f); rewrite ?(M4 eq_refl eq_refl), ?(M5 eq_refl eq_refl); done. }
  destruct (bool_decide (b = Byte.x2c)) eqn:Ecomma.
  { apply bool_decide_eq_true in Ecomma. specialize (M6 Ecomma). unfold consumeComma, topFrame. rewrite Ho, Hl. cbn [Z.ltb Z.compare].
    destruct (isObject f); by rewrite bool_decide_eq_false_2. }
  destruct (bool_decide (b = Byte.x3a)) eqn:Ecolon.
  { apply bool_decide_eq_true in Ecolon. specialize (M7 Ecolon). unfold consumeColon, topFrame. rewrite Ho, Hl. cbn [Z.ltb Z.compare].
    destruct (isObject f); [|done]. by rewrite bool_decide_eq_false_2 by (by apply M7). }
  destruct (bool_decide (b = dquote)) eqn:Equote.
  { apply bool_decide_eq_true in Equote. specialize (M3 Equote). assert (expectsObjectKey p = false) as Hk.
    { rewrite expectsObjectKey_view by done. change (v_frames (viewOf p)) with (jp_frames p). rewrite Hl. destruct (isObject f); [|done].
      destruct (M3 eq_refl). by rewrite !bool_decide_eq_false_2. }
    pose proof (beginString_value p Hs Hr Hk) as H. by rewrite He in H. }
  destruct (bool_decide (b = Byte.x2d) || isDigit b); [by apply blocked_number|by apply blocked_literal].
Qed.

(** An open container never ends a document. *)
Lemma open_end p f fs : sound passthroughJSONNormal p -> jp_frames p = fs ++ [f] -> outcome p [] = None.
Proof.
  intros (Hm & Hi & Ho & _) Hf. unfold outcome, Finish, ValidJSON. cbn [foldl]. rewrite Hm. unfold depth. cbn. rewrite Hf. unfold zlen. rewrite length_app. cbn.
  destruct (Z.eqb_spec (Z.of_nat (length fs + 1)) 0); [lia|]. by rewrite andb_false_r.
Qed.

Lemma misplaced_dead p f fs b s : sound passthroughJSONNormal p -> rooted (jp_frames p) -> jp_frames p = fs ++ [f] -> misplaced f b -> outcome p (b :: s) = None.
Proof. intros Hs Hr Hf Hm. rewrite outcome_cons. apply outcome_invalid. eapply misplaced_invalid; [done..| |done]. by rewrite Hf, last_snoc. Qed.

(** ** Containers *)

Definition newFrame (c : passthroughJSONContainer) (fs : list passthroughJSONFrame) : passthroughJSONFrame :=
  MkJSONFrame c (match last fs with Some f => if isObject f then currentKey f else passthroughUsageKeyNone | None => passthroughUsageKeyNone end)
    passthroughUsageKeyNone passthroughJSONObjectKeyOrEnd passthroughJSONArrayValueOrEnd.

Lemma length_onTop g fs : length (onTop g fs) = length fs.
Proof. destruct fs as [|f fs _] using rev_ind; [done|]. rewrite onTop_snoc, !length_app. done. Qed.

Lemma innermost_other fs f : isObject f = false -> innermost (fs ++ [f]) = POther.
Proof. intros H. destruct fs as [|r fs]; [cbn; by rewrite H|]. rewrite innermost_snoc by done. unfold frameStep. by rewrite H. Qed.

Lemma innermost_new fs : innermost (onTop closeFrame fs ++ [newFrame passthroughJSONObject fs]) = nextPlace fs.
Proof.
  destruct fs as [|f fs _] using rev_ind; [done|]. rewrite onTop_snoc, innermost_snoc by (by destruct fs). unfold frameStep, newFrame, nextPlace. rewrite !last_snoc. cbn.
  rewrite (innermost_same fs (closeFrame f) f); [|unfold closeFrame; destruct (startFrame_keys f) as (H1 & H2 & _); destruct (isObject f); done..].
  destruct (isObject f) eqn:E; [done|]. by rewrite innermost_other.
Qed.

Lemma onTop_clear fs : (match last (onTop startFrame fs) with
    | Some parent => if isObject parent then removelast (onTop startFrame fs) ++ [setCurrentKey passthroughUsageKeyNone parent] else onTop startFrame fs
    | None => onTop startFrame fs
    end) = onTop closeFrame fs.
Proof.
  destruct fs as [|f fs _] using rev_ind; [done|]. rewrite !onTop_snoc, last_snoc, isObject_start, removelast_last. unfold closeFrame. by destruct (isObject f).
Qed.

Lemma enter_run c p : sound passthroughJSONNormal p -> rooted (jp_frames p) -> expects (viewOf p) = true ->
  let w := viewOf p in
  if isCounter (nextPlace (jp_frames p)) || (length (jp_frames p) =? 64)%nat then jp_invalid (enterContainer c p) = true
  else sound passthroughJSONNormal (enterContainer c p) /\
    viewOf (enterContainer c p) =
      MkView (onTop closeFrame (jp_frames p) ++ [newFrame c (jp_frames p)]) (rootAfter w) (supersede (nextPlace (jp_frames p)) (jp_usage p)) (startTerminal w).
Proof.
  intros Hs Hr He. cbn zeta. pose proof Hs as (Hm & Hi & Ho & Hc). unfold enterContainer. rewrite rootType_place by done.
  set (p1 := if isAt _ PType then _ else p). assert (p1 = set_jp_terminal (startTerminal (viewOf p)) p) as E1.
  { subst p1. unfold startTerminal, isAt. change (v_frames (viewOf p)) with (jp_frames p). case_bool_decide; [by rewrite decide_True|]. rewrite decide_False by done. by destruct p. }
  rewrite E1. clear p1 E1. rewrite clearSuperseded_place by done. set (p2 := set_jp_usage _ _).
  rewrite counter_place by done. assert (jp_frames p2 = jp_frames p) as -> by done.
  assert (forall b, beginValueOrInvalid (invalidIf b p2) = invalidIf b (set_jp_frames (onTop startFrame (jp_frames p)) (set_jp_rootState (rootAfter (viewOf p)) p2))) as Hbegin.
  { intros b. unfold beginValueOrInvalid. rewrite beginValue_expects by (by destruct b).
    assert (expects (viewOf (invalidIf b p2)) = true) as -> by (by destruct b). by destruct b. }
  rewrite Hbegin. destruct (isCounter (nextPlace (jp_frames p))) eqn:Ec; cbn [orb invalidIf].
  { set (q := set_jp_invalid true _). assert (jp_invalid q = true) as Hq by done. assert ((0 <? jp_overflowDepth q) = false) as -> by (cbn; by rewrite Ho). clearbody q.
    destruct (topFrame q) as [f|]; [destruct (isObject f)|]; by case_match. }
  set (q := set_jp_frames _ _). assert ((0 <? jp_overflowDepth q) = false) as -> by (cbn; by rewrite Ho).
  assert ((match topFrame q with
    | Some parent => if isObject parent then (currentKey parent, setTop (setCurrentKey passthroughUsageKeyNone parent) q) else (passthroughUsageKeyNone, q)
    | None => (passthroughUsageKeyNone, q)
    end) = (pathKey (newFrame c (jp_frames p)), set_jp_frames (onTop closeFrame (jp_frames p)) q)) as ->.
  { rewrite <- onTop_clear. unfold topFrame, setTop, newFrame. change (jp_frames q) with (onTop startFrame (jp_frames p)). cbn [pathKey].
    destruct (jp_frames p) as [|f fs _] using rev_ind; [done|]. rewrite onTop_snoc, !last_snoc, isObject_start.
    destruct (startFrame_keys f) as (_ & _ & ->). destruct (isObject f); [done|]. f_equal. subst q. by rewrite onTop_snoc. }
  unfold depth. cbn [jp_frames set_jp_frames]. unfold zlen. rewrite length_onTop. change passthroughMaxJSONDepth with 64.
  destruct (Nat.eqb_spec (length (jp_frames p)) 64) as [->|Hne]; [done|]. destruct (Z.eqb_spec (Z.of_nat (length (jp_frames p))) 64); [lia|]. done.
Qed.

(** Closing a container. *)
Lemma leave_run p b fs f r u t : sound passthroughJSONNormal p -> viewOf p = MkView (fs ++ [f]) r u t -> canClose f = true ->
  (b = Byte.x7d /\ isObject f = true \/ b = Byte.x5d /\ isObject f = false) ->
  sound passthroughJSONNormal (consumeByte p b) /\ viewOf (consumeByte p b) = MkView fs r u t.
Proof.
  intros Hs Hv Hcl Hb. rewrite (consumeByte_sound _ _ _ Hs). pose proof Hs as (Hm & Hi & Ho & Hc). injection Hv as V1 V2 V3 V4.
  assert (consumeNormalByte b p = leaveContainer b p) as -> by (by destruct Hb as [[-> _]|[-> _]]).
  assert (leaveContainer b p = set_jp_frames fs p) as ->.
  { unfold leaveContainer, topFrame. rewrite Ho, V1, last_snoc, Hcl, removelast_last. by destruct Hb as [[-> ->]|[-> ->]]. }
  split; [done|]. unfold viewOf. cbn. by rewrite V2, V3, V4.
Qed.

(** A comma after an element. *)
Lemma comma_run p fs f r u t : sound passthroughJSONNormal p -> viewOf p = MkView (fs ++ [f]) r u t ->
  (if isObject f then objectState f = passthroughJSONObjectCommaOrEnd else arrayState f = passthroughJSONArrayCommaOrEnd) ->
  sound passthroughJSONNormal (consumeByte p Byte.x2c) /\
  viewOf (consumeByte p Byte.x2c) = MkView (fs ++ [if isObject f then setObjectState passthroughJSONObjectKey f else setArrayState passthroughJSONArrayValue f]) r u t.
Proof.
  intros Hs Hv Hst. rewrite (consumeByte_sound _ _ _ Hs). pose proof Hs as (Hm & Hi & Ho & Hc). injection Hv as V1 V2 V3 V4.
  set (g := if isObject f then _ else _). assert (consumeNormalByte Byte.x2c p = setTop g p) as ->.
  { change (consumeNormalByte Byte.x2c p) with (consumeComma p). unfold consumeComma, topFrame. rewrite Ho, V1, last_snoc. subst g. by destruct (isObject f); rewrite Hst. }
  split; [done|]. unfold setTop, viewOf. cbn. by rewrite V1, removelast_last, V2, V3, V4.
Qed.

(** What is proved of a value, with [fuel] levels below. *)
Definition valueSpec (fuel : nat) : Prop := forall s p, sound passthroughJSONNormal p -> rooted (jp_frames p) -> (length (jp_frames p) + fuel = 64)%nat ->
  expects (viewOf p) = true -> (match last (jp_frames p) with Some f => isObject f = false -> arrayState f = passthroughJSONArrayValueOrEnd -> head (skipSpace s) <> Some Byte.x5d | None => True end) ->
  match parseValue (S fuel) s with
  | None => outcome p s = None
  | Some (v, rest) => continues (viewOf p) (visit (nextPlace (jp_frames p)) v (jp_usage p, jp_terminal p)) p s rest
  end.

Lemma visit_other v u t : visit POther v (u, t) = Some (u, t).
Proof.
  revert u t. induction v as [raw|raw|raw|raw items IH|raw fields IH] using json_nested_ind; intros u t; try done. cbn [visit supersede]. rewrite decide_False by done.
  induction fields as [|[k v] fields IHf]; [done|]. apply Forall_cons in IH as [Hv IH]. cbn [foldl mbind option_bind placeOf snd] in *.
  rewrite Hv. by apply IHf.
Qed.

Lemma parse_shorter fuel s v rest : parseValue fuel s = Some (v, rest) -> (length rest < length s)%nat.
Proof.
  intros H. destruct (parseValue_local _ _ _ _ H) as (sp & -> & _ & Hne & _). rewrite !length_app. destruct (rawOf v); [done|cbn; lia].
Qed.

Lemma skipSpace_length s : (length (skipSpace s) <= length s)%nat.
Proof. destruct (skipSpace_spec s) as (sp & E & _). rewrite E at 2. rewrite length_app. lia. Qed.

Lemma canClose_comma f : (if isObject f then objectState f = passthroughJSONObjectCommaOrEnd else arrayState f = passthroughJSONArrayCommaOrEnd) -> canClose f = true.
Proof. unfold canClose. destruct (isObject f); intros ->; done. Qed.

Lemma frames_view p fs r u t : viewOf p = MkView fs r u t -> jp_frames p = fs /\ jp_usage p = u /\ jp_terminal p = t.
Proof. by intros [= -> _ -> ->]. Qed.

(** A key goes into the frame of its object at its end, and the colon behind it opens the
    value. *)
Lemma key_end q fs f r u t body : inString (MkView (fs ++ [f]) r u t) true body q -> isObject f = true ->
  objectState f = passthroughJSONObjectKeyOrEnd \/ objectState f = passthroughJSONObjectKey ->
  sound passthroughJSONNormal (normal (finishString q)) /\
  viewOf (normal (finishString q)) = MkView (fs ++ [setObjectState passthroughJSONObjectColon (setCurrentKey (keyOf (dquote :: body ++ [dquote])) f)]) r u t.
Proof.
  intros Hq Hf Hst. pose proof (string_key _ _ _ _ Hq) as Hkey. destruct Hq as ((A1 & A2 & A3 & A4) & Hqv & Hqk & Hqe & Hqu & _).
  unfold finishString. rewrite Hqe, Hqu. cbn [Z.eqb negb orb invalidIf]. rewrite Hqk. destruct (frames_view _ _ _ _ _ Hqv) as (Q1 & _).
  unfold setObjectKey. rewrite expectsObjectKey_view, Hqv by done. cbn [v_frames].
  rewrite last_snoc, Hf. assert (bool_decide (objectState f = passthroughJSONObjectKeyOrEnd) || bool_decide (objectState f = passthroughJSONObjectKey) = true) as ->.
  { by destruct Hst as [->| ->]. }
  cbn [andb negb]. unfold topFrame, setTop. rewrite Q1, last_snoc, removelast_last, Hkey. split; [done|]. injection Hqv as _ B2 B3 B4. unfold viewOf. cbn. by rewrite B2, B3, B4.
Qed.

Lemma colon_run p fs g r u t : sound passthroughJSONNormal p -> viewOf p = MkView (fs ++ [g]) r u t -> isObject g = true -> objectState g = passthroughJSONObjectColon ->
  sound passthroughJSONNormal (consumeByte p Byte.x3a) /\ viewOf (consumeByte p Byte.x3a) = MkView (fs ++ [setObjectState passthroughJSONObjectValue g]) r u t.
Proof.
  intros Hs Hv Hg Hst. destruct (frames_view _ _ _ _ _ Hv) as (W1 & _). rewrite (consumeByte_sound _ _ _ Hs).
  change (consumeNormalByte Byte.x3a p) with (consumeColon p). pose proof Hs as (A1 & A2 & A3 & A4).
  assert (consumeColon p = setTop (setObjectState passthroughJSONObjectValue g) p) as ->.
  { unfold consumeColon, topFrame. by rewrite A3, W1, last_snoc, Hg, Hst. }
  split; [done|]. injection Hv as _ B2 B3 B4. unfold setTop. rewrite W1, removelast_last. unfold viewOf. cbn in *. by rewrite B2, B3, B4.
Qed.

(** The opening quote of a key. *)
Lemma key_start p fs f r u t : sound passthroughJSONNormal p -> viewOf p = MkView (fs ++ [f]) r u t -> isObject f = true ->
  objectState f = passthroughJSONObjectKeyOrEnd \/ objectState f = passthroughJSONObjectKey ->
  inString (MkView (fs ++ [f]) r u t) true [] (consumeByte p dquote).
Proof.
  intros Hs Hv Hf Hst. assert (expectsObjectKey p = true) as Hk.
  { rewrite expectsObjectKey_view by apply Hs. rewrite Hv. cbn [v_frames]. rewrite last_snoc, Hf. by destruct Hst as [->| ->]. }
  rewrite (consumeByte_sound _ _ _ Hs). change (consumeNormalByte dquote p) with (beginString p). rewrite <- Hv.
  pose proof Hs as (Hm & Hi & Ho & Hc). unfold beginString. set (p0 := set_jp_stringUnicodeDigits 0 _). assert (expectsObjectKey p0 = true) as -> by exact Hk. by split_and!.
Qed.

Section elements.
Context (fuel : nat) (Hvalue : valueSpec fuel).

Lemma items_run n s p fs f r u t : (length s <= n)%nat -> sound passthroughJSONNormal p -> viewOf p = MkView (fs ++ [f]) r u t -> rooted (fs ++ [f]) ->
  isObject f = false -> (length (fs ++ [f]) + fuel = 64)%nat ->
  (arrayState f = passthroughJSONArrayValue \/ arrayState f = passthroughJSONArrayValueOrEnd /\ head (skipSpace s) <> Some Byte.x5d) ->
  match itemsLoop (parseValue (S fuel)) n s with
  | None => outcome p s = None
  | Some (items, rest) => exists p', sound passthroughJSONNormal p' /\ viewOf p' = MkView fs r u t /\ outcome p s = outcome p' rest
  end.
Proof.
  revert s p f. induction n as [|n IH]; intros s p f Hl Hs Hv Hr Hf Hlen Hst; destruct (frames_view _ _ _ _ _ Hv) as (V1 & V3 & V4).
  { destruct s; [|cbn in Hl; lia]. by eapply open_end. }
  cbn [itemsLoop]. assert (expects (viewOf p) = true) as He.
  { rewrite Hv. unfold expects, expectsFrame. cbn [v_frames]. rewrite last_snoc, Hf. by destruct Hst as [->|[-> _]]. }
  pose proof (Hvalue s p Hs) as H. rewrite V1, last_snoc in H. specialize (H Hr Hlen He). rewrite V3, V4 in H.
  assert (nextPlace (fs ++ [f]) = POther) as Hp by (unfold nextPlace; rewrite last_snoc, innermost_other by done; by destruct (currentKey f)).
  rewrite Hp in H. destruct (parseValue (S fuel) s) as [[v rest]|] eqn:Ep; cbn [mbind option_bind].
  2: { apply H. intros _ Ha. destruct Hst as [Hst|[_ Hst]]; [congruence|done]. }
  rewrite visit_other in H. destruct H as (p1 & Hs1 & Hv1 & Ho1).
  { intros _ Ha. destruct Hst as [Hst|[_ Hst]]; [congruence|done]. }
  unfold closeView, rootAfter in Hv1. rewrite Hv in Hv1. cbn [v_frames v_root] in Hv1. rewrite onTop_snoc in Hv1.
  assert ((match fs ++ [f] with [] => passthroughJSONRootComplete | _ :: _ => r end) = r) as Er by (by destruct fs). rewrite Er in Hv1.
  assert (isObject (closeFrame f) = false) as Hf1 by (by rewrite isObject_close). assert (arrayState (closeFrame f) = passthroughJSONArrayCommaOrEnd) as Hst1.
  { unfold closeFrame, startFrame. by rewrite Hf. }
  assert (rooted (fs ++ [closeFrame f])) as Hr1 by (rewrite <- onTop_snoc; by apply rooted_close).
  destruct (frames_view _ _ _ _ _ Hv1) as (W1 & _). apply parse_shorter in Ep. pose proof (skipSpace_length rest) as Hsk.
  rewrite Ho1, (skip_run p1 rest Hs1). destruct (skipSpace rest) as [|b rest'] eqn:Esk; [by eapply open_end|].
  pose proof (skipSpace_spec rest) as (_ & _ & _ & Hb). rewrite Esk in Hb. cbn in Hsk.
  destruct (bool_decide (b = Byte.x2c)) eqn:Ecomma.
  { apply bool_decide_eq_true in Ecomma as ->. destruct (comma_run _ _ _ _ _ _ Hs1 Hv1 ltac:(by rewrite Hf1)) as [Hs2 Hv2]. rewrite Hf1 in Hv2.
    specialize (IH rest' (consumeByte p1 Byte.x2c) (setArrayState passthroughJSONArrayValue (closeFrame f)) ltac:(lia) Hs2 Hv2).
    rewrite outcome_cons. destruct (itemsLoop (parseValue (S fuel)) n rest') as [[items rest2]|]; cbn [mbind option_bind]; apply IH; try done;
      try (by apply (rooted_same _ (closeFrame f))); try (rewrite length_app in *; done); by left. }
  destruct (bool_decide (b = Byte.x5d)) eqn:Eend.
  { apply bool_decide_eq_true in Eend as ->. destruct (leave_run _ Byte.x5d _ _ _ _ _ Hs1 Hv1) as [Hs2 Hv2]; [apply canClose_comma; by rewrite Hf1|by right|].
    exists (consumeByte p1 Byte.x5d). by split_and!. }
  eapply misplaced_dead; [done|by rewrite W1|exact W1|]. apply bool_decide_eq_false in Ecomma, Eend.
  unfold misplaced, expectsFrame. rewrite Hf1, Hst1. split_and!; try done; by intros ->.
Qed.

(** The fields of an object: the usage and the type go through their values. *)
Definition visitFields (c : place) (fields : list (bytes * json)) (st : option (Usage * passthroughTerminalEvent)) : option (Usage * passthroughTerminalEvent) :=
  foldl (fun st '(key, v) => st ← st; visit (placeOf c (keyOf key)) v st) st fields.

Lemma visitFields_none c fields : visitFields c fields None = None.
Proof. induction fields as [|[k v] fields IH]; [done|exact IH]. Qed.

Lemma fields_run n s p fs f r u t : (length s <= n)%nat -> sound passthroughJSONNormal p -> viewOf p = MkView (fs ++ [f]) r u t -> rooted (fs ++ [f]) ->
  isObject f = true -> (length (fs ++ [f]) + fuel = 64)%nat ->
  (objectState f = passthroughJSONObjectKey \/ objectState f = passthroughJSONObjectKeyOrEnd /\ head (skipSpace s) <> Some Byte.x7d) ->
  match fieldsLoop (parseValue (S fuel)) n s with
  | None => outcome p s = None
  | Some (fields, rest) =>
      match visitFields (innermost (fs ++ [f])) fields (Some (u, t)) with
      | None => outcome p s = None
      | Some (u, t) => exists p', sound passthroughJSONNormal p' /\ viewOf p' = MkView fs r u t /\ outcome p s = outcome p' rest
      end
  end.
Proof.
  revert s p f u t. induction n as [|n IH]; intros s p f u t Hl Hs Hv Hr Hf Hlen Hst; destruct (frames_view _ _ _ _ _ Hv) as (V1 & V3 & V4).
  { destruct s; [|cbn in Hl; lia]. by eapply open_end. }
  assert (rooted (jp_frames p)) as Hrp by (by rewrite V1).
  assert (expectsFrame f = false) as Hef by (unfold expectsFrame; rewrite Hf; by destruct Hst as [->|[-> _]]).
  cbn [fieldsLoop]. unfold parseField. pose proof (skipSpace_length s) as Hsk. rewrite (skip_run p s Hs).
  destruct (skipSpace s) as [|q s1] eqn:Esk; [by eapply open_end|]. pose proof (skipSpace_spec s) as (_ & _ & _ & Hq). rewrite Esk in Hq. cbn in Hsk.
  destruct (bool_decide (q = dquote)) eqn:Eq.
  2: { apply bool_decide_eq_false in Eq. cbn [mbind option_bind]. eapply misplaced_dead; [done|done|exact V1|]. unfold misplaced. rewrite Hf.
       split_and!; try done.
       - intros ->. unfold canClose. rewrite Hf. destruct Hst as [-> |[-> Hh]]; [done|]. by destruct Hh.
       - intros _. by destruct Hst as [->|[-> _]].
       - intros _ _. by destruct Hst as [->|[-> _]]. }
  apply bool_decide_eq_true in Eq as ->.
  assert (objectState f = passthroughJSONObjectKeyOrEnd \/ objectState f = passthroughJSONObjectKey) as Hst' by tauto.
  pose proof (string_run _ _ s1 _ _ (key_start _ _ _ _ _ _ Hs Hv Hf Hst')) as H. rewrite outcome_cons.
  destruct (stringEnd s1) as [[raw s2]|] eqn:Estr; cbn [mbind option_bind]; [|done]. destruct H as (body & q & -> & Hq' & Ho). cbn [app] in Hq'. rewrite Ho. clear Ho.
  destruct (key_end _ _ _ _ _ _ _ Hq' Hf Hst') as [Hs2 Hv2]. set (key := keyOf (dquote :: body ++ [dquote])) in *. set (g := setObjectState passthroughJSONObjectColon _) in Hv2.
  assert (isObject g = true) as Hg by exact Hf. assert (rooted (fs ++ [g])) as Hrg by (by apply (rooted_same _ f)).
  assert (innermost (fs ++ [g]) = innermost (fs ++ [f])) as Hig by (by apply innermost_same).
  destruct (frames_view _ _ _ _ _ Hv2) as (W1 & _). pose proof (skipSpace_length s2) as Hsk2. rewrite (skip_run _ s2 Hs2).
  destruct (stringEnd_local _ _ _ Estr) as [Es1 _]. destruct (skipSpace s2) as [|c s3] eqn:Esk2; [by eapply open_end|].
  pose proof (skipSpace_spec s2) as (_ & _ & _ & Hc). rewrite Esk2 in Hc. cbn in Hsk2.
  destruct (bool_decide (c = Byte.x3a)) eqn:Ec.
  2: { apply bool_decide_eq_false in Ec. cbn [mbind option_bind]. eapply misplaced_dead; [done|by rewrite W1|exact W1|]. unfold misplaced, expectsFrame, canClose. rewrite Hg. by split_and!. }
  apply bool_decide_eq_true in Ec as ->.
  set (h := setObjectState passthroughJSONObjectValue g).
  destruct (colon_run _ _ _ _ _ _ Hs2 Hv2 Hg eq_refl) as [Hs3 Hv3]. fold h in Hv3.
  rewrite outcome_cons. set (p3 := consumeByte (normal (finishString q)) Byte.x3a) in *. destruct (frames_view _ _ _ _ _ Hv3) as (X1 & X3 & X4).
  assert (rooted (fs ++ [h])) as Hrh by (by apply (rooted_same _ f)). assert (isObject h = true) as Hh by exact Hf.
  assert (innermost (fs ++ [h]) = innermost (fs ++ [f])) as Hih by (by apply innermost_same).
  pose proof (Hvalue s3 p3 Hs3) as H. rewrite X1, last_snoc, X3, X4 in H. specialize (H Hrh).
  assert (nextPlace (fs ++ [h]) = placeOf (innermost (fs ++ [f])) key) as Hp by (unfold nextPlace; by rewrite last_snoc, Hih).
  rewrite Hp in H. specialize (H ltac:(rewrite length_app in *; done)). assert (expects (viewOf p3) = true) as Hep.
  { rewrite Hv3. unfold expects, expectsFrame. cbn [v_frames]. by rewrite last_snoc, Hh. }
  specialize (H Hep ltac:(congruence)). destruct (parseValue (S fuel) s3) as [[v rest]|] eqn:Ep; cbn [mbind option_bind]; [|exact H].
  apply parse_shorter in Ep. pose proof (skipSpace_length rest) as Hsk4.
  assert (forall fields, visitFields (innermost (fs ++ [f])) ((dquote :: body ++ [dquote], v) :: fields) (Some (u, t)) =
    visitFields (innermost (fs ++ [f])) fields (visit (placeOf (innermost (fs ++ [f])) key) v (u, t))) as Hvis by done.
  destruct (visit (placeOf (innermost (fs ++ [f])) key) v (u, t)) as [[u1 t1]|] eqn:Ev; cbn [continues] in H.
  2: { destruct (skipSpace rest) as [|b rest']; [exact H|]. destruct (bool_decide (b = Byte.x2c)).
       - destruct (fieldsLoop _ n rest') as [[fields rest2]|]; cbn [mbind option_bind]; [|exact H]. rewrite Hvis, visitFields_none. exact H.
       - destruct (bool_decide (b = Byte.x7d)); [|exact H]. rewrite Hvis, visitFields_none. exact H. }
  destruct H as (p4 & Hs4 & Hv4 & Ho4). unfold closeView, rootAfter in Hv4. rewrite Hv3 in Hv4. cbn [v_frames v_root] in Hv4. rewrite onTop_snoc in Hv4.
  assert ((match fs ++ [h] with [] => passthroughJSONRootComplete | _ :: _ => r end) = r) as Er by (by destruct fs). rewrite Er in Hv4.
  set (k := closeFrame h) in *. assert (isObject k = true) as Hk4 by (subst k; by rewrite isObject_close).
  assert (objectState k = passthroughJSONObjectCommaOrEnd) as Hst4 by (subst k; unfold closeFrame, startFrame; by rewrite Hh).
  assert (rooted (fs ++ [k])) as Hrk by (subst k; rewrite <- onTop_snoc; by apply rooted_close).
  assert (innermost (fs ++ [k]) = innermost (fs ++ [f])) as Hik.
  { rewrite <- Hih. apply innermost_same; subst k; unfold closeFrame; rewrite Hh; by destruct (startFrame_keys h) as (? & ? & _). }
  destruct (frames_view _ _ _ _ _ Hv4) as (Y1 & _). rewrite Ho4, (skip_run p4 rest Hs4). destruct (skipSpace rest) as [|b rest'] eqn:Esk4; [by eapply open_end|].
  pose proof (skipSpace_spec rest) as (_ & _ & _ & Hb). rewrite Esk4 in Hb. cbn in Hsk4.
  destruct (bool_decide (b = Byte.x2c)) eqn:Ecomma.
  { apply bool_decide_eq_true in Ecomma as ->. destruct (comma_run _ _ _ _ _ _ Hs4 Hv4 ltac:(by rewrite Hk4)) as [Hs5 Hv5]. rewrite Hk4 in Hv5.
    specialize (IH rest' (consumeByte p4 Byte.x2c) (setObjectState passthroughJSONObjectKey k) u1 t1).
    assert (innermost (fs ++ [setObjectState passthroughJSONObjectKey k]) = innermost (fs ++ [f])) as Hi5 by (rewrite <- Hik; by apply innermost_same).
    rewrite Hi5 in IH. rewrite outcome_cons.
    specialize (IH ltac:(rewrite Es1 in Hsk; rewrite length_app in Hsk; lia) Hs5 Hv5 ltac:(by apply (rooted_same _ k)) Hk4 ltac:(rewrite length_app in *; done) ltac:(by left)).
    destruct (fieldsLoop (parseValue (S fuel)) n rest') as [[fields rest2]|]; cbn [mbind option_bind]; [|exact IH]. rewrite Hvis. exact IH. }
  destruct (bool_decide (b = Byte.x7d)) eqn:Eend.
  { apply bool_decide_eq_true in Eend as ->. destruct (leave_run _ Byte.x7d _ _ _ _ _ Hs4 Hv4) as [Hs5 Hv5]; [apply canClose_comma; by rewrite Hk4|by left|].
    rewrite Hvis. cbn [visitFields foldl]. exists (consumeByte p4 Byte.x7d). by split_and!. }
  apply bool_decide_eq_false in Ecomma, Eend. eapply misplaced_dead; [done|by rewrite Y1|exact Y1|].
  unfold misplaced, expectsFrame. rewrite Hk4, Hst4. split_and!; try done; by intros ->.
Qed.
End elements.

(** ** Documents *)

(** A byte that begins no value where a value is expected. *)
Lemma noValue_invalid p b : sound passthroughJSONNormal p -> expects (viewOf p) = true ->
  (match last (jp_frames p) with Some f => isObject f = false -> arrayState f = passthroughJSONArrayValueOrEnd -> b <> Byte.x5d | None => True end) ->
  b = Byte.x7d \/ b = Byte.x5d \/ b = Byte.x2c \/ b = Byte.x3a -> jp_invalid (consumeByte p b) = true.
Proof.
  intros Hs He Hf Hb. rewrite (consumeByte_sound _ _ _ Hs). destruct Hs as (Hm & Hi & Ho & Hc). unfold expects, expectsFrame in He.
  change (v_frames (viewOf p)) with (jp_frames p) in He.
  assert (forall c, c = Byte.x7d \/ c = Byte.x5d -> b = c -> jp_invalid (leaveContainer c p) = true) as Hleave.
  { intros c Hcc ->. unfold leaveContainer, topFrame. rewrite Ho. cbn [Z.ltb Z.compare]. destruct (last (jp_frames p)) as [f|]; [|done].
    assert ((bool_decide (c = Byte.x7d) && negb (isObject f)) || (bool_decide (c = Byte.x5d) && isObject f) = true \/ canClose f = false) as [->|Hcl]; [|done|].
    - unfold canClose. destruct (isObject f) eqn:Ef; cbn [negb].
      + apply bool_decide_eq_true in He. rewrite He. by right.
      + apply orb_true_iff in He as [He%bool_decide_eq_true|He%bool_decide_eq_true]; rewrite He; [|by right].
        left. destruct Hcc as [->| ->]; [done|]. by destruct (Hf eq_refl He).
    - rewrite Hcl. by repeat case_match. }
  destruct Hb as [->|[->|[->| ->]]].
  - apply (Hleave Byte.x7d); [by left|done].
  - apply (Hleave Byte.x5d); [by right|done].
  - change (consumeNormalByte Byte.x2c p) with (consumeComma p). unfold consumeComma, topFrame. rewrite Ho. cbn [Z.ltb Z.compare].
    destruct (last (jp_frames p)) as [f|]; [|done]. destruct (isObject f).
    + by apply bool_decide_eq_true in He as ->.
    + by apply orb_true_iff in He as [->%bool_decide_eq_true| ->%bool_decide_eq_true].
  - change (consumeNormalByte Byte.x3a p) with (consumeColon p). unfold consumeColon, topFrame. rewrite Ho. cbn [Z.ltb Z.compare].
    destruct (last (jp_frames p)) as [f|]; [|done]. destruct (isObject f); [|done]. by apply bool_decide_eq_true in He as ->.
Qed.

Lemma literal_tests b : isJSONSpace b = false -> b <> Byte.x7b -> b <> Byte.x5b -> b <> dquote -> b <> Byte.x2d -> isDigit b = false ->
  (b = Byte.x7d \/ b = Byte.x5d \/ b = Byte.x2c \/ b = Byte.x3a) \/ forall p, consumeNormalByte b p = beginLiteral b p.
Proof.
  intros Hw H1 H2 H3 H4 Hd. destruct (decide (b = Byte.x7d)); [tauto|]. destruct (decide (b = Byte.x5d)); [tauto|].
  destruct (decide (b = Byte.x2c)); [tauto|]. destruct (decide (b = Byte.x3a)); [tauto|]. right. intros p. unfold consumeNormalByte.
  rewrite space_same, Hw, Hd. by rewrite !bool_decide_eq_false_2.
Qed.

Lemma value_end p : sound passthroughJSONNormal p -> expects (viewOf p) = true -> outcome p [] = None.
Proof.
  intros Hs He. destruct (jp_frames p) as [|f fs _] eqn:E using rev_ind; [|by eapply open_end].
  unfold outcome, Finish, ValidJSON. destruct Hs as (Hm & Hi & Ho & _). cbn [foldl]. rewrite Hm. cbn.
  unfold expects in He. change (v_frames (viewOf p)) with (jp_frames p) in He. rewrite E in He. cbn in He. apply bool_decide_eq_true in He. rewrite He.
  rewrite (bool_decide_eq_false_2 (passthroughJSONRootValue = _)) by done. by rewrite andb_false_r.
Qed.

(** An array. *)
Lemma array_run fuel p s : valueSpec fuel -> sound passthroughJSONNormal p -> rooted (jp_frames p) -> expects (viewOf p) = true ->
  (length (jp_frames p) + S fuel = 64)%nat ->
  match parseItems (parseValue (S fuel)) s with
  | None => outcome p (Byte.x5b :: s) = None
  | Some (items, rest) => forall raw, continues (viewOf p) (visit (nextPlace (jp_frames p)) (JArray raw items) (jp_usage p, jp_terminal p)) p (Byte.x5b :: s) rest
  end.
Proof.
  intros IH Hs Hr He Hlen. pose proof (enter_run passthroughJSONArray p Hs Hr He) as H. cbv zeta in H.
  assert (consumeByte p Byte.x5b = enterContainer passthroughJSONArray p) as Eb by (by rewrite (consumeByte_sound _ _ _ Hs)).
  destruct (Nat.eqb_spec (length (jp_frames p)) 64); [lia|]. rewrite orb_false_r in H. rewrite outcome_cons, Eb.
  destruct (isCounter (nextPlace (jp_frames p))) eqn:Ec.
  { destruct (parseItems _ s) as [[items rest]|]; [|by apply outcome_invalid]. intros raw. destruct (nextPlace (jp_frames p)); try done.
    cbn [visit counterOf mbind option_bind continues]. rewrite outcome_cons, Eb. by apply outcome_invalid. }
  destruct H as [Hs1 Hv1]. set (p1 := enterContainer passthroughJSONArray p) in *. set (gs := onTop closeFrame (jp_frames p)) in *.
  set (f := newFrame passthroughJSONArray (jp_frames p)) in *. assert (isObject f = false) as Hf by done.
  assert (rooted (gs ++ [f])) as Hrg.
  { subst gs f. destruct (jp_frames p) as [|g fs _] using rev_ind; [done|]. rewrite onTop_snoc. pose proof (rooted_close _ Hr) as H. rewrite onTop_snoc in H. by destruct fs. }
  assert (forall rest p', sound passthroughJSONNormal p' -> viewOf p' = MkView gs (rootAfter (viewOf p)) (supersede (nextPlace (jp_frames p)) (jp_usage p)) (startTerminal (viewOf p)) ->
    outcome p1 s = outcome p' rest -> forall raw items, continues (viewOf p) (visit (nextPlace (jp_frames p)) (JArray raw items) (jp_usage p, jp_terminal p)) p (Byte.x5b :: s) rest) as Hend.
  { intros rest p' A B C raw items. rewrite visit_scalar by done.
    assert (match nextPlace (jp_frames p) with PCounter k => (fun n => recordCounter k n (supersede (nextPlace (jp_frames p)) (jp_usage p))) <$> counterOf (JArray raw items)
      | _ => Some (supersede (nextPlace (jp_frames p)) (jp_usage p)) end = Some (supersede (nextPlace (jp_frames p)) (jp_usage p))) as -> by (by destruct (nextPlace (jp_frames p))).
    exists p'. split_and!; [done|exact B|]. by rewrite outcome_cons, Eb. }
  destruct (frames_view _ _ _ _ _ Hv1) as (V1 & _). pose proof (skipSpace_length s) as Hsk. unfold parseItems. rewrite (skip_run p1 s Hs1) in *.
  destruct (skipSpace s) as [|b r] eqn:Esk; [by eapply open_end|]. cbn in Hsk.
  destruct (bool_decide (b = Byte.x5d)) eqn:Ee.
  { apply bool_decide_eq_true in Ee as ->. destruct (leave_run p1 Byte.x5d _ _ _ _ _ Hs1 Hv1 eq_refl ltac:(by right)) as [Hs2 Hv2]. intros raw. by apply (Hend r (consumeByte p1 Byte.x5d)). }
  apply bool_decide_eq_false in Ee.
  assert (head (skipSpace (b :: r)) <> Some Byte.x5d) as Hh.
  { pose proof (skipSpace_spec s) as (_ & _ & _ & Hb). rewrite Esk in Hb. rewrite skipSpace_here by done. by intros [= ->]. }
  pose proof (items_run fuel IH (length s) (b :: r) p1 gs f _ _ _ ltac:(cbn; lia) Hs1 Hv1 Hrg Hf ltac:(subst gs; rewrite length_app, length_onTop; cbn; lia) ltac:(by right)) as H.
  destruct (itemsLoop _ (length s) (b :: r)) as [[items rest]|]; [|exact H]. destruct H as (p' & A & B & C). intros raw. by apply (Hend rest p').
Qed.

(** An object. *)
Lemma object_run fuel p s : valueSpec fuel -> sound passthroughJSONNormal p -> rooted (jp_frames p) -> expects (viewOf p) = true ->
  (length (jp_frames p) + S fuel = 64)%nat ->
  match parseFields (parseValue (S fuel)) s with
  | None => outcome p (Byte.x7b :: s) = None
  | Some (fields, rest) => forall raw, continues (viewOf p) (visit (nextPlace (jp_frames p)) (JObject raw fields) (jp_usage p, jp_terminal p)) p (Byte.x7b :: s) rest
  end.
Proof.
  intros IH Hs Hr He Hlen. pose proof (enter_run passthroughJSONObject p Hs Hr He) as H. cbv zeta in H.
  assert (consumeByte p Byte.x7b = enterContainer passthroughJSONObject p) as Eb by (by rewrite (consumeByte_sound _ _ _ Hs)).
  destruct (Nat.eqb_spec (length (jp_frames p)) 64); [lia|]. rewrite orb_false_r in H. rewrite outcome_cons, Eb.
  destruct (isCounter (nextPlace (jp_frames p))) eqn:Ec.
  { destruct (parseFields _ s) as [[fields rest]|]; [|by apply outcome_invalid]. intros raw. destruct (nextPlace (jp_frames p)); try done.
    cbn [visit counterOf mbind option_bind continues]. rewrite outcome_cons, Eb. by apply outcome_invalid. }
  destruct H as [Hs1 Hv1]. set (p1 := enterContainer passthroughJSONObject p) in *. set (gs := onTop closeFrame (jp_frames p)) in *.
  set (f := newFrame passthroughJSONObject (jp_frames p)) in *. assert (isObject f = true) as Hf by done.
  assert (rooted (gs ++ [f])) as Hrg.
  { subst gs f. destruct (jp_frames p) as [|g fs _] using rev_ind; [done|]. rewrite onTop_snoc. pose proof (rooted_close _ Hr) as H. rewrite onTop_snoc in H. by destruct fs. }
  assert (innermost (gs ++ [f]) = nextPlace (jp_frames p)) as Hin by apply innermost_new.
  set (st := (supersede (nextPlace (jp_frames p)) (jp_usage p), startTerminal (viewOf p))).
  assert (forall raw fields, visit (nextPlace (jp_frames p)) (JObject raw fields) (jp_usage p, jp_terminal p) = visitFields (nextPlace (jp_frames p)) fields (Some st)) as Hvis.
  { intros raw fields. subst st. unfold startTerminal. change (v_frames (viewOf p)) with (jp_frames p). change (v_terminal (viewOf p)) with (jp_terminal p). by destruct (nextPlace (jp_frames p)). }
  destruct (frames_view _ _ _ _ _ Hv1) as (V1 & _). pose proof (skipSpace_length s) as Hsk. unfold parseFields. rewrite (skip_run p1 s Hs1) in *.
  destruct (skipSpace s) as [|b r] eqn:Esk; [by eapply open_end|]. cbn in Hsk.
  destruct (bool_decide (b = Byte.x7d)) eqn:Ee.
  { apply bool_decide_eq_true in Ee as ->. destruct (leave_run p1 Byte.x7d _ _ _ _ _ Hs1 Hv1 eq_refl ltac:(by left)) as [Hs2 Hv2].
    intros raw. rewrite Hvis. cbn [visitFields foldl continues]. exists (consumeByte p1 Byte.x7d). split_and!; [done|exact Hv2|].
    by rewrite outcome_cons, Eb, (skip_run p1 s Hs1), Esk. }
  apply bool_decide_eq_false in Ee.
  assert (head (skipSpace (b :: r)) <> Some Byte.x7d) as Hh.
  { pose proof (skipSpace_spec s) as (_ & _ & _ & Hb). rewrite Esk in Hb. rewrite skipSpace_here by done. by intros [= ->]. }
  pose proof (fields_run fuel IH (length s) (b :: r) p1 gs f _ _ _ ltac:(cbn; lia) Hs1 Hv1 Hrg Hf ltac:(subst gs; rewrite length_app, length_onTop; cbn; lia) ltac:(by right)) as H.
  rewrite Hin in H. destruct (fieldsLoop _ (length s) (b :: r)) as [[fields rest]|]; [|exact H]. intros raw. rewrite Hvis. fold st in H.
  destruct (visitFields _ fields (Some st)) as [[u t]|]; cbn [continues]; rewrite outcome_cons, Eb, (skip_run p1 s Hs1), Esk; exact H.
Qed.

Lemma value_run fuel : valueSpec fuel.
Proof.
  induction fuel as [fuel IH] using lt_wf_ind. intros s p Hs Hr Hlen He Hfirst. cbn [parseValue].
  assert (forall v rest, continues (viewOf p) v p (skipSpace s) rest -> continues (viewOf p) v p s rest) as Hskip.
  { intros v rest H. destruct v as [[u t]|]; cbn [continues] in *; by rewrite (skip_run p s Hs). }
  destruct (skipSpace s) as [|b r] eqn:Esk; [rewrite (skip_run p s Hs), Esk; by apply value_end|].
  pose proof (skipSpace_spec s) as (_ & _ & _ & Hb). rewrite Esk in Hb.
  destruct (bool_decide (b = dquote)) eqn:Eq.
  { apply bool_decide_eq_true in Eq as ->. pose proof (stringValue_run p r Hs Hr He) as H. destruct (stringEnd r) as [[raw rest]|]; cbn [mbind option_bind].
    - by apply Hskip.
    - by rewrite (skip_run p s Hs), Esk. }
  destruct (bool_decide (b = Byte.x5b)) eqn:Ea.
  { apply bool_decide_eq_true in Ea as ->. destruct fuel as [|fuel]; cbn [Nat.eqb].
    - rewrite (skip_run p s Hs), Esk, outcome_cons. assert (consumeByte p Byte.x5b = enterContainer passthroughJSONArray p) as -> by (by rewrite (consumeByte_sound _ _ _ Hs)).
      pose proof (enter_run passthroughJSONArray p Hs Hr He) as H. cbv zeta in H. rewrite (proj2 (Nat.eqb_eq (length (jp_frames p)) 64)), orb_true_r in H by lia. by apply outcome_invalid.
    - pose proof (array_run fuel p r (IH fuel ltac:(lia)) Hs Hr He Hlen) as H. destruct (parseItems _ r) as [[items rest]|]; cbn [mbind option_bind]; [by apply Hskip|].
      by rewrite (skip_run p s Hs), Esk. }
  destruct (bool_decide (b = Byte.x7b)) eqn:Eo.
  { apply bool_decide_eq_true in Eo as ->. destruct fuel as [|fuel]; cbn [Nat.eqb].
    - rewrite (skip_run p s Hs), Esk, outcome_cons. assert (consumeByte p Byte.x7b = enterContainer passthroughJSONObject p) as -> by (by rewrite (consumeByte_sound _ _ _ Hs)).
      pose proof (enter_run passthroughJSONObject p Hs Hr He) as H. cbv zeta in H. rewrite (proj2 (Nat.eqb_eq (length (jp_frames p)) 64)), orb_true_r in H by lia. by apply outcome_invalid.
    - pose proof (object_run fuel p r (IH fuel ltac:(lia)) Hs Hr He Hlen) as H. destruct (parseFields _ r) as [[fields rest]|]; cbn [mbind option_bind]; [by apply Hskip|].
      by rewrite (skip_run p s Hs), Esk. }
  apply bool_decide_eq_false in Eq, Ea, Eo.
  destruct (decide (b = Byte.x2d \/ isDigit b = true)) as [Hn|Hn].
  { pose proof (number_run p b r Hs Hr He Hn) as H. assert (scanLiteral (b :: r) = None) as ->.
    { destruct (scanLiteral (b :: r)) as [[raw rest]|] eqn:E; [|done]. apply scanLiteral_word in E as [Hw E]. unfold isWord in Hw.
      rewrite !orb_true_iff, !bool_decide_eq_true in Hw. destruct raw as [|c raw]; [by destruct Hw as [[?|?]|?]|]. injection E as -> _.
      destruct Hw as [[E|E]|E]; injection E as -> _; by destruct Hn. }
    destruct (scanNumber (b :: r)) as [[raw rest]|]; cbn [mbind option_bind]; [by apply Hskip|]. by rewrite (skip_run p s Hs), Esk. }
  assert (scanNumber (b :: r) = None) as ->.
  { destruct (scanNumber (b :: r)) as [[raw rest]|] eqn:E; [|done]. by apply scanNumber_first in E. }
  destruct (literal_tests b Hb Eo Ea Eq) as [Hp|Hl]; [tauto|destruct (isDigit b) eqn:?; tauto| |].
  - assert (outcome p s = None) as Hnone.
    { rewrite (skip_run p s Hs), Esk, outcome_cons. apply outcome_invalid, noValue_invalid; try done. destruct (last (jp_frames p)) as [f|]; [|done].
      intros Hf Ha ->. by destruct (Hfirst Hf Ha). }
    destruct (scanLiteral (b :: r)) as [[raw rest]|] eqn:E; [|done]. exfalso. apply scanLiteral_word in E as [Hw E]. unfold isWord in Hw.
    rewrite !orb_true_iff, !bool_decide_eq_true in Hw. destruct raw as [|c raw]; [by destruct Hw as [[?|?]|?]|]. injection E as -> _.
    destruct Hw as [[E|E]|E]; injection E as -> _; by destruct Hp as [|[|[|]]].
  - pose proof (literal_run p b r Hs Hr He (Hl p)) as H. destruct (scanLiteral (b :: r)) as [[raw rest]|]; cbn [mbind option_bind]; [by apply Hskip|].
    by rewrite (skip_run p s Hs), Esk.
Qed.

(** A document: the parser accepts the texts of one value with at most 64 open containers in
    which every counter is a counter, and answers what [visit] says. *)
Lemma document_run s : outcome emptyJSONParser s = v ← parseDoc 64 s; visit PRoot v (zeroUsage, passthroughTerminalEventNone).
Proof.
  set (p0 := set_jp_contentSeen true emptyJSONParser). assert (sound passthroughJSONNormal p0) as Hs0 by done.
  assert (outcome emptyJSONParser s = outcome p0 s) as -> by (by destruct s).
  unfold parseDoc. pose proof (value_run 64 s p0 Hs0 ltac:(done) ltac:(done) ltac:(done) ltac:(done)) as H.
  destruct (parseValue 65 s) as [[v rest]|] eqn:Ep; cbn -[parseValue visit]; [|exact H].
  change (nextPlace (jp_frames p0)) with PRoot in H. change (jp_usage p0, jp_terminal p0) with (zeroUsage, passthroughTerminalEventNone) in H.
  destruct (skipSpace rest) as [|b r] eqn:Esk.
  - cbn [mbind option_bind]. destruct (visit PRoot v _) as [[u t]|]; cbn [continues] in H; [|exact H]. destruct H as (p & Hs & Hv & ->). rewrite (skip_run p rest Hs), Esk.
    unfold outcome, Finish, ValidJSON. destruct Hs as (Hm & Hi & Ho & _). cbn [foldl]. rewrite Hm. injection Hv as V1 V2 V3 V4. cbn. unfold depth. cbn. by rewrite Hi, Ho, V1, V2, V3, V4.
  - assert (outcome p0 s = None) as ->; [|done]. destruct (visit PRoot v _) as [[u t]|]; cbn [continues] in H; [|exact H]. destruct H as (p & Hs & Hv & ->). rewrite (skip_run p rest Hs), Esk.
    pose proof (skipSpace_spec rest) as (_ & _ & _ & Hb). rewrite Esk in Hb. rewrite outcome_cons. apply outcome_invalid.
    destruct (frames_view _ _ _ _ _ Hv) as (V1 & _). assert (closed (viewOf p)) as Hc by (rewrite Hv; done).
    destruct (isPassthroughJSONValueDelimiter b) eqn:Ed; [|apply after_junk; [done|by rewrite V1|done|done]].
    rewrite (consumeByte_sound _ _ _ Hs). unfold isPassthroughJSONValueDelimiter in Ed. rewrite space_same, Hb in Ed. cbn [orb] in Ed.
    rewrite !orb_true_iff, !bool_decide_eq_true in Ed. pose proof Hs as (Hm & Hi & Ho & _).
    destruct Ed as [[->| ->]| ->]; [change (consumeNormalByte Byte.x2c p) with (consumeComma p); unfold consumeComma, topFrame; by rewrite V1| |].
    + change (consumeNormalByte Byte.x7d p) with (leaveContainer Byte.x7d p). unfold leaveContainer, topFrame. by rewrite Ho, V1.
    + change (consumeNormalByte Byte.x5d p) with (leaveContainer Byte.x5d p). unfold leaveContainer, topFrame. by rewrite Ho, V1.
Qed.
