(* ===== verification/AdUsageSpec.v ===== *)
(** * AdUsageSpec: what the usage parser computes

    The reference reads a stream as lines and events, parses the data of an event with
    [parseDoc], and takes the usage from the last field of each name.  [usage_exact]: the
    state machines of [AdUsage] answer exactly that, in whatever chunks the stream arrives. *)

From S2P Require Import Prelude GoUtf8 GoStrconv GoText GoSha256 GoJson AdUsage AdUsageView AdUsageScalar AdUsageJson.

Open Scope Z_scope.

(** ** The reference in terms of fields *)

Definition fieldsOf (v : json) : list (bytes * json) := match v with JObject _ fields => fields | _ => [] end.

(** The values of the fields of a name, and the last of them. *)
Definition fieldsAt (k : passthroughUsageKey) (v : json) : list json := map snd (filter (fun field => keyOf field.1 = k) (fieldsOf v)).
Definition fieldAt (k : passthroughUsageKey) (v : json) : option json := last (fieldsAt k v).

Definition counterIn (k : passthroughUsageKey) (v : option json) : Z := default 0 (v ← v; c ← fieldAt k v; counterOf c).

(** The usage of a document: that of the last field of each name. *)
Definition docUsage (v : json) : Usage :=
  let usage := response ← fieldAt passthroughUsageKeyResponse v; fieldAt passthroughUsageKeyUsage response in
  let details := usage ← usage; fieldAt passthroughUsageKeyInputTokensDetails usage in
  let input := counterIn passthroughUsageKeyInputTokens usage in
  let output := counterIn passthroughUsageKeyOutputTokens usage in
  MkUsage input output (counterIn passthroughUsageKeyTotalTokens usage) (details ← details; c ← fieldAt passthroughUsageKeyCachedTokens details; counterOf c) input output.

Definition docType (v : json) : passthroughTerminalEvent :=
  match fieldAt passthroughUsageKeyType v with Some t => terminalOf t | None => passthroughTerminalEventNone end.

Definition isCount (v : json) : bool := match counterOf v with Some _ => true | None => false end.

(** Every counter is one, also those that a later field makes obsolete. *)
Definition detailsOk (v : json) : bool := forallb isCount (fieldsAt passthroughUsageKeyCachedTokens v).
Definition usageOk (v : json) : bool :=
  forallb (fun k => forallb isCount (fieldsAt k v)) [passthroughUsageKeyInputTokens; passthroughUsageKeyOutputTokens; passthroughUsageKeyTotalTokens] &&
  forallb detailsOk (fieldsAt passthroughUsageKeyInputTokensDetails v).
Definition responseOk (v : json) : bool := forallb usageOk (fieldsAt passthroughUsageKeyUsage v).
Definition documentOk (v : json) : bool := forallb responseOk (fieldsAt passthroughUsageKeyResponse v).

Lemma fieldsAt_snoc k fields key v raw : fieldsAt k (JObject raw (fields ++ [(key, v)])) = fieldsAt k (JObject raw fields) ++ (if decide (keyOf key = k) then [v] else []).
Proof.
  unfold fieldsAt. cbn [fieldsOf]. rewrite filter_app, map_app. f_equal. rewrite filter_cons. cbn [fst]. by destruct (decide (keyOf key = k)).
Qed.

Lemma fieldAt_snoc k fields key v raw : fieldAt k (JObject raw (fields ++ [(key, v)])) = if decide (keyOf key = k) then Some v else fieldAt k (JObject raw fields).
Proof. unfold fieldAt. rewrite fieldsAt_snoc. destruct (decide (keyOf key = k)); [by rewrite last_snoc|by rewrite app_nil_r]. Qed.

Lemma visitFields_snoc c fields key v st : visitFields c (fields ++ [(key, v)]) st = st ← visitFields c fields st; visit (placeOf c (keyOf key)) v st.
Proof. unfold visitFields. by rewrite foldl_app. Qed.

Lemma visit_counter k v u t : visit (PCounter k) v (u, t) = n ← counterOf v; Some (recordCounter k n u, t).
Proof. by destruct v. Qed.

(** Comparisons of keys that are constructors. *)
Ltac decide_keys := repeat match goal with |- context [decide (?a = ?b)] => let E := fresh in destruct (decide (a = b)) as [E|E]; [try discriminate E|try (by destruct E)] end.

(** The details. *)
Lemma details_fields raw fields u t : visitFields PDetails fields (Some (u, t)) =
  if forallb isCount (fieldsAt passthroughUsageKeyCachedTokens (JObject raw fields)) then
    Some (MkUsage (PromptTokens u) (CompletionTokens u) (TotalTokens u)
      (match fieldAt passthroughUsageKeyCachedTokens (JObject raw fields) with Some c => counterOf c | None => PromptTokensDetails u end) (InputTokens u) (OutputTokens u), t)
  else None.
Proof.
  induction fields as [|[key v] fields IH] using rev_ind; [by destruct u|]. rewrite visitFields_snoc, IH, fieldsAt_snoc, fieldAt_snoc, forallb_app.
  destruct (forallb isCount _); [|done]. cbn [mbind option_bind andb]. destruct (decide (keyOf key = passthroughUsageKeyCachedTokens)) as [E|E].
  - rewrite E. cbn [placeOf forallb]. rewrite visit_counter. unfold isCount. by destruct (counterOf v).
  - assert (placeOf PDetails (keyOf key) = POther) as -> by (by destruct (keyOf key)). by rewrite visit_other.
Qed.

Lemma visit_object c v u t : (forall k, c <> PCounter k) -> visit c v (u, t) =
  visitFields c (fieldsOf v) (Some (supersede c u, if decide (c = PType) then terminalOf v else t)).
Proof. intros Hc. destruct c as [| | | | |k|]; try (by destruct v). by destruct (Hc k). Qed.

Lemma visit_details v u t : visit PDetails v (u, t) =
  if detailsOk v then Some (MkUsage (PromptTokens u) (CompletionTokens u) (TotalTokens u) (c ← fieldAt passthroughUsageKeyCachedTokens v; counterOf c) (InputTokens u) (OutputTokens u), t)
  else None.
Proof.
  rewrite visit_object by done. rewrite (details_fields []). cbn [supersede PromptTokens CompletionTokens TotalTokens PromptTokensDetails InputTokens OutputTokens].
  rewrite decide_False by done. unfold detailsOk. by destruct v.
Qed.

(** The usage object. *)
Definition usageIn (v : json) : Usage :=
  let input := counterIn passthroughUsageKeyInputTokens (Some v) in
  let output := counterIn passthroughUsageKeyOutputTokens (Some v) in
  MkUsage input output (counterIn passthroughUsageKeyTotalTokens (Some v))
    (details ← fieldAt passthroughUsageKeyInputTokensDetails v; c ← fieldAt passthroughUsageKeyCachedTokens details; counterOf c) input output.

Lemma counterIn_snoc k raw fields key v : counterIn k (Some (JObject raw (fields ++ [(key, v)]))) =
  if decide (keyOf key = k) then default 0 (counterOf v) else counterIn k (Some (JObject raw fields)).
Proof. unfold counterIn. cbn [mbind option_bind]. rewrite fieldAt_snoc. by destruct (decide (keyOf key = k)). Qed.

Lemma usage_fields raw fields t : visitFields PUsage fields (Some (zeroUsage, t)) =
  if usageOk (JObject raw fields) then Some (usageIn (JObject raw fields), t) else None.
Proof.
  induction fields as [|[key v] fields IH] using rev_ind; [done|]. rewrite visitFields_snoc, IH. clear IH.
  assert (usageOk (JObject raw (fields ++ [(key, v)])) = usageOk (JObject raw fields) &&
    match keyOf key with
    | passthroughUsageKeyInputTokens | passthroughUsageKeyOutputTokens | passthroughUsageKeyTotalTokens => isCount v
    | passthroughUsageKeyInputTokensDetails => detailsOk v
    | _ => true
    end) as ->.
  { unfold usageOk. cbn [forallb]. rewrite !fieldsAt_snoc, !forallb_app.
    destruct (keyOf key); decide_keys; cbn [forallb]; rewrite ?andb_true_r; try done;
      repeat match goal with |- context [forallb ?f (fieldsAt ?k ?w)] => destruct (forallb f (fieldsAt k w)) end; cbn; rewrite ?andb_true_r, ?andb_false_r; done. }
  destruct (usageOk (JObject raw fields)); [|done]. cbn [mbind option_bind andb]. unfold usageIn at 2. rewrite !counterIn_snoc, fieldAt_snoc.
  destruct (keyOf key); decide_keys; cbn [placeOf]; rewrite ?visit_other, ?visit_counter, ?visit_details; try done;
    unfold isCount; by destruct (counterOf v).
Qed.

Lemma visit_usage v u t : visit PUsage v (u, t) = if usageOk v then Some (usageIn v, t) else None.
Proof.
  rewrite visit_object by done. cbn [supersede]. rewrite decide_False by done. destruct v as [raw|raw|raw|raw items|raw fields]; cbn [fieldsOf]; try done. apply usage_fields.
Qed.

(** The response and the document. *)
Definition usageOf (v : option json) : Usage := match v with Some v => usageIn v | None => zeroUsage end.

Lemma response_fields raw fields t : visitFields PResponse fields (Some (zeroUsage, t)) =
  if responseOk (JObject raw fields) then Some (usageOf (fieldAt passthroughUsageKeyUsage (JObject raw fields)), t) else None.
Proof.
  induction fields as [|[key v] fields IH] using rev_ind; [done|]. rewrite visitFields_snoc, IH. unfold responseOk. rewrite fieldsAt_snoc, forallb_app, fieldAt_snoc.
  destruct (forallb usageOk _); [|done]. cbn [mbind option_bind andb]. destruct (decide (keyOf key = passthroughUsageKeyUsage)) as [E|E].
  - rewrite E. cbn [placeOf forallb]. rewrite visit_usage, andb_true_r. done.
  - assert (placeOf PResponse (keyOf key) = POther) as -> by (by destruct (keyOf key)). by rewrite visit_other.
Qed.

Lemma visit_response v u t : visit PResponse v (u, t) = if responseOk v then Some (usageOf (fieldAt passthroughUsageKeyUsage v), t) else None.
Proof.
  rewrite visit_object by done. cbn [supersede]. rewrite decide_False by done. destruct v as [raw|raw|raw|raw items|raw fields]; cbn [fieldsOf]; try done. apply response_fields.
Qed.

Lemma document_fields raw fields : visitFields PRoot fields (Some (zeroUsage, passthroughTerminalEventNone)) =
  if documentOk (JObject raw fields) then Some (docUsage (JObject raw fields), docType (JObject raw fields)) else None.
Proof.
  assert (forall v, docUsage v = usageOf (response ← fieldAt passthroughUsageKeyResponse v; fieldAt passthroughUsageKeyUsage response)) as Hdoc.
  { intros v. unfold docUsage. by destruct (response ← _; _). }
  rewrite Hdoc. induction fields as [|[key v] fields IH] using rev_ind; [done|]. rewrite visitFields_snoc, IH. unfold documentOk, docType. rewrite fieldsAt_snoc, forallb_app, !fieldAt_snoc.
  destruct (forallb responseOk _); [|done]. cbn [mbind option_bind andb].
  destruct (keyOf key); decide_keys; cbn [placeOf forallb]; rewrite ?visit_other, ?visit_response, ?andb_true_r; try done.
  rewrite visit_object by done. cbn [supersede]. rewrite decide_True by done. destruct v as [| | | |raw' fields']; cbn [fieldsOf terminalOf]; try done.
  clear. generalize (usageOf (response ← fieldAt passthroughUsageKeyResponse (JObject raw fields); fieldAt passthroughUsageKeyUsage response)). intros u.
  induction fields' as [|[k v] fields' IH] using rev_ind; [done|]. rewrite visitFields_snoc, IH. cbn [mbind option_bind]. cbn [placeOf]. by rewrite visit_other.
Qed.

Lemma visit_document v : visit PRoot v (zeroUsage, passthroughTerminalEventNone) = if documentOk v then Some (docUsage v, docType v) else None.
Proof.
  rewrite visit_object by done. cbn [supersede]. rewrite decide_False by done. destruct v as [raw|raw|raw|raw items|raw fields]; cbn [fieldsOf]; try done. apply document_fields.
Qed.

(** ** The reference on streams *)

(** The complete lines of a stream, which end at a carriage return, a line feed or both, and
    the beginning of the next line; [line] is what was read of the current one. *)
Fixpoint streamLines (line s : bytes) : list bytes * bytes :=
  match s with
  | [] => ([], line)
  | b :: s =>
      if bool_decide (b = Byte.x0d) then
        match s with
        | c :: s' =>
            if bool_decide (c = Byte.x0a) then let '(lines, last) := streamLines [] s' in (line :: lines, last)
            else let '(lines, last) := streamLines [] s in (line :: lines, last)
        | [] => ([line], [])
        end
      else if bool_decide (b = Byte.x0a) then let '(lines, last) := streamLines [] s in (line :: lines, last)
      else streamLines (line ++ [b]) s
  end.

(** The name of a line, and the text after its colon, without one space. *)
Fixpoint lineParts (line : bytes) : bytes * option bytes :=
  match line with
  | [] => ([], None)
  | b :: rest => if bool_decide (b = Byte.x3a) then ([], Some rest) else let '(name, value) := lineParts rest in (b :: name, value)
  end.

Definition unspaced (value : bytes) : bytes := match value with b :: rest => if bool_decide (b = Byte.x20) then rest else value | [] => [] end.

Record eventState := MkEventState { es_terminal : passthroughTerminalEvent; es_data : bytes; es_usage : Usage }.

(** The usage of an event whose name is that of a terminal event and the type of its valid
    document. *)
Definition eventUsage (st : eventState) : Usage :=
  match es_terminal st, parseDoc 64 (es_data st) with
  | passthroughTerminalEventNone, _ | _, None => es_usage st
  | terminal, Some v => if documentOk v && bool_decide (docType v = terminal) then docUsage v else es_usage st
  end.

Definition stepLine (st : eventState) (line : bytes) : eventState :=
  if bool_decide (line = []) then MkEventState passthroughTerminalEventNone [] (eventUsage st) else
  let '(name, value) := lineParts line in
  let value := unspaced (default [] value) in
  if bool_decide (name = lit "data") then MkEventState (es_terminal st) (es_data st ++ value ++ [Byte.x0a]) (es_usage st)
  else if bool_decide (name = lit "event") then MkEventState (passthroughTerminalEventForName value) (es_data st) (es_usage st)
  else st.

(** The usage of a stream: that of its last event that has one; the end of the stream ends
    its last line and its last event. *)
Definition streamUsage (stream : bytes) : Usage :=
  let '(lines, rest) := streamLines [] (default stream (CutPrefix stream byteOrderMark)) in
  eventUsage (foldl stepLine (MkEventState passthroughTerminalEventNone [] zeroUsage) (lines ++ if bool_decide (rest = []) then [] else [rest])).

(** ** Lines *)

Definition kindOf (name : bytes) : passthroughSSELineKind :=
  if bool_decide (name = lit "data") then passthroughSSELineData
  else if bool_decide (name = lit "event") then passthroughSSELineEvent
  else passthroughSSELineUnknown.

(** The parser in the middle of a line, [line] having been read of it. *)
Record inLine (st : eventState) (line : bytes) (p : passthroughSSEUsageParser) : Prop := {
  il_resolved : sp_streamPrefixResolved p = true;
  il_usage : sp_terminalUsage p = es_usage st;
  il_terminal : sp_eventTerminal p = es_terminal st;
  il_json : sp_json p = foldl consumeByte emptyJSONParser
    (es_data st ++ match lineParts line with (name, Some value) => if bool_decide (name = lit "data") then unspaced value else [] | _ => [] end);
  il_name : sp_lineName p = take 5 (lineParts line).1;
  il_nameLength : sp_lineNameLength p = zlen (lineParts line).1;
  il_nameTooLong : sp_lineNameTooLong p = (5 <? zlen (lineParts line).1);
  il_header : sp_lineHeaderComplete p = match (lineParts line).2 with Some _ => true | None => false end;
  il_kind : sp_lineKind p = match lineParts line with (name, Some _) => kindOf name | _ => passthroughSSELineUnknown end;
  il_started : sp_lineValueStarted p = match (lineParts line).2 with Some (_ :: _) => true | _ => false end;
  il_event : let value := match lineParts line with (name, Some value) => if bool_decide (name = lit "event") then unspaced value else [] | _ => [] end in
    sp_eventName p = take 19 value /\ sp_eventNameLength p = zlen value /\ sp_eventNameTooLong p = (19 <? zlen value);
}.

Lemma lineParts_snoc line b : lineParts (line ++ [b]) =
  match lineParts line with
  | (name, None) => if bool_decide (b = Byte.x3a) then (name, Some []) else (name ++ [b], None)
  | (name, Some value) => (name, Some (value ++ [b]))
  end.
Proof.
  induction line as [|c line IH]; cbn [app lineParts]; [by case_bool_decide|]. destruct (bool_decide (c = Byte.x3a)); [done|]. rewrite IH.
  destruct (lineParts line) as [name [value|]]; [done|]. by case_bool_decide.
Qed.

Lemma unspaced_snoc value b : unspaced (value ++ [b]) = match value with [] => if bool_decide (b = Byte.x20) then [] else [b] | _ => unspaced value ++ [b] end.
Proof. destruct value as [|c value]; cbn [app unspaced]; [done|]. by case_bool_decide. Qed.

(** A buffer of fixed size with the flag of what does not fit. *)
Lemma buffer_append (n : nat) (s : bytes) b :
  (if zlen s <? Z.of_nat n then take n s ++ [b] else take n s) = take n (s ++ [b]) /\
  (if zlen s <? Z.of_nat n then (Z.of_nat n <? zlen s) else true) = (Z.of_nat n <? zlen (s ++ [b])).
Proof.
  rewrite zlen_app, zlen_cons, zlen_nil. unfold zlen. destruct (Z.ltb_spec (Z.of_nat (length s)) (Z.of_nat n)).
  - split; [rewrite !take_ge; [done|rewrite length_app; cbn; lia|lia]|]. lia.
  - split; [by rewrite take_app_le by lia|lia].
Qed.

Lemma currentLineKind_line p name : sp_lineName p = take 5 name -> sp_lineNameTooLong p = (5 <? zlen name) -> currentLineKind p = kindOf name.
Proof.
  intros Hn Ht. unfold currentLineKind, kindOf. rewrite Hn, Ht. destruct (Z.ltb_spec 5 (zlen name)) as [Hl|Hl].
  - rewrite !bool_decide_eq_false_2; [done| |]; intros ->; done.
  - rewrite take_ge by (unfold zlen in Hl; lia). done.
Qed.

(** A byte of a line that does not end it. *)
Lemma line_byte st line b p : inLine st line p -> b <> Byte.x0d -> b <> Byte.x0a -> sp_skipFollowingLineFeed p = false ->
  inLine st (line ++ [b]) (consumeLineByte p b) /\ sp_skipFollowingLineFeed (consumeLineByte p b) = false.
Proof.
  intros [H1 H2 H3 H4 H5 H6 H7 H8 H9 H10 H11] Hr Hn Hs. unfold consumeLineByte. rewrite Hs. cbn [andb].
  assert (set_sp_skipFollowingLineFeed false p = p) as -> by (destruct p; cbn in Hs; by subst).
  rewrite (bool_decide_eq_false_2 (b = Byte.x0d)), (bool_decide_eq_false_2 (b = Byte.x0a)) by done. rewrite H8.
  pose proof (lineParts_snoc line b) as Hp. destruct (lineParts line) as [name [value|]]; cbn [fst snd negb] in *.
  - (* of the value *)
    cbv zeta in H11. destruct H11 as (E1 & E2 & E3). unfold consumeLineValueByte. rewrite H10.
    assert (forall q, sp_streamPrefixResolved q = true -> sp_terminalUsage q = es_usage st -> sp_eventTerminal q = es_terminal st ->
      sp_lineName q = take 5 name -> sp_lineNameLength q = zlen name -> sp_lineNameTooLong q = (5 <? zlen name) -> sp_lineHeaderComplete q = true -> sp_lineKind q = kindOf name ->
      sp_lineValueStarted q = true -> sp_skipFollowingLineFeed q = false ->
      sp_json q = foldl consumeByte emptyJSONParser (es_data st ++ if bool_decide (name = lit "data") then unspaced (value ++ [b]) else []) ->
      (let text := if bool_decide (name = lit "event") then unspaced (value ++ [b]) else [] in
       sp_eventName q = take 19 text /\ sp_eventNameLength q = zlen text /\ sp_eventNameTooLong q = (19 <? zlen text)) ->
      inLine st (line ++ [b]) q /\ sp_skipFollowingLineFeed q = false) as Hgo.
    { intros q ??????????? Hev. split; [|done]. split; try (rewrite Hp; cbn [fst snd]; done); [done..|]. rewrite Hp. cbn [fst snd]. by destruct (value ++ [b]) eqn:E; [destruct value|]. }
    destruct (negb _ && bool_decide (b = Byte.x20)) eqn:Esp.
    { apply andb_true_iff in Esp as [Ev%negb_true_iff Eb%bool_decide_eq_true]. destruct value; [|done]. subst b. by apply Hgo. }
    assert (unspaced (value ++ [b]) = unspaced value ++ [b]) as Hu.
    { rewrite unspaced_snoc. destruct value; [|done]. cbn in Esp. by rewrite Esp. }
    rewrite Hu in Hgo. assert (sp_lineKind (set_sp_lineValueStarted true p) = kindOf name) as Hk by exact H9. rewrite Hk. unfold kindOf in *.
    destruct (bool_decide (name = lit "data")) eqn:Ed.
    { apply bool_decide_eq_true in Ed as ->. apply Hgo; try done. unfold jsonByte. cbn. by rewrite H4, app_assoc, foldl_snoc. }
    destruct (bool_decide (name = lit "event")) eqn:Ee; [|by apply Hgo].
    unfold consumeEventNameByte. change (zlen passthroughIncompleteResponseEvent) with (Z.of_nat 19).
    change (sp_eventNameLength (set_sp_lineValueStarted true p)) with (sp_eventNameLength p). rewrite E2.
    destruct (buffer_append 19 (unspaced value) b) as [B1 B2]. change (Z.of_nat 19) with 19 in *. destruct (zlen (unspaced value) <? 19);
      (apply Hgo; try done; cbn; rewrite ?E1, ?E2, ?E3, <- B2, <- B1, zlen_app, zlen_cons, zlen_nil; done).
  - (* of the name *)
    unfold consumeLineNameByte. destruct (bool_decide (b = Byte.x3a)) eqn:Ec.
    + set (q := set_sp_lineHeaderComplete true p). assert (currentLineKind q = kindOf name) as -> by (by apply currentLineKind_line).
      split; [|done]. split; try (rewrite Hp; cbn [fst snd]; done); try done; rewrite Hp; cbn [fst snd unspaced]; first [by rewrite H10|by destruct (bool_decide (name = lit "data"))|by destruct (bool_decide (name = lit "event"))].
    + rewrite H6. destruct (buffer_append 5 name b) as [B1 B2]. change (Z.of_nat 5) with 5 in *.
      destruct (zlen name <? 5); (split; [|done]); (split; try done; rewrite Hp; cbn [fst snd]; try done; cbn; rewrite ?H5, ?H6, ?H7, <- ?B1, <- ?B2, ?zlen_app, ?zlen_cons, ?zlen_nil; done).
Qed.

(** The end of a line. *)
Lemma dispatch_event st p : inLine st [] p -> let q := finishEvent p in
  sp_terminalUsage q = eventUsage st /\ sp_eventTerminal q = passthroughTerminalEventNone /\ sp_json q = emptyJSONParser /\ sp_streamPrefixResolved q = true.
Proof.
  intros [H1 H2 H3 H4 _ _ _ _ _ _ _]. cbn [lineParts] in H4. rewrite app_nil_r in H4. cbv zeta. unfold finishEvent. rewrite H3, H4.
  pose proof (document_run (es_data st)) as Hd. unfold outcome in Hd. cbv zeta in Hd. set (r := Finish _) in *. clearbody r.
  assert (forall b : bool, let q := set_sp_eventTerminal passthroughTerminalEventNone (set_sp_json emptyJSONParser (if b then set_sp_terminalUsage (jp_usage r) p else p)) in
    sp_terminalUsage q = (if b then jp_usage r else es_usage st) /\ sp_eventTerminal q = passthroughTerminalEventNone /\ sp_json q = emptyJSONParser /\
    sp_streamPrefixResolved q = true) as Hq by (by intros []).
  destruct (Hq (negb (bool_decide (es_terminal st = passthroughTerminalEventNone)) && bool_decide (jp_terminal r = es_terminal st) && ValidJSON r)) as (Q1 & Q2).
  split; [|exact Q2]. rewrite Q1. clear Hq Q1 Q2. unfold eventUsage.
  assert (es_terminal st <> passthroughTerminalEventNone -> (if bool_decide (jp_terminal r = es_terminal st) && ValidJSON r then jp_usage r else es_usage st) =
    match parseDoc 64 (es_data st) with
    | Some v => if documentOk v && bool_decide (docType v = es_terminal st) then docUsage v else es_usage st
    | None => es_usage st
    end) as H.
  { intros _. destruct (parseDoc 64 (es_data st)) as [v|]; cbn [mbind option_bind] in Hd; [rewrite visit_document in Hd; destruct (documentOk v)|];
      destruct (ValidJSON r); try done; rewrite ?andb_false_r; try done. injection Hd as -> ->. by rewrite andb_true_r. }
  destruct (decide (es_terminal st = passthroughTerminalEventNone)) as [Et|Et]; [by rewrite bool_decide_eq_true_2, Et by done|].
  rewrite bool_decide_eq_false_2 by done. cbn [negb andb]. rewrite (H Et). by destruct (es_terminal st).
Qed.

Lemma resetLine_start st p : sp_streamPrefixResolved p = true -> sp_terminalUsage p = es_usage st -> sp_eventTerminal p = es_terminal st ->
  sp_json p = foldl consumeByte emptyJSONParser (es_data st) -> inLine st [] (resetLine p).
Proof. intros H1 H2 H3 H4. split; try done. cbn [lineParts]. by rewrite app_nil_r. Qed.

Lemma line_end st line p : inLine st line p -> inLine (stepLine st line) [] (finishLine p).
Proof.
  intros H. destruct (decide (line = [])) as [->|Hl].
  { pose proof (dispatch_event st p H) as (D1 & D2 & D3 & D4). destruct H as [_ _ _ _ _ H6 _ H8 _ _ _]. unfold finishLine. rewrite H8, H6. cbn [lineParts fst snd negb andb].
    change (zlen [] =? 0) with true. cbv iota. unfold stepLine. rewrite bool_decide_eq_true_2 by done. by apply resetLine_start. }
  destruct H as [H1 H2 H3 H4 H5 H6 H7 H8 H9 H10 H11]. unfold finishLine, stepLine. rewrite bool_decide_eq_false_2 by done. rewrite H8, H6.
  assert (negb (match (lineParts line).2 with Some _ => true | None => false end) && (zlen (lineParts line).1 =? 0) = false) as ->.
  { destruct line as [|b line]; [done|]. cbn [lineParts]. destruct (bool_decide (b = Byte.x3a)); [done|]. destruct (lineParts line) as [name [value|]]; [done|]. cbn [fst snd negb andb orb]. rewrite zlen_cons. pose proof (zlen_nonneg name). lia. }
  destruct (lineParts line) as [name value]. cbn [fst snd] in *.
  set (q := if negb (match value with Some _ => true | None => false end) then set_sp_lineKind (currentLineKind p) p else p).
  assert (sp_lineKind q = kindOf name /\ sp_streamPrefixResolved q = true /\ sp_terminalUsage q = es_usage st /\ sp_eventTerminal q = es_terminal st /\ sp_json q = sp_json p /\
    sp_eventName q = sp_eventName p /\ sp_eventNameTooLong q = sp_eventNameTooLong p) as (Q1 & Q2 & Q3 & Q4 & Q5 & Q6 & Q7).
  { subst q. destruct value; cbn [negb]; [done|]. split_and!; try done. by apply currentLineKind_line. }
  rewrite Q1. clearbody q. unfold kindOf. destruct (bool_decide (name = lit "data")) eqn:Ed.
  { apply resetLine_start; [done..|]. unfold jsonByte. cbn [sp_json set_sp_json es_data]. rewrite Q5, H4. destruct value as [value|]; cbn [default]; rewrite !foldl_app; done. }
  destruct (bool_decide (name = lit "event")) eqn:Ee.
  { apply resetLine_start; try done.
    - cbn [sp_eventTerminal set_sp_eventTerminal es_terminal]. rewrite Q6, Q7. assert (match value with Some value => unspaced value | None => [] end = unspaced (default [] value)) as Ev by (by destruct value).
      rewrite Ev in H11. cbv zeta in H11. destruct H11 as (-> & _ & ->). destruct (Z.ltb_spec 19 (zlen (unspaced (default [] value)))) as [Hl19|Hl19].
      + unfold passthroughTerminalEventForName. rewrite !bool_decide_eq_false_2; [done| |]; intros E; rewrite E in Hl19; done.
      + rewrite take_ge; [done|]. unfold zlen in Hl19. lia.
    - cbn [sp_json set_sp_eventTerminal es_data]. rewrite Q5, H4. destruct value; by rewrite app_nil_r. }
  apply resetLine_start; try done. rewrite Q5, H4. destruct value; by rewrite app_nil_r.
Qed.

(** ** Streams *)

Lemma inLine_skip b st line p : inLine st line p -> inLine st line (set_sp_skipFollowingLineFeed b p).
Proof. intros [H1 H2 H3 H4 H5 H6 H7 H8 H9 H10 H11]. by split. Qed.

Lemma finishLine_skip p : sp_skipFollowingLineFeed (finishLine p) = sp_skipFollowingLineFeed p.
Proof. unfold finishLine, finishEvent, jsonByte. by repeat case_match. Qed.

Lemma stream_run s st line p : inLine st line p -> sp_skipFollowingLineFeed p = false \/ head s <> Some Byte.x0a ->
  let '(lines, rest) := streamLines line s in inLine (foldl stepLine st lines) rest (foldl consumeLineByte p s).
Proof.
  remember (length s) as n eqn:En. revert s st line p En. induction (lt_wf n) as [n _ IH]. intros s st line p -> Hp Hs. destruct s as [|b s]; [done|].
  assert (consumeLineByte p b = consumeLineByte (set_sp_skipFollowingLineFeed false p) b) as Eskip.
  { unfold consumeLineByte. destruct Hs as [Hs|Hs]; [|assert (bool_decide (b = Byte.x0a) = false) as Eb by (apply bool_decide_eq_false_2; intros ->; by destruct Hs); rewrite Eb, !andb_false_r; by destruct p].
    assert (set_sp_skipFollowingLineFeed false p = p) as E by (destruct p; cbn in Hs; by subst). by rewrite !E. }
  cbn [foldl streamLines]. rewrite Eskip. apply (inLine_skip false) in Hp. set (q := set_sp_skipFollowingLineFeed false p) in *. assert (sp_skipFollowingLineFeed q = false) as Hq by done. clearbody q. clear Eskip Hs p.
  assert (forall r, set_sp_skipFollowingLineFeed false q = r -> r = q) as Hid by (intros r <-; destruct q; cbn in Hq; by subst).
  destruct (bool_decide (b = Byte.x0d)) eqn:Er.
  - assert (consumeLineByte q b = set_sp_skipFollowingLineFeed true (finishLine q)) as ->.
    { unfold consumeLineByte. rewrite Hq, Er. cbn [andb]. by rewrite (Hid _ eq_refl). }
    pose proof (inLine_skip true _ _ _ (line_end _ _ _ Hp)) as Hend. destruct s as [|c s]; [done|]. destruct (bool_decide (c = Byte.x0a)) eqn:Ec.
    + cbn [foldl]. assert (consumeLineByte (set_sp_skipFollowingLineFeed true (finishLine q)) c = set_sp_skipFollowingLineFeed false (finishLine q)) as ->.
      { unfold consumeLineByte. by rewrite Ec. }
      pose proof (inLine_skip false _ _ _ (line_end _ _ _ Hp)) as Hend'.
      specialize (IH (length s) ltac:(cbn; lia) s _ [] _ eq_refl Hend' ltac:(by left)). by destruct (streamLines [] s).
    + specialize (IH (length (c :: s)) ltac:(cbn; lia) (c :: s) _ [] _ eq_refl Hend ltac:(right; intros [= ->]; done)). by destruct (streamLines [] (c :: s)).
  - destruct (bool_decide (b = Byte.x0a)) eqn:En.
    + assert (consumeLineByte q b = finishLine q) as -> by (unfold consumeLineByte; rewrite Hq, Er, En; cbn [andb]; by rewrite (Hid _ eq_refl)).
      specialize (IH (length s) ltac:(cbn; lia) s _ [] _ eq_refl (line_end _ _ _ Hp) ltac:(left; by rewrite finishLine_skip)). by destruct (streamLines [] s).
    + apply bool_decide_eq_false in Er, En. destruct (line_byte _ _ b _ Hp Er En Hq) as [H1 H2].
      specialize (IH (length s) ltac:(cbn; lia) s _ _ _ eq_refl H1 ltac:(by left)). by destruct (streamLines (line ++ [b]) s).
Qed.

Lemma consumeLine_resolved p b : sp_streamPrefixResolved (consumeLineByte p b) = sp_streamPrefixResolved p.
Proof.
  unfold consumeLineByte. assert (forall q, sp_streamPrefixResolved (finishLine q) = sp_streamPrefixResolved q) as Hf.
  { intros q. unfold finishLine, finishEvent, jsonByte. by repeat case_match. }
  case_match; [done|]. case_match; [cbn; by rewrite Hf|]. case_match; [by rewrite Hf|]. case_match.
  - unfold consumeLineNameByte. by repeat case_match.
  - unfold consumeLineValueByte, consumeEventNameByte, jsonByte. by repeat case_match.
Qed.

Lemma resolved_run p s : sp_streamPrefixResolved p = true -> foldl consumeStreamByte p s = foldl consumeLineByte p s.
Proof.
  revert p. induction s as [|b s IH]; intros p Hp; [done|]. cbn [foldl]. assert (consumeStreamByte p b = consumeLineByte p b) as -> by (unfold consumeStreamByte; by rewrite Hp).
  apply IH. by rewrite consumeLine_resolved.
Qed.

Lemma shortPrefix s : (length s < 3)%nat -> HasPrefix s byteOrderMark = false.
Proof. intros H. destruct (HasPrefix s byteOrderMark) eqn:E; [|done]. apply HasPrefix_spec in E as [r ->]. rewrite length_app in H. cbn in H. lia. Qed.

(** The parser that holds [pre] back, and the one that goes on from it. *)
Definition heldBack (pre : bytes) : passthroughSSEUsageParser := set_sp_streamPrefix pre newPassthroughSSEUsageParser.
Definition started (pre : bytes) : passthroughSSEUsageParser := set_sp_streamPrefixResolved true (heldBack pre).

(** A byte of the beginning is held back, the third one decides. *)
Lemma prefix_byte p pre b : sp_streamPrefixResolved p = false -> consumeStreamByte (set_sp_streamPrefix pre p) b =
  if zlen (pre ++ [b]) =? 3 then resolveStreamPrefix (set_sp_streamPrefix (pre ++ [b]) p) else set_sp_streamPrefix (pre ++ [b]) p.
Proof. intros H. unfold consumeStreamByte. destruct p; cbn in *. by rewrite H. Qed.

Lemma heldBack_byte pre b : consumeStreamByte (heldBack pre) b = if zlen (pre ++ [b]) =? 3 then resolveStreamPrefix (heldBack (pre ++ [b])) else heldBack (pre ++ [b]).
Proof. by apply prefix_byte. Qed.

Lemma heldBack_resolve pre : resolveStreamPrefix (heldBack pre) = if bool_decide (pre = byteOrderMark) then started pre else foldl consumeLineByte (started pre) pre.
Proof.
  unfold resolveStreamPrefix. change (sp_streamPrefixResolved (heldBack pre)) with false. cbv iota zeta. fold (started pre). change (sp_streamPrefix (started pre)) with pre. reflexivity.
Qed.

Lemma started_inLine pre : inLine (MkEventState passthroughTerminalEventNone [] zeroUsage) [] (started pre) /\ sp_skipFollowingLineFeed (started pre) = false.
Proof. done. Qed.

Lemma resolved_keep s p : sp_streamPrefixResolved p = true -> sp_streamPrefixResolved (foldl consumeLineByte p s) = true.
Proof. revert p. induction s as [|x s IH]; intros p H; [done|]. apply IH. by rewrite consumeLine_resolved. Qed.

Lemma resolved_resolve p : sp_streamPrefixResolved p = true -> resolveStreamPrefix p = p.
Proof. intros H. unfold resolveStreamPrefix. by rewrite H. Qed.

(** Too short for the mark. *)
Lemma short_run s : (length s < 3)%nat -> foldl consumeStreamByte newPassthroughSSEUsageParser s = heldBack s.
Proof.
  intros H. assert (newPassthroughSSEUsageParser = heldBack []) as -> by (by vm_compute).
  destruct s as [|a [|b [|c s]]]; [done|..|cbn in H; lia]; cbn [foldl]; rewrite !heldBack_byte; cbn [app].
  - change (zlen [a] =? 3) with false. done.
  - change (zlen [a] =? 3) with false. cbv iota. rewrite heldBack_byte. cbn [app]. change (zlen [a; b] =? 3) with false. done.
Qed.

(** The beginning of the stream: up to three bytes are held back to find a byte order mark. *)
Lemma prefix_run s : exists pre, resolveStreamPrefix (foldl consumeStreamByte newPassthroughSSEUsageParser s) =
  foldl consumeLineByte (started pre) (default s (CutPrefix s byteOrderMark)).
Proof.
  unfold CutPrefix. destruct (le_lt_dec 3 (length s)) as [Hl|Hl].
  - destruct s as [|a [|b [|c s]]]; [cbn in Hl; lia..|]. exists [a; b; c].
    change (a :: b :: c :: s) with ([a; b; c] ++ s). rewrite foldl_app.
    change (foldl consumeStreamByte newPassthroughSSEUsageParser [a; b; c]) with (consumeStreamByte (foldl consumeStreamByte newPassthroughSSEUsageParser [a; b]) c).
    rewrite short_run by (cbn; lia). rewrite heldBack_byte. change ([a; b] ++ [c]) with [a; b; c]. change (zlen [a; b; c] =? 3) with true. cbv iota. rewrite heldBack_resolve. case_bool_decide as E.
    + rewrite E, HasPrefix_here, resolved_run by done. cbn [default]. rewrite drop_app_length. by apply resolved_resolve, resolved_keep.
    + assert (HasPrefix ([a; b; c] ++ s) byteOrderMark = false) as ->.
      { destruct (HasPrefix ([a; b; c] ++ s) byteOrderMark) eqn:Ep; [|done]. apply HasPrefix_spec in Ep as [r Ep]. by injection Ep as -> -> -> _. }
      cbn [default]. rewrite foldl_app. rewrite resolved_run by (by apply resolved_keep). by apply resolved_resolve, resolved_keep, resolved_keep.
  - exists s. rewrite short_run, shortPrefix, heldBack_resolve by done. rewrite bool_decide_eq_false_2; [done|]. intros ->. cbn in Hl. lia.
Qed.

(** C17. The answer of the parser is the usage of the stream, however the stream was cut into
    chunks. *)
Theorem usage_exact (chunks : list bytes) : (readUsage (foldl Write newPassthroughSSEUsageParser chunks)).2 = streamUsage (concat chunks).
Proof.
  assert (foldl Write newPassthroughSSEUsageParser chunks = foldl consumeStreamByte newPassthroughSSEUsageParser (concat chunks)) as ->.
  { generalize newPassthroughSSEUsageParser. induction chunks as [|chunk chunks IH]; intros p; [done|]. cbn [foldl concat]. rewrite foldl_app. apply IH. }
  generalize (concat chunks) as s. clear chunks. intros s. destruct (prefix_run s) as (pre & E). destruct (started_inLine pre) as [Hp Hs]. set (p := started pre) in *. clearbody p. unfold readUsage, streamUsage. rewrite E. cbn [snd].
  pose proof (stream_run _ _ _ _ Hp (or_introl Hs) : let '(lines, rest) := streamLines [] (default s (CutPrefix s byteOrderMark)) in _) as H.
  destruct (streamLines [] (default s (CutPrefix s byteOrderMark))) as [lines rest]. set (q := foldl consumeLineByte p _) in *. clearbody q.
  rewrite foldl_app. set (st := foldl stepLine _ lines) in *. clearbody st.
  assert (inLine (foldl stepLine st (if bool_decide (rest = []) then [] else [rest])) [] (if sp_lineHeaderComplete q || (0 <? sp_lineNameLength q) then finishLine q else q)) as Hend.
  { pose proof (il_header _ _ _ H) as Hh. pose proof (il_nameLength _ _ _ H) as Hl. rewrite Hh, Hl. destruct rest as [|b rest]; [exact H|].
    rewrite bool_decide_eq_false_2 by done. cbn [foldl]. assert ((match (lineParts (b :: rest)).2 with Some _ => true | None => false end) || (0 <? zlen (lineParts (b :: rest)).1) = true) as ->.
    { cbn [lineParts]. destruct (bool_decide (b = Byte.x3a)); [done|]. destruct (lineParts rest) as [name [value|]]; [done|]. cbn [fst snd negb andb orb]. rewrite zlen_cons. pose proof (zlen_nonneg name). lia. }
    by apply line_end. }
  set (q' := if _ || _ then _ else _) in *. set (st' := foldl stepLine st _) in *. clearbody q' st'. clear -Hend.
  destruct (dispatch_event _ _ Hend) as (D & _). destruct (negb _ || _) eqn:Eb; [exact D|].
  apply orb_false_iff in Eb as [Et%negb_false_iff%bool_decide_eq_true _]. rewrite (il_usage _ _ _ Hend). pose proof (il_terminal _ _ _ Hend) as Ht. rewrite Et in Ht.
  unfold eventUsage. by rewrite <- Ht.
Qed.
