(* ===== verification/TrMessage.v ===== *)
(** * TrMessage: transcripts (transcript/transcript.go, compaction_items.go)

    The messages that the provider parsers produce and that shaping, export and the search
    read: text with its parts, thinking, tool calls, attachments, and the metadata of a
    compaction with the items of the context it kept.  [entryOf] is the part of a message
    that the compaction code reads ([CvCompaction]). *)

From S2P Require Import Prelude RtSegments CvCompaction.

Open Scope Z_scope.

(** A [json.RawMessage]; nil is empty. *)
Abbreviation RawMessage := bytes (only parsing).

(** ** Compacted context items *)

Inductive CompactedContextItemKind :=
| CompactedContextItemKindMessage
| CompactedContextItemKindReasoning
| CompactedContextItemKindLocalShellCall
| CompactedContextItemKindFunctionCall
| CompactedContextItemKindToolSearchCall
| CompactedContextItemKindFunctionCallOutput
| CompactedContextItemKindCustomToolCall
| CompactedContextItemKindCustomToolCallOutput
| CompactedContextItemKindToolSearchOutput
| CompactedContextItemKindWebSearchCall
| CompactedContextItemKindImageGenerationCall
| CompactedContextItemKindCompaction
| CompactedContextItemKindCompactionTrigger
| CompactedContextItemKindContextCompaction
| CompactedContextItemKindOther
| CompactedContextItemKindUnknown (name : bytes).

Definition CompactedMessageClassOrdinary : bytes := lit "ordinary".
Definition CompactedMessageClassSummary : bytes := lit "summary".

Record CompactedMessageContentItem := MkContentItem {
  ct_Type : bytes;
  ct_Text : bytes;
  ct_ImageURL : bytes;
  ct_Detail : bytes;
  ct_Raw : RawMessage;
  ct_TranscriptSpans : list TranscriptSpan;
  ct_UnresolvedTranscript : bool;
}.

Record CompactedMessageItem := MkMessageItem {
  mi_Role : bytes;
  mi_Phase : bytes;
  mi_Content : list CompactedMessageContentItem;
  mi_ContentRaw : RawMessage;
  mi_MessageClass : bytes;
  mi_Raw : RawMessage;
}.

Record CompactedReasoningSummary := MkReasoningSummary {
  rs_Type : bytes;
  rs_Text : bytes;
  rs_Raw : RawMessage;
}.

Record CompactedReasoningItem := MkReasoningItem {
  ri_Summary : list CompactedReasoningSummary;
  ri_SummaryRaw : RawMessage;
  ri_ContentRaw : RawMessage;
  ri_EncryptedContent : bytes;
  ri_Raw : RawMessage;
}.

Record CompactedLocalShellCallItem := MkLocalShellCallItem {
  ls_CallID : bytes;
  ls_Status : bytes;
  ls_ActionRaw : RawMessage;
  ls_Raw : RawMessage;
}.

Record CompactedFunctionCallItem := MkFunctionCallItem {
  fc_Name : bytes;
  fc_Namespace : bytes;
  fc_Arguments : bytes;
  fc_CallID : bytes;
  fc_Raw : RawMessage;
}.

Record CompactedToolSearchCallItem := MkToolSearchCallItem {
  tsc_CallID : bytes;
  tsc_Status : bytes;
  tsc_Execution : bytes;
  tsc_ArgumentsRaw : RawMessage;
  tsc_Raw : RawMessage;
}.

Record CompactedFunctionCallOutputItem := MkFunctionCallOutputItem {
  fo_CallID : bytes;
  fo_OutputRaw : RawMessage;
  fo_Raw : RawMessage;
}.

Record CompactedCustomToolCallItem := MkCustomToolCallItem {
  cc_CallID : bytes;
  cc_Name : bytes;
  cc_Input : bytes;
  cc_Status : bytes;
  cc_Raw : RawMessage;
}.

Record CompactedCustomToolCallOutputItem := MkCustomToolCallOutputItem {
  co_CallID : bytes;
  co_Name : bytes;
  co_OutputRaw : RawMessage;
  co_Raw : RawMessage;
}.

Record CompactedToolSearchOutputItem := MkToolSearchOutputItem {
  tso_CallID : bytes;
  tso_Status : bytes;
  tso_Execution : bytes;
  tso_ToolsRaw : list RawMessage;
  tso_Raw : RawMessage;
}.

Record CompactedWebSearchCallItem := MkWebSearchCallItem {
  ws_ID : bytes;
  ws_Status : bytes;
  ws_ActionRaw : RawMessage;
  ws_Raw : RawMessage;
}.

Record CompactedImageGenerationCallItem := MkImageGenerationCallItem {
  ig_ID : bytes;
  ig_Status : bytes;
  ig_RevisedPrompt : bytes;
  ig_Result : bytes;
  ig_Raw : RawMessage;
}.

Record CompactedCompactionItem := MkCompactionItem {
  cm_EncryptedContent : bytes;
  cm_Raw : RawMessage;
}.

Record CompactedCompactionTriggerItem := MkCompactionTriggerItem {
  ctr_Raw : RawMessage;
}.

Record CompactedContextCompactionItem := MkContextCompactionItem {
  cx_EncryptedContent : bytes;
  cx_Raw : RawMessage;
}.

Record CompactedOtherItem := MkOtherItem {
  ot_Type : bytes;
  ot_Raw : RawMessage;
}.

(** The union; a nil pointer is [None]. *)
Record CompactedContextItem := MkItem {
  it_Kind : CompactedContextItemKind;
  it_Message : option CompactedMessageItem;
  it_Reasoning : option CompactedReasoningItem;
  it_LocalShellCall : option CompactedLocalShellCallItem;
  it_FunctionCall : option CompactedFunctionCallItem;
  it_ToolSearchCall : option CompactedToolSearchCallItem;
  it_FunctionCallOutput : option CompactedFunctionCallOutputItem;
  it_CustomToolCall : option CompactedCustomToolCallItem;
  it_CustomToolCallOutput : option CompactedCustomToolCallOutputItem;
  it_ToolSearchOutput : option CompactedToolSearchOutputItem;
  it_WebSearchCall : option CompactedWebSearchCallItem;
  it_ImageGenerationCall : option CompactedImageGenerationCallItem;
  it_Compaction : option CompactedCompactionItem;
  it_CompactionTrigger : option CompactedCompactionTriggerItem;
  it_ContextCompaction : option CompactedContextCompactionItem;
  it_Other : option CompactedOtherItem;
}.

(** ** Messages *)

Record CompactionMetadata := MkFullMetadata {
  cmd_Kind : CompactionKind;
  cmd_Trigger : bytes;
  cmd_PreTokens : Z;
  cmd_PostTokens : Z;
  cmd_TokensSaved : Z;
  cmd_MessagesSummarized : Z;
  cmd_ReplacementHistoryCount : Z;
  cmd_HeadUUID : bytes;
  cmd_AnchorUUID : bytes;
  cmd_TailUUID : bytes;
  cmd_ContextItems : list CompactedContextItem;
  cmd_UserContext : bytes;
  cmd_Direction : bytes;
  cmd_PreCompactDiscoveredTools : list bytes;
  cmd_CompactedToolIDs : list bytes;
  cmd_ClearedAttachmentUUIDs : list bytes;
  cmd_RawCompactMetadata : RawMessage;
  cmd_RawMicrocompactMetadata : RawMessage;
  cmd_RawSummarizeMetadata : RawMessage;
}.

Record Attachment := MkAttachment {
  at_Kind : bytes;
  at_DisplayName : bytes;
  at_Path : bytes;
  at_URL : bytes;
  at_MIMEType : bytes;
  at_SizeBytes : Z;
  at_Description : bytes;
  at_AssetReference : bytes;
  at_OmittedReason : bytes;
  at_Text : bytes;
}.

(** [ToolInputJSON] is its raw text; the zero time and a nil time are [None]. *)
Record ToolCall := MkToolCall {
  tc_ID : bytes;
  tc_Name : bytes;
  tc_Input : RawMessage;
  tc_Display : bytes;
  tc_DisplayLang : bytes;
  tc_Output : bytes;
  tc_IsError : bool;
  tc_Attachments : list Attachment;
  tc_Timestamp : option Z;
  tc_TimestampUnknown : bool;
}.

Record MessageTextPart := MkTextPart {
  tp_Text : bytes;
  tp_InjectedTranscript : bool;
  tp_TranscriptSpans : list TranscriptSpan;
}.

Record TranscriptMessage := MkTranscriptMessage {
  tm_UUID : bytes;
  tm_ParentUUID : bytes;
  tm_LogicalParentUUID : bytes;
  tm_Role : bytes;
  tm_Visibility : bytes;
  tm_Compaction : option CompactionMetadata;
  tm_Timestamp : option Z;
  tm_Text : bytes;
  tm_Thinking : bytes;
  tm_HasTools : bool;
  tm_Tools : list ToolCall;
  tm_Attachments : list Attachment;
  tm_TextParts : list MessageTextPart;
}.

Definition ToolNames (m : TranscriptMessage) : list bytes := map tc_Name (tm_Tools m).

(** ** Writes to the fields of a copy *)

Definition setText (text : bytes) (m : TranscriptMessage) : TranscriptMessage :=
  MkTranscriptMessage (tm_UUID m) (tm_ParentUUID m) (tm_LogicalParentUUID m) (tm_Role m) (tm_Visibility m) (tm_Compaction m)
    (tm_Timestamp m) text (tm_Thinking m) (tm_HasTools m) (tm_Tools m) (tm_Attachments m) (tm_TextParts m).

Definition setThinking (thinking : bytes) (m : TranscriptMessage) : TranscriptMessage :=
  MkTranscriptMessage (tm_UUID m) (tm_ParentUUID m) (tm_LogicalParentUUID m) (tm_Role m) (tm_Visibility m) (tm_Compaction m)
    (tm_Timestamp m) (tm_Text m) thinking (tm_HasTools m) (tm_Tools m) (tm_Attachments m) (tm_TextParts m).

(** [message.Tools = nil; message.HasTools = false]. *)
Definition clearTools (m : TranscriptMessage) : TranscriptMessage :=
  MkTranscriptMessage (tm_UUID m) (tm_ParentUUID m) (tm_LogicalParentUUID m) (tm_Role m) (tm_Visibility m) (tm_Compaction m)
    (tm_Timestamp m) (tm_Text m) (tm_Thinking m) false [] (tm_Attachments m) (tm_TextParts m).

Definition setCompaction (md : option CompactionMetadata) (m : TranscriptMessage) : TranscriptMessage :=
  MkTranscriptMessage (tm_UUID m) (tm_ParentUUID m) (tm_LogicalParentUUID m) (tm_Role m) (tm_Visibility m) md
    (tm_Timestamp m) (tm_Text m) (tm_Thinking m) (tm_HasTools m) (tm_Tools m) (tm_Attachments m) (tm_TextParts m).

Definition clearUUID (m : TranscriptMessage) : TranscriptMessage :=
  MkTranscriptMessage [] (tm_ParentUUID m) (tm_LogicalParentUUID m) (tm_Role m) (tm_Visibility m) (tm_Compaction m)
    (tm_Timestamp m) (tm_Text m) (tm_Thinking m) (tm_HasTools m) (tm_Tools m) (tm_Attachments m) (tm_TextParts m).

Definition setMetadataItems (items : list CompactedContextItem) (md : CompactionMetadata) : CompactionMetadata :=
  MkFullMetadata (cmd_Kind md) (cmd_Trigger md) (cmd_PreTokens md) (cmd_PostTokens md) (cmd_TokensSaved md) (cmd_MessagesSummarized md)
    (cmd_ReplacementHistoryCount md) (cmd_HeadUUID md) (cmd_AnchorUUID md) (cmd_TailUUID md) items (cmd_UserContext md)
    (cmd_Direction md) (cmd_PreCompactDiscoveredTools md) (cmd_CompactedToolIDs md) (cmd_ClearedAttachmentUUIDs md)
    (cmd_RawCompactMetadata md) (cmd_RawMicrocompactMetadata md) (cmd_RawSummarizeMetadata md).

(** ** What the compaction code reads *)

Definition metadataOf (md : CompactionMetadata) : CvCompaction.CompactionMetadata (Item := CompactedContextItem) :=
  MkMetadata (cmd_Kind md) (cmd_Trigger md) (cmd_MessagesSummarized md) (cmd_ReplacementHistoryCount md) (cmd_HeadUUID md)
    (cmd_AnchorUUID md) (cmd_TailUUID md) (cmd_ContextItems md).

Definition entryOf (m : TranscriptMessage) : CvCompaction.Message (Item := CompactedContextItem) :=
  MkMessage (tm_UUID m) (tm_ParentUUID m) (tm_LogicalParentUUID m) (tm_Visibility m) (metadataOf <$> tm_Compaction m) (tm_Timestamp m)
    (ToolNames m).
