(* ===== verification/TrShape.v ===== *)
(** * TrShape: shaping and rendering (transcript/conversation.go, render.go)

    Messages become turns whose text is normalized and carries the tool calls at the selected
    level of detail; turns are rendered as Markdown, HTML or plain text.  Times are formatted
    by the time package ([FormatTime]) and the description of a tool input is read by the JSON
    decoder ([UnmarshalDescription]). *)

From S2P Require Import Prelude GoUtf8 GoStrconv GoText RtSegments CvCompaction TrMessage.

Open Scope Z_scope.

(** ** Options and turns *)

Definition ToolOnlyOmit : bytes := lit "omit".
Definition ToolOnlyCompactSummary : bytes := lit "compact_summary".
Definition ToolOnlyInputSummary : bytes := lit "input_summary".
Definition ToolOnlyFullDetail : bytes := lit "full_detail".

Record ShapeOptions := MkShapeOptions {
  so_IncludeThinking : bool;
  so_ConversationOnly : bool;
  so_ToolOnly : bytes;
  so_MaxTextRunes : Z;
}.

Definition DefaultShapeOptions : ShapeOptions := MkShapeOptions false false ToolOnlyCompactSummary 0.

Definition ContextWindowMaxTextRunes : Z := 2000.

Definition ContextWindowShapeOptions : ShapeOptions := MkShapeOptions false false ToolOnlyCompactSummary ContextWindowMaxTextRunes.

Record ConversationTurn := MkTurn {
  tn_UUID : bytes;
  tn_Role : bytes;
  tn_Timestamp : option Z;
  tn_Text : bytes;
  tn_Thinking : bytes;
  tn_ToolNames : list bytes;
  tn_HasTools : bool;
  tn_IsToolOnly : bool;
  tn_Attachments : list Attachment;
}.

(** ** Normalizing text *)

Definition conversationOnlyExactDrops : list bytes :=
  [lit "No response requested."; lit "[Request interrupted by user]"; lit "[Request interrupted by user for tool use]"].

(** [conversationOnlyImageLineRe] on a line. *)
Definition imageLine (line : bytes) : bool :=
  match CutPrefix line (lit "[Image:"), CutPrefix line (lit "[Image #") with
  | Some rest, _ | None, Some rest => HasSuffix rest (lit "]")
  | None, None => false
  end.

Definition shouldDropConversationOnlyLine (line : bytes) : bool :=
  if bool_decide (line = []) then false
  else bool_decide (line ∈ conversationOnlyExactDrops) || imageLine line.

(** [capRunes]: truncation to [maxRunes] runes, marked. *)
Definition capRunes (text : bytes) (maxRunes : Z) : bytes :=
  if maxRunes <=? 0 then text else
  let runes := runesOf text in
  if zlen runes <=? maxRunes then text else stringOfRunes (take (Z.to_nat maxRunes) runes) ++ lit "...".

Fixpoint normalizeLoop (conversationOnly lastBlank : bool) (lines : list bytes) : list bytes :=
  match lines with
  | [] => []
  | line :: lines =>
      let line := TrimSpace line in
      if conversationOnly && shouldDropConversationOnlyLine line then normalizeLoop conversationOnly lastBlank lines
      else if bool_decide (line = []) then
        if lastBlank then normalizeLoop conversationOnly lastBlank lines else [] :: normalizeLoop conversationOnly true lines
      else line :: normalizeLoop conversationOnly false lines
  end.

Definition normalizeConversationText (text : bytes) (maxRunes : Z) (conversationOnly : bool) : bytes :=
  let text := ReplaceAll text [Byte.x0d] [] in
  let text := TrimSpace (Join (normalizeLoop conversationOnly false (Split text newline)) newline) in
  if bool_decide (text = []) then [] else capRunes text maxRunes.

Definition NormalizeConversationOnlyText (text : bytes) : bytes := normalizeConversationText text 0 true.

(** ** Tool calls and attachments *)

Definition attachmentParts (a : Attachment) : list bytes :=
  let field (s : bytes) := if bool_decide (s = []) then [] else [s] in
  field (at_Kind a) ++ field (at_DisplayName a) ++ field (at_Path a) ++ field (at_URL a) ++ field (at_MIMEType a)
  ++ (if 0 <? at_SizeBytes a then [Itoa (at_SizeBytes a) ++ lit " bytes"] else [])
  ++ field (at_Description a) ++ field (at_AssetReference a) ++ field (at_OmittedReason a) ++ field (at_Text a).

Definition attachmentLine (a : Attachment) : bytes :=
  let parts := attachmentParts a in
  let parts := if bool_decide (parts = []) then [lit "metadata unavailable"] else parts in
  lit "[attachment: " ++ Join parts (lit ", ") ++ lit "]".

Definition attachmentPlaceholders (attachments : list Attachment) : bytes :=
  match attachments with
  | [] => []
  | _ :: _ => newline ++ Join (map attachmentLine attachments) newline
  end.

Definition toolSummaryText (names : list bytes) : bytes :=
  match names with
  | [] => lit "[used tools]"
  | _ :: _ => lit "[used: " ++ Join names (lit ", ") ++ lit "]"
  end.

Definition mixedTurnToolHeading : bytes := lit "[tool calls in this turn]".

Definition labeledToolBlock (mode : bytes) (names : list bytes) (toolText : bytes) : bytes :=
  if bool_decide (mode = ToolOnlyCompactSummary) || bool_decide (mode = []) then
    match names with
    | [] => mixedTurnToolHeading
    | _ :: _ => lit "[tool calls in this turn: " ++ Join names (lit ", ") ++ lit "]"
    end
  else mixedTurnToolHeading ++ newline ++ toolText.

Definition toolLabel (tool : ToolCall) : bytes := lit "[tool: " ++ tc_Name tool ++ lit "]".

Definition toolFullDetailLine (tool : ToolCall) : bytes :=
  let display := TrimSpace (tc_Display tool) in
  let output := TrimSpace (tc_Output tool) in
  toolLabel tool ++ (if bool_decide (display = []) then [] else lit " " ++ display)
  ++ (if bool_decide (output = []) then [] else newline ++ lit "[tool output]" ++ newline ++ output)
  ++ attachmentPlaceholders (tc_Attachments tool).

Definition toolFullDetailText (tools : list ToolCall) : bytes :=
  match tools with
  | [] => lit "[used tools]"
  | _ :: _ => Join (map toolFullDetailLine tools) newline
  end.

(** [RenderMessageIndexText]. *)
Definition RenderMessageIndexText (msg : TranscriptMessage) : bytes :=
  let part (s : bytes) := if bool_decide (s = []) then [] else [s] in
  TrimSpace (Join (part (normalizeConversationText (tm_Text msg) 0 false)
    ++ part (normalizeConversationText (tm_Thinking msg) 0 false)
    ++ (if bool_decide (tm_Tools msg = []) then [] else part (TrimSpace (toolFullDetailText (tm_Tools msg))))
    ++ part (TrimSpace (attachmentPlaceholders (tm_Attachments msg)))) (newline ++ newline)).

(** [html.EscapeString]. *)
Definition escapeHTMLByte (b : Byte.byte) : bytes :=
  if bool_decide (b = Byte.x26) then lit "&amp;"
  else if bool_decide (b = Byte.x27) then lit "&#39;"
  else if bool_decide (b = Byte.x3c) then lit "&lt;"
  else if bool_decide (b = Byte.x3e) then lit "&gt;"
  else if bool_decide (b = dquote) then lit "&#34;"
  else [b].

Definition EscapeHTML (s : bytes) : bytes := concat (map escapeHTMLByte s).

(** What the time package and the JSON decoder of structs answer. *)
Class TurnCodecs := {
  FormatTime : option Z -> bytes;
  UnmarshalDescription : RawMessage -> option bytes;
}.

Section shaping.
Context `{TurnCodecs}.

Definition toolInputDescription (input : RawMessage) : bytes :=
  if bool_decide (input = []) then [] else
  match UnmarshalDescription input with
  | None => []
  | Some description => TrimSpace description
  end.

Definition toolInputSummaryText (tools : list ToolCall) : bytes :=
  match tools with
  | [] => lit "[used tools]"
  | _ :: _ =>
      Join (map (fun tool =>
        let description := toolInputDescription (tc_Input tool) in
        toolLabel tool ++ (if bool_decide (description = []) then [] else lit " " ++ description)) tools) newline
  end.

Definition renderToolText (mode : bytes) (names : list bytes) (tools : list ToolCall) : bytes :=
  if bool_decide (mode = ToolOnlyOmit) then []
  else if bool_decide (mode = ToolOnlyCompactSummary) then toolSummaryText names
  else if bool_decide (mode = ToolOnlyInputSummary) then toolInputSummaryText tools
  else if bool_decide (mode = ToolOnlyFullDetail) then toolFullDetailText tools
  else toolSummaryText names.

Definition textWithTools (text : bytes) (names : list bytes) (msg : TranscriptMessage) (opts : ShapeOptions) : bytes * bool :=
  if negb (tm_HasTools msg) then (text, true) else
  if so_ConversationOnly opts then (text, negb (bool_decide (text = []))) else
  let toolText := renderToolText (so_ToolOnly opts) names (tm_Tools msg) in
  if bool_decide (toolText = []) then (text, negb (bool_decide (text = []))) else
  if bool_decide (text = []) then (toolText, true) else
  (text ++ newline ++ labeledToolBlock (so_ToolOnly opts) names toolText, true).

(** One round of the loop of [ShapeConversation]. *)
Definition shapeMessage (opts : ShapeOptions) (msg : TranscriptMessage) : list ConversationTurn :=
  let text := normalizeConversationText (tm_Text msg) (so_MaxTextRunes opts) (so_ConversationOnly opts) in
  let thinking := if so_IncludeThinking opts then normalizeConversationText (tm_Thinking msg) (so_MaxTextRunes opts) false else [] in
  let toolNames := if bool_decide (tm_Tools msg = []) then [] else ToolNames msg in
  let isToolOnly := tm_HasTools msg && bool_decide (text = []) in
  let '(text, keepTurn) := textWithTools text toolNames msg opts in
  if negb keepTurn && bool_decide (tm_Attachments msg = []) then [] else
  if bool_decide (text = []) && bool_decide (thinking = []) && bool_decide (tm_Attachments msg = []) then [] else
  [MkTurn (tm_UUID msg) (tm_Role msg) (tm_Timestamp msg) text thinking toolNames (tm_HasTools msg) isToolOnly (tm_Attachments msg)].

Definition ShapeConversation (messages : list TranscriptMessage) (opts : ShapeOptions) : list ConversationTurn :=
  let opts := if bool_decide (so_ToolOnly opts = [])
    then MkShapeOptions (so_IncludeThinking opts) (so_ConversationOnly opts) ToolOnlyCompactSummary (so_MaxTextRunes opts) else opts in
  concat (map (shapeMessage opts) messages).

(** ** Rendering *)

Definition roleTitle (role : bytes) : bytes := if bool_decide (role = lit "assistant") then lit "Assistant" else lit "User".

Definition trimLeadingNewline (s : bytes) : bytes := default s (CutPrefix s newline).

Definition markdownTurn (turn : ConversationTurn) : bytes :=
  (match tn_Timestamp turn with
   | Some _ => lit "### " ++ roleTitle (tn_Role turn) ++ lit " (" ++ FormatTime (tn_Timestamp turn) ++ lit ")" ++ newline ++ newline
   | None => lit "### " ++ roleTitle (tn_Role turn) ++ newline ++ newline
   end)
  ++ (if bool_decide (tn_Text turn = []) then [] else tn_Text turn ++ newline ++ newline)
  ++ (if bool_decide (tn_Thinking turn = []) then [] else
      lit "> Thinking" ++ newline ++ lit ">" ++ newline
      ++ concat (map (fun line => lit "> " ++ line ++ newline) (Split (tn_Thinking turn) newline)) ++ newline)
  ++ (let placeholders := attachmentPlaceholders (tn_Attachments turn) in
      if bool_decide (placeholders = []) then [] else trimLeadingNewline placeholders ++ newline ++ newline).

Definition RenderMarkdownConversation (turns : list ConversationTurn) : bytes := TrimSpace (concat (map markdownTurn turns)).

Definition quotedHTML (s : string) : bytes := map (fun b => if bool_decide (b = Byte.x27) then dquote else b) (lit s).

Definition htmlTurn (turn : ConversationTurn) : bytes :=
  quotedHTML "<section class='turn'>" ++ newline
  ++ lit "<header><strong>" ++ EscapeHTML (roleTitle (tn_Role turn)) ++ lit "</strong>"
  ++ (match tn_Timestamp turn with
      | Some _ => lit " <time>" ++ EscapeHTML (FormatTime (tn_Timestamp turn)) ++ lit "</time>"
      | None => []
      end)
  ++ lit "</header>" ++ newline
  ++ (if bool_decide (tn_Text turn = []) then [] else lit "<p>" ++ EscapeHTML (tn_Text turn) ++ lit "</p>" ++ newline)
  ++ (if bool_decide (tn_Thinking turn = []) then [] else
      lit "<blockquote><strong>Thinking</strong><br>" ++ ReplaceAll (EscapeHTML (tn_Thinking turn)) newline (lit "<br>")
      ++ lit "</blockquote>" ++ newline)
  ++ concat (map (fun a => lit "<p>" ++ EscapeHTML (TrimSpace (attachmentPlaceholders [a])) ++ lit "</p>" ++ newline) (tn_Attachments turn))
  ++ lit "</section>" ++ newline.

Definition RenderHTMLConversation (turns : list ConversationTurn) : bytes :=
  quotedHTML "<div class='conversation'>" ++ newline ++ concat (map htmlTurn turns) ++ lit "</div>".

(** [renderConversationMessages] with the start index -1, the only one used. *)
Definition plainTurn (turn : ConversationTurn) : bytes :=
  lit "[" ++ FormatTime (tn_Timestamp turn) ++ lit "] " ++ roleTitle (tn_Role turn) ++ lit ":" ++ newline
  ++ (if bool_decide (tn_Text turn = []) then [] else tn_Text turn ++ newline)
  ++ (if bool_decide (tn_Thinking turn = []) then [] else lit "[thinking]" ++ newline ++ tn_Thinking turn ++ newline)
  ++ (let placeholders := attachmentPlaceholders (tn_Attachments turn) in
      if bool_decide (placeholders = []) then [] else trimLeadingNewline placeholders ++ newline)
  ++ newline.

Definition renderConversationMessages (turns : list ConversationTurn) : bytes := concat (map plainTurn turns).

Definition RenderPlainTextWithOptions (messages : list TranscriptMessage) (opts : ShapeOptions) : bytes :=
  renderConversationMessages (ShapeConversation messages opts).
Definition RenderMarkdownWithOptions (messages : list TranscriptMessage) (opts : ShapeOptions) : bytes :=
  RenderMarkdownConversation (ShapeConversation messages opts).
Definition RenderHTMLWithOptions (messages : list TranscriptMessage) (opts : ShapeOptions) : bytes :=
  RenderHTMLConversation (ShapeConversation messages opts).
End shaping.
