(* ===== verification/ExFilter.v ===== *)
(** * ExFilter: content filtering of compacted items (conversation/export_compaction_filter.go,
      export_injected_transcript.go)

    An export shows the content kinds that were selected.  The items that a compaction kept are
    selected by their kind and reduced to what the selection shows; a transcript that was
    injected into a message or a summary is taken apart into its typed segments, and an
    injected transcript whose segments are not known refuses a filtered export. *)

From S2P Require Import Prelude GoUtf8 GoStrconv GoText GoSha256 RtSegments CvKinds CvCompaction TrMessage.

Open Scope Z_scope.

(** ** Errors *)

Inductive exportError :=
| errLoad
| errHistoryStart
| errLastN
| errFullHistory (selector : bytes)
| errHistorySelector
| errSelect (e : selectError)
| errUnresolvedSummary (recordID summaryUUID : bytes)
| errUnresolvedLive (recordID : bytes) (messageIndex : Z)
| errSanitizeSelection
| errSanitizeMessage (index : Z)
| errRender
| errFormat (format : bytes).

(** [text[a:b]]. *)
Definition cutText (text : bytes) (a b : nat) : outcome exportError bytes :=
  if ((a <=? b) && (b <=? length text))%nat then Ok (take (b - a) (drop a text)) else Panic.

(** [slices.ContainsFunc] with a test that can panic. *)
Fixpoint containsFunc {A} (test : A -> outcome exportError bool) (xs : list A) : outcome exportError bool :=
  match xs with
  | [] => Ok false
  | x :: xs => found ← test x; if (found : bool) then Ok true else containsFunc test xs
  end.

(** ** Selection by kind *)

Definition compactedRoleDeveloper : bytes := lit "developer".
Definition compactedRoleSystem : bytes := lit "system".
Definition compactedDataURLPrefix : bytes := lit "data:".

Definition hasToolContent (content : ContentKindSet) : bool :=
  Has content ContentKindToolSummaries || Has content ContentKindToolCalls || Has content ContentKindToolOutputs.

(** The kinds that show the input of a tool call. *)
Definition hasToolDetail (content : ContentKindSet) : bool := Has content ContentKindToolCalls || Has content ContentKindToolOutputs.

Definition compactedMessageSelected (message : option CompactedMessageItem) (content : ContentKindSet) : bool :=
  match message with
  | None => false
  | Some message =>
      if bool_decide (mi_MessageClass message = CompactedMessageClassSummary) then Has content ContentKindChat
      else if bool_decide (mi_Role message = compactedRoleDeveloper) || bool_decide (mi_Role message = compactedRoleSystem)
      then Has content ContentKindSystemPrompts
      else Has content ContentKindChat
  end.

Definition compactedItemSelected (item : CompactedContextItem) (content : ContentKindSet) : bool :=
  match it_Kind item with
  | CompactedContextItemKindMessage => compactedMessageSelected (it_Message item) content
  | CompactedContextItemKindReasoning => Has content ContentKindThinking
  | CompactedContextItemKindLocalShellCall | CompactedContextItemKindFunctionCall | CompactedContextItemKindToolSearchCall
  | CompactedContextItemKindCustomToolCall | CompactedContextItemKindWebSearchCall
  | CompactedContextItemKindImageGenerationCall => hasToolContent content
  | CompactedContextItemKindFunctionCallOutput | CompactedContextItemKindCustomToolCallOutput
  | CompactedContextItemKindToolSearchOutput => Has content ContentKindToolOutputs
  | CompactedContextItemKindCompaction | CompactedContextItemKindCompactionTrigger | CompactedContextItemKindContextCompaction
  | CompactedContextItemKindOther | CompactedContextItemKindUnknown _ => Has content ContentKindRawJSONMetadata
  end.

(** ** Reduction of a selected item *)

Definition contentWithoutRaw (content : CompactedMessageContentItem) : CompactedMessageContentItem :=
  MkContentItem (ct_Type content) (ct_Text content)
    (if HasPrefix (ct_ImageURL content) compactedDataURLPrefix then [] else ct_ImageURL content)
    (ct_Detail content) [] (ct_TranscriptSpans content) (ct_UnresolvedTranscript content).

Definition compactedMessageWithoutRaw (message : CompactedMessageItem) : CompactedMessageItem :=
  MkMessageItem (mi_Role message) (mi_Phase message) (map contentWithoutRaw (mi_Content message)) [] (mi_MessageClass message) [].

Definition compactedReasoningWithoutRaw (reasoning : CompactedReasoningItem) : CompactedReasoningItem :=
  MkReasoningItem (map (fun s => MkReasoningSummary (rs_Type s) (rs_Text s) []) (ri_Summary reasoning)) [] (ri_ContentRaw reasoning) [] [].

Definition compactedToolOutputWithoutRaw (item : CompactedContextItem) : CompactedContextItem :=
  MkItem (it_Kind item) (it_Message item) (it_Reasoning item) (it_LocalShellCall item) (it_FunctionCall item) (it_ToolSearchCall item)
    ((fun o => MkFunctionCallOutputItem (fo_CallID o) (fo_OutputRaw o) []) <$> it_FunctionCallOutput item)
    (it_CustomToolCall item)
    ((fun o => MkCustomToolCallOutputItem (co_CallID o) (co_Name o) (co_OutputRaw o) []) <$> it_CustomToolCallOutput item)
    ((fun o => MkToolSearchOutputItem (tso_CallID o) (tso_Status o) (tso_Execution o) (tso_ToolsRaw o) []) <$> it_ToolSearchOutput item)
    (it_WebSearchCall item) (it_ImageGenerationCall item) (it_Compaction item) (it_CompactionTrigger item) (it_ContextCompaction item)
    (it_Other item).

Definition compactedToolItemWithoutRaw (item : CompactedContextItem) : CompactedContextItem :=
  compactedToolOutputWithoutRaw
    (MkItem (it_Kind item) (it_Message item) (it_Reasoning item)
      ((fun c => MkLocalShellCallItem (ls_CallID c) (ls_Status c) (ls_ActionRaw c) []) <$> it_LocalShellCall item)
      ((fun c => MkFunctionCallItem (fc_Name c) (fc_Namespace c) (fc_Arguments c) (fc_CallID c) []) <$> it_FunctionCall item)
      ((fun c => MkToolSearchCallItem (tsc_CallID c) (tsc_Status c) (tsc_Execution c) (tsc_ArgumentsRaw c) []) <$> it_ToolSearchCall item)
      (it_FunctionCallOutput item)
      ((fun c => MkCustomToolCallItem (cc_CallID c) (cc_Name c) (cc_Input c) (cc_Status c) []) <$> it_CustomToolCall item)
      (it_CustomToolCallOutput item) (it_ToolSearchOutput item)
      ((fun c => MkWebSearchCallItem (ws_ID c) (ws_Status c) (ws_ActionRaw c) []) <$> it_WebSearchCall item)
      ((fun c => MkImageGenerationCallItem (ig_ID c) (ig_Status c) (ig_RevisedPrompt c) [] []) <$> it_ImageGenerationCall item)
      (it_Compaction item) (it_CompactionTrigger item) (it_ContextCompaction item) (it_Other item)).

Definition compactedItemWithoutRaw (item : CompactedContextItem) : CompactedContextItem :=
  compactedToolItemWithoutRaw
    (MkItem (it_Kind item) (compactedMessageWithoutRaw <$> it_Message item) (compactedReasoningWithoutRaw <$> it_Reasoning item)
      (it_LocalShellCall item) (it_FunctionCall item) (it_ToolSearchCall item) (it_FunctionCallOutput item) (it_CustomToolCall item)
      (it_CustomToolCallOutput item) (it_ToolSearchOutput item) (it_WebSearchCall item) (it_ImageGenerationCall item)
      (it_Compaction item) (it_CompactionTrigger item) (it_ContextCompaction item) (it_Other item)).

Definition compactedCallSummary (item : CompactedContextItem) : CompactedContextItem :=
  MkItem (it_Kind item) (it_Message item) (it_Reasoning item)
    ((fun c => MkLocalShellCallItem (ls_CallID c) (ls_Status c) [] (ls_Raw c)) <$> it_LocalShellCall item)
    ((fun c => MkFunctionCallItem (fc_Name c) (fc_Namespace c) [] (fc_CallID c) (fc_Raw c)) <$> it_FunctionCall item)
    ((fun c => MkToolSearchCallItem (tsc_CallID c) (tsc_Status c) (tsc_Execution c) [] (tsc_Raw c)) <$> it_ToolSearchCall item)
    (it_FunctionCallOutput item)
    ((fun c => MkCustomToolCallItem (cc_CallID c) (cc_Name c) [] (cc_Status c) (cc_Raw c)) <$> it_CustomToolCall item)
    (it_CustomToolCallOutput item) (it_ToolSearchOutput item)
    ((fun c => MkWebSearchCallItem (ws_ID c) (ws_Status c) [] (ws_Raw c)) <$> it_WebSearchCall item)
    ((fun c => MkImageGenerationCallItem (ig_ID c) (ig_Status c) [] (ig_Result c) (ig_Raw c)) <$> it_ImageGenerationCall item)
    (it_Compaction item) (it_CompactionTrigger item) (it_ContextCompaction item) (it_Other item).

(** ** Segments as items *)

Definition injectedChatContentType : bytes := lit "text".
Definition injectedThinkingSummaryType : bytes := lit "thinking".
Definition liveTextPartSeparator : bytes := newline ++ newline.

Definition emptyInjectedContextItem (kind : CompactedContextItemKind) : CompactedContextItem :=
  MkItem kind None None None None None None None None None None None None None None None.

Definition messageItem (message : CompactedMessageItem) : CompactedContextItem :=
  MkItem CompactedContextItemKindMessage (Some message) None None None None None None None None None None None None None None.

Definition reasoningItem (reasoning : CompactedReasoningItem) : CompactedContextItem :=
  MkItem CompactedContextItemKindReasoning None (Some reasoning) None None None None None None None None None None None None None.

Definition functionCallItem (call : CompactedFunctionCallItem) : CompactedContextItem :=
  MkItem CompactedContextItemKindFunctionCall None None None (Some call) None None None None None None None None None None None.

Definition functionCallOutputItem (output : CompactedFunctionCallOutputItem) : CompactedContextItem :=
  MkItem CompactedContextItemKindFunctionCallOutput None None None None None (Some output) None None None None None None None None None.

Definition otherItem (other : CompactedOtherItem) : CompactedContextItem :=
  MkItem CompactedContextItemKindOther None None None None None None None None None None None None None None (Some other).

(** [json.Marshal] of a string does not fail. *)
Definition injectedOutputRaw (text : bytes) : RawMessage := jsonString text.

Definition injectedOtherItem (text : bytes) : CompactedContextItem := otherItem (MkOtherItem SegmentKindOther (injectedOutputRaw text)).

Definition textContent (text : bytes) : CompactedMessageContentItem := MkContentItem injectedChatContentType text [] [] [] [] false.

Definition injectedMessageItem (role text : bytes) : CompactedContextItem :=
  messageItem (MkMessageItem role [] [textContent text] [] CompactedMessageClassOrdinary []).

Definition injectedSegmentItem (segment : Segment) : CompactedContextItem :=
  let kind := seg_Kind segment in
  let text := seg_Text segment in
  if bool_decide (kind = SegmentKindThinking)
  then reasoningItem (MkReasoningItem [MkReasoningSummary injectedThinkingSummaryType text []] [] [] [] [])
  else if bool_decide (kind = SegmentKindToolCall) then functionCallItem (MkFunctionCallItem [] [] text [] [])
  else if bool_decide (kind = SegmentKindToolOutput) then functionCallOutputItem (MkFunctionCallOutputItem [] (injectedOutputRaw text) [])
  else if bool_decide (kind = SegmentKindSystem) then injectedMessageItem compactedRoleSystem text
  else if bool_decide (kind = SegmentKindChat) then injectedMessageItem (seg_Role segment) text
  else injectedOtherItem text.

Definition selectedInjectedSegments (segments : list Segment) (content : ContentKindSet) : list Segment :=
  map (fun segment =>
         if bool_decide (seg_Kind segment = SegmentKindToolCall) && negb (hasToolDetail content)
         then RtSegments.MkSegment (seg_Role segment) (seg_Kind segment) [] else segment)
      (filter (fun segment => compactedItemSelected (injectedSegmentItem segment) content = true) segments).

(** ** Injected transcripts *)

Inductive injectedTranscriptResolver := resolveParsedTranscriptSpans | resolveFramedTranscriptSpans.

Definition runResolver (resolver : injectedTranscriptResolver) (content : CompactedMessageContentItem) : list TranscriptSpan :=
  match resolver with
  | resolveParsedTranscriptSpans => ct_TranscriptSpans content
  | resolveFramedTranscriptSpans => ParseTranscriptSpans (ct_Text content)
  end.

Definition injectedTranscriptResolvers : list injectedTranscriptResolver := [resolveParsedTranscriptSpans; resolveFramedTranscriptSpans].

Definition isSummary (message : CompactedMessageItem) : bool := bool_decide (mi_MessageClass message = CompactedMessageClassSummary).

Definition messageTranscriptResolvers (message : CompactedMessageItem) : list injectedTranscriptResolver :=
  if isSummary message then injectedTranscriptResolvers else [resolveParsedTranscriptSpans].

Fixpoint resolveInjectedTranscriptSpans (content : CompactedMessageContentItem) (resolvers : list injectedTranscriptResolver)
  : list TranscriptSpan :=
  match resolvers with
  | [] => []
  | resolver :: resolvers =>
      match runResolver resolver content with
      | [] => resolveInjectedTranscriptSpans content resolvers
      | (_ :: _) as spans => spans
      end
  end.

(** The pieces of a text around its spans: the loops that write it outside of them. *)
Fixpoint piecesLoop (text : bytes) (previousEnd : nat) (spans : list TranscriptSpan) : outcome exportError (list (bytes * list Segment) * bytes) :=
  match spans with
  | [] => rest ← cutText text previousEnd (length text); Ok ([], rest)
  | span :: spans =>
      prose ← cutText text previousEnd (span_Start span);
      '(pieces, rest) ← piecesLoop text (span_End span) spans;
      Ok ((prose, span_Segments span) :: pieces, rest)
  end.

Definition unresolvedInjectedTranscript (content : CompactedMessageContentItem) : outcome exportError bool :=
  '(pieces, rest) ← piecesLoop (ct_Text content) 0 (resolveInjectedTranscriptSpans content injectedTranscriptResolvers);
  Ok (ContainsTranscriptWrapper (concat (map fst pieces) ++ rest)).

Definition unresolvedParsedTranscript (content : CompactedMessageContentItem) : outcome exportError bool :=
  Ok (ct_UnresolvedTranscript content).

(** The round of [unresolvedInjectedTranscriptSummary] for one item. *)
Definition unresolvedItem (item : CompactedContextItem) : outcome exportError bool :=
  match it_Kind item, it_Message item with
  | CompactedContextItemKindMessage, Some message =>
      containsFunc (if isSummary message then unresolvedInjectedTranscript else unresolvedParsedTranscript) (mi_Content message)
  | _, _ => Ok false
  end.

Fixpoint unresolvedSegments (segments : list (CompactionSegment (Item := CompactedContextItem))) : outcome exportError (option bytes) :=
  match segments with
  | [] => Ok None
  | segment :: segments =>
      if negb (sg_HasStartingSummary segment) then unresolvedSegments segments else
      unresolved ← containsFunc unresolvedItem (cp_ContextItems (sg_Checkpoint segment));
      if (unresolved : bool) then Ok (Some (sg_SummaryUUID segment)) else unresolvedSegments segments
  end.

Definition unresolvedInjectedTranscriptSummary (selection : CompactionSegmentSelection (Item := CompactedContextItem))
  : outcome exportError (option bytes) :=
  unresolvedSegments (sel_Segments selection).

Definition liveTranscriptPartUnresolved (part : MessageTextPart) : outcome exportError bool :=
  if negb (tp_InjectedTranscript part) then Ok false else
  let marked := MkContentItem injectedChatContentType (tp_Text part) [] [] [] (tp_TranscriptSpans part) false in
  match tp_TranscriptSpans part with
  | [] => Ok true
  | _ :: _ => unresolvedInjectedTranscript marked
  end.

Fixpoint unresolvedLiveLoop (index : Z) (messages : list TranscriptMessage) : outcome exportError (option Z) :=
  match messages with
  | [] => Ok None
  | message :: messages =>
      unresolved ← containsFunc liveTranscriptPartUnresolved (tm_TextParts message);
      if (unresolved : bool) then Ok (Some index) else unresolvedLiveLoop (index + 1) messages
  end.

Definition unresolvedLiveTranscriptIndex (messages : list TranscriptMessage) : outcome exportError (option Z) :=
  unresolvedLiveLoop 0 messages.

(** ** Live messages *)

Section frames.
(** The Unicode tables that quoting a frame header consults. *)
Context (isPrint : Z -> bool).

Definition selectedLiveText (part : MessageTextPart) (content : ContentKindSet) : bytes :=
  if negb (tp_InjectedTranscript part) then (if Has content ContentKindChat then tp_Text part else []) else
  Join (concat (map (fun span =>
    match selectedInjectedSegments (span_Segments span) content with
    | [] => []
    | (_ :: _) as segments => [FramedTranscript isPrint segments]
    end) (tp_TranscriptSpans part))) liveTextPartSeparator.

Definition filterLiveTextParts (parts : list MessageTextPart) (content : ContentKindSet) : bytes :=
  Join (filter (fun text => text <> []) (map (fun part => selectedLiveText part content) parts)) liveTextPartSeparator.

End frames.

(** ** Items *)

Definition appendSummaryProse (prose : list CompactedMessageContentItem) (source : CompactedMessageContentItem) (text : bytes)
  : list CompactedMessageContentItem :=
  if bool_decide (TrimSpace text = []) then prose
  else prose ++ [MkContentItem (ct_Type source) text (ct_ImageURL source) (ct_Detail source) [] [] (ct_UnresolvedTranscript source)].

Definition appendSummaryItem (items : list CompactedContextItem) (message : CompactedMessageItem) (prose : list CompactedMessageContentItem)
  : list CompactedContextItem :=
  match prose with
  | [] => items
  | _ :: _ => items ++ [messageItem (MkMessageItem (mi_Role message) (mi_Phase message) prose [] (mi_MessageClass message) [])]
  end.

(** The loop over the spans of one content item. *)
Fixpoint expandSpans (message : CompactedMessageItem) (source : CompactedMessageContentItem) (previousEnd : nat) (spans : list TranscriptSpan)
  (expanded : list CompactedContextItem) (prose : list CompactedMessageContentItem)
  : outcome exportError (list CompactedContextItem * list CompactedMessageContentItem) :=
  match spans with
  | [] =>
      text ← cutText (ct_Text source) previousEnd (length (ct_Text source));
      Ok (expanded, appendSummaryProse prose source text)
  | span :: spans =>
      text ← cutText (ct_Text source) previousEnd (span_Start span);
      let expanded := appendSummaryItem expanded message (appendSummaryProse prose source text) in
      expandSpans message source (span_End span) spans (expanded ++ map injectedSegmentItem (span_Segments span)) []
  end.

Fixpoint expandContents (message : CompactedMessageItem) (contents : list CompactedMessageContentItem)
  (expanded : list CompactedContextItem) (prose : list CompactedMessageContentItem) (resolved : bool)
  : outcome exportError (list CompactedContextItem * list CompactedMessageContentItem * bool) :=
  match contents with
  | [] => Ok (expanded, prose, resolved)
  | contentItem :: contents =>
      match resolveInjectedTranscriptSpans contentItem (messageTranscriptResolvers message) with
      | [] => expandContents message contents expanded (prose ++ [contentItem]) resolved
      | (_ :: _) as spans =>
          '(expanded, prose) ← expandSpans message contentItem 0 spans expanded prose;
          expandContents message contents expanded prose true
      end
  end.

Definition expandInjectedTranscriptItem (item : CompactedContextItem) : outcome exportError (list CompactedContextItem) :=
  match it_Kind item, it_Message item with
  | CompactedContextItemKindMessage, Some message =>
      '(expanded, prose, resolved) ← expandContents message (mi_Content message) [] [] false;
      Ok (if (resolved : bool) then appendSummaryItem expanded message prose else [item])
  | _, _ => Ok [item]
  end.

Fixpoint expandInjectedTranscriptItems (items : list CompactedContextItem) : outcome exportError (list CompactedContextItem) :=
  match items with
  | [] => Ok []
  | item :: items =>
      here ← expandInjectedTranscriptItem item;
      rest ← expandInjectedTranscriptItems items;
      Ok (here ++ rest)
  end.

Definition reduceItem (content : ContentKindSet) (item : CompactedContextItem) : CompactedContextItem :=
  let item := compactedItemWithoutRaw item in
  if hasToolDetail content then item else compactedCallSummary item.

Definition filterCompactionContextItems (items : list CompactedContextItem) (content : ContentKindSet)
  : outcome exportError (list CompactedContextItem) :=
  if Has content ContentKindRawJSONMetadata then Ok items else
  expanded ← expandInjectedTranscriptItems items;
  Ok (map (reduceItem content) (filter (fun item => compactedItemSelected item content = true) expanded)).

Definition setCheckpointItems (items : list CompactedContextItem) (c : CompactionCheckpoint (Item := CompactedContextItem))
  : CompactionCheckpoint (Item := CompactedContextItem) :=
  MkCheckpoint (cp_BoundaryIndex c) (cp_BoundaryUUID c) (cp_SummaryIndex c) (cp_SummaryUUID c) items (cp_Trigger c)
    (cp_HeadUUID c) (cp_AnchorUUID c) (cp_TailUUID c) (cp_MessagesSummarized c) (cp_ReplacementHistoryCount c).

Definition setCheckpoint (c : CompactionCheckpoint (Item := CompactedContextItem)) (s : CompactionSegment (Item := CompactedContextItem))
  : CompactionSegment (Item := CompactedContextItem) :=
  CvCompaction.MkSegment (sg_Index s) (sg_StartMessageIndex s) (sg_EndMessageIndex s) (sg_HasStartingSummary s) (sg_SummaryMessageIndex s) (sg_SummaryUUID s)
    (sg_SummaryTimestamp s) (sg_VisibleMessageCount s) (sg_ToolCallCount s) c.

Fixpoint filterSegments (content : ContentKindSet) (segments : list (CompactionSegment (Item := CompactedContextItem)))
  : outcome exportError (list (CompactionSegment (Item := CompactedContextItem))) :=
  match segments with
  | [] => Ok []
  | segment :: segments =>
      items ← filterCompactionContextItems (cp_ContextItems (sg_Checkpoint segment)) content;
      rest ← filterSegments content segments;
      Ok (setCheckpoint (setCheckpointItems items (sg_Checkpoint segment)) segment :: rest)
  end.

Definition filterCompactionSelectionItems (selection : CompactionSegmentSelection (Item := CompactedContextItem)) (content : ContentKindSet)
  : outcome exportError (CompactionSegmentSelection (Item := CompactedContextItem)) :=
  segments ← filterSegments content (sel_Segments selection);
  Ok (MkSelection (sel_Selector selection) segments).

(** ** The text of a summary *)

Definition summaryContents (items : list CompactedContextItem) : list CompactedMessageContentItem :=
  concat (map (fun item =>
    match it_Kind item, it_Message item with
    | CompactedContextItemKindMessage, Some message => if isSummary message then mi_Content message else []
    | _, _ => []
    end) items).

Definition summaryContentItemForText (text : bytes) (items : list CompactedContextItem) : CompactedMessageContentItem :=
  default (textContent text) (head (filter (fun contentItem => ct_Text contentItem = text) (summaryContents items))).

Section summaryText.
Context (isPrint : Z -> bool).

Definition filterInjectedTranscriptText (text : bytes) (items : list CompactedContextItem) (content : ContentKindSet)
  : outcome exportError bytes :=
  match resolveInjectedTranscriptSpans (summaryContentItemForText text items) injectedTranscriptResolvers with
  | [] => Ok text
  | (_ :: _) as spans =>
      '(pieces, rest) ← piecesLoop text 0 spans;
      Ok (concat (map (fun '(prose, segments) => prose ++ FramedTranscript isPrint (selectedInjectedSegments segments content)) pieces) ++ rest)
  end.

Definition isSummaryMetadata (md : CompactionMetadata) : bool :=
  match cmd_Kind md with CompactionKindSummary => true | _ => false end.

Definition filterCompactionMessage (content : ContentKindSet) (message : TranscriptMessage) : outcome exportError TranscriptMessage :=
  match tm_Compaction message with
  | None => Ok message
  | Some md =>
      items ← filterCompactionContextItems (cmd_ContextItems md) content;
      let message := setCompaction (Some (setMetadataItems items md)) message in
      if isSummaryMetadata md && negb (Has content ContentKindRawJSONMetadata) then
        text ← filterInjectedTranscriptText (tm_Text message) (cmd_ContextItems md) content;
        Ok (setText text message)
      else Ok message
  end.

Fixpoint filterCompactionMessageItems (messages : list TranscriptMessage) (content : ContentKindSet)
  : outcome exportError (list TranscriptMessage) :=
  match messages with
  | [] => Ok []
  | message :: messages =>
      message ← filterCompactionMessage content message;
      rest ← filterCompactionMessageItems messages content;
      Ok (message :: rest)
  end.
End summaryText.
