(* ===== verification/ExExport.v ===== *)
(** * ExExport: exporting a conversation (conversation/export.go, export_last_n.go,
      export_sanitize.go, compaction_export.go)

    The messages of the selected segments are filtered by content kind, freed of encrypted
    content, rendered in one of the formats and cut to the newest lines.  The JSON codecs of
    the exported structs are a class. *)

From S2P Require Import Prelude GoUtf8 GoStrconv GoText GoJson RtSegments CvKinds CvRecord CvCompaction TrMessage TrShape ExFilter.

Open Scope Z_scope.

(** The compaction types at the items of this program. *)
Abbreviation Segments := (list (CompactionSegment (Item := CompactedContextItem))) (only parsing).
Abbreviation Selection := (CompactionSegmentSelection (Item := CompactedContextItem)) (only parsing).

(** ** Options *)

Definition ExportFormatMarkdown : bytes := lit "markdown".
Definition ExportFormatHTML : bytes := lit "html".
Definition ExportFormatJSON : bytes := lit "json".
Definition ExportFormatPlainText : bytes := lit "plain_text".

Definition WhitespacePreserve : bytes := lit "preserve".
Definition WhitespaceTidy : bytes := lit "tidy".
Definition WhitespaceCompact : bytes := lit "compact".
Definition WhitespaceDense : bytes := lit "dense".

Record CompactionExportOptions := MkCompactionExportOptions {
  ce_IncludeSelector : bytes;
  ce_FullHistory : bool;
}.

Record ExportOptions := MkExportOptions {
  eo_Format : bytes;
  eo_HistoryStart : Z;
  eo_LastN : Z;
  eo_MaxLines : Z;
  eo_MaxTokens : bytes;
  eo_TokenModel : bytes;
  eo_Whitespace : bytes;
  eo_Content : ContentKindSet;
  eo_Compaction : CompactionExportOptions;
}.

Definition setHistoryStart (start : Z) (o : ExportOptions) : ExportOptions :=
  MkExportOptions (eo_Format o) start (eo_LastN o) (eo_MaxLines o) (eo_MaxTokens o) (eo_TokenModel o) (eo_Whitespace o) (eo_Content o) (eo_Compaction o).

Definition NormalizeCompactionExportOptions (options : CompactionExportOptions) (historyStart lastN : Z)
  : outcome exportError CompactionExportOptions :=
  if historyStart <? 0 then Fail errHistoryStart else
  if lastN <? 0 then Fail errLastN else
  let selector := TrimSpace (ce_IncludeSelector options) in
  if ce_FullHistory options && negb (bool_decide (selector = [])) && negb (bool_decide (selector = lit "all")) then Fail (errFullHistory selector) else
  let selector := if ce_FullHistory options then lit "all" else selector in
  let selector := if bool_decide (selector = []) then defaultCompactionSelector else selector in
  if (0 <? historyStart) && negb (bool_decide (selector = lit "all")) then Fail errHistorySelector else
  Ok (MkCompactionExportOptions selector (ce_FullHistory options)).

(** ** Cutting to the newest lines *)

Definition lineFeed : Byte.byte := Byte.x0a.

Fixpoint cutLoop (n : nat) (trimmed : bytes) (cut : nat) : nat :=
  match n with
  | O => cut
  | S n =>
      match LastIndexByte (take cut trimmed) lineFeed with
      | None => 0%nat
      | Some i => cutLoop n trimmed i
      end
  end.

Definition countByte (s : bytes) (b : Byte.byte) : Z := zlen (filter (fun c => c = b) s).

Definition capToLastLines (text : bytes) (maxLines : Z) : bytes * Z * bool :=
  let trimmed := TrimRight text newline in
  if bool_decide (trimmed = []) then (text, 0, false) else
  let total := countByte trimmed lineFeed + 1 in
  if (maxLines <=? 0) || (total <=? maxLines) then (text, total, false) else
  let cut := cutLoop (Z.to_nat maxLines) trimmed (length trimmed) in
  let start := if (0 <? cut)%nat then S cut else cut in
  (drop start trimmed ++ newline, maxLines, true).

(** ** White space *)

(** [json.Compact]: without the white space outside of strings. *)
Fixpoint compactPlain (inString escaped : bool) (s : bytes) : bytes :=
  match s with
  | [] => []
  | b :: rest =>
      if inString then
        b :: compactPlain (escaped || negb (bool_decide (b = dquote))) (negb escaped && bool_decide (b = backslash)) rest
      else if isJSONSpace b then compactPlain false false rest
      else b :: compactPlain (bool_decide (b = dquote)) false rest
  end.

Definition Compact (s : bytes) : option bytes := if Valid s then Some (compactPlain false false s) else None.

Definition fence : bytes := lit "```".

Fixpoint compressLoop (mode : bytes) (blank inFence : bool) (lines : list bytes) : list bytes :=
  match lines with
  | [] => []
  | line :: lines =>
      let trimmed := TrimRight line [Byte.x20; Byte.x09] in
      let inFence := if HasPrefix (TrimSpace trimmed) fence then negb inFence else inFence in
      if inFence then line :: compressLoop mode blank inFence lines
      else if bool_decide (TrimSpace trimmed = []) then
        if bool_decide (mode = WhitespaceDense) then compressLoop mode blank inFence lines
        else if bool_decide (mode = WhitespaceCompact) then
          if blank then compressLoop mode blank inFence lines else [] :: compressLoop mode true inFence lines
        else [] :: compressLoop mode blank inFence lines
      else trimmed :: compressLoop mode false inFence lines
  end.

Definition compressWhitespaceText (text : bytes) (mode : bytes) : bytes :=
  if bool_decide (mode = WhitespacePreserve) || bool_decide (mode = []) then text
  else TrimRight (Join (compressLoop mode false false (Split text newline)) newline) newline ++ newline.

Definition compressWhitespace (body : bytes) (format mode : bytes) : bytes :=
  if bool_decide (mode = []) || bool_decide (mode = WhitespacePreserve) then body
  else if bool_decide (format = ExportFormatJSON) then default body (Compact body)
  else compressWhitespaceText body mode.

(** ** Encrypted content *)

Definition encryptedContentJSONKey : bytes := lit "encrypted_content".

(** The values of a decoded object or array are valid, so that encoding them again does not
    fail. *)
Fixpoint stripEncrypted (fuel : nat) (raw : RawMessage) : RawMessage :=
  match fuel with
  | O => raw
  | S fuel =>
      match UnmarshalFields raw with
      | Some fields => MarshalFields (stripEncrypted fuel <$> delete encryptedContentJSONKey fields)
      | None =>
          match UnmarshalItems raw with
          | Some values => MarshalItems (map (stripEncrypted fuel) values)
          | None => raw
          end
      end
  end.

Definition stripEncryptedContentJSON (raw : RawMessage) : RawMessage := stripEncrypted (length raw) raw.

Definition sanitizeExportValue {T} (marshal : T -> option bytes) (unmarshal : bytes -> option T) (value : T) : option T :=
  raw ← marshal value;
  unmarshal (stripEncryptedContentJSON raw).

(** ** Documents *)

Record compactionExportSegmentBlock := MkSegmentBlock {
  cb_SegmentIndex : Z;
  cb_HasStartingSummary : bool;
  cb_StartMessageIndex : Z;
  cb_EndMessageIndex : Z;
  cb_SummaryMessageIndex : Z;
  cb_SummaryUUID : bytes;
  cb_SummaryTimestamp : option Z;
  cb_SummaryItems : list CompactedContextItem;
  cb_ContextItems : list CompactedContextItem;
}.

Record compactionExportBlock := MkExportBlock {
  xb_Selector : bytes;
  xb_Segments : list compactionExportSegmentBlock;
}.

Record rawJSONExport := MkRawExport {
  re_ConversationID : bytes;
  re_Provider : bytes;
  re_ArtifactPath : bytes;
  re_Compaction : option compactionExportBlock;
  re_Messages : list TranscriptMessage;
  re_CompactionCheckpoints : list (CompactionCheckpoint (Item := CompactedContextItem));
}.

Record shapedCompactionJSONExport := MkShapedExport {
  se_ConversationID : bytes;
  se_Provider : bytes;
  se_ArtifactPath : bytes;
  se_Compaction : option compactionExportBlock;
  se_Messages : list ConversationTurn;
}.

(** The JSON codecs of the structs; [MarshalIndent] for the documents. *)
Class ExportCodecs := {
  MarshalSelection : Selection -> option bytes;
  UnmarshalSelection : bytes -> option Selection;
  MarshalMetadata : CompactionMetadata -> option bytes;
  UnmarshalMetadata : bytes -> option CompactionMetadata;
  MarshalRawExport : rawJSONExport -> option bytes;
  MarshalShapedExport : shapedCompactionJSONExport -> option bytes;
  MarshalBlock : compactionExportBlock -> option bytes;
  MarshalTurns : list ConversationTurn -> option bytes;
}.

Definition summaryContextItems (items : list CompactedContextItem) : list CompactedContextItem :=
  filter (fun item => match it_Kind item, it_Message item with
                      | CompactedContextItemKindMessage, Some message => isSummary message
                      | _, _ => false
                      end = true) items.

Definition segmentBlock (segment : CompactionSegment (Item := CompactedContextItem)) : compactionExportSegmentBlock :=
  let contextItems := cp_ContextItems (sg_Checkpoint segment) in
  MkSegmentBlock (sg_Index segment) (sg_HasStartingSummary segment) (sg_StartMessageIndex segment) (sg_EndMessageIndex segment)
    (sg_SummaryMessageIndex segment) (sg_SummaryUUID segment) (sg_SummaryTimestamp segment) (summaryContextItems contextItems) contextItems.

Definition buildCompactionExportBlock (selection : Selection) : option compactionExportBlock :=
  match map segmentBlock (filter (fun segment => sg_HasStartingSummary segment = true) (sel_Segments selection)) with
  | [] => None
  | (_ :: _) as segmentBlocks => Some (MkExportBlock (sel_Selector selection) segmentBlocks)
  end.

(** ** Filtering messages *)

Definition exportToolOnlyMode (content : ContentKindSet) : bytes :=
  if Has content ContentKindToolCalls || Has content ContentKindToolOutputs then ToolOnlyFullDetail else ToolOnlyInputSummary.

Definition exportShapeOptions (content : ContentKindSet) : ShapeOptions :=
  let includeTools := hasToolContent content in
  MkShapeOptions (Has content ContentKindThinking) (negb includeTools) (if includeTools then exportToolOnlyMode content else ToolOnlyOmit) 0.

Section export.
Context (isPrint : Z -> bool) `{TurnCodecs} `{ExportCodecs}.

(** One round of the loop of [filterMessages]. *)
Definition filterMessage (options : ExportOptions) (i : nat) (message : TranscriptMessage) : list TranscriptMessage :=
  let content := eo_Content options in
  if (0 <? eo_HistoryStart options) && (Z.of_nat i <? eo_HistoryStart options) then [] else
  let isCompaction := match tm_Compaction message with Some _ => true | None => false end in
  if isCompaction && negb (Has content ContentKindSystemMessages) then [] else
  let hasParts := negb (bool_decide (tm_TextParts message = [])) in
  let message := if hasParts && negb (Has content ContentKindRawJSONMetadata)
                 then setText (filterLiveTextParts isPrint (tm_TextParts message) content) message else message in
  let message := if negb (Has content ContentKindChat) && negb hasParts && negb (bool_decide (tm_Text message = []))
                 then setText [] message else message in
  let message := if negb (Has content ContentKindThinking) then setThinking [] message else message in
  let message := if negb (hasToolContent content) then clearTools message else message in
  if isCompaction && Has content ContentKindSystemMessages then [message]
  else if bool_decide (tm_Text message = []) && bool_decide (tm_Thinking message = []) && bool_decide (tm_Tools message = []) then []
  else [message].

Definition filterMessages (messages : list TranscriptMessage) (options : ExportOptions) : list TranscriptMessage :=
  concat (imap (filterMessage options) messages).

Definition messageRendersForExport (message : TranscriptMessage) (options : ExportOptions) : bool :=
  match filterMessages [message] (setHistoryStart 0 options) with
  | [] => false
  | (_ :: _) as kept =>
      if bool_decide (eo_Format options = ExportFormatJSON) && Has (eo_Content options) ContentKindRawJSONMetadata then true
      else negb (bool_decide (length (ShapeConversation kept (exportShapeOptions (eo_Content options))) = 0%nat))
  end.

Definition messageCountsForLastN (message : TranscriptMessage) (options : ExportOptions) : bool :=
  match tm_Compaction message with
  | Some _ => false
  | None => if bool_decide (tm_Visibility message = MessageVisibilityMetaOnly) then false else messageRendersForExport message options
  end.

(** The inner loop of [applyLastNToSegmentSelection] over the [n] messages from [start] on,
    the last one first: what remains to be counted, or the message at which the count ends. *)
Fixpoint lastNMessages (messages : list TranscriptMessage) (options : ExportOptions) (start : Z) (n : nat) (remaining : Z)
  : outcome exportError (Z + Z) :=
  match n with
  | O => Ok (inl remaining)
  | S n =>
      let messageIndex := start + Z.of_nat n in
      if messageIndex <? 0 then Panic else
      match messages !! Z.to_nat messageIndex with
      | None => Panic
      | Some message =>
          if negb (messageCountsForLastN message options) then lastNMessages messages options start n remaining
          else if remaining - 1 =? 0 then Ok (inr messageIndex)
          else lastNMessages messages options start n (remaining - 1)
      end
  end.

Definition setStart (start : Z) (s : CompactionSegment (Item := CompactedContextItem)) : CompactionSegment (Item := CompactedContextItem) :=
  CvCompaction.MkSegment (sg_Index s) start (sg_EndMessageIndex s) (sg_HasStartingSummary s) (sg_SummaryMessageIndex s) (sg_SummaryUUID s)
    (sg_SummaryTimestamp s) (sg_VisibleMessageCount s) (sg_ToolCallCount s) (sg_Checkpoint s).

(** The outer loop over the segments, the last one first. *)
Fixpoint lastNSegments (messages : list TranscriptMessage) (options : ExportOptions) (segments : Segments) (remaining : Z)
  : outcome exportError (Z + Segments) :=
  match segments with
  | [] => Ok (inl remaining)
  | segment :: rest =>
      found ← lastNSegments messages options rest remaining;
      match found with
      | inr out => Ok (inr out)
      | inl remaining =>
          let start := sg_StartMessageIndex segment in
          cutoff ← lastNMessages messages options start (Z.to_nat (Z.min (sg_EndMessageIndex segment) (zlen messages) - start)) remaining;
          match cutoff with
          | inl remaining => Ok (inl remaining)
          | inr messageIndex => Ok (inr (setStart messageIndex segment :: rest))
          end
      end
  end.

Definition applyLastNToSegmentSelection (messages : list TranscriptMessage) (selection : Selection) (options : ExportOptions)
  : outcome exportError Selection :=
  if eo_LastN options <=? 0 then Ok selection else
  found ← lastNSegments messages options (sel_Segments selection) (eo_LastN options);
  match found with
  | inl _ => Ok selection
  | inr out => Ok (MkSelection (sel_Selector selection) out)
  end.

Definition segmentMessages (messages : list TranscriptMessage) (segment : CompactionSegment (Item := CompactedContextItem)) : list TranscriptMessage :=
  let start := Z.max (sg_StartMessageIndex segment) 0 in
  let stop := Z.min (sg_EndMessageIndex segment) (zlen messages) in
  if stop <=? start then [] else slice messages start stop.

Definition selectedCompactionSegmentMessages (messages : list TranscriptMessage) (selection : Selection) : list TranscriptMessage :=
  concat (map (segmentMessages messages) (sel_Segments selection)).

(** ** Sanitizing *)

Definition sanitizeCompactionSelectionForExport (selection : Selection) : outcome exportError Selection :=
  match sanitizeExportValue MarshalSelection UnmarshalSelection selection with
  | None => Fail errSanitizeSelection
  | Some selection => Ok selection
  end.

Fixpoint sanitizeMessages (i : Z) (messages : list TranscriptMessage) : outcome exportError (list TranscriptMessage) :=
  match messages with
  | [] => Ok []
  | message :: messages =>
      message ← match tm_Compaction message with
                | None => Ok message
                | Some md =>
                    match sanitizeExportValue MarshalMetadata UnmarshalMetadata md with
                    | None => Fail (errSanitizeMessage i)
                    | Some md => Ok (setCompaction (Some md) message)
                    end
                end;
      rest ← sanitizeMessages (i + 1) messages;
      Ok (message :: rest)
  end.

Definition sanitizeCompactionMessagesForExport (messages : list TranscriptMessage) : outcome exportError (list TranscriptMessage) :=
  sanitizeMessages 0 messages.

(** ** Rendering *)

Definition orRenderError (body : option bytes) : outcome exportError bytes :=
  match body with
  | None => Fail errRender
  | Some body => Ok body
  end.

Definition compactionBlockTitle (block : compactionExportBlock) : bytes := lit "Compaction Segments " ++ xb_Selector block.

Definition renderCompactionBlock (block : compactionExportBlock) (format : bytes) : outcome exportError bytes :=
  body ← orRenderError (MarshalBlock block);
  let title := compactionBlockTitle block in
  if bool_decide (format = ExportFormatHTML) then
    Ok (quotedHTML "<section class='compaction'>" ++ newline ++ lit "<h2>" ++ EscapeHTML title ++ lit "</h2>" ++ newline
        ++ lit "<pre>" ++ EscapeHTML body ++ lit "</pre>" ++ newline ++ lit "</section>")
  else if bool_decide (format = ExportFormatJSON) then Ok body
  else if bool_decide (format = ExportFormatPlainText) then Ok (title ++ newline ++ newline ++ body)
  else Ok (lit "## " ++ title ++ newline ++ newline ++ lit "```json" ++ newline ++ body ++ newline ++ fence).

Definition prependCompactionBlock (body : bytes) (format : bytes) (block : option compactionExportBlock) : outcome exportError bytes :=
  match block with
  | None => Ok body
  | Some block =>
      prefix ← renderCompactionBlock block format;
      let trimmedBody := TrimSpace body in
      if bool_decide (trimmedBody = []) then Ok prefix else
      let separator := if bool_decide (format = ExportFormatHTML) then newline else newline ++ newline in
      Ok (prefix ++ separator ++ trimmedBody)
  end.

Definition renderRawJSON (record : ConvRecord) (messages : list TranscriptMessage) (options : ExportOptions)
  (block : option compactionExportBlock) : outcome exportError bytes :=
  let checkpoints := if Has (eo_Content options) ContentKindSystemMessages then CompactionCheckpoints (map entryOf messages) else [] in
  body ← orRenderError (MarshalRawExport (MkRawExport (rc_ID record) (providerString (rc_Provider record)) (rc_ArtifactPath record) block
    messages checkpoints));
  Ok (body ++ newline).

Definition renderCompactionJSON (record : ConvRecord) (messages : list TranscriptMessage) (shapeOptions : ShapeOptions)
  (block : compactionExportBlock) : outcome exportError bytes :=
  body ← orRenderError (MarshalShapedExport (MkShapedExport (rc_ID record) (providerString (rc_Provider record)) (rc_ArtifactPath record)
    (Some block) (ShapeConversation messages shapeOptions)));
  Ok (body ++ newline).

Definition renderMessagesWithCompaction (record : ConvRecord) (messages : list TranscriptMessage) (options : ExportOptions)
  (block : option compactionExportBlock) : outcome exportError bytes :=
  let shapeOptions := exportShapeOptions (eo_Content options) in
  let format := eo_Format options in
  if bool_decide (format = ExportFormatHTML) then prependCompactionBlock (RenderHTMLWithOptions messages shapeOptions) format block
  else if bool_decide (format = ExportFormatJSON) then
    if Has (eo_Content options) ContentKindRawJSONMetadata then renderRawJSON record messages options block
    else match block with
         | Some block => renderCompactionJSON record messages shapeOptions block
         | None => orRenderError (MarshalTurns (ShapeConversation messages shapeOptions))
         end
  else if bool_decide (format = ExportFormatPlainText) then prependCompactionBlock (RenderPlainTextWithOptions messages shapeOptions) format block
  else if bool_decide (format = ExportFormatMarkdown) || bool_decide (format = [])
  then prependCompactionBlock (RenderMarkdownWithOptions messages shapeOptions) format block
  else Fail (errFormat format).

(** ** The export *)

(** The refusal of a filtered export whose injected transcripts are not typed. *)
Definition checkResolved (record : ConvRecord) (messages : list TranscriptMessage) (selection : Selection) (options : ExportOptions)
  : outcome exportError unit :=
  if Has (eo_Content options) ContentKindRawJSONMetadata then Ok tt else
  summary ← unresolvedInjectedTranscriptSummary selection;
  match summary with
  | Some summaryUUID => Fail (errUnresolvedSummary (rc_ID record) summaryUUID)
  | None =>
      live ← unresolvedLiveTranscriptIndex (selectedCompactionSegmentMessages messages selection);
      match live with
      | Some messageIndex => Fail (errUnresolvedLive (rc_ID record) messageIndex)
      | None => Ok tt
      end
  end.

Definition liftSelect {A} (m : outcome selectError A) : outcome exportError A :=
  match m with
  | Ok a => Ok a
  | Fail e => Fail (errSelect e)
  | Panic => Panic
  end.

Definition liftSegments {A} (m : outcome unit A) : outcome exportError A :=
  match m with
  | Ok a => Ok a
  | Fail _ | Panic => Panic
  end.

Definition exportMessages (record : ConvRecord) (messages : list TranscriptMessage) (options : ExportOptions) : outcome exportError bytes :=
  compactionOptions ← NormalizeCompactionExportOptions (eo_Compaction options) (eo_HistoryStart options) (eo_LastN options);
  segments ← liftSegments (CompactionSegments (map entryOf messages));
  selection ← liftSelect (SelectCompactionSegments segments (ce_IncludeSelector compactionOptions));
  selection ← applyLastNToSegmentSelection messages selection options;
  _ ← checkResolved record messages selection options;
  selection ← filterCompactionSelectionItems selection (eo_Content options);
  selection ← sanitizeCompactionSelectionForExport selection;
  let selectedMessages := selectedCompactionSegmentMessages messages selection in
  let selectedMessages := filterMessages selectedMessages options in
  selectedMessages ← filterCompactionMessageItems isPrint selectedMessages (eo_Content options);
  selectedMessages ← sanitizeCompactionMessagesForExport selectedMessages;
  let selectedMessages :=
    if bool_decide (eo_Format options = ExportFormatJSON) && negb (Has (eo_Content options) ContentKindRawJSONMetadata)
    then map clearUUID selectedMessages else selectedMessages in
  let block := buildCompactionExportBlock selection in
  body ← renderMessagesWithCompaction record selectedMessages options block;
  let body := compressWhitespace body (eo_Format options) (eo_Whitespace options) in
  Ok (if 0 <? eo_MaxLines options then (capToLastLines body (eo_MaxLines options)).1.1 else body).

(** How [Index.Export] loads the messages: what the content kinds select, always the system
    messages, and with the injected transcripts resolved unless the raw text is exported. *)
Definition exportLoadOptions (content : ContentKindSet) : LoadOptions * bool :=
  (MkLoadOptions (Has content ContentKindSystemPrompts) true (Has content ContentKindToolOutputs) (Has content ContentKindInjected),
   negb (Has content ContentKindRawJSONMetadata)).

(** [load] is [LoadMessagesWithOptions], with [ResolveInjectedTranscripts] second. *)
Definition Export (load : ConvRecord -> LoadOptions * bool -> option (list TranscriptMessage)) (record : ConvRecord) (options : ExportOptions)
  : outcome exportError bytes :=
  match load record (exportLoadOptions (eo_Content options)) with
  | None => Fail errLoad
  | Some messages => exportMessages record messages options
  end.
End export.
