(* ===== verification/ExRelate.v ===== *)
(** * ExRelate: segments of transcripts that differ in the kept items only

    The segmentation of a transcript copies the items that a compaction kept and counts tool
    calls.  Two transcripts whose items are related and whose tool calls are as many are cut
    into segments whose items are related; the same segments are selected. *)

From S2P Require Import Prelude GoText CvCompaction.

Open Scope Z_scope.

(** Two outcomes: the same error, a panic on both sides, or related results. *)
Definition outcomeRel {E A B} (R : A -> B -> Prop) (x : outcome E A) (y : outcome E B) : Prop :=
  match x, y with
  | Ok a, Ok b => R a b
  | Fail e, Fail e' => e = e'
  | Panic, Panic => True
  | _, _ => False
  end.

Lemma outcomeRel_bind {E A B A' B'} (R : A -> B -> Prop) (S : A' -> B' -> Prop) (x : outcome E A) y f g :
  outcomeRel R x y -> (forall a b, R a b -> outcomeRel S (f a) (g b)) -> outcomeRel S (x ≫= f) (y ≫= g).
Proof. intros H Hf. destruct x, y; cbn in *; try done. by apply Hf. Qed.

Lemma outcomeRel_eq {E A} (x y : outcome E A) : outcomeRel eq x y -> x = y.
Proof. destruct x, y; cbn; try done; congruence. Qed.

Lemma outcomeRel_refl {E A} (R : A -> A -> Prop) (x : outcome E A) : (forall a, R a a) -> outcomeRel R x x.
Proof. intros H. by destruct x; cbn. Qed.

Lemma outcome_bind_ext {E A B} (x : outcome E A) (f g : A -> outcome E B) : (forall a, f a = g a) -> x ≫= f = x ≫= g.
Proof. intros H. by destruct x; cbn. Qed.

Section relate.
Context {Item : Type} (R : Item -> Item -> Prop).

Definition metadataRel (m n : CompactionMetadata (Item := Item)) : Prop :=
  md_Kind m = md_Kind n /\ md_Trigger m = md_Trigger n /\ md_MessagesSummarized m = md_MessagesSummarized n /\
  md_ReplacementHistoryCount m = md_ReplacementHistoryCount n /\ md_HeadUUID m = md_HeadUUID n /\ md_AnchorUUID m = md_AnchorUUID n /\
  md_TailUUID m = md_TailUUID n /\ Forall2 R (md_ContextItems m) (md_ContextItems n).

Definition entryRel (m n : Message (Item := Item)) : Prop :=
  m_UUID m = m_UUID n /\ m_ParentUUID m = m_ParentUUID n /\ m_LogicalParentUUID m = m_LogicalParentUUID n /\ m_Visibility m = m_Visibility n /\
  option_Forall2 metadataRel (m_Compaction m) (m_Compaction n) /\ m_Timestamp m = m_Timestamp n /\ length (m_Tools m) = length (m_Tools n).

Definition checkpointRel (c d : CompactionCheckpoint (Item := Item)) : Prop :=
  cp_BoundaryIndex c = cp_BoundaryIndex d /\ cp_BoundaryUUID c = cp_BoundaryUUID d /\ cp_SummaryIndex c = cp_SummaryIndex d /\
  cp_SummaryUUID c = cp_SummaryUUID d /\ Forall2 R (cp_ContextItems c) (cp_ContextItems d) /\ cp_Trigger c = cp_Trigger d /\
  cp_HeadUUID c = cp_HeadUUID d /\ cp_AnchorUUID c = cp_AnchorUUID d /\ cp_TailUUID c = cp_TailUUID d /\
  cp_MessagesSummarized c = cp_MessagesSummarized d /\ cp_ReplacementHistoryCount c = cp_ReplacementHistoryCount d.

Definition segmentRel (s t : CompactionSegment (Item := Item)) : Prop :=
  sg_Index s = sg_Index t /\ sg_StartMessageIndex s = sg_StartMessageIndex t /\ sg_EndMessageIndex s = sg_EndMessageIndex t /\
  sg_HasStartingSummary s = sg_HasStartingSummary t /\ sg_SummaryMessageIndex s = sg_SummaryMessageIndex t /\
  sg_SummaryUUID s = sg_SummaryUUID t /\ sg_SummaryTimestamp s = sg_SummaryTimestamp t /\
  sg_VisibleMessageCount s = sg_VisibleMessageCount t /\ sg_ToolCallCount s = sg_ToolCallCount t /\
  checkpointRel (sg_Checkpoint s) (sg_Checkpoint t).

Definition selectionRel (s t : CompactionSegmentSelection (Item := Item)) : Prop :=
  sel_Selector s = sel_Selector t /\ Forall2 segmentRel (sel_Segments s) (sel_Segments t).

Lemma boundaryCheckpoint_rel i m n : entryRel m n -> checkpointRel (boundaryCheckpoint i m) (boundaryCheckpoint i n).
Proof.
  intros (H1 & _ & _ & _ & Hc & _). unfold boundaryCheckpoint. destruct Hc as [x y (?&?&?&?&?&?&?&?)|]; unfold checkpointRel; cbn; split_and!; done || by constructor.
Qed.

Lemma summaryOnlyCheckpoint_rel i m n : entryRel m n -> checkpointRel (summaryOnlyCheckpoint i m) (summaryOnlyCheckpoint i n).
Proof.
  intros (H1 & _ & _ & _ & Hc & _). unfold summaryOnlyCheckpoint. destruct Hc as [x y (?&?&?&?&?&?&?&?)|]; unfold checkpointRel; cbn; split_and!; done || by constructor.
Qed.

Lemma attachSummaryCheckpoint_rel i c d m n : checkpointRel c d -> entryRel m n ->
  checkpointRel (attachSummaryCheckpoint c i m) (attachSummaryCheckpoint d i n).
Proof.
  intros (C1 & C2 & C3 & C4 & C5 & C6 & C7 & C8 & C9 & C10 & C11) (H1 & _ & _ & _ & Hc & _). unfold attachSummaryCheckpoint, checkpointRel.
  destruct Hc as [x y (?&?&E3&E4&?&?&?&?)|]; cbn; split_and!; try done; [by apply Forall2_app|by rewrite C10, E3|by rewrite C11, E4].
Qed.

Lemma isCompactionSummary_rel m n : entryRel m n -> isCompactionSummary m = isCompactionSummary n.
Proof. intros (_ & _ & _ & _ & Hc & _). unfold isCompactionSummary. destruct Hc as [x y (E & _)|]; [by rewrite E|done]. Qed.

Lemma attaches_rel m n m' n' : entryRel m n -> entryRel m' n' -> summaryAttachesToBoundary m m' = summaryAttachesToBoundary n n'.
Proof. intros (H1 & _) (_ & H2 & H3 & _). unfold summaryAttachesToBoundary. by rewrite H1, H2, H3. Qed.

Lemma checkpointsLoop_rel ms ns : Forall2 entryRel ms ns -> forall i attached,
  Forall2 checkpointRel (checkpointsLoop i ms attached) (checkpointsLoop i ns attached).
Proof.
  induction 1 as [|m n ms ns Hmn Hrest IH]; intros i attached; [constructor|]. cbn [checkpointsLoop]. case_decide; [apply IH|].
  pose proof Hmn as (_ & _ & _ & _ & Hc & _). destruct Hc as [x y (Hk & _)|]; [|apply IH]. rewrite <- Hk. pose proof (boundaryCheckpoint_rel (Z.of_nat i) _ _ Hmn) as Hb.
  destruct (md_Kind x); [|by constructor|constructor; [by apply summaryOnlyCheckpoint_rel|apply IH]|apply IH].
  destruct Hrest as [|m' n' ms ns Hmn' Hrest]; [by constructor|]. rewrite (isCompactionSummary_rel _ _ Hmn'), (attaches_rel _ _ _ _ Hmn Hmn').
  case_match; [|by constructor]. constructor; [by apply attachSummaryCheckpoint_rel|apply IH].
Qed.

Lemma CompactionCheckpoints_rel ms ns : Forall2 entryRel ms ns -> Forall2 checkpointRel (CompactionCheckpoints ms) (CompactionCheckpoints ns).
Proof.
  intros H. unfold CompactionCheckpoints. assert (length (CompactionMessages ms) = length (CompactionMessages ns)) as ->.
  { unfold CompactionMessages. induction H as [|m n ms ns (_ & _ & _ & _ & Hc & _) _ IH]; [done|]. rewrite !filter_cons.
    destruct Hc as [x y _|]; repeat case_decide; cbn; try done; congruence. }
  case_match; [constructor|]. by apply checkpointsLoop_rel.
Qed.

Lemma segmentStart_rel c d : checkpointRel c d -> checkpointSegmentStart c = checkpointSegmentStart d.
Proof. intros (H1 & _ & H2 & _). unfold checkpointSegmentStart. by rewrite H1, H2. Qed.

Lemma countToolCalls_rel (ms ns : list (Message (Item := Item))) start stop : Forall2 entryRel ms ns -> countToolCalls ms start stop = countToolCalls ns start stop.
Proof.
  intros H. unfold countToolCalls. assert (Forall2 entryRel (slice ms start stop) (slice ns start stop)) as Hs by (by apply Forall2_take, Forall2_drop).
  generalize 0. induction Hs as [|m n ms' ns' (_ & _ & _ & _ & _ & _ & Ht) _ IH]; intros count; [done|]. cbn [foldl]. unfold zlen at 1 2. rewrite Ht. apply IH.
Qed.

Lemma countVisible_rel (ms ns : list (Message (Item := Item))) start stop : Forall2 entryRel ms ns -> countVisibleMessages ms start stop = countVisibleMessages ns start stop.
Proof.
  intros H. unfold countVisibleMessages, zlen. f_equal. assert (Forall2 entryRel (slice ms start stop) (slice ns start stop)) as Hs by (by apply Forall2_take, Forall2_drop).
  induction Hs as [|m n ms' ns' (_ & _ & _ & Hv & Hc & _) _ IH]; [done|]. rewrite !filter_cons, Hv.
  destruct Hc; repeat case_decide; cbn; try done; try (by rewrite IH); naive_solver.
Qed.

Lemma plainSegment_rel ms ns start stop : Forall2 entryRel ms ns -> segmentRel (plainSegment ms start stop) (plainSegment ns start stop).
Proof.
  intros H. unfold plainSegment, segmentRel, checkpointRel. cbn. rewrite (countToolCalls_rel _ _ _ _ H), (countVisible_rel _ _ _ _ H). split_and!; done || constructor.
Qed.

Lemma checkpointSegment_rel ms ns c d start stop : Forall2 entryRel ms ns -> checkpointRel c d ->
  segmentRel (checkpointSegment ms c start stop) (checkpointSegment ns d start stop).
Proof.
  intros H Hcd. pose proof Hcd as (C1 & C2 & C3 & C4 & _). unfold checkpointSegment, segmentRel. cbn. rewrite C1, C3, (countToolCalls_rel _ _ _ _ H), (countVisible_rel _ _ _ _ H).
  split_and!; try done.
  - unfold compactionSegmentSummaryUUID. by rewrite C2, C4.
  - unfold compactionSegmentSummaryTimestamp, zlen. rewrite (Forall2_length _ _ _ H). case_match; [done|]. set (k := Z.to_nat _). destruct (ms !! k) as [m|] eqn:E.
    + destruct (Forall2_lookup_l _ _ _ _ _ H E) as (n & -> & (_ & _ & _ & _ & _ & Ht & _)). done.
    + apply lookup_ge_None in E. rewrite (Forall2_length _ _ _ H) in E. apply lookup_ge_None in E. by rewrite E.
Qed.

Lemma segmentsLoop_rel ms ns starts i cs ds : Forall2 entryRel ms ns -> Forall2 checkpointRel cs ds ->
  outcomeRel (Forall2 segmentRel) (segmentsLoop ms starts i cs) (segmentsLoop ns starts i ds).
Proof.
  intros H Hcd. revert i. induction Hcd as [|c d cs ds Hc _ IH]; intros i; [constructor|]. cbn [segmentsLoop]. destruct (starts !! i) as [start|]; [|done].
  assert (zlen ms = zlen ns) as -> by (unfold zlen; by rewrite (Forall2_length _ _ _ H)). eapply outcomeRel_bind; [apply IH|]. intros xs ys Hxy. cbn.
  case_match; [done|]. constructor; [by apply checkpointSegment_rel|done].
Qed.

Lemma newestFirst_rel ss ts : Forall2 segmentRel ss ts -> Forall2 segmentRel (newestFirst ss) (newestFirst ts).
Proof.
  intros H. unfold newestFirst. assert (Forall2 segmentRel (rev ss) (rev ts)) as Hr by (rewrite !rev_alt; by apply Forall2_reverse). clear H. revert Hr. generalize (rev ss) (rev ts). clear ss ts.
  intros ss ts H. apply Forall2_same_length_lookup. split; [by rewrite !length_imap, (Forall2_length _ _ _ H)|].
  intros i x y Hx Hy. rewrite !list_lookup_imap in *. destruct (ss !! i) as [s|] eqn:Es, (ts !! i) as [t|] eqn:Et; try done. cbn in *.
  injection Hx as <-. injection Hy as <-. destruct (Forall2_lookup_lr _ _ _ _ _ _ H Es Et) as (_ & ?). by split.
Qed.

Lemma CompactionSegments_rel ms ns : Forall2 entryRel ms ns -> outcomeRel (Forall2 segmentRel) (CompactionSegments ms) (CompactionSegments ns).
Proof.
  intros H. unfold CompactionSegments. pose proof (CompactionCheckpoints_rel _ _ H) as Hc. assert (zlen ms = zlen ns) as Hlen by (unfold zlen; by rewrite (Forall2_length _ _ _ H)).
  assert (checkpointSegmentStarts (CompactionCheckpoints ms) (zlen ms) = checkpointSegmentStarts (CompactionCheckpoints ns) (zlen ns)) as Hs.
  { rewrite Hlen. unfold checkpointSegmentStarts. f_equal. induction Hc as [|c d cs ds Hcd _ IH]; [done|]. cbn. by rewrite (segmentStart_rel _ _ Hcd), IH. }
  rewrite Hs. destruct (checkpointSegmentStarts _ (zlen ns)) as [|first starts]; [rewrite Hlen; constructor; [by apply plainSegment_rel|constructor]|].
  eapply outcomeRel_bind; [by apply segmentsLoop_rel|]. intros xs ys Hxy. cbn. apply newestFirst_rel, Forall2_app; [|done]. case_match; [|constructor].
  constructor; [by apply plainSegment_rel|constructor].
Qed.

Lemma insertSegment_rel s t ss ts : segmentRel s t -> Forall2 segmentRel ss ts -> Forall2 segmentRel (insertSegment s ss) (insertSegment t ts).
Proof.
  intros Hst. induction 1 as [|x y ss ts Hxy Hrest IH]; cbn [insertSegment]; [constructor; [done|constructor]|].
  pose proof Hst as (E1 & _). pose proof Hxy as (E2 & _). rewrite E1, E2. case_match; [constructor; [done|by constructor]|by constructor].
Qed.

Lemma sortSegments_rel ss ts : Forall2 segmentRel ss ts -> Forall2 segmentRel (sortSegments ss) (sortSegments ts).
Proof.
  intros H. unfold sortSegments. assert (forall acc acc', Forall2 segmentRel acc acc' -> Forall2 segmentRel (foldl (fun sorted segment => insertSegment segment sorted) acc ss)
    (foldl (fun sorted segment => insertSegment segment sorted) acc' ts)) as Hgo; [|by apply Hgo].
  induction H as [|s t ss ts Hst _ IH]; intros acc acc' Hacc; [done|]. cbn [foldl]. apply IH. by apply insertSegment_rel.
Qed.

Lemma SelectCompactionSegments_rel ss ts selector : Forall2 segmentRel ss ts ->
  outcomeRel selectionRel (SelectCompactionSegments ss selector) (SelectCompactionSegments ts selector).
Proof.
  intros H. unfold SelectCompactionSegments. rewrite (Forall2_length _ _ _ H). case_match; [done|].
  assert (maxCompactionSegmentIndex ss = maxCompactionSegmentIndex ts) as ->.
  { unfold maxCompactionSegmentIndex. generalize 0. clear - H. induction H as [|s t ss ts (E & _) _ IH]; intros m; [done|]. cbn [foldl]. rewrite E. apply IH. }
  eapply (outcomeRel_bind eq); [by apply outcomeRel_refl|]. intros indices ? <-.
  set (ss' := filter _ ss). set (ts' := filter _ ts). assert (Forall2 segmentRel ss' ts') as Hf.
  { subst ss' ts'. clear - H. induction H as [|s t ss ts Hst _ IH]; [constructor|]. rewrite !filter_cons. destruct Hst as (E & Hst).
    case_decide as D1; case_decide as D2; try done; try (rewrite E in D1; done). by constructor. }
  rewrite (Forall2_length _ _ _ Hf). case_match; [done|]. split; [done|]. by apply sortSegments_rel.
Qed.
End relate.
