(* ===== verification/ExSpec.v ===== *)
(** * ExSpec: an export shows nothing that was not selected

    [messageAlike] relates two messages that agree on everything the content kinds select:
    the texts, thinking, tool calls, raw copies and segments of injected transcripts that are
    not selected may differ.  A filtered export cannot tell such conversations apart
    ([export_noninterference]); the newest messages that it keeps are exactly the asked ones
    ([applyLastN_exact]). *)

From S2P Require Import Prelude GoUtf8 GoStrconv GoText RtSegments CvKinds CvRecord CvCompaction TrMessage TrShape ExFilter ExExport ExRelate.

Open Scope Z_scope.

Section alike.
Context (content : ContentKindSet).

(** ** What the content kinds show *)

(** Of a segment of an injected transcript: by its kind; a tool call without its text unless
    the detail of calls is selected. *)
Definition seenSegment (s : Segment) : option Segment :=
  let kind := seg_Kind s in
  if bool_decide (kind = SegmentKindThinking) then (if Has content ContentKindThinking then Some s else None)
  else if bool_decide (kind = SegmentKindToolCall) then
    if Has content ContentKindToolCalls || Has content ContentKindToolOutputs then Some s
    else if Has content ContentKindToolSummaries then Some (RtSegments.MkSegment (seg_Role s) kind []) else None
  else if bool_decide (kind = SegmentKindToolOutput) then (if Has content ContentKindToolOutputs then Some s else None)
  else if bool_decide (kind = SegmentKindSystem) then (if Has content ContentKindSystemPrompts then Some s else None)
  else if bool_decide (kind = SegmentKindChat) then
    if bool_decide (seg_Role s = lit "developer") || bool_decide (seg_Role s = lit "system")
    then (if Has content ContentKindSystemPrompts then Some s else None)
    else (if Has content ContentKindChat then Some s else None)
  else (if Has content ContentKindRawJSONMetadata then Some s else None).

(** Of a text with injected transcripts: the prose around them and their segments. *)
Definition seenText (text : bytes) (spans : list TranscriptSpan) : outcome exportError (list (bytes * list Segment) * bytes) :=
  '(pieces, rest) ← piecesLoop text 0 spans;
  Ok (map (fun piece : bytes * list Segment => (piece.1, omap seenSegment piece.2)) pieces, rest).

(** ** Messages that agree on what is shown *)

Definition partAlike (p q : MessageTextPart) : Prop :=
  tp_InjectedTranscript p = tp_InjectedTranscript q /\
  (tp_InjectedTranscript p = false -> Has content ContentKindChat = true -> tp_Text p = tp_Text q) /\
  (tp_InjectedTranscript p = true -> length (tp_TranscriptSpans p) = length (tp_TranscriptSpans q) /\
     seenText (tp_Text p) (tp_TranscriptSpans p) = seenText (tp_Text q) (tp_TranscriptSpans q) /\
     Forall2 (fun a b => omap seenSegment (span_Segments a) = omap seenSegment (span_Segments b)) (tp_TranscriptSpans p) (tp_TranscriptSpans q)).

(** A content item of a message; [shown]: the message is selected. *)
Definition contentAlike (message : CompactedMessageItem) (shown : bool) (x y : CompactedMessageContentItem) : Prop :=
  let resolve c := resolveInjectedTranscriptSpans c (messageTranscriptResolvers message) in
  ct_UnresolvedTranscript x = ct_UnresolvedTranscript y /\
  (shown = true -> ct_Type x = ct_Type y /\ ct_Detail x = ct_Detail y /\ 
     (ct_ImageURL x = ct_ImageURL y \/ HasPrefix (ct_ImageURL x) compactedDataURLPrefix = true /\ HasPrefix (ct_ImageURL y) compactedDataURLPrefix = true)) /\
  length (resolve x) = length (resolve y) /\
  (resolve x = [] -> shown || isSummary message = true -> ct_Text x = ct_Text y) /\
  (resolve x <> [] -> seenText (ct_Text x) (resolve x) = seenText (ct_Text y) (resolve y)).

(** Raw copies are never shown. *)
Inductive itemAlike : CompactedContextItem -> CompactedContextItem -> Prop :=
| messagesAlike m n : mi_Role m = mi_Role n -> mi_MessageClass m = mi_MessageClass n ->
    (compactedMessageSelected (Some m) content = true -> mi_Phase m = mi_Phase n) ->
    Forall2 (contentAlike m (compactedMessageSelected (Some m) content)) (mi_Content m) (mi_Content n) ->
    itemAlike (messageItem m) (messageItem n)
| reasoningAlike r s :
    (Has content ContentKindThinking = true -> ri_ContentRaw r = ri_ContentRaw s /\
       Forall2 (fun a b => rs_Type a = rs_Type b /\ rs_Text a = rs_Text b) (ri_Summary r) (ri_Summary s)) ->
    itemAlike (reasoningItem r) (reasoningItem s)
| functionCallsAlike c d :
    (hasToolContent content = true -> fc_Name c = fc_Name d /\ fc_Namespace c = fc_Namespace d /\ fc_CallID c = fc_CallID d) ->
    (hasToolDetail content = true -> fc_Arguments c = fc_Arguments d) ->
    itemAlike (functionCallItem c) (functionCallItem d)
| functionCallOutputsAlike c d :
    (Has content ContentKindToolOutputs = true -> fo_CallID c = fo_CallID d /\ fo_OutputRaw c = fo_OutputRaw d) ->
    itemAlike (functionCallOutputItem c) (functionCallOutputItem d)
| localShellCallsAlike c d :
    (hasToolContent content = true -> ls_CallID c = ls_CallID d /\ ls_Status c = ls_Status d) ->
    (hasToolDetail content = true -> ls_ActionRaw c = ls_ActionRaw d) ->
    itemAlike (MkItem CompactedContextItemKindLocalShellCall None None (Some c) None None None None None None None None None None None None)
              (MkItem CompactedContextItemKindLocalShellCall None None (Some d) None None None None None None None None None None None None)
| toolSearchCallsAlike c d :
    (hasToolContent content = true -> tsc_CallID c = tsc_CallID d /\ tsc_Status c = tsc_Status d /\ tsc_Execution c = tsc_Execution d) ->
    (hasToolDetail content = true -> tsc_ArgumentsRaw c = tsc_ArgumentsRaw d) ->
    itemAlike (MkItem CompactedContextItemKindToolSearchCall None None None None (Some c) None None None None None None None None None None)
              (MkItem CompactedContextItemKindToolSearchCall None None None None (Some d) None None None None None None None None None None)
| customToolCallsAlike c d :
    (hasToolContent content = true -> cc_CallID c = cc_CallID d /\ cc_Name c = cc_Name d /\ cc_Status c = cc_Status d) ->
    (hasToolDetail content = true -> cc_Input c = cc_Input d) ->
    itemAlike (MkItem CompactedContextItemKindCustomToolCall None None None None None None (Some c) None None None None None None None None)
              (MkItem CompactedContextItemKindCustomToolCall None None None None None None (Some d) None None None None None None None None)
| customToolCallOutputsAlike c d :
    (Has content ContentKindToolOutputs = true -> co_CallID c = co_CallID d /\ co_Name c = co_Name d /\ co_OutputRaw c = co_OutputRaw d) ->
    itemAlike (MkItem CompactedContextItemKindCustomToolCallOutput None None None None None None None (Some c) None None None None None None None)
              (MkItem CompactedContextItemKindCustomToolCallOutput None None None None None None None (Some d) None None None None None None None)
| toolSearchOutputsAlike c d :
    (Has content ContentKindToolOutputs = true -> tso_CallID c = tso_CallID d /\ tso_Status c = tso_Status d /\
       tso_Execution c = tso_Execution d /\ tso_ToolsRaw c = tso_ToolsRaw d) ->
    itemAlike (MkItem CompactedContextItemKindToolSearchOutput None None None None None None None None (Some c) None None None None None None)
              (MkItem CompactedContextItemKindToolSearchOutput None None None None None None None None (Some d) None None None None None None)
| webSearchCallsAlike c d :
    (hasToolContent content = true -> ws_ID c = ws_ID d /\ ws_Status c = ws_Status d) ->
    (hasToolDetail content = true -> ws_ActionRaw c = ws_ActionRaw d) ->
    itemAlike (MkItem CompactedContextItemKindWebSearchCall None None None None None None None None None (Some c) None None None None None)
              (MkItem CompactedContextItemKindWebSearchCall None None None None None None None None None (Some d) None None None None None)
| imageGenerationCallsAlike c d :
    (hasToolContent content = true -> ig_ID c = ig_ID d /\ ig_Status c = ig_Status d) ->
    (hasToolDetail content = true -> ig_RevisedPrompt c = ig_RevisedPrompt d) ->
    itemAlike (MkItem CompactedContextItemKindImageGenerationCall None None None None None None None None None None (Some c) None None None None)
              (MkItem CompactedContextItemKindImageGenerationCall None None None None None None None None None None (Some d) None None None None)
| hiddenAlike i j : it_Kind i = it_Kind j ->
    match it_Kind i with
    | CompactedContextItemKindCompaction | CompactedContextItemKindCompactionTrigger | CompactedContextItemKindContextCompaction
    | CompactedContextItemKindOther | CompactedContextItemKindUnknown _ => True
    | _ => False
    end -> itemAlike i j.

(** The text of a message when the kinds have been applied to its parts. *)
Definition shownText (isPrint : Z -> bool) (m : TranscriptMessage) : bytes :=
  match tm_TextParts m with
  | [] => if Has content ContentKindChat then tm_Text m else []
  | (_ :: _) as parts => filterLiveTextParts isPrint parts content
  end.

(** The text of a summary is read with the spans of the item that carries the same text. *)
Definition seenSummary (isPrint : Z -> bool) (m : TranscriptMessage) (md : CompactionMetadata) :=
  let text := shownText isPrint m in
  seenText text (resolveInjectedTranscriptSpans (summaryContentItemForText text (cmd_ContextItems md)) injectedTranscriptResolvers).

Definition compactionAlike (isPrint : Z -> bool) (m n : TranscriptMessage) (x y : CompactionMetadata) : Prop :=
  setMetadataItems [] x = setMetadataItems [] y /\ Forall2 itemAlike (cmd_ContextItems x) (cmd_ContextItems y) /\
  (isSummaryMetadata x = true -> seenSummary isPrint m x = seenSummary isPrint n y).

Record messageAlike (isPrint : Z -> bool) (m n : TranscriptMessage) : Prop := {
  ma_UUID : tm_UUID m = tm_UUID n;
  ma_ParentUUID : tm_ParentUUID m = tm_ParentUUID n;
  ma_LogicalParentUUID : tm_LogicalParentUUID m = tm_LogicalParentUUID n;
  ma_Role : tm_Role m = tm_Role n;
  ma_Visibility : tm_Visibility m = tm_Visibility n;
  ma_Timestamp : tm_Timestamp m = tm_Timestamp n;
  ma_Attachments : tm_Attachments m = tm_Attachments n;
  ma_Thinking : Has content ContentKindThinking = true -> tm_Thinking m = tm_Thinking n;
  ma_Tools : hasToolContent content = true -> tm_HasTools m = tm_HasTools n /\ tm_Tools m = tm_Tools n;
  ma_ToolCount : length (tm_Tools m) = length (tm_Tools n);
  ma_TextParts : Forall2 partAlike (tm_TextParts m) (tm_TextParts n);
  ma_Text : Has content ContentKindChat = true -> tm_TextParts m = [] -> 
    match tm_Compaction m with Some md => isSummaryMetadata md | None => false end = false -> tm_Text m = tm_Text n;
  ma_Compaction : option_Forall2 (compactionAlike isPrint m n) (tm_Compaction m) (tm_Compaction n);
}.
End alike.

(** ** What an export computes is a function of what is shown *)

Section shown.
Context (content : ContentKindSet) (isPrint : Z -> bool) (Hraw : Has content ContentKindRawJSONMetadata = false).

(** The text of a tool call is not shown without the detail of calls. *)
Definition blankCall (s : Segment) : Segment :=
  if bool_decide (seg_Kind s = SegmentKindToolCall) && negb (hasToolDetail content) then RtSegments.MkSegment (seg_Role s) (seg_Kind s) [] else s.

Lemma seenSegment_selected s : seenSegment content s = if compactedItemSelected (injectedSegmentItem s) content then Some (blankCall s) else None.
Proof.
  unfold compactedItemSelected, injectedSegmentItem, seenSegment, blankCall, hasToolContent, hasToolDetail.
  destruct (bool_decide (seg_Kind s = SegmentKindThinking)) eqn:E1; cbn [it_Kind reasoningItem].
  { apply bool_decide_eq_true in E1. rewrite E1. by destruct (Has content ContentKindThinking). }
  destruct (bool_decide (seg_Kind s = SegmentKindToolCall)) eqn:E2; cbn [it_Kind functionCallItem].
  { by destruct (Has content ContentKindToolSummaries), (Has content ContentKindToolCalls), (Has content ContentKindToolOutputs). }
  destruct (bool_decide (seg_Kind s = SegmentKindToolOutput)) eqn:E3; cbn [it_Kind functionCallOutputItem andb]; [done|].
  destruct (bool_decide (seg_Kind s = SegmentKindSystem)) eqn:E4; cbn [it_Kind injectedMessageItem messageItem it_Message]; [done|].
  destruct (bool_decide (seg_Kind s = SegmentKindChat)) eqn:E5; cbn [it_Kind injectedMessageItem injectedOtherItem otherItem messageItem it_Message]; [|done].
  unfold compactedMessageSelected. cbn [mi_MessageClass mi_Role].
  change (bool_decide (CompactedMessageClassOrdinary = CompactedMessageClassSummary)) with false. cbv iota.
  change compactedRoleDeveloper with (lit "developer"). change compactedRoleSystem with (lit "system").
  by destruct (bool_decide (seg_Role s = lit "developer") || bool_decide (seg_Role s = lit "system")).
Qed.

Lemma selected_seen segments : selectedInjectedSegments segments content = omap (seenSegment content) segments.
Proof.
  unfold selectedInjectedSegments. induction segments as [|s segments IH]; [done|]. rewrite filter_cons. cbn [omap list_omap]. rewrite seenSegment_selected.
  destruct (compactedItemSelected (injectedSegmentItem s) content); case_decide; try done. cbn [map]. by rewrite IH.
Qed.

(** The refusal. *)
Lemma unresolved_seen c : unresolvedInjectedTranscript c =
  '(pieces, rest) ← seenText content (ct_Text c) (resolveInjectedTranscriptSpans c injectedTranscriptResolvers);
  Ok (ContainsTranscriptWrapper (concat (map fst pieces) ++ rest)).
Proof.
  unfold unresolvedInjectedTranscript, seenText. destruct (piecesLoop _ _ _) as [[pieces rest]| |]; [|done|done]. cbn. do 4 f_equal.
  by rewrite map_map.
Qed.

(** The text of a summary. *)
Lemma cutText_whole text : cutText text 0 (length text) = Ok text.
Proof. unfold cutText. rewrite Nat.leb_refl. cbn [Nat.leb andb]. by rewrite drop_0, Nat.sub_0_r, firstn_all. Qed.

Lemma filterText_seen text items : filterInjectedTranscriptText isPrint text items content =
  '(pieces, rest) ← seenText content text (resolveInjectedTranscriptSpans (summaryContentItemForText text items) injectedTranscriptResolvers);
  Ok (concat (map (fun piece : bytes * list Segment => piece.1 ++ FramedTranscript isPrint piece.2) pieces) ++ rest).
Proof.
  unfold filterInjectedTranscriptText, seenText. destruct (resolveInjectedTranscriptSpans _ _) as [|span spans].
  { cbn [piecesLoop]. by rewrite cutText_whole. }
  destruct (piecesLoop _ _ _) as [[pieces rest]| |]; [|done|done]. cbn. do 2 f_equal. rewrite map_map. f_equal. apply map_ext. intros [prose segments].
  by rewrite selected_seen.
Qed.

(** ** Items *)

Definition shown (items : list CompactedContextItem) : list CompactedContextItem :=
  map (reduceItem content) (filter (fun item => compactedItemSelected item content = true) items).

Lemma shown_app items items' : shown (items ++ items') = shown items ++ shown items'.
Proof. unfold shown. by rewrite filter_app, map_app. Qed.

Lemma shown_one item : shown [item] = if compactedItemSelected item content then [reduceItem content item] else [].
Proof. unfold shown. rewrite filter_cons, filter_nil. destruct (compactedItemSelected item content); by case_decide. Qed.

Lemma shown_segments segments : shown (map injectedSegmentItem segments) = map (fun s => reduceItem content (injectedSegmentItem s)) (omap (seenSegment content) segments).
Proof.
  induction segments as [|s segments IH]; [done|]. cbn [map omap list_omap].
  change (injectedSegmentItem s :: map injectedSegmentItem segments) with ([injectedSegmentItem s] ++ map injectedSegmentItem segments).
  rewrite shown_app, IH, shown_one, seenSegment_selected.
  destruct (compactedItemSelected (injectedSegmentItem s) content); [|done]. cbn [map app]. f_equal. unfold blankCall.
  destruct (bool_decide (seg_Kind s = SegmentKindToolCall)) eqn:E; [|done]. apply bool_decide_eq_true in E. destruct (hasToolDetail content) eqn:Ed; [done|]. cbn [andb negb].
  unfold injectedSegmentItem, reduceItem. cbn [seg_Kind]. by rewrite E, Ed.
Qed.

(** The loop over the pieces of a content item. *)
Fixpoint expandPieces (message : CompactedMessageItem) (source : CompactedMessageContentItem) (pieces : list (bytes * list Segment)) (rest : bytes)
  (expanded : list CompactedContextItem) (prose : list CompactedMessageContentItem) : list CompactedContextItem * list CompactedMessageContentItem :=
  match pieces with
  | [] => (expanded, appendSummaryProse prose source rest)
  | (text, segments) :: pieces =>
      expandPieces message source pieces rest (appendSummaryItem expanded message (appendSummaryProse prose source text) ++ map injectedSegmentItem segments) []
  end.

Lemma expandSpans_pieces message source prev spans expanded prose : expandSpans message source prev spans expanded prose =
  '(pieces, rest) ← piecesLoop (ct_Text source) prev spans; Ok (expandPieces message source pieces rest expanded prose).
Proof.
  revert prev expanded prose. induction spans as [|span spans IH]; intros prev expanded prose; cbn [expandSpans piecesLoop].
  { by destruct (cutText _ _ _). }
  destruct (cutText _ _ _) as [text| |]; [|done|done]. cbn. rewrite IH. by destruct (piecesLoop _ _ _) as [[pieces rest]| |].
Qed.

Lemma shown_messageItem m : shown [messageItem m] = if compactedMessageSelected (Some m) content then [messageItem (compactedMessageWithoutRaw m)] else [].
Proof.
  rewrite shown_one. change (compactedItemSelected (messageItem m) content) with (compactedMessageSelected (Some m) content).
  destruct (compactedMessageSelected _ _); [|done]. unfold reduceItem. by destruct (hasToolDetail content).
Qed.

(** The expansions of two messages that agree on what is shown. *)
Section message.
Context (m n : CompactedMessageItem) (Hrole : mi_Role m = mi_Role n) (Hclass : mi_MessageClass m = mi_MessageClass n).
Abbreviation selected := (compactedMessageSelected (Some m) content).
Context (Hphase : selected = true -> mi_Phase m = mi_Phase n).

(** Prose that is shown the same. *)
Definition proseAlike (p q : list CompactedMessageContentItem) : Prop := selected = true -> map contentWithoutRaw p = map contentWithoutRaw q.

(** The fields of a content item besides its text. *)
Definition sourceAlike (x y : CompactedMessageContentItem) : Prop := selected = true ->
  ct_Type x = ct_Type y /\ ct_Detail x = ct_Detail y /\ ct_UnresolvedTranscript x = ct_UnresolvedTranscript y /\
  (if HasPrefix (ct_ImageURL x) compactedDataURLPrefix then [] else ct_ImageURL x) = (if HasPrefix (ct_ImageURL y) compactedDataURLPrefix then [] else ct_ImageURL y).

Lemma selected_other p q : compactedMessageSelected (Some (MkMessageItem (mi_Role n) p q [] (mi_MessageClass n) [])) content = selected.
Proof. unfold compactedMessageSelected. cbn. by rewrite Hrole, Hclass. Qed.

Lemma appendSummaryItem_alike e e' p q : shown e = shown e' -> proseAlike p q -> shown (appendSummaryItem e m p) = shown (appendSummaryItem e' n q).
Proof.
  intros He Hp. unfold proseAlike in Hp. assert (forall e m p, shown (appendSummaryItem e m p) = shown e ++
    match p with [] => [] | _ :: _ => shown [messageItem (MkMessageItem (mi_Role m) (mi_Phase m) p [] (mi_MessageClass m) [])] end) as H.
  { intros e0 m0 p0. destruct p0; cbn [appendSummaryItem]; [by rewrite app_nil_r|by rewrite shown_app]. }
  rewrite !H, He. f_equal. assert (compactedMessageSelected (Some (MkMessageItem (mi_Role m) (mi_Phase m) p [] (mi_MessageClass m) [])) content = selected) as Hm by done.
  destruct p as [|x p], q as [|y q]; [done|..]; rewrite ?shown_messageItem, ?Hm, ?selected_other; destruct selected eqn:Es; try done; specialize (Hp eq_refl); try done.
  unfold compactedMessageWithoutRaw. cbn [mi_Role mi_Phase mi_Content mi_MessageClass]. by rewrite Hp, Hrole, Hclass, (Hphase eq_refl).
Qed.

Lemma appendSummaryProse_alike p q x y text : proseAlike p q -> sourceAlike x y -> proseAlike (appendSummaryProse p x text) (appendSummaryProse q y text).
Proof.
  intros Hp Hs H. specialize (Hp H). destruct (Hs H) as (H1 & H2 & H3 & H4). unfold appendSummaryProse. destruct (bool_decide _); [done|].
  rewrite !map_app, Hp. cbn [map]. f_equal. unfold contentWithoutRaw. cbn [ct_Type ct_Text ct_ImageURL ct_Detail ct_UnresolvedTranscript ct_TranscriptSpans]. by rewrite H1, H2, H3, H4.
Qed.

Lemma expandPieces_alike pieces pieces' rest e e' p q x y :
  map (fun piece : bytes * list Segment => (piece.1, omap (seenSegment content) piece.2)) pieces =
  map (fun piece : bytes * list Segment => (piece.1, omap (seenSegment content) piece.2)) pieces' ->
  shown e = shown e' -> proseAlike p q -> sourceAlike x y ->
  shown (expandPieces m x pieces rest e p).1 = shown (expandPieces n y pieces' rest e' q).1 /\
  proseAlike (expandPieces m x pieces rest e p).2 (expandPieces n y pieces' rest e' q).2.
Proof.
  revert pieces' e e' p q. induction pieces as [|[text segments] pieces IH]; intros [|[text' segments'] pieces'] e e' p q Hpieces He Hp Hs; try done; cbn [expandPieces].
  { split; [done|]. by apply appendSummaryProse_alike. }
  injection Hpieces as <- Hseg Hpieces. apply IH; [done| |done|done].
  rewrite !shown_app, !shown_segments, Hseg. f_equal. apply appendSummaryItem_alike; [done|]. by apply appendSummaryProse_alike.
Qed.

Lemma contentAlike_source x y : contentAlike content m selected x y -> sourceAlike x y.
Proof. intros (H1 & H2 & _) Hs. destruct (H2 Hs) as (T & D & [I|[I J]]); split_and!; try done; [by rewrite I|by rewrite I, J]. Qed.

Lemma resolvers_same : messageTranscriptResolvers m = messageTranscriptResolvers n.
Proof. unfold messageTranscriptResolvers, isSummary. by rewrite Hclass. Qed.

Lemma resolve_parsed c : resolveInjectedTranscriptSpans c (messageTranscriptResolvers m) = [] -> ct_TranscriptSpans c = [].
Proof. unfold messageTranscriptResolvers. destruct (isSummary m); cbn; by destruct (ct_TranscriptSpans c). Qed.

Definition expansionRel (a b : list CompactedContextItem * list CompactedMessageContentItem * bool) : Prop :=
  shown a.1.1 = shown b.1.1 /\ proseAlike a.1.2 b.1.2 /\ a.2 = b.2.

Lemma expandContents_alike xs ys e e' p q r : Forall2 (contentAlike content m selected) xs ys -> shown e = shown e' -> proseAlike p q ->
  outcomeRel expansionRel (expandContents m xs e p r) (expandContents n ys e' q r).
Proof.
  intros H. revert e e' p q r. induction H as [|x y xs ys Hxy _ IH]; intros e e' p q r He Hp; cbn [expandContents]; [by split_and!|].
  rewrite <- resolvers_same. pose proof (contentAlike_source _ _ Hxy) as Hsrc. destruct Hxy as (_ & _ & Hlen & Htext & Hseen).
  pose proof (resolve_parsed x) as Px. pose proof (resolve_parsed y) as Py.
  destruct (resolveInjectedTranscriptSpans x _) as [|a spans], (resolveInjectedTranscriptSpans y _) as [|b spans']; try done.
  - apply IH; [done|]. intros Hs. specialize (Hp Hs). rewrite !map_app, Hp. cbn [map]. f_equal. f_equal. destruct (Hsrc Hs) as (H1 & H2 & H3 & H4).
    unfold contentWithoutRaw. by rewrite H1, H2, H3, H4, (Px eq_refl), (Py eq_refl), (Htext eq_refl) by (by rewrite Hs).
  - specialize (Hseen ltac:(done)). rewrite !expandSpans_pieces. unfold seenText in Hseen.
    destruct (piecesLoop (ct_Text x) _ _) as [[pieces rest]| |], (piecesLoop (ct_Text y) _ _) as [[pieces' rest']| |]; cbn in Hseen |- *; try done; [|congruence].
    injection Hseen as Hpieces <-. destruct (expandPieces_alike pieces pieces' rest e e' p q x y) as [H1 H2]; try done.
    destruct (expandPieces m x pieces rest e p), (expandPieces n y pieces' rest e' q). by apply IH.
Qed.

Lemma expandContents_resolved (k : CompactedMessageItem) xs e p e' p' r : expandContents k xs e p true = Ok (e', p', r) -> r = true.
Proof.
  revert e p. induction xs as [|x xs IH]; intros e p; cbn [expandContents]; [by intros [= _ _ <-]|]. destruct (resolveInjectedTranscriptSpans _ _); [apply IH|].
  destruct (expandSpans _ _ _ _ _ _) as [[e1 p1]| |]; [|done|done]. apply IH.
Qed.

Lemma expandContents_unresolved (k : CompactedMessageItem) xs e p e' p' : expandContents k xs e p false = Ok (e', p', false) -> p' = p ++ xs.
Proof.
  revert e p. induction xs as [|x xs IH]; intros e p; cbn [expandContents]; [intros [= _ <-]; by rewrite app_nil_r|]. destruct (resolveInjectedTranscriptSpans _ _).
  - intros H. rewrite (IH _ _ H). by rewrite <- app_assoc.
  - destruct (expandSpans _ _ _ _ _ _) as [[e1 p1]| |]; [|done|done]. intros H. by apply expandContents_resolved in H.
Qed.

Lemma expandItem_alike : Forall2 (contentAlike content m selected) (mi_Content m) (mi_Content n) ->
  outcomeRel (fun a b => shown a = shown b) (expandInjectedTranscriptItem (messageItem m)) (expandInjectedTranscriptItem (messageItem n)).
Proof.
  intros H. pose proof (expandContents_alike _ _ [] [] [] [] false H eq_refl ltac:(done)) as He. unfold expandInjectedTranscriptItem. cbn [it_Kind it_Message messageItem].
  pose proof (expandContents_unresolved m (mi_Content m) [] []) as Um. pose proof (expandContents_unresolved n (mi_Content n) [] []) as Un.
  destruct (expandContents m _ _ _ _) as [[[e p] r]| |], (expandContents n _ _ _ _) as [[[e' p'] r']| |]; cbn in He |- *; try done.
  destruct He as (He & Hp & Hr). cbn in He, Hp, Hr. subst r'. destruct r; [by apply appendSummaryItem_alike|].
  specialize (Um _ _ eq_refl). specialize (Un _ _ eq_refl). cbn [app] in Um, Un. subst p p'. rewrite !shown_messageItem.
  assert (compactedMessageSelected (Some n) content = selected) as -> by (unfold compactedMessageSelected; by rewrite Hrole, Hclass).
  destruct selected eqn:Es; [|done]. unfold compactedMessageWithoutRaw. specialize (Hp ltac:(done)). by rewrite Hp, Hrole, Hclass, (Hphase eq_refl).
Qed.
End message.

Lemma containsFunc_alike {A} (test test' : A -> outcome exportError bool) xs ys :
  Forall2 (fun x y => test x = test' y) xs ys -> containsFunc test xs = containsFunc test' ys.
Proof. induction 1 as [|x y xs ys E _ IH]; [done|]. cbn [containsFunc]. by rewrite E, IH. Qed.

Lemma kind_alike i j : itemAlike content i j -> it_Kind i = it_Kind j.
Proof. by destruct 1. Qed.

(** An item of another kind than messages is kept as it is. *)
Lemma expand_other i : it_Kind i <> CompactedContextItemKindMessage -> expandInjectedTranscriptItem i = Ok [i].
Proof. unfold expandInjectedTranscriptItem. by destruct (it_Kind i). Qed.

Lemma reasoning_reduced r s : ri_ContentRaw r = ri_ContentRaw s -> Forall2 (fun a b => rs_Type a = rs_Type b /\ rs_Text a = rs_Text b) (ri_Summary r) (ri_Summary s) ->
  compactedReasoningWithoutRaw r = compactedReasoningWithoutRaw s.
Proof.
  intros Hc Hs. unfold compactedReasoningWithoutRaw. rewrite Hc. f_equal. induction Hs as [|a b ss ts [E1 E2] _ IH]; [done|]. cbn [map]. by rewrite E1, E2, IH.
Qed.

Lemma shown_alike i j : itemAlike content i j -> it_Kind i <> CompactedContextItemKindMessage -> shown [i] = shown [j].
Proof.
  intros H Hk. rewrite !shown_one. unfold compactedItemSelected. rewrite <- (kind_alike _ _ H). unfold reduceItem.
  destruct (hasToolDetail content) eqn:Ed; destruct H as [| r s Hs | c d Hc Hd | c d Hc | c d Hc Hd | c d Hc Hd | c d Hc Hd | c d Hc | c d Hc | c d Hc Hd | c d Hc Hd | i j Hij Hkind];
    cbn [it_Kind messageItem reasoningItem functionCallItem functionCallOutputItem] in *; try done; try (by destruct (it_Kind i); rewrite ?Hraw);
    match goal with |- (if ?b then _ else _) = _ => destruct b; [|done] end; try specialize (Hd Ed); try specialize (Hc eq_refl); try specialize (Hs eq_refl).
  1,11: destruct Hs as [H1 H2]; unfold compactedItemWithoutRaw, reasoningItem; cbn [it_Reasoning fmap option_fmap option_map]; by rewrite (reasoning_reduced _ _ H1 H2).
  all: destruct c, d; cbn in Hc; try (cbn in Hd); destruct_and?; subst; reflexivity.
Qed.

Lemma expand_alike i j : itemAlike content i j -> outcomeRel (fun a b => shown a = shown b) (expandInjectedTranscriptItem i) (expandInjectedTranscriptItem j).
Proof.
  intros H. assert (it_Kind i = CompactedContextItemKindMessage \/ it_Kind i <> CompactedContextItemKindMessage) as [E|E] by (destruct (it_Kind i); first [by left|by right]).
  - destruct H as [m n H1 H2 H3 H4| | | | | | | | | | |i j Hk Hi]; cbn in E; try done; [|by rewrite E in Hi]. by apply expandItem_alike.
  - rewrite !expand_other by (by rewrite <- ?(kind_alike _ _ H)). by apply shown_alike.
Qed.

Lemma filterItems_alike xs ys : Forall2 (itemAlike content) xs ys -> filterCompactionContextItems xs content = filterCompactionContextItems ys content.
Proof.
  intros H. unfold filterCompactionContextItems. rewrite Hraw. apply outcomeRel_eq. eapply (outcomeRel_bind (fun a b => shown a = shown b)); [|intros a b E; exact E].
  induction H as [|x y xs ys Hxy _ IH]; [done|]. cbn [expandInjectedTranscriptItems]. eapply outcomeRel_bind; [by apply expand_alike|]. intros a b Hab.
  eapply outcomeRel_bind; [exact IH|]. intros a' b' Hab'. cbn. by rewrite !shown_app, Hab, Hab'.
Qed.

Lemma unresolvedItem_alike i j : itemAlike content i j -> unresolvedItem i = unresolvedItem j.
Proof.
  intros H. pose proof (kind_alike _ _ H) as Hkind. destruct H as [m n H1 H2 H3 H4| | | | | | | | | | |i j Hk Hi]; try done.
  2: { unfold unresolvedItem. rewrite <- Hk. by destruct (it_Kind i). }
  unfold unresolvedItem. cbn [it_Kind it_Message messageItem]. assert (isSummary n = isSummary m) as -> by (unfold isSummary; by rewrite H2).
  apply containsFunc_alike. eapply Forall2_impl; [exact H4|]. intros x y (U & _ & L & T & S). destruct (isSummary m) eqn:Es; [|unfold unresolvedParsedTranscript; by rewrite U].
  rewrite !unresolved_seen. unfold messageTranscriptResolvers in *. rewrite Es in *.
  destruct (resolveInjectedTranscriptSpans x _) as [|a spans], (resolveInjectedTranscriptSpans y _) as [|b spans']; try done; [|by rewrite S].
  rewrite orb_true_r in T. by rewrite (T eq_refl eq_refl).
Qed.

(** ** Selections *)

Abbreviation alikeSelection := (selectionRel (itemAlike content)).

Lemma filterSelection_alike s t : alikeSelection s t -> filterCompactionSelectionItems s content = filterCompactionSelectionItems t content.
Proof.
  intros [H1 H2]. unfold filterCompactionSelectionItems. rewrite H1. assert (filterSegments content (sel_Segments s) = filterSegments content (sel_Segments t)) as ->; [|done].
  induction H2 as [|x y xs ys Hxy _ IH]; [done|]. cbn [filterSegments]. destruct Hxy as (E1 & E2 & E3 & E4 & E5 & E6 & E7 & E8 & E9 & C1 & C2 & C3 & C4 & C5 & C6 & C7 & C8 & C9 & C10 & C11).
  rewrite (filterItems_alike _ _ C5), IH. apply outcome_bind_ext. intros items. apply outcome_bind_ext. intros rest. f_equal. f_equal.
  unfold setCheckpoint, setCheckpointItems. by rewrite E1, E2, E3, E4, E5, E6, E7, E8, E9, C1, C2, C3, C4, C6, C7, C8, C9, C10, C11.
Qed.

Lemma unresolvedSummary_alike s t : alikeSelection s t -> unresolvedInjectedTranscriptSummary s = unresolvedInjectedTranscriptSummary t.
Proof.
  intros [_ H]. unfold unresolvedInjectedTranscriptSummary. induction H as [|x y xs ys Hxy _ IH]; [done|]. cbn [unresolvedSegments].
  destruct Hxy as (_ & _ & _ & E4 & _ & E6 & _ & _ & _ & _ & _ & _ & _ & C5 & _). rewrite E4, E6, IH.
  assert (containsFunc unresolvedItem (cp_ContextItems (sg_Checkpoint x)) = containsFunc unresolvedItem (cp_ContextItems (sg_Checkpoint y))) as ->; [|done].
  apply containsFunc_alike. eapply Forall2_impl; [exact C5|]. apply unresolvedItem_alike.
Qed.

(** ** Messages *)

Lemma selectedLiveText_alike p q : partAlike content p q -> selectedLiveText isPrint p content = selectedLiveText isPrint q content.
Proof.
  intros (H1 & H2 & H3). unfold selectedLiveText. rewrite <- H1. destruct (tp_InjectedTranscript p); cbn [negb].
  - destruct (H3 eq_refl) as (_ & _ & Hs). clear H3. do 2 f_equal. induction Hs as [|a b xs ys E _ IH]; [done|]. cbn [map]. by rewrite !selected_seen, E, IH.
  - destruct (Has content ContentKindChat); [by apply H2|done].
Qed.

Lemma liveText_alike ps qs : Forall2 (partAlike content) ps qs -> filterLiveTextParts isPrint ps content = filterLiveTextParts isPrint qs content.
Proof.
  intros H. unfold filterLiveTextParts. f_equal. f_equal. induction H as [|p q ps qs Hpq _ IH]; [done|]. cbn [map]. by rewrite (selectedLiveText_alike _ _ Hpq), IH.
Qed.

Lemma liveUnresolved_alike p q : partAlike content p q -> liveTranscriptPartUnresolved p = liveTranscriptPartUnresolved q.
Proof.
  intros (H1 & _ & H3). unfold liveTranscriptPartUnresolved. rewrite <- H1. destruct (tp_InjectedTranscript p); cbn [negb]; [|done]. destruct (H3 eq_refl) as (Hl & Hs & _).
  rewrite !unresolved_seen. unfold injectedTranscriptResolvers. cbn [resolveInjectedTranscriptSpans runResolver ct_TranscriptSpans ct_Text].
  destruct (tp_TranscriptSpans p), (tp_TranscriptSpans q); try done. by rewrite Hs.
Qed.

Lemma unresolvedLive_alike ms ns : Forall2 (messageAlike content isPrint) ms ns -> unresolvedLiveTranscriptIndex ms = unresolvedLiveTranscriptIndex ns.
Proof.
  intros H. unfold unresolvedLiveTranscriptIndex. generalize 0. induction H as [|m n ms ns Hmn _ IH]; intros i; [done|]. cbn [unresolvedLiveLoop]. rewrite IH.
  assert (containsFunc liveTranscriptPartUnresolved (tm_TextParts m) = containsFunc liveTranscriptPartUnresolved (tm_TextParts n)) as ->; [|done].
  apply containsFunc_alike. eapply Forall2_impl; [apply Hmn|]. apply liveUnresolved_alike.
Qed.

Ltac message_cbn := cbn [setText setCompaction tm_UUID tm_ParentUUID tm_LogicalParentUUID tm_Role tm_Visibility tm_Compaction tm_Timestamp tm_Text tm_Thinking tm_HasTools tm_Tools tm_Attachments tm_TextParts].

(** A message as [filterMessages] keeps it. *)
Definition kept (m : TranscriptMessage) : TranscriptMessage :=
  MkTranscriptMessage (tm_UUID m) (tm_ParentUUID m) (tm_LogicalParentUUID m) (tm_Role m) (tm_Visibility m) (tm_Compaction m) (tm_Timestamp m)
    (shownText content isPrint m) (if Has content ContentKindThinking then tm_Thinking m else [])
    (if hasToolContent content then tm_HasTools m else false) (if hasToolContent content then tm_Tools m else []) (tm_Attachments m) (tm_TextParts m).

Definition isCompaction (m : TranscriptMessage) : bool := match tm_Compaction m with Some _ => true | None => false end.

Definition emptyMessage (m : TranscriptMessage) : bool :=
  bool_decide (tm_Text m = []) && bool_decide (tm_Thinking m = []) && bool_decide (tm_Tools m = []).

Lemma filterMessage_kept options i m : eo_Content options = content -> filterMessage isPrint options i m =
  if (0 <? eo_HistoryStart options) && (Z.of_nat i <? eo_HistoryStart options) then [] else
  if isCompaction m then (if Has content ContentKindSystemMessages then [kept m] else [])
  else if emptyMessage (kept m) then [] else [kept m].
Proof.
  intros Ho. unfold filterMessage. rewrite Ho, Hraw. destruct (_ && _); [done|]. fold (isCompaction m). destruct (isCompaction m && negb (Has content ContentKindSystemMessages)) eqn:E.
  { apply andb_true_iff in E as [-> ->%negb_true_iff]. done. }
  assert (forall m', (let message := if negb (Has content ContentKindThinking) then setThinking [] m' else m' in
    if negb (hasToolContent content) then clearTools message else message) =
    MkTranscriptMessage (tm_UUID m') (tm_ParentUUID m') (tm_LogicalParentUUID m') (tm_Role m') (tm_Visibility m') (tm_Compaction m') (tm_Timestamp m')
      (tm_Text m') (if Has content ContentKindThinking then tm_Thinking m' else [])
      (if hasToolContent content then tm_HasTools m' else false) (if hasToolContent content then tm_Tools m' else []) (tm_Attachments m') (tm_TextParts m')) as Hrest.
  { intros m'. destruct (Has content ContentKindThinking), (hasToolContent content); by destruct m'. }
  cbn [negb andb] in *. rewrite Bool.andb_true_r. set (text := if negb (bool_decide (tm_TextParts m = [])) then _ else m).
  set (m1 := if _ && _ then setText [] text else text). cbv zeta in Hrest. rewrite !Hrest. clear Hrest.
  assert (MkTranscriptMessage (tm_UUID m1) (tm_ParentUUID m1) (tm_LogicalParentUUID m1) (tm_Role m1) (tm_Visibility m1) (tm_Compaction m1) (tm_Timestamp m1)
      (tm_Text m1) (if Has content ContentKindThinking then tm_Thinking m1 else [])
      (if hasToolContent content then tm_HasTools m1 else false) (if hasToolContent content then tm_Tools m1 else []) (tm_Attachments m1) (tm_TextParts m1) = kept m) as ->.
  { subst m1 text. unfold kept, shownText. destruct (tm_TextParts m) as [|p ps] eqn:Ep; cbn [bool_decide negb].
    - rewrite (bool_decide_eq_true_2 ([] = [])) by done. cbn [negb]. rewrite Bool.andb_true_r. destruct (Has content ContentKindChat); cbn [negb andb]; [by rewrite Ep|].
      case_bool_decide as Et; cbn [negb andb]; message_cbn; by rewrite ?Ep, ?Et.
    - rewrite bool_decide_eq_false_2 by done. cbn [negb andb]. rewrite Bool.andb_false_r. cbn. by rewrite Ep. }
  unfold emptyMessage. destruct (isCompaction m); cbn [andb] in *; [|done]. apply negb_false_iff in E. by rewrite E.
Qed.

(** Messages that are shown the same: only the parts, which the renderers do not read, differ. *)
Definition withoutParts (m : TranscriptMessage) : TranscriptMessage :=
  MkTranscriptMessage (tm_UUID m) (tm_ParentUUID m) (tm_LogicalParentUUID m) (tm_Role m) (tm_Visibility m) (tm_Compaction m) (tm_Timestamp m)
    (tm_Text m) (tm_Thinking m) (tm_HasTools m) (tm_Tools m) (tm_Attachments m) [].

Definition sameShown (m n : TranscriptMessage) : Prop := withoutParts m = withoutParts n.

(** Kept messages before their compactions are filtered. *)
Definition keptAlike (m n : TranscriptMessage) : Prop :=
  withoutParts (setText [] (setCompaction None m)) = withoutParts (setText [] (setCompaction None n)) /\
  (match tm_Compaction m with Some md => isSummaryMetadata md | None => false end = false -> tm_Text m = tm_Text n) /\
  option_Forall2 (fun x y => setMetadataItems [] x = setMetadataItems [] y /\ Forall2 (itemAlike content) (cmd_ContextItems x) (cmd_ContextItems y) /\
    (isSummaryMetadata x = true ->
      seenText content (tm_Text m) (resolveInjectedTranscriptSpans (summaryContentItemForText (tm_Text m) (cmd_ContextItems x)) injectedTranscriptResolvers) =
      seenText content (tm_Text n) (resolveInjectedTranscriptSpans (summaryContentItemForText (tm_Text n) (cmd_ContextItems y)) injectedTranscriptResolvers)))
    (tm_Compaction m) (tm_Compaction n).

Lemma same_frame a b : withoutParts (setText [] (setCompaction None a)) = withoutParts (setText [] (setCompaction None b)) ->
  tm_Compaction a = tm_Compaction b -> tm_Text a = tm_Text b -> sameShown a b.
Proof. destruct a, b. unfold sameShown, withoutParts, setText, setCompaction. cbn. intros [= -> -> -> -> -> -> -> -> -> ->] -> ->. done. Qed.

Lemma kept_alike m n : messageAlike content isPrint m n -> keptAlike (kept m) (kept n).
Proof.
  intros [H1 H2 H3 H4 H5 H6 H7 H8 H9 H10 H11 H12 H13]. split_and!.
  - unfold withoutParts, kept. message_cbn. rewrite H1, H2, H3, H4, H5, H6, H7.
    destruct (Has content ContentKindThinking); [rewrite (H8 eq_refl)|]; (destruct (hasToolContent content); [destruct (H9 eq_refl) as [-> ->]|]); done.
  - intros Hs. change (shownText content isPrint m = shownText content isPrint n). change (tm_Compaction (kept m)) with (tm_Compaction m) in Hs. unfold shownText.
    pose proof (liveText_alike _ _ H11) as Ht. pose proof (Forall2_length _ _ _ H11) as Hl.
    destruct (tm_TextParts m), (tm_TextParts n); try done. destruct (Has content ContentKindChat); [|done]. by apply H12.
  - exact H13.
Qed.

Lemma isCompaction_alike m n : messageAlike content isPrint m n -> isCompaction m = isCompaction n.
Proof. intros H. unfold isCompaction. by destruct (ma_Compaction _ _ _ _ H). Qed.

Lemma kept_plain m n : messageAlike content isPrint m n -> isCompaction m = false -> sameShown (kept m) (kept n).
Proof.
  intros H Hc. pose proof (isCompaction_alike _ _ H) as Hc'. destruct (kept_alike _ _ H) as (E1 & E2 & _). unfold isCompaction in *. apply same_frame; [done|..].
  - cbn. by destruct (tm_Compaction m), (tm_Compaction n).
  - apply E2. cbn. by destruct (tm_Compaction m).
Qed.

Lemma filterMessage_alike options i m n : eo_Content options = content -> messageAlike content isPrint m n ->
  Forall2 keptAlike (filterMessage isPrint options i m) (filterMessage isPrint options i n).
Proof.
  intros Ho H. rewrite !filterMessage_kept by done. destruct (_ && _); [constructor|]. rewrite <- (isCompaction_alike _ _ H).
  assert (Forall2 keptAlike [kept m] [kept n]) as Hk by (constructor; [by apply kept_alike|constructor]).
  destruct (isCompaction m) eqn:Ec; [destruct (Has content ContentKindSystemMessages); [done|constructor]|].
  assert (emptyMessage (kept m) = emptyMessage (kept n)) as ->; [|destruct (emptyMessage (kept n)); [constructor|done]].
  pose proof (kept_plain _ _ H Ec) as Hs. change (emptyMessage (kept m)) with (emptyMessage (withoutParts (kept m))). by rewrite Hs.
Qed.

Lemma filterMessages_alike options ms ns : eo_Content options = content -> Forall2 (messageAlike content isPrint) ms ns ->
  Forall2 keptAlike (filterMessages isPrint ms options) (filterMessages isPrint ns options).
Proof.
  intros Ho H. unfold filterMessages. assert (forall k, Forall2 keptAlike (concat (imap (fun i => filterMessage isPrint options (k + i)%nat) ms))
    (concat (imap (fun i => filterMessage isPrint options (k + i)%nat) ns))) as Hk; [|exact (Hk 0%nat)].
  induction H as [|m n ms ns Hmn _ IH]; intros k; [constructor|]. rewrite !imap_cons. cbn [concat]. apply Forall2_app; [by apply filterMessage_alike|].
  specialize (IH (S k)). erewrite (imap_ext _ _ ms), (imap_ext _ _ ns); [exact IH|..]; intros i x _; cbn; f_equal; lia.
Qed.

Lemma filterCompaction_alike m n : keptAlike m n -> outcomeRel sameShown (filterCompactionMessage isPrint content m) (filterCompactionMessage isPrint content n).
Proof.
  intros (H1 & H2 & H3). unfold filterCompactionMessage. destruct (tm_Compaction m) as [x|] eqn:Em, (tm_Compaction n) as [y|] eqn:En; inversion H3 as [? ? (A1 & A2 & A3)|]; subst; cbv beta iota zeta.
  - rewrite (filterItems_alike _ _ A2). eapply (outcomeRel_bind eq); [by apply outcomeRel_refl|]. intros items ? <-.
    assert (isSummaryMetadata y = isSummaryMetadata x) as -> by (unfold isSummaryMetadata; change (cmd_Kind x) with (cmd_Kind (setMetadataItems [] x)); change (cmd_Kind y) with (cmd_Kind (setMetadataItems [] y)); by rewrite A1).
    assert (setMetadataItems items x = setMetadataItems items y) as Emd.
    { change (setMetadataItems items x) with (setMetadataItems items (setMetadataItems [] x)). by rewrite A1. }
    rewrite Hraw. cbn [negb]. rewrite andb_true_r. destruct (isSummaryMetadata x) eqn:Es.
    + rewrite !filterText_seen. cbn [tm_Text setCompaction]. rewrite (A3 eq_refl). eapply (outcomeRel_bind eq); [by apply outcomeRel_refl|]. intros text ? <-.
      apply same_frame; [exact H1|cbn; by rewrite Emd|done].
    + cbn. apply same_frame; [exact H1|cbn; by rewrite Emd|by apply H2].
  - apply same_frame; [exact H1|by rewrite Em, En|by apply H2].
Qed.

Lemma filterCompactions_alike ms ns : Forall2 keptAlike ms ns ->
  outcomeRel (Forall2 sameShown) (filterCompactionMessageItems isPrint ms content) (filterCompactionMessageItems isPrint ns content).
Proof.
  induction 1 as [|m n ms ns Hmn _ IH]; [constructor|]. cbn [filterCompactionMessageItems]. eapply outcomeRel_bind; [by apply filterCompaction_alike|].
  intros a b Hab. eapply outcomeRel_bind; [exact IH|]. intros as' bs' Habs. by constructor.
Qed.

(** ** Rendering *)

Context `{TurnCodecs} `{ExportCodecs}.

Lemma shape_same opts ms ns : Forall2 sameShown ms ns -> ShapeConversation ms opts = ShapeConversation ns opts.
Proof.
  intros Hs. unfold ShapeConversation. f_equal. generalize (if bool_decide (so_ToolOnly opts = []) then MkShapeOptions (so_IncludeThinking opts) (so_ConversationOnly opts) ToolOnlyCompactSummary (so_MaxTextRunes opts) else opts) as o.
  intros o. induction Hs as [|m n ms ns Hmn _ IH]; [done|]. cbn [map]. rewrite IH. f_equal. change (shapeMessage o m) with (shapeMessage o (withoutParts m)). by rewrite Hmn.
Qed.

Lemma render_same record ms ns options block : eo_Content options = content -> Forall2 sameShown ms ns ->
  renderMessagesWithCompaction record ms options block = renderMessagesWithCompaction record ns options block.
Proof.
  intros Ho Hs. unfold renderMessagesWithCompaction, RenderHTMLWithOptions, RenderPlainTextWithOptions, RenderMarkdownWithOptions, renderCompactionJSON.
  rewrite Ho, Hraw. by rewrite (shape_same _ _ _ Hs).
Qed.

Lemma sanitize_same ms ns : Forall2 sameShown ms ns ->
  outcomeRel (Forall2 sameShown) (sanitizeCompactionMessagesForExport ms) (sanitizeCompactionMessagesForExport ns).
Proof.
  unfold sanitizeCompactionMessagesForExport. generalize 0. intros i Hs. revert i. induction Hs as [|m n ms ns Hmn _ IH]; intros i; [constructor|]. cbn [sanitizeMessages].
  eapply (outcomeRel_bind sameShown); [|intros a b Hab; eapply outcomeRel_bind; [apply IH|]; intros; by constructor].
  pose proof (f_equal tm_Compaction Hmn) as Hc. cbn in Hc. rewrite Hc. destruct (tm_Compaction n) as [md|]; [|exact Hmn].
  destruct (sanitizeExportValue _ _ md); [|done]. cbn. unfold sameShown in *. destruct m, n. unfold withoutParts, setCompaction in *. cbn in *. congruence.
Qed.

Lemma clearUUID_same ms ns : Forall2 sameShown ms ns -> Forall2 sameShown (map clearUUID ms) (map clearUUID ns).
Proof.
  induction 1 as [|m n ms ns Hmn _ IH]; [constructor|]. constructor; [|exact IH]. unfold sameShown in *. destruct m, n. unfold withoutParts, clearUUID in *. cbn in *. congruence.
Qed.

(** ** The newest messages *)

Lemma counts_alike options m n : eo_Content options = content -> messageAlike content isPrint m n ->
  messageCountsForLastN isPrint m options = messageCountsForLastN isPrint n options.
Proof.
  intros Ho Hm. unfold messageCountsForLastN. pose proof (isCompaction_alike _ _ Hm) as Hc. unfold isCompaction in Hc.
  destruct (tm_Compaction m) eqn:Em, (tm_Compaction n) eqn:En; try done. rewrite (ma_Visibility _ _ _ _ Hm). destruct (bool_decide _); [done|].
  assert (isCompaction m = false) as Hm0 by (unfold isCompaction; by rewrite Em). assert (isCompaction n = false) as Hn0 by (unfold isCompaction; by rewrite En).
  unfold messageRendersForExport, filterMessages. cbn [imap concat]. rewrite !app_nil_r, !filterMessage_kept by done. cbn [eo_HistoryStart setHistoryStart]. cbn [Z.ltb Z.compare andb].
  rewrite Hm0, Hn0. pose proof (kept_plain _ _ Hm Hm0) as Hs. change (emptyMessage (kept m)) with (emptyMessage (withoutParts (kept m))).
  change (emptyMessage (kept n)) with (emptyMessage (withoutParts (kept n))). rewrite Hs. destruct (emptyMessage _); [done|]. rewrite Ho, Hraw, andb_false_r.
  by rewrite (shape_same _ [kept m] [kept n]) by (constructor; [done|constructor]).
Qed.

Lemma lastNMessages_alike options ms ns start k remaining : eo_Content options = content -> Forall2 (messageAlike content isPrint) ms ns ->
  lastNMessages isPrint ms options start k remaining = lastNMessages isPrint ns options start k remaining.
Proof.
  intros Ho Hs. revert remaining. induction k as [|k IH]; intros remaining; [done|]. cbn [lastNMessages]. case_match; [done|].
  destruct (ms !! Z.to_nat (start + Z.of_nat k)) as [m|] eqn:Em.
  - destruct (Forall2_lookup_l _ _ _ _ _ Hs Em) as (n & -> & Hmn). by rewrite (counts_alike options m n), !IH.
  - apply lookup_ge_None in Em. rewrite (Forall2_length _ _ _ Hs) in Em. apply lookup_ge_None in Em. by rewrite Em.
Qed.

Lemma lastNSegments_alike options ms ns ss ts remaining : eo_Content options = content -> Forall2 (messageAlike content isPrint) ms ns ->
  Forall2 (segmentRel (itemAlike content)) ss ts ->
  outcomeRel (fun a b => match a, b with inl x, inl y => x = y | inr x, inr y => Forall2 (segmentRel (itemAlike content)) x y | _, _ => False end)
    (lastNSegments isPrint ms options ss remaining) (lastNSegments isPrint ns options ts remaining).
Proof.
  intros Ho Hs Hst. induction Hst as [|s t ss ts Hst Hrest IH]; [done|]. cbn [lastNSegments]. eapply outcomeRel_bind; [exact IH|]. intros [r|out] [r'|out'] Hr; try done. subst r'.
  pose proof Hst as (_ & E2 & E3 & _). rewrite E2, E3. assert (zlen ms = zlen ns) as -> by (unfold zlen; by rewrite (Forall2_length _ _ _ Hs)).
  rewrite (lastNMessages_alike _ _ _ _ _ _ Ho Hs). eapply (outcomeRel_bind eq); [by apply outcomeRel_refl|]. intros [x|x] ? <-; [done|]. cbn. constructor; [|done].
  destruct Hst as (E1 & _ & E3' & E4 & E5 & E6 & E7 & E8 & E9 & C). by split_and!.
Qed.

Lemma applyLastN_alike options ms ns s t : eo_Content options = content -> Forall2 (messageAlike content isPrint) ms ns -> alikeSelection s t ->
  outcomeRel alikeSelection (applyLastNToSegmentSelection isPrint ms s options) (applyLastNToSegmentSelection isPrint ns t options).
Proof.
  intros Ho Hs [H1 H2]. unfold applyLastNToSegmentSelection. case_match; [by split|]. eapply outcomeRel_bind; [by apply lastNSegments_alike|].
  by intros [r|out] [r'|out'] Hr.
Qed.

(** ** The export *)

Lemma selectedMessages_alike ms ns s t : Forall2 (messageAlike content isPrint) ms ns ->
  Forall2 (fun a b => sg_StartMessageIndex a = sg_StartMessageIndex b /\ sg_EndMessageIndex a = sg_EndMessageIndex b) (sel_Segments s) (sel_Segments t) ->
  Forall2 (messageAlike content isPrint) (selectedCompactionSegmentMessages ms s) (selectedCompactionSegmentMessages ns t).
Proof.
  intros Hs Hst. unfold selectedCompactionSegmentMessages. induction Hst as [|a b ss ts [E1 E2] _ IH]; [constructor|]. cbn [map concat]. apply Forall2_app; [|exact IH].
  unfold segmentMessages. rewrite E1, E2. assert (zlen ms = zlen ns) as -> by (unfold zlen; by rewrite (Forall2_length _ _ _ Hs)). case_match; [constructor|].
  by apply Forall2_take, Forall2_drop.
Qed.

Lemma entry_alike m n : messageAlike content isPrint m n -> entryRel (itemAlike content) (entryOf m) (entryOf n).
Proof.
  intros Hm. split_and!; cbn; try apply Hm; [|unfold ToolNames; rewrite !length_map; apply Hm].
  destruct (ma_Compaction _ _ _ _ Hm) as [x y (A1 & A2 & _)|]; constructor. unfold setMetadataItems in A1. injection A1 as H1 H2 H3 H4 H5 H6 H7 H8 H9 H10 H11.
  by split_and!.
Qed.

Lemma checkResolved_alike record options ms ns s t : Forall2 (messageAlike content isPrint) ms ns -> alikeSelection s t -> 
  checkResolved record ms s options = checkResolved record ns t options.
Proof.
  intros Hs Hst. unfold checkResolved. rewrite (unresolvedSummary_alike _ _ Hst). rewrite (unresolvedLive_alike _ (selectedCompactionSegmentMessages ns t)); [done|].
  apply selectedMessages_alike; [done|]. destruct Hst as [_ Hst]. eapply Forall2_impl; [exact Hst|]. intros a b (_ & E2 & E3 & _). done.
Qed.

Lemma export_alike record options ms ns : eo_Content options = content -> Forall2 (messageAlike content isPrint) ms ns ->
  exportMessages isPrint record ms options = exportMessages isPrint record ns options.
Proof.
  intros Ho Hs. apply outcomeRel_eq. unfold exportMessages. eapply (outcomeRel_bind eq); [by apply outcomeRel_refl|]. intros compaction ? <-.
  eapply (outcomeRel_bind (Forall2 (segmentRel (itemAlike content)))).
  { assert (Forall2 (entryRel (itemAlike content)) (map entryOf ms) (map entryOf ns)) as He.
    { induction Hs as [|m n ms ns Hmn _ IH]; [constructor|]. constructor; [by apply entry_alike|exact IH]. }
    pose proof (CompactionSegments_rel _ _ _ He) as Hc. by destruct (CompactionSegments (map entryOf ms)), (CompactionSegments (map entryOf ns)). }
  intros ss ts Hst. eapply (outcomeRel_bind alikeSelection).
  { pose proof (SelectCompactionSegments_rel _ _ _ (ce_IncludeSelector compaction) Hst) as Hc.
    destruct (SelectCompactionSegments ss _), (SelectCompactionSegments ts _); cbn in Hc |- *; try done. by subst. }
  intros s t Hsel. eapply outcomeRel_bind; [by apply applyLastN_alike|]. intros s' t' Hsel'. rewrite (checkResolved_alike _ _ _ _ _ _ Hs Hsel').
  eapply (outcomeRel_bind eq); [by apply outcomeRel_refl|]. intros _ _ _. rewrite Ho, (filterSelection_alike _ _ Hsel').
  eapply (outcomeRel_bind eq); [by apply outcomeRel_refl|]. intros filtered ? <-. eapply (outcomeRel_bind eq); [by apply outcomeRel_refl|]. intros clean ? <-.
  eapply (outcomeRel_bind (Forall2 sameShown)).
  { apply filterCompactions_alike, filterMessages_alike; [done|]. apply selectedMessages_alike; [done|]. apply Forall_Forall2_diag, Forall_forall. done. }
  intros ms1 ns1 H1. eapply outcomeRel_bind; [by apply sanitize_same|]. intros ms2 ns2 H2. cbv zeta.
  rewrite (render_same record _ (if bool_decide (eo_Format options = ExportFormatJSON) && negb (Has content ContentKindRawJSONMetadata) then map clearUUID ns2 else ns2)); [|done|].
  - eapply (outcomeRel_bind eq); [by apply outcomeRel_refl|]. by intros body ? <-.
  - case_match; [by apply clearUUID_same|done].
Qed.
End shown.

(** ** The newest messages are the asked ones *)

Section newest.
Context (isPrint : Z -> bool) `{TurnCodecs} (messages : list TranscriptMessage) (options : ExportOptions).

Definition countOf (ms : list TranscriptMessage) : Z := zlen (filter (fun m => messageCountsForLastN isPrint m options = true) ms).

Lemma countOf_app xs ys : countOf (xs ++ ys) = countOf xs + countOf ys.
Proof. unfold countOf. by rewrite filter_app, zlen_app. Qed.

Lemma countOf_one m : countOf [m] = if messageCountsForLastN isPrint m options then 1 else 0.
Proof. unfold countOf. rewrite filter_cons, filter_nil. destruct (messageCountsForLastN _ _ _); by case_decide. Qed.

Lemma slice_none a : slice messages a a = [].
Proof. unfold slice. by rewrite Z.sub_diag. Qed.

Lemma slice_snoc a b m : 0 <= a <= b -> messages !! Z.to_nat b = Some m -> slice messages a (b + 1) = slice messages a b ++ [m].
Proof.
  intros Hs Hm. unfold slice. replace (Z.to_nat (b + 1 - a)) with (S (Z.to_nat (b - a))) by lia.
  apply take_S_r. rewrite lookup_drop, <- Hm. f_equal. lia.
Qed.

(** The messages hold as many counted ones as asked and begin with one. *)
Definition cutAt (asked : Z) (out : list TranscriptMessage) : Prop :=
  countOf out = asked /\ exists m rest, out = m :: rest /\ messageCountsForLastN isPrint m options = true.

Lemma cutAt_app asked xs ys : cutAt asked xs -> cutAt (asked + countOf ys) (xs ++ ys).
Proof. intros [Hc (m & rest & -> & Hm)]. split; [rewrite countOf_app; lia|]. by exists m, (rest ++ ys). Qed.

Lemma lastNMessages_spec start k remaining : 0 <= start -> start + Z.of_nat k <= zlen messages -> 0 < remaining ->
  match lastNMessages isPrint messages options start k remaining with
  | Ok (inl rest) => rest = remaining - countOf (slice messages start (start + Z.of_nat k)) /\ 0 < rest
  | Ok (inr idx) => start <= idx < start + Z.of_nat k /\ cutAt remaining (slice messages idx (start + Z.of_nat k))
  | _ => False
  end.
Proof.
  intros Hs. revert remaining. induction k as [|k IH]; intros remaining Hk Hr; cbn [lastNMessages].
  { replace (start + Z.of_nat 0) with start by lia. rewrite slice_none. change (countOf []) with 0. lia. }
  replace (start + Z.of_nat (S k)) with (start + Z.of_nat k + 1) by lia. specialize (IH remaining ltac:(lia)) as IH0. specialize (IH (remaining - 1) ltac:(lia)).
  set (stop := start + Z.of_nat k) in *. assert (start <= stop < zlen messages) as Hstop by lia. clearbody stop.
  destruct (Z.ltb_spec stop 0); [lia|]. destruct (lookup_lt_is_Some_2 messages (Z.to_nat stop)) as [m Hm]; [unfold zlen in *; lia|]. rewrite Hm.
  pose proof (countOf_one m) as H1. rewrite (slice_snoc start stop m), countOf_app by (done || lia).
  destruct (messageCountsForLastN isPrint m options) eqn:Ec; cbv iota in H1; cbn [negb]; [destruct (Z.eqb_spec (remaining - 1) 0) as [E|E]|].
  - split; [lia|]. rewrite (slice_snoc _ _ m), slice_none by (done || lia). cbn [app]. split; [lia|by exists m, []].
  - specialize (IH ltac:(lia)). destruct (lastNMessages _ _ _ _ _ _) as [[rest|idx]| |]; try done; [lia|]. destruct IH as [Hi Hc]. split; [lia|].
    rewrite (slice_snoc _ _ m) by (done || lia). apply (cutAt_app _ _ [m]) in Hc. by replace (remaining - 1 + countOf [m]) with remaining in Hc by lia.
  - clear IH. specialize (IH0 ltac:(lia)). destruct (lastNMessages _ _ _ _ _ _) as [[rest|idx]| |]; try done; [lia|]. destruct IH0 as [Hi Hc]. split; [lia|].
    rewrite (slice_snoc _ _ m) by (done || lia). apply (cutAt_app _ _ [m]) in Hc. by replace (remaining + countOf [m]) with remaining in Hc by lia.
Qed.

Definition messagesOf (segments : list (CompactionSegment (Item := CompactedContextItem))) : list TranscriptMessage :=
  concat (map (segmentMessages messages) segments).

Lemma messagesOf_cons s segments : messagesOf (s :: segments) = segmentMessages messages s ++ messagesOf segments.
Proof. reflexivity. Qed.

Lemma segmentMessages_slice s : 0 <= sg_StartMessageIndex s ->
  segmentMessages messages s = slice messages (sg_StartMessageIndex s) (sg_StartMessageIndex s + Z.of_nat (Z.to_nat (Z.min (sg_EndMessageIndex s) (zlen messages) - sg_StartMessageIndex s))).
Proof.
  intros Hs. unfold segmentMessages. rewrite Z.max_l by done. set (stop := Z.min _ _). destruct (Z.leb_spec stop (sg_StartMessageIndex s)).
  - replace (Z.to_nat (stop - sg_StartMessageIndex s)) with 0%nat by lia. unfold slice. by replace (Z.to_nat _) with 0%nat by lia.
  - by replace (sg_StartMessageIndex s + Z.of_nat (Z.to_nat (stop - sg_StartMessageIndex s))) with stop by lia.
Qed.

Lemma lastNSegments_spec segments remaining : Forall (fun s => 0 <= sg_StartMessageIndex s) segments -> 0 < remaining ->
  match lastNSegments isPrint messages options segments remaining with
  | Ok (inl rest) => rest = remaining - countOf (messagesOf segments) /\ 0 < rest
  | Ok (inr out) => exists before, messagesOf segments = before ++ messagesOf out /\ cutAt remaining (messagesOf out)
  | _ => False
  end.
Proof.
  intros Hs Hr. induction Hs as [|s segments Hs0 _ IH]; cbn [lastNSegments]; [change (countOf (messagesOf [])) with 0; lia|].
  destruct (lastNSegments _ _ _ segments remaining) as [[rest|out]| |]; cbn [mbind outcome_bind]; try done.
  2: { destruct IH as (before & E & Hc). exists (segmentMessages messages s ++ before). split; [|done]. by rewrite messagesOf_cons, E, app_assoc. }
  destruct IH as [-> Hpos]. set (k := Z.to_nat (Z.min (sg_EndMessageIndex s) (zlen messages) - sg_StartMessageIndex s)) in *.
  pose proof (segmentMessages_slice s Hs0) as Esl. fold k in Esl. rewrite messagesOf_cons, Esl, countOf_app.
  destruct (Nat.eq_dec k 0) as [Ek|Ek].
  { rewrite Ek. cbn [lastNMessages mbind outcome_bind]. replace (sg_StartMessageIndex s + Z.of_nat 0) with (sg_StartMessageIndex s) by lia. rewrite slice_none. change (countOf []) with 0. lia. }
  pose proof (lastNMessages_spec (sg_StartMessageIndex s) k (remaining - countOf (messagesOf segments)) Hs0 ltac:(lia) Hpos) as Hm.
  destruct (lastNMessages _ _ _ _ _ _) as [[rest|idx]| |]; cbn [mbind outcome_bind]; try done; [lia|]. destruct Hm as [Hi Hc].
  exists (slice messages (sg_StartMessageIndex s) idx). rewrite messagesOf_cons, segmentMessages_slice by (cbn; lia). cbn [sg_StartMessageIndex sg_EndMessageIndex setStart].
  replace (idx + Z.of_nat (Z.to_nat (Z.min (sg_EndMessageIndex s) (zlen messages) - idx))) with (sg_StartMessageIndex s + Z.of_nat k) by lia.
  apply (cutAt_app _ _ (messagesOf segments)) in Hc. replace (remaining - countOf (messagesOf segments) + countOf (messagesOf segments)) with remaining in Hc by lia.
  split; [|exact Hc]. rewrite app_assoc. f_equal. unfold slice. set (a := Z.to_nat (sg_StartMessageIndex s)).
  replace (Z.to_nat (sg_StartMessageIndex s + Z.of_nat k - sg_StartMessageIndex s)) with (Z.to_nat (idx - sg_StartMessageIndex s) + Z.to_nat (sg_StartMessageIndex s + Z.of_nat k - idx))%nat by lia.
  rewrite <- take_take_drop. f_equal. rewrite drop_drop. do 2 f_equal. lia.
Qed.

Lemma applyLastN_total selection : Forall (fun s => 0 <= sg_StartMessageIndex s) (sel_Segments selection) ->
  exists selection', applyLastNToSegmentSelection isPrint messages selection options = Ok selection' /\
  let all := selectedCompactionSegmentMessages messages selection in
  let out := selectedCompactionSegmentMessages messages selection' in
  if eo_LastN options <=? 0 then selection' = selection else
  if countOf all <? eo_LastN options then out = all
  else exists before, all = before ++ out /\ cutAt (eo_LastN options) out.
Proof.
  intros Hs. unfold applyLastNToSegmentSelection. destruct (Z.leb_spec (eo_LastN options) 0); [by exists selection|].
  pose proof (lastNSegments_spec _ _ Hs H0) as Hseg. unfold selectedCompactionSegmentMessages. fold (messagesOf (sel_Segments selection)).
  destruct (lastNSegments _ _ _ _ _) as [[rest|out]| |]; cbn [mbind outcome_bind]; try done.
  - exists selection. split; [done|]. cbv zeta. destruct (Z.ltb_spec (countOf (messagesOf (sel_Segments selection))) (eo_LastN options)); [done|lia].
  - eexists. split; [done|]. cbv zeta. cbn [sel_Segments]. fold (messagesOf out). destruct Hseg as (before & E & Hc).
    destruct (Z.ltb_spec (countOf (messagesOf (sel_Segments selection))) (eo_LastN options)) as [Hl|Hl]; [|by exists before].
    exfalso. rewrite E, countOf_app in Hl. destruct Hc as [Hc _]. unfold countOf in Hl at 1. pose proof (zlen_nonneg (filter (fun m => messageCountsForLastN isPrint m options = true) before)). lia.
Qed.
End newest.

(** ** Claims *)

(** C14. A filtered export is the same for two conversations that agree on everything the content
    kinds select: no message text, thinking, tool call, raw copy or segment of an injected
    transcript that is not selected has an influence on it, not even on its errors. *)
Theorem export_noninterference (isPrint : Z -> bool) `{TurnCodecs} `{ExportCodecs} record options ms ns :
  Has (eo_Content options) ContentKindRawJSONMetadata = false ->
  Forall2 (messageAlike (eo_Content options) isPrint) ms ns ->
  exportMessages isPrint record ms options = exportMessages isPrint record ns options.
Proof. intros Hraw Hs. by apply (export_alike (eo_Content options)). Qed.

(** C35. The newest messages: the selection always exists; when fewer messages count than are
    asked for, all are kept, and otherwise the kept ones are an end of the selected messages
    that begins with a counted message and holds exactly the number asked for. *)
Theorem applyLastN_exact (isPrint : Z -> bool) `{TurnCodecs} messages options selection :
  Forall (fun s => 0 <= sg_StartMessageIndex s) (sel_Segments selection) ->
  exists selection', applyLastNToSegmentSelection isPrint messages selection options = Ok selection' /\
  let all := selectedCompactionSegmentMessages messages selection in
  let out := selectedCompactionSegmentMessages messages selection' in
  let count ms := zlen (filter (fun m => messageCountsForLastN isPrint m options = true) ms) in
  if eo_LastN options <=? 0 then selection' = selection else
  if count all <? eo_LastN options then out = all
  else exists before m rest, all = before ++ out /\ out = m :: rest /\ count out = eo_LastN options /\ messageCountsForLastN isPrint m options = true.
Proof.
  intros Hs. destruct (applyLastN_total isPrint messages options selection Hs) as (selection' & E & Ht). exists selection'. split; [exact E|]. cbv zeta in *.
  destruct (_ <=? _); [exact Ht|]. unfold countOf in Ht. destruct (_ <? _); [exact Ht|]. destruct Ht as (before & Ea & Hc & m & rest & Eo & Hm). by exists before, m, rest.
Qed.

(** The injected transcripts of a message that are typed or hold no framing. *)
Definition liveResolved (m : TranscriptMessage) : Prop := forall part, part ∈ tm_TextParts m -> tp_InjectedTranscript part = true ->
  tp_TranscriptSpans part <> [] /\ exists pieces rest, piecesLoop (tp_Text part) 0 (tp_TranscriptSpans part) = Ok (pieces, rest) /\
    ContainsTranscriptWrapper (concat (map fst pieces) ++ rest) = false.

Definition itemResolved (item : CompactedContextItem) : Prop := forall message c, it_Kind item = CompactedContextItemKindMessage ->
  it_Message item = Some message -> c ∈ mi_Content message ->
  if isSummary message
  then exists pieces rest, piecesLoop (ct_Text c) 0 (resolveInjectedTranscriptSpans c injectedTranscriptResolvers) = Ok (pieces, rest) /\
    ContainsTranscriptWrapper (concat (map fst pieces) ++ rest) = false
  else ct_UnresolvedTranscript c = false.

Lemma containsFunc_false {A} (test : A -> outcome exportError bool) xs x : containsFunc test xs = Ok false -> x ∈ xs -> test x = Ok false.
Proof.
  induction xs as [|y xs IH]; [by intros _ ?%elem_of_nil|]. cbn [containsFunc]. intros H Hx. destruct (test y) as [[]| |] eqn:E; try done.
  apply elem_of_cons in Hx as [->|Hx]; [done|]. by apply IH.
Qed.

Lemma unresolved_false c : unresolvedInjectedTranscript c = Ok false ->
  exists pieces rest, piecesLoop (ct_Text c) 0 (resolveInjectedTranscriptSpans c injectedTranscriptResolvers) = Ok (pieces, rest) /\
    ContainsTranscriptWrapper (concat (map fst pieces) ++ rest) = false.
Proof. unfold unresolvedInjectedTranscript. destruct (piecesLoop _ _ _) as [[pieces rest]| |]; [|done|done]. cbn. intros [= E]. by exists pieces, rest. Qed.

Lemma unresolvedLive_None i ms : unresolvedLiveLoop i ms = Ok None -> Forall liveResolved ms.
Proof.
  revert i. induction ms as [|m ms IH]; intros i H; [constructor|]. cbn [unresolvedLiveLoop] in H. destruct (containsFunc _ _) as [[]| |] eqn:E; try done.
  constructor; [|by apply (IH (i + 1))]. intros part Hp Hi. pose proof (containsFunc_false _ _ _ E Hp) as Hf. unfold liveTranscriptPartUnresolved in Hf. rewrite Hi in Hf. cbn [negb] in Hf.
  destruct (tp_TranscriptSpans part) as [|span spans] eqn:Es; [done|]. split; [done|]. by apply unresolved_false in Hf.
Qed.

Lemma unresolvedSegments_None ss : unresolvedSegments ss = Ok None ->
  forall s item, s ∈ ss -> sg_HasStartingSummary s = true -> item ∈ cp_ContextItems (sg_Checkpoint s) -> itemResolved item.
Proof.
  induction ss as [|s ss IH]; [by intros _ ? ? ?%elem_of_nil|]. cbn [unresolvedSegments]. intros H t item Ht Hs Hi. apply elem_of_cons in Ht as [->|Ht].
  - rewrite Hs in H. cbn [negb] in H. destruct (containsFunc _ _) as [[]| |] eqn:E; try done. pose proof (containsFunc_false _ _ _ E Hi) as Hf.
    intros message c Hk Hm Hc. unfold unresolvedItem in Hf. rewrite Hk, Hm in Hf. pose proof (containsFunc_false _ _ _ Hf Hc) as Hf'.
    destruct (isSummary message); [by apply unresolved_false in Hf'|]. by injection Hf'.
  - destruct (negb _); [by apply (IH H t)|]. destruct (containsFunc _ _) as [[]| |]; try done. by apply (IH H t).
Qed.

(** C36. What a filtered export that succeeds was checked for: in the selected segments every
    injected transcript of a live message has typed frames and, like every summary, no
    transcript outside of its frames; no other kept message is marked as unresolved. *)
Theorem export_resolved (isPrint : Z -> bool) `{TurnCodecs} `{ExportCodecs} record messages options body :
  Has (eo_Content options) ContentKindRawJSONMetadata = false -> exportMessages isPrint record messages options = Ok body ->
  exists segments compaction chosen selection, CompactionSegments (map entryOf messages) = Ok segments /\
    NormalizeCompactionExportOptions (eo_Compaction options) (eo_HistoryStart options) (eo_LastN options) = Ok compaction /\
    SelectCompactionSegments segments (ce_IncludeSelector compaction) = Ok chosen /\
    applyLastNToSegmentSelection isPrint messages chosen options = Ok selection /\
    Forall liveResolved (selectedCompactionSegmentMessages messages selection) /\
    forall s item, s ∈ sel_Segments selection -> sg_HasStartingSummary s = true -> item ∈ cp_ContextItems (sg_Checkpoint s) -> itemResolved item.
Proof.
  intros Hraw E. unfold exportMessages in E. destruct (NormalizeCompactionExportOptions _ _ _) as [compaction| |]; cbn [mbind outcome_bind] in E; try done.
  destruct (CompactionSegments _) as [segments| |]; cbn [liftSegments mbind outcome_bind] in E; try done.
  destruct (SelectCompactionSegments _ _) as [chosen| |] eqn:Ec; cbn [liftSelect mbind outcome_bind] in E; try done.
  destruct (applyLastNToSegmentSelection _ _ _ _) as [selection| |] eqn:El; cbn [mbind outcome_bind] in E; try done.
  exists segments, compaction, chosen, selection. split_and!; try done.
  all: destruct (checkResolved _ _ _ _) as [[]| |] eqn:Er; cbn [mbind outcome_bind] in E; try done; clear E; unfold checkResolved in Er; rewrite Hraw in Er;
    destruct (unresolvedInjectedTranscriptSummary selection) as [[u|]| |] eqn:Eu; cbn [mbind outcome_bind] in Er; try done;
    destruct (unresolvedLiveTranscriptIndex _) as [[i|]| |] eqn:Ei; cbn [mbind outcome_bind] in Er; try done.
  - by apply unresolvedLive_None in Ei.
  - by apply unresolvedSegments_None.
Qed.

(** ** Witnesses *)

Definition noPrint : Z -> bool := fun _ => false.

#[local] Instance sampleTurnCodecs : TurnCodecs := { FormatTime := fun _ => lit "noon"; UnmarshalDescription := fun _ => None }.

Definition samplePart (secret : bytes) : MessageTextPart :=
  let segments := [RtSegments.MkSegment SegmentRoleAssistant SegmentKindThinking secret; RtSegments.MkSegment SegmentRoleUser SegmentKindChat (lit "hello")] in
  let frame := FramedTranscript noPrint segments in
  MkTextPart (lit "before " ++ frame ++ lit " after") true [MkSpan 7 (7 + length frame) segments].

Definition sampleMessage (secret : bytes) : TranscriptMessage :=
  MkTranscriptMessage (lit "u1") [] [] (lit "user") (lit "visible") None None [] secret false [] [] [samplePart secret; MkTextPart (lit "question") false []].

Definition plainMessage (text : bytes) : TranscriptMessage :=
  MkTranscriptMessage (lit "u2") [] [] (lit "assistant") (lit "visible") None None text [] false [] [] [].

(** Codecs that keep the selection of the two sample messages. *)
#[local] Instance sampleExportCodecs : ExportCodecs := {
  MarshalSelection := fun _ => Some (lit "null");
  UnmarshalSelection := fun _ => Some (MkSelection (lit "0") [plainSegment [] 0 2]);
  MarshalMetadata := fun _ => None;
  UnmarshalMetadata := fun _ => None;
  MarshalRawExport := fun _ => None;
  MarshalShapedExport := fun _ => None;
  MarshalBlock := fun _ => None;
  MarshalTurns := fun _ => None;
}.

Definition sampleOptions : ExportOptions :=
  MkExportOptions ExportFormatMarkdown 0 1 0 [] [] WhitespacePreserve (NewContentKindSet [ContentKindChat]) (MkCompactionExportOptions [] false).

Definition sampleConversation (secret : bytes) : list TranscriptMessage := [sampleMessage secret; plainMessage (lit "answer")].

Example sample_export : exportMessages noPrint CvRecord.emptyRecord (sampleConversation (lit "secret")) sampleOptions =
  Ok (lit "### User" ++ newline ++ newline ++ FramedTranscript noPrint [RtSegments.MkSegment SegmentRoleUser SegmentKindChat (lit "hello")]
      ++ newline ++ newline ++ lit "question" ++ newline ++ newline ++ lit "### Assistant" ++ newline ++ newline ++ lit "answer").
Proof. vm_compute. reflexivity. Qed.

Lemma export_noninterference_witness :
  sampleConversation (lit "secret") <> sampleConversation (lit "another one") /\
  exportMessages noPrint CvRecord.emptyRecord (sampleConversation (lit "secret")) sampleOptions =
  exportMessages noPrint CvRecord.emptyRecord (sampleConversation (lit "another one")) sampleOptions.
Proof.
  split; [discriminate|]. apply export_noninterference; [vm_compute; reflexivity|]. constructor; [|constructor; [|constructor]].
  - split; try reflexivity; [intros H; vm_compute in H; discriminate|by split| |constructor].
    constructor; [|constructor; [|constructor]].
    + split_and!; [reflexivity|discriminate|]. intros _. split_and!; [reflexivity|vm_compute; reflexivity|]. constructor; [vm_compute; reflexivity|constructor].
    + split_and!; [reflexivity|reflexivity|discriminate].
  - split; try reflexivity; [by split|constructor|constructor].
Defined.

Lemma applyLastN_exact_witness :
  let selection := MkSelection (lit "0") [plainSegment [] 0 2] in
  exists selection', applyLastNToSegmentSelection noPrint (sampleConversation (lit "secret")) selection sampleOptions = Ok selection' /\
  selectedCompactionSegmentMessages (sampleConversation (lit "secret")) selection' = [plainMessage (lit "answer")].
Proof.
  intros selection. destruct (applyLastN_exact noPrint (sampleConversation (lit "secret")) sampleOptions selection) as (selection' & E & Ht); [by repeat constructor|].
  exists selection'. split; [exact E|]. vm_compute in E. injection E as <-. vm_compute. reflexivity.
Defined.

Lemma export_resolved_witness : exists segments compaction chosen selection, 
  CompactionSegments (map entryOf (sampleConversation (lit "secret"))) = Ok segments /\
    NormalizeCompactionExportOptions (eo_Compaction sampleOptions) (eo_HistoryStart sampleOptions) (eo_LastN sampleOptions) = Ok compaction /\
    SelectCompactionSegments segments (ce_IncludeSelector compaction) = Ok chosen /\
    applyLastNToSegmentSelection noPrint (sampleConversation (lit "secret")) chosen sampleOptions = Ok selection /\
    Forall liveResolved (selectedCompactionSegmentMessages (sampleConversation (lit "secret")) selection) /\
    forall s item, s ∈ sel_Segments selection -> sg_HasStartingSummary s = true -> item ∈ cp_ContextItems (sg_Checkpoint s) -> itemResolved item.
Proof. eapply export_resolved; [vm_compute; reflexivity|exact (sample_export)]. Defined.

(** A transcript that is not typed refuses the filtered export. *)
Example sample_refused : exportMessages noPrint CvRecord.emptyRecord
  [MkTranscriptMessage [] [] [] (lit "user") [] None None [] [] false [] [] [MkTextPart (lit "quoted") true []]] sampleOptions = Fail (errUnresolvedLive [] 0).
Proof. vm_compute. reflexivity. Qed.
