(* ===== verification/GoRegexp.v ===== *)
(** * GoRegexp: regular expressions as the program uses them

    The part of [regexp] that the program needs: classes, repetition, alternatives, one
    group and the word boundary, with the leftmost-first choice of the library (what a
    backtracking search finds first), and [ReplaceAllString].  [replaceAll_fuel]: the search
    always moves on, so the bound on its rounds is enough. *)

From S2P Require Import Prelude GoUtf8 GoStrconv.

Open Scope Z_scope.

(** ** Expressions *)

Inductive regexp :=
| RClass (class : Z -> bool)
| RWordBoundary
| RSeq (r s : regexp)
| RAlt (r s : regexp)
| ROpt (r : regexp)
| RStar (r : regexp)
| RGroup (r : regexp).

(** The body of a star is never empty here, so that a star ends by itself. *)
Definition RPlus (r : regexp) : regexp := RSeq r (RStar r).

Fixpoint seqOf (rs : list regexp) (last : regexp) : regexp :=
  match rs with
  | [] => last
  | r :: rs => RSeq r (seqOf rs last)
  end.

Definition RTimes (n : nat) (r : regexp) : regexp := seqOf (repeat r (n - 1)) r.

Definition RByte (b : Byte.byte) : regexp := RClass (Z.eqb (b2z b)).

(** A letter under [(?i)]: both cases, and the two runes that fold to [k] and [s]. *)
Definition RFold (b : Byte.byte) : regexp :=
  RClass (fun r => (r =? b2z b) || (r =? b2z b - 32) || ((b2z b =? 107) && (r =? 8490)) || ((b2z b =? 115) && (r =? 383))).

Definition RWord (letter : Byte.byte -> regexp) (word : bytes) : regexp :=
  match word with
  | [] => RStar (RClass (fun _ => false))
  | b :: word => fold_left (fun r b => RSeq r (letter b)) word (letter b)
  end.

(** ** Matching *)

(** [0-9A-Za-z_], the word characters of the boundary. *)
Definition wordByte (b : Byte.byte) : bool :=
  isDigit b || ((65 <=? b2z b) && (b2z b <=? 90)) || ((97 <=? b2z b) && (b2z b <=? 122)) || (b2z b =? 95).

Definition wordAt (text : bytes) (i : nat) : bool := match text !! i with Some b => wordByte b | None => false end.

Definition boundaryAt (text : bytes) (pos : nat) : bool :=
  xorb (match pos with O => false | S before => wordAt text before end) (wordAt text pos).

(** A match: where it ends and the last range of the group. *)
Definition matched := (nat * option (nat * nat))%type.

(** The rounds of a star. *)
Fixpoint starLoop (fuel : nat) (once : nat -> option (nat * nat) -> (matched -> option matched) -> option matched)
  (pos : nat) (group : option (nat * nat)) (next : matched -> option matched) : option matched :=
  match fuel with
  | O => next (pos, group)
  | S fuel =>
      match once pos group (fun m => if (m.1 <=? pos)%nat then None else starLoop fuel once m.1 m.2 next) with
      | Some m => Some m
      | None => next (pos, group)
      end
  end.

(** The first match in the order of preference after which [next] succeeds. *)
Fixpoint matchAt (text : bytes) (r : regexp) (pos : nat) (group : option (nat * nat)) (next : matched -> option matched) : option matched :=
  match r with
  | RClass class =>
      match drop pos text with
      | [] => None
      | (_ :: _) as rest => let '(rune, width) := DecodeRune rest in if class rune then next ((pos + width)%nat, group) else None
      end
  | RWordBoundary => if boundaryAt text pos then next (pos, group) else None
  | RSeq r s => matchAt text r pos group (fun m => matchAt text s m.1 m.2 next)
  | RAlt r s => match matchAt text r pos group next with Some m => Some m | None => matchAt text s pos group next end
  | ROpt r => match matchAt text r pos group next with Some m => Some m | None => next (pos, group) end
  | RStar r => starLoop (S (length text)) (matchAt text r) pos group next
  | RGroup r => matchAt text r pos group (fun m => next (m.1, Some (pos, m.1)))
  end.

(** The first match at [pos] or later, at the start of a rune. *)
Fixpoint searchFrom (fuel : nat) (text : bytes) (r : regexp) (pos : nat) : option (nat * matched) :=
  match matchAt text r pos None Some with
  | Some m => Some (pos, m)
  | None =>
      match fuel, drop pos text with
      | S fuel, (_ :: _) as rest => searchFrom fuel text r (pos + (DecodeRune rest).2)
      | _, _ => None
      end
  end.

(** ** [ReplaceAllString] *)

Definition groupText (text : bytes) (m : matched) : bytes :=
  match m.2 with
  | Some (a, b) => take (b - a) (drop a text)
  | None => []
  end.

(** Where the search goes on after a match that ends at [stop]. *)
Definition searchNext (text : bytes) (searchPos stop : nat) : nat :=
  let width := match drop searchPos text with [] => 0%nat | (_ :: _) as rest => (DecodeRune rest).2 end in
  if (stop <? searchPos + width)%nat then (searchPos + width)%nat
  else if (stop <? searchPos + 1)%nat then (searchPos + 1)%nat
  else stop.

(** [template] gives the replacement; [lastEnd] is the end of the last match. *)
Fixpoint replaceRounds (fuel : nat) (text : bytes) (r : regexp) (template : matched -> bytes) (lastEnd searchPos : nat) : bytes :=
  match fuel with
  | O => drop lastEnd text
  | S fuel =>
      if (length text <? searchPos)%nat then drop lastEnd text else
      match searchFrom (length text) text r searchPos with
      | None => drop lastEnd text
      | Some (start, m) =>
          take (start - lastEnd) (drop lastEnd text)
          ++ (if (lastEnd <? m.1)%nat || (start =? 0)%nat then template m else [])
          ++ replaceRounds fuel text r template m.1 (searchNext text searchPos m.1)
      end
  end.

Definition ReplaceAllFunc (r : regexp) (text : bytes) (template : matched -> bytes) : bytes :=
  replaceRounds (S (S (length text))) text r template 0 0.

Definition ReplaceAllString (r : regexp) (text : bytes) (replacement : bytes) : bytes := ReplaceAllFunc r text (fun _ => replacement).

(** ** Facts *)

(** What a search finds, [next] found at the same position or later. *)
Definition reaches (pos : nat) (next : matched -> option matched) (m : matched) : Prop := exists k, (pos <= k.1)%nat /\ next k = Some m.

Lemma reaches_here pos group next m : next (pos, group) = Some m -> reaches pos next m.
Proof. intros H. exists (pos, group). by split. Qed.

Lemma reaches_later pos pos' next m : (pos <= pos')%nat -> reaches pos' next m -> reaches pos next m.
Proof. intros Hp (k & Hk & E). exists k. split; [lia|done]. Qed.

Lemma starLoop_reaches fuel once pos group next m :
  (forall pos group next m, once pos group next = Some m -> reaches pos next m) -> starLoop fuel once pos group next = Some m -> reaches pos next m.
Proof.
  intros Honce. revert pos group. induction fuel as [|fuel IH]; intros pos group; cbn [starLoop]; [apply reaches_here|].
  destruct (once pos group _) as [m'|] eqn:E; [|apply reaches_here]. intros [= ->]. apply Honce in E as (k & Hk & E). cbn in E.
  destruct (k.1 <=? pos)%nat; [done|]. apply (reaches_later _ k.1); [done|]. by eapply IH.
Qed.

Lemma matchAt_reaches text r pos group next m : matchAt text r pos group next = Some m -> reaches pos next m.
Proof.
  revert pos group next m. induction r as [class| |r IHr s IHs|r IHr s IHs|r IHr|r IHr|r IHr]; intros pos group next m; cbn [matchAt].
  - destruct (drop pos text) as [|b rest]; [done|]. destruct (DecodeRune _) as [rune width]. destruct (class rune); [|done]. intros H.
    apply (reaches_later _ (pos + width)); [lia|]. by eapply reaches_here.
  - destruct (boundaryAt _ _); [apply reaches_here|done].
  - intros (k & Hk & H)%IHr. apply IHs in H. by apply (reaches_later _ k.1).
  - destruct (matchAt text r pos group next) eqn:E; [intros [= ->]; by eapply IHr|apply IHs].
  - destruct (matchAt text r pos group next) eqn:E; [intros [= ->]; by eapply IHr|apply reaches_here].
  - intros H. eapply starLoop_reaches; [|done]. intros ????. apply IHr.
  - intros (k & Hk & H)%IHr. by exists (k.1, Some (pos, k.1)).
Qed.

Lemma searchFrom_ends fuel text r pos start m : searchFrom fuel text r pos = Some (start, m) -> (pos <= start <= m.1)%nat.
Proof.
  assert (forall pos m, matchAt text r pos None Some = Some m -> (pos <= m.1)%nat) as Hm.
  { intros p m0 H. apply matchAt_reaches in H as (k & Hk & [= ->]). done. }
  revert pos. induction fuel as [|fuel IH]; intros pos; cbn [searchFrom]; destruct (matchAt text r pos None Some) as [m'|] eqn:E; try done.
  1, 2: intros [= <- <-]; apply Hm in E; lia.
  destruct (drop pos text) as [|b rest]; [done|]. intros H%IH. lia.
Qed.

Lemma searchNext_advances text searchPos stop : (searchPos <= stop)%nat -> (searchPos < searchNext text searchPos stop)%nat.
Proof. intros H. unfold searchNext. set (width := match drop searchPos text with [] => _ | _ => _ end). repeat case_match; reflect_bools; lia. Qed.

Lemma replaceRounds_more text r template f g lastEnd searchPos : (length text + 2 - searchPos <= f)%nat -> (length text + 2 - searchPos <= g)%nat ->
  replaceRounds f text r template lastEnd searchPos = replaceRounds g text r template lastEnd searchPos.
Proof.
  revert g lastEnd searchPos. induction f as [|f IH]; intros [|g] lastEnd searchPos Hf Hg; [done|..]; cbn [replaceRounds].
  - destruct (Nat.ltb_spec (length text) searchPos); [done|lia].
  - destruct (Nat.ltb_spec (length text) searchPos); [done|lia].
  - destruct (length text <? searchPos)%nat; [done|]. destruct (searchFrom _ _ _ _) as [[start m]|] eqn:E; [|done]. do 2 f_equal.
    apply searchFrom_ends in E. pose proof (searchNext_advances text searchPos m.1 ltac:(lia)). apply IH; lia.
Qed.

(** The rounds of [ReplaceAllFunc] are enough. *)
Lemma replaceAll_fuel r text template fuel : (S (S (length text)) <= fuel)%nat ->
  replaceRounds fuel text r template 0 0 = ReplaceAllFunc r text template.
Proof. intros H. apply replaceRounds_more; lia. Qed.
