(* ===== verification/GoBase64.v ===== *)
(** * GoBase64: encoding/base64 without padding

    [base64.RawURLEncoding] and the proof that it can be read back. *)

From S2P Require Import Prelude GoUtf8 GoStrconv GoText GoSha256 GoJson.

Open Scope Z_scope.

(** ** base64 *)

(** The characters of six bits, and their values. *)
Definition encodeSextet (n : Z) : Byte.byte :=
  if n <? 26 then z2b (65 + n) else if n <? 52 then z2b (71 + n) else if n <? 62 then z2b (n - 4) else if n =? 62 then Byte.x2d else Byte.x5f.

Definition decodeSextet (b : Byte.byte) : option Z :=
  let c := b2z b in
  if inZ 65 90 c then Some (c - 65) else if inZ 97 122 c then Some (c - 71) else if inZ 48 57 c then Some (c + 4)
  else if c =? 45 then Some 62 else if c =? 95 then Some 63 else None.

(** [RawURLEncoding.EncodeToString]. *)
Fixpoint EncodeToString (s : bytes) : bytes :=
  match s with
  | a :: b :: c :: s =>
      let v := b2z a * 65536 + b2z b * 256 + b2z c in
      encodeSextet (v / 262144) :: encodeSextet (v / 4096 mod 64) :: encodeSextet (v / 64 mod 64) :: encodeSextet (v mod 64) :: EncodeToString s
  | [a; b] => let v := b2z a * 65536 + b2z b * 256 in [encodeSextet (v / 262144); encodeSextet (v / 4096 mod 64); encodeSextet (v / 64 mod 64)]
  | [a] => let v := b2z a * 65536 in [encodeSextet (v / 262144); encodeSextet (v / 4096 mod 64)]
  | [] => []
  end.

(** The quanta; the bits left over at the end are not looked at. *)
Fixpoint decodeQuanta (s : bytes) : option bytes :=
  match s with
  | w :: x :: y :: z :: s =>
      a ← decodeSextet w; b ← decodeSextet x; c ← decodeSextet y; d ← decodeSextet z;
      let v := a * 262144 + b * 4096 + c * 64 + d in
      rest ← decodeQuanta s;
      Some (z2b (v / 65536) :: z2b (v / 256) :: z2b v :: rest)
  | [w; x; y] =>
      a ← decodeSextet w; b ← decodeSextet x; c ← decodeSextet y;
      let v := a * 262144 + b * 4096 + c * 64 in Some [z2b (v / 65536); z2b (v / 256)]
  | [w; x] => a ← decodeSextet w; b ← decodeSextet x; Some [z2b ((a * 262144 + b * 4096) / 65536)]
  | [_] => None
  | [] => Some []
  end.

(** [RawURLEncoding.DecodeString], which skips line breaks. *)
Definition DecodeString (s : bytes) : option bytes := decodeQuanta (filter (fun b => b <> Byte.x0a /\ b <> Byte.x0d) s).

Lemma decodeSextet_encode n : 0 <= n < 64 -> decodeSextet (encodeSextet n) = Some n.
Proof.
  intros H. assert (forallb (fun k => bool_decide (decodeSextet (encodeSextet (Z.of_nat k)) = Some (Z.of_nat k))) (seq 0 64) = true) as Hall by (vm_compute; reflexivity).
  rewrite forallb_forall in Hall. specialize (Hall (Z.to_nat n)). rewrite Z2Nat.id in Hall by lia. apply bool_decide_eq_true in Hall; [done|]. apply in_seq. lia.
Qed.

(** No character of the encoding is a line break or white space. *)
Lemma encodeSextet_dark n : 0 <= n < 64 -> encodeSextet n <> Byte.x0a /\ encodeSextet n <> Byte.x0d /\ asciiDark (encodeSextet n).
Proof.
  intros H. assert (forallb (fun k => let b := encodeSextet (Z.of_nat k) in bool_decide (b <> Byte.x0a /\ b <> Byte.x0d) && (b2z b <? RuneSelf) && negb (IsSpace (b2z b))) (seq 0 64) = true)
    as Hall by (vm_compute; reflexivity).
  rewrite forallb_forall in Hall. specialize (Hall (Z.to_nat n)). rewrite Z2Nat.id in Hall by lia. cbn zeta in Hall.
  apply andb_true_iff in Hall as [[H1 H2]%andb_true_iff H3%negb_true_iff]; [|apply in_seq; lia]. apply bool_decide_eq_true in H1. apply Z.ltb_lt in H2.
  split; [apply H1|]. split; [apply H1|]. by split.
Qed.

Lemma list_three_ind {A} (P : list A -> Prop) : P [] -> (forall a, P [a]) -> (forall a b, P [a; b]) ->
  (forall a b c l, P l -> P (a :: b :: c :: l)) -> forall l, P l.
Proof.
  intros H0 H1 H2 H3 l. remember (length l) as n eqn:En. revert l En. induction (lt_wf n) as [n _ IH]. intros [|a [|b [|c l]]] ->; try done.
  apply H3. apply (IH (length l)); [cbn; lia|done].
Qed.

Ltac sextets := repeat match goal with |- context [b2z ?b] => lazymatch goal with H : 0 <= b2z b < 256 |- _ => fail | _ => pose proof (b2z_range b) end end.

Lemma EncodeToString_dark s : Forall (fun b => b <> Byte.x0a /\ b <> Byte.x0d /\ asciiDark b) (EncodeToString s).
Proof.
  induction s as [|a|a b|a b c s IH] using list_three_ind; cbn [EncodeToString]; [constructor|..]; repeat apply Forall_cons_2; try done; try apply Forall_nil_2;
    apply encodeSextet_dark; sextets; Z.to_euclidean_division_equations; lia.
Qed.

Lemma quantum (a b c : Byte.byte) v : v = b2z a * 65536 + b2z b * 256 + b2z c ->
  v / 262144 * 262144 + v / 4096 mod 64 * 4096 + v / 64 mod 64 * 64 + v mod 64 = v /\
  (0 <= v / 262144 < 64 /\ 0 <= v / 4096 mod 64 < 64 /\ 0 <= v / 64 mod 64 < 64 /\ 0 <= v mod 64 < 64).
Proof.
  intros ->. sextets. split; [|split_and!]; try (Z.to_euclidean_division_equations; lia).
Qed.

Lemma z2b_byte b v : v mod 256 = b2z b -> z2b v = b.
Proof. intros H. apply b2z_inj. by rewrite b2z_z2b. Qed.

Lemma decode_encode s : decodeQuanta (EncodeToString s) = Some s.
Proof.
  induction s as [|a|a b|a b c s IH] using list_three_ind; cbn [EncodeToString]; [done|..].
  - sextets. cbn [decodeQuanta]. rewrite !decodeSextet_encode by (Z.to_euclidean_division_equations; lia). cbn. do 2 f_equal.
    apply z2b_byte. Z.to_euclidean_division_equations; lia.
  - sextets. cbn [decodeQuanta]. rewrite !decodeSextet_encode by (Z.to_euclidean_division_equations; lia). cbn.
    assert (z2b ((b2z a * 65536 + b2z b * 256) / 65536) = a) as Ha by (apply z2b_byte; Z.to_euclidean_division_equations; lia).
    destruct (quantum a b Byte.x00 _ eq_refl) as [Hq _]. change (b2z Byte.x00) with 0 in Hq. rewrite Z.add_0_r in Hq.
    set (v := b2z a * 65536 + b2z b * 256) in *. assert (v mod 64 = 0) as Hm by (unfold v; Z.to_euclidean_division_equations; lia).
    rewrite Hm, Z.add_0_r in Hq. rewrite Hq, Ha. do 3 f_equal. apply z2b_byte. unfold v. Z.to_euclidean_division_equations; lia.
  - destruct (quantum a b c _ eq_refl) as (Hq & H1 & H2 & H3 & H4). cbn [decodeQuanta]. rewrite !decodeSextet_encode by done. cbn.
    rewrite IH. cbn. rewrite Hq. sextets. f_equal. f_equal; [|f_equal; [|f_equal]]; apply z2b_byte; Z.to_euclidean_division_equations; lia.
Qed.

Lemma DecodeString_Encode s : DecodeString (EncodeToString s) = Some s.
Proof.
  unfold DecodeString. assert (filter (fun b => b <> Byte.x0a /\ b <> Byte.x0d) (EncodeToString s) = EncodeToString s) as ->; [|apply decode_encode].
  induction (EncodeToString_dark s) as [|b l (H1 & H2 & _) _ IH]; [done|]. rewrite filter_cons_True by done. by rewrite IH.
Qed.

Example base64_sample : EncodeToString (lit "any carnal pleas") = lit "YW55IGNhcm5hbCBwbGVhcw".
Proof. vm_compute. reflexivity. Qed.
