(* ===== verification/GoJsonText.v ===== *)
(** * GoJsonText: values that encoding/json writes and reads back

    A string that [json.Marshal] writes is one token of the scanner, with the value it was
    written from ([jsonString_read], [string_read]); the value of any string token is valid
    UTF-8 ([decodeString_valid]); a member of an object reads back ([parseField_here]). *)

From S2P Require Import Prelude GoUtf8 GoStrconv GoText GoJson GoSha256 GoBase64.

Open Scope Z_scope.

(** ** Strings in JSON *)

(** A piece of a JSON string: it is passed over as a whole and read as [t]. *)
Definition piece (p t : bytes) : Prop :=
  p <> [] /\ (forall rest, stringEnd (p ++ rest) = '(raw, rest) ← stringEnd rest; Some (p ++ raw, rest)) /\
  (forall fuel rest, (length p <= fuel)%nat -> jsonUnquote fuel (p ++ rest) = app t <$> jsonUnquote (fuel - 1) rest).

Lemma piece_ascii b : b2z b < 128 -> piece (if htmlSafe b then [b] else jsonEscape b) [b].
Proof.
  intros Hb. split; [by destruct b|]. split.
  - intros rest. destruct b; try (vm_compute in Hb; discriminate); reflexivity.
  - intros [|fuel] rest Hf; [by destruct b; cbn in Hf; lia|]. rewrite Nat.sub_1_r. cbn [Nat.pred]. destruct b; try (vm_compute in Hb; discriminate); reflexivity.
Qed.

(** A rune that decodes, of more than one byte. *)
Inductive runeBytes : bytes -> Z -> Prop :=
| runeBytes2 b0 b1 : firstByte (b2z b0) = Some (2%nat, 128, 191) -> 194 <= b2z b0 <= 223 -> 128 <= b2z b1 <= 191 ->
    runeBytes [b0; b1] ((b2z b0 - 192) * 64 + (b2z b1 - 128))
| runeBytes3 b0 b1 b2 lo hi : firstByte (b2z b0) = Some (3%nat, lo, hi) -> 224 <= b2z b0 <= 239 -> inZ lo hi (b2z b1) = true -> isCont (b2z b2) = true ->
    (128 <= lo /\ hi <= 191) -> (b2z b0 = 224 -> 160 <= lo) -> (b2z b0 = 237 -> hi <= 159) ->
    runeBytes [b0; b1; b2] ((b2z b0 - 224) * 4096 + (b2z b1 - 128) * 64 + (b2z b2 - 128))
| runeBytes4 b0 b1 b2 b3 lo hi : firstByte (b2z b0) = Some (4%nat, lo, hi) -> 240 <= b2z b0 <= 244 -> inZ lo hi (b2z b1) = true -> isCont (b2z b2) = true ->
    isCont (b2z b3) = true -> (128 <= lo /\ hi <= 191) -> (b2z b0 = 240 -> 144 <= lo) -> (b2z b0 = 244 -> hi <= 143) ->
    runeBytes [b0; b1; b2; b3] ((b2z b0 - 240) * 262144 + (b2z b1 - 128) * 4096 + (b2z b2 - 128) * 64 + (b2z b3 - 128)).

Lemma DecodeRune_wide b s r w : 128 <= b2z b -> DecodeRune (b :: s) = (r, w) -> (w =? 1)%nat && (r =? RuneError) = false ->
  exists p rest, b :: s = p ++ rest /\ length p = w /\ runeBytes p r.
Proof.
  intros Hb E Hok. unfold DecodeRune in E. destruct (firstByte (b2z b)) as [[[n lo] hi]|] eqn:Ef; [|by injection E as <- <-].
  assert ((n = 2%nat /\ lo = 128 /\ hi = 191 /\ 194 <= b2z b <= 223) \/
          (n = 3%nat /\ 224 <= b2z b <= 239 /\ (128 <= lo /\ hi <= 191) /\ (b2z b = 224 -> 160 <= lo) /\ (b2z b = 237 -> hi <= 159)) \/
          (n = 4%nat /\ 240 <= b2z b <= 244 /\ (128 <= lo /\ hi <= 191) /\ (b2z b = 240 -> 144 <= lo) /\ (b2z b = 244 -> hi <= 143))) as Hn.
  { clear - Ef Hb. unfold firstByte in Ef. repeat case_match; reflect_bools; simplify_eq; lia. }
  destruct Hn as [(-> & -> & -> & Hr)|[(-> & Hr & Hl & H1 & H2)|(-> & Hr & Hl & H1 & H2)]]; cbn [Nat.eqb] in E;
    destruct s as [|b1 s]; try (by injection E as <- <-); destruct (negb (inZ _ _ (b2z b1))) eqn:E1; try (by injection E as <- <-); apply negb_false_iff in E1.
  - injection E as <- <-. exists [b; b1], s. split_and!; [done|done|]. constructor; [done|done|]. unfold inZ in E1. reflect_bools. lia.
  - destruct s as [|b2 s]; [by injection E as <- <-|]. destruct (negb (isCont (b2z b2))) eqn:E2; [by injection E as <- <-|]. apply negb_false_iff in E2.
    injection E as <- <-. exists [b; b1; b2], s. split_and!; [done|done|]. by eapply runeBytes3.
  - destruct s as [|b2 s]; [by injection E as <- <-|]. destruct (negb (isCont (b2z b2))) eqn:E2; [by injection E as <- <-|]. apply negb_false_iff in E2.
    destruct s as [|b3 s]; [by injection E as <- <-|]. destruct (negb (isCont (b2z b3))) eqn:E3; [by injection E as <- <-|]. apply negb_false_iff in E3.
    injection E as <- <-. exists [b; b1; b2; b3], s. split_and!; [done|done|]. by eapply runeBytes4.
Qed.

Lemma runeBytes_decode p r rest : runeBytes p r -> DecodeRune (p ++ rest) = (r, length p).
Proof.
  intros [b0 b1 Hf _ H1|b0 b1 b2 lo hi Hf _ H1 H2 _ _ _|b0 b1 b2 b3 lo hi Hf _ H1 H2 H3 _ _ _]; unfold DecodeRune; cbn [app]; rewrite Hf; cbn [Nat.eqb length].
  - assert (inZ 128 191 (b2z b1) = true) as -> by (unfold inZ; apply andb_true_iff; split; apply Z.leb_le; lia). done.
  - by rewrite H1, H2.
  - by rewrite H1, H2, H3.
Qed.

Lemma runeBytes_encode p r : runeBytes p r -> EncodeRune r = p.
Proof.
  intros [b0 b1 Hf Hr H1|b0 b1 b2 lo hi Hf Hr H1 H2 Hl Ha Hb|b0 b1 b2 b3 lo hi Hf Hr H1 H2 H3 Hl Ha Hb]; unfold EncodeRune, ValidRune, inZ, isCont in *; reflect_bools.
  - set (rr := (b2z b0 - 192) * 64 + (b2z b1 - 128)) in *. assert (128 <= rr < 2048) as Hrr by (unfold rr; lia).
    assert ((0 <=? rr) && (rr <=? 55295) = true) as -> by (apply andb_true_iff; split; apply Z.leb_le; lia). cbn [orb].
    rewrite (proj2 (Z.ltb_ge rr 128)), (proj2 (Z.ltb_lt rr 2048)) by lia. unfold rr. f_equal; [|f_equal]; apply z2b_byte; sextets; Z.to_euclidean_division_equations; lia.
  - set (rr := (b2z b0 - 224) * 4096 + (b2z b1 - 128) * 64 + (b2z b2 - 128)) in *. assert (2048 <= rr < 65536) as Hrr by (unfold rr; lia).
    assert ((0 <=? rr) && (rr <=? 55295) || (57344 <=? rr) && (rr <=? MaxRune) = true) as ->.
    { destruct (Z.leb_spec rr 55295); [apply orb_true_iff; left; apply andb_true_iff; split; [apply Z.leb_le; lia|done]|].
      apply orb_true_iff; right. unfold MaxRune. apply andb_true_iff. split; apply Z.leb_le; [|lia]. unfold rr in *. lia. }
    rewrite (proj2 (Z.ltb_ge rr 128)), (proj2 (Z.ltb_ge rr 2048)), (proj2 (Z.ltb_lt rr 65536)) by lia.
    unfold rr. f_equal; [|f_equal; [|f_equal]]; apply z2b_byte; sextets; Z.to_euclidean_division_equations; lia.
  - set (rr := (b2z b0 - 240) * 262144 + (b2z b1 - 128) * 4096 + (b2z b2 - 128) * 64 + (b2z b3 - 128)) in *.
    assert (65536 <= rr <= MaxRune) as Hrr by (unfold rr, MaxRune; lia).
    assert ((0 <=? rr) && (rr <=? 55295) || (57344 <=? rr) && (rr <=? MaxRune) = true) as ->.
    { apply orb_true_iff; right. apply andb_true_iff. split; apply Z.leb_le; lia. }
    rewrite (proj2 (Z.ltb_ge rr 128)), (proj2 (Z.ltb_ge rr 2048)), (proj2 (Z.ltb_ge rr 65536)) by lia.
    unfold rr. f_equal; [|f_equal; [|f_equal; [|f_equal]]]; apply z2b_byte; sextets; Z.to_euclidean_division_equations; lia.
Qed.

Lemma runeBytes_high p r : runeBytes p r -> Forall (fun b => 128 <= b2z b) p.
Proof.
  intros [b0 b1 Hf Hr H1|b0 b1 b2 lo hi Hf Hr H1 H2 Hl Ha Hb|b0 b1 b2 b3 lo hi Hf Hr H1 H2 H3 Hl Ha Hb]; unfold inZ, isCont in *; reflect_bools;
    repeat apply Forall_cons_2; try apply Forall_nil_2; lia.
Qed.

Lemma stringEnd_high p rest : Forall (fun b => 128 <= b2z b) p -> stringEnd (p ++ rest) = '(raw, rest) ← stringEnd rest; Some (p ++ raw, rest).
Proof.
  induction 1 as [|b p Hb _ IH]; [change ([] ++ rest) with rest; by destruct (stringEnd rest) as [[raw rest']|]|]. cbn [app stringEnd].
  rewrite bool_decide_eq_false_2 by (intros ->; vm_compute in Hb; done). rewrite bool_decide_eq_false_2 by (intros ->; vm_compute in Hb; done).
  rewrite (proj2 (Z.ltb_ge (b2z b) 32)) by lia. rewrite IH. by destruct (stringEnd rest) as [[raw rest']|].
Qed.

Lemma piece_rune p r : runeBytes p r -> piece p p.
Proof.
  intros H. pose proof (runeBytes_high _ _ H) as Hh. assert (exists b p', p = b :: p' /\ 128 <= b2z b) as (b & p' & Ep & Hb).
  { destruct H; apply Forall_cons in Hh as [Hb _]; eauto. }
  split; [by subst p|]. split; [intros rest; by apply stringEnd_high|]. intros [|fuel] rest Hf; [by subst p; cbn in Hf; lia|]. rewrite Nat.sub_1_r. cbn [Nat.pred].
  assert (jsonUnquote (S fuel) (p ++ rest) = (let '(r, width) := DecodeRune (p ++ rest) in app (EncodeRune r) <$> jsonUnquote fuel (drop width (p ++ rest)))) as ->.
  { rewrite Ep. cbn [app jsonUnquote]. rewrite bool_decide_eq_false_2 by (intros ->; vm_compute in Hb; done). rewrite bool_decide_eq_false_2 by (intros ->; vm_compute in Hb; done).
    rewrite (proj2 (Z.ltb_ge (b2z b) 32)), (proj2 (Z.ltb_ge (b2z b) RuneSelf)) by (unfold RuneSelf; lia). done. }
  rewrite (runeBytes_decode _ _ _ H), (runeBytes_encode _ _ H), drop_app_length. done.
Qed.

Lemma piece_separator r : r = 8232 \/ r = 8233 -> piece (if r =? 8232 then lit "\u2028" else lit "\u2029") (EncodeRune r).
Proof. intros [->| ->]; (split; [done|]; split; [reflexivity|]); intros [|fuel] rest Hf; try (vm_compute in Hf; lia); rewrite Nat.sub_1_r; reflexivity. Qed.

(** A text in the pieces of its JSON. *)
Inductive pieces : bytes -> bytes -> Prop :=
| noPieces : pieces [] []
| onePiece p t raw s : piece p t -> pieces raw s -> pieces (p ++ raw) (t ++ s).

Lemma jsonLoop_pieces fuel s : (length s <= fuel)%nat -> validLoop fuel s = true -> pieces (jsonLoop fuel s) s.
Proof.
  revert s. induction fuel as [|fuel IH]; intros s Hf Hv; [destruct s; [constructor|cbn in Hf; lia]|]. destruct s as [|b s]; [constructor|].
  cbn [validLoop] in Hv. cbn [jsonLoop]. destruct (DecodeRune (b :: s)) as [r w] eqn:E. destruct ((w =? 1)%nat && (r =? RuneError)) eqn:Ew; [done|].
  pose proof (DecodeRune_width b s) as Hw. rewrite E in Hw. cbn [snd] in Hw. destruct (Z.ltb_spec (b2z b) RuneSelf) as [Hb|Hb].
  - unfold RuneSelf in Hb. rewrite DecodeRune_ascii in E by done. injection E as <- <-. apply (onePiece _ [b] _ s); [by apply piece_ascii|].
    apply IH; [cbn in Hf |- *; lia|done].
  - unfold RuneSelf in Hb. destruct (DecodeRune_wide _ _ _ _ Hb E Ew) as (p & rest & Es & <- & Hp). rewrite (andb_comm (r =? RuneError)), Ew. rewrite Es in *.
    rewrite drop_app_length in *. rewrite take_app_length. rewrite length_app in Hf. assert (pieces (jsonLoop fuel rest) rest) as Hrest by (apply IH; [lia|done]).
    pose proof (runeBytes_encode _ _ Hp) as He. pose proof (piece_separator r) as Hsep. rewrite He in Hsep. destruct (Z.eqb_spec r 8232) as [->|]; [apply onePiece; [apply Hsep; by left|done]|].
    destruct (Z.eqb_spec r 8233) as [->|]; [apply onePiece; [apply Hsep; by right|done]|]. apply onePiece; [by eapply piece_rune|done].
Qed.

Lemma pieces_end raw s rest : pieces raw s -> stringEnd (raw ++ dquote :: rest) = Some (raw ++ [dquote], rest).
Proof. induction 1 as [|p t raw s (_ & Hp & _) _ IH]; [done|]. rewrite <- !app_assoc. by rewrite Hp, IH. Qed.

Lemma pieces_unquote raw s fuel : pieces raw s -> (length raw <= fuel)%nat -> jsonUnquote fuel raw = Some s.
Proof.
  intros H. revert fuel. induction H as [|p t raw s (Hne & _ & Hp) _ IH]; intros fuel Hf; [by destruct fuel|]. rewrite length_app in Hf.
  rewrite Hp by lia. rewrite IH; [done|]. destruct p; [done|]. cbn in Hf. lia.
Qed.

(** What [json.Marshal] writes for a valid string is a JSON string with that value. *)
Lemma jsonString_read s rest : ValidString s = true -> exists raw, jsonString s = dquote :: raw /\ stringEnd (raw ++ rest) = Some (raw, rest) /\
  decodeString (jsonString s) = Some s.
Proof.
  intros H. pose proof (jsonLoop_pieces (length s) s ltac:(done) H) as Hp. exists (jsonLoop (length s) s ++ [dquote]). split_and!; [done| |].
  - rewrite <- app_assoc. by eapply pieces_end.
  - unfold decodeString, jsonString. cbn [app length drop]. rewrite length_app. cbn [length].
    replace (S (length (jsonLoop (length s) s) + 1) - 2)%nat with (length (jsonLoop (length s) s)) by lia. rewrite drop_0, take_app_length. by apply pieces_unquote.
Qed.

Lemma string_read s X : ValidString s = true -> parseValue 1 (jsonString s ++ X) = Some (JString (jsonString s), X).
Proof.
  intros H. destruct (jsonString_read s X H) as (raw & -> & E & _). cbn [app parseValue]. change (skipSpace (dquote :: raw ++ X)) with (dquote :: raw ++ X). cbv iota.
  change (bool_decide (dquote = dquote)) with true. cbv iota. by rewrite E.
Qed.

(** A member of an object. *)
Lemma parseField_here elem raw X v Y : stringEnd (raw ++ Byte.x3a :: X) = Some (raw, Byte.x3a :: X) -> elem X = Some (v, Y) ->
  parseField elem (dquote :: raw ++ Byte.x3a :: X) = Some (dquote :: raw, v, Y).
Proof.
  intros Hs Hv. unfold parseField. change (skipSpace (dquote :: ?s)) with (dquote :: s). cbv iota. change (bool_decide (dquote = dquote)) with true. cbv iota.
  rewrite Hs. cbn [mbind option_bind]. change (skipSpace (Byte.x3a :: X)) with (Byte.x3a :: X). cbv iota. change (bool_decide (Byte.x3a = Byte.x3a)) with true. cbv iota.
  by rewrite Hv.
Qed.

(** ** Runes *)

(** The bytes of one rune of valid text. *)
Definition wholeRune (p : bytes) : Prop := (exists b, p = [b] /\ b2z b < 128) \/ exists r, runeBytes p r.

Lemma wholeRune_decode p rest : wholeRune p -> exists r, DecodeRune (p ++ rest) = (r, length p) /\ (length p =? 1)%nat && (r =? RuneError) = false.
Proof.
  intros [(b & -> & Hb)|(r & Hp)].
  - exists (b2z b). change ([b] ++ rest) with (b :: rest). rewrite DecodeRune_ascii by done. split; [done|]. cbn [length Nat.eqb andb]. apply Z.eqb_neq. unfold RuneError. lia.
  - exists r. rewrite (runeBytes_decode _ _ _ Hp). split; [done|]. by destruct Hp.
Qed.

Lemma wholeRune_nonempty p : wholeRune p -> (0 < length p)%nat.
Proof. intros [(b & -> & _)|(r & [])]; cbn; lia. Qed.

Lemma validLoop_runes fuel s : (length s <= fuel)%nat -> validLoop fuel s = true <-> exists ps, s = concat ps /\ Forall wholeRune ps.
Proof.
  revert s. induction fuel as [|fuel IH]; intros s Hf.
  { destruct s; [|cbn in Hf; lia]. split; [|done]. intros _. by exists []. }
  destruct s as [|b s]; [split; [by exists []|done]|]. cbn [validLoop]. destruct (DecodeRune (b :: s)) as [r w] eqn:E.
  pose proof (DecodeRune_width b s) as Hw. rewrite E in Hw. cbn [snd] in Hw. split.
  - intros H. destruct ((w =? 1)%nat && (r =? RuneError)) eqn:Ew; [done|].
    apply IH in H as (ps & Hps & Hall); [|rewrite length_drop; cbn [length] in *; lia]. exists (take w (b :: s) :: ps). split; [cbn [concat]; by rewrite <- Hps, take_drop|].
    constructor; [|done]. destruct (Z.ltb_spec (b2z b) 128) as [Hb|Hb].
    + left. rewrite DecodeRune_ascii in E by done. injection E as <- <-. by exists b.
    + right. destruct (DecodeRune_wide _ _ _ _ Hb E Ew) as (p & rest & -> & <- & Hp). rewrite take_app_length. by exists r.
  - intros ([|p ps] & Hps & Hall); [done|]. apply Forall_cons in Hall as [Hp Hall]. cbn [concat] in Hps.
    destruct (wholeRune_decode p (concat ps) Hp) as (r' & E' & Hne). rewrite <- Hps, E in E'. injection E' as -> ->. rewrite Hne. apply IH.
    + rewrite length_drop. pose proof (wholeRune_nonempty p Hp). cbn [length] in *. lia.
    + exists ps. rewrite Hps, drop_app_length. done.
Qed.

Lemma ValidString_runes s : ValidString s = true <-> exists ps, s = concat ps /\ Forall wholeRune ps.
Proof. by apply validLoop_runes. Qed.

Lemma b2z_small z : 0 <= z < 256 -> b2z (z2b z) = z.
Proof. intros H. rewrite b2z_z2b. by apply Z.mod_small. Qed.

Lemma isCont_low x : isCont (128 + x mod 64) = true.
Proof. pose proof (Z.mod_pos_bound x 64 ltac:(lia)). unfold isCont. apply andb_true_iff. split; apply Z.leb_le; lia. Qed.

(** The ranges of the second byte. *)
Lemma firstByte_three a b : 0 <= a < 16 -> 0 <= b < 64 -> (a = 0 -> 32 <= b) -> (a = 13 -> b <= 31) -> exists lo hi,
  firstByte (224 + a) = Some (3%nat, lo, hi) /\ inZ lo hi (128 + b) = true /\ (128 <= lo /\ hi <= 191) /\ (224 + a = 224 -> 160 <= lo) /\ (224 + a = 237 -> hi <= 159).
Proof.
  intros Ha Hb H0 H13. unfold firstByte, inZ. rewrite (proj2 (Z.ltb_ge (224 + a) 128)), (proj2 (Z.ltb_ge (224 + a) 194)), (proj2 (Z.ltb_ge (224 + a) 224)) by lia.
  destruct (Z.eqb_spec (224 + a) 224); [|destruct (Z.eqb_spec (224 + a) 237); [|rewrite (proj2 (Z.ltb_lt (224 + a) 240)) by lia]]; do 2 eexists;
    (split; [reflexivity|]); (split; [apply andb_true_iff; split; apply Z.leb_le; lia|]); lia.
Qed.

Lemma firstByte_four a b : 0 <= a <= 4 -> 0 <= b < 64 -> (a = 0 -> 16 <= b) -> (a = 4 -> b <= 15) -> exists lo hi,
  firstByte (240 + a) = Some (4%nat, lo, hi) /\ inZ lo hi (128 + b) = true /\ (128 <= lo /\ hi <= 191) /\ (240 + a = 240 -> 144 <= lo) /\ (240 + a = 244 -> hi <= 143).
Proof.
  intros Ha Hb H0 H4. assert (a = 0 \/ a = 1 \/ a = 2 \/ a = 3 \/ a = 4) as Hcase by lia. unfold inZ.
  destruct Hcase as [-> | [-> | [-> | [-> | ->]]]]; do 2 eexists; (split; [reflexivity|]); (split; [apply andb_true_iff; split; apply Z.leb_le; lia|]); lia.
Qed.

(** Whatever number is written as a rune, the bytes are one rune. *)
Lemma EncodeRune_whole r : wholeRune (EncodeRune r).
Proof.
  unfold EncodeRune. set (q := if ValidRune r then r else RuneError).
  assert (0 <= q <= MaxRune /\ (q <= 55295 \/ 57344 <= q)) as (Hq & Hs).
  { unfold q, ValidRune, inZ, MaxRune, RuneError. destruct (_ || _) eqn:E; [|lia]. reflect_bools. unfold MaxRune in *. lia. }
  clearbody q. unfold MaxRune in Hq. destruct (Z.ltb_spec q 128); [left; exists (z2b q); rewrite b2z_small by lia; split; [done|lia]|]. right.
  pose proof (Z.mod_pos_bound q 64 ltac:(lia)) as Hm.
  assert (forall x, b2z (z2b (128 + x mod 64)) = 128 + x mod 64) as Hcont by (intros x; apply b2z_small; pose proof (Z.mod_pos_bound x 64 ltac:(lia)); lia).
  destruct (Z.ltb_spec q 2048); [|destruct (Z.ltb_spec q 65536)].
  - assert (2 <= q / 64 <= 31) by (Z.to_euclidean_division_equations; lia). eexists.
    apply runeBytes2; rewrite ?Hcont, ?b2z_small by lia; try lia. unfold firstByte. by rewrite (proj2 (Z.ltb_ge _ 128)), (proj2 (Z.ltb_ge _ 194)), (proj2 (Z.ltb_lt _ 224)) by lia.
  - destruct (firstByte_three (q / 4096) (q / 64 mod 64)) as (lo & hi & Hf & Hi & Hl & Ha & Hb); try (Z.to_euclidean_division_equations; lia).
    assert (b2z (z2b (224 + q / 4096)) = 224 + q / 4096) as E0 by (apply b2z_small; Z.to_euclidean_division_equations; lia).
    eexists. apply (runeBytes3 _ _ _ lo hi); rewrite ?Hcont, ?E0; try done; [Z.to_euclidean_division_equations; lia|apply isCont_low].
  - destruct (firstByte_four (q / 262144) (q / 4096 mod 64)) as (lo & hi & Hf & Hi & Hl & Ha & Hb); try (Z.to_euclidean_division_equations; lia).
    assert (b2z (z2b (240 + q / 262144)) = 240 + q / 262144) as E0 by (apply b2z_small; Z.to_euclidean_division_equations; lia).
    eexists. apply (runeBytes4 _ _ _ _ lo hi); rewrite ?Hcont, ?E0; try done; [Z.to_euclidean_division_equations; lia|apply isCont_low|apply isCont_low].
Qed.

(** A text of whole runes. *)
Definition runes (s : bytes) : Prop := exists ps, s = concat ps /\ Forall wholeRune ps.

Lemma runes_app p s : wholeRune p -> runes s -> runes (p ++ s).
Proof. intros Hp (ps & -> & Hs). exists (p :: ps). split; [done|]. by constructor. Qed.

Lemma runes_byte b s : b2z b < 128 -> runes s -> runes (b :: s).
Proof. intros Hb. apply (runes_app [b]). left. by exists b. Qed.

(** The value of the text of a string is valid UTF-8, and every text that the scanner takes for
    a string has a value. *)
Lemma jsonUnquote_runes fuel s t : jsonUnquote fuel s = Some t -> runes t.
Proof.
  revert s t. induction fuel as [|fuel IH]; intros s t E.
  { injection E as <-. exists []. by split. }
  destruct s as [|b s]; [injection E as <-; exists []; by split|]. cbn [jsonUnquote] in E.
  assert (forall p s', app p <$> jsonUnquote fuel s' = Some t -> wholeRune p -> runes t) as Happ.
  { intros p s' (u & Hu & ->)%fmap_Some Hp. apply runes_app; [done|]. by eapply IH. }
  assert (forall c, b2z c < 128 -> wholeRune [c]) as Hone by (intros c Hc; left; by exists c).
  repeat (case_match; try discriminate; try (by eapply Happ, EncodeRune_whole)); try (eapply Happ; [done|apply Hone; done]);
    try (eapply Happ; [done|]); apply Hone; reflect_bools; subst; try done.
  repeat match goal with H : _ || _ = true |- _ => apply orb_true_iff in H as [H|H] end; apply bool_decide_eq_true in H1 as ->; done.
Qed.

Lemma decodeString_valid raw s : decodeString raw = Some s -> ValidString s = true.
Proof. intros H. by eapply ValidString_runes, jsonUnquote_runes. Qed.

(** The inside of a string token. *)
Inductive stringBody : bytes -> Prop :=
| bodyNil : stringBody []
| bodyByte b s : b <> dquote -> b <> backslash -> 32 <= b2z b -> stringBody s -> stringBody (b :: s)
| bodyEscape c s : existsb (fun x => bool_decide (c = x)) (lit "bfnrt\/") || bool_decide (c = dquote) = true -> stringBody s -> stringBody (backslash :: c :: s)
| bodyUnicode h1 h2 h3 h4 s : isHex h1 && isHex h2 && isHex h3 && isHex h4 = true -> stringBody s -> stringBody (backslash :: Byte.x75 :: h1 :: h2 :: h3 :: h4 :: s).

Lemma stringEnd_body s raw rest : stringEnd s = Some (raw, rest) -> exists inner, raw = inner ++ [dquote] /\ stringBody inner.
Proof.
  remember (length s) as n eqn:En. revert s raw rest En. induction (lt_wf n) as [n _ IH]. intros s raw rest -> E.
  destruct s as [|b s]; [done|]. cbn [stringEnd] in E. case_bool_decide as Eq; [injection E as <- <-; exists []; subst; by split; [|constructor]|].
  case_bool_decide as Es.
  - destruct s as [|c s]; [done|]. destruct (existsb _ _ || _) eqn:Ec.
    + destruct (stringEnd s) as [[raw0 rest0]|] eqn:E0; [|done]. injection E as <- <-.
      destruct (IH (length s) ltac:(cbn; lia) _ _ _ eq_refl E0) as (inner & -> & H). exists (b :: c :: inner). subst b. split; [done|by constructor].
    + case_bool_decide as Eu; [|done]. destruct s as [|h1 [|h2 [|h3 [|h4 s]]]]; try done. destruct (_ && _) eqn:Eh; [|done].
      destruct (stringEnd s) as [[raw0 rest0]|] eqn:E0; [|done]. injection E as <- <-.
      destruct (IH (length s) ltac:(cbn; lia) _ _ _ eq_refl E0) as (inner & -> & H). exists (b :: c :: h1 :: h2 :: h3 :: h4 :: inner). subst b c. split; [done|by constructor].
  - destruct (b2z b <? 32) eqn:El; [done|]. destruct (stringEnd s) as [[raw0 rest0]|] eqn:E0; [|done]. injection E as <- <-. reflect_bools.
    destruct (IH (length s) ltac:(cbn; lia) _ _ _ eq_refl E0) as (inner & -> & H). exists (b :: inner). split; [done|by constructor].
Qed.

(** The inside behind bytes from 128 on. *)
Lemma body_drop w s : stringBody s -> Forall (fun b => 128 <= b2z b) (take w s) -> stringBody (drop w s).
Proof.
  revert s. induction w as [|w IH]; intros s H Hw; [by rewrite drop_0|]. destruct H as [|b s H1 H2 H3 H|c s Hc H|h1 h2 h3 h4 s Hh H]; cbn [take drop] in *.
  - constructor.
  - apply Forall_inv_tail in Hw. by apply IH.
  - by apply Forall_inv in Hw.
  - by apply Forall_inv in Hw.
Qed.

Lemma hex4_body h1 h2 h3 h4 s : isHex h1 && isHex h2 && isHex h3 && isHex h4 = true -> exists r, hex4 (h1 :: h2 :: h3 :: h4 :: s) = Some (r, s).
Proof. unfold hex4, isHex. cbn [hexValue]. intros H. repeat case_match; try done. by eexists. Qed.

Lemma getu4_body s r rest : stringBody s -> getu4 s = Some (r, rest) -> stringBody rest.
Proof.
  intros H E. destruct H as [|b s H1 H2 H3 H|c s Hc H|h1 h2 h3 h4 s Hh H]; [done| | |].
  - unfold getu4 in E. destruct s; [done|]. by rewrite bool_decide_eq_false_2 in E.
  - unfold getu4 in E. destruct (bool_decide (c = Byte.x75)) eqn:Eu; [|by rewrite andb_comm in E]. apply bool_decide_eq_true in Eu as ->. done.
  - destruct (hex4_body h1 h2 h3 h4 s Hh) as (r' & E'). change (hex4 (h1 :: h2 :: h3 :: h4 :: s) = Some (r, rest)) in E. rewrite E' in E. by injection E as _ <-.
Qed.

(** Every string token has a value. *)
Lemma body_unquote fuel s : stringBody s -> is_Some (jsonUnquote fuel s).
Proof.
  revert s. induction fuel as [|fuel IH]; intros s H; [done|].
  assert (forall p s', stringBody s' -> is_Some (app p <$> jsonUnquote fuel s')) as Happ by (intros p s' Hs; apply fmap_is_Some; by apply IH).
  destruct H as [|b s H1 H2 H3 H|c s Hc H|h1 h2 h3 h4 s Hh H]; cbn [jsonUnquote]; [done| | |].
  - rewrite bool_decide_eq_false_2, bool_decide_eq_false_2 by done. rewrite (proj2 (Z.ltb_ge (b2z b) 32)) by lia. cbn [orb].
    destruct (b2z b <? RuneSelf) eqn:El; [by apply Happ|]. reflect_bools. unfold RuneSelf in El. destruct (DecodeRune (b :: s)) as [r w] eqn:E. apply Happ.
    apply body_drop; [by constructor|]. destruct ((w =? 1)%nat && (r =? RuneError)) eqn:Ew.
    + reflect_bools. subst. cbn. constructor; [lia|constructor].
    + destruct (DecodeRune_wide b s r w ltac:(lia) E Ew) as (p & rest & -> & <- & Hp). rewrite take_app_length. by eapply runeBytes_high.
  - change (bool_decide (backslash = backslash)) with true. cbv iota. repeat case_match; try (by apply Happ); exfalso.
    all: destruct c; vm_compute in Hc; try discriminate; done.
  - change (bool_decide (backslash = backslash)) with true. cbv iota.
    repeat (match goal with |- context [bool_decide (Byte.x75 = ?c)] => let v := eval vm_compute in (bool_decide (Byte.x75 = c)) in change (bool_decide (Byte.x75 = c)) with v end; cbn [orb]; cbv iota).
    destruct (hex4_body h1 h2 h3 h4 s Hh) as (r & ->). destruct (inZ _ _ r); [|by apply Happ]. destruct (getu4 s) as [[r2 rest2]|] eqn:E; [|by apply Happ].
    destruct (decodeSurrogates r r2); apply Happ; [by eapply getu4_body|done].
Qed.

Lemma decodeString_Some s raw rest : stringEnd s = Some (raw, rest) -> is_Some (decodeString (dquote :: raw)).
Proof.
  intros (inner & -> & H)%stringEnd_body. unfold decodeString. cbn [drop length]. rewrite length_app. cbn [length].
  replace (S (length inner + 1) - 2)%nat with (length inner) by lia. rewrite ?drop_0, take_app_length. by apply body_unquote.
Qed.

(** ** Containers *)

Definition delimited (rest : bytes) : Prop := exists b t, rest = b :: t /\ delimiter b.

(** [t] is a token that [elem] reads as [v] before a delimiter. *)
Definition readsAs (elem : bytes -> option (json * bytes)) (t : bytes) (v : json) : Prop :=
  (forall rest, delimited rest -> elem (t ++ rest) = Some (v, rest)) /\ exists b t', t = b :: t' /\ isJSONSpace b = false /\ b <> Byte.x5d.

Lemma delimited_space b t : delimiter b -> skipSpace (b :: t) = b :: t.
Proof. by intros [-> | [-> | ->]]. Qed.

Lemma Join_more (t : bytes) ts sep rest : Join (t :: ts) sep ++ rest = match ts with [] => t ++ rest | _ => t ++ sep ++ Join ts sep ++ rest end.
Proof. destruct ts as [|u ts]; [done|]. rewrite Join_cons by done. by rewrite <- !app_assoc. Qed.

Lemma itemsLoop_join elem ts vs : Forall2 (readsAs elem) ts vs -> ts <> [] -> forall n rest, (length ts <= n)%nat ->
  itemsLoop elem n (Join ts (lit ",") ++ lit "]" ++ rest) = Some (vs, rest).
Proof.
  induction 1 as [|t v ts vs [Ht _] Hts IH]; [done|]. intros _ [|n] rest Hn; [cbn in Hn; lia|]. rewrite Join_more. cbn [itemsLoop].
  destruct ts as [|u ts].
  - inversion Hts; subst. rewrite Ht by (exists Byte.x5d, rest; split; [done|by right; left]). reflexivity.
  - rewrite Ht by (eexists Byte.x2c, _; split; [reflexivity|by left]). cbn [mbind option_bind]. change (lit "," ++ ?s) with (Byte.x2c :: s).
    rewrite delimited_space by (by left). change (bool_decide (Byte.x2c = Byte.x2c)) with true. cbv iota. rewrite IH; [done|done|cbn [length] in *; lia].
Qed.

Lemma Join_long ts sep : Forall (fun t : bytes => t <> []) ts -> (length ts <= length (Join ts sep))%nat.
Proof.
  induction 1 as [|t ts Ht Hts IH]; [done|]. rewrite <- (app_nil_r (Join _ _)), Join_more. destruct t as [|b t]; [done|].
  destruct ts as [|u ts]; [cbn; lia|]. rewrite app_nil_r. change (length ((b :: t) :: u :: ts)) with (S (length (u :: ts))). rewrite !length_app.
  cbn [length]. cbn [length] in IH. lia.
Qed.

Lemma readsAs_nonempty elem ts vs : Forall2 (readsAs elem) ts vs -> Forall (fun t : bytes => t <> []) ts.
Proof. induction 1 as [|t v ts vs (_ & b & t' & -> & _) _ IH]; by constructor. Qed.

Lemma parseItems_join elem ts vs rest : Forall2 (readsAs elem) ts vs ->
  parseItems elem (Join ts (lit ",") ++ lit "]" ++ rest) = Some (vs, rest).
Proof.
  intros H. unfold parseItems. destruct H as [|t v ts vs Ht Hts]; [reflexivity|].
  assert (Forall2 (readsAs elem) (t :: ts) (v :: vs)) as H by by constructor.
  pose proof (itemsLoop_join _ _ _ H ltac:(done)) as E. pose proof (Join_long _ (lit ",") (readsAs_nonempty _ _ _ H)) as Hl.
  assert (exists b s, Join (t :: ts) (lit ",") ++ lit "]" ++ rest = b :: s /\ isJSONSpace b = false /\ b <> Byte.x5d) as (b & s & Es & Hb & Hne).
  { destruct Ht as (_ & b & t' & -> & Hb & Hne). rewrite Join_more. destruct ts; eexists b, _; (split; [reflexivity|done]). }
  pose proof (E (length (b :: s)) rest) as E'. rewrite Es in E' |- *. rewrite skipSpace_here by done. rewrite bool_decide_eq_false_2 by done. apply E'.
  rewrite <- Es, length_app. lia.
Qed.

(** A member as [json.Marshal] writes it. *)
Definition memberText (key t : bytes) : bytes := jsonString key ++ lit ":" ++ t.

Lemma parseField_member elem key t v rest : ValidString key = true -> readsAs elem t v -> delimited rest ->
  parseField elem (memberText key t ++ rest) = Some (jsonString key, v, rest).
Proof.
  intros Hk [Ht _] Hr. unfold memberText. rewrite <- !app_assoc. destruct (jsonString_read key (lit ":" ++ t ++ rest) Hk) as (raw & -> & E & _).
  change ((dquote :: raw) ++ lit ":" ++ t ++ rest) with (dquote :: raw ++ Byte.x3a :: t ++ rest). apply parseField_here; [done|by apply Ht].
Qed.

Section fields.
Context (elem : bytes -> option (json * bytes)).

(** A list of members with their values. *)
Definition membersRead (ms : list (bytes * bytes)) (vs : list (bytes * json)) : Prop :=
  Forall2 (fun m f => ValidString m.1 = true /\ readsAs elem m.2 f.2 /\ f.1 = jsonString m.1) ms vs.

Lemma fieldsLoop_join ms vs : membersRead ms vs -> ms <> [] -> forall n rest, (length ms <= n)%nat ->
  GoJson.fieldsLoop elem n (Join (map (fun m => memberText m.1 m.2) ms) (lit ",") ++ lit "}" ++ rest) = Some (vs, rest).
Proof.
  induction 1 as [|[k t] [k' v] ms vs (Hk & Ht & Ek) Hms IH]; [done|]. cbn [fst snd] in *. subst k'. intros _ [|n] rest Hn; [cbn in Hn; lia|].
  cbn [map]. rewrite Join_more. cbn [GoJson.fieldsLoop]. destruct ms as [|m ms]; cbn [map].
  - inversion Hms; subst. rewrite (parseField_member _ _ _ v) by first [done|exists Byte.x7d, rest; split; [done|by right; right]]. reflexivity.
  - rewrite (parseField_member _ _ _ v) by first [done|eexists Byte.x2c, _; split; [reflexivity|by left]]. cbn [mbind option_bind].
    change (lit "," ++ ?s) with (Byte.x2c :: s). rewrite delimited_space by (by left). change (bool_decide (Byte.x2c = Byte.x2c)) with true. cbv iota.
    cbn [map] in IH. rewrite IH; [done|done|cbn [length] in *; lia].
Qed.

Lemma parseFields_join ms vs rest : membersRead ms vs ->
  parseFields elem (Join (map (fun m => memberText m.1 m.2) ms) (lit ",") ++ lit "}" ++ rest) = Some (vs, rest).
Proof.
  intros H. destruct ms as [|m ms]; [inversion H; reflexivity|]. pose proof (fieldsLoop_join _ _ H ltac:(done)) as E.
  set (ts := map _ (m :: ms)) in *. assert (length (m :: ms) <= length (Join ts (lit ",")))%nat as Hl.
  { unfold ts. rewrite <- (length_map (fun m => memberText m.1 m.2)). apply Join_long. apply Forall_forall. by intros t (m' & -> & _)%list_elem_of_fmap. }
  assert (exists s, Join ts (lit ",") ++ lit "}" ++ rest = dquote :: s) as [s Es].
  { unfold ts. destruct ms as [|m' ms]; cbn [map]; rewrite Join_more; unfold memberText, jsonString; eexists; reflexivity. }
  pose proof (E (length (dquote :: s)) rest) as E'. unfold parseFields. rewrite Es in E' |- *. apply E'. rewrite <- Es, length_app. lia.
Qed.
End fields.
