(* ===== verification/TrInput.v ===== *)
(** * TrInput: the identity of tool calls (transcript/tool_input.go)

    Arguments of two calls are compared as canonical JSON: object keys sorted, the last of
    several fields of one name kept, white space dropped, strings decoded and written again,
    numbers and literals as they are spelled.  [SameToolInput_exact] says that the comparison
    holds exactly when the two texts have the same value in this sense. *)

From S2P Require Import Prelude GoUtf8 GoStrconv GoText GoSort GoSha256 GoJson GoBase64 GoJsonText.

Open Scope Z_scope.

(** ** Canonical JSON *)

(** [json.Compact] on a valid document: white space outside of strings is dropped. *)
Fixpoint compactPlain (inString escaped : bool) (s : bytes) : bytes :=
  match s with
  | [] => []
  | b :: rest =>
      if inString then b :: compactPlain (escaped || negb (bool_decide (b = dquote))) (negb escaped && bool_decide (b = backslash)) rest
      else if isJSONSpace b then compactPlain false false rest
      else b :: compactPlain (bool_decide (b = dquote)) false rest
  end.

Definition Compact (raw : bytes) : option bytes := if Valid raw then Some (compactPlain false false raw) else None.

(** The loop of [writeCanonicalObject] over the sorted keys, and the loop over the items of an
    array; [write] is [writeCanonicalJSON]. *)
Definition writeField (write : bytes -> option bytes) (field : bytes * bytes) : option bytes :=
  value ← write (TrimSpace field.2);
  Some (jsonString field.1 ++ lit ":" ++ value).

Definition writeCanonicalObject (write : bytes -> option bytes) (raw : bytes) : option bytes :=
  object ← UnmarshalFields raw;
  parts ← mapM (writeField write) (sortedFields object);
  Some (lit "{" ++ Join parts (lit ",") ++ lit "}").

(** The recursion goes to texts inside of [raw]; [fuel] bounds its depth. *)
Fixpoint writeCanonicalJSON (fuel : nat) (raw : bytes) : option bytes :=
  match fuel with
  | O => None
  | S fuel =>
      match raw with
      | [] => None
      | b :: _ =>
          if bool_decide (b = Byte.x7b) then writeCanonicalObject (writeCanonicalJSON fuel) raw
          else if bool_decide (b = Byte.x5b) then
            items ← UnmarshalItems raw;
            parts ← mapM (fun item => writeCanonicalJSON fuel (TrimSpace item)) items;
            Some (lit "[" ++ Join parts (lit ",") ++ lit "]")
          else if bool_decide (b = dquote) then jsonString <$> UnmarshalString raw
          else Compact raw
      end
  end.

Definition CanonicalToolInput (raw : bytes) : option bytes := writeCanonicalJSON (S (length raw)) (TrimSpace raw).

Definition SameToolInput (left right : bytes) : bool :=
  match CanonicalToolInput left, CanonicalToolInput right with
  | Some l, Some r => bool_decide (l = r)
  | _, _ => false
  end.

Example canonical_sample : CanonicalToolInput (jlit " {'b' : [1.0, -2e3 ,'\u0041<'], 'a':null , 'b': { 'y':[] , 'x':true} } ") =
  Some (jlit "{'a':null,'b':{'x':true,'y':[]}}").
Proof. vm_compute. reflexivity. Qed.

Example same_sample : SameToolInput (jlit "{'a':1,'b':'\u00e9'}") (jlit "{ 'b' : 'é', 'a' : 1}") = true /\
  SameToolInput (jlit "1.0") (jlit "1") = false /\ SameToolInput (jlit "{") (jlit "{") = false.
Proof. vm_compute. split_and!; reflexivity. Qed.

(** ** The value of an argument text *)

(** What the canonical form keeps of a value: numbers and literals as spelled, the values of
    strings, items in order, and the last of the members of one name, sorted by name. *)
Inductive jvalue :=
| VAtom (raw : bytes)
| VString (s : bytes)
| VArray (items : list jvalue)
| VObject (fields : list (bytes * jvalue)).

Definition fieldMap {A} (fields : list (bytes * A)) : gmap bytes A := foldl (fun m '(key, v) => <[fieldName key := v]> m) ∅ fields.

Fixpoint valueOf (v : json) : jvalue :=
  match v with
  | JLiteral raw | JNumber raw => VAtom raw
  | JString raw => VString (default [] (decodeString raw))
  | JArray _ items => VArray (map valueOf items)
  | JObject _ fields => VObject (sortedFields (fieldMap (map (fun '(key, v) => (key, valueOf v)) fields)))
  end.

Fixpoint render (n : jvalue) : bytes :=
  match n with
  | VAtom raw => raw
  | VString s => jsonString s
  | VArray items => lit "[" ++ Join (map render items) (lit ",") ++ lit "]"
  | VObject fields => lit "{" ++ Join (map (fun '(key, n) => memberText key (render n)) fields) (lit ",") ++ lit "}"
  end.

(** ** Members *)

Lemma fieldMap_map {A B} (f : A -> B) fields : fieldMap (map (prod_map id f) fields) = f <$> fieldMap fields.
Proof.
  unfold fieldMap. enough (forall m, foldl (fun m '(key, v) => <[fieldName key := v]> m) (f <$> m) (map (prod_map id f) fields) =
    f <$> foldl (fun m '(key, v) => <[fieldName key := v]> m) m fields) as H by (rewrite <- H; by rewrite fmap_empty).
  induction fields as [|[k v] fields IH]; intros m; [done|]. cbn [map foldl prod_map fst snd id]. by rewrite <- fmap_insert, IH.
Qed.

Lemma fieldMap_elem {A} (fields : list (bytes * A)) k v : fieldMap fields !! k = Some v -> exists key, (key, v) ∈ fields /\ fieldName key = k.
Proof.
  unfold fieldMap. enough (forall m, foldl (fun m '(key, v) => <[fieldName key := v]> m) m fields !! k = Some v ->
    (exists key, (key, v) ∈ fields /\ fieldName key = k) \/ m !! k = Some v) as H by (intros [|E]%H; [done|by rewrite lookup_empty in E]).
  induction fields as [|[key w] fields IH]; intros m E; [by right|]. cbn [foldl] in E. destruct (IH _ E) as [(key' & Hin & Hk)|E'].
  - left. exists key'. split; [by right|done].
  - destruct (decide (fieldName key = k)) as [<-|Hne]; [rewrite lookup_insert, decide_True in E' by done; injection E' as ->; left; exists key; split; [by left|done]|].
    right. by rewrite lookup_insert_ne in E' by done.
Qed.

Lemma valueOf_object raw fields : valueOf (JObject raw fields) = VObject (map (prod_map id valueOf) (sortedFields (fieldMap fields))).
Proof.
  cbn [valueOf]. rewrite <- sortedFields_fmap, <- fieldMap_map. do 3 f_equal. apply map_ext. by intros [k v].
Qed.

(** ** The canonical form is the written value *)

(** A byte that [json.Compact] keeps and that opens no string. *)
Definition plainToken (b : Byte.byte) : Prop := isJSONSpace b = false /\ b <> dquote.

Lemma compactPlain_plain s : Forall plainToken s -> compactPlain false false s = s.
Proof. induction 1 as [|b s [H1 H2] _ IH]; [done|]. cbn [compactPlain]. by rewrite H1, bool_decide_eq_false_2, IH. Qed.

Lemma digits_plain ds : Forall (fun b => isDigit b = true) ds -> Forall plainToken ds.
Proof. intros H. eapply Forall_impl; [exact H|]. intros b Hb. destruct b; try (vm_compute in Hb; discriminate); done. Qed.

Lemma digits1_plain s ds rest : digits1 s = Some (ds, rest) -> Forall plainToken ds.
Proof.
  unfold digits1. destruct (digits s) as [ds' r] eqn:E. intros H. apply digits_plain. destruct ds'; [done|]. injection H as <- _. by eapply digits_isDigit.
Qed.

Lemma scanNumber_plain s raw rest : scanNumber s = Some (raw, rest) -> Forall plainToken raw.
Proof.
  unfold scanNumber. destruct (optional Byte.x2d s) as [m s1] eqn:E1. destruct (scanInt s1) as [[i s2]|] eqn:E2; [|done]. cbn.
  destruct (scanFraction s2) as [[f s3]|] eqn:E3; [|done]. cbn. destruct (scanExponent s3) as [[e s4]|] eqn:E4; [|done]. intros [= <- <-].
  rewrite !Forall_app. split_and!.
  - destruct s as [|c s]; cbn in E1; [injection E1 as <- <-; constructor|]. case_bool_decide; injection E1 as <- <-; subst; by repeat constructor.
  - destruct s1 as [|c s1]; [done|]. cbn [scanInt] in E2. case_bool_decide; [|by eapply digits1_plain]. injection E2 as <- <-. subst. by repeat constructor.
  - unfold scanFraction in E3. destruct s2 as [|b s2]; [by injection E3 as <- <-|]. case_bool_decide as Hb; [|by injection E3 as <- <-].
    destruct (digits1 s2) as [[ds r]|] eqn:Ed; [|done]. injection E3 as <- <-. subst b. constructor; [done|by eapply digits1_plain].
  - unfold scanExponent in E4. destruct s3 as [|b s3]; [by injection E4 as <- <-|]. destruct (_ || _) eqn:Hb; [|by injection E4 as <- <-].
    destruct (scanSign s3) as [sg s5] eqn:Es. destruct (digits1 s5) as [[ds r]|] eqn:Ed; [|done]. injection E4 as <- <-. constructor.
    { apply orb_true_iff in Hb as [Hb|Hb]; apply bool_decide_eq_true in Hb as ->; done. }
    apply Forall_app. split; [|by eapply digits1_plain]. destruct s3 as [|c s3]; cbn in Es; [injection Es as <- <-; constructor|].
    destruct (bool_decide (c = Byte.x2b) || bool_decide (c = Byte.x2d)) eqn:Hc; injection Es as <- <-; constructor; [|constructor]. apply orb_true_iff in Hc as [Hc|Hc]; apply bool_decide_eq_true in Hc as ->; done.
Qed.

Lemma scanLiteral_plain s raw rest : scanLiteral s = Some (raw, rest) -> Forall plainToken raw.
Proof.
  unfold scanLiteral. intros H. assert (raw = lit "true" \/ raw = lit "false" \/ raw = lit "null") as [-> | [-> | ->]]
    by (repeat case_match; simplify_eq; auto); by repeat constructor.
Qed.

Lemma parseDoc_value depth s v : parseDoc depth s = Some v -> exists rest, parseValue (S depth) s = Some (v, rest).
Proof. unfold parseDoc. destruct (parseValue (S depth) s) as [[v' r]|]; [|done]. cbn -[parseValue]. destruct (skipSpace r); [|done]. intros [= ->]. by exists r. Qed.

(** What an accepted value is made of: plain atoms, strings with a value. *)
Lemma parseValue_tokens fuel s v rest : parseValue fuel s = Some (v, rest) ->
  match v with
  | JLiteral raw | JNumber raw => Forall plainToken raw
  | JString raw => is_Some (decodeString raw)
  | _ => True
  end.
Proof.
  destruct fuel as [|fuel]; [done|]. cbn [parseValue]. destruct (skipSpace s) as [|b r]; [done|]. case_bool_decide.
  { subst b. destruct (stringEnd r) as [[raw r1]|] eqn:E; [|done]. intros [= <- _]. by eapply decodeString_Some. }
  case_bool_decide; [destruct (fuel =? 0)%nat; [done|]; destruct (parseItems _ r) as [[]|]; [|done]; by intros [= <- _]|].
  case_bool_decide; [destruct (fuel =? 0)%nat; [done|]; destruct (parseFields _ r) as [[]|]; [|done]; by intros [= <- _]|].
  destruct (scanLiteral (b :: r)) as [[raw r1]|] eqn:El; [intros [= <- _]; by eapply scanLiteral_plain|].
  destruct (scanNumber (b :: r)) as [[raw r1]|] eqn:En; [|done]. intros [= <- _]. by eapply scanNumber_plain.
Qed.

Lemma mapM_total {A B} (f : A -> option B) (g : A -> B) l : (forall x, x ∈ l -> f x = Some (g x)) -> mapM f l = Some (map g l).
Proof.
  intros H. apply mapM_Some. induction l as [|x l IH]; [constructor|]. constructor; [apply H; by left|]. apply IH. intros y Hy. apply H. by right.
Qed.

Lemma child_of_item raw items x : x ∈ items -> x ∈ children (JArray raw items).
Proof. done. Qed.

Lemma child_of_field raw fields key x : (key, x) ∈ fields -> x ∈ children (JObject raw fields).
Proof. intros H. cbn. apply list_elem_of_fmap. by exists (key, x). Qed.

Lemma UnmarshalFields_raw raw fields : parseDoc maxNestingDepth raw = Some (JObject raw fields) -> UnmarshalFields raw = Some (rawOf <$> fieldMap fields).
Proof.
  intros E. unfold UnmarshalFields. rewrite E. f_equal. rewrite <- fieldMap_map. unfold fieldMap. clear E. generalize (∅ : gmap bytes bytes).
  induction fields as [|[k v] fields IH]; intros m; [done|]. cbn [foldl map prod_map fst snd id]. apply IH.
Qed.

Lemma canonical_value fuel v : parseDoc maxNestingDepth (rawOf v) = Some v -> (length (rawOf v) < fuel)%nat ->
  writeCanonicalJSON fuel (rawOf v) = Some (render (valueOf v)).
Proof.
  revert v. induction fuel as [|fuel IH]; intros v E Hf; [lia|]. destruct (parseDoc_trim _ _ _ E) as (Ht & b & t & Eb & Hs).
  destruct (parseDoc_value _ _ _ E) as (rest & Ev). pose proof (parseValue_tokens _ _ _ _ Ev) as Htok.
  assert (forall x, x ∈ children v -> writeCanonicalJSON fuel (TrimSpace (rawOf x)) = Some (render (valueOf x))) as Hchild.
  { intros x Hx. pose proof (parseDoc_child _ _ _ _ E Hx) as Ex. destruct (parseDoc_trim _ _ _ Ex) as (-> & _). apply IH; [done|].
    pose proof (parseDoc_shorter _ _ _ _ E Hx). lia. }
  cbn [writeCanonicalJSON]. rewrite Eb. rewrite <- Eb. destruct v as [raw|raw|raw|raw items|raw fields]; cbn [startsAs rawOf] in *.
  - destruct Hs as (H1 & H2 & H3). rewrite !bool_decide_eq_false_2 by done. unfold Compact, Valid. by rewrite E, compactPlain_plain.
  - destruct Hs as (H1 & H2 & H3). rewrite !bool_decide_eq_false_2 by done. unfold Compact, Valid. by rewrite E, compactPlain_plain.
  - subst b. change (bool_decide (dquote = Byte.x7b)) with false. change (bool_decide (dquote = Byte.x5b)) with false. change (bool_decide (dquote = dquote)) with true. cbv iota.
    unfold UnmarshalString. rewrite E. destruct Htok as [s Hstr]. cbn [valueOf render]. by rewrite Hstr.
  - subst b. change (bool_decide (Byte.x5b = Byte.x7b)) with false. change (bool_decide (Byte.x5b = Byte.x5b)) with true. cbv iota.
    unfold UnmarshalItems. rewrite E. cbn [mbind option_bind]. rewrite (mapM_total _ (fun item => default [] (writeCanonicalJSON fuel (TrimSpace item)))).
    + cbn [mbind option_bind valueOf render]. rewrite !map_map. do 4 f_equal. apply map_ext_in. intros x Hx%list_elem_of_In. by rewrite Hchild.
    + intros item (x & -> & Hx)%list_elem_of_fmap. by rewrite Hchild.
  - subst b. change (bool_decide (Byte.x7b = Byte.x7b)) with true. cbv iota. unfold writeCanonicalObject. rewrite (UnmarshalFields_raw _ _ E). cbn [mbind option_bind].
    rewrite sortedFields_fmap, valueOf_object. cbn [render]. rewrite map_map.
    assert (forall k x, (k, x) ∈ sortedFields (fieldMap fields) -> writeCanonicalJSON fuel (TrimSpace (rawOf x)) = Some (render (valueOf x))) as Hfield.
    { intros k x Hx%elem_of_sortedFields. apply fieldMap_elem in Hx as (key & Hin & _). by eapply Hchild, child_of_field. }
    rewrite (mapM_total _ (fun f => memberText f.1 (default [] (writeCanonicalJSON fuel (TrimSpace f.2))))).
    + cbn [mbind option_bind]. rewrite map_map. do 4 f_equal. apply map_ext_in. intros [k x] Hx%list_elem_of_In. cbn [prod_map fst snd]. by rewrite (Hfield k x).
    + intros [k r] ([k' x] & [= -> ->] & Hx)%list_elem_of_fmap. unfold writeField. cbn [fst snd]. by rewrite (Hfield k' x).
Qed.

(** ** Reading the canonical form *)

Lemma choose_list {A B} (R : A -> B -> Prop) l : (forall x, x ∈ l -> exists y, R x y) -> exists k, Forall2 R l k.
Proof.
  induction l as [|x l IH]; intros H; [by exists []|]. destruct (H x) as [y Hy]; [by left|]. destruct IH as [k Hk]; [intros z Hz; apply H; by right|].
  exists (y :: k). by constructor.
Qed.

(** What the scanner takes for an atom does not depend on the depth that is left. *)
Lemma atom_fuel n m s v rest : parseValue (S n) s = Some (v, rest) -> match v with JLiteral _ | JNumber _ => True | _ => False end ->
  parseValue (S m) s = Some (v, rest).
Proof.
  cbn [parseValue]. destruct (skipSpace s) as [|b r]; [done|]. case_bool_decide; [destruct (stringEnd r) as [[]|]; [|done]; by intros [= <- _]|].
  case_bool_decide; [destruct (n =? 0)%nat; [done|]; destruct (parseItems _ r) as [[]|]; [|done]; by intros [= <- _]|].
  case_bool_decide; [destruct (n =? 0)%nat; [done|]; destruct (parseFields _ r) as [[]|]; [|done]; by intros [= <- _]|]. done.
Qed.

Lemma dark_not_space b : asciiDark b -> isJSONSpace b = false.
Proof. intros [Hb Hd]. destruct b; try done; vm_compute in Hd; discriminate. Qed.

Lemma atom_read depth v raw fuel : parseDoc depth raw = Some v -> raw = rawOf v -> match v with JLiteral _ | JNumber _ => True | _ => False end ->
  readsAs (parseValue (S fuel)) raw v.
Proof.
  intros E -> Hv. destruct (parseDoc_value _ _ _ E) as (rest & Ev). split.
  - intros r (b & t & -> & Hb). destruct (parseValue_local _ _ _ _ Ev) as (sp & _ & _ & _ & H).
    specialize (H [] (b :: t) (Forall_nil_2 _) (follows_delimiter _ _ _ Hb)). by eapply atom_fuel.
  - destruct (parseValue_shape _ _ _ _ Ev) as (b & t & Eb & Hs & Hd & _). exists b, t. split; [done|]. split; [by apply dark_not_space|].
    intros ->. destruct v as [raw|raw| | |]; try done; cbn [rawOf] in *; subst raw; destruct (parseDoc_trim _ _ _ E) as (_ & b & t' & Eb' & _).
    all: cbn [parseValue] in Ev; cbn in Ev; discriminate.
Qed.

(** The members of an object, read from its canonical form. *)
Lemma object_read elem (fs : list (bytes * json)) (ws : list json) :
  Forall2 (fun f w => readsAs elem (render (valueOf f.2)) w /\ valueOf w = valueOf f.2 /\ ValidString f.1 = true) fs ws ->
  let vs := zip_with (fun f w => (jsonString f.1, w)) fs ws in
  membersRead elem (map (fun f => (f.1, render (valueOf f.2))) fs) vs /\
  fieldMap (map (fun '(key, v) => (key, valueOf v)) vs) = foldl (fun m f => <[f.1 := f.2]> m) ∅ (map (prod_map id valueOf) fs).
Proof.
  intros H. split.
  - induction H as [|[k x] w fs ws (H1 & H2 & H3) _ IH]; [constructor|]. cbn [map zip_with]. by constructor.
  - unfold fieldMap. generalize (∅ : gmap bytes jvalue). induction H as [|[k x] w fs ws (H1 & H2 & H3) _ IH]; intros m; [done|].
    cbn [fst snd] in *. cbn [map zip_with foldl prod_map fst snd id]. destruct (jsonString_read k [] H3) as (_ & _ & _ & Hd). unfold fieldName at 2. rewrite Hd. cbn [default]. by rewrite H2, IH.
Qed.

(** The canonical form of a value reads as a value that keeps the same. *)
Lemma value_read depth fuel v : parseDoc depth (rawOf v) = Some v -> (length (rawOf v) < fuel)%nat ->
  exists w, readsAs (parseValue fuel) (render (valueOf v)) w /\ valueOf w = valueOf v.
Proof.
  revert v. induction fuel as [|fuel IH]; intros v E Hf; [lia|]. destruct (parseDoc_value _ _ _ E) as (rest & Ev). pose proof (parseValue_tokens _ _ _ _ Ev) as Htok.
  assert (forall x, x ∈ children v -> exists w, readsAs (parseValue fuel) (render (valueOf x)) w /\ valueOf w = valueOf x) as Hchild.
  { intros x Hx. apply IH; [by eapply parseDoc_child|]. pose proof (parseDoc_shorter _ _ _ _ E Hx). lia. }
  assert (fuel <> 0)%nat as Hfuel by (destruct (parseDoc_trim _ _ _ E) as (_ & b & t & Eb & _); rewrite Eb in Hf; cbn [length] in Hf; lia).
  destruct v as [raw|raw|raw|raw items|raw fields].
  - exists (JLiteral raw). split; [by eapply atom_read|done].
  - exists (JNumber raw). split; [by eapply atom_read|done].
  - destruct Htok as [s Hs]. cbn [valueOf]. rewrite Hs. cbn [default render]. pose proof (decodeString_valid _ _ Hs) as Hv. exists (JString (jsonString s)). split.
    + split; [|by exists dquote, (jsonLoop (length s) s ++ [dquote])]. intros r _. by apply (parseValue_mono 1); [lia|apply string_read].
    + destruct (jsonString_read s [] Hv) as (_ & _ & _ & Hd). cbn [valueOf]. by rewrite Hd.
  - cbn [valueOf render]. destruct (choose_list (fun x w => readsAs (parseValue fuel) (render (valueOf x)) w /\ valueOf w = valueOf x) items Hchild) as (ws & Hws).
    assert (Forall2 (readsAs (parseValue fuel)) (map render (map valueOf items)) ws /\ map valueOf ws = map valueOf items) as [Hr Hw]
      by (clear - Hws; induction Hws as [|x w items ws [H1 H2] _ [IH1 IH2]]; [done|]; cbn [map]; split; [by constructor|by rewrite H2, IH2]).
    eexists (JArray (lit "[" ++ Join (map render (map valueOf items)) (lit ",") ++ lit "]") ws). split; [|cbn [valueOf]; by rewrite Hw].
    split; [|by eexists Byte.x5b, _]. intros r _. cbn [parseValue]. change (lit "[" ++ ?s) with (Byte.x5b :: s). cbn [app]. rewrite skipSpace_here by done.
    change (bool_decide (Byte.x5b = dquote)) with false. change (bool_decide (Byte.x5b = Byte.x5b)) with true. cbv iota.
    rewrite (proj2 (Nat.eqb_neq fuel 0)) by done. rewrite <- app_assoc, (parseItems_join _ _ _ r Hr). cbn [mbind option_bind].
    rewrite app_assoc, consumed_app. done.
  - rewrite valueOf_object. cbn [render]. set (fs := sortedFields (fieldMap fields)).
    assert (forall f, f ∈ fs -> exists w, readsAs (parseValue fuel) (render (valueOf f.2)) w /\ valueOf w = valueOf f.2 /\ ValidString f.1 = true) as Hfield.
    { intros [k x] Hx%elem_of_sortedFields. apply fieldMap_elem in Hx as (key & Hin & Hk). cbn [fst snd].
      destruct (Hchild x) as (w & H1 & H2); [by eapply child_of_field|]. exists w. split_and!; [done|done|]. subst k. unfold fieldName.
      destruct (decodeString key) as [s|] eqn:Ek; [by eapply decodeString_valid|done]. }
    destruct (choose_list _ fs Hfield) as (ws & Hws).
    destruct (object_read _ _ _ Hws) as [Hm Hv]. set (vs := zip_with _ fs ws) in *. rewrite map_map.
    assert (map (fun x => let '(key, n) := prod_map id valueOf x in memberText key (render n)) fs =
      map (fun m => memberText m.1 m.2) (map (fun f => (f.1, render (valueOf f.2))) fs)) as -> by (rewrite map_map; apply map_ext; by intros [k x]).
    eexists (JObject _ vs). split.
    + split; [|by eexists Byte.x7b, _]. intros r _. cbn [parseValue]. change (lit "{" ++ ?s) with (Byte.x7b :: s). cbn [app]. rewrite skipSpace_here by done.
      change (bool_decide (Byte.x7b = dquote)) with false. change (bool_decide (Byte.x7b = Byte.x5b)) with false. change (bool_decide (Byte.x7b = Byte.x7b)) with true. cbv iota.
      rewrite (proj2 (Nat.eqb_neq fuel 0)) by done. rewrite <- app_assoc, (parseFields_join _ _ _ r Hm). cbn [mbind option_bind].
      rewrite app_assoc, consumed_app. done.
    + cbn [valueOf]. rewrite Hv. unfold fs. by rewrite <- sortedFields_fmap, foldl_sortedFields.
Qed.

(** ** The comparison *)

Lemma render_injective depth depth' v w : parseDoc depth (rawOf v) = Some v -> parseDoc depth' (rawOf w) = Some w ->
  render (valueOf v) = render (valueOf w) -> valueOf v = valueOf w.
Proof.
  intros Ev Ew H. set (fuel := S (length (rawOf v) + length (rawOf w))).
  destruct (value_read depth fuel v Ev ltac:(unfold fuel; lia)) as (v' & [Hv _] & <-). destruct (value_read depth' fuel w Ew ltac:(unfold fuel; lia)) as (w' & [Hw _] & <-).
  assert (delimited [Byte.x2c]) as Hd by (exists Byte.x2c, []; split; [done|by left]). specialize (Hv _ Hd). specialize (Hw _ Hd). rewrite H in Hv. congruence.
Qed.

Lemma writeCanonicalJSON_valid fuel raw c : writeCanonicalJSON fuel raw = Some c -> is_Some (parseDoc maxNestingDepth raw).
Proof.
  destruct fuel as [|fuel]; [done|]. cbn [writeCanonicalJSON]. destruct raw as [|b raw]; [done|]. set (s := b :: raw).
  unfold writeCanonicalObject, UnmarshalFields, UnmarshalItems, UnmarshalString, Compact, Valid. by destruct (parseDoc maxNestingDepth s); repeat case_match.
Qed.

(** The canonical text of an argument is the written value of the document. *)
Lemma CanonicalToolInput_value raw c :
  CanonicalToolInput raw = Some c <-> exists v, parseDoc maxNestingDepth (TrimSpace raw) = Some v /\ c = render (valueOf v).
Proof.
  unfold CanonicalToolInput. assert (forall v, parseDoc maxNestingDepth (TrimSpace raw) = Some v ->
    writeCanonicalJSON (S (length raw)) (TrimSpace raw) = Some (render (valueOf v))) as H.
  { intros v E. destruct (parseDoc_trim _ _ _ E) as (Ht & _). rewrite TrimSpace_idem in Ht. rewrite Ht in E |- *. apply canonical_value; [done|].
    rewrite <- Ht. pose proof (TrimSpace_length raw). lia. }
  split.
  - intros E. destruct (writeCanonicalJSON_valid _ _ _ E) as [v Ev]. exists v. split; [done|]. rewrite (H v Ev) in E. by injection E.
  - intros (v & Ev & ->). by apply H.
Qed.

(** C32. Two arguments are taken for the same exactly when both are JSON documents and hold the
    same value: the same members under the same names, whatever their order, their white space
    and the escapes in their strings, and the same spelling of numbers. *)
Theorem SameToolInput_exact left right :
  SameToolInput left right = true <-> exists v w, parseDoc maxNestingDepth (TrimSpace left) = Some v /\
    parseDoc maxNestingDepth (TrimSpace right) = Some w /\ valueOf v = valueOf w.
Proof.
  unfold SameToolInput. split.
  - destruct (CanonicalToolInput left) as [l|] eqn:El; [|done]. destruct (CanonicalToolInput right) as [r|] eqn:Er; [|done].
    apply CanonicalToolInput_value in El as (v & Ev & ->). apply CanonicalToolInput_value in Er as (w & Ew & ->). intros H%bool_decide_eq_true.
    exists v, w. split_and!; [done|done|]. by eapply render_injective; [eapply parseDoc_raw|eapply parseDoc_raw|].
  - intros (v & w & Ev & Ew & H). rewrite (proj2 (CanonicalToolInput_value left _) (ex_intro _ v (conj Ev eq_refl))).
    rewrite (proj2 (CanonicalToolInput_value right _) (ex_intro _ w (conj Ew eq_refl))), H. by apply bool_decide_eq_true.
Qed.
