(* ===== verification/TrMatch.v ===== *)
(** * TrMatch: matching saved tool calls with their source (transcript/tool_input.go)

    [ProvenToolPositions] walks forward for the earliest and backward for the latest place of
    every saved call; where the two agree the place is proven.  [ProvenToolPositions_exact]
    says that this is so exactly when all ways to match the calls in order agree, and that no
    index is out of range. *)

From S2P Require Import Prelude GoUtf8 GoStrconv GoText GoJson TrInput.

Open Scope Z_scope.

Record ToolIdentity := MkIdentity { ti_Name : bytes; ti_Input : bytes }.

Definition UnprovenToolPosition : Z := -1.
Definition toolIdentitySeparator : bytes := [Byte.x00].
Definition savedInvalidToolKey : bytes := toolIdentitySeparator ++ lit "saved".
Definition sourceInvalidToolKey : bytes := toolIdentitySeparator ++ lit "source".

Definition toolIdentityKey (identity : ToolIdentity) (invalid : bytes) : bytes :=
  match TrimSpace (ti_Input identity) with
  | [] => ti_Name identity ++ toolIdentitySeparator
  | _ => match CanonicalToolInput (ti_Input identity) with
         | None => invalid
         | Some canonical => ti_Name identity ++ toolIdentitySeparator ++ canonical
         end
  end.

(** The inner loop forward, on the keys from [position] on: the place of [key], or the number
    of keys. *)
Fixpoint findKey (keys : list bytes) (key : bytes) (position : nat) : nat :=
  match keys with
  | [] => position
  | k :: rest => if bool_decide (k = key) then position else findKey rest key (S position)
  end.

(** The loop over the saved keys; it breaks at the first one without a place. *)
Fixpoint earliestLoop (sourceKeys savedKeys : list bytes) (next : nat) : list nat :=
  match savedKeys with
  | [] => []
  | key :: rest =>
      let position := findKey (drop next sourceKeys) key next in
      if (position =? length sourceKeys)%nat then [] else position :: earliestLoop sourceKeys rest (S position)
  end.

Fixpoint alignedLoop (earliest rest : list nat) (index : nat) : list nat :=
  match rest with
  | [] => earliest
  | position :: rest => if (position =? index)%nat then alignedLoop earliest rest (S index) else take index earliest
  end.

Definition alignedToolPrefix (earliest : list nat) : list nat := alignedLoop earliest earliest 0.

(** The inner loop backward from [n - 1]; it has no bound of its own. *)
Fixpoint lastKey (keys : list bytes) (key : bytes) (n : nat) : outcome Empty_set nat :=
  match n with
  | O => Panic
  | S position =>
      match keys !! position with
      | None => Panic
      | Some k => if bool_decide (k = key) then Ok position else lastKey keys key position
      end
  end.

(** The loop backward over the places found, from [index - 1]; [n] is [next + 1]. *)
Fixpoint provenLoop (sourceKeys savedKeys : list bytes) (earliest : list nat) (index n : nat) (positions : list Z) : outcome Empty_set (list Z) :=
  match index with
  | O => Ok positions
  | S index =>
      match savedKeys !! index, earliest !! index with
      | Some key, Some first =>
          position ← lastKey sourceKeys key n;
          let positions := if (position =? first)%nat then <[index := Z.of_nat position]> positions else positions in
          provenLoop sourceKeys savedKeys earliest index position positions
      | _, _ => Panic
      end
  end.

Definition ProvenToolPositions (saved source : list ToolIdentity) : outcome Empty_set (list Z) :=
  let savedKeys := map (fun identity => toolIdentityKey identity savedInvalidToolKey) saved in
  let sourceKeys := map (fun identity => toolIdentityKey identity sourceInvalidToolKey) source in
  let positions := replicate (length saved) UnprovenToolPosition in
  let earliest := earliestLoop sourceKeys savedKeys 0 in
  let earliest := if (length earliest <? length saved)%nat then alignedToolPrefix earliest else earliest in
  provenLoop sourceKeys savedKeys earliest (length earliest) (length sourceKeys) positions.

Example proven_sample :
  let call name := MkIdentity (lit name) (jlit "{'a':1}") in
  ProvenToolPositions [call "read"; call "run"; call "edit"] [call "read"; call "run"; call "run"; call "edit"] = Ok [0; -1; 3] /\
  ProvenToolPositions [call "read"; call "lost"; call "edit"] [call "read"; call "edit"] = Ok [0; -1; -1] /\
  ProvenToolPositions [MkIdentity (lit "read") (lit "{")] [MkIdentity (lit "read") (lit "{")] = Ok [-1].
Proof. vm_compute. split_and!; reflexivity. Qed.

(** ** Matchings in order *)

Lemma drop_next {A} (l rest : list A) x n : drop n l = x :: rest -> drop (S n) l = rest.
Proof. intros H. by rewrite <- Nat.add_1_r, <- drop_drop, H. Qed.

Section matching.
Context (source : list bytes).

(** Places for [saved] in [source], in order. *)
Definition matching (saved : list bytes) (ps : list nat) : Prop :=
  StronglySorted lt ps /\ Forall2 (fun key p => source !! p = Some key) saved ps.

Lemma matching_length saved ps : matching saved ps -> length ps = length saved.
Proof. intros [_ H]. symmetry. by eapply Forall2_length. Qed.

Lemma matching_snoc saved key qs : matching (saved ++ [key]) qs <-> exists ps p, qs = ps ++ [p] /\ matching saved ps /\ Forall (fun q => q < p)%nat ps /\ source !! p = Some key.
Proof.
  unfold matching. split.
  - intros [Hs Hf]. apply Forall2_app_inv_l in Hf as (ps & k & Hf & Hk & ->). apply Forall2_cons_inv_l in Hk as (p & k' & Hp & Hk & ->). apply Forall2_nil_inv_l in Hk as ->.
    apply StronglySorted_app in Hs as (Hlt & Hs & _). exists ps, p. split_and!; [done|done|done| |done]. apply Forall_forall. intros q Hq. apply Hlt; [done|by left].
  - intros (ps & p & -> & [Hs Hf] & Hlt & Hp). split; [|by apply Forall2_app; [|constructor]]. apply StronglySorted_app. split_and!; [|done|repeat constructor].
    intros x y Hx ->%list_elem_of_singleton. by eapply Forall_forall in Hlt.
Qed.

Lemma findKey_spec keys key n : let p := findKey (drop n keys) key n in
  (n <= length keys)%nat ->
  (n <= p)%nat /\ (forall q, n <= q < p -> keys !! q <> Some key)%nat /\ (p = length keys \/ (p < length keys)%nat /\ keys !! p = Some key).
Proof.
  cbv zeta. intros Hn. remember (drop n keys) as s eqn:Es. revert n Hn Es. induction s as [|k s IH]; intros n Hn Es; cbn [findKey].
  { assert (length (drop n keys) = 0)%nat as Hl by (by rewrite <- Es). rewrite length_drop in Hl. split_and!; [lia|intros; lia|left; lia]. }
  assert (keys !! n = Some k) as Hk by (rewrite <- (Nat.add_0_r n), <- lookup_drop, <- Es; done).
  pose proof (lookup_lt_Some _ _ _ Hk). case_bool_decide as Hd; [subst k; split_and!; [lia|intros; lia|by right]|].
  destruct (IH (S n)) as (H1 & H2 & H3); [lia|by rewrite (drop_next keys s k)|]. split_and!; [lia| |done].
  intros q Hq. destruct (decide (q = n)) as [->|]; [rewrite Hk; congruence|apply H2; lia].
Qed.

(** The forward walk matches the calls it keeps, each at its earliest place. *)
Lemma earliestLoop_matching saved n : (n <= length source)%nat ->
  let es := earliestLoop source saved n in
  matching (take (length es) saved) es /\ Forall (le n) es.
Proof.
  cbv zeta. revert n. induction saved as [|key saved IH]; intros n Hn; cbn [earliestLoop]; [by repeat constructor|].
  destruct (findKey_spec source key n Hn) as (H1 & _ & H3). set (p := findKey _ key n) in *.
  destruct (Nat.eqb_spec p (length source)) as [|Hp]; [by repeat constructor|]. destruct H3 as [|[Hlt Hk]]; [done|].
  destruct (IH (S p) Hlt) as [[Hs Hf] Hle]. cbn [length take]. split; [split|].
  - constructor; [done|]. eapply Forall_impl; [exact Hle|]. cbn. lia.
  - by constructor.
  - constructor; [done|]. eapply Forall_impl; [exact Hle|]. cbn. lia.
Qed.

Lemma earliestLoop_least saved n ps : (n <= length source)%nat -> matching saved ps -> Forall (le n) ps ->
  Forall2 le (earliestLoop source saved n) ps.
Proof.
  revert n ps. induction saved as [|key saved IH]; intros n ps Hn [Hs Hf] Hle; [by apply Forall2_nil_inv_l in Hf as ->|].
  apply Forall2_cons_inv_l in Hf as (p & ps' & Hp & Hf & ->). apply Forall_cons in Hle as [Hnp _]. cbn [earliestLoop].
  destruct (findKey_spec source key n Hn) as (H1 & H2 & H3). set (e := findKey _ key n) in *. pose proof (lookup_lt_Some _ _ _ Hp) as Hpl.
  assert (e <= p)%nat as Hep by (destruct (Nat.le_gt_cases e p) as [|Hlt]; [done|]; by destruct (H2 p ltac:(lia))).
  destruct (Nat.eqb_spec e (length source)) as [|He]; [lia|]. apply StronglySorted_inv in Hs as [Hs Hlt]. constructor; [done|].
  apply IH; [lia|done|]. eapply Forall_impl; [exact Hlt|]. cbn. lia.
Qed.

Lemma earliestLoop_take saved n k : earliestLoop source (take k saved) n = take k (earliestLoop source saved n).
Proof.
  revert saved n. induction k as [|k IH]; intros saved n; [done|]. destruct saved as [|key saved]; [done|]. cbn [take earliestLoop].
  destruct (_ =? _)%nat; [done|]. cbn [take]. by rewrite IH.
Qed.

(** The backward walk finds the latest place below a bound under which there is one. *)
Lemma lastKey_spec key n p : (p < n <= length source)%nat -> source !! p = Some key ->
  exists q, lastKey source key n = Ok q /\ (p <= q < n)%nat /\ source !! q = Some key /\ forall r, (r < n)%nat -> source !! r = Some key -> (r <= q)%nat.
Proof.
  intros Hn Hp. induction n as [|n IH]; [lia|]. cbn [lastKey]. destruct (lookup_lt_is_Some_2 source n ltac:(lia)) as [k Hk]. rewrite Hk.
  case_bool_decide as Hd.
  - subst k. exists n. split_and!; [done|lia|lia|done|lia].
  - assert (p <> n) by congruence. destruct IH as (q & Hq & Hb & Hs & Hmax); [lia|]. exists q. split_and!; [done|lia|lia|done|].
    intros r Hr Hrk. assert (r <> n) by congruence. apply Hmax; [lia|done].
Qed.

Definition below (n : nat) (ps : list nat) : Prop := Forall (fun p => p < n)%nat ps.

(** [e] is the place of the call [i] in every matching of [saved] below [n]. *)
Definition agreed (saved : list bytes) (n i e : nat) : Prop := forall ps, matching saved ps -> below n ps -> ps !! i = Some e.

Lemma below_mono n n' ps : (n <= n')%nat -> below n ps -> below n' ps.
Proof. intros Hn H. eapply Forall_impl; [exact H|]. cbn. lia. Qed.

Section backward.
Context (saved : list bytes) (es : list nat).
Context (Hes : matching (take (length es) saved) es).
Context (Hleast : forall k ps, (k <= length es)%nat -> matching (take k saved) ps -> Forall2 le (take k es) ps).

Lemma es_saved i e : es !! i = Some e -> exists key, saved !! i = Some key /\ source !! e = Some key.
Proof.
  intros He. destruct Hes as [_ Hf]. destruct (Forall2_lookup_r _ _ _ _ _ Hf He) as (key & Hk & Hs). exists key.
  by apply lookup_take_Some in Hk as [Hk _].
Qed.

Lemma es_take i : matching (take i (take (length es) saved)) (take i es).
Proof.
  destruct Hes as [Hs Hf]. split; [|by apply Forall2_take]. rewrite <- (take_drop i es) in Hs. by apply StronglySorted_app_1_l in Hs.
Qed.

Lemma es_below i e : es !! i = Some e -> below e (take i es).
Proof.
  intros He. destruct Hes as [Hs _]. pose proof (lookup_lt_Some _ _ _ He). rewrite <- (take_drop_middle es i e He) in Hs. apply Forall_forall. intros x Hx.
  apply StronglySorted_app in Hs as (Hlt & _). apply Hlt; [done|by left].
Qed.

(** One call: the matchings up to it are those before it with a place from [e] to [q]. *)
Lemma agreed_last i e key q n : es !! i = Some e -> saved !! i = Some key -> (e <= q < n)%nat -> source !! q = Some key ->
  (forall r, r < n -> source !! r = Some key -> r <= q)%nat -> agreed (take (S i) saved) n i e <-> q = e.
Proof.
  intros He Hk Hq Hs Hmax. pose proof (lookup_lt_Some _ _ _ He). pose proof (lookup_lt_Some _ _ _ Hk). rewrite (take_S_r _ _ _ Hk). split.
  - intros Ha. assert (matching (take i saved) (take i es)) as Hm by (pose proof (es_take i) as Hm; rewrite take_take, Nat.min_l in Hm by lia; done).
    pose proof (es_below i e He) as Hb. specialize (Ha (take i es ++ [q])). rewrite lookup_app_r, length_take, Nat.min_l, Nat.sub_diag in Ha by (rewrite ?length_take; lia).
    cut ([q] !! 0%nat = Some e); [cbn; congruence|]. apply Ha.
    + apply matching_snoc. exists (take i es), q. split_and!; [done|done|by eapply below_mono, Hb; lia|done].
    + apply Forall_app. split; [by eapply below_mono, Hb; lia|]. constructor; [lia|constructor].
  - intros -> ps (ps' & p & -> & Hm & Hlt & Hp)%matching_snoc Hn. pose proof (matching_length _ _ Hm) as Hl. rewrite length_take, Nat.min_l in Hl by lia.
    apply Forall_app in Hn as [_ Hn]. apply Forall_inv in Hn. pose proof (Hmax p Hn Hp).
    assert (matching (take (S i) saved) (ps' ++ [p])) as Hm' by (rewrite (take_S_r _ _ _ Hk); apply matching_snoc; eauto 6).
    pose proof (Hleast (S i) _ ltac:(lia) Hm') as Hle. rewrite (take_S_r _ _ _ He) in Hle.
    destruct (Forall2_lookup_l _ _ _ i e Hle) as (p' & Hp' & Hep); [rewrite lookup_app_r, length_take, Nat.min_l, Nat.sub_diag by (rewrite ?length_take; lia); done|].
    rewrite lookup_app_r in Hp' |- * by lia. rewrite Hl, Nat.sub_diag in *. cbn in *. injection Hp' as <-. f_equal. lia.
Qed.

(** An earlier call: its places below [n] are those that leave room for the latest place. *)
Lemma agreed_before i j e key q n : (j < i)%nat -> saved !! i = Some key -> (q < n)%nat -> source !! q = Some key ->
  (forall r, r < n -> source !! r = Some key -> r <= q)%nat -> agreed (take (S i) saved) n j e <-> agreed (take i saved) q j e.
Proof.
  intros Hj Hk Hq Hs Hmax. pose proof (lookup_lt_Some _ _ _ Hk). rewrite (take_S_r _ _ _ Hk). split.
  - intros Ha ps Hm Hb. pose proof (matching_length _ _ Hm) as Hl. rewrite length_take in Hl. rewrite <- (lookup_app_l ps [q] j) by lia. apply Ha.
    + apply matching_snoc. by exists ps, q.
    + apply Forall_app. split; [by eapply below_mono, Hb; lia|]. constructor; [lia|constructor].
  - intros Ha ps (ps' & p & -> & Hm & Hlt & Hp)%matching_snoc Hn. pose proof (matching_length _ _ Hm) as Hl. rewrite length_take in Hl.
    apply Forall_app in Hn as [_ Hn]. apply Forall_inv in Hn. pose proof (Hmax p Hn Hp). rewrite lookup_app_l by lia. apply Ha; [done|]. by eapply below_mono, Hlt.
Qed.

(** The backward walk over the first [index] calls below [n] ends, and answers a place exactly
    when all matchings agree on it. *)
Lemma provenLoop_spec index n positions : (index <= length es)%nat -> (n <= length source)%nat -> below n (take index es) ->
  (length es <= length positions)%nat ->
  exists out, provenLoop source saved es index n positions = Ok out /\ length out = length positions /\
    (forall i, index <= i -> out !! i = positions !! i)%nat /\
    forall i e, (i < index)%nat -> es !! i = Some e ->
      agreed (take index saved) n i e /\ out !! i = Some (Z.of_nat e) \/ ~ agreed (take index saved) n i e /\ out !! i = positions !! i.
Proof.
  revert n positions. induction index as [|i IH]; intros n positions Hi Hn Hb Hp; [exists positions; split_and!; [done|done|done|lia]|].
  destruct (lookup_lt_is_Some_2 es i Hi) as [e He]. destruct (es_saved i e He) as (key & Hk & Hse). cbn [provenLoop]. rewrite Hk, He.
  rewrite (take_S_r _ _ _ He) in Hb. apply Forall_app in Hb as [_ Hb]. apply Forall_inv in Hb.
  destruct (lastKey_spec key n e ltac:(lia) Hse) as (q & -> & Hq & Hsq & Hmax). cbn [mbind outcome_bind].
  set (positions' := if (q =? e)%nat then _ else _).
  assert (length positions' = length positions) as Hlen by (unfold positions'; destruct (q =? e)%nat; [apply length_insert|done]).
  destruct (IH q positions') as (out & -> & Hl & Hafter & Hbefore); [lia|lia|eapply below_mono, es_below; [|done]; lia|lia|].
  pose proof (agreed_last i e key q n He Hk ltac:(lia) Hsq Hmax) as Hlast. exists out. split_and!; [done|lia| |].
  - intros j Hj. rewrite Hafter by lia. unfold positions'. destruct (q =? e)%nat; [|done]. by rewrite list_lookup_insert_ne by lia.
  - intros j e' Hj He'. destruct (decide (j = i)) as [->|Hne].
    + assert (e' = e) as -> by congruence. rewrite Hafter by lia. unfold positions'. destruct (Nat.eqb_spec q e) as [->|Hd].
      * left. split; [by apply Hlast|]. by rewrite list_lookup_insert_eq by lia.
      * right. split; [|done]. by intros ?%Hlast.
    + destruct (Hbefore j e' ltac:(lia) He') as [[Ha Ho]|[Ha Ho]]; [left|right]; rewrite (agreed_before i j e' key q n) by (done || lia); (split; [done|]); [done|].
      rewrite Ho. unfold positions'. destruct (q =? e)%nat; [|done]. by rewrite list_lookup_insert_ne by lia.
Qed.
End backward.
End matching.

(** ** The aligned prefix *)

Fixpoint commonPrefix (saved source : list bytes) : nat :=
  match saved, source with
  | a :: saved, b :: source => if bool_decide (a = b) then S (commonPrefix saved source) else 0%nat
  | _, _ => 0%nat
  end.

Fixpoint leading (l : list nat) (index : nat) : nat :=
  match l with
  | p :: l => if (p =? index)%nat then S (leading l (S index)) else 0%nat
  | [] => 0%nat
  end.

Lemma leading_length l index : (leading l index <= length l)%nat.
Proof. revert index. induction l as [|p l IH]; intros index; cbn; [done|]. destruct (p =? index)%nat; [|lia]. specialize (IH (S index)). lia. Qed.

Lemma alignedLoop_leading es index : (index <= length es)%nat -> alignedLoop es (drop index es) index = take (index + leading (drop index es) index) es.
Proof.
  intros Hi. remember (drop index es) as l eqn:El. revert index Hi El. induction l as [|p l IH]; intros index Hi El; cbn [alignedLoop leading].
  - assert (length (drop index es) = 0)%nat as Hl by (by rewrite <- El). rewrite length_drop in Hl. by rewrite take_ge by lia.
  - assert (length (drop index es) = S (length l)) as Hl by (by rewrite <- El). rewrite length_drop in Hl.
    destruct (Nat.eqb_spec p index); [|by rewrite Nat.add_0_r]. rewrite IH; [f_equal; lia|lia|]. by rewrite (drop_next es l p).
Qed.

Lemma findKey_ge keys key n : (n <= findKey keys key n)%nat.
Proof. revert n. induction keys as [|k keys IH]; intros n; cbn; [done|]. case_bool_decide; [done|]. specialize (IH (S n)). lia. Qed.

Lemma leading_earliest source saved n : (n <= length source)%nat -> leading (earliestLoop source saved n) n = commonPrefix saved (drop n source).
Proof.
  revert n. induction saved as [|key saved IH]; intros n Hn; [done|]. cbn [earliestLoop]. destruct (drop n source) as [|k rest] eqn:Ed.
  - assert (length (drop n source) = 0)%nat as Hl by (by rewrite Ed). rewrite length_drop in Hl. cbn [findKey]. by rewrite (proj2 (Nat.eqb_eq n (length source))) by lia.
  - assert (length (drop n source) = S (length rest)) as Hl by (by rewrite Ed). rewrite length_drop in Hl. cbn [findKey commonPrefix].
    destruct (decide (k = key)) as [->|Hne].
    + rewrite !bool_decide_eq_true_2 by done. rewrite (proj2 (Nat.eqb_neq n (length source))) by lia. cbn [leading]. by rewrite Nat.eqb_refl, IH, (drop_next source rest key) by (done || lia).
    + rewrite !bool_decide_eq_false_2 by congruence. pose proof (findKey_ge rest key (S n)). destruct (_ =? length source)%nat; [done|]. cbn [leading].
      by rewrite (proj2 (Nat.eqb_neq _ n)) by lia.
Qed.

(** The calls that are compared: all of them when they can be matched in order, and else those
    before the first difference. *)
Definition compared (source saved : list bytes) (n : nat) : Prop :=
  (exists ps, matching source saved ps) /\ n = length saved \/ ~ (exists ps, matching source saved ps) /\ n = commonPrefix saved source.

Lemma earliest_compared source saved : let es := earliestLoop source saved 0 in
  exists n, compared source saved n /\ (n <= length es)%nat /\
    (if (length es <? length saved)%nat then alignedToolPrefix es else es) = take n es.
Proof.
  cbv zeta. pose proof (earliestLoop_matching source saved 0 ltac:(lia)) as [Hm _]. set (es := earliestLoop source saved 0) in *.
  assert ((exists ps, matching source saved ps) -> length es = length saved) as Hall.
  { intros [ps Hps]. pose proof (earliestLoop_least source saved 0 ps ltac:(lia) Hps (proj2 (Forall_forall _ _) (fun x _ => Nat.le_0_l x))) as Hle.
    apply Forall2_length in Hle. fold es in Hle. apply matching_length in Hps. congruence. }
  destruct (Nat.ltb_spec (length es) (length saved)) as [Hlt|Hge].
  - exists (commonPrefix saved source). split; [right; split; [intros H; apply Hall in H; lia|done]|]. unfold alignedToolPrefix.
    pose proof (alignedLoop_leading es 0 ltac:(lia)) as Ha. rewrite drop_0 in Ha. rewrite Ha, Nat.add_0_l.
    pose proof (leading_earliest source saved 0 ltac:(lia)) as Hl. rewrite drop_0 in Hl. fold es in Hl. rewrite Hl. split; [|done]. rewrite <- Hl. apply leading_length.
  - assert (length es = length saved) as He by (pose proof (matching_length _ _ _ Hm) as H; rewrite length_take in H; lia).
    exists (length saved). split; [left; split; [|done]; exists es; by rewrite He, firstn_all in Hm|]. split; [lia|]. by rewrite <- He, firstn_all.
Qed.

(** C31. Matching saved calls with their source never reads out of range and answers one
    position per call.  Of the calls that are compared, a call has the place [p] in the answer
    exactly when it has it in every matching in order, and there is one; every other position
    is [UnprovenToolPosition]. *)
Theorem ProvenToolPositions_exact saved source :
  let savedKeys := map (fun identity => toolIdentityKey identity savedInvalidToolKey) saved in
  let sourceKeys := map (fun identity => toolIdentityKey identity sourceInvalidToolKey) source in
  exists n positions, compared sourceKeys savedKeys n /\ (exists ps, matching sourceKeys (take n savedKeys) ps) /\
    ProvenToolPositions saved source = Ok positions /\ length positions = length saved /\
    forall i, (i < length saved)%nat ->
      (exists p, positions !! i = Some (Z.of_nat p) /\ (i < n)%nat /\ forall ps, matching sourceKeys (take n savedKeys) ps -> ps !! i = Some p) \/
      positions !! i = Some UnprovenToolPosition /\
      ~ ((i < n)%nat /\ exists p, forall ps, matching sourceKeys (take n savedKeys) ps -> ps !! i = Some p).
Proof.
  cbv zeta. set (savedKeys := map _ saved). set (sourceKeys := map _ source). pose proof (earliestLoop_matching sourceKeys savedKeys 0 ltac:(lia)) as [Hm _].
  destruct (earliest_compared sourceKeys savedKeys) as (n & Hc & Hn & He). unfold ProvenToolPositions. fold savedKeys sourceKeys.
  assert (length savedKeys = length saved) as Hlen by apply length_map. rewrite <- Hlen. rewrite He. set (es := earliestLoop sourceKeys savedKeys 0) in *.
  assert (length (take n es) = n) as Hl by (rewrite length_take; lia).
  assert (matching sourceKeys (take n savedKeys) (take n es)) as Hmn.
  { pose proof (es_take sourceKeys savedKeys es Hm n) as H. by rewrite take_take, Nat.min_l in H by lia. }
  assert (forall ps, matching sourceKeys (take n savedKeys) ps -> below (length sourceKeys) ps) as Hbelow.
  { intros ps [_ Hf]. apply Forall_forall. intros p (i & Hi)%list_elem_of_lookup. destruct (Forall2_lookup_r _ _ _ _ _ Hf Hi) as (k & _ & Hk). by eapply lookup_lt_Some. }
  destruct (provenLoop_spec sourceKeys savedKeys (take n es)) with (index := n) (n := length sourceKeys) (positions := replicate (length savedKeys) UnprovenToolPosition)
    as (out & Ho & Hlo & Hafter & Hbefore).
  - by rewrite Hl.
  - intros k ps Hk H. rewrite Hl in Hk. rewrite take_take, Nat.min_l by lia. unfold es. rewrite <- earliestLoop_take. apply earliestLoop_least; [lia|done|].
    apply Forall_forall. intros. lia.
  - lia.
  - lia.
  - rewrite take_take, Nat.min_id. by apply Hbelow.
  - rewrite Hl, length_replicate. apply matching_length in Hm. rewrite length_take in Hm. lia.
  - rewrite length_replicate in Hlo. exists n, out. split; [done|]. split; [by exists (take n es)|]. rewrite Hl. split_and!; [done|done|]. intros i Hi.
    assert (replicate (length savedKeys) UnprovenToolPosition !! i = Some UnprovenToolPosition) as Hr by (by apply lookup_replicate_2).
    destruct (decide (i < n)%nat) as [Hin|Hout]; [|right; rewrite Hafter by lia; split; [done|lia]].
    destruct (lookup_lt_is_Some_2 (take n es) i ltac:(lia)) as [e Hei]. destruct (Hbefore i e Hin Hei) as [[Ha Hoi]|[Ha Hoi]].
    + left. exists e. split_and!; [done|done|]. intros ps Hps. by apply Ha, Hbelow.
    + right. split; [congruence|]. intros (_ & p & Hp). apply Ha. intros ps Hps _. rewrite (Hp ps Hps). pose proof (Hp _ Hmn). congruence.
Qed.
