(* ===== verification/TrTimes.v ===== *)
(** * TrTimes: the time of a text by the source that spells it (transcript/source_times.go)

    A text of a saved transcript is dated by the entries of its source: a single entry, or
    consecutive entries of one role joined by white space, or a copy.  [runSpells_exact] says
    when entries spell a text, [TextTime_found] when a time is answered: all single spellings
    and copies have it, and no spelling joins entries.

    Of a [time.Time] only the instant matters here; it is the number of nanoseconds since the
    zero time. *)

From S2P Require Import Prelude GoUtf8 GoStrconv GoText.

Open Scope Z_scope.

Definition Time : Type := Z.
Definition IsZero (t : Time) : bool := t =? 0.

Inductive SourceTimeOutcome := SourceTimeFound | SourceTimeNone | SourceTimeAmbiguous | SourceTimeUndated | SourceTimeCombined.

Record SourceTimeCandidate := MkCandidate { tc_Timestamp : Time; tc_Combined : bool }.
Record SourceTimeEntry := MkEntry { te_Role : bytes; te_Text : bytes; te_Timestamp : Time }.
Record sourceText := MkSourceText { st_text : bytes; st_timestamp : Time }.

Record SourceTimeIndex := MkTimeIndex {
  ti_runs : gmap bytes (list (list sourceText));
  ti_copies : gmap bytes (list Time);
}.

Definition copyKey (role text : bytes) : bytes := role ++ [Byte.x00] ++ text.

(** [m[key] = append(m[key], x)]. *)
Definition appendAt {A} (m : gmap bytes (list A)) (key : bytes) (x : A) : gmap bytes (list A) := <[key := default [] (m !! key) ++ [x]]> m.

Definition addCopy (copies : gmap bytes (list Time)) (entry : SourceTimeEntry) : gmap bytes (list Time) :=
  match TrimSpace (te_Text entry) with
  | [] => copies
  | trimmed => appendAt copies (copyKey (te_Role entry) trimmed) (te_Timestamp entry)
  end.

(** The state of the loop over the entries: the runs, the current role and its run. *)
Record building := MkBuilding { bd_runs : gmap bytes (list (list sourceText)); bd_role : bytes; bd_current : list sourceText }.

Definition flush (b : building) : building :=
  let runs := match bd_role b, bd_current b with
              | (_ :: _) as role, (_ :: _) as current => appendAt (bd_runs b) role current
              | _, _ => bd_runs b
              end in
  MkBuilding runs (bd_role b) [].

Definition addEntry (b : building) (entry : SourceTimeEntry) : building :=
  let b := if bool_decide (te_Role entry = bd_role b) then b
           else let b := flush b in MkBuilding (bd_runs b) (te_Role entry) (bd_current b) in
  match TrimSpace (te_Text entry) with
  | [] => b
  | trimmed => MkBuilding (bd_runs b) (bd_role b) (bd_current b ++ [MkSourceText trimmed (te_Timestamp entry)])
  end.

Definition NewSourceTimeIndex (entries copies : list SourceTimeEntry) : SourceTimeIndex :=
  MkTimeIndex (bd_runs (flush (foldl addEntry (MkBuilding ∅ [] []) entries))) (foldl addCopy ∅ copies).

(** [first] says that [position] is 0. *)
Fixpoint spellLoop (first : bool) (run : list sourceText) (remaining : bytes) : nat :=
  match run with
  | [] => 0
  | entry :: run =>
      let separated := if first then remaining else TrimLeftFunc IsSpace remaining in
      if negb first && (length separated =? length remaining)%nat then 0%nat
      else match CutPrefix separated (st_text entry) with
           | None => 0
           | Some [] => 1
           | Some rest => match spellLoop false run rest with O => 0 | S n => S (S n) end
           end
  end.

(** The position of the entry that ends the text is counted from the first one. *)
Definition runSpells (run : list sourceText) (text : bytes) : nat := spellLoop true run text.

(** The loop over the starts in one run. *)
Fixpoint runCandidates (run : list sourceText) (trimmed : bytes) : list SourceTimeCandidate :=
  match run with
  | [] => []
  | entry :: rest =>
      let used := runSpells run trimmed in
      if (0 <? used)%nat then MkCandidate (st_timestamp entry) (1 <? used)%nat :: runCandidates rest trimmed else runCandidates rest trimmed
  end.

(** [None] is the nil index. *)
Definition TextCandidates (index : option SourceTimeIndex) (role text : bytes) : list SourceTimeCandidate :=
  match index, TrimSpace text with
  | None, _ | _, [] => []
  | Some index, trimmed =>
      concat (map (fun run => runCandidates run trimmed) (default [] (ti_runs index !! role))) ++
      map (fun stamp => MkCandidate stamp false) (default [] (ti_copies index !! copyKey role trimmed))
  end.

Definition TextTime (index : option SourceTimeIndex) (role text : bytes) : Time * SourceTimeOutcome :=
  let all := TextCandidates index role text in
  let candidates := map tc_Timestamp (List.filter (fun c => negb (tc_Combined c)) all) in
  if existsb tc_Combined all then (0, SourceTimeCombined)
  else match candidates with
       | [] => (0, SourceTimeNone)
       | stamp :: rest =>
           if existsb (fun candidate => negb (candidate =? stamp)) rest then (0, SourceTimeAmbiguous)
           else if IsZero stamp then (0, SourceTimeUndated)
           else (stamp, SourceTimeFound)
       end.

Example time_sample :
  let user := lit "user" in
  let index := Some (NewSourceTimeIndex [MkEntry user (lit " fix the bug ") 5; MkEntry user (lit "and test it") 6; MkEntry (lit "assistant") (lit "done") 7; MkEntry user (lit "thanks") 8; MkEntry user (lit "thanks") 9]
    [MkEntry user (lit "copied") 4; MkEntry user (lit "undated") 0]) in
  TextTime index user (lit "fix the bug") = (5, SourceTimeFound) /\ TextTime index user (lit "copied ") = (4, SourceTimeFound) /\
  TextTime index user (lit "fix the bug  and test it") = (0, SourceTimeCombined) /\ TextTime index user (lit "thanks") = (0, SourceTimeAmbiguous) /\
  TextTime index user (lit "undated") = (0, SourceTimeUndated) /\ TextTime index user (lit "fix the bugand test it") = (0, SourceTimeNone) /\
  TextTime index user (lit "done") = (0, SourceTimeNone) /\ TextTime None user (lit "done") = (0, SourceTimeNone).
Proof. vm_compute. split_and!; reflexivity. Qed.

(** ** Spellings *)

Definition blank (s : bytes) : Prop := TrimLeftFunc IsSpace s = [].

(** [text] is the texts of all the entries, joined by white space. *)
Inductive spells : list sourceText -> bytes -> Prop :=
| spellsLast entry : spells [entry] (st_text entry)
| spellsMore entry entries sep text : sep <> [] -> blank sep -> TrimLeftFunc IsSpace text = text -> spells entries text ->
    spells (entry :: entries) (st_text entry ++ sep ++ text).

(** What the index holds. *)
Definition indexed (entry : sourceText) : Prop := st_text entry <> [].

Lemma trimLeftLoop_fuel f s n m : (length s <= n)%nat -> (length s <= m)%nat -> trimLeftLoop n f s = trimLeftLoop m f s.
Proof.
  revert s m. induction n as [|n IH]; intros s m Hn Hm; [destruct s; [by destruct m|cbn in Hn; lia]|].
  destruct s as [|b s]; [by destruct m|]. destruct m as [|m]; [cbn in Hm; lia|]. cbn [trimLeftLoop]. destruct (DecodeRune (b :: s)) as [r w] eqn:E.
  destruct (f r); [|done]. pose proof (DecodeRune_width b s) as Hw. rewrite E in Hw. cbn [snd] in Hw. apply IH; rewrite length_drop; cbn [length] in *; lia.
Qed.

Lemma TrimLeft_step b s r w : DecodeRune (b :: s) = (r, w) -> IsSpace r = true -> TrimLeftFunc IsSpace (b :: s) = TrimLeftFunc IsSpace (drop w (b :: s)).
Proof.
  intros E Es. unfold TrimLeftFunc. cbn [length trimLeftLoop]. rewrite E, Es. pose proof (DecodeRune_width b s) as Hw. rewrite E in Hw. cbn [snd] in Hw.
  apply trimLeftLoop_fuel; rewrite length_drop; cbn [length] in *; lia.
Qed.

(** White space before a text is trimmed with what the text begins with. *)
Lemma TrimLeft_blank sep text : blank sep -> TrimLeftFunc IsSpace (sep ++ text) = TrimLeftFunc IsSpace text.
Proof.
  remember (length sep) as n eqn:En. revert sep En. induction (lt_wf n) as [n _ IH]. intros sep -> H. destruct sep as [|b sep]; [done|].
  destruct (DecodeRune (b :: sep)) as [r w] eqn:E. pose proof (DecodeRune_width b sep) as Hw. rewrite E in Hw. cbn [snd] in Hw.
  destruct (IsSpace r) eqn:Es; [|unfold blank, TrimLeftFunc in H; cbn [length trimLeftLoop] in H; rewrite E, Es in H; done].
  pose proof (DecodeRune_app b sep text r w E (space_decodes _ _ Es)) as E'. unfold blank in H. rewrite (TrimLeft_step b sep r w E Es) in H.
  change ((b :: sep) ++ text) with (b :: sep ++ text) in *. rewrite (TrimLeft_step b (sep ++ text) r w E' Es).
  change (b :: sep ++ text) with ((b :: sep) ++ text). rewrite drop_app_le by lia. eapply IH; [|reflexivity|done]. rewrite length_drop. cbn [length] in *. lia.
Qed.

(** What is trimmed is white space. *)
Lemma TrimLeft_split s : exists sep, s = sep ++ TrimLeftFunc IsSpace s /\ blank sep.
Proof.
  remember (length s) as n eqn:En. revert s En. induction (lt_wf n) as [n _ IH]. intros s ->. destruct s as [|b s]; [by exists []|].
  destruct (DecodeRune (b :: s)) as [r w] eqn:E. pose proof (DecodeRune_width b s) as Hw. rewrite E in Hw. cbn [snd] in Hw.
  destruct (IsSpace r) eqn:Es.
  - rewrite (TrimLeft_step b s r w E Es). destruct (IH (length (drop w (b :: s))) ltac:(rewrite length_drop; cbn [length] in *; lia) _ eq_refl) as (sep & Hs & Hb).
    exists (take w (b :: s) ++ sep). split; [by rewrite <- app_assoc, <- Hs, take_drop|]. destruct w as [|w]; [lia|]. cbn [take app] in *.
    assert (DecodeRune (b :: take w s ++ sep) = (r, S w)) as E1.
    { pose proof (DecodeRune_take (b :: s) r (S w) (S w) E (space_decodes _ _ Es) ltac:(lia)) as Et. exact (DecodeRune_app b (take w s) sep r (S w) Et (space_decodes _ _ Es)). }
    unfold blank. rewrite (TrimLeft_step _ _ r (S w) E1 Es). cbn [drop]. rewrite drop_app_length' by (rewrite length_take; cbn [length] in *; lia). done.
  - exists []. split; [|done]. unfold TrimLeftFunc. cbn [length trimLeftLoop]. by rewrite E, Es.
Qed.

Lemma TrimLeft_idem s : TrimLeftFunc IsSpace (TrimLeftFunc IsSpace s) = TrimLeftFunc IsSpace s.
Proof.
  unfold TrimLeftFunc at 2 3. destruct (trimLeftLoop_spec (length s) s ltac:(lia)) as [->|H]; [done|]. set (t := trimLeftLoop _ _ s) in *.
  unfold TrimLeftFunc. destruct t as [|b t]; [done|]. cbn [length trimLeftLoop]. destruct (DecodeRune (b :: t)) as [r w]. cbn [fst] in H. by rewrite H.
Qed.

Lemma CutPrefix_Some s prefix rest : CutPrefix s prefix = Some rest <-> s = prefix ++ rest.
Proof.
  unfold CutPrefix. destruct (HasPrefix s prefix) eqn:E.
  - apply HasPrefix_spec in E as [r ->]. rewrite drop_app_length. split; [by intros [= ->]|intros H; by apply app_inv_head in H as ->].
  - split; [done|]. intros ->. assert (HasPrefix (prefix ++ rest) prefix = true) by (apply HasPrefix_spec; eauto). congruence.
Qed.

Lemma spells_nonempty run text : Forall indexed run -> spells run text -> text <> [].
Proof. intros H Hs. destruct Hs as [entry|entry entries sep text Hn _ _ _]; apply Forall_inv in H; [done|]. by intros [? _]%app_eq_nil. Qed.

(** White space first, then a spelling. *)
Lemma spellLoop_false run rest k : (0 < k)%nat -> spellLoop false run rest = k <->
  exists sep text, rest = sep ++ text /\ sep <> [] /\ blank sep /\ TrimLeftFunc IsSpace text = text /\ spellLoop true run text = k.
Proof.
  intros Hk. destruct run as [|entry run]; cbn [spellLoop negb andb].
  { split; [lia|]. intros (? & ? & _ & _ & _ & _ & ?). lia. }
  destruct (TrimLeft_split rest) as (sep & Er & Hb). set (text := TrimLeftFunc IsSpace rest) in *. split.
  - destruct (Nat.eqb_spec (length text) (length rest)) as [|Hne]; [lia|]. intros H. exists sep, text. split_and!; [done| |done|apply TrimLeft_idem|done].
    intros ->. by rewrite Er in Hne.
  - intros (sep' & text' & Er' & Hn & Hb' & Ht & H). assert (text = text') as Et by (unfold text; by rewrite Er', TrimLeft_blank).
    rewrite Et. destruct (Nat.eqb_spec (length text') (length rest)) as [Hl|_]; [|done]. rewrite Er', length_app in Hl. destruct sep'; [done|cbn in Hl; lia].
Qed.

(** The count is that of the entries that spell the text, whenever there are any. *)
Lemma runSpells_exact run text k : Forall indexed run -> (0 < k)%nat -> runSpells run text = k <-> (k <= length run)%nat /\ spells (take k run) text.
Proof.
  unfold runSpells. intros H. revert text k. induction H as [|entry run He Hrun IH]; intros text k Hk; cbn [spellLoop length].
  { split; [lia|]. intros [? _]. lia. }
  cbn [negb andb]. destruct k as [|k]; [lia|]. cbn [take]. split.
  - destruct (CutPrefix text (st_text entry)) as [rest|] eqn:E; [|done]. apply CutPrefix_Some in E as ->. destruct rest as [|b rest].
    { intros [= <-]. rewrite app_nil_r. split; [lia|constructor]. }
    destruct (spellLoop false run (b :: rest)) as [|n] eqn:El; [done|]. intros [= <-]. apply spellLoop_false in El as (sep & t & -> & Hn & Hb & Ht & El); [|lia].
    apply IH in El as [Hl Hs]; [|lia]. split; [lia|by constructor].
  - intros [Hl Hs]. inversion Hs as [entry' Hnil Heq|entry' entries sep t Hn Hb Ht Hs' Hentry Heq]; subst.
    + assert (CutPrefix (st_text entry) (st_text entry) = Some []) as -> by (apply CutPrefix_Some; by rewrite app_nil_r).
      destruct k as [|k]; [done|]. destruct run; [cbn in Hl; lia|done].
    + rewrite (proj2 (CutPrefix_Some _ _ (sep ++ t))) by done. destruct (sep ++ t) as [|b rest] eqn:Er; [by apply app_eq_nil in Er as [? _]|]. rewrite <- Er.
      destruct k as [|k]; [inversion Hs'|]. assert (spellLoop false run (sep ++ t) = S k) as ->; [|done].
      apply spellLoop_false; [lia|]. exists sep, t. split_and!; [done|done|done|done|]. apply IH; [lia|]. split; [lia|done].
Qed.

(** ** The answer *)

Definition wellIndexed (runs : gmap bytes (list (list sourceText))) : Prop :=
  forall role all run, runs !! role = Some all -> run ∈ all -> Forall indexed run.

Lemma appendAt_wellIndexed runs role run : wellIndexed runs -> Forall indexed run -> wellIndexed (appendAt runs role run).
Proof.
  intros H Hrun role' all run' E Hin. unfold appendAt in E. destruct (decide (role' = role)) as [->|Hne].
  - rewrite lookup_insert, decide_True in E by done. injection E as <-. apply elem_of_app in Hin as [Hin| ->%list_elem_of_singleton]; [|done].
    destruct (runs !! role) as [all|] eqn:Er; [by eapply H|by apply not_elem_of_nil in Hin].
  - rewrite lookup_insert_ne in E by done. by eapply H.
Qed.

Lemma flush_wellIndexed b : wellIndexed (bd_runs b) -> Forall indexed (bd_current b) -> wellIndexed (bd_runs (flush b)).
Proof. intros H Hc. unfold flush. cbn [bd_runs]. destruct (bd_role b), (bd_current b); try done. by apply appendAt_wellIndexed. Qed.

Lemma addEntry_wellIndexed b entry : wellIndexed (bd_runs b) -> Forall indexed (bd_current b) ->
  wellIndexed (bd_runs (addEntry b entry)) /\ Forall indexed (bd_current (addEntry b entry)).
Proof.
  intros H Hc. unfold addEntry. set (b' := if bool_decide _ then b else _).
  assert (wellIndexed (bd_runs b') /\ Forall indexed (bd_current b')) as [H1 H2]
    by (unfold b'; case_bool_decide; [done|split; [by apply flush_wellIndexed|constructor]]).
  destruct (TrimSpace (te_Text entry)) eqn:E; [done|]. split; [done|]. apply Forall_app. split; [done|]. by repeat constructor.
Qed.

Lemma NewSourceTimeIndex_wellIndexed entries copies : wellIndexed (ti_runs (NewSourceTimeIndex entries copies)).
Proof.
  unfold NewSourceTimeIndex. cbn [ti_runs]. enough (forall b, wellIndexed (bd_runs b) -> Forall indexed (bd_current b) ->
    wellIndexed (bd_runs (foldl addEntry b entries)) /\ Forall indexed (bd_current (foldl addEntry b entries))) as H.
  { destruct (H (MkBuilding ∅ [] [])) as [H1 H2]; [intros ??? E; cbn in E; by rewrite lookup_empty in E|constructor|]. by apply flush_wellIndexed. }
  induction entries as [|entry entries IH]; intros b Hb Hc; [done|]. cbn [foldl]. by apply IH; apply addEntry_wellIndexed.
Qed.

(** A place of the index dates the text: [k] entries from it on spell the text, or it is a
    copy of the text. *)
Definition dates (index : SourceTimeIndex) (role text : bytes) (stamp : Time) (k : nat) : Prop :=
  (exists run start entry, run ∈ default [] (ti_runs index !! role) /\ run !! start = Some entry /\ st_timestamp entry = stamp /\
     (k <= length (drop start run))%nat /\ spells (take k (drop start run)) (TrimSpace text)) \/
  k = 1%nat /\ stamp ∈ default [] (ti_copies index !! copyKey role (TrimSpace text)).

Lemma elem_runCandidates run text c : c ∈ runCandidates run text <->
  exists start entry, run !! start = Some entry /\ c = MkCandidate (st_timestamp entry) (1 <? runSpells (drop start run) text)%nat /\ (0 < runSpells (drop start run) text)%nat.
Proof.
  induction run as [|entry run IH].
  { split; [intros []%not_elem_of_nil|intros (? & ? & E & _); done]. }
  assert (c ∈ runCandidates (entry :: run) text <-> (c = MkCandidate (st_timestamp entry) (1 <? runSpells (entry :: run) text)%nat /\ (0 < runSpells (entry :: run) text)%nat) \/ c ∈ runCandidates run text) as ->.
  { cbn [runCandidates]. destruct (Nat.ltb_spec 0 (runSpells (entry :: run) text)); [rewrite elem_of_cons; naive_solver lia|naive_solver lia]. }
  rewrite IH. split.
  - intros [(-> & H)|(start & e & H1 & H2 & H3)]; [by exists 0%nat, entry|]. by exists (S start), e.
  - intros ([|start] & e & H1 & H2 & H3); [injection H1 as <-; by left|right]. by exists start, e.
Qed.

Lemma elem_TextCandidates index role text c : wellIndexed (ti_runs index) -> TrimSpace text <> [] ->
  c ∈ TextCandidates (Some index) role text <-> exists k, (0 < k)%nat /\ dates index role text (tc_Timestamp c) k /\ tc_Combined c = (1 <? k)%nat.
Proof.
  intros Hw Ht. unfold TextCandidates, dates. destruct (TrimSpace text) as [|b trimmed] eqn:E; [done|]. set (s := b :: trimmed) in *. rewrite elem_of_app. split.
  - intros [(l & Hc & Hl)%list_elem_of_concat|(stamp & -> & Hs)%list_elem_of_fmap].
    + apply list_elem_of_fmap in Hl as (run & -> & Hrun). apply elem_runCandidates in Hc as (start & entry & He & -> & Hpos). exists (runSpells (drop start run) s).
      split; [done|]. split; [|done]. left. exists run, start, entry. split; [done|]. split; [done|]. split; [done|].
      apply runSpells_exact; [|done|done]. apply Forall_drop. destruct (ti_runs index !! role) eqn:Er; [by eapply Hw|by apply not_elem_of_nil in Hrun].
    + exists 1%nat. split; [lia|]. split; [by right|done].
  - intros (k & Hk & [(run & start & entry & Hrun & He & Hst & Hl & Hs)|[-> Hs]] & Hc); destruct c as [stamp combined]; cbn [tc_Timestamp tc_Combined] in *; subst.
    + left. apply list_elem_of_concat. exists (runCandidates run s). split; [|by apply list_elem_of_fmap; exists run]. apply elem_runCandidates. exists start, entry.
      assert (runSpells (drop start run) s = k) as ->; [|done]. apply runSpells_exact; [|done|done]. apply Forall_drop.
      destruct (ti_runs index !! role) eqn:Er; [by eapply Hw|by apply not_elem_of_nil in Hrun].
    + right. apply list_elem_of_fmap. by exists stamp.
Qed.

(** A text is dated by [t] exactly when something dates it and everything that dates it is a
    single entry or copy with that time, which is not the zero time. *)
Theorem TextTime_found entries copies role text t :
  let index := NewSourceTimeIndex entries copies in
  TextTime (Some index) role text = (t, SourceTimeFound) <->
    TrimSpace text <> [] /\ t <> 0 /\ dates index role text t 1 /\ forall stamp k, (0 < k)%nat -> dates index role text stamp k -> k = 1%nat /\ stamp = t.
Proof.
  cbv zeta. set (index := NewSourceTimeIndex entries copies). pose proof (NewSourceTimeIndex_wellIndexed entries copies) as Hw. fold index in Hw.
  destruct (decide (TrimSpace text = [])) as [Et|Et].
  { unfold TextTime, TextCandidates. rewrite Et. by split; [|intros []]. }
  pose proof (fun c => elem_TextCandidates index role text c Hw Et) as Hc. unfold TextTime. set (all := TextCandidates (Some index) role text) in *.
  destruct (existsb tc_Combined all) eqn:Ex.
  { split; [done|]. intros (_ & _ & _ & H). apply existsb_exists in Ex as (c & Hin%list_elem_of_In & Hb). apply Hc in Hin as (k & Hk & Hd & Hcomb).
    destruct (H _ _ Hk Hd) as [-> _]. by rewrite Hb in Hcomb. }
  assert (forall c, c ∈ all -> tc_Combined c = false) as Hsingle.
  { intros c Hin. destruct (tc_Combined c) eqn:E; [|done]. assert (existsb tc_Combined all = true) by (apply existsb_exists; exists c; by rewrite <- list_elem_of_In). congruence. }
  assert (List.filter (fun c => negb (tc_Combined c)) all = all) as ->.
  { clear - Hsingle. induction all as [|c all IH]; [done|]. cbn. rewrite (Hsingle c) by (by left). cbn. f_equal. apply IH. intros d Hd. apply Hsingle. by right. }
  assert (forall stamp k, (0 < k)%nat -> dates index role text stamp k -> k = 1%nat /\ exists c, c ∈ all /\ tc_Timestamp c = stamp) as Hdated.
  { intros stamp k Hk Hd. assert (MkCandidate stamp (1 <? k)%nat ∈ all) as Hin by (apply Hc; by exists k).
    pose proof (Hsingle _ Hin) as Hs%Nat.ltb_ge. split; [lia|]. by eexists. }
  assert (forall c, c ∈ all -> dates index role text (tc_Timestamp c) 1) as Hdates.
  { intros c (k & Hk & Hd & _)%Hc. by destruct (Hdated _ _ Hk Hd) as [-> _]. }
  clearbody all. clear Hc Hsingle Ex. destruct all as [|first rest]; cbn [map].
  { split; [done|]. intros (_ & _ & Hd & _). destruct (Hdated _ _ Nat.lt_0_1 Hd) as (_ & c & Hin & _). by apply not_elem_of_nil in Hin. }
  destruct (existsb (fun candidate => negb (candidate =? tc_Timestamp first)) (map tc_Timestamp rest)) eqn:Eo.
  { split; [done|]. intros (_ & _ & _ & H). apply existsb_exists in Eo as (stamp & Hin%list_elem_of_In & Hne). apply list_elem_of_fmap in Hin as (c & -> & Hin).
    destruct (H _ _ Nat.lt_0_1 (Hdates c ltac:(by right))) as [_ Hs], (H _ _ Nat.lt_0_1 (Hdates first ltac:(by left))) as [_ Hf]. rewrite Hs, Hf, Z.eqb_refl in Hne. done. }
  assert (forall c, c ∈ first :: rest -> tc_Timestamp c = tc_Timestamp first) as Hsame.
  { intros c [->|Hin]%elem_of_cons; [done|]. apply not_true_iff_false in Eo. destruct (Z.eqb_spec (tc_Timestamp c) (tc_Timestamp first)) as [|Hne]; [done|].
    destruct Eo. apply existsb_exists. exists (tc_Timestamp c). rewrite <- list_elem_of_In. split; [apply list_elem_of_fmap; by exists c|]. apply negb_true_iff. by apply Z.eqb_neq. }
  unfold IsZero. destruct (Z.eqb_spec (tc_Timestamp first) 0) as [Ez|Ez].
  - split; [done|]. intros (_ & Ht & _ & H). destruct (H _ _ Nat.lt_0_1 (Hdates first ltac:(by left))) as [_ Hf]. congruence.
  - split.
    + intros [= <-]. split_and!; [done|done|apply Hdates; by left|]. intros stamp k Hk Hd. destruct (Hdated _ _ Hk Hd) as (-> & c & Hin & <-). by split; [|apply Hsame].
    + intros (_ & _ & _ & H). destruct (H _ _ Nat.lt_0_1 (Hdates first ltac:(by left))) as [_ <-]. done.
Qed.
