(* ===== verification/ReClean.v ===== *)
(** * ReClean: cleaning a transcript before it is recovered (conversation/reorient.go)

    What an earlier injection left in a compact summary is cut out of it, and runs of turns
    that differ only in times and counters are collapsed.  [injection_stripped]: the text that
    the proxy injects into a summary is removed from it, whatever the recovered segments hold. *)

From S2P Require Import Prelude GoUtf8 GoStrconv GoText GoRegexp RtSegments CvCompaction TrMessage ExFilter.

Open Scope Z_scope.

(** ** Balanced spans *)

(** The text behind the close tag that belongs to an open tag; [rest] starts behind the open
    tag and [depth] counts the open ones.  Every round goes past a tag. *)
Fixpoint balancedEnd (fuel : nat) (openTag closeTag rest : bytes) (depth : nat) : option bytes :=
  match depth with
  | O => Some rest
  | S shallower =>
      match fuel with
      | O => None
      | S fuel =>
          match Index rest closeTag with
          | None => None
          | Some nextClose =>
              match Index rest openTag with
              | Some nextOpen =>
                  if (nextOpen <? nextClose)%nat then balancedEnd fuel openTag closeTag (drop (nextOpen + length openTag) rest) (S depth)
                  else balancedEnd fuel openTag closeTag (drop (nextClose + length closeTag) rest) shallower
              | None => balancedEnd fuel openTag closeTag (drop (nextClose + length closeTag) rest) shallower
              end
          end
      end
  end.

(** What the builder receives of [remaining], and whether a span was cut out. *)
Fixpoint stripLoop (fuel : nat) (openTag closeTag remaining : bytes) (changed : bool) : bytes * bool :=
  match fuel with
  | O => (remaining, changed)
  | S fuel =>
      match Index remaining openTag with
      | None => (remaining, changed)
      | Some start =>
          match balancedEnd (S (length remaining)) openTag closeTag (drop (start + length openTag) remaining) 1 with
          | None => (remaining, changed)
          | Some rest =>
              let '(out, changed) := stripLoop fuel openTag closeTag rest true in
              (take start remaining ++ out, changed)
          end
      end
  end.

Definition stripBalancedSpans (body openTag closeTag : bytes) : bytes * bool :=
  if negb (Contains body openTag) then (body, false) else
  let '(out, changed) := stripLoop (S (length body)) openTag closeTag body false in
  if changed then (out, true) else (body, false).

Definition stripPriorReorientInjectionSpans (body : bytes) : bytes * bool :=
  let '(withoutFramed, framedChanged) := RemoveTranscriptSpans body in
  let '(withoutTranscript, legacyChanged) := stripBalancedSpans withoutFramed PreCompactionTranscriptOpen PreCompactionTranscriptClose in
  let '(withoutInstructions, instructionsChanged) := stripBalancedSpans withoutTranscript CompactionInstructionsOpen CompactionInstructionsClose in
  (withoutInstructions, framedChanged || legacyChanged || instructionsChanged).

(** ** Summaries *)

Definition setContentText (text : bytes) (c : CompactedMessageContentItem) : CompactedMessageContentItem :=
  MkContentItem (ct_Type c) text (ct_ImageURL c) (ct_Detail c) [] (ct_TranscriptSpans c) (ct_UnresolvedTranscript c).

Definition setItemMessage (message : CompactedMessageItem) (item : CompactedContextItem) : CompactedContextItem :=
  MkItem (it_Kind item) (Some message) (it_Reasoning item) (it_LocalShellCall item) (it_FunctionCall item) (it_ToolSearchCall item)
    (it_FunctionCallOutput item) (it_CustomToolCall item) (it_CustomToolCallOutput item) (it_ToolSearchOutput item) (it_WebSearchCall item)
    (it_ImageGenerationCall item) (it_Compaction item) (it_CompactionTrigger item) (it_ContextCompaction item) (it_Other item).

(** Each list with whether one of its members changed. *)
Definition mapChanged {A} (f : A -> A * bool) (xs : list A) : list A * bool :=
  (map (fun x => (f x).1) xs, existsb (fun x => (f x).2) xs).

Definition stripContent (c : CompactedMessageContentItem) : CompactedMessageContentItem * bool :=
  let '(stripped, strippedContent) := stripPriorReorientInjectionSpans (ct_Text c) in
  if strippedContent then (setContentText stripped c, true) else (c, false).

Definition stripItem (item : CompactedContextItem) : CompactedContextItem * bool :=
  match it_Message item with
  | None => (item, false)
  | Some message =>
      let '(content, messageChanged) := mapChanged stripContent (mi_Content message) in
      if messageChanged then (setItemMessage (MkMessageItem (mi_Role message) (mi_Phase message) content [] (mi_MessageClass message) []) item, true)
      else (item, false)
  end.

Definition stripPriorReorientInjectionMetadata (metadata : CompactionMetadata) : CompactionMetadata * bool :=
  let '(items, changed) := mapChanged stripItem (cmd_ContextItems metadata) in
  if changed then (setMetadataItems items metadata, true) else (metadata, false).

Definition stripSummary (message : TranscriptMessage) : TranscriptMessage * bool :=
  match tm_Compaction message with
  | None => (message, false)
  | Some md =>
      if negb (isSummaryMetadata md) then (message, false) else
      let '(strippedText, textChanged) := stripPriorReorientInjectionSpans (tm_Text message) in
      let message := if textChanged then setText strippedText message else message in
      let '(metadata, metadataChanged) := stripPriorReorientInjectionMetadata md in
      let message := if metadataChanged then setCompaction (Some metadata) message else message in
      (message, textChanged || metadataChanged)
  end.

Definition stripPriorReorientInjections (messages : list TranscriptMessage) : list TranscriptMessage * bool :=
  let '(out, changed) := mapChanged stripSummary messages in
  if changed then (out, true) else (messages, false).

(** ** Runs of near-identical turns *)

Definition repeatedRunCollapseThreshold : nat := 3.

Definition blankClass : regexp := RClass (fun r => (r =? 32) || (r =? 9)).
Definition digitClass : regexp := RClass (inZ 48 57).
Definition fractionPart : regexp := ROpt (RSeq (RByte Byte.x2e) (RPlus digitClass)).
Definition colon : regexp := RByte Byte.x3a.

(** [[0-9]{4}-[0-9]{2}-[0-9]{2}[T ][0-9]{2}:[0-9]{2}:[0-9]{2}([.][0-9]+)?(Z|[+-][0-9]{2}:?[0-9]{2})?] *)
Definition repeatedRunTimestampRe : regexp :=
  seqOf [RTimes 4 digitClass; RByte Byte.x2d; RTimes 2 digitClass; RByte Byte.x2d; RTimes 2 digitClass;
         RClass (fun r => (r =? 84) || (r =? 32)); RTimes 2 digitClass; colon; RTimes 2 digitClass; colon; RTimes 2 digitClass; fractionPart]
    (ROpt (RAlt (RByte Byte.x5a)
             (seqOf [RClass (fun r => (r =? 43) || (r =? 45)); RTimes 2 digitClass; ROpt colon] (RTimes 2 digitClass)))).

(** [\b[0-9]{1,2}:[0-9]{2}:[0-9]{2}([.][0-9]+)?\b] *)
Definition repeatedRunClockRe : regexp :=
  seqOf [RWordBoundary; digitClass; ROpt digitClass; colon; RTimes 2 digitClass; colon; RTimes 2 digitClass; fractionPart] RWordBoundary.

(** [(ms|s|m|h)] without regard to case. *)
Definition unitName : regexp := RAlt (RWord RFold (lit "ms")) (RAlt (RFold Byte.x73) (RAlt (RFold Byte.x6d) (RFold Byte.x68))).

Definition amount : regexp := seqOf [RPlus digitClass; fractionPart] unitName.

(** [(?i)\bfor[ \t]+[0-9]+([.][0-9]+)?(ms|s|m|h)([0-9]+([.][0-9]+)?(ms|s|m|h))*\b] *)
Definition repeatedRunElapsedRe : regexp :=
  seqOf [RWordBoundary; RWord RFold (lit "for"); RPlus blankClass; amount; RStar amount] RWordBoundary.

(** [(?i)\b(attempt|count|retry|tick)[ \t]*(#|=|:)?[ \t]*[0-9]+\b]; the group is the first. *)
Definition repeatedRunCounterRe : regexp :=
  seqOf [RWordBoundary;
         RGroup (RAlt (RWord RFold (lit "attempt")) (RAlt (RWord RFold (lit "count")) (RAlt (RWord RFold (lit "retry")) (RWord RFold (lit "tick")))));
         RStar blankClass; ROpt (RAlt (RByte Byte.x23) (RAlt (RByte Byte.x3d) colon)); RStar blankClass; RPlus digitClass] RWordBoundary.

Definition repeatedRunWhitespaceRe : regexp := RPlus blankClass.

Section keys.
Context (toLowerRune : Z -> Z).

Definition normalizeRepeatedRunLine (line : bytes) : list bytes :=
  let trimmed := TrimSpace line in
  let lower := ToLower toLowerRune trimmed in
  if Contains lower (lit "monitor") && Contains lower (lit "tick") then [lit "[monitor tick]"] else
  let trimmed := ReplaceAllString repeatedRunTimestampRe trimmed (lit "<timestamp>") in
  let trimmed := ReplaceAllString repeatedRunClockRe trimmed (lit "<time>") in
  let trimmed := ReplaceAllString repeatedRunElapsedRe trimmed (lit "for <duration>") in
  let trimmed := ReplaceAllFunc repeatedRunCounterRe trimmed (fun m => groupText trimmed m ++ lit " <count>") in
  let trimmed := ReplaceAllString repeatedRunWhitespaceRe trimmed (lit " ") in
  if bool_decide (trimmed = []) then [] else [ToLower toLowerRune trimmed].

Definition normalizeRepeatedRunText (text : bytes) : bytes :=
  Join (concat (map normalizeRepeatedRunLine (Split (ReplaceAll text [Byte.x0d] []) newline))) newline.

Definition toolSignature (tool : ToolCall) : bytes :=
  tc_Name tool ++ [Byte.x01] ++ tc_Input tool ++ [Byte.x01] ++ (if tc_IsError tool then lit "err" else []) ++ [Byte.x02].

Definition repeatedRunToolSignature (message : TranscriptMessage) : bytes :=
  if negb (tm_HasTools message) && bool_decide (tm_Tools message = []) then [] else concat (map toolSignature (tm_Tools message)).

Definition repeatedRunKey (message : TranscriptMessage) : bytes :=
  match tm_Compaction message with
  | Some _ => []
  | None =>
      let text := TrimSpace (tm_Text message) in
      let toolSignature := repeatedRunToolSignature message in
      if bool_decide (text = []) && bool_decide (toolSignature = []) then []
      else tm_Role message ++ [Byte.x00] ++ normalizeRepeatedRunText text ++ [Byte.x00] ++ toolSignature
  end.

(** How many of the messages follow with the same key. *)
Fixpoint runEnd (key : bytes) (messages : list TranscriptMessage) : nat :=
  match messages with
  | [] => 0
  | message :: messages => if bool_decide (repeatedRunKey message = key) then S (runEnd key messages) else 0
  end.

Definition collapsedTurn (message : TranscriptMessage) (runLength : nat) : TranscriptMessage :=
  let text := TrimRight (tm_Text message) newline in
  let text := if bool_decide (text = []) then text else text ++ newline in
  setText (text ++ lit "[collapsed " ++ Itoa (Z.of_nat runLength - 1) ++ lit " near-identical turns]") message.

Fixpoint collapseLoop (fuel : nat) (messages : list TranscriptMessage) : list TranscriptMessage :=
  match fuel, messages with
  | _, [] => []
  | O, _ :: _ => []
  | S fuel, message :: rest =>
      let key := repeatedRunKey message in
      if bool_decide (key = []) then message :: collapseLoop fuel rest else
      let n := runEnd key rest in
      let runLength := S n in
      if (runLength <? repeatedRunCollapseThreshold)%nat then message :: take n rest ++ collapseLoop fuel (drop n rest)
      else collapsedTurn message runLength :: collapseLoop fuel (drop n rest)
  end.

Definition collapseRepeatedRuns (messages : list TranscriptMessage) : list TranscriptMessage := collapseLoop (length messages) messages.
End keys.

(** ** What an injection leaves *)

Section balanced.
(** The tags, which start with the same byte and differ before either ends. *)
Context (b : Byte.byte) (u v : bytes).
Abbreviation openTag := (b :: u).
Abbreviation closeTag := (b :: v).
Context (Hu : b ∉ u) (Hv : b ∉ v).
Context (Hopen : forall rest, HasPrefix (openTag ++ rest) closeTag = false).

Definition tagless (t : bytes) : Prop := Contains t openTag = false /\ Contains t closeTag = false.

(** A text in which every open tag has its close tag. *)
Inductive balancedText : bytes -> Prop :=
| plainText t : tagless t -> balancedText t
| spanText t inner rest : tagless t -> balancedText inner -> balancedText rest -> balancedText (t ++ openTag ++ inner ++ closeTag ++ rest).

Lemma clearOf_open X : clearOf u (openTag ++ X).
Proof. exact Hu. Qed.

Lemma clearOf_close X : clearOf v (closeTag ++ X).
Proof. exact Hv. Qed.

Lemma clearOf_cross X : clearOf v (openTag ++ X) /\ clearOf u (closeTag ++ X).
Proof. by split. Qed.

Lemma Index_behind s X tag : Index (s ++ tag ++ X) tag <> None.
Proof.
  assert (Contains (s ++ tag ++ X) tag = true) as H by (apply Contains_spec; eauto). unfold Contains in H. by destruct (Index _ _).
Qed.

Lemma Index_later s tag n : Index s tag = Some n -> HasPrefix s tag = false -> (0 < n)%nat.
Proof. intros (H & _)%Index_Some Hp. destruct n; [by rewrite drop_0, Hp in H|lia]. Qed.

(** Text without tags is passed over. *)
Lemma balancedEnd_plain fuel t X d : tagless t -> clearOf u X -> clearOf v X ->
  balancedEnd fuel openTag closeTag (t ++ X) (S d) = balancedEnd fuel openTag closeTag X (S d).
Proof.
  intros [Ho Hc] HXu HXv. destruct fuel as [|fuel]; [done|]. cbn [balancedEnd]. rewrite (Index_clear _ _ _ _ Hc HXv), (Index_clear _ _ _ _ Ho HXu).
  destruct (Index X closeTag) as [nc|]; [|done]. cbn [fmap option_fmap option_map].
  assert (forall n k, drop (length t + n + k) (t ++ X) = drop (n + k) X) as Hd.
  { intros n k. rewrite drop_app_ge by lia. f_equal. lia. }
  destruct (Index X openTag) as [no|]; cbn [fmap option_fmap option_map]; [|by rewrite Hd].
  rewrite !Hd. replace (length t + no <? length t + nc)%nat with (no <? nc)%nat; [done|]. destruct (Nat.ltb_spec no nc); symmetry; [apply Nat.ltb_lt|apply Nat.ltb_ge]; lia.
Qed.

Lemma balancedEnd_open fuel X d : Index (openTag ++ X) closeTag <> None ->
  balancedEnd (S fuel) openTag closeTag (openTag ++ X) (S d) = balancedEnd fuel openTag closeTag X (S (S d)).
Proof.
  intros Hne. cbn [balancedEnd]. rewrite Index_here. destruct (Index (openTag ++ X) closeTag) as [n|] eqn:E; [|done].
  apply Index_later in E; [|apply Hopen]. rewrite (proj2 (Nat.ltb_lt 0 n) E). by rewrite Nat.add_0_l, drop_app_length.
Qed.

Lemma balancedEnd_close fuel X d : balancedEnd (S fuel) openTag closeTag (closeTag ++ X) (S d) = balancedEnd fuel openTag closeTag X d.
Proof.
  cbn [balancedEnd]. rewrite Index_here. rewrite Nat.add_0_l, drop_app_length. by destruct (Index (closeTag ++ X) openTag).
Qed.

Lemma balancedEnd_balanced t : balancedText t -> forall X d, clearOf u X -> clearOf v X ->
  exists k, (k <= length t)%nat /\ forall fuel, balancedEnd (k + fuel) openTag closeTag (t ++ X) (S d) = balancedEnd fuel openTag closeTag X (S d).
Proof.
  induction 1 as [t Ht|t inner rest Ht Hinner IH1 Hrest IH2]; intros X d HXu HXv.
  - exists 0%nat. split; [lia|]. intros fuel. by apply balancedEnd_plain.
  - destruct (IH1 (closeTag ++ rest ++ X) (S d)) as (k1 & Hk1 & E1); [exact (proj2 (clearOf_cross _))|exact Hv|].
    destruct (IH2 X d HXu HXv) as (k2 & Hk2 & E2). exists (S (k1 + S k2)). split; [rewrite !length_app; cbn [length]; lia|]. intros fuel.
    rewrite <- !app_assoc. rewrite balancedEnd_plain; [|done|apply clearOf_open|exact (proj1 (clearOf_cross _))].
    change (S (k1 + S k2) + fuel)%nat with (S (k1 + S k2 + fuel)). rewrite balancedEnd_open by (rewrite (app_assoc openTag); apply Index_behind).
    replace (k1 + S k2 + fuel)%nat with (k1 + S (k2 + fuel))%nat by lia. by rewrite E1, balancedEnd_close, E2.
Qed.

(** A span in text without open tags is cut out. *)
Lemma strip_span pre inner post : Contains pre openTag = false -> Contains post openTag = false -> balancedText inner ->
  stripBalancedSpans (pre ++ openTag ++ inner ++ closeTag ++ post) openTag closeTag = (pre ++ post, true).
Proof.
  intros Hpre Hpost Hinner. set (body := pre ++ openTag ++ inner ++ closeTag ++ post). unfold stripBalancedSpans.
  assert (Index body openTag = Some (length pre)) as Ei.
  { unfold body. rewrite (Index_clear _ _ _ _ Hpre (clearOf_open _)), Index_here. cbn. by rewrite Nat.add_0_r. }
  unfold Contains. rewrite Ei. cbn [negb stripLoop]. rewrite Ei.
  assert (drop (length pre + length openTag) body = inner ++ closeTag ++ post) as ->.
  { unfold body. rewrite (app_assoc pre), <- length_app. apply drop_app_length. }
  destruct (balancedEnd_balanced inner Hinner (closeTag ++ post) 0 (proj2 (clearOf_cross post)) (clearOf_close post)) as (k & Hk & E).
  assert (exists f, S (length body) = (k + S f)%nat) as [f ->].
  { exists (length body - k)%nat. unfold body. rewrite !length_app. lia. }
  rewrite E, balancedEnd_close. assert (balancedEnd f openTag closeTag post 0 = Some post) as -> by (by destruct f).
  assert (0 < length body)%nat by (unfold body; rewrite !length_app; cbn [length]; lia).
  destruct (length body) as [|n]; [lia|]. cbn [stripLoop]. unfold Contains in Hpost. destruct (Index post openTag); [done|].
  unfold body. by rewrite take_app_length.
Qed.

Lemma strip_none body : Contains body openTag = false -> stripBalancedSpans body openTag closeTag = (body, false).
Proof. intros H. unfold stripBalancedSpans. by rewrite H. Qed.
End balanced.

(** ** Lines *)

Lemma Contains_newline s t b w : Byte.x0a ∉ b :: w -> Contains s (b :: w) = false -> Contains t (b :: w) = false -> Contains (s ++ newline ++ t) (b :: w) = false.
Proof.
  intros Hn Hs Ht. apply not_elem_of_cons in Hn as [Hb Hn]. rewrite Contains_clear; [|done|exact Hn].
  unfold Contains in *. cbn [newline app Index HasPrefix]. rewrite bool_decide_eq_false_2 by done. cbn [andb]. by destruct (Index t (b :: w)).
Qed.

Lemma tagless_before b u v t : Byte.x0a ∉ b :: u -> Byte.x0a ∉ b :: v -> tagless b u v t -> tagless b u v (newline ++ t).
Proof. intros Hu Hv [H1 H2]. split; by apply (Contains_newline [] t). Qed.

Lemma tagless_after b u v t : Byte.x0a ∉ b :: u -> Byte.x0a ∉ b :: v -> tagless b u v t -> tagless b u v (t ++ newline).
Proof. intros Hu Hv [H1 H2]. split; rewrite <- (app_nil_r newline); by apply Contains_newline. Qed.

(** Balanced text on lines of its own. *)
Lemma balanced_lines b u v t : Byte.x0a ∉ b :: u -> Byte.x0a ∉ b :: v -> balancedText b u v t -> balancedText b u v (newline ++ t ++ newline).
Proof.
  intros Hu Hv Ht. assert (balancedText b u v (t ++ newline)) as H.
  { induction Ht as [t Ht|t inner rest Ht Hin _ Hrest IH]; [by constructor; apply tagless_after|]. rewrite <- !app_assoc. by constructor. }
  destruct H as [t' Ht'|t' inner rest Ht' Hin Hrest]; [by constructor; apply tagless_before|].
  rewrite app_assoc. constructor; [by apply tagless_before|done|done].
Qed.

(** ** Injections *)

Definition transcriptOpenRest : bytes := lit "pre-compaction-transcript>".
Definition instructionsOpenRest : bytes := lit "compaction-instructions>".
Definition instructionsCloseRest : bytes := lit "/compaction-instructions>".

(** The instructions hold instruction tags in pairs only. *)
Definition balancedInstructions : bytes -> Prop := balancedText Byte.x3c instructionsOpenRest instructionsCloseRest.

(** A text without the open tags of an injection. *)
Definition noInjection (t : bytes) : Prop := Contains t PreCompactionTranscriptOpen = false /\ Contains t CompactionInstructionsOpen = false.

Lemma noInjection_newline s t : noInjection s -> noInjection t -> noInjection (s ++ newline ++ t).
Proof.
  intros [H1 H2] [H3 H4]. split.
  - apply (Contains_newline s t Byte.x3c transcriptOpenRest); [by apply (bool_decide_unpack _); vm_compute|done|done].
  - apply (Contains_newline s t Byte.x3c instructionsOpenRest); [by apply (bool_decide_unpack _); vm_compute|done|done].
Qed.

Lemma noInjection_nil : noInjection [].
Proof. by split. Qed.

Lemma spanHeader_open s : HasPrefix s spanHeader = true -> HasPrefix s PreCompactionTranscriptOpen = true.
Proof. intros [rest ->]%HasPrefix_spec. unfold spanHeader. rewrite <- app_assoc. apply HasPrefix_app. Qed.

Lemma Parse_none t : Contains t PreCompactionTranscriptOpen = false -> ParseTranscriptSpans t = [].
Proof.
  intros H. unfold ParseTranscriptSpans. cbn [spansLoop]. destruct (negb _); [done|]. rewrite drop_0. destruct (Index t spanHeader) as [n|] eqn:E; [|done].
  exfalso. apply Index_Some in E as (E & _). apply spanHeader_open in E. apply HasPrefix_spec in E as [rest E].
  assert (Contains t PreCompactionTranscriptOpen = true); [|congruence]. apply Contains_spec. exists (take n t), rest. by rewrite <- E, take_drop.
Qed.

(** The framed transcript is found where the text before it ends. *)
Lemma framed_at isPrint pre segs post k : segs <> [] -> Contains pre PreCompactionTranscriptOpen = false -> (k < length pre)%nat ->
  HasPrefix (drop k (pre ++ FramedTranscript isPrint segs ++ post)) spanHeader = false.
Proof.
  intros Hne Hpre Hk. destruct (HasPrefix _ spanHeader) eqn:E; [|done]. exfalso. apply spanHeader_open in E.
  set (text := pre ++ FramedTranscript isPrint segs ++ post) in *. assert (Index text PreCompactionTranscriptOpen = Some (length pre)) as Hi.
  { unfold text, FramedTranscript. destruct segs as [|s segs]; [done|]. change (length (s :: segs) =? 0)%nat with false. cbn match. rewrite <- !app_assoc.
    etransitivity; [apply (Index_clear pre Byte.x3c transcriptOpenRest); [done|by apply (bool_decide_unpack _); vm_compute]|].
    change (Byte.x3c :: transcriptOpenRest) with PreCompactionTranscriptOpen. rewrite Index_here. cbn. by rewrite Nat.add_0_r. }
  apply Index_Some in Hi as (_ & _ & Hno). by rewrite (Hno k Hk) in E.
Qed.

Lemma Remove_framed isPrint pre segs post : segs <> [] -> Forall goodSegment segs -> Contains pre PreCompactionTranscriptOpen = false ->
  Contains post PreCompactionTranscriptOpen = false -> RemoveTranscriptSpans (pre ++ FramedTranscript isPrint segs ++ post) = (pre ++ post, true).
Proof.
  intros Hne Hgood Hpre Hpost. pose proof (parse_framed isPrint pre segs post Hne Hgood) as H. cbn zeta in H.
  unfold RemoveTranscriptSpans. rewrite H by (intros k; by apply framed_at). rewrite (Parse_none post Hpost). cbn [length Nat.eqb map]. f_equal.
  unfold textOutsideSpans. cbn [outsideLoop span_Start span_End]. rewrite drop_0, Nat.sub_0_r, take_app_length. f_equal. rewrite app_assoc. apply drop_app_length.
Qed.

(** What follows the transcript in an injection. *)
Definition instructionsBlock (instructions : bytes) : bytes :=
  if decide (instructions = []) then [] else
  newline ++ CompactionInstructionsOpen ++ newline ++ instructions ++ newline ++ CompactionInstructionsClose ++ newline.

Lemma WrapInjection_framed isPrint segs instructions : segs <> [] ->
  WrapInjection (EncodeTranscript isPrint segs) instructions = (newline ++ newline) ++ FramedTranscript isPrint segs ++ newline ++ instructionsBlock instructions.
Proof.
  intros Hne. unfold WrapInjection, FramedTranscript, instructionsBlock. destruct segs as [|s segs]; [done|]. change (length (s :: segs) =? 0)%nat with false.
  cbn match. by rewrite <- !app_assoc.
Qed.

Lemma block_noTranscript instructions post : Contains instructions PreCompactionTranscriptOpen = false -> noInjection post ->
  Contains (newline ++ instructionsBlock instructions ++ post) PreCompactionTranscriptOpen = false.
Proof.
  intros Hi [Hp _]. assert (forall s t, Contains s PreCompactionTranscriptOpen = false -> Contains t PreCompactionTranscriptOpen = false ->
    Contains (s ++ newline ++ t) PreCompactionTranscriptOpen = false) as Hn.
  { intros s t. apply (Contains_newline s t Byte.x3c transcriptOpenRest). by apply (bool_decide_unpack _); vm_compute. }
  unfold instructionsBlock. case_decide; [by apply (Hn [])|]. rewrite <- !app_assoc. apply (Hn []); [done|]. apply (Hn []); [done|].
  apply Hn; [done|]. apply Hn; [done|]. by apply Hn.
Qed.

Lemma strip_noTranscript t : Contains t PreCompactionTranscriptOpen = false ->
  stripBalancedSpans t PreCompactionTranscriptOpen PreCompactionTranscriptClose = (t, false).
Proof. apply (strip_none Byte.x3c transcriptOpenRest (lit "/pre-compaction-transcript>")). Qed.

Lemma strip_noInstructions t : Contains t CompactionInstructionsOpen = false ->
  stripBalancedSpans t CompactionInstructionsOpen CompactionInstructionsClose = (t, false).
Proof. apply (strip_none Byte.x3c instructionsOpenRest instructionsCloseRest). Qed.

Lemma strip_instructions pre instructions post : Contains pre CompactionInstructionsOpen = false -> Contains post CompactionInstructionsOpen = false ->
  balancedInstructions instructions ->
  stripBalancedSpans (pre ++ CompactionInstructionsOpen ++ (newline ++ instructions ++ newline) ++ CompactionInstructionsClose ++ post)
    CompactionInstructionsOpen CompactionInstructionsClose = (pre ++ post, true).
Proof.
  intros Hpre Hpost H. apply (strip_span Byte.x3c instructionsOpenRest instructionsCloseRest);
    [by apply (bool_decide_unpack _); vm_compute|by apply (bool_decide_unpack _); vm_compute|done|done|done|].
  apply balanced_lines; [by apply (bool_decide_unpack _); vm_compute|by apply (bool_decide_unpack _); vm_compute|done].
Qed.

Lemma Contains_line s t : Contains s PreCompactionTranscriptOpen = false -> Contains (newline ++ t) PreCompactionTranscriptOpen = false ->
  Contains (s ++ newline ++ t) PreCompactionTranscriptOpen = false.
Proof.
  intros Hs Ht. change PreCompactionTranscriptOpen with (Byte.x3c :: transcriptOpenRest). rewrite Contains_clear; [done|done|].
  by apply (bool_decide_unpack _); vm_compute.
Qed.

(** The last of the three removals. *)
Lemma strip_block pre instructions post : noInjection pre -> noInjection post -> balancedInstructions instructions ->
  (stripBalancedSpans (pre ++ newline ++ instructionsBlock instructions ++ post) CompactionInstructionsOpen CompactionInstructionsClose).1 =
  pre ++ newline ++ (if decide (instructions = []) then [] else newline ++ newline) ++ post.
Proof.
  intros Hpre Hpost H. unfold instructionsBlock. case_decide as E.
  - by rewrite strip_noInstructions by (by apply noInjection_newline).
  - assert (noInjection (pre ++ newline ++ newline)) as Hp by (apply noInjection_newline; [done|apply (noInjection_newline []); apply noInjection_nil]).
    assert (noInjection (newline ++ post)) as Hq by (by apply (noInjection_newline []); [apply noInjection_nil|]).
    pose proof (strip_instructions (pre ++ newline ++ newline) instructions (newline ++ post) (proj2 Hp) (proj2 Hq) H) as E2.
    rewrite <- !app_assoc in *. by rewrite E2.
Qed.

(** C26. An injection into a summary is removed again: the transcript whatever the texts of its
    segments hold (tags, footers, other transcripts), and the instructions when their own tags
    are balanced.  Only the blank lines around it stay. *)
Theorem injection_stripped isPrint pre segs instructions post :
  segs <> [] -> Forall goodSegment segs -> noInjection pre -> noInjection post ->
  Contains instructions PreCompactionTranscriptOpen = false -> balancedInstructions instructions ->
  stripPriorReorientInjectionSpans (pre ++ WrapInjection (EncodeTranscript isPrint segs) instructions ++ post) =
  (pre ++ newline ++ newline ++ newline ++ (if decide (instructions = []) then [] else newline ++ newline) ++ post, true).
Proof.
  intros Hne Hgood Hpre Hpost Hi Hbal. rewrite WrapInjection_framed by done.
  set (pre' := pre ++ newline ++ newline). set (post' := newline ++ instructionsBlock instructions ++ post).
  assert (pre ++ ((newline ++ newline) ++ FramedTranscript isPrint segs ++ newline ++ instructionsBlock instructions) ++ post =
          pre' ++ FramedTranscript isPrint segs ++ post') as -> by (unfold pre', post'; by rewrite <- !app_assoc).
  assert (noInjection pre') as Hpre' by (apply noInjection_newline; [done|by apply (noInjection_newline []); apply noInjection_nil]).
  pose proof (block_noTranscript instructions post Hi Hpost) as Hpost'.
  unfold stripPriorReorientInjectionSpans. rewrite Remove_framed by (done || apply Hpre').
  rewrite strip_noTranscript by (apply Contains_line; [apply Hpre'|done]).
  pose proof (strip_block pre' instructions post Hpre' Hpost Hbal) as E. fold post' in E. destruct (stripBalancedSpans (pre' ++ post') _ _) as [out changed].
  cbn in E. rewrite E. unfold pre'. by rewrite <- !app_assoc.
Qed.

(** ** Samples *)

Definition asciiLower : Z -> Z := fun r => if inZ 65 90 r then r + 32 else r.

Example normalize_sample :
  normalizeRepeatedRunText asciiLower (lit "At 2024-05-06T07:08:09.5Z  Retry #12 after 1:02:03 for 3m20s" ++ newline ++ lit "Monitor: TICK" ++ newline ++ lit " counter 5 ") =
  lit "at <timestamp> retry <count> after <time> for <duration>" ++ newline ++ lit "[monitor tick]" ++ newline ++ lit "counter 5".
Proof. vm_compute. reflexivity. Qed.

Example strip_sample :
  stripPriorReorientInjectionSpans (lit "a<pre-compaction-transcript>x<pre-compaction-transcript>y</pre-compaction-transcript>z</pre-compaction-transcript>b<compaction-instructions>i</compaction-instructions>c<compaction-instructions>d") =
  (lit "abc<compaction-instructions>d", true).
Proof. vm_compute. reflexivity. Qed.

(** ** Witnesses *)

Lemma injection_stripped_witness :
  stripPriorReorientInjectionSpans (lit "summary" ++ WrapInjection (EncodeTranscript (fun _ => false) RtSegments.sampleSegments) (lit "keep <going>") ++ lit "end") =
  (lit "summary" ++ newline ++ newline ++ newline ++ newline ++ newline ++ lit "end", true).
Proof.
  apply (injection_stripped (fun _ => false) (lit "summary") RtSegments.sampleSegments (lit "keep <going>") (lit "end")).
  - discriminate.
  - repeat constructor; vm_compute; (reflexivity || discriminate).
  - by split.
  - by split.
  - vm_compute. reflexivity.
  - apply plainText. by split.
Defined.
