(* ===== verification/RePage.v ===== *)
(** * RePage: recovering a transcript page by page (conversation/reorient.go, reorient_render.go)

    The snapshot of a conversation before its latest compaction, cut to its newest lines and
    bytes, and its pages: a page ends at a line where one fits, a cursor names the compaction
    point and the offset of the next page. *)

From S2P Require Import Prelude GoUtf8 GoStrconv GoText GoJson GoSha256 GoBase64 GoJsonText RtSegments CvKinds CvRecord CvList CvRequest CvCompaction TrMessage TrShape ExFilter ExExport ReClean.

Open Scope Z_scope.

Definition DefaultReorientMaxLines : Z := 3500.
Definition DefaultReorientPageBytes : Z := 30000.

Record ReorientConversationRef := MkRef {
  rf_ID : bytes;
  rf_Provider : bytes;
  rf_Title : bytes;
  rf_WorkspaceRoot : bytes;
}.

Record ReorientPageResult := MkPage {
  pg_CurrentConversation : ReorientConversationRef;
  pg_Body : bytes;
  pg_NextCursor : bytes;
  pg_Remaining : Z;
  pg_Offset : Z;
  pg_TotalBytes : Z;
  pg_TotalLines : Z;
  pg_Truncated : bool;
  pg_Restart : bool;
  pg_Warnings : list bytes;
}.

Record ReorientOptions := MkReorientOptions {
  ro_ConversationID : bytes;
  ro_WorkspaceRoot : bytes;
  ro_MaxLines : Z;
  ro_MaxBytes : Z;
  ro_IncludeToolOutputs : bool;
  ro_SyntheticPreCompact : bool;
}.

Record reorientSnapshot := MkSnapshot {
  sn_Current : ReorientConversationRef;
  sn_Body : bytes;
  sn_Fingerprint : bytes;
  sn_TotalLines : Z;
  sn_Truncated : bool;
  sn_Warnings : list bytes;
}.

Inductive reorientError :=
| errReorientResolve (e : resolveError)
| errReorientSelector
| errReorientList
| errReorientNone (workspaceRoot : bytes)
| errReorientLoad
| errReorientExport (e : exportError)
| errReorientArtifact
| errCursorDecode
| errCursorNegative.

Definition normalizeReorientOptions (options : ReorientOptions) : ReorientOptions :=
  MkReorientOptions (TrimSpace (ro_ConversationID options)) (cleanWorkspaceFilter (ro_WorkspaceRoot options))
    (if ro_MaxLines options <=? 0 then DefaultReorientMaxLines else ro_MaxLines options) (ro_MaxBytes options)
    (ro_IncludeToolOutputs options) (ro_SyntheticPreCompact options).

(** ** Cutting *)

Fixpoint dropToRune (s : bytes) : bytes :=
  match s with
  | [] => []
  | b :: rest => if RuneStart b then s else dropToRune rest
  end.

Definition capToLastBytes (body : bytes) (maxBytes : Z) : bytes * bool :=
  if (maxBytes <=? 0) || (zlen body <=? maxBytes) then (body, false) else
  let start := Z.to_nat (zlen body - maxBytes) in
  match Index (drop start body) newline with
  | Some boundary =>
      if (start + boundary + 1 <? length body)%nat then (drop (start + boundary + 1) body, true) else (dropToRune (drop start body), true)
  | None => (dropToRune (drop start body), true)
  end.

(** The loop from [offset + n] back to the start of a rune; the byte is in range there. *)
Fixpoint backToRune (body : bytes) (offset n : nat) : nat :=
  match n with
  | O => offset
  | S n' => match body !! (offset + n)%nat with
            | Some b => if RuneStart b then (offset + n)%nat else backToRune body offset n'
            | None => (offset + n)%nat
            end
  end.

Definition sliceReorientBody (body : bytes) (offset pageBytes : Z) : outcome reorientError (bytes * Z) :=
  let offset := if offset <? 0 then 0 else offset in
  if zlen body <=? offset then Ok ([], zlen body) else
  let pageBytes := if pageBytes <? 1 then 1 else pageBytes in
  let stop := i64 (offset + pageBytes) in
  if zlen body <=? stop then Ok (drop (Z.to_nat offset) body, zlen body) else
  if stop <? offset then Panic else
  match LastIndexByte (slice body offset stop) lineFeed with
  | Some boundary => let stop := offset + Z.of_nat boundary + 1 in Ok (slice body offset stop, stop)
  | None =>
      let stop := Z.of_nat (backToRune body (Z.to_nat offset) (Z.to_nat (stop - offset))) in
      let stop := if stop =? offset then offset + Z.of_nat (DecodeRune (drop (Z.to_nat offset) body)).2 else stop in
      Ok (slice body offset stop, stop)
  end.

(** ** Cursors *)

Record reorientCursor := MkCursor {
  cu_Fingerprint : bytes;
  cu_Offset : Z;
}.

Definition jsonColon : bytes := lit ":".

(** The JSON of a cursor; the fields are named [f] and [o]. *)
Definition marshalCursor (cursor : reorientCursor) : bytes :=
  lit "{" ++ jsonString (lit "f") ++ jsonColon ++ jsonString (cu_Fingerprint cursor) ++ lit "," ++ jsonString (lit "o") ++ jsonColon
  ++ Itoa (cu_Offset cursor) ++ lit "}".

Definition encodeReorientCursor (cursor : reorientCursor) : bytes := EncodeToString (marshalCursor cursor).

(** One member of the object: the names match without regard to case, null changes nothing,
    and a value of another type is an error. *)
Definition cursorMember (cursor : option reorientCursor) (member : bytes * json) : option reorientCursor :=
  cursor ← cursor;
  let name := fieldName member.1 in
  if bool_decide (name ∈ [lit "f"; lit "F"]) then
    match member.2 with
    | JString raw => s ← decodeString raw; Some (MkCursor s (cu_Offset cursor))
    | JLiteral raw => if bool_decide (raw = lit "null") then Some cursor else None
    | _ => None
    end
  else if bool_decide (name ∈ [lit "o"; lit "O"]) then
    match member.2 with
    | JNumber raw => n ← Atoi raw; Some (MkCursor (cu_Fingerprint cursor) n)
    | JLiteral raw => if bool_decide (raw = lit "null") then Some cursor else None
    | _ => None
    end
  else Some cursor.

Definition unmarshalCursor (payload : bytes) : option reorientCursor :=
  match parseDoc maxNestingDepth payload with
  | Some (JObject _ members) => foldl cursorMember (Some (MkCursor [] 0)) members
  | Some (JLiteral raw) => if bool_decide (raw = lit "null") then Some (MkCursor [] 0) else None
  | _ => None
  end.

Definition decodeReorientCursor (cursor : bytes) : outcome reorientError reorientCursor :=
  let cursor := TrimSpace cursor in
  if bool_decide (cursor = []) then Ok (MkCursor [] 0) else
  match DecodeString cursor with
  | None => Fail errCursorDecode
  | Some payload =>
      match unmarshalCursor payload with
      | None => Fail errCursorDecode
      | Some decoded => if cu_Offset decoded <? 0 then Fail errCursorNegative else Ok decoded
      end
  end.

(** ** The snapshot *)

Definition conversationRef (record : ConvRecord) : ReorientConversationRef :=
  MkRef (rc_ID record) (providerString (rc_Provider record)) (rc_Title record) (rc_WorkspaceRoot record).

Definition reorientSelector (messages : list TranscriptMessage) (syntheticPreCompact : bool) : outcome reorientError bytes :=
  if syntheticPreCompact then Ok (lit "all") else
  match CompactionSegments (map entryOf messages) with
  | Ok segments =>
      let maxIndex := maxCompactionSegmentIndex segments in
      if maxIndex <? 1 then Ok defaultCompactionSelector else Ok (lit "1.." ++ Itoa maxIndex)
  | Fail _ | Panic => Panic
  end.

Definition reorientFingerprint (messages : list TranscriptMessage) : bytes :=
  match last (CompactionCheckpoints (map entryOf messages)) with
  | None => []
  | Some latest => if bool_decide (cp_SummaryUUID latest = []) then cp_BoundaryUUID latest else cp_SummaryUUID latest
  end.

Definition reorientContent (options : ReorientOptions) : ContentKindSet :=
  if ro_IncludeToolOutputs options then NewContentKindSet [ContentKindChat; ContentKindToolOutputs]
  else NewContentKindSet [ContentKindChat; ContentKindToolCalls].

Definition reorientExportOptions (options : ReorientOptions) (selector : bytes) : ExportOptions :=
  MkExportOptions ExportFormatMarkdown 0 0 0 [] [] WhitespaceDense (reorientContent options) (MkCompactionExportOptions selector false).

(** The second component is [ResolveInjectedTranscripts]. *)
Definition reorientLoadOptions (options : ReorientOptions) : LoadOptions * bool :=
  (MkLoadOptions false true (Has (reorientContent options) ContentKindToolOutputs) false, false).

Definition truncatedLines (maxLines : Z) : bytes := lit "recovered transcript truncated to the last " ++ Itoa maxLines ++ lit " lines; older detail was dropped".
Definition truncatedBytes (maxBytes : Z) : bytes := lit "recovered transcript truncated to the last " ++ Itoa maxBytes ++ lit " bytes; older detail was dropped".
Definition noCompactionYet : bytes := lit "conversation has no compaction point yet; recovering the current conversation".
Definition compactedAgain : bytes := lit "conversation was compacted again since the cursor was issued; restarting reorient from the first page".

Section reorient.
Context (isPrint : Z -> bool) (toLowerRune : Z -> Z) `{TurnCodecs} `{ExportCodecs}.
(** [LoadMessagesWithOptions]. *)
Context (load : ConvRecord -> LoadOptions * bool -> option (list TranscriptMessage)).

Definition liftExport {A} (m : outcome exportError A) : outcome reorientError A :=
  match m with
  | Ok a => Ok a
  | Fail e => Fail (errReorientExport e)
  | Panic => Panic
  end.

(** What of the snapshot comes from the rendered body. *)
Definition snapshotOf (current : ConvRecord) (options : ReorientOptions) (fingerprint : bytes) (bodyText : bytes) : reorientSnapshot :=
  let '(capped, totalLines, truncated) := capToLastLines bodyText (ro_MaxLines options) in
  let warnings := if truncated then [truncatedLines (ro_MaxLines options)] else [] in
  let '(capped, warnings) :=
    if 0 <? ro_MaxBytes options then
      let '(byteCapped, byteTruncated) := capToLastBytes capped (ro_MaxBytes options) in
      (byteCapped, if byteTruncated then warnings ++ [truncatedBytes (ro_MaxBytes options)] else warnings)
    else (capped, warnings) in
  let warnings := if bool_decide (fingerprint = []) then warnings ++ [noCompactionYet] else warnings in
  MkSnapshot (conversationRef current) capped fingerprint totalLines truncated warnings.

(** [renderReorientSnapshot] on the loaded messages. *)
Definition snapshotFrom (current : ConvRecord) (options : ReorientOptions) (messages : list TranscriptMessage) : outcome reorientError reorientSnapshot :=
  let '(messages, strippedPriorInjection) := stripPriorReorientInjections messages in
  let messages := collapseRepeatedRuns toLowerRune messages in
  selector ← reorientSelector messages (ro_SyntheticPreCompact options);
  let fingerprint := reorientFingerprint messages in
  body ← liftExport (exportMessages isPrint current messages (reorientExportOptions options selector));
  let bodyText := if strippedPriorInjection then (stripPriorReorientInjectionSpans body).1 else body in
  Ok (snapshotOf current options fingerprint bodyText).

Definition renderReorientSnapshot (current : ConvRecord) (options : ReorientOptions) : outcome reorientError reorientSnapshot :=
  match load current (reorientLoadOptions options) with
  | None => Fail errReorientLoad
  | Some messages => snapshotFrom current options messages
  end.

(** [env] is what [Resolve] sees, and [listed] what [List] returns to [ListPage]. *)
Definition resolveReorientCurrent (env : lookupEnv) (listed : option (list ConvRecord)) (options : ReorientOptions) : outcome reorientError ConvRecord :=
  if negb (bool_decide (ro_ConversationID options = [])) then
    match Resolve toLowerRune env (ro_ConversationID options) with
    | Ok record => Ok record
    | Fail e => Fail (errReorientResolve e)
    | Panic => Panic
    end
  else if bool_decide (ro_WorkspaceRoot options = []) then Fail errReorientSelector else
  match listed with
  | None => Fail errReorientList
  | Some records =>
      match lr_Records (FilterRecords toLowerRune records (MkListOptions 1 0 ProviderUnspecified (ro_WorkspaceRoot options) [] false false)) with
      | [] => Fail (errReorientNone (ro_WorkspaceRoot options))
      | record :: _ => Ok record
      end
  end.

Definition buildReorientSnapshot (env : lookupEnv) (listed : option (list ConvRecord)) (options : ReorientOptions) : outcome reorientError reorientSnapshot :=
  current ← resolveReorientCurrent env listed options;
  renderReorientSnapshot current options.

(** A page of a snapshot. *)
Definition pageOf (snapshot : reorientSnapshot) (cursor : bytes) (pageBytes : Z) : outcome reorientError ReorientPageResult :=
  let pageBytes := if pageBytes <=? 0 then DefaultReorientPageBytes else pageBytes in
  decoded ← decodeReorientCursor cursor;
  let restart := negb (bool_decide (cu_Fingerprint decoded = [])) && negb (bool_decide (cu_Fingerprint decoded = sn_Fingerprint snapshot)) in
  let offset := if restart then 0 else cu_Offset decoded in
  let warnings := if restart then sn_Warnings snapshot ++ [compactedAgain] else sn_Warnings snapshot in
  let total := zlen (sn_Body snapshot) in
  let offset := if total <? offset then total else offset in
  '(pageText, nextOffset) ← sliceReorientBody (sn_Body snapshot) offset pageBytes;
  let nextCursor := if nextOffset <? total then encodeReorientCursor (MkCursor (sn_Fingerprint snapshot) nextOffset) else [] in
  Ok (MkPage (sn_Current snapshot) pageText nextCursor (total - nextOffset) offset total (sn_TotalLines snapshot) (sn_Truncated snapshot) restart warnings).

Definition ReorientPage (env : lookupEnv) (listed : option (list ConvRecord)) (options : ReorientOptions) (cursor : bytes) (pageBytes : Z)
  : outcome reorientError ReorientPageResult :=
  let options := normalizeReorientOptions options in
  snapshot ← buildReorientSnapshot env listed options;
  pageOf snapshot cursor pageBytes.

(** ** Records from a path *)

(** [scan] is [ScanRecord] of the parser that is registered for a provider ([None] without
    one), [providers] the registered providers in order. *)
Definition resolveArtifactRecord (isFile : bool) (scan : Provider -> option (option ConvRecord)) (providers : list Provider) (preferred : Provider)
  : outcome reorientError (option ConvRecord) :=
  if negb isFile then Fail errReorientArtifact else
  let scanned provider := match scan provider with Some (Some record) => Some record | _ => None end in
  match (if providerValid preferred then scanned preferred else None) with
  | Some record => Ok (Some record)
  | None => Ok (head (omap scanned (filter (fun provider => provider <> preferred) providers)))
  end.

Definition RenderReorientArtifact (isFile : bool) (scan : Provider -> option (option ConvRecord)) (providers : list Provider) (preferred : Provider)
  (options : ReorientOptions) : outcome reorientError bytes :=
  let options := normalizeReorientOptions options in
  record ← resolveArtifactRecord isFile scan providers preferred;
  match record with
  | None => Fail errReorientArtifact
  | Some record => snapshot ← renderReorientSnapshot record options; Ok (sn_Body snapshot)
  end.
End reorient.

(** ** The text of a page *)

Definition RenderReorientPageText (page : ReorientPageResult) : bytes :=
  concat (map (fun warning => lit "> " ++ warning ++ newline) (pg_Warnings page))
  ++ (match pg_Warnings page with [] => [] | _ :: _ => newline end)
  ++ pg_Body page
  ++ (if negb (bool_decide (pg_Body page = [])) && negb (HasSuffix (pg_Body page) newline) then newline else [])
  ++ lit "---" ++ newline ++ lit "recovered bytes " ++ Itoa (pg_Offset page) ++ lit "-" ++ Itoa (pg_Offset page + zlen (pg_Body page))
  ++ lit " of " ++ Itoa (pg_TotalBytes page) ++ lit " (" ++ Itoa (pg_TotalLines page) ++ lit " lines total)" ++ newline
  ++ (if 0 <? pg_Remaining page then
        lit "Not finished: call reorient again with cursor=" ++ pg_NextCursor page ++ lit ". " ++ Itoa (pg_Remaining page)
        ++ lit " bytes remaining. Read every page in full before reasoning." ++ newline
      else lit "End of recovered transcript." ++ newline).

Example cursor_sample : decodeReorientCursor (encodeReorientCursor (MkCursor (lit "a<b") 17)) = Ok (MkCursor (lit "a<b") 17).
Proof. vm_compute. reflexivity. Qed.

(** A page size near the largest integer. *)
Example slice_wraps : sliceReorientBody (lit "ab") 1 maxInt64 = Panic.
Proof. vm_compute. reflexivity. Qed.

(** A cursor that was issued before the first compaction is applied to the transcript that was
    recovered after it. *)
Example first_compaction_missed :
  let before := MkSnapshot (MkRef [] [] [] []) (lit "aaaa") [] 1 false [] in
  let after := MkSnapshot (MkRef [] [] [] []) (lit "bbbb") (lit "u1") 1 false [] in
  match pageOf before [] 2 with
  | Ok page => match pageOf after (pg_NextCursor page) 2 with Ok page => pg_Offset page = 2 /\ pg_Restart page = false | _ => False end
  | _ => False
  end.
Proof. vm_compute. by split. Qed.
