(* ===== verification/RePageSpec.v ===== *)
(** * RePageSpec: the pages of a snapshot are the snapshot

    A cursor reads back as what was written ([cursor_read]); following the cursors from the
    first page delivers every byte of the body once, in order, in pages of bounded size
    ([pages_deliver]); the caps keep the newest lines and bytes ([capToLastLines_exact],
    [capToLastBytes_bounded]). *)

From S2P Require Import Prelude GoUtf8 GoStrconv GoText GoJson GoSha256 GoBase64 GoJsonText RtSegments CvRecord CvList TrMessage TrShape ExFilter ExExport ReClean RePage.

Open Scope Z_scope.

(** ** Cursors *)

Lemma digitsRev_leading fuel n : 0 < n < 10 ^ Z.of_nat fuel -> exists ds d, digitsRev fuel n = ds ++ [d] /\ d <> Byte.x30.
Proof.
  revert n. induction fuel as [|fuel IH]; intros n H; [cbn in H; lia|]. cbn [digitsRev]. destruct (Z.ltb_spec n 10).
  - exists [], (z2b (48 + n)). split; [done|]. intros E. apply (f_equal b2z) in E. rewrite b2z_z2b in E. change (b2z Byte.x30) with 48 in E.
    rewrite Z.mod_small in E by lia. lia.
  - destruct (IH (n / 10)) as (ds & d & E & Hd).
    { rewrite Nat2Z.inj_succ, Z.pow_succ_r in H by lia. split; [|apply Z.div_lt_upper_bound; lia]. assert (1 <= n / 10) by (apply Z.div_le_lower_bound; lia). lia. }
    exists (z2b (48 + n mod 10) :: ds), d. by rewrite E.
Qed.

Lemma Itoa_leading n : 0 <= n <= maxInt64 -> Itoa n = [Byte.x30] \/ exists d ds, Itoa n = d :: ds /\ d <> Byte.x30 /\ Forall (fun b => isDigit b = true) (d :: ds).
Proof.
  intros Hn. destruct (decide (n = 0)) as [->|Hz]; [by left|]. right. destruct (Itoa_digits n Hn) as (Hd & _). unfold Itoa in *.
  rewrite (proj2 (Z.ltb_ge n 0)) in * by lia. destruct (digitsRev_leading 20 n) as (ds & d & E & Hne); [unfold maxInt64 in Hn; cbn; lia|].
  rewrite E, rev_app_distr in *. cbn [rev app] in *. by exists d, (rev ds).
Qed.

Lemma digits_all ds X : Forall (fun b => isDigit b = true) ds -> digits (ds ++ Byte.x7d :: X) = (ds, Byte.x7d :: X).
Proof. induction 1 as [|b ds Hb _ IH]; [done|]. cbn [app digits]. by rewrite Hb, IH. Qed.

Lemma number_read n X : 0 <= n <= maxInt64 -> parseValue 1 (Itoa n ++ Byte.x7d :: X) = Some (JNumber (Itoa n), Byte.x7d :: X).
Proof.
  intros Hn. assert (exists d ds, Itoa n = d :: ds /\ isDigit d = true /\ scanNumber (Itoa n ++ Byte.x7d :: X) = Some (Itoa n, Byte.x7d :: X)) as (d & ds & E & Hd & Hs).
  { destruct (Itoa_leading n Hn) as [E|(d & ds & E & Hne & Hall)]; rewrite E; [by exists Byte.x30, []|]. exists d, ds. apply Forall_cons in Hall as [Hd Hall].
    split_and!; [done|done|]. unfold scanNumber. cbn [optional app]. rewrite bool_decide_eq_false_2 by (by intros ->). unfold scanInt. rewrite bool_decide_eq_false_2 by done.
    unfold digits1. cbn [digits]. rewrite Hd, digits_all by done. cbn [mbind option_bind].
    change (scanFraction (Byte.x7d :: X)) with (Some (@nil Byte.byte, Byte.x7d :: X)). cbn [mbind option_bind].
    change (scanExponent (Byte.x7d :: X)) with (Some (@nil Byte.byte, Byte.x7d :: X)). cbn [mbind option_bind app]. by rewrite app_nil_r. }
  rewrite E in Hs |- *. cbn [app parseValue] in *.
  rewrite skipSpace_here by (destruct d; try (vm_compute in Hd; discriminate); reflexivity).
  rewrite (bool_decide_eq_false_2 (d = dquote)) by (intros ->; done). rewrite (bool_decide_eq_false_2 (d = Byte.x5b)) by (intros ->; done).
  rewrite (bool_decide_eq_false_2 (d = Byte.x7b)) by (intros ->; done).
  assert (scanLiteral (d :: ds ++ Byte.x7d :: X) = None) as -> by (destruct d; try (vm_compute in Hd; discriminate); reflexivity). by rewrite Hs.
Qed.

Lemma parseFields_two elem s key v rest key' v' Y : parseField elem (dquote :: s) = Some (key, v, Byte.x2c :: rest) ->
  parseField elem rest = Some (key', v', Byte.x7d :: Y) -> s <> [] -> parseFields elem (dquote :: s) = Some ([(key, v); (key', v')], Y).
Proof.
  intros H1 H2 Hs. unfold parseFields. change (skipSpace (dquote :: s)) with (dquote :: s). cbv iota. change (bool_decide (dquote = Byte.x7d)) with false. cbv iota.
  destruct s as [|c s]; [done|]. cbn [length GoJson.fieldsLoop].
 rewrite H1. cbn [mbind option_bind]. change (skipSpace (Byte.x2c :: rest)) with (Byte.x2c :: rest). cbv iota.
  change (bool_decide (Byte.x2c = Byte.x2c)) with true. cbv iota. rewrite H2. reflexivity.
Qed.

(** The names of the two members, with their quotes. *)
Definition fName : bytes := jsonString (lit "f").
Definition oName : bytes := jsonString (lit "o").

Lemma cursor_parse fp n : ValidString fp = true -> 0 <= n <= maxInt64 ->
  exists raw, parseDoc maxNestingDepth (marshalCursor (MkCursor fp n)) = Some (JObject raw [(fName, JString (jsonString fp)); (oName, JNumber (Itoa n))]).
Proof.
  intros Hv Hn. set (rest := oName ++ Byte.x3a :: Itoa n ++ [Byte.x7d]). set (body := fName ++ Byte.x3a :: jsonString fp ++ Byte.x2c :: rest).
  assert (marshalCursor (MkCursor fp n) = Byte.x7b :: body) as ->.
  { unfold marshalCursor, body, rest, fName, oName, jsonColon. cbn [cu_Fingerprint cu_Offset]. by rewrite <- ?app_assoc. }
  assert (parseField (parseValue 1) rest = Some (oName, JNumber (Itoa n), [Byte.x7d])) as H2.
  { apply (parseField_here _ [Byte.x6f; dquote]); [reflexivity|]. by apply number_read. }
  assert (parseField (parseValue 1) body = Some (fName, JString (jsonString fp), Byte.x2c :: rest)) as H1.
  { apply (parseField_here _ [Byte.x66; dquote]); [reflexivity|]. by apply string_read. }
  pose proof (parseFields_two (parseValue 1) (Byte.x66 :: dquote :: Byte.x3a :: jsonString fp ++ Byte.x2c :: rest) _ _ _ _ _ _ H1 H2 ltac:(done)) as Hf.
  exists (Byte.x7b :: consumed body []). apply (parseDoc_mono 1); [unfold maxNestingDepth; lia|].
  unfold parseDoc. change (parseValue 2 (Byte.x7b :: body)) with ('(fields, rest') ← parseFields (parseValue 1) body; Some (JObject (Byte.x7b :: consumed body rest') fields, rest')).
  change (dquote :: Byte.x66 :: dquote :: Byte.x3a :: jsonString fp ++ Byte.x2c :: rest) with body in Hf.
  rewrite Hf. reflexivity.
Qed.

Lemma Itoa_value n : 0 <= n <= maxInt64 -> Atoi (Itoa n) = Some n.
Proof. apply Atoi_Itoa. Qed.

Lemma cursor_read fp n : ValidString fp = true -> 0 <= n <= maxInt64 -> decodeReorientCursor (encodeReorientCursor (MkCursor fp n)) = Ok (MkCursor fp n).
Proof.
  intros Hv Hn. unfold decodeReorientCursor, encodeReorientCursor. set (payload := marshalCursor _).
  assert (EncodeToString payload <> [] /\ TrimSpace (EncodeToString payload) = EncodeToString payload) as [Hne ->].
  { pose proof (EncodeToString_dark payload) as Hd. assert (exists a b c s, payload = a :: b :: c :: s) as (a & b & c & s & ->) by (subst payload; repeat eexists).
    split; [done|]. apply trimmed_TrimSpace; right.
    - cbn [EncodeToString] in *. apply Forall_cons in Hd as [(_ & _ & Hb & Hs) _]. by rewrite DecodeRune_ascii.
    - destruct (EncodeToString (a :: b :: c :: s)) as [|x l] eqn:E using rev_ind; [done|]. apply Forall_app in Hd as [_ Hd].
      apply Forall_cons in Hd as [(_ & _ & Hb & Hs) _]. by rewrite DecodeLastRune_ascii. }
  rewrite bool_decide_eq_false_2 by done. rewrite DecodeString_Encode. destruct (cursor_parse fp n Hv Hn) as [raw E]. fold payload in E.
  unfold unmarshalCursor. rewrite E. cbn [foldl]. destruct (jsonString_read fp [] Hv) as (_ & _ & _ & Hdec).
  assert (cursorMember (Some (MkCursor [] 0)) (fName, JString (jsonString fp)) = Some (MkCursor fp 0)) as ->.
  { unfold cursorMember. cbn [mbind option_bind fst snd]. change (fieldName fName) with (lit "f"). change (bool_decide (lit "f" ∈ [lit "f"; lit "F"])) with true. cbv iota. by rewrite Hdec. }
  assert (cursorMember (Some (MkCursor fp 0)) (oName, JNumber (Itoa n)) = Some (MkCursor fp n)) as ->.
  { unfold cursorMember. cbn [mbind option_bind fst snd]. change (fieldName oName) with (lit "o"). change (bool_decide (lit "o" ∈ [lit "f"; lit "F"])) with false.
    change (bool_decide (lit "o" ∈ [lit "o"; lit "O"])) with true. cbv iota. by rewrite Itoa_value. }
  cbn [cu_Offset]. by rewrite (proj2 (Z.ltb_ge n 0)) by lia.
Qed.

Lemma cursor_nonempty c : encodeReorientCursor c <> [].
Proof. unfold encodeReorientCursor. assert (exists a b d s, marshalCursor c = a :: b :: d :: s) as (a & b & d & s & ->) by (repeat eexists). done. Qed.

(** ** Runes *)

Lemma wholeRune_start p : wholeRune p -> exists b q, p = b :: q /\ RuneStart b = true /\ Forall (fun c => RuneStart c = false) q.
Proof.
  unfold RuneStart. intros [(b & -> & Hb)|(r & [b0 b1 Hf Hr H1|b0 b1 b2 lo hi Hf Hr H1 H2 Hl _ _|b0 b1 b2 b3 lo hi Hf Hr H1 H2 H3 Hl _ _])].
  - exists b, []. split_and!; [done| |constructor]. apply negb_true_iff. unfold isCont. apply andb_false_iff. left. apply Z.leb_gt. lia.
  - exists b0, [b1]. split_and!; [done|apply negb_true_iff, andb_false_iff; right; apply Z.leb_gt; lia|]. constructor; [|constructor].
    apply negb_false_iff, andb_true_iff. split; apply Z.leb_le; lia.
  - exists b0, [b1; b2]. split_and!; [done|apply negb_true_iff, andb_false_iff; right; apply Z.leb_gt; lia|].
    unfold inZ in H1. reflect_bools. constructor; [|constructor; [|constructor]]; [|by rewrite H2]. apply negb_false_iff, andb_true_iff. split; apply Z.leb_le; lia.
  - exists b0, [b1; b2; b3]. split_and!; [done|apply negb_true_iff, andb_false_iff; right; apply Z.leb_gt; lia|].
    unfold inZ in H1. reflect_bools. constructor; [|constructor; [|constructor; [|constructor]]]; [|by rewrite H2|by rewrite H3].
    apply negb_false_iff, andb_true_iff. split; apply Z.leb_le; lia.
Qed.

(** An offset between two runes of valid text: of such offsets are the two ends, the starts of
    runes and the places behind a line feed. *)
Definition boundary (s : bytes) (k : nat) : Prop := ValidString (take k s) = true /\ ValidString (drop k s) = true.

Lemma boundary_runes ps qs : Forall wholeRune (ps ++ qs) -> boundary (concat (ps ++ qs)) (length (concat ps)).
Proof.
  intros [H1 H2]%Forall_app. unfold boundary. rewrite concat_app, take_app_length, drop_app_length. split; apply ValidString_runes; eauto.
Qed.

Lemma runes_start ps k : Forall wholeRune ps -> (k <= length (concat ps))%nat -> (forall b, concat ps !! k = Some b -> RuneStart b = true) ->
  exists qs rs, ps = qs ++ rs /\ length (concat qs) = k.
Proof.
  intros H. revert k. induction H as [|p ps Hp _ IH]; intros k Hk Hat; [exists [], []; cbn in *; split; [done|lia]|]. cbn [concat] in *. rewrite length_app in Hk.
  destruct (decide (k = 0%nat)) as [->|]; [by exists [], (p :: ps)|]. destruct (decide (length p <= k)%nat) as [Hle|Hlt].
  - destruct (IH (k - length p)%nat) as (qs & rs & -> & Hl); [lia| |exists (p :: qs), rs; cbn; rewrite length_app; split; [done|lia]].
    intros b Hb. apply Hat. by rewrite lookup_app_r.
  - exfalso. destruct (wholeRune_start p Hp) as (b & q & -> & _ & Hq). destruct k as [|k]; [done|]. cbn [length] in Hlt.
    destruct (lookup_lt_is_Some_2 q k) as [c Hc]; [lia|]. rewrite Forall_lookup in Hq. specialize (Hq _ _ Hc).
    rewrite (Hat c) in Hq; [done|]. change ((q ++ concat ps) !! k = Some c). by apply lookup_app_l_Some.
Qed.

Lemma runes_line ps k : Forall wholeRune ps -> concat ps !! k = Some lineFeed -> exists qs rs, ps = qs ++ rs /\ length (concat qs) = S k.
Proof.
  intros H. revert k. induction H as [|p ps Hp _ IH]; intros k Hk; [done|]. cbn [concat] in *. destruct (decide (length p <= k)%nat) as [Hle|Hlt].
  - rewrite lookup_app_r in Hk by done. destruct (IH _ Hk) as (qs & rs & -> & Hl). exists (p :: qs), rs. cbn. rewrite length_app. split; [done|lia].
  - rewrite lookup_app_l in Hk by lia. exists [p], ps. split; [done|]. cbn [concat app]. rewrite app_nil_r. clear IH. pose proof (wholeRune_start p Hp) as (b & q & Ep & _ & Hq).
    destruct k as [|k].
    + destruct Hp as [(c & -> & _)|(r & Hp)]; [done|]. apply runeBytes_high in Hp. subst p. cbn in Hk. injection Hk as ->. apply Forall_inv in Hp. vm_compute in Hp. done.
    + subst p. cbn in Hk. rewrite Forall_lookup in Hq. specialize (Hq _ _ Hk). vm_compute in Hq. done.
Qed.

Lemma boundary_of s qs rs : Forall wholeRune (qs ++ rs) -> s = concat (qs ++ rs) -> boundary s (length (concat qs)).
Proof. intros H ->. by apply boundary_runes. Qed.

Lemma boundary_start s k : ValidString s = true -> (k <= length s)%nat -> (forall b, s !! k = Some b -> RuneStart b = true) -> boundary s k.
Proof. intros (ps & -> & H)%ValidString_runes Hk Hat. destruct (runes_start ps k H Hk Hat) as (qs & rs & -> & <-). by apply boundary_runes. Qed.

Lemma boundary_line s k : ValidString s = true -> s !! k = Some lineFeed -> boundary s (S k).
Proof. intros (ps & -> & H)%ValidString_runes Hat. destruct (runes_line ps k H Hat) as (qs & rs & -> & <-). by apply boundary_runes. Qed.

(** Behind the first rune. *)
Lemma boundary_rune b s : ValidString (b :: s) = true -> boundary (b :: s) (DecodeRune (b :: s)).2.
Proof.
  intros ([|p ps] & E & H)%ValidString_runes; [done|]. rewrite E. pose proof (Forall_inv H) as Hp. destruct (wholeRune_decode p (concat ps) Hp) as (r & Er & _).
  cbn [concat]. rewrite Er. cbn [snd]. pose proof (boundary_runes [p] ps H) as Hb. cbn [concat app] in Hb. by rewrite app_nil_r in Hb.
Qed.

(** ** One page *)

Lemma backToRune_spec body offset n : (offset + n < length body)%nat ->
  (offset <= backToRune body offset n <= offset + n)%nat /\
  (backToRune body offset n <> offset -> forall b, body !! backToRune body offset n = Some b -> RuneStart b = true).
Proof.
  induction n as [|n IH]; intros H; cbn [backToRune]; [split; [lia|done]|]. destruct (lookup_lt_is_Some_2 body (offset + S n)%nat) as [b Hb]; [lia|]. rewrite Hb.
  destruct (RuneStart b) eqn:E; [split; [lia|]; intros _ c Hc; congruence|]. destruct (IH ltac:(lia)) as [H1 H2]. split; [lia|done].
Qed.

(** A page advances by at most its budget, or by one rune that is wider; between runes it ends
    between runes. *)
Definition pageStop (body : bytes) (offset pageBytes stop : Z) : Prop :=
  offset < stop <= zlen body /\ stop - offset <= Z.max pageBytes 4 /\
  (ValidString body = true -> boundary body (Z.to_nat offset) -> boundary body (Z.to_nat stop)).

Lemma boundary_full s : ValidString s = true -> boundary s (length s).
Proof. intros H. split; [by rewrite firstn_all|by rewrite drop_all]. Qed.

Lemma boundary_shift s a k : ValidString s = true -> boundary s a -> boundary (drop a s) k -> (k <= length (drop a s))%nat -> boundary s (a + k).
Proof.
  intros Hs [Ha _] [Hk1 Hk2] Hle. rewrite drop_drop in Hk2. split; [|done]. apply ValidString_runes in Ha as (ps & E1 & H1), Hk1 as (qs & E2 & H2).
  apply ValidString_runes. exists (ps ++ qs). split; [|by apply Forall_app]. rewrite concat_app, <- E1, <- E2. rewrite length_drop in Hle.
  by rewrite take_take_drop.
Qed.

Lemma slice_whole (body : bytes) offset : 0 <= offset -> slice body offset (zlen body) = drop (Z.to_nat offset) body.
Proof. intros H. unfold slice, zlen. apply take_ge. rewrite length_drop. lia. Qed.

Lemma DecodeRune_four s : ((DecodeRune s).2 <= 4)%nat.
Proof. unfold DecodeRune. repeat case_match; cbn; lia. Qed.

(** The hard cut of a page without a line feed. *)
Lemma hardCut body offset pageBytes stop : 0 <= offset < zlen body -> 1 <= pageBytes -> offset + pageBytes < zlen body ->
  stop = Z.of_nat (backToRune body (Z.to_nat offset) (Z.to_nat (offset + pageBytes - offset))) ->
  pageStop body offset pageBytes (if stop =? offset then offset + Z.of_nat (DecodeRune (drop (Z.to_nat offset) body)).2 else stop).
Proof.
  intros Ho Hp Hl ->. destruct (backToRune_spec body (Z.to_nat offset) (Z.to_nat (offset + pageBytes - offset))) as [Hr Hs]; [unfold zlen in *; lia|].
  set (k := backToRune _ _ _) in *. destruct (drop (Z.to_nat offset) body) as [|b rest] eqn:Ed.
  { apply (f_equal length) in Ed. rewrite length_drop in Ed. unfold zlen in *. cbn in Ed. lia. }
  assert (length (b :: rest) = (length body - Z.to_nat offset)%nat) as Hlen by (by rewrite <- Ed, length_drop).
  pose proof (DecodeRune_width b rest) as Hw. pose proof (DecodeRune_four (b :: rest)) as H4. destruct (Z.eqb_spec (Z.of_nat k) offset) as [E|E]; unfold pageStop, zlen in *.
  - split_and!; [lia|lia|lia|]. intros Hv Hb. assert (Z.to_nat (offset + Z.of_nat (DecodeRune (b :: rest)).2) = (Z.to_nat offset + (DecodeRune (b :: rest)).2)%nat) as -> by lia.
    apply boundary_shift; [done|done| |rewrite Ed; lia]. rewrite Ed. apply boundary_rune. destruct Hb as [_ Hb]. by rewrite Ed in Hb.
  - split_and!; [lia|lia|lia|]. intros Hv _. rewrite Nat2Z.id. apply boundary_start; [done|lia|]. apply Hs. lia.
Qed.

Lemma slice_page body offset pageBytes : 0 <= offset < zlen body -> 1 <= pageBytes -> offset + pageBytes <= maxInt64 ->
  exists stop, sliceReorientBody body offset pageBytes = Ok (slice body offset stop, stop) /\ pageStop body offset pageBytes stop.
Proof.
  intros Ho Hp Hm. unfold sliceReorientBody. rewrite (proj2 (Z.ltb_ge offset 0)), (proj2 (Z.leb_gt (zlen body) offset)), (proj2 (Z.ltb_ge pageBytes 1)) by lia.
  rewrite i64_small by (unfold minInt64, maxInt64 in *; lia). destruct (Z.leb_spec (zlen body) (offset + pageBytes)) as [Hl|Hl].
  { exists (zlen body). rewrite slice_whole by lia. split; [done|]. split_and!; try lia. intros Hv _. unfold zlen. rewrite Nat2Z.id. by apply boundary_full. }
  rewrite (proj2 (Z.ltb_ge (offset + pageBytes) offset)) by lia. destruct (LastIndexByte _ _) as [i|] eqn:Ei.
  - eexists. split; [reflexivity|]. apply LastIndexByte_Some in Ei as (Ei & _). unfold slice in Ei. pose proof (lookup_lt_Some _ _ _ Ei) as Hi. rewrite length_take, length_drop in Hi.
    rewrite lookup_take_lt, lookup_drop in Ei by lia. split_and!; [lia|unfold zlen in *; lia|lia|].
    intros Hv _. assert (Z.to_nat (offset + Z.of_nat i + 1) = S (Z.to_nat offset + i)) as -> by lia. by apply boundary_line.
  - eexists. split; [reflexivity|]. by eapply hardCut.
Qed.

(** ** All pages *)

(** Following the cursors. *)
Fixpoint readPages (fuel : nat) (snapshot : reorientSnapshot) (cursor : bytes) (pageBytes : Z) : outcome reorientError (list ReorientPageResult) :=
  match fuel with
  | O => Ok []
  | S fuel =>
      page ← pageOf snapshot cursor pageBytes;
      if bool_decide (pg_NextCursor page = []) then Ok [page] else
      rest ← readPages fuel snapshot (pg_NextCursor page) pageBytes;
      Ok (page :: rest)
  end.

Definition pageBudget (pageBytes : Z) : Z := if pageBytes <=? 0 then DefaultReorientPageBytes else pageBytes.

Section pages.
Context (snapshot : reorientSnapshot) (pageBytes : Z).
Context (Hfp : ValidString (sn_Fingerprint snapshot) = true) (Hsize : zlen (sn_Body snapshot) + pageBudget pageBytes <= maxInt64).
Abbreviation body := (sn_Body snapshot).

Lemma budget_positive : 1 <= pageBudget pageBytes.
Proof. unfold pageBudget, DefaultReorientPageBytes. destruct (Z.leb_spec pageBytes 0); lia. Qed.

(** A cursor of this snapshot that points at [offset]. *)
Definition cursorAt (cursor : bytes) (offset : Z) : Prop :=
  exists fp, decodeReorientCursor cursor = Ok (MkCursor fp offset) /\ (fp = [] \/ fp = sn_Fingerprint snapshot).

(** The text between two boundaries is valid. *)
Lemma valid_head b s : ValidString (b :: s) = true -> RuneStart b = true.
Proof.
  intros ([|p ps] & E & H)%ValidString_runes; [done|]. apply Forall_inv in H. destruct (wholeRune_start p H) as (c & q & -> & Hc & _). by injection E as -> _.
Qed.

Lemma slice_valid (s : bytes) a b : (a <= b <= length s)%nat -> boundary s a -> boundary s b -> ValidString (take (b - a) (drop a s)) = true.
Proof.
  intros Hab [_ Ha] [_ Hb]. apply ValidString_runes in Ha as (ps & E & H). destruct (runes_start ps (b - a)) as (us & vs & -> & Hl); [done|rewrite <- E, length_drop; lia| |].
  - intros c Hc. rewrite <- E, lookup_drop in Hc. replace (a + (b - a))%nat with b in Hc by lia. rewrite (drop_S _ _ _ Hc) in Hb. by apply valid_head in Hb.
  - rewrite E, concat_app, <- Hl, take_app_length. apply ValidString_runes. apply Forall_app in H as [H _]. eauto.
Qed.

(** A page at an offset. *)
Lemma pageOf_at cursor offset : cursorAt cursor offset -> 0 <= offset <= zlen body ->
  exists page stop, pageOf snapshot cursor pageBytes = Ok page /\ pg_Body page = slice body offset stop /\ pg_Remaining page = zlen body - stop /\
    pg_Restart page = false /\ pg_TotalBytes page = zlen body /\ offset <= stop <= zlen body /\
    (offset < zlen body -> pageStop body offset (pageBudget pageBytes) stop) /\
    pg_NextCursor page = if stop <? zlen body then encodeReorientCursor (MkCursor (sn_Fingerprint snapshot) stop) else [].
Proof.
  intros (fp & Ec & Hf) Ho. pose proof budget_positive as Hb. unfold pageOf. rewrite Ec. cbn [mbind outcome_bind cu_Fingerprint cu_Offset].
  assert (negb (bool_decide (fp = [])) && negb (bool_decide (fp = sn_Fingerprint snapshot)) = false) as ->.
  { apply andb_false_iff. destruct Hf as [->| ->]; [by left|right]. by rewrite bool_decide_eq_true_2. }
  cbv iota. rewrite (proj2 (Z.ltb_ge (zlen body) offset)) by lia. change (if pageBytes <=? 0 then DefaultReorientPageBytes else pageBytes) with (pageBudget pageBytes).
  destruct (decide (offset < zlen body)) as [Hlt|Hge].
  - destruct (slice_page body offset (pageBudget pageBytes)) as (stop & -> & Hstop); [lia|done|lia|]. cbn [mbind outcome_bind]. eexists _, stop.
    split; [reflexivity|]. cbn [pg_Body pg_Remaining pg_Restart pg_TotalBytes pg_NextCursor]. destruct Hstop as (H1 & H2). split_and!; try done; lia.
  - assert (sliceReorientBody body offset (pageBudget pageBytes) = Ok ([], zlen body)) as ->.
    { unfold sliceReorientBody. rewrite (proj2 (Z.ltb_ge offset 0)), (proj2 (Z.leb_le (zlen body) offset)) by lia. done. }
    cbn [mbind outcome_bind]. eexists _, (zlen body). split; [reflexivity|]. cbn [pg_Body pg_Remaining pg_Restart pg_TotalBytes pg_NextCursor].
    rewrite slice_whole by lia. rewrite drop_ge by (unfold zlen in *; lia). split_and!; try done; lia.
Qed.

Lemma slice_next (s : bytes) a b : 0 <= a <= b -> b <= zlen s -> slice s a b ++ drop (Z.to_nat b) s = drop (Z.to_nat a) s.
Proof.
  intros H Hb. unfold slice. rewrite <- (take_drop (Z.to_nat (b - a)) (drop (Z.to_nat a) s)) at 2. f_equal. rewrite drop_drop. f_equal. lia.
Qed.

Lemma readPages_from fuel cursor offset : cursorAt cursor offset -> 0 <= offset <= zlen body -> (Z.to_nat (zlen body - offset) < fuel)%nat ->
  exists pages, readPages fuel snapshot cursor pageBytes = Ok pages /\ concat (map pg_Body pages) = drop (Z.to_nat offset) body /\
    (exists front final, pages = front ++ [final] /\ pg_NextCursor final = [] /\ pg_Remaining final = 0) /\
    Forall (fun page => zlen (pg_Body page) <= Z.max (pageBudget pageBytes) 4 /\ pg_Restart page = false /\ pg_TotalBytes page = zlen body) pages /\
    (ValidString body = true -> boundary body (Z.to_nat offset) -> Forall (fun page => ValidString (pg_Body page) = true) pages).
Proof.
  revert cursor offset. induction fuel as [|fuel IH]; intros cursor offset Hc Ho Hf; [lia|]. cbn [readPages].
  destruct (pageOf_at cursor offset Hc Ho) as (page & stop & -> & Hbody & Hrem & Hres & Htot & Hstop & Hps & Hnext). cbn [mbind outcome_bind].
  assert (zlen (pg_Body page) <= Z.max (pageBudget pageBytes) 4) as Hlen.
  { rewrite Hbody. destruct (decide (offset < zlen body)) as [Hlt|]; [destruct (Hps Hlt) as (_ & H2 & _); unfold slice, zlen in *; rewrite length_take; lia|].
    unfold slice, zlen in *. rewrite length_take, length_drop. lia. }
  assert (ValidString body = true -> boundary body (Z.to_nat offset) -> ValidString (pg_Body page) = true /\ boundary body (Z.to_nat stop)) as Hvalid.
  { intros Hv Hb. assert (boundary body (Z.to_nat stop)) as Hb'.
    { destruct (decide (offset < zlen body)) as [Hlt|]; [by apply (Hps Hlt)|]. replace (Z.to_nat stop) with (length body) by (unfold zlen in *; lia). by apply boundary_full. }
    split; [|done]. rewrite Hbody. unfold slice. replace (Z.to_nat (stop - offset)) with (Z.to_nat stop - Z.to_nat offset)%nat by lia.
    apply slice_valid; [unfold zlen in *; lia|done|done]. }
  destruct (Z.ltb_spec stop (zlen body)) as [Hlt|Hge]; rewrite Hnext.
  - rewrite bool_decide_eq_false_2 by apply cursor_nonempty. destruct (Hps ltac:(lia)) as (Hmove & _).
    destruct (IH (encodeReorientCursor (MkCursor (sn_Fingerprint snapshot) stop)) stop) as (pages & -> & Hcat & (front & final & -> & Hfin) & Hall & Hval); [|lia|lia|].
    { exists (sn_Fingerprint snapshot). split; [|by right]. apply cursor_read; [done|]. pose proof budget_positive. lia. }
    cbn [mbind outcome_bind]. eexists. split; [reflexivity|]. split; [|split; [|split]].
    + cbn [map concat]. rewrite Hcat, Hbody. apply slice_next; lia.
    + exists (page :: front), final. by split.
    + by constructor.
    + intros Hv Hb. destruct (Hvalid Hv Hb). constructor; [done|]. by apply Hval.
  - rewrite bool_decide_eq_true_2 by done. exists [page]. split; [done|]. split; [|split; [|split]].
    + cbn [map concat]. rewrite Hbody, app_nil_r. assert (stop = zlen body) as -> by lia. apply slice_whole; lia.
    + exists [], page. split; [done|]. split; [done|lia].
    + by constructor.
    + intros Hv Hb. by constructor; [apply Hvalid|].
Qed.
End pages.

(** C16. Following the cursors from the first page ends, at a page without a cursor and with
    nothing left; the pages are the body in order, every byte once; no page is larger than the
    budget (or than one rune), and none splits a rune of valid text. *)
Theorem pages_deliver snapshot pageBytes :
  ValidString (sn_Fingerprint snapshot) = true -> zlen (sn_Body snapshot) + pageBudget pageBytes <= maxInt64 ->
  exists pages, readPages (S (length (sn_Body snapshot))) snapshot [] pageBytes = Ok pages /\ concat (map pg_Body pages) = sn_Body snapshot /\
    (exists front final, pages = front ++ [final] /\ pg_NextCursor final = [] /\ pg_Remaining final = 0) /\
    Forall (fun page => zlen (pg_Body page) <= Z.max (pageBudget pageBytes) 4 /\ pg_Restart page = false /\ pg_TotalBytes page = zlen (sn_Body snapshot)) pages /\
    (ValidString (sn_Body snapshot) = true -> Forall (fun page => ValidString (pg_Body page) = true) pages).
Proof.
  intros Hfp Hsize. pose proof (zlen_nonneg (sn_Body snapshot)).
  destruct (readPages_from snapshot pageBytes Hfp Hsize (S (length (sn_Body snapshot))) [] 0) as (pages & H1 & H2 & H3 & H4 & H5); [|lia|unfold zlen; lia|].
  { exists []. split; [reflexivity|by left]. }
  exists pages. split_and!; try done. intros Hv. apply H5; [done|]. by split.
Qed.

(** ** The newest lines *)

Lemma Join_app (ls rs : list bytes) sep : ls <> [] -> rs <> [] -> Join (ls ++ rs) sep = Join ls sep ++ sep ++ Join rs sep.
Proof.
  intros Hl Hr. induction ls as [|l ls IH]; [done|]. destruct ls as [|l' ls].
  - cbn [app]. by rewrite Join_cons.
  - change ((l :: l' :: ls) ++ rs) with (l :: (l' :: ls) ++ rs). rewrite (Join_cons l ((l' :: ls) ++ rs)), (Join_cons l (l' :: ls)) by done.
    rewrite IH by done. by rewrite <- !app_assoc.
Qed.

Lemma countByte_app s t : countByte (s ++ t) lineFeed = countByte s lineFeed + countByte t lineFeed.
Proof. unfold countByte. by rewrite filter_app, zlen_app. Qed.

Lemma countByte_absent s : lineFeed ∉ s -> countByte s lineFeed = 0.
Proof.
  intros H. unfold countByte. replace (filter _ s) with (@nil Byte.byte); [done|]. symmetry. induction s as [|b s IH]; [done|]. apply not_elem_of_cons in H as [Hb H].
  rewrite filter_cons_False by congruence. by apply IH.
Qed.

Lemma countByte_Join ls : ls <> [] -> Forall (fun line => lineFeed ∉ line) ls -> countByte (Join ls newline) lineFeed + 1 = zlen ls.
Proof.
  intros Hne H. induction H as [|l ls Hl Hls IH]; [done|]. destruct ls as [|l' ls]; [cbn [Join]; rewrite countByte_absent by done; done|].
  rewrite Join_cons by done. rewrite !countByte_app, countByte_absent by done. change (countByte newline lineFeed) with 1.
  specialize (IH ltac:(done)). unfold zlen in *. cbn [length] in *. lia.
Qed.

Lemma cutLoop_lines n front back : (n < length front)%nat -> Forall (fun line => lineFeed ∉ line) front ->
  cutLoop n (Join (front ++ back) newline) (length (Join front newline)) = length (Join (take (length front - n) front) newline).
Proof.
  revert front back. induction n as [|n IH]; intros front back Hn H; cbn [cutLoop]; [by rewrite Nat.sub_0_r, firstn_all|].
  assert (take (length (Join front newline)) (Join (front ++ back) newline) = Join front newline) as ->.
  { destruct back as [|r back]; [by rewrite app_nil_r, firstn_all|]. rewrite Join_app by (done || (intros E; rewrite E in Hn; cbn in Hn; lia)). by rewrite take_app_length. }
  destruct front as [|x front _] using rev_ind; [cbn in Hn; lia|]. rewrite length_app in *. cbn [length] in *. apply Forall_app in H as [Hf Hx].
  assert (front <> []) as Hne by (intros E; rewrite E in Hn; cbn in Hn; lia). rewrite (Join_app front [x]) by done. cbn [Join].
  change (Join front newline ++ newline ++ x) with (Join front newline ++ lineFeed :: x). rewrite LastIndexByte_last by (by apply Forall_inv in Hx).
  rewrite <- app_assoc, IH by (done || lia). replace (length front + 1 - S n)%nat with (length front - n)%nat by lia. by rewrite take_app_le by lia.
Qed.

Lemma Join_nil (ls : list bytes) sep : sep <> [] -> Join ls sep = [] -> ls = [] \/ ls = [[]].
Proof.
  intros Hs. destruct ls as [|l [|l' ls]]; [by left|cbn; intros ->; by right|]. rewrite Join_cons by done. intros [_ [-> _]%app_nil]%app_nil. done.
Qed.

(** The text of the last lines: but for an empty first line that alone would go. *)
Definition lastLines (lines : list bytes) (n : nat) : list bytes :=
  let dropped := (length lines - n)%nat in
  if decide (take dropped lines = [[]]) then lines else drop dropped lines.

(** [capToLastLines] counts the lines without the line feeds at the end; it leaves a text of
    at most [maxLines] lines as it is and otherwise keeps exactly the last [maxLines] of them,
    each complete - one more when the only line to drop is an empty one. *)
Theorem capToLastLines_exact text maxLines :
  let trimmed := TrimRight text newline in
  let lines := Split trimmed newline in
  capToLastLines text maxLines =
  if bool_decide (trimmed = []) then (text, 0, false)
  else if (maxLines <=? 0) || (zlen lines <=? maxLines) then (text, zlen lines, false)
  else (Join (lastLines lines (Z.to_nat maxLines)) newline ++ newline, maxLines, true).
Proof.
  intros trimmed lines. unfold capToLastLines. fold trimmed. case_bool_decide as Ht; [done|].
  destruct (Split_absent trimmed Byte.x0a) as (Hno & Hjoin & Hne). change [Byte.x0a] with newline in *. fold lines in Hno, Hjoin, Hne. change Byte.x0a with lineFeed in *.
  rewrite <- Hjoin. rewrite countByte_Join by done. destruct (Z.leb_spec maxLines 0) as [Hm|Hm]; [done|]. cbn [orb].
  destruct (Z.leb_spec (zlen lines) maxLines) as [Hl|Hl]; [done|]. f_equal. f_equal. set (n := Z.to_nat maxLines). assert (n < length lines)%nat as Hn by (unfold n, zlen in *; lia).
  pose proof (cutLoop_lines n lines [] Hn Hno) as E. rewrite app_nil_r in E. rewrite E. unfold lastLines. set (d := (length lines - n)%nat).
  assert (take d lines <> []) as Hd by (intros H%(f_equal length); rewrite length_take in H; cbn in H; unfold d in *; lia).
  assert (drop d lines <> []) as Hd' by (intros H%(f_equal length); rewrite length_drop in H; cbn in H; unfold d, n in *; lia).
  f_equal. case_decide as Hc; [by rewrite Hc|]. destruct (Nat.ltb_spec 0 (length (Join (take d lines) newline))) as [Hp|Hp].
  - rewrite <- (take_drop d lines) at 2. rewrite Join_app by done.
    change (Join (take d lines) newline ++ newline ++ Join (drop d lines) newline) with (Join (take d lines) newline ++ [lineFeed] ++ Join (drop d lines) newline).
    rewrite app_assoc. replace (S (length (Join (take d lines) newline))) with (length (Join (take d lines) newline ++ [lineFeed])) by (rewrite length_app; cbn; lia).
    apply drop_app_length.
  - exfalso. destruct (Join (take d lines) newline) eqn:Ej; [|cbn in Hp; lia]. apply Join_nil in Ej as [?|?]; done.
Qed.

(** Two lines where one was asked for. *)
Example capToLastLines_blank : capToLastLines (newline ++ lit "A") 1 = (newline ++ lit "A" ++ newline, 1, true).
Proof. vm_compute. reflexivity. Qed.

(** ** The newest bytes *)

Lemma dropToRune_spec s : exists k, dropToRune s = drop k s /\ (k <= length s)%nat /\ (forall b, s !! k = Some b -> RuneStart b = true).
Proof.
  induction s as [|b s (k & E & Hk & Hb)]; [by exists 0%nat|]. cbn [dropToRune]. destruct (RuneStart b) eqn:Er.
  - exists 0%nat. split_and!; [done|lia|]. by intros c [= <-].
  - exists (S k). split_and!; [done|cbn; lia|done].
Qed.

(** [capToLastBytes] keeps an end of the body of at most [maxBytes] bytes, and valid text
    stays valid: the cut is behind a line feed or at the start of a rune. *)
Theorem capToLastBytes_bounded body maxBytes :
  let '(out, truncated) := capToLastBytes body maxBytes in
  if truncated then (exists k, out = drop k body) /\ zlen out <= maxBytes < zlen body /\ (ValidString body = true -> ValidString out = true)
  else out = body /\ (maxBytes <= 0 \/ zlen body <= maxBytes).
Proof.
  unfold capToLastBytes. destruct (Z.leb_spec maxBytes 0) as [Hm|Hm]; [split; [done|by left]|]. destruct (Z.leb_spec (zlen body) maxBytes) as [Hl|Hl]; [split; [done|by right]|].
  cbn [orb]. set (start := Z.to_nat (zlen body - maxBytes)).
  assert (forall k, (k <= length body)%nat -> (start <= k)%nat -> (ValidString body = true -> boundary body k) ->
    (exists j, drop k body = drop j body) /\ zlen (drop k body) <= maxBytes < zlen body /\ (ValidString body = true -> ValidString (drop k body) = true)) as Hcut.
  { intros k Hk Hs Hb. split; [by exists k|]. split; [unfold zlen in *; rewrite length_drop; lia|]. intros Hv. by apply Hb. }
  assert (let out := dropToRune (drop start body) in
    (exists j, out = drop j body) /\ zlen out <= maxBytes < zlen body /\ (ValidString body = true -> ValidString out = true)) as Hrune.
  { cbn zeta. destruct (dropToRune_spec (drop start body)) as (k & -> & Hk & Hb). rewrite length_drop in Hk. rewrite drop_drop. apply Hcut; [unfold zlen in *; lia|lia|].
    intros Hv. apply boundary_start; [done|unfold zlen in *; lia|]. intros b. rewrite <- lookup_drop. apply Hb. }
  destruct (Index (drop start body) newline) as [i|] eqn:Ei; [|exact Hrune]. destruct (Nat.ltb_spec (start + i + 1) (length body)) as [Hi|Hi]; [|exact Hrune].
  apply Hcut; [lia|lia|]. intros Hv. replace (start + i + 1)%nat with (S (start + i)) by lia. apply boundary_line; [done|].
  apply Index_Some in Ei as (Ei & _). apply HasPrefix_spec in Ei as [rest Ei].
  rewrite <- (Nat.add_0_r (start + i)), <- lookup_drop, <- drop_drop, Ei. done.
Qed.

(** ** Witnesses *)

Definition sampleSnapshot : reorientSnapshot :=
  MkSnapshot (MkRef (lit "claude:a") (lit "claude") [] []) (lit "first line" ++ newline ++ lit "second" ++ newline ++ [Byte.xc3; Byte.xa9; Byte.xc3; Byte.xa9])
    (lit "u-<1>") 3 false [].

Lemma pages_deliver_witness : exists pages, readPages 23 sampleSnapshot [] 7 = Ok pages /\ concat (map pg_Body pages) = sn_Body sampleSnapshot /\
  (exists front final, pages = front ++ [final] /\ pg_NextCursor final = [] /\ pg_Remaining final = 0) /\
  Forall (fun page => zlen (pg_Body page) <= Z.max (pageBudget 7) 4 /\ pg_Restart page = false /\ pg_TotalBytes page = zlen (sn_Body sampleSnapshot)) pages /\
  (ValidString (sn_Body sampleSnapshot) = true -> Forall (fun page => ValidString (pg_Body page) = true) pages).
Proof. apply (pages_deliver sampleSnapshot 7); [vm_compute; reflexivity|vm_compute; discriminate]. Defined.

Example sample_pages : (map pg_Body) <$> (match readPages 23 sampleSnapshot [] 8 with Ok pages => Some pages | _ => None end) =
  Some [lit "first li"; lit "ne" ++ newline; lit "second" ++ newline; [Byte.xc3; Byte.xa9; Byte.xc3; Byte.xa9]].
Proof. vm_compute. reflexivity. Qed.
