(* ===== verification/ReStable.v ===== *)
(** * ReStable: the recovered transcript does not move while the conversation goes on

    What is recovered of a compacted conversation are the segments before its latest
    compaction.  [snapshot_stable]: messages that are appended after it change nothing of the
    snapshot, so that the offsets in the cursors stay what they were. *)

From S2P Require Import Prelude GoUtf8 GoStrconv GoText RtSegments CvKinds CvRecord CvCompaction TrMessage TrShape ExFilter ExExport ReClean RePage.

Open Scope Z_scope.

(** ** Segments and later messages *)

Section segments.
Context {Item : Type}.
Implicit Types (A L : list (CvCompaction.Message (Item := Item))).

Definition plain (L : list (CvCompaction.Message (Item := Item))) : Prop := Forall (fun m => m_Compaction m = None) L.

Lemma checkpointsLoop_plain i L attached : plain L -> checkpointsLoop i L attached = [].
Proof.
  intros H. revert i attached. induction H as [|m L Hm _ IH]; intros i attached; [done|]. cbn [checkpointsLoop]. case_decide; [apply IH|]. rewrite Hm. apply IH.
Qed.

Lemma checkpointsLoop_app i A L attached : plain L -> checkpointsLoop i (A ++ L) attached = checkpointsLoop i A attached.
Proof.
  intros H. revert i attached. induction A as [|m A IH]; intros i attached; [by apply checkpointsLoop_plain|]. cbn [app checkpointsLoop].
  case_decide; [apply IH|]. destruct (m_Compaction m) as [md|]; [|apply IH]. destruct (md_Kind md); rewrite ?IH; try done.
  destruct A as [|next A]; [|cbn [app]; cbn [app] in IH; by rewrite ?IH]. cbn [app checkpointsLoop]. destruct H as [|x L Hx HL]; [done|].
  unfold isCompactionSummary. by rewrite Hx.
Qed.

Lemma CompactionMessages_app A L : plain L -> CompactionMessages (A ++ L) = CompactionMessages A.
Proof.
  intros H. unfold CompactionMessages. rewrite filter_app. assert (filter (fun m => m_Compaction m <> None) L = []) as ->; [|by rewrite app_nil_r].
  induction H as [|m L Hm _ IH]; [done|]. by rewrite filter_cons_False by (by intros ?).
Qed.

Lemma CompactionCheckpoints_app A L : plain L -> CompactionCheckpoints (A ++ L) = CompactionCheckpoints A.
Proof. intros H. unfold CompactionCheckpoints. by rewrite CompactionMessages_app, checkpointsLoop_app. Qed.

Lemma starts_app A L : plain L ->
  checkpointSegmentStarts (CompactionCheckpoints (A ++ L)) (zlen (A ++ L)) = map checkpointSegmentStart (CompactionCheckpoints A).
Proof.
  intros H. unfold checkpointSegmentStarts. pose proof (CompactionCheckpoints_starts (A ++ L)) as Hs. rewrite (increasing_filter 0) by (done || lia).
  by rewrite CompactionCheckpoints_app.
Qed.

Lemma slice_inside {X} (a l : list X) start stop : 0 <= start -> stop <= zlen a -> slice (a ++ l) start stop = slice a start stop.
Proof.
  intros H0 H. unfold slice, zlen in *. destruct (decide (Z.to_nat start <= length a)%nat).
  - rewrite drop_app_le by done. rewrite take_app_le; [done|]. rewrite length_drop. lia.
  - assert (Z.to_nat (stop - start) = 0)%nat as -> by lia. done.
Qed.

Lemma plainSegment_inside A L start stop : 0 <= start -> stop <= zlen A -> plainSegment (A ++ L) start stop = plainSegment A start stop.
Proof. intros H0 H. unfold plainSegment, countVisibleMessages, countToolCalls. by rewrite !slice_inside. Qed.

Lemma timestamp_inside A L i : i < zlen A -> compactionSegmentSummaryTimestamp (A ++ L) i = compactionSegmentSummaryTimestamp A i.
Proof.
  intros H. unfold compactionSegmentSummaryTimestamp. rewrite zlen_app. pose proof (zlen_nonneg L). destruct (Z.ltb_spec i 0); [done|]. cbn [orb].
  rewrite (proj2 (Z.leb_gt _ _)), (proj2 (Z.leb_gt (zlen A) i)) by lia. rewrite lookup_app_l; [done|]. unfold zlen in *. lia.
Qed.

(** The segment of a checkpoint that ends inside. *)
Lemma checkpointSegment_inside A L c start stop : 0 <= start -> stop <= zlen A -> checkpointSegmentStart c < zlen A ->
  checkpointSegment (A ++ L) c start stop = checkpointSegment A c start stop.
Proof.
  intros H0 H Hc. unfold checkpointSegment, countVisibleMessages, countToolCalls. rewrite !slice_inside by done. rewrite timestamp_inside; [done|].
  unfold checkpointSegmentStart in Hc. destruct (Z.leb_spec 0 (cp_SummaryIndex c)), (Z.ltb_spec (cp_SummaryIndex c) 0); lia.
Qed.

(** With later messages only the last segment differs. *)
Lemma segmentsLoop_app A L L' starts i cs lo : 0 <= lo -> drop i starts = map checkpointSegmentStart cs -> cs <> [] ->
  increasing lo (map checkpointSegmentStart cs) (zlen A) ->
  exists X last last', segmentsLoop (A ++ L) starts i cs = Ok (X ++ [last]) /\ segmentsLoop (A ++ L') starts i cs = Ok (X ++ [last']) /\
    Forall (fun s => sg_EndMessageIndex s <= zlen A) X /\ length cs = S (length X).
Proof.
  revert i lo. induction cs as [|c cs IH]; intros i lo Hlo Hd Hne Hinc; [done|]. cbn [map increasing segmentsLoop] in *. destruct Hinc as [Hs Hinc].
  assert (starts !! i = Some (checkpointSegmentStart c)) as Hi by (by rewrite <- (Nat.add_0_r i), <- lookup_drop, Hd).
  assert (drop (S i) starts = map checkpointSegmentStart cs) as Hd' by (replace (S i) with (i + 1)%nat by lia; by rewrite <- drop_drop, Hd).
  assert (starts !! S i = head (map checkpointSegmentStart cs)) as Hn by (rewrite <- (Nat.add_0_r (S i)), <- lookup_drop, Hd'; by destruct (map _ _)).
  rewrite Hi, Hn. destruct cs as [|c' cs].
  - cbn [map head default segmentsLoop mbind outcome_bind]. rewrite !zlen_app. pose proof (zlen_nonneg L). pose proof (zlen_nonneg L').
    cbn [from_option]. rewrite !(proj2 (Z.leb_gt _ _)) by lia. exists [], (checkpointSegment (A ++ L) c (checkpointSegmentStart c) (zlen A + zlen L)),
      (checkpointSegment (A ++ L') c (checkpointSegmentStart c) (zlen A + zlen L')). cbn [app length]. split_and!; done || constructor.
  - destruct (IH (S i) (checkpointSegmentStart c + 1) ltac:(lia) Hd' ltac:(done) Hinc) as (X & last & last' & E1 & E2 & Hall & Hlen).
    rewrite E1, E2. cbn [map head mbind outcome_bind] in *. cbn [default from_option]. cbn [map increasing] in Hinc. destruct Hinc as [Hs' _].
    rewrite !(proj2 (Z.leb_gt _ _)) by (cbn; lia). cbn [default from_option id].
    rewrite !checkpointSegment_inside by lia.
    exists (checkpointSegment A c (checkpointSegmentStart c) (checkpointSegmentStart c') :: X), last, last'. split_and!; [done|done| |cbn in *; lia].
    constructor; [cbn; lia|done].
Qed.

(** The newest segment differs, the others are the same and end inside. *)
Lemma CompactionSegments_app A L L' segments : plain L -> plain L' -> CompactionSegments (A ++ L) = Ok segments -> (1 < length segments)%nat ->
  exists s s' R, segments = s :: R /\ CompactionSegments (A ++ L') = Ok (s' :: R) /\ Forall (fun t => sg_EndMessageIndex t <= zlen A) R.
Proof.
  intros HL HL' E Hlen. unfold CompactionSegments in *. rewrite starts_app in E |- * by done. rewrite !CompactionCheckpoints_app in * by done.
  pose proof (CompactionCheckpoints_starts A) as Hinc. set (cs := CompactionCheckpoints A) in *.
  assert (cs <> []) as Hcs by (intros Hnil; rewrite Hnil in E; cbn [map] in E; injection E as <-; cbn in Hlen; lia).
  destruct (segmentsLoop_app A L L' (map checkpointSegmentStart cs) 0 cs 0) as (X & last & last' & E1 & E2 & HX & _); [done|done|done|done|].
  destruct (map checkpointSegmentStart cs) as [|first starts] eqn:Est; [by destruct cs|].
  assert (0 <= first <= zlen A) as Hfirst by (cbn in Hinc; lia).
  rewrite E1 in E. rewrite E2. cbn [mbind outcome_bind] in E |- *. injection E as <-.
  assert (forall M, plain M -> (if 0 <? first then [plainSegment (A ++ M) 0 first] else []) = (if 0 <? first then [plainSegment A 0 first] else [])) as Hhead.
  { intros M _. case_match; [|done]. by rewrite plainSegment_inside by lia. }
  rewrite !Hhead by done. set (H := if 0 <? first then _ else _).
  assert (forall x, newestFirst (H ++ X ++ [x]) = setIndex x 0 :: imap (fun i s => setIndex s (Z.of_nat (S i))) (rev (H ++ X))) as Hnew.
  { intros x. unfold newestFirst. by rewrite app_assoc, rev_app_distr. }
  rewrite !Hnew. eexists _, _, _. split; [done|]. split; [done|]. apply Forall_lookup_2. intros i t Ht. rewrite list_lookup_imap in Ht.
  apply fmap_Some in Ht as (t0 & Ht0 & ->). apply list_elem_of_lookup_2, list_elem_of_In, in_rev, list_elem_of_In, elem_of_app in Ht0.
  cbn [setIndex sg_EndMessageIndex]. destruct Ht0 as [Ht0|Ht0]; [|rewrite Forall_forall in HX; by apply HX].
  unfold H in Ht0. destruct (0 <? first); [|by apply elem_of_nil in Ht0]. apply list_elem_of_singleton in Ht0 as ->. cbn. lia.
Qed.

(** A selector that does not name the newest segment. *)
Lemma Select_app (s s' : CompactionSegment (Item := Item)) R selector : numbered (s :: R) -> numbered (s' :: R) -> TrimSpace selector = selector -> selector <> [] ->
  (forall indexSet, parseCompactionSelector selector (zlen R) = Ok indexSet -> 0 ∉ indexSet) ->
  SelectCompactionSegments (s :: R) selector = SelectCompactionSegments (s' :: R) selector /\
  (forall sel, SelectCompactionSegments (s :: R) selector = Ok sel -> forall t, t ∈ sel_Segments sel -> t ∈ R).
Proof.
  intros Hn Hn' Ht Hne Hset. pose proof (Hn 0%nat s eq_refl) as H0. pose proof (Hn' 0%nat s' eq_refl) as H0'. cbn in H0, H0'.
  assert (forall x, numbered (x :: R) -> sg_Index x = 0 -> SelectCompactionSegments (x :: R) selector =
    (indexSet ← parseCompactionSelector selector (zlen R);
     let selected := filter (fun segment => sg_Index segment ∈ indexSet) R in
     if (length selected =? 0)%nat then Fail (errSegmentRange (zlen R)) else Ok (MkSelection selector (sortSegments selected)))) as Hsel.
  { intros x Hx H0x. unfold SelectCompactionSegments. rewrite Ht, decide_False by done. cbn [length Nat.eqb]. rewrite maxIndex_numbered by done.
    rewrite zlen_cons. replace (1 + zlen R - 1) with (zlen R) by lia.
    destruct (parseCompactionSelector selector (zlen R)) as [indexSet| |] eqn:E; cbn [mbind outcome_bind]; [|done|done].
    rewrite filter_cons_False; [done|]. rewrite H0x. by apply Hset. }
  rewrite (Hsel s Hn H0), (Hsel s' Hn' H0'). split; [done|]. intros sel. destruct (parseCompactionSelector _ _) as [indexSet| |] eqn:E; cbn [mbind outcome_bind]; [|done|done].
  case_match eqn:El; [done|]. intros [= <-] t Hin. cbn [sel_Segments] in Hin. rewrite sortSegments_ascending in Hin.
  - apply list_elem_of_In, in_rev, list_elem_of_In, list_elem_of_filter in Hin as [_ Hin]. done.
  - assert (filter (fun segment => sg_Index segment ∈ indexSet) R = filter (fun segment => sg_Index segment ∈ indexSet) (s :: R)) as ->.
    { rewrite filter_cons_False; [done|]. rewrite H0. by apply Hset. }
    apply filter_sorted, numbered_sorted, Hn.
Qed.
End segments.

(** ** The selector *)

Lemma TrimSpace_range n : 0 <= n <= maxInt64 -> TrimSpace (lit "1.." ++ Itoa n) = lit "1.." ++ Itoa n.
Proof.
  intros Hn. destruct (Itoa_digits n Hn) as (Hd & Hne & _). apply trimmed_TrimSpace; right; [reflexivity|].
  destruct (Itoa n) as [|x l _] using rev_ind; [done|]. apply Forall_app in Hd as [_ Hd]. apply Forall_inv in Hd. destruct (digit_not_space x Hd) as [Hlt Hsp].
  rewrite app_assoc. by rewrite DecodeLastRune_ascii.
Qed.

Lemma parse_range n : 1 <= n <= maxInt64 -> parseCompactionSelector (lit "1.." ++ Itoa n) n = Ok (∅ ∪ list_to_set (between 1 n)).
Proof.
  intros Hn. assert (0 <= n <= maxInt64) as Hr by lia. destruct (Itoa_digits n Hr) as (Hd & Hne & _). unfold parseCompactionSelector. rewrite decide_False by done.
  assert (Split (lit "1.." ++ Itoa n) (lit ",") = [lit "1.." ++ Itoa n]) as ->.
  { apply Split_None. change (lit ",") with [Byte.x2c]. apply Index_absent. apply not_elem_of_app. split; [by apply (bool_decide_unpack _); vm_compute|]. by apply digits_absent. }
  cbn [selectorParts]. rewrite TrimSpace_range, decide_False by done.
  assert (Contains (lit "1.." ++ Itoa n) (lit "..") = true) as -> by (apply Contains_spec; exists (lit "1"), (Itoa n); done).
  assert (Index (lit "1" ++ lit ".." ++ Itoa n) (lit "..") = Some (length (lit "1"))) as Hi.
  { change (lit "..") with [Byte.x2e; Byte.x2e]. rewrite Index_skip by (by apply (bool_decide_unpack _); vm_compute). by rewrite Index_here. }
  unfold parseCompactionSelectorRange. change (lit "1.." ++ Itoa n) with (lit "1" ++ lit ".." ++ Itoa n) at 1. rewrite Split_part by done.
  rewrite (Split_None (Itoa n)) by (change (lit "..") with [Byte.x2e; Byte.x2e]; by apply Index_absent, digits_absent).
  change (bool_decide (lit "1" = [])) with false. rewrite bool_decide_eq_false_2 by done. cbn [orb].
  unfold parseCompactionSelectorIndex. change (Atoi (TrimSpace (lit "1"))) with (Some 1). cbv iota beta.
  rewrite (proj2 (Z.ltb_ge n 1)) by lia. change (1 <? 0) with false. cbn [orb mbind outcome_bind]. rewrite TrimSpace_digits, Atoi_Itoa by done.
  rewrite (proj2 (Z.ltb_ge n 0)), (proj2 (Z.ltb_ge n n)) by lia. cbn [orb mbind outcome_bind]. by rewrite (proj2 (Z.ltb_ge n 1)) by lia.
Qed.

Lemma range_not_newest n : 0 ∉ (∅ ∪ list_to_set (between 1 n) : gset Z).
Proof.
  intros [H|H]%elem_of_union; [by apply elem_of_empty in H|]. apply elem_of_list_to_set in H. unfold between in H.
  apply list_elem_of_fmap in H as (i & E & _). lia.
Qed.

(** ** Cleaning *)

Definition live (ms : list TranscriptMessage) : Prop := Forall (fun m => tm_Compaction m = None) ms.

Lemma mapChanged_same {A} (f : A -> A * bool) xs : (forall x, (f x).2 = false -> (f x).1 = x) -> (mapChanged f xs).2 = false -> map (fun x => (f x).1) xs = xs.
Proof.
  intros Hf. unfold mapChanged. cbn [snd]. induction xs as [|x xs IH]; [done|]. cbn [existsb map]. intros [Hx Hxs]%orb_false_iff. by rewrite Hf, IH.
Qed.

Lemma stripSummary_same m : (stripSummary m).2 = false -> (stripSummary m).1 = m.
Proof.
  unfold stripSummary. destruct (tm_Compaction m) as [md|]; [|done]. destruct (negb _); [done|]. destruct (stripPriorReorientInjectionSpans _) as [text textChanged].
  destruct (stripPriorReorientInjectionMetadata md) as [md' mdChanged]. cbn [fst snd]. by intros [-> ->]%orb_false_iff.
Qed.

Definition stripped (ms : list TranscriptMessage) : list TranscriptMessage := map (fun m => (stripSummary m).1) ms.

Lemma strip_stripped ms : (stripPriorReorientInjections ms).1 = stripped ms.
Proof.
  unfold stripPriorReorientInjections. pose proof (mapChanged_same stripSummary ms stripSummary_same) as H. unfold mapChanged in *. cbn [snd] in H.
  destruct (existsb _ ms); [done|]. cbn [fst]. symmetry. by apply H.
Qed.

Lemma strip_flag ms : (stripPriorReorientInjections ms).2 = existsb (fun m => (stripSummary m).2) ms.
Proof. unfold stripPriorReorientInjections, mapChanged. by destruct (existsb _ ms). Qed.

Lemma stripped_live ms : live ms -> stripped ms = ms.
Proof. unfold stripped. induction 1 as [|m ms Hm _ IH]; [done|]. cbn [map]. rewrite IH. unfold stripSummary. by rewrite Hm. Qed.

Lemma flag_live ms tail : live tail -> existsb (fun m => (stripSummary m).2) (ms ++ tail) = existsb (fun m => (stripSummary m).2) ms.
Proof.
  intros H. rewrite existsb_app. assert (existsb (fun m => (stripSummary m).2) tail = false) as ->; [|by rewrite orb_false_r].
  induction H as [|m tail Hm _ IH]; [done|]. cbn [existsb]. rewrite IH. unfold stripSummary. by rewrite Hm.
Qed.

Lemma stripSummary_compaction m : tm_Compaction (stripSummary m).1 = None <-> tm_Compaction m = None.
Proof.
  unfold stripSummary. destruct (tm_Compaction m) as [md|] eqn:E; [|by cbn; rewrite E]. split; [|done]. destruct (negb _); [cbn; congruence|].
  destruct (stripPriorReorientInjectionSpans _) as [text textChanged], (stripPriorReorientInjectionMetadata md) as [md' mdChanged]. cbn [fst].
  destruct mdChanged, textChanged; cbn; congruence.
Qed.

Section collapse.
Context (toLowerRune : Z -> Z).
Abbreviation key := (repeatedRunKey toLowerRune).
Abbreviation collapse := (collapseRepeatedRuns toLowerRune).

Lemma runEnd_le k ms : (runEnd toLowerRune k ms <= length ms)%nat.
Proof. induction ms as [|m ms IH]; cbn [runEnd length]; [done|]. case_bool_decide; lia. Qed.

Lemma collapseLoop_fuel f g ms : (length ms <= f)%nat -> (length ms <= g)%nat -> collapseLoop toLowerRune f ms = collapseLoop toLowerRune g ms.
Proof.
  revert g ms. induction f as [|f IH]; intros g [|m ms] Hf Hg; try (cbn in Hf; lia); try (by destruct g). destruct g as [|g]; [cbn in Hg; lia|]. cbn [collapseLoop length] in *.
  case_bool_decide; [f_equal; apply IH; lia|]. pose proof (runEnd_le (key m) ms). case_match; [do 2 f_equal|f_equal]; apply IH; rewrite length_drop; lia.
Qed.

Lemma collapse_cons m ms : collapse (m :: ms) =
  if bool_decide (key m = []) then m :: collapse ms else
  let n := runEnd toLowerRune (key m) ms in
  if (S n <? repeatedRunCollapseThreshold)%nat then m :: take n ms ++ collapse (drop n ms) else collapsedTurn m (S n) :: collapse (drop n ms).
Proof.
  unfold collapseRepeatedRuns. cbn [length collapseLoop]. case_bool_decide; [done|]. cbn zeta. pose proof (runEnd_le (key m) ms).
  rewrite (collapseLoop_fuel (length ms) (length (drop (runEnd toLowerRune (key m) ms) ms)) (drop (runEnd toLowerRune (key m) ms) ms)); [done|rewrite length_drop; lia|done].
Qed.

Lemma runEnd_stop k ms c rest : k <> [] -> key c = [] -> runEnd toLowerRune k (ms ++ c :: rest) = runEnd toLowerRune k ms.
Proof.
  intros Hk Hc. induction ms as [|m ms IH]; cbn [app runEnd]; [by rewrite bool_decide_eq_false_2 by congruence|]. by rewrite IH.
Qed.

(** A compaction ends a run and starts none. *)
Lemma collapse_split ms c rest : tm_Compaction c <> None -> collapse (ms ++ c :: rest) = collapse ms ++ c :: collapse rest.
Proof.
  intros Hc. assert (key c = []) as Hk by (unfold repeatedRunKey; by destruct (tm_Compaction c)). remember (length ms) as n eqn:En. revert ms En.
  induction (lt_wf n) as [n _ IH]. intros [|m ms] ->.
  - cbn [app]. rewrite collapse_cons, bool_decide_eq_true_2 by done. done.
  - cbn [app]. rewrite !collapse_cons. case_bool_decide as Hm; [by rewrite (IH (length ms)) by (cbn; lia || done)|]. cbn zeta. rewrite runEnd_stop by done.
    set (k := runEnd toLowerRune (key m) ms). pose proof (runEnd_le (key m) ms) as Hle. fold k in Hle. rewrite take_app_le, drop_app_le by done.
    rewrite (IH (length (drop k ms))) by (rewrite ?length_drop; cbn; lia || done). case_match; [cbn [app]; by rewrite <- app_assoc|done].
Qed.

Lemma collapse_live ms : live ms -> live (collapse ms).
Proof.
  remember (length ms) as n eqn:En. revert ms En. induction (lt_wf n) as [n _ IH]. intros [|m ms] -> H; [done|]. apply Forall_cons in H as [Hm H].
  rewrite collapse_cons. case_bool_decide; [constructor; [done|]; apply (IH (length ms)); [cbn; lia|done|done]|]. cbn zeta. set (k := runEnd _ _ ms).
  assert (live (collapse (drop k ms))) as Hrest by (apply (IH (length (drop k ms))); [rewrite length_drop; cbn; lia|done|by apply Forall_drop]).
  case_match; constructor; try done. apply Forall_app. split; [by apply Forall_take|done].
Qed.

(** The messages before and with the latest compaction, cleaned. *)
Definition cleaned (ms : list TranscriptMessage) : list TranscriptMessage := collapse (stripped ms).

Lemma cleaned_split pre c after : tm_Compaction c <> None -> live after ->
  cleaned (pre ++ c :: after) = (cleaned pre ++ [(stripSummary c).1]) ++ collapse after.
Proof.
  intros Hc Ha. unfold cleaned. unfold stripped at 1. rewrite map_app. cbn [map]. fold (stripped pre). fold (stripped after). rewrite (stripped_live after) by done.
  rewrite collapse_split by (by rewrite stripSummary_compaction). by rewrite <- app_assoc.
Qed.

Lemma cleaned_live ms : live ms -> live (cleaned ms).
Proof. intros H. unfold cleaned. rewrite stripped_live by done. by apply collapse_live. Qed.

(** The latest compaction of a conversation. *)
Lemma latest_compaction ms : live ms \/ exists pre c after, ms = pre ++ c :: after /\ tm_Compaction c <> None /\ live after.
Proof.
  induction ms as [|m ms IH] using rev_ind; [left; constructor|]. destruct (tm_Compaction m) eqn:E.
  - right. exists ms, m, []. split_and!; [done|by rewrite E|constructor].
  - destruct IH as [IH|(pre & c & after & -> & Hc & Ha)]; [left; apply Forall_app; split; [done|by constructor]|].
    right. exists pre, c, (after ++ [m]). rewrite <- app_assoc. split_and!; [done|done|]. apply Forall_app. split; [done|by constructor].
Qed.
End collapse.

(** ** The export of earlier segments *)

(** The codec of a selection keeps the ranges of its segments. *)
Definition keepsRanges `{ExportCodecs} : Prop :=
  forall s s', sanitizeCompactionSelectionForExport s = Ok s' -> map spanOf (sel_Segments s') = map spanOf (sel_Segments s).

Lemma segmentMessages_inside A L t : sg_EndMessageIndex t <= zlen A -> segmentMessages (A ++ L) t = segmentMessages A t.
Proof.
  intros H. unfold segmentMessages. pose proof (zlen_nonneg L). rewrite zlen_app. replace (Z.min (sg_EndMessageIndex t) (zlen A + zlen L)) with (sg_EndMessageIndex t) by lia.
  replace (Z.min (sg_EndMessageIndex t) (zlen A)) with (sg_EndMessageIndex t) by lia. case_match; [done|]. apply slice_inside; lia.
Qed.

Lemma selected_inside A L (sel : Selection) : Forall (fun t => sg_EndMessageIndex t <= zlen A) (sel_Segments sel) ->
  selectedCompactionSegmentMessages (A ++ L) sel = selectedCompactionSegmentMessages A sel.
Proof.
  unfold selectedCompactionSegmentMessages. induction 1 as [|t ts Ht _ IH]; [done|]. cbn [map concat]. by rewrite segmentMessages_inside, IH.
Qed.

Lemma inside_spans (ts us : Segments) n : map spanOf us = map spanOf ts -> Forall (fun t => sg_EndMessageIndex t <= n) ts -> Forall (fun t => sg_EndMessageIndex t <= n) us.
Proof.
  revert us. induction ts as [|t ts IH]; intros [|u us] E H; try done. cbn [map] in E. injection E as _ Eend E. apply Forall_cons in H as [Ht H].
  constructor; [by rewrite Eend|]. by apply IH.
Qed.

Lemma filterSegments_spans content (ts us : Segments) : filterSegments content ts = Ok us -> map spanOf us = map spanOf ts.
Proof.
  revert us. induction ts as [|t ts IH]; intros us; cbn [filterSegments]; [by intros [= <-]|].
  repeat (match goal with |- context [mbind _ ?m] => destruct m eqn:? end; cbn [mbind outcome_bind]; try done).
  all: try (intros [= <-]; cbn [map]; f_equal; by apply IH).
Qed.

Lemma filterSelection_spans (sel sel' : Selection) content : filterCompactionSelectionItems sel content = Ok sel' -> map spanOf (sel_Segments sel') = map spanOf (sel_Segments sel).
Proof.
  unfold filterCompactionSelectionItems. destruct (filterSegments _ _) as [us| |] eqn:E; repeat case_match; cbn [mbind outcome_bind]; try done; intros [= <-]; try done;
    by apply filterSegments_spans in E.
Qed.

Lemma entries_plain ms : live ms -> plain (map entryOf ms).
Proof. induction 1 as [|m ms Hm _ IH]; [constructor|]. constructor; [|done]. unfold entryOf. cbn. by rewrite Hm. Qed.

Section export.
Context (isPrint : Z -> bool) `{TurnCodecs} `{ExportCodecs} (Hranges : keepsRanges).

(** An export of chosen segments that end inside reads nothing behind. *)
Lemma export_inside record options A L L' segments segments' :
  CompactionSegments (map entryOf (A ++ L)) = Ok segments -> CompactionSegments (map entryOf (A ++ L')) = Ok segments' -> eo_LastN options <= 0 ->
  (forall compaction, NormalizeCompactionExportOptions (eo_Compaction options) (eo_HistoryStart options) (eo_LastN options) = Ok compaction ->
     SelectCompactionSegments segments (ce_IncludeSelector compaction) = SelectCompactionSegments segments' (ce_IncludeSelector compaction) /\
     forall sel, SelectCompactionSegments segments (ce_IncludeSelector compaction) = Ok sel -> Forall (fun t => sg_EndMessageIndex t <= zlen A) (sel_Segments sel)) ->
  exportMessages isPrint record (A ++ L) options = exportMessages isPrint record (A ++ L') options.
Proof.
  intros E E' HlastN Hsel. unfold exportMessages. destruct (NormalizeCompactionExportOptions _ _ _) as [compaction| |]; cbn [mbind outcome_bind]; [|done|done].
  rewrite E, E'. cbn [liftSegments mbind outcome_bind]. destruct (Hsel compaction eq_refl) as [<- Hin]. clear Hsel E E'.
  destruct (SelectCompactionSegments _ _) as [sel| |]; cbn [liftSelect mbind outcome_bind]; [|done|done]. specialize (Hin sel eq_refl).
  unfold applyLastNToSegmentSelection. rewrite !(proj2 (Z.leb_le (eo_LastN options) 0)) by done. cbn [mbind outcome_bind].
  assert (checkResolved record (A ++ L) sel options = checkResolved record (A ++ L') sel options) as -> by (unfold checkResolved; by rewrite !selected_inside).
  destruct (checkResolved _ _ _ _); cbn [mbind outcome_bind]; [|done|done]. destruct (filterCompactionSelectionItems _ _) as [sel'| |] eqn:Ef; cbn [mbind outcome_bind]; [|done|done].
  destruct (sanitizeCompactionSelectionForExport sel') as [sel''| |] eqn:Es; cbn [mbind outcome_bind]; [|done|done].
  apply filterSelection_spans in Ef. apply Hranges in Es. rewrite Ef in Es. rewrite !selected_inside; [done|..]; by eapply inside_spans.
Qed.

Lemma maxIndex_segments ms segments : CompactionSegments (map entryOf ms) = Ok segments -> numbered segments /\ maxCompactionSegmentIndex segments = zlen segments - 1.
Proof.
  intros E. destruct (CompactionSegments_spec (map entryOf ms)) as (segments' & E' & Hne & Hn & _). rewrite E in E'. injection E' as <-. split; [done|]. by apply maxIndex_numbered.
Qed.

(** The recovered segments of a compacted conversation, with other messages behind. *)
Lemma recovered_inside record options A L L' segments : live L -> live L' -> CompactionSegments (map entryOf (A ++ L)) = Ok segments ->
  (1 < length segments)%nat -> zlen segments <= maxInt64 ->
  exists selector, reorientSelector (A ++ L) false = Ok selector /\ reorientSelector (A ++ L') false = Ok selector /\
    exportMessages isPrint record (A ++ L) (reorientExportOptions options selector) = exportMessages isPrint record (A ++ L') (reorientExportOptions options selector).
Proof.
  intros HL HL' E Hlen Hmax. pose proof (entries_plain L HL) as HpL. pose proof (entries_plain L' HL') as HpL'. pose proof E as E0. rewrite map_app in E0.
  destruct (CompactionSegments_app _ _ (map entryOf L') _ HpL HpL' E0 Hlen) as (s & s' & R & -> & E' & Hin). rewrite <- map_app in E'.
  destruct (maxIndex_segments _ _ E) as [Hn Hm]. destruct (maxIndex_segments _ _ E') as [Hn' Hm']. rewrite zlen_cons in Hm, Hm', Hmax. cbn [length] in Hlen.
  assert (1 <= zlen R <= maxInt64) as HR by (unfold zlen in *; lia). exists (lit "1.." ++ Itoa (zlen R)). unfold reorientSelector. rewrite E, E', Hm, Hm'.
  replace (1 + zlen R - 1) with (zlen R) by lia. rewrite (proj2 (Z.ltb_ge (zlen R) 1)) by lia. split; [done|]. split; [done|].
  eapply export_inside; [done|done|done|]. intros compaction. unfold NormalizeCompactionExportOptions, reorientExportOptions.
  cbn [eo_Compaction eo_HistoryStart eo_LastN ce_IncludeSelector ce_FullHistory]. change (0 <? 0) with false. cbv iota. cbn [andb]. rewrite TrimSpace_range by lia.
  rewrite bool_decide_eq_false_2 by done. intros [= <-]. cbn [ce_IncludeSelector].
  destruct (Select_app s s' R (lit "1.." ++ Itoa (zlen R)) Hn Hn') as [Hsame Hsel]; [apply TrimSpace_range; lia|done| |].
  { intros indexSet. rewrite parse_range by lia. intros [= <-]. apply range_not_newest. }
  split; [done|]. intros sel Es. apply Forall_forall. intros t Ht. rewrite Forall_forall in Hin. unfold zlen in *. rewrite length_map in Hin. by apply Hin, (Hsel sel).
Qed.
End export.

(** ** Claims *)

(** C15. The snapshot of a compacted conversation stands still.  When there is history before the
    latest compaction, messages that are appended to the conversation and are no compaction
    themselves change nothing of what is recovered: not the text, not the fingerprint in the
    cursors, not the counts and warnings.  So the offset of a cursor means the same byte on
    every call. *)
Theorem snapshot_stable (isPrint : Z -> bool) (toLowerRune : Z -> Z) `{TurnCodecs} `{ExportCodecs} current options messages tail segments :
  keepsRanges -> ro_SyntheticPreCompact options = false -> live tail ->
  CompactionSegments (map entryOf (cleaned toLowerRune messages)) = Ok segments -> (1 < length segments)%nat -> zlen segments <= maxInt64 ->
  snapshotFrom isPrint toLowerRune current options (messages ++ tail) = snapshotFrom isPrint toLowerRune current options messages.
Proof.
  intros Hranges Hsyn Htail E Hlen Hmax. destruct (latest_compaction messages) as [Hlive|(pre & c & after & -> & Hc & Hafter)].
  { exfalso. apply (cleaned_live toLowerRune), entries_plain in Hlive. unfold CompactionSegments in E.
    rewrite <- (app_nil_l (map entryOf _)) in E. rewrite starts_app in E by done. injection E as <-. cbn in Hlen. lia. }
  unfold snapshotFrom. rewrite (surjective_pairing (stripPriorReorientInjections ((pre ++ c :: after) ++ tail))), (surjective_pairing (stripPriorReorientInjections (pre ++ c :: after))).
  rewrite !strip_stripped, !strip_flag, flag_live by done. fold (cleaned toLowerRune ((pre ++ c :: after) ++ tail)). fold (cleaned toLowerRune (pre ++ c :: after)).
  rewrite <- app_assoc. change ((c :: after) ++ tail) with (c :: (after ++ tail)). rewrite (cleaned_split toLowerRune pre c (after ++ tail)) by (done || by apply Forall_app).
  rewrite (cleaned_split toLowerRune pre c after) in * by done. set (A := cleaned toLowerRune pre ++ [(stripSummary c).1]) in *.
  assert (live (collapseRepeatedRuns toLowerRune after)) as HL by (by apply collapse_live).
  assert (live (collapseRepeatedRuns toLowerRune (after ++ tail))) as HL' by (apply collapse_live; by apply Forall_app).
  destruct (recovered_inside isPrint Hranges current options A _ _ segments HL HL' E Hlen Hmax) as (selector & S1 & S2 & Hexp). rewrite Hsyn, S1, S2.
  cbn [mbind outcome_bind]. rewrite Hexp. assert (forall L, live L -> reorientFingerprint (A ++ L) = reorientFingerprint A) as Hfp.
  { intros L HL0. unfold reorientFingerprint. rewrite map_app, CompactionCheckpoints_app; [done|]. by apply entries_plain. }
  by rewrite !Hfp.
Qed.

(** ** Witnesses *)

Definition says (role text : bytes) : TranscriptMessage :=
  MkTranscriptMessage (lit "u") [] [] role (lit "visible") None None text [] false [] [] [].

Definition boundaryMetadata : CompactionMetadata :=
  MkFullMetadata CompactionKindBoundary (lit "auto") 0 0 0 0 0 [] [] [] [] [] [] [] [] [] [] [] [].

Definition compactedHere : TranscriptMessage :=
  MkTranscriptMessage (lit "boundary-1") [] [] (lit "system") (lit "visible") (Some boundaryMetadata) None [] [] false [] [] [].

Definition compactedConversation : list TranscriptMessage :=
  [says (lit "user") (lit "please fix it"); says (lit "assistant") (lit "fixed"); compactedHere; says (lit "user") (lit "thanks")].

Definition laterMessages : list TranscriptMessage := [says (lit "assistant") (lit "welcome"); says (lit "user") (lit "next")].

#[local] Instance recoverTurnCodecs : TurnCodecs := { FormatTime := fun _ => lit "noon"; UnmarshalDescription := fun _ => None }.

(** Codecs that keep a selection of the first two messages and refuse others. *)
#[local] Instance recoverCodecs : ExportCodecs := {
  MarshalSelection := fun s => if bool_decide (map spanOf (sel_Segments s) = [(0, 2)]) then Some (lit "null") else None;
  UnmarshalSelection := fun _ => Some (MkSelection (lit "1..1") [plainSegment [] 0 2]);
  MarshalMetadata := fun _ => None;
  UnmarshalMetadata := fun _ => None;
  MarshalRawExport := fun _ => None;
  MarshalShapedExport := fun _ => None;
  MarshalBlock := fun _ => None;
  MarshalTurns := fun _ => None;
}.

Definition recoverOptions : ReorientOptions := normalizeReorientOptions (MkReorientOptions (lit "claude:a") [] 0 0 false false).

Definition noPrintable : Z -> bool := fun _ => false.

Lemma recoverCodecs_ranges : keepsRanges.
Proof.
  intros s s'. unfold sanitizeCompactionSelectionForExport, sanitizeExportValue. cbn [MarshalSelection recoverCodecs]. case_bool_decide as E; [|done].
  intros [= <-]. by rewrite E.
Qed.

Example recovered_sample : sn_Body <$> (match snapshotFrom noPrintable asciiLower CvRecord.emptyRecord recoverOptions compactedConversation with Ok s => Some s | _ => None end) =
  Some (lit "### User" ++ newline ++ lit "please fix it" ++ newline ++ lit "### Assistant" ++ newline ++ lit "fixed" ++ newline).
Proof. vm_compute. reflexivity. Qed.

Lemma snapshot_stable_witness :
  (1 < length (match CompactionSegments (map entryOf (cleaned asciiLower compactedConversation)) with Ok segments => segments | _ => [] end))%nat /\
  snapshotFrom noPrintable asciiLower CvRecord.emptyRecord recoverOptions (compactedConversation ++ laterMessages) =
  snapshotFrom noPrintable asciiLower CvRecord.emptyRecord recoverOptions compactedConversation.
Proof.
  split; [vm_compute; lia|]. eapply snapshot_stable; [exact recoverCodecs_ranges|reflexivity|by repeat constructor|vm_compute; reflexivity|vm_compute; lia|vm_compute; discriminate].
Defined.
