(* ===== verification/GoPath.v ===== *)
(** * GoPath: [path.Match]

    Glob patterns over names with slashes.  [Match_bad] says that whether a pattern is
    malformed does not depend on the name it is matched with. *)

From S2P Require Import Prelude GoUtf8 GoStrconv.

Open Scope Z_scope.

Definition slash : Byte.byte := Byte.x2f.

(** [scanChunk] behind the stars: the chunk up to the next star outside of brackets, and the
    rest. *)
Fixpoint scanLoop (inrange : bool) (pattern : bytes) : bytes * bytes :=
  match pattern with
  | [] => ([], [])
  | b :: rest =>
      if bool_decide (b = backslash) then
        match rest with
        | [] => ([b], [])
        | c :: rest => let '(chunk, rest) := scanLoop inrange rest in (b :: c :: chunk, rest)
        end
      else if bool_decide (b = Byte.x2a) && negb inrange then ([], pattern)
      else let inrange := if bool_decide (b = Byte.x5b) then true else if bool_decide (b = Byte.x5d) then false else inrange in
           let '(chunk, rest) := scanLoop inrange rest in (b :: chunk, rest)
  end.

Fixpoint scanChunk (star : bool) (pattern : bytes) : bool * bytes * bytes :=
  match pattern with
  | b :: rest => if bool_decide (b = Byte.x2a) then scanChunk true rest else let '(chunk, rest) := scanLoop false pattern in (star, chunk, rest)
  | [] => (star, [], [])
  end.

(** [getEsc]; [None] is [ErrBadPattern]. *)
Definition getEsc (chunk : bytes) : option (Z * bytes) :=
  match chunk with
  | [] => None
  | b :: rest =>
      if bool_decide (b = Byte.x2d) || bool_decide (b = Byte.x5d) then None
      else let chunk := if bool_decide (b = backslash) then rest else chunk in
           match chunk with
           | [] => None
           | _ => let '(r, n) := DecodeRune chunk in
                  if (n =? 1)%nat && (r =? RuneError) then None
                  else match drop n chunk with [] => None | nchunk => Some (r, nchunk) end
           end
  end.

(** The ranges of a class behind the bracket; [r] is the rune to match. *)
Fixpoint classLoop (fuel : nat) (chunk : bytes) (r : Z) (matched : bool) (first : bool) : option (bool * bytes) :=
  match fuel with
  | O => None
  | S fuel =>
      match chunk with
      | b :: rest =>
          if bool_decide (b = Byte.x5d) && negb first then Some (matched, rest)
          else
            '(lo, chunk) ← getEsc chunk;
            '(hi, chunk) ← match chunk with
                           | c :: rest => if bool_decide (c = Byte.x2d) then getEsc rest else Some (lo, chunk)
                           | [] => Some (lo, chunk)
                           end;
            classLoop fuel chunk r (matched || (lo <=? r) && (r <=? hi)) false
      | [] => None
      end
  end.

(** [matchChunk]: [failed] goes on through the chunk, whose form is checked in any case.  The
    result is the rest of the name, if the chunk matches. *)
Fixpoint matchLoop (fuel : nat) (failed : bool) (chunk s : bytes) : option (option bytes) :=
  match fuel with
  | O => None
  | S fuel =>
      match chunk with
      | [] => Some (if failed then None else Some s)
      | b :: rest =>
          let failed := failed || match s with [] => true | _ => false end in
          if bool_decide (b = Byte.x5b) then
            let '(r, n) := if failed then (0, 0%nat) else DecodeRune s in
            let '(negated, rest) := match rest with c :: rest' => if bool_decide (c = Byte.x5e) then (true, rest') else (false, rest) | [] => (false, rest) end in
            '(matched, rest) ← classLoop (S (length rest)) rest r false true;
            matchLoop fuel (failed || Bool.eqb matched negated) rest (drop n s)
          else if bool_decide (b = Byte.x3f) then
            let bad := match s with c :: _ => bool_decide (c = slash) | [] => false end in
            matchLoop fuel (failed || bad) rest (if failed then s else drop (DecodeRune s).2 s)
          else
            let literal := if bool_decide (b = backslash) then rest else chunk in
            match literal with
            | [] => None
            | c :: rest =>
                let bad := match s with d :: _ => negb (bool_decide (c = d)) | [] => false end in
                matchLoop fuel (failed || bad) rest (if failed then s else drop 1 s)
            end
      end
  end.

Definition matchChunk (chunk s : bytes) : option (option bytes) := matchLoop (S (length chunk)) false chunk s.

(** The search behind a star: at [name[i+1:]] for growing [i], not past a slash.  [last] says
    that no pattern is left. *)
Fixpoint starLoop (chunk name : bytes) (last : bool) : option (option bytes) :=
  match name with
  | [] => Some None
  | b :: rest =>
      if bool_decide (b = slash) then Some None
      else
        found ← matchChunk chunk rest;
        match found with
        | Some t => if last && negb (bool_decide (t = [])) then starLoop chunk rest last else Some (Some t)
        | None => starLoop chunk rest last
        end
  end.

(** The check of what is left of a pattern that does not match. *)
Fixpoint restLoop (fuel : nat) (pattern : bytes) : option bool :=
  match fuel with
  | O => Some false
  | S fuel =>
      match pattern with
      | [] => Some false
      | _ => let '(_, chunk, pattern) := scanChunk false pattern in
             _ ← matchChunk chunk [];
             restLoop fuel pattern
      end
  end.

Fixpoint patternLoop (fuel : nat) (pattern name : bytes) : option bool :=
  match fuel with
  | O => Some false
  | S fuel =>
      match pattern with
      | [] => Some (bool_decide (name = []))
      | _ =>
          let '(star, chunk, pattern) := scanChunk false pattern in
          if star && bool_decide (chunk = []) then Some (bool_decide (slash ∉ name))
          else
            found ← matchChunk chunk name;
            match found with
            | Some t =>
                if bool_decide (t = []) || negb (bool_decide (pattern = [])) then patternLoop fuel pattern t
                else if star then
                  skipped ← starLoop chunk name (bool_decide (pattern = []));
                  match skipped with Some t => patternLoop fuel pattern t | None => restLoop fuel pattern end
                else restLoop fuel pattern
            | None =>
                if star then
                  skipped ← starLoop chunk name (bool_decide (pattern = []));
                  match skipped with Some t => patternLoop fuel pattern t | None => restLoop fuel pattern end
                else restLoop fuel pattern
            end
      end
  end.

Definition Match (pattern name : bytes) : option bool := patternLoop (S (length pattern)) pattern name.

Example match_sample :
  Match (lit "claude-*") (lit "claude-opus-5") = Some true /\ Match (lit "*/gpt-[4-6]*") (lit "openai/gpt-5.1") = Some true /\
  Match (lit "*-mini") (lit "gpt-mini-mini") = Some true /\ Match (lit "gpt-?") (lit "gpt-55") = Some false /\ Match (lit "*") (lit "a/b") = Some false /\
  Match (lit "a[") (lit "zzz") = None /\ Match (lit "[^a-c]x\*") (lit "dx*") = Some true /\ Match (lit "*a*b*c") (lit "xxaxbxxbxc") = Some true.
Proof. vm_compute. split_and!; reflexivity. Qed.

(** ** Malformed patterns *)

Lemma classLoop_bad fuel chunk r r' matched matched' first :
  snd <$> classLoop fuel chunk r matched first = snd <$> classLoop fuel chunk r' matched' first.
Proof.
  revert chunk matched matched' first. induction fuel as [|fuel IH]; intros chunk matched matched' first; [done|]. cbn [classLoop].
  destruct chunk as [|b rest]; [done|]. destruct (_ && _); [done|]. destruct (getEsc _) as [[lo chunk]|]; [|done]. cbn [mbind option_bind].
  destruct (match chunk with [] => _ | _ => _ end) as [[hi chunk']|]; [|done]. cbn [mbind option_bind]. apply IH.
Qed.

(** Whether a chunk is well formed does not depend on the name. *)
Lemma matchLoop_bad fuel failed failed' chunk s s' : is_Some (matchLoop fuel failed chunk s) <-> is_Some (matchLoop fuel failed' chunk s').
Proof.
  revert failed failed' chunk s s'. induction fuel as [|fuel IH]; intros failed failed' chunk s s'; [done|]. cbn [matchLoop].
  destruct chunk as [|b rest]; [by split; intros _; eexists|]. destruct (bool_decide (b = Byte.x5b)).
  - destruct (if failed || _ then _ else _) as [r n]. destruct (if failed' || _ then _ else _) as [r' n'].
    destruct (match rest with [] => _ | _ => _ end) as [negated rest']. pose proof (classLoop_bad (S (length rest')) rest' r r' false false true) as H.
    destruct (classLoop _ rest' r _ _) as [[m c]|], (classLoop _ rest' r' _ _) as [[m' c']|]; cbn in H; simplify_eq; [|done]. cbn [mbind option_bind]. apply IH.
  - destruct (bool_decide (b = Byte.x3f)); [apply IH|]. destruct (if bool_decide (b = backslash) then rest else b :: rest); [done|apply IH].
Qed.

Lemma matchChunk_bad chunk s : is_Some (matchChunk chunk s) <-> is_Some (matchChunk chunk []).
Proof. apply matchLoop_bad. Qed.

Lemma starLoop_Some chunk name last : is_Some (matchChunk chunk []) -> is_Some (starLoop chunk name last).
Proof.
  intros H. induction name as [|b rest IH]; [done|]. cbn [starLoop]. case_bool_decide; [done|].
  destruct (proj2 (matchChunk_bad chunk rest) H) as [found ->]. cbn [mbind option_bind]. destruct found; [|done]. by destruct (_ && _).
Qed.

Lemma scanLoop_empty pattern rest : scanLoop false pattern = ([], rest) -> match pattern with [] => True | b :: _ => b = Byte.x2a end.
Proof.
  destruct pattern as [|b p]; [done|]. cbn [scanLoop]. case_bool_decide; [destruct p as [|c p]; [done|]; by destruct (scanLoop false p)|].
  destruct (bool_decide (b = Byte.x2a)) eqn:E; [by apply bool_decide_eq_true in E|]. cbn [andb]. by destruct (scanLoop _ p).
Qed.

Lemma scanChunk_star star pattern star' rest : scanChunk star pattern = (star', [], rest) -> rest = [].
Proof.
  revert star. induction pattern as [|b p IH]; intros star E; [by injection E|]. cbn [scanChunk] in E. case_bool_decide as Hb; [by eapply IH|].
  destruct (scanLoop false (b :: p)) as [chunk r] eqn:Es. injection E as _ -> ->. by apply scanLoop_empty in Es.
Qed.

Lemma patternLoop_bad fuel pattern name : is_Some (patternLoop fuel pattern name) <-> is_Some (restLoop fuel pattern).
Proof.
  revert pattern name. induction fuel as [|fuel IH]; intros pattern name; [by split; intros _; eexists|]. cbn [patternLoop restLoop].
  destruct pattern as [|b p]; [by split; intros _; eexists|]. destruct (scanChunk false (b :: p)) as [[star chunk] rest] eqn:Es.
  destruct (star && bool_decide (chunk = [])) eqn:Ec.
  { apply andb_true_iff in Ec as [_ ->%bool_decide_eq_true]. apply scanChunk_star in Es as ->. split; intros _; [|by eexists]. cbn. destruct fuel; by eexists. }
  pose proof (matchChunk_bad chunk name) as Hm.
  destruct (matchChunk chunk []) as [found0|] eqn:E0; cbn [mbind option_bind]; [|destruct (matchChunk chunk name); [destruct Hm as [Hm _]; by destruct Hm|done]].
  destruct (proj2 Hm ltac:(by eexists)) as [found ->]. cbn [mbind option_bind].
  destruct (starLoop_Some chunk name (bool_decide (rest = [])) ltac:(by eexists)) as [skipped ->]. cbn [mbind option_bind].
  destruct found as [t|]; [destruct (_ || _); [apply IH|]|]; destruct star; try done; destruct skipped; (apply IH || done).
Qed.

(** A pattern is malformed for every name or for none. *)
Lemma Match_bad pattern name name' : Match pattern name = None <-> Match pattern name' = None.
Proof. unfold Match. rewrite !eq_None_not_Some, (patternLoop_bad _ _ name), (patternLoop_bad _ _ name'). done. Qed.
