(* ===== verification/AdModel.v ===== *)
(** * AdModel: the model registry of the adapter (adapter/model/models.go, config/model_catalog.go)

    The registry is built from the declared catalog: every canonical model, its aliases and
    the aliases generated from the dimensions of its profile are entries under their
    normalized name; routes are globs; what nothing claims goes to the configured passthrough.
    Logging is left out; errors carry what their messages show. *)

From S2P Require Import Prelude GoUtf8 GoStrconv GoText GoSort GoFloat GoPath.

Open Scope Z_scope.

(** ** Configuration *)

Record AdapterModelTransportLimit := MkTransportLimit { tl_Transport : bytes; tl_Tokens : Z }.

Record AdapterModelProfileContext := MkContext {
  pc_Name : bytes; pc_Tokens : Z; pc_AliasSuffix : bytes; pc_WireSuffix : bytes; pc_TransportLimits : list AdapterModelTransportLimit;
}.

Record AdapterModelThinkingProfile := MkThinkingProfile { tp_Mode : bytes; tp_BudgetTokens : Z }.

Record AdapterModelProfile := MkProfile {
  mp_Contexts : list AdapterModelProfileContext;
  mp_MaxOutputTokens : Z;
  mp_ReasoningEfforts : list bytes;
  mp_ReasoningEffortWireValues : gmap bytes bytes;
  mp_DefaultEffort : bytes;
  mp_SupportsTools : option bool;
  mp_SupportsVision : option bool;
  mp_ThinkingProfiles : gmap bytes AdapterModelThinkingProfile;
}.

Record AdapterModelAlias := MkAlias { al_ID : bytes; al_Advertise : bool; al_ReasoningEffort : bytes; al_Context : bytes; al_ThinkingProfile : bytes }.

Record AdapterModelGeneratedAliases := MkGenerated { ga_Prefix : bytes; ga_Advertise : bool; ga_Dimensions : list bytes }.

Definition AdapterGeneratedAliasDimensionContext : bytes := lit "context".
Definition AdapterGeneratedAliasDimensionReasoningEffort : bytes := lit "reasoning_effort".
Definition AdapterGeneratedAliasDimensionThinkingProfile : bytes := lit "thinking_profile".

Record AdapterModelPricing := MkPricing { pr_Input : float64; pr_Output : float64; pr_CacheWrite : float64; pr_CacheRead : float64 }.

(** [AdapterPassthroughOverride] and [AdapterOpenAICompatPassthrough] have the same fields. *)
Record passthrough := MkPassthrough { pt_BaseURL : bytes; pt_APIKey : bytes; pt_APIKeyEnv : bytes; pt_Model : bytes }.

Record AdapterModelDeclaration := MkDeclaration {
  md_Provider : bytes;
  md_WireModel : bytes;
  md_Profile : bytes;
  md_Instructions : bytes;
  md_Pricing : AdapterModelPricing;
  md_Aliases : list AdapterModelAlias;
  md_Advertise : bool;
  md_GeneratedAliases : AdapterModelGeneratedAliases;
  md_PassthroughOverride : bytes;
  md_WireProfile : bytes;
  md_InstructionsFile : bytes;
}.

Record AdapterModelRoute := MkRoute { mr_Match : bytes; mr_Surfaces : list bytes; mr_Provider : bytes; mr_WireModelPolicy : bytes; mr_CapabilityPolicy : bytes }.

Record AdapterClientIdentity := MkIdentityFields {
  ci_SystemPromptPrefix : bytes; ci_StainlessPackageVersion : bytes; ci_StainlessRuntime : bytes;
  ci_StainlessRuntimeVersion : bytes; ci_CCVersion : bytes; ci_CCEntrypoint : bytes;
}.

Record AdapterOAuth := MkOAuth { oa_MessagesURL : bytes; oa_AnthropicBeta : bytes; oa_AnthropicVersion : bytes }.
Record AdapterAnthropic := MkAnthropic { an_Enabled : bool; an_OAuth : AdapterOAuth; an_DefaultWireProfile : bytes }.

(** The fields that the registry reads.  [ac_PassthroughOverrides] lists the entries of a map
    in the order in which the range loop visits them. *)
Record AdapterConfig := MkAdapterConfig {
  ac_ClientIdentity : AdapterClientIdentity;
  ac_Anthropic : AdapterAnthropic;
  ac_DirectOAuth : bool;
  ac_CodexEnabled : bool;
  ac_LogprobsAnthropic : bytes;
  ac_PassthroughOverrides : list (bytes * passthrough);
  ac_OpenAICompatPassthrough : passthrough;
  ac_ModelProfiles : gmap bytes AdapterModelProfile;
  ac_Models : gmap bytes AdapterModelDeclaration;
  ac_ModelRoutes : list AdapterModelRoute;
  ac_DefaultModel : bytes;
}.

(** ** The registry *)

Definition BackendClaude : bytes := lit "claude".
Definition BackendAnthropic : bytes := lit "anthropic".
Definition BackendCodex : bytes := lit "codex".
Definition BackendPassthroughOverride : bytes := lit "passthrough_override".

Definition BackendValid (backend : bytes) : bool :=
  bool_decide (backend ∈ [BackendClaude; BackendAnthropic; BackendCodex; BackendPassthroughOverride]).

Record ResolvedAlias := MkResolved {
  ra_Alias : bytes;
  ra_Backend : bytes;
  ra_WireModel : bytes;
  ra_Profile : bytes;
  ra_Instructions : bytes;
  ra_Context : Z;
  ra_TransportLimits : gmap bytes Z;
  ra_Efforts : list bytes;
  ra_EffortWireValues : gmap bytes bytes;
  ra_DefaultEffort : bytes;
  ra_Effort : bytes;
  ra_WireEffort : bytes;
  ra_ThinkingModes : list bytes;
  ra_Thinking : bytes;
  ra_ThinkingBudgetTokens : Z;
  ra_MaxOutputTokens : Z;
  ra_ToolsCapability : option bool;
  ra_VisionCapability : option bool;
  ra_SupportsTools : bool;
  ra_SupportsVision : bool;
  ra_PassthroughOverride : bytes;
  ra_PassthroughConfig : passthrough;
  ra_OpenAICompatPassthrough : passthrough;
  ra_Pricing : AdapterModelPricing;
  ra_WireProfile : bytes;
  ra_Advertise : bool;
}.

Record registryRecord := MkRegistryRecord { rr_resolved : ResolvedAlias; rr_providerEnabled : bool; rr_boundEffort : bytes }.

Record routeRule := MkRouteRule { ru_pattern : bytes; ru_surfaces : list bytes; ru_provider : bytes; ru_providerEnabled : bool; ru_wireProfile : bytes }.

Record Registry := MkRegistry {
  rg_exact : gmap bytes registryRecord;
  rg_advertised : gmap bytes ResolvedAlias;
  rg_passthroughOverrides : gmap bytes passthrough;
  rg_routes : list routeRule;
  rg_defaultModel : bytes;
  rg_openAICompat : passthrough;
  rg_loadedUnix : Z;
}.

Inductive registryError :=
| MissingField (name : bytes)
| LogprobsInvalid (value : bytes)
| UnknownProfile (canonicalID profile : bytes)
| NoContexts (alias : bytes)
| ContextNotDeclared (alias name : bytes)
| ThinkingNotDeclared (alias name : bytes)
| EmptyAlias
| DuplicateAlias (id : bytes)
| OverrideNotConfigured (name : bytes)
| DefaultModelUnknown (model : bytes)
| RouteGlobInvalid (index : nat) (pattern : bytes).

Inductive resolveError :=
| NilRegistry
| ModelRequired
| DefaultUnavailable (model : bytes)
| DisabledProvider (model provider : bytes)
| EffortConflict (effort model : bytes)
| EffortUnsupported (effort model : bytes) (allowed : list bytes)
| RouteMatchFailed (pattern : bytes)
| UnknownModel (model : bytes).

Inductive ResolveErrorKind := ResolveErrorInvalidRequest | ResolveErrorModelNotFound.

(** [ResolveErrorKindOf] of each error. *)
Definition ResolveErrorKindOf (err : resolveError) : option ResolveErrorKind :=
  match err with
  | EffortConflict _ _ | EffortUnsupported _ _ _ => Some ResolveErrorInvalidRequest
  | UnknownModel _ => Some ResolveErrorModelNotFound
  | _ => None
  end.

Definition zeroPassthrough : passthrough := MkPassthrough [] [] [] [].
Definition zeroPricing : AdapterModelPricing := MkPricing (f64 0) (f64 0) (f64 0) (f64 0).

(** The zero value with the fields that a wildcard or fallback sets. *)
Definition unknownResolved (alias backend effort wireProfile : bytes) (compat : passthrough) : ResolvedAlias :=
  MkResolved alias backend alias [] [] 0 ∅ [] ∅ [] effort effort [] [] 0 0 None None false false [] zeroPassthrough compat zeroPricing wireProfile false.

Definition orFail {E A} (condition : bool) (e : E) (k : outcome E A) : outcome E A := if condition then Fail e else k.

Definition ValidateOAuthFields (o : AdapterOAuth) : option bytes :=
  if bool_decide (oa_MessagesURL o = []) then Some (lit "messages_url")
  else if bool_decide (oa_AnthropicBeta o = []) then Some (lit "anthropic_beta")
  else if bool_decide (oa_AnthropicVersion o = []) then Some (lit "anthropic_version")
  else None.

Definition validateAdapterCoreConfig (cfg : AdapterConfig) : outcome registryError unit :=
  let id := ac_ClientIdentity cfg in
  orFail (bool_decide (ci_SystemPromptPrefix id = [])) (MissingField (lit "system_prompt_prefix"))
  (orFail (bool_decide (ci_StainlessPackageVersion id = [])) (MissingField (lit "stainless_package_version"))
  (orFail (bool_decide (ci_StainlessRuntime id = [])) (MissingField (lit "stainless_runtime"))
  (orFail (bool_decide (ci_StainlessRuntimeVersion id = [])) (MissingField (lit "stainless_runtime_version"))
  (orFail (bool_decide (ci_CCVersion id = [])) (MissingField (lit "cc_version"))
  (orFail (bool_decide (ci_CCEntrypoint id = [])) (MissingField (lit "cc_entrypoint"))
  (if an_Enabled (ac_Anthropic cfg) || ac_DirectOAuth cfg
   then match ValidateOAuthFields (an_OAuth (ac_Anthropic cfg)) with Some name => Fail (MissingField name) | None => Ok tt end
   else Ok tt)))))).

Definition validateAdapterLogprobs (anthropic : bytes) : outcome registryError unit :=
  if bool_decide (anthropic = []) then Ok tt
  else if bool_decide (anthropic <> lit "reject") && bool_decide (anthropic <> lit "drop") then Fail (LogprobsInvalid anthropic)
  else Ok tt.

Definition backendForProvider (provider : bytes) : bytes :=
  if bool_decide (provider = lit "codex") then BackendCodex
  else if bool_decide (provider = lit "anthropic") then BackendAnthropic
  else if bool_decide (provider = lit "passthrough_override") then BackendPassthroughOverride
  else provider.

Definition providerEnabled (cfg : AdapterConfig) (provider : bytes) : bool :=
  if bool_decide (provider = lit "codex") then ac_CodexEnabled cfg
  else if bool_decide (provider = lit "anthropic") then an_Enabled (ac_Anthropic cfg) || ac_DirectOAuth cfg
  else bool_decide (provider = lit "passthrough_override").

Definition defaultWireProfile (cfg : AdapterConfig) (provider : bytes) : bytes :=
  if bool_decide (provider <> lit "anthropic") then [] else TrimSpace (an_DefaultWireProfile (ac_Anthropic cfg)).

Definition selectContext (alias : bytes) (contexts : list AdapterModelProfileContext) (name : bytes) : outcome registryError AdapterModelProfileContext :=
  match contexts with
  | [] => Fail (NoContexts alias)
  | first :: _ =>
      if bool_decide (TrimSpace name = []) then Ok first
      else match List.find (fun c => bool_decide (pc_Name c = name)) contexts with
           | Some c => Ok c
           | None => Fail (ContextNotDeclared alias name)
           end
  end.

(** The loop over the profiles by name, for the modes. *)
Definition thinkingModes (profiles : gmap bytes AdapterModelThinkingProfile) : list bytes :=
  foldl (fun modes '(_, p) => if bool_decide (tp_Mode p ∈ modes) then modes else modes ++ [tp_Mode p]) [] (sortedFields profiles).

Definition selectThinking (alias : bytes) (profiles : gmap bytes AdapterModelThinkingProfile) (name : bytes) : outcome registryError (bytes * Z * list bytes) :=
  let modes := thinkingModes profiles in
  if bool_decide (TrimSpace name = []) then Ok ([], 0, modes)
  else match profiles !! name with
       | None => Fail (ThinkingNotDeclared alias name)
       | Some p => Ok (tp_Mode p, tp_BudgetTokens p, modes)
       end.

Definition resolvedFromDeclaration (alias : bytes) (declaration : AdapterModelDeclaration) (profile : AdapterModelProfile) (binding : AdapterModelAlias) : outcome registryError ResolvedAlias :=
  contextProfile ← selectContext alias (mp_Contexts profile) (al_Context binding);
  '(thinking, budget, modes) ← selectThinking alias (mp_ThinkingProfiles profile) (al_ThinkingProfile binding);
  let transportLimits := foldl (fun m limit => <[tl_Transport limit := tl_Tokens limit]> m) ∅ (pc_TransportLimits contextProfile) in
  Ok (MkResolved (TrimSpace alias) (backendForProvider (md_Provider declaration)) (md_WireModel declaration ++ pc_WireSuffix contextProfile)
        (md_Profile declaration) (md_Instructions declaration) (pc_Tokens contextProfile) transportLimits (mp_ReasoningEfforts profile)
        (mp_ReasoningEffortWireValues profile) (mp_DefaultEffort profile) (al_ReasoningEffort binding) [] modes thinking budget
        (mp_MaxOutputTokens profile) (mp_SupportsTools profile) (mp_SupportsVision profile)
        (bool_decide (mp_SupportsTools profile = Some true)) (bool_decide (mp_SupportsVision profile = Some true))
        (md_PassthroughOverride declaration) zeroPassthrough zeroPassthrough (md_Pricing declaration) (md_WireProfile declaration) false).

(** The assignments to fields of a copy of a resolved alias. *)
Definition setEntry (r : ResolvedAlias) (alias : bytes) (config : passthrough) (advertise : bool) : ResolvedAlias :=
  MkResolved alias (ra_Backend r) (ra_WireModel r) (ra_Profile r) (ra_Instructions r) (ra_Context r) (ra_TransportLimits r) (ra_Efforts r)
    (ra_EffortWireValues r) (ra_DefaultEffort r) (ra_Effort r) (ra_WireEffort r) (ra_ThinkingModes r) (ra_Thinking r) (ra_ThinkingBudgetTokens r)
    (ra_MaxOutputTokens r) (ra_ToolsCapability r) (ra_VisionCapability r) (ra_SupportsTools r) (ra_SupportsVision r) (ra_PassthroughOverride r)
    config (ra_OpenAICompatPassthrough r) (ra_Pricing r) (ra_WireProfile r) advertise.

Definition setEffort (r : ResolvedAlias) (alias effort wireEffort : bytes) : ResolvedAlias :=
  MkResolved alias (ra_Backend r) (ra_WireModel r) (ra_Profile r) (ra_Instructions r) (ra_Context r) (ra_TransportLimits r) (ra_Efforts r)
    (ra_EffortWireValues r) (ra_DefaultEffort r) effort wireEffort (ra_ThinkingModes r) (ra_Thinking r) (ra_ThinkingBudgetTokens r)
    (ra_MaxOutputTokens r) (ra_ToolsCapability r) (ra_VisionCapability r) (ra_SupportsTools r) (ra_SupportsVision r) (ra_PassthroughOverride r)
    (ra_PassthroughConfig r) (ra_OpenAICompatPassthrough r) (ra_Pricing r) (ra_WireProfile r) (ra_Advertise r).

Record aliasBindings := MkBindings { ab_parts : list bytes; ab_context : bytes; ab_effort : bytes; ab_thinking : bytes }.

Definition expandAliasDimension (bindings : list aliasBindings) (dimension : bytes) (profile : AdapterModelProfile) : list aliasBindings :=
  if bool_decide (dimension = AdapterGeneratedAliasDimensionContext) then
    concat (map (fun b => map (fun c => MkBindings (ab_parts b ++ [match pc_AliasSuffix c with [] => pc_Name c | suffix => suffix end])
                                          (pc_Name c) (ab_effort b) (ab_thinking b)) (mp_Contexts profile)) bindings)
  else if bool_decide (dimension = AdapterGeneratedAliasDimensionReasoningEffort) then
    concat (map (fun b => map (fun effort => MkBindings (ab_parts b ++ [effort]) (ab_context b) effort (ab_thinking b)) (mp_ReasoningEfforts profile)) bindings)
  else if bool_decide (dimension = AdapterGeneratedAliasDimensionThinkingProfile) then
    concat (map (fun b => map (fun name => MkBindings (ab_parts b ++ [name]) (ab_context b) (ab_effort b) name) (map fst (sortedFields (mp_ThinkingProfiles profile)))) bindings)
  else [].

Definition generatedBindings (dimensions : list bytes) (profile : AdapterModelProfile) : list aliasBindings :=
  foldl (fun bindings dimension => expandAliasDimension bindings dimension profile) [MkBindings [] [] [] []] dimensions.

Definition generatedAlias (prefix : bytes) (binding : aliasBindings) : bytes :=
  match ab_parts binding with
  | [] => TrimSpace prefix
  | parts => TrimSpace prefix ++ lit "-" ++ Join parts (lit "-")
  end.

Section registry.
Context (toLowerRune : Z -> Z).

Definition modelKey (model : bytes) : bytes := ToLower toLowerRune (TrimSpace model).

Definition addExact (registry : Registry) (alias : bytes) (resolved : ResolvedAlias) (enabled : bool) (boundEffort : bytes) (advertise : bool) : outcome registryError Registry :=
  let id := TrimSpace alias in
  if bool_decide (id = []) then Fail EmptyAlias
  else
    let key := modelKey id in
    match rg_exact registry !! key with
    | Some _ => Fail (DuplicateAlias id)
    | None =>
        config ← (if bool_decide (ra_PassthroughOverride resolved <> [])
                  then match rg_passthroughOverrides registry !! modelKey (ra_PassthroughOverride resolved) with
                       | None => Fail (OverrideNotConfigured (ra_PassthroughOverride resolved))
                       | Some config => Ok config
                       end
                  else Ok (ra_PassthroughConfig resolved));
        let resolved := setEntry resolved id config (advertise && enabled) in
        Ok (MkRegistry (<[key := MkRegistryRecord resolved enabled boundEffort]> (rg_exact registry))
              (if advertise && enabled then <[key := resolved]> (rg_advertised registry) else rg_advertised registry)
              (rg_passthroughOverrides registry) (rg_routes registry) (rg_defaultModel registry) (rg_openAICompat registry) (rg_loadedUnix registry))
    end.

Fixpoint addAliases (registry : Registry) (declaration : AdapterModelDeclaration) (profile : AdapterModelProfile) (enabled : bool) (aliases : list AdapterModelAlias) : outcome registryError Registry :=
  match aliases with
  | [] => Ok registry
  | alias :: rest =>
      resolved ← resolvedFromDeclaration (al_ID alias) declaration profile alias;
      registry ← addExact registry (al_ID alias) resolved enabled (al_ReasoningEffort alias) (al_Advertise alias);
      addAliases registry declaration profile enabled rest
  end.

Fixpoint addBindings (registry : Registry) (declaration : AdapterModelDeclaration) (profile : AdapterModelProfile) (enabled : bool) (bindings : list aliasBindings) : outcome registryError Registry :=
  match bindings with
  | [] => Ok registry
  | binding :: rest =>
      let alias := generatedAlias (ga_Prefix (md_GeneratedAliases declaration)) binding in
      resolved ← resolvedFromDeclaration alias declaration profile (MkAlias alias false (ab_effort binding) (ab_context binding) (ab_thinking binding));
      registry ← addExact registry alias resolved enabled (ab_effort binding) (ga_Advertise (md_GeneratedAliases declaration));
      addBindings registry declaration profile enabled rest
  end.

Definition addGeneratedAliases (registry : Registry) (declaration : AdapterModelDeclaration) (profile : AdapterModelProfile) (enabled : bool) : outcome registryError Registry :=
  match ga_Dimensions (md_GeneratedAliases declaration) with
  | [] => Ok registry
  | dimensions => addBindings registry declaration profile enabled (generatedBindings dimensions profile)
  end.

Definition addDeclaration (cfg : AdapterConfig) (registry : Registry) (canonicalID : bytes) (declaration : AdapterModelDeclaration) (profile : AdapterModelProfile) : outcome registryError Registry :=
  base ← resolvedFromDeclaration canonicalID declaration profile (MkAlias [] false [] [] []);
  let enabled := providerEnabled cfg (md_Provider declaration) in
  registry ← addExact registry canonicalID base enabled [] (md_Advertise declaration);
  registry ← addAliases registry declaration profile enabled (md_Aliases declaration);
  addGeneratedAliases registry declaration profile enabled.

Fixpoint addModels (cfg : AdapterConfig) (registry : Registry) (models : list (bytes * AdapterModelDeclaration)) : outcome registryError Registry :=
  match models with
  | [] => Ok registry
  | (canonicalID, declaration) :: rest =>
      match ac_ModelProfiles cfg !! TrimSpace (md_Profile declaration) with
      | None => Fail (UnknownProfile canonicalID (md_Profile declaration))
      | Some profile => registry ← addDeclaration cfg registry canonicalID declaration profile; addModels cfg registry rest
      end
  end.

Definition setRoutes (registry : Registry) (routes : list routeRule) : Registry :=
  MkRegistry (rg_exact registry) (rg_advertised registry) (rg_passthroughOverrides registry) routes (rg_defaultModel registry) (rg_openAICompat registry) (rg_loadedUnix registry).

Fixpoint addRoutes (cfg : AdapterConfig) (registry : Registry) (index : nat) (routes : list AdapterModelRoute) : outcome registryError Registry :=
  match routes with
  | [] => Ok registry
  | configured :: rest =>
      match Match (mr_Match configured) (lit "model") with
      | None => Fail (RouteGlobInvalid index (mr_Match configured))
      | Some _ =>
          let rule := MkRouteRule (mr_Match configured) (mr_Surfaces configured) (backendForProvider (mr_Provider configured))
                        (providerEnabled cfg (mr_Provider configured)) (defaultWireProfile cfg (mr_Provider configured)) in
          addRoutes cfg (setRoutes registry (rg_routes registry ++ [rule])) (S index) rest
      end
  end.

(** The registry before any model; [now] is the Unix time of the clock. *)
Definition emptyRegistry (cfg : AdapterConfig) (now : Z) : Registry :=
  MkRegistry ∅ ∅ (foldl (fun m '(name, config) => <[modelKey name := config]> m) ∅ (ac_PassthroughOverrides cfg)) []
    (TrimSpace (ac_DefaultModel cfg)) (ac_OpenAICompatPassthrough cfg) now.

Definition NewRegistry (cfg : AdapterConfig) (now : Z) : outcome registryError Registry :=
  _ ← validateAdapterCoreConfig cfg;
  _ ← validateAdapterLogprobs (ac_LogprobsAnthropic cfg);
  registry ← addModels cfg (emptyRegistry cfg now) (sortedFields (ac_Models cfg));
  if bool_decide (rg_defaultModel registry <> []) && bool_decide (rg_exact registry !! modelKey (rg_defaultModel registry) = None)
  then Fail (DefaultModelUnknown (rg_defaultModel registry))
  else addRoutes cfg registry 0 (ac_ModelRoutes cfg).

(** ** Resolution *)

Definition defaultEffort (resolved : ResolvedAlias) : bytes :=
  if bool_decide (ra_Effort resolved <> []) then ra_Effort resolved else ra_DefaultEffort resolved.

(** The effort of an exact entry: the requested one, else the bound one, else the default. *)
Definition effectiveEffort (record : registryRecord) (requestedEffort : bytes) : bytes :=
  let effort := if bool_decide (requestedEffort = []) then rr_boundEffort record else requestedEffort in
  if bool_decide (effort = []) then defaultEffort (rr_resolved record) else effort.

Definition resolveExact (record : registryRecord) (requested requestedEffort : bytes) : outcome resolveError (ResolvedAlias * bytes) :=
  let bound := rr_boundEffort record in
  if negb (rr_providerEnabled record) then Fail (DisabledProvider requested (ra_Backend (rr_resolved record)))
  else if bool_decide (bound <> []) && bool_decide (requestedEffort <> []) && bool_decide (requestedEffort <> bound) then Fail (EffortConflict requestedEffort requested)
  else
    let effort := effectiveEffort record requestedEffort in
    if bool_decide (effort <> []) && bool_decide (effort ∉ ra_Efforts (rr_resolved record)) then Fail (EffortUnsupported effort requested (ra_Efforts (rr_resolved record)))
    else Ok (setEffort (rr_resolved record) requested effort (default effort (ra_EffortWireValues (rr_resolved record) !! effort)), effort).

Definition wildcardResolved (requested provider wireProfile effort : bytes) : ResolvedAlias :=
  unknownResolved requested provider effort (TrimSpace wireProfile) zeroPassthrough.

Fixpoint resolveRoutes (surface requested requestedEffort : bytes) (routes : list routeRule) : outcome resolveError (option (ResolvedAlias * bytes)) :=
  match routes with
  | [] => Ok None
  | route :: rest =>
      match Match (ru_pattern route) requested with
      | None => Fail (RouteMatchFailed (ru_pattern route))
      | Some matches =>
          if negb matches || bool_decide (surface ∉ ru_surfaces route) then resolveRoutes surface requested requestedEffort rest
          else if negb (ru_providerEnabled route) then Fail (DisabledProvider requested (ru_provider route))
          else Ok (Some (wildcardResolved requested (ru_provider route) (ru_wireProfile route) requestedEffort, requestedEffort))
      end
  end.

(** [None] is the nil registry. *)
Definition Resolve (registry : option Registry) (surface requestedModel requestedEffort : bytes) : outcome resolveError (ResolvedAlias * bytes) :=
  match registry with
  | None => Fail NilRegistry
  | Some registry =>
      let requested := TrimSpace requestedModel in
      if bool_decide (requested = []) then
        if bool_decide (rg_defaultModel registry = []) then Fail ModelRequired
        else match rg_exact registry !! modelKey (rg_defaultModel registry) with
             | None => Fail (DefaultUnavailable (rg_defaultModel registry))
             | Some record => resolveExact record (rg_defaultModel registry) requestedEffort
             end
      else
        match rg_exact registry !! modelKey requested with
        | Some record => resolveExact record requested requestedEffort
        | None =>
            routed ← resolveRoutes surface requested requestedEffort (rg_routes registry);
            match routed with
            | Some resolved => Ok resolved
            | None =>
                if bool_decide (pt_BaseURL (rg_openAICompat registry) <> [])
                then Ok (unknownResolved requested BackendPassthroughOverride requestedEffort [] (rg_openAICompat registry), requestedEffort)
                else Fail (UnknownModel requested)
            end
        end
  end.

Definition PassthroughOverride (registry : Registry) (name : bytes) : option passthrough := rg_passthroughOverrides registry !! modelKey name.

Definition List (registry : option Registry) : list ResolvedAlias :=
  match registry with None => [] | Some registry => map snd (sortedFields (rg_advertised registry)) end.

Definition Models (registry : option Registry) : gmap bytes ResolvedAlias :=
  match registry with None => ∅ | Some registry => rr_resolved <$> rg_exact registry end.
End registry.

(** ** The bridge of the resolver (adapter/resolver/registry_bridge.go, resolve.go) *)

Record ResolvedModelView := MkView {
  vw_Provider : bytes; vw_Family : bytes; vw_Model : bytes; vw_Effort : bytes; vw_WireEffort : bytes;
  vw_Context : Z; vw_MaxOutputTokens : Z; vw_Thinking : bytes; vw_ThinkingBudgetTokens : Z; vw_Instructions : bytes;
  vw_Efforts : list bytes; vw_Alias : bytes; vw_SupportsTools : bool; vw_SupportsVision : bool;
  vw_ToolsCapability : option bool; vw_VisionCapability : option bool; vw_ThinkingModes : list bytes;
  vw_PassthroughOverrideName : bytes; vw_PassthroughOverride : passthrough; vw_OpenAICompatPassthrough : passthrough;
  vw_TransportLimits : gmap bytes Z; vw_WireProfile : bytes; vw_Pricing : AdapterModelPricing;
}.

Inductive requestError :=
| ConflictingEffort (topLevel nested : bytes)
| InvalidRequest (cause : resolveError)
| ResolveFailed (alias : bytes) (cause : resolveError)
| UnresolvedProvider.

Definition ParseEffort (raw : bytes) : bytes * bool := (raw, true).

Definition viewOf (resolved : ResolvedAlias) (effort : bytes) : ResolvedModelView :=
  let parsedEffort := (ParseEffort effort).1 in
  let parsedWireEffort := (ParseEffort (ra_WireEffort resolved)).1 in
  MkView (ra_Backend resolved) (if bool_decide (ra_Profile resolved = []) then ra_WireModel resolved else ra_Profile resolved) (ra_WireModel resolved)
    parsedEffort (if bool_decide (parsedWireEffort = []) then parsedEffort else parsedWireEffort) (ra_Context resolved) (ra_MaxOutputTokens resolved)
    (ra_Thinking resolved) (ra_ThinkingBudgetTokens resolved) (ra_Instructions resolved) (ra_Efforts resolved) (ra_Alias resolved)
    (ra_SupportsTools resolved) (ra_SupportsVision resolved) (ra_ToolsCapability resolved) (ra_VisionCapability resolved) (ra_ThinkingModes resolved)
    (ra_PassthroughOverride resolved) (ra_PassthroughConfig resolved) (ra_OpenAICompatPassthrough resolved) (ra_TransportLimits resolved)
    (ra_WireProfile resolved) (ra_Pricing resolved).

(** [ModelRegistryAdapter.Resolve]. *)
Definition bridgeResolve (toLowerRune : Z -> Z) (inner : option Registry) (surface alias reqEffort : bytes) : outcome requestError ResolvedModelView :=
  match inner with
  | None => Fail UnresolvedProvider
  | Some _ =>
      match Resolve toLowerRune inner surface alias reqEffort with
      | Ok (resolved, effort) => Ok (viewOf resolved effort)
      | Fail err => Fail (match ResolveErrorKindOf err with Some ResolveErrorInvalidRequest => InvalidRequest err | _ => ResolveFailed alias err end)
      | Panic => Panic
      end
  end.

(** The two places of a request for the effort; [nested] is empty without a reasoning object. *)
Definition effectiveReasoningEffort (topLevel nested : bytes) : outcome requestError bytes :=
  if bool_decide (topLevel <> []) && bool_decide (nested <> []) && bool_decide (topLevel <> nested) then Fail (ConflictingEffort topLevel nested)
  else if bool_decide (topLevel <> []) then Ok topLevel
  else Ok nested.

(** [resolver.Resolve] up to the copying of the view into the request. *)
Definition resolveRequest (toLowerRune : Z -> Z) (inner : option Registry) (surface model topLevel nested : bytes) : outcome requestError ResolvedModelView :=
  effort ← effectiveReasoningEffort topLevel nested;
  view ← bridgeResolve toLowerRune inner surface model effort;
  if BackendValid (vw_Provider view) then Ok view else Fail UnresolvedProvider.
