(* ===== verification/AdModelSpec.v ===== *)
(** * AdModelSpec: what the model registry holds and answers

    [Registry_refines_catalog]: the registry is the declared catalog, entry for entry, building
    it fails exactly when the catalog is not consistent, and it answers by the catalog.
    [resolveExact_effort]: the effort of an answer and the reasons to refuse one. *)

From S2P Require Import Prelude GoUtf8 GoStrconv GoText GoSort GoFloat GoPath AdModel.

Open Scope Z_scope.

Section spec.
Context (toLowerRune : Z -> Z).
Local Abbreviation modelKey := (modelKey toLowerRune).
Local Abbreviation addExact := (addExact toLowerRune).

(** ** The catalog as a list *)

(** The names of a declaration with the bindings of each, and whether it asks to be listed. *)
Definition origin : Type := bytes * AdapterModelAlias * bool.

Definition origins (canonicalID : bytes) (d : AdapterModelDeclaration) (p : AdapterModelProfile) : list origin :=
  [(canonicalID, MkAlias [] false [] [] [], md_Advertise d)] ++
  map (fun alias => (al_ID alias, alias, al_Advertise alias)) (md_Aliases d) ++
  (match ga_Dimensions (md_GeneratedAliases d) with
   | [] => []
   | dimensions => map (fun b => let alias := generatedAlias (ga_Prefix (md_GeneratedAliases d)) b in
                                 (alias, MkAlias alias false (ab_effort b) (ab_context b) (ab_thinking b), ga_Advertise (md_GeneratedAliases d)))
                     (generatedBindings dimensions p)
   end).

(** The entry of one name; [None] when the name is blank or a binding is not declared. *)
Definition entryOf (overrides : gmap bytes passthrough) (enabled : bool) (d : AdapterModelDeclaration) (p : AdapterModelProfile) (o : origin) : option (bytes * registryRecord) :=
  let '(alias, binding, advertise) := o in
  match resolvedFromDeclaration alias d p binding with
  | Ok resolved =>
      if bool_decide (TrimSpace alias = []) then None
      else
        config ← (if bool_decide (md_PassthroughOverride d <> []) then overrides !! modelKey (md_PassthroughOverride d) else Some zeroPassthrough);
        Some (modelKey (TrimSpace alias), MkRegistryRecord (setEntry resolved (TrimSpace alias) config (advertise && enabled)) enabled (al_ReasoningEffort binding))
  | _ => None
  end.

Definition declarationEntries (cfg : AdapterConfig) (overrides : gmap bytes passthrough) (model : bytes * AdapterModelDeclaration) : option (list (bytes * registryRecord)) :=
  p ← ac_ModelProfiles cfg !! TrimSpace (md_Profile model.2);
  mapM (entryOf overrides (providerEnabled cfg (md_Provider model.2)) model.2 p) (origins model.1 model.2 p).

Definition catalogEntries (cfg : AdapterConfig) (overrides : gmap bytes passthrough) : option (list (bytes * registryRecord)) :=
  (@concat _) <$> mapM (declarationEntries cfg overrides) (sortedFields (ac_Models cfg)).

(** ** Building *)

(** [r'] is [r] with the entries [es]. *)
Record built (r r' : Registry) (es : list (bytes * registryRecord)) : Prop := {
  bt_exact : rg_exact r' = list_to_map es;
  bt_nodup : NoDup es.*1;
  bt_advertised : rg_advertised r' = omap (fun rec => if ra_Advertise (rr_resolved rec) then Some (rr_resolved rec) else None) (rg_exact r');
  bt_overrides : rg_passthroughOverrides r' = rg_passthroughOverrides r;
  bt_routes : rg_routes r' = rg_routes r;
  bt_default : rg_defaultModel r' = rg_defaultModel r;
  bt_compat : rg_openAICompat r' = rg_openAICompat r;
}.

(** [m] adds the entries [added] to [es], and fails exactly when that cannot be. *)
Record adds (r : Registry) (es : list (bytes * registryRecord)) (added : option (list (bytes * registryRecord))) (m : outcome registryError Registry) : Prop := {
  ad_ok : forall r', m = Ok r' -> exists es', added = Some es' /\ built r r' (es ++ es');
  ad_total : forall es', added = Some es' -> NoDup (es ++ es').*1 -> is_Some (match m with Ok r' => Some r' | _ => None end);
  ad_panic : m <> Panic;
}.

Lemma adds_nil r r' es : built r r' es -> adds r es (Some []) (Ok r').
Proof.
  intros H. split; [|by intros; eexists|done]. intros r'' [= <-]. exists []. split; [done|]. by rewrite app_nil_r.
Qed.

Lemma built_NoDup_l r r' es es' : built r r' (es ++ es') -> NoDup (es ++ es').*1.
Proof. apply bt_nodup. Qed.

Lemma NoDup_fst_app {A B} (l k : list (A * B)) : NoDup (l ++ k).*1 -> NoDup l.*1.
Proof. rewrite fmap_app. by intros [H _]%NoDup_app. Qed.

(** One step after another. *)
Lemma adds_bind r es added added' m k :
  adds r es added m ->
  (forall r' es', added = Some es' -> m = Ok r' -> built r r' (es ++ es') -> adds r (es ++ es') added' (k r')) ->
  adds r es (es1 ← added; es2 ← added'; Some (es1 ++ es2)) (m ≫= k).
Proof.
  intros [H1 H2 H3] Hk. destruct m as [r'|e|]; [|split|done]; cbn.
  - destruct (H1 r' eq_refl) as (es1 & -> & Hb). destruct (Hk r' es1 eq_refl eq_refl Hb) as [K1 K2 K3]. split; [| |done].
    + intros r'' E. destruct (K1 r'' E) as (es2 & -> & Hb2). exists (es1 ++ es2). split; [done|]. by rewrite app_assoc.
    + intros es' E Hn. destruct added' as [es2|]; [|done]. injection E as <-. apply (K2 es2); [done|]. by rewrite <- app_assoc.
  - done.
  - intros es' E Hn. destruct added as [es1|]; [|done]. destruct added' as [es2|]; [|done]. injection E as <-. rewrite app_assoc in Hn.
    destruct (H2 es1 eq_refl (NoDup_fst_app _ _ Hn)) as [? ?]. done.
  - done.
Qed.

Lemma omap_insert_fresh {A B} (f : A -> option B) (m : gmap bytes A) k x : m !! k = None ->
  omap f (<[k := x]> m) = match f x with Some y => <[k := y]> (omap f m) | None => omap f m end.
Proof.
  intros Hk. rewrite omap_insert. destruct (f x); [done|]. apply delete_id. by rewrite lookup_omap, Hk.
Qed.

(** One name. *)
Lemma addExact_adds r0 r es d p enabled alias binding advertise : built r0 r es ->
  adds r0 es (x ← entryOf (rg_passthroughOverrides r0) enabled d p (alias, binding, advertise); Some [x])
    (resolved ← resolvedFromDeclaration alias d p binding; addExact r alias resolved enabled (al_ReasoningEffort binding) advertise).
Proof.
  intros Hb. unfold entryOf. destruct (resolvedFromDeclaration alias d p binding) as [resolved|e|] eqn:Er; cbn [mbind outcome_bind]; [|split; done|].
  2:{ unfold resolvedFromDeclaration, selectContext, selectThinking in Er. exfalso. repeat (case_match; cbn in Er; try discriminate). }
  assert (ra_PassthroughOverride resolved = md_PassthroughOverride d /\ ra_PassthroughConfig resolved = zeroPassthrough) as [Ho Hz].
  { unfold resolvedFromDeclaration in Er. destruct (selectContext _ _ _); [|done|done]. cbn in Er. destruct (selectThinking _ _ _) as [[[]]| |]; [|done|done]. cbn in Er. by injection Er as <-. }
  unfold AdModel.addExact. case_bool_decide as Hid; [split; done|]. set (id := TrimSpace alias) in *. rewrite Ho, (bt_overrides _ _ _ Hb), Hz.
  set (config := if bool_decide (md_PassthroughOverride d <> []) then _ else Some zeroPassthrough).
  assert ((if bool_decide (md_PassthroughOverride d <> []) then match rg_passthroughOverrides r0 !! modelKey (md_PassthroughOverride d) with None => Fail (OverrideNotConfigured (md_PassthroughOverride d)) | Some c => Ok c end else Ok zeroPassthrough) =
    match config with Some c => Ok c | None => Fail (OverrideNotConfigured (md_PassthroughOverride d)) end) as -> by (unfold config; by case_bool_decide).
  destruct (rg_exact r !! modelKey id) as [rec|] eqn:Ek.
  - split; [done| |done]. intros es' E Hn. exfalso. destruct config as [c|]; [|done]. injection E as <-. rewrite fmap_app in Hn. apply NoDup_app in Hn as (_ & Hn & _).
    rewrite (bt_exact _ _ _ Hb) in Ek. apply elem_of_list_to_map_2 in Ek. eapply (Hn (modelKey id)); [by apply list_elem_of_fmap; exists (modelKey id, rec)|by left].
  - destruct config as [c|]; cbn [mbind option_bind outcome_bind]; [|split; done]. split; [|by intros; eexists|done]. intros r' [= <-]. eexists. split; [reflexivity|].
    assert (modelKey id ∉ es.*1) as Hfresh by (apply not_elem_of_list_to_map; by rewrite <- (bt_exact _ _ _ Hb)).
    split; cbn [rg_exact rg_advertised rg_passthroughOverrides rg_routes rg_defaultModel rg_openAICompat]; try done; try (by apply Hb).
    + by rewrite list_to_map_snoc, (bt_exact _ _ _ Hb).
    + rewrite fmap_app. apply NoDup_app. split; [by apply Hb|]. split; [|repeat constructor; by intros []%not_elem_of_nil]. by intros k Hk ->%list_elem_of_singleton.
    + rewrite omap_insert_fresh by done. cbn [rr_resolved setEntry ra_Advertise]. rewrite <- (bt_advertised _ _ _ Hb). by destruct (advertise && enabled).
Qed.

Lemma adds_ext r es added added' m m' : added = added' -> m = m' -> adds r es added' m' -> adds r es added m.
Proof. by intros -> ->. Qed.

Lemma mapM_cons_app {A B} (f : A -> option B) x l : mapM f (x :: l) = (es1 ← (y ← f x; Some [y]); es2 ← mapM f l; Some (es1 ++ es2)).
Proof. cbn. destruct (f x); [|done]. cbn. by destruct (mapM f l). Qed.

Lemma mapM_app_option {A B} (f : A -> option B) l k : mapM f (l ++ k) = (es1 ← mapM f l; es2 ← mapM f k; Some (es1 ++ es2)).
Proof.
  induction l as [|x l IH]; [cbn; by destruct (mapM f k)|]. cbn [app]. rewrite !mapM_cons_app, IH. destruct (f x); [|done]. cbn.
  destruct (mapM f l); [|done]. cbn. by destruct (mapM f k).
Qed.

(** The three kinds of names of a declaration. *)
Lemma addAliases_adds r0 r es d p enabled aliases : built r0 r es ->
  adds r0 es (mapM (entryOf (rg_passthroughOverrides r0) enabled d p) (map (fun alias => (al_ID alias, alias, al_Advertise alias)) aliases))
    (addAliases toLowerRune r d p enabled aliases).
Proof.
  revert r es. induction aliases as [|alias aliases IH]; intros r es Hb; [by apply adds_nil|]. cbn [map]. rewrite mapM_cons_app.
  eapply adds_ext; [reflexivity| |apply adds_bind; [by apply (addExact_adds r0 r)|intros r' es' _ _ Hb'; by apply IH]].
  cbn [addAliases]. by destruct (resolvedFromDeclaration _ _ _ _).
Qed.

Lemma addBindings_adds r0 r es d p enabled bindings : built r0 r es ->
  adds r0 es (mapM (entryOf (rg_passthroughOverrides r0) enabled d p)
      (map (fun b => let alias := generatedAlias (ga_Prefix (md_GeneratedAliases d)) b in
                     (alias, MkAlias alias false (ab_effort b) (ab_context b) (ab_thinking b), ga_Advertise (md_GeneratedAliases d))) bindings))
    (addBindings toLowerRune r d p enabled bindings).
Proof.
  revert r es. induction bindings as [|b bindings IH]; intros r es Hb; [by apply adds_nil|]. cbn [map]. rewrite mapM_cons_app.
  eapply adds_ext; [reflexivity| |apply adds_bind; [by apply (addExact_adds r0 r)|intros r' es' _ _ Hb'; by apply IH]].
  cbn [addBindings al_ReasoningEffort]. by destruct (resolvedFromDeclaration _ _ _ _).
Qed.

Lemma addDeclaration_adds cfg r0 r es id d p : built r0 r es ->
  adds r0 es (mapM (entryOf (rg_passthroughOverrides r0) (providerEnabled cfg (md_Provider d)) d p) (origins id d p)) (addDeclaration toLowerRune cfg r id d p).
Proof.
  intros Hb. unfold origins. cbn [app]. rewrite mapM_cons_app.
  eapply adds_ext; [reflexivity| |apply adds_bind; [by apply (addExact_adds r0 r)|intros r' es' _ _ Hb'; rewrite mapM_app_option; apply adds_bind]].
  - unfold addDeclaration. destruct (resolvedFromDeclaration _ _ _ _); [|done|done]. cbn [mbind outcome_bind]. cbn [al_ReasoningEffort]. reflexivity.
  - by apply addAliases_adds.
  - intros r'' es'' _ _ Hb''. unfold addGeneratedAliases. destruct (ga_Dimensions _); [by apply adds_nil|]. by apply addBindings_adds.
Qed.

Lemma addModels_adds cfg r0 r es models : built r0 r es ->
  adds r0 es ((@concat _) <$> mapM (declarationEntries cfg (rg_passthroughOverrides r0)) models) (addModels toLowerRune cfg r models).
Proof.
  revert r es. induction models as [|[id d] models IH]; intros r es Hb; [by apply adds_nil|]. cbn [addModels].
  assert ((@concat _) <$> mapM (declarationEntries cfg (rg_passthroughOverrides r0)) ((id, d) :: models) =
    (es1 ← declarationEntries cfg (rg_passthroughOverrides r0) (id, d); es2 ← (@concat _) <$> mapM (declarationEntries cfg (rg_passthroughOverrides r0)) models; Some (es1 ++ es2))) as ->.
  { cbn. destruct (declarationEntries _ _ _); [|done]. cbn. by destruct (mapM _ models). }
  assert (declarationEntries cfg (rg_passthroughOverrides r0) (id, d) = (p ← ac_ModelProfiles cfg !! TrimSpace (md_Profile d);
    mapM (entryOf (rg_passthroughOverrides r0) (providerEnabled cfg (md_Provider d)) d p) (origins id d p))) as -> by done.
  destruct (ac_ModelProfiles cfg !! _) as [p|]; [|by split]. cbn [mbind option_bind].
  apply adds_bind; [by apply addDeclaration_adds|]. intros r' es' _ _ Hb'. by apply IH.
Qed.

(** ** The registry is the catalog *)

Definition ruleOf (cfg : AdapterConfig) (route : AdapterModelRoute) : routeRule :=
  MkRouteRule (mr_Match route) (mr_Surfaces route) (backendForProvider (mr_Provider route)) (providerEnabled cfg (mr_Provider route)) (defaultWireProfile cfg (mr_Provider route)).

Lemma addRoutes_exact cfg r n routes : match addRoutes cfg r n routes with
  | Ok r' => Forall (fun route => Match (mr_Match route) (lit "model") <> None) routes /\ r' = setRoutes r (rg_routes r ++ map (ruleOf cfg) routes)
  | Fail _ => ~ Forall (fun route => Match (mr_Match route) (lit "model") <> None) routes
  | Panic => False
  end.
Proof.
  revert r n. induction routes as [|route routes IH]; intros r n; cbn [addRoutes map].
  { split; [constructor|]. rewrite app_nil_r. by destruct r. }
  destruct (Match (mr_Match route) (lit "model")) eqn:E; [|intros H; apply Forall_inv in H; by rewrite E in H].
  specialize (IH (setRoutes r (rg_routes r ++ [ruleOf cfg route])) (S n)). fold (ruleOf cfg route). destruct (addRoutes _ _ _ _) as [r'|e|].
  - destruct IH as [H ->]. split; [constructor; [by rewrite E|done]|]. unfold setRoutes. cbn [rg_routes rg_exact rg_advertised rg_passthroughOverrides rg_defaultModel rg_openAICompat rg_loadedUnix].
    by rewrite <- app_assoc.
  - intros H. apply IH. by eapply Forall_inv_tail.
  - done.
Qed.

Definition overridesOf (cfg : AdapterConfig) : gmap bytes passthrough := rg_passthroughOverrides (emptyRegistry toLowerRune cfg 0).

(** What the program asks of a configuration; [es] are the entries of its catalog. *)
Record consistent (cfg : AdapterConfig) (es : list (bytes * registryRecord)) : Prop := {
  cs_core : validateAdapterCoreConfig cfg = Ok tt;
  cs_logprobs : validateAdapterLogprobs (ac_LogprobsAnthropic cfg) = Ok tt;
  cs_entries : catalogEntries cfg (overridesOf cfg) = Some es;
  cs_unique : NoDup es.*1;
  cs_default : TrimSpace (ac_DefaultModel cfg) <> [] -> modelKey (TrimSpace (ac_DefaultModel cfg)) ∈ es.*1;
  cs_routes : Forall (fun route => Match (mr_Match route) (lit "model") <> None) (ac_ModelRoutes cfg);
}.

Lemma emptyRegistry_built cfg now : built (emptyRegistry toLowerRune cfg now) (emptyRegistry toLowerRune cfg now) [].
Proof. split; try done; constructor. Qed.

Lemma built_lookup r r' es key : built r r' es -> rg_exact r' !! key = None <-> key ∉ es.*1.
Proof. intros Hb. rewrite (bt_exact _ _ _ Hb). split; [by intros ?%not_elem_of_list_to_map_2|by intros ?%not_elem_of_list_to_map_1]. Qed.

(** The registry of a configuration holds exactly the entries of its catalog, and building it
    fails exactly for an inconsistent configuration. *)
Lemma NewRegistry_built cfg now : match NewRegistry toLowerRune cfg now with
  | Ok r => exists es, consistent cfg es /\ rg_exact r = list_to_map es /\
      rg_advertised r = omap (fun rec => if ra_Advertise (rr_resolved rec) then Some (rr_resolved rec) else None) (rg_exact r) /\
      rg_routes r = map (ruleOf cfg) (ac_ModelRoutes cfg) /\ rg_defaultModel r = TrimSpace (ac_DefaultModel cfg) /\
      rg_openAICompat r = ac_OpenAICompatPassthrough cfg /\ rg_passthroughOverrides r = overridesOf cfg
  | Fail _ => ~ exists es, consistent cfg es
  | Panic => False
  end.
Proof.
  unfold NewRegistry. destruct (validateAdapterCoreConfig cfg) as [[]|e|] eqn:Ec; cbn [mbind outcome_bind].
  2:{ intros [es H]. apply cs_core in H. congruence. }
  2:{ unfold validateAdapterCoreConfig, orFail in Ec. repeat case_match; done. }
  destruct (validateAdapterLogprobs _) as [[]|e|] eqn:El; cbn [mbind outcome_bind].
  2:{ intros [es H]. apply cs_logprobs in H. congruence. }
  2:{ unfold validateAdapterLogprobs in El. repeat case_match; done. }
  pose proof (addModels_adds cfg _ _ [] (sortedFields (ac_Models cfg)) (emptyRegistry_built cfg now)) as [H1 H2 H3].
  change (rg_passthroughOverrides (emptyRegistry toLowerRune cfg now)) with (overridesOf cfg) in *. fold (catalogEntries cfg (overridesOf cfg)) in *.
  destruct (addModels _ _ _ _) as [r|e|] eqn:Em; cbn [mbind outcome_bind]; [|intros [es H]; by destruct (H2 es (cs_entries _ _ H) (cs_unique _ _ H))|done].
  destruct (H1 r eq_refl) as (es & He & Hb). cbn [app] in Hb. rewrite (bt_default _ _ _ Hb). cbn [emptyRegistry rg_defaultModel].
  assert (forall es', consistent cfg es' -> es' = es) as Hes by (intros es' H; apply cs_entries in H; congruence).
  destruct (bool_decide (TrimSpace (ac_DefaultModel cfg) <> []) && bool_decide (rg_exact r !! modelKey (TrimSpace (ac_DefaultModel cfg)) = None)) eqn:Ed.
  { apply andb_true_iff in Ed as [Hd%bool_decide_eq_true Hn%bool_decide_eq_true]. intros [es' H]. pose proof (Hes _ H) as ->. by apply (built_lookup _ _ _ _ Hb) in Hn; destruct Hn; apply H. }
  pose proof (addRoutes_exact cfg r 0 (ac_ModelRoutes cfg)) as Hr. destruct (addRoutes _ _ _ _) as [r'|e|]; [|intros [es' H]; by apply Hr, (cs_routes _ _ H)|done].
  destruct Hr as [Hroutes ->]. exists es. cbn [setRoutes rg_exact rg_advertised rg_passthroughOverrides rg_routes rg_defaultModel rg_openAICompat].
  rewrite (bt_routes _ _ _ Hb), (bt_default _ _ _ Hb), (bt_compat _ _ _ Hb), (bt_overrides _ _ _ Hb), <- (bt_advertised _ _ _ Hb), <- (bt_exact _ _ _ Hb). split_and!; try done.
  split; [done|done|done|by apply Hb| |done]. intros Hd. destruct (decide (modelKey (TrimSpace (ac_DefaultModel cfg)) ∈ es.*1)) as [|Hn]; [done|]. exfalso.
  apply (built_lookup _ _ _ _ Hb) in Hn. apply andb_false_iff in Ed as [Ed|Ed]; by apply bool_decide_eq_false in Ed.
Qed.

(** ** Answers *)

(** Whether a route claims a model on a surface. *)
Definition claims (surface requested : bytes) (route : routeRule) : bool :=
  bool_decide (Match (ru_pattern route) requested = Some true) && bool_decide (surface ∈ ru_surfaces route).

Lemma resolveRoutes_find surface requested effort routes : Forall (fun route => Match (ru_pattern route) (lit "model") <> None) routes ->
  resolveRoutes surface requested effort routes = match List.find (claims surface requested) routes with
    | None => Ok None
    | Some route => if ru_providerEnabled route then Ok (Some (wildcardResolved requested (ru_provider route) (ru_wireProfile route) effort, effort))
                    else Fail (DisabledProvider requested (ru_provider route))
    end.
Proof.
  induction 1 as [|route routes Hr _ IH]; [done|]. cbn [resolveRoutes List.find]. unfold claims at 1.
  destruct (Match (ru_pattern route) requested) as [m|] eqn:E; [|by rewrite (Match_bad _ _ (lit "model")) in E]. destruct m; cbn [negb orb].
  - rewrite (bool_decide_eq_true_2 (Some true = Some true)) by done. cbn [andb]. rewrite bool_decide_not. destruct (bool_decide (surface ∈ ru_surfaces route)); cbn [negb]; [|done].
    by destruct (ru_providerEnabled route).
  - by rewrite (bool_decide_eq_false_2 (Some false = Some true)).
Qed.

(** The answer of a registry for a configuration, by the catalog alone. *)
Definition answer (cfg : AdapterConfig) (es : list (bytes * registryRecord)) (surface requestedModel effort : bytes) : outcome resolveError (ResolvedAlias * bytes) :=
  let name := if bool_decide (TrimSpace requestedModel = []) then TrimSpace (ac_DefaultModel cfg) else TrimSpace requestedModel in
  if bool_decide (name = []) then Fail ModelRequired
  else match (list_to_map es : gmap bytes registryRecord) !! modelKey name with
       | Some record => resolveExact record name effort
       | None =>
           match List.find (claims surface name) (map (ruleOf cfg) (ac_ModelRoutes cfg)) with
           | Some route => if ru_providerEnabled route then Ok (wildcardResolved name (ru_provider route) (ru_wireProfile route) effort, effort)
                           else Fail (DisabledProvider name (ru_provider route))
           | None => if bool_decide (pt_BaseURL (ac_OpenAICompatPassthrough cfg) = []) then Fail (UnknownModel name)
                     else Ok (unknownResolved name BackendPassthroughOverride effort [] (ac_OpenAICompatPassthrough cfg), effort)
           end
       end.

(** C21. A registry is built exactly for a consistent configuration: one with an entry for every
    canonical name, alias and generated alias, no two under one normalized name.  It lists the
    entries that ask for it and whose provider is enabled, and answers by the catalog: an exact
    entry first, then the first route that claims the name on the surface, then the passthrough;
    the default model stands for a blank name.  No pattern is refused when a request is
    resolved, and the default model is never missing. *)
Theorem Registry_refines_catalog cfg now :
  match NewRegistry toLowerRune cfg now with
  | Ok r => exists es, consistent cfg es /\ (forall key, rg_exact r !! key = (list_to_map es : gmap bytes registryRecord) !! key) /\
      (forall key a, rg_advertised r !! key = Some a <-> exists rec, (key, rec) ∈ es /\ rr_resolved rec = a /\ ra_Advertise a = true) /\
      forall surface requestedModel effort, Resolve toLowerRune (Some r) surface requestedModel effort = answer cfg es surface requestedModel effort
  | Fail _ => ~ exists es, consistent cfg es
  | Panic => False
  end.
Proof.
  pose proof (NewRegistry_built cfg now) as H. destruct (NewRegistry _ cfg now) as [r|e|]; [|done|done]. destruct H as (es & Hc & He & Ha & Hr & Hd & Ho & _).
  exists es. split; [done|]. split; [by rewrite He|]. split.
  - intros key a. rewrite Ha, lookup_omap_Some. split.
    + intros (rec & Hrec & Hk). rewrite He in Hk. apply elem_of_list_to_map_2 in Hk. destruct (ra_Advertise _) eqn:E; [|done]. injection Hrec as <-. by exists rec.
    + intros (rec & Hin & <- & E). exists rec. rewrite E. split; [done|]. rewrite He. apply elem_of_list_to_map_1; [apply (cs_unique _ _ Hc)|done].
  - intros surface requestedModel effort. unfold Resolve, answer. rewrite Hd, He, Ho, Hr. destruct (decide (TrimSpace requestedModel = [])) as [Hm|Hm].
    + rewrite !(bool_decide_eq_true_2 (TrimSpace requestedModel = [])) by done. case_bool_decide as Hn; [done|].
      destruct (_ !! modelKey (TrimSpace (ac_DefaultModel cfg))) eqn:El; [done|]. apply not_elem_of_list_to_map_2 in El. by destruct El; apply (cs_default _ _ Hc).
    + rewrite !(bool_decide_eq_false_2 (TrimSpace requestedModel = [])) by done. destruct (_ !! modelKey (TrimSpace requestedModel)); [done|].
      rewrite resolveRoutes_find by (apply Forall_map; apply (cs_routes _ _ Hc)). destruct (List.find _ _) as [route|]; [by destruct (ru_providerEnabled route)|]. cbn [mbind outcome_bind].
      rewrite bool_decide_not. by destruct (bool_decide (pt_BaseURL _ = [])).
Qed.

(** Whatever the registry, an exact entry answers with the effort that was asked for, else
    the bound one, else the default; it is one of the efforts of the profile, agrees with the
    bound one and is written as the profile says; other requests are refused with an error that
    names the reason. *)
Theorem resolveExact_effort record requested effort :
  match resolveExact record requested effort with
  | Ok (a, e) => rr_providerEnabled record = true /\ e = effectiveEffort record effort /\ (effort <> [] -> e = effort) /\
      (e = [] \/ e ∈ ra_Efforts (rr_resolved record)) /\ (rr_boundEffort record <> [] -> e = rr_boundEffort record) /\
      a = setEffort (rr_resolved record) requested e (default e (ra_EffortWireValues (rr_resolved record) !! e))
  | Fail err =>
      err = DisabledProvider requested (ra_Backend (rr_resolved record)) /\ rr_providerEnabled record = false \/
      err = EffortConflict effort requested /\ effort <> [] /\ rr_boundEffort record <> [] /\ effort <> rr_boundEffort record \/
      exists e, err = EffortUnsupported e requested (ra_Efforts (rr_resolved record)) /\ e = effectiveEffort record effort /\ e <> [] /\ e ∉ ra_Efforts (rr_resolved record)
  | Panic => False
  end.
Proof.
  unfold resolveExact. destruct (rr_providerEnabled record); cbn [negb]; [|by left].
  destruct (bool_decide (rr_boundEffort record <> []) && _ && _) eqn:Ec.
  { apply andb_true_iff in Ec as [[H1%bool_decide_eq_true H2%bool_decide_eq_true]%andb_true_iff H3%bool_decide_eq_true]. right. left. done. }
  destruct (bool_decide (effectiveEffort record effort <> []) && _) eqn:Eu.
  { apply andb_true_iff in Eu as [H1%bool_decide_eq_true H2%bool_decide_eq_true]. right. right. by exists (effectiveEffort record effort). }
  assert (rr_boundEffort record <> [] -> effort <> [] -> effort = rr_boundEffort record) as Hbound.
  { intros H1 H2. rewrite !bool_decide_eq_true_2 in Ec by done. cbn [andb] in Ec. apply bool_decide_eq_false in Ec. by destruct (decide (effort = rr_boundEffort record)). }
  split_and!; [done|done| | | |done].
  - intros He. unfold effectiveEffort. rewrite (bool_decide_eq_false_2 (effort = [])) by done. by rewrite bool_decide_eq_false_2.
  - apply andb_false_iff in Eu as [Eu|Eu]; apply bool_decide_eq_false in Eu; [left|right]; destruct (decide (effectiveEffort record effort = [])), (decide (effectiveEffort record effort ∈ ra_Efforts (rr_resolved record))); done.
  - intros Hb. unfold effectiveEffort. destruct (decide (effort = [])) as [->|He].
    + change (bool_decide (@nil Byte.byte = [])) with true. cbv iota. by rewrite bool_decide_eq_false_2.
    + rewrite (bool_decide_eq_false_2 (effort = [])) by done. cbv iota. rewrite (bool_decide_eq_false_2 (effort = [])) by done. by apply Hbound.
Qed.
End spec.
