(* ===== verification/AdCatalogSpec.v ===== *)
(** * AdCatalogSpec: what the validation of the catalog is good for

    [validated_builds]: a validated catalog becomes a registry unless generated aliases collide
    or a blank override is named.  [validated_resolves]: in that registry the default model and
    every listed alias resolve, on every surface, and no route is to a disabled provider. *)

From S2P Require Import Prelude GoUtf8 GoStrconv GoText GoSort GoFloat GoPath AdModel AdCatalog AdModelSpec.

Open Scope Z_scope.

(** ** Inverting a validation *)

Lemma bind_Ok {E A B} (m : outcome E A) (k : A -> outcome E B) b : m ≫= k = Ok b <-> exists a, m = Ok a /\ k a = Ok b.
Proof. destruct m as [a|e|]; cbn; split; [by exists a|by intros (a' & [= ->] & H)|done|by intros (? & ? & ?)|done|by intros (? & ? & ?)]. Qed.

Lemma refuseIf_Ok condition path what k u : refuseIf condition path what k = Ok u <-> condition = false /\ k = Ok u.
Proof. unfold refuseIf, orFail. destruct condition; [by split; [|intros []]|tauto]. Qed.

Ltac accept H := repeat first
  [ apply refuseIf_Ok in H as [? H]
  | apply bind_Ok in H as (? & ? & H) ].

Lemma bool_decide_false_not (P : Prop) `{Decision P} : bool_decide P = false -> ~ P.
Proof. apply bool_decide_eq_false_1. Qed.

(** [given -> P], decided. *)
Lemma unless_given {A} `{EqDecision A} (x y : A) (P : Prop) `{Decision P} {D1 : Decision (x <> y)} {D2 : Decision (~ P)} :
  bool_decide (x <> y) && bool_decide (~ P) = false -> x = y \/ P.
Proof.
  intros Hg. destruct (decide (x = y)) as [|Hx]; [by left|right]. apply andb_false_iff in Hg as [Hg|Hg]; apply bool_decide_eq_false in Hg; [done|].
  by apply dec_stable.
Qed.

Lemma contextsLoop_names path index seen contexts u : contextsLoop path index seen contexts = Ok u ->
  Forall (fun c => TrimSpace (pc_Name c) <> []) contexts.
Proof.
  revert index seen. induction contexts as [|c contexts IH]; intros index seen H; [constructor|]. cbn [contextsLoop] in H. accept H.
  constructor; [by apply (bool_decide_false_not (TrimSpace (pc_Name c) = []))|by eapply IH].
Qed.

Lemma effortsLoop_efforts path seen efforts seen' : effortsLoop path seen efforts = Ok seen' -> forall e, e ∈ seen' <-> e ∈ seen \/ e ∈ efforts.
Proof.
  revert seen. induction efforts as [|effort efforts IH]; intros seen H e; cbn [effortsLoop] in H.
  { injection H as ->. split; [by left|intros [|?%not_elem_of_nil]; done]. }
  destruct (blankName effort); [done|]. case_bool_decide; [done|]. rewrite (IH _ H), elem_of_union, elem_of_singleton, elem_of_cons. tauto.
Qed.

Lemma thinkingLoop_names path most profiles u : thinkingLoop path most profiles = Ok u -> Forall (fun p => TrimSpace p.1 <> []) profiles.
Proof.
  induction profiles as [|[name thinking] profiles IH]; intros H; [constructor|]. cbn [thinkingLoop] in H. accept H.
  constructor; [by apply (bool_decide_false_not (TrimSpace name = []))|by apply IH].
Qed.

Section spec.
Context (toLowerRune : Z -> Z) (order : forall A, gmap bytes A -> list (bytes * A)).
Context (order_visits : forall A (m : gmap bytes A), order A m ≡ₚ map_to_list m).
Local Abbreviation lower := (ToLower toLowerRune).
Local Abbreviation modelKey := (modelKey toLowerRune).

Lemma elem_of_order {A} (m : gmap bytes A) k v : (k, v) ∈ order A m <-> m !! k = Some v.
Proof. by rewrite order_visits, elem_of_map_to_list. Qed.

(** What the profiles of a validated catalog satisfy. *)
Record profileOk (p : AdapterModelProfile) : Prop := {
  po_contexts : mp_Contexts p <> [];
  po_names : Forall (fun c => TrimSpace (pc_Name c) <> []) (mp_Contexts p);
  po_default : mp_DefaultEffort p = [] \/ mp_DefaultEffort p ∈ mp_ReasoningEfforts p;
  po_thinking : forall name t, mp_ThinkingProfiles p !! name = Some t -> TrimSpace name <> [];
}.

Lemma profile_ok name p u : validateAdapterModelProfile order name p = Ok u -> profileOk p.
Proof.
  intros H. unfold validateAdapterModelProfile in H. accept H. split.
  - by apply (bool_decide_false_not (mp_Contexts p = [])).
  - by eapply contextsLoop_names.
  - match goal with H : effortsLoop _ _ _ = Ok ?s |- _ => rename s into seen; pose proof (effortsLoop_efforts _ _ _ _ H) as Hs end.
    destruct (unless_given (mp_DefaultEffort p) [] (mp_DefaultEffort p ∈ seen)) as [|He]; [done|by left|right]. apply Hs in He as [?%elem_of_empty|]; done.
  - intros n t Ht. apply thinkingLoop_names in H. apply elem_of_order in Ht. rewrite Forall_forall in H. exact (H _ Ht).
Qed.

Lemma profiles_ok profiles u : profilesLoop order profiles = Ok u -> Forall (fun p => profileOk p.2) profiles.
Proof.
  induction profiles as [|[name p] profiles IH]; intros H; [constructor|]. cbn [profilesLoop] in H. accept H.
  constructor; [by eapply profile_ok|by apply IH].
Qed.

(** ** Bindings *)

Record bindingOk (p : AdapterModelProfile) (b : AdapterModelAlias) : Prop := {
  bo_effort : al_ReasoningEffort b = [] \/ al_ReasoningEffort b ∈ mp_ReasoningEfforts p;
  bo_context : al_Context b = [] \/ al_Context b ∈ map pc_Name (mp_Contexts p);
  bo_thinking : al_ThinkingProfile b = [] \/ is_Some (mp_ThinkingProfiles p !! al_ThinkingProfile b);
}.

Lemma references_ok path b p u : validateAdapterModelAliasReferences path b p = Ok u -> bindingOk p b.
Proof.
  intros H. unfold validateAdapterModelAliasReferences in H. accept H. split; [match goal with H : _ |- _ => exact (unless_given _ _ _ H) end|match goal with H : _ |- _ => exact (unless_given _ _ _ H) end|].
  destruct (decide (al_ThinkingProfile b = [])) as [|Hn]; [by left|right].
  match goal with H : _ && bool_decide (_ !! _ = None) = false |- _ => rewrite (bool_decide_eq_true_2 (al_ThinkingProfile b <> [])) in H by done; cbn [andb] in H; apply bool_decide_eq_false in H end.
  by apply not_eq_None_Some.
Qed.

Lemma TrimSpace_nil_of s : s = [] -> TrimSpace s = [].
Proof. by intros ->. Qed.

(** A declared binding resolves. *)
Lemma binding_resolves alias d p b : profileOk p -> bindingOk p b -> exists r, resolvedFromDeclaration alias d p b = Ok r /\
  ra_Efforts r = mp_ReasoningEfforts p /\ ra_DefaultEffort r = mp_DefaultEffort p /\ ra_Effort r = al_ReasoningEffort b.
Proof.
  intros Hp Hb. unfold resolvedFromDeclaration.
  assert (exists c, selectContext alias (mp_Contexts p) (al_Context b) = Ok c) as [c ->].
  { unfold selectContext. pose proof (po_contexts p Hp) as Hne. destruct (mp_Contexts p) as [|first rest] eqn:Ec; [done|]. case_bool_decide as Hn; [by eexists|].
    destruct (List.find _ _) as [c|] eqn:Ef; [by eexists|]. exfalso. destruct (bo_context _ _ Hb) as [Hc|Hc]; [by rewrite Hc in Hn|]. rewrite Ec in Hc.
    apply list_elem_of_fmap in Hc as (c & Hc & Hin). pose proof (List.find_none _ _ Ef c (proj1 (list_elem_of_In _ _) Hin)) as Hf. cbn beta in Hf.
    apply bool_decide_eq_false in Hf. by rewrite Hc in Hf. }
  assert (exists t, selectThinking alias (mp_ThinkingProfiles p) (al_ThinkingProfile b) = Ok t) as [[[t budget] modes] ->].
  { unfold selectThinking. case_bool_decide as Hn; [by eexists|]. destruct (bo_thinking _ _ Hb) as [Ht|[t Ht]]; [by rewrite Ht in Hn|]. rewrite Ht. by eexists. }
  cbn [mbind outcome_bind]. eexists. split; [reflexivity|]. done.
Qed.

(** The bindings of generated aliases are declared. *)
Definition generatedOk (p : AdapterModelProfile) (b : aliasBindings) : Prop := bindingOk p (MkAlias [] false (ab_effort b) (ab_context b) (ab_thinking b)).

Lemma expand_ok p bindings dimension : Forall (generatedOk p) bindings -> Forall (generatedOk p) (expandAliasDimension bindings dimension p).
Proof.
  intros H. rewrite Forall_forall in H. unfold expandAliasDimension. repeat case_bool_decide; try by constructor.
  all:
    apply Forall_forall; intros b (l & Hb & Hl)%list_elem_of_concat; apply list_elem_of_fmap in Hl as (b0 & -> & Hb0%H); apply list_elem_of_fmap in Hb as (x & -> & Hx);
    destruct Hb0 as [He Hc Ht]; split; cbn [al_ReasoningEffort al_Context al_ThinkingProfile ab_effort ab_context ab_thinking] in *; try done.
  - right. apply list_elem_of_fmap. by exists x.
  - by right.
  - apply list_elem_of_fmap in Hx as ([k v] & -> & Hx). apply elem_of_sortedFields in Hx. right. by eexists.
Qed.

Lemma generatedBindings_ok p dimensions : Forall (generatedOk p) (generatedBindings dimensions p).
Proof.
  unfold generatedBindings. assert (Forall (generatedOk p) [MkBindings [] [] [] []]) as H by (repeat constructor; by left).
  revert H. generalize [MkBindings [] [] [] []]. induction dimensions as [|d dimensions IH]; intros bindings H; [done|]. cbn [foldl]. apply IH. by apply expand_ok.
Qed.

Lemma generatedAlias_named prefix b : TrimSpace prefix <> [] -> TrimSpace (generatedAlias prefix b) <> [].
Proof.
  intros H. unfold generatedAlias. pose proof (TrimSpace_trimmed prefix) as [Hl _]. destruct (ab_parts b); [by rewrite TrimSpace_idem|].
  apply TrimSpace_nonempty; [|by destruct (TrimSpace prefix)]. change (lit "-" ++ ?x) with (Byte.x2d :: x). by apply trimmedLeft_ascii.
Qed.
(** ** Declarations *)

(** The exact names of the catalog with their providers, in the order of the two loops. *)
Definition canonicalNames (models : list (bytes * AdapterModelDeclaration)) : list (bytes * bytes) :=
  map (fun '(id, d) => (lower (TrimSpace id), md_Provider d)) models.
Definition aliasNames (d : AdapterModelDeclaration) : list (bytes * bytes) :=
  map (fun alias => (lower (TrimSpace (al_ID alias)), md_Provider d)) (md_Aliases d).
Definition explicitNames (models : list (bytes * AdapterModelDeclaration)) : list (bytes * bytes) :=
  canonicalNames models ++ concat (map (fun '(_, d) => aliasNames d) models).

Definition aliasOk (enabled : bool) (p : AdapterModelProfile) (alias : AdapterModelAlias) : Prop :=
  TrimSpace (al_ID alias) <> [] /\ bindingOk p alias /\ (al_Advertise alias = true -> enabled = true).

Record declarationOk (cfg : AdapterConfig) (d : AdapterModelDeclaration) (p : AdapterModelProfile) : Prop := {
  do_aliases : Forall (aliasOk (adapterProviderEnabled cfg (md_Provider d)) p) (md_Aliases d);
  do_prefix : ga_Dimensions (md_GeneratedAliases d) <> [] -> TrimSpace (ga_Prefix (md_GeneratedAliases d)) <> [];
  do_override : TrimSpace (md_PassthroughOverride d) = [] \/ TrimSpace (md_PassthroughOverride d) ∈ map fst (ac_PassthroughOverrides cfg);
  do_listed : md_Advertise d = true \/ ga_Advertise (md_GeneratedAliases d) = true -> adapterProviderEnabled cfg (md_Provider d) = true;
}.

(** A map of names grows by fresh ones. *)
Lemma list_to_map_fresh (ps : list (bytes * bytes)) k v : NoDup ps.*1 -> (list_to_map ps : gmap bytes bytes) !! k = None ->
  <[k := v]> (list_to_map ps : gmap bytes bytes) = list_to_map (ps ++ [(k, v)]) /\ NoDup (ps ++ [(k, v)]).*1.
Proof.
  intros Hn Hk. apply not_elem_of_list_to_map_2 in Hk. split; [by rewrite list_to_map_snoc|]. rewrite fmap_app. apply NoDup_app.
  split; [done|]. split; [|repeat constructor; by intros []%not_elem_of_nil]. by intros x Hx ->%list_elem_of_singleton.
Qed.

Lemma canonicalLoop_names ps models m : NoDup ps.*1 -> canonicalLoop toLowerRune (list_to_map ps) models = Ok m ->
  m = list_to_map (ps ++ canonicalNames models) /\ NoDup (ps ++ canonicalNames models).*1 /\ Forall (fun m => TrimSpace m.1 <> []) models.
Proof.
  revert ps. induction models as [|[id d] models IH]; intros ps Hn H; cbn [canonicalLoop canonicalNames map] in *.
  { injection H as <-. by rewrite !app_nil_r. }
  case_bool_decide as Hid; [done|]. destruct (_ !! lower (TrimSpace id)) eqn:E; [done|]. destruct (list_to_map_fresh ps _ (md_Provider d) Hn E) as [Hm Hn'].
  rewrite Hm in H. destruct (IH _ Hn' H) as (-> & Hd & Hf). unfold canonicalNames in *. rewrite <- !app_assoc in *. cbn [app] in *. split_and!; [done|done|by constructor].
Qed.

Lemma aliasesLoop_names path provider enabled p index ps aliases m : NoDup ps.*1 -> aliasesLoop toLowerRune path provider enabled p index (list_to_map ps) aliases = Ok m ->
  let names := ps ++ map (fun alias => (lower (TrimSpace (al_ID alias)), provider)) aliases in
  m = list_to_map names /\ NoDup names.*1 /\ Forall (aliasOk enabled p) aliases.
Proof.
  revert index ps. induction aliases as [|alias aliases IH]; intros index ps Hn H; cbn [aliasesLoop map] in *.
  { injection H as <-. by rewrite !app_nil_r. }
  case_bool_decide as Hid; [done|]. destruct (_ !! lower (TrimSpace (al_ID alias))) eqn:E; [done|]. destruct (list_to_map_fresh ps _ provider Hn E) as [Hm Hn'].
  destruct (al_Advertise alias && negb enabled) eqn:Ea; [done|]. apply bind_Ok in H as (u & Hr & H). rewrite Hm in H. destruct (IH _ _ Hn' H) as (-> & Hd & Hf).
  cbn zeta in *. rewrite <- !app_assoc in *. cbn [app] in *. split_and!; [done|done|]. constructor; [|done]. split_and!; [done|by eapply references_ok|].
  intros Hl. rewrite Hl in Ea. by destruct enabled.
Qed.

Lemma declaration_names cfg id d p ps m : NoDup ps.*1 -> validateAdapterModelDeclaration toLowerRune cfg id d p (list_to_map ps) = Ok m ->
  m = list_to_map (ps ++ aliasNames d) /\ NoDup (ps ++ aliasNames d).*1 /\ declarationOk cfg d p.
Proof.
  intros Hn H. unfold validateAdapterModelDeclaration in H. apply bind_Ok in H as (u & Hc & H). apply bind_Ok in H as (m' & Ha & H).
  apply bind_Ok in H as (u' & Hg & H). injection H as <-. destruct (aliasesLoop_names _ _ _ _ _ _ _ _ Hn Ha) as (-> & Hd & Hf). split_and!; [done|done|].
  apply refuseIf_Ok in Hc as [_ Hc]. apply refuseIf_Ok in Hc as [_ Hc]. apply refuseIf_Ok in Hc as [_ Hc].
  apply refuseIf_Ok in Hc as [Hl1 Hc]. apply refuseIf_Ok in Hc as [Hl2 Hc]. apply bind_Ok in Hc as (u2 & Ho & _). split; [done| | |].
  - unfold validateAdapterGeneratedAliases in Hg. destruct (ga_Dimensions _); [done|]. intros _. apply refuseIf_Ok in Hg as [Hp _].
    by apply (bool_decide_false_not (TrimSpace (ga_Prefix (md_GeneratedAliases d)) = [])).
  - case_bool_decide.
    + apply refuseIf_Ok in Ho as [_ Ho]. apply refuseIf_Ok in Ho as [Ho _]. right. apply bool_decide_eq_false in Ho. by apply dec_stable.
    + apply refuseIf_Ok in Ho as [Ho _]. left. apply bool_decide_eq_false in Ho. by apply dec_stable.
  - destruct (adapterProviderEnabled _ _); [done|]. cbn [negb andb] in *. by intros [?|?]; congruence.
Qed.

Lemma declarationsLoop_names cfg prices ps models m : NoDup ps.*1 -> declarationsLoop toLowerRune cfg prices (list_to_map ps) models = Ok m ->
  let names := ps ++ concat (map (fun '(_, d) => aliasNames d) models) in
  m = list_to_map names /\ NoDup names.*1 /\
  Forall (fun m => exists p, ac_ModelProfiles cfg !! TrimSpace (md_Profile m.2) = Some p /\ declarationOk cfg m.2 p) models.
Proof.
  revert prices ps. induction models as [|[id d] models IH]; intros prices ps Hn H; cbn [declarationsLoop map concat] in *.
  { injection H as <-. by rewrite !app_nil_r. }
  destruct (ac_ModelProfiles cfg !! _) as [p|] eqn:Ep; [|done]. destruct (blankName _); [done|]. apply bind_Ok in H as (m' & Hd & H).
  destruct (declaration_names _ _ _ _ _ _ Hn Hd) as (-> & Hn' & Hok).
  assert (exists prices', declarationsLoop toLowerRune cfg prices' (list_to_map (ps ++ aliasNames d)) models = Ok m) as [prices' H'].
  { destruct (isZeroAdapterModelPricing _); [by eexists|]. destruct (prices !! _) as [[other previous]|]; [|by eexists]. destruct (samePricing _ _); [by eexists|done]. }
  destruct (IH _ _ Hn' H') as (-> & Hns & Hf). cbn zeta in *. rewrite <- !app_assoc in *. split_and!; [done|done|]. constructor; [by exists p|done].
Qed.
(** ** A validated catalog *)

Definition models (cfg : AdapterConfig) : list (bytes * AdapterModelDeclaration) := sortedFields (ac_Models cfg).

Record validated (cfg : AdapterConfig) : Prop := {
  va_profiles : forall name p, ac_ModelProfiles cfg !! name = Some p -> profileOk p;
  va_ids : Forall (fun m => TrimSpace m.1 <> []) (models cfg);
  va_declarations : Forall (fun m => exists p, ac_ModelProfiles cfg !! TrimSpace (md_Profile m.2) = Some p /\ declarationOk cfg m.2 p) (models cfg);
  va_names : NoDup (explicitNames (models cfg)).*1;
  va_default : TrimSpace (ac_DefaultModel cfg) <> [] ->
    exists provider, (lower (TrimSpace (ac_DefaultModel cfg)), provider) ∈ explicitNames (models cfg) /\ adapterProviderEnabled cfg provider = true;
  va_routes : Forall (fun route => Match (mr_Match route) (lit "model") <> None /\ adapterProviderEnabled cfg (mr_Provider route) = true) (ac_ModelRoutes cfg);
}.

Lemma routes_ok cfg index routes u : routesLoop cfg index routes = Ok u ->
  Forall (fun route => Match (mr_Match route) (lit "model") <> None /\ adapterProviderEnabled cfg (mr_Provider route) = true) routes.
Proof.
  revert index. induction routes as [|route routes IH]; intros index H; [constructor|]. cbn [routesLoop] in H. apply bind_Ok in H as (u' & Hr & H).
  constructor; [|by eapply IH]. unfold validateAdapterModelRoute in Hr. accept Hr. split; [|by apply negb_false_iff].
  by apply (bool_decide_false_not (Match (mr_Match route) (lit "model") = None)).
Qed.

Lemma catalog_validated cfg u : validateAdapterModelCatalog toLowerRune order cfg = Ok u -> validated cfg.
Proof.
  intros H. unfold validateAdapterModelCatalog in H. apply bind_Ok in H as (u1 & Hp & H). apply bind_Ok in H as (aliases & Hd & H). apply bind_Ok in H as (u2 & Hdef & Hr).
  unfold validateAdapterModelDeclarations in Hd. apply bind_Ok in Hd as (canonical & Hc & Hd).
  destruct (canonicalLoop_names [] (models cfg) canonical) as (-> & Hn & Hids); [constructor|done|]. cbn [app] in *.
  destruct (declarationsLoop_names cfg ∅ _ (models cfg) aliases Hn Hd) as (-> & Hn' & Hds). cbn zeta in *. fold (explicitNames (models cfg)) in *.
  split; [|done|done|done| |by eapply routes_ok].
  - intros name p Hl. apply profiles_ok in Hp. rewrite Forall_forall in Hp. apply elem_of_order in Hl. exact (Hp _ Hl).
  - intros Hne. unfold validateAdapterDefaultModel in Hdef. rewrite (bool_decide_eq_false_2 _ Hne) in Hdef. destruct (_ !! _) as [provider|] eqn:E; [|done].
    apply elem_of_list_to_map_2 in E. exists provider. split; [done|]. apply refuseIf_Ok in Hdef as [He _]. by apply negb_false_iff.
Qed.

(** ** The entries of a validated catalog *)

Definition generatedNames (cfg : AdapterConfig) (d : AdapterModelDeclaration) : list bytes :=
  match ac_ModelProfiles cfg !! TrimSpace (md_Profile d), ga_Dimensions (md_GeneratedAliases d) with
  | Some p, (_ :: _) as dimensions => map (fun b => lower (TrimSpace (generatedAlias (ga_Prefix (md_GeneratedAliases d)) b))) (generatedBindings dimensions p)
  | _, _ => []
  end.

(** A declaration names an override of blanks only: the validation takes it for no override, the
    registry looks it up. *)
Definition blankOverride (d : AdapterModelDeclaration) : Prop := md_PassthroughOverride d <> [] /\ TrimSpace (md_PassthroughOverride d) = [].

(** Some override is configured under a blank name. *)
Definition blankConfigured (cfg : AdapterConfig) : Prop := exists name, name ∈ map fst (ac_PassthroughOverrides cfg) /\ modelKey name = [].

Lemma overridesOf_Some cfg key : is_Some (overridesOf toLowerRune cfg !! key) <-> exists name, name ∈ map fst (ac_PassthroughOverrides cfg) /\ modelKey name = key.
Proof.
  assert (forall overrides (m : gmap bytes passthrough), is_Some (foldl (fun m '(name, config) => <[modelKey name := config]> m) m overrides !! key) <->
    is_Some (m !! key) \/ exists name, name ∈ map fst overrides /\ modelKey name = key) as H.
  { intros overrides. induction overrides as [|[name config] overrides IH]; intros m; cbn [foldl map fst].
    - split; [by left|]. intros [?|(? & ?%not_elem_of_nil & _)]; done.
    - rewrite IH, lookup_insert_is_Some'. setoid_rewrite elem_of_cons. split.
      + intros [[?|?]|(n & ? & ?)]; [right; exists name; auto|by left|right; exists n; auto].
      + intros [?|(n & [->|?] & ?)]; [by left; right|by left; left|right; by exists n]. }
  unfold overridesOf, emptyRegistry. cbn [rg_passthroughOverrides]. rewrite H, lookup_empty. split; [intros [[? ?]|?]; done|by right].
Qed.

Lemma modelKey_trim s : modelKey (TrimSpace s) = lower (TrimSpace s).
Proof. unfold AdModel.modelKey. by rewrite TrimSpace_idem. Qed.

Definition keyOf (o : origin) : bytes := lower (TrimSpace o.1.1).

Lemma origins_ok cfg id d p : profileOk p -> declarationOk cfg d p -> TrimSpace id <> [] ->
  Forall (fun o => TrimSpace o.1.1 <> [] /\ bindingOk p o.1.2 /\ (o.2 = true -> adapterProviderEnabled cfg (md_Provider d) = true)) (origins id d p).
Proof.
  intros Hp Hd Hid. unfold origins. apply Forall_app. split; [repeat constructor; cbn; try done; try (by left); intros; apply (do_listed _ _ _ Hd); by left|].
  apply Forall_app. split.
  - apply Forall_map. eapply Forall_impl; [apply (do_aliases _ _ _ Hd)|]. by intros alias (H1 & H2 & H3).
  - pose proof (do_prefix _ _ _ Hd) as Hpre. pose proof (do_listed _ _ _ Hd) as Hl. destruct (ga_Dimensions _) as [|dim dims]; [constructor|]. apply Forall_map.
    eapply Forall_impl; [apply generatedBindings_ok|]. intros b [He Hc Ht]. cbn [fst snd]. split_and!; [by apply generatedAlias_named, Hpre|by split|intros; apply Hl; by right].
Qed.

Lemma origins_keys cfg id d p : ac_ModelProfiles cfg !! TrimSpace (md_Profile d) = Some p ->
  map keyOf (origins id d p) = lower (TrimSpace id) :: (aliasNames d).*1 ++ generatedNames cfg d.
Proof.
  intros Hp. unfold origins, generatedNames, aliasNames. rewrite Hp, !map_app. cbn [map app]. f_equal. f_equal.
  - rewrite map_map. change (fmap fst ?l) with (map fst l). by rewrite map_map.
  - destruct (ga_Dimensions _); [done|]. by rewrite map_map.
Qed.

Lemma entryOf_key overrides enabled d p o e : entryOf toLowerRune overrides enabled d p o = Some e -> e.1 = keyOf o.
Proof.
  destruct o as [[alias binding] advertise]. unfold entryOf. destruct (resolvedFromDeclaration _ _ _ _); [|done|done]. case_bool_decide; [done|].
  intros Hx. destruct (if bool_decide _ then _ else _); [|done]. injection Hx as <-. cbn [fst]. apply modelKey_trim.
Qed.

Lemma entryOf_total cfg d p o : profileOk p -> declarationOk cfg d p -> bindingOk p o.1.2 -> TrimSpace o.1.1 <> [] ->
  is_Some (entryOf toLowerRune (overridesOf toLowerRune cfg) (providerEnabled cfg (md_Provider d)) d p o) <-> (blankOverride d -> blankConfigured cfg).
Proof.
  destruct o as [[alias binding] advertise]. cbn [fst snd]. intros Hp Hd Hb Hn. unfold entryOf. destruct (binding_resolves alias d p binding Hp Hb) as (r & -> & _).
  rewrite (bool_decide_eq_false_2 _ Hn). case_bool_decide as Ho; [|split; [by intros _ []|by eexists]].
  assert (is_Some (overridesOf toLowerRune cfg !! modelKey (md_PassthroughOverride d)) <-> (blankOverride d -> blankConfigured cfg)) as Hiff.
  - rewrite overridesOf_Some. unfold blankOverride, blankConfigured. destruct (do_override _ _ _ Hd) as [Ht|Ht].
    + assert (modelKey (md_PassthroughOverride d) = []) as -> by (unfold AdModel.modelKey; by rewrite Ht). tauto.
    + split; [intros _ [_ Hnil]|intros _; exists (TrimSpace (md_PassthroughOverride d)); split; [done|apply modelKey_trim]].
      exists (TrimSpace (md_PassthroughOverride d)). split; [done|]. by rewrite modelKey_trim, Hnil.
  - rewrite <- Hiff. destruct (_ !! modelKey _) as [config|]; [split; intros _; by eexists|]. split; by intros [].
Qed.

Lemma mapM_keys {A} (f : A -> option (bytes * registryRecord)) (key : A -> bytes) l es :
  (forall x e, f x = Some e -> e.1 = key x) -> mapM f l = Some es -> es.*1 = map key l.
Proof. intros Hf H. apply mapM_Some_1 in H. induction H as [|x e l es He _ IH]; [done|]. cbn. by rewrite IH, (Hf _ _ He). Qed.

(** The keys of a catalog are the exact names and the generated ones. *)
Lemma entries_keys cfg es : validated cfg -> catalogEntries toLowerRune cfg (overridesOf toLowerRune cfg) = Some es ->
  es.*1 ≡ₚ (explicitNames (models cfg)).*1 ++ concat (map (fun '(_, d) => generatedNames cfg d) (models cfg)).
Proof.
  intros Hv H. unfold catalogEntries in H. fold (models cfg) in H. destruct (mapM _ (models cfg)) as [ess|] eqn:E; [|done]. injection H as <-. apply mapM_Some_1 in E.
  unfold explicitNames, canonicalNames. pose proof (va_declarations _ Hv) as Hd. induction E as [|[id d] es' ms ess He _ IH]; [done|].
  apply Forall_cons in Hd as [(p & Hp & _) Hd]. cbn [snd] in Hp. cbn [map concat]. rewrite !fmap_app. rewrite (IH Hd). unfold declarationEntries in He. cbn [snd fst] in He. rewrite Hp in He. cbn [mbind option_bind] in He.
  rewrite (mapM_keys _ keyOf _ _ (entryOf_key _ _ _ _) He), (origins_keys cfg) by done. cbn [app fmap list_fmap fst].
  rewrite !fmap_app. solve_Permutation.
Qed.
(** The catalog has entries unless a declaration names an override of blanks only. *)
Lemma entries_total cfg : validated cfg ->
  is_Some (catalogEntries toLowerRune cfg (overridesOf toLowerRune cfg)) <-> Forall (fun m => blankOverride m.2 -> blankConfigured cfg) (models cfg).
Proof.
  intros Hv. unfold catalogEntries. rewrite fmap_is_Some, mapM_is_Some, !Forall_forall. fold (models cfg). unfold compose.
  pose proof (va_declarations _ Hv) as Hd. pose proof (va_ids _ Hv) as Hi. rewrite Forall_forall in Hd, Hi.
  assert (forall m, m ∈ models cfg -> is_Some (declarationEntries toLowerRune cfg (overridesOf toLowerRune cfg) m) <-> (blankOverride m.2 -> blankConfigured cfg)) as Hm.
  { intros [id d] Hin. destruct (Hd _ Hin) as (p & Hp & Hok). cbn [snd] in Hp, Hok. pose proof (va_profiles _ Hv _ _ Hp) as Hpo. unfold declarationEntries. cbn [fst snd]. rewrite Hp. cbn [mbind option_bind].
    rewrite mapM_is_Some, Forall_forall. unfold compose. pose proof (origins_ok cfg id d p Hpo Hok (Hi _ Hin)) as Ho. split.
    - intros H. unfold origins in H, Ho. apply Forall_inv in Ho as (H1 & H2 & _). apply (entryOf_total cfg d p _ Hpo Hok H2 H1). apply H. by left.
    - intros H o Hoin. rewrite Forall_forall in Ho. destruct (Ho o Hoin) as (H1 & H2 & _). by apply entryOf_total. }
  split; intros H m Hin; specialize (H m Hin); by apply (Hm m Hin).
Qed.

Lemma default_named cfg (es : list (bytes * registryRecord)) : validated cfg -> es.*1 ≡ₚ (explicitNames (models cfg)).*1 ++ concat (map (fun '(_, d) => generatedNames cfg d) (models cfg)) ->
  TrimSpace (ac_DefaultModel cfg) <> [] -> modelKey (TrimSpace (ac_DefaultModel cfg)) ∈ es.*1.
Proof.
  intros Hv Hk Hne. destruct (va_default _ Hv Hne) as (provider & Hin & _). rewrite Hk, modelKey_trim. apply elem_of_app. left. apply list_elem_of_fmap. by exists (lower (TrimSpace (ac_DefaultModel cfg)), provider).
Qed.

(** C22. After a configuration has passed the validation of its catalog, of the core settings and
    of the logprobs setting, the registry can still fail to be built: exactly when two generated
    aliases, or a generated alias and a model or alias, have one normalized name, or when a
    declaration names an override of blanks only and no override is configured under a blank
    name.  An override with another name is always found, since the validation asks for it. *)
Theorem validated_builds cfg now u : validateAdapterModelCatalog toLowerRune order cfg = Ok u ->
  validateAdapterCoreConfig cfg = Ok tt -> validateAdapterLogprobs (ac_LogprobsAnthropic cfg) = Ok tt ->
  let generated := concat (map (fun '(_, d) => generatedNames cfg d) (models cfg)) in
  (exists r, NewRegistry toLowerRune cfg now = Ok r) <->
    NoDup generated /\ (forall name, name ∈ generated -> name ∉ (explicitNames (models cfg)).*1) /\ Forall (fun m => blankOverride m.2 -> blankConfigured cfg) (models cfg).
Proof.
  intros Hc Hcore Hlog generated. apply catalog_validated in Hc as Hv. pose proof (NewRegistry_built toLowerRune cfg now) as Hb. split.
  - intros [r Er]. rewrite Er in Hb. destruct Hb as (es & Hes & _). pose proof (entries_keys cfg es Hv (cs_entries _ _ _ Hes)) as Hk. pose proof (cs_unique _ _ _ Hes) as Hn.
    rewrite Hk in Hn. apply NoDup_app in Hn as (_ & Hdis & Hg). split_and!; [done| |apply entries_total; [done|]; eexists; apply (cs_entries _ _ _ Hes)].
    intros name Hg' Hin. by apply (Hdis name).
  - intros (Hg & Hdis & Hov). destruct (NewRegistry _ cfg now) as [r|e|]; [by exists r| |done]. exfalso. apply Hb.
    destruct (proj2 (entries_total cfg Hv) Hov) as [es He]. pose proof (entries_keys cfg es Hv He) as Hk. exists es. split; try done.
    + rewrite Hk. apply NoDup_app. split; [apply (va_names _ Hv)|]. split; [|done]. intros name Hin Hg'. by apply (Hdis name).
    + by apply default_named.
    + eapply Forall_impl; [apply (va_routes _ Hv)|]. by intros route [? _].
Qed.

(** ** Resolving *)

(** What every entry of a validated catalog satisfies. *)
Record entryOk (e : bytes * registryRecord) : Prop := {
  eo_key : e.1 = modelKey (ra_Alias (rr_resolved e.2)) /\ TrimSpace (ra_Alias (rr_resolved e.2)) = ra_Alias (rr_resolved e.2) /\ ra_Alias (rr_resolved e.2) <> [];
  eo_effort : rr_boundEffort e.2 = [] \/ rr_boundEffort e.2 ∈ ra_Efforts (rr_resolved e.2);
  eo_default : defaultEffort (rr_resolved e.2) = [] \/ defaultEffort (rr_resolved e.2) ∈ ra_Efforts (rr_resolved e.2);
  eo_listed : ra_Advertise (rr_resolved e.2) = true -> rr_providerEnabled e.2 = true;
}.

Lemma entryOf_ok cfg overrides d p o e : profileOk p -> bindingOk p o.1.2 -> TrimSpace o.1.1 <> [] ->
  entryOf toLowerRune overrides (providerEnabled cfg (md_Provider d)) d p o = Some e -> entryOk e /\ rr_providerEnabled e.2 = adapterProviderEnabled cfg (md_Provider d).
Proof.
  destruct o as [[alias binding] advertise]. cbn [fst snd]. intros Hp Hb Hn. unfold entryOf. destruct (binding_resolves alias d p binding Hp Hb) as (r & -> & He & Hd & Hr).
  rewrite (bool_decide_eq_false_2 _ Hn). intros Hx. destruct (if bool_decide _ then _ else _); [|done]. injection Hx as <-. split; [|done].
  split; cbn [fst snd rr_resolved rr_boundEffort rr_providerEnabled setEntry ra_Alias ra_Efforts ra_Advertise].
  - split_and!; [done|by rewrite TrimSpace_idem|done].
  - rewrite He. apply Hb.
  - unfold defaultEffort. cbn [setEntry ra_Effort ra_DefaultEffort]. rewrite He, Hd, Hr. case_bool_decide; [apply Hb|apply Hp].
  - intros [_ H]%andb_true_iff. done.
Qed.

Lemma entries_elem cfg es : validated cfg -> catalogEntries toLowerRune cfg (overridesOf toLowerRune cfg) = Some es ->
  Forall entryOk es /\
  forall name provider, (name, provider) ∈ explicitNames (models cfg) -> exists rec, (name, rec) ∈ es /\ rr_providerEnabled rec = adapterProviderEnabled cfg provider.
Proof.
  intros Hv H. unfold catalogEntries in H. fold (models cfg) in H. destruct (mapM _ (models cfg)) as [ess|] eqn:E; [|done]. injection H as <-. apply mapM_Some_1 in E.
  pose proof (va_declarations _ Hv) as Hd. pose proof (va_ids _ Hv) as Hi. unfold explicitNames, canonicalNames.
  induction E as [|[id d] es' ms ess He _ IH]; [split; [by apply Forall_nil|by intros ? ? ?%not_elem_of_nil]|].
  apply Forall_cons in Hd as [(p & Hp & Hok) Hd], Hi as [Hid Hi]. destruct (IH Hd Hi) as [IH1 IH2]. cbn [fst snd] in Hp, Hok, Hid. pose proof (va_profiles _ Hv _ _ Hp) as Hpo. pose proof (origins_ok cfg id d p Hpo Hok Hid) as Ho.
  unfold declarationEntries in He. cbn [snd fst] in He. rewrite Hp in He. cbn [mbind option_bind] in He. apply mapM_Some_1 in He. cbn [map concat].
  assert (Forall2 (fun o e => keyOf o = e.1 /\ entryOk e /\ rr_providerEnabled e.2 = adapterProviderEnabled cfg (md_Provider d)) (origins id d p) es') as Hes.
  { clear -He Ho Hpo. induction He as [|o e os es' He _ IH]; [constructor|]. apply Forall_cons in Ho as [(H1 & H2 & _) Ho]. constructor; [|by apply IH].
    split; [symmetry; by eapply entryOf_key|by eapply entryOf_ok]. }
  split.
  - apply Forall_app. split; [|done]. clear -Hes. induction Hes; constructor; tauto.
  - assert (forall name, name ∈ map keyOf (origins id d p) -> exists rec, (name, rec) ∈ es' ++ concat ess /\ rr_providerEnabled rec = adapterProviderEnabled cfg (md_Provider d)) as Hin.
    { intros name (o & -> & Hoin)%list_elem_of_fmap. apply list_elem_of_lookup in Hoin as [i Hi']. destruct (Forall2_lookup_l _ _ _ _ _ Hes Hi') as ([k rec] & Hk & Hkey & _ & Hen).
      cbn [fst snd] in *. exists rec. split; [|done]. apply elem_of_app. left. rewrite Hkey. by eapply list_elem_of_lookup_2. }
    rewrite (origins_keys cfg) in Hin by done. intros name provider [Hn|Hn]%elem_of_app.
    + apply elem_of_cons in Hn as [[= -> ->]|Hn]; [apply Hin; by left|].
      destruct (IH2 name provider) as (rec & Hr & Hen); [apply elem_of_app; by left|]. exists rec. split; [|done]. apply elem_of_app. by right.
    + apply elem_of_app in Hn as [Hn|Hn].
      * assert (provider = md_Provider d) as -> by (apply list_elem_of_fmap in Hn as (a & [= -> ->] & _); done).
        apply Hin. right. apply elem_of_app. left. apply list_elem_of_fmap. by exists (name, md_Provider d).
      * destruct (IH2 name provider) as (rec & Hr & Hen); [apply elem_of_app; by right|]. exists rec. split; [|done]. apply elem_of_app. by right.
Qed.

Lemma entry_resolves e requested : entryOk e -> rr_providerEnabled e.2 = true -> exists a effort, resolveExact e.2 requested [] = Ok (a, effort) /\ ra_WireModel a = ra_WireModel (rr_resolved e.2).
Proof.
  intros He Hen. unfold resolveExact. rewrite Hen. cbn [negb]. rewrite (bool_decide_eq_false_2 ([] <> [])) by (by intros []). rewrite andb_false_r. cbn [andb].
  assert (effectiveEffort e.2 [] = [] \/ effectiveEffort e.2 [] ∈ ra_Efforts (rr_resolved e.2)) as Hin.
  { unfold effectiveEffort. rewrite (bool_decide_eq_true_2 ([] = [])) by done. case_bool_decide; [apply He|apply He]. }
  replace (bool_decide (effectiveEffort e.2 [] <> []) && bool_decide (effectiveEffort e.2 [] ∉ ra_Efforts (rr_resolved e.2))) with false; [by eexists _, _|].
  symmetry. apply andb_false_iff. destruct Hin as [H|H]; [left|right]; apply bool_decide_eq_false; tauto.
Qed.

(** C23. In the registry of a validated configuration the default model resolves on every surface,
    every listed alias resolves to what the list says, and no route goes to a provider that is
    disabled. *)
Theorem validated_resolves cfg now u r : validateAdapterModelCatalog toLowerRune order cfg = Ok u -> NewRegistry toLowerRune cfg now = Ok r ->
  (rg_defaultModel r <> [] -> forall surface, exists a effort, Resolve toLowerRune (Some r) surface [] [] = Ok (a, effort)) /\
  (forall listed, listed ∈ List (Some r) -> forall surface, exists a effort,
     Resolve toLowerRune (Some r) surface (ra_Alias listed) [] = Ok (a, effort) /\ ra_WireModel a = ra_WireModel listed) /\
  Forall (fun route => ru_providerEnabled route = true) (rg_routes r).
Proof.
  intros Hc Hr. apply catalog_validated in Hc as Hv. pose proof (NewRegistry_built toLowerRune cfg now) as Hb. rewrite Hr in Hb.
  destruct Hb as (es & Hes & Hex & Had & Hrt & Hdef & _). destruct (entries_elem cfg es Hv (cs_entries _ _ _ Hes)) as [Hok Hnames]. rewrite Forall_forall in Hok.
  assert (forall key rec, (key, rec) ∈ es -> rg_exact r !! key = Some rec) as Hlook.
  { intros key rec Hin. rewrite Hex. apply elem_of_list_to_map_1; [apply (cs_unique _ _ _ Hes)|done]. }
  split_and!.
  - intros Hne surface. rewrite Hdef in Hne. destruct (va_default _ Hv Hne) as (provider & Hin & Hen). destruct (Hnames _ _ Hin) as (rec & Hrec & Hre).
    unfold Resolve. rewrite (bool_decide_eq_true_2 (TrimSpace [] = [])) by done. rewrite Hdef, (bool_decide_eq_false_2 _ Hne), modelKey_trim, (Hlook _ _ Hrec).
    destruct (entry_resolves (_, rec) (TrimSpace (ac_DefaultModel cfg)) (Hok _ Hrec)) as (a & effort & H & _); [by rewrite <- Hen|by exists a, effort].
  - intros listed Hl surface. cbn [List] in Hl. apply list_elem_of_fmap in Hl as ([key a] & -> & Hl). apply elem_of_sortedFields in Hl. cbn [snd].
    rewrite Had, lookup_omap_Some in Hl. destruct Hl as (rec & Ha & Hk). destruct (ra_Advertise (rr_resolved rec)) eqn:Eadv; [|done]. injection Ha as <-.
    rewrite Hex in Hk. apply elem_of_list_to_map_2 in Hk. destruct (Hok _ Hk) as [(H1 & H2 & H3) He Hd Hli]. cbn [fst snd] in *.
    unfold Resolve. rewrite H2, (bool_decide_eq_false_2 _ H3), <- H1, (Hlook _ _ Hk).
    destruct (entry_resolves (key, rec) (ra_Alias (rr_resolved rec)) (Hok _ Hk)) as (a & effort & H & Hw); [by apply Hli|by exists a, effort].
  - rewrite Hrt. apply Forall_map. eapply Forall_impl; [apply (va_routes _ Hv)|]. by intros route [_ ?].
Qed.
End spec.

Lemma validated_builds_witness :
  let cfg := sampleConfig (lit "my") [] in
  validateAdapterModelCatalog (fun r => r) (fun A => @sortedFields A) cfg = Ok tt /\ exists r, NewRegistry (fun r => r) cfg 0 = Ok r.
Proof.
  split; [vm_compute; reflexivity|].
  apply (validated_builds (fun r => r) (fun A => @sortedFields A) (fun A m => sortedFields_perm m) (sampleConfig (lit "my") []) 0 tt); [vm_compute; reflexivity..|].
  split; [apply (bool_decide_unpack _); vm_compute; exact I|]. split.
  - apply Forall_forall, (bool_decide_unpack _). vm_compute. exact I.
  - apply Forall_forall. intros m Hm H. vm_compute in Hm. exfalso. apply H. apply list_elem_of_singleton in Hm as ->. reflexivity.
Defined.

Lemma validated_resolves_witness :
  let cfg := sampleConfig (lit "my") [] in
  exists r, NewRegistry (fun r => r) cfg 0 = Ok r /\ exists a effort, Resolve (fun r => r) (Some r) (lit "openai") [] [] = Ok (a, effort).
Proof.
  assert (match NewRegistry (fun r => r) (sampleConfig (lit "my") []) 0 with Ok r => rg_defaultModel r | _ => [] end = lit "fast") as Hd by (vm_compute; reflexivity).
  destruct (NewRegistry (fun r => r) (sampleConfig (lit "my") []) 0) as [r|e|] eqn:E; [|discriminate Hd..].
  exists r. split; [exact E|].
  assert (validateAdapterModelCatalog (fun r => r) (fun A => @sortedFields A) (sampleConfig (lit "my") []) = Ok tt) as Hv by (vm_compute; reflexivity).
  destruct (validated_resolves (fun r => r) (fun A => @sortedFields A) (fun A m => sortedFields_perm m) (sampleConfig (lit "my") []) 0 tt r Hv E) as [H _].
  apply H. rewrite Hd. discriminate.
Defined.
